(* ===== verification/_CoqProject ===== *)
-Q . S2P
Prelude.v
Bytes.v
Base64.v
Masking.v
MaskStream.v
UrlMask.v
WorkerCommands.v
Json.v
Lexer.v
ExprParser.v
ExprText.v
JsonLenient.v
ExprEval.v
ExprSafety.v
EvalBudgets.v
SecretReads.v
Conditions.v
ParseContext.v
Models.v
Template.v
NeedsDag.v
Matrix.v
Glob.v
Trigger.v
Labels.v
Scheduler.v
GithubBreaker.v
Rerun.v
EnvGate.v
TokenPermissions.v
Concurrency.v
WorkflowModel.v
WorkflowCheck.v
ReusableRefs.v
TemplateTokens.v
ExpandJobs.v
CallTree.v
ReusableCalls.v
ConditionText.v
CallChecks.v
LiteGroups.v
LiteRequests.v
LiteJobs.v
LitePromote.v
LiteProgress.v
LiteSweep.v
LiteRuns.v
CacheStore.v
StepLog.v
DapFraming.v
FileCommands.v
StepReports.v
StepRun.v
CompositeSteps.v
