(* ===== verification/Prelude.v ===== *)
(** * preloop: a verification development of the engine's core logic

    preloop is a self-hosted equivalent of GitHub Actions.  Its engine accepts
    workflows, evaluates their [${{ }}] expressions, expands their matrices,
    plans their jobs along [needs], matches the jobs with runners, gates them
    by environment rules and concurrency groups, and settles their results.
    This library models the parts of the engine that decide, as executable
    definitions, and proves what the decisions mean.  The paths below are under
    [crates/].

    ** The parts and how they interact

    A workflow file reaches [preloop-gha-parser]: the trigger matcher says
    whether the event starts it, its expressions are validated against the
    contexts of their places, and the expander makes one plan for each cell of
    each job's matrix, ordered by the needs graph.  A call of a reusable workflow
    is one node until its condition holds; then the jobs of the called workflow
    take its place, with no more authority than the node, and calls inside them
    become nodes again.  A matrix that reads the outputs of its needs is kept
    back until they exist.  Every [${{ }}] text goes through
    [preloop-gha-expressions]: lexer, parser, cache, evaluator.  The control
    plane, [preloop-runner-server], keeps the jobs in a database: sweeps admit
    the jobs whose needs, environment gates and concurrency groups allow it,
    runners claim them by their labels, and completions settle them and release
    what they hold.  A claimed job is an execution attempt with a lease that
    its runner renews; the reaper fails the attempts whose lease has run out.
    On the runner, [preloop-runner] takes the steps in turn, with the hooks of
    their actions, decides by their conditions, and reports each of them; it
    logs what they print, handles the commands in it and the files they write,
    and masks every secret, in any encoding, before a byte leaves the process;
    [preloop-cache] keeps the caches that jobs save and restore, and [preloop-dap] frames the messages of
    the debugger attached to a job.

    ** The files

    - [Prelude]: results and their monad, UTF-8, Rust's strings and characters,
      ordered maps, arithmetic and list lemmas shared by all.
    - [Bytes]: UTF-8 checks, lossy decoding and searches on byte lists.
    - [Base64], [Masking]: [masking.rs] of [preloop-gha-protocol]: secret
      variants, the base64 pass, pattern hints and the scan that masks.
    - [MaskStream], [UrlMask]: the streaming masker and the URL helpers of the
      same file.
    - [WorkerCommands], [StepLog]: [worker/commands.rs], and the log and the
      masks of a step in [execution_context.rs] and [contexts.rs], of
      [preloop-runner].
    - [FileCommands]: [worker/file_commands.rs].
    - [StepReports]: the queue of step updates of [worker/server_queue.rs] with
      the merge of [step_records.rs], and its flushes to the server as a
      protocol in which requests fail.
    - [StepRun]: [run_steps] of [worker/steps_runner.rs], the hooks of
      [job_extension.rs] and the contexts of [contexts.rs] that conditions read;
      what processes do is an input of the loop.
    - [CompositeSteps]: the loop of [handlers/composite.rs] over the steps of a
      composite action, and the outputs it writes.
    - [Json]: [serde_json::Value] over the interfaces [NumberOps] and
      [JsonCodec], which stand for the [serde_json] crate, and 64-bit floats.
    - [Lexer], [ExprParser]: [lexer.rs], [ast.rs] and [expr_parser.rs]; the
      parser's cursor and depth are a state, threaded by a parser monad.
    - [ExprText], [JsonLenient], [ExprEval]: [evaluator.rs] and [context.rs];
      the temporary-memory budget is threaded through evaluation.
    - [ExprSafety], [EvalBudgets]: bounds and safety of evaluation, and that the
      remaining budget decides only whether a value is refused for its size.
    - [SecretReads], [Conditions]: the static collectors, the implicit
      [success()] gate and the shared cache of [lib.rs] and [conditions.rs].
      [ParseContext] shows what the parser makes of a text put between
      parentheses or among the arguments of a call.
    - [Models]: shared data of the parser and the server.
    - [Template]: [eval.rs] of [preloop-gha-parser] and the scan for the end of
      an expression in [expr_scan.rs] of [preloop-gha-protocol].
    - [WorkflowModel], [WorkflowCheck]: the data of [models.rs] with dispatch
      inputs, and the validation of a workflow's expressions with
      [parse_workflow]; the [serde] readers are the interface
      [WorkflowReaders].
    - [TemplateTokens]: the template tokens of [job_builder.rs].
    - [ReusableRefs], [ExpandJobs], [CallTree], [ReusableCalls]: [expand.rs]:
      references of called workflows, plans of jobs and matrix cells, the walk
      over the calls, nodes of calls and their materialization.
      [ConditionText] and [CallChecks] join them with the parser and the
      checks of the callee.
    - [NeedsDag], [Matrix]: [dag.rs] and [matrix_expand.rs] of
      [preloop-gha-parser].
    - [Glob], [Trigger]: [trigger.rs] of [preloop-gha-parser].
    - [Labels], [Scheduler], [Rerun]: the pure decisions of
      [control/logic.rs] and [runtime_scheduling.rs] of
      [preloop-runner-server].
    - [EnvGate]: the environment gates of [runtime_scheduling.rs].
    - [TokenPermissions]: the permissions of [expand.rs],
      [events/trust_tier.rs], [token_ceiling.rs] and [github_app.rs].
    - [Concurrency]: [concurrency.rs] and the admission decisions of
      [control/logic.rs].
    - [LiteGroups]: the concurrency tables of the embedded backend and the
      operations of [control/lite/concurrency.rs], the release paths of
      [settle.rs] and the group part of [reconcile_on_boot].
    - [LiteRequests]: the execution attempts, leases and sessions of the
      embedded backend: [control/lite/requests.rs] and the statements of the
      other files on those tables, as commands on one database value.
    - [LiteJobs], [LitePromote]: the jobs of a run in the embedded backend:
      settlement, fail-fast and cancellation of [settle.rs] with the statements
      of [jobs.rs], and the promotion sweep of [promote.rs].  A release can
      promote another run, which settles jobs, which release: [LiteJobs] takes
      the functions it comes back to as a [Cascade], and [LitePromote] ties the
      knot.  [LiteProgress] and [LiteSweep] follow the rows of one run through
      an operation and through the sweep, [LiteRuns] through any commands.
    - [GithubBreaker]: [github_breaker.rs] of [preloop-runner-server].
    - [CacheStore]: [preloop-cache].
    - [DapFraming]: [framing.rs] of [preloop-dap].

    ** What the theorems show

    - Masking: the scan implements its specification, which says what is hidden
      and that nothing else is; no secret or encoding that is UTF-8, has no
      asterisk and is not made of line ends only survives in its output, or in the
      stream's, however it is cut between characters; a base64 token that holds a
      secret at any alignment is hidden as a whole; the tail the stream withholds
      is bounded.
    - The step log: every record is masked, counters and messages of annotations
      stay within their bounds, stopped commands are inert, a new mask is applied
      to what was logged before, and chunks do not matter.  Which records the file
      of the log takes is the interface [LogFile].
    - Files, commands and frames: a command and a file are read back as written;
      a key-value file has exactly one reading; [NODE_OPTIONS] cannot be set;
      declared artifacts are stable; the framed reader does not depend on how
      the stream arrives.
    - The steps of a job: what its verdict means, that a failure stops every
      step whose condition names no status function, that post hooks follow
      their actions, that every step is reported under its number with the
      conclusion the job records, and that no transition is lost on the way to
      the server while requests fail; when a composite action succeeds, and
      that outputs of one line are read back as written.
    - Execution attempts: the database stays well formed under every command (a
      runner has one verified session as long as [create_session], which does not
      look for another, makes none), the first result is final, only the owner
      renews, leases expire exactly at their limit, and the tick sweeps every run
      it must.
    - The cache: archives are immutable, what is evicted is least recently used
      and needed to go, unless it cannot be removed (the interface [Removals]); a
      restore follows the documented order and never crosses a namespace.
    - Expressions: the lexer reads back what is rendered and normalises its
      input; the parser terminates on every token list within its depth limit;
      a parsed expression never meets the evaluator's recursion ceiling; a
      validated one never fails for a function's name or arity; every value is
      within the memory budget; the collected secrets are all that can matter
      to the value; the cache is invisible.
    - Workflows: cycle detection, topological layers and the dependency closure
      against the graph's reachability; job plan validation; the documented
      order of matrix expansion and the limits of the bounded one; glob and
      trigger matching against declarative specifications; name caps; the inputs
      of a dispatch.
    - Templates: a text is resolved piece by piece; the texts of a parsed
      workflow fail only in evaluation; what is resolved when a job is built
      does not depend on what its needs will give; the [format()] call sent to a
      runner evaluates to the server's own text, up to 254 expressions and within
      the budgets.
    - Expansion: the plans of a job are its matrix cells in order; a deferred
      matrix yields the cells of the matrix with its values in place; the call
      tree is at most nine calls deep, without cycles, with at most fifty
      workflows; which calls are accepted, with which inputs; where the jobs of
      a call land, what they wait for, and that their merged conditions parse as
      the conjunction; a local reference of a remote workflow stays in its
      repository at its pin.
    - Scheduling: label matching, claim preference, starvation, needs
      aggregation, [max-parallel], first-result-wins, the implicit success gate,
      event stamps, re-run sets, and exactly when an environment gate opens.
    - Authority: along any chain of calls, permissions, identity tokens and
      inherited secrets only shrink (the cells of a deferred matrix inside a
      called workflow excepted, see [deferred_cells_escape_reduction]); runs of
      untrusted code are read-only, and no installation token asks for more than
      its job has, under any ceiling and any grants.
    - Concurrency groups: what each outcome of an acquisition leaves in the
      tables, and that a release hands the slot over in the order of arrival.
      [acquire] takes the cancellation of a holder as an argument, which the sweep
      of [LitePromote] supplies.
    - Runs of the embedded backend, as long as they use no concurrency group:
      the sweep ends and leaves no job blocked whose needs are final but for
      [max-parallel]; under sweeps, completions, claims, cancellations, expiries
      and starvations a job starts only when its needs are met and verdicts are
      final between commands; cancelling a run tells each attempt in flight and
      fail-fast reaches exactly the jobs it should.
    - The circuit breaker: every key recovers, probes are spaced, keys do not
      disturb each other, the books balance.
    - Where the code departs from its documentation or from the other backend,
      the departure is a theorem too ([same_run_takeover_fails],
      [single_drops_same_run_waiter], [reconcile_fails_with_waiter],
      [expanded_job_id_collision], [decrement_below_zero],
      [implicit_success_gate_escaped], [array_index_projects],
      [split_character_leaks], [annotate_panics_inside_character],
      [stale_snapshot_fails_renewed_attempt], [namespace_forged],
      [cancel_job_strands_dependents], [sweep_revives_cancelled_leg],
      [deferred_include_fails], [outer_call_overrides_nested],
      [caller_inputs_not_seen], [deferred_cells_escape_reduction],
      [always_reaches_inner_jobs], [aborted_flush_loses_transition],
      [background_failure_after_post_hooks],
      [panicked_background_step_succeeds], [multiline_output_injects] and others).

    ** Conventions

    Strings are byte strings holding UTF-8, as in Rust; a [char] is its code
    point.  [usize] and [u64] counters that the code bounds or saturates have
    their saturation written out; indices and lengths of values held in memory
    are [nat].  A [BTreeMap] keyed by strings is a [gmap], iterated in byte order
    through [btree_keys]; an [indexmap] or [serde_json] object is an association
    list; the entries of a directory too, in the order it lists them.  Text that is
    scanned byte by byte (masking, file commands, frames) is a list of bytes.
    Instants are nanoseconds in [Z] or [N], microseconds in the database, as
    there.  Code outside the repository is a parameter: the number type and text
    codec of [serde_json], Unicode case tables, [Uuid], time stamps of [chrono],
    base64 engines, SHA-256, the order of a hash set, the readers of [serde],
    [hash_files], the files of the workspace, and which writes to the log and
    removals from the cache fail.

    Recursions that are not structural take fuel: text scans one unit per
    character, the parser one per token and per depth level, the searches of
    [NeedsDag], [Rerun] and [Scheduler] one per node or edge, the automaton one
    per state, the masking scans and the file reader one per byte and two more, a
    sweep one per blocked job, a cancelled subtree one per row, templates one per
    character and one more, the walk over the calls one per level: ten, where the
    depth limit is nine calls.
    That the fuel given is enough is part of the theorems on the
    operations ([parse_total], [detect_needs_cycle_spec], [topo_layers_spec],
    [dependency_closure_spec], [rerun_set_spec], [glob_match_spec],
    [implicit_success_gate], [parse_kv_spec], [mask_secrets_inner_spec], [framed_reader_stream],
    [no_job_stranded], [resolve_string_spec], [call_tree_bounded]) or a lemma next to the scan ([normalize_fuel],
    [format_fuel], [contains_status_check_fuel]), so running out of fuel is never
    a result.

    ** What is not modelled

    The PostgreSQL backend (its SQL is the program; the decisions it shares are
    modelled), submission, expansion and reads of the embedded one, the pool
    assignments and time stamps of its jobs, the HTTP and broker handlers, the YAML
    reader (an interface), the rest of the job builder (it assembles a message
    from JSON values) and its reader on the runner, the processes and containers a
    runner starts (inputs of [StepRun] and [CompositeSteps]), the debugger of failed steps, the sandbox
    and orchestrator processes, the messages of the debug adapter, the artifact
    store, the command line, GitHub App networking, observability.  Of the
    modelled files: other failures of the file system in the cache store, the list of
    artifacts written for the next step, problem matchers (a parameter of the
    step log). *)
From stdpp Require Export base numbers option list gmap strings sorting fin_maps pretty relations.
From Stdlib Require Export Ascii NArith ZArith Lia ZifyBool ZifyN.
From Stdlib Require String.
Export (notations) String.

Set Default Proof Using "Type".
#[export] Set Warnings "-clear-no-such-hyp,-register-all".

(** ** Results

    Rust's [Result<A, E>], with the error type first so that [result E] is a
    monad in the sense of stdpp ([x ← c; k] is the [?] operator). *)

Inductive result (E A : Type) : Type :=
| Ok (a : A)
| Err (e : E).
Arguments Ok {E A} a.
Arguments Err {E A} e.

#[global] Instance result_ret E : MRet (result E) := λ A a, Ok a.
#[global] Instance result_bind E : MBind (result E) := λ A B f r,
  match r with Ok a => f a | Err e => Err e end.
#[global] Instance result_fmap E : FMap (result E) := λ A B f r,
  match r with Ok a => Ok (f a) | Err e => Err e end.
#[global] Instance result_eq_dec {E A} `{EqDecision E, EqDecision A} :
  EqDecision (result E A).
Proof. solve_decision. Defined.

Definition map_err {E F A} (f : E → F) (r : result E A) : result F A :=
  match r with Ok a => Ok a | Err e => Err (f e) end.

Definition is_ok {E A} (r : result E A) : bool :=
  match r with Ok _ => true | Err _ => false end.

Definition ok_or {E A} (e : E) (o : option A) : result E A :=
  match o with Some a => Ok a | None => Err e end.

(** ** Characters and strings

    A Rust [char] is a Unicode scalar value, here its number; a [&str] or
    [String] is its UTF-8 byte sequence, here a [string] of bytes.  [chars]
    is [str::chars] and [of_chars] collects characters back into a string. *)

Abbreviation char := N.

Definition ch (a : ascii) : char := N_of_ascii a.
Arguments ch a%_char : simpl never.

Definition is_scalar (c : char) : bool :=
  ((c <? 55296) || ((57343 <? c) && (c <? 1114112)))%N.

Module Utf8.

Definition bytes (s : string) : list N := N_of_ascii <$> String.list_ascii_of_string s.
Definition of_bytes (bs : list N) : string := String.string_of_list_ascii (ascii_of_N <$> bs).

Definition encode_char (c : char) : list N :=
  (if c <? 128 then [c]
   else if c <? 2048 then [192 + c / 64; 128 + c mod 64]
   else if c <? 65536 then [224 + c / 4096; 128 + (c / 64) mod 64; 128 + c mod 64]
   else [240 + c / 262144; 128 + (c / 4096) mod 64; 128 + (c / 64) mod 64; 128 + c mod 64])%N.

(** Decoding reads the length from the lead byte; on the byte sequences of
    Rust strings, which are valid UTF-8, no other check is needed. *)
Fixpoint decode (bs : list N) : list char :=
  match bs with
  | [] => []
  | b0 :: r0 =>
      if (b0 <? 128)%N then b0 :: decode r0 else
      match r0 with
      | [] => [b0]
      | b1 :: r1 =>
          if (b0 <? 224)%N then ((b0 - 192) * 64 + (b1 - 128))%N :: decode r1 else
          match r1 with
          | [] => [b0]
          | b2 :: r2 =>
              if (b0 <? 240)%N
              then ((b0 - 224) * 4096 + (b1 - 128) * 64 + (b2 - 128))%N :: decode r2
              else
              match r2 with
              | [] => [b0]
              | b3 :: r3 =>
                  ((b0 - 240) * 262144 + (b1 - 128) * 4096 + (b2 - 128) * 64
                   + (b3 - 128))%N :: decode r3
              end
          end
      end
  end.

End Utf8.

Definition chars (s : string) : list char := Utf8.decode (Utf8.bytes s).
Definition of_chars (cs : list char) : string :=
  Utf8.of_bytes (flat_map Utf8.encode_char cs).

Definition len_utf8 (c : char) : nat := length (Utf8.encode_char c).
Definition len_utf16 (c : char) : nat := if (c <? 65536)%N then 1 else 2.

(** [char::is_whitespace]: the Unicode [White_Space] property. *)
Definition is_whitespace (c : char) : bool :=
  ((9 <=? c) && (c <=? 13) || (c =? 32) || (c =? 133) || (c =? 160) || (c =? 5760)
   || ((8192 <=? c) && (c <=? 8202)) || (c =? 8232) || (c =? 8233) || (c =? 8239)
   || (c =? 8287) || (c =? 12288))%N.

Definition in_range (lo hi : ascii) (c : char) : bool := ((ch lo <=? c) && (c <=? ch hi))%N.
Arguments in_range lo%_char hi%_char c.
Definition is_ascii_digit (c : char) : bool := in_range "0" "9" c.
Definition is_ascii_lower (c : char) : bool := in_range "a" "z" c.
Definition is_ascii_upper (c : char) : bool := in_range "A" "Z" c.
Definition is_ascii_alphabetic (c : char) : bool := is_ascii_lower c || is_ascii_upper c.
Definition is_ascii_alphanumeric (c : char) : bool := is_ascii_alphabetic c || is_ascii_digit c.

(** [str::trim] and its halves, on characters. *)
Fixpoint trim_start_chars (cs : list char) : list char :=
  match cs with
  | c :: r => if is_whitespace c then trim_start_chars r else cs
  | [] => []
  end.
Definition trim_end_chars (cs : list char) : list char :=
  reverse (trim_start_chars (reverse cs)).
Definition trim (s : string) : string :=
  of_chars (trim_end_chars (trim_start_chars (chars s))).

(** ASCII case mapping works bytewise; non-ASCII bytes are unchanged. *)
Definition lower_byte (b : N) : N :=
  if is_ascii_upper b then (b + 32)%N else b.
Definition upper_byte (b : N) : N :=
  if is_ascii_lower b then (b - 32)%N else b.
Definition lower_ascii (a : ascii) : ascii := ascii_of_N (lower_byte (N_of_ascii a)).
Definition upper_ascii (a : ascii) : ascii := ascii_of_N (upper_byte (N_of_ascii a)).

Fixpoint string_map (f : ascii → ascii) (s : string) : string :=
  match s with EmptyString => EmptyString | String a r => String (f a) (string_map f r) end.

Definition to_ascii_lowercase (s : string) : string := string_map lower_ascii s.
Definition to_ascii_uppercase (s : string) : string := string_map upper_ascii s.
Definition eq_ignore_ascii_case (a b : string) : bool :=
  bool_decide (to_ascii_lowercase a = to_ascii_lowercase b).
Definition is_ascii (s : string) : bool :=
  forallb (λ b, (b <? 128)%N) (Utf8.bytes s).

Definition str_eqb (a b : string) : bool := bool_decide (a = b).

Fixpoint strip_prefix (p s : string) : option string :=
  match p, s with
  | EmptyString, _ => Some s
  | String a p', String b s' => if decide (a = b) then strip_prefix p' s' else None
  | String _ _, EmptyString => None
  end.
Definition starts_with (p s : string) : bool := bool_decide (is_Some (strip_prefix p s)).

Definition str_rev (s : string) : string :=
  String.string_of_list_ascii (reverse (String.list_ascii_of_string s)).
Definition strip_suffix (p s : string) : option string :=
  str_rev <$> strip_prefix (str_rev p) (str_rev s).

(** [haystack.contains(needle)]. *)
Fixpoint str_contains (needle hay : string) : bool :=
  starts_with needle hay ||
  match hay with EmptyString => false | String _ r => str_contains needle r end.

(** [slice.join(sep)]. *)
Definition join (sep : string) (l : list string) : string := String.concat sep l.

(** ** Ordered maps

    A [BTreeMap<String, _>] is a [gmap]; where the code iterates it, the keys
    come in the byte order of the strings. *)
Definition btree_keys {A} (m : gmap string A) : list string :=
  merge_sort String.le (map_to_list m).*1.
Definition btree_set_elems (s : gset string) : list string :=
  merge_sort String.le (elements s).

(** An insertion-ordered map ([IndexMap], and [serde_json::Map], which the
    workspace builds with [preserve_order]): the entries in insertion order. *)
Abbreviation imap A := (list (string * A)).

Section imap.
Context {A : Type}.
Implicit Types (m : imap A) (k : string).

Fixpoint imap_get k m : option A :=
  match m with
  | [] => None
  | (k', v) :: r => if decide (k = k') then Some v else imap_get k r
  end.

Definition imap_contains k m : bool := bool_decide (is_Some (imap_get k m)).

(** [insert] replaces the value of a key in place, or appends the entry. *)
Fixpoint imap_insert k (v : A) m : imap A :=
  match m with
  | [] => [(k, v)]
  | (k', v') :: r => if decide (k = k') then (k', v) :: r else (k', v') :: imap_insert k v r
  end.

(** [shift_remove] drops the entry and keeps the order of the others. *)
Fixpoint imap_shift_remove k m : imap A :=
  match m with
  | [] => []
  | (k', v) :: r => if decide (k = k') then r else (k', v) :: imap_shift_remove k r
  end.

Definition imap_extend m (extra : imap A) : imap A :=
  foldl (λ acc '(k, v), imap_insert k v acc) m extra.

End imap.

(** ** Tactics *)

(** Decide one comparison of the goal by linear arithmetic. *)
Ltac cmp_true :=
  match goal with
  | |- context [(?a <? ?b)%N] => rewrite (proj2 (N.ltb_lt a b)) by lia
  | |- context [(?a <=? ?b)%N] => rewrite (proj2 (N.leb_le a b)) by lia
  | |- context [?a <? ?b] => rewrite (proj2 (Nat.ltb_lt a b)) by lia
  | |- context [?a <=? ?b] => rewrite (proj2 (Nat.leb_le a b)) by lia
  end.
Ltac cmp_false :=
  match goal with
  | |- context [(?a <? ?b)%N] => rewrite (proj2 (N.ltb_ge a b)) by lia
  | |- context [(?a <=? ?b)%N] => rewrite (proj2 (N.leb_gt a b)) by lia
  | |- context [?a <? ?b] => rewrite (proj2 (Nat.ltb_ge a b)) by lia
  | |- context [?a <=? ?b] => rewrite (proj2 (Nat.leb_gt a b)) by lia
  end.

(** Case analysis on every match and [if] on the path to the goal. *)
Ltac case_all :=
  repeat first [progress simplify_eq/= | case_decide | case_match].

(** Move the boolean tests of the code into propositions. *)
Ltac bool_to_prop :=
  repeat match goal with
  | H : bool_decide _ = true |- _ => apply bool_decide_eq_true in H
  | H : bool_decide _ = false |- _ => apply bool_decide_eq_false in H
  | H : (_ && _) = true |- _ => apply andb_true_iff in H as [? ?]
  | H : (_ || _) = false |- _ => apply orb_false_iff in H as [? ?]
  | H : negb _ = true |- _ => apply negb_true_iff in H
  | H : negb _ = false |- _ => apply negb_false_iff in H
  | H : (_ <=? _) = true |- _ => apply Nat.leb_le in H
  | H : (_ <=? _) = false |- _ => apply Nat.leb_gt in H
  | H : (_ <? _) = true |- _ => apply Nat.ltb_lt in H
  | H : (_ <? _) = false |- _ => apply Nat.ltb_ge in H
  | H : (_ <=? _)%N = true |- _ => apply N.leb_le in H
  | H : (_ <=? _)%N = false |- _ => apply N.leb_gt in H
  | H : (_ <? _)%N = true |- _ => apply N.ltb_lt in H
  | H : (_ <? _)%N = false |- _ => apply N.ltb_ge in H
  | H : (_ =? _)%N = true |- _ => apply N.eqb_eq in H
  | H : (_ =? _)%N = false |- _ => apply N.eqb_neq in H
  | H : (_ <=? _)%Z = true |- _ => apply Z.leb_le in H
  | H : (_ <=? _)%Z = false |- _ => apply Z.leb_gt in H
  | H : (_ <? _)%Z = true |- _ => apply Z.ltb_lt in H
  | H : (_ <? _)%Z = false |- _ => apply Z.ltb_ge in H
  | H : (_ =? _)%Z = true |- _ => apply Z.eqb_eq in H
  | H : (_ =? _)%Z = false |- _ => apply Z.eqb_neq in H
  end.

(** Replace character literals by their code points. *)
Ltac eval_ch :=
  repeat match goal with
  | |- context [ch ?a] => let v := eval vm_compute in (ch a) in change (ch a) with v
  | H : context [ch ?a] |- _ => let v := eval vm_compute in (ch a) in change (ch a) with v in H
  end.

Create HintDb preloop.

(** ** Lemmas on results *)

Lemma bind_Ok {E A B} (f : A → result E B) (r : result E A) b :
  r ≫= f = Ok b ↔ ∃ a, r = Ok a ∧ f a = Ok b.
Proof.
  destruct r as [a|e]; simpl; split; [by exists a| |done|].
  - by intros (? & [= ->] & ?).
  - by intros (? & ? & ?).
Qed.

Lemma is_ok_true {E A} (r : result E A) : is_ok r = true ↔ ∃ a, r = Ok a.
Proof. destruct r as [a|e]; split; [by exists a|done|done|by intros []]. Qed.

(** ** Lemmas on UTF-8 *)

Lemma bytes_lt s : Forall (λ b, (b < 256)%N) (Utf8.bytes s).
Proof.
  unfold Utf8.bytes. apply Forall_fmap, Forall_forall. intros a _. apply N_ascii_bounded.
Qed.

Lemma list_ascii_of_bytes bs :
  Forall (λ b, (b < 256)%N) bs → Utf8.bytes (Utf8.of_bytes bs) = bs.
Proof.
  unfold Utf8.bytes, Utf8.of_bytes. intros H.
  rewrite String.list_ascii_of_string_of_list_ascii, <-list_fmap_compose.
  induction H as [|b bs Hb _ IH]; [done|]. csimpl. rewrite IH. f_equal.
  apply N_ascii_embedding. lia.
Qed.

(** Linear arithmetic with division and remainder by constants. *)
Ltac div_mod_lia := zify; Z.to_euclidean_division_equations; lia.

Lemma encode_char_bytes c : (c < 1114112)%N → Forall (λ b, (b < 256)%N) (Utf8.encode_char c).
Proof.
  intros Hc. unfold Utf8.encode_char.
  repeat case_match; bool_to_prop; repeat apply Forall_cons_2; try apply Forall_nil_2;
    div_mod_lia.
Qed.

Lemma decode_encode_char c r :
  (c < 1114112)%N → Utf8.decode (Utf8.encode_char c ++ r) = c :: Utf8.decode r.
Proof.
  intros Hc. unfold Utf8.encode_char.
  repeat case_match; bool_to_prop; cbn [app Utf8.decode];
    repeat match goal with
    | |- context [(?a <? ?b)%N] =>
        first [rewrite (proj2 (N.ltb_lt a b)) by div_mod_lia
              |rewrite (proj2 (N.ltb_ge a b)) by div_mod_lia]
    end; f_equal; div_mod_lia.
Qed.

Lemma is_scalar_lt c : is_scalar c = true → (c < 1114112)%N.
Proof. unfold is_scalar. rewrite orb_true_iff. intros [H|H]; bool_to_prop; lia. Qed.

(** Collecting characters into a string and iterating them again is the
    identity on sequences of Unicode scalar values. *)
Lemma chars_of_chars cs : Forall (λ c, is_scalar c = true) cs → chars (of_chars cs) = cs.
Proof.
  intros H. unfold chars, of_chars. rewrite list_ascii_of_bytes.
  - induction H as [|c cs Hc _ IH]; [done|]. cbn [flat_map].
    rewrite decode_encode_char by (by apply is_scalar_lt). by rewrite IH.
  - induction H as [|c cs Hc _ IH]; [constructor|]. cbn [flat_map].
    apply Forall_app; split; [|done]. by apply encode_char_bytes, is_scalar_lt.
Qed.

(** A string that holds valid UTF-8. *)
Definition utf8_ok (s : string) : Prop :=
  ∃ cs, Forall (λ c, is_scalar c = true) cs ∧ s = of_chars cs.

Lemma of_chars_chars s : utf8_ok s → of_chars (chars s) = s.
Proof. intros (cs & Hcs & ->). by rewrite chars_of_chars. Qed.

Lemma of_chars_utf8_ok cs : Forall (λ c, is_scalar c = true) cs → utf8_ok (of_chars cs).
Proof. by exists cs. Qed.

Lemma of_bytes_app a b : Utf8.of_bytes (a ++ b) = Utf8.of_bytes a +:+ Utf8.of_bytes b.
Proof.
  unfold Utf8.of_bytes. rewrite fmap_app. induction (ascii_of_N <$> a) as [|x l IH]; [done|].
  simpl. by rewrite IH.
Qed.

Lemma of_chars_app a b : of_chars (a ++ b) = of_chars a +:+ of_chars b.
Proof. unfold of_chars. by rewrite flat_map_app, of_bytes_app. Qed.

Lemma chars_app a b : utf8_ok a → utf8_ok b → chars (a +:+ b) = chars a ++ chars b.
Proof.
  intros Ha Hb. rewrite <- (of_chars_chars a Ha) at 1. rewrite <- (of_chars_chars b Hb) at 1.
  rewrite <- of_chars_app. apply chars_of_chars. destruct Ha as (xs & Hx & ->), Hb as (ys & Hy & ->).
  rewrite !chars_of_chars by done. by apply Forall_app.
Qed.

#[export] Hint Resolve of_chars_utf8_ok is_scalar_lt : preloop.

(** ** Trimming twice *)
Lemma trim_start_suffix cs : ∃ ws, cs = ws ++ trim_start_chars cs.
Proof.
  induction cs as [|c cs [ws Hw]]; simpl; [by exists []|].
  destruct (is_whitespace c); [exists (c :: ws); simpl; by f_equal|by exists []].
Qed.

Lemma trim_start_fixed cs :
  trim_start_chars cs = cs ↔ match cs with c :: _ => is_whitespace c = false | [] => True end.
Proof.
  destruct cs as [|c cs]; simpl; [done|]. destruct (is_whitespace c); split; try done.
  intros He. destruct (trim_start_suffix cs) as [ws Hw]. rewrite He in Hw.
  apply (f_equal length) in Hw. rewrite length_app in Hw. simpl in Hw. lia.
Qed.

Lemma trim_start_idem cs : trim_start_chars (trim_start_chars cs) = trim_start_chars cs.
Proof.
  induction cs as [|c cs IH]; simpl; [done|]. destruct (is_whitespace c) eqn:Hc; [done|].
  by apply trim_start_fixed.
Qed.

Lemma trim_end_prefix cs : ∃ ws, cs = trim_end_chars cs ++ ws.
Proof.
  unfold trim_end_chars. destruct (trim_start_suffix (reverse cs)) as [ws Hw]. exists (reverse ws).
  rewrite <- reverse_app, <- Hw. by rewrite reverse_involutive.
Qed.

Lemma trim_end_idem cs : trim_end_chars (trim_end_chars cs) = trim_end_chars cs.
Proof. unfold trim_end_chars. by rewrite reverse_involutive, trim_start_idem. Qed.

Lemma trim_trim s : utf8_ok s → trim (trim s) = trim s.
Proof.
  intros (cs & Hcs & ->). unfold trim. rewrite (chars_of_chars cs) by done.
  set (ds := trim_start_chars cs). set (es := trim_end_chars ds).
  destruct (trim_start_suffix cs) as [ws Hw]. destruct (trim_end_prefix ds) as [vs Hv].
  assert (Forall (λ c, is_scalar c = true) es) as Hes.
  { rewrite Hw in Hcs. apply Forall_app in Hcs as [_ Hcs]. fold ds in Hcs. rewrite Hv in Hcs.
    by apply Forall_app in Hcs as [? _]. }
  rewrite chars_of_chars by done. f_equal.
  assert (trim_start_chars es = es) as ->; [|apply trim_end_idem].
  apply trim_start_fixed. fold es in Hv. destruct es as [|c es]; [done|].
  pose proof (trim_start_idem cs) as Hi. fold ds in Hi. rewrite Hv in Hi. by apply trim_start_fixed in Hi.
Qed.

(** Trimming keeps valid UTF-8, and changes nothing between two characters that
    are not white space. *)
Lemma trim_utf8_ok s : utf8_ok s → utf8_ok (trim s).
Proof.
  intros (cs & Hcs & ->). unfold trim. rewrite (chars_of_chars cs) by done. apply of_chars_utf8_ok.
  destruct (trim_start_suffix cs) as [ws Hw]. destruct (trim_end_prefix (trim_start_chars cs)) as [vs Hv].
  rewrite Hw in Hcs. apply Forall_app in Hcs as [_ Hcs]. rewrite Hv in Hcs. by apply Forall_app in Hcs as [? _].
Qed.

Lemma trim_fixed s c l x :
  utf8_ok s → chars s = c :: l ++ [x] → is_whitespace c = false → is_whitespace x = false → trim s = s.
Proof.
  intros Hs Hcs Hc Hx. unfold trim. rewrite Hcs. rewrite <- (of_chars_chars s Hs), Hcs. f_equal.
  simpl. rewrite Hc. unfold trim_end_chars. rewrite app_comm_cons, reverse_app. simpl. rewrite Hx.
  change (x :: reverse (c :: l)) with (reverse [x] ++ reverse (c :: l)).
  by rewrite <- reverse_app, reverse_involutive.
Qed.


(** ** Lemmas on insertion-ordered maps *)

Section imap_lemmas.
Context {A : Type}.
Implicit Types (m : imap A) (k : string).

Lemma imap_get_insert k k' v m :
  imap_get k (imap_insert k' v m) = if decide (k = k') then Some v else imap_get k m.
Proof.
  induction m as [|[k0 v0] m IH]; simpl; repeat case_decide; simplify_eq/=; auto;
    repeat case_decide; congruence.
Qed.

Lemma imap_get_insert_eq k v m : imap_get k (imap_insert k v m) = Some v.
Proof. rewrite imap_get_insert. by case_decide. Qed.

Lemma imap_get_insert_ne k k' v m : k ≠ k' → imap_get k (imap_insert k' v m) = imap_get k m.
Proof. intros. rewrite imap_get_insert. by case_decide. Qed.

Lemma imap_get_None k m : imap_get k m = None ↔ k ∉ m.*1.
Proof.
  induction m as [|[k0 v0] m IH]; csimpl; [set_solver|].
  case_decide; set_solver.
Qed.

Lemma imap_get_elem_of k v m : imap_get k m = Some v → (k, v) ∈ m.
Proof. induction m as [|[k0 v0] m IH]; simpl; [done|]. case_decide; set_solver. Qed.

Lemma elem_of_imap_get k v m : NoDup m.*1 → (k, v) ∈ m → imap_get k m = Some v.
Proof.
  induction m as [|[k0 v0] m IH]; csimpl; [set_solver|].
  intros [Hnin Hnd]%NoDup_cons [[= -> ->]|Hin]%elem_of_cons.
  - by rewrite decide_True.
  - rewrite decide_False; [auto|]. intros ->. apply Hnin, list_elem_of_fmap.
    by exists (k0, v).
Qed.

Lemma imap_insert_fresh k v m : k ∉ m.*1 → imap_insert k v m = m ++ [(k, v)].
Proof.
  induction m as [|[k0 v0] m IH]; csimpl; [done|]. intros Hk.
  rewrite decide_False by set_solver. f_equal. apply IH. set_solver.
Qed.

Lemma imap_shift_remove_app_fresh k v m :
  k ∉ m.*1 → imap_shift_remove k (m ++ [(k, v)]) = m.
Proof.
  induction m as [|[k0 v0] m IH]; csimpl; [by rewrite decide_True|]. intros Hk.
  rewrite decide_False by set_solver. f_equal. apply IH. set_solver.
Qed.

Lemma imap_insert_keys k v m : k ∈ m.*1 → (imap_insert k v m).*1 = m.*1.
Proof.
  induction m as [|[k0 v0] m IH]; csimpl; [set_solver|]. intros Hk.
  case_decide as Hd; csimpl; [done|]. rewrite IH; [done|]. set_solver.
Qed.

Lemma imap_insert_NoDup k v m : NoDup m.*1 → NoDup (imap_insert k v m).*1.
Proof.
  intros Hm. destruct (decide (k ∈ m.*1)) as [Hk|Hk]; [by rewrite imap_insert_keys|].
  rewrite imap_insert_fresh, fmap_app by done. apply NoDup_app.
  split_and!; [done|set_solver|apply NoDup_singleton].
Qed.

Lemma imap_extend_NoDup m extra : NoDup m.*1 → NoDup (imap_extend m extra).*1.
Proof.
  revert m. induction extra as [|[k v] extra IH]; intros m Hm; simpl; [done|].
  by apply IH, imap_insert_NoDup.
Qed.

Lemma imap_contains_true k m : imap_contains k m = true ↔ k ∈ m.*1.
Proof.
  unfold imap_contains. rewrite bool_decide_eq_true, <-not_eq_None_Some, imap_get_None.
  split; [intros H; by destruct (decide (k ∈ m.*1))|set_solver].
Qed.

End imap_lemmas.

#[export] Hint Resolve imap_insert_NoDup imap_extend_NoDup imap_get_elem_of : preloop.

(** ** Lemmas on ordered maps *)

Lemma elem_of_btree_keys {A} (m : gmap string A) k : k ∈ btree_keys m ↔ is_Some (m !! k).
Proof.
  unfold btree_keys. rewrite merge_sort_Permutation, list_elem_of_fmap. split.
  - intros ([k' v] & -> & Hin). apply elem_of_map_to_list in Hin. by eexists.
  - intros [v Hv]. exists (k, v). split; [done|]. by apply elem_of_map_to_list.
Qed.

Lemma NoDup_btree_keys {A} (m : gmap string A) : NoDup (btree_keys m).
Proof. unfold btree_keys. rewrite merge_sort_Permutation. apply NoDup_fst_map_to_list. Qed.

Lemma Sorted_btree_keys {A} (m : gmap string A) : Sorted String.le (btree_keys m).
Proof. unfold btree_keys. apply (Sorted_merge_sort _). Qed.

Lemma elem_of_btree_set_elems (s : gset string) k : k ∈ btree_set_elems s ↔ k ∈ s.
Proof. unfold btree_set_elems. by rewrite merge_sort_Permutation, elem_of_elements. Qed.

(** ** Sums *)

(** Two sums that differ at one point. *)
Lemma sum_list_with_one {A} (f g : A → nat) l x :
  NoDup l → x ∈ l → (∀ y, y ∈ l → y ≠ x → f y = g y) →
  sum_list_with f l + g x = sum_list_with g l + f x.
Proof.
  intros Hnd Hx. revert Hx. induction Hnd as [|y l Hy Hnd IH]; [by intros ?%elem_of_nil|].
  intros Hx Hfg. simpl. apply elem_of_cons in Hx as [<-|Hx].
  - assert (sum_list_with f l = sum_list_with g l) as ->; [|lia].
    clear IH Hnd. induction l as [|z l IH]; simpl; [done|]. apply not_elem_of_cons in Hy as [? ?].
    rewrite (Hfg z), IH; [done|done| |by right; left|done].
    intros w [->|Hw]%elem_of_cons; apply Hfg; [by left|by right; right].
  - rewrite (Hfg y); [|by left|by intros ->].
    assert (∀ z, z ∈ l → z ≠ x → f z = g z) as Hl by (intros z Hz; apply Hfg; by right).
    specialize (IH Hx Hl). lia.
Qed.

(** ** Lists *)

Lemma elem_of_concat {A} (x : A) (ls : list (list A)) : x ∈ concat ls ↔ ∃ l, l ∈ ls ∧ x ∈ l.
Proof.
  induction ls as [|l ls IH]; simpl.
  - split; [by intros ?%elem_of_nil|by intros (? & ?%elem_of_nil & _)].
  - rewrite elem_of_app, IH. split.
    + intros [?|(l' & ? & ?)]; [exists l; split; [by left|done]|exists l'; split; [by right|done]].
    + intros (l' & [->|?]%elem_of_cons & ?); [by left|right; by exists l'].
Qed.
