(* ===== verification/Bytes.v ===== *)
(** * Byte slices and the text operations of the standard library

    [&[u8]] is a list of numbers below 256 and [&str] a string of bytes.  The
    operations on them the modelled code uses beyond those of the prelude:
    [str::from_utf8], [str::find], [str::replace], [str::split] and
    [str::lines], with the lemmas their users share. *)
From S2P Require Export Prelude.

Abbreviation bytes := (list N).

(** ** Slices *)

Definition slice_ends_with (suffix b : bytes) : bool := bool_decide (suffix `suffix_of` b).
Definition slice_starts_with (prefix b : bytes) : bool := bool_decide (prefix `prefix_of` b).

(** ** [str::from_utf8]

    The validation of [core::str], with the valid prefix and the length of the
    invalid sequence it reports ([None]: the input ends inside a character). *)
Definition is_continuation (b : N) : bool := ((128 <=? b) && (b <=? 191))%N.

(** The second byte a lead byte allows, for characters of three and four bytes. *)
Definition second_ok (lead b : N) : bool :=
  (if lead =? 224 then (160 <=? b) && (b <=? 191)
   else if lead =? 237 then (128 <=? b) && (b <=? 159)
   else if lead =? 240 then (144 <=? b) && (b <=? 191)
   else if lead =? 244 then (128 <=? b) && (b <=? 143)
   else is_continuation b)%N.

Record Utf8Error : Type := mkUtf8Error { valid_up_to : N; error_len : option N }.

Fixpoint utf8_check (index : N) (b : bytes) : option Utf8Error :=
  match b with
  | [] => None
  | b0 :: r0 =>
      let invalid n := Some (mkUtf8Error index (Some n)) in
      let incomplete := Some (mkUtf8Error index None) in
      if (b0 <? 128)%N then utf8_check (index + 1) r0
      else if ((194 <=? b0) && (b0 <=? 223))%N then
        match r0 with
        | [] => incomplete
        | b1 :: r1 => if is_continuation b1 then utf8_check (index + 2) r1 else invalid 1%N
        end
      else if ((224 <=? b0) && (b0 <=? 239))%N then
        match r0 with
        | [] => incomplete
        | b1 :: r1 =>
            if negb (second_ok b0 b1) then invalid 1%N
            else match r1 with
                 | [] => incomplete
                 | b2 :: r2 => if is_continuation b2 then utf8_check (index + 3) r2 else invalid 2%N
                 end
        end
      else if ((240 <=? b0) && (b0 <=? 244))%N then
        match r0 with
        | [] => incomplete
        | b1 :: r1 =>
            if negb (second_ok b0 b1) then invalid 1%N
            else match r1 with
                 | [] => incomplete
                 | b2 :: r2 =>
                     if negb (is_continuation b2) then invalid 2%N
                     else match r2 with
                          | [] => incomplete
                          | b3 :: r3 => if is_continuation b3 then utf8_check (index + 4) r3 else invalid 3%N
                          end
                 end
        end
      else invalid 1%N
  end.

Definition from_utf8 (b : bytes) : result Utf8Error string :=
  match utf8_check 0 b with Some e => Err e | None => Ok (Utf8.of_bytes b) end.

(** Its [Display]. *)
Definition utf8_error_string (e : Utf8Error) : string :=
  match error_len e with
  | Some n => "invalid utf-8 sequence of " +:+ pretty n +:+ " bytes from index " +:+ pretty (valid_up_to e)
  | None => "incomplete utf-8 byte sequence from index " +:+ pretty (valid_up_to e)
  end.

(** ** Searching and splitting *)

(** [s.find(pat)], as what comes before the first occurrence and after it. *)
Fixpoint split_once (pat s : string) : option (string * string) :=
  match strip_prefix pat s with
  | Some rest => Some (EmptyString, rest)
  | None =>
      match s with
      | EmptyString => None
      | String a r => (λ '(before, after), (String a before, after)) <$> split_once pat r
      end
  end.

(** [s.replace(pat, to)] for a non-empty pattern; [skip] bytes belong to the
    occurrence replaced last. *)
Fixpoint replace_from (skip : nat) (pat to s : string) : string :=
  match s with
  | EmptyString => EmptyString
  | String a r =>
      match skip with
      | S skip => replace_from skip pat to r
      | O =>
          if starts_with pat s then to +:+ replace_from (pred (String.length pat)) pat to r
          else String a (replace_from 0 pat to r)
      end
  end.
Definition replace (pat to s : string) : string := replace_from 0 pat to s.

(** [s.split(pat)] for a non-empty pattern; [skip] as for [replace]. *)
Fixpoint split_from (skip : nat) (pat s : string) : list string :=
  match s with
  | EmptyString => [EmptyString]
  | String a r =>
      match skip with
      | S skip => split_from skip pat r
      | O =>
          if starts_with pat s then EmptyString :: split_from (pred (String.length pat)) pat r
          else match split_from 0 pat r with
               | part :: parts => String a part :: parts
               | [] => []
               end
      end
  end.
Definition split (pat s : string) : list string := split_from 0 pat s.

(** [s.split(c)] for an ASCII character. *)
Fixpoint split_char (c : ascii) (s : string) : list string :=
  match s with
  | EmptyString => [EmptyString]
  | String a r =>
      if decide (a = c) then EmptyString :: split_char c r
      else match split_char c r with
           | part :: parts => String a part :: parts
           | [] => []
           end
  end.

(** ** Characters inside a slice *)

(** [str::is_char_boundary]. *)
Definition is_char_boundary (b : bytes) (i : nat) : bool :=
  match b !! i with
  | Some x => (i =? 0) || negb (is_continuation x)
  | None => i =? length b
  end.

(** The number of bytes of the character a lead byte starts. *)
Definition lead_width (b : N) : nat :=
  (if (b <? 128)%N then 1 else if (b <? 224)%N then 2 else if (b <? 240)%N then 3 else 4).

(** [eq_ignore_ascii_case] on byte slices. *)
Definition eq_ignore_case (a b : bytes) : bool :=
  bool_decide (lower_byte <$> a = lower_byte <$> b).

(** [String::from_utf8_lossy]: every invalid sequence becomes U+FFFD. *)
Definition REPLACEMENT_CHARACTER : bytes := [239; 191; 189]%N.
Fixpoint lossy_loop (fuel : nat) (b : bytes) : bytes :=
  match fuel with
  | O => []
  | S fuel =>
      match utf8_check 0 b with
      | None => b
      | Some e =>
          let valid := N.to_nat (valid_up_to e) in
          take valid b ++ REPLACEMENT_CHARACTER ++
          match error_len e with
          | None => []
          | Some n => lossy_loop fuel (drop (valid + N.to_nat n) b)
          end
      end
  end.
Definition from_utf8_lossy (b : bytes) : bytes := lossy_loop (S (length b)) b.

(** Byte sequences a [str] can hold. *)
Inductive utf8 : bytes → Prop :=
| utf8_nil : utf8 []
| utf8_char c b : is_scalar c = true → utf8 b → utf8 (Utf8.encode_char c ++ b).

(** ** Lemmas *)

Lemma utf8_check_ascii index b : Forall (λ x, (x < 128)%N) b → utf8_check index b = None.
Proof.
  intros Hb. revert index. induction Hb as [|x b Hx _ IH]; intros index; simpl; [done|].
  by rewrite (proj2 (N.ltb_lt x 128)).
Qed.

Lemma from_utf8_ascii b : Forall (λ x, (x < 128)%N) b → from_utf8 b = Ok (Utf8.of_bytes b).
Proof. intros Hb. unfold from_utf8. by rewrite utf8_check_ascii. Qed.

Lemma app_empty_r (s : string) : s +:+ "" = s.
Proof. induction s as [|c s IH]; [done|]. change (String c s +:+ "") with (String c (s +:+ "")). by f_equal. Qed.

Lemma app_assoc_string (a b c : string) : a +:+ (b +:+ c) = (a +:+ b) +:+ c.
Proof.
  induction a as [|x a IH]; [done|].
  change (String x (a +:+ (b +:+ c)) = String x ((a +:+ b) +:+ c)). by f_equal.
Qed.

Lemma length_string_app s t : String.length (s +:+ t) = String.length s + String.length t.
Proof. induction s as [|a s IH]; [done|]. change (S (String.length (s +:+ t)) = S (String.length s) + String.length t). by rewrite IH. Qed.

Lemma bytes_app s t : Utf8.bytes (s +:+ t) = Utf8.bytes s ++ Utf8.bytes t.
Proof. unfold Utf8.bytes. induction s as [|a s IH]; csimpl; [done|]. by rewrite IH. Qed.

Lemma of_bytes_bytes s : Utf8.of_bytes (Utf8.bytes s) = s.
Proof.
  unfold Utf8.of_bytes, Utf8.bytes. induction s as [|a s IH]; csimpl; [done|].
  by rewrite ascii_N_embedding, IH.
Qed.

Lemma strip_prefix_app p s : strip_prefix p (p +:+ s) = Some s.
Proof. induction p as [|a p IH]; simpl; [done|]. by rewrite decide_True. Qed.

Lemma strip_prefix_Some p s r : strip_prefix p s = Some r ↔ s = p +:+ r.
Proof.
  split; [|intros ->; apply strip_prefix_app].
  revert s. induction p as [|a p IH]; intros s; simpl; [by intros [= ->]|].
  destruct s as [|b s]; [done|]. case_decide; [subst|done]. by intros ->%IH.
Qed.

Lemma starts_with_true p s : starts_with p s = true ↔ ∃ r, s = p +:+ r.
Proof.
  unfold starts_with. rewrite bool_decide_eq_true. split.
  - intros [r Hr%strip_prefix_Some]. by exists r.
  - intros [r ->]. exists r. apply strip_prefix_app.
Qed.

Lemma is_ascii_bytes s : is_ascii s = true → Forall (λ b, (b < 128)%N) (Utf8.bytes s).
Proof.
  unfold is_ascii. intros Hs. apply Forall_forall. intros b Hb.
  apply N.ltb_lt, (proj1 (forallb_forall _ _) Hs), list_elem_of_In, Hb.
Qed.

Lemma ascii_chars s : is_ascii s = true → chars s = Utf8.bytes s.
Proof.
  intros Hs%is_ascii_bytes. unfold chars. induction Hs as [|b bs Hb _ IH]; [done|].
  cbn [Utf8.decode]. by rewrite (proj2 (N.ltb_lt _ _) Hb), IH.
Qed.

(** *** Valid UTF-8 *)

Lemma encode_char_cons c :
  is_scalar c = true →
  ∃ x r, Utf8.encode_char c = x :: r ∧ lead_width x = S (length r)
         ∧ is_continuation x = false ∧ Forall (λ y, is_continuation y = true) r.
Proof.
  intros Hc%is_scalar_lt. unfold Utf8.encode_char, lead_width.
  repeat case_match; bool_to_prop; eexists _, _; (split; [done|]);
    (split; [repeat case_match; bool_to_prop; (done || div_mod_lia)|]);
    (split; [unfold is_continuation; div_mod_lia|]);
    repeat apply Forall_cons_2; try apply Forall_nil_2; unfold is_continuation; div_mod_lia.
Qed.

Lemma encode_char_ne c : Utf8.encode_char c ≠ [].
Proof. unfold Utf8.encode_char. by repeat case_match. Qed.

Lemma utf8_app a b : utf8 a → utf8 b → utf8 (a ++ b).
Proof. intros Ha Hb. induction Ha; [done|]. rewrite <-app_assoc. by constructor. Qed.

Lemma utf8_ascii b : Forall (λ x, (x < 128)%N) b → utf8 b.
Proof.
  induction 1 as [|x b Hx _ IH]; [constructor|].
  replace (x :: b) with (Utf8.encode_char x ++ b); [constructor; [|done]|].
  - unfold is_scalar. lia.
  - unfold Utf8.encode_char. by rewrite (proj2 (N.ltb_lt _ _)).
Qed.

(** A character is determined by the bytes that follow its lead byte. *)
Lemma utf8_app_inv s r : utf8 s → utf8 (s ++ r) → utf8 r.
Proof.
  induction 1 as [|c s Hc _ IH]; [done|]. rewrite <-app_assoc. intros Hb.
  inversion Hb as [He|d b' Hd Hb' He].
  { symmetry in He. by apply app_nil in He as [?%encode_char_ne _]. }
  destruct (encode_char_cons c) as (x & xs & Ex & Wx & _ & _); [done|].
  destruct (encode_char_cons d) as (y & ys & Ey & Wy & _ & _); [done|].
  rewrite Ex, Ey in He. injection He as -> He.
  apply app_inj_1 in He as [_ ->]; [by apply IH|]. congruence.
Qed.

Lemma is_continuation_head b x r : utf8 b → b = x :: r → is_continuation x = false.
Proof.
  intros Hb ->. inversion Hb as [|c b' Hc _ He].
  destruct (encode_char_cons c) as (y & ys & Ey & _ & Hy & _); [done|]. rewrite Ey in He.
  by injection He as -> _.
Qed.

Lemma boundary_of_drop b i : i ≤ length b → utf8 (drop i b) → is_char_boundary b i = true.
Proof.
  intros Hi Hb. unfold is_char_boundary. destruct (b !! i) as [x|] eqn:Hx.
  - rewrite (is_continuation_head _ _ _ Hb (drop_S _ _ _ Hx)). by rewrite orb_true_r.
  - apply lookup_ge_None in Hx. apply Nat.eqb_eq. lia.
Qed.

Lemma boundary_length b s : utf8 (s ++ b) → utf8 s → is_char_boundary (s ++ b) (length s) = true.
Proof.
  intros Hb Hs. apply boundary_of_drop; [rewrite length_app; lia|].
  rewrite drop_app_length. by eapply utf8_app_inv.
Qed.

Lemma utf8_split b i : utf8 b → is_char_boundary b i = true → utf8 (take i b) ∧ utf8 (drop i b).
Proof.
  intros Hb. revert i. induction Hb as [|c b Hc Hb IH]; intros i Hi.
  { rewrite take_nil, drop_nil. split; constructor. }
  destruct (decide (i = 0)) as [->|Hi0]; [split; constructor; done|].
  destruct (decide (i < length (Utf8.encode_char c))) as [Hlt|Hge].
  - exfalso. destruct (encode_char_cons c) as (x & xs & Ex & _ & _ & Hxs); [done|].
    unfold is_char_boundary in Hi. rewrite lookup_app_l in Hi by done. rewrite Ex in Hi, Hlt.
    destruct i as [|i]; [done|]. simpl in Hi, Hlt.
    destruct (xs !! i) as [y|] eqn:Hy; [|apply lookup_ge_None in Hy; lia].
    rewrite Forall_lookup in Hxs. by rewrite (Hxs _ _ Hy) in Hi.
  - replace i with (length (Utf8.encode_char c) + (i - length (Utf8.encode_char c))) by lia.
    rewrite take_app_add, drop_app_add.
    destruct (IH (i - length (Utf8.encode_char c))) as [Ht Hd].
    + unfold is_char_boundary in Hi |- *. rewrite lookup_app_r in Hi by lia.
      destruct (b !! _) as [y|] eqn:Hy.
      * destruct (decide (i - length (Utf8.encode_char c) = 0)) as [->|]; [done|].
        rewrite (proj2 (Nat.eqb_neq i 0)) in Hi by done. simpl in Hi. by rewrite Hi, orb_true_r.
      * rewrite length_app in Hi. apply Nat.eqb_eq in Hi. apply Nat.eqb_eq. lia.
    + split; [by constructor|done].
Qed.

Lemma utf8_lower b : utf8 b → utf8 (lower_byte <$> b).
Proof.
  induction 1 as [|c b Hc _ IH]; [constructor|]. rewrite fmap_app.
  assert (lower_byte <$> Utf8.encode_char c = Utf8.encode_char (lower_byte c) ∧ is_scalar (lower_byte c) = true) as [-> ?];
    [|by constructor].
  assert (∀ x, (128 ≤ x)%N → lower_byte x = x) as Hhi.
  { intros x Hx. unfold lower_byte, is_ascii_upper, in_range. eval_ch.
    by rewrite (proj2 (N.leb_gt x 90)), andb_false_r by lia. }
  destruct (decide (c < 128)%N) as [Hlt|Hge].
  - assert ((lower_byte c < 128)%N) as Hl.
    { unfold lower_byte, is_ascii_upper, in_range. eval_ch. case_match; bool_to_prop; lia. }
    split; [|unfold is_scalar; lia]. unfold Utf8.encode_char. by rewrite !(proj2 (N.ltb_lt _ 128)).
  - rewrite Hhi by lia. split; [|done]. unfold Utf8.encode_char.
    rewrite (proj2 (N.ltb_ge c 128)) by lia.
    repeat case_match; csimpl; rewrite !Hhi by lia; done.
Qed.

Lemma lower_continuation x y : lower_byte x = lower_byte y → is_continuation x = is_continuation y.
Proof.
  unfold lower_byte, is_ascii_upper, in_range, is_continuation. eval_ch.
  repeat case_match; bool_to_prop; lia.
Qed.

Ltac decide_N_cmp :=
  repeat match goal with
  | |- context [(?a <? ?b)%N] =>
      first [rewrite (proj2 (N.ltb_lt a b)) by div_mod_lia | rewrite (proj2 (N.ltb_ge a b)) by div_mod_lia]
  | |- context [(?a <=? ?b)%N] =>
      first [rewrite (proj2 (N.leb_le a b)) by div_mod_lia | rewrite (proj2 (N.leb_gt a b)) by div_mod_lia]
  | |- context [(?a =? ?b)%N] =>
      first [rewrite (proj2 (N.eqb_eq a b)) by div_mod_lia | rewrite (proj2 (N.eqb_neq a b)) by div_mod_lia]
  end.

(** The second byte of a character of three or four bytes is one its lead byte allows. *)
Lemma second_ok_3 c :
  is_scalar c = true → (2048 ≤ c)%N → (c < 65536)%N →
  second_ok (224 + c / 4096) (128 + (c / 64) mod 64) = true.
Proof.
  unfold is_scalar, second_ok, is_continuation. intros Hc H1 H2.
  destruct (decide (c / 4096 = 0)%N) as [E|E]; [rewrite E; simpl; div_mod_lia|].
  destruct (decide (c / 4096 = 13)%N) as [E'|E']; [rewrite E'; simpl; div_mod_lia|].
  decide_N_cmp. simpl. div_mod_lia.
Qed.

Lemma second_ok_4 c :
  (65536 ≤ c)%N → (c < 1114112)%N → second_ok (240 + c / 262144) (128 + (c / 4096) mod 64) = true.
Proof.
  unfold second_ok, is_continuation. intros H1 H2.
  destruct (decide (c / 262144 = 0)%N) as [E|E]; [rewrite E; simpl; div_mod_lia|].
  destruct (decide (c / 262144 = 4)%N) as [E'|E']; [rewrite E'; simpl; div_mod_lia|].
  decide_N_cmp. simpl. div_mod_lia.
Qed.

Lemma continuation_mod x : is_continuation (128 + x mod 64) = true.
Proof. unfold is_continuation. div_mod_lia. Qed.

Lemma utf8_check_char i c b :
  is_scalar c = true →
  utf8_check i (Utf8.encode_char c ++ b) = utf8_check (i + N.of_nat (length (Utf8.encode_char c))) b.
Proof.
  intros Hc. pose proof (is_scalar_lt _ Hc) as Hlt. unfold Utf8.encode_char.
  destruct (c <? 128)%N eqn:H1; bool_to_prop; [simpl; decide_N_cmp; done|].
  destruct (c <? 2048)%N eqn:H2; bool_to_prop.
  { cbn [app utf8_check length]. decide_N_cmp. cbn [andb]. by rewrite continuation_mod. }
  destruct (c <? 65536)%N eqn:H3; bool_to_prop.
  { cbn [app utf8_check length]. rewrite second_ok_3, continuation_mod by done.
    decide_N_cmp. done. }
  cbn [app utf8_check length]. rewrite second_ok_4, !continuation_mod by done.
  decide_N_cmp. done.
Qed.

Lemma utf8_check_utf8 b i : utf8 b → utf8_check i b = None.
Proof. intros Hb. revert i. induction Hb as [|c b Hc _ IH]; intros i; [done|]. by rewrite utf8_check_char. Qed.

Lemma from_utf8_lossy_utf8 b : utf8 b → from_utf8_lossy b = b.
Proof. intros Hb. unfold from_utf8_lossy. cbn [lossy_loop]. by rewrite utf8_check_utf8. Qed.

Lemma ascii_utf8_ok s : is_ascii s = true → utf8_ok s.
Proof.
  intros Hs%is_ascii_bytes. exists (Utf8.bytes s). split.
  - eapply Forall_impl; [exact Hs|]. intros x Hx. cbv beta in Hx. unfold is_scalar. lia.
  - unfold of_chars. rewrite <-(of_bytes_bytes s) at 1. f_equal.
    revert Hs. generalize (Utf8.bytes s). intros b Hb. induction Hb as [|x b Hx _ IH]; [done|].
    cbn [flat_map]. rewrite <-IH. unfold Utf8.encode_char. by rewrite (proj2 (N.ltb_lt _ _) Hx).
Qed.

(** *** Validation and lossy decoding *)

Lemma utf8_of_2 b0 b1 b :
  (194 ≤ b0)%N → (b0 ≤ 223)%N → is_continuation b1 = true → utf8 b → utf8 (b0 :: b1 :: b).
Proof.
  unfold is_continuation. intros H0 H0' H1 Hb.
  replace (b0 :: b1 :: b) with (Utf8.encode_char ((b0 - 192) * 64 + (b1 - 128)) ++ b).
  - constructor; [|done]. unfold is_scalar. lia.
  - unfold Utf8.encode_char. decide_N_cmp. cbn [app]. repeat f_equal; div_mod_lia.
Qed.

Lemma utf8_of_3 b0 b1 b2 b :
  (224 ≤ b0)%N → (b0 ≤ 239)%N → second_ok b0 b1 = true → is_continuation b2 = true → utf8 b →
  utf8 (b0 :: b1 :: b2 :: b).
Proof.
  intros H0 H0' H1 H2 Hb.
  assert ((128 ≤ b1 ≤ 191)%N ∧ (b0 = 224 → 160 ≤ b1)%N ∧ (b0 = 237 → b1 ≤ 159)%N) as (H1a & H1b & H1c).
  { unfold second_ok, is_continuation in H1. repeat case_match; bool_to_prop; lia. }
  unfold is_continuation in H2. clear H1.
  replace (b0 :: b1 :: b2 :: b) with (Utf8.encode_char ((b0 - 224) * 4096 + (b1 - 128) * 64 + (b2 - 128)) ++ b).
  - constructor; [|done]. unfold is_scalar. lia.
  - unfold Utf8.encode_char. decide_N_cmp. cbn [app]. repeat f_equal; div_mod_lia.
Qed.

Lemma utf8_of_4 b0 b1 b2 b3 b :
  (240 ≤ b0)%N → (b0 ≤ 244)%N → second_ok b0 b1 = true → is_continuation b2 = true →
  is_continuation b3 = true → utf8 b → utf8 (b0 :: b1 :: b2 :: b3 :: b).
Proof.
  intros H0 H0' H1 H2 H3 Hb.
  assert ((128 ≤ b1 ≤ 191)%N ∧ (b0 = 240 → 144 ≤ b1)%N ∧ (b0 = 244 → b1 ≤ 143)%N) as (H1a & H1b & H1c).
  { unfold second_ok, is_continuation in H1. repeat case_match; bool_to_prop; lia. }
  unfold is_continuation in H2, H3. clear H1.
  replace (b0 :: b1 :: b2 :: b3 :: b) with
    (Utf8.encode_char ((b0 - 240) * 262144 + (b1 - 128) * 4096 + (b2 - 128) * 64 + (b3 - 128)) ++ b).
  - constructor; [|done]. unfold is_scalar. lia.
  - unfold Utf8.encode_char. decide_N_cmp. cbn [app]. repeat f_equal; div_mod_lia.
Qed.

(** What the validation reports: a valid prefix, and an invalid sequence of
    bytes that are not ASCII. *)
Definition check_ok (index : N) (b : bytes) (e : Utf8Error) : Prop :=
  (index ≤ valid_up_to e)%N ∧ utf8 (take (N.to_nat (valid_up_to e - index)) b)
  ∧ match error_len e with
    | None => Forall (λ x, (128 ≤ x)%N) (drop (N.to_nat (valid_up_to e - index)) b)
    | Some n => (0 < n)%N ∧ Forall (λ x, (128 ≤ x)%N) (take (N.to_nat n) (drop (N.to_nat (valid_up_to e - index)) b))
    end.

Lemma check_ok_app index k a b e :
  k = N.of_nat (length a) → (∀ r, utf8 r → utf8 (a ++ r)) → check_ok (index + k) b e → check_ok index (a ++ b) e.
Proof.
  intros -> Ha (H1 & H2 & H3). unfold check_ok.
  replace (N.to_nat (valid_up_to e - index)) with (length a + N.to_nat (valid_up_to e - (index + N.of_nat (length a)))) by lia.
  rewrite take_app_add, drop_app_add. split_and!; [lia|by apply Ha|done].
Qed.

Lemma check_here index b e :
  valid_up_to e = index →
  match error_len e with
  | None => Forall (λ x, (128 ≤ x)%N) b
  | Some n => (0 < n)%N ∧ Forall (λ x, (128 ≤ x)%N) (take (N.to_nat n) b)
  end → check_ok index b e.
Proof. intros He H. unfold check_ok. rewrite He, N.sub_diag. simpl. split_and!; [lia|constructor|done]. Qed.

Lemma second_ok_high b0 b1 : second_ok b0 b1 = true → (128 ≤ b1)%N.
Proof. unfold second_ok, is_continuation. repeat case_match; intros; lia. Qed.

Ltac high_bytes := repeat (apply Forall_cons_2; [lia|]); apply Forall_nil_2.

Lemma utf8_check_spec n b index :
  length b ≤ n → match utf8_check index b with None => utf8 b | Some e => check_ok index b e end.
Proof.
  revert b index. induction n as [|n IH]; intros [|b0 r0] index Hn; simpl in Hn; try (constructor || lia).
  assert (∀ k a r, k = N.of_nat (length a) → length r ≤ n → (∀ r, utf8 r → utf8 (a ++ r)) →
    match utf8_check (index + k) r with None => utf8 (a ++ r) | Some e => check_ok index (a ++ r) e end) as Hrec.
  { intros k a r Hk Hr Ha. specialize (IH r (index + k)%N Hr). destruct (utf8_check _ _); [by eapply check_ok_app|by apply Ha]. }
  cbn [utf8_check]. destruct (N.ltb_spec b0 128) as [H0|H0].
  { apply (Hrec 1%N [b0]); [done|lia|]. intros r Hr. apply (utf8_app [b0]); [|done]. apply utf8_ascii. by repeat constructor. }
  destruct ((194 <=? b0) && (b0 <=? 223))%N eqn:E2.
  { destruct r0 as [|b1 r1]; [apply check_here; [done|]; simpl; high_bytes|].
    destruct (is_continuation b1) eqn:C1.
    - apply (Hrec 2%N [b0; b1]); [done|simpl in *; lia|]. intros r Hr. apply utf8_of_2; [lia|lia|done|done].
    - apply check_here; [done|]. simpl. split; [done|high_bytes]. }
  destruct ((224 <=? b0) && (b0 <=? 239))%N eqn:E3.
  { destruct r0 as [|b1 r1]; [apply check_here; [done|]; simpl; high_bytes|].
    destruct (second_ok b0 b1) eqn:C1; cbn [negb]; [|apply check_here; [done|]; simpl; split; [done|high_bytes]].
    pose proof (second_ok_high _ _ C1).
    destruct r1 as [|b2 r2]; [apply check_here; [done|]; simpl; high_bytes|].
    destruct (is_continuation b2) eqn:C2; [|apply check_here; [done|]; simpl; split; [done|high_bytes]].
    apply (Hrec 3%N [b0; b1; b2]); [done|simpl in *; lia|]. intros r Hr. apply utf8_of_3; [lia|lia|done..]. }
  destruct ((240 <=? b0) && (b0 <=? 244))%N eqn:E4;
    [|apply check_here; [done|]; simpl; split; [done|high_bytes]].
  destruct r0 as [|b1 r1]; [apply check_here; [done|]; simpl; high_bytes|].
  destruct (second_ok b0 b1) eqn:C1; cbn [negb]; [|apply check_here; [done|]; simpl; split; [done|high_bytes]].
  pose proof (second_ok_high _ _ C1).
  destruct r1 as [|b2 r2]; [apply check_here; [done|]; simpl; high_bytes|].
  destruct (is_continuation b2) eqn:C2; cbn [negb]; [|apply check_here; [done|]; simpl; split; [done|high_bytes]].
  assert (128 ≤ b2)%N by (unfold is_continuation in C2; lia).
  destruct r2 as [|b3 r3]; [apply check_here; [done|]; simpl; high_bytes|].
  destruct (is_continuation b3) eqn:C3; [|apply check_here; [done|]; simpl; split; [done|high_bytes]].
  apply (Hrec 4%N [b0; b1; b2; b3]); [done|simpl in *; lia|]. intros r Hr. apply utf8_of_4; [lia|lia|done..].
Qed.

Lemma replacement_utf8 : utf8 REPLACEMENT_CHARACTER.
Proof. apply (utf8_of_3 239 191 189); [lia|lia|done|done|constructor]. Qed.

(** Lossy decoding gives valid UTF-8 and keeps the ASCII characters in order. *)
Lemma lossy_loop_spec fuel b :
  length b < fuel →
  utf8 (lossy_loop fuel b) ∧ filter (λ x, x < 128)%N (lossy_loop fuel b) = filter (λ x, x < 128)%N b.
Proof.
  revert b. induction fuel as [|fuel IH]; intros b Hf; [lia|]. cbn [lossy_loop].
  pose proof (utf8_check_spec (length b) b 0 (le_n _)) as Hspec.
  destruct (utf8_check 0 b) as [e|] eqn:E; [|done]. destruct Hspec as (_ & Hu & He). rewrite N.sub_0_r in Hu, He.
  set (v := N.to_nat (valid_up_to e)) in *.
  assert (∀ l, Forall (λ x, (128 ≤ x)%N) l → filter (λ x, x < 128)%N l = []) as Hnone.
  { intros l. induction 1 as [|x l Hx _ IHl]; [done|]. rewrite filter_cons_False; [done|lia]. }
  destruct (error_len e) as [k|].
  - destruct He as [Hk Hhigh]. destruct (IH (drop (v + N.to_nat k) b)) as [IH1 IH2].
    { rewrite length_drop. destruct b as [|x b]; [done|]. simpl in *. lia. }
    split; [repeat apply utf8_app; [done|apply replacement_utf8|done]|].
    rewrite !filter_app, IH2, (Hnone REPLACEMENT_CHARACTER) by (repeat (apply Forall_cons_2; [lia|]); constructor).
    rewrite <-(take_drop v b) at 3. rewrite filter_app. f_equal. simpl.
    rewrite <-(take_drop (N.to_nat k) (drop v b)), filter_app, (Hnone _ Hhigh), drop_drop. done.
  - split; [repeat apply utf8_app; [done|apply replacement_utf8|constructor]|].
    rewrite !filter_app, (Hnone REPLACEMENT_CHARACTER) by (repeat (apply Forall_cons_2; [lia|]); constructor).
    rewrite <-(take_drop v b) at 2. by rewrite filter_app, (Hnone _ He).
Qed.

Lemma from_utf8_lossy_spec b :
  utf8 (from_utf8_lossy b) ∧ filter (λ x, x < 128)%N (from_utf8_lossy b) = filter (λ x, x < 128)%N b.
Proof. apply lossy_loop_spec. lia. Qed.
