(* ===== verification/Base64.v ===== *)
(** * The base64 engines of the secret masker

    The [base64] crate is outside the repository.  [Base64Engines] states what
    [masking.rs] of [preloop-gha-protocol] uses of it: the encoders of the two
    alphabets, with and without padding, and the padding-indifferent decoders
    [STANDARD_LENIENT] and [URL_SAFE_LENIENT], with the facts of RFC 4648 the
    properties of the masker rest on.  [rfc4648] is a concrete codec with these
    facts, for evaluation on examples. *)
From S2P Require Export Bytes.

Inductive AlphabetFamily : Type := Standard | UrlSafe.
#[export] Instance AlphabetFamily_eq_dec : EqDecision AlphabetFamily.
Proof. solve_decision. Defined.

(** [AlphabetFamily::contains]: the byte can carry payload in this family. *)
Definition family_contains (family : AlphabetFamily) (byte : N) : bool :=
  match family with
  | Standard => is_ascii_alphanumeric byte || (byte =? ch "+")%N || (byte =? ch "/")%N
  | UrlSafe => is_ascii_alphanumeric byte || (byte =? ch "-")%N || (byte =? ch "_")%N
  end.

(** Unpadded base64 length of [byte_len] bytes: [(4 * byte_len).div_ceil(3)]. *)
Definition encoded_len (byte_len : nat) : nat := (4 * byte_len + 2) / 3.

Class Base64Engines := {
  b64_encode : AlphabetFamily → bool → bytes → bytes;
  b64_decode : AlphabetFamily → bytes → option bytes;
  (** An unpadded encoding has the length of its groups, holds payload bytes of
      its alphabet only, and decodes to what was encoded; padding is ASCII too. *)
  b64_length family x : length (b64_encode family false x) = encoded_len (length x);
  b64_alphabet family x :
    Forall (λ b, (b < 256)%N) x →
    Forall (λ b, family_contains family b = true) (b64_encode family false x);
  b64_ascii family pad x :
    Forall (λ b, (b < 256)%N) x → Forall (λ b, (b < 128)%N) (b64_encode family pad x);
  b64_roundtrip family x :
    Forall (λ b, (b < 256)%N) x → b64_decode family (b64_encode family false x) = Some x;
  (** The families share the alphanumeric characters. *)
  b64_common a :
    Forall (λ b, is_ascii_alphanumeric b = true) a → b64_decode Standard a = b64_decode UrlSafe a;
  (** Groups of four characters decode independently of what follows them. *)
  b64_groups family a :
    length a mod 4 = 0 → Forall (λ b, family_contains family b = true) a →
    ∃ d, ∀ b, b64_decode family (a ++ b) = (app d) <$> b64_decode family b;
}.

(** ** A codec of RFC 4648 *)
Module Rfc4648.

Definition alphabet (family : AlphabetFamily) (v : N) : N :=
  (if v <? 26 then v + 65
   else if v <? 52 then v + 71
   else if v <? 62 then v - 4
   else if v =? 62 then match family with Standard => 43 | UrlSafe => 45 end
   else match family with Standard => 47 | UrlSafe => 95 end)%N.

Definition digit (family : AlphabetFamily) (c : N) : option N :=
  (if (65 <=? c) && (c <=? 90) then Some (c - 65)
   else if (97 <=? c) && (c <=? 122) then Some (c - 71)
   else if (48 <=? c) && (c <=? 57) then Some (c + 4)
   else match family with
        | Standard => if c =? 43 then Some 62 else if c =? 47 then Some 63 else None
        | UrlSafe => if c =? 45 then Some 62 else if c =? 95 then Some 63 else None
        end)%N.

Fixpoint encode (family : AlphabetFamily) (pad : bool) (x : bytes) : bytes :=
  let sym := alphabet family in
  match x with
  | [] => []
  | [a] => [sym (a / 4); sym (a mod 4 * 16)]%N ++ (if pad then [61; 61]%N else [])
  | [a; b] => [sym (a / 4); sym (a mod 4 * 16 + b / 16); sym (b mod 16 * 4)]%N ++ (if pad then [61]%N else [])
  | a :: b :: c :: r =>
      [sym (a / 4); sym (a mod 4 * 16 + b / 16); sym (b mod 16 * 4 + c / 64); sym (c mod 64)]%N
      ++ encode family pad r
  end.

(** Decoding of unpadded text; the bits of a partial last group that encode no
    byte are ignored. *)
Fixpoint decode (family : AlphabetFamily) (t : bytes) : option bytes :=
  match t with
  | [] => Some []
  | [_] => None
  | [p; q] =>
      p ← digit family p; q ← digit family q; Some [p * 4 + q / 16]%N
  | [p; q; r] =>
      p ← digit family p; q ← digit family q; r ← digit family r;
      Some [p * 4 + q / 16; q mod 16 * 16 + r / 4]%N
  | p :: q :: r :: s :: rest =>
      p ← digit family p; q ← digit family q; r ← digit family r; s ← digit family s;
      (app [p * 4 + q / 16; q mod 16 * 16 + r / 4; r mod 4 * 64 + s])%N <$> decode family rest
  end.

Lemma alphabet_contains family v : (v < 64)%N → family_contains family (alphabet family v) = true.
Proof.
  intros Hv. unfold alphabet, family_contains, is_ascii_alphanumeric, is_ascii_alphabetic,
    is_ascii_digit, is_ascii_lower, is_ascii_upper, in_range. eval_ch.
  destruct family; repeat case_match; bool_to_prop; lia.
Qed.

Lemma digit_alphabet family v : (v < 64)%N → digit family (alphabet family v) = Some v.
Proof.
  intros Hv. unfold alphabet.
  destruct (v <? 26)%N eqn:?; bool_to_prop.
  { unfold digit. decide_N_cmp. simpl. f_equal. lia. }
  destruct (v <? 52)%N eqn:?; bool_to_prop.
  { unfold digit. decide_N_cmp. simpl. f_equal. lia. }
  destruct (v <? 62)%N eqn:?; bool_to_prop.
  { unfold digit. decide_N_cmp. simpl. f_equal. lia. }
  assert (v = 62 ∨ v = 63)%N as [-> | ->] by lia; by destruct family.
Qed.

Lemma digit_contains family c : family_contains family c = true → ∃ v, digit family c = Some v ∧ (v < 64)%N.
Proof.
  unfold family_contains, is_ascii_alphanumeric, is_ascii_alphabetic, is_ascii_digit,
    is_ascii_lower, is_ascii_upper, in_range, digit. eval_ch. intros Hc.
  destruct family; repeat case_match; bool_to_prop; first [exfalso; lia | eexists; split; [reflexivity|lia]].
Qed.

(** Induction on the groups of three bytes. *)
Lemma groups_3_ind (P : bytes → Prop) :
  P [] → (∀ a, P [a]) → (∀ a b, P [a; b]) → (∀ a b c r, P r → P (a :: b :: c :: r)) → ∀ x, P x.
Proof.
  intros H0 H1 H2 H3. fix IH 1. intros [|a [|b [|c r]]]; [done|apply H1|apply H2|]. apply H3, IH.
Qed.

Lemma encode_length family x : length (encode family false x) = encoded_len (length x).
Proof.
  induction x as [|a|a b|a b c r IH] using groups_3_ind; try done.
  cbn [encode]. rewrite length_app, IH. unfold encoded_len. cbn [length].
  replace (4 * S (S (S (length r))) + 2) with (4 * length r + 2 + 4 * 3) by lia.
  rewrite Nat.div_add by lia. lia.
Qed.

Lemma encode_alphabet family x :
  Forall (λ b, (b < 256)%N) x → Forall (λ b, family_contains family b = true) (encode family false x).
Proof.
  induction x as [|a|a b|a b c r IH] using groups_3_ind; intros Hx; [constructor|..];
    decompose_Forall_hyps; cbn [encode app];
    repeat apply Forall_cons_2; try apply Forall_nil_2; try (apply alphabet_contains; div_mod_lia).
  by apply IH.
Qed.

Lemma encode_ascii family pad x :
  Forall (λ b, (b < 256)%N) x → Forall (λ b, (b < 128)%N) (encode family pad x).
Proof.
  assert (∀ v, (v < 64)%N → (alphabet family v < 128)%N) as Ha.
  { intros v Hv. unfold alphabet. destruct family; repeat case_match; bool_to_prop; lia. }
  induction x as [|a|a b|a b c r IH] using groups_3_ind; intros Hx; [constructor|..];
    decompose_Forall_hyps; cbn [encode app];
    repeat apply Forall_cons_2; try (apply Ha; div_mod_lia).
  1-2: destruct pad; repeat apply Forall_cons_2; try apply Forall_nil_2; lia.
  by apply IH.
Qed.

Lemma decode_encode family x :
  Forall (λ b, (b < 256)%N) x → decode family (encode family false x) = Some x.
Proof.
  induction x as [|a|a b|a b c r IH] using groups_3_ind; intros Hx; [done|..];
    decompose_Forall_hyps; cbn [encode app decode];
    rewrite !digit_alphabet by div_mod_lia; cbn [mbind option_bind].
  - do 2 f_equal. div_mod_lia.
  - repeat f_equal; div_mod_lia.
  - rewrite IH by done. csimpl. repeat f_equal; div_mod_lia.
Qed.

(** Induction on the groups of four characters. *)
Lemma groups_4_ind (P : bytes → Prop) :
  P [] → (∀ p, P [p]) → (∀ p q, P [p; q]) → (∀ p q r, P [p; q; r]) →
  (∀ p q r s t, P t → P (p :: q :: r :: s :: t)) → ∀ x, P x.
Proof.
  intros H0 H1 H2 H3 H4. fix IH 1.
  intros [|p [|q [|r [|s t]]]]; [done|apply H1|apply H2|apply H3|]. apply H4, IH.
Qed.

Lemma digit_common c : is_ascii_alphanumeric c = true → digit Standard c = digit UrlSafe c.
Proof.
  unfold is_ascii_alphanumeric, is_ascii_alphabetic, is_ascii_digit, is_ascii_lower, is_ascii_upper,
    in_range, digit. eval_ch. intros Hc. repeat case_match; bool_to_prop; (done || lia).
Qed.

Lemma decode_common a :
  Forall (λ b, is_ascii_alphanumeric b = true) a → decode Standard a = decode UrlSafe a.
Proof.
  induction a as [|p|p q|p q r|p q r s t IH] using groups_4_ind; intros Ha; [done|done|..];
    decompose_Forall_hyps; cbn [decode]; rewrite !digit_common by done; [done|done|]. by rewrite IH.
Qed.

Lemma decode_groups family a :
  length a mod 4 = 0 → Forall (λ b, family_contains family b = true) a →
  ∃ d, ∀ b, decode family (a ++ b) = (app d) <$> decode family b.
Proof.
  revert a. fix IH 1. intros [|p [|q [|r [|s a]]]] Hl Ha; [|done|done|done|].
  { exists []. intros b. simpl. by destruct (decode family b). }
  rewrite !Forall_cons in Ha. destruct Ha as ((vp & Ep & _)%digit_contains & (vq & Eq & _)%digit_contains
    & (vr & Er & _)%digit_contains & (vs & Es & _)%digit_contains & Ha).
  destruct (IH a) as (d & Hd); [|done|].
  { cbn [length] in Hl. by replace (S (S (S (S (length a))))) with (length a + 1 * 4) in Hl by lia;
      rewrite Nat.Div0.mod_add in Hl. }
  eexists ([_; _; _] ++ d). intros b. cbn [app decode]. rewrite Ep, Eq, Er, Es, Hd.
  cbn [mbind option_bind]. destruct (decode family b); reflexivity.
Qed.

End Rfc4648.

Instance rfc4648 : Base64Engines := {
  b64_encode := Rfc4648.encode;
  b64_decode := Rfc4648.decode;
  b64_length := Rfc4648.encode_length;
  b64_alphabet := Rfc4648.encode_alphabet;
  b64_ascii := Rfc4648.encode_ascii;
  b64_roundtrip := Rfc4648.decode_encode;
  b64_common := Rfc4648.decode_common;
  b64_groups := Rfc4648.decode_groups;
}.
