(* ===== verification/Masking.v ===== *)
(** * Secret masking

    [crates/preloop-gha-protocol/src/masking.rs], without the streaming masker:
    the scan that replaces every secret, its encodings and the spans of pattern
    hints by a marker, the base64 scan for shifted encodings, and the userinfo
    helpers.  A [&str] is its bytes here, since the code works with byte
    offsets; a pattern hint, compiled by the caller, is a function that reports
    the byte spans of its matches. *)
From S2P Require Export Base64.

(** ** Slices and positions *)

Definition slice (lo hi : nat) (b : bytes) : bytes := take (hi - lo) (drop lo b).

(** [iter().position] and [iter().rposition]. *)
Fixpoint position (p : N → bool) (b : bytes) : option nat :=
  match b with
  | [] => None
  | x :: r => if p x then Some 0 else S <$> position p r
  end.
Fixpoint rposition (p : N → bool) (b : bytes) : option nat :=
  match b with
  | [] => None
  | x :: r =>
      match rposition p r with
      | Some i => Some (S i)
      | None => if p x then Some 0 else None
      end
  end.

(** [to_ascii_lowercase]. *)
Definition lowercase (b : bytes) : bytes := lower_byte <$> b.

Definition MASK_MARKER : bytes := [42; 42; 42]%N.

Abbreviation span := (nat * nat)%type.
Abbreviation PatternMasker := (bytes → list span).

(** ** Matching a secret *)

Definition char_boundary_at (haystack : bytes) (len : nat) : bool :=
  (len <=? length haystack) && is_char_boundary haystack len.

Definition secret_matches (remaining : bytes) (case_insensitive : bool) (secret : bytes) : bool :=
  char_boundary_at remaining (length secret)
  && let head := take (length secret) remaining in
     if case_insensitive then eq_ignore_case head secret else bool_decide (head = secret).

Definition match_secret_at (remaining : bytes) (secrets : list bytes) (case_insensitive : bool) : option bytes :=
  List.find (secret_matches remaining case_insensitive) secrets.

(** ** Ranges *)

Definition span_le (a b : span) : Prop := a.1 < b.1 ∨ a.1 = b.1 ∧ a.2 ≤ b.2.
#[export] Instance span_le_dec a b : Decision (span_le a b).
Proof. unfold span_le. apply _. Defined.

(** Extend [last] by the sorted ranges that join it, or close it. *)
Fixpoint merge_from (joins : nat → nat → bool) (last : span) (ranges : list span) : list span :=
  match ranges with
  | [] => [last]
  | (s, e) :: r =>
      if joins s last.2 then merge_from joins (last.1, Nat.max last.2 e) r
      else last :: merge_from joins (s, e) r
  end.
Definition merge_ranges (joins : nat → nat → bool) (ranges : list span) : list span :=
  match ranges with [] => [] | r :: rs => merge_from joins r rs end.

Definition merge_pattern_spans (spans : list span) : list span :=
  merge_ranges Nat.leb (merge_sort span_le spans).

(** ** Base64 runs and segments *)

Definition is_base64_byte (byte : N) : bool :=
  is_ascii_alphanumeric byte || (byte =? ch "+")%N || (byte =? ch "/")%N || (byte =? ch "-")%N
  || (byte =? ch "_")%N || (byte =? ch "=")%N.

Definition is_pad (byte : N) : bool := (byte =? ch "=")%N.

(** [Base64Runs]: the maximal runs; [start] is where the open one began. *)
Fixpoint base64_runs_from (start : option nat) (index : nat) (b : bytes) : list span :=
  match b with
  | [] => match start with Some s => [(s, index)] | None => [] end
  | x :: r =>
      if is_base64_byte x
      then base64_runs_from (Some (default index start)) (S index) r
      else match start with
           | Some s => (s, index) :: base64_runs_from None (S index) r
           | None => base64_runs_from None (S index) r
           end
  end.
Definition base64_runs (b : bytes) : list span := base64_runs_from None 0 b.

Definition newline_len_at (b : bytes) (position : nat) : nat :=
  if bool_decide (b !! position = Some 10%N) then 1
  else if bool_decide (b !! position = Some 13%N) && bool_decide (b !! S position = Some 10%N) then 2
  else 0.

Definition MIN_WRAPPED_LINE : nat := 8.

Definition wrapped_line_continues (b : bytes) (lo hi : nat) : option nat :=
  if hi <? lo then None
  else
    let len := hi - lo in
    if (len <? MIN_WRAPPED_LINE) || negb (len mod 4 =? 0) then None
    else if existsb (λ byte, negb (is_base64_byte byte) || is_pad byte) (slice lo hi b) then None
    else
      let newline := newline_len_at b hi in
      if newline =? 0 then None
      else match b !! (hi + newline) with
           | Some byte => if is_base64_byte byte then Some newline else None
           | None => None
           end.

Definition payload_segment (b : bytes) (run_start run_end : nat) : span :=
  let hi := match rposition (λ x, negb (is_pad x)) (slice run_start run_end b) with
            | Some offset => run_start + offset + 1
            | None => run_start
            end in
  let lo := match rposition is_pad (slice run_start hi b) with
            | Some offset => run_start + offset + 1
            | None => run_start
            end in
  (lo, hi).

Definition trailing_padding_end (b : bytes) (hi run_end : nat) : nat :=
  if (hi <? run_end) && forallb is_pad (slice hi run_end b) then run_end else hi.

(** A visited segment: the range to replace and the bytes to decode. *)
Record Candidate : Type := mkCandidate { c_range : span; c_decode : bytes }.

Definition visit_segment (b : bytes) (run_end lo hi : nat) : list Candidate :=
  if hi <=? lo then []
  else [mkCandidate (lo, trailing_padding_end b hi run_end) (slice lo hi b)].

(** The loop of [visit_run_segments] over the [rest] of the run. *)
Fixpoint segments_from (b : bytes) (run_end : nat) (family : option AlphabetFamily)
    (segment_start position : nat) (rest : bytes) : list Candidate :=
  match rest with
  | [] => visit_segment b run_end segment_start run_end
  | byte :: rest =>
      let boundary := is_pad byte || match family with
                                     | Some family => negb (family_contains family byte)
                                     | None => false
                                     end in
      if boundary
      then visit_segment b run_end segment_start position
           ++ segments_from b run_end family (S position) (S position) rest
      else segments_from b run_end family segment_start (S position) rest
  end.
Definition visit_run_segments (b : bytes) (run_start run_end : nat) (family : option AlphabetFamily) :
    list Candidate :=
  segments_from b run_end family run_start run_start (slice run_start run_end b).

(** The open wrap chain: start, decode buffer, end, and the end of its run. *)
Record Chain : Type := mkChain { ch_start : nat; ch_decode : bytes; ch_end : nat; ch_run_end : nat }.

Definition close_chain (b : bytes) (c : Chain) : Candidate :=
  mkCandidate (ch_start c, trailing_padding_end b (ch_end c) (ch_run_end c)) (ch_decode c).

Definition wraps (b : bytes) (s : span) : bool :=
  negb (s.1 =? s.2) && bool_decide (is_Some (wrapped_line_continues b s.1 s.2)).

Fixpoint wrap_chains (b : bytes) (chain : option Chain) (previous : option span) (runs : list span) :
    list Candidate :=
  match runs with
  | [] => match chain with Some c => [close_chain b c] | None => [] end
  | (run_start, run_end) :: runs =>
      let segment := payload_segment b run_start run_end in
      let wrap_line := wraps b segment in
      match chain with
      | Some c =>
          let newline := newline_len_at b (ch_end c) in
          if negb (newline =? 0) && (segment.1 <? segment.2) && (segment.1 =? ch_end c + newline) then
            let c := mkChain (ch_start c) (ch_decode c ++ slice segment.1 segment.2 b) segment.2 run_end in
            if negb wrap_line
            then close_chain b c :: wrap_chains b None (Some segment) runs
            else wrap_chains b (Some c) (Some segment) runs
          else close_chain b c :: wrap_chains b None (Some segment) runs
      | None =>
          let previous_is_wrap := match previous with Some p => wraps b p | None => false end in
          if wrap_line && negb previous_is_wrap
          then wrap_chains b (Some (mkChain segment.1 (slice segment.1 segment.2 b) segment.2 run_end))
                 (Some segment) runs
          else wrap_chains b None (Some segment) runs
      end
  end.
Definition visit_wrap_chains (b : bytes) : list Candidate := wrap_chains b None None (base64_runs b).

Definition mixes_families (b : bytes) : bool :=
  existsb (λ x, (x =? ch "+")%N || (x =? ch "/")%N) b && existsb (λ x, (x =? ch "-")%N || (x =? ch "_")%N) b.

Definition run_candidates (b : bytes) (run : span) : list Candidate :=
  if mixes_families (slice run.1 run.2 b)
  then visit_run_segments b run.1 run.2 (Some Standard) ++ visit_run_segments b run.1 run.2 (Some UrlSafe)
  else visit_run_segments b run.1 run.2 None.

(** [for_each_candidate], as the list of what it visits. *)
Definition candidates (b : bytes) (join_wraps : bool) : list Candidate :=
  flat_map (run_candidates b) (base64_runs b) ++ (if join_wraps then visit_wrap_chains b else []).

(** [contains_subslice]: a position whose first byte cannot start the match is
    skipped; [needle] is lower case. *)
Fixpoint contains_from (needle haystack : bytes) : bool :=
  match haystack, needle with
  | h :: r, n :: _ =>
      eq_ignore_case [h] [n] && (length needle <=? length haystack)
        && eq_ignore_case (take (length needle) haystack) needle
      || contains_from needle r
  | _, _ => false
  end.
Definition contains_subslice (haystack needle : bytes) : bool :=
  if bool_decide (needle = []) || (length haystack <? length needle) then false
  else contains_from needle haystack.

(** [sort_by_key(|s| Reverse(s.len()))], which is stable, and [dedup]. *)
Fixpoint insert_longest (s : bytes) (l : list bytes) : list bytes :=
  match l with
  | [] => [s]
  | x :: r => if length x <=? length s then s :: l else x :: insert_longest s r
  end.
Definition sort_longest (l : list bytes) : list bytes := foldr insert_longest [] l.

Fixpoint dedup (l : list bytes) : list bytes :=
  match l with
  | x :: (y :: _) as r => if decide (x = y) then dedup r else x :: dedup r
  | _ => l
  end.

Definition push_new (l : list bytes) (v : bytes) : list bytes :=
  if bool_decide (v ∈ l) then l else l ++ [v].

Definition MIN_ELIGIBLE_SECRET_LEN : nat := 4.

Record AlignmentScanner : Type := mkScanner { needles : list bytes; min_len : nat; span_bound : nat }.

Definition AlignmentScanner_new (raw_secrets : list bytes) : option AlignmentScanner :=
  let needles := dedup (sort_longest (map lowercase
    (filter (λ s, MIN_ELIGIBLE_SECRET_LEN ≤ length s) raw_secrets))) in
  match needles with
  | [] => None
  | longest :: _ =>
      Some (mkScanner needles (encoded_len MIN_ELIGIBLE_SECRET_LEN) (encoded_len (length longest + 2) + 2))
  end.

Definition hold_bound (s : AlignmentScanner) : nat := span_bound s + 8.

Section engines.
Context `{!Base64Engines}.

Definition decode_lenient (family : AlphabetFamily) (input : bytes) : option bytes :=
  let len := if length input mod 4 =? 1 then length input - 1 else length input in
  b64_decode family (take len input).

(** The loop over the group alignments. *)
Fixpoint try_trims (s : AlignmentScanner) (family : AlphabetFamily) (segment : bytes) (trims : list nat) : bool :=
  match trims with
  | [] => false
  | trim :: trims =>
      if length segment <? trim then false
      else
        let candidate := drop trim segment in
        if length candidate <? min_len s then false
        else match decode_lenient family candidate with
             | Some decoded => existsb (contains_subslice decoded) (needles s)
             | None => false
             end || try_trims s family segment trims
  end.

Definition segment_tainted (s : AlignmentScanner) (segment : bytes) : bool :=
  if length segment <? min_len s then false
  else if mixes_families segment then false
  else
    let family := if existsb (λ x, (x =? ch "-")%N || (x =? ch "_")%N) segment then UrlSafe else Standard in
    try_trims s family segment [0; 1; 2; 3].

Definition tainted_segment_ranges (b : bytes) (s : AlignmentScanner) (join_wraps : bool) : list span :=
  let ranges := c_range <$> filter (λ c, segment_tainted s (c_decode c) = true) (candidates b join_wraps) in
  merge_ranges Nat.ltb (merge_sort span_le ranges).

Definition base64_alignment_spans (input : bytes) (raw_secrets : list bytes) : list span :=
  match AlignmentScanner_new raw_secrets with
  | None => []
  | Some scanner => tainted_segment_ranges input scanner true
  end.

(** ** Encodings of a secret *)

Definition hex_digit (upper : bool) (v : N) : N :=
  (if v <? 10 then v + 48 else if upper then v + 55 else v + 87)%N.
Definition hex_byte (upper : bool) (b : N) : bytes :=
  [hex_digit upper (b / 16); hex_digit upper (b mod 16)]%N.

Definition is_unreserved (b : N) : bool :=
  is_ascii_alphanumeric b || (b =? ch "-")%N || (b =? ch "_")%N || (b =? ch ".")%N || (b =? ch "~")%N.

Definition percent_encode (s : bytes) : bytes :=
  flat_map (λ b, if is_unreserved b then [b] else ch "%" :: hex_byte true b) s.

Definition push_unique (raw : bytes) (out : list bytes) (value : bytes) : list bytes :=
  if bool_decide (value = []) || bool_decide (value = raw) || bool_decide (value ∈ out)
  then out else out ++ [value].

Definition secret_variants (secret : bytes) : list bytes :=
  match secret with
  | [] => []
  | _ =>
      foldl (push_unique secret) []
        [b64_encode Standard true secret; b64_encode Standard false secret;
         b64_encode UrlSafe true secret; b64_encode UrlSafe false secret;
         percent_encode secret;
         flat_map (hex_byte false) secret; flat_map (hex_byte true) secret]
  end.

(** The values to match and the raw ones, in the order of [secrets]. *)
Definition expand_secrets (transform_aware : bool) (exclude secrets : list bytes) : list bytes * list bytes :=
  foldl (λ '(sorted, raw) secret,
    if bool_decide (secret = []) || bool_decide (secret ∈ exclude) then (sorted, raw)
    else
      let sorted := push_new sorted secret in
      let raw := push_new raw secret in
      (if transform_aware then foldl push_new sorted (secret_variants secret) else sorted, raw))
    ([], []) secrets.

(** ** The scan *)

(** What follows the first marker of [push_line_preserving_marker]. *)
Fixpoint line_markers (b : bytes) : bytes :=
  match b with
  | [] => []
  | x :: r =>
      if (x =? 13)%N then
        match r with
        | y :: r' => if (y =? 10)%N then 13%N :: 10%N :: MASK_MARKER ++ line_markers r'
                     else 13%N :: MASK_MARKER ++ line_markers r
        | [] => 13%N :: MASK_MARKER
        end
      else if (x =? 10)%N then 10%N :: MASK_MARKER ++ line_markers r
      else line_markers r
  end.
Definition push_line_preserving_marker (b : bytes) : bytes := MASK_MARKER ++ line_markers b.

(** What follows the first marker when [preserve_lines] re-emits line ends. *)
Definition newline_markers (b : bytes) : bytes :=
  flat_map (λ x, if (x =? 10)%N || (x =? 13)%N then x :: MASK_MARKER else []) b.

(** The cursor over sorted spans: those that end at or before it are consumed,
    and the next one may cover it. *)
Fixpoint skip_spans (offset : nat) (spans : list span) : list span :=
  match spans with
  | (s, e) :: r => if e <=? offset then skip_spans offset r else spans
  | [] => []
  end.
Definition covering (offset : nat) (spans : list span) : option nat :=
  match spans with
  | (s, e) :: _ => if s <=? offset then Some e else None
  | [] => None
  end.

Definition longest_match (value pattern : option nat) : option nat :=
  match value, pattern with
  | Some v, Some p => Some (Nat.max v p)
  | Some n, None | None, Some n => Some n
  | None, None => None
  end.

Record ScanConfig : Type := mkConfig {
  cf_secrets : list bytes; cf_preserve_lines : bool; cf_transform_aware : bool }.

Fixpoint mask_scan (fuel : nat) (cf : ScanConfig) (input : bytes) (offset : nat)
    (alignment_spans spans : list span) : bytes :=
  match fuel with
  | O => []
  | S fuel =>
      if length input <=? offset then []
      else
        let alignment_spans := skip_spans offset alignment_spans in
        match covering offset alignment_spans with
        | Some hi =>
            push_line_preserving_marker (slice offset hi input)
            ++ mask_scan fuel cf input hi alignment_spans spans
        | None =>
            let remaining := drop offset input in
            let value_len := length <$> match_secret_at remaining (cf_secrets cf) (cf_transform_aware cf) in
            let spans := skip_spans offset spans in
            let pattern_len := (λ e, e - offset) <$> covering offset spans in
            match longest_match value_len pattern_len with
            | Some matched_len =>
                if slice_starts_with MASK_MARKER remaining && (matched_len <=? length MASK_MARKER)
                then MASK_MARKER ++ mask_scan fuel cf input (offset + length MASK_MARKER) alignment_spans spans
                else if cf_preserve_lines cf
                then (MASK_MARKER ++ newline_markers (take matched_len remaining))
                     ++ mask_scan fuel cf input (offset + matched_len) alignment_spans spans
                else MASK_MARKER ++ mask_scan fuel cf input (offset + matched_len) alignment_spans spans
            | None =>
                if slice_starts_with MASK_MARKER remaining
                then MASK_MARKER ++ mask_scan fuel cf input (offset + length MASK_MARKER) alignment_spans spans
                else
                  let width := lead_width (default 0%N (head remaining)) in
                  take width remaining ++ mask_scan fuel cf input (offset + width) alignment_spans spans
            end
        end
  end.

Definition valid_span (input : bytes) (s : span) : bool :=
  (s.1 <? s.2) && (s.2 <=? length input) && is_char_boundary input s.1 && is_char_boundary input s.2.

Definition mask_secrets_inner (input : bytes) (secrets : list bytes) (patterns : list PatternMasker)
    (exclude : list bytes) (preserve_lines transform_aware : bool) : bytes :=
  let '(values, raw_secrets) := expand_secrets transform_aware exclude secrets in
  let sorted := sort_longest values in
  let alignment_spans := if transform_aware then base64_alignment_spans input raw_secrets else [] in
  let spans := merge_pattern_spans
    (filter (λ s, valid_span input s = true) (flat_map (λ pattern, pattern input) patterns)) in
  mask_scan (length input) (mkConfig sorted preserve_lines transform_aware) input 0 alignment_spans spans.

(** ** The entry points *)

Definition mask_secrets (input : bytes) (secrets exclude : list bytes) : bytes :=
  mask_secrets_inner input secrets [] exclude false false.
Definition mask_secrets_with_patterns (input : bytes) (secrets : list bytes) (patterns : list PatternMasker)
    (exclude : list bytes) : bytes :=
  mask_secrets_inner input secrets patterns exclude false false.
Definition mask_secrets_transform_aware (input : bytes) (secrets exclude : list bytes) : bytes :=
  mask_secrets_inner input secrets [] exclude false true.
Definition mask_secrets_transform_aware_with_patterns (input : bytes) (secrets : list bytes)
    (patterns : list PatternMasker) (exclude : list bytes) : bytes :=
  mask_secrets_inner input secrets patterns exclude false true.
Definition mask_secrets_preserving_lines (input : bytes) (secrets exclude : list bytes) : bytes :=
  mask_secrets_inner input secrets [] exclude true false.
Definition mask_secrets_preserving_lines_with_patterns (input : bytes) (secrets : list bytes)
    (patterns : list PatternMasker) (exclude : list bytes) : bytes :=
  mask_secrets_inner input secrets patterns exclude true false.
Definition mask_secrets_preserving_lines_transform_aware (input : bytes) (secrets exclude : list bytes) : bytes :=
  mask_secrets_inner input secrets [] exclude true true.
Definition mask_secrets_preserving_lines_transform_aware_with_patterns (input : bytes) (secrets : list bytes)
    (patterns : list PatternMasker) (exclude : list bytes) : bytes :=
  mask_secrets_inner input secrets patterns exclude true true.

End engines.

(** ** The specification of a masked text

    [masked o input out]: reading [input], which starts at offset [o] of the
    text, a masker wrote [out]: it copied characters at which no secret
    matches and that lie in no hidden span, and replaced everything else by
    markers, one per line where lines are preserved. *)

Definition is_newline (x : N) : Prop := x = 10%N ∨ x = 13%N.
#[export] Instance is_newline_dec x : Decision (is_newline x).
Proof. unfold is_newline. apply _. Defined.

Definition marker_byte (x : N) : Prop := x = 42%N ∨ is_newline x.
Definition marker_block (b : bytes) : Prop :=
  head b = Some 42%N ∧ last b = Some 42%N ∧ Forall marker_byte b.

Inductive masked (lines : bool) (here : bytes → Prop) (hidden : nat → Prop) : nat → bytes → bytes → Prop :=
| masked_nil o : masked lines here hidden o [] []
| masked_copy o c r out :
    is_scalar c = true → ¬ here (Utf8.encode_char c ++ r) → ¬ hidden o →
    masked lines here hidden (o + length (Utf8.encode_char c)) r out →
    masked lines here hidden o (Utf8.encode_char c ++ r) (Utf8.encode_char c ++ out)
| masked_hide o t r block out :
    t ≠ [] → utf8 r → marker_block block →
    (lines = true → filter is_newline block = filter is_newline t) →
    masked lines here hidden (o + length t) r out →
    masked lines here hidden o (t ++ r) (block ++ out).

(** The specification in full. [matching r n] says that something looked for
    takes the first [n] bytes of [r], [segment] and [pattern] which places of
    the text a base64 segment and a pattern hint cover. A character is copied
    only if nothing matches there and nothing covers it. What is replaced is
    covered by segments; or is an existing marker; or takes the longest match
    that starts there, and every place of it is in a match or covered by
    patterns. The replacement is determined: a marker, with the line ends and a
    marker after each where lines are preserved. *)
Inductive masks (lines : bool) (matching : bytes → nat → Prop) (segment pattern : nat → Prop) : nat → bytes → bytes → Prop :=
| masks_nil o : masks lines matching segment pattern o [] []
| masks_copy o c r out :
    is_scalar c = true → (∀ n, ¬ matching (Utf8.encode_char c ++ r) n) → ¬ segment o → ¬ pattern o →
    masks lines matching segment pattern (o + length (Utf8.encode_char c)) r out →
    masks lines matching segment pattern o (Utf8.encode_char c ++ r) (Utf8.encode_char c ++ out)
| masks_segment o t r out :
    t ≠ [] → utf8 r → (∀ i, i < length t → segment (o + i)) →
    masks lines matching segment pattern (o + length t) r out →
    masks lines matching segment pattern o (t ++ r) (push_line_preserving_marker t ++ out)
| masks_marker o r out :
    utf8 r → ¬ segment o → (∀ n, matching (MASK_MARKER ++ r) n → n ≤ length MASK_MARKER) →
    masks lines matching segment pattern (o + length MASK_MARKER) r out →
    masks lines matching segment pattern o (MASK_MARKER ++ r) (MASK_MARKER ++ out)
| masks_match o t r out :
    t ≠ [] → utf8 r → ¬ segment o → (∀ n, matching (t ++ r) n → n ≤ length t) →
    (∀ i, i < length t → pattern (o + i) ∨ ∃ n, matching (t ++ r) n ∧ i < n) →
    masks lines matching segment pattern (o + length t) r out →
    masks lines matching segment pattern o (t ++ r)
      ((MASK_MARKER ++ if lines then newline_markers t else []) ++ out).

(** Equality of a text with a secret, as the masker compares them. *)
Definition same (case_insensitive : bool) (a b : bytes) : Prop :=
  if case_insensitive then lowercase a = lowercase b else a = b.

(** ** Lemmas *)

Lemma secret_matches_true r ci s :
  secret_matches r ci s = true ↔
  length s ≤ length r ∧ is_char_boundary r (length s) = true ∧ same ci (take (length s) r) s.
Proof.
  unfold secret_matches, char_boundary_at, same, eq_ignore_case, lowercase.
  destruct ci; rewrite !andb_true_iff, bool_decide_eq_true, Nat.leb_le; tauto.
Qed.

Lemma match_secret_at_Some r l ci s :
  match_secret_at r l ci = Some s → s ∈ l ∧ secret_matches r ci s = true.
Proof. intros [? ?]%List.find_some. by rewrite list_elem_of_In. Qed.

Lemma match_secret_at_None r l ci s :
  match_secret_at r l ci = None → s ∈ l → secret_matches r ci s = false.
Proof. intros H Hs. eapply List.find_none in H; [done|]. by apply list_elem_of_In. Qed.

Lemma same_length ci a b : same ci a b → length a = length b.
Proof. unfold same, lowercase. destruct ci; [|by intros ->]. intros H%(f_equal length). by rewrite !length_fmap in H. Qed.

Lemma same_star ci a b : same ci a b → 42%N ∉ b → 42%N ∉ a.
Proof.
  unfold same, lowercase. destruct ci; [|by intros ->]. intros He Hb Ha. apply Hb.
  apply (list_elem_of_fmap_2 lower_byte) in Ha. rewrite He in Ha.
  apply list_elem_of_fmap in Ha as (y & Hy & Hin). replace 42%N with y; [done|].
  revert Hy. unfold lower_byte, is_ascii_upper, in_range. eval_ch. repeat case_match; bool_to_prop; lia.
Qed.

Lemma same_newline ci a b : same ci a b → Forall is_newline a → Forall is_newline b.
Proof.
  unfold same, lowercase. destruct ci; [|by intros ->]. intros He Ha.
  apply Forall_forall. intros y Hy. apply (list_elem_of_fmap_2 lower_byte) in Hy. rewrite <-He in Hy.
  apply list_elem_of_fmap in Hy as (x & Hx & Hin). rewrite Forall_forall in Ha. specialize (Ha _ Hin).
  revert Hx Ha. unfold is_newline, lower_byte, is_ascii_upper, in_range. eval_ch. repeat case_match; bool_to_prop; lia.
Qed.

(** An occurrence of a secret in a text ends at a character boundary. *)
Lemma same_boundary ci s' s r : utf8 (s' ++ r) → utf8 s → same ci s' s → is_char_boundary (s' ++ r) (length s') = true.
Proof.
  intros Hb Hs He. destruct ci; simpl in He; [|subst; by apply boundary_length].
  assert (utf8 (lowercase r)) as Hr.
  { apply (utf8_app_inv (lowercase s)); [by apply utf8_lower|].
    rewrite <-He. unfold lowercase. rewrite <-fmap_app. by apply utf8_lower. }
  unfold is_char_boundary. rewrite lookup_app_r, Nat.sub_diag by lia.
  destruct r as [|x r]; [simpl; rewrite app_nil_r; apply Nat.eqb_refl|]. simpl.
  rewrite <-(lower_continuation (lower_byte x) x), (is_continuation_head _ _ _ Hr eq_refl); [apply orb_true_r|].
  unfold lower_byte, is_ascii_upper, in_range. eval_ch. repeat case_match; bool_to_prop; lia.
Qed.

Lemma secret_matches_app ci s' s r :
  utf8 (s' ++ r) → utf8 s → same ci s' s → secret_matches (s' ++ r) ci s = true.
Proof.
  intros Hb Hs He. pose proof (same_length _ _ _ He) as Hl. apply secret_matches_true. rewrite <-Hl.
  split; [rewrite length_app; lia|]. split; [by eapply same_boundary|].
  by rewrite take_app_length.
Qed.

(** *** Marker blocks *)

Lemma marker_utf8 r : utf8 (MASK_MARKER ++ r) → utf8 r.
Proof. apply utf8_app_inv, utf8_ascii. repeat constructor. Qed.

Lemma one_marker : marker_block MASK_MARKER.
Proof. by repeat constructor. Qed.

Lemma more_markers n block :
  Forall is_newline n → marker_block block → marker_block (MASK_MARKER ++ n ++ block).
Proof.
  intros Hn (_ & Hl & Hb). split; [done|]. split.
  - rewrite app_assoc, last_app, Hl. done.
  - apply Forall_app; split; [apply one_marker|]. apply Forall_app; split; [|done].
    eapply Forall_impl; [exact Hn|]. intros x Hx. by right.
Qed.

(** What lies between two places of a block is made of stars and line ends, and
    a block ends with a star. *)
Lemma marker_block_no_star block x s y out :
  marker_block block → block ++ out = x ++ s ++ y → length x < length block → 42%N ∉ s →
  Forall is_newline s.
Proof.
  intros (_ & Hlast & Hb) He Hx Hs. apply Forall_lookup. intros i a Ha.
  assert (∀ j b, s !! j = Some b → (block ++ out) !! (length x + j) = Some b) as Hin.
  { intros j b Hj. rewrite He, lookup_app_r, Nat.add_sub' by lia. by apply lookup_app_l_Some. }
  destruct (decide (length x + i < length block)) as [Hlt|Hge].
  - specialize (Hin _ _ Ha). rewrite lookup_app_l in Hin by done.
    eapply Forall_lookup_1 in Hb; [|done]. destruct Hb as [->|]; [|done].
    exfalso. by eapply Hs, list_elem_of_lookup_2.
  - exfalso. apply Hs. apply lookup_lt_Some in Ha as Hi.
    destruct (lookup_lt_is_Some_2 s (pred (length block) - length x)) as [b Hj]; [lia|].
    pose proof (Hin _ _ Hj) as Hk. replace (length x + _) with (pred (length block)) in Hk by lia.
    rewrite lookup_app_l in Hk by lia. rewrite last_lookup, Hk in Hlast. injection Hlast as ->.
    by eapply list_elem_of_lookup_2.
Qed.

Lemma newline_filter_app a b : filter is_newline (a ++ b) = filter is_newline a ++ filter is_newline b.
Proof. apply filter_app. Qed.

Ltac newlines := repeat apply Forall_cons_2; try apply Forall_nil_2; unfold is_newline; lia.

Lemma newline_block b : marker_block (MASK_MARKER ++ newline_markers b).
Proof.
  induction b as [|x b IH]; [apply one_marker|]. unfold newline_markers in *. cbn [flat_map].
  case_match; [|done]. apply (more_markers [x]); [|done].
  newlines.
Qed.

Lemma newline_block_filter b : filter is_newline (MASK_MARKER ++ newline_markers b) = filter is_newline b.
Proof.
  induction b as [|x b IH]; [done|]. unfold newline_markers in *. cbn [flat_map]. rewrite !filter_cons.
  case_match; case_decide; try (unfold is_newline in *; lia); [|done].
  change (filter is_newline (MASK_MARKER ++ [x] ++ MASK_MARKER ++ newline_markers b) = x :: filter is_newline b).
  by rewrite !newline_filter_app, <-IH, filter_cons_True by done.
Qed.

(** Induction on the lines a span is broken into. *)
Lemma line_markers_spec n b :
  length b ≤ n →
  marker_block (push_line_preserving_marker b) ∧ filter is_newline (push_line_preserving_marker b) = filter is_newline b.
Proof.
  unfold push_line_preserving_marker. revert b. induction n as [|n IH]; intros [|x b] Hn; simpl in Hn;
    try (split; [apply one_marker|done]); [lia|]. cbn [line_markers].
  destruct (N.eqb_spec x 13) as [->|H13].
  - destruct b as [|y b]; [split; [apply (more_markers [13%N]); [newlines|apply one_marker]|done]|].
    destruct (N.eqb_spec y 10) as [->|H10].
    + destruct (IH b) as [Hb Hf]; [simpl in Hn; lia|]. split.
      * apply (more_markers [13%N; 10%N]); [|done]. newlines.
      * change (13%N :: 10%N :: MASK_MARKER ++ line_markers b) with ([13%N; 10%N] ++ MASK_MARKER ++ line_markers b).
        by rewrite newline_filter_app, newline_filter_app, Hf.
    + destruct (IH (y :: b)) as [Hb Hf]; [simpl in *; lia|]. split.
      * apply (more_markers [13%N]); [|done]. newlines.
      * change (13%N :: MASK_MARKER ++ ?l) with ([13%N] ++ MASK_MARKER ++ l).
        by rewrite newline_filter_app, newline_filter_app, Hf.
  - destruct (N.eqb_spec x 10) as [->|H10].
    + destruct (IH b) as [Hb Hf]; [lia|]. split.
      * apply (more_markers [10%N]); [|done]. newlines.
      * change (10%N :: MASK_MARKER ++ ?l) with ([10%N] ++ MASK_MARKER ++ l).
        by rewrite newline_filter_app, newline_filter_app, Hf.
    + rewrite filter_cons_False by (unfold is_newline; lia). apply IH. lia.
Qed.

Lemma line_block b : marker_block (push_line_preserving_marker b).
Proof. by apply (line_markers_spec (length b)). Qed.

Lemma line_block_filter b : filter is_newline (push_line_preserving_marker b) = filter is_newline b.
Proof. by apply (line_markers_spec (length b)). Qed.

Lemma masks_masked lines matching segment pattern o input out :
  masks lines matching segment pattern o input out →
  masked lines (λ r, ∃ n, matching r n) (λ i, segment i ∨ pattern i) o input out.
Proof.
  induction 1 as [|o c r out Hc Hm Hs Hp _ IH|o t r out Ht Hr _ _ IH|o r out Hr _ _ _ IH|o t r out Ht Hr _ _ _ _ IH].
  - constructor.
  - constructor; [done| |by intros [?|?]|done]. intros [n Hn]. by apply (Hm n).
  - apply masked_hide; [done|done|apply line_block|by intros _; apply line_block_filter|done].
  - by apply masked_hide; [|done|apply one_marker| |].
  - destruct lines; [apply masked_hide; [done|done|apply newline_block|by intros _; apply newline_block_filter|done]|].
    by apply masked_hide; [done|done|apply one_marker| |].
Qed.

(** *** What a masked text does not contain *)

Lemma app_split_at {A} (a b x z : list A) :
  a ++ b = x ++ z → length a ≤ length x → ∃ k, x = a ++ k ∧ b = k ++ z.
Proof.
  intros [(k & -> & ->)|(k & -> & ->)]%app_eq_inv Hl; [|by exists k].
  rewrite length_app in Hl. destruct k; [|simpl in Hl; lia]. exists []. by rewrite !app_nil_r.
Qed.

Lemma masked_prefix lines here hidden o input out s y :
  masked lines here hidden o input out → 42%N ∉ s → out = s ++ y → ∃ r, input = s ++ r.
Proof.
  intros Hm Hs. revert s Hs. induction Hm as [o|o c r out Hc Hh Hv _ IH|o t r block out Ht Hr Hb Hf _ IH];
    intros s Hs He.
  - exists []. symmetry in He. apply app_nil in He as [-> _]. done.
  - symmetry in He. apply app_eq_inv in He as [(k & -> & He)|(k & -> & _)].
    + destruct (IH k) as [r' ->]; [by intros ?; apply Hs, elem_of_app; right|done|].
      exists r'. by rewrite app_assoc.
    + exists (k ++ r). by rewrite app_assoc.
  - destruct s as [|a s]; [by exists (t ++ r)|]. exfalso. apply Hs.
    destruct Hb as (Hb & _). destruct block as [|b block]; [done|]. injection Hb as ->.
    injection He as <- _. constructor.
Qed.

Lemma same_head_continuation ci s' s x : utf8 s → same ci s' s → head s' = Some x → is_continuation x = false.
Proof.
  intros Hs He Hx. destruct s' as [|x' s']; [done|]. injection Hx as ->. destruct ci; simpl in He.
  - destruct s as [|y s]; [done|]. unfold lowercase in He. injection He as Hy _.
    rewrite (lower_continuation _ _ Hy). by eapply is_continuation_head.
  - subst s. by eapply is_continuation_head.
Qed.

Lemma masked_no_secret lines here hidden o input out ci s x s' y :
  masked lines here hidden o input out → utf8 input →
  utf8 s → 42%N ∉ s → ¬ Forall is_newline s →
  (∀ r, secret_matches r ci s = true → here r) →
  same ci s' s → out = x ++ s' ++ y → False.
Proof.
  intros Hm Hin Hs Hstar Hnl Hhere Hsame. pose proof (same_star _ _ _ Hsame Hstar) as Hstar'.
  revert x Hin. induction Hm as [o|o c r out Hc Hh Hv Hm IH|o t r block out Ht Hr Hb Hf Hm IH]; intros x Hin He.
  - symmetry in He. apply app_nil in He as [-> He]. apply app_nil in He as [-> _].
    apply Hnl. by eapply same_newline.
  - destruct (decide (length (Utf8.encode_char c) ≤ length x)) as [Hle|Hgt].
    + destruct (app_split_at _ _ _ _ He Hle) as (k & -> & Hk). eapply IH; [|exact Hk].
      eapply utf8_app_inv; [|exact Hin]. rewrite <-(app_nil_r (Utf8.encode_char c)). by repeat constructor.
    + destruct x as [|a x].
      * assert (∃ r', Utf8.encode_char c ++ r = s' ++ r') as [r' Er].
        { eapply masked_prefix; [exact (masked_copy _ _ _ _ _ _ _ Hc Hh Hv Hm)|done|exact He]. }
        apply Hh, Hhere. rewrite Er. apply secret_matches_app; [rewrite <-Er; exact Hin|exact Hs|exact Hsame].
      * destruct s' as [|b s']; [apply Hnl; by eapply same_newline|].
        pose proof (same_head_continuation ci _ s b Hs Hsame eq_refl) as Hcont.
        destruct (encode_char_cons c) as (z & zs & Ez & _ & _ & Hzs); [done|].
        assert (zs !! length x = Some b) as Hlook.
        { assert ((Utf8.encode_char c ++ out) !! length (a :: x) = Some b) as Hl.
          { by rewrite He, lookup_app_r, Nat.sub_diag by lia. }
          rewrite lookup_app_l in Hl by lia. by rewrite Ez in Hl. }
        eapply Forall_lookup_1 in Hzs; [|done]. simpl in Hzs. congruence.
  - destruct (decide (length x < length block)) as [Hlt|Hge].
    + apply Hnl. eapply same_newline; [done|]. by eapply marker_block_no_star.
    + destruct (app_split_at _ _ _ _ He) as (k & -> & Hk); [lia|]. by eapply IH.
Qed.

(** *** The span cursor *)

Definition spans_ok (input : bytes) (l : list span) : Prop :=
  StronglySorted (λ a b, a.1 ≤ b.1) l ∧ Forall (λ s, s.2 ≤ length input ∧ utf8 (drop s.2 input)) l.

Definition within (l : list span) (i : nat) : Prop := ∃ s, s ∈ l ∧ s.1 ≤ i ∧ i < s.2.

Lemma skip_spans_ok input o l : spans_ok input l → spans_ok input (skip_spans o l).
Proof.
  induction l as [|[s e] l IH]; intros [Hs Hf]; [done|]. simpl. case_match; [|done]. apply IH.
  by apply StronglySorted_inv in Hs as [? _]; inversion Hf.
Qed.

Lemma skip_spans_within o l i : within l i → o ≤ i → within (skip_spans o l) i.
Proof.
  intros (sp & Hin & H1 & H2) Ho. induction l as [|[s e] l IH]; [by apply not_elem_of_nil in Hin|].
  simpl. destruct (Nat.leb_spec e o); [|by exists sp].
  apply elem_of_cons in Hin as [->|Hin]; [simpl in *; lia|by apply IH].
Qed.

Lemma skip_spans_within_iff o l i : o ≤ i → within (skip_spans o l) i ↔ within l i.
Proof.
  intros Ho. split; [|by intros; apply skip_spans_within].
  intros (sp & Hin & Hi). exists sp. split; [|done]. clear Hi.
  induction l as [|[s e] l IH]; [done|]. simpl in Hin. case_match; [by right; apply IH|done].
Qed.

(** The places up to the end of the covering span are in it. *)
Lemma covering_within o l e i :
  covering o (skip_spans o l) = Some e → o ≤ i → i < e → within l i.
Proof.
  intros Hc Ho Hi. apply (skip_spans_within_iff o); [done|].
  destruct (skip_spans o l) as [|[s e'] r]; [done|]. simpl in Hc. destruct (Nat.leb_spec s o); [|done].
  injection Hc as ->. exists (s, e). split; [by left|]. simpl. lia.
Qed.

Lemma covering_Some input o l e :
  spans_ok input l → covering o (skip_spans o l) = Some e → o < e ∧ e ≤ length input ∧ utf8 (drop e input).
Proof.
  induction l as [|[s e'] l IH]; intros [Hs Hf] Hc; [done|]. simpl in Hc.
  destruct (Nat.leb_spec e' o).
  - apply IH; [|done]. by apply StronglySorted_inv in Hs as [? _]; inversion Hf.
  - simpl in Hc. case_match; [|done]. injection Hc as <-. inversion Hf as [|? ? [? ?] _]. by split_and!.
Qed.

Lemma covering_None input o l :
  spans_ok input l → covering o (skip_spans o l) = None → ¬ within l o.
Proof.
  intros [Hs _] Hc Hw. apply (skip_spans_within o) in Hw; [|done].
  assert (StronglySorted (λ a b : span, a.1 ≤ b.1) (skip_spans o l)) as Hs'.
  { clear Hc Hw. induction Hs as [|[s e] l Hs IH Hf]; [constructor|]. simpl. case_match; [done|by constructor]. }
  destruct (skip_spans o l) as [|[s e] r]; [by destruct Hw as (? & ?%not_elem_of_nil & _)|].
  simpl in Hc. destruct (Nat.leb_spec s o); [done|]. destruct Hw as (sp & Hin & H1 & H2).
  apply StronglySorted_inv in Hs' as [_ Hf]. rewrite Forall_forall in Hf.
  apply elem_of_cons in Hin as [->|Hin]; [simpl in *; lia|]. specialize (Hf _ Hin). simpl in Hf. lia.
Qed.

(** *** The scan *)

(** Something looked for takes the first [n] bytes of [r]. *)
Definition matching_of (cf : ScanConfig) (r : bytes) (n : nat) : Prop :=
  ∃ v, v ∈ cf_secrets cf ∧ secret_matches r (cf_transform_aware cf) v = true ∧ n = length v.

Definition longer (a b : bytes) : Prop := length b ≤ length a.

Lemma match_longest cf r n :
  StronglySorted longer (cf_secrets cf) → matching_of cf r n →
  ∃ s, match_secret_at r (cf_secrets cf) (cf_transform_aware cf) = Some s ∧ n ≤ length s.
Proof.
  intros Hs (v & Hv & Hm & ->). unfold match_secret_at. induction Hs as [|x l Hs IH Hx]; [by apply not_elem_of_nil in Hv|].
  cbn [List.find]. destruct (secret_matches r _ x) eqn:E.
  - exists x. split; [done|]. apply elem_of_cons in Hv as [->|Hv]; [done|]. rewrite Forall_forall in Hx. by apply Hx.
  - apply elem_of_cons in Hv as [->|Hv]; [congruence|]. by apply IH.
Qed.

Lemma match_matching cf r s :
  match_secret_at r (cf_secrets cf) (cf_transform_aware cf) = Some s → matching_of cf r (length s).
Proof. intros [Hin Hm]%match_secret_at_Some. by exists s. Qed.

Lemma drop_slice (input : bytes) o e :
  o ≤ e → e ≤ length input → drop o input = slice o e input ++ drop e input ∧ length (slice o e input) = e - o.
Proof.
  intros Hlt Hle. unfold slice. split.
  - rewrite <-(take_drop (e - o) (drop o input)) at 1. rewrite drop_drop. by replace (o + (e - o)) with e by lia.
  - rewrite length_take_le; [done|]. rewrite length_drop. lia.
Qed.

Lemma marker_at_drop input o :
  slice_starts_with MASK_MARKER (drop o input) = true → utf8 (drop o input) →
  o + 3 ≤ length input ∧ slice o (o + 3) input = MASK_MARKER ∧ utf8 (drop (o + 3) input).
Proof.
  unfold slice_starts_with. intros [k Hk]%bool_decide_eq_true Hu. split_and!.
  - apply (f_equal length) in Hk. rewrite length_drop, length_app in Hk. simpl in Hk. lia.
  - unfold slice. rewrite Hk. by replace (o + 3 - o) with 3 by lia.
  - rewrite <-drop_drop, Hk. change (drop 3 (MASK_MARKER ++ k)) with k. apply marker_utf8. by rewrite <-Hk.
Qed.

Lemma first_char input o :
  utf8 (drop o input) → o < length input →
  ∃ c r, is_scalar c = true ∧ drop o input = Utf8.encode_char c ++ r ∧ utf8 r
         ∧ lead_width (default 0%N (head (drop o input))) = length (Utf8.encode_char c).
Proof.
  intros Hu Ho. inversion Hu as [He|c r Hc Hr He].
  - apply (f_equal length) in He. rewrite length_drop in He. simpl in He. lia.
  - exists c, r. split_and!; [done..|]. destruct (encode_char_cons c Hc) as (x & xs & -> & Hw & _). done.
Qed.

(** A match at the cursor ends at a later boundary. *)
Lemma longest_match_ok cf input o spans m :
  Forall (λ s, s ≠ []) (cf_secrets cf) → o ≤ length input → utf8 (drop o input) → spans_ok input spans →
  longest_match (length <$> match_secret_at (drop o input) (cf_secrets cf) (cf_transform_aware cf))
    ((λ e, e - o) <$> covering o (skip_spans o spans)) = Some m →
  o < o + m ∧ o + m ≤ length input ∧ utf8 (drop (o + m) input).
Proof.
  intros Hne Ho Hu Hs Hm.
  assert (∀ v, length <$> match_secret_at (drop o input) (cf_secrets cf) (cf_transform_aware cf) = Some v →
    o < o + v ∧ o + v ≤ length input ∧ utf8 (drop (o + v) input)) as Hv.
  { intros v. rewrite fmap_Some. intros (s & (Hs' & Hmatch)%match_secret_at_Some & ->).
    apply secret_matches_true in Hmatch as (Hl & Hb & _). rewrite length_drop in Hl.
    rewrite Forall_forall in Hne. specialize (Hne _ Hs'). destruct s as [|x s]; [done|].
    split_and!; [simpl; lia|lia|]. rewrite <-drop_drop. by apply utf8_split. }
  assert (∀ p, (λ e, e - o) <$> covering o (skip_spans o spans) = Some p →
    o < o + p ∧ o + p ≤ length input ∧ utf8 (drop (o + p) input)) as Hp.
  { intros p. rewrite fmap_Some. intros (e & He & ->).
    apply (covering_Some input) in He as (H1 & H2 & H3); [|done].
    replace (o + (e - o)) with e by lia. done. }
  revert Hm. destruct (length <$> _) as [v|], ((λ e, e - o) <$> _) as [p|]; simpl; intros Hm;
    try discriminate Hm; injection Hm as <-; auto.
  destruct (Nat.max_spec v p) as [[_ ->]|[_ ->]]; auto.
Qed.

Lemma longest_match_None v p : longest_match v p = None → v = None ∧ p = None.
Proof. by destruct v, p. Qed.

(** What is hidden at the cursor is a longest match, and every place of it is
    in a match or covered. *)
Lemma longest_match_spec cf input o spans m :
  StronglySorted longer (cf_secrets cf) →
  longest_match (length <$> match_secret_at (drop o input) (cf_secrets cf) (cf_transform_aware cf))
    ((λ e, e - o) <$> covering o (skip_spans o spans)) = Some m →
  (∀ n, matching_of cf (drop o input) n → n ≤ m) ∧
  ∀ i, i < m → within spans (o + i) ∨ ∃ n, matching_of cf (drop o input) n ∧ i < n.
Proof.
  intros Hsort Hm. split.
  - intros n Hn. destruct (match_longest _ _ _ Hsort Hn) as (s & Hs & Hle). rewrite Hs in Hm. simpl in Hm.
    destruct ((λ e, e - o) <$> _); injection Hm as <-; lia.
  - intros i Hi.
    destruct (match_secret_at (drop o input) _ _) as [v|] eqn:Hv; [destruct (decide (i < length v))|].
    { right. exists (length v). split; [by apply match_matching|done]. }
    all: destruct (covering o (skip_spans o spans)) as [e|] eqn:He; simpl in Hm; [|by (injection Hm as <-; lia) || discriminate Hm].
    all: injection Hm as <-; left; eapply covering_within; [exact He|lia..].
Qed.

Lemma mask_scan_masks cf input fuel segment pattern offset aspans spans :
  Forall (λ s, s ≠ []) (cf_secrets cf) → StronglySorted longer (cf_secrets cf) →
  length input - offset ≤ fuel → offset ≤ length input → utf8 (drop offset input) →
  spans_ok input aspans → spans_ok input spans →
  (∀ i, offset ≤ i → segment i ↔ within aspans i) → (∀ i, offset ≤ i → pattern i ↔ within spans i) →
  masks (cf_preserve_lines cf) (matching_of cf) segment pattern offset (drop offset input)
    (mask_scan fuel cf input offset aspans spans).
Proof.
  intros Hne Hsort. revert offset aspans spans.
  induction fuel as [|fuel IH]; intros offset aspans spans Hfuel Hle Hu Ha Hs Hseg Hpat; cbn [mask_scan].
  { rewrite (nil_length_inv (drop offset input)) by (rewrite length_drop; lia). constructor. }
  destruct (Nat.leb_spec (length input) offset) as [|Hlt].
  { rewrite (nil_length_inv (drop offset input)) by (rewrite length_drop; lia). constructor. }
  pose proof (skip_spans_ok _ offset _ Ha) as Ha'. pose proof (skip_spans_ok _ offset _ Hs) as Hs'.
  assert (∀ e (P : nat → Prop) l, offset < e → (∀ i, offset ≤ i → P i ↔ within l i) →
    ∀ i, e ≤ i → P i ↔ within (skip_spans offset l) i) as Hskip.
  { intros e P l He HP i Hi. rewrite skip_spans_within_iff by lia. apply HP. lia. }
  destruct (covering offset (skip_spans offset aspans)) as [hi|] eqn:Hcov.
  { destruct (covering_Some _ _ _ _ Ha Hcov) as (H1 & H2 & H3).
    destruct (drop_slice input offset hi) as [Hd Hl]; [lia|done|]. rewrite Hd.
    apply masks_segment; [intros He; rewrite He in Hl; simpl in Hl; lia|done| |].
    - rewrite Hl. intros i Hi. apply Hseg; [lia|]. eapply covering_within; [done|lia..].
    - rewrite Hl. replace (offset + (hi - offset)) with hi by lia. apply IH; [lia|done..| |].
      + by apply Hskip.
      + intros i Hi. apply Hpat. lia. }
  pose proof (covering_None _ _ _ Ha Hcov) as Hna. rewrite <-(Hseg offset) in Hna by lia.
  assert (∀ e, offset < e → e ≤ length input → utf8 (drop e input) →
    masks (cf_preserve_lines cf) (matching_of cf) segment pattern e (drop e input)
      (mask_scan fuel cf input e (skip_spans offset aspans) (skip_spans offset spans))) as Hrest.
  { intros e H1 H2 H3. apply IH; [lia|done..| |]; by apply Hskip. }
  assert (∀ m, m = 3 → slice_starts_with MASK_MARKER (drop offset input) = true →
    (∀ n, matching_of cf (drop offset input) n → n ≤ m) →
    masks (cf_preserve_lines cf) (matching_of cf) segment pattern offset (drop offset input)
      (MASK_MARKER ++ mask_scan fuel cf input (offset + length MASK_MARKER) (skip_spans offset aspans) (skip_spans offset spans))) as Hmarker.
  { intros m -> Hmark Hmax. destruct (marker_at_drop _ _ Hmark Hu) as (H4 & H5 & H6).
    destruct (drop_slice input offset (offset + 3)) as [Hd _]; [lia|done|]. rewrite H5 in Hd. rewrite Hd in Hmax |- *.
    apply masks_marker; [done..|]. apply Hrest; [simpl; lia|done..]. }
  destruct (longest_match _ _) as [m|] eqn:Hm.
  - destruct (longest_match_ok _ _ _ _ _ Hne Hle Hu Hs Hm) as (H1 & H2 & H3).
    destruct (longest_match_spec _ _ _ _ _ Hsort Hm) as [Hmax Hjust].
    assert (masks (cf_preserve_lines cf) (matching_of cf) segment pattern offset (drop offset input)
      ((MASK_MARKER ++ if cf_preserve_lines cf then newline_markers (take m (drop offset input)) else [])
        ++ mask_scan fuel cf input (offset + m) (skip_spans offset aspans) (skip_spans offset spans))) as Hhide.
    { destruct (drop_slice input offset (offset + m)) as [Hd Hl]; [lia|done|].
      assert (take m (drop offset input) = slice offset (offset + m) input) as ->.
      { unfold slice. by rewrite Nat.add_sub'. }
      rewrite Hd in Hmax, Hjust |- *. replace (offset + m - offset) with m in Hl by lia.
      apply masks_match; rewrite ?Hl; [intros He; rewrite He in Hl; simpl in Hl; lia|done|done|exact Hmax| |by apply Hrest].
      intros i Hi. rewrite Hpat by lia. by apply Hjust. }
    destruct (slice_starts_with MASK_MARKER (drop offset input)) eqn:Hmark;
      [destruct (Nat.leb_spec m (length MASK_MARKER))|]; cbn [andb].
    + apply (Hmarker 3 eq_refl eq_refl). intros n Hn. specialize (Hmax n Hn). simpl in *. lia.
    + destruct (cf_preserve_lines cf); [done|]. by rewrite app_nil_r in Hhide.
    + destruct (cf_preserve_lines cf); [done|]. by rewrite app_nil_r in Hhide.
  - apply longest_match_None in Hm as [Hv Hp].
    assert (∀ n, ¬ matching_of cf (drop offset input) n) as Hno.
    { intros n Hn. destruct (match_longest _ _ _ Hsort Hn) as (s & Hs1 & _). by rewrite Hs1 in Hv. }
    destruct (slice_starts_with MASK_MARKER (drop offset input)) eqn:Hmark.
    + apply (Hmarker 3 eq_refl eq_refl). intros n Hn. by destruct (Hno n).
    + destruct (first_char input offset Hu Hlt) as (c & r & Hc & Hr & Hur & Hw).
      assert (length (Utf8.encode_char c) > 0) as Hpos.
      { pose proof (encode_char_ne c). destruct (Utf8.encode_char c); [done|simpl; lia]. }
      assert (offset + length (Utf8.encode_char c) ≤ length input ∧ drop (offset + length (Utf8.encode_char c)) input = r) as [Hlen Hd].
      { split; [apply (f_equal length) in Hr; rewrite length_drop, length_app in Hr; lia|].
        by rewrite <-drop_drop, Hr, drop_app_length. }
      rewrite Hw. rewrite Hr at 2. rewrite take_app_length. rewrite Hr in Hno |- *. apply masks_copy; [done|done|done| |].
      * rewrite Hpat by lia. apply fmap_None in Hp. by apply (covering_None _ _ _ Hs Hp).
      * rewrite <-Hd. apply Hrest; [lia|done|by rewrite Hd].
Qed.

(** *** Merging of spans *)

Lemma span_le_total a b : span_le a b ∨ span_le b a.
Proof. unfold span_le. lia. Qed.
#[export] Instance span_le_Total : Total span_le := span_le_total.
#[export] Instance span_le_Transitive : Transitive span_le.
Proof. intros a b c. unfold span_le. lia. Qed.

Definition start_le (a b : span) : Prop := a.1 ≤ b.1.

Lemma StronglySorted_mono {A} (R R' : A → A → Prop) l :
  (∀ a b, R a b → R' a b) → StronglySorted R l → StronglySorted R' l.
Proof. intros HR. induction 1 as [|a l _ IH Hf]; constructor; [done|]. by eapply Forall_impl; [|apply HR]. Qed.

Lemma merge_from_spec joins (P : nat → Prop) last rs :
  StronglySorted start_le (last :: rs) → Forall (λ s, P s.2) (last :: rs) →
  let merged := merge_from joins last rs in
  StronglySorted start_le merged ∧ Forall (start_le last) merged
  ∧ Forall (λ s, P s.2) merged ∧ ∀ i, within (last :: rs) i → within merged i.
Proof.
  revert last. induction rs as [|[s e] rs IH]; intros last Hs HP; simpl.
  { split_and!; [by repeat constructor| |done|done]. constructor; [by unfold start_le|constructor]. }
  apply StronglySorted_inv in Hs as [Hs Hf]. apply Forall_cons in HP as [HP1 HP2].
  pose proof HP2 as [HP3 HP4]%Forall_cons. apply Forall_cons in Hf as [Hle Hf].
  pose proof Hs as [Hs' _]%StronglySorted_inv. unfold start_le in Hle; simpl in Hle.
  case_match.
  - destruct (IH (last.1, Nat.max last.2 e)) as (H1 & H2 & H3 & H4).
    + by constructor.
    + constructor; [|done]. simpl. by destruct (Nat.max_spec last.2 e) as [[_ ->]|[_ ->]].
    + split_and!; [done..|]. intros i (sp & Hin & Hi1 & Hi2).
      apply H4. rewrite !elem_of_cons in Hin. destruct Hin as [->|[->|Hin]].
      * exists (last.1, Nat.max last.2 e). simpl. split; [constructor|lia].
      * exists (last.1, Nat.max last.2 e). simpl in *. split; [constructor|lia].
      * exists sp. split; [by constructor|done].
  - destruct (IH (s, e) Hs HP2) as (H1 & H2 & H3 & H4).
    assert (Forall (start_le last) (merge_from joins (s, e) rs)) as H5.
    { eapply Forall_impl; [exact H2|]. unfold start_le. simpl. lia. }
    split_and!; [by constructor|constructor; [by unfold start_le|exact H5]|by constructor|].
    intros i (sp & [->|Hin]%elem_of_cons & Hi).
    + exists last. split; [constructor|done].
    + destruct (H4 i) as (sp' & Hin' & Hi'); [by exists sp|]. exists sp'. split; [by constructor|done].
Qed.

Lemma merge_ranges_spec joins (P : nat → Prop) l :
  Forall (λ s, P s.2) l →
  let merged := merge_ranges joins (merge_sort span_le l) in
  StronglySorted start_le merged ∧ Forall (λ s, P s.2) merged ∧ ∀ i, within l i → within merged i.
Proof.
  intros HP.
  assert (StronglySorted start_le (merge_sort span_le l)) as Hs.
  { apply (StronglySorted_mono span_le); [unfold span_le, start_le; lia|].
    apply StronglySorted_merge_sort; apply _. }
  assert (∀ i, within l i → within (merge_sort span_le l) i) as Hw.
  { intros i (s & Hin & Hi). exists s. by rewrite merge_sort_Permutation. }
  assert (Forall (λ s, P s.2) (merge_sort span_le l)) as HP' by (by rewrite merge_sort_Permutation).
  destruct (merge_sort span_le l) as [|last rs]; simpl.
  - split_and!; [constructor|done|done].
  - destruct (merge_from_spec joins P last rs Hs HP') as (H1 & H2 & H3 & H4). split_and!; auto.
Qed.

(** Ranges that do not leave a gap are merged, so nothing is covered that was not. *)
Lemma merge_from_within joins last rs i :
  (∀ s e, joins s e = true → s ≤ e) → StronglySorted start_le (last :: rs) →
  within (merge_from joins last rs) i → within (last :: rs) i.
Proof.
  intros Hj. revert last. induction rs as [|[s e] rs IH]; intros last Hs; cbn [merge_from]; [done|].
  apply StronglySorted_inv in Hs as [Hs Hf]. pose proof Hs as [Hs' _]%StronglySorted_inv.
  apply Forall_cons in Hf as [Hle Hf]. unfold start_le in Hle; simpl in Hle.
  destruct (joins s last.2) eqn:Hjoin.
  - intros Hw. apply (IH (last.1, Nat.max last.2 e)) in Hw; [|by constructor].
    apply Hj in Hjoin. destruct Hw as (sp & [->|Hin]%elem_of_cons & H1 & H2); cbn [fst snd] in *.
    + destruct (decide (i < last.2)); [exists last; split; [by left|lia]|].
      exists (s, e). split; [by right; left|]. simpl. lia.
    + exists sp. split; [by right; right|done].
  - intros (sp & [->|Hin]%elem_of_cons & Hi); [exists last; split; [by left|done]|].
    destruct (IH (s, e) Hs) as (sp' & Hin' & Hi'); [by exists sp|]. exists sp'. split; [by right|done].
Qed.

Lemma merge_ranges_within joins l i :
  (∀ s e, joins s e = true → s ≤ e) → within (merge_ranges joins (merge_sort span_le l)) i → within l i.
Proof.
  intros Hj Hw.
  assert (StronglySorted start_le (merge_sort span_le l)) as Hs.
  { apply (StronglySorted_mono span_le); [unfold span_le, start_le; lia|]. apply StronglySorted_merge_sort; apply _. }
  assert (within (merge_sort span_le l) i) as (sp & Hin & Hi).
  { destruct (merge_sort span_le l) as [|last rs]; [done|]. by eapply merge_from_within. }
  exists sp. by rewrite merge_sort_Permutation in Hin.
Qed.

(** *** Base64 runs *)

Definition run_ok (b : bytes) (r : span) : Prop :=
  r.1 < r.2 ∧ r.2 ≤ length b ∧ ∀ i, r.1 ≤ i → i < r.2 → ∃ x, b !! i = Some x ∧ is_base64_byte x = true.

Lemma base64_runs_ok b r : r ∈ base64_runs b → run_ok b r.
Proof.
  assert (∀ rest start index,
    rest = drop index b → index ≤ length b →
    (∀ s, start = Some s → s < index ∧ ∀ i, s ≤ i → i < index → ∃ x, b !! i = Some x ∧ is_base64_byte x = true) →
    Forall (run_ok b) (base64_runs_from start index rest)) as Hgen.
  { induction rest as [|x rest IH]; intros start index He Hle Hstart; simpl.
    - destruct start as [s|]; [|constructor]. destruct (Hstart s) as [H1 H2]; [done|].
      constructor; [|constructor]. done.
    - assert (b !! index = Some x) as Hx by (by rewrite <-(Nat.add_0_r index), <-lookup_drop, <-He).
      pose proof (lookup_lt_Some _ _ _ Hx) as Hlt.
      assert (rest = drop (S index) b) as Hrest.
      { by rewrite (drop_S _ _ _ Hx) in He; injection He. }
      destruct (is_base64_byte x) eqn:Hb.
      + apply IH; [done|lia|]. intros s [= <-]. destruct start as [s|]; simpl.
        * destruct (Hstart s) as [H1 H2]; [done|]. split; [lia|]. intros i H3 H4.
          destruct (decide (i = index)) as [->|]; [by exists x|]. apply H2; lia.
        * split; [lia|]. intros i H3 H4. replace i with index by lia. by exists x.
      + destruct start as [s|]; [|by apply IH; [done|lia|]]. destruct (Hstart s) as [H1 H2]; [done|].
        constructor; [by split_and!|]. by apply IH; [done|lia|]. }
  specialize (Hgen b None 0 eq_refl (Nat.le_0_l _)). rewrite Forall_forall in Hgen. apply Hgen. done.
Qed.

Lemma position_lt p b i : rposition p b = Some i → i < length b.
Proof.
  revert i. induction b as [|x b IH]; intros i; simpl; [done|].
  destruct (rposition p b) as [j|]; [|case_match; [|done]]; intros [= <-]; [|lia].
  specialize (IH _ eq_refl). lia.
Qed.

Lemma length_slice lo hi (b : bytes) : length (slice lo hi b) ≤ hi - lo.
Proof. unfold slice. rewrite length_take. lia. Qed.

Lemma payload_segment_bounds b s e :
  s ≤ e → s ≤ (payload_segment b s e).1 ∧ (payload_segment b s e).2 ≤ e.
Proof.
  intros Hle. unfold payload_segment. split; simpl.
  - case_match; lia.
  - destruct (rposition _ (slice s e b)) as [i|] eqn:Hi; [|done].
    apply position_lt in Hi. pose proof (length_slice s e b). lia.
Qed.

Definition candidate_ok (b : bytes) (c : Candidate) : Prop :=
  ∃ r, r ∈ base64_runs b ∧ r.1 < (c_range c).2 ∧ (c_range c).2 ≤ r.2.

Lemma trailing_padding_end_bounds b hi e : hi ≤ e → hi ≤ trailing_padding_end b hi e ∧ trailing_padding_end b hi e ≤ e.
Proof. unfold trailing_padding_end. case_match; lia. Qed.

Lemma visit_segment_ok b r lo hi :
  r ∈ base64_runs b → r.1 ≤ lo → hi ≤ r.2 → Forall (candidate_ok b) (visit_segment b r.2 lo hi).
Proof.
  intros Hr Hlo Hhi. unfold visit_segment. destruct (Nat.leb_spec hi lo); [constructor|].
  constructor; [|constructor]. exists r. simpl.
  pose proof (trailing_padding_end_bounds b hi r.2 Hhi). split; [done|lia].
Qed.

Lemma segments_from_ok b r family segment_start position rest :
  r ∈ base64_runs b → r.1 ≤ segment_start → r.1 ≤ position → position + length rest ≤ r.2 →
  Forall (candidate_ok b) (segments_from b r.2 family segment_start position rest).
Proof.
  intros Hr. revert segment_start position.
  induction rest as [|x rest IH]; intros segment_start position H1 H2 H3; simpl in H3 |- *.
  - by apply visit_segment_ok.
  - case_match; [apply Forall_app; split|]; [apply visit_segment_ok; [done..|lia]|apply IH; lia|apply IH; lia].
Qed.

Lemma run_candidates_ok b r : r ∈ base64_runs b → Forall (candidate_ok b) (run_candidates b r).
Proof.
  intros Hr. pose proof (base64_runs_ok _ _ Hr) as (Hlt & _).
  pose proof (length_slice r.1 r.2 b) as Hl.
  unfold run_candidates, visit_run_segments.
  case_match; [apply Forall_app; split|]; (apply segments_from_ok; [done|lia..]).
Qed.

Lemma wraps_lt b s : wraps b s = true → s.1 < s.2.
Proof.
  unfold wraps, wrapped_line_continues. rewrite andb_true_iff, negb_true_iff, Nat.eqb_neq, bool_decide_eq_true.
  intros [Hne Hw]. destruct (Nat.ltb_spec s.2 s.1); [by destruct Hw|]. lia.
Qed.

Lemma wrap_chains_ok b chain previous runs :
  (∀ r, r ∈ runs → r ∈ base64_runs b) →
  (∀ c, chain = Some c → ∃ r, r ∈ base64_runs b ∧ r.1 < ch_end c ∧ ch_end c ≤ ch_run_end c ∧ ch_run_end c ≤ r.2) →
  Forall (candidate_ok b) (wrap_chains b chain previous runs).
Proof.
  assert (∀ c r, r ∈ base64_runs b → r.1 < ch_end c → ch_end c ≤ ch_run_end c → ch_run_end c ≤ r.2 →
    candidate_ok b (close_chain b c)) as Hclose.
  { intros c r Hr H1 H2 H3. exists r. simpl.
    pose proof (trailing_padding_end_bounds b (ch_end c) (ch_run_end c) H2). split; [done|lia]. }
  revert chain previous. induction runs as [|[s e] runs IH]; intros chain previous Hruns Hchain; cbn [wrap_chains].
  { destruct chain as [c|]; [|constructor]. destruct (Hchain c) as (r & ? & ? & ? & ?); [done|].
    constructor; [by eapply Hclose|constructor]. }
  assert ((s, e) ∈ base64_runs b) as Hr by (apply Hruns; constructor).
  pose proof (base64_runs_ok _ _ Hr) as (Hlt & _). simpl in Hlt.
  destruct (payload_segment_bounds b s e) as [H1 H2]; [lia|].
  generalize dependent (payload_segment b s e). intros seg H1 H2.
  assert (∀ r, r ∈ runs → r ∈ base64_runs b) as Hruns' by (intros r Hr'; apply Hruns; by constructor).
  destruct chain as [c|].
  - destruct (Hchain c) as (r & Hr0 & H3 & H4 & H5); [done|].
    destruct (_ && _) eqn:Hcont; [|constructor; [by eapply Hclose|by apply IH]].
    rewrite !andb_true_iff, Nat.ltb_lt in Hcont. destruct Hcont as [[_ Hseg] _].
    assert (∀ st d, ∃ r, r ∈ base64_runs b
      ∧ r.1 < ch_end (mkChain st d seg.2 e)
      ∧ ch_end (mkChain st d seg.2 e) ≤ ch_run_end (mkChain st d seg.2 e)
      ∧ ch_run_end (mkChain st d seg.2 e) ≤ r.2) as Hnew.
    { intros st d. exists (s, e). cbn [ch_end ch_run_end fst snd]. split; [done|lia]. }
    case_match.
    + destruct (Hnew (ch_start c) (ch_decode c ++ slice seg.1 seg.2 b))
        as (r' & ? & ? & ? & ?).
      constructor; [by eapply Hclose|by apply IH].
    + apply IH; [done|]. intros c' [= <-]. apply Hnew.
  - case_match; [|by apply IH]. apply IH; [done|]. intros c' [= <-]. exists (s, e). cbn [ch_end ch_run_end fst snd].
    rewrite andb_true_iff in H. destruct H as [Hw%wraps_lt _]. split; [done|lia].
Qed.

Lemma candidates_ok b join : Forall (candidate_ok b) (candidates b join).
Proof.
  apply Forall_app; split.
  - apply Forall_forall. intros c Hc. apply list_elem_of_In, in_flat_map in Hc as (r & Hr & Hc).
    apply list_elem_of_In in Hr, Hc. pose proof (run_candidates_ok _ _ Hr) as Hf.
    rewrite Forall_forall in Hf. by apply Hf.
  - destruct join; [|constructor]. by apply wrap_chains_ok.
Qed.

(** A run ends after an ASCII byte, so at a character boundary. *)
Lemma is_base64_byte_ascii x : is_base64_byte x = true → (x < 128)%N.
Proof.
  unfold is_base64_byte, is_ascii_alphanumeric, is_ascii_alphabetic, is_ascii_digit, is_ascii_lower,
    is_ascii_upper, in_range. eval_ch. intros. lia.
Qed.

Lemma utf8_after_ascii b i x : utf8 b → b !! i = Some x → (x < 128)%N → utf8 (drop (S i) b).
Proof.
  intros Hb Hx Hlt.
  assert (utf8 (drop i b)) as Hd.
  { apply utf8_split; [done|]. unfold is_char_boundary. rewrite Hx.
    unfold is_continuation. rewrite (proj2 (N.leb_gt _ _)) by lia. by rewrite orb_true_r. }
  rewrite (drop_S _ _ _ Hx) in Hd. apply (utf8_app_inv [x]); [|done]. apply utf8_ascii. by repeat constructor.
Qed.

Definition resumes (b : bytes) (e : nat) : Prop := e ≤ length b ∧ utf8 (drop e b).

Lemma candidate_resumes b c : utf8 b → candidate_ok b c → resumes b (c_range c).2.
Proof.
  intros Hb (r & (Hr1 & Hr2 & Hr3)%base64_runs_ok & H1 & H2). split; [lia|].
  destruct (Hr3 (pred (c_range c).2)) as (x & Hx & Hb64); [lia..|].
  replace (c_range c).2 with (S (pred (c_range c).2)) by lia.
  eapply utf8_after_ascii; [done..|]. by apply is_base64_byte_ascii.
Qed.

Section engines_lemmas.
Context `{!Base64Engines}.

Lemma tainted_segment_ranges_ok b s join :
  utf8 b → spans_ok b (tainted_segment_ranges b s join).
Proof.
  intros Hb. unfold tainted_segment_ranges.
  destruct (merge_ranges_spec Nat.ltb (resumes b)
    (c_range <$> filter (λ c, segment_tainted s (c_decode c) = true) (candidates b join))) as (H1 & H2 & _).
  - pose proof (candidates_ok b join) as Hok. rewrite Forall_forall in Hok. apply Forall_fmap, Forall_forall.
    intros c [_ Hc]%list_elem_of_filter. apply candidate_resumes; [done|by apply Hok].
  - by split.
Qed.

Lemma tainted_within b s join c i :
  c ∈ candidates b join → segment_tainted s (c_decode c) = true →
  (c_range c).1 ≤ i → i < (c_range c).2 → utf8 b → within (tainted_segment_ranges b s join) i.
Proof.
  intros Hc Ht H1 H2 Hb. unfold tainted_segment_ranges.
  destruct (merge_ranges_spec Nat.ltb (λ _, True)
    (c_range <$> filter (λ c, segment_tainted s (c_decode c) = true) (candidates b join))) as (_ & _ & H3).
  - by apply Forall_true.
  - apply H3. exists (c_range c). split; [|done]. apply list_elem_of_fmap_2, list_elem_of_filter. done.
Qed.

Lemma within_tainted b s join i :
  within (tainted_segment_ranges b s join) i →
  ∃ c, c ∈ candidates b join ∧ segment_tainted s (c_decode c) = true ∧ (c_range c).1 ≤ i ∧ i < (c_range c).2.
Proof.
  intros (sp & (c & -> & [Ht Hc]%list_elem_of_filter)%list_elem_of_fmap & Hi)%merge_ranges_within; [by exists c|].
  intros ? ? ?%Nat.ltb_lt. lia.
Qed.

Lemma alignment_spans_ok b raw : utf8 b → spans_ok b (base64_alignment_spans b raw).
Proof.
  intros Hb. unfold base64_alignment_spans. case_match; [by apply tainted_segment_ranges_ok|by split; constructor].
Qed.

Lemma pattern_spans_ok b l :
  utf8 b → let spans := merge_pattern_spans (filter (λ s, valid_span b s = true) l) in
  spans_ok b spans ∧
  ∀ i, within spans i ↔ ∃ s, s ∈ l ∧ valid_span b s = true ∧ s.1 ≤ i ∧ i < s.2.
Proof.
  intros Hb. unfold merge_pattern_spans.
  destruct (merge_ranges_spec Nat.leb (resumes b) (filter (λ s, valid_span b s = true) l)) as (H1 & H2 & H3).
  - apply Forall_forall. intros s [Hv _]%list_elem_of_filter. unfold valid_span in Hv.
    rewrite !andb_true_iff, Nat.leb_le in Hv. destruct Hv as [[[_ Hle] _] Hend]. split; [done|].
    by apply (proj2 (utf8_split _ _ Hb Hend)).
  - split; [by split|]. intros i. split.
    + intros (s & [Hv Hs]%list_elem_of_filter & Hi)%merge_ranges_within; [by exists s|]. by intros ? ? ?%Nat.leb_le.
    + intros (s & Hs & Hv & Hi). apply H3. exists s. by rewrite list_elem_of_filter.
Qed.

(** *** The values that are matched *)

Lemma elem_of_insert_longest x s l : x ∈ insert_longest s l ↔ x = s ∨ x ∈ l.
Proof.
  induction l as [|y l IH]; simpl; [set_solver|].
  case_match; rewrite !elem_of_cons, ?IH; naive_solver.
Qed.

Lemma elem_of_sort_longest x l : x ∈ sort_longest l ↔ x ∈ l.
Proof. induction l as [|y l IH]; simpl; [done|]. by rewrite elem_of_insert_longest, IH, elem_of_cons. Qed.

Lemma sort_longest_sorted l : StronglySorted longer (sort_longest l).
Proof.
  induction l as [|s l IH]; simpl; [constructor|]. induction IH as [|x l' IH IH' Hx]; simpl; [by repeat constructor|].
  destruct (Nat.leb_spec (length x) (length s)).
  - constructor; [by constructor|]. constructor; [done|]. eapply Forall_impl; [exact Hx|]. unfold longer. lia.
  - constructor; [done|]. apply Forall_forall. intros y [->|Hy]%elem_of_insert_longest; [unfold longer; lia|].
    rewrite Forall_forall in Hx. by apply Hx.
Qed.

Lemma elem_of_push_new x l v : x ∈ push_new l v ↔ x ∈ l ∨ x = v.
Proof. unfold push_new. case_bool_decide; [naive_solver|]. by rewrite elem_of_app, list_elem_of_singleton. Qed.

Lemma elem_of_push_all x l vs : x ∈ foldl push_new l vs ↔ x ∈ l ∨ x ∈ vs.
Proof.
  revert l. induction vs as [|v vs IH]; intros l; simpl; [set_solver|].
  rewrite IH, elem_of_push_new, elem_of_cons. naive_solver.
Qed.

Lemma push_unique_ne raw l v : Forall (λ s, s ≠ []) l → Forall (λ s, s ≠ []) (push_unique raw l v).
Proof.
  intros Hl. unfold push_unique. case_bool_decide; [done|]. simpl.
  case_match; [done|]. apply Forall_app; split; [done|]. by constructor.
Qed.

Lemma secret_variants_ne secret : Forall (λ s, s ≠ []) (secret_variants secret).
Proof.
  unfold secret_variants. destruct secret as [|x secret]; [constructor|]. simpl foldl.
  repeat apply push_unique_ne; auto.
Qed.

(** Which values the masker looks for. *)
Lemma expand_secrets_spec transform exclude secrets :
  let '(values, raw) := expand_secrets transform exclude secrets in
  Forall (λ s, s ≠ []) values
  ∧ (∀ s, s ∈ raw ↔ s ∈ secrets ∧ s ≠ [] ∧ s ∉ exclude)
  ∧ (∀ v, v ∈ values ↔ v ∈ raw ∨ transform = true ∧ ∃ s, s ∈ raw ∧ v ∈ secret_variants s).
Proof.
  unfold expand_secrets.
  assert (∀ (acc : list bytes * list bytes) (seen : list bytes),
    Forall (λ s, s ≠ []) acc.1
    → (∀ s, s ∈ acc.2 ↔ s ∈ seen ∧ s ≠ [] ∧ s ∉ exclude)
    → (∀ v, v ∈ acc.1 ↔ v ∈ acc.2 ∨ transform = true ∧ ∃ s, s ∈ acc.2 ∧ v ∈ secret_variants s) →
    let '(values, raw) := foldl (λ '(sorted, raw) secret,
      if bool_decide (secret = []) || bool_decide (secret ∈ exclude) then (sorted, raw)
      else (if transform then foldl push_new (push_new sorted secret) (secret_variants secret)
            else push_new sorted secret, push_new raw secret)) acc secrets in
    Forall (λ s, s ≠ []) values
    ∧ (∀ s, s ∈ raw ↔ (s ∈ seen ∨ s ∈ secrets) ∧ s ≠ [] ∧ s ∉ exclude)
    ∧ (∀ v, v ∈ values ↔ v ∈ raw ∨ transform = true ∧ ∃ s, s ∈ raw ∧ v ∈ secret_variants s)) as Hgen.
  { induction secrets as [|x secrets IH]; intros [values raw] seen Hne Hraw Hval; simpl in *.
    { split; [done|]. split; [|done]. intros s. rewrite Hraw, elem_of_nil. naive_solver. }
    case_bool_decide as Hx; simpl; [|case_bool_decide as Hx'].
    - specialize (IH (values, raw) seen Hne Hraw Hval). destruct (foldl _ (values, raw) secrets) as [vs rs].
      destruct IH as (H1 & H2 & H3). split_and!; [done| |done]. intros s. rewrite H2, elem_of_cons. naive_solver.
    - specialize (IH (values, raw) seen Hne Hraw Hval). destruct (foldl _ (values, raw) secrets) as [vs rs].
      destruct IH as (H1 & H2 & H3). split_and!; [done| |done]. intros s. rewrite H2, elem_of_cons. naive_solver.
    - specialize (IH (if transform then foldl push_new (push_new values x) (secret_variants x)
        else push_new values x, push_new raw x) (x :: seen)). simpl in IH.
      destruct (foldl _ (_, push_new raw x) secrets) as [vs rs]. destruct IH as (H1 & H2 & H3).
      + apply Forall_forall. rewrite Forall_forall in Hne. intros v Hv. destruct transform.
        * rewrite elem_of_push_all, elem_of_push_new in Hv. pose proof (secret_variants_ne x) as Hsv.
          rewrite Forall_forall in Hsv. naive_solver.
        * rewrite elem_of_push_new in Hv. naive_solver.
      + intros s. rewrite elem_of_push_new, Hraw, elem_of_cons. naive_solver.
      + intros v. destruct transform.
        * rewrite elem_of_push_all, !elem_of_push_new, Hval. setoid_rewrite elem_of_push_new. naive_solver.
        * rewrite !elem_of_push_new, Hval. naive_solver.
      + split_and!; [done| |done]. intros s. rewrite H2, !elem_of_cons. naive_solver. }
  specialize (Hgen ([], []) []). destruct (foldl _ _ _) as [vs rs]. destruct Hgen as (H1 & H2 & H3).
  - constructor.
  - intros s. simpl. set_solver.
  - intros v. simpl. set_solver.
  - split_and!; [done| |done]. intros s. rewrite H2. set_solver.
Qed.

(** ** The masker implements its specification *)

(** What is looked for: a secret that is not excluded, or one of its encodings. *)
Definition looked_for (secrets exclude : list bytes) (transform_aware : bool) (v : bytes) : Prop :=
  ∃ s, s ∈ secrets ∧ s ≠ [] ∧ (s ∉ exclude) ∧ (v = s ∨ transform_aware = true ∧ v ∈ secret_variants s).

Definition secret_here (secrets exclude : list bytes) (transform_aware : bool) (r : bytes) : Prop :=
  ∃ v, looked_for secrets exclude transform_aware v ∧ secret_matches r transform_aware v = true.

(** The same with the number of bytes it takes. *)
Definition secret_takes (secrets exclude : list bytes) (transform_aware : bool) (r : bytes) (n : nat) : Prop :=
  ∃ v, looked_for secrets exclude transform_aware v ∧ secret_matches r transform_aware v = true ∧ n = length v.

(** What is hidden whatever its text: the spans of pattern hints, and the
    base64 segments that decode to a secret. *)
Definition pattern_span (input : bytes) (patterns : list PatternMasker) (i : nat) : Prop :=
  ∃ s, (∃ pattern, pattern ∈ patterns ∧ s ∈ pattern input) ∧ valid_span input s = true ∧ s.1 ≤ i ∧ i < s.2.
Definition segment_span (input : bytes) (secrets exclude : list bytes) (transform_aware : bool) (i : nat) : Prop :=
  transform_aware = true ∧ ∃ scanner c,
    AlignmentScanner_new (expand_secrets true exclude secrets).2 = Some scanner
    ∧ c ∈ candidates input true ∧ segment_tainted scanner (c_decode c) = true
    ∧ (c_range c).1 ≤ i ∧ i < (c_range c).2.
Definition hidden_span (input : bytes) (secrets : list bytes) (patterns : list PatternMasker)
    (exclude : list bytes) (transform_aware : bool) (i : nat) : Prop :=
  segment_span input secrets exclude transform_aware i ∨ pattern_span input patterns i.

Lemma masked_mono lines (here here' : bytes → Prop) (hidden hidden' : nat → Prop) o input out :
  (∀ r, here' r → here r) → (∀ i, hidden' i → hidden i) →
  masked lines here hidden o input out → masked lines here' hidden' o input out.
Proof. intros H1 H2. induction 1; [constructor|constructor; auto|by constructor]. Qed.

Lemma masks_mono lines (here here' : bytes → nat → Prop) segment pattern o input out :
  (∀ r n, here r n ↔ here' r n) →
  masks lines here segment pattern o input out → masks lines here' segment pattern o input out.
Proof.
  intros Hh. induction 1 as [|? ? ? ? ? Hm| |? ? ? ? ? Hl|? ? ? ? ? ? ? Hl Hj].
  - constructor.
  - apply masks_copy; [done| |done..]. intros n Hn. by apply (Hm n), Hh.
  - by apply masks_segment.
  - apply masks_marker; [done|done| |done]. intros n Hn. by apply Hl, Hh.
  - apply masks_match; [done|done|done| | |done].
    + intros n Hn. by apply Hl, Hh.
    + intros i Hi. destruct (Hj i Hi) as [?|(n & Hn & ?)]; [by left|right]. exists n. by rewrite <-Hh.
Qed.

Lemma expanded_looked_for secrets exclude transform v :
  v ∈ sort_longest (expand_secrets transform exclude secrets).1 ↔ looked_for secrets exclude transform v.
Proof.
  rewrite elem_of_sort_longest. pose proof (expand_secrets_spec transform exclude secrets) as Hspec.
  destruct (expand_secrets transform exclude secrets) as [values raw]. destruct Hspec as (_ & Hraw & Hval).
  simpl. rewrite Hval. unfold looked_for. setoid_rewrite Hraw. naive_solver.
Qed.

Lemma expand_secrets_raw transform exclude secrets :
  (expand_secrets transform exclude secrets).2 = (expand_secrets true exclude secrets).2.
Proof.
  unfold expand_secrets.
  assert (∀ a b : list bytes * list bytes, a.2 = b.2 →
    (foldl (λ '(sorted, raw) secret,
      if bool_decide (secret = []) || bool_decide (secret ∈ exclude) then (sorted, raw)
      else (if transform then foldl push_new (push_new sorted secret) (secret_variants secret)
            else push_new sorted secret, push_new raw secret)) a secrets).2
    = (foldl (λ '(sorted, raw) secret,
      if bool_decide (secret = []) || bool_decide (secret ∈ exclude) then (sorted, raw)
      else (foldl push_new (push_new sorted secret) (secret_variants secret), push_new raw secret)) b secrets).2) as Hfold.
  { induction secrets as [|x secrets IH]; intros [av ar] [bv br] E; simpl in *; [done|]. subst.
    destruct (bool_decide (x = []) || bool_decide (x ∈ exclude)); by apply IH. }
  by apply Hfold.
Qed.

Lemma mask_secrets_inner_masks input secrets patterns exclude lines transform :
  utf8 input →
  masks lines (secret_takes secrets exclude transform) (segment_span input secrets exclude transform)
    (pattern_span input patterns) 0 input (mask_secrets_inner input secrets patterns exclude lines transform).
Proof.
  intros Hu. unfold mask_secrets_inner.
  pose proof (expand_secrets_spec transform exclude secrets) as Hspec.
  pose proof (expanded_looked_for secrets exclude transform) as Hlook.
  pose proof (expand_secrets_raw transform exclude secrets) as Hrawtrue.
  destruct (expand_secrets transform exclude secrets) as [values raw]. simpl in Hlook, Hrawtrue.
  destruct Hspec as (Hne & _).
  destruct (pattern_spans_ok input (flat_map (λ pattern, pattern input) patterns) Hu) as [Hps Hpw].
  eapply (masks_mono _ (matching_of (mkConfig (sort_longest values) lines transform)));
    [|apply (mask_scan_masks (mkConfig (sort_longest values) lines transform) input (length input) _ _ 0)]; simpl.
  - intros r n. unfold matching_of, secret_takes. simpl. setoid_rewrite Hlook. done.
  - apply Forall_forall. intros v Hv. rewrite elem_of_sort_longest in Hv. rewrite Forall_forall in Hne. exact (Hne v Hv).
  - apply sort_longest_sorted.
  - lia.
  - lia.
  - done.
  - destruct transform; [by apply alignment_spans_ok|by split; constructor].
  - done.
  - intros i _. unfold segment_span, base64_alignment_spans. rewrite Hrawtrue. destruct transform.
    + destruct (AlignmentScanner_new _) as [scanner|]; split.
      * intros (_ & ? & c & [= <-] & Hc & Ht & H1 & H2). by eapply tainted_within.
      * intros (c & Hc & Ht & Hi)%within_tainted. split; [done|]. by exists scanner, c.
      * by intros (_ & ? & ? & ? & _).
      * by intros (? & ?%not_elem_of_nil & _).
    + split; [by intros [? _]|by intros (? & ?%not_elem_of_nil & _)].
  - intros i _. rewrite Hpw. unfold pattern_span. setoid_rewrite list_elem_of_In. setoid_rewrite in_flat_map.
    setoid_rewrite <-list_elem_of_In. done.
Qed.

Lemma mask_secrets_inner_masked input secrets patterns exclude lines transform :
  utf8 input →
  masked lines (secret_here secrets exclude transform) (hidden_span input secrets patterns exclude transform)
    0 input (mask_secrets_inner input secrets patterns exclude lines transform).
Proof.
  intros Hu. eapply masked_mono; [| |by apply masks_masked, mask_secrets_inner_masks]; [|done].
  intros r (v & Hv & Hm). by exists (length v), v.
Qed.

(** *** Masking twice *)

Lemma masked_utf8 lines here hidden o input out : masked lines here hidden o input out → utf8 out.
Proof.
  induction 1 as [|o c r out Hc _ _ _ IH|o t r block out _ _ (_ & _ & Hb) _ _ IH]; [constructor|by constructor|].
  apply utf8_app; [|done]. apply utf8_ascii. eapply Forall_impl; [exact Hb|].
  intros x. unfold marker_byte, is_newline. lia.
Qed.

Lemma masked_newlines here hidden o input out :
  masked true here hidden o input out → filter is_newline out = filter is_newline input.
Proof.
  induction 1 as [|o c r out _ _ _ _ IH|o t r block out _ _ _ Hf _ IH]; [done|..];
    rewrite !newline_filter_app, IH; [done|]. by rewrite Hf.
Qed.

(** A text with no secret in it is left alone. *)
Lemma mask_scan_clean cf input fuel offset :
  (∀ o, o ≤ length input → utf8 (drop o input) →
     match_secret_at (drop o input) (cf_secrets cf) (cf_transform_aware cf) = None) →
  length input - offset ≤ fuel → offset ≤ length input → utf8 (drop offset input) →
  mask_scan fuel cf input offset [] [] = drop offset input.
Proof.
  intros Hno. revert offset. induction fuel as [|fuel IH]; intros offset Hfuel Hle Hu; cbn [mask_scan].
  { by rewrite (nil_length_inv (drop offset input)) by (rewrite length_drop; lia). }
  destruct (Nat.leb_spec (length input) offset) as [|Hlt].
  { by rewrite (nil_length_inv (drop offset input)) by (rewrite length_drop; lia). }
  cbn [skip_spans covering]. rewrite Hno by done. cbn [longest_match fmap option_fmap option_map].
  destruct (slice_starts_with MASK_MARKER (drop offset input)) eqn:Hmark.
  - destruct (marker_at_drop _ _ Hmark Hu) as (H1 & H2 & H3).
    change (length MASK_MARKER) with 3. rewrite IH by (done || lia).
    unfold slice in H2. rewrite Nat.add_sub' in H2. rewrite <-H2, <-drop_drop at 1. by rewrite take_drop.
  - destruct (first_char input offset Hu Hlt) as (c & r & Hc & Hr & Hur & Hw).
    assert (drop (offset + length (Utf8.encode_char c)) input = r) as Hd by by rewrite <-drop_drop, Hr, drop_app_length.
    assert (length (drop offset input) = length (Utf8.encode_char c) + length r) as Hlen by by rewrite Hr, length_app.
    rewrite length_drop in Hlen.
    assert (length (Utf8.encode_char c) > 0) as Hpos.
    { pose proof (encode_char_ne c). destruct (Utf8.encode_char c); [done|simpl; lia]. }
    rewrite Hw, IH; [|lia|lia|by rewrite Hd]. rewrite Hd. rewrite Hr at 1. rewrite take_app_length. by rewrite Hr.
Qed.

(** A value the masker reliably hides: no marker character in it, and not line
    ends only. *)
Definition maskable (v : bytes) : Prop := utf8 v ∧ (42%N ∉ v) ∧ ¬ Forall is_newline v.

Lemma masked_output_clean lines here hidden ci input out secrets :
  masked lines here hidden 0 input out → utf8 input →
  (∀ s, s ∈ secrets → maskable s ∧ ∀ r, secret_matches r ci s = true → here r) →
  ∀ o, match_secret_at (drop o out) secrets ci = None.
Proof.
  intros Hm Hu Hs o. destruct (match_secret_at (drop o out) secrets ci) as [s|] eqn:E; [|done]. exfalso.
  apply match_secret_at_Some in E as [Hin (Hl & _ & Hsame)%secret_matches_true].
  destruct (Hs s Hin) as [(H1 & H2 & H3) H4].
  eapply (masked_no_secret _ _ _ _ _ _ ci s (take o out) (take (length s) (drop o out))
    (drop (length s) (drop o out)) Hm Hu H1 H2 H3 H4 Hsame). by rewrite !take_drop.
Qed.

End engines_lemmas.

(** *** A shifted encoding is found *)

(** The maximal run that holds a text of base64 bytes between other bytes. *)
Lemma runs_open s index text post :
  Forall (λ x, is_base64_byte x = true) text →
  (∀ x r, post = x :: r → is_base64_byte x = false) →
  (s, index + length text) ∈ base64_runs_from (Some s) index (text ++ post).
Proof.
  intros Ht Hpost. revert index. induction Ht as [|x text Hx _ IH]; intros index; simpl.
  - rewrite Nat.add_0_r. destruct post as [|x r]; simpl; [constructor|].
    rewrite (Hpost x r eq_refl). constructor.
  - rewrite Hx. simpl. rewrite <-Nat.add_succ_comm. apply IH.
Qed.

Lemma runs_find start index pre text post :
  (pre = [] → start = None) → (∀ x, last pre = Some x → is_base64_byte x = false) →
  Forall (λ x, is_base64_byte x = true) text → text ≠ [] →
  (∀ x r, post = x :: r → is_base64_byte x = false) →
  (index + length pre, index + length pre + length text) ∈ base64_runs_from start index (pre ++ text ++ post).
Proof.
  intros Hstart Hlast Ht Hne Hpost. revert start index Hstart. induction pre as [|x pre IH]; intros start index Hstart.
  - rewrite Hstart by done. destruct text as [|y text]; [done|]. inversion Ht as [|? ? Hy Ht']; subst.
    simpl. rewrite Hy. simpl. rewrite Nat.add_0_r, <-Nat.add_succ_comm. by apply runs_open.
  - replace (index + length (x :: pre)) with (S index + length pre) by (simpl; lia).
    cbn [app base64_runs_from].
    assert (pre = [] → is_base64_byte x = false) as Hx by (intros ->; by apply Hlast).
    assert (∀ y, last pre = Some y → is_base64_byte y = false) as Hlast'.
    { intros y Hy. apply Hlast. destruct pre; [done|]. by rewrite last_cons_cons. }
    destruct (is_base64_byte x) eqn:Ex.
    + apply IH; [done|]. intros Hp. by specialize (Hx Hp).
    + destruct start; [right|]; by apply IH.
Qed.

Lemma family_base64 f x : family_contains f x = true → is_base64_byte x = true ∧ is_pad x = false.
Proof.
  unfold family_contains, is_base64_byte, is_pad, is_ascii_alphanumeric, is_ascii_alphabetic, is_ascii_digit,
    is_ascii_lower, is_ascii_upper, in_range. eval_ch. destruct f; lia.
Qed.

(** A run of one family's bytes and padding is one segment. *)
Lemma segments_one b run_end lo position text pad :
  Forall (λ x, is_pad x = false) text → Forall (λ x, is_pad x = true) pad →
  lo < position + length text → position + length text + length pad = run_end →
  ∃ hi, mkCandidate (lo, hi) (slice lo (position + length text) b)
          ∈ segments_from b run_end None lo position (text ++ pad)
        ∧ position + length text ≤ hi.
Proof.
  intros Ht Hp. revert position. induction Ht as [|x text Hx _ IH]; intros position Hlo Hend; simpl in *.
  - rewrite Nat.add_0_r in *. destruct pad as [|y pad]; simpl in *.
    + rewrite Nat.add_0_r in Hend. subst run_end. unfold visit_segment. rewrite (proj2 (Nat.leb_gt _ _)) by lia.
      eexists. split; [constructor|]. pose proof (trailing_padding_end_bounds b position position). lia.
    + inversion Hp as [|? ? Hy _]; subst. rewrite Hy. simpl. unfold visit_segment at 1.
      rewrite (proj2 (Nat.leb_gt _ _)) by lia. eexists. split; [left|].
      pose proof (trailing_padding_end_bounds b position (position + S (length pad))). lia.
  - rewrite Hx. simpl. replace (position + S (length text)) with (S position + length text) in * by lia.
    apply IH; lia.
Qed.

Lemma lowercase_length s : length (lowercase s) = length s.
Proof. apply length_fmap. Qed.

Lemma lowercase_idem s : lowercase (lowercase s) = lowercase s.
Proof.
  unfold lowercase. rewrite <-list_fmap_compose. apply list_fmap_ext. intros _ x _. simpl.
  unfold lower_byte, is_ascii_upper, in_range. eval_ch. repeat case_match; bool_to_prop; lia.
Qed.

Lemma contains_from_found a s r n :
  s ≠ [] → lowercase s = n → contains_from n (a ++ s ++ r) = true.
Proof.
  intros Hs <-. induction a as [|x a IH].
  - assert (eq_ignore_case (take (length (lowercase s)) (s ++ r)) (lowercase s) = true) as Heq.
    { rewrite lowercase_length, take_app_length. apply bool_decide_eq_true.
      change (lowercase s = lowercase (lowercase s)). by rewrite lowercase_idem. }
    assert (length (lowercase s) ≤ length (s ++ r)) as Hl by (rewrite lowercase_length, length_app; lia).
    pose proof (lowercase_idem s) as Hidem. revert Heq Hl Hidem.
    destruct s as [|y s]; [done|]. destruct (lowercase (y :: s)) as [|z n] eqn:En; [done|].
    intros Heq Hl Hidem. injection En as Ez _. injection Hidem as Hz _.
    cbn [app contains_from]. change (y :: s ++ r) with ((y :: s) ++ r).
    rewrite (proj2 (Nat.leb_le _ _) Hl), Heq.
    unfold eq_ignore_case. rewrite bool_decide_true; [done|]. csimpl. by rewrite Ez, Hz.
  - destruct (lowercase s) eqn:E; [by destruct s|]. cbn [app contains_from]. rewrite IH. apply orb_true_r.
Qed.

Lemma contains_subslice_found a s r : s ≠ [] → contains_subslice (a ++ s ++ r) (lowercase s) = true.
Proof.
  intros Hs. unfold contains_subslice. rewrite bool_decide_false by (by destruct s).
  rewrite (proj2 (Nat.ltb_ge _ _)) by (unfold lowercase; rewrite !length_app, length_fmap; lia).
  by apply contains_from_found.
Qed.

Lemma elem_of_dedup_needles x l : x ∈ dedup l ↔ x ∈ l.
Proof.
  induction l as [|y [|z l] IH]; [done|done|]. cbn [dedup]. case_decide; [subst|];
    rewrite ?elem_of_cons, IH, ?elem_of_cons; naive_solver.
Qed.

Lemma AlignmentScanner_new_needle raw s :
  s ∈ raw → MIN_ELIGIBLE_SECRET_LEN ≤ length s →
  ∃ scanner, AlignmentScanner_new raw = Some scanner ∧ lowercase s ∈ needles scanner
             ∧ min_len scanner = encoded_len MIN_ELIGIBLE_SECRET_LEN.
Proof.
  intros Hs Hl. unfold AlignmentScanner_new.
  assert (lowercase s ∈ dedup (sort_longest (map lowercase
    (filter (λ s, MIN_ELIGIBLE_SECRET_LEN ≤ length s) raw)))) as Hin.
  { rewrite elem_of_dedup_needles, elem_of_sort_longest. apply list_elem_of_In, in_map, list_elem_of_In.
    by apply list_elem_of_filter. }
  destruct (dedup _) as [|longest l]; [by apply not_elem_of_nil in Hin|]. eexists. by split_and!.
Qed.

Section shifted.
Context `{!Base64Engines}.

Lemma existsb_none {A} (p : A → bool) l : (∀ x, x ∈ l → p x = false) → existsb p l = false.
Proof.
  intros Hp. apply not_true_is_false. intros (x & Hx & Ht)%existsb_exists.
  rewrite Hp in Ht; [done|]. by apply list_elem_of_In.
Qed.

Lemma standard_bytes x :
  family_contains Standard x = true → (x =? ch "-")%N || (x =? ch "_")%N = false.
Proof.
  unfold family_contains, is_ascii_alphanumeric, is_ascii_alphabetic, is_ascii_digit, is_ascii_lower,
    is_ascii_upper, in_range. eval_ch. lia.
Qed.

Lemma url_safe_bytes x :
  family_contains UrlSafe x = true →
  (x =? ch "+")%N || (x =? ch "/")%N = false
  ∧ ((x =? ch "-")%N || (x =? ch "_")%N = false → is_ascii_alphanumeric x = true).
Proof.
  unfold family_contains, is_ascii_alphanumeric, is_ascii_alphabetic, is_ascii_digit, is_ascii_lower,
    is_ascii_upper, in_range. eval_ch. lia.
Qed.

Lemma family_of_segment family segment :
  Forall (λ x, family_contains family x = true) segment →
  mixes_families segment = false
  ∧ ∀ n t, b64_decode (if existsb (λ x, (x =? ch "-")%N || (x =? ch "_")%N) segment then UrlSafe else Standard)
             (take n (drop t segment))
           = b64_decode family (take n (drop t segment)).
Proof.
  rewrite Forall_forall. intros Hs. unfold mixes_families. destruct family.
  - rewrite (existsb_none (λ x, (x =? ch "-")%N || (x =? ch "_")%N) segment) by (intros x Hx; by apply standard_bytes, Hs).
    split; [apply andb_false_r|done].
  - split.
    + rewrite (existsb_none (λ x, (x =? ch "+")%N || (x =? ch "/")%N) segment); [done|].
      intros x Hx. by apply url_safe_bytes, Hs.
    + intros n t. destruct (existsb _ _) eqn:E; [done|].
      apply b64_common, Forall_take, Forall_drop, Forall_forall. intros x Hx.
      apply (proj2 (url_safe_bytes x (Hs x Hx))). apply not_true_is_false. intros Ht.
      rewrite (proj2 (existsb_exists _ _)) in E; [done|]. exists x. by rewrite <-list_elem_of_In.
Qed.

Lemma encoded_len_mod n : encoded_len n mod 4 ≠ 1.
Proof.
  unfold encoded_len. pose proof (Nat.div_mod_eq n 3) as Hn. pose proof (Nat.mod_upper_bound n 3).
  assert ((4 * n + 2) / 3 = 4 * (n / 3) + (4 * (n mod 3) + 2) / 3) as ->.
  { rewrite Hn at 1. replace (4 * (3 * (n / 3) + n mod 3) + 2) with (4 * (n mod 3) + 2 + 4 * (n / 3) * 3) by lia.
    rewrite Nat.div_add by lia. lia. }
  rewrite Nat.add_comm, (Nat.mul_comm 4 (n / 3)), Nat.Div0.mod_add.
  destruct (n mod 3) as [|[|[|?]]]; [done..|lia].
Qed.

Lemma encoded_len_mono n m : n ≤ m → encoded_len n ≤ encoded_len m.
Proof. unfold encoded_len. intros. apply Nat.Div0.div_le_mono. lia. Qed.

(** At the alignment of the token, the segment decodes to bytes that hold the secret. *)
Lemma decode_at_alignment family junk p s q :
  Forall (λ x, family_contains family x = true) junk → Forall (λ x, (x < 256)%N) (p ++ s ++ q) →
  ∃ d, decode_lenient family (drop (length junk mod 4) (junk ++ b64_encode family false (p ++ s ++ q)))
       = Some (d ++ p ++ s ++ q).
Proof.
  intros Hj Hb. set (tok := b64_encode family false (p ++ s ++ q)).
  pose proof (Nat.Div0.mod_le (length junk) 4) as Hle.
  rewrite drop_app_le by done. set (junk' := drop (length junk mod 4) junk).
  assert (length junk' mod 4 = 0) as Hj'.
  { unfold junk'. rewrite length_drop. pose proof (Nat.div_mod_eq (length junk) 4).
    replace (length junk - length junk mod 4) with (length junk / 4 * 4) by lia. apply Nat.Div0.mod_mul. }
  destruct (b64_groups family junk' Hj') as [d Hd]; [by apply Forall_drop|]. exists d.
  unfold decode_lenient. rewrite (proj2 (Nat.eqb_neq _ _)).
  - rewrite take_ge by done. rewrite Hd. unfold tok. by rewrite b64_roundtrip.
  - unfold tok. rewrite length_app, b64_length. rewrite Nat.Div0.add_mod, Hj', Nat.add_0_l, Nat.Div0.mod_mod.
    apply encoded_len_mod.
Qed.

Lemma try_trims_found scanner family segment t decoded trims :
  t ∈ trims → Forall (λ u, u ≤ t) trims → t ≤ length segment →
  min_len scanner ≤ length (drop t segment) →
  decode_lenient family (drop t segment) = Some decoded →
  existsb (contains_subslice decoded) (needles scanner) = true →
  try_trims scanner family segment trims = true.
Proof.
  intros Ht Hall Hle Hmin Hd He. induction trims as [|u trims IH]; [by apply not_elem_of_nil in Ht|].
  apply Forall_cons in Hall as [Hu Hall]. cbn [try_trims].
  rewrite (proj2 (Nat.ltb_ge _ _)) by lia. rewrite length_drop in Hmin.
  rewrite (proj2 (Nat.ltb_ge (length (drop u segment)) _)) by (rewrite length_drop; lia).
  apply elem_of_cons in Ht as [<-|Ht]; [by rewrite Hd, He|]. apply orb_true_iff. right. by apply IH.
Qed.

Lemma try_trims_app scanner family segment l1 l2 :
  try_trims scanner family segment l1 = true → try_trims scanner family segment (l1 ++ l2) = true.
Proof.
  induction l1 as [|t l1 IH]; [done|]. cbn [try_trims app]. repeat case_match; try done.
  all: rewrite !orb_true_iff; naive_solver.
Qed.

Lemma segment_tainted_found scanner family junk p s q :
  Forall (λ x, family_contains family x = true) junk → Forall (λ x, (x < 256)%N) (p ++ s ++ q) →
  MIN_ELIGIBLE_SECRET_LEN ≤ length s → lowercase s ∈ needles scanner →
  min_len scanner = encoded_len MIN_ELIGIBLE_SECRET_LEN →
  segment_tainted scanner (junk ++ b64_encode family false (p ++ s ++ q)) = true.
Proof.
  intros Hj Hb Hl Hn Hmin. set (tok := b64_encode family false (p ++ s ++ q)).
  assert (encoded_len MIN_ELIGIBLE_SECRET_LEN ≤ length tok) as Htok.
  { unfold tok. rewrite b64_length. apply encoded_len_mono. rewrite !length_app. lia. }
  assert (Forall (λ x, family_contains family x = true) (junk ++ tok)) as Hall.
  { apply Forall_app; split; [done|]. by apply b64_alphabet. }
  destruct (family_of_segment family (junk ++ tok) Hall) as [Hmix Hfam].
  unfold segment_tainted. rewrite (proj2 (Nat.ltb_ge _ _)) by (rewrite Hmin, length_app; lia). rewrite Hmix.
  destruct (decode_at_alignment family junk p s q Hj Hb) as [d Hd]. fold tok in Hd.
  set (t := length junk mod 4) in *.
  assert (t < 4) as Ht by (unfold t; apply Nat.mod_upper_bound; lia).
  assert (t ≤ length junk) as Htj by apply Nat.Div0.mod_le.
  set (family' := if existsb _ _ then UrlSafe else Standard).
  assert (try_trims scanner family' (junk ++ tok) (seq 0 (S t)) = true) as Htrim.
  { apply (try_trims_found _ _ _ t (d ++ p ++ s ++ q)).
    - apply list_elem_of_In, in_seq. lia.
    - apply Forall_forall. intros u Hu%list_elem_of_In%in_seq. lia.
    - rewrite length_app. lia.
    - rewrite drop_app_le, length_app by done. lia.
    - unfold decode_lenient in Hd |- *. rewrite <-Hd. apply Hfam.
    - apply existsb_exists. exists (lowercase s). split; [by apply list_elem_of_In|].
      rewrite (app_assoc d p). apply contains_subslice_found.
      intros ->. unfold MIN_ELIGIBLE_SECRET_LEN in Hl. simpl in Hl. lia. }
  change [0; 1; 2; 3] with (seq 0 4). replace 4 with (S t + (3 - t)) by lia.
  rewrite seq_app. by apply try_trims_app.
Qed.

Lemma shifted_encoding_candidate pre text pad post :
  (∀ x, last pre = Some x → is_base64_byte x = false) →
  (∀ x r, post = x :: r → is_base64_byte x = false) →
  Forall (λ x, is_base64_byte x = true ∧ is_pad x = false) text → Forall (λ x, is_pad x = true) pad →
  mixes_families (text ++ pad) = false → text ≠ [] →
  ∃ hi, mkCandidate (length pre, hi) text ∈ candidates (pre ++ (text ++ pad) ++ post) true
        ∧ length pre + length text ≤ hi.
Proof.
  intros Hpre Hpost Htext Hpad Hmix Hne. set (b := pre ++ (text ++ pad) ++ post).
  assert (Forall (λ x, is_base64_byte x = true) (text ++ pad)) as Hrun.
  { apply Forall_app; split; (eapply Forall_impl; [eassumption|]); [by intros x [? _]|].
    intros x Hx. unfold is_pad in Hx. unfold is_base64_byte. by rewrite Hx, orb_true_r. }
  assert ((length pre, length pre + length (text ++ pad)) ∈ base64_runs b) as Hin.
  { apply (runs_find None 0 pre (text ++ pad) post); [done..| |done]. by destruct text. }
  destruct (segments_one b (length pre + length (text ++ pad)) (length pre) (length pre) text pad) as (hi & Hc & Hhi).
  - eapply Forall_impl; [exact Htext|]. by intros x [_ ?].
  - done.
  - destruct text; [done|simpl; lia].
  - rewrite length_app. lia.
  - exists hi. split; [|done]. unfold candidates. apply elem_of_app. left.
    apply list_elem_of_In, in_flat_map. eexists. split; [by apply list_elem_of_In|].
    apply list_elem_of_In. unfold run_candidates, visit_run_segments. cbn [fst snd].
    assert (slice (length pre) (length pre + length (text ++ pad)) b = text ++ pad) as ->.
    { unfold slice, b. by rewrite Nat.add_sub', drop_app_length, take_app_length. }
    assert (slice (length pre) (length pre + length text) b = text) as E.
    { unfold slice, b. by rewrite Nat.add_sub', drop_app_length, <-app_assoc, take_app_length. }
    rewrite E in Hc. by rewrite Hmix.
Qed.

Lemma mixes_families_pad text pad :
  Forall (λ x, is_pad x = true) pad → mixes_families text = false → mixes_families (text ++ pad) = false.
Proof.
  intros Hp Hm. unfold mixes_families in *. rewrite !existsb_app.
  rewrite (existsb_none (λ x, (x =? ch "+")%N || (x =? ch "/")%N) pad), (existsb_none (λ x, (x =? ch "-")%N || (x =? ch "_")%N) pad).
  - by rewrite !orb_false_r.
  - intros x Hx. rewrite Forall_forall in Hp. specialize (Hp x Hx). unfold is_pad in Hp. revert Hp. eval_ch. lia.
  - intros x Hx. rewrite Forall_forall in Hp. specialize (Hp x Hx). unfold is_pad in Hp. revert Hp. eval_ch. lia.
Qed.

End shifted.

(** Decision procedures for the hypotheses at concrete texts. *)
Lemma utf8_decide b : forallb (λ x, (x <? 128)%N) b = true → utf8 b.
Proof.
  intros Hb. apply utf8_ascii, Forall_forall. intros x Hx%list_elem_of_In.
  apply N.ltb_lt. by apply (proj1 (forallb_forall _ _) Hb).
Qed.

Lemma maskable_decide v :
  forallb (λ x, (x <? 128)%N && negb (x =? 42)%N) v = true →
  existsb (λ x, negb (x =? 10)%N && negb (x =? 13)%N) v = true → maskable v.
Proof.
  rewrite forallb_forall. intros Hall (x & Hx & Hn)%existsb_exists. split_and!.
  - apply utf8_decide, forallb_forall. intros y Hy. specialize (Hall y Hy). lia.
  - intros Hin%list_elem_of_In. by specialize (Hall _ Hin).
  - rewrite Forall_forall. intros Hf. apply list_elem_of_In in Hx. specialize (Hf x Hx). unfold is_newline in Hf. lia.
Qed.

(** ** Properties *)
Section properties.
Context `{!Base64Engines}.

(** C1: on a UTF-8 text the masker implements its specification. It copies a
    character only if no secret and no encoding of one matches there and no
    pattern hint and no base64 segment that decodes to a secret covers it. What
    it replaces is no more than that: places such segments cover, an existing
    marker, or the longest match that starts there, every place of which is in
    a match or covered by a hint. And it replaces it by a marker, with the line
    ends of the text and a marker after each where lines are preserved. *)
Theorem mask_secrets_inner_spec input secrets patterns exclude lines transform :
  utf8 input →
  masks lines (secret_takes secrets exclude transform) (segment_span input secrets exclude transform)
    (pattern_span input patterns) 0 input (mask_secrets_inner input secrets patterns exclude lines transform).
Proof. apply mask_secrets_inner_masks. Qed.

(** C2: no maskable secret survives masking. For a UTF-8 text, and a secret or
    (in the log-masking strength) an encoding of one that is itself UTF-8, holds
    no asterisk and is not made of line ends only, neither it nor, in that
    strength, a variant in other letter case occurs anywhere in the output.
    ([unmaskable_secret_survives]: the markers can make up a secret that holds
    asterisks.) *)
Theorem masked_output_has_no_secret input secrets patterns exclude lines transform v x v' y :
  utf8 input → looked_for secrets exclude transform v → maskable v → same transform v' v →
  mask_secrets_inner input secrets patterns exclude lines transform ≠ x ++ v' ++ y.
Proof.
  intros Hu Hv (H1 & H2 & H3) Hsame He.
  refine (masked_no_secret _ _ _ _ _ _ transform v x v' y
    (mask_secrets_inner_masked _ _ _ _ lines _ Hu) Hu H1 H2 H3 _ Hsame He).
  intros r Hr. by exists v.
Qed.

(** Masking a masked text changes nothing (the exact strength). *)
Theorem mask_secrets_idempotent input secrets exclude lines :
  utf8 input → (∀ s, s ∈ secrets → s ≠ [] → maskable s) →
  let mask text := mask_secrets_inner text secrets [] exclude lines false in
  mask (mask input) = mask input.
Proof.
  intros Hu Hs mask.
  pose proof (mask_secrets_inner_masked input secrets [] exclude lines false Hu) as Hm.
  fold (mask input) in Hm. set (out := mask input) in *.
  unfold mask, mask_secrets_inner. pose proof (expand_secrets_spec false exclude secrets) as Hspec.
  destruct (expand_secrets false exclude secrets) as [values raw]. destruct Hspec as (Hne & Hraw & Hval). simpl.
  apply mask_scan_clean; [|simpl; lia|lia|by eapply masked_utf8].
  intros o _ _. eapply (masked_output_clean _ _ _ false _ _ _ Hm Hu). simpl. intros s Hin.
  rewrite elem_of_sort_longest in Hin. apply Hval in Hin as [Hin|[? _]]; [|done].
  apply Hraw in Hin as (H1 & H2 & H3). split; [by apply Hs|]. intros r Hr. exists s. split; [|done].
  exists s. auto.
Qed.

(** A shifted base64 encoding is hidden: where the text holds, between
    bytes that are not base64, a token that encodes the secret with anything
    before and after it, preceded in the same run by any other base64 text and
    followed by padding, no character of that run up to the padding is copied. *)
Theorem shifted_encoding_hidden family pre junk p s q pad post secrets exclude lines :
  let token := b64_encode family false (p ++ s ++ q) in
  let text := junk ++ token in
  let input := pre ++ (text ++ pad) ++ post in
  utf8 input → s ∈ secrets → (s ∉ exclude) → MIN_ELIGIBLE_SECRET_LEN ≤ length s →
  Forall (λ x, (x < 256)%N) (p ++ s ++ q) →
  Forall (λ x, family_contains family x = true) junk → Forall (λ x, is_pad x = true) pad →
  (∀ x, last pre = Some x → is_base64_byte x = false) →
  (∀ x r, post = x :: r → is_base64_byte x = false) →
  masked lines (secret_here secrets exclude true) (λ i, length pre ≤ i ∧ i < length pre + length text)
    0 input (mask_secrets_inner input secrets [] exclude lines true).
Proof.
  intros token text input Hu Hs Hex Hl Hb Hj Hpad Hpre Hpost.
  assert (Forall (λ x, family_contains family x = true) text) as Htext.
  { apply Forall_app; split; [done|]. by apply b64_alphabet. }
  eapply masked_mono; [intros r Hr; exact Hr| |by apply mask_secrets_inner_masked].
  intros i [H1 H2]. left. split; [done|].
  pose proof (expand_secrets_spec true exclude secrets) as Hspec.
  destruct (expand_secrets true exclude secrets) as [values raw]. destruct Hspec as (_ & Hraw & _). simpl.
  destruct (AlignmentScanner_new_needle raw s) as (scanner & Hsc & Hn & Hmin); [|done|].
  { apply Hraw. split_and!; [done| |done]. intros ->. unfold MIN_ELIGIBLE_SECRET_LEN in Hl. simpl in Hl. lia. }
  destruct (shifted_encoding_candidate pre text pad post) as (hi & Hc & Hhi); [done|done| |done| | |].
  - eapply Forall_impl; [exact Htext|]. intros x. apply family_base64.
  - by apply mixes_families_pad; [|eapply family_of_segment].
  - intros He. apply (f_equal length) in He. unfold text, token in He. rewrite length_app, b64_length in He.
    pose proof (encoded_len_mono MIN_ELIGIBLE_SECRET_LEN (length (p ++ s ++ q))) as Hmono.
    change (encoded_len MIN_ELIGIBLE_SECRET_LEN) with 6 in Hmono. rewrite !length_app in He, Hmono. simpl in He. lia.
  - exists scanner, (mkCandidate (length pre, hi) text). cbn [c_range c_decode fst snd].
    split_and!; [done|done| |done|lia]. by apply segment_tainted_found.
Qed.

(** The line-preserving masker keeps every line end, so line numbers taken
    before a retroactive pass stay valid. *)
Theorem preserving_lines_keeps_line_ends input secrets patterns exclude transform :
  utf8 input →
  filter is_newline (mask_secrets_inner input secrets patterns exclude true transform) = filter is_newline input.
Proof. intros Hu. by eapply masked_newlines, mask_secrets_inner_masked. Qed.

End properties.

(** *** The properties at concrete texts *)

Abbreviation str := Utf8.bytes.

Example unmaskable_secret_survives :
  let _ := rfc4648 in
  mask_secrets_inner (str "aSECb") [str "SEC"; str "a***b"] [] [] false false = str "a***b".
Proof. by vm_compute. Qed.

Lemma mask_secrets_inner_spec_witness :
  masks true (secret_takes [str "hunter2"] [] true) (segment_span (str "pw=hunter2") [str "hunter2"] [] true)
    (pattern_span (str "pw=hunter2") []) 0 (str "pw=hunter2") (str "pw=***").
Proof.
  refine (@mask_secrets_inner_spec rfc4648 (str "pw=hunter2") [str "hunter2"] [] [] true true _).
  by apply utf8_decide.
Defined.

Lemma masked_output_has_no_secret_witness :
  mask_secrets_inner (str "pw=hunter2 cHc=") [str "hunter2"] [] [] false true
    ≠ str "pw=" ++ str "HUNTER2" ++ str " cHc=".
Proof.
  apply (@masked_output_has_no_secret rfc4648 _ _ _ _ _ _ (str "hunter2")).
  - by apply utf8_decide.
  - exists (str "hunter2"). split_and!; [by constructor|done|by intros ?%not_elem_of_nil|by left].
  - by apply maskable_decide.
  - reflexivity.
Defined.

Lemma mask_secrets_idempotent_witness :
  mask_secrets_inner (mask_secrets_inner (str "my secret data") [str "secret"] [] [] false false)
    [str "secret"] [] [] false false = str "my *** data".
Proof.
  etrans; [apply (@mask_secrets_idempotent rfc4648 (str "my secret data") [str "secret"] [] false)|reflexivity].
  - by apply utf8_decide.
  - intros s ->%list_elem_of_singleton _. by apply maskable_decide.
Defined.

Lemma preserving_lines_keeps_line_ends_witness :
  filter is_newline (mask_secrets_inner (str "a token" ++ [10%N] ++ str "b c") [str "token" ++ [10%N] ++ str "b"] [] [] true true)
  = [10%N].
Proof. etrans; [apply (@preserving_lines_keeps_line_ends rfc4648); by apply utf8_decide|reflexivity]. Defined.

(** [printf 'x%s' hunter2 | base64], after a label and with its padding. *)
Lemma shifted_encoding_hidden_witness :
  masked false (secret_here [str "hunter2"] [] true) (λ i, 4 ≤ i ∧ i < 4 + 11)
    0 (str "t = " ++ (str "eGh1bnRlcjI" ++ str "=") ++ str " end") (str "t = *** end").
Proof.
  apply (@shifted_encoding_hidden rfc4648 Standard (str "t = ") [] (str "x") (str "hunter2") [] (str "=") (str " end")
    [str "hunter2"] [] false).
  - by apply utf8_decide.
  - by constructor.
  - by intros ?%not_elem_of_nil.
  - simpl. unfold MIN_ELIGIBLE_SECRET_LEN. lia.
  - repeat (constructor; [by vm_compute|]). constructor.
  - constructor.
  - by repeat constructor.
  - by intros x [= <-].
  - by intros x r [= <- _].
Defined.
