(* ===== verification/MaskStream.v ===== *)
(** * The streaming secret masker

    [StreamingMasker] of [crates/preloop-gha-protocol/src/masking.rs]: each
    [push] masks the withheld tail followed by the chunk, emits what can no
    longer be the beginning of a secret or of a shifted encoding, and withholds
    the rest; [finish] flushes it. *)
From S2P Require Export Masking.

Section streaming.
Context `{!Base64Engines}.

Record StreamingMasker : Type := mkMasker {
  sm_secrets : list bytes; sm_max_len : nat; sm_carry : bytes; sm_scanner : option AlignmentScanner }.

Definition StreamingMasker_new (secrets : list bytes) : StreamingMasker :=
  let '(expanded, raw) := expand_secrets true [] secrets in
  let expanded := sort_longest expanded in
  mkMasker expanded (foldr Nat.max 0 (length <$> expanded)) [] (AlignmentScanner_new raw).

Definition pattern_count (m : StreamingMasker) : nat := length (sm_secrets m).

Definition is_secret_prefix (remaining : bytes) (secrets : list bytes) : bool :=
  existsb (λ secret,
    (length remaining <? length secret) && char_boundary_at secret (length remaining)
      && eq_ignore_case (take (length remaining) secret) remaining) secrets.

(** One round of the loop of [mask_window]: emit a decided span, stop, or copy
    a character, which is speculative from [hold_from] on. *)
Record WindowState : Type := mkWindow { w_out : bytes; w_pos : nat; w_speculative : option span }.

Fixpoint window_loop (fuel : nat) (text : bytes) (secrets : list bytes) (ranges : list span)
    (hold_from soft_hold_from : option nat) (w : WindowState) : WindowState :=
  match fuel with
  | O => w
  | S fuel =>
      if length text <=? w_pos w then w
      else
        let ranges := skip_spans (w_pos w) ranges in
        let range_end := covering (w_pos w) ranges in
        let remaining := drop (w_pos w) text in
        let matched := match range_end with
                       | Some _ => None
                       | None => match_secret_at remaining secrets true
                       end in
        match (match range_end with Some e => Some e | None => (λ s, w_pos w + length s) <$> matched end) with
        | Some hi =>
            window_loop fuel text secrets ranges hold_from soft_hold_from
              (mkWindow (w_out w ++ push_line_preserving_marker (slice (w_pos w) hi text)) hi None)
        | None =>
            if match soft_hold_from with Some s => s <=? w_pos w | None => false end
               && is_secret_prefix remaining secrets
            then w
            else
              let speculative :=
                if match w_speculative w with None => true | Some _ => false end
                   && match hold_from with Some h => h <=? w_pos w | None => false end
                then Some (w_pos w, length (w_out w))
                else w_speculative w in
              let width := lead_width (default 0%N (head remaining)) in
              window_loop fuel text secrets ranges hold_from soft_hold_from
                (mkWindow (w_out w ++ take width remaining) (w_pos w + width) speculative)
        end
  end.

(** The bound [None] stands for [usize::MAX], which no offset reaches. *)
Definition mask_window (text : bytes) (secrets : list bytes) (ranges : list span)
    (hold_from soft_hold_from : option nat) : bytes * nat :=
  let w := window_loop (length text) text secrets ranges hold_from soft_hold_from (mkWindow [] 0 None) in
  match w_speculative w with
  | Some (text_offset, out_len) => (take out_len (w_out w), text_offset)
  | None => (w_out w, w_pos w)
  end.

Definition alignment_ranges (m : StreamingMasker) (text : bytes) : list span :=
  match sm_scanner m with
  | Some scanner => tainted_segment_ranges text scanner true
  | None => []
  end.

(** The start of the base64 run that ends the text. *)
Fixpoint trailing_run_start (rev_text : bytes) (run_start : nat) : nat :=
  match rev_text with
  | x :: r => if is_base64_byte x then trailing_run_start r (run_start - 1) else run_start
  | [] => run_start
  end.

Definition trailing_run_hold (m : StreamingMasker) (text : bytes) : nat :=
  match sm_scanner m with
  | None => length text
  | Some scanner =>
      let run_start := trailing_run_start (reverse text) (length text) in
      run_start + (length text - run_start - hold_bound scanner)
  end.

Definition push (m : StreamingMasker) (chunk : bytes) : bytes * StreamingMasker :=
  let text := from_utf8_lossy (sm_carry m ++ chunk) in
  let ranges := alignment_ranges m text in
  let hold_from := trailing_run_hold m text in
  let soft_hold_from := length text - (sm_max_len m - 1) in
  let '(out, emitted) := mask_window text (sm_secrets m) ranges (Some hold_from) (Some soft_hold_from) in
  (out, mkMasker (sm_secrets m) (sm_max_len m) (drop emitted text) (sm_scanner m)).

Definition finish (m : StreamingMasker) : bytes * StreamingMasker :=
  let text := from_utf8_lossy (sm_carry m) in
  let ranges := alignment_ranges m text in
  ((mask_window text (sm_secrets m) ranges None None).1,
   mkMasker (sm_secrets m) (sm_max_len m) [] (sm_scanner m)).

(** A whole stream: the chunks pushed in order, then [finish]. *)
Fixpoint push_all (m : StreamingMasker) (chunks : list bytes) : bytes :=
  match chunks with
  | [] => (finish m).1
  | chunk :: chunks => let '(out, m) := push m chunk in out ++ push_all m chunks
  end.

End streaming.

(** ** Lemmas *)

Lemma masked_shift lines here o o' input out :
  masked lines here (λ _, False) o input out → masked lines here (λ _, False) o' input out.
Proof. intros Hm. revert o'. induction Hm; intros o'; [constructor|by constructor|by constructor]. Qed.

(** A text with no match, and no beginning of one that reaches its end, has no
    match whatever follows. *)
Lemma no_match_extends remaining t s :
  utf8 t → secret_matches remaining true s = false →
  length s ≤ length remaining
  ∨ (length remaining <? length s) && char_boundary_at s (length remaining)
      && eq_ignore_case (take (length remaining) s) remaining = false →
  secret_matches (remaining ++ t) true s = false.
Proof.
  intros Ht Hno Hprefix. apply not_true_is_false. intros (Hl & Hb & Hsame)%secret_matches_true.
  apply not_true_iff_false in Hno.
  destruct (decide (length s ≤ length remaining)) as [Hle|Hgt].
  - apply Hno, secret_matches_true. rewrite take_app_le in Hsame by done. split_and!; [done| |done].
    unfold is_char_boundary in Hb |- *. destruct (decide (length s < length remaining)) as [Hlt|Hge].
    + destruct (lookup_lt_is_Some_2 remaining (length s) Hlt) as [x Hx].
      rewrite lookup_app_l, Hx in Hb by done. by rewrite Hx.
    + rewrite (lookup_ge_None_2 remaining) by lia. apply Nat.eqb_eq. lia.
  - destruct Hprefix as [|Hprefix]; [lia|]. apply not_true_iff_false in Hprefix. apply Hprefix.
    rewrite take_app_ge in Hsame by lia. simpl in Hsame. unfold lowercase in Hsame. rewrite fmap_app in Hsame.
    assert (lower_byte <$> take (length remaining) s = lower_byte <$> remaining) as Hhead.
    { rewrite fmap_take, <-Hsame. apply take_app_length'. by rewrite length_fmap. }
    rewrite !andb_true_iff. split; [split|by apply bool_decide_eq_true].
    + apply Nat.ltb_lt. lia.
    + unfold char_boundary_at. apply andb_true_iff. split; [apply Nat.leb_le; lia|].
      destruct t as [|y t]; [rewrite length_app in Hl; simpl in Hl; lia|].
      destruct (lookup_lt_is_Some_2 s (length remaining)) as [x Hx]; [lia|].
      unfold is_char_boundary. rewrite Hx. rewrite (lower_continuation x y).
      * rewrite (is_continuation_head _ _ _ Ht eq_refl). apply orb_true_r.
      * assert ((lower_byte <$> s) !! length remaining = Some (lower_byte x)) as E by by rewrite list_lookup_fmap, Hx.
        rewrite <-Hsame, lookup_app_r, length_fmap, Nat.sub_diag in E by (by rewrite length_fmap).
        replace (length s - length remaining) with (S (length s - length remaining - 1)) in E by lia.
        simpl in E. by injection E.
Qed.

Section window.
Context (text : bytes) (secrets : list bytes) (future : bytes → Prop).
Context (Htext : utf8 text) (Hne : Forall (λ s, s ≠ []) secrets).

Definition stream_here (r : bytes) : Prop := ∃ s, s ∈ secrets ∧ secret_matches r true s = true.

Abbreviation stream_masked := (masked true stream_here (λ _, False)).

(** What was written is right for every way the stream goes on. *)
Definition good (pos : nat) (out : bytes) : Prop :=
  pos ≤ length text ∧ utf8 (drop pos text) ∧
  ∀ t out', future t → stream_masked 0 (drop pos text ++ t) out' → stream_masked 0 (text ++ t) (out ++ out').

Lemma good_hide pos hi out :
  good pos out → pos < hi → hi ≤ length text → utf8 (drop hi text) → (∀ t, future t → utf8 t) →
  good hi (out ++ push_line_preserving_marker (slice pos hi text)).
Proof.
  intros (Hle & Hu & Hg) Hlt Hhi Hu' Hfut. split_and!; [done..|]. intros t out' Ht Hm.
  rewrite <-app_assoc. apply Hg; [done|].
  assert (drop pos text = slice pos hi text ++ drop hi text) as ->.
  { unfold slice. rewrite <-(take_drop (hi - pos) (drop pos text)) at 1. rewrite drop_drop. do 2 f_equal. lia. }
  rewrite <-app_assoc. apply masked_hide; [|by apply utf8_app; [|apply Hfut]|apply line_block|by intros _; rewrite line_block_filter|].
  - intros He. apply (f_equal length) in He. unfold slice in He. rewrite length_take_le in He; [simpl in He; lia|].
    rewrite length_drop. lia.
  - by eapply masked_shift.
Qed.

Lemma good_copy pos out width :
  good pos out → pos < length text → width = lead_width (default 0%N (head (drop pos text))) →
  (∀ t, future t → ¬ stream_here (drop pos text ++ t)) →
  good (pos + width) (out ++ take width (drop pos text)) ∧ width > 0.
Proof.
  intros (Hle & Hu & Hg) Hlt Hw Hno.
  destruct (first_char text pos Hu Hlt) as (c & r & Hc & Hr & Hur & Hwc). rewrite Hwc in Hw. subst width.
  assert (length (Utf8.encode_char c) > 0) as Hpos.
  { pose proof (encode_char_ne c). destruct (Utf8.encode_char c); [done|simpl; lia]. }
  assert (drop (pos + length (Utf8.encode_char c)) text = r) as Hd by by rewrite <-drop_drop, Hr, drop_app_length.
  assert (length text - pos = length (Utf8.encode_char c) + length r) as Hlen.
  { by rewrite <-length_drop, Hr, length_app. }
  split; [|done]. split; [lia|]. split; [by rewrite Hd|]. intros t out' Ht Hm.
  rewrite <-app_assoc. apply Hg; [done|]. rewrite Hd in Hm. specialize (Hno t Ht). rewrite Hr in Hno |- *.
  rewrite take_app_length, <-app_assoc. rewrite <-app_assoc in Hno. apply masked_copy; [done|done|by intros []|].
  by eapply masked_shift.
Qed.

(** The invariant of the loop: the current state and the speculative one are good. *)
Definition window_ok (hold_from : option nat) (w : WindowState) : Prop :=
  good (w_pos w) (w_out w) ∧
  ∀ p l, w_speculative w = Some (p, l) →
    good p (take l (w_out w)) ∧ l ≤ length (w_out w) ∧ ∃ h, hold_from = Some h ∧ h ≤ p.

Lemma window_loop_ok fuel ranges hold_from soft_hold_from w :
  (∀ t, future t → utf8 t) →
  (∀ pos t, future t → match_secret_at (drop pos text) secrets true = None →
     (∀ s, soft_hold_from = Some s → pos < s ∨ is_secret_prefix (drop pos text) secrets = false) →
     ¬ stream_here (drop pos text ++ t)) →
  length text - w_pos w ≤ fuel → spans_ok text ranges → window_ok hold_from w →
  let w' := window_loop fuel text secrets ranges hold_from soft_hold_from w in
  window_ok hold_from w' ∧ (length text ≤ w_pos w' ∨ ∃ s, soft_hold_from = Some s ∧ s ≤ w_pos w').
Proof.
  intros Hfut Hno. revert ranges w. induction fuel as [|fuel IH]; intros ranges w Hfuel Hr Hw; cbn [window_loop].
  { split; [done|]. left. lia. }
  destruct (Nat.leb_spec (length text) (w_pos w)) as [Hge|Hlt]; [split; [done|by left]|].
  pose proof (skip_spans_ok _ (w_pos w) _ Hr) as Hr'.
  pose proof Hw as [Hgood Hspec]. pose proof Hgood as (Hle & Hu & Hg).
  assert (∀ hi, w_pos w < hi → hi ≤ length text → utf8 (drop hi text) →
    let w' := window_loop fuel text secrets (skip_spans (w_pos w) ranges) hold_from soft_hold_from
      (mkWindow (w_out w ++ push_line_preserving_marker (slice (w_pos w) hi text)) hi None) in
    window_ok hold_from w' ∧ (length text ≤ w_pos w' ∨ ∃ s, soft_hold_from = Some s ∧ s ≤ w_pos w')) as Hhide.
  { intros hi H1 H2 H3. apply IH; [simpl; lia|done|]. split; [by apply good_hide|done]. }
  destruct (covering (w_pos w) (skip_spans (w_pos w) ranges)) as [e|] eqn:Hcov.
  { destruct (covering_Some _ _ _ _ Hr Hcov) as (H1 & H2 & H3). by apply Hhide. }
  destruct (match_secret_at (drop (w_pos w) text) secrets true) as [s|] eqn:Hmatch; cbn [fmap option_fmap option_map].
  { apply match_secret_at_Some in Hmatch as [Hs (Hl & Hb & _)%secret_matches_true].
    rewrite Forall_forall in Hne. specialize (Hne s Hs). rewrite length_drop in Hl.
    assert (length s > 0) by (destruct s; [done|simpl; lia]).
    apply Hhide; [lia|lia|]. rewrite <-drop_drop. by apply utf8_split. }
  destruct (match soft_hold_from with Some s => s <=? w_pos w | None => false end
    && is_secret_prefix (drop (w_pos w) text) secrets) eqn:Hsoft.
  { split; [done|]. right. destruct soft_hold_from as [s|]; [|done].
    apply andb_true_iff in Hsoft as [Hs%Nat.leb_le _]. by exists s. }
  destruct (good_copy (w_pos w) (w_out w) _ Hgood Hlt eq_refl) as [Hcopy Hpos].
  { intros t Ht. apply Hno; [done|done|]. intros s ->. apply andb_false_iff in Hsoft as [Hs|Hs]; [left|by right].
    by apply Nat.leb_gt in Hs. }
  set (width := lead_width _) in *. apply IH; [simpl; lia|done|]. split; [exact Hcopy|]. cbn [w_speculative w_out].
  intros p l. destruct (w_speculative w) as [[p' l']|] eqn:Ew; cbn [andb].
  - intros [= -> ->]. destruct (Hspec p l eq_refl) as (H1 & H2 & H3).
    rewrite take_app_le, length_app by done. split_and!; [done|lia|done].
  - destruct hold_from as [h|]; [|done]. destruct (Nat.leb_spec h (w_pos w)); [|done]. intros [= <- <-].
    rewrite take_app_length, length_app. split_and!; [done|lia|]. by exists h.
Qed.

Lemma mask_window_ok ranges hold_from soft_hold_from out emitted :
  (∀ t, future t → utf8 t) →
  (∀ pos t, future t → match_secret_at (drop pos text) secrets true = None →
     (∀ s, soft_hold_from = Some s → pos < s ∨ is_secret_prefix (drop pos text) secrets = false) →
     ¬ stream_here (drop pos text ++ t)) →
  spans_ok text ranges → mask_window text secrets ranges hold_from soft_hold_from = (out, emitted) →
  good emitted out ∧ (length text ≤ emitted ∨ (∃ s, soft_hold_from = Some s ∧ s ≤ emitted)
                      ∨ ∃ h, hold_from = Some h ∧ h ≤ emitted).
Proof.
  intros Hfut Hno Hr Hw. unfold mask_window in Hw.
  destruct (window_loop_ok (length text) ranges hold_from soft_hold_from (mkWindow [] 0 None) Hfut Hno)
    as [[Hg Hs] Hend]; [simpl; lia|done| |].
  - split; [|done]. split_and!; [simpl; lia|done|]. intros t out' _ Hm. exact Hm.
  - destruct (w_speculative _) as [[p l]|] eqn:E.
    + injection Hw as <- <-. destruct (Hs p l eq_refl) as (H1 & _ & H3). split; [done|].
      right; right. done.
    + injection Hw as <- <-. split; [done|]. destruct Hend as [|Hend]; [by left|right; by left].
Qed.
End window.

Lemma length_le_max (s : bytes) l : s ∈ l → length s ≤ foldr Nat.max 0 (length <$> l).
Proof.
  induction l as [|x l IH]; [by intros ?%not_elem_of_nil|]. intros [->|Hin]%elem_of_cons; csimpl; [lia|].
  specialize (IH Hin). lia.
Qed.

Section masker.
Context `{!Base64Engines}.

(** A masker as [new] builds it and [push] keeps it. *)
Definition masker_ok (m : StreamingMasker) : Prop :=
  utf8 (sm_carry m) ∧ Forall (λ s, s ≠ []) (sm_secrets m)
  ∧ ∀ s, s ∈ sm_secrets m → length s ≤ sm_max_len m.

Lemma alignment_ranges_ok m text : utf8 text → spans_ok text (alignment_ranges m text).
Proof. intros Hu. unfold alignment_ranges. case_match; [by apply tainted_segment_ranges_ok|by split; constructor]. Qed.

Lemma trailing_run_start_le r n : trailing_run_start r n ≤ n.
Proof. revert n. induction r as [|x r IH]; intros n; simpl; [done|]. case_match; [|done]. specialize (IH (n - 1)). lia. Qed.

Lemma trailing_run_hold_le m text :
  length text - trailing_run_hold m text ≤ match sm_scanner m with Some s => hold_bound s | None => 0 end.
Proof.
  unfold trailing_run_hold. case_match; [|lia].
  pose proof (trailing_run_start_le (reverse text) (length text)). lia.
Qed.

Lemma push_ok m chunk out m' :
  masker_ok m → utf8 chunk → push m chunk = (out, m') →
  masker_ok m' ∧ sm_secrets m' = sm_secrets m
  ∧ length (sm_carry m') ≤ Nat.max (sm_max_len m - 1) (match sm_scanner m with Some s => hold_bound s | None => 0 end)
  ∧ ∀ t out', utf8 t →
      masked true (stream_here (sm_secrets m)) (λ _, False) 0 (sm_carry m' ++ t) out' →
      masked true (stream_here (sm_secrets m)) (λ _, False) 0 (sm_carry m ++ chunk ++ t) (out ++ out').
Proof.
  intros (Hc & Hne & Hmax) Hu Hpush. unfold push in Hpush.
  assert (utf8 (sm_carry m ++ chunk)) as Htext by by apply utf8_app.
  rewrite from_utf8_lossy_utf8 in Hpush by done. set (text := sm_carry m ++ chunk) in *.
  destruct (mask_window _ _ _ _ _) as [out1 emitted] eqn:Hw. injection Hpush as <- <-.
  apply (mask_window_ok text (sm_secrets m) utf8 Htext Hne) in Hw as [(Hle & Hud & Hg) Hend].
  - split_and!; [by split_and!|done| |].
    + cbn [sm_carry]. rewrite length_drop. pose proof (trailing_run_hold_le m text) as Hhold.
      destruct Hend as [|[(s & [= <-] & ?)|(h & [= <-] & ?)]]; lia.
    + intros t out' Ht Hm. rewrite app_assoc. by apply Hg.
  - done.
  - intros pos t Ht Hnone Hsoft (s & Hs & Hmatch).
    assert (secret_matches (drop pos text ++ t) true s = false) as E; [|by rewrite E in Hmatch].
    apply no_match_extends; [done|by eapply match_secret_at_None|].
    destruct (Hsoft _ eq_refl) as [Hlt|Hprefix].
    + left. specialize (Hmax s Hs). rewrite length_drop. lia.
    + right. apply not_true_is_false. intros Ht'. apply not_true_iff_false in Hprefix. apply Hprefix.
      apply existsb_exists. exists s. by rewrite <-list_elem_of_In.
  - by apply alignment_ranges_ok.
Qed.

Lemma finish_ok m :
  masker_ok m → masked true (stream_here (sm_secrets m)) (λ _, False) 0 (sm_carry m) (finish m).1.
Proof.
  intros (Hc & Hne & Hmax). unfold finish. rewrite from_utf8_lossy_utf8 by done. cbn [fst].
  destruct (mask_window _ _ _ _ _) as [out emitted] eqn:Hw.
  apply (mask_window_ok (sm_carry m) (sm_secrets m) (λ t, t = []) Hc Hne) in Hw as [(Hle & Hud & Hg) Hend].
  - destruct Hend as [Hend|[(s & [=] & _)|(h & [=] & _)]].
    rewrite <-(app_nil_r (sm_carry m)), <-(app_nil_r out). apply Hg; [done|].
    rewrite (nil_length_inv (drop emitted _)) by (rewrite length_drop; lia). constructor.
  - intros t ->. constructor.
  - intros pos t -> Hnone _ (s & Hs & Hmatch). rewrite app_nil_r in Hmatch.
    by rewrite (match_secret_at_None _ _ _ _ Hnone Hs) in Hmatch.
  - by apply alignment_ranges_ok.
Qed.

Lemma push_all_masked m chunks :
  masker_ok m → Forall utf8 chunks →
  masked true (stream_here (sm_secrets m)) (λ _, False) 0 (sm_carry m ++ concat chunks) (push_all m chunks).
Proof.
  intros Hm Hc. revert m Hm. induction Hc as [|chunk chunks Hu Hc IH]; intros m Hm; simpl.
  - rewrite app_nil_r. by apply finish_ok.
  - destruct (push m chunk) as [out m'] eqn:Hp.
    destruct (push_ok _ _ _ _ Hm Hu Hp) as (Hm' & Hs & _ & Hg). apply Hg.
    + clear -Hc. induction Hc; [constructor|]. simpl. by apply utf8_app.
    + rewrite <-Hs. by apply IH.
Qed.

Lemma new_ok secrets : masker_ok (StreamingMasker_new secrets).
Proof.
  unfold StreamingMasker_new. pose proof (expand_secrets_spec true [] secrets) as Hspec.
  destruct (expand_secrets true [] secrets) as [values raw]. destruct Hspec as (Hne & _ & _).
  split_and!; simpl; [constructor| |].
  - apply Forall_forall. intros s Hs. rewrite elem_of_sort_longest in Hs. rewrite Forall_forall in Hne. exact (Hne s Hs).
  - intros s Hs. by apply length_le_max.
Qed.

(** ** Properties *)

(** C3: no maskable secret survives the streaming masker, however the text is
    cut into chunks of whole UTF-8 characters. A secret or an encoding of one
    that is itself UTF-8, holds no asterisk and is not made of line ends only
    does not occur, in any letter case, in what the pushes and the final flush
    emit together. *)
Theorem stream_has_no_secret secrets chunks v v' x y :
  Forall utf8 chunks → looked_for secrets [] true v → maskable v → same true v' v →
  push_all (StreamingMasker_new secrets) chunks ≠ x ++ v' ++ y.
Proof.
  intros Hc Hv (H1 & H2 & H3) Hsame He.
  pose proof (push_all_masked _ chunks (new_ok secrets) Hc) as Hm.
  refine (masked_no_secret _ _ _ _ _ _ true v x v' y Hm _ H1 H2 H3 _ Hsame He).
  - assert (sm_carry (StreamingMasker_new secrets) = []) as ->
      by (unfold StreamingMasker_new; by destruct (expand_secrets true [] secrets)). simpl.
    clear -Hc. induction Hc; [constructor|]. simpl. by apply utf8_app.
  - intros r Hr. exists v. split; [|done]. apply expanded_looked_for in Hv.
    unfold StreamingMasker_new. by destruct (expand_secrets true [] secrets).
Qed.

(** The withheld tail stays bounded: after a push it is shorter than the
    longest value looked for, or within the base64 hold bound. *)
Theorem carry_bounded secrets chunks chunk :
  let push_chunk m c := (push m c).2 in
  let m := foldl push_chunk (StreamingMasker_new secrets) chunks in
  Forall utf8 chunks → utf8 chunk →
  length (sm_carry (push m chunk).2)
    ≤ Nat.max (sm_max_len m - 1) (match sm_scanner m with Some s => hold_bound s | None => 0 end).
Proof.
  intros push_chunk m Hc Hu.
  assert (masker_ok m) as Hm.
  { unfold m. generalize (new_ok secrets). generalize (StreamingMasker_new secrets).
    induction Hc as [|c chunks Hcu Hc IH]; intros m0 Hm0; [done|]. simpl. apply IH.
    unfold push_chunk. destruct (push m0 c) as [out m'] eqn:Hp. exact (proj1 (push_ok _ _ _ _ Hm0 Hcu Hp)). }
  destruct (push m chunk) as [out m'] eqn:Hp. by destruct (push_ok _ _ _ _ Hm Hu Hp) as (_ & _ & Hl & _).
Qed.

End masker.

Lemma stream_has_no_secret_witness :
  push_all (StreamingMasker_new [str "hunter2"]) [str "pw=hun"; str "ter2 and eGh1bn"; str "RlcjI= done"]
    ≠ str "pw=" ++ str "Hunter2" ++ str " and".
Proof.
  apply (@stream_has_no_secret rfc4648 _ _ (str "hunter2")).
  - repeat (constructor; [by apply utf8_decide|]). constructor.
  - exists (str "hunter2"). split_and!; [by constructor|done|by intros ?%not_elem_of_nil|by left].
  - by apply maskable_decide.
  - reflexivity.
Defined.

Lemma carry_bounded_witness :
  length (sm_carry (push (push (StreamingMasker_new [str "hunter2"]) (str "pw=hun")).2 (str "ter2 and eGh1bn")).2)
    ≤ Nat.max (14 - 1) 22.
Proof.
  apply (@carry_bounded rfc4648 [str "hunter2"] [str "pw=hun"] (str "ter2 and eGh1bn")).
  - repeat (constructor; [by apply utf8_decide|]). constructor.
  - by apply utf8_decide.
Defined.

(** A chunk that ends inside a character: the halves are replaced before they
    are joined, and the rest of the secret is emitted. *)
Lemma split_character_leaks :
  let secret := str "p" ++ [195; 164]%N ++ str "ssword" in
  push_all (StreamingMasker_new [secret]) [secret] = MASK_MARKER
  ∧ push_all (StreamingMasker_new [secret]) [take 2 secret; drop 2 secret]
    = str "p" ++ REPLACEMENT_CHARACTER ++ REPLACEMENT_CHARACTER ++ str "ssword".
Proof. split; vm_compute; reflexivity. Qed.
