(* ===== verification/WorkerCommands.v ===== *)
(** * Workflow commands of the worker

    The parser of [crates/preloop-runner/src/worker/commands.rs]: lines
    [::name key=value,...::data] and [##[name]data] of a step's output. *)
From S2P Require Export Bytes.

(** [str::to_lowercase], which follows the Unicode tables outside ASCII. *)
Class UnicodeLower := {
  to_lowercase : string → string;
  to_lowercase_ascii s : is_ascii s = true → to_lowercase s = to_ascii_lowercase s;
}.
#[export] Instance ascii_lower : UnicodeLower := {| to_lowercase := to_ascii_lowercase; to_lowercase_ascii s _ := eq_refl |}.

Record WorkflowCommand : Type := mkCommand { name : string; properties : gmap string string; data : string }.

Definition trim_start (s : string) : string := of_chars (trim_start_chars (chars s)).

Definition LF : string := String "010" EmptyString.
Definition CR : string := String "013" EmptyString.

Definition unescape_data (s : string) : string :=
  replace "%25" "%" (replace "%0D" CR (replace "%0A" LF s)).

Definition unescape_property (s : string) : string :=
  replace "%25" "%" (replace "%0D" CR (replace "%0A" LF (replace "%2C" "," (replace "%3A" ":" s)))).

Section parse.
Context `{UnicodeLower}.

Definition insert_pair (properties : gmap string string) (pair : string) : gmap string string :=
  match split_once "=" pair with
  | Some (key, val) =>
      if bool_decide (key = "") || bool_decide (val = "") then properties
      else <[to_lowercase key := unescape_property val]> properties
  | None => properties
  end.

Definition parse_properties (props : string) : gmap string string :=
  foldl insert_pair ∅ (split_char "," (trim props)).

Definition parse_double_colon (line : string) : option WorkflowCommand :=
  rest ← strip_prefix "::" (trim_start line);
  '(command_part, data) ← split_once "::" rest;
  let '(name, props_str) :=
    match split_once " " command_part with
    | Some (name, props) => (name, Some props)
    | None => (command_part, None)
    end in
  if bool_decide (name = "") then None
  else
    let properties := match props_str with Some props => parse_properties props | None => ∅ end in
    Some (mkCommand (to_lowercase name) properties (unescape_data data)).

Definition parse_legacy (line : string) : option WorkflowCommand :=
  rest ← strip_prefix "##[" (trim line);
  '(name, data) ← split_once "]" rest;
  Some (mkCommand (to_lowercase name) ∅ data).

Definition parse_command (line : string) : option WorkflowCommand :=
  match parse_double_colon line with
  | Some cmd => Some cmd
  | None => parse_legacy line
  end.

End parse.

(** ** Rendering

    The escapes of the official runner, which its toolkit applies to a command
    before printing it. *)
Fixpoint esc (f : ascii → string) (s : string) : string :=
  match s with EmptyString => EmptyString | String a r => f a +:+ esc f r end.

Definition lit (a : ascii) : string := String a EmptyString.

Definition escape_data_char (a : ascii) : string :=
  if decide (a = "%"%char) then "%25" else if decide (a = "013"%char) then "%0D"
  else if decide (a = "010"%char) then "%0A" else lit a.
Definition escape_data (s : string) : string := esc escape_data_char s.

Definition escape_property_char (a : ascii) : string :=
  if decide (a = ","%char) then "%2C" else if decide (a = ":"%char) then "%3A" else escape_data_char a.
Definition escape_property (s : string) : string := esc escape_property_char s.

Definition render_pair (kv : string * string) : string := kv.1 +:+ "=" +:+ escape_property kv.2.
Definition render_properties (props : list (string * string)) : string := join "," (render_pair <$> props).
Definition render_command (name : string) (props : list (string * string)) (data : string) : string :=
  "::" +:+ (name +:+ match props with [] => "" | _ => " " +:+ render_properties props end) +:+ "::" +:+ escape_data data.

(** ** Lemmas *)

(** A code text: every character stands for itself or for a code [%XY]. *)
Definition token (t : string) : Prop :=
  (∃ b, t = lit b ∧ b ≠ "%"%char)
  ∨ ∃ x y, t = String "%" (String x (lit y)) ∧ x ≠ "%"%char ∧ y ≠ "%"%char.

Definition subst (pat to : string) (f : ascii → string) (a : ascii) : string :=
  if decide (f a = pat) then to else f a.

Lemma replace_from_skip n pat to x s : replace_from (String.length x + n) pat to (x +:+ s) = replace_from n pat to s.
Proof. induction x as [|a x IH]; [done|]. exact IH. Qed.

Lemma starts_with_percent x y a r :
  a ≠ "%"%char → starts_with (String "%" (String x (lit y))) (String a r) = false.
Proof. intros Ha. unfold starts_with. simpl. by rewrite decide_False by done. Qed.

Lemma replace_esc f x y to s :
  (∀ a, token (f a)) → x ≠ "%"%char → y ≠ "%"%char →
  let pat := String "%" (String x (lit y)) in
  replace pat to (esc f s) = esc (subst pat to f) s.
Proof.
  intros Hf Hx Hy pat. unfold replace. induction s as [|a s IH]; [done|]. cbn [esc].
  unfold subst at 1. destruct (Hf a) as [(b & Hb & Hne)|(u & v & Hb & Hu & Hv)]; rewrite Hb.
  - rewrite decide_False by done. change (lit b +:+ ?r) with (String b r). cbn [replace_from].
    unfold pat at 1. rewrite starts_with_percent by done. by rewrite IH.
  - case_decide as E.
    + change (replace_from 0 pat to (String "%" (String u (lit v)) +:+ esc f s))
        with (if starts_with pat (String "%" (String u (lit v)) +:+ esc f s)
              then to +:+ replace_from 2 pat to (String u (lit v) +:+ esc f s)
              else String "%" (replace_from 0 pat to (String u (lit v) +:+ esc f s))).
      rewrite (proj2 (starts_with_true _ _)) by (exists (esc f s); by rewrite E).
      f_equal. rewrite <-IH. apply (replace_from_skip 0 pat to (String u (lit v))).
    + change (String "%" (String u (lit v)) +:+ ?r) with (String "%" (String u (String v r))).
      cbn [replace_from].
      assert (starts_with pat (String "%" (String u (String v (esc f s)))) = false) as ->.
      { apply not_true_is_false. intros [r Hr]%starts_with_true. apply E. unfold pat in *.
        injection Hr as -> -> _. done. }
      unfold pat at 1. rewrite starts_with_percent by done.
      unfold pat at 1. rewrite starts_with_percent by done. by rewrite IH.
Qed.

Lemma esc_ext f g s : (∀ a, f a = g a) → esc f s = esc g s.
Proof. intros Hfg. induction s as [|a s IH]; [done|]. cbn [esc]. by rewrite Hfg, IH. Qed.

Lemma esc_lit s : esc lit s = s.
Proof. induction s as [|a s IH]; [done|]. cbn [esc]. by rewrite IH. Qed.

Lemma token_lit a : a ≠ "%"%char → token (lit a).
Proof. left. by exists a. Qed.

Lemma token_subst pat to f : token to → (∀ a, token (f a)) → ∀ a, token (subst pat to f a).
Proof. intros Ht Hf a. unfold subst. by case_decide. Qed.

Lemma subst_lit x y z to f a : f a = lit a → subst (String x (String y (lit z))) to f a = lit a.
Proof. intros Hf. unfold subst. rewrite Hf. by rewrite decide_False. Qed.

Lemma token_escape_data a : token (escape_data_char a).
Proof.
  unfold escape_data_char. repeat case_decide; [right; by eexists _, _..|]. by apply token_lit.
Qed.

Lemma token_escape_property a : token (escape_property_char a).
Proof.
  unfold escape_property_char. do 2 (case_decide; [right; by eexists _, _|]). apply token_escape_data.
Qed.

Ltac replace_code x y :=
  rewrite (replace_esc _ x y); [|repeat (apply token_subst; [by apply token_lit|]);
    first [apply token_escape_data|apply token_escape_property]|done|done].

Lemma unescape_data_escape s : unescape_data (escape_data s) = s.
Proof.
  unfold unescape_data, escape_data. replace_code "0"%char "A"%char. replace_code "0"%char "D"%char.
  replace_code "2"%char "5"%char. rewrite <-(esc_lit s) at 2. apply esc_ext. intros a.
  destruct (decide (a = "%"%char)) as [->|H1]; [done|]. destruct (decide (a = "013"%char)) as [->|H2]; [done|].
  destruct (decide (a = "010"%char)) as [->|H3]; [done|].
  repeat apply subst_lit. unfold escape_data_char. by rewrite !decide_False by done.
Qed.

Lemma unescape_property_escape s : unescape_property (escape_property s) = s.
Proof.
  unfold unescape_property, escape_property. replace_code "3"%char "A"%char. replace_code "2"%char "C"%char.
  replace_code "0"%char "A"%char. replace_code "0"%char "D"%char. replace_code "2"%char "5"%char.
  rewrite <-(esc_lit s) at 2. apply esc_ext. intros a.
  destruct (decide (a = "%"%char)) as [->|H1]; [done|]. destruct (decide (a = "013"%char)) as [->|H2]; [done|].
  destruct (decide (a = "010"%char)) as [->|H3]; [done|]. destruct (decide (a = ","%char)) as [->|H4]; [done|].
  destruct (decide (a = ":"%char)) as [->|H5]; [done|].
  repeat apply subst_lit. unfold escape_property_char, escape_data_char. by rewrite !decide_False by done.
Qed.

(** Characters a text does not hold. *)
Fixpoint lacks (c : ascii) (s : string) : bool :=
  match s with EmptyString => true | String a r => negb (bool_decide (a = c)) && lacks c r end.

Lemma lacks_app c s t : lacks c (s +:+ t) = lacks c s && lacks c t.
Proof.
  induction s as [|a s IH]; [done|]. change (String a s +:+ t) with (String a (s +:+ t)).
  cbn [lacks]. by rewrite IH, andb_assoc.
Qed.

Lemma lacks_esc c f s : (∀ a, lacks c (f a) = true) → lacks c (esc f s) = true.
Proof. intros Hf. induction s as [|a s IH]; [done|]. cbn [esc]. by rewrite lacks_app, Hf, IH. Qed.

(** The first occurrence of a separator whose first character comes no earlier. *)
Lemma split_once_first c p a r :
  lacks c a = true → split_once (String c p) (a +:+ String c p +:+ r) = Some (a, r).
Proof.
  induction a as [|b a IH]; intros Ha.
  - change ("" +:+ String c p +:+ r) with (String c p +:+ r).
    assert (strip_prefix (String c p) (String c p +:+ r) = Some r) as E by apply strip_prefix_app.
    change (String c p +:+ r) with (String c (p +:+ r)) in *. cbn [split_once]. by rewrite E.
  - cbn [lacks] in Ha. apply andb_true_iff in Ha as [Hb Ha].
    change (String b a +:+ ?t) with (String b (a +:+ t)). cbn [split_once strip_prefix].
    rewrite decide_False.
    + rewrite IH by done. done.
    + intros ->. by rewrite bool_decide_true in Hb.
Qed.

Lemma split_once_none c p a : lacks c a = true → split_once (String c p) a = None.
Proof.
  induction a as [|b a IH]; intros Ha; [done|]. cbn [lacks] in Ha. apply andb_true_iff in Ha as [Hb Ha].
  cbn [split_once strip_prefix]. rewrite decide_False.
  - by rewrite IH.
  - intros ->. by rewrite bool_decide_true in Hb.
Qed.

Lemma split_char_lacks c a : lacks c a = true → split_char c a = [a].
Proof.
  induction a as [|b a IH]; intros Ha; [done|]. cbn [lacks] in Ha. apply andb_true_iff in Ha as [Hb Ha].
  cbn [split_char]. rewrite decide_False.
  - by rewrite IH.
  - intros ->. by rewrite bool_decide_true in Hb.
Qed.

Lemma split_char_app c a r :
  lacks c a = true → split_char c (a +:+ String c r) = a :: split_char c r.
Proof.
  induction a as [|b a IH]; intros Ha.
  - change ("" +:+ String c r) with (String c r). cbn [split_char]. by rewrite decide_True.
  - cbn [lacks] in Ha. apply andb_true_iff in Ha as [Hb Ha].
    change (String b a +:+ ?t) with (String b (a +:+ t)). cbn [split_char]. rewrite decide_False.
    + by rewrite IH.
    + intros ->. by rewrite bool_decide_true in Hb.
Qed.

Lemma split_char_join c l :
  l ≠ [] → Forall (λ s, lacks c s = true) l → split_char c (join (lit c) l) = l.
Proof.
  intros Hne Hl. induction Hl as [|s l Hs Hl IH]; [done|]. destruct l as [|t l].
  - by apply split_char_lacks.
  - change (join (lit c) (s :: t :: l)) with (s +:+ lit c +:+ join (lit c) (t :: l)).
    change (lit c +:+ ?r) with (String c r). rewrite split_char_app by done. by rewrite IH.
Qed.

Lemma lacks_join c l : lacks c "," = true → Forall (λ s, lacks c s = true) l → lacks c (join "," l) = true.
Proof.
  intros Hc. induction 1 as [|s l Hs Hl IH]; [done|]. destruct l as [|t l]; [done|].
  change (join "," (s :: t :: l)) with (s +:+ "," +:+ join "," (t :: l)). by rewrite !lacks_app, Hs, Hc, IH.
Qed.

Ltac lacks_cases :=
  unfold escape_property_char, escape_data_char, lit; repeat (case_decide; subst); try done;
  cbn [lacks]; rewrite bool_decide_false by congruence; done.

Lemma lacks_escape_property c s :
  c = ":"%char ∨ c = ","%char → lacks c (escape_property s) = true.
Proof. intros Hc. apply lacks_esc. intros a. destruct Hc as [->| ->]; lacks_cases. Qed.

Lemma esc_ne f s : (∀ a, f a ≠ "") → s ≠ "" → esc f s ≠ "".
Proof. intros Hf. destruct s as [|a s]; [done|]. intros _. cbn [esc]. specialize (Hf a). by destruct (f a). Qed.

Lemma escape_property_ne s : s ≠ "" → escape_property s ≠ "".
Proof. apply esc_ne. intros a. unfold escape_property_char, escape_data_char, lit. by repeat case_decide. Qed.

Section roundtrip.
Context `{UnicodeLower}.

(** A name or key a command can carry. *)
Definition plain (s : string) : Prop :=
  s ≠ "" ∧ is_ascii s = true ∧ lacks ":" s = true ∧ lacks "," s = true ∧ lacks "=" s = true ∧ lacks " " s = true.

Lemma insert_pair_render m k v :
  plain k → v ≠ "" → insert_pair m (render_pair (k, v)) = <[to_lowercase k := v]> m.
Proof.
  intros (Hk & _ & _ & _ & He & _) Hv. unfold insert_pair, render_pair. simpl fst; simpl snd.
  rewrite (split_once_first "=" "") by done.
  rewrite !bool_decide_false by (done || by apply escape_property_ne). cbn [orb].
  by rewrite unescape_property_escape.
Qed.

Definition lower_pairs (props : list (string * string)) : gmap string string :=
  foldl (λ m kv, <[to_ascii_lowercase kv.1 := kv.2]> m) ∅ props.

Lemma parse_properties_render props :
  props ≠ [] → Forall (λ kv, plain kv.1 ∧ kv.2 ≠ "") props →
  trim (render_properties props) = render_properties props →
  parse_properties (render_properties props) = lower_pairs props.
Proof.
  intros Hne Hprops Htrim. unfold parse_properties, lower_pairs. rewrite Htrim.
  unfold render_properties. change "," with (lit ","). rewrite split_char_join.
  - generalize (∅ : gmap string string). clear Htrim Hne.
    induction Hprops as [|[k v] props [Hk Hv] _ IH]; intros m; [done|]. cbn [fmap list_fmap foldl fst snd].
    rewrite insert_pair_render by done. rewrite IH. simpl in Hk.
    by rewrite (to_lowercase_ascii k) by apply Hk.
  - by destruct props.
  - apply Forall_fmap. eapply Forall_impl; [exact Hprops|].
    intros [k v] [(_ & _ & _ & Hc & _) _]. unfold render_pair. simpl.
    rewrite !lacks_app. simpl in Hc. rewrite Hc, lacks_escape_property by auto. done.
Qed.

Lemma trim_start_id a s : utf8_ok (String a s) → (N_of_ascii a < 128)%N → is_whitespace (ch a) = false → trim_start (String a s) = String a s.
Proof.
  intros Hu Ha Hw. unfold trim_start.
  assert (∃ r, chars (String a s) = ch a :: r) as [r Hr].
  { unfold chars, Utf8.bytes. csimpl. cbn [Utf8.decode]. rewrite (proj2 (N.ltb_lt _ _) Ha). by eexists. }
  rewrite <-(of_chars_chars _ Hu) at 2. by rewrite Hr; simpl; rewrite Hw.
Qed.

(** A rendered command is read back: the name and the keys in lower case, the
    values and the data as they were; a later value of a key wins. *)
Theorem command_roundtrip name props data :
  plain name → Forall (λ kv, plain kv.1 ∧ kv.2 ≠ "") props →
  trim (render_properties props) = render_properties props →
  utf8_ok (render_command name props data) →
  parse_command (render_command name props data)
  = Some (mkCommand (to_ascii_lowercase name) (lower_pairs props) data).
Proof.
  intros (Hne & Hascii & Hcolon & _ & _ & Hspace) Hprops Htrim Hu.
  unfold parse_command, parse_double_colon.
  assert (trim_start (render_command name props data) = render_command name props data) as ->
    by exact (trim_start_id ":" _ Hu eq_refl eq_refl).
  assert (lacks ":" (name +:+ match props with [] => "" | _ => " " +:+ render_properties props end) = true) as Hlacks.
  { rewrite lacks_app, Hcolon. destruct props as [|kv props]; [done|].
    rewrite lacks_app. unfold render_properties. rewrite lacks_join; [done|done|].
    apply Forall_fmap. eapply Forall_impl; [exact Hprops|]. intros [k v] [(_ & _ & Hk & _) _]. unfold render_pair. simpl.
    rewrite !lacks_app, lacks_escape_property by auto. simpl in Hk. by rewrite Hk. }
  unfold render_command. rewrite strip_prefix_app. cbn [mbind option_bind].
  rewrite (split_once_first ":" ":") by done. cbn [mbind option_bind].
  destruct props as [|kv props].
  - rewrite app_empty_r, (split_once_none " " "") by done. rewrite bool_decide_false by done.
    rewrite unescape_data_escape, to_lowercase_ascii by done. done.
  - rewrite (split_once_first " " "") by done. rewrite bool_decide_false by done.
    rewrite parse_properties_render by done. rewrite unescape_data_escape, to_lowercase_ascii by done. done.
Qed.

End roundtrip.

Lemma command_roundtrip_witness :
  parse_command "::Error file=a%3Ab,Line=3::50%25 done%0A"
  = Some (mkCommand "error" {[ "file" := "a:b"; "line" := "3" ]} ("50% done" +:+ LF)).
Proof.
  etrans; [apply (command_roundtrip "Error" [("file", "a:b"); ("Line", "3")] ("50% done" +:+ LF))|reflexivity].
  - by split_and!.
  - constructor; [by split_and!|]. constructor; [by split_and!|constructor].
  - reflexivity.
  - by apply ascii_utf8_ok.
Defined.
