(* ===== verification/Json.v ===== *)
(** * JSON values

    [serde_json::Value] as the expression evaluator, the matrix expander and
    the trigger matcher use it.  The number type and the text codec belong to
    the [serde_json] crate, so they are parameters: [NumberOps] is what the
    code asks of a number, [JsonCodec] what it asks of the reader and writer.
    Object members keep their insertion order, as the workspace builds
    [serde_json] with [preserve_order]. *)
From Stdlib Require Export Floats.SpecFloat.
From S2P Require Export Bytes.

(** ** 64-bit floats

    IEEE 754 binary64 through the Standard Library's executable
    specification. *)
Abbreviation f64 := spec_float.

Definition f64_prec : Z := 53.
Definition f64_emax : Z := 1024.

Definition f64_is_nan (x : f64) : bool := match x with S754_nan => true | _ => false end.
Definition f64_eqb (x y : f64) : bool := SFeqb x y.
Definition f64_partial_cmp (x y : f64) : option comparison := SFcompare x y.
Definition f64_zero : f64 := S754_zero false.
Definition f64_of_Z (z : Z) : f64 := binary_normalize f64_prec f64_emax z 0 false.

(** ** Values *)

Inductive value (num : Type) : Type :=
| JNull
| JBool (b : bool)
| JNumber (n : num)
| JString (s : string)
| JArray (vs : list (value num))
| JObject (m : list (string * value num)).
Arguments JNull {num}.
Arguments JBool {num} b.
Arguments JNumber {num} n.
Arguments JString {num} s.
Arguments JArray {num} vs.
Arguments JObject {num} m.

(** What the code uses of [serde_json::Number]: [PartialEq], [as_f64],
    [as_i64], [as_u64], [Display] and [FromStr]. *)
Class NumberOps (num : Type) := {
  num_eqb : num → num → bool;
  as_f64 : num → option f64;
  as_i64 : num → option Z;
  as_u64 : num → option Z;
  num_to_string : num → string;
  num_from_str : string → option num;
}.

(** What the code uses of the [serde_json] reader and writer.  The writer
    hands its output to an [io::Write] in fragments, so it is the list of the
    fragments; the serialized text is their concatenation. *)
Class JsonCodec (num : Type) := {
  json_from_str : string → result string (value num);
  json_writes : value num → list string;
  json_writes_pretty : value num → list string;
}.

Definition json_to_string {num} `{JsonCodec num} (v : value num) : string :=
  join "" (json_writes v).

Section value.
Context {num : Type}.
Implicit Types (v : value num).

(** Induction that reaches the elements of arrays and objects. *)
Lemma value_ind' (P : value num → Prop) :
  P JNull → (∀ b, P (JBool b)) → (∀ n, P (JNumber n)) → (∀ s, P (JString s)) →
  (∀ vs, Forall P vs → P (JArray vs)) →
  (∀ m, Forall (λ kv, P kv.2) m → P (JObject m)) →
  ∀ v, P v.
Proof.
  intros Hnull Hbool Hnum Hstr Harr Hobj.
  fix IH 1.
  intros [| b | n | s | vs | m]; [done|apply Hbool|apply Hnum|apply Hstr| |].
  - apply Harr. induction vs as [|v vs IHvs]; constructor; [apply IH|apply IHvs].
  - apply Hobj. induction m as [|[k v] m IHm]; constructor; [apply IH|apply IHm].
Qed.

Definition as_str v : option string := match v with JString s => Some s | _ => None end.
Definition as_array v : option (list (value num)) :=
  match v with JArray vs => Some vs | _ => None end.
Definition as_object v : option (imap (value num)) :=
  match v with JObject m => Some m | _ => None end.

(** [Value::get(key)] on an object. *)
Definition value_get (key : string) v : option (value num) := as_object v ≫= imap_get key.

(** [PartialEq] of values: objects are equal when they hold the same members,
    whatever their order. *)
Fixpoint value_eqb `{NumberOps num} (v w : value num) {struct v} : bool :=
  match v, w with
  | JNull, JNull => true
  | JBool b, JBool c => Bool.eqb b c
  | JNumber n, JNumber o => num_eqb n o
  | JString s, JString t => str_eqb s t
  | JArray vs, JArray ws =>
      (fix list_eqb vs ws :=
         match vs, ws with
         | [], [] => true
         | v :: vs, w :: ws => value_eqb v w && list_eqb vs ws
         | _, _ => false
         end) vs ws
  | JObject m, JObject o =>
      (length m =? length o) &&
      (fix members m :=
         match m with
         | [] => true
         | (k, v) :: m =>
             match imap_get k o with Some w => value_eqb v w | None => false end && members m
         end) m
  | _, _ => false
  end.

End value.

(** ** A concrete number type

    Integers stand for the numbers in the concrete examples: equality and the
    integer views are exact, and decimal integer text is read and printed. *)

Fixpoint parse_digits (acc : N) (cs : list char) : option N :=
  match cs with
  | [] => Some acc
  | c :: r => if is_ascii_digit c then parse_digits (acc * 10 + (c - ch "0"))%N r else None
  end.

Definition Z_from_str (s : string) : option Z :=
  match chars s with [] => None | cs => Z.of_N <$> parse_digits 0 cs end.

Definition Z_to_string (z : Z) : string := pretty z.

#[export] Instance Z_number : NumberOps Z := {
  num_eqb := Z.eqb;
  as_f64 z := Some (f64_of_Z z);
  as_i64 z := if ((- 2 ^ 63 <=? z) && (z <? 2 ^ 63))%Z then Some z else None;
  as_u64 z := if ((0 <=? z) && (z <? 2 ^ 64))%Z then Some z else None;
  num_to_string := Z_to_string;
  num_from_str := Z_from_str;
}.

Definition quote_mark : string := String "034" EmptyString.

(** A codec for the concrete examples that only knows scalars. *)
Definition scalar_text (v : value Z) : string :=
  match v with
  | JNull => "null"
  | JBool true => "true"
  | JBool false => "false"
  | JNumber z => pretty z
  | JString s => quote_mark +:+ s +:+ quote_mark
  | JArray _ => "[]"
  | JObject _ => "{}"
  end.

#[export] Instance Z_codec : JsonCodec Z := {
  json_from_str s :=
    match s with
    | "null" => Ok JNull
    | "true" => Ok (JBool true)
    | "false" => Ok (JBool false)
    | _ => match Z_from_str s with Some z => Ok (JNumber z) | None => Err "invalid JSON" end
    end;
  json_writes v := [scalar_text v];
  json_writes_pretty v := [scalar_text v];
}.
