(* ===== verification/Lexer.v ===== *)
(** * The expression lexer

    [crates/preloop-gha-expressions/src/lexer.rs] and the error type of
    [lib.rs]: characters to tokens.  [lex] iterates over the characters of the
    input; each step either skips white space, yields one token or stops with
    an error.  The rendering [render] and the theorems on it say which texts
    the lexer reads back. *)
From S2P Require Export Json.

(** Errors of parsing and evaluating [${{ }}] expressions. *)
Inductive ExpressionError : Type :=
| Eof
| Unexpected (token : string)
| UnknownFunction (name : string)
| InvalidFunctionArity (name : string) (min max actual : nat)
| EvenCaseParameters
| NonBooleanCasePredicate
| InvalidFormat (msg : string)
| InvalidHashFilesOption (opt : string)
| HashFilesTooManyFiles (n : nat)
| HashFilesTraversalLimit (n : nat)
| HashFilesTooLarge (n : N)
| HashFilesDisallowedPattern (p : string)
| FormatOutputTooLarge (n : N)
| EvaluationTooLarge (n : N)
| TooDeep (n : nat)
| InvalidJson (msg : string).

#[export] Instance ExpressionError_eq_dec : EqDecision ExpressionError.
Proof. solve_decision. Defined.

Inductive Token : Type :=
| TIdent (s : string)
| TString (s : string)
| TNumber (s : string)
| TBool (b : bool)
| TNull
| TDot
| TComma
| TLParen
| TRParen
| TLBracket
| TRBracket
| TStar
| TBang
| TAnd
| TOr
| TEq
| TNe
| TGt
| TGe
| TLt
| TLe
| TEnd.

#[export] Instance Token_eq_dec : EqDecision Token.
Proof. solve_decision. Defined.

(** [format!("{token:?}")], the derived [Debug] text of a token.  [Debug] of a
    string quotes it and escapes quotes, backslashes and control characters;
    the escapes of unprintable characters beyond ASCII are left out. *)
Definition hex_digit (n : N) : char := (if n <? 10 then ch "0" + n else ch "a" + (n - 10))%N.
Definition hex_digits (n : N) : list char :=
  (if n <? 16 then [hex_digit n] else [hex_digit (n / 16); hex_digit (n mod 16)])%N.
Definition debug_char (c : char) : list char :=
  let bs := ch "092" in
  if (c =? ch "034")%N || (c =? bs)%N then [bs; c]
  else if (c =? 9)%N then [bs; ch "t"]
  else if (c =? 10)%N then [bs; ch "n"]
  else if (c =? 13)%N then [bs; ch "r"]
  else if (c =? 0)%N then [bs; ch "0"]
  else if (c <? 32)%N || (c =? 127)%N then bs :: ch "u" :: ch "{" :: hex_digits c ++ [ch "}"]
  else [c].
Definition debug_str (s : string) : string :=
  of_chars (ch "034" :: flat_map debug_char (chars s) ++ [ch "034"]).

Definition debug_token (t : Token) : string :=
  match t with
  | TIdent s => "Ident(" +:+ debug_str s +:+ ")"
  | TString s => "String(" +:+ debug_str s +:+ ")"
  | TNumber s => "Number(" +:+ debug_str s +:+ ")"
  | TBool true => "Bool(true)"
  | TBool false => "Bool(false)"
  | TNull => "Null" | TDot => "Dot" | TComma => "Comma"
  | TLParen => "LParen" | TRParen => "RParen"
  | TLBracket => "LBracket" | TRBracket => "RBracket"
  | TStar => "Star" | TBang => "Bang" | TAnd => "And" | TOr => "Or"
  | TEq => "Eq" | TNe => "Ne" | TGt => "Gt" | TGe => "Ge" | TLt => "Lt" | TLe => "Le"
  | TEnd => "End"
  end.

(** [Lexer::take_while]: the longest prefix whose characters satisfy [p]. *)
Fixpoint take_while (p : char → bool) (cs : list char) : list char * list char :=
  match cs with
  | c :: r => if p c then let '(a, b) := take_while p r in (c :: a, b) else ([], cs)
  | [] => ([], [])
  end.

(** [Lexer::consume]: drop the next character if it is [expected]. *)
Definition consume (expected : char) (cs : list char) : option (list char) :=
  match cs with
  | c :: r => if (c =? expected)%N then Some r else None
  | [] => None
  end.

(** [Lexer::string] after the opening quote: a doubled quote is one quote, a
    single one closes the literal. *)
Fixpoint lex_string (out : list char) (cs : list char) : result ExpressionError (string * list char) :=
  match cs with
  | [] => Err Eof
  | c :: r =>
      if (c =? ch "'")%N then
        match r with
        | c' :: r' => if (c' =? ch "'")%N then lex_string (out ++ [ch "'"]) r'
                      else Ok (of_chars out, r)
        | [] => Ok (of_chars out, r)
        end
      else lex_string (out ++ [c]) r
  end.

Definition is_number_char (c : char) : bool := is_ascii_digit c || (c =? ch ".")%N.
Definition is_ident_start (c : char) : bool := is_ascii_alphabetic c || (c =? ch "_")%N.
Definition is_ident_char (c : char) : bool :=
  is_ascii_alphanumeric c || (c =? ch "_")%N || (c =? ch "-")%N.

Definition ident_token (ident : string) : Token :=
  let lower := to_ascii_lowercase ident in
  if str_eqb lower "true" then TBool true
  else if str_eqb lower "false" then TBool false
  else if str_eqb lower "null" then TNull
  else TIdent ident.

(** A two-character operator, or [single] when the second one is missing. *)
Definition lex_pair (second : char) (double : Token) (single : result ExpressionError Token)
    (r : list char) : result ExpressionError (option Token * list char) :=
  match consume second r with
  | Some r' => Ok (Some double, r')
  | None => t ← single; Ok (Some t, r)
  end.

(** One iteration of [Lexer::lex]: the token the character [c] starts, if it
    starts one, and the characters left. *)
Definition lex_step (c : char) (r : list char) : result ExpressionError (option Token * list char) :=
  if is_whitespace c then Ok (None, r)
  else if (c =? ch "'")%N then
    '(s, r') ← lex_string [] r; Ok (Some (TString s), r')
  else if is_ascii_digit c then
    let '(a, b) := take_while is_number_char (c :: r) in Ok (Some (TNumber (of_chars a)), b)
  else if is_ident_start c then
    let '(a, b) := take_while is_ident_char (c :: r) in Ok (Some (ident_token (of_chars a)), b)
  else if (c =? ch ".")%N then Ok (Some TDot, r)
  else if (c =? ch ",")%N then Ok (Some TComma, r)
  else if (c =? ch "(")%N then Ok (Some TLParen, r)
  else if (c =? ch ")")%N then Ok (Some TRParen, r)
  else if (c =? ch "!")%N then lex_pair (ch "=") TNe (Ok TBang) r
  else if (c =? ch "=")%N then lex_pair (ch "=") TEq (Err (Unexpected "=")) r
  else if (c =? ch ">")%N then lex_pair (ch "=") TGe (Ok TGt) r
  else if (c =? ch "<")%N then lex_pair (ch "=") TLe (Ok TLt) r
  else if (c =? ch "&")%N then lex_pair (ch "&") TAnd (Err (Unexpected "&")) r
  else if (c =? ch "|")%N then lex_pair (ch "|") TOr (Err (Unexpected "|")) r
  else if (c =? ch "*")%N then Ok (Some TStar, r)
  else if (c =? ch "[")%N then Ok (Some TLBracket, r)
  else if (c =? ch "]")%N then Ok (Some TRBracket, r)
  else Err (Unexpected (of_chars [c])).

(** The loop of [Lexer::lex], with one unit of fuel per iteration; [None] is
    running out of it. *)
Fixpoint lex_loop (fuel : nat) (cs : list char) : option (result ExpressionError (list Token)) :=
  match fuel with
  | 0 => None
  | S fuel =>
      match cs with
      | [] => Some (Ok [TEnd])
      | c :: r =>
          match lex_step c r with
          | Err e => Some (Err e)
          | Ok (ot, r') =>
              rest ← lex_loop fuel r';
              Some (toks ← rest; Ok (match ot with Some t => t :: toks | None => toks end))
          end
      end
  end.

Definition lex_chars (cs : list char) : result ExpressionError (list Token) :=
  default (Err Eof) (lex_loop (S (length cs)) cs).

Definition lex (input : string) : result ExpressionError (list Token) :=
  lex_chars (chars input).

(** ** Rendering tokens

    A text for a token list: every token followed by a space, string literals
    quoted with their quotes doubled. *)

Definition escape_quotes (cs : list char) : list char :=
  flat_map (λ c, if (c =? ch "'")%N then [c; c] else [c]) cs.

Definition str_chars (s : string) : list char := N_of_ascii <$> String.list_ascii_of_string s.

Definition render_token (t : Token) : list char :=
  match t with
  | TIdent s => chars s
  | TString s => ch "'" :: escape_quotes (chars s) ++ [ch "'"]
  | TNumber s => chars s
  | TBool true => str_chars "true"
  | TBool false => str_chars "false"
  | TNull => str_chars "null"
  | TDot => str_chars "."
  | TComma => str_chars ","
  | TLParen => str_chars "("
  | TRParen => str_chars ")"
  | TLBracket => str_chars "["
  | TRBracket => str_chars "]"
  | TStar => str_chars "*"
  | TBang => str_chars "!"
  | TAnd => str_chars "&&"
  | TOr => str_chars "||"
  | TEq => str_chars "=="
  | TNe => str_chars "!="
  | TGt => str_chars ">"
  | TGe => str_chars ">="
  | TLt => str_chars "<"
  | TLe => str_chars "<="
  | TEnd => []
  end.

Definition render (ts : list Token) : list char :=
  flat_map (λ t, render_token t ++ [ch " "]) ts.

(** The tokens the lexer can produce before [End]. *)
Definition token_ok (t : Token) : Prop :=
  match t with
  | TIdent s =>
      utf8_ok s ∧ ident_token s = TIdent s ∧
      ∃ c r, chars s = c :: r ∧ is_ident_start c = true ∧ forallb is_ident_char r = true
  | TString s => utf8_ok s
  | TNumber s =>
      utf8_ok s ∧ ∃ c r, chars s = c :: r ∧ is_ascii_digit c = true ∧ forallb is_number_char r = true
  | TEnd => False
  | _ => True
  end.

(** ** Termination *)

Lemma take_while_length p cs : length (take_while p cs).2 ≤ length cs.
Proof.
  induction cs as [|c r IH]; simpl; [lia|].
  destruct (p c); simpl; [|lia]. destruct (take_while p r); simpl in *; lia.
Qed.

Lemma take_while_app p a b :
  forallb p a = true → (∀ c r, b = c :: r → p c = false) → take_while p (a ++ b) = (a, b).
Proof.
  intros Ha Hb. induction a as [|c a IH]; simpl in *.
  - destruct b as [|c r]; simpl; [done|]. by rewrite (Hb c r).
  - apply andb_true_iff in Ha as [-> Ha]. by rewrite IH.
Qed.

Lemma take_while_split p cs : cs = (take_while p cs).1 ++ (take_while p cs).2.
Proof.
  induction cs as [|c r IH]; simpl; [done|].
  destruct (p c); simpl; [|done]. destruct (take_while p r); simpl in *. by f_equal.
Qed.

Lemma take_while_all p cs : forallb p (take_while p cs).1 = true.
Proof.
  induction cs as [|c r IH]; simpl; [done|].
  destruct (p c) eqn:Hc; simpl; [|done]. destruct (take_while p r); simpl in *. by rewrite Hc.
Qed.

Lemma consume_length e cs r : consume e cs = Some r → length r ≤ length cs.
Proof. destruct cs; simpl; [done|]. case_match; intros; simplify_eq/=; lia. Qed.

Lemma lex_string_length out cs s r : lex_string out cs = Ok (s, r) → length r ≤ length cs.
Proof.
  revert out. induction cs as [cs IH] using (induction_ltof1 _ length); unfold ltof in IH.
  intros out. destruct cs as [|c cs]; simpl; [done|].
  destruct (c =? ch "'")%N; [|intros H; apply IH in H; simpl in *; lia].
  destruct cs as [|c' cs]; [intros [= <- <-]; simpl; lia|].
  destruct (c' =? ch "'")%N; [intros H; apply IH in H; simpl in *; lia|].
  intros [= <- <-]. simpl. lia.
Qed.

Lemma lex_pair_length second d s r ot r' :
  lex_pair second d s r = Ok (ot, r') → length r' ≤ length r.
Proof.
  unfold lex_pair. destruct (consume second r) as [r0|] eqn:Hc.
  - intros [= <- <-]. by eapply consume_length.
  - destruct s; simpl; [|done]. by intros [= <- <-].
Qed.

#[local] Hint Resolve consume_length lex_string_length lex_pair_length : preloop.

(** A step never yields more characters than it was given, so the loop's fuel
    is spent no faster than the input. *)
Lemma lex_step_length c r ot r' : lex_step c r = Ok (ot, r') → length r' ≤ length r.
Proof.
  unfold lex_step.
  repeat (match goal with |- (if ?b then _ else _) = _ → _ => destruct b eqn:? end;
          [try (intros [= <- <-]; lia); try apply lex_pair_length|]).
  - destruct (lex_string [] r) as [[s r0]|] eqn:Hs; simpl; [|done].
    intros [= <- <-]. by eapply lex_string_length.
  - assert (is_number_char c = true) as Hc
      by (unfold is_number_char; by match goal with H : is_ascii_digit c = true |- _ => rewrite H end).
    simpl. rewrite Hc. pose proof (take_while_length is_number_char r).
    destruct (take_while is_number_char r); intros [= <- <-]. simpl in *. lia.
  - assert (is_ident_char c = true) as Hc.
    { unfold is_ident_char, is_ascii_alphanumeric, is_ident_start in *.
      by destruct (is_ascii_alphabetic c), (c =? ch "_")%N, (is_ascii_digit c). }
    simpl. rewrite Hc. pose proof (take_while_length is_ident_char r).
    destruct (take_while is_ident_char r); intros [= <- <-]. simpl in *. lia.
  - done.
Qed.

Lemma lex_loop_fuel n cs : length cs < n → lex_loop n cs = Some (lex_chars cs).
Proof.
  assert (∀ n m cs, length cs < n → length cs < m →
    lex_loop n cs = lex_loop m cs ∧ is_Some (lex_loop n cs)) as Hind.
  { clear n cs. induction n as [|n IH]; intros m cs Hn Hm; [lia|].
    destruct m as [|m]; [lia|]. simpl. destruct cs as [|c r]; [by eauto|].
    destruct (lex_step c r) as [[ot r']|e] eqn:Hs; [|by eauto].
    apply lex_step_length in Hs. simpl in *.
    destruct (IH m r') as [Heq [x Hx]]; [lia..|].
    rewrite <-Heq, Hx. simpl. by eauto. }
  intros Hn. unfold lex_chars.
  destruct (Hind n (S (length cs)) cs) as [Heq [x Hx]]; [lia..|].
  by rewrite <-Heq, Hx.
Qed.

Lemma lex_loop_cons n c r :
  lex_loop (S n) (c :: r) =
    match lex_step c r with
    | Err e => Some (Err e)
    | Ok (ot, r') =>
        rest ← lex_loop n r';
        Some (toks ← rest; Ok (match ot with Some t => t :: toks | None => toks end))
    end.
Proof. done. Qed.

(** The loop as a recursion on the characters left. *)
Lemma lex_chars_cons c r :
  lex_chars (c :: r) =
    match lex_step c r with
    | Err e => Err e
    | Ok (ot, r') =>
        toks ← lex_chars r'; Ok (match ot with Some t => t :: toks | None => toks end)
    end.
Proof.
  unfold lex_chars at 1. rewrite lex_loop_cons.
  destruct (lex_step c r) as [[ot r']|e] eqn:Hs; [|done].
  apply lex_step_length in Hs. rewrite lex_loop_fuel by (simpl; lia). done.
Qed.

Lemma lex_chars_nil : lex_chars [] = Ok [TEnd].
Proof. done. Qed.

(** ** Reading back rendered tokens *)

Lemma lex_string_escape cs out rest :
  (∀ c r, rest = c :: r → (c =? ch "'")%N = false) →
  lex_string out (escape_quotes cs ++ ch "'" :: rest) = Ok (of_chars (out ++ cs), rest).
Proof.
  intros Hrest. revert out. induction cs as [|c cs IH]; intros out; cbn [escape_quotes flat_map app lex_string].
  - rewrite N.eqb_refl, app_nil_r. destruct rest as [|c r]; [done|]. by rewrite (Hrest c r).
  - destruct (c =? ch "'")%N eqn:Hc.
    + apply N.eqb_eq in Hc as ->. cbn [app lex_string]. rewrite N.eqb_refl.
      change (flat_map _ cs) with (escape_quotes cs). by rewrite IH, <-app_assoc.
    + cbn [app lex_string]. rewrite Hc.
      change (flat_map _ cs) with (escape_quotes cs). by rewrite IH, <-app_assoc.
Qed.

Lemma ident_start_char c : is_ident_start c = true → is_ident_char c = true.
Proof.
  unfold is_ident_start, is_ident_char, is_ascii_alphanumeric.
  by destruct (is_ascii_alphabetic c), (c =? ch "_")%N, (is_ascii_digit c).
Qed.

Lemma digit_number_char c : is_ascii_digit c = true → is_number_char c = true.
Proof. unfold is_number_char. by intros ->. Qed.

(** Arithmetic on the character classes the lexer tests. *)
Ltac char_lia :=
  unfold is_number_char, is_ident_char, is_ident_start, is_ascii_alphanumeric, is_whitespace,
    is_ascii_alphabetic, is_ascii_lower, is_ascii_upper, is_ascii_digit, in_range in *;
  eval_ch; lia.

Lemma digit_not_earlier c :
  is_ascii_digit c = true → is_whitespace c = false ∧ (c =? ch "'")%N = false.
Proof. intros. split; char_lia. Qed.

Lemma ident_start_not_earlier c :
  is_ident_start c = true →
  is_whitespace c = false ∧ (c =? ch "'")%N = false ∧ is_ascii_digit c = false.
Proof. intros. split_and!; char_lia. Qed.

(** One step of the lexer reads exactly one rendered token. *)
Lemma lex_step_render t rest :
  token_ok t →
  ∃ c r, render_token t ++ ch " " :: rest = c :: r ∧ lex_step c r = Ok (Some t, ch " " :: rest).
Proof.
  destruct t as [s|s|s|[]| | | | | | | | | | | | | | | | | | ]; simpl;
    try (intros _; do 2 eexists; split; [reflexivity|reflexivity]); [| | |done].
  - intros (Hs & Hid & c & r & Hcs & Hc & Hr). rewrite Hcs. exists c, (r ++ ch " " :: rest). split; [done|].
    destruct (ident_start_not_earlier c) as (Hw & Hq & Hd); [done|].
    unfold lex_step. rewrite Hw, Hq, Hd, Hc.
    change (c :: r ++ ch " " :: rest) with ((c :: r) ++ ch " " :: rest).
    rewrite (take_while_app is_ident_char (c :: r)).
    + by rewrite <-Hcs, of_chars_chars, Hid.
    + simpl. by rewrite ident_start_char.
    + intros ? ? [= <- <-]. reflexivity.
  - intros Hs. do 2 eexists; split; [reflexivity|].
    unfold lex_step. change (is_whitespace (ch "'")) with false.
    rewrite N.eqb_refl, <-app_assoc. cbn [app]. rewrite lex_string_escape; [|by intros ? ? [= <- <-]].
    simpl. by rewrite of_chars_chars.
  - intros (Hs & c & r & Hcs & Hc & Hr). rewrite Hcs. exists c, (r ++ ch " " :: rest). split; [done|].
    destruct (digit_not_earlier c) as [Hw Hq]; [done|].
    unfold lex_step. rewrite Hw, Hq, Hc.
    change (c :: r ++ ch " " :: rest) with ((c :: r) ++ ch " " :: rest).
    rewrite (take_while_app is_number_char (c :: r)).
    + by rewrite <-Hcs, of_chars_chars.
    + simpl. by rewrite digit_number_char.
    + intros ? ? [= <- <-]. reflexivity.
Qed.

Lemma lex_chars_space r : lex_chars (ch " " :: r) = lex_chars r.
Proof. rewrite lex_chars_cons. simpl. by destruct (lex_chars r). Qed.

Lemma lex_chars_render ts : Forall token_ok ts → lex_chars (render ts) = Ok (ts ++ [TEnd]).
Proof.
  induction 1 as [|t ts Ht Hts IH]; [done|].
  unfold render. cbn [flat_map]. rewrite <-app_assoc. cbn [app].
  destruct (lex_step_render t (flat_map (λ t, render_token t ++ [ch " "]) ts))
    as (c & r & Heq & Hstep); [done|].
  rewrite Heq, lex_chars_cons, Hstep, lex_chars_space.
  change (flat_map _ ts) with (render ts). by rewrite IH.
Qed.

Lemma chars_scalar s : utf8_ok s → Forall (λ c, is_scalar c = true) (chars s).
Proof. intros (cs & Hcs & ->). by rewrite chars_of_chars. Qed.

Lemma escape_quotes_scalar cs :
  Forall (λ c, is_scalar c = true) cs → Forall (λ c, is_scalar c = true) (escape_quotes cs).
Proof.
  induction 1 as [|c cs Hc Hcs IH]; simpl; [constructor|].
  apply Forall_app; split; [|done]. case_match; by repeat constructor.
Qed.

Lemma render_token_scalar t : token_ok t → Forall (λ c, is_scalar c = true) (render_token t).
Proof.
  destruct t as [s|s|s|[]| | | | | | | | | | | | | | | | | | ]; simpl;
    try (intros _; repeat constructor; fail).
  - intros [Hs _]. by apply chars_scalar.
  - intros Hs. constructor; [done|]. apply Forall_app; split; [|by repeat constructor].
    by apply escape_quotes_scalar, chars_scalar.
  - intros [Hs _]. by apply chars_scalar.
Qed.

Lemma render_scalar ts : Forall token_ok ts → Forall (λ c, is_scalar c = true) (render ts).
Proof.
  induction 1 as [|t ts Ht Hts IH]; simpl; [constructor|].
  repeat (apply Forall_app; split); [by apply render_token_scalar|by repeat constructor|done].
Qed.

Lemma lex_of_render ts : Forall token_ok ts → lex (of_chars (render ts)) = Ok (ts ++ [TEnd]).
Proof.
  intros Hts. unfold lex. rewrite chars_of_chars by by apply render_scalar.
  by apply lex_chars_render.
Qed.

(** ** The tokens the lexer produces *)

Lemma lex_string_ok out cs s r :
  Forall (λ c, is_scalar c = true) (out ++ cs) → lex_string out cs = Ok (s, r) →
  utf8_ok s ∧ Forall (λ c, is_scalar c = true) r.
Proof.
  revert out. induction cs as [cs IH] using (induction_ltof1 _ length); unfold ltof in IH.
  intros out Hsc. destruct cs as [|c cs]; simpl; [done|].
  assert (Hout := Hsc). rewrite Forall_app, Forall_cons in Hout. destruct Hout as (Ho & Hc & Hr).
  destruct (c =? ch "'")%N.
  - destruct cs as [|c' cs]; [intros [= <- <-]; eauto with preloop|].
    apply Forall_cons in Hr as [Hc' Hr].
    destruct (c' =? ch "'")%N.
    + apply IH; simpl; [lia|]. rewrite !Forall_app, Forall_singleton. done.
    + intros [= <- <-]. split; [eauto with preloop|by constructor].
  - apply IH; simpl; [lia|]. rewrite <-app_assoc. done.
Qed.

Lemma take_while_Forall {P : char → Prop} p cs :
  Forall P cs → Forall P (take_while p cs).1 ∧ Forall P (take_while p cs).2.
Proof. intros H. rewrite (take_while_split p cs) in H. by apply Forall_app in H. Qed.

Lemma ident_token_ok c r s :
  utf8_ok s → chars s = c :: r → is_ident_start c = true → forallb is_ident_char r = true →
  token_ok (ident_token s).
Proof.
  intros Hs Hcs Hc Hr. unfold ident_token.
  destruct (str_eqb (to_ascii_lowercase s) "true") eqn:H1; [done|].
  destruct (str_eqb (to_ascii_lowercase s) "false") eqn:H2; [done|].
  destruct (str_eqb (to_ascii_lowercase s) "null") eqn:H3; [done|].
  simpl. unfold ident_token. rewrite H1, H2, H3. by eauto 10.
Qed.

Lemma lex_pair_ok second d s r ot r' :
  token_ok d → (∀ t, s = Ok t → token_ok t) → Forall (λ c, is_scalar c = true) r →
  lex_pair second d s r = Ok (ot, r') →
  (∀ t, ot = Some t → token_ok t) ∧ Forall (λ c, is_scalar c = true) r'.
Proof.
  unfold lex_pair, consume. intros Hd Hs Hr. destruct r as [|c r].
  - destruct s as [t|e]; simpl; [|done]. intros [= <- <-]. naive_solver.
  - apply Forall_cons in Hr as Hr'. destruct Hr' as [_ Hr'].
    destruct (c =? second)%N; [intros [= <- <-]; naive_solver|].
    destruct s as [t|e]; simpl; [|done]. intros [= <- <-]. naive_solver.
Qed.

Lemma lex_step_ok c r ot r' :
  Forall (λ c, is_scalar c = true) (c :: r) → lex_step c r = Ok (ot, r') →
  (∀ t, ot = Some t → token_ok t) ∧ Forall (λ c, is_scalar c = true) r'.
Proof.
  intros Hcr. assert (Hr := Hcr). apply Forall_cons in Hr as [Hc Hr].
  unfold lex_step.
  repeat (match goal with |- (if ?b then _ else _) = _ → _ => destruct b eqn:? end;
          [try (intros [= <- <-]; naive_solver); try (by apply lex_pair_ok; naive_solver)|]).
  - destruct (lex_string [] r) as [[s r0]|] eqn:Hs; simpl; [|done].
    apply lex_string_ok in Hs as [Hs Hr0]; [|done]. intros [= <- <-]. naive_solver.
  - destruct (take_while_Forall is_number_char _ Hcr) as [Ha Hb].
    pose proof (take_while_all is_number_char r) as Hall. revert Ha Hb Hall. simpl.
    rewrite digit_number_char by done.
    destruct (take_while is_number_char r) as [a b]. simpl. intros Ha Hb Hall [= <- <-].
    split; [|done]. intros t [= <-]. simpl. rewrite chars_of_chars by done. eauto 10 with preloop.
  - destruct (take_while_Forall is_ident_char _ Hcr) as [Ha Hb].
    pose proof (take_while_all is_ident_char r) as Hall. revert Ha Hb Hall. simpl.
    rewrite ident_start_char by done.
    destruct (take_while is_ident_char r) as [a b]. simpl. intros Ha Hb Hall [= <- <-].
    split; [|done]. intros t [= <-].
    apply (ident_token_ok c a); eauto with preloop. by rewrite chars_of_chars.
  - done.
Qed.

Lemma lex_chars_ok cs toks :
  Forall (λ c, is_scalar c = true) cs → lex_chars cs = Ok toks →
  ∃ ts, toks = ts ++ [TEnd] ∧ Forall token_ok ts.
Proof.
  revert toks. induction cs as [cs IH] using (induction_ltof1 _ length); unfold ltof in IH.
  intros toks Hcs. destruct cs as [|c r].
  - intros [= <-]. by exists [].
  - rewrite lex_chars_cons. destruct (lex_step c r) as [[ot r']|e] eqn:Hs; [|done].
    destruct (lex_step_ok c r ot r') as [Hot Hr']; [done..|].
    intros (toks' & Htoks & Hret)%bind_Ok. apply lex_step_length in Hs.
    destruct (IH r') with toks' as (ts & -> & Hts); [simpl; lia|done..|].
    destruct ot as [t|]; injection Hret as <-; [|by eauto].
    exists (t :: ts). split; [done|]. constructor; auto.
Qed.

(** ** Properties *)

(** C29: the lexer reads back every rendered token list: for tokens the lexer
    can produce, lexing their text (string quotes doubled, tokens separated by
    spaces) yields exactly those tokens followed by [End]. *)
Theorem lex_render_roundtrip ts :
  Forall token_ok ts → lex (of_chars (render ts)) = Ok (ts ++ [TEnd]).
Proof. apply lex_of_render. Qed.

Lemma lex_render_roundtrip_witness :
  lex (of_chars (render [TIdent "env"; TLBracket; TString "it's"; TRBracket; TNe; TNumber "1.5"]))
  = Ok ([TIdent "env"; TLBracket; TString "it's"; TRBracket; TNe; TNumber "1.5"] ++ [TEnd]).
Proof.
  assert (∀ s, of_chars (chars s) = s → forallb is_scalar (chars s) = true → utf8_ok s) as Hok.
  { intros s Hs Hc. exists (chars s). split; [|done].
    by apply Forall_forall; intros c Hin; apply (proj1 (forallb_forall _ _) Hc), list_elem_of_In. }
  apply (lex_render_roundtrip
    [TIdent "env"; TLBracket; TString "it's"; TRBracket; TNe; TNumber "1.5"]).
  repeat constructor; try (apply Hok; reflexivity); do 2 eexists; repeat split.
Defined.

(** Lexing is normalising.  On any UTF-8 input the lexer accepts, the
    tokens it yields end in [End] and their rendering lexes to the same
    tokens, so white space and literal spelling carry no other information. *)
Theorem lex_normalises input toks :
  utf8_ok input → lex input = Ok toks →
  ∃ ts, toks = ts ++ [TEnd] ∧ lex (of_chars (render ts)) = Ok toks.
Proof.
  intros Hin Hlex. destruct (lex_chars_ok (chars input) toks) as (ts & -> & Hts);
    [by apply chars_scalar|done|].
  exists ts. split; [done|]. by apply lex_of_render.
Qed.

Lemma lex_normalises_witness :
  ∃ ts, [TIdent "a"; TAnd; TBool true; TEnd] = ts ++ [TEnd] ∧
        lex (of_chars (render ts)) = Ok [TIdent "a"; TAnd; TBool true; TEnd].
Proof.
  apply (lex_normalises "a  &&TRUE"); [|vm_compute; reflexivity].
  exists (chars "a  &&TRUE"). split; [by repeat constructor|reflexivity].
Defined.
