(* ===== verification/ExprParser.v ===== *)
(** * The expression parser

    [crates/preloop-gha-expressions/src/ast.rs] and [expr_parser.rs]: a
    recursive descent parser over the lexer's tokens that tracks the depth of
    the tree it builds, and [ParsedExpressionCache] of [lib.rs].

    The parser's state is the cursor and the recursion depth.  Its functions
    are written in the [parser] monad, whose [None] is running out of fuel:
    each loop over tokens has one unit per token, and the recursion through
    parentheses has one unit per nesting level.  [parse_total] shows that the
    fuel is always enough. *)
From S2P Require Export Lexer.

Inductive BinaryOp : Type := OpOr | OpAnd | OpEq | OpNe | OpGt | OpGe | OpLt | OpLe.

#[export] Instance BinaryOp_eq_dec : EqDecision BinaryOp.
Proof. solve_decision. Defined.

Inductive Expr (num : Type) : Type :=
| Literal (v : value num)
| Path (path : list string)
| UnaryNot (e : Expr num)
| Binary (op : BinaryOp) (left right : Expr num)
| Call (name : string) (args : list (Expr num))
| MemberAccess (e : Expr num) (path : list string)
| Index (base key : Expr num).
Arguments Literal {num} v.
Arguments Path {num} path.
Arguments UnaryNot {num} e.
Arguments Binary {num} op left right.
Arguments Call {num} name args.
Arguments MemberAccess {num} e path.
Arguments Index {num} base key.

Lemma Expr_ind' {num} (P : Expr num → Prop) :
  (∀ v, P (Literal v)) → (∀ p, P (Path p)) → (∀ e, P e → P (UnaryNot e)) →
  (∀ op l r, P l → P r → P (Binary op l r)) →
  (∀ name args, Forall P args → P (Call name args)) →
  (∀ e p, P e → P (MemberAccess e p)) →
  (∀ b k, P b → P k → P (Index b k)) →
  ∀ e, P e.
Proof.
  intros Hlit Hpath Hnot Hbin Hcall Hmem Hidx.
  fix IH 1. intros [v|p|e|op l r|name args|e p|b k].
  - apply Hlit.
  - apply Hpath.
  - apply Hnot, IH.
  - apply Hbin; apply IH.
  - apply Hcall. induction args as [|a args IHargs]; constructor; [apply IH|apply IHargs].
  - apply Hmem, IH.
  - apply Hidx; apply IH.
Qed.

Definition MAX_EXPRESSION_DEPTH : nat := 128.

(** A parsed subtree with the depth of the tree it roots. *)
Record ParsedExpr (num : Type) : Type := mkParsed { pe_expr : Expr num; pe_depth : nat }.
Arguments mkParsed {num}.
Arguments pe_expr {num}.
Arguments pe_depth {num}.

Record pstate : Type := mkPstate { index : nat; depth : nat }.

(** ** The parser monad *)

Definition parser (A : Type) : Type := pstate → option (result ExpressionError (A * pstate)).

#[export] Instance parser_ret : MRet parser := λ A a st, Some (Ok (a, st)).
#[export] Instance parser_bind : MBind parser := λ A B f m st,
  match m st with
  | None => None
  | Some (Err e) => Some (Err e)
  | Some (Ok (a, st')) => f a st'
  end.

Definition out_of_fuel {A} : parser A := λ _, None.
Definition p_lift {A} (r : result ExpressionError A) : parser A := λ st,
  Some (match r with Ok a => Ok (a, st) | Err e => Err e end).
Definition p_get : parser pstate := λ st, Some (Ok (st, st)).

(** [Parser::enter] and the decrement that leaves the level again. *)
Definition enter : parser unit := λ st,
  let d := S (depth st) in
  Some (if MAX_EXPRESSION_DEPTH <? d then Err (TooDeep MAX_EXPRESSION_DEPTH)
        else Ok (tt, mkPstate (index st) d)).
Definition leave : parser unit := λ st,
  Some (Ok (tt, mkPstate (index st) (pred (depth st)))).

Definition advance : parser unit := λ st, Some (Ok (tt, mkPstate (S (index st)) (depth st))).

(** Same variant, whatever the payload: [std::mem::discriminant]. *)
Definition same_variant (a b : Token) : bool :=
  match a, b with
  | TIdent _, TIdent _ | TString _, TString _ | TNumber _, TNumber _ | TBool _, TBool _ => true
  | _, _ => bool_decide (a = b)
  end.

Definition or_op (t : Token) : option BinaryOp := match t with TOr => Some OpOr | _ => None end.
Definition and_op (t : Token) : option BinaryOp := match t with TAnd => Some OpAnd | _ => None end.
Definition eq_op (t : Token) : option BinaryOp :=
  match t with
  | TEq => Some OpEq | TNe => Some OpNe | TGt => Some OpGt
  | TGe => Some OpGe | TLt => Some OpLt | TLe => Some OpLe
  | _ => None
  end.

Section parser.
Context {num : Type} `{NumberOps num}.
Variable tokens : list Token.
Abbreviation PE := (ParsedExpr num).

(** ** Building nodes *)

Definition node_depth (deepest_child : nat) : result ExpressionError nat :=
  let d := deepest_child + 1 in
  if MAX_EXPRESSION_DEPTH <? d then Err (TooDeep MAX_EXPRESSION_DEPTH) else Ok d.

Definition pe_leaf (e : Expr num) : PE := mkParsed e 1.

Definition pe_binary (op : BinaryOp) (l r : PE) : result ExpressionError PE :=
  d ← node_depth (pe_depth l `max` pe_depth r);
  Ok (mkParsed (Binary op (pe_expr l) (pe_expr r)) d).

Definition pe_index (base key : PE) : result ExpressionError PE :=
  d ← node_depth (pe_depth base `max` pe_depth key);
  Ok (mkParsed (Index (pe_expr base) (pe_expr key)) d).

Definition push_path_segment (base : PE) (segment : string) : result ExpressionError PE :=
  match pe_expr base with
  | Path path => Ok (mkParsed (Path (path ++ [segment])) (pe_depth base))
  | MemberAccess e path => Ok (mkParsed (MemberAccess e (path ++ [segment])) (pe_depth base))
  | other =>
      d ← node_depth (pe_depth base);
      Ok (mkParsed (MemberAccess other [segment]) d)
  end.

(** ** The cursor *)

Definition current_at (i : nat) : Token := default TEnd (tokens !! i).
Definition current : parser Token := λ st, Some (Ok (current_at (index st), st)).

Definition expect (expected : Token) : parser unit :=
  t ← current;
  if same_variant t expected then advance else p_lift (Err (Unexpected (debug_token t))).

Definition expect_end : parser unit :=
  t ← current;
  match t with TEnd => mret tt | _ => p_lift (Err (Unexpected (debug_token t))) end.

Definition loop_fuel : nat := S (length tokens).

(** ** Operators

    [parse_or], [parse_and] and [parse_eq] are the same left-associative loop
    over different operators and operands. *)
Fixpoint binop_loop (ops : Token → option BinaryOp) (operand : parser PE) (fuel : nat)
    (expr : PE) : parser PE :=
  match fuel with
  | 0 => out_of_fuel
  | S fuel =>
      t ← current;
      match ops t with
      | None => mret expr
      | Some op =>
          _ ← advance;
          right ← operand;
          e ← p_lift (pe_binary op expr right);
          binop_loop ops operand fuel e
      end
  end.

Definition parse_binop (ops : Token → option BinaryOp) (operand : parser PE) : parser PE :=
  expr ← operand; binop_loop ops operand loop_fuel expr.

(** ** Primary expressions, over the recursive [parse_tracked_expr] *)
Section open_recursion.
Variable parse_tracked_expr : parser PE.

(** A single string, number or bare identifier before [']']. *)
Definition bracket_literal : parser (option string) :=
  st ← p_get;
  match current_at (index st) with
  | TString s => _ ← advance; mret (Some s)
  | TNumber n => _ ← advance; mret (Some n)
  | TIdent s =>
      match tokens !! S (index st) with
      | Some TRBracket => _ ← advance; mret (Some s)
      | _ => mret None
      end
  | _ => mret None
  end.

(** The [.segment] and [[key]] loop of a path in [parse_ident_or_call]. *)
Fixpoint path_loop (fuel : nat) (base : PE) : parser PE :=
  match fuel with
  | 0 => out_of_fuel
  | S fuel =>
      t ← current;
      match t with
      | TDot =>
          _ ← advance;
          t' ← current;
          match t' with
          | TIdent segment =>
              _ ← advance; base ← p_lift (push_path_segment base segment); path_loop fuel base
          | TStar =>
              _ ← advance; base ← p_lift (push_path_segment base "*"); path_loop fuel base
          | other => p_lift (Err (Unexpected (debug_token other)))
          end
      | TLBracket =>
          _ ← advance;
          literal ← bracket_literal;
          match literal with
          | Some segment =>
              _ ← expect TRBracket;
              base ← p_lift (push_path_segment base segment); path_loop fuel base
          | None =>
              key ← parse_tracked_expr;
              _ ← expect TRBracket;
              base ← p_lift (pe_index base key); path_loop fuel base
          end
      | _ => mret base
      end
  end.

(** Run a parser and hand its error back as a value, with the state restored
    to the one before it. *)
Definition p_try {A} (p : parser A) : parser (result ExpressionError A) := λ st,
  match p st with
  | None => None
  | Some (Ok (a, st')) => Some (Ok (Ok a, st'))
  | Some (Err e) => Some (Ok (Err e, st))
  end.

(** [parse_member_suffix]: segments after a call.  A malformed suffix ends the
    loop instead of failing the parse, except that a depth error is kept. *)
Fixpoint parse_member_suffix (fuel : nat) (base : PE) : parser PE :=
  match fuel with
  | 0 => out_of_fuel
  | S fuel =>
      t ← current;
      match t with
      | TDot =>
          _ ← advance;
          t' ← current;
          match t' with
          | TIdent segment =>
              _ ← advance; base ← p_lift (push_path_segment base segment);
              parse_member_suffix fuel base
          | TStar =>
              _ ← advance; base ← p_lift (push_path_segment base "*");
              parse_member_suffix fuel base
          | _ => mret base
          end
      | TLBracket =>
          _ ← advance;
          literal ← bracket_literal;
          match literal with
          | Some segment =>
              r ← p_try (expect TRBracket);
              match r with
              | Err _ => mret base
              | Ok _ =>
                  base ← p_lift (push_path_segment base segment); parse_member_suffix fuel base
              end
          | None =>
              r ← p_try (key ← parse_tracked_expr; _ ← expect TRBracket; mret key);
              match r with
              | Ok key => base ← p_lift (pe_index base key); parse_member_suffix fuel base
              | Err (TooDeep n) => p_lift (Err (TooDeep n))
              | Err _ => mret base
              end
          end
      | _ => mret base
      end
  end.

(** The arguments of a call, with the depth of the deepest one. *)
Fixpoint args_loop (fuel : nat) (args : list (Expr num)) (deepest_arg : nat) :
    parser (list (Expr num) * nat) :=
  match fuel with
  | 0 => out_of_fuel
  | S fuel =>
      arg ← parse_tracked_expr;
      let deepest_arg := deepest_arg `max` pe_depth arg in
      let args := args ++ [pe_expr arg] in
      t ← current;
      match t with
      | TComma => _ ← advance; args_loop fuel args deepest_arg
      | _ => mret (args, deepest_arg)
      end
  end.

Definition parse_ident_or_call (name : string) : parser PE :=
  _ ← advance;
  t ← current;
  match t with
  | TLParen =>
      _ ← advance;
      t' ← current;
      ad ← match t' with TRParen => mret ([], 0) | _ => args_loop loop_fuel [] 0 end;
      _ ← expect TRParen;
      d ← p_lift (node_depth ad.2);
      parse_member_suffix loop_fuel (mkParsed (Call name ad.1) d)
  | _ => path_loop loop_fuel (pe_leaf (Path [name]))
  end.

Definition parse_primary : parser PE :=
  t ← current;
  match t with
  | TString v => _ ← advance; mret (pe_leaf (Literal (JString v)))
  | TNumber v =>
      _ ← advance;
      mret (pe_leaf (Literal (match num_from_str v with Some n => JNumber n | None => JNull end)))
  | TBool v => _ ← advance; mret (pe_leaf (Literal (JBool v)))
  | TNull => _ ← advance; mret (pe_leaf (Literal JNull))
  | TIdent name => parse_ident_or_call name
  | TLParen =>
      _ ← advance; e ← parse_tracked_expr; _ ← expect TRParen; mret e
  | TEnd => p_lift (Err Eof)
  | t => p_lift (Err (Unexpected (debug_token t)))
  end.

Fixpoint parse_unary (fuel : nat) : parser PE :=
  match fuel with
  | 0 => out_of_fuel
  | S fuel =>
      t ← current;
      match t with
      | TBang =>
          _ ← advance;
          _ ← enter;
          inner ← parse_unary fuel;
          _ ← leave;
          d ← p_lift (node_depth (pe_depth inner));
          mret (mkParsed (UnaryNot (pe_expr inner)) d)
      | _ => parse_primary
      end
  end.

Definition parse_eq : parser PE := parse_binop eq_op (parse_unary (S MAX_EXPRESSION_DEPTH)).
Definition parse_and : parser PE := parse_binop and_op parse_eq.
Definition parse_or : parser PE := parse_binop or_op parse_and.

End open_recursion.

Fixpoint parse_tracked_expr (fuel : nat) : parser PE :=
  match fuel with
  | 0 => out_of_fuel
  | S fuel =>
      _ ← enter;
      parsed ← parse_or (parse_tracked_expr fuel);
      _ ← leave;
      mret parsed
  end.

Definition parse_expr : parser (Expr num) :=
  pe ← parse_tracked_expr (S MAX_EXPRESSION_DEPTH); mret (pe_expr pe).

(** [parse_expr] followed by [expect_end] on a fresh parser. *)
Definition parse_tokens : option (result ExpressionError (Expr num)) :=
  match (e ← parse_expr; _ ← expect_end; mret e) (mkPstate 0 0) with
  | None => None
  | Some (Ok (e, _)) => Some (Ok e)
  | Some (Err e) => Some (Err e)
  end.

End parser.

(** Lexing and parsing one expression text. *)
Definition parse_input {num} `{NumberOps num} (input : string) : result ExpressionError (Expr num) :=
  tokens ← lex input; default (Err Eof) (parse_tokens tokens).

(** ** The depth of a tree

    A leaf is 1 and every other node one deeper than its deepest child. *)
Fixpoint expr_depth {num} (e : Expr num) : nat :=
  match e with
  | Literal _ | Path _ => 1
  | UnaryNot e | MemberAccess e _ => S (expr_depth e)
  | Binary _ l r => S (expr_depth l `max` expr_depth r)
  | Call _ args => S (foldr (λ a d, expr_depth a `max` d) 0 args)
  | Index b k => S (expr_depth b `max` expr_depth k)
  end.

Definition pe_ok {num} (pe : ParsedExpr num) : Prop :=
  pe_depth pe = expr_depth (pe_expr pe) ∧ pe_depth pe ≤ MAX_EXPRESSION_DEPTH.

(** ** A Hoare logic for parsers

    [pspec p Q st]: from [st], [p] has enough fuel, and if it succeeds its
    result and final state satisfy [Q]. *)
Definition pspec {A} (p : parser A) (Q : A → pstate → Prop) (st : pstate) : Prop :=
  match p st with
  | None => False
  | Some (Err _) => True
  | Some (Ok (a, st')) => Q a st'
  end.

Lemma pspec_bind {A B} (m : parser A) (f : A → parser B) Q st :
  pspec m (λ a, pspec (f a) Q) st → pspec (m ≫= f) Q st.
Proof. unfold pspec, mbind, parser_bind. by destruct (m st) as [[[a st']|e]|]. Qed.

Lemma pspec_mono {A} (p : parser A) (Q Q' : A → pstate → Prop) st :
  pspec p Q st → (∀ a st', Q a st' → Q' a st') → pspec p Q' st.
Proof. unfold pspec. destruct (p st) as [[[a st']|e]|]; auto. Qed.

Lemma pspec_ret {A} (a : A) Q st : Q a st → pspec (mret a) Q st.
Proof. done. Qed.

Lemma pspec_lift {A} (r : result ExpressionError A) Q st :
  (∀ a, r = Ok a → Q a st) → pspec (p_lift r) Q st.
Proof. unfold pspec, p_lift. destruct r; auto. Qed.

Lemma pspec_try {A} (p : parser A) Q st :
  pspec p (λ a, Q (Ok a)) st → (∀ e, Q (Err e) st) → pspec (p_try p) Q st.
Proof. unfold pspec, p_try. destruct (p st) as [[[a st']|e]|]; auto. Qed.

Lemma pspec_enter Q st :
  (depth st < MAX_EXPRESSION_DEPTH → Q tt (mkPstate (index st) (S (depth st)))) →
  pspec enter Q st.
Proof.
  unfold pspec, enter. intros HQ.
  destruct (MAX_EXPRESSION_DEPTH <? S (depth st)) eqn:Hd; [done|].
  apply HQ. bool_to_prop. lia.
Qed.

Section parser_proofs.
Context {num : Type} `{NumberOps num}.
Variable tokens : list Token.
Abbreviation PE := (ParsedExpr num).
Implicit Types (st : pstate) (e : PE).

Lemma current_at_lt i : current_at tokens i ≠ TEnd → i < length tokens.
Proof.
  unfold current_at. destruct (tokens !! i) eqn:Hi; [|done]. intros _. by eapply lookup_lt_Some.
Qed.

Lemma pspec_current Q st :
  (∀ t, t = current_at tokens (index st) → Q t st) → pspec (current tokens) Q st.
Proof. intros HQ. by apply HQ. Qed.

Lemma pspec_expect t Q st :
  Q tt (mkPstate (S (index st)) (depth st)) → pspec (expect tokens t) Q st.
Proof.
  intros HQ. apply pspec_bind, pspec_current. intros ? _. case_match; [exact HQ|].
  by apply pspec_lift.
Qed.

(** What every parser of the grammar promises: the cursor does not move back,
    the recursion depth is restored and the tracked depth is the tree's. *)
Definition advanced st (Q : PE → Prop) : PE → pstate → Prop :=
  λ e st', index st ≤ index st' ∧ depth st' = depth st ∧ Q e.

Definition parses (p : parser PE) st : Prop := pspec p (advanced st pe_ok) st.

Lemma node_depth_ok d d' : node_depth d = Ok d' → d' = S d ∧ d' ≤ MAX_EXPRESSION_DEPTH.
Proof. unfold node_depth. case_match; [done|]. intros [= <-]. bool_to_prop. lia. Qed.

Lemma pe_leaf_ok (x : Expr num) : expr_depth x = 1 → pe_ok (pe_leaf x).
Proof. unfold pe_ok, pe_leaf. simpl. intros ->. unfold MAX_EXPRESSION_DEPTH. lia. Qed.

Lemma pe_binary_ok op l r e : pe_ok l → pe_ok r → pe_binary op l r = Ok e → pe_ok e.
Proof.
  intros [Hl _] [Hr _] (d & Hd & [= <-])%bind_Ok. apply node_depth_ok in Hd as [-> Hle].
  split; simpl; congruence.
Qed.

Lemma pe_index_ok b k e : pe_ok b → pe_ok k → pe_index b k = Ok e → pe_ok e.
Proof.
  intros [Hb _] [Hk _] (d & Hd & [= <-])%bind_Ok. apply node_depth_ok in Hd as [-> Hle].
  split; simpl; congruence.
Qed.

Lemma push_path_segment_ok b s e : pe_ok b → push_path_segment b s = Ok e → pe_ok e.
Proof.
  intros [Hb Hle]. unfold push_path_segment.
  destruct (pe_expr b) eqn:Hexpr;
    try (intros [= <-]; by split; simpl in *);
    intros (d & Hd & [= <-])%bind_Ok; apply node_depth_ok in Hd as [-> Hle'];
    split; simpl in *; congruence.
Qed.

Lemma bracket_literal_spec st :
  pspec (bracket_literal tokens)
    (λ _ st', index st ≤ index st' ∧ depth st' = depth st) st.
Proof.
  apply pspec_bind. red. simpl.
  destruct (current_at tokens (index st)); try (apply pspec_ret; lia);
    try (apply pspec_bind, pspec_ret; simpl; lia).
  destruct (tokens !! S (index st)) as [[]|]; try (apply pspec_ret; lia).
  apply pspec_bind, pspec_ret; simpl; lia.
Qed.

(** Fuel for a loop over the tokens from the cursor on. *)
Definition enough (fuel : nat) st : Prop := 0 < fuel ∧ length tokens < fuel + index st.

Lemma enough_loop_fuel st : enough (loop_fuel tokens) st.
Proof. unfold enough, loop_fuel. lia. Qed.

Lemma enough_next fuel st st' :
  enough (S fuel) st → current_at tokens (index st) ≠ TEnd → index st < index st' →
  enough fuel st'.
Proof. unfold enough. intros [_ Hf] Hc%current_at_lt. lia. Qed.

#[local] Hint Resolve pe_binary_ok pe_index_ok push_path_segment_ok enough_loop_fuel : preloop.

(** One step of a parser under [pspec]. *)
Ltac pstep :=
  lazymatch goal with
  | |- pspec (_ ≫= _) _ _ => apply pspec_bind
  | |- pspec (mret _) _ _ => apply pspec_ret
  | |- pspec (p_lift _) _ _ => apply pspec_lift; intros ? ?
  | |- pspec (current _) _ _ => apply pspec_current; intros ? ?
  | |- pspec (expect _ _) _ _ => apply pspec_expect
  | |- pspec advance ?Q ?st => change (Q tt (mkPstate (S (index st)) (depth st))); cbv beta
  | |- pspec leave ?Q ?st => change (Q tt (mkPstate (index st) (pred (depth st)))); cbv beta
  end.

Lemma pspec_parses (p : parser PE) st st' (Q : PE → Prop) :
  parses p st' → index st ≤ index st' → depth st' = depth st → (∀ e, pe_ok e → Q e) →
  pspec p (advanced st Q) st'.
Proof.
  intros Hp Hi Hd HQ. eapply pspec_mono; [exact Hp|]. unfold advanced.
  intros e st'' (? & ? & ?). split_and!; [lia|congruence|auto].
Qed.

Lemma binop_loop_spec ops operand fuel e st :
  (∀ t, ops t ≠ None → t ≠ TEnd) →
  (∀ st', depth st' = depth st → parses operand st') →
  enough fuel st → pe_ok e → parses (binop_loop tokens ops operand fuel e) st.
Proof.
  intros Hops Hoperand. revert e st Hoperand.
  induction fuel as [|fuel IH]; intros e st Hoperand Hfuel He; [by destruct Hfuel; lia|].
  cbn [binop_loop]. unfold parses. pstep. pstep. subst.
  destruct (ops (current_at tokens (index st))) as [op|] eqn:Hop; [|pstep; done].
  do 2 pstep. pstep. eapply pspec_mono; [by apply Hoperand|].
  intros r st' (Hi & Hd & Hr). simpl in *. do 2 pstep.
  apply pspec_parses; [|lia|congruence|done].
  apply IH; eauto with preloop.
  - intros st'' Hd''. apply Hoperand. congruence.
  - eapply enough_next; [done| |lia]. apply Hops. by rewrite Hop.
Qed.

Lemma parse_binop_spec ops operand st :
  (∀ t, ops t ≠ None → t ≠ TEnd) →
  (∀ st', depth st' = depth st → parses operand st') →
  parses (parse_binop tokens ops operand) st.
Proof.
  intros Hops Hoperand. unfold parses, parse_binop. pstep.
  eapply pspec_mono; [by apply Hoperand|]. intros e st' (Hi & Hd & He).
  apply pspec_parses; [|done..]. apply binop_loop_spec; auto with preloop.
  intros st'' Hd''. apply Hoperand. congruence.
Qed.

Section open_recursion.
Variable tracked : parser PE.
Abbreviation tracked_at d := (∀ st', depth st' = d → parses tracked st').

Lemma path_loop_spec fuel e st :
  tracked_at (depth st) → enough fuel st → pe_ok e →
  parses (path_loop tokens tracked fuel e) st.
Proof.
  intros Htr. revert e st Htr.
  induction fuel as [|fuel IH]; intros e st Htr Hfuel He; [by destruct Hfuel; lia|].
  cbn [path_loop]. unfold parses. pstep. pstep. subst.
  assert (∀ e' st', pe_ok e' → current_at tokens (index st) ≠ TEnd →
    index st < index st' → depth st' = depth st →
    pspec (path_loop tokens tracked fuel e') (advanced st pe_ok) st') as Hnext.
  { intros e' st' He' Hc Hi Hd. apply pspec_parses; [|lia|done..].
    apply IH; [by rewrite Hd|by eapply enough_next|done]. }
  destruct (current_at tokens (index st)) eqn:Hcur; try (pstep; done).
  - do 4 pstep. destruct t; repeat pstep; try done.
    all: apply Hnext; simpl; eauto with preloop; lia.
  - do 3 pstep. eapply pspec_mono; [apply bracket_literal_spec|].
    intros [seg|] st' [Hi Hd]; simpl in *; repeat pstep.
    + apply Hnext; simpl; eauto with preloop; lia.
    + eapply pspec_mono; [by apply Htr|]. intros k st'' (Hi' & Hd' & Hk).
      repeat pstep. apply Hnext; simpl; eauto with preloop; lia.
Qed.

Lemma parse_member_suffix_spec fuel e st :
  tracked_at (depth st) → enough fuel st → pe_ok e →
  parses (parse_member_suffix tokens tracked fuel e) st.
Proof.
  intros Htr. revert e st Htr.
  induction fuel as [|fuel IH]; intros e st Htr Hfuel He; [by destruct Hfuel; lia|].
  cbn [parse_member_suffix]. unfold parses. pstep. pstep. subst.
  assert (∀ e' st', pe_ok e' → current_at tokens (index st) ≠ TEnd →
    index st < index st' → depth st' = depth st →
    pspec (parse_member_suffix tokens tracked fuel e') (advanced st pe_ok) st') as Hnext.
  { intros e' st' He' Hc Hi Hd. apply pspec_parses; [|lia|done..].
    apply IH; [by rewrite Hd|by eapply enough_next|done]. }
  assert (∀ st', index st ≤ index st' → depth st' = depth st →
    advanced st pe_ok e st') as Hdone by done.
  destruct (current_at tokens (index st)) eqn:Hcur; try (pstep; by apply Hdone).
  - do 4 pstep. destruct t; repeat pstep; try (apply Hdone; simpl; lia).
    all: apply Hnext; simpl; eauto with preloop; lia.
  - do 3 pstep. eapply pspec_mono; [apply bracket_literal_spec|].
    intros [seg|] st' [Hi Hd]; simpl in *; pstep; apply pspec_try.
    + repeat pstep. apply Hnext; simpl; eauto with preloop; lia.
    + intros _. pstep. apply Hdone; simpl; lia.
    + pstep. eapply pspec_mono; [by apply Htr|]. intros k st'' (Hi' & Hd' & Hk).
      repeat pstep. apply Hnext; simpl; eauto with preloop; lia.
    + intros []; repeat pstep; try (apply Hdone; simpl; lia); done.
Qed.

Definition args_depth (args : list (Expr num)) : nat := foldr (λ a d, expr_depth a `max` d) 0 args.

Lemma args_depth_snoc args a : args_depth (args ++ [a]) = args_depth args `max` expr_depth a.
Proof. unfold args_depth. induction args as [|b args IH]; simpl; [lia|]. rewrite IH. lia. Qed.

Lemma args_loop_spec fuel args d st :
  tracked_at (depth st) → enough fuel st → d = args_depth args →
  pspec (args_loop tokens tracked fuel args d)
    (λ ad st', index st ≤ index st' ∧ depth st' = depth st ∧ ad.2 = args_depth ad.1) st.
Proof.
  intros Htr. revert args d st Htr.
  induction fuel as [|fuel IH]; intros args d st Htr Hfuel Hd; [by destruct Hfuel; lia|].
  cbn [args_loop]. pstep. eapply pspec_mono; [by apply Htr|].
  intros a st' (Hi & Hdep & Ha & _). pstep. pstep. subst.
  assert (args_depth args `max` pe_depth a = args_depth (args ++ [pe_expr a])) as Heq
    by (rewrite args_depth_snoc; lia).
  destruct (current_at tokens (index st')) eqn:Hcur; try (pstep; simpl; split_and!; [lia|done..]).
  do 2 pstep. eapply pspec_mono; [apply IH|]; simpl.
  - by rewrite Hdep.
  - destruct Hfuel as [_ Hfuel]. split; simpl.
    all: pose proof (current_at_lt (index st')) as Hlt; rewrite Hcur in Hlt;
      specialize (Hlt ltac:(done)); lia.
  - done.
  - simpl. intros ad st'' (? & ? & ?). split_and!; [lia|congruence|done].
Qed.

Lemma parse_ident_or_call_spec name st :
  tracked_at (depth st) → parses (parse_ident_or_call tokens tracked name) st.
Proof.
  intros Htr. unfold parses, parse_ident_or_call. do 4 pstep. cbn [index depth] in *.
  assert (pspec (path_loop tokens tracked (loop_fuel tokens) (pe_leaf (Path [name])))
    (advanced st pe_ok) (mkPstate (S (index st)) (depth st))) as Hpath.
  { apply pspec_parses; [|simpl; lia|done..].
    apply path_loop_spec; auto using pe_leaf_ok with preloop. }
  destruct t; try exact Hpath. clear Hpath.
  do 5 pstep. subst. cbn [index depth].
  eapply (pspec_mono _ (λ ad st', index st ≤ index st' ∧ depth st' = depth st ∧
                                  ad.2 = args_depth ad.1)).
  - destruct (current_at tokens (S (S (index st)))); try (pstep; simpl; lia);
      (eapply pspec_mono; [apply args_loop_spec; auto with preloop|];
       simpl; intros ? ? (? & ? & ?); split_and!; [lia|done..]).
  - intros [args d] st' (Hi & Hd & Had). simpl in Had. repeat pstep.
    apply pspec_parses; [|simpl; lia|done..]. apply parse_member_suffix_spec.
    + simpl. by rewrite Hd.
    + auto with preloop.
    + match goal with Hn : node_depth _ = Ok _ |- _ => apply node_depth_ok in Hn as [-> ?] end.
      split; simpl; [|done]. by rewrite Had.
Qed.

Lemma parse_primary_spec st : tracked_at (depth st) → parses (parse_primary tokens tracked) st.
Proof.
  intros Htr. unfold parses, parse_primary. pstep. pstep. subst.
  assert (∀ x, expr_depth x = 1 →
    advanced st pe_ok (pe_leaf x) (mkPstate (S (index st)) (depth st))) as Hleaf.
  { intros x Hx. split_and!; simpl; [lia|done|by apply pe_leaf_ok]. }
  destruct (current_at tokens (index st)) eqn:Hcur; repeat pstep; try done;
    try (apply Hleaf; simpl; repeat case_match; done).
  - by apply parse_ident_or_call_spec.
  - eapply pspec_mono; [by apply Htr|]. intros e st' (Hi & Hd & He). simpl in *.
    repeat pstep. split_and!; simpl; [lia|done..].
Qed.

Lemma parse_unary_spec fuel st :
  (∀ st', depth st ≤ depth st' → depth st' ≤ MAX_EXPRESSION_DEPTH → parses tracked st') →
  depth st ≤ MAX_EXPRESSION_DEPTH → MAX_EXPRESSION_DEPTH < fuel + depth st →
  parses (parse_unary tokens tracked fuel) st.
Proof.
  revert st. induction fuel as [|fuel IH]; intros st Htr Hle Hfuel; [lia|].
  cbn [parse_unary]. unfold parses. pstep. pstep. subst.
  assert (parses (parse_primary tokens tracked) st) as Hprim.
  { apply parse_primary_spec. intros st' Hd. apply Htr; lia. }
  destruct (current_at tokens (index st)) eqn:Hcur; try exact Hprim.
  do 3 pstep. apply pspec_enter. simpl. intros Hlt. pstep.
  eapply pspec_mono; [apply IH; simpl; [|lia..]|].
  - intros st' ? ?. apply Htr; lia.
  - intros e st' (Hi & Hd & He & _). simpl in *. repeat pstep.
    match goal with Hn : node_depth _ = Ok _ |- _ => apply node_depth_ok in Hn as [-> ?] end.
    split_and!; simpl; [lia|rewrite Hd; done|split; simpl; congruence].
Qed.

Lemma parse_or_spec st :
  (∀ st', depth st ≤ depth st' → depth st' ≤ MAX_EXPRESSION_DEPTH → parses tracked st') →
  depth st ≤ MAX_EXPRESSION_DEPTH → parses (parse_or tokens tracked) st.
Proof.
  intros Htr Hle.
  repeat (apply parse_binop_spec; [by intros []|intros ? ?]).
  apply parse_unary_spec; [|lia..]. intros ? ?. apply Htr. lia.
Qed.

End open_recursion.

Lemma parse_tracked_expr_spec fuel st :
  depth st ≤ MAX_EXPRESSION_DEPTH → MAX_EXPRESSION_DEPTH < fuel + depth st →
  parses (parse_tracked_expr tokens fuel) st.
Proof.
  revert st. induction fuel as [|fuel IH]; intros st Hle Hfuel; [lia|].
  cbn [parse_tracked_expr]. unfold parses. pstep. apply pspec_enter. intros Hlt. pstep.
  eapply pspec_mono; [apply parse_or_spec; simpl; [|lia]|].
  - intros st' ? ?. apply IH; lia.
  - intros e st' (Hi & Hd & He). simpl in *. repeat pstep.
    split_and!; simpl; [lia|by rewrite Hd|done].
Qed.

Lemma parse_tokens_spec :
  match parse_tokens tokens with
  | None => False
  | Some (Err _) => True
  | Some (Ok x) => expr_depth x ≤ MAX_EXPRESSION_DEPTH
  end.
Proof.
  assert (pspec (x ← parse_expr tokens; _ ← expect_end tokens; mret x)
    (λ x _, expr_depth x ≤ MAX_EXPRESSION_DEPTH) (mkPstate 0 0)) as Hspec.
  { unfold parse_expr. do 2 pstep.
    eapply pspec_mono; [apply parse_tracked_expr_spec; cbn [depth]; lia|].
    intros pe st (_ & _ & Hpe & Hle). pstep. unfold expect_end. do 3 pstep.
    destruct t; repeat pstep; try done. lia. }
  unfold pspec, parse_tokens in *. revert Hspec.
  generalize ((x ← parse_expr tokens; _ ← expect_end tokens; mret x) (mkPstate 0 0)).
  by intros [[[x st]|err]|].
Qed.

End parser_proofs.


(** ** Properties *)

(** Every expression the parser accepts is at most [MAX_EXPRESSION_DEPTH]
    levels deep, a leaf being one level and every other node one more than its
    deepest child, whatever the token sequence. *)
Theorem parse_depth_bound {num} `{NumberOps num} tokens (e : Expr num) :
  parse_tokens tokens = Some (Ok e) → expr_depth e ≤ MAX_EXPRESSION_DEPTH.
Proof. intros Hp. pose proof (parse_tokens_spec tokens) as Hs. by rewrite Hp in Hs. Qed.

Lemma parse_depth_bound_witness :
  expr_depth (num:=Z) (UnaryNot (Path ["a"; "b"])) ≤ MAX_EXPRESSION_DEPTH.
Proof.
  apply (parse_depth_bound [TBang; TIdent "a"; TDot; TIdent "b"; TEnd]).
  vm_compute. reflexivity.
Defined.

(** The parser terminates on every token sequence: one loop iteration per
    token and one recursion level per unit of [MAX_EXPRESSION_DEPTH] are
    always enough, so it returns a tree or an error. *)
Theorem parse_total {num} `{NumberOps num} tokens :
  ∃ r, parse_tokens (num:=num) tokens = Some r.
Proof.
  pose proof (parse_tokens_spec (num:=num) tokens) as Hs.
  destruct (parse_tokens tokens) as [r|]; [by exists r|done].
Qed.
