(* ===== verification/ExprText.v ===== *)
(** * Text and number conversions of the expression evaluator

    The helpers of [crates/preloop-gha-expressions/src/evaluator.rs] that do
    not recurse over expressions: ordinal case-insensitive comparison,
    number parsing, the string form of a value and the capped writer, and
    [is_truthy] of [conditions.rs].

    [char::to_uppercase] is the Unicode table of the Rust standard library;
    the class [UnicodeCase] stands for it, with the one fact the code's ASCII
    fast paths rely on. *)
From S2P Require Export Lexer.

Class UnicodeCase := {
  to_uppercase : char → list char;
  to_uppercase_ascii c : (c < 128)%N → to_uppercase c = [upper_byte c];
}.

(** An instance for concrete examples: ASCII only. *)
#[export, refine] Instance ascii_case : UnicodeCase := {
  to_uppercase c := [if (c <? 128)%N then upper_byte c else c];
}.
Proof. intros c Hc. by rewrite (proj2 (N.ltb_lt _ _) Hc). Defined.

(** ** Ordinal comparison ignoring case *)
Section case_insensitive.
Context `{UnicodeCase}.

(** The upper case of a character when it is a single character. *)
Definition to_simple_upper (c : char) : char :=
  match to_uppercase c with [mapped] => mapped | _ => c end.

(** Lexicographic order of sequences of code points or bytes. *)
Fixpoint list_cmp (l r : list N) : comparison :=
  match l, r with
  | [], [] => Eq
  | _ :: _, [] => Gt
  | [], _ :: _ => Lt
  | a :: l, b :: r => match (a ?= b)%N with Eq => list_cmp l r | o => o end
  end.

Definition compare_ordinal_ignore_case (left right : string) : comparison :=
  if is_ascii left && is_ascii right
  then list_cmp (Utf8.bytes (to_ascii_uppercase left)) (Utf8.bytes (to_ascii_uppercase right))
  else list_cmp (to_simple_upper <$> chars left) (to_simple_upper <$> chars right).

Definition eq_ordinal_ignore_case (left right : string) : bool :=
  match compare_ordinal_ignore_case left right with Eq => true | _ => false end.

(** Every element of [needle] equals the next one of [haystack]. *)
Fixpoint consumes (needle haystack : list N) : bool :=
  match needle, haystack with
  | [], _ => true
  | n :: needle, h :: haystack => (h =? n)%N && consumes needle haystack
  | _ :: _, [] => false
  end.

Definition byte_eq_ignore_case (a b : N) : bool := (lower_byte a =? lower_byte b)%N.

(** The ASCII branches: [haystack] is long enough and the zipped bytes agree. *)
Definition zip_all (haystack needle : list N) : bool :=
  (length needle <=? length haystack) &&
  forallb (λ '(h, n), byte_eq_ignore_case h n) (zip haystack needle).

Definition starts_with_ordinal_ignore_case (haystack needle : string) : bool :=
  if str_eqb needle "" then true
  else if is_ascii haystack && is_ascii needle
  then zip_all (Utf8.bytes haystack) (Utf8.bytes needle)
  else consumes (to_simple_upper <$> chars needle) (to_simple_upper <$> chars haystack).

Definition ends_with_ordinal_ignore_case (haystack needle : string) : bool :=
  if str_eqb needle "" then true
  else if is_ascii haystack && is_ascii needle
  then
    let h := Utf8.bytes haystack in let n := Utf8.bytes needle in
    (length n <=? length h) && zip_all (drop (length h - length n) h) n
  else consumes (to_simple_upper <$> reverse (chars needle))
                (to_simple_upper <$> reverse (chars haystack)).

(** [haystack.windows(n).any(..)]: some contiguous run equals [needle]. *)
Fixpoint any_window (needle haystack : list N) : bool :=
  consumes needle haystack ||
  match haystack with [] => false | _ :: r => any_window needle r end.

Definition contains_ordinal_ignore_case (haystack needle : string) : bool :=
  if str_eqb needle "" then true
  else if is_ascii haystack && is_ascii needle
  then str_contains (to_ascii_uppercase needle) (to_ascii_uppercase haystack)
  else any_window (to_simple_upper <$> chars needle) (to_simple_upper <$> chars haystack).

End case_insensitive.

(** ** Numbers from text *)

Definition f64_nan : f64 := S754_nan.
Definition f64_infinity (neg : bool) : f64 := S754_infinity neg.

(** The value of one digit character in a radix up to 16. *)
Definition to_digit (radix : N) (c : char) : option N :=
  let v :=
    if is_ascii_digit c then Some (c - ch "0")%N
    else if in_range "a" "f" c then Some (c - ch "a" + 10)%N
    else if in_range "A" "F" c then Some (c - ch "A" + 10)%N
    else None in
  d ← v; if (d <? radix)%N then Some d else None.

Fixpoint digits_value (radix acc : N) (cs : list char) : option N :=
  match cs with
  | [] => Some acc
  | c :: r => d ← to_digit radix c; digits_value radix (acc * radix + d) r
  end.

Definition unsigned_value (radix : N) (cs : list char) : option N :=
  match cs with [] => None | _ => digits_value radix 0 cs end.

(** [i32::from_str_radix]: an optional sign, at least one digit, in range. *)
Definition i32_from_str_radix (s : string) (radix : N) : option Z :=
  let in_i32 z := if ((- 2 ^ 31 <=? z) && (z <? 2 ^ 31))%Z then Some z else None in
  match chars s with
  | c :: r =>
      if (c =? ch "-")%N then n ← unsigned_value radix r; in_i32 (- Z.of_N n)%Z
      else if (c =? ch "+")%N then n ← unsigned_value radix r; in_i32 (Z.of_N n)
      else n ← unsigned_value radix (c :: r); in_i32 (Z.of_N n)
  | [] => None
  end.

(** [str::parse::<usize>] and [str::parse::<u8>]. *)
Definition parse_unsigned (bits : N) (s : string) : option N :=
  let digits := match chars s with
                | c :: r => if (c =? ch "+")%N then r else c :: r
                | [] => []
                end in
  n ← unsigned_value 10 digits; if (n <? 2 ^ bits)%N then Some n else None.
Definition parse_usize : string → option N := parse_unsigned 64.

(** ** Decimal numbers print and parse back *)

Lemma digits_value_app radix acc xs ys :
  digits_value radix acc (xs ++ ys) = digits_value radix acc xs ≫= λ v, digits_value radix v ys.
Proof.
  revert acc. induction xs as [|x xs IH]; intros acc; simpl; [done|].
  destruct (to_digit radix x); simpl; [apply IH|done].
Qed.

Definition is_digit_string (s : string) : Prop := Forall (λ c, is_ascii_digit c = true) (Utf8.bytes s).

Lemma pretty_N_char_digit x : (x < 10)%N → N_of_ascii (pretty_N_char x) = (48 + x)%N.
Proof.
  intros Hx.
  assert (x = 0 ∨ x = 1 ∨ x = 2 ∨ x = 3 ∨ x = 4 ∨ x = 5 ∨ x = 6 ∨ x = 7 ∨ x = 8 ∨ x = 9)%N as Hor by lia.
  by destruct_or! Hor; subst.
Qed.

Lemma pretty_go_digits k x s :
  (x < 10 ^ N.of_nat k)%N →
  ∃ d, pretty_N_go x s = d +:+ s ∧ String.length d <= k ∧ is_digit_string d ∧
       digits_value 10 0 (Utf8.bytes d) = Some x.
Proof.
  revert x s. induction k as [|k IH]; intros x s Hx.
  { replace x with 0%N by (simpl in Hx; lia). exists "". rewrite pretty_N_go_0. by repeat constructor. }
  destruct (decide (x = 0)%N) as [->|Hne].
  { exists "". rewrite pretty_N_go_0. repeat constructor. simpl. lia. }
  rewrite pretty_N_go_step by lia. rewrite Nat2N.inj_succ, N.pow_succ_r' in Hx.
  destruct (IH (x / 10)%N (String (pretty_N_char (x mod 10)) s)) as (d & -> & Hlen & Hd & Hv).
  { apply N.Div0.div_lt_upper_bound. lia. }
  pose proof (N.mod_lt x 10 ltac:(lia)) as Hm.
  exists (d +:+ String (pretty_N_char (x mod 10)) ""). split_and!.
  - by rewrite <-app_assoc_string.
  - rewrite length_string_app. simpl. lia.
  - unfold is_digit_string. rewrite bytes_app. apply Forall_app. split; [done|].
    constructor; [|done]. rewrite pretty_N_char_digit by done. unfold is_ascii_digit, in_range. eval_ch. lia.
  - rewrite bytes_app, digits_value_app, Hv. simpl. rewrite pretty_N_char_digit by done.
    unfold to_digit, is_ascii_digit, in_range. eval_ch.
    replace ((48 <=? 48 + x mod 10) && (48 + x mod 10 <=? 57))%N with true by lia. simpl.
    replace (48 + x mod 10 - 48)%N with (x mod 10)%N by lia.
    rewrite (proj2 (N.ltb_lt _ _)) by done. simpl. f_equal. rewrite N.mul_comm. symmetry. by apply N.Div0.div_mod.
Qed.

Lemma pretty_N_digits k (x : N) :
  (x < 10 ^ N.of_nat k)%N → k ≠ 0 →
  String.length (pretty x) <= k ∧ is_digit_string (pretty x) ∧
  digits_value 10 0 (Utf8.bytes (pretty x)) = Some x ∧ pretty x ≠ "".
Proof.
  intros Hx Hk. unfold pretty, pretty_N. case_decide as H0.
  { subst. split_and!; [simpl; lia|repeat constructor|done|done]. }
  destruct (pretty_go_digits k x "" Hx) as (d & -> & Hl & Hd & Hv). rewrite app_empty_r.
  split_and!; [done..|]. intros ->. simpl in Hv. congruence.
Qed.

Lemma digit_string_ascii s : is_digit_string s → is_ascii s = true.
Proof.
  intros Hs. apply forallb_forall. intros b Hb%list_elem_of_In. apply N.ltb_lt.
  unfold is_digit_string in Hs. rewrite Forall_forall in Hs. apply Hs in Hb. unfold is_ascii_digit, in_range in Hb.
  revert Hb. eval_ch. lia.
Qed.

Lemma parse_unsigned_pretty bits (x : N) :
  (x < 2 ^ bits)%N → (bits <= 64)%N → parse_unsigned bits (pretty x) = Some x.
Proof.
  intros Hx Hb. assert (x < 10 ^ N.of_nat 20)%N as Hx'.
  { apply (N.lt_le_trans _ (2 ^ bits)); [done|]. transitivity (2 ^ 64)%N; [by apply N.pow_le_mono_r|apply N.leb_le; by vm_compute]. }
  destruct (pretty_N_digits 20 x Hx') as (_ & Hd & Hv & Hne); [done|].
  unfold parse_unsigned. rewrite ascii_chars by by apply digit_string_ascii. unfold is_digit_string in Hd.
  destruct (Utf8.bytes (pretty x)) as [|c r] eqn:Hbs.
  { destruct (pretty x); [done|discriminate Hbs]. }
  inversion Hd as [|? ? Hc _]; subst. assert ((c =? ch "+")%N = false) as ->.
  { revert Hc. unfold is_ascii_digit, in_range. eval_ch. lia. }
  unfold unsigned_value. rewrite Hv. simpl. by rewrite (proj2 (N.ltb_lt _ _)).
Qed.

(** Reading of [is_decimal_number]: a sign, then a run of digits. *)
Definition skip_sign (bs : list N) : list N :=
  match bs with
  | b :: r => if (b =? ch "+")%N || (b =? ch "-")%N then r else bs
  | [] => []
  end.

Definition is_exponent_mark (b : N) : bool := (b =? ch "e")%N || (b =? ch "E")%N.

Definition is_decimal_number (value : string) : bool :=
  let bs := skip_sign (Utf8.bytes value) in
  let '(int, bs) := take_while is_ascii_digit bs in
  let '(frac, bs) :=
    match bs with
    | b :: r => if (b =? ch ".")%N then take_while is_ascii_digit r else ([], bs)
    | [] => ([], [])
    end in
  if length int + length frac =? 0 then false
  else
    match bs with
    | b :: r =>
        if is_exponent_mark b then
          let '(exponent, rest) := take_while is_ascii_digit (skip_sign r) in
          if length exponent =? 0 then false else bool_decide (rest = [])
        else false
    | [] => true
    end.

(** The binary64 nearest to [m * 10 ^ e10], ties to even. *)
Definition f64_of_decimal (neg : bool) (m : N) (e10 : Z) : f64 :=
  match m with
  | N0 => S754_zero neg
  | Npos p =>
      if (0 <=? e10)%Z
      then match (Zpos p * 10 ^ e10)%Z with
           | Zpos q => binary_round f64_prec f64_emax neg q 0
           | _ => S754_zero neg
           end
      else
        let '(q, e, l) := SFdiv_core_binary f64_prec f64_emax (Zpos p) 0 (10 ^ (- e10)) 0 in
        match q with
        | Zpos q => binary_round_aux f64_prec f64_emax neg (Zpos q) e l
        | _ => binary_round_aux f64_prec f64_emax neg 0 e l
        end
  end.

Definition decimal_value (bs : list N) : N :=
  foldl (λ acc b, (acc * 10 + (b - ch "0"))%N) 0%N bs.

(** [str::parse::<f64>] on the texts [is_decimal_number] accepts. *)
Definition parse_f64 (value : string) : f64 :=
  let all := Utf8.bytes value in
  let neg := match all with b :: _ => (b =? ch "-")%N | [] => false end in
  let '(int, bs) := take_while is_ascii_digit (skip_sign all) in
  let '(frac, bs) :=
    match bs with
    | b :: r => if (b =? ch ".")%N then take_while is_ascii_digit r else ([], bs)
    | [] => ([], [])
    end in
  let e :=
    match bs with
    | _ :: r =>
        let v := Z.of_N (decimal_value (take_while is_ascii_digit (skip_sign r)).1) in
        match r with b :: _ => if (b =? ch "-")%N then (- v)%Z else v | [] => v end
    | [] => 0%Z
    end in
  f64_of_decimal neg (decimal_value (int ++ frac)) (e - Z.of_nat (length frac)).

Definition parse_number (value : string) : f64 :=
  let value := trim value in
  if str_eqb value "" then f64_zero
  else if str_eqb value "Infinity" then f64_infinity false
  else if str_eqb value "-Infinity" then f64_infinity true
  else
    match strip_prefix "0x" value with
    | Some hex => match i32_from_str_radix hex 16 with Some z => f64_of_Z z | None => f64_nan end
    | None =>
        match strip_prefix "0o" value with
        | Some octal =>
            match i32_from_str_radix octal 8 with Some z => f64_of_Z z | None => f64_nan end
        | None => if is_decimal_number value then parse_f64 value else f64_nan
        end
    end.

(** ** Values as truth, numbers and text *)

(** [f.fract() == 0.0]. *)
Definition f64_fract_zero (x : f64) : bool :=
  match x with
  | S754_zero _ => true
  | S754_finite _ m e => if (0 <=? e)%Z then true else (Zpos m mod 2 ^ (- e) =? 0)%Z
  | _ => false
  end.

(** [f as i64] for a float whose magnitude is below 2^63. *)
Definition f64_trunc (x : f64) : Z :=
  match x with
  | S754_finite s m e =>
      let a := if (0 <=? e)%Z then (Zpos m * 2 ^ e)%Z else (Zpos m / 2 ^ (- e))%Z in
      if s then (- a)%Z else a
  | _ => 0%Z
  end.

Definition f64_abs_lt_1e15 (x : f64) : bool := SFltb (SFabs x) (f64_of_Z (10 ^ 15)).

Section values.
Context {num : Type} `{NumberOps num, JsonCodec num, UnicodeCase}.
Implicit Types (v : value num).

Definition is_truthy v : bool :=
  match v with
  | JNull => false
  | JBool b => b
  | JNumber n =>
      match as_f64 n with
      | Some f => negb (f64_eqb f f64_zero) && negb (f64_is_nan f)
      | None => false
      end
  | JString s => negb (str_eqb s "")
  | JArray _ | JObject _ => true
  end.

Definition numeric_value v : option f64 :=
  match v with
  | JNumber n => as_f64 n
  | JString s => Some (parse_number s)
  | JBool true => Some (f64_of_Z 1)
  | JBool false | JNull => Some f64_zero
  | _ => None
  end.

Definition number_string (n : num) : string :=
  match as_i64 n with
  | Some i => Z_to_string i
  | None =>
      match as_u64 n with
      | Some u => Z_to_string u
      | None =>
          match as_f64 n with
          | Some f =>
              if f64_fract_zero f && f64_abs_lt_1e15 f then Z_to_string (f64_trunc f)
              else num_to_string n
          | None => num_to_string n
          end
      end
  end.

Definition string_value v : string :=
  match v with
  | JNull => ""
  | JBool true => "true"
  | JBool false => "false"
  | JNumber n => number_string n
  | JString s => s
  | other => json_to_string other
  end.

(** [std::ptr::eq] compares the addresses of two values.  The evaluator only
    compares operands it owns separately, so the addresses differ. *)
Definition abstract_equal (left right : value num) : bool :=
  match left, right with
  | JNull, JNull => true
  | JBool l, JBool r => Bool.eqb l r
  | JNumber l, JNumber r =>
      match as_f64 l, as_f64 r with
      | Some l, Some r => f64_eqb l r
      | None, None => true
      | _, _ => false
      end
  | JString l, JString r => eq_ordinal_ignore_case l r
  | (JArray _ | JObject _), _ | _, (JArray _ | JObject _) => false
  | _, _ =>
      match numeric_value left, numeric_value right with
      | Some l, Some r => negb (f64_is_nan l) && negb (f64_is_nan r) && f64_eqb l r
      | _, _ => false
      end
  end.

Definition compare_values (left right : value num) (predicate : comparison → bool) : bool :=
  match left, right with
  | JString l, JString r => predicate (compare_ordinal_ignore_case l r)
  | _, _ =>
      match numeric_value left, numeric_value right with
      | Some l, Some r =>
          match f64_partial_cmp l r with Some o => predicate o | None => false end
      | _, _ => predicate (compare_ordinal_ignore_case (string_value left) (string_value right))
      end
  end.

Definition contains (haystack needle : value num) : bool :=
  match haystack with
  | JString s => contains_ordinal_ignore_case s (string_value needle)
  | JArray vs => existsb (λ v, abstract_equal v needle) vs
  | _ => false
  end.

Definition string_arg (values : list (value num)) (index : nat) : string :=
  match values !! index with Some v => string_value v | None => "" end.

Definition is_primitive v : bool :=
  match v with JNull | JBool _ | JNumber _ | JString _ => true | _ => false end.

(** ** Capped serialization *)

Definition len (s : string) : N := N.of_nat (String.length s).

(** [CappedJsonWriter::write] for each fragment the serializer writes: the
    bytes so far, or failure when a fragment does not fit the limit. *)
Fixpoint capped_write (limit : N) (bytes : string) (fragments : list string) : option string :=
  match fragments with
  | [] => Some bytes
  | f :: r =>
      if (limit - len bytes <? len f)%N then None else capped_write limit (bytes +:+ f) r
  end.

Definition string_value_bounded v (limit : N) (overflow : ExpressionError) :
    result ExpressionError string :=
  match v with
  | JString s => Ok s
  | JNull => Ok ""
  | JBool true => Ok "true"
  | JBool false => Ok "false"
  | JNumber n => Ok (string_value (JNumber n))
  | other => ok_or overflow (capped_write limit "" (json_writes other))
  end.

End values.
