(* ===== verification/JsonLenient.v ===== *)
(** * Lenient JSON for [fromJSON]

    [normalize_newtonsoft_json] and [from_json_lenient] of
    [crates/preloop-gha-expressions/src/evaluator.rs]: strict JSON first, then
    one retry on a text whose single-quoted strings, comments and trailing
    commas have been rewritten. *)
From S2P Require Export ExprText.

Section normalize.
Implicit Types (cs : list char).

Abbreviation quote := (ch "034").
Abbreviation backslash := (ch "092").
Abbreviation newline := (ch "010").

(** To the end of a line comment; the line ending stays. *)
Fixpoint skip_line cs : list char :=
  match cs with
  | c :: r => if (c =? newline)%N then cs else skip_line r
  | [] => []
  end.

(** Past the end of a block comment, unless it is not closed. *)
Fixpoint skip_block cs : option (list char) :=
  match cs with
  | c :: r =>
      match r with
      | c' :: r' => if (c =? ch "*")%N && (c' =? ch "/")%N then Some r' else skip_block r
      | [] => None
      end
  | [] => None
  end.

(** The closure [next_non_comment_character]; one unit of fuel per comment. *)
Fixpoint next_non_comment_character (fuel : nat) cs : option char :=
  match fuel with
  | 0 => None
  | S fuel =>
      match trim_start_chars cs with
      | c :: r =>
          if (c =? ch "/")%N then
            match r with
            | c' :: r' =>
                if (c' =? ch "/")%N then next_non_comment_character fuel (skip_line r')
                else if (c' =? ch "*")%N then
                  rest ← skip_block r'; next_non_comment_character fuel rest
                else Some c
            | [] => Some c
            end
          else Some c
      | [] => None
      end
  end.

(** The rest of a double-quoted string, copied verbatim. *)
Fixpoint copy_double (escaped : bool) cs : list char * list char :=
  match cs with
  | [] => ([], [])
  | c :: r =>
      if negb escaped && (c =? quote)%N then ([c], r)
      else
        let '(out, rest) := copy_double (negb escaped && (c =? backslash)%N) r in
        (c :: out, rest)
  end.

(** The rest of a single-quoted string, as the rest of a double-quoted one. *)
Fixpoint copy_single (escaped : bool) cs : list char * list char :=
  match cs with
  | [] => ([], [])
  | c :: r =>
      if escaped then
        let '(out, rest) := copy_single false r in
        ((if (c =? ch "'")%N then [c]
          else if (c =? quote)%N then [backslash; quote]
          else [backslash; c]) ++ out, rest)
      else if (c =? backslash)%N then copy_single true r
      else if (c =? ch "'")%N then ([quote], r)
      else
        let '(out, rest) := copy_single false r in
        ((if (c =? quote)%N then [backslash; quote] else [c]) ++ out, rest)
  end.

Definition is_opener (c : char) : bool := (c =? ch "{")%N || (c =? ch "[")%N.
Definition is_closer (c : char) : bool := (c =? ch "}")%N || (c =? ch "]")%N.
Definition closes (opener closer : char) : bool :=
  (opener =? ch "{")%N && (closer =? ch "}")%N || (opener =? ch "[")%N && (closer =? ch "]")%N.

(** [containers] is the stack of open brackets, innermost first; [prev] says
    whether the previous token ended a value; [changed] whether anything has
    been rewritten.  One unit of fuel per iteration of the [while] loop. *)
Fixpoint normalize_loop (fuel : nat) (containers : list char) (prev changed : bool)
    (out : list char) cs : option (list char * bool) :=
  match fuel, cs with
  | _, [] => Some (out, changed)
  | 0, _ => None
  | S fuel, c :: r =>
      if (c =? quote)%N then
        let '(copied, rest) := copy_double false r in
        normalize_loop fuel containers true changed (out ++ quote :: copied) rest
      else if (c =? ch "'")%N then
        let '(copied, rest) := copy_single false r in
        normalize_loop fuel containers true true (out ++ quote :: copied) rest
      else
        match (if (c =? ch "/")%N then head r else None) with
        | Some c' =>
            if (c' =? ch "/")%N then
              normalize_loop fuel containers prev true (out ++ [ch " "]) (skip_line (tail r))
            else if (c' =? ch "*")%N then
              rest ← skip_block (tail r);
              normalize_loop fuel containers prev true (out ++ [ch " "]) rest
            else normalize_loop fuel containers true changed (out ++ [c]) r
        | None =>
            if (c =? ch ",")%N then
              let trailing :=
                match head containers, next_non_comment_character (S (length r)) r with
                | Some opener, Some closer => closes opener closer
                | _, _ => false
                end in
              if prev && trailing then normalize_loop fuel containers prev true out r
              else normalize_loop fuel containers false changed (out ++ [c]) r
            else if is_opener c then
              normalize_loop fuel (c :: containers) false changed (out ++ [c]) r
            else if is_closer c then
              let containers' :=
                match containers with
                | o :: rest => if closes o c then rest else containers
                | [] => containers
                end in
              normalize_loop fuel containers' true changed (out ++ [c]) r
            else if (c =? ch ":")%N then
              normalize_loop fuel containers false changed (out ++ [c]) r
            else if is_whitespace c then
              normalize_loop fuel containers prev changed (out ++ [c]) r
            else normalize_loop fuel containers true changed (out ++ [c]) r
        end
  end.

Definition normalize_newtonsoft_json (input : string) : option string :=
  let cs := chars input in
  match normalize_loop (length cs) [] false false [] cs with
  | Some (out, changed) => if changed then Some (of_chars out) else None
  | None => None
  end.

(** ** The fuel is enough

    Every loop consumes its input, so any fuel of at least its length gives the
    same result. *)
Lemma skip_line_length cs : length (skip_line cs) <= length cs.
Proof. induction cs as [|c r IH]; simpl; [done|]. case_match; simpl; lia. Qed.

Lemma skip_block_length cs rest : skip_block cs = Some rest → length rest < length cs.
Proof.
  revert rest. induction cs as [|c r IH]; intros rest; simpl; [done|].
  destruct r as [|c' r']; [done|]. case_match.
  - intros [= <-]. simpl. lia.
  - intros Hr%IH. simpl in *. lia.
Qed.

Lemma copy_double_length escaped cs : length (copy_double escaped cs).2 <= length cs.
Proof.
  revert escaped. induction cs as [|c r IH]; intros escaped; simpl; [done|].
  case_match; simpl; [lia|].
  specialize (IH (negb escaped && (c =? backslash)%N)). destruct (copy_double _ r). simpl in *. lia.
Qed.

Lemma copy_single_length escaped cs : length (copy_single escaped cs).2 <= length cs.
Proof.
  revert escaped. induction cs as [|c r IH]; intros escaped; simpl; [done|].
  pose proof (IH true). pose proof (IH false).
  repeat case_match; simplify_eq/=; try lia; destruct (copy_single false r); simplify_eq/=; lia.
Qed.

Lemma trim_start_length cs : length (trim_start_chars cs) <= length cs.
Proof. induction cs as [|c r IH]; simpl; [done|]. case_match; simpl; lia. Qed.

Lemma next_non_comment_fuel n m cs :
  length cs < n → length cs < m → next_non_comment_character n cs = next_non_comment_character m cs.
Proof.
  revert m cs. induction n as [|n IH]; intros [|m] cs Hn Hm; simpl; [lia..|].
  pose proof (trim_start_length cs) as Ht. destruct (trim_start_chars cs) as [|c [|c' r']]; simpl in Ht; [done..|].
  destruct (c =? ch "/")%N; [|done]. destruct (c' =? ch "/")%N.
  - pose proof (skip_line_length r'). apply IH; lia.
  - destruct (c' =? ch "*")%N; [|done]. destruct (skip_block r') as [rest|] eqn:Hb; [|done]. simpl.
    apply skip_block_length in Hb. apply IH; lia.
Qed.

Lemma normalize_fuel n m containers prev changed out cs :
  length cs <= n → length cs <= m →
  normalize_loop n containers prev changed out cs = normalize_loop m containers prev changed out cs.
Proof.
  revert m containers prev changed out cs.
  induction n as [|n IH]; intros [|m] containers prev changed out [|c r] Hn Hm; simpl in *; try lia; [done..|].
  pose proof (copy_double_length false r). pose proof (copy_single_length false r).
  destruct (c =? quote)%N.
  { destruct (copy_double false r). simpl in *. apply IH; lia. }
  destruct (c =? ch "'")%N.
  { destruct (copy_single false r). simpl in *. apply IH; lia. }
  destruct (if (c =? ch "/")%N then head r else None) as [c'|].
  - pose proof (skip_line_length (tail r)). assert (length (tail r) <= length r) by (destruct r; simpl; lia).
    repeat case_match; try (apply IH; lia). destruct (skip_block (tail r)) as [rest|] eqn:Hb; [|done]. simpl.
    apply skip_block_length in Hb. apply IH; lia.
  - repeat case_match; apply IH; lia.
Qed.

End normalize.

Definition from_json_lenient {num} `{JsonCodec num} (input : string) : result string (value num) :=
  match json_from_str input with
  | Ok v => Ok v
  | Err strict_error =>
      match normalize_newtonsoft_json input with
      | Some normalized =>
          match json_from_str normalized with Ok v => Ok v | Err _ => Err strict_error end
      | None => Err strict_error
      end
  end.
