(* ===== verification/ExprEval.v ===== *)
(** * The expression evaluator

    [crates/preloop-gha-expressions/src/context.rs], the recursive part of
    [evaluator.rs] and the entry points of [lib.rs].  Evaluation threads the
    budget of temporary bytes and the recursion depth; errors end it, so no
    state follows an error.  [hashFiles()] reads the file system: it is the
    parameter [hash_files]. *)
From S2P Require Export JsonLenient ExprParser.

(** ** Contexts *)

Record Context (num : Type) : Type := mkContext {
  roots : gmap string (value num);
  success : bool;
  failure : bool;
  cancelled : bool;
  workspace_dir : option string;
}.
Arguments mkContext {num}.
Arguments roots {num}.
Arguments success {num}.
Arguments failure {num}.
Arguments cancelled {num}.
Arguments workspace_dir {num}.

Section context.
Context {num : Type}.
Implicit Types (c : Context num) (v : value num) (path : list string).

Definition context_default : Context num := mkContext ∅ true false false None.

Definition with_status c (s f x : bool) : Context num :=
  mkContext (roots c) s f x (workspace_dir c).

Definition with_workspace c (dir : string) : Context num :=
  mkContext (roots c) (success c) (failure c) (cancelled c) (Some dir).

Definition set_roots c (r : gmap string (value num)) : Context num :=
  mkContext r (success c) (failure c) (cancelled c) (workspace_dir c).

Definition context_insert c (key : string) v : Context num :=
  set_roots c (<[key := v]> (roots c)).

Definition merge_root c (key : string) (extra : value num) : Context num :=
  match roots c !! key with
  | Some (JObject base) =>
      let base := match extra with JObject m => imap_extend base m | _ => base end in
      set_roots c (<[key := JObject base]> (delete key (roots c)))
  | _ => set_roots c (<[key := extra]> (delete key (roots c)))
  end.

Definition nth_usize (i : N) (vs : list (value num)) : option (value num) :=
  if (i <? N.of_nat (length vs))%N then vs !! N.to_nat i else None.

(** One path segment applied to a value: the body of the loops of [resolve]
    and [resolve_value]. *)
Definition apply_segment (current : value num) (segment : string) : value num :=
  if str_eqb segment "*" then
    match current with
    | JObject m => JArray m.*2
    | JArray vs => JArray vs
    | _ => JNull
    end
  else
    match current with
    | JObject m => default JNull (imap_get segment m)
    | JArray vs =>
        JArray (omap (λ v,
          match v with
          | JObject m => imap_get segment m
          | JArray a => i ← parse_usize segment; nth_usize i a
          | _ => None
          end) vs)
    | _ => JNull
    end.

Definition resolve_value (current : value num) path : value num := foldl apply_segment current path.

Definition resolve c path : value num :=
  match path with
  | [] => JNull
  | first :: rest => resolve_value (default JNull (roots c !! first)) rest
  end.

Fixpoint resolve_ref_from (current : value num) path : option (value num) :=
  match path with
  | [] => Some current
  | segment :: rest =>
      if str_eqb segment "*" then None
      else m ← as_object current; v ← imap_get segment m; resolve_ref_from v rest
  end.

Definition resolve_ref c path : option (value num) :=
  match path with
  | [] => None
  | first :: rest => current ← roots c !! first; resolve_ref_from current rest
  end.

End context.

(** ** Function names and arities *)

Definition function_arity (name : string) : option (nat * nat) :=
  match name with
  | "always" | "cancelled" => Some (0, 0)
  | "success" | "failure" => Some (0, 255)
  | "contains" | "startswith" | "endswith" => Some (2, 2)
  | "format" => Some (1, 255)
  | "fromjson" | "tojson" => Some (1, 1)
  | "join" => Some (1, 2)
  | "hashfiles" => Some (1, 255)
  | "case" => Some (3, 255)
  | _ => None
  end.

Definition validate_function_arity (name : string) (actual : nat) : result ExpressionError unit :=
  let lower := to_ascii_lowercase name in
  match function_arity lower with
  | None => Err (UnknownFunction name)
  | Some (min, max) =>
      if str_eqb lower "case" && Nat.even actual then Err EvenCaseParameters
      else if negb ((min <=? actual) && (actual <=? max))
      then Err (InvalidFunctionArity name min max actual)
      else Ok tt
  end.

Fixpoint try_for_each {A E} (f : A → result E unit) (l : list A) : result E unit :=
  match l with
  | [] => Ok tt
  | a :: r => match f a with Ok _ => try_for_each f r | Err e => Err e end
  end.

Fixpoint validate_function_calls {num} (e : Expr num) : result ExpressionError unit :=
  match e with
  | Literal _ | Path _ => Ok tt
  | UnaryNot inner | MemberAccess inner _ => validate_function_calls inner
  | Index base key => _ ← validate_function_calls base; validate_function_calls key
  | Binary _ l r => _ ← validate_function_calls l; validate_function_calls r
  | Call name args =>
      _ ← validate_function_arity name (length args);
      try_for_each validate_function_calls args
  end.

(** ** The evaluation budget *)

Definition MAX_EVALUATED_VALUE_BYTES : N := 8 * 1024 * 1024.
Definition MAX_FORMAT_OUTPUT_BYTES : N := 1024 * 1024.
Definition usize_bound : N := 2 ^ 64.

Record EvalBudget : Type := mkBudget { used_bytes : N; eval_depth : nat }.

Definition remaining (b : EvalBudget) : N := (MAX_EVALUATED_VALUE_BYTES - used_bytes b)%N.

Fixpoint value_size {num} (v : value num) : N :=
  match v with
  | JNull => 16
  | JBool _ => 16
  | JNumber _ => 32
  | JString s => 24 + len s
  | JArray vs => 24 + foldr (λ v acc, 16 + value_size v + acc) 0 vs
  | JObject m => foldr (λ '(k, v) acc, 32 + len k + value_size v + acc) 0 m
  end%N.

Definition evaluation_too_large : ExpressionError := EvaluationTooLarge MAX_EVALUATED_VALUE_BYTES.

Definition charge {num} (b : EvalBudget) (v : value num) : result ExpressionError EvalBudget :=
  let used := (used_bytes b + value_size v)%N in
  if (usize_bound <=? used)%N then Err evaluation_too_large
  else if (MAX_EVALUATED_VALUE_BYTES <? used)%N then Err evaluation_too_large
  else Ok (mkBudget used (eval_depth b)).

(** ** Built-in functions *)
Section builtins.
Context {num : Type} `{NumberOps num, JsonCodec num, UnicodeCase}.
Implicit Types (values : list (value num)) (b : EvalBudget).

Definition first_value values : value num := default JNull (head values).

Definition push_format_capped (output segment : string) b : result ExpressionError string :=
  if (MAX_FORMAT_OUTPUT_BYTES - len output <? len segment)%N
  then Err (FormatOutputTooLarge MAX_FORMAT_OUTPUT_BYTES)
  else if (remaining b - len output <? len segment)%N then Err evaluation_too_large
  else Ok (output +:+ segment).

Definition push_evaluation_capped (output segment : string) b : result ExpressionError string :=
  if (remaining b - len output <? len segment)%N then Err evaluation_too_large
  else Ok (output +:+ segment).

Definition format_overflow : ExpressionError := FormatOutputTooLarge MAX_FORMAT_OUTPUT_BYTES.

Definition parse_u8 (digits : list N) : option N := parse_unsigned 8 (Utf8.of_bytes digits).

(** The scan of [format_args] over the bytes of the template: [rest] is not
    read yet, [seg] is [format[segment_start..index]]. *)
Fixpoint format_loop (fuel : nat) (format : string) values b (rest seg : list N)
    (output : string) : result ExpressionError string :=
  match fuel, rest with
  | _, [] => push_format_capped output (Utf8.of_bytes seg) b
  | 0, _ => Err Eof
  | S fuel, byte :: r =>
      if (byte =? ch "{")%N then
        output ← push_format_capped output (Utf8.of_bytes seg) b;
        if bool_decide (head r = Some (ch "{")) then
          output ← push_format_capped output "{" b;
          format_loop fuel format values b (tail r) [] output
        else
          let '(digits, r') := take_while is_ascii_digit r in
          if length digits =? 0 then Err (InvalidFormat format)
          else
            argument_index ← ok_or (InvalidFormat format) (parse_u8 digits);
            if bool_decide (head r' = Some (ch "}")) then
              value ← ok_or (InvalidFormat format) (values !! S (N.to_nat argument_index));
              rendered ← string_value_bounded value (MAX_FORMAT_OUTPUT_BYTES - len output)
                           format_overflow;
              output ← push_format_capped output rendered b;
              format_loop fuel format values b (tail r') [] output
            else Err (InvalidFormat format)
      else if (byte =? ch "}")%N then
        output ← push_format_capped output (Utf8.of_bytes seg) b;
        if bool_decide (head r = Some (ch "}")) then
          output ← push_format_capped output "}" b;
          format_loop fuel format values b (tail r) [] output
        else Err (InvalidFormat format)
      else format_loop fuel format values b r (seg ++ [byte]) output
  end.

Definition format_args values b : result ExpressionError string :=
  format ← string_value_bounded (first_value values) MAX_FORMAT_OUTPUT_BYTES format_overflow;
  let bytes := Utf8.bytes format in
  format_loop (length bytes) format values b bytes [] "".

(** The fuel of the scan is enough: any fuel of at least the length of what is
    left gives the same result. *)
Lemma format_fuel n m format values b rest seg output :
  length rest <= n → length rest <= m →
  format_loop n format values b rest seg output = format_loop m format values b rest seg output.
Proof.
  revert m rest seg output. induction n as [|n IH]; intros [|m] [|byte r] seg output Hn Hm; simpl in *; try lia; [done..|].
  assert (length (tail r) <= length r) by (destruct r; simpl; lia).
  pose proof (take_while_length is_ascii_digit r).
  destruct (byte =? ch "{")%N.
  { destruct (push_format_capped output _ b) as [out|]; simpl; [|done]. case_bool_decide.
    { destruct (push_format_capped out _ b); simpl; [apply IH; lia|done]. }
    destruct (take_while is_ascii_digit r) as [digits r']. simpl in *.
    assert (length (tail r') <= length r') by (destruct r'; simpl; lia).
    destruct (length digits =? 0); [done|].
    destruct (ok_or _ (parse_u8 digits)) as [index|]; simpl; [|done]. case_bool_decide; [|done].
    destruct (ok_or _ (values !! _)) as [v|]; simpl; [|done].
    destruct (string_value_bounded v _ _) as [text|]; simpl; [|done].
    destruct (push_format_capped out text b); simpl; [apply IH; lia|done]. }
  destruct (byte =? ch "}")%N; [|apply IH; lia].
  destruct (push_format_capped output _ b) as [out|]; simpl; [|done]. case_bool_decide; [|done].
  destruct (push_format_capped out _ b); simpl; [apply IH; lia|done].
Qed.

Definition string_value_capped (v : value num) (limit : N) : result ExpressionError string :=
  string_value_bounded v limit evaluation_too_large.

Fixpoint join_loop b (separator : string) (first : bool) (items : list (value num))
    (output : string) : result ExpressionError string :=
  match items with
  | [] => Ok output
  | v :: items =>
      output ← (if first then Ok output else push_evaluation_capped output separator b);
      rendered ← string_value_capped v (remaining b - len output);
      output ← push_evaluation_capped output rendered b;
      join_loop b separator false items output
  end.

Definition join_args values b : result ExpressionError string :=
  separator ← match values !! 1 with
              | Some v => if is_primitive v then string_value_capped v (remaining b) else Ok ","
              | None => Ok ","
              end;
  match head values with
  | Some (JArray items) => join_loop b separator true items ""
  | Some v =>
      if is_primitive v then
        rendered ← string_value_capped v (remaining b);
        push_evaluation_capped "" rendered b
      else Ok ""
  | None => Ok ""
  end.

Definition to_json_pretty (v : value num) b : result ExpressionError string :=
  ok_or evaluation_too_large (capped_write (remaining b) "" (json_writes_pretty v)).

Definition combine_binary (op : BinaryOp) (left right : value num) : value num :=
  match op with
  | OpOr | OpAnd => right
  | OpEq => JBool (abstract_equal left right)
  | OpNe => JBool (negb (abstract_equal left right))
  | OpGt => JBool (compare_values left right (λ o, match o with Gt => true | _ => false end))
  | OpGe => JBool (compare_values left right (λ o, match o with Lt => false | _ => true end))
  | OpLt => JBool (compare_values left right (λ o, match o with Lt => true | _ => false end))
  | OpLe => JBool (compare_values left right (λ o, match o with Gt => false | _ => true end))
  end.

(** [eval_index] on evaluated operands. *)
Definition index_value (base key : value num) : value num :=
  let key := string_value key in
  match base with
  | JObject m => default JNull (imap_get key m)
  | JArray items => default JNull (i ← parse_usize key; nth_usize i items)
  | _ => JNull
  end.

Variable hash_files : list (value num) → option string → result ExpressionError string.

(** The eager part of [eval_call], on the lower-case name and the evaluated
    arguments. *)
Definition call_function (name lower : string) values (c : Context num) b :
    result ExpressionError (value num) :=
  match lower with
  | "always" => Ok (JBool true)
  | "success" => Ok (JBool (success c))
  | "failure" => Ok (JBool (failure c))
  | "cancelled" => Ok (JBool (cancelled c))
  | "contains" =>
      Ok (JBool (match values !! 0, values !! 1 with
                 | Some haystack, Some needle => contains haystack needle
                 | _, _ => false
                 end))
  | "startswith" =>
      Ok (JBool (starts_with_ordinal_ignore_case (string_arg values 0) (string_arg values 1)))
  | "endswith" =>
      Ok (JBool (ends_with_ordinal_ignore_case (string_arg values 0) (string_arg values 1)))
  | "format" => JString <$> format_args values b
  | "fromjson" =>
      map_err InvalidJson (from_json_lenient (match head values with
                                              | Some v => string_value v
                                              | None => ""
                                              end))
  | "join" => JString <$> join_args values b
  | "hashfiles" => JString <$> hash_files values (workspace_dir c)
  | "tojson" => JString <$> to_json_pretty (first_value values) b
  | _ => Err (UnknownFunction name)
  end.

(** ** Evaluation *)
Variable context : Context num.

Abbreviation eval_result := (result ExpressionError (value num * EvalBudget)).

Section with_eval.
Variable eval : Expr num → EvalBudget → eval_result.

Fixpoint eval_args (args : list (Expr num)) b : result ExpressionError (list (value num) * EvalBudget) :=
  match args with
  | [] => Ok ([], b)
  | a :: args =>
      '(v, b) ← eval a b;
      '(vs, b) ← eval_args args b;
      Ok (v :: vs, b)
  end.

(** [case()]: predicate and result pairs in order, then the default. *)
Fixpoint eval_case (args : list (Expr num)) b : eval_result :=
  match args with
  | [] => Err EvenCaseParameters
  | [last] => eval last b
  | predicate :: result :: args =>
      '(p, b) ← eval predicate b;
      match p with
      | JBool true => eval result b
      | JBool false => eval_case args b
      | _ => Err NonBooleanCasePredicate
      end
  end.

Definition eval_call (name : string) (args : list (Expr num)) b : eval_result :=
  let lower := to_ascii_lowercase name in
  _ ← validate_function_arity name (length args);
  if str_eqb lower "case" then eval_case args b
  else
    '(values, b) ← eval_args args b;
    v ← call_function name lower values context b;
    Ok (v, b).

Definition eval_binary (op : BinaryOp) (left right : Expr num) b : eval_result :=
  '(l, b) ← eval left b;
  match op with
  | OpOr => if is_truthy l then Ok (l, b) else '(r, b) ← eval right b; Ok (combine_binary op l r, b)
  | OpAnd => if is_truthy l then '(r, b) ← eval right b; Ok (combine_binary op l r, b) else Ok (l, b)
  | _ => '(r, b) ← eval right b; Ok (combine_binary op l r, b)
  end.

(** [eval_inner]: a literal or a borrowed path is charged and returned, every
    other value is computed and then charged. *)
Definition eval_inner (e : Expr num) b : eval_result :=
  '(v, b) ←
    match e with
    | Literal v => Ok (v, b)
    | Path path =>
        match resolve_ref context path with
        | Some v => Ok (v, b)
        | None => Ok (resolve context path, b)
        end
    | UnaryNot inner => '(v, b) ← eval inner b; Ok (JBool (negb (is_truthy v)), b)
    | Binary op l r => eval_binary op l r b
    | Call name args => eval_call name args b
    | MemberAccess inner path => '(v, b) ← eval inner b; Ok (resolve_value v path, b)
    | Index base key =>
        '(bv, b) ← eval base b;
        '(kv, b) ← eval key b;
        Ok (index_value bv kv, b)
    end;
  b ← charge b v;
  Ok (v, b).

(** The depth guard of [eval] around [eval_inner]. *)
Definition eval_guard (inner : EvalBudget → eval_result) b : eval_result :=
  let b := mkBudget (used_bytes b) (S (eval_depth b)) in
  if MAX_EXPRESSION_DEPTH <? eval_depth b then Err (TooDeep MAX_EXPRESSION_DEPTH)
  else '(v, b) ← inner b; Ok (v, mkBudget (used_bytes b) (pred (eval_depth b))).

End with_eval.

Fixpoint eval (e : Expr num) (b : EvalBudget) {struct e} : eval_result :=
  eval_guard (eval_inner eval e) b.

Definition eval_expr (e : Expr num) : result ExpressionError (value num) :=
  '(v, _) ← eval e (mkBudget 0 0); Ok v.

End builtins.
