(* ===== verification/ExprSafety.v ===== *)
(** * Safety of evaluation

    What the evaluator of [ExprEval] guarantees: the recursion ceiling is
    never met by a parsed expression, the temporary-memory budget bounds every
    value, calls the validator accepted never fail for their name or arity,
    and the fast paths and capped writers compute what the plain definitions
    do. *)
From S2P Require Export ExprEval.

(** ** Results with a condition on success and one on errors *)

Definition espec {A} (r : result ExpressionError A) (Q : A → Prop) (E : ExpressionError → Prop) : Prop :=
  match r with Ok a => Q a | Err e => E e end.

Lemma espec_bind {A B} (r : result ExpressionError A) (f : A → result ExpressionError B) Q E :
  espec r (λ a, espec (f a) Q E) E → espec (r ≫= f) Q E.
Proof. by destruct r. Qed.

Lemma espec_mono {A} (r : result ExpressionError A) (Q Q' : A → Prop) (E E' : ExpressionError → Prop) :
  espec r Q E → (∀ a, Q a → Q' a) → (∀ e, E e → E' e) → espec r Q' E'.
Proof. destruct r; simpl; auto. Qed.

Lemma espec_fmap {A B} (r : result ExpressionError A) (f : A → B) Q E :
  espec r (λ a, Q (f a)) E → espec (f <$> r) Q E.
Proof. by destruct r. Qed.

Lemma espec_ok_or {A} (o : option A) err (Q : A → Prop) (E : ExpressionError → Prop) :
  (∀ a, o = Some a → Q a) → E err → espec (ok_or err o) Q E.
Proof. destruct o; simpl; auto. Qed.

(** Errors a call can raise although its name and arity are right and the
    expression is not too deep. *)
Definition benign (err : ExpressionError) : Prop :=
  match err with
  | TooDeep _ | UnknownFunction _ | InvalidFunctionArity _ _ _ _ | EvenCaseParameters => False
  | _ => True
  end.

Definition arity_error (err : ExpressionError) : Prop :=
  match err with
  | UnknownFunction _ | InvalidFunctionArity _ _ _ _ | EvenCaseParameters => True
  | _ => False
  end.

(** The names [function_arity] knows. *)
Definition function_names : list string :=
  ["always"; "cancelled"; "success"; "failure"; "contains"; "startswith"; "endswith";
   "format"; "fromjson"; "tojson"; "join"; "hashfiles"; "case"].

Lemma function_arity_names lower : function_arity lower ≠ None → lower ∈ function_names.
Proof.
  unfold function_arity, function_names.
  repeat (case_match; try done); subst; intros _;
    refine (bool_decide_eq_true_1 _ _); vm_compute; reflexivity.
Qed.

Lemma try_for_each_Ok {A E} (f : A → result E unit) (l : list A) :
  try_for_each f l = Ok tt ↔ Forall (λ a, f a = Ok tt) l.
Proof.
  induction l as [|a l IH]; simpl; [by rewrite Forall_nil|].
  rewrite Forall_cons. destruct (f a) as [[]|e]; rewrite ?IH; naive_solver.
Qed.

(** ** Capped output *)

Lemma len_app a b : len (a +:+ b) = (len a + len b)%N.
Proof.
  unfold len. induction a as [|c a IH]; [done|].
  change (String c a +:+ b) with (String c (a +:+ b)). simpl String.length. lia.
Qed.

Lemma join_empty_cons f r : join "" (f :: r) = f +:+ join "" r.
Proof. destruct r; simpl; [by rewrite app_empty_r|done]. Qed.

(** The capped writer keeps the whole text when it fits and fails otherwise,
    whatever the fragments the serializer writes. *)
Lemma capped_write_spec limit bytes fragments :
  (len bytes ≤ limit)%N →
  capped_write limit bytes fragments =
    if (len (bytes +:+ join "" fragments) <=? limit)%N
    then Some (bytes +:+ join "" fragments) else None.
Proof.
  revert bytes. induction fragments as [|f r IH]; intros bytes Hle.
  - simpl. rewrite app_empty_r. by rewrite (proj2 (N.leb_le _ _)).
  - cbn [capped_write]. rewrite join_empty_cons.
    destruct (limit - len bytes <? len f)%N eqn:Hlt; bool_to_prop.
    + case_match; [|done]. bool_to_prop. rewrite !len_app in *. lia.
    + rewrite IH by (rewrite len_app; lia). by rewrite app_assoc_string.
Qed.

Section safety.
Context {num : Type} `{NumberOps num, JsonCodec num, UnicodeCase}.
Variable hash_files : list (value num) → option string → result ExpressionError string.

(** [hashFiles()] reports only its own errors. *)
Hypothesis hash_files_benign : ∀ vs dir err, hash_files vs dir = Err err → benign err.

Implicit Types (e : Expr num) (b : EvalBudget) (v : value num) (c : Context num).

Lemma string_value_bounded_benign v limit overflow :
  benign overflow → espec (string_value_bounded v limit overflow) (λ _, True) benign.
Proof. intros. destruct v as [|[]| | | |]; simpl; try done; by destruct (capped_write _ _ _). Qed.

Lemma push_format_capped_benign output s b :
  espec (push_format_capped output s b)
    (λ out, out = output +:+ s ∧ (len out ≤ MAX_FORMAT_OUTPUT_BYTES `max` len output)%N
            ∧ (len out ≤ remaining b `max` len output)%N) benign.
Proof.
  unfold push_format_capped. case_match; [done|]. case_match; [done|]. bool_to_prop. cbn [espec].
  split_and!; [done|rewrite len_app; lia..].
Qed.

Lemma push_evaluation_capped_benign output s b :
  espec (push_evaluation_capped output s b)
    (λ out, out = output +:+ s ∧ (len out ≤ remaining b `max` len output)%N) benign.
Proof.
  unfold push_evaluation_capped. case_match; [done|]. bool_to_prop. cbn [espec].
  split_and!; [done|rewrite len_app; lia].
Qed.

(** The output of [format()] never exceeds its cap nor the remaining budget. *)
Definition format_bound b (out : string) : Prop :=
  (len out ≤ MAX_FORMAT_OUTPUT_BYTES)%N ∧ (len out ≤ remaining b)%N.

Lemma push_format_bound output s b :
  format_bound b output → espec (push_format_capped output s b) (format_bound b) benign.
Proof.
  intros [Hm Hr]. eapply espec_mono; [apply push_format_capped_benign| |done].
  intros out (-> & Hx & Hy). split; lia.
Qed.

Lemma format_loop_spec fuel format values b rest seg output :
  format_bound b output →
  espec (format_loop fuel format values b rest seg output) (format_bound b) benign.
Proof.
  revert rest seg output. induction fuel as [|fuel IH]; intros rest seg output Hb.
  { destruct rest; simpl; [by apply push_format_bound|done]. }
  destruct rest as [|byte r]; [by apply push_format_bound|]. cbn [format_loop].
  destruct (byte =? ch "{")%N; [|destruct (byte =? ch "}")%N; [|by apply IH]].
  - apply espec_bind. eapply espec_mono; [by apply push_format_bound| |done]. intros out1 H1'.
    case_bool_decide.
    + apply espec_bind. eapply espec_mono; [by apply push_format_bound| |done]. auto.
    + destruct (take_while is_ascii_digit r) as [digits r']. case_match; [done|].
      apply espec_bind, espec_ok_or; [|done]. intros i _. case_bool_decide; [|done].
      apply espec_bind, espec_ok_or; [|done]. intros v _.
      apply espec_bind. eapply espec_mono; [by apply string_value_bounded_benign| |done].
      intros s _. apply espec_bind. eapply espec_mono; [by apply push_format_bound| |done]. auto.
  - apply espec_bind. eapply espec_mono; [by apply push_format_bound| |done]. intros out1 H1'.
    case_bool_decide; [|done].
    apply espec_bind. eapply espec_mono; [by apply push_format_bound| |done]. auto.
Qed.

Lemma format_args_spec values b : espec (format_args values b) (format_bound b) benign.
Proof.
  unfold format_args. apply espec_bind.
  eapply espec_mono; [by apply string_value_bounded_benign| |done]. intros f _.
  apply format_loop_spec. split; unfold len; simpl; lia.
Qed.

Lemma join_loop_benign b sep first items output :
  espec (join_loop b sep first items output) (λ _, True) benign.
Proof.
  revert first output. induction items as [|v items IH]; intros first output; simpl; [done|].
  apply espec_bind. destruct first; simpl.
  2: eapply espec_mono; [apply push_evaluation_capped_benign| |done]; intros ? _; simpl.
  all: apply espec_bind; eapply espec_mono; [by apply string_value_bounded_benign| |done];
    intros ? _; apply espec_bind;
    eapply espec_mono; [apply push_evaluation_capped_benign| |done]; intros ? _; apply IH.
Qed.

Lemma join_args_benign values b : espec (join_args values b) (λ _, True) benign.
Proof.
  unfold join_args. apply espec_bind.
  assert (∀ v limit, espec (string_value_capped v limit) (λ _, True) benign) as Hcap
    by (intros; by apply string_value_bounded_benign).
  apply (espec_mono _ (λ _, True) _ benign); [|intros sep _|done].
  - destruct (values !! 1) as [v|]; [|done]. by destruct (is_primitive v).
  - destruct (head values) as [[| | | | |]|]; cbn [is_primitive]; try done;
      try apply join_loop_benign;
      apply espec_bind; (eapply espec_mono; [apply Hcap| |done]); intros ? _;
      (eapply espec_mono; [apply push_evaluation_capped_benign|done|done]).
Qed.

Lemma call_function_benign name lower values c b :
  function_arity lower ≠ None → lower ≠ "case" →
  espec (call_function hash_files name lower values c b) (λ _, True) benign.
Proof.
  intros Hf%function_arity_names Hcase. unfold function_names in Hf.
  repeat apply elem_of_cons in Hf as [->|Hf]; try done; [..|by apply elem_of_nil in Hf].
  all: unfold call_function; cbv iota beta; try apply espec_fmap.
  - eapply espec_mono; [apply format_args_spec|done|done].
  - by destruct (from_json_lenient _).
  - by apply espec_ok_or.
  - apply join_args_benign.
  - destruct (hash_files _ _) eqn:Hh; simpl; [done|by eapply hash_files_benign].
Qed.

Variable c : Context num.
Abbreviation run := (eval hash_files c).

Lemma eval_unfold e b : run e b = eval_guard (eval_inner hash_files c run e) b.
Proof. by destruct e. Qed.

Definition validated e : Prop := validate_function_calls e = Ok tt.

(** Errors of an expression within the depth ceiling: an arity error only when
    the validator rejects the expression. *)
Definition may_fail e (err : ExpressionError) : Prop :=
  benign err ∨ (arity_error err ∧ ¬ validated e).

Definition eval_post b (vb : value num * EvalBudget) : Prop :=
  eval_depth vb.2 = eval_depth b ∧ (used_bytes b + value_size vb.1 <= used_bytes vb.2)%N ∧
  (used_bytes vb.2 <= MAX_EVALUATED_VALUE_BYTES)%N.

Definition safe e : Prop :=
  ∀ b, eval_depth b + expr_depth e ≤ MAX_EXPRESSION_DEPTH → espec (run e b) (eval_post b) (may_fail e).

(** What holds between two steps inside one [eval]. *)
Definition eval_mid b (b' : EvalBudget) : Prop :=
  eval_depth b' = eval_depth b ∧ (used_bytes b <= used_bytes b')%N.

Lemma eval_mid_refl b : eval_mid b b.
Proof. split; lia. Qed.

Lemma eval_post_mid b b' vb : eval_mid b b' → eval_post b' vb → eval_mid b vb.2.
Proof. unfold eval_mid, eval_post. intros [-> ?] (-> & ? & ?). lia. Qed.

Lemma may_fail_sub (e sub : Expr num) err :
  (validated e → validated sub) → may_fail sub err → may_fail e err.
Proof. unfold may_fail. tauto. Qed.

(** Evaluating a sub-expression inside [e]. *)
Lemma safe_sub e sub b b' (Q : value num * EvalBudget → Prop) :
  safe sub → (validated e → validated sub) → eval_mid b b' →
  eval_depth b + expr_depth sub ≤ MAX_EXPRESSION_DEPTH →
  (∀ v b'', eval_mid b b'' → Q (v, b'')) → espec (run sub b') Q (may_fail e).
Proof.
  intros Hsafe Hval Hmid Hd HQ. destruct Hmid as [Hd' Hu].
  eapply espec_mono; [apply Hsafe; lia| |].
  - intros [v b''] Hpost. apply HQ. apply (eval_post_mid b b' (v, b'')); [by split|done].
  - intros err. by apply may_fail_sub.
Qed.

Lemma eval_args_safe e args b b' (Q : list (value num) * EvalBudget → Prop) :
  Forall safe args → (validated e → Forall validated args) → eval_mid b b' →
  Forall (λ a, eval_depth b + expr_depth a ≤ MAX_EXPRESSION_DEPTH) args →
  (∀ vs b'', eval_mid b b'' → Q (vs, b'')) →
  espec (eval_args run args b') Q (may_fail e).
Proof.
  intros Hsafe. revert b' Q. induction Hsafe as [|a args Ha Hsafe IH]; intros b' Q Hval Hmid Hd HQ.
  - by apply HQ.
  - apply Forall_cons in Hd as [Hda Hd]. cbn [eval_args]. apply espec_bind.
    eapply safe_sub; [done| |done|done|].
    { intros Hv. apply Hval, Forall_cons in Hv. by destruct Hv. }
    intros v b'' Hmid'. apply espec_bind. apply IH; [|done|done|].
    { intros Hv. apply Hval, Forall_cons in Hv. by destruct Hv. }
    intros vs b3 Hmid3. by apply HQ.
Qed.

Lemma eval_case_safe e args b b' (Q : value num * EvalBudget → Prop) :
  Forall safe args → (validated e → Forall validated args) → Nat.even (length args) = false →
  eval_mid b b' → Forall (λ a, eval_depth b + expr_depth a ≤ MAX_EXPRESSION_DEPTH) args →
  (∀ v b'', eval_mid b b'' → Q (v, b'')) →
  espec (eval_case run args b') Q (may_fail e).
Proof.
  revert b'. induction args as [args IH] using (induction_ltof1 _ length); unfold ltof in IH.
  intros b' Hsafe Hval Hodd Hmid Hd HQ.
  destruct args as [|p [|r args]]; [discriminate Hodd| |].
  - rewrite Forall_singleton in Hsafe, Hd. cbn [eval_case].
    eapply safe_sub; [done| |done|done|done]. intros Hv. apply Hval in Hv. by rewrite Forall_singleton in Hv.
  - assert (Hv : validated e → validated p ∧ validated r ∧ Forall validated args)
      by (intros Hv; apply Hval in Hv; by rewrite !Forall_cons in Hv).
    rewrite !Forall_cons in Hsafe. destruct Hsafe as (Hp & Hr & Hsafe).
    rewrite !Forall_cons in Hd. destruct Hd as (Hdp & Hdr & Hd).
    cbn [eval_case]. apply espec_bind. eapply safe_sub; [exact Hp|tauto|done|done|].
    intros v b'' Hmid'. destruct v as [|[]| | | |]; try (left; exact I).
    + eapply safe_sub; [exact Hr|tauto|done|done|done].
    + apply IH; [simpl; lia|done|tauto|exact Hodd|done..].
Qed.

Lemma validate_arity_spec name n e :
  (validated e → validate_function_arity name n = Ok tt) →
  espec (validate_function_arity name n)
    (λ _, function_arity (to_ascii_lowercase name) ≠ None ∧
          (to_ascii_lowercase name = "case" → Nat.even n = false)) (may_fail e).
Proof.
  intros Hval.
  assert (∀ err, arity_error err → validate_function_arity name n = Err err → may_fail e err) as Herr.
  { intros err Ha Heq. right. split; [done|]. intros Hv. apply Hval in Hv. congruence. }
  unfold validate_function_arity in *.
  destruct (function_arity _) as [[lo hi]|]; [|by apply Herr].
  destruct (str_eqb _ "case" && Nat.even n) eqn:Hcase; [by apply Herr|].
  destruct (negb _); [by apply Herr|]. simpl. split; [done|].
  intros Hn. unfold str_eqb in Hcase. by rewrite bool_decide_eq_true_2 in Hcase.
Qed.

Lemma args_depth_Forall (d : nat) (args : list (Expr num)) :
  d + S (foldr (λ a d, expr_depth a `max` d) 0 args) ≤ MAX_EXPRESSION_DEPTH →
  Forall (λ a, S d + expr_depth a ≤ MAX_EXPRESSION_DEPTH) args.
Proof. induction args as [|a args IH]; simpl; constructor; [lia|]. apply IH. lia. Qed.

Lemma eval_call_safe name args b b' (Q : value num * EvalBudget → Prop) :
  Forall safe args → eval_mid b b' →
  Forall (λ a, eval_depth b + expr_depth a ≤ MAX_EXPRESSION_DEPTH) args →
  (∀ v b'', eval_mid b b'' → Q (v, b'')) →
  espec (eval_call hash_files c run name args b') Q (may_fail (Call name args)).
Proof.
  intros Hsafe Hmid Hd HQ.
  assert (validated (Call name args) →
    validate_function_arity name (length args) = Ok tt ∧ Forall validated args) as Hval.
  { unfold validated at 1. cbn [validate_function_calls].
    intros ([] & Ha & Hargs)%bind_Ok. by rewrite try_for_each_Ok in Hargs. }
  unfold eval_call. apply espec_bind.
  eapply espec_mono; [apply (validate_arity_spec name (length args) (Call name args)); tauto| |done].
  intros _ [Hf Hodd]. unfold str_eqb. case_bool_decide as Hcase.
  - apply (eval_case_safe _ _ b); auto. tauto.
  - apply espec_bind. apply (eval_args_safe _ _ b); [done|tauto|done|done|].
    intros vs b'' Hmid'. apply espec_bind.
    eapply espec_mono; [by apply call_function_benign|intros v _; by apply HQ|by left].
Qed.

Lemma charge_spec e b b' v :
  eval_mid b b' → espec (charge b' v) (λ b'', eval_post b (v, b'')) (may_fail e).
Proof.
  intros [Hd Hu]. unfold charge. case_match; [left; exact I|]. case_match; [left; exact I|].
  bool_to_prop. unfold eval_post; simpl. lia.
Qed.

Lemma eval_binary_safe e op l r b b' (Q : value num * EvalBudget → Prop) :
  safe l → safe r → (validated e → validated l ∧ validated r) → eval_mid b b' →
  eval_depth b + expr_depth l ≤ MAX_EXPRESSION_DEPTH →
  eval_depth b + expr_depth r ≤ MAX_EXPRESSION_DEPTH →
  (∀ v b'', eval_mid b b'' → Q (v, b'')) →
  espec (eval_binary run op l r b') Q (may_fail e).
Proof.
  intros Hl Hr Hval Hmid Hdl Hdr HQ. unfold eval_binary. apply espec_bind.
  eapply safe_sub; [exact Hl|tauto|done|done|]. intros lv b'' Hmid'.
  assert (espec ('(r0, b0) ← run r b''; Ok (combine_binary op lv r0, b0)) Q (may_fail e)) as Hright.
  { apply espec_bind. eapply safe_sub; [exact Hr|tauto|done|done|]. intros rv b3 Hmid3. by apply HQ. }
  destruct op; try exact Hright; destruct (is_truthy lv); try exact Hright; by apply HQ.
Qed.

(** Every expression within the ceiling is safe. *)
Theorem eval_safe e : safe e.
Proof.
  induction e as [v|p|e IHe|op l r IHl IHr|name args IHargs|e p IHe|k v IHk IHv] using Expr_ind';
    intros b Hd; rewrite eval_unfold; unfold eval_guard; simpl expr_depth in Hd;
    (case_match; [bool_to_prop; simpl in *; lia|]);
    set (b1 := mkBudget (used_bytes b) (S (eval_depth b)));
    apply espec_bind; unfold eval_inner; apply espec_bind.
  all: assert (∀ x v b2, eval_mid b1 b2 →
      espec (b3 ← charge b2 v; Ok (v, b3))
        (λ a, espec (let '(v, b0) := a in Ok (v, mkBudget (used_bytes b0) (pred (eval_depth b0))))
          (eval_post b) (may_fail x)) (may_fail x)) as Hcharge
    by (intros x w b2 Hm; apply espec_bind;
        eapply espec_mono; [apply (charge_spec x b1 b2 w Hm)| |done];
        intros b3 (Hd3 & Hu3 & Hx3); unfold eval_post, b1 in *; simpl in *; lia).
  - apply Hcharge, eval_mid_refl.
  - destruct (resolve_ref c p); apply Hcharge, eval_mid_refl.
  - apply espec_bind. apply (safe_sub _ e b1); [done|done|apply eval_mid_refl|simpl; lia|].
    intros w b2 Hm. by apply Hcharge.
  - apply (eval_binary_safe _ op l r b1); [done|done| |apply eval_mid_refl|simpl; lia|simpl; lia|].
    + unfold validated at 1. cbn [validate_function_calls]. by intros ([] & ? & ?)%bind_Ok.
    + intros w b2 Hm. by apply Hcharge.
  - apply (eval_call_safe name args b1); [done|apply eval_mid_refl|by apply args_depth_Forall|].
    intros w b2 Hm. by apply Hcharge.
  - apply espec_bind. apply (safe_sub _ e b1); [done|done|apply eval_mid_refl|simpl; lia|].
    intros w b2 Hm. by apply Hcharge.
  - assert (validated (Index k v) → validated k ∧ validated v) as Hval.
    { unfold validated at 1. cbn [validate_function_calls]. by intros ([] & ? & ?)%bind_Ok. }
    apply espec_bind. apply (safe_sub _ k b1); [done|tauto|apply eval_mid_refl|simpl; lia|].
    intros w b2 Hm. apply espec_bind. apply (safe_sub _ v b1); [done|tauto|done|simpl; lia|].
    intros w' b3 Hm'. by apply Hcharge.
Qed.

End safety.

(** ** The ASCII fast paths compute the Unicode comparison *)
Section fast_paths.
Context `{UnicodeCase}.
Implicit Types (s h n : string).

Lemma bytes_string_map f s :
  Utf8.bytes (string_map f s) = (λ b, N_of_ascii (f (ascii_of_N b))) <$> Utf8.bytes s.
Proof.
  unfold Utf8.bytes. induction s as [|a s IH]; [done|]. csimpl. rewrite IH.
  by rewrite ascii_N_embedding.
Qed.

Lemma upper_byte_lt b : (b < 256)%N → (upper_byte b < 256)%N.
Proof. unfold upper_byte, is_ascii_lower, in_range. eval_ch. intros. case_match; lia. Qed.

Lemma bytes_uppercase s : Utf8.bytes (to_ascii_uppercase s) = upper_byte <$> Utf8.bytes s.
Proof.
  unfold to_ascii_uppercase. rewrite bytes_string_map.
  apply list_fmap_ext. intros i b Hb.
  assert (b < 256)%N as Hlt
    by exact (Forall_lookup_1 _ _ _ _ (bytes_lt s) Hb).
  unfold upper_ascii. rewrite N_ascii_embedding by (rewrite N_ascii_embedding by done; by apply upper_byte_lt).
  by rewrite N_ascii_embedding.
Qed.

Lemma ascii_simple_upper s :
  is_ascii s = true → to_simple_upper <$> chars s = upper_byte <$> Utf8.bytes s.
Proof.
  intros Hs. rewrite ascii_chars by done. apply is_ascii_bytes in Hs.
  apply list_fmap_ext. intros i b Hb.
  unfold to_simple_upper. rewrite to_uppercase_ascii; [done|].
  exact (Forall_lookup_1 _ _ _ _ Hs Hb).
Qed.

Lemma byte_eq_upper a b : byte_eq_ignore_case a b = (upper_byte a =? upper_byte b)%N.
Proof.
  unfold byte_eq_ignore_case, lower_byte, upper_byte, is_ascii_upper, is_ascii_lower, in_range.
  eval_ch. repeat case_match; lia.
Qed.

Lemma zip_all_consumes (h n : list N) :
  zip_all h n = consumes (upper_byte <$> n) (upper_byte <$> h).
Proof.
  unfold zip_all. revert h. induction n as [|b n IH]; intros h; [by destruct h|].
  destruct h as [|a h]; [done|]. csimpl. rewrite <-IH, <-byte_eq_upper.
  change (zip_with pair h n) with (zip h n).
  by destruct (length n <=? length h), (byte_eq_ignore_case a b).
Qed.

Lemma consumes_prefix (n h : list N) : consumes n h = true ↔ n `prefix_of` h.
Proof.
  revert h. induction n as [|a n IH]; intros h; simpl.
  { split; [intros _; apply prefix_nil|done]. }
  destruct h as [|b h]; [split; [done|by intros [? [=]]]|].
  rewrite andb_true_iff, N.eqb_eq, IH. split.
  - intros [-> Hp]. by apply prefix_cons.
  - intros Hp. split; [by apply prefix_cons_inv_1 in Hp|by eapply prefix_cons_inv_2].
Qed.

Lemma consumes_reverse (n h : list N) :
  length n ≤ length h →
  consumes (reverse n) (reverse h) = consumes n (drop (length h - length n) h).
Proof.
  intros Hle. apply eq_true_iff_eq. rewrite !consumes_prefix. split.
  - intros [k Hk]. apply (f_equal reverse) in Hk.
    rewrite reverse_app, !reverse_involutive in Hk. subst h.
    exists []. rewrite length_app, app_nil_r.
    replace (length (reverse k) + length n - length n) with (length (reverse k)) by lia.
    apply drop_app_length.
  - intros Hp. rewrite <-(take_drop (length h - length n) h) at 1. rewrite reverse_app.
    apply prefix_length_eq in Hp; [|rewrite length_drop; lia].
    rewrite <-Hp. by exists (reverse (take (length h - length n) h)).
Qed.

Lemma consumes_short (n h : list N) : length h < length n → consumes n h = false.
Proof.
  intros Hlt. apply not_true_is_false. rewrite consumes_prefix.
  intros Hp%prefix_length. lia.
Qed.

Lemma starts_with_consumes n h : starts_with n h = consumes (Utf8.bytes n) (Utf8.bytes h).
Proof.
  unfold starts_with, Utf8.bytes. revert h. induction n as [|a n IH]; intros h.
  - by destruct h.
  - destruct h as [|b h]; [done|]. csimpl. rewrite <-IH. case_decide as Hab.
    + subst. by rewrite N.eqb_refl.
    + rewrite (proj2 (N.eqb_neq _ _)); [done|]. intros Heq%(f_equal ascii_of_N).
      rewrite !ascii_N_embedding in Heq. congruence.
Qed.

Lemma str_contains_window n h : str_contains n h = any_window (Utf8.bytes n) (Utf8.bytes h).
Proof.
  unfold Utf8.bytes. induction h as [|a h IH]; cbn [str_contains any_window];
    rewrite starts_with_consumes; unfold Utf8.bytes; [done|]. csimpl. by rewrite IH.
Qed.

Lemma ends_with_fast h n :
  is_ascii h && is_ascii n = true →
  ends_with_ordinal_ignore_case h n =
    consumes (to_simple_upper <$> reverse (chars n)) (to_simple_upper <$> reverse (chars h)).
Proof.
  intros Hasc. unfold ends_with_ordinal_ignore_case. rewrite Hasc.
  apply andb_true_iff in Hasc as [Hh Hn]. rewrite !fmap_reverse, !ascii_simple_upper by done.
  unfold str_eqb. case_bool_decide as He; [by subst|].
  destruct (Nat.leb_spec (length (Utf8.bytes n)) (length (Utf8.bytes h))) as [Hle|Hlt]; simpl.
  - rewrite zip_all_consumes, consumes_reverse by (by rewrite !length_fmap).
    by rewrite !length_fmap, fmap_drop.
  - symmetry. apply consumes_short. by rewrite !length_reverse, !length_fmap.
Qed.

End fast_paths.

(** ** Properties *)
Section properties.
Context {num : Type} `{NumberOps num, JsonCodec num, UnicodeCase}.
Variable hash_files : list (value num) → option string → result ExpressionError string.

(** An expression the parser accepted never fails with [TooDeep] when it
    is evaluated: the parser's ceiling on the tree implies the evaluator's
    ceiling on its recursion, provided [hashFiles()] reports only its own
    errors. *)
Theorem parsed_never_too_deep tokens (e : Expr num) (c : Context num) n :
  (∀ vs dir err, hash_files vs dir = Err err → benign err) →
  parse_tokens tokens = Some (Ok e) → eval_expr hash_files c e ≠ Err (TooDeep n).
Proof.
  intros Hh Hp. pose proof (parse_tokens_spec tokens) as Hd. rewrite Hp in Hd.
  pose proof (eval_safe hash_files Hh c e (mkBudget 0 0) Hd) as Hs.
  unfold eval_expr. destruct (eval _ _ _ _) as [[v b]|err]; simpl in *; [done|].
  intros [= ->]. by destruct Hs as [[]|[[] _]].
Qed.

(** C30: validation predicts evaluation.  A parsed expression that
    [validate_function_calls] accepts never fails with an unknown function or
    a wrong number of arguments at run time. *)
Theorem validated_calls_succeed tokens (e : Expr num) (c : Context num) err :
  (∀ vs dir err, hash_files vs dir = Err err → benign err) →
  parse_tokens tokens = Some (Ok e) → validate_function_calls e = Ok tt →
  eval_expr hash_files c e = Err err → ¬ arity_error err.
Proof.
  intros Hh Hp Hv. pose proof (parse_tokens_spec tokens) as Hd. rewrite Hp in Hd.
  pose proof (eval_safe hash_files Hh c e (mkBudget 0 0) Hd) as Hs.
  unfold eval_expr. destruct (eval _ _ _ _) as [[v b]|err']; simpl in *; [done|].
  intros [= ->]. destruct Hs as [Hb|[_ Hn]]; [destruct err; simpl in *; tauto|by destruct (Hn Hv)].
Qed.

(** The temporary-value budget bounds every evaluation: a value an
    expression yields, and the total charged with it, stay within
    [MAX_EVALUATED_VALUE_BYTES], whatever the context. *)
Theorem eval_value_bounded (e : Expr num) (c : Context num) b v b' :
  eval hash_files c e b = Ok (v, b') →
  (value_size v <= used_bytes b')%N ∧ (used_bytes b' <= MAX_EVALUATED_VALUE_BYTES)%N.
Proof.
  rewrite eval_unfold. unfold eval_guard. case_match; [done|].
  intros ([v1 b1] & He & [= <- <-])%bind_Ok. unfold eval_inner in He.
  apply bind_Ok in He as ([v2 b2] & _ & He). apply bind_Ok in He as (b3 & Hc & [= -> <-]).
  unfold charge in Hc. repeat case_match; simplify_eq/=; bool_to_prop. lia.
Qed.

(** [||] and [&&] short-circuit: when the left operand decides, the right
    one has no effect on the result, the budget or the errors. *)
Theorem short_circuit (l r r' : Expr num) (c : Context num) op b v b' :
  op = OpOr ∧ is_truthy v = true ∨ op = OpAnd ∧ is_truthy v = false →
  eval hash_files c l (mkBudget (used_bytes b) (S (eval_depth b))) = Ok (v, b') →
  eval hash_files c (Binary op l r) b = eval hash_files c (Binary op l r') b.
Proof.
  intros Hop Hl. rewrite !eval_unfold. unfold eval_guard, eval_inner, eval_binary.
  case_match; [done|]. rewrite Hl. simpl.
  destruct Hop as [[-> Ht]|[-> Ht]]; by rewrite Ht.
Qed.

(** [format()] and [toJSON()] never build more than their caps: formatted
    text stays within [MAX_FORMAT_OUTPUT_BYTES] and the remaining budget, and
    capped serialization yields the whole text exactly when it fits. *)
Theorem output_caps (values : list (value num)) (v : value num) b :
  (∀ out, format_args values b = Ok out →
    (len out <= MAX_FORMAT_OUTPUT_BYTES)%N ∧ (len out <= remaining b)%N) ∧
  to_json_pretty v b =
    (if (len (join "" (json_writes_pretty v)) <=? remaining b)%N
     then Ok (join "" (json_writes_pretty v)) else Err evaluation_too_large).
Proof.
  split.
  - intros out Hf. pose proof (format_args_spec values b) as Hs. by rewrite Hf in Hs.
  - unfold to_json_pretty. rewrite capped_write_spec by (unfold len; simpl; lia).
    change (("":string) +:+ ?s) with s. by case_match.
Qed.

(** The ASCII fast paths of the four case-insensitive comparisons agree
    with the Unicode branch on every pair of strings. *)
Theorem ordinal_fast_paths (h n : string) :
  compare_ordinal_ignore_case h n =
    list_cmp (to_simple_upper <$> chars h) (to_simple_upper <$> chars n) ∧
  starts_with_ordinal_ignore_case h n =
    consumes (to_simple_upper <$> chars n) (to_simple_upper <$> chars h) ∧
  ends_with_ordinal_ignore_case h n =
    consumes (to_simple_upper <$> reverse (chars n)) (to_simple_upper <$> reverse (chars h)) ∧
  contains_ordinal_ignore_case h n =
    any_window (to_simple_upper <$> chars n) (to_simple_upper <$> chars h).
Proof.
  destruct (is_ascii h && is_ascii n) eqn:Hasc.
  - rewrite ends_with_fast by done.
    unfold compare_ordinal_ignore_case, starts_with_ordinal_ignore_case,
      contains_ordinal_ignore_case. rewrite Hasc.
    apply andb_true_iff in Hasc as [Hh Hn]. rewrite !ascii_simple_upper by done.
    split_and!; [by rewrite !bytes_uppercase| |done|]; unfold str_eqb; case_bool_decide; subst.
    + done.
    + by rewrite zip_all_consumes.
    + by destruct (upper_byte <$> Utf8.bytes h).
    + by rewrite str_contains_window, !bytes_uppercase.
  - unfold compare_ordinal_ignore_case, starts_with_ordinal_ignore_case,
      ends_with_ordinal_ignore_case, contains_ordinal_ignore_case. rewrite Hasc.
    split_and!; [done|..]; unfold str_eqb; case_bool_decide; subst; try done.
    by destruct (to_simple_upper <$> chars h).
Qed.

End properties.

(** ** Witnesses *)

Definition no_files (values : list (value Z)) (dir : option string) :
  result ExpressionError string := Ok "".

Definition sample_context : Context Z :=
  mkContext {[ "env" := JObject [("A", JString "x"); ("B", JNumber 2%Z)] ]} true false false None.

(** [!contains(env.A, 'X')] *)
Definition sample_expr : Expr Z :=
  UnaryNot (Call "contains" [Path ["env"; "A"]; Literal (JString "X")]).
Definition sample_tokens : list Token :=
  [TBang; TIdent "contains"; TLParen; TIdent "env"; TDot; TIdent "A"; TComma; TString "X";
   TRParen; TEnd].

Lemma parsed_never_too_deep_witness :
  eval_expr no_files sample_context sample_expr ≠ Err (TooDeep 128).
Proof.
  apply (parsed_never_too_deep no_files sample_tokens); [done|vm_compute; reflexivity].
Defined.

(** [format('{')] is accepted by the validator and fails benignly. *)
Lemma validated_calls_succeed_witness :
  ¬ arity_error (InvalidFormat "{").
Proof.
  apply (validated_calls_succeed no_files
    [TIdent "format"; TLParen; TString "{"; TRParen; TEnd]
    (Call "format" [Literal (JString "{")]) sample_context);
    [done|vm_compute; reflexivity..].
Defined.

Lemma eval_value_bounded_witness :
  (value_size (num:=Z) (JBool false) <= 121)%N ∧ (121 <= MAX_EVALUATED_VALUE_BYTES)%N.
Proof.
  apply (eval_value_bounded no_files sample_expr sample_context (mkBudget 39 0) _ (mkBudget 121 0)).
  vm_compute. reflexivity.
Defined.

Lemma short_circuit_witness :
  eval no_files sample_context (Binary OpOr (Path ["env"; "A"]) (Call "format" [])) (mkBudget 0 0) =
  eval no_files sample_context (Binary OpOr (Path ["env"; "A"]) (Literal JNull)) (mkBudget 0 0).
Proof.
  apply (short_circuit no_files (Path ["env"; "A"]) _ _ sample_context OpOr (mkBudget 0 0)
    (JString "x") (mkBudget 25 1)); [left; split; reflexivity|vm_compute; reflexivity].
Defined.

(** ** Observed behaviours *)

(** A numeric segment on an array does not index it: it is applied to each
    element. *)
Lemma array_index_projects :
  resolve (mkContext {[ "xs" := JArray [JString "a"; JString "b"] ]} true false false None : Context Z)
    ["xs"; "0"] = JArray [].
Proof. vm_compute. reflexivity. Qed.

(** Roots and properties are matched with their case. *)
Lemma resolve_case_sensitive :
  resolve (mkContext {[ "secrets" := JObject [("FOO", JString "x")] ]} true false false None : Context Z)
    ["secrets"; "foo"] = JNull.
Proof. vm_compute. reflexivity. Qed.

(** A dangling dot after a call is accepted and dropped. *)
Lemma dangling_dot_accepted :
  parse_tokens (num := Z) [TIdent "success"; TLParen; TRParen; TDot; TEnd] = Some (Ok (Call "success" [])).
Proof. vm_compute. reflexivity. Qed.
