(* ===== verification/EvalBudgets.v ===== *)
(** * Evaluation under other budgets

    What a budget can change: two evaluations of an expression of [ExprEval] in
    the same context, from any two budgets, give the same value, unless one of
    them is refused for its depth or its size.  So an expression means the same
    alone and as an argument of a call. *)
From S2P Require Export ExprSafety.

(** A refusal that depends on the budget. *)
Definition resource_error (err : ExpressionError) : Prop :=
  match err with TooDeep _ | EvaluationTooLarge _ | FormatOutputTooLarge _ => True | _ => False end.

(** What the first run gives, the second gives too or refuses. *)
Definition agrees {A} (r1 r2 : result ExpressionError A) : Prop :=
  ∀ a, r1 = Ok a → r2 = Ok a ∨ ∃ err, r2 = Err err ∧ resource_error err.

Lemma agrees_refl {A} (r : result ExpressionError A) : agrees r r.
Proof. intros a ->. by left. Qed.

Lemma agrees_err {A} err (r : result ExpressionError A) : agrees (Err err) r.
Proof. by intros a. Qed.

Lemma agrees_refused {A} (r : result ExpressionError A) err : resource_error err → agrees r (Err err).
Proof. intros He a _. right. by exists err. Qed.

Lemma agrees_bind {A B} (r1 r2 : result ExpressionError A) (f g : A → result ExpressionError B) :
  agrees r1 r2 → (∀ a, agrees (f a) (g a)) → agrees (r1 ≫= f) (r2 ≫= g).
Proof.
  intros Hr Hf b (a & -> & Hb)%bind_Ok. destruct (Hr a eq_refl) as [->|(err & -> & He)].
  - cbn [mbind result_bind]. by apply Hf.
  - right. by exists err.
Qed.

Lemma agrees_fmap {A B} (f : A → B) (r1 r2 : result ExpressionError A) :
  agrees r1 r2 → agrees (f <$> r1) (f <$> r2).
Proof.
  intros Hr. apply (agrees_bind r1 r2 (λ a, Ok (f a)) (λ a, Ok (f a))); [done|]. intros a. apply agrees_refl.
Qed.

Section budgets.
Context {num : Type} `{NumberOps num, JsonCodec num, UnicodeCase}.
Variable hash_files : list (value num) → option string → result ExpressionError string.
Implicit Types (e : Expr num) (b : EvalBudget) (v : value num) (c : Context num).

(** ** Built-in functions *)

Lemma push_format_agrees output s b1 b2 :
  agrees (push_format_capped output s b1) (push_format_capped output s b2).
Proof.
  intros a. unfold push_format_capped. destruct (_ <? len s)%N; [done|].
  destruct (remaining b1 - _ <? _)%N; [done|]. intros [= <-].
  destruct (remaining b2 - _ <? _)%N; [right; by eexists|by left].
Qed.

Lemma push_evaluation_agrees output s b1 b2 :
  agrees (push_evaluation_capped output s b1) (push_evaluation_capped output s b2).
Proof.
  intros a. unfold push_evaluation_capped. destruct (remaining b1 - _ <? _)%N; [done|]. intros [= <-].
  destruct (remaining b2 - _ <? _)%N; [right; by eexists|by left].
Qed.

Lemma capped_agrees l1 l2 fragments :
  agrees (ok_or evaluation_too_large (capped_write l1 "" fragments))
         (ok_or evaluation_too_large (capped_write l2 "" fragments)).
Proof.
  intros a. rewrite !capped_write_spec by (unfold len; simpl; lia).
  destruct (_ <=? l1)%N; [|done]. intros [= <-]. destruct (_ <=? l2)%N; [by left|right; by eexists].
Qed.

Lemma string_value_agrees v l1 l2 :
  agrees (string_value_capped v l1) (string_value_capped v l2).
Proof.
  unfold string_value_capped. destruct v as [|[]| | | |]; simpl; try apply agrees_refl; apply capped_agrees.
Qed.

Lemma format_loop_agrees fuel format values b1 b2 rest seg output :
  agrees (format_loop fuel format values b1 rest seg output) (format_loop fuel format values b2 rest seg output).
Proof.
  revert rest seg output. induction fuel as [|fuel IH]; intros [|byte r] seg output; cbn [format_loop];
    [apply push_format_agrees|apply agrees_err|apply push_format_agrees|].
  destruct (byte =? ch "{")%N; [|destruct (byte =? ch "}")%N; [|apply IH]].
  - apply agrees_bind; [apply push_format_agrees|]. intros out. case_bool_decide.
    { apply agrees_bind; [apply push_format_agrees|]. intros out'. apply IH. }
    destruct (take_while is_ascii_digit r) as [digits r']. destruct (length digits =? 0); [apply agrees_err|].
    apply agrees_bind; [apply agrees_refl|]. intros index. case_bool_decide; [|apply agrees_err].
    apply agrees_bind; [apply agrees_refl|]. intros v. apply agrees_bind; [apply agrees_refl|]. intros rendered.
    apply agrees_bind; [apply push_format_agrees|]. intros out'. apply IH.
  - apply agrees_bind; [apply push_format_agrees|]. intros out. case_bool_decide; [|apply agrees_err].
    apply agrees_bind; [apply push_format_agrees|]. intros out'. apply IH.
Qed.

Lemma format_args_agrees values b1 b2 : agrees (format_args values b1) (format_args values b2).
Proof.
  unfold format_args. apply agrees_bind; [apply agrees_refl|]. intros format. apply format_loop_agrees.
Qed.

Lemma join_loop_agrees b1 b2 separator first items output :
  agrees (join_loop b1 separator first items output) (join_loop b2 separator first items output).
Proof.
  revert first output. induction items as [|v items IH]; intros first output; cbn [join_loop]; [apply agrees_refl|].
  apply agrees_bind; [destruct first; [apply agrees_refl|apply push_evaluation_agrees]|]. intros out.
  apply agrees_bind; [apply string_value_agrees|]. intros rendered.
  apply agrees_bind; [apply push_evaluation_agrees|]. intros out'. apply IH.
Qed.

Lemma join_args_agrees values b1 b2 : agrees (join_args values b1) (join_args values b2).
Proof.
  unfold join_args. apply agrees_bind.
  { destruct (values !! 1) as [v|]; [|apply agrees_refl].
    destruct (is_primitive v); [apply string_value_agrees|apply agrees_refl]. }
  intros separator. assert (∀ v, agrees
    (if is_primitive v then rendered ← string_value_capped v (remaining b1); push_evaluation_capped "" rendered b1 else Ok "")
    (if is_primitive v then rendered ← string_value_capped v (remaining b2); push_evaluation_capped "" rendered b2 else Ok ""))
    as Hprim.
  { intros v. destruct (is_primitive v); [|apply agrees_refl].
    apply agrees_bind; [apply string_value_agrees|]. intros rendered. apply push_evaluation_agrees. }
  destruct (head values) as [v|]; [|apply agrees_refl].
  destruct v; try apply Hprim. apply join_loop_agrees.
Qed.

Lemma call_function_agrees name lower values c b1 b2 :
  agrees (call_function hash_files name lower values c b1) (call_function hash_files name lower values c b2).
Proof.
  unfold call_function. repeat (case_match; try apply agrees_refl);
    apply agrees_fmap; [apply format_args_agrees|apply join_args_agrees|apply capped_agrees].
Qed.

(** ** Evaluation *)

Lemma result_fmap_Ok {A B} (f : A → B) (r : result ExpressionError A) y :
  f <$> r = Ok y → ∃ x, r = Ok x ∧ y = f x.
Proof. destruct r; [intros [= <-]; by eexists|done]. Qed.

(** Agreement up to the budget that is left. *)
Definition same_value {A} (r1 r2 : result ExpressionError (A * EvalBudget)) : Prop :=
  agrees (fst <$> r1) (fst <$> r2).

Lemma same_value_ok {A} (a : A) b1 b2 : same_value (Ok (a, b1)) (Ok (a, b2)).
Proof. apply agrees_refl. Qed.

Lemma same_value_bind {A B} (r1 r2 : result ExpressionError (A * EvalBudget))
    (f g : A → EvalBudget → result ExpressionError (B * EvalBudget)) :
  same_value r1 r2 → (∀ a b1 b2, same_value (f a b1) (g a b2)) →
  same_value ('(a, b) ← r1; f a b) ('(a, b) ← r2; g a b).
Proof.
  intros Hr Hf x (y & (p & -> & Hy)%bind_Ok & ->)%result_fmap_Ok. destruct p as [a b1]. cbn in Hr.
  destruct (Hr a eq_refl) as [(p & -> & ->)%result_fmap_Ok|(err & He & Hres)].
  - destruct p as [a b2]. apply (Hf a b1 b2). cbn in Hy. by rewrite Hy.
  - destruct r2 as [p|err']; [done|]. injection He as ->. right. by exists err.
Qed.

Abbreviation run c := (eval hash_files c).

Lemma eval_args_same c1 args b1 b2 :
  Forall (λ e, ∀ b1 b2, same_value (run c1 e b1) (run c1 e b2)) args →
  same_value (eval_args (run c1) args b1) (eval_args (run c1) args b2).
Proof.
  intros Hall. revert b1 b2. induction Hall as [|a args Ha _ IH]; intros b1 b2; [apply same_value_ok|].
  cbn [eval_args]. apply same_value_bind; [apply Ha|]. intros v b1' b2'.
  apply same_value_bind; [apply IH|]. intros vs ? ?. apply same_value_ok.
Qed.

Lemma eval_case_same c args b1 b2 :
  Forall (λ e, ∀ b1 b2, same_value (run c e b1) (run c e b2)) args →
  same_value (eval_case (run c) args b1) (eval_case (run c) args b2).
Proof.
  revert b1 b2. induction args as [args IH] using (induction_ltof1 _ length); unfold ltof in IH.
  intros b1 b2 Hall. destruct args as [|a [|r args]]; cbn [eval_case]; [apply agrees_err|by inversion Hall|].
  inversion Hall as [|? ? Ha Hall']; inversion Hall' as [|? ? Hr Hargs]; subst.
  apply same_value_bind; [apply Ha|]. intros v b1' b2'. destruct v as [|[]| | | |]; try apply agrees_err; [apply Hr|].
  apply IH; [simpl; lia|done].
Qed.

(** A value is the same whatever the budget, unless it is refused. *)
Lemma eval_same_value c e b1 b2 : same_value (run c e b1) (run c e b2).
Proof.
  revert b1 b2.
  induction e as [v|p|e IHe|op l r IHl IHr|name args IHargs|e p IHe|k v IHk IHv] using Expr_ind'; intros b1 b2;
    rewrite !eval_unfold; unfold eval_guard;
    (case_match; [apply agrees_err|]); (case_match; [by apply agrees_refused|]);
    (apply same_value_bind; [|intros ? ? ?; apply same_value_ok]); unfold eval_inner;
    (apply same_value_bind;
      [|intros w b1' b2'; unfold charge; repeat (case_match; try apply agrees_err; try by apply agrees_refused);
        apply same_value_ok]).
  - apply same_value_ok.
  - destruct (resolve_ref c p); apply same_value_ok.
  - apply same_value_bind; [apply IHe|]. intros w ? ?. apply same_value_ok.
  - unfold eval_binary. apply same_value_bind; [apply IHl|]. intros w b1' b2'.
    destruct op; try (destruct (is_truthy w); try apply same_value_ok);
      (apply same_value_bind; [apply IHr|]; intros ? ? ?; apply same_value_ok).
  - unfold eval_call. destruct (validate_function_arity name (length args)) as [[]|]; [|apply agrees_err].
    cbn [mbind result_bind]. destruct (str_eqb (to_ascii_lowercase name) "case"); [by apply eval_case_same|].
    apply same_value_bind; [by apply eval_args_same|]. intros values b1' b2' x.
    intros (y & (w & Hw & [= <-])%bind_Ok & ->)%result_fmap_Ok.
    destruct (call_function_agrees name (to_ascii_lowercase name) values c b1' b2' w Hw) as [->|(err & -> & He)];
      [by left|right; by exists err].
  - apply same_value_bind; [apply IHe|]. intros w ? ?. apply same_value_ok.
  - apply same_value_bind; [apply IHk|]. intros w ? ?. apply same_value_bind; [apply IHv|].
    intros w' ? ?. apply same_value_ok.
Qed.

End budgets.
