(* ===== verification/SecretReads.v ===== *)
(** * Static collection of references

    [collect_expression_references_from_expr],
    [collect_context_properties_from_expr] and [collect_secret_reads_from_expr]
    of [crates/preloop-gha-expressions/src/evaluator.rs].  The server narrows
    the secrets it delivers to a job by the last one; [secret_reads_sound]
    shows that the narrowing cannot change what an expression evaluates to. *)
From S2P Require Export ExprSafety.

Record ContextFunctionCall : Type := mkCall { call_name : string; argument_count : nat }.

Record ExpressionReferences : Type := mkRefs {
  contexts : gset string;
  functions : list ContextFunctionCall;
}.

Record SecretReads : Type := mkReads { names : gset string; dynamic : bool }.

Section collect.
Context {num : Type}.
Implicit Types (e : Expr num).

Definition is_context_function (lower : string) : bool :=
  bool_decide (lower ∈ ["always"; "success"; "failure"; "cancelled"; "hashfiles"]).

Fixpoint collect_expression_references_from_expr e (refs : ExpressionReferences) :
    ExpressionReferences :=
  match e with
  | Path path =>
      match path with
      | first :: _ => mkRefs ({[to_ascii_lowercase first]} ∪ contexts refs) (functions refs)
      | [] => refs
      end
  | Literal _ => refs
  | UnaryNot inner | MemberAccess inner _ => collect_expression_references_from_expr inner refs
  | Index base key =>
      collect_expression_references_from_expr key
        (collect_expression_references_from_expr base refs)
  | Binary _ l r =>
      collect_expression_references_from_expr r (collect_expression_references_from_expr l refs)
  | Call name args =>
      let lower := to_ascii_lowercase name in
      let refs :=
        if is_context_function lower
        then mkRefs ({[lower]} ∪ contexts refs) (functions refs ++ [mkCall lower (length args)])
        else refs in
      foldl (λ refs arg, collect_expression_references_from_expr arg refs) refs args
  end.

Abbreviation properties := (gmap string (gset string)).

Fixpoint collect_context_properties_from_expr e (props : properties) : properties :=
  match e with
  | Path path =>
      match path with
      | context :: property :: _ =>
          let key := to_ascii_lowercase context in
          <[key := {[property]} ∪ default ∅ (props !! key)]> props
      | _ => props
      end
  | Literal _ => props
  | UnaryNot inner | MemberAccess inner _ => collect_context_properties_from_expr inner props
  | Index base key =>
      collect_context_properties_from_expr key (collect_context_properties_from_expr base props)
  | Binary _ l r =>
      collect_context_properties_from_expr r (collect_context_properties_from_expr l props)
  | Call _ args => foldl (λ props arg, collect_context_properties_from_expr arg props) props args
  end.

Definition set_dynamic (r : SecretReads) : SecretReads := mkReads (names r) true.
Definition add_name (name : string) (r : SecretReads) : SecretReads :=
  mkReads ({[name]} ∪ names r) (dynamic r).

Definition is_secrets (s : string) : bool := eq_ignore_ascii_case s "secrets".

(** A bare [secrets] path, the base of an index into the context. *)
Definition bare_secrets e : bool :=
  match e with Path [root] => is_secrets root | _ => false end.

Fixpoint collect_secret_reads_from_expr e (reads : SecretReads) : SecretReads :=
  match e with
  | Path path =>
      match path with
      | [] => reads
      | first :: rest =>
          if is_secrets first then
            match rest with
            | [] => set_dynamic reads
            | segment :: _ => if str_eqb segment "*" then set_dynamic reads else add_name segment reads
            end
          else reads
      end
  | Literal _ => reads
  | UnaryNot inner => collect_secret_reads_from_expr inner reads
  | MemberAccess inner _ => collect_secret_reads_from_expr inner reads
  | Index base key =>
      if bare_secrets base then
        match key with
        | Literal (JString name) => add_name name reads
        | _ => collect_secret_reads_from_expr key (set_dynamic reads)
        end
      else collect_secret_reads_from_expr key (collect_secret_reads_from_expr base reads)
  | Binary _ l r => collect_secret_reads_from_expr r (collect_secret_reads_from_expr l reads)
  | Call _ args => foldl (λ reads arg, collect_secret_reads_from_expr arg reads) reads args
  end.

Definition no_reads : SecretReads := mkReads ∅ false.
Definition secret_reads e : SecretReads := collect_secret_reads_from_expr e no_reads.

(** ** The accumulator only grows *)

Definition reads_le (r r' : SecretReads) : Prop :=
  names r ⊆ names r' ∧ (dynamic r = true → dynamic r' = true).

#[global] Instance reads_le_preorder : PreOrder reads_le.
Proof.
  split; [intros r; by split|]. intros r1 r2 r3 [? ?] [? ?]. split; [set_solver|auto].
Qed.

Lemma set_dynamic_le r : reads_le r (set_dynamic r).
Proof. by split. Qed.
Lemma add_name_le n r : reads_le r (add_name n r).
Proof. split; simpl; [set_solver|done]. Qed.

#[local] Hint Resolve set_dynamic_le add_name_le : preloop.

Lemma foldl_reads_le args r :
  Forall (λ e, ∀ r, reads_le r (collect_secret_reads_from_expr e r)) args →
  reads_le r (foldl (λ reads arg, collect_secret_reads_from_expr arg reads) r args).
Proof.
  intros Hargs. revert r. induction Hargs as [|a args Ha _ IH]; intros r; simpl; [done|].
  etrans; [apply Ha|apply IH].
Qed.

Lemma collect_reads_le e r : reads_le r (collect_secret_reads_from_expr e r).
Proof.
  revert r. induction e as [v|p|e IHe|op l r IHl IHr|name args IHargs|e p IHe|b k IHb IHk]
    using Expr_ind'; intros reads; cbn [collect_secret_reads_from_expr]; auto; try done.
  - repeat (case_match; auto with preloop; try done).
  - etrans; [apply IHl|apply IHr].
  - by apply foldl_reads_le.
  - assert (reads_le reads (collect_secret_reads_from_expr k (set_dynamic reads)))
      by (etrans; [apply set_dynamic_le|apply IHk]).
    case_match; [|etrans; [apply IHb|apply IHk]].
    repeat (case_match; auto with preloop).
Qed.

Lemma collect_args_le a args r :
  a ∈ args →
  ∃ r', reads_le (collect_secret_reads_from_expr a r')
    (foldl (λ reads arg, collect_secret_reads_from_expr arg reads) r args).
Proof.
  revert r. induction args as [|b args IH]; intros r; [by intros ?%elem_of_nil|].
  intros [->|Ha]%elem_of_cons; simpl; [|by apply IH].
  exists r. apply foldl_reads_le, Forall_forall. intros e _ r'. apply collect_reads_le.
Qed.

End collect.

(** ** Contexts that agree on the collected secrets *)
Section noninterference.
Context {num : Type} `{NumberOps num, JsonCodec num, UnicodeCase}.
Variable hash_files : list (value num) → option string → result ExpressionError string.
Implicit Types (e : Expr num) (c : Context num) (b : EvalBudget) (v : value num).

(** [c2] is [c1] with another [secrets] object, in which the names collected
    in [reads] keep their values. *)
Definition same_but_secrets (reads : SecretReads) c1 c2 : Prop :=
  success c1 = success c2 ∧ failure c1 = failure c2 ∧ cancelled c1 = cancelled c2 ∧
  workspace_dir c1 = workspace_dir c2 ∧
  (∀ root, root ≠ "secrets" → roots c1 !! root = roots c2 !! root) ∧
  ∃ m1 m2, roots c1 !! "secrets" = Some (JObject m1) ∧ roots c2 !! "secrets" = Some (JObject m2) ∧
    ∀ name, name ∈ names reads → imap_get name m1 = imap_get name m2.

Variables c1 c2 : Context num.

(** Successful evaluations of [e] in the two contexts yield the same value. *)
Definition agree e : Prop :=
  ∀ b1 b2 v1 v2 b1' b2', eval hash_files c1 e b1 = Ok (v1, b1') →
    eval hash_files c2 e b2 = Ok (v2, b2') → v1 = v2.

Lemma eval_inv c e b v b' :
  eval hash_files c e b = Ok (v, b') →
  ∃ b0 b1, eval_inner hash_files c (eval hash_files c) e b0 = Ok (v, b1).
Proof.
  rewrite eval_unfold. unfold eval_guard. case_match; [done|].
  intros ([v1 b1] & He & [= <- <-])%bind_Ok. by eexists _, _.
Qed.

(** Strip the charge at the end of [eval_inner]. *)
Lemma charged_inv (r : result ExpressionError (value num * EvalBudget)) v b' :
  ('(v, b) ← r; b ← charge b v; Ok (v, b)) = Ok (v, b') → ∃ b, r = Ok (v, b).
Proof. intros ([v1 b1] & -> & (b2 & _ & [= <- <-])%bind_Ok)%bind_Ok. by eexists. Qed.

Lemma path_value c path b0 v b :
  (match resolve_ref c path with
   | Some v => Ok (v, b0)
   | None => Ok (resolve c path, b0)
   end : result ExpressionError _) = Ok (v, b) →
  v = default (resolve c path) (resolve_ref c path).
Proof. by destruct (resolve_ref c path); intros [= <- <-]. Qed.

Lemma not_secrets_root s : is_secrets s = false → s ≠ "secrets".
Proof. unfold is_secrets, eq_ignore_ascii_case. intros Hs ->. by vm_compute in Hs. Qed.

(** The value of a path whose read is collected. *)
Lemma path_agree reads path r :
  same_but_secrets reads c1 c2 → dynamic reads = false →
  reads_le (collect_secret_reads_from_expr (num:=num) (Path path) r) reads →
  default (resolve c1 path) (resolve_ref c1 path) = default (resolve c2 path) (resolve_ref c2 path).
Proof.
  intros (_ & _ & _ & _ & Hroots & m1 & m2 & H1' & H2' & Hnames) Hdyn [Hle Hd].
  destruct path as [|root rest]; [done|]. simpl in *.
  destruct (is_secrets root) eqn:Hsec.
  - destruct rest as [|seg rest]; simpl in *; [by rewrite Hd in Hdyn|].
    destruct (str_eqb seg "*") eqn:Hstar; [by rewrite Hd in Hdyn|].
    destruct (decide (root = "secrets")) as [->|Hne].
    + rewrite H1', H2'. unfold resolve_value. cbn -[str_eqb imap_get]. unfold apply_segment at 2 4.
      rewrite Hstar.
      rewrite (Hnames seg) by (simpl in Hle; set_solver). done.
    + by rewrite Hroots.
  - rewrite Hroots by by apply not_secrets_root. done.
Qed.

Lemma string_value_bounded_det v l1 l2 o1 o2 s1 s2 :
  string_value_bounded v l1 o1 = Ok s1 → string_value_bounded v l2 o2 = Ok s2 → s1 = s2.
Proof.
  destruct v as [|[]| | |vs|m]; simpl; try congruence;
    rewrite !capped_write_spec by (unfold len; simpl; lia);
    repeat case_match; simpl; congruence.
Qed.

Lemma push_format_det out s b out' : push_format_capped out s b = Ok out' → out' = out +:+ s.
Proof. unfold push_format_capped. repeat case_match; congruence. Qed.

Lemma push_evaluation_det out s b out' :
  push_evaluation_capped out s b = Ok out' → out' = out +:+ s.
Proof. unfold push_evaluation_capped. repeat case_match; congruence. Qed.

(** Two runs of the same step that both succeed continue with one value. *)
Ltac step_both :=
  lazymatch goal with
  | |- (push_format_capped _ _ _ ≫= _) = _ → _ =>
      intros (? & ->%push_format_det & Hrun1)%bind_Ok (? & ->%push_format_det & Hrun2)%bind_Ok;
      revert Hrun1 Hrun2
  | |- (push_evaluation_capped _ _ _ ≫= _) = _ → _ =>
      intros (? & ->%push_evaluation_det & Hrun1)%bind_Ok
             (? & ->%push_evaluation_det & Hrun2)%bind_Ok;
      revert Hrun1 Hrun2
  | |- (ok_or _ ?o ≫= _) = _ → _ => destruct o; simpl; [|done]
  | |- (string_value_bounded _ _ _ ≫= _) = _ → _ =>
      intros (s1 & Hs1 & Hrun1)%bind_Ok (s2 & Hs2 & Hrun2)%bind_Ok;
      rewrite (string_value_bounded_det _ _ _ _ _ _ _ Hs1 Hs2) in Hrun1;
      revert Hrun1 Hrun2; clear Hs1 Hs2
  | |- (string_value_capped _ _ ≫= _) = _ → _ => unfold string_value_capped at 1 2
  | |- push_format_capped _ _ _ = _ → _ => by intros ->%push_format_det ->%push_format_det
  | |- push_evaluation_capped _ _ _ = _ → _ =>
      by intros ->%push_evaluation_det ->%push_evaluation_det
  end.

Lemma format_loop_det fuel format (values : list (value num)) b1 b2 rest seg out o1 o2 :
  format_loop fuel format values b1 rest seg out = Ok o1 →
  format_loop fuel format values b2 rest seg out = Ok o2 → o1 = o2.
Proof.
  revert rest seg out. induction fuel as [|fuel IH]; intros rest seg out.
  { destruct rest; simpl; [step_both|done]. }
  destruct rest as [|byte r]; [cbn [format_loop]; step_both|]. cbn [format_loop].
  destruct (byte =? ch "{")%N; [|destruct (byte =? ch "}")%N; [|apply IH]].
  - step_both. case_bool_decide; [step_both; apply IH|].
    destruct (take_while is_ascii_digit r) as [digits r']. case_match; [done|].
    step_both. case_bool_decide; [|done]. step_both. step_both. step_both. apply IH.
  - step_both. case_bool_decide; [step_both; apply IH|done].
Qed.

Lemma format_args_det (values : list (value num)) b1 b2 o1 o2 :
  format_args values b1 = Ok o1 → format_args values b2 = Ok o2 → o1 = o2.
Proof. unfold format_args. step_both. apply format_loop_det. Qed.

Lemma join_loop_det b1 b2 sep first (items : list (value num)) out o1 o2 :
  join_loop b1 sep first items out = Ok o1 → join_loop b2 sep first items out = Ok o2 → o1 = o2.
Proof.
  revert first out. induction items as [|v items IH]; intros first out; cbn [join_loop]; [congruence|].
  destruct first; simpl; [|step_both]; repeat step_both; apply IH.
Qed.

Lemma join_args_det (values : list (value num)) b1 b2 o1 o2 :
  join_args values b1 = Ok o1 → join_args values b2 = Ok o2 → o1 = o2.
Proof.
  unfold join_args.
  intros (sep1 & Hsep1 & Hr1)%bind_Ok (sep2 & Hsep2 & Hr2)%bind_Ok.
  assert (sep1 = sep2) as ->.
  { destruct (values !! 1) as [v|]; [|congruence].
    destruct (is_primitive v); [|congruence]. eapply string_value_bounded_det; eassumption. }
  revert Hr1 Hr2. destruct (head values) as [v|]; [|congruence].
  destruct v; cbn [is_primitive]; try congruence; try apply join_loop_det; repeat step_both.
Qed.

Lemma to_json_pretty_det v b1 b2 o1 o2 :
  to_json_pretty v b1 = Ok o1 → to_json_pretty v b2 = Ok o2 → o1 = o2.
Proof.
  unfold to_json_pretty. rewrite !capped_write_spec by (unfold len; simpl; lia).
  repeat case_match; simpl; congruence.
Qed.

Lemma fmap_Ok {A B} (f : A → B) (r : result ExpressionError A) y :
  f <$> r = Ok y → ∃ x, r = Ok x ∧ y = f x.
Proof. destruct r; [|done]. intros [= <-]. by eexists. Qed.

Lemma call_function_det name lower values b1 b2 v1 v2 :
  success c1 = success c2 → failure c1 = failure c2 → cancelled c1 = cancelled c2 →
  workspace_dir c1 = workspace_dir c2 → function_arity lower ≠ None → lower ≠ "case" →
  call_function hash_files name lower values c1 b1 = Ok v1 →
  call_function hash_files name lower values c2 b2 = Ok v2 → v1 = v2.
Proof.
  intros Hs Hf Hc Hw Hfn%function_arity_names Hcase. unfold function_names in Hfn.
  repeat apply elem_of_cons in Hfn as [->|Hfn]; try done; [..|by apply elem_of_nil in Hfn].
  all: unfold call_function; cbv iota beta; rewrite ?Hs, ?Hf, ?Hc, ?Hw; try congruence.
  all: intros (x1 & Hx1 & ->)%fmap_Ok (x2 & Hx2 & ->)%fmap_Ok; f_equal.
  - by eapply format_args_det.
  - by eapply to_json_pretty_det.
  - by eapply join_args_det.
Qed.

Lemma eval_args_det args b1 b2 vs1 vs2 b1' b2' :
  Forall agree args →
  eval_args (eval hash_files c1) args b1 = Ok (vs1, b1') →
  eval_args (eval hash_files c2) args b2 = Ok (vs2, b2') → vs1 = vs2.
Proof.
  intros Hargs. revert b1 b2 vs1 vs2 b1' b2'.
  induction Hargs as [|a args Ha _ IH]; intros b1 b2 vs1 vs2 b1' b2'; cbn [eval_args]; [congruence|].
  intros ([v1 d1] & Hv1 & ([w1 g1] & Hw1 & [= <- _])%bind_Ok)%bind_Ok
         ([v2 d2] & Hv2 & ([w2 g2] & Hw2 & [= <- _])%bind_Ok)%bind_Ok.
  f_equal; [by eapply Ha|by eapply IH].
Qed.

Lemma eval_case_det args : Forall agree args → ∀ b1 b2 v1 v2 b1' b2',
  eval_case (eval hash_files c1) args b1 = Ok (v1, b1') →
  eval_case (eval hash_files c2) args b2 = Ok (v2, b2') → v1 = v2.
Proof.
  intros Hargs. induction args as [args IH] using (induction_ltof1 _ length). unfold ltof in IH.
  destruct args as [|p [|r args]]; intros b1 b2 v1 v2 b1' b2'; cbn [eval_case]; [done| |].
  { rewrite Forall_singleton in Hargs. exact (Hargs b1 b2 v1 v2 b1' b2'). }
  rewrite !Forall_cons in Hargs. destruct Hargs as (Hp & Hr & Hargs).
  intros ([p1 d1] & Hp1 & Hc1)%bind_Ok ([p2 d2] & Hp2 & Hc2)%bind_Ok.
  pose proof (Hp _ _ _ _ _ _ Hp1 Hp2) as <-. destruct p1 as [|[]| | | |]; try done.
  - by eapply Hr.
  - by eapply (IH args); [simpl; lia|..].
Qed.

Lemma eval_call_det name args b1 b2 v1 v2 b1' b2' :
  success c1 = success c2 → failure c1 = failure c2 → cancelled c1 = cancelled c2 →
  workspace_dir c1 = workspace_dir c2 → Forall agree args →
  eval_call hash_files c1 (eval hash_files c1) name args b1 = Ok (v1, b1') →
  eval_call hash_files c2 (eval hash_files c2) name args b2 = Ok (v2, b2') → v1 = v2.
Proof.
  intros Hs Hf Hc Hw Hargs. unfold eval_call.
  destruct (validate_function_arity name (length args)) as [[]|err] eqn:Hval; simpl; [|done].
  destruct (str_eqb (to_ascii_lowercase name) "case") eqn:Hcase; [by apply eval_case_det|].
  intros ([vs1 d1] & Hv1 & (w1 & Hw1 & [= <- _])%bind_Ok)%bind_Ok
         ([vs2 d2] & Hv2 & (w2 & Hw2 & [= <- _])%bind_Ok)%bind_Ok.
  rewrite (eval_args_det args _ _ _ _ _ _ Hargs Hv1 Hv2) in Hw1.
  eapply call_function_det; [done..| | |exact Hw1|exact Hw2].
  - intros Hn. unfold validate_function_arity in Hval. by rewrite Hn in Hval.
  - intros Heq. rewrite Heq in Hcase. by vm_compute in Hcase.
Qed.

Lemma eval_binary_det op l r b1 b2 v1 v2 b1' b2' :
  agree l → agree r →
  eval_binary (eval hash_files c1) op l r b1 = Ok (v1, b1') →
  eval_binary (eval hash_files c2) op l r b2 = Ok (v2, b2') → v1 = v2.
Proof.
  intros Hl Hr. unfold eval_binary.
  intros ([l1 d1] & Hl1 & Hc1)%bind_Ok ([l2 d2] & Hl2 & Hc2)%bind_Ok.
  pose proof (Hl _ _ _ _ _ _ Hl1 Hl2) as <-. revert Hc1 Hc2.
  destruct op; [destruct (is_truthy l1); try congruence..| | | | | |];
    intros ([r1 g1] & Hr1 & [= <- _])%bind_Ok ([r2 g2] & Hr2 & [= <- _])%bind_Ok;
    by rewrite (Hr _ _ _ _ _ _ Hr1 Hr2).
Qed.

Lemma eval_path_value c path b v b' :
  eval hash_files c (Path path) b = Ok (v, b') → v = default (resolve c path) (resolve_ref c path).
Proof. intros (? & ? & (? & Hv%path_value)%charged_inv)%eval_inv. done. Qed.

Lemma eval_literal_value c w b v b' : eval hash_files c (Literal w) b = Ok (v, b') → v = w.
Proof.
  intros (d & g & He)%eval_inv. unfold eval_inner in He.
  apply charged_inv in He as (? & [= <- _]). done.
Qed.

(** Indexing the bare [secrets] context by a collected literal name. *)
Lemma index_secrets_agree reads base name :
  same_but_secrets reads c1 c2 → bare_secrets base = true → name ∈ names reads →
  agree (Index base (Literal (JString name))).
Proof.
  intros (_ & _ & _ & _ & Hroots & m1 & m2 & Hm1 & Hm2 & Hnames) Hbare Hin.
  destruct base as [|[|root []]| | | | |]; try done.
  intros b1 b2 v1 v2 b1' b2' (d1 & g1 & (x1 & Hx1)%charged_inv)%eval_inv
    (d2 & g2 & (x2 & Hx2)%charged_inv)%eval_inv. revert Hx1 Hx2.
  intros ([w1 e1] & ->%eval_path_value & ([k1 f1] & ->%eval_literal_value & [= <- _])%bind_Ok)%bind_Ok
         ([w2 e2] & ->%eval_path_value & ([k2 f2] & ->%eval_literal_value & [= <- _])%bind_Ok)%bind_Ok.
  unfold resolve_ref, resolve. cbn -[imap_get index_value].
  destruct (decide (root = "secrets")) as [->|Hne].
  - rewrite Hm1, Hm2. cbn -[imap_get]. by rewrite Hnames.
  - by rewrite Hroots.
Qed.

Lemma reads_le_names n r reads : reads_le (add_name n r) reads → n ∈ names reads.
Proof. intros [Hle _]. simpl in Hle. set_solver. Qed.
Lemma reads_le_dynamic r r' reads :
  dynamic reads = false → reads_le (set_dynamic r) r' → ¬ reads_le r' reads.
Proof. intros Hd [_ H'] [_ H'']. rewrite H'' in Hd; [done|by apply H']. Qed.

Lemma foldl_collect_Forall args r reads :
  reads_le (foldl (λ reads arg, collect_secret_reads_from_expr arg reads) r args) reads →
  Forall (λ e, ∃ r', reads_le (collect_secret_reads_from_expr (num:=num) e r') reads) args.
Proof.
  intros Hle. apply Forall_forall. intros a Ha.
  destruct (collect_args_le a args r Ha) as [r' Hr']. exists r'. by etrans.
Qed.

(** One level of [eval] in both contexts. *)
Ltac peel :=
  intros b1 b2 v1 v2 b1' b2' (d1 & g1 & (x1 & Hx1)%charged_inv)%eval_inv
    (d2 & g2 & (x2 & Hx2)%charged_inv)%eval_inv; revert Hx1 Hx2.

Lemma collected_agree reads e r :
  same_but_secrets reads c1 c2 → dynamic reads = false →
  reads_le (collect_secret_reads_from_expr e r) reads → agree e.
Proof.
  intros Hsame Hdyn. pose proof Hsame as (Hs & Hf & Hc & Hw & _). revert r.
  induction e as [v|p|e IHe|op l rr IHl IHr|name args IHargs|e p IHe|b k IHb IHk]
    using Expr_ind'; intros r Hle.
  - by intros b1 b2 v1 v2 b1' b2' ->%eval_literal_value ->%eval_literal_value.
  - intros b1 b2 v1 v2 b1' b2' ->%eval_path_value ->%eval_path_value. by eapply path_agree.
  - peel. intros ([w1 ?] & Hw1 & [= <- _])%bind_Ok ([w2 ?] & Hw2 & [= <- _])%bind_Ok.
    by rewrite (IHe r Hle _ _ _ _ _ _ Hw1 Hw2).
  - peel. apply eval_binary_det; [|by eapply IHr].
    eapply IHl. etrans; [apply (collect_reads_le rr)|exact Hle].
  - peel. apply eval_call_det; try done.
    apply foldl_collect_Forall in Hle. apply Forall_forall. intros a Ha.
    rewrite Forall_forall in IHargs, Hle. destruct (Hle a Ha) as [r' Hr']. by eapply IHargs.
  - peel. intros ([w1 ?] & Hw1 & [= <- _])%bind_Ok ([w2 ?] & Hw2 & [= <- _])%bind_Ok.
    by rewrite (IHe r Hle _ _ _ _ _ _ Hw1 Hw2).
  - cbn [collect_secret_reads_from_expr] in Hle. destruct (bare_secrets b) eqn:Hbare.
    { assert (¬ reads_le (collect_secret_reads_from_expr k (set_dynamic r)) reads) as Hno
        by (eapply reads_le_dynamic; [done|apply collect_reads_le]).
      destruct k as [[]| | | | | |]; try done.
      apply (index_secrets_agree reads); [done..|by eapply reads_le_names]. }
    peel. intros ([w1 ?] & Hw1 & ([k1 ?] & Hk1 & [= <- _])%bind_Ok)%bind_Ok
      ([w2 ?] & Hw2 & ([k2 ?] & Hk2 & [= <- _])%bind_Ok)%bind_Ok.
    rewrite (IHk _ Hle _ _ _ _ _ _ Hk1 Hk2).
    assert (reads_le (collect_secret_reads_from_expr b r) reads) as Hleb
      by (etrans; [apply (collect_reads_le k)|exact Hle]).
    by rewrite (IHb _ Hleb _ _ _ _ _ _ Hw1 Hw2).
Qed.

End noninterference.

(** C14: delivering only the collected secrets cannot change a value.  When
    [secret_reads e] is not dynamic, two contexts that differ only in secrets
    outside the collected names give [e] the same value whenever both
    evaluations succeed (they may differ in how much of the budget the deleted
    secrets would have used). *)
Theorem secret_reads_sound {num : Type} `{NumberOps num, JsonCodec num, UnicodeCase}
    (hash_files : list (value num) → option string → result ExpressionError string)
    (c1 c2 : Context num) (e : Expr num) v1 v2 :
  dynamic (secret_reads e) = false →
  same_but_secrets (secret_reads e) c1 c2 →
  eval_expr hash_files c1 e = Ok v1 → eval_expr hash_files c2 e = Ok v2 → v1 = v2.
Proof.
  intros Hdyn Hsame. unfold eval_expr.
  intros ([w1 b1] & He1 & [= <-])%bind_Ok ([w2 b2] & He2 & [= <-])%bind_Ok.
  by eapply (collected_agree hash_files c1 c2 (secret_reads e) e no_reads).
Qed.

(** [secrets.K == 'x'], evaluated with and without the other secret. *)
Definition secret_expr : Expr Z :=
  Binary OpEq (Path ["secrets"; "K"]) (Literal (JString "x")).
Definition secret_context (more : list (string * value Z)) : Context Z :=
  mkContext {[ "secrets" := JObject (("K", JString "X") :: more) ]} true false false None.

Lemma secret_reads_sound_witness : JBool (num:=Z) true = JBool true.
Proof.
  apply (secret_reads_sound no_files (secret_context []) (secret_context [("L", JString "z")])
           secret_expr); [reflexivity| |vm_compute; reflexivity..].
  do 4 (split; [reflexivity|]). split.
  - intros root Hroot. unfold secret_context. simpl. by rewrite !lookup_singleton_ne.
  - eexists _, _. do 2 (split; [reflexivity|]).
    intros name Hname. change (name ∈ ({["K"]} ∪ ∅ : gset string)) in Hname.
    assert (name = "K") as -> by set_solver. reflexivity.
Defined.
