(* ===== verification/Conditions.v ===== *)
(** * Entry points of the expression crate

    [crates/preloop-gha-expressions/src/lib.rs] (the cache of parsed
    expressions and the public functions) and [conditions.rs] (the implicit
    [success()] gate of job and step conditions). *)
From S2P Require Export SecretReads.

(** ** Markers and conditions *)

(** [trim_expression_markers]: the text between the expression markers, or
    the trimmed input. *)
Definition trim_expression_markers (input : string) : string :=
  let value := trim input in
  match s ← strip_prefix "${{" value; strip_suffix "}}" s with
  | Some inner => trim inner
  | None => value
  end.

(** The rest of the text after the string literal whose opening quote was
    read; a doubled quote stays inside the literal. *)
Fixpoint skip_quoted (cs : list char) : list char :=
  match cs with
  | [] => []
  | quoted :: r =>
      if (quoted =? ch "'")%N then
        match r with
        | next :: r' => if (next =? ch "'")%N then skip_quoted r' else r
        | [] => []
        end
      else skip_quoted r
  end.

Fixpoint span (p : char → bool) (cs : list char) : list char * list char :=
  match cs with
  | c :: r => if p c then let '(xs, ys) := span p r in (c :: xs, ys) else ([], cs)
  | [] => ([], [])
  end.

Definition is_ident_start (c : char) : bool := (c =? ch "_")%N || is_ascii_alphabetic c.
Definition is_ident_continue (c : char) : bool := (c =? ch "_")%N || is_ascii_alphanumeric c.

Definition is_status_function (lower : string) : bool :=
  bool_decide (lower ∈ ["success"; "failure"; "cancelled"; "always"]).

Fixpoint contains_status_check_loop (fuel : nat) (cs : list char) : bool :=
  match fuel with
  | O => false
  | S fuel =>
      match cs with
      | [] => false
      | c :: r =>
          if (c =? ch "'")%N then contains_status_check_loop fuel (skip_quoted r)
          else if is_ident_start c then
            let '(xs, r) := span is_ident_continue r in
            let '(_, r) := span is_whitespace r in
            if is_status_function (to_ascii_lowercase (of_chars (c :: xs)))
               && match r with p :: _ => (p =? ch "(")%N | [] => false end
            then true
            else contains_status_check_loop fuel r
          else contains_status_check_loop fuel r
      end
  end.

Definition contains_status_check_function (condition : string) : bool :=
  let cs := chars condition in contains_status_check_loop (S (length cs)) cs.

Definition effective_condition (raw : option string) : string :=
  match raw with
  | Some condition =>
      if str_eqb (trim condition) "" then "success()"
      else
        let stripped := trim_expression_markers condition in
        if contains_status_check_function stripped then stripped
        else "success() && (" +:+ stripped +:+ ")"
  | None => "success()"
  end.

(** ** The scan's fuel is enough *)
Lemma skip_quoted_length cs : length (skip_quoted cs) <= length cs.
Proof.
  remember (length cs) as n eqn:Hn. revert cs Hn.
  induction (lt_wf n) as [n _ IH]. intros [|q [|x r]] ->; simpl; [done|by destruct (q =? ch "'")%N; simpl; lia|].
  destruct (q =? ch "'")%N.
  - destruct (x =? ch "'")%N; simpl; [|lia]. specialize (IH (length r)). simpl in IH. rewrite IH; lia.
  - specialize (IH (S (length r)) ltac:(simpl; lia) (x :: r) eq_refl). simpl in IH. lia.
Qed.

Lemma span_length p cs : length (span p cs).2 <= length cs.
Proof.
  induction cs as [|c r IH]; simpl; [done|]. destruct (p c); [|done].
  destruct (span p r). simpl in *. lia.
Qed.

Lemma contains_status_check_fuel n m cs :
  length cs < n → length cs < m → contains_status_check_loop n cs = contains_status_check_loop m cs.
Proof.
  revert m cs. induction n as [|n IH]; intros [|m] [|c r] Hn Hm; simpl in *; try done; try lia.
  pose proof (skip_quoted_length r). destruct (c =? ch "'")%N; [apply IH; lia|].
  destruct (is_ident_start c); [|apply IH; lia].
  pose proof (span_length is_ident_continue r). destruct (span is_ident_continue r) as [xs r1].
  pose proof (span_length is_whitespace r1). destruct (span is_whitespace r1) as [ws r2]. simpl in *.
  destruct (_ && _); [done|apply IH; lia].
Qed.

(** ** The cache of parsed expressions *)
Section cache.
Context {num : Type} `{NumberOps num}.

Record ParsedExpressionCache : Type := mkCache {
  entries : gmap string (Expr num);
  insertion_order : list string;
}.

Definition PARSED_EXPRESSION_CACHE_CAPACITY : nat := 1024.
Definition MAX_CACHEABLE_EXPRESSION_BYTES : N := 4096.

Definition cache_new : ParsedExpressionCache := mkCache ∅ [].

(** The second critical section of [parse_cached]: insert unless another
    thread did, then evict the oldest entry above the capacity. *)
Definition cache_publish (input : string) (expr : Expr num) (cache : ParsedExpressionCache) :
    Expr num * ParsedExpressionCache :=
  match entries cache !! input with
  | Some existing => (existing, cache)
  | None =>
      let es := <[input := expr]> (entries cache) in
      let order := insertion_order cache ++ [input] in
      match order with
      | oldest :: order' =>
          if PARSED_EXPRESSION_CACHE_CAPACITY <? length order
          then (expr, mkCache (delete oldest es) order')
          else (expr, mkCache es order)
      | [] => (expr, mkCache es order)
      end
  end.

(** [parse_cached] between two states of the shared cache: the one its first
    lock sees, and the one its second lock finds after the parse ([None] when
    the call returns without taking it).  Other threads may have changed the
    cache in between. *)
Definition parse_cached (input : string) (before after : ParsedExpressionCache) :
    result ExpressionError (Expr num) * ParsedExpressionCache :=
  if (MAX_CACHEABLE_EXPRESSION_BYTES <? len input)%N then (parse_input input, after)
  else
    match entries before !! input with
    | Some expr => (Ok expr, after)
    | None =>
        match parse_input input with
        | Err e => (Err e, after)
        | Ok expr => let '(expr, cache) := cache_publish input expr after in (Ok expr, cache)
        end
    end.

(** What every reachable cache satisfies. *)
Record cache_ok (cache : ParsedExpressionCache) : Prop := {
  cache_entries : ∀ input e, entries cache !! input = Some e → parse_input input = Ok e;
  cache_domain : ∀ input, input ∈ insertion_order cache ↔ is_Some (entries cache !! input);
  cache_NoDup : NoDup (insertion_order cache);
  cache_bound : length (insertion_order cache) <= PARSED_EXPRESSION_CACHE_CAPACITY;
  cache_sizes : ∀ input, input ∈ insertion_order cache → (len input <= MAX_CACHEABLE_EXPRESSION_BYTES)%N;
}.

Lemma cache_new_ok : cache_ok cache_new.
Proof.
  split; simpl; [done| |by apply NoDup_nil|unfold PARSED_EXPRESSION_CACHE_CAPACITY; lia|].
  - intros input. split; [by intros ?%elem_of_nil|by intros [? ?]].
  - by intros input ?%elem_of_nil.
Qed.

Lemma cache_publish_ok input expr cache :
  cache_ok cache → parse_input input = Ok expr → (len input <= MAX_CACHEABLE_EXPRESSION_BYTES)%N →
  (cache_publish input expr cache).1 = expr ∧ cache_ok (cache_publish input expr cache).2.
Proof.
  intros Hok Hparse Hlen. destruct Hok as [Hent Hdom Hnd Hbound Hsz]. unfold cache_publish.
  destruct (entries cache !! input) as [e|] eqn:Hin.
  { apply Hent in Hin as He. rewrite Hparse in He; injection He as ->; split; [done|by split]. }
  assert (input ∉ insertion_order cache) as Hfresh by (rewrite Hdom, Hin; by intros [? ?]).
  set (order := insertion_order cache ++ [input]).
  assert (NoDup order) as Hnd' by (apply NoDup_app; repeat split; [done| |apply NoDup_singleton];
        by intros x Hx ->%list_elem_of_singleton).
  assert (length order = S (length (insertion_order cache))) as Hl
    by (unfold order; rewrite length_app; simpl; lia).
  assert (∀ i, i ∈ order ↔ is_Some (<[input:=expr]> (entries cache) !! i)) as Hdom'.
  { intros i. unfold order. rewrite elem_of_app, Hdom, list_elem_of_singleton, lookup_insert_is_Some'.
    naive_solver. }
  assert (∀ i e, <[input:=expr]> (entries cache) !! i = Some e → parse_input i = Ok e) as Hent'.
  { intros i e [[<- <-]|[_ Hi]]%lookup_insert_Some; [done|by apply Hent]. }
  assert (∀ i, i ∈ order → (len i <= MAX_CACHEABLE_EXPRESSION_BYTES)%N) as Hsz'.
  { intros i [Hi| ->%list_elem_of_singleton]%elem_of_app; [by apply Hsz|done]. }
  destruct order as [|oldest order']; [done|].
  destruct (Nat.ltb_spec PARSED_EXPRESSION_CACHE_CAPACITY (length (oldest :: order'))) as [Hc|Hc];
    (split; [done|]); split; simpl in *; auto.
  - intros i e [_ Hi]%lookup_delete_Some. by apply Hent'.
  - intros i. apply NoDup_cons in Hnd' as [Hold _]. specialize (Hdom' i).
    rewrite elem_of_cons in Hdom'. rewrite lookup_delete_is_Some, <-Hdom'.
    split; [intros Hi; split; [by intros ->|by right]|]. by intros [? [->|?]].
  - by apply NoDup_cons in Hnd' as [_ ?].
  - lia.
  - intros i Hi. apply Hsz'. by right.
Qed.

End cache.
Arguments ParsedExpressionCache : clear implicits.

(** The shared cache is invisible and bounded.  Whatever other threads
    did to the cache between the two critical sections of [parse_cached], as
    long as both states satisfy the invariant, the call returns exactly what
    lexing and parsing return, and it leaves a cache that holds only correct
    parses, at most 1024 of them, each of a text of at most 4096 bytes. *)
Theorem parse_cached_transparent {num} `{NumberOps num} (input : string)
    (before after : ParsedExpressionCache num) :
  cache_ok before → cache_ok after →
  (parse_cached input before after).1 = parse_input input ∧
  cache_ok (parse_cached input before after).2.
Proof.
  intros Hb Ha. unfold parse_cached.
  destruct (N.ltb_spec MAX_CACHEABLE_EXPRESSION_BYTES (len input)) as [Hlen|Hlen]; [done|].
  destruct (entries before !! input) as [e|] eqn:He.
  { apply (cache_entries _ Hb) in He. by rewrite He. }
  destruct (parse_input input) as [expr|err] eqn:Hp; [|done].
  pose proof (cache_publish_ok input expr after Ha Hp Hlen) as [H1 H2].
  destruct (cache_publish input expr after) as [e c]. simpl in *. by subst.
Qed.

(** A first call on a fresh cache, then a second one that hits. *)
Lemma parse_cached_transparent_witness :
  (parse_cached (num:=Z) "env.A" cache_new cache_new).1 = parse_input "env.A" ∧
  cache_ok (num:=Z) (parse_cached "env.A" cache_new cache_new).2.
Proof. apply (parse_cached_transparent "env.A"); apply cache_new_ok. Defined.

(** ** Public functions *)
Section api.
Context {num : Type} `{NumberOps num, JsonCodec num, UnicodeCase}.
Variable hash_files : list (value num) → option string → result ExpressionError string.

(** Each entry point strips the markers, parses through the cache (which
    returns what [parse_input] returns) and runs one pass over the tree. *)
Definition validate_expression (input : string) : result ExpressionError unit :=
  expr ← parse_input (num:=num) (trim_expression_markers input);
  validate_function_calls expr.

Definition collect_expression_references (input : string) : result ExpressionError ExpressionReferences :=
  expr ← parse_input (num:=num) (trim_expression_markers input);
  Ok (collect_expression_references_from_expr expr (mkRefs ∅ [])).

Definition collect_contexts (input : string) : result ExpressionError (gset string) :=
  contexts <$> collect_expression_references input.

Definition collect_context_properties (input : string) :
    result ExpressionError (gmap string (gset string)) :=
  expr ← parse_input (num:=num) (trim_expression_markers input);
  Ok (collect_context_properties_from_expr expr ∅).

Definition collect_secret_reads (input : string) : result ExpressionError SecretReads :=
  expr ← parse_input (num:=num) (trim_expression_markers input);
  Ok (collect_secret_reads_from_expr expr no_reads).

Definition eval_expression (input : string) (context : Context num) :
    result ExpressionError (value num) :=
  expr ← parse_input (trim_expression_markers input);
  eval_expr hash_files context expr.

Definition eval_bool (input : string) (context : Context num) : result ExpressionError bool :=
  is_truthy <$> eval_expression input context.

End api.

(** The gate of [effective_condition] is textual: a condition that closes the
    parenthesis itself escapes it. *)
Example implicit_success_gate_escaped :
  let failed := mkContext (num:=Z) ∅ false true false None in
  contains_status_check_function "false) || (true" = false ∧
  validate_expression (num:=Z) (effective_condition (Some "false) || (true")) = Ok tt ∧
  eval_bool no_files (effective_condition (Some "false) || (true")) failed = Ok true ∧
  validate_expression (num:=Z) "false) || (true" ≠ Ok tt.
Proof. repeat split; vm_compute; congruence. Qed.
