(* ===== verification/ParseContext.v ===== *)
(** * Expressions in parentheses

    The server and the expander build conditions as text, by putting conditions
    into parentheses and joining them with [&&] ([effective_condition] of
    [crates/preloop-gha-expressions/src/conditions.rs], [merge_job_conditions] of
    [crates/preloop-gha-parser/src/expand.rs]), and it sends templates to the
    runner as calls whose arguments are expressions.  The lemmas here say that an
    expression that the lexer and the parser of the expression crate accept
    alone is read back as the same tree inside parentheses and as an argument,
    or refused as too deep. *)
From S2P Require Export Conditions.

(** ** The lexer stops at a closing parenthesis and at a comma *)

Definition closes (cs : list char) : Prop := ∃ r, cs = ch ")" :: r ∨ cs = ch "," :: r.

Lemma closes_paren r : closes (ch ")" :: r).
Proof. exists r. by left. Qed.
Lemma closes_comma r : closes (ch "," :: r).
Proof. exists r. by right. Qed.

Lemma lex_string_app out cs s r tail :
  closes tail → lex_string out cs = Ok (s, r) → lex_string out (cs ++ tail) = Ok (s, r ++ tail).
Proof.
  intros (t & Htail). revert out. induction cs as [cs IH] using (induction_ltof1 _ length); unfold ltof in IH.
  intros out. destruct cs as [|c cs]; simpl; [done|].
  destruct (c =? ch "'")%N; [|apply IH; simpl; lia].
  destruct cs as [|c' cs]; simpl; [by destruct Htail as [->| ->]; intros [= <- <-]|].
  destruct (c' =? ch "'")%N; [apply IH; simpl; lia|by intros [= <- <-]].
Qed.

Lemma take_while_closes p cs tail :
  closes tail → p (ch ")") = false → p (ch ",") = false →
  take_while p (cs ++ tail) = ((take_while p cs).1, (take_while p cs).2 ++ tail).
Proof.
  intros (t & Htail) Hp Hc. induction cs as [|c cs IH]; simpl; [destruct Htail as [->| ->]; simpl; by rewrite ?Hp, ?Hc|].
  destruct (p c); [|done]. rewrite IH. by destruct (take_while p cs).
Qed.

Lemma lex_pair_app second d s r ot r' tail :
  closes tail → second ≠ ch ")" → second ≠ ch "," → lex_pair second d s r = Ok (ot, r') →
  lex_pair second d s (r ++ tail) = Ok (ot, r' ++ tail).
Proof.
  intros (t & Htail) Hne Hnc. unfold lex_pair, consume. destruct r as [|c r].
  - cbn [app]. destruct Htail as [->| ->];
      [destruct (N.eqb_spec (ch ")") second); [congruence|]|destruct (N.eqb_spec (ch ",") second); [congruence|]];
      (destruct s; simpl; [|done]); by intros [= <- <-].
  - cbn [app]. destruct (c =? second)%N; [by intros [= <- <-]|].
    destruct s; simpl; [|done]. by intros [= <- <-].
Qed.

Lemma lex_step_app c r ot r' tail :
  closes tail → lex_step c r = Ok (ot, r') → lex_step c (r ++ tail) = Ok (ot, r' ++ tail).
Proof.
  intros Ht. unfold lex_step.
  repeat (match goal with |- (if ?b then _ else _) = _ → _ => destruct b eqn:? end;
          [try (by intros [= <- <-]); try (by apply lex_pair_app)|]).
  - intros ([s r0] & Hs & [= <- <-])%bind_Ok. by rewrite (lex_string_app _ _ _ _ _ Ht Hs).
  - rewrite app_comm_cons, take_while_closes by done. by destruct (take_while _ (c :: r)); intros [= <- <-].
  - rewrite app_comm_cons, take_while_closes by done. by destruct (take_while _ (c :: r)); intros [= <- <-].
  - done.
Qed.

Lemma lex_chars_nonempty cs : lex_chars cs ≠ Ok [].
Proof.
  induction cs as [cs IH] using (induction_ltof1 _ length); unfold ltof in IH.
  destruct cs as [|c cs]; [done|]. rewrite lex_chars_cons.
  destruct (lex_step c cs) as [[[t|] r]|e] eqn:Hs; [|apply lex_step_length in Hs|done].
  - destruct (lex_chars r); discriminate.
  - specialize (IH r ltac:(simpl; lia)). destruct (lex_chars r); [done|discriminate].
Qed.

(** Tokens of a text followed by a closing parenthesis. *)
Lemma lex_chars_closes cs ts tail :
  closes tail → lex_chars cs = Ok (ts ++ [TEnd]) →
  lex_chars (cs ++ tail) = (rest ← lex_chars tail; Ok (ts ++ rest)).
Proof.
  intros Ht. revert ts. induction cs as [cs IH] using (induction_ltof1 _ length); unfold ltof in IH.
  intros ts. destruct cs as [|c cs].
  - rewrite lex_chars_nil. intros Hts. injection Hts as Hts.
    destruct ts as [|t [|t' ts]]; [cbn [app]; by destruct (lex_chars tail)|discriminate..].
  - rewrite lex_chars_cons. cbn [app]. rewrite lex_chars_cons.
    destruct (lex_step c cs) as [[ot r]|e] eqn:Hs; [|done].
    rewrite (lex_step_app c cs ot r tail Ht Hs). apply lex_step_length in Hs.
    intros (toks & Hl & [= Hts])%bind_Ok.
    assert (∃ ts', toks = ts' ++ [TEnd] ∧ ts = match ot with Some t => t :: ts' | None => ts' end)
      as (ts' & -> & ->).
    { destruct ot as [t|]; [|by exists ts]. destruct ts as [|t' ts'].
      - injection Hts as -> ->. by destruct (lex_chars_nonempty r).
      - injection Hts as -> ->. by exists ts'. }
    rewrite (IH r ltac:(simpl; lia) ts' Hl).
    destruct (lex_chars tail); [|done]. by destruct ot.
Qed.

(** ** The parser inside a larger token list

    [alone] is the token list of an expression, [inside] the same tokens
    between others, the next one being a closing parenthesis or a comma.  A parser run on
    [alone] that succeeds is repeated on [inside], from a cursor moved by the
    length of [pre] and a depth moved by [k], unless the depth limit stops it.

    Where the grammar backs out of a malformed suffix of a call, the two runs
    could differ; but then the run on [alone] is left in front of a token that
    starts an expression, which nothing that follows accepts. *)
Section sim.
Context {num : Type} `{NumberOps num}.
Variables (pre ts post : list Token) (cl : Token) (k : nat).
Hypothesis no_end : TEnd ∉ ts.
Hypothesis closing : cl = TRParen ∨ cl = TComma.
Abbreviation alone := (ts ++ [TEnd]).
Abbreviation inside := (pre ++ ts ++ cl :: post).
Abbreviation n := (length ts).
Abbreviation off := (length pre).
Abbreviation PE := (ParsedExpr num).

Definition starts (t : Token) : bool :=
  match t with
  | TIdent _ | TString _ | TNumber _ | TBool _ | TNull | TLParen | TBang => true
  | _ => false
  end.
Definition doomed (i : nat) : Prop := starts (current_at alone i) = true.

Lemma inside_lt i : i < n → inside !! (off + i) = alone !! i.
Proof. intros Hi. rewrite lookup_app_r, Nat.add_comm, Nat.add_sub, !lookup_app_l by lia. done. Qed.

Lemma inside_end : inside !! (off + n) = Some cl.
Proof. rewrite lookup_app_r, Nat.add_comm, Nat.add_sub, lookup_app_r, Nat.sub_diag by lia. done. Qed.

Lemma current_lt i : i < n → current_at inside (off + i) = current_at alone i ∧ current_at alone i ≠ TEnd.
Proof.
  intros Hi. unfold current_at. rewrite inside_lt by done. split; [done|].
  rewrite lookup_app_l by done. destruct (ts !! i) as [t|] eqn:Ht; [|apply lookup_ge_None in Ht; lia].
  simpl. intros ->. by apply no_end, list_elem_of_lookup_2 with i.
Qed.

Lemma current_end : current_at alone n = TEnd.
Proof. unfold current_at. by rewrite lookup_app_r, Nat.sub_diag by lia. Qed.

Lemma current_inside_end : current_at inside (off + n) = cl.
Proof. unfold current_at. by rewrite inside_end. Qed.

Lemma doomed_lt i : i ≤ n → doomed i → i < n.
Proof.
  intros Hi Hd. destruct (decide (i = n)) as [->|]; [|lia]. unfold doomed in Hd. by rewrite current_end in Hd.
Qed.

Definition sim {A} (p q : parser A) (i d d' : nat) : Prop :=
  i ≤ n → d + k ≤ MAX_EXPRESSION_DEPTH → ∀ a st, p (mkPstate i d) = Some (Ok (a, st)) →
  q (mkPstate (off + i) (d + k)) = Some (Err (TooDeep MAX_EXPRESSION_DEPTH)) ∨
  ∃ i', st = mkPstate i' d' ∧ i' ≤ n ∧
    ((d' + k ≤ MAX_EXPRESSION_DEPTH ∧
      q (mkPstate (off + i) (d + k)) = Some (Ok (a, mkPstate (off + i') (d' + k)))) ∨
     doomed i').

(** A parser that moves no further when it succeeds. *)
Definition stays {A} (p : parser A) (i d d' : nat) : Prop :=
  ∀ a st, p (mkPstate i d) = Some (Ok (a, st)) → st = mkPstate i d'.

Lemma bind_parser {A B} (p : parser A) (f : A → parser B) st b st' :
  (p ≫= f) st = Some (Ok (b, st')) ↔ ∃ a s, p st = Some (Ok (a, s)) ∧ f a s = Some (Ok (b, st')).
Proof.
  unfold mbind, parser_bind. destruct (p st) as [[[a s]|e]|]; split; try done; try naive_solver.
Qed.

Lemma sim_bind {A B} (p q : parser A) (f g : A → parser B) i d d1 d2 :
  sim p q i d d1 → (∀ a i', sim (f a) (g a) i' d1 d2) → (∀ a i', doomed i' → stays (f a) i' d1 d2) →
  sim (p ≫= f) (q ≫= g) i d d2.
Proof.
  intros Hp Hf Hs Hi Hd b st (a & s & Ha & Hb)%bind_parser. unfold mbind, parser_bind.
  destruct (Hp Hi Hd a s Ha) as [->|(i1 & -> & Hi1 & [[Hd1 ->]|Hdoom])]; [by left| |].
  - by apply Hf.
  - right. exists i1. apply Hs in Hb; [|done]. subst. auto.
Qed.

Lemma sim_assoc {A B C} (p q : parser A) (f g : A → parser B) (u v : B → parser C) i d d' :
  sim (p ≫= λ a, f a ≫= u) (q ≫= λ a, g a ≫= v) i d d' → sim ((p ≫= f) ≫= u) ((q ≫= g) ≫= v) i d d'.
Proof.
  intros Hs Hi Hd c st. specialize (Hs Hi Hd c st). unfold mbind, parser_bind in *.
  destruct (p _) as [[[a s]|]|]; [|done..]. intros Hc. destruct (q _) as [[[a' s']|]|]; by apply Hs.
Qed.

Lemma sim_ret {A} (a : A) i d : sim (mret a) (mret a) i d d.
Proof. intros Hi Hd b st [= <- <-]. right. exists i. auto. Qed.

Lemma sim_ret_bind {A B} (a : A) (f g : A → parser B) i d d' :
  sim (f a) (g a) i d d' → sim (mret a ≫= f) (mret a ≫= g) i d d'.
Proof. done. Qed.

Lemma sim_lift {A B} (r : result ExpressionError A) (f g : A → parser B) i d d' :
  (∀ a, sim (f a) (g a) i d d') → sim (p_lift r ≫= f) (p_lift r ≫= g) i d d'.
Proof. intros Hf Hi Hd b st. unfold mbind, parser_bind, p_lift. destruct r; [by apply Hf|done]. Qed.

Lemma sim_enter {B} (f g : unit → parser B) i d d' :
  sim (f tt) (g tt) i (S d) d' → sim (enter ≫= f) (enter ≫= g) i d d'.
Proof.
  intros Hf Hi Hd b st. unfold mbind, parser_bind, enter. cbn [depth index].
  destruct (MAX_EXPRESSION_DEPTH <? S d); [done|]. intros Hb.
  destruct (Nat.ltb_spec MAX_EXPRESSION_DEPTH (S (d + k))); [by left|]. by apply Hf.
Qed.

Lemma sim_leave {B} (f g : unit → parser B) i d d' :
  sim (f tt) (g tt) i d d' → sim (leave ≫= f) (leave ≫= g) i (S d) d'.
Proof. intros Hf Hi Hd b st Hb. apply (Hf Hi ltac:(lia) b st Hb). Qed.

Lemma sim_advance {B} (f g : unit → parser B) i d d' :
  i < n → sim (f tt) (g tt) (S i) d d' → sim (advance ≫= f) (advance ≫= g) i d d'.
Proof.
  intros Hlt Hf _ Hd b st Hb. specialize (Hf Hlt Hd b st Hb). rewrite Nat.add_succ_r in Hf. exact Hf.
Qed.

(** Both runs look at the same token, or at [TEnd] and the closing one. *)
Lemma sim_current {B} (f g : Token → parser B) i d d' :
  (∀ t, t = current_at alone i → t ≠ TEnd → i < n → sim (f t) (g t) i d d') →
  (∀ t, t = TRParen ∨ t = TComma → i = n → sim (f TEnd) (g t) i d d') →
  sim (current alone ≫= f) (current inside ≫= g) i d d'.
Proof.
  intros Hlt Heq Hi Hd b st Hb. unfold mbind, parser_bind, current in *. cbn [index] in *.
  destruct (decide (i = n)) as [->|Hne].
  - rewrite current_end in Hb. rewrite current_inside_end. by apply Heq.
  - destruct (current_lt i ltac:(lia)) as [-> Hend]. apply Hlt; [done|done|lia|done|done|done].
Qed.

Lemma same_variant_plain t t' : same_variant t t' = true → starts t' = false → t = t'.
Proof. destruct t, t'; simpl; try done. Qed.

Lemma expect_Ok tokens t i d a st :
  starts t = false → expect tokens t (mkPstate i d) = Some (Ok (a, st)) →
  current_at tokens i = t ∧ st = mkPstate (S i) d.
Proof.
  intros Ht. unfold expect, mbind, parser_bind, current. cbn [index].
  destruct (same_variant (current_at tokens i) t) eqn:Hs; [|done].
  intros [= <- <-]. split; [by apply same_variant_plain|done].
Qed.

Lemma expect_at tokens t i d :
  starts t = false → current_at tokens i = t → expect tokens t (mkPstate i d) = Some (Ok (tt, mkPstate (S i) d)).
Proof.
  intros Ht Hc. unfold expect, mbind, parser_bind, current. cbn [index]. rewrite Hc.
  assert (same_variant t t = true) as -> by (destruct t; done). done.
Qed.

Lemma sim_expect {B} t (f g : unit → parser B) i d d' :
  starts t = false → t ≠ TEnd → (i < n → sim (f tt) (g tt) (S i) d d') →
  sim (expect alone t ≫= f) (expect inside t ≫= g) i d d'.
Proof.
  intros Ht Hne Hf Hi Hd b st ([] & s & (Hc & ->)%expect_Ok & Hb)%bind_parser; [|done].
  assert (i < n) as Hlt.
  { destruct (decide (i = n)) as [->|]; [|lia]. rewrite current_end in Hc. congruence. }
  unfold mbind, parser_bind. rewrite expect_at; [|done|by rewrite (proj1 (current_lt i Hlt))].
  specialize (Hf Hlt Hlt Hd b st Hb). by rewrite Nat.add_succ_r in Hf.
Qed.

(** In front of a token that starts an expression. *)
Lemma stays_bind {A B} (p : parser A) (f : A → parser B) i d d1 d2 :
  stays p i d d1 → (∀ a, stays (f a) i d1 d2) → stays (p ≫= f) i d d2.
Proof. intros Hp Hf b st (a & s & Ha & Hb)%bind_parser. apply Hp in Ha as ->. by eapply Hf. Qed.
Lemma stays_ret {A} (a : A) i d : stays (mret a) i d d.
Proof. by intros b st [= <- <-]. Qed.
Lemma stays_lift {A} (r : result ExpressionError A) i d : stays (p_lift r) i d d.
Proof. intros b st. unfold p_lift. destruct r; [|done]. by intros [= <- <-]. Qed.
Lemma stays_current {B} (f : Token → parser B) i d d' :
  stays (f (current_at alone i)) i d d' → stays (current alone ≫= f) i d d'.
Proof. done. Qed.
Lemma stays_expect t i d d' : doomed i → starts t = false → stays (expect alone t) i d d'.
Proof.
  intros Hdoom Ht [] st (Hc & _)%expect_Ok; [|done]. unfold doomed in Hdoom. congruence.
Qed.
Lemma stays_leave i d : stays leave i (S d) d.
Proof. by intros [] st [= <-]. Qed.

(** ** The grammar *)

Definition refuses_starts (ops : Token → option BinaryOp) : Prop :=
  ops TEnd = None ∧ ops TRParen = None ∧ ops TComma = None ∧ ∀ t, starts t = true → ops t = None.

Lemma stays_binop_loop ops p fuel (e : PE) i d :
  refuses_starts ops → doomed i → stays (binop_loop alone ops p fuel e) i d d.
Proof.
  intros (_ & _ & _ & Hops) Hd. destruct fuel; [done|]. apply stays_current. rewrite Hops by done. apply stays_ret.
Qed.

Lemma sim_binop_loop ops (p q : parser PE) fuel fuel' e i d :
  refuses_starts ops → (∀ i, sim p q i d d) → fuel ≤ fuel' →
  sim (binop_loop alone ops p fuel e) (binop_loop inside ops q fuel' e) i d d.
Proof.
  intros Hops Hp. revert fuel' e i. induction fuel as [|fuel IH]; intros fuel' e i Hf; [done|].
  destruct fuel' as [|fuel']; [lia|]. cbn [binop_loop]. apply sim_current.
  - intros t _ _ Hlt. destruct (ops t); [|apply sim_ret]. apply sim_advance; [done|].
    apply sim_bind with d; [done| |].
    + intros a i'. apply sim_lift. intros e'. apply IH. lia.
    + intros a i' Hdoom. eapply stays_bind; [apply stays_lift|]. intros e'. by apply stays_binop_loop.
  - intros t Ht ->. destruct Hops as (-> & Hr & Hc & _). destruct Ht as [->| ->]; rewrite ?Hr, ?Hc; apply sim_ret.
Qed.

Lemma fuels : loop_fuel alone ≤ loop_fuel inside.
Proof. unfold loop_fuel. rewrite !length_app. simpl. lia. Qed.

Lemma sim_binop ops (p q : parser PE) i d :
  refuses_starts ops → (∀ i, sim p q i d d) →
  sim (parse_binop alone ops p) (parse_binop inside ops q) i d d.
Proof.
  intros Hops Hp. apply sim_bind with d; [done| |].
  - intros a i'. apply sim_binop_loop; [done|done|apply fuels].
  - intros a i' Hd. by apply stays_binop_loop.
Qed.

Lemma refuses_or : refuses_starts or_op.
Proof. split_and!; [done|done|done|by intros []]. Qed.
Lemma refuses_and : refuses_starts and_op.
Proof. split_and!; [done|done|done|by intros []]. Qed.
Lemma refuses_eq : refuses_starts eq_op.
Proof. split_and!; [done|done|done|by intros []]. Qed.

Section open_recursion.
Variables (p q : parser PE) (d0 : nat).
Hypothesis pq : ∀ i d, d0 ≤ d → sim p q i d d.
(** A parser of expressions succeeds only where one starts, and fails at once
    elsewhere. *)
Hypothesis p_starts : ∀ i d a st, p (mkPstate i d) = Some (Ok (a, st)) → doomed i.
Hypothesis q_starts : ∀ j d, starts (current_at inside j) = false → d0 + k ≤ d ≤ MAX_EXPRESSION_DEPTH →
  ∃ e, q (mkPstate j d) = Some (Err e) ∧ (e = TooDeep MAX_EXPRESSION_DEPTH ∨ ∀ m, e ≠ TooDeep m).

Lemma sim_bracket_literal {B} (f g : option string → parser B) i d d' :
  (∀ s, sim (f (Some s)) (g (Some s)) (S i) d d') → sim (f None) (g None) i d d' →
  sim (bracket_literal alone ≫= f) (bracket_literal inside ≫= g) i d d'.
Proof.
  intros Hs Hn Hi Hd. destruct (decide (i = n)) as [->|Hne].
  - intros b st. unfold bracket_literal, mbind, parser_bind, p_get. cbn [index].
    rewrite current_end, current_inside_end. destruct closing as [->| ->]; by apply Hn.
  - assert (i < n) as Hlt by lia. destruct (current_lt i Hlt) as [Hc _].
    assert ((inside !! S (off + i) = Some TRBracket) ↔ alone !! S i = Some TRBracket) as Hnext.
    { rewrite <- Nat.add_succ_r. destruct (decide (S i = n)) as [->|]; [|by rewrite inside_lt by lia].
      rewrite inside_end, lookup_app_r, Nat.sub_diag by lia. by destruct closing as [->| ->]. }
    intros b st. unfold bracket_literal, mbind, parser_bind, p_get. cbn [index]. rewrite Hc.
    destruct (current_at alone i) as [s|s|s| | | | | | | | | | | | | | | | | | |]; try by apply Hn.
    + destruct (decide (alone !! S i = Some TRBracket)) as [Hr|Hr].
      * rewrite Hr, (proj2 Hnext Hr). intros Hb. specialize (Hs s Hlt Hd b st Hb).
        by rewrite Nat.add_succ_r in Hs.
      * assert (inside !! S (off + i) ≠ Some TRBracket) as Hr' by (by intros ?%Hnext).
        destruct (alone !! S i) as [[]|], (inside !! S (off + i)) as [[]|]; try done; by apply Hn.
    + intros Hb. specialize (Hs s Hlt Hd b st Hb). by rewrite Nat.add_succ_r in Hs.
    + intros Hb. specialize (Hs s Hlt Hd b st Hb). by rewrite Nat.add_succ_r in Hs.
Qed.

Lemma sim_err {A} e (g : parser A) i d d' : sim (p_lift (Err e)) g i d d'.
Proof. by intros _ _ b st. Qed.

Lemma stays_expect_bind {B} t (f : unit → parser B) i d d' :
  doomed i → starts t = false → stays (expect alone t ≫= f) i d d'.
Proof.
  intros Hd Ht b st ([] & s & (Hc & _)%expect_Ok & _)%bind_parser; [|done]. unfold doomed in Hd. congruence.
Qed.

Lemma stays_path_loop fuel base i d : doomed i → stays (path_loop alone p fuel base) i d d.
Proof.
  intros Hd. destruct fuel; [done|]. apply stays_current. unfold doomed in Hd.
  destruct (current_at alone i); try done; apply stays_ret.
Qed.

Lemma sim_path_loop fuel fuel' base i d :
  d0 ≤ d → fuel ≤ fuel' → sim (path_loop alone p fuel base) (path_loop inside q fuel' base) i d d.
Proof.
  intros Hd0. revert fuel' base i. induction fuel as [|fuel IH]; intros fuel' base i Hf; [done|].
  destruct fuel' as [|fuel']; [lia|]. cbn [path_loop]. apply sim_current; [|intros t [->| ->] _; apply sim_ret].
  intros t _ _ Hlt. destruct t; try apply sim_ret.
  - apply sim_advance; [done|]. apply sim_current; [|intros t [->| ->] _; apply sim_err].
    intros t _ _ Hlt'. destruct t; try apply sim_err; (apply sim_advance; [done|]);
      apply sim_lift; intros base'; apply IH; lia.
  - apply sim_advance; [done|]. apply sim_bracket_literal.
    + intros s. apply sim_expect; [done|done|intros _]. apply sim_lift; intros base'; apply IH; lia.
    + apply sim_bind with d; [by apply pq| |].
      * intros key i'. apply sim_expect; [done|done|intros _]. apply sim_lift; intros base'; apply IH; lia.
      * intros key i' Hdoom. by apply stays_expect_bind.
Qed.

Lemma sim_try_expect {B} (f g : result ExpressionError unit → parser B) i d d' :
  (sim (f (Ok tt)) (g (Ok tt)) (S i) d d') → (∀ e e', sim (f (Err e)) (g (Err e')) i d d') →
  sim (p_try (expect alone TRBracket) ≫= f) (p_try (expect inside TRBracket) ≫= g) i d d'.
Proof.
  intros Hok Herr Hi Hd. unfold p_try, expect, mbind, parser_bind, current. cbn [index]. intros b st.
  destruct (decide (i = n)) as [->|Hne].
  - rewrite current_end, current_inside_end. destruct closing as [->| ->]; by apply Herr.
  - assert (i < n) as Hlt by lia. destruct (current_lt i Hlt) as [-> _].
    destruct (same_variant (current_at alone i) TRBracket); [|by apply Herr].
    intros Hb. specialize (Hok Hlt Hd b st Hb). by rewrite Nat.add_succ_r in Hok.
Qed.

(** A bracketed key after a call: where it does not parse, the suffix ends. *)
Definition bracket_key (tokens : list Token) (r : parser PE) : parser (result ExpressionError PE) :=
  p_try (key ← r; _ ← expect tokens TRBracket; mret key).
Definition after_key (loop : PE → parser PE) (base : PE) (r : result ExpressionError PE) : parser PE :=
  match r with
  | Ok key => base ← p_lift (pe_index base key); loop base
  | Err (TooDeep m) => p_lift (Err (TooDeep m))
  | Err _ => mret base
  end.

Lemma after_key_ends loop base e : (∀ m, e ≠ TooDeep m) → after_key loop base (Err e) = mret base.
Proof. intros He. destruct e; try done. by destruct (He n). Qed.

Lemma expect_fails tokens t i d :
  starts t = false → current_at tokens i ≠ t →
  expect tokens t (mkPstate i d) = Some (Err (Unexpected (debug_token (current_at tokens i)))).
Proof.
  intros Ht Hc. unfold expect, mbind, parser_bind, current. cbn [index].
  destruct (same_variant (current_at tokens i) t) eqn:Hs; [|done]. by apply same_variant_plain in Hs.
Qed.

Lemma bracket_key_run tokens r st :
  bracket_key tokens r st =
  match r st with
  | Some (Ok (key, s)) =>
      if decide (current_at tokens (index s) = TRBracket)
      then Some (Ok (Ok key, mkPstate (S (index s)) (depth s)))
      else Some (Ok (Err (Unexpected (debug_token (current_at tokens (index s)))), st))
  | Some (Err e) => Some (Ok (Err e, st))
  | None => None
  end.
Proof.
  unfold bracket_key, p_try, mbind, parser_bind. destruct (r st) as [[[key [i d]]|e]|]; [|done|done].
  cbn [index depth]. case_decide; [by rewrite expect_at|by rewrite expect_fails].
Qed.

Lemma sim_bracket_key (loop loop' : PE → parser PE) base i d :
  d0 ≤ d → (∀ e i', sim (loop e) (loop' e) i' d d) →
  sim (bracket_key alone p ≫= after_key loop base) (bracket_key inside q ≫= after_key loop' base) i d d.
Proof.
  intros Hd0 Hloop Hi Hd b st. unfold mbind, parser_bind. rewrite !bracket_key_run.
  assert (∀ e e', (∀ m, e' ≠ TooDeep m) → after_key loop base (Err e) (mkPstate i d) = Some (Ok (b, st)) →
    b = base ∧ st = mkPstate i d ∧
    after_key loop' base (Err e') (mkPstate (off + i) (d + k)) = Some (Ok (base, mkPstate (off + i) (d + k)))) as Herr.
  { intros e e' He' Hb. rewrite after_key_ends by done.
    unfold after_key, mret, parser_ret, p_lift in *. destruct e; [injection Hb as <- <-; done..| |injection Hb as <- <-; done].
    discriminate. }
  destruct (p (mkPstate i d)) as [[[key s]|e]|] eqn:Hp; [| |done].
  - destruct (pq i d Hd0 Hi Hd key s Hp) as [->|(i1 & -> & Hi1 & Hcase)]; [by left|]. cbn [index depth].
    case_decide as Hc.
    + destruct Hcase as [[_ ->]|Hdoom]; [|unfold doomed in Hdoom; by rewrite Hc in Hdoom]. cbn [index depth].
      assert (i1 < n) as Hlt by (destruct (decide (i1 = n)) as [->|]; [by rewrite current_end in Hc|lia]).
      rewrite decide_True by (by rewrite (proj1 (current_lt i1 Hlt))).
      intros Hb. rewrite <- Nat.add_succ_r.
      assert (sim (after_key loop base (Ok key)) (after_key loop' base (Ok key)) (S i1) d d) as Hk
        by (apply sim_lift; intros e; apply Hloop).
      by apply Hk.
    + intros (-> & -> & _)%(Herr _ Eof); [|done]. right. exists i. split_and!; [done..|right]. by eapply p_starts.
  - intros Hb. destruct (starts (current_at alone i)) eqn:Hs.
    { apply (Herr _ Eof) in Hb as (-> & -> & _); [|done]. right. exists i. by split_and!; [..|right]. }
    destruct (q_starts (off + i) (d + k)) as (e' & -> & [->|He']).
    { destruct (decide (i = n)) as [->|]; [rewrite current_inside_end; by destruct closing as [->| ->]|].
      by rewrite (proj1 (current_lt i ltac:(lia))). }
    { lia. }
    { by left. }
    apply (Herr _ e' He') in Hb as (-> & -> & ->). right. exists i. by split_and!; [..|left].
Qed.

Lemma stays_member_suffix fuel base i d : doomed i → stays (parse_member_suffix alone p fuel base) i d d.
Proof.
  intros Hd. destruct fuel; [done|]. apply stays_current. unfold doomed in Hd.
  destruct (current_at alone i); try done; apply stays_ret.
Qed.

Lemma sim_member_suffix fuel fuel' base i d :
  d0 ≤ d → fuel ≤ fuel' →
  sim (parse_member_suffix alone p fuel base) (parse_member_suffix inside q fuel' base) i d d.
Proof.
  intros Hd0. revert fuel' base i. induction fuel as [|fuel IH]; intros fuel' base i Hf; [done|].
  destruct fuel' as [|fuel']; [lia|]. cbn [parse_member_suffix]. apply sim_current; [|intros t [->| ->] _; apply sim_ret].
  assert (∀ s i', sim (b ← p_lift (push_path_segment base s); parse_member_suffix alone p fuel b)
    (b ← p_lift (push_path_segment base s); parse_member_suffix inside q fuel' b) i' d d) as Hpush.
  { intros s i'. apply sim_lift. intros b. apply IH. lia. }
  intros t _ _ Hlt. destruct t; try apply sim_ret.
  - apply sim_advance; [done|]. apply sim_current; [|intros t [->| ->] _; apply sim_ret].
    intros t _ _ Hlt'. destruct t; try apply sim_ret; by apply sim_advance.
  - apply sim_advance; [done|]. apply sim_bracket_literal.
    + intros s. apply sim_try_expect; [done|intros; apply sim_ret].
    + apply (sim_bracket_key (parse_member_suffix alone p fuel) (parse_member_suffix inside q fuel')); [done|].
      intros e i'. apply IH. lia.
Qed.

(** In front of the comma after the arguments, the run on [alone] is at its end
    and does not find the closing parenthesis. *)
Lemma sim_args_loop {B} fuel fuel' args deepest (f g : list (Expr num) * nat → parser B) i d :
  d0 ≤ d → fuel ≤ fuel' → (∀ ad i', sim (f ad) (g ad) i' d d) →
  sim (ad ← args_loop alone p fuel args deepest; _ ← expect alone TRParen; f ad)
    (ad ← args_loop inside q fuel' args deepest; _ ← expect inside TRParen; g ad) i d d.
Proof.
  intros Hd0 Hf Hfg. revert fuel' args deepest i Hf.
  induction fuel as [|fuel IH]; intros fuel' args deepest i Hf; [done|].
  destruct fuel' as [|fuel']; [lia|]. cbn [args_loop]. apply sim_assoc. apply sim_bind with d; [by apply pq| |].
  - intros arg i'. apply sim_assoc, sim_current.
    + intros t _ _ Hlt.
      assert (∀ ad, sim (_ ← expect alone TRParen; f ad) (_ ← expect inside TRParen; g ad) i' d d) as Hend
        by (intros ad; by apply sim_expect).
      destruct t; try (apply sim_ret_bind, Hend).
      apply sim_assoc, sim_advance; [done|]. apply IH. lia.
    + intros t _ -> _ _ b st. unfold mbind, parser_bind, mret, parser_ret.
      destruct (expect alone TRParen (mkPstate n d)) as [[[[] s]|]|] eqn:He; [|done..].
      apply expect_Ok in He as [He _]; [|done]. by rewrite current_end in He.
  - intros arg i' Hd b st Hb. apply bind_parser in Hb as (ad & s & Ha & Hb).
    assert (s = mkPstate i' d) as ->.
    { apply bind_parser in Ha as (t & s' & [= <- <-] & Ha). unfold doomed in Hd.
      destruct (current_at alone i'); try discriminate Hd; by injection Ha as <- <-. }
    by eapply (stays_expect_bind TRParen (λ _, f ad) i' d d Hd eq_refl) in Hb.
Qed.

Lemma sim_ident_or_call name i d :
  d0 ≤ d → i < n → sim (parse_ident_or_call alone p name) (parse_ident_or_call inside q name) i d d.
Proof.
  intros Hd0 Hlt. unfold parse_ident_or_call. apply sim_advance; [done|].
  assert (∀ ad i', sim (_ ← expect alone TRParen; d' ← p_lift (node_depth ad.2);
      parse_member_suffix alone p (loop_fuel alone) (mkParsed (Call name ad.1) d'))
    (_ ← expect inside TRParen; d' ← p_lift (node_depth ad.2);
      parse_member_suffix inside q (loop_fuel inside) (mkParsed (Call name ad.1) d')) i' d d) as Hrest.
  { intros [args deepest] i'. apply sim_expect; [done|done|intros _]. apply sim_lift. intros d'.
    apply sim_member_suffix; [done|apply fuels]. }
  assert (∀ i', sim (ad ← args_loop alone p (loop_fuel alone) [] 0;
      _ ← expect alone TRParen; d' ← p_lift (node_depth ad.2);
      parse_member_suffix alone p (loop_fuel alone) (mkParsed (Call name ad.1) d'))
    (ad ← args_loop inside q (loop_fuel inside) [] 0; _ ← expect inside TRParen; d' ← p_lift (node_depth ad.2);
      parse_member_suffix inside q (loop_fuel inside) (mkParsed (Call name ad.1) d')) i' d d) as Hargs.
  { intros i'. apply sim_args_loop; [done|apply fuels|]. intros ad i''. apply sim_lift. intros d'.
    apply sim_member_suffix; [done|apply fuels]. }
  apply sim_current; [|intros t [->| ->] _; by apply sim_path_loop, fuels].
  intros t _ _ Hlt'. destruct t; try (by apply sim_path_loop, fuels).
  apply sim_advance; [done|]. apply sim_current.
  - intros t _ _ _. destruct t; try apply Hargs. apply (Hrest ([], 0)).
  - intros t _ -> _ _ b st (ad & s & Ha & _)%bind_parser. unfold loop_fuel in Ha. cbn [args_loop] in Ha.
    apply bind_parser in Ha as (arg & s' & Hp%p_starts & _). by apply doomed_lt in Hp; [lia|].
Qed.

Lemma sim_primary i d : d0 ≤ d → sim (parse_primary alone p) (parse_primary inside q) i d d.
Proof.
  intros Hd0. unfold parse_primary. apply sim_current; [|intros t [->| ->] _; apply sim_err].
  intros t _ _ Hlt. destruct t; try apply sim_err; try (apply sim_advance; [done|apply sim_ret]).
  - by apply sim_ident_or_call.
  - apply sim_advance; [done|]. apply sim_bind with d; [by apply pq| |].
    + intros e i'. apply sim_expect; [done|done|intros _; apply sim_ret].
    + intros e i' Hdoom. by apply stays_expect_bind.
Qed.

Lemma sim_unary fuel i d : d0 ≤ d → sim (parse_unary alone p fuel) (parse_unary inside q fuel) i d d.
Proof.
  revert i d. induction fuel as [|fuel IH]; intros i d Hd0; [done|]. cbn [parse_unary].
  apply sim_current; [|intros t [->| ->] _; by apply sim_primary].
  intros t _ _ Hlt. destruct t; try (by apply sim_primary).
  apply sim_advance; [done|]. apply sim_enter. apply sim_bind with (S d); [apply IH; lia| |].
  - intros inner i'. apply sim_leave. apply sim_lift. intros d'. apply sim_ret.
  - intros inner i' Hdoom. eapply stays_bind; [apply stays_leave|]. intros _.
    eapply stays_bind; [apply stays_lift|]. intros d'. apply stays_ret.
Qed.

Lemma sim_or i d : d0 ≤ d → sim (parse_or alone p) (parse_or inside q) i d d.
Proof.
  intros Hd0. apply sim_binop; [apply refuses_or|]. intros i'. apply sim_binop; [apply refuses_and|].
  intros i''. apply sim_binop; [apply refuses_eq|]. intros j. by apply sim_unary.
Qed.

End open_recursion.
(** Where no expression starts, the parser fails at its first token. *)
Lemma unary_fails tokens (p : parser PE) fuel i d :
  starts (current_at tokens i) = false →
  ∃ e, parse_unary tokens p (S fuel) (mkPstate i d) = Some (Err e) ∧ ∀ m, e ≠ TooDeep m.
Proof.
  intros Hs. cbn [parse_unary]. unfold mbind, parser_bind, current at 1. cbn [index].
  assert (∃ e, parse_primary tokens p (mkPstate i d) = Some (Err e) ∧ ∀ m, e ≠ TooDeep m) as Hp.
  { unfold parse_primary, mbind, parser_bind, current, p_lift. cbn [index].
    destruct (current_at tokens i); try discriminate Hs; eexists; (split; [reflexivity|discriminate]). }
  destruct (current_at tokens i); try discriminate Hs; exact Hp.
Qed.

Lemma binop_fails tokens ops (p : parser PE) st e :
  p st = Some (Err e) → parse_binop tokens ops p st = Some (Err e).
Proof. intros Hp. unfold parse_binop, mbind, parser_bind. by rewrite Hp. Qed.

Lemma nonstart_fails tokens fuel i d :
  starts (current_at tokens i) = false →
  ∃ e, parse_tracked_expr (num:=num) tokens (S fuel) (mkPstate i d) = Some (Err e) ∧
    (e = TooDeep MAX_EXPRESSION_DEPTH ∨ ∀ m, e ≠ TooDeep m).
Proof.
  intros Hs. cbn [parse_tracked_expr]. unfold mbind, parser_bind, enter. cbn [index depth].
  destruct (MAX_EXPRESSION_DEPTH <? S d); [eexists; split; [done|by left]|].
  destruct (unary_fails tokens (parse_tracked_expr tokens fuel) MAX_EXPRESSION_DEPTH i (S d) Hs) as (e & He & Hd).
  exists e. split; [|by right].
  assert (parse_or tokens (parse_tracked_expr tokens fuel) (mkPstate i (S d)) = Some (Err e)) as ->; [|done].
  unfold parse_or, parse_and, parse_eq. by do 3 apply binop_fails.
Qed.

Lemma tracked_starts fuel i d a st :
  parse_tracked_expr (num:=num) alone fuel (mkPstate i d) = Some (Ok (a, st)) → doomed i.
Proof.
  intros Hp. destruct fuel as [|fuel]; [done|]. unfold doomed.
  destruct (starts (current_at alone i)) eqn:Hs; [done|].
  destruct (nonstart_fails alone fuel i d Hs) as (e & He & _). congruence.
Qed.

Lemma sim_tracked fuel fuel' i d :
  MAX_EXPRESSION_DEPTH < fuel' + (d + k) →
  sim (parse_tracked_expr (num:=num) alone fuel) (parse_tracked_expr inside fuel') i d d.
Proof.
  revert fuel' i d. induction fuel as [|fuel IH]; intros fuel' i d Hf; [done|].
  destruct fuel' as [|fuel']; [intros Hi Hd; lia|]. cbn [parse_tracked_expr]. apply sim_enter.
  apply sim_bind with (S d).
  - apply (sim_or _ _ (S d)); [|intros j e a st; apply tracked_starts| |done].
    + intros j e He. apply IH. lia.
    + intros j e Hs He. destruct fuel' as [|fuel']; [lia|]. by apply nonstart_fails.
  - intros a i'. apply sim_leave, sim_ret.
  - intros a i' Hdoom. eapply stays_bind; [apply stays_leave|]. intros _. apply stays_ret.
Qed.

(** An expression that parses alone is read inside as the same tree, or is too
    deep there. *)
Lemma tracked_inside fuel' e :
  parse_tokens (num:=num) alone = Some (Ok e) → k ≤ MAX_EXPRESSION_DEPTH → MAX_EXPRESSION_DEPTH < fuel' + k →
  let r := parse_tracked_expr inside fuel' (mkPstate off k) in
  r = Some (Err (TooDeep MAX_EXPRESSION_DEPTH)) ∨
  ∃ pe, pe_expr pe = e ∧ r = Some (Ok (pe, mkPstate (off + n) k)).
Proof.
  intros Hp Hk Hf r. unfold parse_tokens, parse_expr in Hp.
  destruct ((x ← _; _ ← expect_end alone; mret x) (mkPstate 0 0)) as [[[x st]|]|] eqn:Hrun; [|done..].
  injection Hp as ->. apply bind_parser in Hrun as (x & s & Hx & Hend).
  apply bind_parser in Hx as (pe & s' & Hpe & [= <- <-]).
  destruct (sim_tracked (S MAX_EXPRESSION_DEPTH) fuel' 0 0) with (4 := Hpe) as [Hq|(i & -> & Hi & Hcase)];
    [lia|lia|lia|left; by rewrite Nat.add_0_r in Hq|].
  assert (current_at alone i = TEnd ∧ pe_expr pe = e) as [Hc He].
  { apply bind_parser in Hend as ([] & s & Hs & [= He _]). split; [|done].
    unfold expect_end, mbind, parser_bind, current in Hs. cbn [index] in Hs.
    by destruct (current_at alone i). }
  destruct Hcase as [[_ Hq]|Hdoom]; [|unfold doomed in Hdoom; by rewrite Hc in Hdoom].
  right. exists pe. split; [done|].
  assert (i = n) as -> by (destruct (decide (i = n)); [done|by destruct (current_lt i ltac:(lia))]).
  by rewrite Nat.add_0_r in Hq.
Qed.

End sim.

(** ** A conjunction of two operands *)
Section conjunction.
Context {num : Type} `{NumberOps num}.
Abbreviation PE := (ParsedExpr num).
Implicit Types (e : Expr num).

Definition too_deep {A} : result ExpressionError A := Err (TooDeep MAX_EXPRESSION_DEPTH).

(** [p] reads one operand from [i] up to [j], or is too deep. *)
Definition reads (p : parser PE) (i j d : nat) e : Prop :=
  p (mkPstate i d) = Some too_deep ∨
  ∃ pe, pe_expr pe = e ∧ p (mkPstate i d) = Some (Ok (pe, mkPstate j d)).

Lemma reads_binop tokens ops (p : parser PE) i j d e :
  reads p i j d e → ops (current_at tokens j) = None → reads (parse_binop tokens ops p) i j d e.
Proof.
  intros [Hp|(pe & He & Hp)] Hops; unfold reads, parse_binop, mbind, parser_bind; rewrite Hp; [by left|right].
  exists pe. split; [done|]. unfold loop_fuel. cbn [binop_loop]. unfold mbind, parser_bind, current. cbn [index].
  by rewrite Hops.
Qed.

Lemma reads_paren pre ts post fuel d e :
  TEnd ∉ ts → parse_tokens (ts ++ [TEnd]) = Some (Ok e) → d ≤ MAX_EXPRESSION_DEPTH →
  MAX_EXPRESSION_DEPTH < fuel + d →
  let tokens := pre ++ TLParen :: ts ++ TRParen :: post in
  reads (parse_unary tokens (parse_tracked_expr tokens fuel) (S MAX_EXPRESSION_DEPTH))
    (length pre) (length pre + length ts + 2) d e.
Proof.
  intros Hend He Hd Hf tokens.
  assert (current_at tokens (length pre) = TLParen) as Hc
    by (unfold current_at, tokens; by rewrite lookup_app_r, Nat.sub_diag by lia).
  assert (current_at tokens (length pre + length ts + 1) = TRParen) as Hr.
  { unfold current_at, tokens. rewrite lookup_app_r by lia.
    replace (length pre + length ts + 1 - length pre) with (S (length ts)) by lia. 
    change (default TEnd ((ts ++ TRParen :: post) !! length ts) = TRParen).
    by rewrite lookup_app_r, Nat.sub_diag by lia. }
  pose proof (tracked_inside (pre ++ [TLParen]) ts post TRParen d Hend (or_introl eq_refl) fuel e He Hd Hf) as Ht.
  rewrite length_app, <- app_assoc in Ht. cbn [app length] in Ht. fold tokens in Ht.
  unfold reads. cbn [parse_unary]. unfold parse_primary, mbind, parser_bind, current, advance. cbn [index depth].
  rewrite Hc. cbn [index depth]. rewrite Hc. cbn [index depth].
  replace (S (length pre)) with (length pre + 1) by lia.
  destruct Ht as [->|(pe & Hpe & ->)]; [by left|right]. exists pe. split; [done|].
  replace (length pre + 1 + length ts) with (length pre + length ts + 1) by lia. 
  rewrite expect_at by done. unfold mret, parser_ret. by replace (S (length pre + length ts + 1)) with (length pre + length ts + 2) by lia.
Qed.

Lemma binop_loop_stop tokens ops (p : parser PE) fuel pe i d :
  ops (current_at tokens i) = None →
  binop_loop tokens ops p (S fuel) pe (mkPstate i d) = Some (Ok (pe, mkPstate i d)).
Proof. intros Hops. cbn [binop_loop]. unfold mbind, parser_bind, current. cbn [index]. by rewrite Hops. Qed.

Lemma binop_loop_step tokens ops op (p : parser PE) fuel pe i d :
  ops (current_at tokens i) = Some op →
  binop_loop tokens ops p (S fuel) pe (mkPstate i d) =
  match p (mkPstate (S i) d) with
  | Some (Ok (pr, s)) =>
      match pe_binary op pe pr with
      | Ok e => binop_loop tokens ops p fuel e s
      | Err err => Some (Err err)
      end
  | Some (Err err) => Some (Err err)
  | None => None
  end.
Proof.
  intros Hop. cbn [binop_loop]. unfold mbind, parser_bind, current. cbn [index]. rewrite Hop.
  unfold advance, p_lift. cbn [index depth].
  destruct (p (mkPstate (S i) d)) as [[[pr s]|err]|]; [|done|done]. by destruct (pe_binary op pe pr).
Qed.

(** One operator of a level, between two operands of the next. *)
Lemma reads_one_binop tokens ops op (p : parser PE) i j m d l r :
  reads p i j d l → ops (current_at tokens j) = Some op → reads p (S j) m d r →
  ops (current_at tokens m) = None → 1 ≤ length tokens →
  reads (parse_binop tokens ops p) i m d (Binary op l r).
Proof.
  intros [Hl|(pl & <- & Hl)] Hop Hr Hend Hf; unfold reads, parse_binop, mbind, parser_bind; rewrite Hl; [by left|].
  unfold loop_fuel. destruct (length tokens) as [|fuel]; [lia|]. rewrite (binop_loop_step _ _ op) by done.
  destruct Hr as [->|(pr & <- & ->)]; [by left|].
  unfold pe_binary, node_depth. destruct (MAX_EXPRESSION_DEPTH <? _); cbn [mbind result_bind]; [by left|right].
  rewrite binop_loop_stop by done. eexists. by split; [|reflexivity].
Qed.

(** A parenthesized expression after a left operand and [&&]. *)
Lemma parse_conjunction left ti l e :
  let tokens := left ++ TAnd :: TLParen :: ti ++ [TRParen; TEnd] in
  TEnd ∉ ti → parse_tokens (ti ++ [TEnd]) = Some (Ok e) →
  reads (parse_unary tokens (parse_tracked_expr tokens MAX_EXPRESSION_DEPTH) (S MAX_EXPRESSION_DEPTH))
    0 (length left) 1 l →
  parse_tokens tokens = Some too_deep ∨ parse_tokens tokens = Some (Ok (Binary OpAnd l e)).
Proof.
  intros tokens Hti He Hl. set (m := length left + 1 + length ti + 2).
  assert (current_at tokens (length left) = TAnd) as Hand
    by (unfold current_at, tokens; by rewrite lookup_app_r, Nat.sub_diag by lia).
  assert (current_at tokens m = TEnd) as Hend.
  { unfold current_at, tokens, m. rewrite lookup_app_r by lia.
    replace (length left + 1 + length ti + 2 - length left) with (S (S (length ti + 1))) by lia.
    change (default TEnd ((ti ++ [TRParen; TEnd]) !! (length ti + 1)) = TEnd).
    rewrite lookup_app_r by lia. by replace (length ti + 1 - length ti) with 1 by lia. }
  assert (reads (parse_unary tokens (parse_tracked_expr tokens MAX_EXPRESSION_DEPTH) (S MAX_EXPRESSION_DEPTH))
    (S (length left)) m 1 e) as Hr.
  { pose proof (reads_paren (left ++ [TAnd]) ti [TEnd] MAX_EXPRESSION_DEPTH 1 e Hti He) as Hr.
    rewrite length_app, <- app_assoc in Hr. cbn [length app] in Hr. rewrite Nat.add_1_r in Hr.
    unfold m. rewrite <- (Nat.add_1_r (length left)). apply Hr; unfold MAX_EXPRESSION_DEPTH; lia. }
  assert (reads (parse_or tokens (parse_tracked_expr tokens MAX_EXPRESSION_DEPTH)) 0 m 1 (Binary OpAnd l e)) as Hor.
  { apply reads_binop; [|by rewrite Hend]. apply reads_one_binop with (length left).
    - apply reads_binop; [done|by rewrite Hand].
    - by rewrite Hand.
    - apply reads_binop; [done|by rewrite Hend].
    - by rewrite Hend.
    - unfold tokens. rewrite length_app. simpl. lia. }
  unfold parse_tokens, parse_expr. cbn [parse_tracked_expr].
  unfold mbind, parser_bind, enter. cbn [index depth].
  change (MAX_EXPRESSION_DEPTH <? 1) with false. cbn [andb].
  destruct Hor as [->|(pe & <- & ->)]; [by left|right].
  unfold leave, expect_end, mbind, parser_bind, current, mret, parser_ret. cbn [index depth]. by rewrite Hend.
Qed.
End conjunction.

(** ** A call *)
Section call.
Context {num : Type} `{NumberOps num}.
Abbreviation PE := (ParsedExpr num).
Implicit Types (e : Expr num).

(** [ts] is read alone as the tree [e]. *)
Definition reads_alone (ts : list Token) e : Prop :=
  (TEnd ∉ ts) ∧ parse_tokens (ts ++ [TEnd]) = Some (Ok e).

(** Arguments between commas. *)
Fixpoint args_tokens (tss : list (list Token)) : list Token :=
  match tss with
  | [] => []
  | [ts] => ts
  | ts :: tss => ts ++ TComma :: args_tokens tss
  end.

Lemma args_tokens_cons ts tss :
  tss ≠ [] → args_tokens (ts :: tss) = ts ++ TComma :: args_tokens tss.
Proof. by destruct tss. Qed.

Lemma current_after pre ts t post :
  current_at (pre ++ ts ++ t :: post) (length pre + length ts) = t.
Proof.
  unfold current_at. rewrite app_assoc, lookup_app_r by (rewrite length_app; lia).
  by rewrite length_app, Nat.sub_diag.
Qed.

Lemma args_loop_reads tss es :
  Forall2 reads_alone tss es → tss ≠ [] → ∀ tokens pre post fuel tracked_fuel args deepest d,
  tokens = pre ++ args_tokens tss ++ TRParen :: post →
  length tss ≤ fuel → d ≤ MAX_EXPRESSION_DEPTH → MAX_EXPRESSION_DEPTH < tracked_fuel + d →
  let r := args_loop tokens (parse_tracked_expr tokens tracked_fuel) fuel args deepest (mkPstate (length pre) d) in
  r = Some too_deep ∨
  ∃ deepest', r = Some (Ok ((args ++ es, deepest'), mkPstate (length pre + length (args_tokens tss)) d)).
Proof.
  induction 1 as [|ts e tss es [Hend He] Hall IH]; [done|]. intros _ tokens pre post fuel tf args deepest d -> Hfuel Hd Hf.
  destruct fuel as [|fuel]; [simpl in Hfuel; lia|]. cbn [length] in Hfuel. cbn [args_loop].
  destruct (decide (tss = [])) as [->|Hne].
  - inversion Hall; subst. cbn [args_tokens].
    destruct (tracked_inside pre ts post TRParen d Hend (or_introl eq_refl) tf e He Hd Hf) as [Ht|(pe & <- & Ht)];
      unfold mbind, parser_bind; rewrite Ht; [by left|right].
    unfold current. cbn [index]. rewrite current_after. by eexists.
  - rewrite args_tokens_cons, <-app_assoc by done. cbn [app].
    pose proof (tracked_inside pre ts (args_tokens tss ++ TRParen :: post) TComma d Hend (or_intror eq_refl) tf e He Hd Hf) as Ht.
    set (tokens := pre ++ ts ++ TComma :: args_tokens tss ++ TRParen :: post) in *.
    destruct Ht as [Ht|(pe & <- & Ht)]; unfold mbind, parser_bind; rewrite Ht; [by left|].
    assert (current_at tokens (length pre + length ts) = TComma) as Hcur by apply current_after.
    unfold current, advance. cbn [index depth]. rewrite Hcur. cbn [index depth].
    specialize (IH Hne tokens (pre ++ ts ++ [TComma]) post fuel tf (args ++ [pe_expr pe]) (deepest `max` pe_depth pe) d).
    rewrite !length_app in IH. cbn [length] in IH. rewrite <-!app_assoc in IH. cbn [app] in IH.
    replace (length pre + (length ts + 1)) with (S (length pre + length ts)) in IH by lia.
    destruct (IH eq_refl (le_S_n _ _ Hfuel) Hd Hf) as [->|[deepest' ->]]; [by left|right].
    exists deepest'. rewrite length_app. cbn [length]. do 4 f_equal. lia.
Qed.

(** A call whose first argument is a string. *)
Lemma parse_call name s tss es :
  Forall2 reads_alone tss es → tss ≠ [] →
  let tokens := TIdent name :: TLParen :: args_tokens ([TString s] :: tss) ++ [TRParen; TEnd] in
  parse_tokens tokens = Some too_deep ∨
  parse_tokens tokens = Some (Ok (Call name (Literal (JString s) :: es))).
Proof.
  intros Hall Hne tokens. set (m := 2 + length (args_tokens ([TString s] :: tss)) + 1).
  assert (Forall2 reads_alone ([TString s] :: tss) (Literal (JString s) :: es)) as Hargs.
  { constructor; [|done]. split; [|reflexivity]. intros Hin%list_elem_of_singleton. discriminate. }
  assert (current_at tokens m = TEnd) as Hend.
  { unfold tokens, m. rewrite (app_assoc _ [TRParen] [TEnd] : _ ++ [TRParen; TEnd] = _).
    pose proof (current_after [TIdent name; TLParen] (args_tokens ([TString s] :: tss) ++ [TRParen]) TEnd []) as Hc.
    rewrite length_app in Hc. cbn [length app] in Hc. by rewrite <-Nat.add_assoc. }
  assert (current_at tokens (m - 1) = TRParen) as Hclose.
  { unfold m. rewrite Nat.add_sub. apply (current_after [TIdent name; TLParen] (args_tokens ([TString s] :: tss)) TRParen [TEnd]). }
  assert (reads (parse_unary tokens (parse_tracked_expr tokens MAX_EXPRESSION_DEPTH) (S MAX_EXPRESSION_DEPTH))
    0 m 1 (Call name (Literal (JString s) :: es))) as Hr.
  { assert (∀ B (f : Token → parser B) st, (current tokens ≫= f) st = f (current_at tokens (index st)) st) as Hcur by done.
    unfold reads. cbn [parse_unary]. rewrite Hcur. cbn [index].
    change (current_at tokens 0) with (TIdent name). cbv beta iota.
    unfold parse_primary. rewrite Hcur. cbn [index]. change (current_at tokens 0) with (TIdent name). cbv beta iota.
    unfold parse_ident_or_call, advance, mbind, parser_bind, current. cbn [index depth].
    change (current_at tokens 1) with TLParen. cbv beta iota. cbn [index depth].
    assert (current_at tokens 2 = TString s) as -> by (unfold tokens; by rewrite args_tokens_cons).
    destruct (args_loop_reads _ _ Hargs ltac:(done) tokens [TIdent name; TLParen] [TEnd] (loop_fuel tokens)
      MAX_EXPRESSION_DEPTH [] 0 1 eq_refl) as [Hl|[deepest Hl]].
    - unfold loop_fuel, tokens. cbn [length]. rewrite length_app. clear.
      assert (∀ l, length l ≤ S (length (args_tokens l))) as Hlen.
      { induction l as [|ts [|ts' l] IH]; [simpl; lia|simpl; lia|]. rewrite args_tokens_cons by done.
        rewrite length_app. cbn [length] in *. lia. }
      specialize (Hlen ([TString s] :: tss)). cbn [length] in Hlen. lia.
    - unfold MAX_EXPRESSION_DEPTH. lia.
    - unfold MAX_EXPRESSION_DEPTH. lia.
    - cbn [length] in Hl. rewrite Hl. by left.
    - cbn [length app] in Hl. rewrite Hl. cbn [fst snd].
      replace (2 + length (args_tokens ([TString s] :: tss))) with (m - 1) by (unfold m; lia).
      rewrite expect_at by done. unfold p_lift, node_depth. destruct (MAX_EXPRESSION_DEPTH <? _); [by left|right].
      replace (S (m - 1)) with m by (unfold m; lia).
      unfold loop_fuel at 1. cbn [length parse_member_suffix]. unfold mbind, parser_bind, current. cbn [index].
      rewrite Hend. eexists. by split; [|reflexivity]. }
  assert (reads (parse_or tokens (parse_tracked_expr tokens MAX_EXPRESSION_DEPTH)) 0 m 1
    (Call name (Literal (JString s) :: es))) as Hor by (do 3 (apply reads_binop; [|by rewrite Hend]); done).
  unfold parse_tokens, parse_expr. cbn [parse_tracked_expr]. unfold mbind, parser_bind, enter. cbn [index depth].
  change (MAX_EXPRESSION_DEPTH <? 1) with false.
  destruct Hor as [->|(pe & <- & ->)]; [by left|right].
  unfold leave, expect_end, mbind, parser_bind, current, mret, parser_ret. cbn [index depth]. by rewrite Hend.
Qed.
End call.

(** ** Texts *)

Lemma trim_markers_trim s : utf8_ok s → trim_expression_markers (trim s) = trim_expression_markers s.
Proof. intros Hs. unfold trim_expression_markers. by rewrite trim_trim. Qed.

Lemma lex_tokens s toks :
  utf8_ok s → lex s = Ok toks → ∃ ts, toks = ts ++ [TEnd] ∧ TEnd ∉ ts.
Proof.
  intros Hs Hl. destruct (lex_chars_ok (chars s) toks) as (ts & -> & Hts); [by apply chars_scalar|done|].
  exists ts. split; [done|]. intros Hin. rewrite Forall_forall in Hts. by specialize (Hts _ Hin).
Qed.

(** What is between two parenthesized texts. *)
Lemma lex_and_open r :
  lex_chars (chars ") && (" ++ r) = (rest ← lex_chars r; Ok (TRParen :: TAnd :: TLParen :: rest)).
Proof.
  change (chars ") && (") with [ch ")"; ch " "; ch "&"; ch "&"; ch " "; ch "("]. cbn [app].
  assert (∀ r, lex_step (ch ")") r = Ok (Some TRParen, r)) as Hclose by reflexivity.
  assert (∀ r, lex_step (ch "(") r = Ok (Some TLParen, r)) as Hopen by reflexivity.
  assert (∀ r, lex_step (ch " ") r = Ok (None, r)) as Hspace by reflexivity.
  assert (∀ r, lex_step (ch "&") (ch "&" :: r) = Ok (Some TAnd, r)) as Hand by reflexivity.
  rewrite lex_chars_cons, Hclose, lex_chars_cons, Hspace, lex_chars_cons, Hand, lex_chars_cons, Hspace,
    lex_chars_cons, Hopen. by destruct (lex_chars r).
Qed.

(** A text in front of the parenthesis that closes it, and the end. *)
Lemma lex_last s ts :
  lex s = Ok (ts ++ [TEnd]) → lex_chars (chars s ++ [ch ")"]) = Ok (ts ++ [TRParen; TEnd]).
Proof. intros Hl. rewrite (lex_chars_closes _ ts); [done|apply closes_paren|done]. Qed.

Lemma utf8_ok_app a b : utf8_ok a → utf8_ok b → utf8_ok (a +:+ b).
Proof.
  intros (xs & Hx & ->) (ys & Hy & ->). rewrite <- of_chars_app. apply of_chars_utf8_ok. by apply Forall_app.
Qed.

(** Two parenthesized texts joined by [&&], and the gate of
    [effective_condition]. *)
Definition joined (outer inner : string) : string := "(" +:+ outer +:+ ") && (" +:+ inner +:+ ")".
Definition gated (condition : string) : string := "success() && (" +:+ condition +:+ ")".

Lemma ascii_ok s : is_ascii s = true → utf8_ok s.
Proof. apply ascii_utf8_ok. Qed.
Create HintDb utf8.
#[export] Hint Resolve utf8_ok_app : utf8.
#[export] Hint Extern 1 (utf8_ok _) => (apply ascii_ok; reflexivity) : utf8.

Lemma lex_joined outer inner to ti :
  utf8_ok outer → utf8_ok inner → lex outer = Ok (to ++ [TEnd]) → lex inner = Ok (ti ++ [TEnd]) →
  lex (joined outer inner) = Ok ((TLParen :: to ++ [TRParen]) ++ TAnd :: TLParen :: ti ++ [TRParen; TEnd]).
Proof.
  intros Ho Hi Hlo Hli. unfold lex, joined. rewrite !chars_app by auto 10 with utf8.
  assert (∀ r, lex_step (ch "(") r = Ok (Some TLParen, r)) as Hopen by reflexivity.
  change (chars "(") with [ch "("]. change (chars ")") with [ch ")"]. cbn [app].
  rewrite lex_chars_cons, Hopen, (lex_chars_closes _ to) by (done || apply closes_paren).
  rewrite lex_and_open, (lex_last inner ti Hli). cbn [mbind result_bind]. f_equal. simpl. f_equal.
  by rewrite <- app_assoc.
Qed.

Lemma lex_gated condition ts :
  utf8_ok condition → lex condition = Ok (ts ++ [TEnd]) →
  lex (gated condition) =
    Ok ([TIdent "success"; TLParen; TRParen] ++ TAnd :: TLParen :: ts ++ [TRParen; TEnd]).
Proof.
  intros Hc Hl. unfold lex, gated. rewrite !chars_app by auto 10 with utf8.
  change (chars "success() && (") with (chars "success" ++ ch "(" :: chars ") && (").
  change (chars ")") with [ch ")"]. rewrite <- app_assoc. cbn [app].
  assert (∀ r, lex_chars (chars "success" ++ ch "(" :: r) =
    (rest ← lex_chars r; Ok (TIdent "success" :: TLParen :: rest))) as Hs.
  { intros r. change (chars "success") with (ch "s" :: chars "uccess"). cbn [app]. rewrite lex_chars_cons.
    assert (lex_step (ch "s") (chars "uccess" ++ ch "(" :: r) = Ok (Some (TIdent "success"), ch "(" :: r)) as -> by reflexivity.
    rewrite lex_chars_cons. assert (lex_step (ch "(") r = Ok (Some TLParen, r)) as -> by reflexivity.
    by destruct (lex_chars r). }
  rewrite Hs, lex_and_open, (lex_last condition ts Hl). done.
Qed.

Section texts.
Context {num : Type} `{NumberOps num}.
Implicit Types (e : Expr num).

(** [s] is read as the tree [e]. *)
Lemma parse_input_tokens s e :
  utf8_ok s → parse_input s = Ok e →
  ∃ ts, lex s = Ok (ts ++ [TEnd]) ∧ (TEnd ∉ ts) ∧ parse_tokens (ts ++ [TEnd]) = Some (Ok e).
Proof.
  intros Hs. unfold parse_input. intros (toks & Hl & Hp)%bind_Ok.
  destruct (lex_tokens s toks Hs Hl) as (ts & -> & Hend). exists ts. split_and!; [done..|].
  destruct (parse_tokens (ts ++ [TEnd])) as [r|]; [|done]. simpl in Hp. by rewrite Hp.
Qed.

Lemma parse_joined outer inner eo ei :
  utf8_ok outer → utf8_ok inner → parse_input outer = Ok eo → parse_input inner = Ok ei →
  (parse_input (joined outer inner) = Ok (Binary OpAnd eo ei)) ∨
  parse_input (num:=num) (joined outer inner) = too_deep.
Proof.
  intros Ho Hi (to & Hlo & Hto & Hpo)%parse_input_tokens (ti & Hli & Hti & Hpi)%parse_input_tokens; [|done..].
  unfold parse_input. rewrite (lex_joined outer inner to ti) by done. cbn [mbind result_bind].
  destruct (parse_conjunction (num:=num) (TLParen :: to ++ [TRParen]) ti eo ei Hti Hpi) as [->| ->];
    [|by right|by left].
  pose proof (reads_paren [] to (TAnd :: TLParen :: ti ++ [TRParen; TEnd]) MAX_EXPRESSION_DEPTH 1 eo Hto Hpo) as Hr.
  cbn [app length] in Hr. rewrite <- app_comm_cons, <- app_assoc. cbn [app].
  replace (length (TLParen :: to ++ [TRParen])) with (0 + length to + 2) by (simpl; rewrite length_app; simpl; lia).
  apply Hr; unfold MAX_EXPRESSION_DEPTH; lia.
Qed.

Lemma parse_gated condition e :
  utf8_ok condition → parse_input condition = Ok e →
  (parse_input (gated condition) = Ok (Binary OpAnd (Call "success" []) e)) ∨
  parse_input (num:=num) (gated condition) = too_deep.
Proof.
  intros Hc (ts & Hl & Hend & Hp)%parse_input_tokens; [|done].
  unfold parse_input. rewrite (lex_gated condition ts) by done. cbn [mbind result_bind].
  destruct (parse_conjunction (num:=num) [TIdent "success"; TLParen; TRParen] ts (Call "success" []) e Hend Hp)
    as [->| ->]; [|by right|by left].
  right. eexists. split; [|reflexivity]. done.
Qed.
End texts.
