(* ===== verification/Models.v ===== *)
(** * Shared data of the parser and the scheduler

    [ParserError] of [crates/preloop-gha-parser/src/models.rs], and
    [ExecutionStatus] and the job plan of
    [crates/preloop-gha-protocol/src/lib.rs].  [JobPlan] has the fields the
    modelled functions read.  [ControlError] is the error of the commands of
    [crates/preloop-runner-server/src/control/types.rs]. *)
From S2P Require Export Conditions.

Inductive ParserError : Type :=
| Yaml (message : string)
| InvalidExpression (message : string)
| InvalidStepTimeout (job_id step message : string)
| EmptyJobs
| UnknownNeed (job_id need : string)
| NeedsCycle (witness : string)
| InvalidJobCondition (job_id : string) (error : ExpressionError)
| InvalidContinueOnError (job_id message : string)
| InvalidMatrixEntry (job_id field : string)
| MatrixTooLarge (job_id : string) (limit : nat)
| MissingReusableWorkflow (path : string)
| InvalidWorkflowCallTrigger (message : string)
| InvalidTriggerEvent (event : string)
| MaxNestingDepthExceeded
| MaxReusableWorkflowsExceeded (count limit : nat)
| MissingWorkflowCallTrigger
| MissingRequiredInput (name : string)
| UndeclaredInput (name : string)
| UndeclaredSecret (name : string)
| MissingRequiredSecret (name : string)
| InvalidConcurrency (message : string)
| InvalidInputValue (name value expected_type : string)
| InvalidFilterForKey (event key : string)
| ConflictingFilters (event a b : string).

Inductive ExecutionStatus : Type :=
| Queued | Pending | InProgress | Success | Failure | Skipped | Cancelled.

#[export] Instance ExecutionStatus_eq_dec : EqDecision ExecutionStatus.
Proof. solve_decision. Defined.

Definition is_terminal (s : ExecutionStatus) : bool :=
  match s with
  | Success | Failure | Skipped | Cancelled => true
  | _ => false
  end.

Record JobPlan : Type := mkJobPlan {
  id : string;
  base_id : string;
  runner_group : option string;
  runs_on : list string;
  needs : list string;
  deferred_matrix : option string;
  if_condition : option string;
  fail_fast : bool;
  continue_on_error : bool;
  max_parallel : option N;
}.

(** [ControlError]; a backend error is its text. *)
Inductive ControlError : Type :=
| NotFound (message : string)
| Conflict (message : string)
| Forbidden (message : string)
| BadRequest (message : string)
| Stale (message : string)
| QuotaExceeded (message : string)
| WidenScope
| Backend (message : string).
