(* ===== verification/Template.v ===== *)
(** * Templates

    The texts with embedded expressions of a workflow: the scan for the end of
    an expression ([crates/preloop-gha-protocol/src/expr_scan.rs]), and of
    [crates/preloop-gha-parser/src/eval.rs] the resolution of templates, labels
    and JSON values, the validation of the expressions in a text, the context
    built for a job and the test for values that must wait until later.

    [resolve_string_render] reads a template back as the concatenation of its
    pieces, [validated_template_errors] says what validation rules out at
    resolution, and [build_time_resolution_final] that a value resolved when
    the job is built does not depend on the outputs of its needs. *)
From S2P Require Export ParseContext Models.

(** ** Text of an expression error *)

Definition ticked (s : string) : string := "`" +:+ s +:+ "`".

(** [Display] of [ExpressionError]. *)
Definition expression_error_text (e : ExpressionError) : string :=
  match e with
  | Eof => "unexpected end of expression"
  | Unexpected t => "unexpected token " +:+ ticked t
  | UnknownFunction n => "unknown function " +:+ ticked n
  | InvalidFunctionArity n min max actual =>
      "function " +:+ ticked n +:+ " expects " +:+ pretty min +:+ "..=" +:+ pretty max
      +:+ " arguments, got " +:+ pretty actual
  | EvenCaseParameters => "case() requires an odd number of arguments (at least 3)"
  | NonBooleanCasePredicate => "case() predicate must evaluate to a boolean value"
  | InvalidFormat m => "invalid format string: " +:+ m
  | InvalidHashFilesOption o => "invalid hashFiles option " +:+ ticked o
  | HashFilesTooManyFiles n =>
      "hashFiles() matched more than the maximum of " +:+ pretty n +:+ " files"
  | HashFilesTraversalLimit n =>
      "hashFiles() visited more than the maximum of " +:+ pretty n +:+
      " entries while expanding patterns"
  | HashFilesTooLarge n => "hashFiles() input exceeds the maximum of " +:+ pretty n +:+ " bytes"
  | HashFilesDisallowedPattern p =>
      "hashFiles() pattern " +:+ ticked p +:+
      " is not allowed: patterns must be workspace-relative without absolute or parent components"
  | FormatOutputTooLarge n => "format() output exceeds the maximum of " +:+ pretty n +:+ " bytes"
  | EvaluationTooLarge n =>
      "expression evaluation exceeds the temporary value budget of " +:+ pretty n +:+ " bytes"
  | TooDeep n => "expression nesting exceeds the maximum depth of " +:+ pretty n
  | InvalidJson m => "fromJSON() received invalid JSON: " +:+ m
  end.

(** ** The end of an expression *)

Definition quote : ascii := "'".
Definition close_brace : ascii := "}".

Definition next_is (a : ascii) (s : string) : bool :=
  match s with String b _ => bool_decide (b = a) | EmptyString => false end.

(** The scan of [find_expression_end] at byte [pos].  The quote and the brace
    are ASCII, so the scan of the bytes sees what the scan of the characters
    sees. *)
Fixpoint expression_end_from (in_quote : bool) (pos : nat) (s : string) : option nat :=
  match s with
  | EmptyString => None
  | String a r =>
      if bool_decide (a = quote) then
        if in_quote then
          match r with
          | String b r' =>
              if bool_decide (b = quote) then expression_end_from true (S (S pos)) r'
              else expression_end_from false (S pos) r
          | EmptyString => None
          end
        else expression_end_from true (S pos) r
      else if bool_decide (a = close_brace) && negb in_quote && next_is close_brace r then Some pos
      else expression_end_from in_quote (S pos) r
  end.

Definition find_expression_end (s : string) : option nat := expression_end_from false 0 s.

(** [&s[..n]] and [&s[n..]]. *)
Fixpoint str_take (n : nat) (s : string) : string :=
  match n, s with
  | S n, String a r => String a (str_take n r)
  | _, _ => EmptyString
  end.
Fixpoint str_drop (n : nat) (s : string) : string :=
  match n, s with
  | S n, String _ r => str_drop n r
  | _, _ => s
  end.

Definition opener : string := "${{".
Definition closer : string := "}}".

Section template.
Context {num : Type} `{NumberOps num, JsonCodec num, UnicodeCase}.
Variable hash_files : list (value num) → option string → result ExpressionError string.
Implicit Types (c : Context num) (v : value num).

(** ** Resolution *)

Definition stringify_value v : string :=
  match v with
  | JString s => s
  | JNull => ""
  | JBool true => "true"
  | JBool false => "false"
  | JNumber n => number_string n
  | JArray vs => json_to_string (JArray vs)
  | JObject m => json_to_string (JObject m)
  end.

(** The loop of [resolve_string]; each round consumes an opening marker. *)
Fixpoint resolve_loop (fuel : nat) c (res remaining : string) : result string string :=
  match fuel with
  | O => Ok (res +:+ remaining)
  | S fuel =>
      match split_once opener remaining with
      | None => Ok (res +:+ remaining)
      | Some (before, after) =>
          end_ ← ok_or "unclosed ${{ expression" (find_expression_end after);
          let expr := trim (str_take end_ after) in
          v ← map_err expression_error_text (eval_expression hash_files expr c);
          resolve_loop fuel c (res +:+ before +:+ stringify_value v) (str_drop (end_ + 2) after)
      end
  end.

Definition resolve_string (input : string) c : result string string :=
  if negb (str_contains opener input) then Ok input
  else resolve_loop (S (String.length input)) c "" input.

Definition whole_expression (input : string) : option string :=
  rest ← strip_prefix opener (trim input);
  end_ ← find_expression_end rest;
  if str_eqb (trim (str_drop (end_ + 2) rest)) "" then Some (trim (str_take end_ rest)) else None.

Definition result_default {E A} (a : A) (r : result E A) : A :=
  match r with Ok b => b | Err _ => a end.

Definition resolve_runs_on_label (label : string) c : list string :=
  if negb (str_contains opener label) then [label]
  else
    match whole_expression label with
    | Some expression =>
        match eval_expression hash_files expression c with
        | Ok (JArray items) => stringify_value <$> items
        | _ => [result_default label (resolve_string label c)]
        end
    | None => [result_default label (resolve_string label c)]
    end.

(** [resolve_map] visits the keys in order and stops at the first error. *)
Fixpoint resolve_entries (keys : list string) (m : gmap string string) c
    (acc : gmap string string) : result string (gmap string string) :=
  match keys with
  | [] => Ok acc
  | key :: keys =>
      match m !! key with
      | None => resolve_entries keys m c acc
      | Some text => r ← resolve_string text c; resolve_entries keys m c (<[key := r]> acc)
      end
  end.
Definition resolve_map (m : gmap string string) c : result string (gmap string string) :=
  resolve_entries (btree_keys m) m c ∅.

Fixpoint resolve_json v c : result string (value num) :=
  match v with
  | JString s => if str_contains opener s then JString <$> resolve_string s c else Ok v
  | JArray vs =>
      JArray <$> (fix each vs :=
        match vs with
        | [] => Ok []
        | v :: vs => r ← resolve_json v c; rs ← each vs; Ok (r :: rs)
        end) vs
  | JObject m =>
      (fix members (m acc : imap (value num)) :=
         match m with
         | [] => Ok (JObject acc)
         | (k, v) :: m => r ← resolve_json v c; members m (imap_insert k r acc)
         end) m []
  | _ => Ok v
  end.

(** ** Validation *)

(** The order in which a [HashSet] yields its elements. *)
Class HashOrder := {
  hash_order : gset string → list string;
  hash_order_perm : ∀ s, hash_order s ≡ₚ elements s;
}.
Context `{HashOrder}.

Definition context_spec_name (spec : string) : string :=
  match split_once "(" spec with Some (name, _) => name | None => spec end.

Definition usize_max_arity : N := 2 ^ 64 - 1.

Definition context_spec_arity (spec : string) : result string (option (N * N)) :=
  let invalid := "invalid context function contract " +:+ ticked spec in
  match split_once "(" spec with
  | None => Ok None
  | Some (_, bounds) =>
      bounds ← ok_or invalid (strip_suffix ")" bounds);
      '(min, max) ← ok_or invalid (split_once "," bounds);
      min ← ok_or invalid (parse_usize min);
      max ← (if eq_ignore_ascii_case max "MAX" then Ok usize_max_arity
             else ok_or invalid (parse_usize max));
      Ok (Some (min, max))
  end.

Definition names_context (ctx spec : string) : bool :=
  eq_ignore_ascii_case (context_spec_name spec) ctx.

Definition context_not_allowed (allowed : list string) (ctx : string) : string :=
  let dquoted s := quote_mark +:+ s +:+ quote_mark in
  "context " +:+ dquoted ctx +:+ " is not allowed here. available contexts are "
  +:+ join ", " (dquoted <$> allowed) +:+ ".".

Definition function_not_allowed (f : ContextFunctionCall) (spec : string) : string :=
  "function " +:+ quote_mark +:+ call_name f +:+ quote_mark +:+ " with "
  +:+ pretty (argument_count f) +:+ " argument(s) is not allowed here; allowed contract is "
  +:+ quote_mark +:+ spec +:+ quote_mark +:+ ".".

Definition check_function (allowed : list string) (f : ContextFunctionCall) : result string unit :=
  match find (names_context (call_name f)) allowed with
  | None => Ok tt
  | Some spec =>
      arity ← context_spec_arity spec;
      match arity with
      | Some (min, max) =>
          if ((min <=? N.of_nat (argument_count f)) && (N.of_nat (argument_count f) <=? max))%N
          then Ok tt else Err (function_not_allowed f spec)
      | None => Ok tt
      end
  end.

Definition invalid_in (input : string) (e : ExpressionError) : string :=
  "invalid expression in " +:+ ticked input +:+ ": " +:+ expression_error_text e.

Definition validate_contexts (expr : string) (allowed_contexts : option (list string))
    (input : string) : result string unit :=
  match allowed_contexts with
  | None => Ok tt
  | Some allowed =>
      references ← map_err (invalid_in input) (collect_expression_references (num:=num) expr);
      _ ← try_for_each (λ ctx, if existsb (names_context ctx) allowed then Ok tt
                               else Err (context_not_allowed allowed ctx))
            (hash_order (contexts references));
      try_for_each (check_function allowed) (functions references)
  end.

Definition invalid_span (expr input : string) (e : ExpressionError) : string :=
  "invalid expression `${{ " +:+ expr +:+ " }}` in " +:+ ticked input +:+ ": "
  +:+ expression_error_text e.

Fixpoint validate_loop (fuel : nat) (allowed : option (list string)) (input remaining : string) :
    result string unit :=
  match fuel with
  | O => Ok tt
  | S fuel =>
      match split_once opener remaining with
      | None => Ok tt
      | Some (_, after) =>
          end_ ← ok_or ("unclosed ${{ expression in " +:+ ticked input) (find_expression_end after);
          let expr := trim (str_take end_ after) in
          _ ← map_err (invalid_span expr input) (validate_expression (num:=num) expr);
          _ ← validate_contexts expr allowed input;
          validate_loop fuel allowed input (str_drop (end_ + 2) after)
      end
  end.

Definition validate_expressions_in_string (input : string) (is_condition : bool)
    (allowed : option (list string)) : result string unit :=
  if is_condition && negb (str_contains opener input) then
    let effective := effective_condition (Some input) in
    _ ← map_err (λ e, "invalid condition " +:+ ticked input +:+ ": " +:+ expression_error_text e)
          (validate_expression (num:=num) effective);
    validate_contexts effective allowed input
  else validate_loop (S (String.length input)) allowed input input.

Fixpoint validate_value_expressions v (allowed : option (list string)) : result string unit :=
  match v with
  | JString s => validate_expressions_in_string s false allowed
  | JArray vs => try_for_each (λ v, validate_value_expressions v allowed) vs
  | JObject m => try_for_each (λ kv, validate_value_expressions kv.2 allowed) m
  | _ => Ok tt
  end.

(** ** The context of a job *)

(** A [serde_json] map collected from a [BTreeMap]: its keys in order. *)
Definition object_of {A} (f : A → value num) (m : gmap string A) : imap (value num) :=
  omap (λ k, (λ a, (k, f a)) <$> m !! k) (btree_keys m).

Definition build_context (github : value num) (env vars : gmap string string)
    (matrix : imap (value num)) (strategy : value num) (secrets : gmap string string)
    (inputs : gmap string (value num)) : Context num :=
  let c := context_insert context_default "github" github in
  let c := context_insert c "env" (JObject (object_of JString env)) in
  let c := context_insert c "vars" (JObject (object_of JString vars)) in
  let c := context_insert c "matrix" (JObject matrix) in
  let c := context_insert c "strategy" strategy in
  let c := context_insert c "needs" (JObject []) in
  let c := context_insert c "secrets" (JObject (object_of JString secrets)) in
  context_insert c "inputs" (JObject (object_of (λ v, v) inputs)).

(** Whether one span reads [needs]. *)
Definition span_reads_needs (body : string) : bool :=
  match collect_expression_references (num:=num) body with
  | Ok references => bool_decide ("needs" ∈ contexts references)
  | Err _ => str_contains "needs" (to_ascii_lowercase body)
  end.

Fixpoint reads_needs_loop (fuel : nat) (rest : string) : bool :=
  match fuel with
  | O => false
  | S fuel =>
      match split_once opener rest with
      | None => false
      | Some (_, after) =>
          match find_expression_end after with
          | None => false
          | Some end_ =>
              span_reads_needs (str_take end_ after)
              || reads_needs_loop fuel (str_drop (end_ + 2) after)
          end
      end
  end.

Definition resolves_after_job_build (text : string) : bool :=
  str_contains "github.workspace" text || reads_needs_loop (S (String.length text)) text.

End template.

(** ** Lemmas on the scans *)

Lemma split_once_app p s l r : split_once p s = Some (l, r) → s = l +:+ p +:+ r.
Proof.
  revert l r. induction s as [|a s IH]; intros l r; simpl.
  - destruct (strip_prefix p "") eqn:Hp; [|done]. intros [= <- <-]. by apply strip_prefix_Some in Hp.
  - destruct (strip_prefix p (String a s)) eqn:Hp.
    + intros [= <- <-]. by apply strip_prefix_Some in Hp.
    + destruct (split_once p s) as [[b t]|]; [|done]. intros [= <- <-].
      change (String a s = String a (b +:+ p +:+ t)). f_equal. by apply IH.
Qed.

Lemma split_once_contains p s : str_contains p s = false ↔ split_once p s = None.
Proof.
  unfold starts_with. induction s as [|a s IH]; simpl; unfold starts_with;
    destruct (strip_prefix p _); simpl; try done.
  rewrite IH. destruct (split_once p s) as [[? ?]|]; simpl; split; congruence.
Qed.

Lemma split_once_first_free p s l r : split_once p s = Some (l, r) → p ≠ "" → split_once p l = None.
Proof.
  intros Hs Hp. revert l r Hs. induction s as [|a s IH]; intros l r; simpl.
  - destruct (strip_prefix p "") eqn:Hq; [|done]. intros [= <- <-].
    destruct p; [done|]. done.
  - destruct (strip_prefix p (String a s)) eqn:Hq.
    + intros [= <- <-]. by destruct p.
    + destruct (split_once p s) as [[b t]|] eqn:Hb; [|done]. intros [= <- <-]. simpl.
      pose proof (split_once_app _ _ _ _ Hb) as ->.
      rewrite (IH b t eq_refl).
      destruct (strip_prefix p (String a b)) as [q|] eqn:Hab; [|done].
      apply strip_prefix_Some in Hab.
      assert (strip_prefix p (String a (b +:+ p +:+ t)) = Some (q +:+ p +:+ t)); [|congruence].
      apply strip_prefix_Some. change (String a (b +:+ p +:+ t)) with (String a b +:+ (p +:+ t)).
      by rewrite Hab, <- app_assoc_string.
Qed.

(** The opening marker does not overlap itself, so a text without one ends
    where the next marker starts. *)
Lemma strip_opener a l r :
  strip_prefix opener (String a l) = None →
  strip_prefix opener (String a (l +:+ opener +:+ r)) = None.
Proof.
  unfold opener. destruct l as [|b [|d l]]; simpl; repeat case_decide; congruence || done.
Qed.

Lemma split_once_opener l r :
  split_once opener l = None → split_once opener (l +:+ opener +:+ r) = Some (l, r).
Proof.
  induction l as [|a l IH]; intros Hl; [done|]. cbn [split_once] in Hl.
  destruct (strip_prefix opener (String a l)) eqn:Hs; [done|].
  change (String a l +:+ opener +:+ r) with (String a (l +:+ opener +:+ r)). cbn [split_once].
  rewrite strip_opener by done. rewrite IH; [done|]. by destruct (split_once opener l) as [[? ?]|].
Qed.

Lemma str_take_app b s : str_take (String.length b) (b +:+ s) = b.
Proof. induction b as [|a b IH]; simpl; [by destruct s|by rewrite IH]. Qed.
Lemma str_drop_app b s : str_drop (String.length b) (b +:+ s) = s.
Proof. induction b as [|a b IH]; simpl; [by destruct s|done]. Qed.

(** The offset of the end counts from where the scan starts. *)
Lemma expression_end_shift q pos s :
  expression_end_from q pos s = (λ n, pos + n) <$> expression_end_from q 0 s.
Proof.
  remember (String.length s) as k eqn:Hk. revert q pos s Hk.
  induction (lt_wf k) as [k _ IH]. intros q pos [|a r] ->; simpl; [done|].
  assert (∀ q' p s', String.length s' < S (String.length r) →
    expression_end_from q' (p + pos) s' = (λ n, pos + n) <$> expression_end_from q' p s') as Hs.
  { intros q' p s' Hl. rewrite (IH _ Hl q' (p + pos) s' eq_refl), (IH _ Hl q' p s' eq_refl).
    destruct (expression_end_from q' 0 s'); simpl; [|done]. f_equal. lia. }
  case_bool_decide.
  - destruct q; [|apply (Hs true 1); lia]. destruct r as [|b r]; [done|].
    case_bool_decide; [apply (Hs true 2); simpl; lia|apply (Hs false 1); simpl; lia].
  - destruct (_ && _); [simpl; f_equal; lia|apply (Hs q 1); lia].
Qed.

(** The text before an end the scan finds. *)
Definition body_ok (b : string) : Prop := find_expression_end (b +:+ closer) = Some (String.length b).

(** What one round of the scan does with its first characters. *)
Inductive end_step : bool → string → option (bool * nat * string) → Prop :=
| step_found r : end_step false (String close_brace (String close_brace r)) None
| step_escaped r : end_step true (String quote (String quote r)) (Some (true, 2, r))
| step_close b r : b ≠ quote → end_step true (String quote (String b r)) (Some (false, 1, String b r))
| step_open r : end_step false (String quote r) (Some (true, 1, r))
| step_skip q a r :
    a ≠ quote → (a = close_brace → q = false → next_is close_brace r = false) →
    end_step q (String a r) (Some (q, 1, r)).

Lemma expression_end_inv q s n :
  expression_end_from q 0 s = Some n →
  ∃ o, end_step q s o ∧
  match o with
  | None => n = 0
  | Some (q', k, r) => ∃ m, expression_end_from q' 0 r = Some m ∧ n = k + m
  end.
Proof.
  destruct s as [|a r]; simpl; [done|]. case_bool_decide as Ha.
  - subst a. destruct q.
    + destruct r as [|b r]; [done|]. case_bool_decide as Hb.
      * subst b. rewrite expression_end_shift. intros (m & Hm & ->)%fmap_Some.
        eexists; split; [apply step_escaped|by exists m].
      * rewrite expression_end_shift. intros (m & Hm & ->)%fmap_Some.
        eexists; split; [by apply step_close|by exists m].
    + rewrite expression_end_shift. intros (m & Hm & ->)%fmap_Some.
      eexists; split; [apply step_open|by exists m].
  - destruct (_ && _) eqn:Hf.
    + intros [= <-]. apply andb_true_iff in Hf as [[->%bool_decide_eq_true ->%negb_true_iff]%andb_true_iff Hr].
      destruct r as [|b r]; [done|]. apply bool_decide_eq_true in Hr as ->.
      exists None. by split; [apply step_found|].
    + rewrite expression_end_shift. intros (m & Hm & ->)%fmap_Some.
      eexists; split; [apply step_skip; [done|]|by exists m].
      intros -> ->. by rewrite bool_decide_eq_true_2 in Hf by done.
Qed.

Lemma expression_end_close b r :
  b ≠ quote →
  expression_end_from true 0 (String quote (String b r)) =
  (λ m, 1 + m) <$> expression_end_from false 0 (String b r).
Proof.
  intros Hb. rewrite <- expression_end_shift. cbn [expression_end_from].
  rewrite (bool_decide_eq_true_2 (quote = quote)), (bool_decide_eq_false_2 (b = quote)) by done.
  by destruct (bool_decide (b = close_brace) && negb false && next_is close_brace r).
Qed.

Lemma expression_end_step q s o :
  end_step q s o →
  expression_end_from q 0 s =
  match o with None => Some 0 | Some (q', k, r) => (λ m, k + m) <$> expression_end_from q' 0 r end.
Proof.
  destruct 1 as [r|r|b r Hb|r|q a r Ha Hc]; [| |by apply expression_end_close|..];
    cbn [expression_end_from].
  - done.
  - by rewrite !bool_decide_eq_true_2, expression_end_shift by done.
  - by rewrite bool_decide_eq_true_2, expression_end_shift by done.
  - rewrite bool_decide_eq_false_2 by done.
    destruct (bool_decide (a = close_brace) && negb q && next_is close_brace r) eqn:Hf;
      [|by rewrite expression_end_shift].
    apply andb_true_iff in Hf as [[->%bool_decide_eq_true ->%negb_true_iff]%andb_true_iff Hr].
    by rewrite Hc in Hr.
Qed.

Lemma expression_end_continue q s k q' r n :
  end_step q s (Some (q', k, r)) → expression_end_from q' 0 r = Some n →
  expression_end_from q 0 s = Some (k + n).
Proof. intros Hs Hr. rewrite (expression_end_step _ _ _ Hs). by rewrite Hr. Qed.

Lemma expression_end_split q s n :
  expression_end_from q 0 s = Some n →
  ∃ b r, s = b +:+ closer +:+ r ∧ String.length b = n ∧
    ∀ r', expression_end_from q 0 (b +:+ closer +:+ r') = Some n.
Proof.
  remember (String.length s) as k eqn:Hk. revert q s n Hk.
  induction (lt_wf k) as [k _ IH]. intros q s n ->.
  intros (o & Ho & Hn)%expression_end_inv.
  destruct Ho as [r|r|b r Hb|r|q a r Ha Hc].
  - subst n. exists "", r. split; [done|]. split; [done|]. intros r'. by apply (expression_end_step _ _ None), step_found.
  - destruct Hn as (m & (b & t & -> & Hl & Hr)%(IH (String.length r) ltac:(simpl; lia) true r m eq_refl) & ->).
    exists (String quote (String quote b)), t. split; [done|]. split; [simpl; lia|].
    intros r'. by apply (expression_end_continue _ _ _ _ _ _ (step_escaped _)).
  - destruct Hn as (m & (x & t & He & Hl & Hr)%(IH (String.length (String b r)) ltac:(simpl; lia) false _ m eq_refl) & ->).
    exists (String quote x), t. rewrite He. split; [done|]. split; [simpl; lia|].
    intros r'. change (String quote x +:+ closer +:+ r') with (String quote (x +:+ closer +:+ r')).
    assert (∃ b' y, x +:+ closer +:+ r' = String b' y ∧ b' ≠ quote) as (b' & y & Hy & Hb').
    { destruct x as [|d x]; [by exists close_brace, (String close_brace r')|].
      injection He as ->. by exists d, (x +:+ closer +:+ r'). }
    rewrite Hy. apply (expression_end_continue _ _ _ _ _ _ (step_close _ _ Hb')). by rewrite <- Hy.
  - destruct Hn as (m & (b & t & -> & Hl & Hr)%(IH (String.length r) ltac:(simpl; lia) true r m eq_refl) & ->).
    exists (String quote b), t. split; [done|]. split; [simpl; lia|].
    intros r'. by apply (expression_end_continue _ _ _ _ _ _ (step_open _)).
  - destruct Hn as (m & (b & t & -> & Hl & Hr)%(IH (String.length r) ltac:(simpl; lia) q r m eq_refl) & ->).
    exists (String a b), t. split; [done|]. split; [simpl; lia|].
    intros r'. change (String a b +:+ closer +:+ r') with (String a (b +:+ closer +:+ r')).
    apply (expression_end_continue _ _ _ q (b +:+ closer +:+ r')); [|done].
    apply step_skip; [done|]. intros -> ->. specialize (Hc eq_refl eq_refl).
    by destruct b.
Qed.

(** ** Templates as pieces

    The literals and expression bodies of a text, and what follows the last
    expression: a literal, or [None] when a marker is never closed. *)
Inductive template : string → list (string * string) → option string → Prop :=
| template_end t : split_once opener t = None → template t [] (Some t)
| template_open l r :
    split_once opener l = None → find_expression_end r = None → template (l +:+ opener +:+ r) [] None
| template_expr l b s ps t :
    split_once opener l = None → body_ok b → template s ps t →
    template (l +:+ opener +:+ b +:+ closer +:+ s) ((l, b) :: ps) t.

Lemma body_ok_app b s : body_ok b → find_expression_end (b +:+ closer +:+ s) = Some (String.length b).
Proof.
  unfold body_ok, find_expression_end. intros Hb.
  destruct (expression_end_split _ _ _ Hb) as (b' & r & He & Hl & Hr). rewrite <- Hl. rewrite <- Hl in Hr.
  assert (b' = b) as ->; [|apply Hr].
  apply (f_equal (str_take (String.length b'))) in He. rewrite str_take_app in He.
  rewrite Hl, str_take_app in He. done.
Qed.

Lemma find_expression_end_Some s n :
  find_expression_end s = Some n → ∃ b r, s = b +:+ closer +:+ r ∧ String.length b = n ∧ body_ok b.
Proof.
  intros (b & r & -> & <- & Hb)%expression_end_split. exists b, r. repeat split.
  unfold body_ok, find_expression_end. rewrite <- (Hb ""). f_equal.
Qed.

Lemma template_total s : ∃ ps t, template s ps t.
Proof.
  remember (String.length s) as k eqn:Hk. revert s Hk.
  induction (lt_wf k) as [k _ IH]. intros s ->.
  destruct (split_once opener s) as [[l r]|] eqn:Hs; [|exists [], (Some s); by constructor].
  pose proof (split_once_app _ _ _ _ Hs) as ->.
  pose proof (split_once_first_free _ _ _ _ Hs ltac:(done)) as Hl.
  destruct (find_expression_end r) as [n|] eqn:Hn; [|exists [], None; by constructor].
  apply find_expression_end_Some in Hn as (b & r' & -> & _ & Hb).
  destruct (IH (String.length r') ltac:(rewrite !length_string_app; simpl; lia) r' eq_refl) as (ps & t & Ht).
  exists ((l, b) :: ps), t. by constructor.
Qed.

(** The rounds of the three scans on a text whose first expression is known. *)
Lemma template_head l b s :
  split_once opener l = None → body_ok b →
  split_once opener (l +:+ opener +:+ b +:+ closer +:+ s) = Some (l, b +:+ closer +:+ s) ∧
  find_expression_end (b +:+ closer +:+ s) = Some (String.length b) ∧
  str_take (String.length b) (b +:+ closer +:+ s) = b ∧
  str_drop (String.length b + 2) (b +:+ closer +:+ s) = s ∧
  String.length s < String.length (l +:+ opener +:+ b +:+ closer +:+ s).
Proof.
  intros Hl Hb. rewrite split_once_opener, body_ok_app, str_take_app by done.
  repeat split; [|rewrite !length_string_app; simpl; lia].
  rewrite app_assoc_string. change 2 with (String.length closer).
  rewrite <- length_string_app. apply str_drop_app.
Qed.

Section pieces.
Context {num : Type} `{NumberOps num, JsonCodec num, UnicodeCase, HashOrder}.
Variable hash_files : list (value num) → option string → result ExpressionError string.
Implicit Types (c : Context num).

Definition eval_piece c (body : string) : result string (value num) :=
  map_err expression_error_text (eval_expression hash_files (trim body) c).

(** Each expression in order, then the literal after it. *)
Fixpoint resolve_pieces c (ps : list (string * string)) (t : option string) : result string string :=
  match ps with
  | [] => ok_or "unclosed ${{ expression" t
  | (l, b) :: ps =>
      v ← eval_piece c b;
      rest ← resolve_pieces c ps t;
      Ok (l +:+ stringify_value v +:+ rest)
  end.

Lemma resolve_loop_pieces fuel c res s ps t :
  template s ps t → String.length s < fuel →
  resolve_loop hash_files fuel c res s = (λ rest, res +:+ rest) <$> resolve_pieces c ps t.
Proof.
  intros Ht. revert fuel res. induction Ht as [t Hn|l r Hl Hr|l b s ps t Hl Hb Ht IH];
    intros [|fuel] res Hf; try lia; cbn [resolve_loop].
  - by rewrite Hn.
  - by rewrite split_once_opener, Hr.
  - destruct (template_head l b s Hl Hb) as (-> & Hend & Ht' & Hd & Hlt).
    rewrite Hend. cbn [ok_or mbind result_bind resolve_pieces]. rewrite Ht', Hd.
    unfold eval_piece. destruct (map_err _ _) as [v|e]; [|done]. cbn [mbind result_bind].
    rewrite IH by lia. destruct (resolve_pieces c ps t) as [rest|e]; [|done]. simpl.
    by rewrite !app_assoc_string.
Qed.

Lemma resolve_string_pieces c s ps t :
  template s ps t → resolve_string hash_files s c = resolve_pieces c ps t.
Proof.
  intros Ht. unfold resolve_string. destruct (str_contains opener s) eqn:Hs; cbn [negb].
  - rewrite (resolve_loop_pieces (S (String.length s)) c "" s ps t Ht) by lia.
    destruct (resolve_pieces c ps t); reflexivity.
  - apply split_once_contains in Hs. destruct Ht as [t Hn|l r Hl Hr|l b s ps t Hl Hb Ht];
      [reflexivity|..]; rewrite split_once_opener in Hs by exact Hl; discriminate Hs.
Qed.

Definition check_piece (allowed : option (list string)) (input body : string) : result string unit :=
  _ ← map_err (invalid_span (trim body) input) (validate_expression (num:=num) (trim body));
  validate_contexts (num:=num) (trim body) allowed input.

Fixpoint validate_pieces (allowed : option (list string)) (input : string) (ps : list (string * string))
    (t : option string) : result string unit :=
  match ps with
  | [] => match t with Some _ => Ok tt | None => Err ("unclosed ${{ expression in " +:+ ticked input) end
  | (_, b) :: ps => _ ← check_piece allowed input b; validate_pieces allowed input ps t
  end.

Lemma validate_loop_pieces fuel allowed input s ps t :
  template s ps t → String.length s < fuel →
  validate_loop (num:=num) fuel allowed input s = validate_pieces allowed input ps t.
Proof.
  intros Ht. revert fuel. induction Ht as [t Hn|l r Hl Hr|l b s ps t Hl Hb Ht IH];
    intros [|fuel] Hf; try lia; cbn [validate_loop].
  - by rewrite Hn.
  - by rewrite split_once_opener, Hr.
  - destruct (template_head l b s Hl Hb) as (-> & Hend & Ht' & Hd & Hlt).
    rewrite Hend. cbn [ok_or mbind result_bind validate_pieces]. rewrite Ht', Hd. unfold check_piece.
    destruct (map_err _ _) as [[]|e]; [|done]. cbn [mbind result_bind].
    destruct (validate_contexts _ _ _) as [[]|e]; [|done]. cbn [mbind result_bind]. apply IH. lia.
Qed.

Lemma reads_needs_pieces fuel s ps t :
  template s ps t → String.length s < fuel →
  reads_needs_loop (num:=num) fuel s = existsb (λ p, span_reads_needs (num:=num) p.2) ps.
Proof.
  intros Ht. revert fuel. induction Ht as [t Hn|l r Hl Hr|l b s ps t Hl Hb Ht IH];
    intros [|fuel] Hf; try lia; cbn [reads_needs_loop].
  - by rewrite Hn.
  - by rewrite split_once_opener, Hr.
  - destruct (template_head l b s Hl Hb) as (-> & Hend & Ht' & Hd & Hlt).
    rewrite Hend, Ht', Hd. simpl. f_equal. apply IH. lia.
Qed.

End pieces.

(** ** Evaluation without one root

    Two contexts that differ only in one root evaluate alike every expression
    that does not name it. *)
Section without_root.
Context {num : Type} `{NumberOps num, JsonCodec num, UnicodeCase, HashOrder}.
Variable hash_files : list (value num) → option string → result ExpressionError string.
Variable root : string.
Implicit Types (c : Context num) (e : Expr num).

Definition same_but_root c1 c2 : Prop :=
  success c1 = success c2 ∧ failure c1 = failure c2 ∧ cancelled c1 = cancelled c2 ∧
  workspace_dir c1 = workspace_dir c2 ∧ ∀ k, k ≠ root → roots c1 !! k = roots c2 !! k.

Lemma collect_contexts_le e refs :
  contexts refs ⊆ contexts (collect_expression_references_from_expr e refs).
Proof.
  revert refs. induction e as [v|p|e IHe|op l r IHl IHr|name args IHargs|e p IHe|b k IHb IHk] using Expr_ind';
    intros refs; simpl; [done| |apply IHe|by etrans; [apply IHl|apply IHr]| |apply IHe|by etrans; [apply IHb|apply IHk]].
  - destruct p; simpl; set_solver.
  - assert (∀ r0, contexts r0 ⊆ contexts
      (foldl (λ refs arg, collect_expression_references_from_expr arg refs) r0 args)) as Hf.
    { induction IHargs as [|a args Ha _ IH]; intros r0; simpl; [done|]. etrans; [apply Ha|apply IH]. }
    etrans; [|apply Hf]. destruct (is_context_function _); simpl; set_solver.
Qed.

(** The expression names no path from [root]. *)
Definition avoids e : Prop :=
  ∃ refs, root ∉ contexts (collect_expression_references_from_expr e refs).

Lemma avoids_args args refs :
  root ∉ contexts (foldl (λ refs arg, collect_expression_references_from_expr arg refs) refs args) →
  Forall avoids args.
Proof.
  revert refs. induction args as [|a args IH]; intros refs Hr; simpl in Hr; constructor; [|by eapply IH].
  exists refs. intros Hin. apply Hr. clear IH Hr.
  generalize dependent (collect_expression_references_from_expr a refs). intros r0. clear refs.
  revert r0. induction args as [|a' args IH]; intros r0 Hin; simpl; [done|].
  apply IH, collect_contexts_le, Hin.
Qed.

Variables c1 c2 : Context num.
Hypothesis Hsame : same_but_root c1 c2.
Hypothesis Hlower : to_ascii_lowercase root = root.

Abbreviation alike := (λ e : Expr num, ∀ b, eval hash_files c1 e b = eval hash_files c2 e b).

Lemma path_alike p refs :
  root ∉ contexts (collect_expression_references_from_expr (num:=num) (Path p) refs) →
  resolve_ref c1 p = resolve_ref c2 p ∧ resolve c1 p = resolve c2 p.
Proof.
  destruct Hsame as (_ & _ & _ & _ & Hroots). destruct p as [|first rest]; simpl; [done|].
  intros Hr. rewrite Hroots; [done|]. intros ->. rewrite Hlower in Hr. set_solver.
Qed.

Lemma eval_args_alike args b :
  Forall alike args → eval_args (eval hash_files c1) args b = eval_args (eval hash_files c2) args b.
Proof.
  intros Hargs. revert b. induction Hargs as [|a args Ha _ IH]; intros b; cbn [eval_args]; [done|].
  rewrite Ha. destruct (eval hash_files c2 a b) as [[v b']|err]; cbn [mbind result_bind]; [by rewrite IH|done].
Qed.

Lemma eval_case_alike args : Forall alike args →
  ∀ b, eval_case (eval hash_files c1) args b = eval_case (eval hash_files c2) args b.
Proof.
  intros Hargs. induction args as [args IH] using (induction_ltof1 _ length). unfold ltof in IH.
  destruct args as [|p [|r args]]; intros b; cbn [eval_case]; [done| |].
  { rewrite Forall_singleton in Hargs. apply Hargs. }
  rewrite !Forall_cons in Hargs. destruct Hargs as (Hp & Hr & Hargs). rewrite Hp.
  destruct (eval hash_files c2 p b) as [[v b']|err]; cbn [mbind result_bind]; [|done].
  destruct v as [|[]| | | |]; try done. apply IH; [simpl; lia|done].
Qed.

Lemma call_function_alike name lower values b :
  call_function hash_files name lower values c1 b = call_function hash_files name lower values c2 b.
Proof.
  destruct Hsame as (Hs & Hf & Hc & Hw & _). unfold call_function. by rewrite Hs, Hf, Hc, Hw.
Qed.

Lemma eval_alike e : avoids e → alike e.
Proof.
  induction e as [v|p|e IHe|op l r IHl IHr|name args IHargs|e p IHe|k v IHk IHv] using Expr_ind';
    intros [refs Hr] b; rewrite !eval_unfold; unfold eval_guard; (case_match; [done|]); f_equal;
    unfold eval_inner; f_equal.
  - by destruct (path_alike p refs Hr) as [-> ->].
  - by rewrite IHe by (by exists refs).
  - cbn [collect_expression_references_from_expr] in Hr. unfold eval_binary.
    rewrite IHl by (exists refs; intros Hin; by apply Hr, collect_contexts_le).
    assert (alike r) as Hrr by (apply IHr; by exists (collect_expression_references_from_expr l refs)).
    destruct (eval hash_files c2 l _) as [[lv b']|err]; cbn [mbind result_bind]; [|done].
    by rewrite Hrr.
  - cbn [collect_expression_references_from_expr] in Hr. apply avoids_args in Hr.
    assert (Forall alike args) as Hargs.
    { apply Forall_forall. intros a Ha. rewrite Forall_forall in IHargs, Hr. by apply IHargs, Hr. }
    unfold eval_call. destruct (validate_function_arity _ _); cbn [mbind result_bind]; [|done].
    rewrite eval_case_alike, eval_args_alike by done. case_match; [done|].
    destruct (eval_args _ _ _) as [[vs b']|err]; cbn [mbind result_bind]; [|done].
    by rewrite call_function_alike.
  - by rewrite IHe by (by exists refs).
  - cbn [collect_expression_references_from_expr] in Hr.
    rewrite IHk by (exists refs; intros Hin; by apply Hr, collect_contexts_le).
    assert (alike v) as Hrr by (apply IHv; by exists (collect_expression_references_from_expr k refs)).
    destruct (eval hash_files c2 k _) as [[lv b']|err]; cbn [mbind result_bind]; [|done].
    by rewrite Hrr.
Qed.

Lemma eval_expression_alike input refs :
  collect_expression_references (num:=num) input = Ok refs → root ∉ contexts refs →
  eval_expression hash_files input c1 = eval_expression hash_files input c2.
Proof.
  unfold collect_expression_references, eval_expression.
  destruct (parse_input _) as [e|err]; cbn [mbind result_bind]; [|done].
  intros [= <-] Hr. unfold eval_expr. by rewrite eval_alike by (by eexists).
Qed.

End without_root.

(** ** Valid UTF-8 around the markers *)

Lemma utf8_ok_bytes s : utf8_ok s ↔ utf8 (Utf8.bytes s).
Proof.
  split.
  - intros (cs & Hcs & ->). unfold of_chars. rewrite list_ascii_of_bytes.
    + induction Hcs as [|c cs Hc _ IH]; simpl; by constructor.
    + induction Hcs as [|c cs Hc _ IH]; simpl; [constructor|].
      apply Forall_app. split; [by apply encode_char_bytes, is_scalar_lt|done].
  - intros Hb. assert (∃ cs, Forall (λ c, is_scalar c = true) cs ∧ Utf8.bytes s = flat_map Utf8.encode_char cs)
      as (cs & Hcs & He).
    { induction Hb as [|c b Hc _ (cs & Hcs & ->)]; [by exists []|]. exists (c :: cs). by split; [constructor|]. }
    exists cs. split; [done|]. unfold of_chars. by rewrite <- He, of_bytes_bytes.
Qed.

Lemma utf8_cut x a y : utf8 (x ++ a :: y) → is_continuation a = false → utf8 x ∧ utf8 (a :: y).
Proof.
  intros Hx Ha. destruct (utf8_split _ (length x) Hx) as [Ht Hd].
  - unfold is_char_boundary. rewrite lookup_app_r, Nat.sub_diag by lia. simpl. by rewrite Ha, orb_true_r.
  - by rewrite take_app_length, drop_app_length in *.
Qed.

Lemma utf8_drop_ascii (s : string) y :
  Forall (λ x, (x < 128)%N) (Utf8.bytes s) → utf8 (Utf8.bytes s ++ y) → utf8 y.
Proof. intros Hs. by apply utf8_app_inv, utf8_ascii. Qed.

Lemma template_utf8 l b s :
  utf8_ok (l +:+ opener +:+ b +:+ closer +:+ s) → utf8_ok b ∧ utf8_ok s.
Proof.
  rewrite !utf8_ok_bytes, !bytes_app. intros Ht.
  apply (utf8_cut (Utf8.bytes l) 36 _) in Ht as [_ Ht]; [|done].
  apply (utf8_drop_ascii opener) in Ht; [|by repeat constructor].
  apply (utf8_cut (Utf8.bytes b) 125 _) in Ht as [Hb Ht]; [|done].
  apply (utf8_drop_ascii closer) in Ht; [|by repeat constructor]. done.
Qed.

(** ** Theorems *)
Section theorems.
Context {num : Type} `{NumberOps num, JsonCodec num, UnicodeCase, HashOrder}.
Variable hash_files : list (value num) → option string → result ExpressionError string.
Implicit Types (c : Context num).

Lemma resolves_after_pieces s ps t :
  template s ps t →
  resolves_after_job_build (num:=num) s =
  str_contains "github.workspace" s || existsb (λ p, span_reads_needs (num:=num) p.2) ps.
Proof. intros Ht. unfold resolves_after_job_build. by rewrite (reads_needs_pieces hash_files (S (String.length s)) s ps t) by (done || lia). Qed.

Lemma template_bodies_utf8 s ps t : template s ps t → utf8_ok s → Forall (λ p, utf8_ok p.2) ps.
Proof.
  induction 1 as [| |l b s ps t Hl Hb Ht IH]; intros Hs; constructor.
  - exact (proj1 (template_utf8 l b s Hs)).
  - exact (IH (proj2 (template_utf8 l b s Hs))).
Qed.

Lemma eval_piece_alike c1 c2 body :
  same_but_root "needs" c1 c2 → utf8_ok body → span_reads_needs (num:=num) body = false →
  eval_piece hash_files c1 body = eval_piece hash_files c2 body.
Proof.
  intros Hs Hu. unfold span_reads_needs, eval_piece.
  destruct (collect_expression_references body) as [refs|err] eqn:Hc.
  - intros Hn%bool_decide_eq_false. f_equal.
    eapply (eval_expression_alike hash_files "needs" c1 c2 Hs eq_refl (trim body) refs); [|done].
    unfold collect_expression_references in *. by rewrite trim_markers_trim.
  - intros _. unfold collect_expression_references, eval_expression in *.
    rewrite trim_markers_trim by done.
    destruct (parse_input (trim_expression_markers body)) as [e|e]; [done|reflexivity].
Qed.

(** C27: what is resolved when the job is built is final.  A text that
    [resolves_after_job_build] does not hold back resolves to the same result
    whatever the [needs] context holds, so filling in the outputs of the needs
    later cannot change it. *)
Theorem build_time_resolution_final c1 c2 text :
  utf8_ok text → resolves_after_job_build (num:=num) text = false → same_but_root "needs" c1 c2 →
  resolve_string hash_files text c1 = resolve_string hash_files text c2.
Proof.
  intros Hu Hr Hs. destruct (template_total text) as (ps & t & Ht).
  rewrite (resolves_after_pieces text ps t Ht) in Hr. apply orb_false_iff in Hr as [_ Hr].
  rewrite !(resolve_string_pieces hash_files _ text ps t Ht).
  pose proof (template_bodies_utf8 text ps t Ht Hu) as Hbs. clear Ht.
  induction Hbs as [|[l b] ps Hb Hbs IH]; [reflexivity|]. cbn [existsb] in Hr.
  apply orb_false_iff in Hr as [Hr1 Hr2]. cbn [resolve_pieces].
  rewrite (eval_piece_alike c1 c2 b Hs Hb Hr1), (IH Hr2). reflexivity.
Qed.

(** A template is resolved piece by piece.  Every text splits into
    literals and expression bodies, the bodies ending at the first [}}] outside
    a string literal; [resolve_string] evaluates the bodies from left to right,
    stops at the first error, and otherwise returns the literals with the
    values in between.  A marker that is never closed is an error, after the
    expressions before it. *)
Theorem resolve_string_spec c s :
  ∃ ps t, template s ps t ∧ resolve_string hash_files s c = resolve_pieces hash_files c ps t.
Proof.
  destruct (template_total s) as (ps & t & Ht). exists ps, t. split; [exact Ht|].
  exact (resolve_string_pieces hash_files c s ps t Ht).
Qed.

Lemma validate_pieces_Ok allowed input ps t :
  validate_pieces (num:=num) allowed input ps t = Ok tt →
  t ≠ None ∧ Forall (λ p, validate_expression (num:=num) (trim p.2) = Ok tt) ps.
Proof.
  induction ps as [|[l b] ps IH]; cbn [validate_pieces].
  - destruct t; [|done]. by split.
  - intros ([] & Hb & Hps)%bind_Ok. apply IH in Hps as [Ht Hps]. split; [done|]. constructor; [|done].
    unfold check_piece in Hb. apply bind_Ok in Hb as ([] & Hv & _). simpl.
    destruct (validate_expression _) as [[]|]; [done|discriminate Hv].
Qed.

Lemma resolve_pieces_Err c ps t m :
  resolve_pieces hash_files c ps t = Err m →
  t = None ∨ ∃ l b, (l, b) ∈ ps ∧ eval_piece hash_files c b = Err m.
Proof.
  induction ps as [|[l b] ps IH]; cbn [resolve_pieces].
  - destruct t; [done|]. by left.
  - destruct (eval_piece hash_files c b) as [v|e] eqn:Hb; cbn [mbind result_bind].
    + destruct (resolve_pieces hash_files c ps t) as [rest|e]; [done|].
      intros [= ->]. destruct (IH eq_refl) as [?|(l' & b' & Hin & He)]; [by left|].
      right. exists l', b'. split; [by apply elem_of_cons; right|done].
    + intros [= ->]. right. exists l, b. split; [by apply elem_of_cons; left|done].
Qed.

Lemma validated_eval_errors c b err :
  (∀ vs dir err, hash_files vs dir = Err err → benign err) →
  validate_expression (num:=num) b = Ok tt → eval_expression hash_files b c = Err err →
  ∃ e, parse_input (trim_expression_markers b) = Ok e ∧ validate_function_calls e = Ok tt ∧
       eval_expr hash_files c e = Err err ∧ benign err.
Proof.
  intros Hh. unfold validate_expression, eval_expression, parse_input.
  destruct (lex (trim_expression_markers b)) as [tokens|]; cbn [mbind result_bind]; [|done].
  destruct (parse_tokens tokens) as [[e|]|] eqn:Hp; cbn [Datatypes.id from_option mbind result_bind]; [|done..].
  intros Hv He. exists e. split; [done|]. split; [done|]. split; [done|].
  pose proof (parse_tokens_spec tokens) as Hd. rewrite Hp in Hd.
  pose proof (eval_safe hash_files Hh c e (mkBudget 0 0) Hd) as Hs. unfold eval_expr in He.
  destruct (eval _ _ _ _) as [[v b']|err']; cbn [mbind result_bind] in He; [discriminate He|]. injection He as ->.
  destruct Hs as [Hb|[_ Hn]]; [done|]. by destruct (Hn Hv).
Qed.

(** [e] is what one of the expressions of the closed template [s] parses to. *)
Definition expression_of (s : string) (e : Expr num) : Prop :=
  ∃ ps t l b, template s ps (Some t) ∧ (l, b) ∈ ps ∧ parse_input (trim_expression_markers (trim b)) = Ok e.

(** A validated text never fails at resolution for a reason the
    validation looks for: it has no unclosed marker, and every expression
    parses, names known functions and gives them the arguments they take.  What
    can still fail is the evaluation of a parsed expression: invalid JSON or format strings, a [case()] on
    something else than a boolean, [hashFiles()], or the size limits. *)
Lemma validated_template_errors c s allowed m :
  (∀ vs dir err, hash_files vs dir = Err err → benign err) →
  validate_expressions_in_string (num:=num) s false allowed = Ok tt →
  resolve_string hash_files s c = Err m →
  ∃ e err, expression_of s e ∧ validate_function_calls e = Ok tt ∧ eval_expr hash_files c e = Err err ∧
    benign err ∧ m = expression_error_text err.
Proof.
  intros Hh Hv Hr. destruct (template_total s) as (ps & t & Ht).
  rewrite (resolve_string_pieces hash_files c s ps t Ht) in Hr.
  unfold validate_expressions_in_string in Hv. cbn [andb] in Hv.
  rewrite (validate_loop_pieces hash_files (S (String.length s)) allowed s s ps t Ht) in Hv by lia.
  apply validate_pieces_Ok in Hv as [Hne Hps].
  apply resolve_pieces_Err in Hr as [->|(l & b & Hin & Hb)]; [done|].
  rewrite Forall_forall in Hps. specialize (Hps _ Hin). unfold eval_piece in Hb.
  destruct (eval_expression hash_files (trim b) c) as [v|err] eqn:He; [done|].
  injection Hb as <-.
  destruct (validated_eval_errors c (trim b) err Hh Hps He) as (e & Hp & Hf & Hr & Hbe). exists e, err.
  destruct t as [t|]; [|done]. split_and!; [by exists ps, t, l, b|done..].
Qed.

End theorems.

(** ** Examples *)

Lemma btree_set_elems_perm (s : gset string) : btree_set_elems s ≡ₚ elements s.
Proof. apply merge_sort_Permutation. Qed.

(** A hash set that happens to yield its elements in order. *)
#[export] Instance sorted_hash_order : HashOrder := {
  hash_order := btree_set_elems;
  hash_order_perm := btree_set_elems_perm;
}.

Definition sample_needs (runner : string) : value Z :=
  JObject [("plan", JObject [("outputs", JObject [("runner", JString runner)])])].
Definition job_context (needs : value Z) : Context Z :=
  context_insert (context_insert context_default "matrix" (JObject [("os", JString "linux")]))
    "needs" needs.

Example resolve_two_pieces :
  resolve_string no_files "on-${{ matrix.os }}-${{ 'a}}b' }}!" (job_context JNull) = Ok "on-linux-a}}b!".
Proof. vm_compute. reflexivity. Qed.

Example needs_are_held_back :
  map (resolves_after_job_build (num:=Z))
    ["${{ needs.plan.outputs.runner }}"; "${{ NEEDS ['plan'].outputs.runner }}"; "${{ needs..broken }}";
     "${{ matrix.os }}"; "${{ format('{0}', needsX) }}"] = [true; true; true; false; false].
Proof. vm_compute. reflexivity. Qed.

Lemma build_time_resolution_final_witness :
  resolve_string no_files "${{ matrix.os }}-x64" (job_context JNull) =
  resolve_string no_files "${{ matrix.os }}-x64" (job_context (sample_needs "big")).
Proof.
  apply (build_time_resolution_final no_files (job_context JNull) (job_context (sample_needs "big"))).
  - by apply ascii_utf8_ok.
  - vm_compute. reflexivity.
  - repeat split. intros k Hk. unfold job_context. simpl. by rewrite !(lookup_insert_ne _ "needs" k).
Defined.

(** The test for the workspace is textual, so the same property read by an
    index is resolved while the path is unknown: the template loses it. *)
Example workspace_index_resolved_early :
  resolves_after_job_build (num:=Z) "${{ github.workspace }}/bin" = true ∧
  resolves_after_job_build (num:=Z) "${{ github['workspace'] }}/bin" = false ∧
  resolve_string no_files "${{ github['workspace'] }}/bin" (job_context JNull) = Ok "/bin".
Proof. vm_compute. done. Qed.
