(* ===== verification/NeedsDag.v ===== *)
(** * The needs graph of a workflow

    [crates/preloop-gha-parser/src/dag.rs]: cycle detection by a three-color
    depth-first search on an explicit frame stack, validation of the needs of
    expanded job plans, Kahn layers, and the transitive dependency closure. *)
From S2P Require Export Models.

(** Job id to dependency ids, as written in the workflow. *)
Abbreviation NeedsGraph := (gmap string (list string)).

Inductive Color : Type := White | Gray | Black.

#[export] Instance Color_eq_dec : EqDecision Color.
Proof. solve_decision. Defined.

(** A job whose dependencies are being walked; [deps] are those not yet visited. *)
Record Frame : Type := mkFrame { node : string; deps : list string }.

Definition edges_of (edges : NeedsGraph) (n : string) : list string := default [] (edges !! n).

Definition frame_for (edges : NeedsGraph) (n : string) : Frame := mkFrame n (edges_of edges n).

Definition or_insert {A} (k : string) (v : A) (m : gmap string A) : gmap string A :=
  match m !! k with Some _ => m | None => <[k := v]> m end.

(** Every key and every dependency, white. *)
Definition initial_colors (edges : NeedsGraph) : gmap string Color :=
  foldl (λ color d, or_insert d White color) ((λ _, White) <$> edges)
    (concat (map_to_list edges).*2).

Definition color_of (color : gmap string Color) (n : string) : Color :=
  default White (color !! n).

(** The inner loop; [Err dep] is the cycle witness. *)
Fixpoint dfs_loop (fuel : nat) (edges : NeedsGraph) (color : gmap string Color)
    (stack : list Frame) : option (result string (gmap string Color)) :=
  match fuel with
  | O => None
  | S fuel =>
      match stack with
      | [] => Some (Ok color)
      | top :: stack =>
          match deps top with
          | [] => dfs_loop fuel edges (<[node top := Black]> color) stack
          | dep :: rest =>
              let top := mkFrame (node top) rest in
              match color_of color dep with
              | Gray => Some (Err dep)
              | White =>
                  dfs_loop fuel edges (<[dep := Gray]> color) (frame_for edges dep :: top :: stack)
              | Black => dfs_loop fuel edges color (top :: stack)
              end
          end
      end
  end.

(** Steps left in the frames of the stack and in the white nodes. *)
Definition frames_size (stack : list Frame) : nat := sum_list_with (λ f, S (length (deps f))) stack.
Definition white_cost (edges : NeedsGraph) (color : gmap string Color) (n : string) : nat :=
  if decide (color_of color n = White) then S (length (edges_of edges n)) else 0.
Definition white_size (edges : NeedsGraph) (nodes : list string) (color : gmap string Color) : nat :=
  sum_list_with (white_cost edges color) nodes.

Definition dfs_root (edges : NeedsGraph) (nodes : list string) (color : gmap string Color) (root : string) :
    option (result string (gmap string Color)) :=
  if decide (color !! root = Some White) then
    dfs_loop (S (white_size edges nodes color)) edges (<[root := Gray]> color) [frame_for edges root]
  else Some (Ok color).

Fixpoint dfs_roots (edges : NeedsGraph) (nodes : list string) (color : gmap string Color)
    (roots : list string) : option (result string (gmap string Color)) :=
  match roots with
  | [] => Some (Ok color)
  | root :: roots =>
      match dfs_root edges nodes color root with
      | Some (Ok color) => dfs_roots edges nodes color roots
      | r => r
      end
  end.

Definition detect_needs_cycle (edges : NeedsGraph) : option (result string unit) :=
  let color := initial_colors edges in
  let nodes := btree_keys color in
  fmap (λ r, _ ← r; Ok tt) (dfs_roots edges nodes color nodes).

Definition needs_graph_from_pairs (jobs : list (string * list string)) : NeedsGraph :=
  foldl (λ edges '(id, needs), <[id := edges_of edges id ++ needs]> edges) ∅ jobs.

(** ** Validation of expanded plans *)

(** [sort] and [dedup]. *)
Fixpoint dedup (l : list string) : list string :=
  match l with
  | x :: (y :: _) as r => if decide (x = y) then dedup r else x :: dedup r
  | _ => l
  end.

Definition names_need (need : string) (candidate : JobPlan) : bool :=
  str_eqb (id candidate) need || str_eqb (base_id candidate) need.

(** The ids one declared need stands for. *)
Definition expand_need (jobs : list JobPlan) (job : JobPlan) (need : string) :
    result ParserError (list string) :=
  match id <$> filter (λ candidate, Is_true (names_need need candidate)) jobs with
  | [] => Err (UnknownNeed (id job) need)
  | matched => Ok matched
  end.

Section validate.
Context {num : Type} `{NumberOps num}.

Definition check_condition (job : JobPlan) : result ParserError unit :=
  match if_condition job with
  | Some condition =>
      map_err (InvalidJobCondition (id job))
        (validate_expression (num:=num) (effective_condition (Some condition)))
  | None => Ok tt
  end.

Fixpoint expand_needs (jobs : list JobPlan) (job : JobPlan) (needs : list string) :
    result ParserError (list string) :=
  match needs with
  | [] => Ok []
  | need :: needs =>
      matched ← expand_need jobs job need;
      rest ← expand_needs jobs job needs;
      Ok (matched ++ rest)
  end.

Fixpoint build_graph (jobs todo : list JobPlan) (graph : NeedsGraph) : result ParserError NeedsGraph :=
  match todo with
  | [] => Ok graph
  | job :: todo =>
      _ ← check_condition job;
      expanded_needs ← expand_needs jobs job (needs job);
      build_graph jobs todo (<[id job := dedup (merge_sort String.le expanded_needs)]> graph)
  end.

(** [None] would be a cycle search out of fuel, which [detect_needs_cycle_spec]
    excludes. *)
Definition validate_job_plans (jobs : list JobPlan) : option (result ParserError unit) :=
  match build_graph jobs jobs ∅ with
  | Err e => Some (Err e)
  | Ok graph => map_err NeedsCycle <$> detect_needs_cycle graph
  end.

End validate.
Arguments validate_job_plans num {_} jobs.

(** ** Layers and closure *)

Definition remaining_of (edges : NeedsGraph) : gmap string (gset string) :=
  let remaining := ((list_to_set <$> edges) : gmap string (gset string)) in
  foldl (λ m d, or_insert d ∅ m) remaining (concat ((λ ds : gset string, elements ds) <$> (map_to_list remaining).*2)).

Definition ready (remaining : gmap string (gset string)) (done : gset string) : list string :=
  filter (λ id, (id ∉ done) ∧ (default ∅ (remaining !! id) ⊆ done)) (btree_keys remaining).

(** [None] is out of fuel; [Some None] is the [None] of the code. *)
Fixpoint topo_loop (fuel : nat) (remaining : gmap string (gset string)) (layers : list (list string))
    (done : gset string) : option (option (list (list string))) :=
  if size done <? size remaining then
    match fuel with
    | O => None
    | S fuel =>
        match ready remaining done with
        | [] => Some None
        | layer => topo_loop fuel remaining (layers ++ [layer]) (list_to_set layer ∪ done)
        end
    end
  else Some (Some layers).

Definition topo_layers (edges : NeedsGraph) : option (option (list (list string))) :=
  let remaining := remaining_of edges in topo_loop (size remaining) remaining [] ∅.

(** The stack is a list with its top first, so the last dependency pushed is
    the next one popped. *)
Fixpoint closure_loop (fuel : nat) (edges : NeedsGraph) (closed : gset string) (stack : list string) :
    option (gset string) :=
  match fuel with
  | O => None
  | S fuel =>
      match stack with
      | [] => Some closed
      | n :: stack =>
          if decide (n ∈ closed) then closure_loop fuel edges closed stack
          else
            let closed := {[n]} ∪ closed in
            closure_loop fuel edges closed
              (reverse (filter (λ dep, dep ∉ closed) (edges_of edges n)) ++ stack)
      end
  end.

(** Edges whose source is not closed yet. *)
Definition open_cost (edges : NeedsGraph) (closed : gset string) (n : string) : nat :=
  if decide (n ∈ closed) then 0 else length (edges_of edges n).
Definition open_edges (edges : NeedsGraph) (closed : gset string) : nat :=
  sum_list_with (open_cost edges closed) (btree_keys edges).

Definition dependency_closure (edges : NeedsGraph) (roots : list string) : option (gset string) :=
  closure_loop (S (length roots + open_edges edges ∅)) edges ∅ (reverse roots).

(** ** The depth-first search *)

Definition edge (edges : NeedsGraph) (a b : string) : Prop := b ∈ edges_of edges a.

(** No infinite walk along the needs starts at [n]. *)
Abbreviation safe edges := (Acc (flip (edge edges))).

Lemma safe_no_cycle edges n : safe edges n → ¬ tc (edge edges) n n.
Proof.
  induction 1 as [n _ IH]. intros Hn. inversion Hn as [? ? Hnn|? m ? Hnm Hmn]; subst.
  - by apply (IH n).
  - apply (IH m); [done|]. by eapply tc_r.
Qed.

Lemma safe_no_successor edges n : edges_of edges n = [] → safe edges n.
Proof. intros Hn. constructor. intros m Hm. unfold flip, edge in Hm. by rewrite Hn, elem_of_nil in Hm. Qed.

Section dfs.
Variable edges : NeedsGraph.
Implicit Types (color : gmap string Color) (stack : list Frame) (n d : string).

(** [above] is the node whose frame is on top of the first one. *)
Fixpoint frames_ok (above : option string) stack : Prop :=
  match stack with
  | [] => True
  | f :: r =>
      (∀ d, edge edges (node f) d → d ∈ deps f ∨ safe edges d ∨ above = Some d) ∧
      (∀ d, d ∈ deps f ∨ above = Some d → edge edges (node f) d) ∧
      frames_ok (Some (node f)) r
  end.

Record dfs_inv (nodes : list string) color stack : Prop := {
  inv_nodes : ∀ n d, edge edges n d → d ∈ nodes;
  inv_keys : ∀ n, n ∈ nodes → is_Some (color !! n);
  inv_black : ∀ n, color_of color n = Black → safe edges n;
  inv_gray : ∀ n, color_of color n = Gray → n ∈ node <$> stack;
  inv_frames : frames_ok None stack;
}.

Lemma color_of_insert color n m c :
  color_of (<[n := c]> color) m = if decide (n = m) then c else color_of color m.
Proof.
  unfold color_of. case_decide; [subst; by rewrite lookup_insert_eq|by rewrite lookup_insert_ne].
Qed.

Lemma insert_is_Some color n m c : is_Some (color !! n) → is_Some (<[m := c]> color !! n).
Proof. intros Hn. destruct (decide (m = n)) as [->|]; [rewrite lookup_insert_eq|rewrite lookup_insert_ne]; eauto. Qed.

Lemma frame_for_ok n : ∀ d, d ∈ deps (frame_for edges n) ↔ edge edges n d.
Proof. done. Qed.

Lemma frames_path a stack n :
  frames_ok (Some a) stack → n ∈ node <$> stack → tc (edge edges) n a.
Proof.
  revert a. induction stack as [|f r IH]; intros a; simpl; [by intros _ ?%elem_of_nil|].
  intros (_ & Hedge & Hr) [->|Hn]%elem_of_cons.
  - apply tc_once, Hedge. by right.
  - eapply tc_r; [by apply IH|]. apply Hedge. by right.
Qed.

Lemma frames_above stack a : frames_ok (Some a) stack → safe edges a → frames_ok None stack.
Proof.
  destruct stack as [|f r]; simpl; [done|]. intros (Hdone & Hedge & Hr) Ha.
  split_and!; [|intros d [Hd|Hd]; [by apply Hedge; left|done]|done].
  intros d Hd. destruct (Hdone d Hd) as [?|[?|[= <-]]]; auto.
Qed.

(** The color of one node leaves white. *)
Lemma white_size_insert nodes color n c :
  NoDup nodes → n ∈ nodes → c ≠ White → color_of color n = White →
  white_size edges nodes (<[n := c]> color) + S (length (edges_of edges n)) = white_size edges nodes color.
Proof.
  intros Hnd Hn Hc Hw. unfold white_size.
  assert (white_cost edges color n = S (length (edges_of edges n))) as Hold
    by (unfold white_cost; by rewrite decide_True).
  assert (white_cost edges (<[n := c]> color) n = 0) as Hnew
    by (unfold white_cost; by rewrite color_of_insert, (decide_True (P := n = n)), decide_False).
  pose proof (sum_list_with_one (white_cost edges (<[n := c]> color)) (white_cost edges color)
                nodes n Hnd Hn) as Hsum.
  rewrite Hold, Hnew in Hsum. rewrite Hsum; [lia|]. intros m _ Hm. unfold white_cost.
  by rewrite color_of_insert, (decide_False (P := n = m)).
Qed.

Lemma white_size_black nodes color n :
  white_size edges nodes (<[n := Black]> color) <= white_size edges nodes color.
Proof.
  unfold white_size. induction nodes as [|m nodes IH]; simpl; [lia|].
  enough (white_cost edges (<[n := Black]> color) m <= white_cost edges color m) by lia.
  unfold white_cost. rewrite color_of_insert. repeat case_decide; simpl; congruence || lia.
Qed.

(** What a finished search leaves. *)
Definition dfs_post (nodes : list string) color (r : result string (gmap string Color)) : Prop :=
  match r with
  | Ok color' => dfs_inv nodes color' [] ∧ ∀ n, color_of color n ≠ White → color_of color' n ≠ White
  | Err w => tc (edge edges) w w
  end.

Lemma dfs_post_mono nodes color color' r :
  (∀ n, color_of color n ≠ White → color_of color' n ≠ White) →
  dfs_post nodes color' r → dfs_post nodes color r.
Proof. destruct r; [|done]. intros Hmono [? ?]. split; auto. Qed.

Lemma dfs_inv_pop nodes color n stack :
  dfs_inv nodes color (mkFrame n [] :: stack) → dfs_inv nodes (<[n := Black]> color) stack.
Proof.
  intros [Hnodes Hkeys Hblack Hgray (Hdone & _ & Hrest)]; simpl in *.
  assert (safe edges n) as Hsafe.
  { constructor. intros d Hd. destruct (Hdone d Hd) as [?%elem_of_nil|[?|?]]; done. }
  split; [done|by intros m ?%Hkeys; apply insert_is_Some| | |by eapply frames_above].
  - intros m. rewrite color_of_insert. case_decide; subst; auto.
  - intros m. rewrite color_of_insert. case_decide; [done|].
    intros [?|?]%Hgray%elem_of_cons; [congruence|done].
Qed.

Lemma dfs_inv_push nodes color n d rest stack :
  dfs_inv nodes color (mkFrame n (d :: rest) :: stack) →
  dfs_inv nodes (<[d := Gray]> color) (frame_for edges d :: mkFrame n rest :: stack).
Proof.
  intros [Hnodes Hkeys Hblack Hgray (Hdone & Hedge & Hrest)]; simpl in *. split; [done|by intros m ?%Hkeys; apply insert_is_Some| | |].
  - intros m. rewrite color_of_insert. case_decide; [done|auto].
  - intros m. rewrite color_of_insert. simpl. rewrite elem_of_cons.
    case_decide; [by left|]. intros Hm. right. by apply Hgray.
  - simpl. split_and!; [by left|by intros x [?|?]| | |done].
    + intros x Hx. destruct (Hdone x Hx) as [[->|?]%elem_of_cons|[?|?]]; done || auto.
    + intros x [Hx|[= <-]]; apply Hedge; left; [by right|by left].
Qed.

Lemma dfs_inv_skip nodes color n d rest stack :
  color_of color d = Black → dfs_inv nodes color (mkFrame n (d :: rest) :: stack) →
  dfs_inv nodes color (mkFrame n rest :: stack).
Proof.
  intros Hd [Hnodes Hkeys Hblack Hgray (Hdone & Hedge & Hrest)]; simpl in *. split; [done..|]. simpl.
  split_and!; [| |done].
  - intros x Hx. destruct (Hdone x Hx) as [[->|?]%elem_of_cons|[?|?]]; done || auto.
  - intros x [Hx|?]; [|done]. apply Hedge. left. by right.
Qed.

Lemma dfs_loop_spec nodes fuel color stack :
  NoDup nodes → dfs_inv nodes color stack →
  frames_size stack + white_size edges nodes color < fuel →
  ∃ r, dfs_loop fuel edges color stack = Some r ∧ dfs_post nodes color r.
Proof.
  intros Hnd. revert color stack. induction fuel as [|fuel IH]; intros color stack Hinv Hfuel; [lia|].
  cbn [dfs_loop]. destruct stack as [|[n [|d rest]] stack]; simpl in *.
  - eexists. split; [done|]. by split.
  - apply dfs_inv_pop in Hinv. pose proof (white_size_black nodes color n).
    destruct (IH _ _ Hinv) as (r & Hr & Hpost); [lia|]. exists r. split; [done|].
    eapply dfs_post_mono, Hpost. intros m. rewrite color_of_insert. by case_decide.
  - pose proof (inv_frames _ _ _ Hinv) as (_ & Hedge & Hstack). simpl in Hedge, Hstack.
    destruct (color_of color d) eqn:Hd.
    + apply dfs_inv_push in Hinv as Hinv'.
      assert (d ∈ nodes) as Hin by (apply (inv_nodes _ _ _ Hinv n), Hedge; left; by left).
      pose proof (white_size_insert nodes color d Gray Hnd Hin ltac:(done) Hd).
      destruct (IH _ _ Hinv') as (r & Hr & Hpost); [simpl; lia|]. exists r. split; [done|].
      eapply dfs_post_mono, Hpost. intros m. rewrite color_of_insert. by case_decide.
    + eexists. split; [done|]. simpl.
      assert (edge edges n d) as Hnd' by (apply Hedge; left; by left).
      pose proof (inv_gray _ _ _ Hinv d Hd) as [Heq|Hin]%elem_of_cons; simpl in *.
      * subst d. by apply tc_once.
      * eapply tc_r; [by eapply frames_path|done].
    + apply IH; [by eapply dfs_inv_skip|simpl; lia].
Qed.

End dfs.

Lemma foldl_or_insert {A} (v : A) ds (m : gmap string A) k :
  foldl (λ m d, or_insert d v m) m ds !! k =
  match m !! k with Some x => Some x | None => if decide (k ∈ ds) then Some v else None end.
Proof.
  revert m. induction ds as [|d ds IH]; intros m; cbn [foldl].
  - rewrite decide_False by apply not_elem_of_nil. by destruct (m !! k).
  - rewrite IH. unfold or_insert. destruct (decide (k = d)) as [->|Hne].
    + destruct (m !! d) eqn:Hd; [by rewrite Hd|]. rewrite lookup_insert_eq, decide_True; [done|by left].
    + assert (match m !! d with Some _ => m | None => <[d:=v]> m end !! k = m !! k) as ->
        by (destruct (m !! d); [done|by rewrite lookup_insert_ne]).
      destruct (m !! k); [done|]. apply decide_ext. rewrite elem_of_cons. naive_solver.
Qed.

Lemma elem_of_edges (edges : NeedsGraph) d :
  d ∈ concat (map_to_list edges).*2 ↔ ∃ n, edge edges n d.
Proof.
  rewrite elem_of_concat. unfold edge, edges_of. split.
  - intros (ds & Hds & Hd). apply list_elem_of_fmap in Hds as ([n ds'] & -> & Hn%elem_of_map_to_list).
    exists n. by rewrite Hn.
  - intros [n Hn]. destruct (edges !! n) as [ds|] eqn:Hds; [|by apply elem_of_nil in Hn].
    exists ds. split; [|done]. apply list_elem_of_fmap. exists (n, ds).
    by rewrite elem_of_map_to_list.
Qed.

Definition is_node (edges : NeedsGraph) (n : string) : Prop :=
  is_Some (edges !! n) ∨ ∃ m, edge edges m n.

Lemma or_insert_keys {A B} (f : A → B) (edges : gmap string A) (v : B) ds n :
  is_Some (foldl (λ m d, or_insert d v m) (f <$> edges) ds !! n) ↔ is_Some (edges !! n) ∨ n ∈ ds.
Proof.
  rewrite foldl_or_insert, lookup_fmap. destruct (edges !! n); simpl; [naive_solver|].
  case_decide; naive_solver.
Qed.

Lemma initial_colors_nodes edges n : n ∈ btree_keys (initial_colors edges) ↔ is_node edges n.
Proof.
  rewrite elem_of_btree_keys. unfold initial_colors. by rewrite or_insert_keys, elem_of_edges.
Qed.

Lemma initial_colors_white edges n : color_of (initial_colors edges) n = White.
Proof.
  unfold color_of, initial_colors. rewrite foldl_or_insert, lookup_fmap.
  destruct (edges !! n); simpl; [done|by case_decide].
Qed.

Lemma edge_source edges n d : edge edges n d → is_Some (edges !! n).
Proof. unfold edge, edges_of. destruct (edges !! n); [by eexists|by intros ?%elem_of_nil]. Qed.

(** The search from one root leaves it black. *)
Lemma dfs_root_spec edges nodes color root :
  NoDup nodes → dfs_inv edges nodes color [] → root ∈ nodes →
  ∃ r, dfs_root edges nodes color root = Some r ∧ dfs_post edges nodes color r ∧
    match r with Ok color' => color_of color' root ≠ White | Err _ => True end.
Proof.
  intros Hnd Hinv Hroot. pose proof (inv_keys _ _ _ _ Hinv root Hroot) as [c Hc]. unfold dfs_root.
  assert (color_of color root = c) as Hcol by (unfold color_of; by rewrite Hc).
  destruct (decide (color !! root = Some White)) as [Hw|Hw].
  - rewrite Hc in Hw. injection Hw as ->.
    assert (dfs_inv edges nodes (<[root := Gray]> color) [frame_for edges root]) as Hinv'.
    { destruct Hinv as [Hnodes Hkeys Hblack Hgray _].
      split; [done|by intros m ?%Hkeys; apply insert_is_Some| | |].
      - intros m. rewrite color_of_insert. case_decide; [done|auto].
      - intros m. rewrite color_of_insert. case_decide; [subst; intros _; by left|].
        by intros ?%Hgray%elem_of_nil.
      - simpl. split_and!; [auto|by intros d [?|?]|done]. }
    pose proof (white_size_insert edges nodes color root Gray Hnd Hroot ltac:(done) Hcol).
    destruct (dfs_loop_spec edges nodes (S (white_size edges nodes color)) _ _ Hnd Hinv')
      as (r & Hr & Hpost); [simpl in *; lia|].
    exists r. split; [done|]. split.
    + eapply dfs_post_mono, Hpost. intros m. rewrite color_of_insert. by case_decide.
    + destruct r; [|done]. destruct Hpost as [_ Hpost]. apply Hpost.
      rewrite color_of_insert. by rewrite decide_True.
  - eexists. split; [done|]. split; [by split|]. rewrite Hcol. congruence.
Qed.

Lemma dfs_roots_spec edges nodes color roots :
  NoDup nodes → dfs_inv edges nodes color [] → (∀ root, root ∈ roots → root ∈ nodes) →
  ∃ r, dfs_roots edges nodes color roots = Some r ∧ dfs_post edges nodes color r ∧
    match r with Ok color' => ∀ root, root ∈ roots → color_of color' root ≠ White | Err _ => True end.
Proof.
  intros Hnd. revert color. induction roots as [|root roots IH]; intros color Hinv Hroots; cbn [dfs_roots].
  - eexists. split; [done|]. split; [by split|]. by intros root ?%elem_of_nil.
  - destruct (dfs_root_spec edges nodes color root Hnd Hinv) as ([color'|w] & -> & Hpost & Hroot);
      [apply Hroots; by left| |by eexists].
    destruct Hpost as [Hinv' Hmono].
    destruct (IH color' Hinv') as (r & Hr & Hpost & Hdone); [intros; apply Hroots; by right|].
    exists r. split; [done|]. split; [by eapply dfs_post_mono|].
    destruct r as [color''|]; [|done]. destruct Hpost as [_ Hmono'].
    intros n [->|Hn]%elem_of_cons; auto.
Qed.

(** [detect_needs_cycle] returns, with [Ok] when no infinite walk exists and
    otherwise with a node of a cycle. *)
Lemma detect_needs_cycle_cases edges :
  ∃ r, detect_needs_cycle edges = Some r ∧
    match r with
    | Ok _ => ∀ n, safe edges n
    | Err w => tc (edge edges) w w
    end.
Proof.
  unfold detect_needs_cycle. set (color := initial_colors edges). set (nodes := btree_keys color).
  assert (dfs_inv edges nodes color []) as Hinv.
  { split; [| | | |done].
    - intros n d Hd. apply initial_colors_nodes. right. by exists n.
    - intros n. unfold nodes. by rewrite elem_of_btree_keys.
    - intros n. unfold color. by rewrite initial_colors_white.
    - intros n. unfold color. by rewrite initial_colors_white. }
  destruct (dfs_roots_spec edges nodes color nodes) as (r & -> & Hpost & Hdone);
    [apply NoDup_btree_keys|done..|]. simpl.
  destruct r as [color'|w]; (eexists; split; [done|]); [|done].
  simpl. intros n. destruct Hpost as [[_ _ Hblack Hgray _] _].
  destruct (decide (n ∈ nodes)) as [Hn|Hn].
  - apply Hblack. specialize (Hdone n Hn). specialize (Hgray n).
    destruct (color_of color' n); [done| |done]. by apply elem_of_nil in Hgray.
  - apply safe_no_successor. unfold edges_of. destruct (edges !! n) eqn:He; [|done].
    destruct Hn. apply initial_colors_nodes. left. by eexists.
Qed.

(** C13: the three-color search decides acyclicity.  [detect_needs_cycle]
    always returns; [Ok] means that no job reaches itself through [needs], and
    the witness of an error is a job that does. *)
Theorem detect_needs_cycle_spec edges :
  ∃ r, detect_needs_cycle edges = Some r ∧
    match r with
    | Ok _ => ∀ n, ¬ tc (edge edges) n n
    | Err w => tc (edge edges) w w
    end.
Proof.
  destruct (detect_needs_cycle_cases edges) as ([[]|w] & -> & Hr); (eexists; split; [done|]);
    [|done]. intros n. by apply safe_no_cycle.
Qed.

(** A property of nodes that every node passes on to some dependency. *)
Lemma stuck_cycle edges (P : string → Prop) n :
  P n → (∀ n, P n → ∃ d, edge edges n d ∧ P d) → ∃ w, tc (edge edges) w w.
Proof.
  intros Hn HP. destruct (detect_needs_cycle_cases edges) as ([[]|w] & _ & Hr); [|by exists w].
  exfalso. specialize (Hr n). induction Hr as [n _ IH].
  destruct (HP n Hn) as (d & Hd & HPd). by apply (IH d).
Qed.

(** ** Layers *)

Lemma elem_of_remaining_deps (edges : NeedsGraph) d :
  d ∈ concat ((λ ds : gset string, elements ds) <$>
        (map_to_list ((list_to_set <$> edges) : gmap string (gset string))).*2)
  ↔ ∃ n, edge edges n d.
Proof.
  rewrite elem_of_concat. unfold edge, edges_of. split.
  - intros (ds & (s & -> & ([n s'] & -> & Hn)%list_elem_of_fmap)%list_elem_of_fmap & Hd).
    apply elem_of_map_to_list in Hn. rewrite lookup_fmap in Hn. simpl in Hd.
    destruct (edges !! n) as [ds|] eqn:Hds; [|done]. injection Hn as <-.
    exists n. rewrite Hds. simpl. by rewrite elem_of_elements, elem_of_list_to_set in Hd.
  - intros [n Hn]. destruct (edges !! n) as [ds|] eqn:Hds; [|by apply elem_of_nil in Hn].
    exists (elements (list_to_set ds : gset string)).
    rewrite elem_of_elements, elem_of_list_to_set. split; [|done].
    apply list_elem_of_fmap. eexists. split; [done|]. apply list_elem_of_fmap.
    exists (n, list_to_set ds). split; [done|]. apply elem_of_map_to_list.
    by rewrite lookup_fmap, Hds.
Qed.

Lemma remaining_nodes edges n : is_Some (remaining_of edges !! n) ↔ is_node edges n.
Proof. unfold remaining_of. by rewrite or_insert_keys, elem_of_remaining_deps. Qed.

Lemma remaining_needs edges n d : d ∈ default ∅ (remaining_of edges !! n) ↔ edge edges n d.
Proof.
  unfold remaining_of, edge, edges_of. rewrite foldl_or_insert, lookup_fmap.
  destruct (edges !! n); simpl; [by rewrite elem_of_list_to_set|].
  by case_decide; rewrite elem_of_nil, ?elem_of_empty.
Qed.

(** Every dependency of a node of layer [i] is in an earlier layer. *)
Definition layers_ordered (edges : NeedsGraph) (layers : list (list string)) : Prop :=
  ∀ i layer n d, layers !! i = Some layer → n ∈ layer → edge edges n d →
    ∃ j earlier, j < i ∧ layers !! j = Some earlier ∧ d ∈ earlier.

Record topo_inv (edges : NeedsGraph) (layers : list (list string)) (done : gset string) : Prop := {
  topo_done : ∀ n, n ∈ done ↔ n ∈ concat layers;
  topo_NoDup : NoDup (concat layers);
  topo_nodes : ∀ n, n ∈ concat layers → is_node edges n;
  topo_order : layers_ordered edges layers;
}.

Lemma elem_of_ready edges done n :
  n ∈ ready (remaining_of edges) done ↔
  (n ∉ done) ∧ (∀ d, edge edges n d → d ∈ done) ∧ is_node edges n.
Proof.
  unfold ready. rewrite list_elem_of_filter, elem_of_btree_keys, remaining_nodes.
  assert (default ∅ (remaining_of edges !! n) ⊆ done ↔ ∀ d, edge edges n d → d ∈ done) as ->; [|tauto].
  rewrite elem_of_subseteq. by setoid_rewrite remaining_needs.
Qed.

Lemma topo_inv_step edges layers done layer :
  topo_inv edges layers done → layer = ready (remaining_of edges) done →
  topo_inv edges (layers ++ [layer]) (list_to_set layer ∪ done).
Proof.
  intros [Hdone Hnd Hnodes Hord] Hlayer. pose proof (elem_of_ready edges done) as Hin.
  rewrite <-Hlayer in Hin. split.
  - intros n. rewrite concat_app. simpl. rewrite app_nil_r, elem_of_app, elem_of_union,
      elem_of_list_to_set, Hdone. tauto.
  - rewrite concat_app. simpl. rewrite app_nil_r. apply NoDup_app. split_and!; [done| |].
    + intros n Hn Hl. apply Hin in Hl as [Hl _]. by apply Hl, Hdone.
    + rewrite Hlayer. apply NoDup_filter, NoDup_btree_keys.
  - intros n. rewrite concat_app. simpl. rewrite app_nil_r, elem_of_app.
    intros [?|Hn]; [by apply Hnodes|]. by apply Hin in Hn as (_ & _ & ?).
  - intros i l n d Hi Hn Hd. apply lookup_app_Some in Hi as [Hi|[Hlen Hi]].
    + destruct (Hord i l n d Hi Hn Hd) as (j & e & Hj & He & Hde). exists j, e.
      split_and!; [done| |done]. by apply lookup_app_l_Some.
    + destruct (i - length layers) as [|k] eqn:Hk; [|by destruct k]. simpl in Hi.
      injection Hi as <-. apply Hin in Hn as (_ & Hdeps & _).
      apply Hdeps, Hdone, elem_of_concat in Hd as (e & [j Hj]%list_elem_of_lookup & He).
      exists j, e. split_and!; [|by apply lookup_app_l_Some|done].
      apply lookup_lt_Some in Hj. lia.
Qed.

Lemma topo_inv_size edges layers done :
  topo_inv edges layers done → size done = length (concat layers).
Proof.
  intros [Hdone Hnd _ _]. rewrite <-(size_list_to_set (C := gset string) _ Hnd). f_equal.
  apply leibniz_equiv. intros n. by rewrite elem_of_list_to_set.
Qed.

Lemma size_remaining edges : size (remaining_of edges) = length (btree_keys (remaining_of edges)).
Proof.
  unfold btree_keys. rewrite (merge_sort_Permutation _ _), length_fmap. by rewrite length_map_to_list.
Qed.

(** With no node missing the layers hold all of them. *)
Lemma topo_inv_full edges layers done n :
  topo_inv edges layers done → size (remaining_of edges) <= size done →
  is_node edges n → n ∈ concat layers.
Proof.
  intros Hinv Hsize Hn. rewrite (topo_inv_size _ _ _ Hinv), size_remaining in Hsize.
  apply remaining_nodes, elem_of_btree_keys in Hn.
  assert (concat layers ≡ₚ btree_keys (remaining_of edges)) as ->; [|done].
  apply submseteq_length_Permutation; [|done]. apply NoDup_submseteq; [by destruct Hinv|].
  intros m Hm. apply elem_of_btree_keys, remaining_nodes. by apply (topo_nodes _ _ _ Hinv).
Qed.

Definition topo_post (edges : NeedsGraph) (r : option (list (list string))) : Prop :=
  match r with
  | Some layers =>
      NoDup (concat layers) ∧ (∀ n, n ∈ concat layers ↔ is_node edges n) ∧ layers_ordered edges layers
  | None => ∃ n, tc (edge edges) n n
  end.

Lemma topo_full_post edges layers done :
  topo_inv edges layers done → size (remaining_of edges) <= size done →
  topo_post edges (Some layers).
Proof.
  intros Hinv Hsize. unfold topo_post. split_and!; [by destruct Hinv| |by destruct Hinv].
  intros n. split; [by apply (topo_nodes _ _ _ Hinv)|by eapply topo_inv_full].
Qed.

Lemma topo_stuck edges layers done :
  topo_inv edges layers done → size done < size (remaining_of edges) →
  ready (remaining_of edges) done = [] → ∃ n, tc (edge edges) n n.
Proof.
  intros Hinv Hsize Hready.
  destruct (decide (Forall (λ n, n ∈ done) (btree_keys (remaining_of edges)))) as [Hall|Hex].
  - exfalso. assert (length (btree_keys (remaining_of edges)) <= size done); [|rewrite size_remaining in Hsize; lia].
    rewrite <-(size_list_to_set (C := gset string) _ (NoDup_btree_keys _)).
    apply subseteq_size. intros n Hn%elem_of_list_to_set. by rewrite Forall_forall in Hall; apply Hall.
  - apply not_Forall_Exists, Exists_exists in Hex as (n & Hn & Hnd); [|solve_decision].
    apply elem_of_btree_keys, remaining_nodes in Hn.
    apply (stuck_cycle edges (λ n, (n ∉ done) ∧ is_node edges n) n); [done|].
    intros m [Hm Hnode]. destruct (decide (Forall (λ d, d ∈ done) (edges_of edges m))) as [Hall|Hdep].
    + rewrite Forall_forall in Hall. assert (m ∈ ready (remaining_of edges) done) as Hin
        by by apply elem_of_ready. rewrite Hready in Hin. by apply elem_of_nil in Hin.
    + apply not_Forall_Exists, Exists_exists in Hdep as (d & Hd & Hdd); [|solve_decision].
      exists d. split_and!; [done..|]. right. by exists m.
Qed.

Lemma topo_loop_spec edges fuel layers done :
  topo_inv edges layers done → size (remaining_of edges) - size done <= fuel →
  ∃ r, topo_loop fuel (remaining_of edges) layers done = Some r ∧ topo_post edges r.
Proof.
  revert layers done. induction fuel as [|fuel IH]; intros layers done Hinv Hfuel; cbn [topo_loop];
    (destruct (Nat.ltb_spec (size done) (size (remaining_of edges))) as [Hlt|Hge]; [|
       eexists; split; [reflexivity|by eapply topo_full_post]]); [lia|].
  pose proof (topo_inv_step edges layers done _ Hinv eq_refl) as Hstep.
  pose proof (topo_inv_size _ _ _ Hinv) as Hs. pose proof (topo_inv_size _ _ _ Hstep) as Hs'.
  destruct (ready (remaining_of edges) done) as [|m l] eqn:Hready.
  - eexists. split; [reflexivity|]. exact (topo_stuck edges layers done Hinv Hlt Hready).
  - apply IH; [done|]. rewrite Hs'. rewrite concat_app, length_app. simpl. lia.
Qed.

(** Kahn's layers are a topological order, and they exist unless a cycle
    does.  [topo_layers] always returns; [Some layers] lists every job and
    every dependency exactly once, each one after all of its dependencies, and
    [None] means that some job reaches itself. *)
Theorem topo_layers_spec edges :
  ∃ r, topo_layers edges = Some r ∧
    match r with
    | Some layers =>
        NoDup (concat layers) ∧ (∀ n, n ∈ concat layers ↔ is_node edges n) ∧
        layers_ordered edges layers
    | None => ∃ n, tc (edge edges) n n
    end.
Proof.
  apply topo_loop_spec; [|lia]. split; simpl.
  - intros n. by rewrite elem_of_empty, elem_of_nil.
  - apply NoDup_nil_2.
  - by intros n ?%elem_of_nil.
  - by intros i l n d.
Qed.

(** ** The transitive closure *)

Record closure_inv (edges : NeedsGraph) (roots : list string) (closed : gset string)
    (stack : list string) : Prop := {
  closure_reach : ∀ n, n ∈ closed ∨ n ∈ stack → ∃ r, r ∈ roots ∧ rtc (edge edges) r n;
  closure_roots : ∀ r, r ∈ roots → r ∈ closed ∨ r ∈ stack;
  closure_edges : ∀ n d, n ∈ closed → edge edges n d → d ∈ closed ∨ d ∈ stack;
}.

Lemma closure_inv_push edges roots closed n stack :
  closure_inv edges roots closed (n :: stack) →
  closure_inv edges roots ({[n]} ∪ closed)
    (reverse (filter (λ dep, dep ∉ {[n]} ∪ closed) (edges_of edges n)) ++ stack).
Proof.
  intros [Hreach Hroots Hedges].
  assert (∀ d, d ∈ reverse (filter (λ dep, dep ∉ {[n]} ∪ closed) (edges_of edges n)) ++ stack ↔
    ((d ∉ {[n]} ∪ closed) ∧ edge edges n d) ∨ d ∈ stack) as Hin
    by (intros d; by rewrite elem_of_app, elem_of_reverse, list_elem_of_filter).
  split.
  - intros m. rewrite Hin, elem_of_union, elem_of_singleton.
    intros [[->|Hm]|[[_ Hm]|Hm]]; [apply Hreach; right; by left|apply Hreach; by left| |
      apply Hreach; right; by right].
    destruct (Hreach n) as (r & Hr & Hrn); [right; by left|]. exists r. split; [done|].
    by eapply rtc_r.
  - intros r Hr. rewrite Hin, elem_of_union, elem_of_singleton.
    destruct (Hroots r Hr) as [?|[->|?]%elem_of_cons]; tauto.
  - intros m d Hm Hd. rewrite Hin. destruct (decide (d ∈ {[n]} ∪ closed)) as [?|Hnd]; [by left|].
    right. apply elem_of_union in Hm as [->%elem_of_singleton|Hm]; [left; by split|].
    destruct (Hedges m d Hm Hd) as [?|[->|?]%elem_of_cons]; [|..]; [destruct Hnd; set_solver..|by right].
Qed.

Lemma open_edges_insert edges closed n :
  n ∉ closed →
  open_edges edges ({[n]} ∪ closed) + length (edges_of edges n) = open_edges edges closed.
Proof.
  intros Hn. unfold open_edges.
  assert (∀ m, m ≠ n → open_cost edges ({[n]} ∪ closed) m = open_cost edges closed m) as Hsame.
  { intros m Hm. unfold open_cost. apply decide_ext. set_solver. }
  assert (open_cost edges closed n = length (edges_of edges n)) as Hold
    by (unfold open_cost; by rewrite decide_False).
  assert (open_cost edges ({[n]} ∪ closed) n = 0) as Hnew
    by (unfold open_cost; rewrite decide_True; [done|set_solver]).
  destruct (decide (n ∈ btree_keys edges)) as [Hk|Hk].
  - pose proof (sum_list_with_one (open_cost edges ({[n]} ∪ closed)) (open_cost edges closed)
      (btree_keys edges) n (NoDup_btree_keys _) Hk) as Hsum.
    rewrite Hold, Hnew in Hsum. rewrite Hsum; [lia|]. intros m _ Hm. by apply Hsame.
  - rewrite elem_of_btree_keys, <-eq_None_not_Some in Hk.
    assert (edges_of edges n = []) as -> by (unfold edges_of; by rewrite Hk).
    simpl. rewrite Nat.add_0_r. assert (n ∉ btree_keys edges) as Hk'
      by (rewrite elem_of_btree_keys, Hk; by intros [? ?]).
    revert Hk'. generalize (btree_keys edges). intros l.
    induction l as [|m l IH]; simpl; [done|]. intros [? ?]%not_elem_of_cons.
    rewrite IH, Hsame; done.
Qed.

Lemma closure_loop_spec edges roots fuel closed stack :
  closure_inv edges roots closed stack → length stack + open_edges edges closed < fuel →
  ∃ s, closure_loop fuel edges closed stack = Some s ∧
    ∀ n, n ∈ s ↔ ∃ r, r ∈ roots ∧ rtc (edge edges) r n.
Proof.
  revert closed stack. induction fuel as [|fuel IH]; intros closed stack Hinv Hfuel; [lia|].
  cbn [closure_loop]. destruct stack as [|n stack].
  - eexists. split; [done|]. destruct Hinv as [Hreach Hroots Hedges]. intros m.
    split; [intros ?; apply Hreach; by left|]. intros (r & Hr & Hrm).
    assert (r ∈ closed) as Hc by (by destruct (Hroots r Hr) as [?|?%elem_of_nil]).
    clear Hr. induction Hrm as [|r x m Hrx _ IHr]; [done|]. apply IHr.
    by destruct (Hedges r x Hc Hrx) as [?|?%elem_of_nil].
  - case_decide as Hn.
    + apply IH; [|simpl in *; lia]. destruct Hinv as [Hreach Hroots Hedges]. split.
      * intros m [?|?]; apply Hreach; [by left|right; by right].
      * intros r Hr. destruct (Hroots r Hr) as [?|[->|?]%elem_of_cons]; auto.
      * intros m d Hm Hd. destruct (Hedges m d Hm Hd) as [?|[->|?]%elem_of_cons]; auto.
    + apply IH; [by apply closure_inv_push|].
      pose proof (open_edges_insert edges closed n Hn).
      rewrite length_app, length_reverse.
      pose proof (length_filter (λ dep, dep ∉ {[n]} ∪ closed) (edges_of edges n)). simpl in *. lia.
Qed.

(** The closure is exactly the set of jobs reachable from the selected
    roots through [needs], the roots included (unknown ones too), and its
    computation always ends, cycles or not. *)
Theorem dependency_closure_spec edges roots :
  ∃ closed, dependency_closure edges roots = Some closed ∧
    ∀ n, n ∈ closed ↔ ∃ r, r ∈ roots ∧ rtc (edge edges) r n.
Proof.
  apply closure_loop_spec; [|rewrite length_reverse; lia]. split.
  - intros n. rewrite elem_of_reverse. intros [?%elem_of_empty|Hn]; [done|]. exists n. split; [done|apply rtc_refl].
  - intros r Hr. right. by apply elem_of_reverse.
  - by intros n d ?%elem_of_empty.
Qed.

(** ** Validated plans *)

Lemma elem_of_dedup l x : x ∈ dedup l ↔ x ∈ l.
Proof.
  induction l as [|a l IH]; [done|]. destruct l as [|b l]; [done|].
  change (dedup (a :: b :: l)) with (if decide (a = b) then dedup (b :: l) else a :: dedup (b :: l)).
  case_decide; [|by rewrite !(elem_of_cons _ _ a), IH].
  subst. rewrite IH, !elem_of_cons. tauto.
Qed.

(** [job] must wait for [other]. *)
Definition must_wait (job other : JobPlan) : Prop :=
  ∃ need, need ∈ needs job ∧ (id other = need ∨ base_id other = need).

Lemma names_need_true need candidate :
  Is_true (names_need need candidate) ↔ id candidate = need ∨ base_id candidate = need.
Proof.
  unfold names_need, str_eqb. rewrite Is_true_true, orb_true_iff, !bool_decide_eq_true. done.
Qed.

Lemma expand_need_spec jobs job need :
  match expand_need jobs job need with
  | Ok ids => ids ≠ [] ∧
      ∀ i, i ∈ ids ↔ ∃ other, other ∈ jobs ∧ id other = i ∧ (id other = need ∨ base_id other = need)
  | Err e => e = UnknownNeed (id job) need ∧
      ∀ other, other ∈ jobs → id other ≠ need ∧ base_id other ≠ need
  end.
Proof.
  unfold expand_need. set (matched := filter _ jobs).
  assert (∀ other, other ∈ matched ↔
    (id other = need ∨ base_id other = need) ∧ other ∈ jobs) as Hin.
  { intros other. unfold matched. by rewrite list_elem_of_filter, names_need_true. }
  assert (∀ i, i ∈ id <$> matched ↔
    ∃ other, other ∈ jobs ∧ id other = i ∧ (id other = need ∨ base_id other = need)) as Hids.
  { intros i. rewrite list_elem_of_fmap. setoid_rewrite Hin. naive_solver. }
  destruct (id <$> matched) as [|o os] eqn:Hm; simpl; [|by split].
  split; [done|]. intros other Ho. apply fmap_nil_inv in Hm. specialize (Hin other).
  rewrite Hm, elem_of_nil in Hin. tauto.
Qed.

Lemma expand_needs_spec jobs job nds :
  match expand_needs jobs job nds with
  | Ok ids => (∀ i, i ∈ ids ↔ ∃ need other, need ∈ nds ∧ other ∈ jobs ∧ id other = i ∧
                 (id other = need ∨ base_id other = need)) ∧
      ∀ need, need ∈ nds → ∃ other, other ∈ jobs ∧ (id other = need ∨ base_id other = need)
  | Err e => ∃ need, need ∈ nds ∧ e = UnknownNeed (id job) need ∧
      ∀ other, other ∈ jobs → id other ≠ need ∧ base_id other ≠ need
  end.
Proof.
  induction nds as [|need nds IH]; cbn [expand_needs].
  { split; [|by intros need ?%elem_of_nil]. intros i. rewrite elem_of_nil.
    split; [done|]. by intros (? & ? & ?%elem_of_nil & _). }
  pose proof (expand_need_spec jobs job need) as Hneed.
  destruct (expand_need jobs job need) as [ids|e]; simpl.
  - destruct Hneed as [Hne Hids]. destruct (expand_needs jobs job nds) as [rest|e]; simpl.
    + destruct IH as [Hrest Hall]. split.
      * intros i. rewrite elem_of_app, Hids, Hrest. split.
        -- intros [(o & ?)|(nd & o & ?)]; [exists need, o|exists nd, o]; rewrite elem_of_cons; tauto.
        -- intros (nd & o & [->|?]%elem_of_cons & ?); [left; by exists o|right; by exists nd, o].
      * intros nd [->|?]%elem_of_cons; [|by apply Hall].
        destruct ids as [|i ids]; [done|].
        destruct (proj1 (Hids i)) as (o & ? & _ & ?); [by left|by exists o].
    + destruct IH as (nd & ? & ?). exists nd. split; [by right|done].
  - destruct Hneed as [-> Hno]. exists need. split; [by left|done].
Qed.

Lemma id_inj jobs a b :
  NoDup (id <$> jobs) → a ∈ jobs → b ∈ jobs → id a = id b → a = b.
Proof.
  intros Hnd [i Ha]%list_elem_of_lookup [j Hb]%list_elem_of_lookup Hid.
  assert (i = j) as ->; [|congruence].
  eapply (NoDup_lookup _ i j (id a)); [done|by rewrite list_lookup_fmap, Ha|].
  by rewrite list_lookup_fmap, Hb, Hid.
Qed.

Section validated.
Context {num : Type} `{NumberOps num}.

(** [a] must wait for [b], both among [jobs]. *)
Definition waits (jobs : list JobPlan) (a b : JobPlan) : Prop :=
  a ∈ jobs ∧ b ∈ jobs ∧ must_wait a b.

(** The node of [job] in the graph. *)
Definition node_ok (jobs : list JobPlan) (graph : NeedsGraph) (job : JobPlan) : Prop :=
  is_ok (check_condition (num:=num) job) = true ∧
  (∀ need, need ∈ needs job → ∃ other, other ∈ jobs ∧ (id other = need ∨ base_id other = need)) ∧
  ∀ d, edge graph (id job) d ↔ ∃ other, other ∈ jobs ∧ id other = d ∧ must_wait job other.

Definition plan_error (jobs : list JobPlan) (e : ParserError) : Prop :=
  ∃ job, job ∈ jobs ∧
    (check_condition (num:=num) job = Err e ∨
     ∃ need, need ∈ needs job ∧ e = UnknownNeed (id job) need ∧
       ∀ other, other ∈ jobs → id other ≠ need ∧ base_id other ≠ need).

Lemma edges_of_insert graph n m ds :
  edges_of (<[n := ds]> graph) m = if decide (n = m) then ds else edges_of graph m.
Proof.
  unfold edges_of. case_decide; [subst; by rewrite lookup_insert_eq|by rewrite lookup_insert_ne].
Qed.

Lemma build_graph_spec jobs done todo graph :
  NoDup (id <$> done ++ todo) →
  (∀ job, job ∈ done → node_ok jobs graph job) → (∀ n d, edge graph n d → n ∈ id <$> done) →
  (∀ job, job ∈ todo → job ∈ jobs) →
  match build_graph (num:=num) jobs todo graph with
  | Ok graph' => (∀ job, job ∈ done ++ todo → node_ok jobs graph' job) ∧
      ∀ n d, edge graph' n d → n ∈ id <$> done ++ todo
  | Err e => plan_error jobs e
  end.
Proof.
  revert done graph. induction todo as [|job todo IH]; intros done graph Hnd Hdone Hsrc Htodo;
    cbn [build_graph].
  { rewrite app_nil_r. by split. }
  assert (job ∈ jobs) as Hjob by (apply Htodo; by left).
  destruct (check_condition job) as [[]|e] eqn:Hcond; simpl; [|by exists job; eauto].
  pose proof (expand_needs_spec jobs job (needs job)) as Hexp.
  destruct (expand_needs jobs job (needs job)) as [ids|e]; simpl;
    [|destruct Hexp as (need & ? & ? & ?); exists job; split; [done|right; by exists need]].
  destruct Hexp as [Hids Hall].
  rewrite (assoc_L (++) done [job] todo : done ++ job :: todo = _) in *.
  apply IH; [done| | |intros; apply Htodo; by right].
  - intros k [Hk|Hk]%elem_of_app.
    + destruct (Hdone k Hk) as (? & ? & Hedge). split_and!; [done..|].
      intros d. rewrite <-Hedge. unfold edge. rewrite edges_of_insert, decide_False; [done|].
      intros Heq. rewrite fmap_app in Hnd. apply NoDup_app in Hnd as (Hnd & _ & _).
      rewrite fmap_app in Hnd. apply NoDup_app in Hnd as (_ & Hnd & _).
      apply (Hnd (id k)); [by apply list_elem_of_fmap_2|]. rewrite <-Heq. by left.
    + apply list_elem_of_singleton in Hk as ->. split_and!; [by rewrite Hcond|done|].
      intros d. unfold edge. rewrite edges_of_insert, decide_True by done.
      rewrite elem_of_dedup, (merge_sort_Permutation _ _), Hids. unfold must_wait. naive_solver.
  - intros n d. unfold edge. rewrite edges_of_insert, fmap_app, elem_of_app.
    case_decide; [intros _; right; subst; by left|]. intros Hd. left. by eapply Hsrc.
Qed.

Lemma waits_edge jobs graph a b :
  NoDup (id <$> jobs) → (∀ job, job ∈ jobs → node_ok jobs graph job) →
  tc (waits jobs) a b → tc (edge graph) (id a) (id b).
Proof.
  intros Hnd Hok.
  assert (∀ x y, waits jobs x y → edge graph (id x) (id y)) as Hstep.
  { intros x y (Hx & Hy & Hxy). destruct (Hok x Hx) as (_ & _ & ->). by exists y. }
  induction 1 as [x y Hxy|x y z Hxy _ IH]; [by apply tc_once, Hstep|].
  eapply tc_l; [by apply Hstep|done].
Qed.

Lemma edge_waits jobs graph x y :
  NoDup (id <$> jobs) → (∀ job, job ∈ jobs → node_ok jobs graph job) →
  (∀ n d, edge graph n d → n ∈ id <$> jobs) → tc (edge graph) x y →
  ∃ a b, id a = x ∧ id b = y ∧ a ∈ jobs ∧ tc (waits jobs) a b.
Proof.
  intros Hnd Hok Hsrc.
  assert (∀ x y, edge graph x y → ∃ a b, id a = x ∧ id b = y ∧ waits jobs a b) as Hstep.
  { intros u v Huv. destruct (proj1 (list_elem_of_fmap _ _ _) (Hsrc u v Huv)) as (a & -> & Ha).
    destruct (Hok a Ha) as (_ & _ & Hedge). apply Hedge in Huv as (b & Hb & <- & Hw).
    by exists a, b. }
  induction 1 as [u v Huv|u v w Huv _ IH].
  - destruct (Hstep u v Huv) as (a & b & <- & <- & Hw). exists a, b.
    split_and!; [done..|by destruct Hw|by apply tc_once].
  - destruct (Hstep u v Huv) as (a & b & <- & <- & Hw).
    destruct IH as (b' & c & Hbb & <- & Hb' & Hbc). exists a, c.
    pose proof Hw as (Ha & Hb & _).
    rewrite (id_inj jobs b' b Hnd Hb' Hb Hbb) in Hbc.
    split_and!; [done..|]. by eapply tc_l.
Qed.

End validated.

(** What a validated set of plans satisfies.  When the ids of the
    expanded jobs are distinct, [validate_job_plans] always returns; [Ok] means
    that every condition is a valid expression, every need names a job or a
    matrix base, and no job waits for itself; a cycle error names a job that
    does, and every other error is a condition the expression validator
    refuses or a need that nothing matches. *)
Theorem validate_job_plans_spec {num} `{NumberOps num} (jobs : list JobPlan) :
  NoDup (id <$> jobs) →
  match validate_job_plans num jobs with
  | Some (Ok _) =>
      (∀ job, job ∈ jobs → check_condition (num:=num) job = Ok tt) ∧
      (∀ job need, job ∈ jobs → need ∈ needs job →
         ∃ other, other ∈ jobs ∧ (id other = need ∨ base_id other = need)) ∧
      ∀ job, ¬ tc (waits jobs) job job
  | Some (Err (NeedsCycle w)) => ∃ job, job ∈ jobs ∧ id job = w ∧ tc (waits jobs) job job
  | Some (Err e) => plan_error (num:=num) jobs e
  | None => False
  end.
Proof.
  intros Hnd. unfold validate_job_plans.
  pose proof (build_graph_spec (num:=num) jobs [] jobs ∅ Hnd) as Hbuild.
  specialize (Hbuild ltac:(by intros ? ?%elem_of_nil) ltac:(by intros ? ? ?%elem_of_nil) ltac:(done)).
  destruct (build_graph (num:=num) jobs jobs ∅) as [graph|e].
  - simpl in Hbuild. destruct Hbuild as [Hok Hsrc].
    destruct (detect_needs_cycle_cases graph) as ([[]|w] & -> & Hr); simpl.
    + split_and!.
      * intros job Hj. destruct (Hok job Hj) as ([[] ?]%is_ok_true & _). done.
      * intros job need Hj Hneed. destruct (Hok job Hj) as (_ & Hall & _). by apply Hall.
      * intros job Hcyc. apply (safe_no_cycle graph (id job) (Hr _)). by eapply waits_edge.
    + destruct (edge_waits (num:=num) jobs graph w w Hnd Hok Hsrc Hr) as (a & b & Ha & Hb & Hin & Hab).
      exists a. split_and!; [done..|].
      assert (b ∈ jobs) as Hbin.
      { clear -Hab. induction Hab as [x y (_ & ? & _)|]; done. }
      by rewrite (id_inj jobs a b Hnd Hin Hbin ltac:(congruence)) in Hab |- *.
  - destruct e; try exact Hbuild. exfalso.
    destruct Hbuild as (job & _ & [Hcond|(? & _ & ? & _)]); [|done].
    unfold check_condition in Hcond. destruct (if_condition job); [|done].
    by destruct (validate_expression _).
Qed.

Definition sample_job (id : string) (needs : list string) : JobPlan :=
  mkJobPlan id id None ["ubuntu-latest"] needs None (Some "always()") true false None.

(** [b] needs [a], and [a] needs [b]. *)
Lemma validate_job_plans_spec_witness :
  ∃ job, job ∈ [sample_job "a" ["b"]; sample_job "b" ["a"]] ∧ id job = "a" ∧
    tc (waits [sample_job "a" ["b"]; sample_job "b" ["a"]]) job job.
Proof.
  apply (validate_job_plans_spec (num:=Z) [sample_job "a" ["b"]; sample_job "b" ["a"]]).
  refine (bool_decide_eq_true_1 _ _). vm_compute. reflexivity.
Defined.
