(* ===== verification/Matrix.v ===== *)
(** * Matrix expansion

    [crates/preloop-gha-parser/src/matrix_expand.rs]: the reference expansion
    [expand_matrix_spec], the bounded depth-first expansion the server runs,
    the conversions from YAML and JSON matrices, and the ids and display names
    of the expanded jobs. *)
From S2P Require Export NeedsDag.

Section matrix.
Context {num : Type} `{NumberOps num, JsonCodec num}.

(** ** Specifications and rows *)

Record MatrixSpec : Type := mkSpec {
  axes : imap (list (value num));
  exclude : list (imap (value num));
  include : list (imap (value num));
}.

Record MatrixCombination : Type := mkRow { values : imap (value num); include_only : bool }.

Definition MAX_MATRIX_COMBINATIONS : nat := 256.
Definition MAX_MATRIX_AXES : nat := 1024.
Definition MAX_MATRIX_EXPANSION_WORK : N := 1000000.

Abbreviation row := (imap (value num)).

(** Equality of two optional values. *)
Definition value_is (o : option (value num)) (v : value num) : bool :=
  match o with Some w => value_eqb w v | None => false end.

Definition matches_partial (candidate partial : row) : bool :=
  forallb (λ '(key, v), value_is (imap_get key candidate) v) partial.

(** An include matches a row when it agrees on every declared axis it names. *)
Definition include_matches (spec : MatrixSpec) (current included : row) : bool :=
  forallb (λ '(key, v), negb (imap_contains key (axes spec)) || value_is (imap_get key current) v)
    included.

(** The non-axis keys of a matching include, later ones winning. *)
Definition add_extras (spec : MatrixSpec) (included extras : row) : row :=
  foldl (λ extras '(key, v), if imap_contains key (axes spec) then extras else imap_insert key v extras)
    extras included.

(** ** The bounded expansion *)

Record ExpansionState : Type := mkExp {
  include_matched : list bool;
  work : N;
  expanded : list MatrixCombination;
}.

Definition charge_work (w : N) : result unit N :=
  let w := (w + 1)%N in if (MAX_MATRIX_EXPANSION_WORK <? w)%N then Err tt else Ok w.

(** The scan of the excludes: whether one matched, and the work done. *)
Fixpoint scan_excludes (current : row) (excludes : list row) (w : N) : result unit (bool * N) :=
  match excludes with
  | [] => Ok (false, w)
  | exc :: excludes =>
      w ← charge_work w;
      if matches_partial current exc then Ok (true, w) else scan_excludes current excludes w
  end.

Fixpoint scan_includes (spec : MatrixSpec) (current : row) (includes : list row) (matched : list bool)
    (extras : row) (w : N) : result unit (list bool * row * N) :=
  match includes, matched with
  | included :: includes, m :: matched =>
      w ← charge_work w;
      if include_matches spec current included then
        '(matched, extras, w) ←
          scan_includes spec current includes matched (add_extras spec included extras) w;
        Ok (true :: matched, extras, w)
      else
        '(matched, extras, w) ← scan_includes spec current includes matched extras w;
        Ok (m :: matched, extras, w)
  | _, _ => Ok (matched, extras, w)
  end.

Definition push_matrix_row (expanded : list MatrixCombination) (r : MatrixCombination) :
    result unit (list MatrixCombination) :=
  if MAX_MATRIX_COMBINATIONS <=? length expanded then Err tt else Ok (expanded ++ [r]).

(** The leaf of [expand_axis_rows]: one complete row of the product. *)
Definition expand_row (spec : MatrixSpec) (current : row) (st : ExpansionState) :
    result unit ExpansionState :=
  w ← charge_work (work st);
  '(excluded, w) ← scan_excludes current (exclude spec) w;
  if (excluded : bool) then Ok (mkExp (include_matched st) w (expanded st))
  else
    '(matched, extras, w) ← scan_includes spec current (include spec) (include_matched st) [] w;
    rows ← push_matrix_row (expanded st) (mkRow (imap_extend current extras) false);
    Ok (mkExp matched w rows).

(** [expand_axis_rows] on the axes from [axis_index] on.  [current] is shared
    by the recursive calls, so it is threaded through. *)
Fixpoint expand_axis_rows (spec : MatrixSpec) (todo : imap (list (value num))) (current : row)
    (st : ExpansionState) : result unit (row * ExpansionState) :=
  match todo with
  | [] => st ← expand_row spec current st; Ok (current, st)
  | (axis, vs) :: todo =>
      (fix each vs current st :=
         match vs with
         | [] => Ok (current, st)
         | v :: vs =>
             '(current, st) ← expand_axis_rows spec todo (imap_insert axis v current) st;
             each vs (imap_shift_remove axis current) st
         end) vs current st
  end.

Fixpoint push_unmatched (includes : list row) (matched : list bool) (expanded : list MatrixCombination) :
    result unit (list MatrixCombination) :=
  match includes, matched with
  | included :: includes, m :: matched =>
      expanded ← (if (m : bool) then Ok expanded else push_matrix_row expanded (mkRow included true));
      push_unmatched includes matched expanded
  | _, _ => Ok expanded
  end.

Definition all_axes_filled (spec : MatrixSpec) : bool :=
  negb (bool_decide (axes spec = [])) &&
  forallb (λ '(_, vs), negb (bool_decide (length vs = 0))) (axes spec).

Definition expand_matrix_spec_bounded (spec : MatrixSpec) : result unit (list MatrixCombination) :=
  let st := mkExp (replicate (length (include spec)) false) 0 [] in
  st ← (if all_axes_filled spec
        then '(_, st) ← expand_axis_rows spec (axes spec) [] st; Ok st
        else Ok st);
  push_unmatched (include spec) (include_matched st) (expanded st).

Definition try_expand_matrix_spec (job_id : string) (spec : MatrixSpec) :
    result ParserError (list MatrixCombination) :=
  let too_large := MatrixTooLarge job_id MAX_MATRIX_COMBINATIONS in
  if (length (axes spec) =? 0) && (MAX_MATRIX_COMBINATIONS <? length (include spec)) then Err too_large
  else if MAX_MATRIX_AXES <? length (axes spec) then Err too_large
  else map_err (λ _, too_large) (expand_matrix_spec_bounded spec).

(** ** The reference expansion *)

Definition extend_axis (combinations : list row) (axis : string) (vs : list (value num)) : list row :=
  flat_map (λ existing, (λ v, imap_insert axis v existing) <$> vs) combinations.

Fixpoint product_loop (todo : imap (list (value num))) (combinations : list row) : list row :=
  match todo with
  | [] => combinations
  | (axis, vs) :: todo =>
      if length vs =? 0 then [] else product_loop todo (extend_axis combinations axis vs)
  end.

Fixpoint merge_includes (spec : MatrixSpec) (current : row) (includes : list row) (matched : list bool)
    (extras : row) : list bool * row :=
  match includes, matched with
  | included :: includes, m :: matched =>
      if include_matches spec current included then
        let '(matched, extras) :=
          merge_includes spec current includes matched (add_extras spec included extras) in
        (true :: matched, extras)
      else
        let '(matched, extras) := merge_includes spec current includes matched extras in
        (m :: matched, extras)
  | _, _ => (matched, extras)
  end.

Fixpoint merge_rows (spec : MatrixSpec) (combinations : list row) (matched : list bool)
    (expanded : list MatrixCombination) : list bool * list MatrixCombination :=
  match combinations with
  | [] => (matched, expanded)
  | current :: combinations =>
      let '(matched, extras) := merge_includes spec current (include spec) matched [] in
      merge_rows spec combinations matched (expanded ++ [mkRow (imap_extend current extras) false])
  end.

Definition retain_excludes (excludes : list row) (combinations : list row) : list row :=
  foldl (λ cs excluded, filter (λ candidate, negb (matches_partial candidate excluded)) cs)
    combinations excludes.

Fixpoint append_unmatched (includes : list row) (matched : list bool) (expanded : list MatrixCombination) :
    list MatrixCombination :=
  match includes, matched with
  | included :: includes, m :: matched =>
      append_unmatched includes matched
        (if (m : bool) then expanded else expanded ++ [mkRow included true])
  | _, _ => expanded
  end.

Definition expand_matrix_spec (spec : MatrixSpec) : list MatrixCombination :=
  let combinations := if all_axes_filled spec then [[]] else [] in
  let combinations := product_loop (axes spec) combinations in
  let combinations := retain_excludes (exclude spec) combinations in
  let '(matched, expanded) :=
    merge_rows spec combinations (replicate (length (include spec)) false) [] in
  append_unmatched (include spec) matched expanded.

Definition usize_max : N := 2 ^ 64 - 1.

Fixpoint count_loop (todo : imap (list (value num))) (count : N) : N :=
  match todo with
  | [] => count
  | (_, vs) :: todo =>
      if length vs =? 0 then 0 else count_loop todo (N.min usize_max (count * N.of_nat (length vs)))
  end.

Definition cartesian_count (spec : MatrixSpec) : N :=
  if length (axes spec) =? 0 then 0 else count_loop (axes spec) 1.

(** ** Ids and display names *)

Definition value_key (v : value num) : string :=
  match v with JString s => s | other => json_to_string other end.

Definition expanded_job_id (base : string) (matrix : row) : string :=
  if length matrix =? 0 then base
  else base +:+ " (" +:+ join ", " (value_key <$> matrix.*2) +:+ ")".

Definition MAX_DISPLAY_NAME_LEN : nat := 100.

Definition bool_string (b : bool) : string := if b then "true" else "false".

Fixpoint display_segments (v : value num) : list string :=
  match v with
  | JString s => if str_eqb s "" then [] else [s]
  | JNumber n => [num_to_string n]
  | JBool flag => [bool_string flag]
  | JArray vs => flat_map display_segments vs
  | JObject m => flat_map (λ '(_, v), display_segments v) m
  | JNull => []
  end.

Definition utf16_len (cs : list char) : nat := sum_list_with len_utf16 cs.

(** The longest prefix of whole characters within 97 UTF-16 units. *)
Fixpoint keep_prefix (units : nat) (cs : list char) : list char :=
  match cs with
  | [] => []
  | c :: r =>
      if MAX_DISPLAY_NAME_LEN - 3 <? units + len_utf16 c then []
      else c :: keep_prefix (units + len_utf16 c) r
  end.

Definition truncate_display_name (name : string) : string :=
  let keep := keep_prefix 0 (chars name) in
  if utf16_len (chars name) <=? MAX_DISPLAY_NAME_LEN then name else of_chars keep +:+ "...".

(** The name before truncation. *)
Definition full_display_name (base : string) (matrix : row) : string :=
  let segments := flat_map (λ '(_, v), display_segments v) matrix in
  if length segments =? 0 then base else base +:+ " (" +:+ join ", " segments +:+ ")".

Definition display_job_name (base : string) (matrix : row) : string :=
  truncate_display_name (full_display_name base matrix).

(** ** Conversions *)

(** [Matrix] of [models.rs]: the axes are the keys besides [include] and [exclude]. *)
Record Matrix : Type := mkMatrix {
  matrix_include : list (value num);
  matrix_exclude : list (value num);
  matrix_axes : imap (value num);
}.

Definition matrix_entry (job_id field : string) (v : value num) : result ParserError row :=
  ok_or (InvalidMatrixEntry job_id field)
    (m ← as_object v; Some (foldl (λ acc '(k, v), imap_insert k v acc) [] m)).

Fixpoint matrix_entries (job_id field : string) (vs : list (value num)) : result ParserError (list row) :=
  match vs with
  | [] => Ok []
  | v :: vs => r ← matrix_entry job_id field v; rs ← matrix_entries job_id field vs; Ok (r :: rs)
  end.

Definition axis_values (v : value num) : list (value num) :=
  match v with JArray vs => vs | v => [v] end.

Definition matrix_to_spec (job_id : string) (matrix : Matrix) : result ParserError MatrixSpec :=
  let axes := foldl (λ axes '(axis, v), imap_insert axis (axis_values v) axes) [] (matrix_axes matrix) in
  exclude ← matrix_entries job_id "exclude" (matrix_exclude matrix);
  include ← matrix_entries job_id "include" (matrix_include matrix);
  Ok (mkSpec axes exclude include).

Fixpoint spec_members (job_id : string) (m : imap (value num)) (spec : MatrixSpec) :
    result ParserError MatrixSpec :=
  match m with
  | [] => Ok spec
  | (key, val) :: m =>
      spec ←
        (if str_eqb key "include" then
           arr ← ok_or (InvalidMatrixEntry job_id "include") (as_array val);
           rows ← matrix_entries job_id "include" arr;
           Ok (mkSpec (axes spec) (exclude spec) (include spec ++ rows))
         else if str_eqb key "exclude" then
           arr ← ok_or (InvalidMatrixEntry job_id "exclude") (as_array val);
           rows ← matrix_entries job_id "exclude" arr;
           Ok (mkSpec (axes spec) (exclude spec ++ rows) (include spec))
         else Ok (mkSpec (imap_insert key (axis_values val) (axes spec)) (exclude spec) (include spec)));
      spec_members job_id m spec
  end.

Definition value_to_matrix_spec (job_id : string) (v : value num) : result ParserError MatrixSpec :=
  match v with
  | JObject m => spec_members job_id m (mkSpec [] [] [])
  | _ => Err (InvalidExpression ("job `" +:+ job_id +:+ "` matrix expression did not return a mapping"))
  end.

End matrix.
Arguments MatrixSpec : clear implicits.
Arguments MatrixCombination : clear implicits.
Arguments Matrix : clear implicits.

(** ** The bounded expansion against the reference *)
Section equivalence.
#[local] Opaque MAX_MATRIX_COMBINATIONS.
Context {num : Type} `{NumberOps num}.
Implicit Types (spec : MatrixSpec num) (current : imap (value num)) (w : N).

(** The rows of the product of [todo] over [current], in the order both
    expansions produce them. *)
Fixpoint rows_from (todo : imap (list (value num))) current : list (imap (value num)) :=
  match todo with
  | [] => [current]
  | (axis, vs) :: todo => flat_map (λ v, rows_from todo (imap_insert axis v current)) vs
  end.

Definition excluded spec current : bool := existsb (matches_partial current) (exclude spec).

Fixpoint exclude_cost current (excludes : list (imap (value num))) : N :=
  match excludes with
  | [] => 0
  | exc :: excludes => 1 + (if matches_partial current exc then 0 else exclude_cost current excludes)
  end.

(** The work one row of the product costs. *)
Definition row_cost spec current : N :=
  1 + exclude_cost current (exclude spec)
  + (if excluded spec current then 0 else N.of_nat (length (include spec))).

Definition rows_cost spec (rows : list (imap (value num))) : N :=
  foldr (λ r acc, (row_cost spec r + acc)%N) 0%N rows.

Definition product_rows spec : list (imap (value num)) :=
  if all_axes_filled spec then rows_from (axes spec) [] else [].

Definition expansion_work spec : N := rows_cost spec (product_rows spec).

Lemma charge_work_spec w :
  charge_work w = if (MAX_MATRIX_EXPANSION_WORK <? w + 1)%N then Err tt else Ok (w + 1)%N.
Proof. done. Qed.

Lemma scan_excludes_spec current excludes w :
  (w <= MAX_MATRIX_EXPANSION_WORK)%N →
  scan_excludes current excludes w =
  if (MAX_MATRIX_EXPANSION_WORK <? w + exclude_cost current excludes)%N then Err tt
  else Ok (existsb (matches_partial current) excludes, w + exclude_cost current excludes)%N.
Proof.
  revert w. induction excludes as [|exc excludes IH]; intros w Hw;
    cbn [scan_excludes exclude_cost existsb].
  { rewrite N.add_0_r. by cmp_false. }
  rewrite charge_work_spec. destruct (N.ltb_spec MAX_MATRIX_EXPANSION_WORK (w + 1)) as [Hlt|Hge]; simpl.
  { by cmp_true. }
  destruct (matches_partial current exc); simpl.
  - rewrite N.add_0_r. by cmp_false.
  - rewrite IH by lia. by rewrite N.add_assoc.
Qed.

Lemma merge_includes_length spec current includes matched extras :
  length (merge_includes spec current includes matched extras).1 = length matched.
Proof.
  revert matched extras. induction includes as [|i includes IH]; intros [|m matched] extras;
    cbn [merge_includes]; [done..|].
  case_match; [specialize (IH matched (add_extras spec i extras))|specialize (IH matched extras)];
    case_match; simpl in *; congruence.
Qed.

Lemma scan_includes_spec spec current includes matched extras w :
  (w <= MAX_MATRIX_EXPANSION_WORK)%N → length matched = length includes →
  scan_includes spec current includes matched extras w =
  if (MAX_MATRIX_EXPANSION_WORK <? w + N.of_nat (length includes))%N then Err tt
  else Ok (merge_includes spec current includes matched extras, w + N.of_nat (length includes))%N.
Proof.
  revert matched extras w. induction includes as [|i includes IH]; intros [|m matched] extras w Hw Hlen;
    cbn [scan_includes merge_includes length] in *; try done.
  { rewrite N.add_0_r. by cmp_false. }
  rewrite charge_work_spec, Nat2N.inj_succ, <-N.add_1_l.
  destruct (N.ltb_spec MAX_MATRIX_EXPANSION_WORK (w + 1)) as [Hlt|Hge]; simpl.
  { by cmp_true. }
  rewrite N.add_assoc. destruct (include_matches spec current i);
    rewrite IH by (done || lia); (destruct (N.ltb _ _); [done|]); simpl; by case_match.
Qed.

(** What [expand_row] does to a state within its bounds. *)
Definition state_ok spec (st : ExpansionState (num:=num)) : Prop :=
  (work st <= MAX_MATRIX_EXPANSION_WORK)%N ∧ length (include_matched st) = length (include spec) ∧
  length (expanded st) <= MAX_MATRIX_COMBINATIONS.

Lemma expand_row_spec spec current st :
  state_ok spec st →
  expand_row spec current st =
  let w := (work st + row_cost spec current)%N in
  if (MAX_MATRIX_EXPANSION_WORK <? w)%N then Err tt
  else if excluded spec current then Ok (mkExp (include_matched st) w (expanded st))
  else if MAX_MATRIX_COMBINATIONS <=? length (expanded st) then Err tt
  else
    let '(matched, extras) := merge_includes spec current (include spec) (include_matched st) [] in
    Ok (mkExp matched w (expanded st ++ [mkRow (imap_extend current extras) false])).
Proof.
  intros (Hw & Hlen & _). unfold expand_row, row_cost, excluded. rewrite charge_work_spec. cbv zeta.
  destruct (N.ltb_spec MAX_MATRIX_EXPANSION_WORK (work st + 1)) as [Hlt|Hge]; simpl.
  { by cmp_true. }
  rewrite scan_excludes_spec by lia. rewrite !N.add_assoc.
  set (w := (work st + 1 + exclude_cost current (exclude spec))%N).
  destruct (existsb (matches_partial current) (exclude spec)).
  { rewrite N.add_0_r. by destruct (MAX_MATRIX_EXPANSION_WORK <? w)%N. }
  destruct (N.ltb_spec MAX_MATRIX_EXPANSION_WORK w) as [Hw'|Hw']; simpl.
  { by cmp_true. }
  rewrite scan_includes_spec by (done || lia).
  destruct (MAX_MATRIX_EXPANSION_WORK <? _)%N; [done|]. simpl.
  destruct (merge_includes _ _ _ _ _) as [matched extras]. unfold push_matrix_row.
  by destruct (MAX_MATRIX_COMBINATIONS <=? length (expanded st)).
Qed.

(** [expand_row] on a list of rows. *)
Fixpoint run_rows spec (rows : list (imap (value num))) (st : ExpansionState) :
    result unit ExpansionState :=
  match rows with
  | [] => Ok st
  | r :: rows => st ← expand_row spec r st; run_rows spec rows st
  end.

Lemma run_rows_app spec rows1 rows2 st :
  run_rows spec (rows1 ++ rows2) st = (st ← run_rows spec rows1 st; run_rows spec rows2 st).
Proof.
  revert st. induction rows1 as [|r rows1 IH]; intros st; [done|]. simpl.
  destruct (expand_row spec r st); simpl; [apply IH|done].
Qed.

(** The depth-first walk visits the rows of the product and leaves [current]
    as it was. *)
Lemma expand_axis_rows_spec spec todo current st :
  NoDup (current.*1 ++ todo.*1) →
  expand_axis_rows spec todo current st =
  (st ← run_rows spec (rows_from todo current) st; Ok (current, st)).
Proof.
  revert current st. induction todo as [|[axis vs] todo IH]; intros current st Hnd.
  { simpl. by destruct (expand_row spec current st). }
  assert (axis ∉ current.*1) as Hfresh.
  { intros Hin. apply NoDup_app in Hnd as (_ & Hd & _). apply (Hd axis Hin). by left. }
  assert (∀ v, NoDup ((imap_insert axis v current).*1 ++ todo.*1)) as Hnd'.
  { intros v. rewrite imap_insert_fresh, fmap_app by done. simpl. rewrite <-(assoc_L (++)). done. }
  cbn [expand_axis_rows rows_from]. clear Hnd. revert st. induction vs as [|v vs IHvs]; intros st; [done|].
  cbn [flat_map]. rewrite run_rows_app, IH by done.
  destruct (run_rows spec (rows_from todo (imap_insert axis v current)) st) as [st'|]; [|done].
  simpl. rewrite imap_insert_fresh, imap_shift_remove_app_fresh by done. apply IHvs.
Qed.

Definition kept spec (rows : list (imap (value num))) : list (imap (value num)) :=
  filter (λ r, negb (excluded spec r)) rows.

Lemma merge_rows_length spec rows matched expanded :
  length (merge_rows spec rows matched expanded).2 = length expanded + length rows ∧
  length (merge_rows spec rows matched expanded).1 = length matched.
Proof.
  revert matched expanded. induction rows as [|r rows IH]; intros matched expanded;
    cbn [merge_rows length]; [simpl; lia|].
  pose proof (merge_includes_length spec r (include spec) matched []) as Hlen.
  destruct (merge_includes spec r (include spec) matched []) as [m extras]. simpl in Hlen.
  destruct (IH m (expanded ++ [mkRow (imap_extend r extras) false])) as [-> ->].
  rewrite length_app. simpl. lia.
Qed.

Lemma run_rows_spec spec rows st :
  state_ok spec st →
  run_rows spec rows st =
  if (MAX_MATRIX_EXPANSION_WORK <? work st + rows_cost spec rows)%N then Err tt
  else if MAX_MATRIX_COMBINATIONS <? length (expanded st) + length (kept spec rows) then Err tt
  else
    let '(matched, expanded) := merge_rows spec (kept spec rows) (include_matched st) (expanded st) in
    Ok (mkExp matched (work st + rows_cost spec rows) expanded).
Proof.
  revert st. induction rows as [|r rows IH]; intros st Hok; pose proof Hok as (Hw & Hlen & Hrows).
  { cbn [run_rows rows_cost foldr kept filter list_filter merge_rows length].
    rewrite N.add_0_r, Nat.add_0_r. cmp_false. cmp_false. by destruct st. }
  cbn [run_rows rows_cost foldr]. fold (rows_cost spec rows).
  rewrite expand_row_spec by done. cbv zeta. rewrite N.add_assoc.
  set (w := (work st + row_cost spec r)%N). unfold kept. rewrite filter_cons.
  fold (kept spec rows).
  destruct (N.ltb_spec MAX_MATRIX_EXPANSION_WORK w) as [Hlt|Hge].
  { simpl. by cmp_true. }
  destruct (excluded spec r) eqn:Hexc.
  { cbn [negb]. rewrite decide_False by by intros []. simpl. by rewrite IH. }
  cbn [negb]. rewrite decide_True by done. cbn [length].
  destruct (Nat.leb_spec MAX_MATRIX_COMBINATIONS (length (expanded st))) as [Hfull|Hroom].
  { simpl. destruct (N.ltb _ _); [done|]. by cmp_true. }
  cbn [merge_rows]. pose proof (merge_includes_length spec r (include spec) (include_matched st) []) as Hl.
  destruct (merge_includes spec r (include spec) (include_matched st) []) as [m extras]. simpl in Hl |- *.
  rewrite IH; simpl; [|repeat split; simpl; rewrite ?length_app; simpl; lia || congruence].
  rewrite length_app. simpl.
  replace (length (expanded st) + 1 + length (kept spec rows))
    with (length (expanded st) + S (length (kept spec rows))) by lia. done.
Qed.

Lemma append_unmatched_length includes matched (expanded : list (MatrixCombination num)) :
  length expanded <= length (append_unmatched includes matched expanded).
Proof.
  revert matched expanded. induction includes as [|i includes IH]; intros [|m matched] expanded;
    cbn [append_unmatched]; try lia. etrans; [|apply IH]. destruct m; rewrite ?length_app; lia.
Qed.

Lemma push_unmatched_spec includes matched (expanded : list (MatrixCombination num)) :
  length expanded <= MAX_MATRIX_COMBINATIONS →
  push_unmatched includes matched expanded =
  if MAX_MATRIX_COMBINATIONS <? length (append_unmatched includes matched expanded) then Err tt
  else Ok (append_unmatched includes matched expanded).
Proof.
  revert matched expanded. induction includes as [|i includes IH]; intros [|m matched] expanded Hl;
    cbn [push_unmatched append_unmatched];
    try by cmp_false.
  destruct m; simpl; [by apply IH|]. unfold push_matrix_row.
  destruct (Nat.leb_spec MAX_MATRIX_COMBINATIONS (length expanded)) as [Hfull|Hroom]; simpl.
  - pose proof (append_unmatched_length includes matched (expanded ++ [mkRow i true])) as Hmono.
    rewrite length_app in Hmono. simpl in Hmono.
    by cmp_true.
  - apply IH. rewrite length_app. simpl. lia.
Qed.

Lemma retain_excludes_filter excludes rows :
  retain_excludes excludes rows =
  filter (λ r : imap (value num), negb (existsb (matches_partial r) excludes)) rows.
Proof.
  unfold retain_excludes. revert rows. induction excludes as [|e excludes IH]; intros rows; cbn [foldl].
  - induction rows as [|r rows IHr]; [done|]. rewrite filter_cons. simpl. by rewrite <-IHr at 1.
  - rewrite IH, list_filter_filter. apply list_filter_iff. intros r. cbn [existsb].
    rewrite negb_orb. destruct (matches_partial r e), (existsb (matches_partial r) excludes); simpl; tauto.
Qed.

Lemma product_loop_rows todo (combinations : list (imap (value num))) :
  forallb (λ '(_, vs), negb (bool_decide (length vs = 0))) todo = true →
  product_loop todo combinations = flat_map (rows_from todo) combinations.
Proof.
  revert combinations. induction todo as [|[axis vs] todo IH]; intros cs.
  { intros _. cbn. induction cs as [|c cs IHc]; [done|]. simpl. by rewrite <-IHc. }
  simpl. intros [Hvs Htodo]%andb_prop. destruct (Nat.eqb_spec (length vs) 0) as [He|_].
  { by rewrite bool_decide_eq_true_2 in Hvs. }
  rewrite IH by done. unfold extend_axis. induction cs as [|c cs IHc]; [done|]. simpl.
  rewrite flat_map_app, IHc. f_equal. clear. induction vs as [|v vs IHvs]; [done|]. simpl. by rewrite <-IHvs.
Qed.

Lemma product_loop_nil (todo : imap (list (value num))) : product_loop todo [] = [].
Proof. induction todo as [|[axis vs] todo IH]; [done|]. simpl. by case_match. Qed.

(** The reference expansion through the rows of the product. *)
Lemma expand_matrix_spec_rows spec :
  expand_matrix_spec spec =
  let '(matched, expanded) :=
    merge_rows spec (kept spec (product_rows spec)) (replicate (length (include spec)) false) [] in
  append_unmatched (include spec) matched expanded.
Proof.
  unfold expand_matrix_spec, product_rows. cbv zeta. rewrite retain_excludes_filter.
  destruct (all_axes_filled spec) eqn:Hfill; [|by rewrite product_loop_nil].
  rewrite product_loop_rows by by apply andb_prop in Hfill as [_ ?]. simpl. by rewrite app_nil_r.
Qed.

(** The bounded expansion is the reference expansion behind its two limits. *)
Lemma expand_matrix_spec_bounded_exact spec :
  NoDup (axes spec).*1 →
  expand_matrix_spec_bounded spec =
  if (MAX_MATRIX_EXPANSION_WORK <? expansion_work spec)%N then Err tt
  else if MAX_MATRIX_COMBINATIONS <? length (expand_matrix_spec spec) then Err tt
  else Ok (expand_matrix_spec spec).
Proof.
  intros Hnd. rewrite expand_matrix_spec_rows. unfold expand_matrix_spec_bounded, expansion_work.
  set (st := mkExp (replicate (length (include spec)) false) 0 []).
  assert (state_ok spec st) as Hok.
  { repeat split; simpl; [unfold MAX_MATRIX_EXPANSION_WORK; lia|by rewrite length_replicate|lia]. }
  assert ((if all_axes_filled spec
           then '(_, st) ← expand_axis_rows spec (axes spec) [] st; Ok st else Ok st) =
          run_rows spec (product_rows spec) st) as ->.
  { unfold product_rows. destruct (all_axes_filled spec); [|done].
    rewrite expand_axis_rows_spec by done. by destruct (run_rows _ _ _). }
  rewrite run_rows_spec by done. simpl. rewrite N.add_0_l.
  destruct (MAX_MATRIX_EXPANSION_WORK <? rows_cost spec (product_rows spec))%N; [done|].
  pose proof (merge_rows_length spec (kept spec (product_rows spec))
    (replicate (length (include spec)) false) []) as [Hl _].
  destruct (merge_rows _ _ _ _) as [m ex]. simpl in Hl |- *.
  destruct (Nat.ltb_spec MAX_MATRIX_COMBINATIONS (length (kept spec (product_rows spec)))) as [Hlt|Hge].
  - pose proof (append_unmatched_length (include spec) m ex).
    by cmp_true.
  - simpl. rewrite push_unmatched_spec by lia. done.
Qed.

End equivalence.

(** ** What the reference expansion produces *)
Section declarative.
Context {num : Type} `{NumberOps num}.
Implicit Types (spec : MatrixSpec num) (r : imap (value num)).

(** The rows of the product that no exclude drops. *)
Definition survivors spec : list (imap (value num)) := kept spec (product_rows spec).

(** The non-axis keys of the includes that match [r]. *)
Definition extras_of spec r : imap (value num) :=
  foldl (λ extras included, add_extras spec included extras) []
    (filter (λ i, include_matches spec r i) (include spec)).

Definition unmatched spec (rows : list (imap (value num))) (i : imap (value num)) : bool :=
  forallb (λ r, negb (include_matches spec r i)) rows.

Lemma merge_includes_spec spec r includes matched extras :
  length matched = length includes →
  merge_includes spec r includes matched extras =
  (zip_with (λ i m, include_matches spec r i || m) includes matched,
   foldl (λ extras included, add_extras spec included extras) extras
     (filter (λ i, include_matches spec r i) includes)).
Proof.
  revert matched extras. induction includes as [|i includes IH]; intros [|m matched] extras Hlen;
    try done. cbn [merge_includes zip_with]. rewrite filter_cons.
  destruct (include_matches spec r i) eqn:Hm.
  - rewrite IH by (simpl in Hlen; lia). rewrite decide_True by done. done.
  - rewrite IH by (simpl in Hlen; lia). by rewrite decide_False by by intros [].
Qed.

Lemma merge_rows_spec spec rows matched expanded :
  length matched = length (include spec) →
  merge_rows spec rows matched expanded =
  (zip_with (λ i m, existsb (λ r, include_matches spec r i) rows || m) (include spec) matched,
   expanded ++ ((λ r, mkRow (imap_extend r (extras_of spec r)) false) <$> rows)).
Proof.
  revert matched expanded. induction rows as [|r rows IH]; intros matched expanded Hlen; cbn [merge_rows].
  { rewrite app_nil_r. f_equal. clear -Hlen. revert matched Hlen.
    induction (include spec) as [|i l IHl]; intros [|m matched] Hlen; try done.
    simpl. f_equal. apply IHl. simpl in Hlen. lia. }
  rewrite merge_includes_spec by done. fold (extras_of spec r).
  rewrite IH by (rewrite length_zip_with; lia). f_equal.
  - clear -Hlen. revert matched Hlen. induction (include spec) as [|i l IHl]; intros [|m matched] Hlen; try done.
    cbn [zip_with existsb]. f_equal; [by destruct (include_matches spec r i), (existsb _ rows)|].
    apply IHl. simpl in Hlen. lia.
  - by rewrite <-(assoc_L (++)).
Qed.

Lemma append_unmatched_spec (p : imap (value num) → bool) includes (expanded : list (MatrixCombination num)) :
  append_unmatched includes (zip_with (λ i m, p i || m) includes (replicate (length includes) false)) expanded =
  expanded ++ ((λ i, mkRow i true) <$> filter (λ i, negb (p i)) includes).
Proof.
  revert expanded. induction includes as [|i includes IH]; intros expanded.
  { cbn. by rewrite app_nil_r. }
  cbn [length replicate zip_with append_unmatched]. rewrite filter_cons, orb_false_r, IH.
  destruct (p i); [by rewrite decide_False by by intros []|]. rewrite decide_True by done.
  by rewrite fmap_cons, <-(assoc_L (++)).
Qed.

(** C21: the documented order of matrix expansion.  The rows are the
    surviving rows of the product in declaration order, each one extended with
    the non-axis keys of every include that agrees with the original row, and
    then the includes that agree with no surviving row, in their own order. *)
Theorem expand_matrix_spec_declarative spec :
  expand_matrix_spec spec =
  ((λ r, mkRow (imap_extend r (extras_of spec r)) false) <$> survivors spec) ++
  ((λ i, mkRow i true) <$> filter (λ i, unmatched spec (survivors spec) i) (include spec)).
Proof.
  rewrite expand_matrix_spec_rows. fold (survivors spec).
  rewrite merge_rows_spec by apply length_replicate. cbv beta iota.
  rewrite (append_unmatched_spec (λ i, existsb (λ r, include_matches spec r i) (survivors spec))). f_equal.
  f_equal. apply list_filter_iff. intros i. unfold unmatched.
  assert (negb (existsb (λ r, include_matches spec r i) (survivors spec)) =
          forallb (λ r, negb (include_matches spec r i)) (survivors spec)) as ->; [|done].
  induction (survivors spec) as [|r l IHl]; [done|]. simpl. by rewrite negb_orb, IHl.
Qed.

(** The rows of the product choose one value per axis. *)
Lemma elem_of_rows_from todo current r :
  NoDup (current.*1 ++ todo.*1) →
  r ∈ rows_from todo current ↔
  ∃ chosen, r = current ++ chosen ∧
    Forall2 (λ (kv : string * value num) (ax : string * list (value num)), kv.1 = ax.1 ∧ kv.2 ∈ ax.2)
      chosen todo.
Proof.
  revert current. induction todo as [|[axis vs] todo IH]; intros current Hnd; cbn [rows_from].
  { rewrite list_elem_of_singleton. split.
    - intros ->. exists []. by rewrite app_nil_r.
    - intros (? & -> & ->%Forall2_nil_inv_r). by rewrite app_nil_r. }
  assert (axis ∉ current.*1) as Hfresh.
  { intros Hin. apply NoDup_app in Hnd as (_ & Hd & _). apply (Hd axis Hin). by left. }
  rewrite list_elem_of_In, in_flat_map. setoid_rewrite <-list_elem_of_In. split.
  - intros (v & Hv & Hr). apply IH in Hr as (chosen & -> & Hch).
    + exists ((axis, v) :: chosen). rewrite imap_insert_fresh, <-(assoc_L (++)) by done.
      split; [done|]. by constructor.
    + rewrite imap_insert_fresh, fmap_app by done. simpl. by rewrite <-(assoc_L (++)).
  - intros (chosen & -> & Hch). apply Forall2_cons_inv_r in Hch as ([k v] & chosen' & [Hk Hv] & Hch & ->).
    simpl in Hk, Hv. subst k. exists v. split; [done|]. apply IH.
    + rewrite imap_insert_fresh, fmap_app by done. simpl. by rewrite <-(assoc_L (++)).
    + exists chosen'. rewrite imap_insert_fresh, <-(assoc_L (++)) by done. done.
Qed.

Lemma rows_from_length todo r :
  length (rows_from todo r) = foldr (λ (ax : string * list (value num)) n, length ax.2 * n) 1 todo.
Proof.
  revert r. induction todo as [|[axis vs] todo IH]; intros r; [done|]. cbn [rows_from foldr snd].
  induction vs as [|v vs IHvs]; [done|]. cbn [flat_map length]. rewrite length_app, IH, IHvs. lia.
Qed.

Lemma count_loop_spec todo count :
  forallb (λ '(_, vs), negb (bool_decide (length vs = 0))) todo = true →
  (count <= usize_max)%N →
  count_loop (num:=num) todo count =
  N.min usize_max (count * N.of_nat (foldr (λ (ax : string * list (value num)) n, length ax.2 * n) 1 todo)).
Proof.
  revert count. induction todo as [|[axis vs] todo IH]; intros count; cbn [count_loop foldr forallb snd].
  { intros _ Hc. rewrite N.mul_1_r. by rewrite N.min_r. }
  intros [Hvs Htodo]%andb_prop Hc. destruct (Nat.eqb_spec (length vs) 0) as [He|Hne].
  { by rewrite bool_decide_eq_true_2 in Hvs. }
  rewrite IH by (done || lia). set (rest := foldr _ 1 todo).
  assert (0 < rest) as Hrest.
  { unfold rest. clear -Htodo. induction todo as [|[axis vs] todo IH]; simpl in *; [lia|].
    apply andb_prop in Htodo as [Hvs Htodo]. apply IH in Htodo.
    destruct vs; [done|]. simpl. lia. }
  rewrite Nat2N.inj_mul, N.mul_assoc.
  destruct (N.le_gt_cases (count * N.of_nat (length vs)) usize_max) as [Hle|Hgt].
  - by rewrite (N.min_r _ (count * _)).
  - rewrite (N.min_l usize_max (count * _)) by lia. rewrite !N.min_l; [done|nia|nia].
Qed.

(** The product has one row per choice of a value for every axis, in
    declaration order, and [cartesian_count] is their number, saturated at the
    largest [usize]. *)
Theorem product_rows_spec spec :
  NoDup (axes spec).*1 →
  (∀ r, r ∈ product_rows spec ↔ axes spec ≠ [] ∧
    Forall2 (λ (kv : string * value num) (ax : string * list (value num)), kv.1 = ax.1 ∧ kv.2 ∈ ax.2)
      r (axes spec)) ∧
  cartesian_count spec = N.min usize_max (N.of_nat (length (product_rows spec))).
Proof.
  intros Hnd. unfold product_rows, cartesian_count, all_axes_filled.
  destruct (forallb (λ '(_, vs), negb (bool_decide (length vs = 0))) (axes spec)) eqn:Hfill.
  - rewrite andb_true_r. destruct (axes spec) as [|ax l] eqn:Hax.
    { rewrite bool_decide_eq_true_2 by done. cbn. split; [|done].
      intros r. split; [by intros ?%elem_of_nil|by intros []]. }
    rewrite bool_decide_eq_false_2 by done. cbn [negb]. split.
    + intros r. rewrite elem_of_rows_from by done. split; [intros (c & -> & ?); by split|].
      intros [_ ?]. by exists r.
    + change (length (ax :: l) =? 0) with false. cbv iota.
      rewrite count_loop_spec by (done || (unfold usize_max; lia)).
      by rewrite rows_from_length, N.mul_1_l.
  - rewrite andb_false_r. split.
    + intros r. split; [by intros ?%elem_of_nil|]. intros [_ Hr]. exfalso.
      apply not_true_iff_false in Hfill. apply Hfill, forallb_forall.
      intros [axis vs] Hin%list_elem_of_In. apply list_elem_of_lookup in Hin as [i Hi].
      destruct (Forall2_lookup_r _ _ _ _ _ Hr Hi) as (kv & _ & _ & Hv). simpl in Hv.
      destruct vs; [by apply elem_of_nil in Hv|done].
    + destruct (length (axes spec) =? 0); [done|]. cbn [length].
      assert (∀ todo c, forallb (λ '(_, vs), negb (bool_decide (length vs = 0))) todo = false →
        count_loop (num:=num) todo c = 0%N) as Hzero; [|by rewrite Hzero].
      clear. induction todo as [|[axis vs] todo IH]; intros c; [done|]. cbn [forallb count_loop].
      destruct (Nat.eqb_spec (length vs) 0); [done|].
      rewrite bool_decide_eq_false_2 by done. cbn [negb andb]. apply IH.
Qed.

Lemma no_axes_rows spec :
  axes spec = [] → expand_matrix_spec spec = (λ i, mkRow i true) <$> include spec.
Proof.
  intros Hax. rewrite expand_matrix_spec_rows. unfold product_rows, all_axes_filled.
  rewrite Hax, bool_decide_eq_true_2 by done. cbn [negb andb kept filter list_filter merge_rows].
  pose proof (append_unmatched_spec (λ _, false) (include spec) []) as Happ.
  assert (zip_with (λ (i : imap (value num)) m, false || m) (include spec)
    (replicate (length (include spec)) false) = replicate (length (include spec)) false) as Hz.
  { clear. induction (include spec) as [|i l IH]; [done|]. simpl. by f_equal. }
  cbv beta in Happ. rewrite Hz in Happ. unfold kept. cbn. rewrite Happ. simpl. f_equal.
  clear. induction (include spec) as [|i l IH]; [done|]. rewrite filter_cons, decide_True by done. by f_equal.
Qed.

(** C19: the bounded expansion the server runs is the reference expansion
    behind its limits, for a matrix whose axes have distinct names, as a map's
    keys are.  When it succeeds it returns the reference rows, and no limit is
    passed; it refuses a matrix exactly when the reference expansion has more
    than 256 rows, there are more than 1024 axes, or the work, for each row
    of the product of the axes one step, one per exclude entry up to the first
    that matches, and one per include entry if none does, is more than a
    million; the error names the job and the limit of 256. *)
Theorem try_expand_matrix_spec_exact (job_id : string) spec :
  NoDup (axes spec).*1 →
  let too_large :=
    MAX_MATRIX_COMBINATIONS < length (expand_matrix_spec spec) ∨
    MAX_MATRIX_AXES < length (axes spec) ∨ (MAX_MATRIX_EXPANSION_WORK < expansion_work spec)%N in
  match try_expand_matrix_spec job_id spec with
  | Ok rows => rows = expand_matrix_spec spec ∧ ¬ too_large
  | Err e => e = MatrixTooLarge job_id MAX_MATRIX_COMBINATIONS ∧ too_large
  end.
Proof.
  intros Hnd. unfold try_expand_matrix_spec. rewrite expand_matrix_spec_bounded_exact by done. cbv zeta.
  destruct ((length (axes spec) =? 0) && (MAX_MATRIX_COMBINATIONS <? length (include spec))) eqn:Hinc.
  { split; [done|]. apply andb_prop in Hinc as [Hax Hlen]. left. rewrite no_axes_rows, length_fmap; [lia|].
    apply length_zero_iff_nil. lia. }
  clear Hinc. destruct (Nat.ltb_spec MAX_MATRIX_AXES (length (axes spec))); [split; [done|tauto]|].
  destruct (N.ltb_spec MAX_MATRIX_EXPANSION_WORK (expansion_work spec)); [split; [done|tauto]|].
  destruct (Nat.ltb_spec MAX_MATRIX_COMBINATIONS (length (expand_matrix_spec spec))); [split; [done|tauto]|].
  split; [done|]. intros [?|[?|?]]; lia.
Qed.

End declarative.

(** ** Display names *)

Lemma utf16_len_app a b : utf16_len (a ++ b) = utf16_len a + utf16_len b.
Proof. apply sum_list_with_app. Qed.

Lemma keep_prefix_spec units cs :
  units <= MAX_DISPLAY_NAME_LEN - 3 →
  ∃ rest, cs = keep_prefix units cs ++ rest ∧
    units + utf16_len (keep_prefix units cs) <= MAX_DISPLAY_NAME_LEN - 3 ∧
    match rest with
    | [] => True
    | c :: _ => MAX_DISPLAY_NAME_LEN - 3 < units + utf16_len (keep_prefix units cs) + len_utf16 c
    end.
Proof.
  revert units. induction cs as [|c cs IH]; intros units Hu; cbn [keep_prefix].
  { exists []. split_and!; [done|change (utf16_len []) with 0; lia|done]. }
  destruct (Nat.ltb_spec (MAX_DISPLAY_NAME_LEN - 3) (units + len_utf16 c)) as [Hlt|Hge].
  - exists (c :: cs). split_and!; [done|change (utf16_len []) with 0; lia|]. change (utf16_len []) with 0. lia.
  - destruct (IH (units + len_utf16 c) Hge) as (rest & Hcs & Hlen & Hrest). exists rest.
    cbn [utf16_len sum_list_with]. fold (utf16_len (keep_prefix (units + len_utf16 c) cs)).
    split_and!; [by rewrite Hcs at 1|lia|]. destruct rest; [done|lia].
Qed.

(** The cap on display names.  A name of at most 100 UTF-16 units is
    shown as it is; a longer one as its longest prefix of whole characters
    within 97 units followed by three dots, so at most 100 units. *)
Theorem display_job_name_capped {num} `{NumberOps num} base (matrix : imap (value num)) :
  utf8_ok (full_display_name base matrix) →
  let name := chars (full_display_name base matrix) in
  let shown := chars (display_job_name base matrix) in
  utf16_len shown <= 100 ∧
  (utf16_len name <= 100 → display_job_name base matrix = full_display_name base matrix) ∧
  (100 < utf16_len name → ∃ kept c rest, name = kept ++ c :: rest ∧ shown = kept ++ chars "..." ∧
     utf16_len kept <= 97 < utf16_len (kept ++ [c])).
Proof.
  intros (cs & Hcs & Hname). unfold display_job_name, truncate_display_name. rewrite Hname.
  cbv zeta. rewrite (chars_of_chars cs Hcs).
  change MAX_DISPLAY_NAME_LEN with 100. destruct (Nat.leb_spec (utf16_len cs) 100) as [Hle|Hgt].
  { rewrite (chars_of_chars cs Hcs). split_and!; [done|done|lia]. }
  destruct (keep_prefix_spec 0 cs) as (rest & Hsplit & Hlen & Hrest); [lia|].
  set (kept := keep_prefix 0 cs) in *. change (MAX_DISPLAY_NAME_LEN - 3) with 97 in *. simpl in Hlen, Hrest.
  assert (chars (of_chars kept +:+ "...") = kept ++ chars "...") as Hshown.
  { change "..." with (of_chars (chars "...")) at 1. rewrite <-of_chars_app. apply chars_of_chars.
    apply Forall_app. rewrite Hsplit in Hcs. apply Forall_app in Hcs as [? _]. split; [done|].
    change (chars "...") with [46; 46; 46]%N. by rewrite !Forall_cons. }
  rewrite Hshown. split_and!; [|lia|].
  - rewrite utf16_len_app. change (utf16_len (chars "...")) with 3. lia.
  - intros _. destruct rest as [|c rest].
    { rewrite app_nil_r in Hsplit. rewrite Hsplit in Hgt. lia. }
    exists kept, c, rest. split_and!; [done|done|done|]. rewrite utf16_len_app.
    change (utf16_len [c]) with (len_utf16 c + 0). lia.
Qed.

(** A job name of 101 letters. *)
Lemma display_job_name_capped_witness :
  let name := of_chars (replicate 101 (ch "a")) in
  utf16_len (chars (display_job_name (num:=Z) name [])) <= 100.
Proof.
  apply (display_job_name_capped (num:=Z) (of_chars (replicate 101 (ch "a"))) []).
  exists (replicate 101 (ch "a")). split; [|reflexivity].
  apply Forall_replicate. reflexivity.
Defined.

(** ** The two sources of a specification *)
Section sources.
Context {num : Type}.

Lemma matrix_entries_app job_id field (xs ys : list (value num)) :
  matrix_entries job_id field (xs ++ ys) =
  (xs ← matrix_entries job_id field xs; ys ← matrix_entries job_id field ys; Ok (xs ++ ys)).
Proof.
  induction xs as [|x xs IH]; simpl; [by destruct (matrix_entries job_id field ys)|].
  destruct (matrix_entry job_id field x); simpl; [|done]. rewrite IH.
  destruct (matrix_entries job_id field xs); simpl; [|done].
  by destruct (matrix_entries job_id field ys).
Qed.

Lemma spec_members_axes job_id (members tail : imap (value num)) spec :
  "include" ∉ members.*1 → "exclude" ∉ members.*1 →
  spec_members job_id (members ++ tail) spec =
  spec_members job_id tail
    (mkSpec (foldl (λ axes '(axis, v), imap_insert axis (axis_values v) axes) (axes spec) members)
       (exclude spec) (include spec)).
Proof.
  revert spec. induction members as [|[k v] members IH]; intros spec Hi He; [by destruct spec|].
  apply not_elem_of_cons in Hi as [Hi Hi'], He as [He He']. simpl in Hi, He.
  cbn [app spec_members]. unfold str_eqb. rewrite !bool_decide_eq_false_2 by done. simpl.
  by rewrite IH.
Qed.
End sources.

(** A matrix written in YAML and the same mapping computed at run time
    by an expression give the same specification, or the same error. *)
Theorem value_to_matrix_spec_static {num} (job_id : string) (matrix : Matrix num) :
  "include" ∉ (matrix_axes matrix).*1 → "exclude" ∉ (matrix_axes matrix).*1 →
  value_to_matrix_spec job_id
    (JObject (matrix_axes matrix ++ [("exclude", JArray (matrix_exclude matrix));
                                     ("include", JArray (matrix_include matrix))])) =
  matrix_to_spec job_id matrix.
Proof.
  intros Hi He. unfold value_to_matrix_spec, matrix_to_spec. rewrite spec_members_axes by done.
  cbn. destruct (matrix_entries job_id "exclude" (matrix_exclude matrix)); simpl; [|done].
  by destruct (matrix_entries job_id "include" (matrix_include matrix)).
Qed.

Lemma value_to_matrix_spec_static_witness :
  value_to_matrix_spec "build" (JObject [("os", JString "linux");
    ("exclude", JArray []); ("include", JArray [JObject [("os", JNumber 3%Z)]])]) =
  matrix_to_spec "build" (mkMatrix [JObject [("os", JNumber 3%Z)]] [] [("os", JString "linux")]).
Proof.
  apply (value_to_matrix_spec_static "build"
    (mkMatrix [JObject [("os", JNumber 3%Z)]] [] [("os", JString "linux")]));
    refine (bool_decide_eq_true_1 _ _); vm_compute; reflexivity.
Defined.

(** ** Concrete matrices *)

Definition sample_spec : MatrixSpec Z :=
  mkSpec [("os", [JString "linux"; JString "mac"]); ("node", [JNumber 18%Z; JNumber 20%Z])]
    [[("os", JString "mac"); ("node", JNumber 18%Z)]]
    [[("os", JString "linux"); ("fast", JBool true)]; [("os", JString "win")]].

Example sample_expansion :
  values <$> expand_matrix_spec sample_spec =
  [[("os", JString "linux"); ("node", JNumber 18%Z); ("fast", JBool true)];
   [("os", JString "linux"); ("node", JNumber 20%Z); ("fast", JBool true)];
   [("os", JString "mac"); ("node", JNumber 20%Z)];
   [("os", JString "win")]].
Proof. vm_compute. reflexivity. Qed.

Lemma product_rows_spec_witness :
  cartesian_count sample_spec = N.min usize_max (N.of_nat (length (product_rows sample_spec))).
Proof.
  apply (product_rows_spec sample_spec). refine (bool_decide_eq_true_1 _ _). vm_compute. reflexivity.
Defined.

Lemma try_expand_matrix_spec_exact_witness :
  match try_expand_matrix_spec "build" sample_spec with
  | Ok rows => rows = expand_matrix_spec sample_spec
  | Err _ => False
  end.
Proof.
  assert (NoDup (axes sample_spec).*1) as Hnd
    by (refine (bool_decide_eq_true_1 _ _); vm_compute; reflexivity).
  pose proof (try_expand_matrix_spec_exact "build" sample_spec Hnd) as Hexp. revert Hexp. cbv zeta.
  destruct (try_expand_matrix_spec "build" sample_spec) as [rows|e]; [by intros [-> _]|].
  intros [_ [Hl|[Hl|Hl]]]; vm_compute in Hl; [lia..|discriminate].
Defined.

(** Two cells of one matrix can get the same job id: the values are joined
    without quoting. *)
Example expanded_job_id_collision :
  expanded_job_id "build" [("a", JString "x, y"); ("b", JString "z")] =
  expanded_job_id (num:=Z) "build" [("a", JString "x"); ("b", JString "y, z")].
Proof. vm_compute. reflexivity. Qed.
