(* ===== verification/Glob.v ===== *)
(** * Glob patterns of trigger filters

    [glob_match], [match_wildcards] and [add_state] of
    [crates/preloop-gha-parser/src/trigger.rs]: a Thompson automaton whose
    live positions advance one character at a time, against an inductive
    definition of what a pattern matches. *)
From S2P Require Export Prelude.

(** [Token] of [trigger.rs]. *)
Inductive GlobToken : Type :=
| GLiteral (c : char)
| GAnyChar
| GStar
| GDoubleStar.

Definition is_star (t : option GlobToken) : bool :=
  match t with Some GStar | Some GDoubleStar => true | _ => false end.

(** Stars pair from the left. *)
Fixpoint tokenize (pattern : list char) : list GlobToken :=
  match pattern with
  | [] => []
  | c :: r =>
      if (c =? ch "*")%N then
        match r with
        | d :: r' => if (d =? ch "*")%N then GDoubleStar :: tokenize r' else GStar :: tokenize r
        | [] => [GStar]
        end
      else if (c =? ch "?")%N then GAnyChar :: tokenize r
      else GLiteral c :: tokenize r
  end.

Section automaton.
Variable tokens : list GlobToken.

(** [seen[state] = generation] marks a state of the set being built; the walk
    passes each index at most once, so it takes at most one step per index. *)
Fixpoint add_state_loop (fuel : nat) (index generation : nat) (seen set : list nat) :
    list nat * list nat :=
  match fuel with
  | O => (seen, set)
  | S fuel =>
      if decide (seen !! index = Some generation) then (seen, set)
      else
        let seen := <[index := generation]> seen in
        let set := set ++ [index] in
        if is_star (tokens !! index) then add_state_loop fuel (S index) generation seen set
        else (seen, set)
  end.

Definition add_state (state generation : nat) (seen set : list nat) : list nat * list nat :=
  add_state_loop (S (length tokens)) state generation seen set.

(** The state one character leads to. *)
Definition step_target (c : char) (state : nat) : option nat :=
  match tokens !! state with
  | Some (GLiteral expected) => if (expected =? c)%N then Some (S state) else None
  | Some GAnyChar => if (c =? ch "/")%N then None else Some (S state)
  | Some GStar => if (c =? ch "/")%N then None else Some state
  | Some GDoubleStar => Some state
  | None => None
  end.

Fixpoint step_states (c : char) (generation : nat) (active : list nat) (seen next : list nat) :
    list nat * list nat :=
  match active with
  | [] => (seen, next)
  | state :: active =>
      match step_target c state with
      | Some target =>
          let '(seen, next) := add_state target generation seen next in
          step_states c generation active seen next
      | None => step_states c generation active seen next
      end
  end.

Fixpoint run_chars (generation : nat) (seen active : list nat) (value : list char) : bool :=
  match value with
  | [] => bool_decide (length tokens ∈ active)
  | c :: value =>
      let generation := S generation in
      let '(seen, next) := step_states c generation active seen [] in
      match next with
      | [] => false
      | _ => run_chars generation seen next value
      end
  end.

End automaton.

Definition match_wildcards (pattern value : list char) : bool :=
  let tokens := tokenize pattern in
  let seen := replicate (S (length tokens)) 0 in
  let '(seen, active) := add_state tokens 0 1 seen [] in
  run_chars tokens 1 seen active value.

Definition is_wildcard (c : char) : bool := ((c =? ch "*") || (c =? ch "?"))%N.

(** The literal text before the first wildcard, and the rest. *)
Fixpoint split_wildcard (pattern : list char) : list char * list char :=
  match pattern with
  | [] => ([], [])
  | c :: r =>
      if is_wildcard c then ([], pattern)
      else let '(lit, rest) := split_wildcard r in (c :: lit, rest)
  end.

Fixpoint strip_chars (prefix cs : list char) : option (list char) :=
  match prefix, cs with
  | [], _ => Some cs
  | p :: prefix, c :: cs => if (p =? c)%N then strip_chars prefix cs else None
  | _ :: _, [] => None
  end.

Definition glob_match_chars (pattern value : list char) : bool :=
  let '(lit, wild) := split_wildcard pattern in
  match strip_chars lit value with
  | None => false
  | Some rest =>
      match wild with
      | [] => bool_decide (rest = [])
      | _ => match_wildcards wild rest
      end
  end.

Definition glob_match (pattern value : string) : bool :=
  glob_match_chars (chars pattern) (chars value).

(** ** What a pattern matches *)

Inductive globs : list GlobToken → list char → Prop :=
| globs_nil : globs [] []
| globs_literal c ts v : globs ts v → globs (GLiteral c :: ts) (c :: v)
| globs_any c ts v : c ≠ ch "/" → globs ts v → globs (GAnyChar :: ts) (c :: v)
| globs_star_end ts v : globs ts v → globs (GStar :: ts) v
| globs_star c ts v : c ≠ ch "/" → globs (GStar :: ts) v → globs (GStar :: ts) (c :: v)
| globs_double_end ts v : globs ts v → globs (GDoubleStar :: ts) v
| globs_double c ts v : globs (GDoubleStar :: ts) v → globs (GDoubleStar :: ts) (c :: v).

(** ** The automaton *)
Section correctness.
Variable tokens : list GlobToken.

(** The states reachable from [i] without a character. *)
Inductive reach : nat → nat → Prop :=
| reach_here i : reach i i
| reach_star i j : is_star (tokens !! i) = true → reach (S i) j → reach i j.

(** [set] is what [seen] records for this generation. *)
Record marked (generation : nat) (seen set : list nat) : Prop := {
  marked_length : length seen = S (length tokens);
  marked_set : ∀ i, seen !! i = Some generation ↔ i ∈ set;
  marked_range : ∀ i, i ∈ set → i <= length tokens;
  marked_old : ∀ i g, seen !! i = Some g → g <= generation;
}.

Definition closed (set : list nat) : Prop :=
  ∀ k, k ∈ set → is_star (tokens !! k) = true → S k ∈ set.

Lemma closed_reach set i j : closed set → i ∈ set → reach i j → j ∈ set.
Proof. intros Hcl Hi Hr. induction Hr as [|i j Hs _ IH]; [done|]. apply IH. by apply Hcl. Qed.

Lemma is_star_lt i : is_star (tokens !! i) = true → i < length tokens.
Proof. intros Hs. apply lookup_lt_is_Some. destruct (tokens !! i); [by eexists|done]. Qed.

Lemma marked_push generation seen set i :
  marked generation seen set → i <= length tokens → seen !! i ≠ Some generation →
  marked generation (<[i := generation]> seen) (set ++ [i]).
Proof.
  intros [Hlen Hset Hrange Hold] Hi Hnew. split.
  - by rewrite length_insert.
  - intros j. rewrite elem_of_app, list_elem_of_singleton, <-Hset.
    destruct (decide (i = j)) as [->|Hne].
    + rewrite list_lookup_insert_eq by lia. tauto.
    + rewrite list_lookup_insert_ne by done. split; [by left|]. by intros [?|?].
  - intros j [?| ->%list_elem_of_singleton]%elem_of_app; auto.
  - intros j g Hj. apply list_lookup_insert_Some in Hj as [(-> & -> & _)|[_ Hj]]; [lia|by eapply Hold].
Qed.

Lemma add_state_loop_spec fuel i generation seen set :
  marked generation seen set → i <= length tokens → S (length tokens) - i <= fuel →
  (∀ k, k ∈ set → is_star (tokens !! k) = true → S k ∈ set ∨ S k = i) →
  let r := add_state_loop tokens fuel i generation seen set in
  marked generation r.1 r.2 ∧ closed r.2 ∧ ∀ j, j ∈ r.2 ↔ j ∈ set ∨ reach i j.
Proof.
  revert i seen set. induction fuel as [|fuel IH]; intros i seen set Hm Hi Hfuel Hpend; [lia|].
  cbn [add_state_loop]. case_decide as Hseen.
  - apply (marked_set _ _ _ Hm) in Hseen.
    assert (closed set) as Hcl by (intros k Hk Hs; destruct (Hpend k Hk Hs) as [?| ->]; done).
    simpl. split_and!; [done..|]. intros j. split; [by left|]. intros [?|Hr]; [done|].
    by eapply closed_reach.
  - pose proof (marked_push _ _ _ _ Hm Hi Hseen) as Hm'.
    destruct (is_star (tokens !! i)) eqn:Hs.
    + pose proof (is_star_lt i Hs). destruct (IH (S i) _ _ Hm') as (Hr1 & Hr2 & Hr3); [lia..| |].
      { intros k [Hk| ->%list_elem_of_singleton]%elem_of_app Hk'; [|by right].
        left. rewrite elem_of_app, list_elem_of_singleton. by apply Hpend. }
      split_and!; [done..|]. intros j. rewrite Hr3, elem_of_app, list_elem_of_singleton. split.
      * intros [[?| ->]|?]; [by left|right; constructor|right; by constructor 2].
      * intros [?|Hr]; [tauto|]. inversion Hr; subst; tauto.
    + simpl. split_and!; [done| |].
      * intros k [Hk| ->%list_elem_of_singleton]%elem_of_app Hk'; [|congruence].
        rewrite elem_of_app, list_elem_of_singleton. by apply Hpend.
      * intros j. rewrite elem_of_app, list_elem_of_singleton. split.
        -- intros [?| ->]; [by left|right; constructor].
        -- intros [?|Hr]; [by left|]. inversion Hr; subst; [by right|congruence].
Qed.

Lemma add_state_spec i generation seen set :
  marked generation seen set → closed set → i <= length tokens →
  let r := add_state tokens i generation seen set in
  marked generation r.1 r.2 ∧ closed r.2 ∧ ∀ j, j ∈ r.2 ↔ j ∈ set ∨ reach i j.
Proof.
  intros Hm Hcl Hi. apply add_state_loop_spec; [done|done|lia|].
  intros k Hk Hs. left. by apply Hcl.
Qed.

Lemma step_target_range c i j : step_target tokens c i = Some j → j <= length tokens.
Proof.
  unfold step_target. intros Hj. destruct (tokens !! i) as [t|] eqn:Ht; [|done].
  apply lookup_lt_Some in Ht. destruct t; repeat case_match; simplify_eq; lia.
Qed.

Lemma step_states_spec c generation active seen next :
  marked generation seen next → closed next →
  let r := step_states tokens c generation active seen next in
  marked generation r.1 r.2 ∧ closed r.2 ∧
  ∀ j, j ∈ r.2 ↔ j ∈ next ∨ ∃ i t, i ∈ active ∧ step_target tokens c i = Some t ∧ reach t j.
Proof.
  revert seen next. induction active as [|i active IH]; intros seen next Hm Hcl; cbn [step_states].
  { simpl. split_and!; [done..|]. intros j. split; [by left|].
    intros [?|(? & ? & ?%elem_of_nil & _)]; done. }
  destruct (step_target tokens c i) as [t|] eqn:Ht.
  - destruct (add_state_spec t generation seen next Hm Hcl) as (Hm' & Hcl' & Hin);
      [by eapply step_target_range|].
    destruct (add_state tokens t generation seen next) as [seen' next']. simpl in *.
    destruct (IH seen' next' Hm' Hcl') as (H1' & H2' & H3'). split_and!; [done..|].
    intros j. rewrite H3', Hin. split.
    + intros [[?|?]|(k & u & ? & ? & ?)]; [by left|right; exists i, t; by rewrite elem_of_cons; auto|].
      right. exists k, u. rewrite elem_of_cons. auto.
    + intros [?|(k & u & [->|?]%elem_of_cons & Hu & ?)]; [tauto| |right; by exists k, u].
      left. right. congruence.
  - destruct (IH seen next Hm Hcl) as (H1' & H2' & H3'). split_and!; [done..|].
    intros j. rewrite H3'. split.
    + intros [?|(k & u & ? & ?)]; [by left|]. right. exists k, u. rewrite elem_of_cons. auto.
    + intros [?|(k & u & [->|?]%elem_of_cons & Hu & ?)]; [by left|congruence|right; by exists k, u].
Qed.

(** *** Live states and matches *)

Lemma drop_lookup i t : tokens !! i = Some t → drop i tokens = t :: drop (S i) tokens.
Proof. intros Hi. by apply drop_S. Qed.

Lemma reach_globs i j v : reach i j → globs (drop j tokens) v → globs (drop i tokens) v.
Proof.
  intros Hr Hv. induction Hr as [|i j Hs _ IH]; [done|]. specialize (IH Hv).
  destruct (tokens !! i) as [t|] eqn:Ht; [|done]. rewrite (drop_lookup _ _ Ht).
  destruct t; try done; by constructor.
Qed.

(** Some live state matches the rest of the value. *)
Definition live (active : list nat) (v : list char) : Prop :=
  ∃ i, i ∈ active ∧ globs (drop i tokens) v.

Lemma globs_step i c v :
  globs (drop i tokens) (c :: v) →
  ∃ j t, reach i j ∧ step_target tokens c j = Some t ∧ globs (drop t tokens) v.
Proof.
  intros Hg. remember (drop i tokens) as ts eqn:Hts. remember (c :: v) as cv eqn:Hcv.
  revert i Hts. induction Hg as [|c' ts v' Hg IH|c' ts v' Hc Hg IH|ts v' Hg IH|c' ts v' Hc Hg IH
    |ts v' Hg IH|c' ts v' Hg IH]; intros i Hts; simplify_eq.
  all: assert (tokens !! i = head (drop i tokens)) as Hi
    by (rewrite head_lookup, lookup_drop; f_equal; lia).
  all: rewrite <-Hts in Hi; simpl in Hi.
  all: pose proof (drop_lookup _ _ Hi) as Hd; rewrite Hd in Hts; simplify_eq.
  - exists i, (S i). split_and!; [constructor|unfold step_target; by rewrite Hi, N.eqb_refl|done].
  - exists i, (S i). split_and!; [constructor| |done]. unfold step_target. rewrite Hi.
    by destruct (N.eqb_spec c (ch "/")).
  - destruct (IH eq_refl (S i) eq_refl) as (j & t & ? & ? & ?). exists j, t.
    split_and!; [|done..]. constructor 2; [by rewrite Hi|done].
  - exists i, i. split_and!; [constructor| |by rewrite Hd]. unfold step_target. rewrite Hi.
    by destruct (N.eqb_spec c (ch "/")).
  - destruct (IH eq_refl (S i) eq_refl) as (j & t & ? & ? & ?). exists j, t.
    split_and!; [|done..]. constructor 2; [by rewrite Hi|done].
  - exists i, i. split_and!; [constructor|unfold step_target; by rewrite Hi|by rewrite Hd].
Qed.

Lemma step_target_globs i c v t :
  step_target tokens c i = Some t → globs (drop t tokens) v → globs (drop i tokens) (c :: v).
Proof.
  unfold step_target. intros Ht Hg. destruct (tokens !! i) as [tok|] eqn:Hi; [|done].
  rewrite (drop_lookup _ _ Hi). destruct tok as [x| | |].
  - destruct (N.eqb_spec x c); simplify_eq. by constructor.
  - destruct (N.eqb_spec c (ch "/")); simplify_eq. by constructor.
  - destruct (N.eqb_spec c (ch "/")); simplify_eq. apply globs_star; [done|]. by rewrite <-(drop_lookup _ _ Hi).
  - simplify_eq. apply globs_double. by rewrite <-(drop_lookup _ _ Hi).
Qed.

Lemma live_step active next c v :
  closed active → (∀ j, j ∈ next ↔ ∃ i t, i ∈ active ∧ step_target tokens c i = Some t ∧ reach t j) →
  live active (c :: v) ↔ live next v.
Proof.
  intros Hcl Hnext. split.
  - intros (i & Hi & Hg). apply globs_step in Hg as (j & t & Hij & Ht & Hg).
    exists t. split; [|done]. apply Hnext. exists j, t.
    split_and!; [by eapply closed_reach|done|constructor].
  - intros (j & (i & t & Hi & Ht & Hr)%Hnext & Hg). exists i. split; [done|].
    eapply step_target_globs; [done|]. by eapply reach_globs.
Qed.

Lemma globs_nil_reach i : i <= length tokens → globs (drop i tokens) [] → reach i (length tokens).
Proof.
  intros Hi Hg. remember (drop i tokens) as ts eqn:Hts. remember [] as v eqn:Hv.
  revert i Hi Hts. induction Hg as [|? ? ? ? ?|? ? ? ? ? ?|ts v Hg IH|? ? ? ? ? ?|ts v Hg IH|? ? ? ? ?];
    intros i Hi Hts; simplify_eq.
  { assert (i = length tokens) as ->; [|constructor].
    apply (f_equal length) in Hts. rewrite length_drop in Hts. simpl in Hts. lia. }
  all: assert (tokens !! i = head (drop i tokens)) as Htok
    by (rewrite head_lookup, lookup_drop; f_equal; lia).
  all: rewrite <-Hts in Htok; simpl in Htok.
  all: pose proof (drop_lookup _ _ Htok) as Hd; rewrite Hd in Hts; simplify_eq.
  all: pose proof (lookup_lt_Some _ _ _ Htok).
  all: constructor 2; [by rewrite Htok|]; apply IH; [done|lia|done].
Qed.

Lemma run_chars_spec generation seen active v :
  marked generation seen active → closed active →
  run_chars tokens generation seen active v = true ↔ live active v.
Proof.
  revert generation seen active. induction v as [|c v IH]; intros generation seen active Hm Hcl;
    cbn [run_chars].
  - rewrite bool_decide_eq_true. split.
    + intros Hacc. exists (length tokens). split; [done|]. rewrite drop_all. constructor.
    + intros (i & Hi & Hg). eapply closed_reach; [done..|].
      apply globs_nil_reach; [by apply (marked_range _ _ _ Hm)|done].
  - assert (marked (S generation) seen []) as Hm0.
    { destruct Hm as [Hlen _ _ Hold]. split; [done| |by intros ? ?%elem_of_nil|].
      - intros i. rewrite elem_of_nil. split; [|done]. intros Hi. apply Hold in Hi. lia.
      - intros i g Hi. apply Hold in Hi. lia. }
    destruct (step_states_spec c (S generation) active seen [] Hm0) as (Hm' & Hcl' & Hin);
      [by intros ? ?%elem_of_nil|].
    destruct (step_states tokens c (S generation) active seen []) as [seen' next]. simpl in *.
    assert (∀ j, j ∈ next ↔ ∃ i t, i ∈ active ∧ step_target tokens c i = Some t ∧ reach t j) as Hnext.
    { intros j. rewrite Hin, elem_of_nil. tauto. }
    rewrite (live_step active next c v Hcl Hnext).
    destruct next as [|n next]; [|by apply IH]. split; [done|].
    by intros (? & ?%elem_of_nil & _).
Qed.

End correctness.

Lemma match_wildcards_spec pattern value :
  match_wildcards pattern value = true ↔ globs (tokenize pattern) value.
Proof.
  unfold match_wildcards. set (tokens := tokenize pattern).
  assert (marked tokens 1 (replicate (S (length tokens)) 0) []) as Hm0.
  { split; [by rewrite length_replicate| |by intros ? ?%elem_of_nil|].
    - intros i. rewrite elem_of_nil, lookup_replicate. by split; [intros [[=] _]|].
    - intros i g. rewrite lookup_replicate. intros [-> _]. lia. }
  destruct (add_state_spec tokens 0 1 _ [] Hm0) as (Hm & Hcl & Hin); [by intros ? ?%elem_of_nil|lia|].
  destruct (add_state tokens 0 1 (replicate (S (length tokens)) 0) []) as [seen active].
  rewrite run_chars_spec by done. simpl in Hin. split.
  - intros (i & Hi & Hg). apply Hin in Hi as [?%elem_of_nil|Hr]; [done|].
    by apply (reach_globs tokens 0 i value Hr) in Hg.
  - intros Hg. exists 0. split; [|done]. apply Hin. right. constructor.
Qed.

Lemma tokenize_literal c pattern : is_wildcard c = false → tokenize (c :: pattern) = GLiteral c :: tokenize pattern.
Proof. unfold is_wildcard. simpl. by destruct (c =? ch "*")%N, (c =? ch "?")%N. Qed.

Lemma globs_literal_inv c ts v :
  globs (GLiteral c :: ts) v ↔ ∃ v', v = c :: v' ∧ globs ts v'.
Proof.
  split; [|intros (v' & -> & ?); by constructor]. inversion 1; subst. by eexists.
Qed.

Lemma glob_match_chars_spec (pattern value : string) :
  glob_match pattern value = true ↔ globs (tokenize (chars pattern)) (chars value).
Proof.
  unfold glob_match, glob_match_chars. generalize (chars pattern) (chars value).
  clear pattern value. intros pattern. induction pattern as [|c pattern IH]; intros value; simpl.
  - rewrite bool_decide_eq_true. split; [intros ->; constructor|]. by inversion 1.
  - destruct (is_wildcard c) eqn:Hw; [apply match_wildcards_spec|].
    change (if (c =? ch "*")%N then _ else _) with (tokenize (c :: pattern)).
    rewrite tokenize_literal, globs_literal_inv by done.
    destruct (split_wildcard pattern) as [lit wild]. destruct value as [|d value]; simpl.
    { split; [done|]. by intros (? & ? & _). }
    destruct (N.eqb_spec c d) as [->|Hne].
    + rewrite IH. naive_solver.
    + split; [done|]. intros (? & ? & _). congruence.
Qed.

(** C24: the automaton matches exactly what the documented glob rules do: a
    literal matches itself, [?] one character besides the slash, [*] a run of
    characters besides the slash and [**] any run, over the whole value. *)
Theorem glob_match_spec (pattern value : string) :
  glob_match pattern value = true ↔ globs (tokenize (chars pattern)) (chars value).
Proof. apply glob_match_chars_spec. Qed.
