(* ===== verification/Trigger.v ===== *)
(** * Workflow triggers

    [crates/preloop-gha-parser/src/trigger.rs]: whether a workflow runs for an
    event, which filter rejected it, and the validation of the filter keys. *)
From S2P Require Export Models Glob.

Inductive TriggerMismatch : Type :=
| EventNotDeclared (declared : list string)
| ActivityTypeMissing (accepted : list string)
| ActivityTypeRejected (got : string) (accepted : list string)
| RefFiltered (branch tag : option string) (filters : list (string * list string))
| PathsUnmatched (changed : nat) (filters : list string)
| PathsAllIgnored (changed : nat) (filters : list string)
| UpstreamWorkflowUnmatched (filters : list string).

(** [Display] of a mismatch. *)
Definition quoted (s : string) : string := "`" +:+ s +:+ "`".

Definition ref_subject (branch tag : option string) : string :=
  match branch, tag with
  | Some branch, _ => "branch " +:+ quoted branch
  | None, Some tag => "tag " +:+ quoted tag
  | None, None => "the run's ref"
  end.

Definition filter_text (index : nat) (entry : string * list string) : string :=
  (if index =? 0 then "" else ",") +:+ " " +:+ entry.1 +:+ ": [" +:+ join ", " entry.2 +:+ "]".

Definition filters_text (filters : list (string * list string)) : string :=
  join "" (zip_with filter_text (seq 0 (length filters)) filters).

Definition mismatch_text (m : TriggerMismatch) : string :=
  match m with
  | EventNotDeclared declared =>
      if length declared =? 0 then "the workflow declares no events in `on:`"
      else "the workflow declares only: " +:+ join ", " declared
  | ActivityTypeMissing accepted =>
      "this event is filtered by activity type (" +:+ join ", " accepted +:+ ") and none was supplied"
  | ActivityTypeRejected got accepted =>
      "activity type " +:+ quoted got +:+ " is not accepted; the workflow accepts: " +:+ join ", " accepted
  | RefFiltered branch tag filters =>
      let is_branch_only := forallb (λ '(label, _), starts_with "branches" label) filters in
      let is_tag_only := forallb (λ '(label, _), starts_with "tags" label) filters in
      match branch, tag with
      | None, Some tag =>
          if is_branch_only then
            "the workflow declares only branch filters; tag " +:+ quoted tag
            +:+ " cannot match `branches`"
          else ref_subject branch (Some tag) +:+ " is excluded by" +:+ filters_text filters
      | Some branch, None =>
          if is_tag_only then
            "the workflow declares only tag filters; branch " +:+ quoted branch
            +:+ " cannot match `tags`"
          else ref_subject (Some branch) tag +:+ " is excluded by" +:+ filters_text filters
      | _, _ => ref_subject branch tag +:+ " is excluded by" +:+ filters_text filters
      end
  | PathsUnmatched changed filters =>
      "none of the " +:+ pretty changed +:+ " changed file(s) match paths: [" +:+ join ", " filters +:+ "]"
  | PathsAllIgnored changed filters =>
      "all " +:+ pretty changed +:+ " changed file(s) match paths-ignore: [" +:+ join ", " filters +:+ "]"
  | UpstreamWorkflowUnmatched filters =>
      "no upstream workflow name matches workflows: [" +:+ join ", " filters +:+ "]"
  end.

Definition normalize_activity_type (activity_type : string) : string :=
  if str_eqb activity_type "synchronized" then "synchronize" else activity_type.

Definition mem (x : string) (l : list string) : bool := bool_decide (x ∈ l).

Definition check_activity_type (activity_type : option string) (defaults : list string) :
    result TriggerMismatch unit :=
  match activity_type with
  | Some activity_type =>
      let normalized := normalize_activity_type activity_type in
      if mem normalized defaults || mem activity_type defaults then Ok tt
      else Err (ActivityTypeRejected activity_type defaults)
  | None => Err (ActivityTypeMissing defaults)
  end.

Section trigger.
Context {num : Type}.
Abbreviation json := (value num).
Abbreviation object := (list (string * json)).

Inductive Trigger : Type :=
| Single (event : string)
| Many (events : list string)
| Map (events : object).

(** ** Filters *)

Definition filter_patterns (filter : json) : list string :=
  match filter with
  | JString pattern => [pattern]
  | JArray patterns => omap as_str patterns
  | _ => []
  end.

(** The polarity of a pattern, and the pattern. *)
Definition split_negation (pattern : string) : bool * string :=
  match strip_prefix "!" pattern with
  | Some p => (true, p)
  | None => (false, pattern)
  end.

Fixpoint filter_loop (patterns : list string) (v : string) (matched : bool) : bool :=
  match patterns with
  | [] => matched
  | pattern :: patterns =>
      let '(negative, pattern) := split_negation pattern in
      filter_loop patterns v (if glob_match pattern v then negb negative else matched)
  end.

Definition matches_filter_with_default (filter : json) (v : string) (default : bool) : bool :=
  match filter with
  | JString _ | JArray _ => filter_loop (filter_patterns filter) v default
  | _ => false
  end.

Definition matches_filter (filter : json) (v : string) : bool :=
  matches_filter_with_default filter v false.

(** ** Matching *)

Definition matches (t : Trigger) (event : string) : bool :=
  match t with
  | Single v => str_eqb v event
  | Many vs => existsb (λ v, str_eqb v event) vs
  | Map m => imap_contains event m
  end.

Definition has_path_filters (t : Trigger) (event : string) : bool :=
  match t with
  | Map m =>
      match imap_get event m ≫= as_object with
      | Some config => imap_contains "paths" config || imap_contains "paths-ignore" config
      | None => false
      end
  | _ => false
  end.

Definition declared_events (t : Trigger) : list string :=
  match t with
  | Single v => [v]
  | Many vs => vs
  | Map m => m.*1
  end.

Definition PR_DEFAULT_TYPES : list string := ["opened"; "synchronize"; "reopened"].

Definition is_pull_request (event : string) : bool :=
  str_eqb event "pull_request" || str_eqb event "pull_request_target".

(** [obj.get(key).is_none_or(..)]. *)
Definition none_or {A} (o : option A) (p : A → bool) : bool :=
  match o with Some a => p a | None => true end.

Definition check_types (event : string) (obj : object) (activity_type : option string) :
    result TriggerMismatch unit :=
  match imap_get "types" obj with
  | Some types =>
      let accepted := filter_patterns types in
      match activity_type with
      | Some activity_type =>
          let normalized := normalize_activity_type activity_type in
          if negb (matches_filter types activity_type) && negb (matches_filter types normalized)
          then Err (ActivityTypeRejected activity_type accepted)
          else Ok tt
      | None => Err (ActivityTypeMissing accepted)
      end
  | None =>
      if is_pull_request event then check_activity_type activity_type PR_DEFAULT_TYPES else Ok tt
  end.

(** One ref axis: a filter key, its ignore key and the name on this axis. *)
Definition axis_present (obj : object) (key ignore_key : string) : bool :=
  imap_contains key obj || imap_contains ignore_key obj.

Definition axis_ok (obj : object) (key ignore_key : string) (name : option string) : bool :=
  axis_present obj key ignore_key &&
  match name with
  | Some name =>
      none_or (imap_get key obj) (λ filters, matches_filter filters name) &&
      none_or (imap_get ignore_key obj) (λ ignore, negb (matches_filter ignore name))
  | None => false
  end.

Definition ref_filter_keys : list string := ["branches"; "branches-ignore"; "tags"; "tags-ignore"].

(** The ref filters of the configuration, for reporting. *)
Definition ref_filters (obj : object) : list (string * list string) :=
  omap (λ key, (λ v, (key, filter_patterns v)) <$> imap_get key obj) ref_filter_keys.

Definition check_refs (obj : object) (branch tag : option string) : result TriggerMismatch unit :=
  if axis_present obj "branches" "branches-ignore" || axis_present obj "tags" "tags-ignore" then
    if negb (axis_ok obj "branches" "branches-ignore" branch) && negb (axis_ok obj "tags" "tags-ignore" tag)
    then Err (RefFiltered branch tag (ref_filters obj))
    else Ok tt
  else Ok tt.

Definition check_paths (obj : object) (paths : list string) : result TriggerMismatch unit :=
  match imap_get "paths" obj with
  | Some path_filters =>
      if (length paths =? 0) || negb (existsb (matches_filter path_filters) paths)
      then Err (PathsUnmatched (length paths) (filter_patterns path_filters))
      else Ok tt
  | None => Ok tt
  end.

Definition check_paths_ignore (obj : object) (paths : list string) : result TriggerMismatch unit :=
  match imap_get "paths-ignore" obj with
  | Some ignore =>
      if negb (length paths =? 0) && forallb (matches_filter ignore) paths
      then Err (PathsAllIgnored (length paths) (filter_patterns ignore))
      else Ok tt
  | None => Ok tt
  end.

Definition check_workflows (obj : object) (upstream : list string) : result TriggerMismatch unit :=
  match imap_get "workflows" obj with
  | Some wf_filter =>
      if (length upstream =? 0) || negb (existsb (matches_filter wf_filter) upstream)
      then Err (UpstreamWorkflowUnmatched (filter_patterns wf_filter))
      else Ok tt
  | None => Ok tt
  end.

Definition match_event (t : Trigger) (event : string) (branch tag : option string)
    (paths : list string) (activity_type : option string) (upstream_workflow_paths : list string) :
    result TriggerMismatch unit :=
  let not_declared := EventNotDeclared (declared_events t) in
  match t with
  | Single v => if str_eqb v event then Ok tt else Err not_declared
  | Many vs => if existsb (λ v, str_eqb v event) vs then Ok tt else Err not_declared
  | Map m =>
      match imap_get event m with
      | None => Err not_declared
      | Some config =>
          match as_object config with
          | None =>
              if is_pull_request event then check_activity_type activity_type PR_DEFAULT_TYPES else Ok tt
          | Some obj =>
              _ ← check_types event obj activity_type;
              _ ← check_refs obj branch tag;
              _ ← check_paths obj paths;
              _ ← check_paths_ignore obj paths;
              check_workflows obj upstream_workflow_paths
          end
      end
  end.

Definition matches_with_context (t : Trigger) (event : string) (branch tag : option string)
    (paths : list string) (activity_type : option string) (upstream_workflow_paths : list string) : bool :=
  is_ok (match_event t event branch tag paths activity_type upstream_workflow_paths).

(** ** Validation *)

Definition valid_filter_keys (event : string) : list string :=
  if str_eqb event "push" then
    ["branches"; "branches-ignore"; "tags"; "tags-ignore"; "paths"; "paths-ignore"]
  else if is_pull_request event then ["types"; "branches"; "branches-ignore"; "paths"; "paths-ignore"]
  else if str_eqb event "workflow_run" then ["types"; "branches"; "branches-ignore"; "workflows"]
  else if str_eqb event "schedule" then ["cron"; "timezone"]
  else ["types"].

Definition event_config (t : Trigger) (event : string) : option object :=
  match t with Map m => imap_get event m ≫= as_object | _ => None end.

Definition validate_filters (t : Trigger) (event : string) : result ParserError unit :=
  match event_config t event with
  | Some obj =>
      match filter (λ key, negb (mem key (valid_filter_keys event))) obj.*1 with
      | key :: _ => Err (InvalidFilterForKey event key)
      | [] => Ok tt
      end
  | None => Ok tt
  end.

Definition exclusive_pairs : list (string * string) :=
  [("branches", "branches-ignore"); ("tags", "tags-ignore"); ("paths", "paths-ignore")].

Definition check_conflicting_filters (t : Trigger) (event : string) : result ParserError unit :=
  match event_config t event with
  | Some obj =>
      match filter (λ '(a, b), imap_contains a obj && imap_contains b obj) exclusive_pairs with
      | (a, b) :: _ => Err (ConflictingFilters event a b)
      | [] => Ok tt
      end
  | None => Ok tt
  end.

End trigger.
Arguments Trigger : clear implicits.

(** ** Filters *)
Section filters.
Context {num : Type}.

(** What one pattern says of a value. *)
Definition pattern_globs (pattern v : string) : Prop :=
  globs (tokenize (chars (split_negation pattern).2)) (chars v).
Definition is_negative (pattern : string) : Prop := (split_negation pattern).1 = true.

(** The last pattern that matches is positive. *)
Definition selects (patterns : list string) (v : string) : Prop :=
  ∃ before pattern after, patterns = before ++ pattern :: after ∧
    pattern_globs pattern v ∧ ¬ is_negative pattern ∧
    ∀ later, later ∈ after → pattern_globs later v → ¬ is_negative later.

Lemma glob_match_true pattern v :
  glob_match (split_negation pattern).2 v = true ↔ pattern_globs pattern v.
Proof. apply glob_match_chars_spec. Qed.

Lemma filter_loop_spec patterns v (matched : bool) :
  filter_loop patterns v matched = true ↔
  selects patterns v ∨
  matched = true ∧ ∀ p, p ∈ patterns → pattern_globs p v → ¬ is_negative p.
Proof.
  revert matched. induction patterns as [|p patterns IH]; intros matched; cbn [filter_loop].
  { split; [intros ->; right; split; [done|by intros ? ?%elem_of_nil]|].
    intros [(before & q & after & Heq & _)|[? _]]; [by destruct before|done]. }
  assert (selects (p :: patterns) v ↔ selects patterns v ∨
    (pattern_globs p v ∧ ¬ is_negative p ∧ ∀ q, q ∈ patterns → pattern_globs q v → ¬ is_negative q)) as Hsel.
  { split.
    - intros ([|b before] & q & after & Heq & Hq & Hn & Hl); simplify_eq/=; [by right|].
      left. by exists before, q, after.
    - intros [(before & q & after & -> & Hq & Hn & Hl)|(Hq & Hn & Hl)].
      + by exists (p :: before), q, after.
      + by exists [], p, patterns. }
  destruct (split_negation p) as [negative q] eqn:Hp. rewrite IH, Hsel.
  pose proof (glob_match_true p v) as Hg. rewrite Hp in Hg. simpl in Hg.
  assert (is_negative p ↔ negative = true) as Hneg by (unfold is_negative; by rewrite Hp).
  setoid_rewrite elem_of_cons. destruct (glob_match q v).
  - rewrite Hneg. destruct negative; naive_solver.
  - assert (¬ pattern_globs p v) as Hno by (rewrite <-Hg; done). naive_solver.
Qed.

Implicit Types (obj : list (string * value num)) (f : value num).

Lemma matches_filter_true f v : matches_filter f v = true ↔ selects (filter_patterns f) v.
Proof.
  assert (∀ ps, filter_loop ps v false = true ↔ selects ps v) as Hloop.
  { intros ps. rewrite filter_loop_spec. split; [by intros [?|[? _]]|by left]. }
  assert (¬ selects [] v) as Hnil by (intros ([|? ?] & ? & ? & ? & _); done).
  unfold matches_filter, matches_filter_with_default. destruct f; try apply Hloop; simpl; by split.
Qed.

Lemma matches_filter_false f v : matches_filter f v = false ↔ ¬ selects (filter_patterns f) v.
Proof. by rewrite <-matches_filter_true, not_true_iff_false. Qed.

Lemma none_or_true {A} (o : option A) (q : A → bool) : none_or o q = true ↔ ∀ a, o = Some a → q a = true.
Proof. destruct o; simpl; [split; [by intros ? ? [= <-]|auto]|by split]. Qed.

(** ** What an event configuration accepts *)

Definition accepts_type (event : string) obj (activity_type : option string) : Prop :=
  match imap_get "types" obj with
  | Some f => ∃ a, activity_type = Some a ∧
      (selects (filter_patterns f) a ∨ selects (filter_patterns f) (normalize_activity_type a))
  | None => is_pull_request event = true →
      ∃ a, activity_type = Some a ∧ (normalize_activity_type a ∈ PR_DEFAULT_TYPES ∨ a ∈ PR_DEFAULT_TYPES)
  end.

(** The ref is on this axis, and passes its two filters. *)
Definition accepts_axis obj (key ignore_key : string) (name : option string) : Prop :=
  (key ∈ obj.*1 ∨ ignore_key ∈ obj.*1) ∧ ∃ n, name = Some n ∧
    (∀ f, imap_get key obj = Some f → selects (filter_patterns f) n) ∧
    (∀ f, imap_get ignore_key obj = Some f → ¬ selects (filter_patterns f) n).

Definition accepts_ref obj (branch tag : option string) : Prop :=
  (∀ key, key ∈ ref_filter_keys → key ∉ obj.*1) ∨
  accepts_axis obj "branches" "branches-ignore" branch ∨
  accepts_axis obj "tags" "tags-ignore" tag.

Definition accepts_paths obj (paths : list string) : Prop :=
  (∀ f, imap_get "paths" obj = Some f → ∃ p, p ∈ paths ∧ selects (filter_patterns f) p) ∧
  (∀ f, imap_get "paths-ignore" obj = Some f →
     paths = [] ∨ ∃ p, p ∈ paths ∧ ¬ selects (filter_patterns f) p).

Definition accepts_upstream obj (upstream : list string) : Prop :=
  ∀ f, imap_get "workflows" obj = Some f → ∃ n, n ∈ upstream ∧ selects (filter_patterns f) n.

Definition is_Ok {E A} (r : result E A) : Prop := is_ok r = true.

Lemma mem_true x l : mem x l = true ↔ x ∈ l.
Proof. apply bool_decide_eq_true. Qed.

Lemma check_activity_type_Ok activity_type defaults :
  is_Ok (check_activity_type activity_type defaults) ↔
  ∃ a, activity_type = Some a ∧ (normalize_activity_type a ∈ defaults ∨ a ∈ defaults).
Proof.
  unfold is_Ok, check_activity_type. destruct activity_type as [a|]; [|by split; [|intros (? & ? & _)]].
  setoid_rewrite <-mem_true.
  destruct (mem (normalize_activity_type a) defaults) eqn:H1', (mem a defaults) eqn:H2'; simpl;
    (split; [|intros (? & [= <-] & [?|?]); done || congruence]); intros; try done; exists a; auto.
Qed.

Lemma check_types_Ok event obj activity_type :
  is_Ok (check_types event obj activity_type) ↔ accepts_type event obj activity_type.
Proof.
  unfold check_types, accepts_type. destruct (imap_get "types" obj) as [f|].
  - unfold is_Ok. destruct activity_type as [a|]; [|by split; [|intros (? & ? & _)]].
    setoid_rewrite <-matches_filter_true.
    destruct (matches_filter f a) eqn:H1', (matches_filter f (normalize_activity_type a)) eqn:H2'; simpl;
      (split; [|intros (? & [= <-] & [?|?]); done || congruence]); intros; try done; exists a; auto.
  - destruct (is_pull_request event); [|by split]. rewrite check_activity_type_Ok. naive_solver.
Qed.

Lemma axis_ok_true obj key ignore_key name :
  axis_ok obj key ignore_key name = true ↔ accepts_axis obj key ignore_key name.
Proof.
  unfold axis_ok, axis_present, accepts_axis.
  rewrite andb_true_iff, orb_true_iff, !imap_contains_true.
  destruct name as [n|]; [|naive_solver].
  rewrite andb_true_iff, !none_or_true. setoid_rewrite negb_true_iff.
  setoid_rewrite matches_filter_true. setoid_rewrite matches_filter_false. naive_solver.
Qed.

Lemma no_ref_filters obj :
  axis_present obj "branches" "branches-ignore" || axis_present obj "tags" "tags-ignore" = false ↔
  ∀ key, key ∈ ref_filter_keys → key ∉ obj.*1.
Proof.
  unfold axis_present, ref_filter_keys. rewrite !orb_false_iff, <-!not_true_iff_false, !imap_contains_true.
  split.
  - intros [[? ?] [? ?]] key Hkey. repeat apply elem_of_cons in Hkey as [->|Hkey]; try done.
    by apply elem_of_nil in Hkey.
  - intros Hall. split; split; apply Hall; refine (bool_decide_eq_true_1 _ _); reflexivity.
Qed.

Lemma check_refs_Ok obj branch tag : is_Ok (check_refs obj branch tag) ↔ accepts_ref obj branch tag.
Proof.
  unfold check_refs, accepts_ref. rewrite <-!axis_ok_true, <-no_ref_filters.
  unfold is_Ok.
  destruct (axis_present obj "branches" "branches-ignore" || axis_present obj "tags" "tags-ignore"),
    (axis_ok obj "branches" "branches-ignore" branch), (axis_ok obj "tags" "tags-ignore" tag);
    simpl; intuition congruence.
Qed.

Lemma existsb_selects f l :
  existsb (matches_filter f) l = true ↔ ∃ x, x ∈ l ∧ selects (filter_patterns f) x.
Proof.
  rewrite existsb_exists. setoid_rewrite matches_filter_true. by setoid_rewrite list_elem_of_In.
Qed.

Lemma forallb_selects f l :
  forallb (matches_filter f) l = false ↔ ∃ x, x ∈ l ∧ ¬ selects (filter_patterns f) x.
Proof.
  setoid_rewrite <-matches_filter_false. induction l as [|x l IH]; simpl.
  { split; [done|]. by intros (? & ?%elem_of_nil & _). }
  rewrite andb_false_iff, IH. split.
  - intros [?|(y & ? & ?)]; [exists x|exists y]; rewrite elem_of_cons; auto.
  - intros (y & [->|?]%elem_of_cons & ?); [by left|right; by exists y].
Qed.

(** A non-empty list with a selected element. *)
Lemma none_selected f l :
  (length l =? 0) || negb (existsb (matches_filter f) l) = false ↔
  ∃ x, x ∈ l ∧ selects (filter_patterns f) x.
Proof.
  rewrite orb_false_iff, negb_false_iff, existsb_selects. split; [by intros [_ ?]|].
  intros (x & Hx & ?). split; [|by exists x]. destruct l; [by apply elem_of_nil in Hx|done].
Qed.

Lemma is_Ok_if {E} (b : bool) (e : E) : is_Ok (if b then Err e else Ok tt) ↔ b = false.
Proof. by destruct b. Qed.

Lemma check_paths_Ok obj paths :
  is_Ok (check_paths obj paths) ↔
  ∀ f, imap_get "paths" obj = Some f → ∃ p, p ∈ paths ∧ selects (filter_patterns f) p.
Proof.
  unfold check_paths. destruct (imap_get "paths" obj) as [f|]; [|by split].
  rewrite is_Ok_if, none_selected. naive_solver.
Qed.

Lemma check_paths_ignore_Ok obj paths :
  is_Ok (check_paths_ignore obj paths) ↔
  ∀ f, imap_get "paths-ignore" obj = Some f →
    paths = [] ∨ ∃ p, p ∈ paths ∧ ¬ selects (filter_patterns f) p.
Proof.
  unfold check_paths_ignore. destruct (imap_get "paths-ignore" obj) as [f|]; [|by split].
  rewrite is_Ok_if, andb_false_iff, forallb_selects, negb_false_iff, Nat.eqb_eq, length_zero_iff_nil.
  naive_solver.
Qed.

Lemma check_workflows_Ok obj upstream :
  is_Ok (check_workflows obj upstream) ↔ accepts_upstream obj upstream.
Proof.
  unfold check_workflows, accepts_upstream. destruct (imap_get "workflows" obj) as [f|]; [|by split].
  rewrite is_Ok_if, none_selected. naive_solver.
Qed.

Lemma is_Ok_bind {E} (r : result E unit) (k : unit → result E unit) :
  is_Ok (r ≫= k) ↔ is_Ok r ∧ is_Ok (k tt).
Proof. unfold is_Ok. destruct r as [[]|]; simpl; [tauto|]. by split; [|intros [? _]]. Qed.

Lemma existsb_str_eqb event events : existsb (λ v, str_eqb v event) events = true ↔ event ∈ events.
Proof.
  rewrite existsb_exists. setoid_rewrite bool_decide_eq_true. setoid_rewrite <-list_elem_of_In.
  split; [by intros (? & ? & <-)|intros ?; by exists event].
Qed.

(** What a workflow runs for. *)
Definition runs_for (t : Trigger num) (event : string) (branch tag : option string)
    (paths : list string) (activity_type : option string) (upstream : list string) : Prop :=
  match t with
  | Single v => v = event
  | Many vs => event ∈ vs
  | Map m => ∃ config, imap_get event m = Some config ∧
      match config with
      | JObject obj =>
          accepts_type event obj activity_type ∧ accepts_ref obj branch tag ∧
          accepts_paths obj paths ∧ accepts_upstream obj upstream
      | _ => is_pull_request event = true →
          ∃ a, activity_type = Some a ∧ (normalize_activity_type a ∈ PR_DEFAULT_TYPES ∨ a ∈ PR_DEFAULT_TYPES)
      end
  end.

(** C25: when a workflow runs for an event. Where [on:] is a name or a list of
    names, exactly when the event is among them. Where it is a mapping, the
    event must be a key of it, and: if its value is not a mapping, a pull
    request event must have an activity type that pull requests have by
    default, and any other is accepted; if it is one, its activity type must
    be selected by [types], or without [types] be a default one for a pull
    request event; the ref must pass the branch filters or the tag filters of
    its own axis, if there are any; some changed path must be selected by
    [paths], some must not be by [paths-ignore] unless no path changed; and an
    upstream workflow must be selected by [workflows]. In every filter the
    last pattern that matches decides. *)
Theorem match_event_accepts (t : Trigger num) event branch tag paths activity_type upstream :
  matches_with_context t event branch tag paths activity_type upstream = true ↔
  runs_for t event branch tag paths activity_type upstream.
Proof.
  unfold matches_with_context, match_event, runs_for. destruct t as [v|vs|m].
  - unfold str_eqb. by case_bool_decide; split.
  - rewrite <-existsb_str_eqb. by destruct (existsb _ vs).
  - destruct (imap_get event m) as [config|]; [|by split; [|intros (? & ? & _)]].
    destruct config as [| | | | |obj]; simpl.
    6: { change (is_ok ?r = true) with (is_Ok r). rewrite !is_Ok_bind.
         rewrite check_types_Ok, check_refs_Ok, check_paths_Ok, check_paths_ignore_Ok, check_workflows_Ok.
         unfold accepts_paths. naive_solver. }
    all: pose proof (check_activity_type_Ok activity_type PR_DEFAULT_TYPES) as Hact; unfold is_Ok in Hact.
    all: destruct (is_pull_request event); [rewrite Hact|]; naive_solver.
Qed.

(** What the reason of a rejection says. *)
Definition reason_true (t : Trigger num) (event : string) (branch tag : option string)
    (paths : list string) (activity_type : option string) (upstream : list string)
    (reason : TriggerMismatch) : Prop :=
  match reason with
  | EventNotDeclared declared => declared = declared_events t ∧ event ∉ declared
  | ActivityTypeMissing _ => activity_type = None
  | ActivityTypeRejected got accepted => activity_type = Some got ∧ ¬ selects accepted got ∨
      activity_type = Some got ∧ got ∉ accepted
  | RefFiltered b g filters => b = branch ∧ g = tag ∧ filters ≠ [] ∧
      ∀ key ps, (key, ps) ∈ filters → ∃ obj f, event_config t event = Some obj ∧
        imap_get key obj = Some f ∧ ps = filter_patterns f
  | PathsUnmatched changed filters => changed = length paths ∧ ∀ p, p ∈ paths → ¬ selects filters p
  | PathsAllIgnored changed filters =>
      changed = length paths ∧ 0 < changed ∧ ∀ p, p ∈ paths → selects filters p
  | UpstreamWorkflowUnmatched filters => ∀ n, n ∈ upstream → ¬ selects filters n
  end.

Lemma none_selected_true f l :
  (length l =? 0) || negb (existsb (matches_filter f) l) = true →
  ∀ x, x ∈ l → ¬ selects (filter_patterns f) x.
Proof.
  intros Hnone x Hx Hsel. assert ((length l =? 0) || negb (existsb (matches_filter f) l) = false) as Hno.
  { apply none_selected. by exists x. }
  congruence.
Qed.

Lemma event_declared (t : Trigger num) event : event ∈ declared_events t ↔ matches t event = true.
Proof.
  destruct t as [v|vs|m]; simpl.
  - rewrite list_elem_of_singleton. unfold str_eqb. rewrite bool_decide_eq_true. by split.
  - by rewrite existsb_str_eqb.
  - by rewrite imap_contains_true.
Qed.

Lemma check_activity_type_Err activity_type defaults e :
  check_activity_type activity_type defaults = Err e →
  e = ActivityTypeMissing defaults ∧ activity_type = None ∨
  ∃ got, e = ActivityTypeRejected got defaults ∧ activity_type = Some got ∧ got ∉ defaults.
Proof.
  unfold check_activity_type. destruct activity_type as [a|]; [|intros [= <-]; by left].
  destruct (mem (normalize_activity_type a) defaults); [done|]. simpl.
  destruct (mem a defaults) eqn:Ha; [done|]. intros [= <-]. right. exists a.
  split_and!; [done..|]. rewrite <-mem_true. by rewrite Ha.
Qed.

Lemma check_types_Err event obj activity_type e :
  check_types event obj activity_type = Err e →
  (∃ accepted, e = ActivityTypeMissing accepted ∧ activity_type = None) ∨
  ∃ got accepted, e = ActivityTypeRejected got accepted ∧ activity_type = Some got ∧
    (¬ selects accepted got ∨ got ∉ accepted).
Proof.
  unfold check_types. destruct (imap_get "types" obj) as [f|].
  - destruct activity_type as [a|]; [|intros [= <-]; left; by eexists].
    destruct (matches_filter f a) eqn:Ha; [done|]. cbn [negb andb].
    destruct (matches_filter f (normalize_activity_type a)); [done|]. intros [= <-]. right.
    exists a, (filter_patterns f). split_and!; [done..|]. left. by apply matches_filter_false.
  - destruct (is_pull_request event); [|done].
    intros [[-> ->]|(got & -> & -> & ?)]%check_activity_type_Err; [left; by eexists|right].
    exists got, PR_DEFAULT_TYPES. auto.
Qed.

Lemma elem_of_ref_filters obj key ps :
  (key, ps) ∈ ref_filters obj ↔
  key ∈ ref_filter_keys ∧ ∃ f, imap_get key obj = Some f ∧ ps = filter_patterns f.
Proof.
  unfold ref_filters. rewrite list_elem_of_omap. split.
  - intros (k & Hk & Hf). destruct (imap_get k obj) as [f|] eqn:Hobj; [|done].
    injection Hf as -> <-. split; [done|]. by exists f.
  - intros (Hk & f & Hf & ->). exists key. by rewrite Hf.
Qed.

Lemma check_refs_Err obj branch tag e :
  check_refs obj branch tag = Err e →
  ∃ filters, e = RefFiltered branch tag filters ∧ filters ≠ [] ∧
    ∀ key ps, (key, ps) ∈ filters → ∃ f, imap_get key obj = Some f ∧ ps = filter_patterns f.
Proof.
  unfold check_refs. destruct (_ || _) eqn:Hax; [|done]. destruct (_ && _); [|done].
  intros [= <-]. exists (ref_filters obj). split; [done|]. split.
  - intros Hnil. apply not_false_iff_true in Hax. apply Hax, no_ref_filters. intros key Hkey Hin.
    apply imap_contains_true in Hin. unfold imap_contains in Hin. apply bool_decide_eq_true in Hin as [f Hf].
    apply (not_elem_of_nil (key, filter_patterns f)). rewrite <-Hnil.
    apply elem_of_ref_filters. split; [done|]. by exists f.
  - by intros key ps [_ ?]%elem_of_ref_filters.
Qed.

Lemma check_paths_Err obj paths e :
  check_paths obj paths = Err e →
  ∃ filters, e = PathsUnmatched (length paths) filters ∧ ∀ p, p ∈ paths → ¬ selects filters p.
Proof.
  unfold check_paths. destruct (imap_get "paths" obj) as [f|]; [|done].
  destruct (_ || _) eqn:Hp; [|done]. intros [= <-]. eexists. split; [done|]. by apply none_selected_true.
Qed.

Lemma check_paths_ignore_Err obj paths e :
  check_paths_ignore obj paths = Err e →
  ∃ filters, e = PathsAllIgnored (length paths) filters ∧ 0 < length paths ∧
    ∀ p, p ∈ paths → selects filters p.
Proof.
  unfold check_paths_ignore. destruct (imap_get "paths-ignore" obj) as [f|]; [|done].
  destruct (_ && _) eqn:Hp; [|done]. intros [= <-]. apply andb_prop in Hp as [Hlen Hall].
  eexists. split; [done|]. split; [destruct paths; simpl in *; [done|lia]|].
  intros p Hin. apply matches_filter_true. rewrite forallb_forall in Hall.
  by apply Hall, list_elem_of_In.
Qed.

Lemma check_workflows_Err obj upstream e :
  check_workflows obj upstream = Err e →
  ∃ filters, e = UpstreamWorkflowUnmatched filters ∧ ∀ n, n ∈ upstream → ¬ selects filters n.
Proof.
  unfold check_workflows. destruct (imap_get "workflows" obj) as [f|]; [|done].
  destruct (_ || _) eqn:Hp; [|done]. intros [= <-]. eexists. split; [done|]. by apply none_selected_true.
Qed.

Lemma bind_unit_Err {E} (r : result E unit) (k : unit → result E unit) e :
  r ≫= k = Err e → r = Err e ∨ k tt = Err e.
Proof. destruct r as [[]|]; simpl; [by right|intros [= ->]; by left]. Qed.

(** A rejected event is rejected for the reason given: the reason names
    the axis that failed, with the values it was given and the patterns of the
    configuration, and what it says is the case. *)
Theorem match_event_reason (t : Trigger num) event branch tag paths activity_type upstream reason :
  match_event t event branch tag paths activity_type upstream = Err reason →
  reason_true t event branch tag paths activity_type upstream reason.
Proof.
  unfold match_event. pose proof (event_declared t event) as Hdecl.
  assert (∀ r : TriggerMismatch, matches t event = false →
    (Err (EventNotDeclared (declared_events t)) : result TriggerMismatch unit) = Err r →
    reason_true t event branch tag paths activity_type upstream r) as Hnot.
  { intros r Hno [= <-]. split; [done|]. rewrite Hdecl, Hno. done. }
  destruct t as [v|vs|m].
  - destruct (str_eqb v event) eqn:Hv; [done|]. by apply Hnot.
  - destruct (existsb _ vs) eqn:Hv; [done|]. by apply Hnot.
  - simpl in Hnot. destruct (imap_get event m) as [config|] eqn:Hc.
    2: { apply Hnot. unfold imap_contains. by rewrite Hc. }
    destruct (as_object config) as [obj|] eqn:Hobj.
    2: { destruct (is_pull_request event); [|done].
         intros [[-> ->]|(got & -> & -> & ?)]%check_activity_type_Err; simpl; auto. }
    assert (event_config (Map m) event = Some obj) as Hcfg by (simpl; by rewrite Hc).
    intros [He|[He|[He|[He|He]%bind_unit_Err]%bind_unit_Err]%bind_unit_Err]%bind_unit_Err.
    + apply check_types_Err in He as [(? & -> & ?)|(got & acc & -> & ? & [?|?])]; simpl; auto.
    + apply check_refs_Err in He as (fs & -> & Hne & Hfs). simpl. split_and!; [done..|].
      intros key ps Hin. destruct (Hfs key ps Hin) as (f & ? & ?). exists obj, f. by split_and!.
    + by apply check_paths_Err in He as (fs & -> & ?).
    + by apply check_paths_ignore_Err in He as (fs & -> & ? & ?).
    + by apply check_workflows_Err in He as (fs & -> & ?).
Qed.

End filters.

(** A push filtered by branch, of a tag. *)
Definition sample_trigger : Trigger Z :=
  Map [("push", JObject [("branches", JArray [JString "main"; JString "!main"])])].

Lemma match_event_reason_witness :
  reason_true sample_trigger "push" (Some "main") None [] None []
    (RefFiltered (Some "main") None [("branches", ["main"; "!main"])]).
Proof. apply match_event_reason. vm_compute. reflexivity. Defined.
