(* ===== verification/Labels.v ===== *)
(** * Matching jobs with runners

    The label and group matchers of
    [crates/preloop-runner-server/src/runtime_scheduling.rs] and
    [control/logic.rs], the claim order of [control/logic.rs], and the verdicts
    on jobs no runner can take: pool labels, unhostable platforms and the
    starvation sweep.

    [str::to_lowercase] is the Unicode table of the Rust standard library; the
    class [UnicodeLower] stands for it. *)
From S2P Require Export Models.

Class UnicodeLower := {
  to_lowercase : string → string;
  to_lowercase_ascii s : is_ascii s = true → to_lowercase s = to_ascii_lowercase s;
}.

#[export, refine] Instance ascii_lower : UnicodeLower := { to_lowercase := to_ascii_lowercase }.
Proof. done. Defined.

Section labels.
Context `{UnicodeLower}.
Implicit Types (job_labels runner_labels runs_on pool_labels : list string).

(** ** Labels *)

Definition hosted_label_os (required : string) : option string :=
  if starts_with "ubuntu" required then Some "linux"
  else if starts_with "macos" required then Some "macos"
  else if starts_with "windows" required then Some "windows"
  else None.

Definition mem_str (x : string) (l : list string) : bool := bool_decide (x ∈ l).

(** The OS label of a runner: the first of the three it carries. *)
Definition runner_os (runner_set : list string) : option string :=
  find (λ os, mem_str os runner_set) ["linux"; "macos"; "windows"].

Definition label_matches (runner_set : list string) (required : string) : bool :=
  let req := to_lowercase required in
  if mem_str req runner_set then true
  else
    match hosted_label_os req with
    | None => false
    | Some required_os =>
        match runner_os runner_set with
        | Some os => str_eqb os required_os
        | None => mem_str "self-hosted" runner_set
        end
    end.

Definition job_matches_runner job_labels runner_labels : bool :=
  if length job_labels =? 0 then true
  else if length runner_labels =? 0 then true
  else
    let runner_set := to_lowercase <$> runner_labels in
    forallb (label_matches runner_set) job_labels.

Definition job_labels_covered_exactly job_labels runner_labels : bool :=
  if length job_labels =? 0 then true
  else if length runner_labels =? 0 then false
  else
    let runner_set := to_lowercase <$> runner_labels in
    forallb (λ required, mem_str (to_lowercase required) runner_set) job_labels.

Definition unhostable_platform job_labels (platforms : list string) : option string :=
  needed ← find (λ os, str_eqb os "macos" || str_eqb os "windows")
             (omap (λ label, hosted_label_os (to_lowercase label)) job_labels);
  if existsb (λ os, str_eqb os needed) platforms then None else Some needed.

Definition unhostable_reason (platform : string) runs_on : string :=
  "no " +:+ platform +:+ " runner is registered with this server, so `runs-on: "
  +:+ join ", " runs_on +:+ "` cannot be scheduled".

Definition needs_external_host runs_on : bool :=
  existsb (λ label, let label := to_ascii_lowercase label in
                    starts_with "macos" label || starts_with "windows" label) runs_on.

Definition pool_unsatisfiable_reason runs_on pool_labels : option string :=
  if negb (length pool_labels =? 0) && negb (job_matches_runner runs_on pool_labels)
  then Some ("no runner is registered for `runs-on: " +:+ join ", " runs_on
             +:+ "` and the runner pool's advertised labels (" +:+ join ", " pool_labels
             +:+ ") can never satisfy it, so the job cannot be scheduled")
  else None.

Definition runs_on_deferred runs_on : bool := existsb (str_contains "${{") runs_on.

Definition unschedulable_reason runs_on pool_labels (any_runner_matches : bool) : option string :=
  if any_runner_matches || needs_external_host runs_on || runs_on_deferred runs_on then None
  else pool_unsatisfiable_reason runs_on pool_labels.

Definition promotion_unsatisfiable_reason runs_on (platforms : list string) pool_labels
    (any_runner_matches : bool) : option string :=
  match unhostable_platform runs_on platforms with
  | Some platform => Some (unhostable_reason platform runs_on)
  | None => unschedulable_reason runs_on pool_labels any_runner_matches
  end.

Definition is_some {A} (o : option A) : bool := match o with Some _ => true | None => false end.

Definition concludes_at_submit (initially_skipped has_needs placeholder : bool) runs_on
    (check_hostable : bool) (platforms : list string) pool_labels (any_runner_matches : bool) : bool :=
  if initially_skipped then true
  else if placeholder || has_needs then false
  else if check_hostable && is_some (unhostable_platform runs_on platforms) then true
  else is_some (unschedulable_reason runs_on pool_labels any_runner_matches).

(** ** Groups *)

(** [str::parse::<i64>]. *)
Definition parse_i64 (s : string) : option Z :=
  let in_i64 z := if ((- 2 ^ 63 <=? z) && (z <? 2 ^ 63))%Z then Some z else None in
  match chars s with
  | c :: r =>
      if (c =? ch "-")%N then n ← unsigned_value 10 r; in_i64 (- Z.of_N n)%Z
      else if (c =? ch "+")%N then n ← unsigned_value 10 r; in_i64 (Z.of_N n)
      else n ← unsigned_value 10 (c :: r); in_i64 (Z.of_N n)
  | [] => None
  end.

(** [RunnerMatchRow] of [logic.rs] and [RunnerCapabilities] of [models.rs]
    have the same fields. *)
Record RunnerMatchRow : Type := mkRunner {
  labels : list string;
  known : bool;
  group_id : option Z;
  group_name : option string;
}.

(** A required group that is not blank, trimmed. *)
Definition required_name (required : option string) : option string :=
  required ← trim <$> required; if str_eqb required "" then None else Some required.

Definition group_name_matches (required : string) (runner : RunnerMatchRow) : bool :=
  match group_id runner, group_name runner with
  | Some id, Some name =>
      if negb (id =? 1)%Z then eq_ignore_ascii_case name required
      else eq_ignore_ascii_case name required
  | _, Some name => eq_ignore_ascii_case name required
  | None, None => eq_ignore_ascii_case "Default" required
  | Some id, None => if (id =? 1)%Z then eq_ignore_ascii_case "Default" required else false
  end.

Definition runner_group_matches (required : option string) (runner : RunnerMatchRow) : bool :=
  match required_name required with
  | None => true
  | Some required =>
      if negb (known runner) then false
      else
        match parse_i64 required with
        | Some id =>
            bool_decide (group_id runner = Some id)
            || (negb (is_some (group_id runner)) && negb (is_some (group_name runner)) && (id =? 1)%Z)
        | None => group_name_matches required runner
        end
  end.

Definition job_matches_runner_group (required : option string) (runner : RunnerMatchRow) : bool :=
  match required_name required with
  | None => true
  | Some required =>
      if negb (known runner) then false
      else
        match parse_i64 required with
        | Some required_id =>
            match group_id runner with
            | Some actual_id => (actual_id =? required_id)%Z
            | None => negb (is_some (group_name runner)) && (required_id =? 1)%Z
            end
        | None => group_name_matches required runner
        end
  end.

Definition runner_matches job_labels (required_group : option string) (runner : RunnerMatchRow) : bool :=
  job_matches_runner job_labels (labels runner) && runner_group_matches required_group runner.

(** ** Claims *)

(** The fields of [ClaimCandidate] the preference reads; the candidates come in
    queue order and a claim names a position among them. *)
Record ClaimCandidate : Type := mkCandidate {
  candidate_runs_on : list string;
  candidate_group : option string;
  assigned_runner_id : option Z;
  assignment_fresh : bool;
  claimable : bool;
}.

(** [iter().position(p)]. *)
Fixpoint position {A} (p : A → bool) (l : list A) : option nat :=
  match l with
  | [] => None
  | x :: l => if p x then Some 0 else S <$> position p l
  end.

Definition or_else {A} (o : option A) (p : option A) : option A :=
  match o with Some _ => o | None => p end.

Section claim.
Variables (runner_id : option Z) (runner_labels : list string) (required_group : option string)
  (runner : RunnerMatchRow).

Definition exact (c : ClaimCandidate) : bool :=
  job_labels_covered_exactly (candidate_runs_on c) runner_labels &&
  runner_group_matches (or_else (candidate_group c) required_group) runner.

Definition assigned (c : ClaimCandidate) : bool :=
  is_some runner_id && bool_decide (assigned_runner_id c = runner_id) && assignment_fresh c.

Definition eligible (c : ClaimCandidate) : bool :=
  claimable c && runner_matches (candidate_runs_on c) (candidate_group c) runner.

Definition claim_preference (candidates : list ClaimCandidate) : option nat :=
  or_else (position (λ c, eligible c && assigned c && exact c) candidates)
    (or_else (position (λ c, eligible c && assigned c) candidates)
       (or_else (position (λ c, eligible c && exact c) candidates)
          (position eligible candidates))).
End claim.

(** ** Starvation *)

(** Instants and durations in nanoseconds. *)
Definition seconds (s : N) : N := s * 1000000000.
Definition QUEUED_JOB_GRACE : N := seconds 120.
Definition MAX_QUEUED_GRACE : N := seconds 3600.
Definition as_secs (d : N) : N := d / 1000000000.

(** The fields of [StarvationCandidate] the verdict reads, instants in
    nanoseconds. *)
Record StarvationCandidate : Type := mkStarving {
  starving_runs_on : list string;
  enqueued_at : N;
  first_seen : option N;
  any_runner_matches : bool;
}.

Inductive StarvationVerdict : Type :=
| ClearMark
| Mark (first_seen : N)
| Starve (reason : string) (grace : N)
| Unschedulable (reason : string).

Definition starve_reason runs_on (grace : N) : string :=
  "no runner is registered for `runs-on: " +:+ join ", " runs_on
  +:+ "` and none appeared within " +:+ pretty (as_secs grace)
  +:+ "s, so the job cannot be scheduled".

(** [now.duration_since(t).unwrap_or_default()] is the truncated difference. *)
Definition starvation_verdict (job : StarvationCandidate) (now : N) (pool_preparing : bool)
    (booted_at : N) pool_labels : StarvationVerdict :=
  if any_runner_matches job || needs_external_host (starving_runs_on job) then ClearMark
  else
    let waiting_since := N.max (enqueued_at job) booted_at in
    let within_ceiling := (now - waiting_since <? MAX_QUEUED_GRACE)%N in
    let starve grace := Starve (starve_reason (starving_runs_on job) grace) grace in
    let unmatched :=
      if pool_preparing then
        if within_ceiling then Mark now else starve MAX_QUEUED_GRACE
      else
        let seen := default waiting_since (first_seen job) in
        if (now - seen <? QUEUED_JOB_GRACE)%N then Mark seen else starve QUEUED_JOB_GRACE in
    if length pool_labels =? 0 then unmatched
    else
      match pool_unsatisfiable_reason (starving_runs_on job) pool_labels with
      | Some reason => Unschedulable reason
      | None => if within_ceiling then ClearMark else unmatched
      end.

End labels.

(** ** Label matching *)
Section label_lemmas.
Context `{UnicodeLower}.

Definition os_labels : list string := ["linux"; "macos"; "windows"].

Lemma mem_str_true x l : mem_str x l = true ↔ x ∈ l.
Proof. apply bool_decide_eq_true. Qed.

Lemma runner_os_spec runner_set :
  match runner_os runner_set with
  | Some os => os ∈ os_labels ∧ os ∈ runner_set
  | None => ∀ os, os ∈ os_labels → os ∉ runner_set
  end.
Proof.
  unfold runner_os. fold os_labels. destruct (find _ os_labels) as [os|] eqn:Hfind.
  - apply find_some in Hfind as [Hin Hmem]. by rewrite list_elem_of_In, <-mem_str_true.
  - intros os Hos%list_elem_of_In Hin%mem_str_true.
    pose proof (find_none _ _ Hfind os Hos) as Hno. simpl in Hno. congruence.
Qed.

Lemma forallb_elem {A} (p : A → bool) l : forallb p l = true ↔ ∀ x, x ∈ l → p x = true.
Proof. rewrite forallb_forall. by setoid_rewrite list_elem_of_In. Qed.

(** The label a runner set must offer for one required label. *)
Definition offers (runner_set : list string) (required : string) : Prop :=
  to_lowercase required ∈ runner_set ∨
  ∃ os, hosted_label_os (to_lowercase required) = Some os ∧
    (os ∈ runner_set ∨ "self-hosted" ∈ runner_set ∧ ∀ o, o ∈ os_labels → o ∉ runner_set).

Lemma hosted_label_os_elem label os : hosted_label_os label = Some os → os ∈ os_labels.
Proof.
  unfold hosted_label_os. repeat case_match; intros [= <-];
    refine (bool_decide_eq_true_1 _ _); reflexivity.
Qed.

Lemma label_matches_offers runner_set required :
  (∀ o o', o ∈ os_labels → o' ∈ os_labels → o ∈ runner_set → o' ∈ runner_set → o = o') →
  label_matches runner_set required = true ↔ offers runner_set required.
Proof.
  intros Hone. unfold label_matches, offers. rewrite <-(mem_str_true (to_lowercase required)).
  destruct (mem_str (to_lowercase required) runner_set); [by split; [left|]|].
  destruct (hosted_label_os (to_lowercase required)) as [os|] eqn:Hos.
  2: { split; [done|]. by intros [?|(? & ? & _)]. }
  apply hosted_label_os_elem in Hos as Hos'. pose proof (runner_os_spec runner_set) as Hrun.
  destruct (runner_os runner_set) as [ros|].
  - destruct Hrun as [Hros Hin]. unfold str_eqb. rewrite bool_decide_eq_true. split.
    + intros ->. right. exists os. auto.
    + intros [?|(o & [= <-] & [Ho|[_ Hno]])]; [done|by apply Hone|by apply Hno in Hros].
  - rewrite mem_str_true. split.
    + intros Hself. right. exists os. auto.
    + intros [?|(o & [= <-] & [Ho|[? _]])]; [done|by apply Hrun in Ho|done].
Qed.

End label_lemmas.

(** When a runner that declares at most one OS matches a job.  Each
    required label must be on the runner, or be a hosted image label of the
    runner's own OS; a runner that declares no OS stands in only when it is
    self-hosted, so a hosted label never lands on another OS.  An empty label
    list on either side matches. *)
Theorem job_matches_runner_spec `{UnicodeLower} job_labels runner_labels :
  let runner_set := to_lowercase <$> runner_labels in
  (∀ o o', o ∈ os_labels → o' ∈ os_labels → o ∈ runner_set → o' ∈ runner_set → o = o') →
  job_matches_runner job_labels runner_labels = true ↔
  job_labels = [] ∨ runner_labels = [] ∨ ∀ required, required ∈ job_labels → offers runner_set required.
Proof.
  intros runner_set Hone. unfold job_matches_runner. fold runner_set.
  destruct (Nat.eqb_spec (length job_labels) 0) as [Hj|Hj].
  { apply length_zero_iff_nil in Hj. tauto. }
  destruct (Nat.eqb_spec (length runner_labels) 0) as [Hr|Hr].
  { apply length_zero_iff_nil in Hr. tauto. }
  rewrite forallb_elem. setoid_rewrite (label_matches_offers runner_set _ Hone).
  split; [by auto|]. intros [->|[->|?]]; done.
Qed.

(** A Linux runner and a macOS job. *)
Lemma job_matches_runner_spec_witness :
  job_matches_runner ["macos-14"] ["self-hosted"; "Linux"] = true ↔
  ["macos-14"] = [] ∨ ["self-hosted"; "Linux"] = [] ∨
  ∀ required, required ∈ ["macos-14"] → offers (to_lowercase <$> ["self-hosted"; "Linux"]) required.
Proof.
  apply (job_matches_runner_spec ["macos-14"] ["self-hosted"; "Linux"]).
  assert (∀ x, x ∈ os_labels → x ∈ ["self-hosted"; "linux"] → x = "linux") as Hlinux.
  { intros x Hx Hin. apply elem_of_cons in Hin as [->|Hin%list_elem_of_singleton]; [|done].
    exfalso. revert Hx. refine (bool_decide_eq_false_1 _ _). reflexivity. }
  intros o o' Ho Ho' Hin Hin'. by rewrite (Hlinux o Ho Hin), (Hlinux o' Ho' Hin').
Defined.

(** The two implementations of the runner-group rule, the one of claims
    and the one of pairing, give the same answer. *)
Theorem runner_group_matches_agree required runner :
  runner_group_matches required runner = job_matches_runner_group required runner.
Proof.
  unfold runner_group_matches, job_matches_runner_group.
  destruct (required_name required) as [name|]; [|done]. destruct (known runner); [|done]. simpl.
  destruct (parse_i64 name) as [id|]; [|done].
  destruct (group_id runner) as [actual|], (group_name runner); simpl; try done;
    rewrite ?orb_false_r; (destruct (Z.eqb_spec actual id) as [->|];
      [by rewrite bool_decide_eq_true_2|rewrite bool_decide_eq_false_2; [done|congruence]]).
Qed.

(** ** Claims *)
Section claim_lemmas.
Context `{UnicodeLower}.

Lemma position_spec {A} (p : A → bool) l :
  match position p l with
  | Some i => ∃ x, l !! i = Some x ∧ p x = true ∧ ∀ j y, l !! j = Some y → p y = true → i <= j
  | None => ∀ j y, l !! j = Some y → p y = false
  end.
Proof.
  induction l as [|x l IH]; simpl; [done|]. destruct (p x) eqn:Hx.
  - exists x. split_and!; [done..|]. intros. lia.
  - destruct (position p l) as [i|]; simpl.
    + destruct IH as (y & Hy & Hpy & Hmin). exists y. split_and!; [done..|].
      intros [|j] z Hz Hpz; simplify_eq/=; [congruence|]. specialize (Hmin j z Hz Hpz). lia.
    + intros [|j] z Hz; simplify_eq/=; [done|]. by eapply IH.
Qed.

(** The preference tier of an eligible candidate, larger is better. *)
Definition tier (runner_id : option Z) runner_labels required_group runner (c : ClaimCandidate) : nat :=
  (if assigned runner_id c then 2 else 0) + (if exact runner_labels required_group runner c then 1 else 0).

End claim_lemmas.

(** The claim picks the best eligible job.  The chosen candidate is
    eligible, no eligible candidate is in a higher tier (a fresh assignment to
    this runner counts before exact labels), and it is the first of its tier
    in queue order; no claim is made only when nothing is eligible. *)
Theorem claim_preference_best `{UnicodeLower} runner_id runner_labels required_group runner candidates :
  let tier := tier runner_id runner_labels required_group runner in
  match claim_preference runner_id runner_labels required_group runner candidates with
  | Some i => ∃ c, candidates !! i = Some c ∧ eligible runner c = true ∧
      ∀ j c', candidates !! j = Some c' → eligible runner c' = true →
        tier c' < tier c ∨ (tier c' = tier c ∧ i <= j)
  | None => ∀ c, c ∈ candidates → eligible runner c = false
  end.
Proof.
  cbv zeta. unfold claim_preference.
  pose proof (position_spec (λ c, eligible runner c && assigned runner_id c &&
    exact runner_labels required_group runner c) candidates) as H1'.
  pose proof (position_spec (λ c, eligible runner c && assigned runner_id c) candidates) as H2'.
  pose proof (position_spec (λ c, eligible runner c && exact runner_labels required_group runner c)
    candidates) as H3'.
  pose proof (position_spec (eligible runner) candidates) as H4'. unfold tier.
  repeat (lazymatch goal with
  | |- context [position ?p candidates] => destruct (position p candidates) as [i|]; cbn [or_else]
  end).
  5: { intros c [j Hj]%list_elem_of_lookup. by eapply H4'. }
  all: lazymatch goal with
       | H : ∃ x, _ !! _ = Some x ∧ _ |- _ =>
           destruct H as (c & Hc & Hp & Hmin); exists c; split; [exact Hc|]
       end.
  all: repeat match goal with
       | H : ∀ j y, _ !! j = Some y → _ = false |- _ => pose proof (H _ c Hc); revert H
       end; intros.
  all: split; [by destruct (eligible runner c)|]; intros j c' Hj He.
  all: repeat match goal with
       | H : ∀ j y, _ !! j = Some y → _ = false |- _ => specialize (H j c' Hj)
       end.
  all: specialize (Hmin j c' Hj); rewrite ?He in *.
  all: destruct (eligible runner c), (assigned runner_id c), (exact runner_labels required_group runner c),
         (assigned runner_id c'), (exact runner_labels required_group runner c'); simpl in *;
       try discriminate; first [left; lia | right; split; [done|by apply Hmin]].
Qed.

(** ** Starvation *)

Ltac case_ltb :=
  match goal with |- context [(?a <? ?b)%N] => destruct (N.ltb_spec a b) end.

Section starvation.
Context `{UnicodeLower}.

(** A tick of the sweep: the instant, whether the pool prepares a runner, and
    the labels it advertises. *)
Record tick : Type := mkTick { at_instant : N; preparing : bool; advertised : list string }.

(** Successive sweeps over one job that no runner matches; the mark of the
    previous sweep is kept, and a final verdict ends the job. *)
Fixpoint sweep (runs_on : list string) (enqueued booted : N) (mark : option N) (ticks : list tick) :
    option StarvationVerdict :=
  match ticks with
  | [] => None
  | t :: ticks =>
      match starvation_verdict (mkStarving runs_on enqueued mark false) (at_instant t) (preparing t)
              booted (advertised t) with
      | ClearMark => sweep runs_on enqueued booted None ticks
      | Mark first_seen => sweep runs_on enqueued booted (Some first_seen) ticks
      | verdict => Some verdict
      end
  end.

Definition mark_ok (since : N) (mark : option N) : Prop :=
  match mark with Some m => (m <= since + MAX_QUEUED_GRACE)%N | None => True end.

Lemma starvation_verdict_step runs_on enqueued booted mark now prep pool_labels :
  let since := N.max enqueued booted in
  needs_external_host runs_on = false → mark_ok since mark →
  match starvation_verdict (mkStarving runs_on enqueued mark false) now prep booted pool_labels with
  | ClearMark => (now < since + MAX_QUEUED_GRACE)%N
  | Mark m => mark_ok since (Some m) ∧ (now < since + MAX_QUEUED_GRACE + QUEUED_JOB_GRACE)%N
  | _ => True
  end.
Proof.
  intros since Hext Hmark. unfold starvation_verdict. cbn [any_runner_matches starving_runs_on first_seen enqueued_at].
  rewrite Hext. cbn [orb]. fold since. cbv zeta.
  assert (∀ m, (m <= since + MAX_QUEUED_GRACE)%N → (now - m <? QUEUED_JOB_GRACE)%N = true →
    (now < since + MAX_QUEUED_GRACE + QUEUED_JOB_GRACE)%N) as Hshort by lia.
  assert (default since mark <= since + MAX_QUEUED_GRACE)%N as Hdef by (destruct mark; simpl in *; lia).
  assert (0 < MAX_QUEUED_GRACE)%N as Hpos by reflexivity.
  destruct (length pool_labels =? 0), (pool_unsatisfiable_reason runs_on pool_labels), prep;
    cbn [orb]; repeat case_ltb; simpl; try done; try lia; split; lia.
Qed.

End starvation.

(** No job waits forever for a runner.  Whatever the sweeps saw before,
    the first sweep at least 3720 seconds after the job was queued (or the
    node booted) ends a job that no runner matches and no external host could
    serve. *)
Theorem starvation_bounded `{UnicodeLower} runs_on enqueued booted ticks t :
  needs_external_host runs_on = false →
  t ∈ ticks → (N.max enqueued booted + seconds 3720 <= at_instant t)%N →
  ∃ verdict, sweep runs_on enqueued booted None ticks = Some verdict.
Proof.
  intros Hext Hin Hlate. assert (mark_ok (N.max enqueued booted) None) as Hmark by done. revert Hmark.
  generalize (None : option N). induction ticks as [|u ticks IH]; intros mark Hmark;
    [by apply elem_of_nil in Hin|]. cbn [sweep].
  pose proof (starvation_verdict_step runs_on enqueued booted mark (at_instant u) (preparing u)
    (advertised u) Hext Hmark) as Hstep. cbv zeta in Hstep.
  change (seconds 3720) with (MAX_QUEUED_GRACE + QUEUED_JOB_GRACE)%N in Hlate.
  assert (0 < QUEUED_JOB_GRACE)%N as Hpos by reflexivity.
  apply elem_of_cons in Hin as [->|Hin];
    destruct (starvation_verdict _ _ _ _ _); try by eexists.
  - lia.
  - destruct Hstep. lia.
  - by apply IH.
  - destruct Hstep. by apply IH.
Qed.

Lemma starvation_bounded_witness :
  ∃ verdict, sweep ["gpu"] 0 0 None
    [mkTick (seconds 60) false []; mkTick (seconds 3720) true ["linux"; "gpu"]] = Some verdict.
Proof.
  apply (starvation_bounded ["gpu"] 0 0 _ (mkTick (seconds 3720) true ["linux"; "gpu"]));
    [reflexivity|right; left|vm_compute; congruence].
Defined.

(** No job is given up early.  A job is starved only when no runner
    matches it, no external host is awaited, it is not one the advertised pool
    could serve within the hour, and the grace has run out: 120 seconds since
    it was first seen unmatched (since it was queued, if it carries no mark),
    or 3600 seconds while the pool prepares a runner. *)
Theorem starvation_not_early `{UnicodeLower} job now pool_preparing booted pool_labels reason grace :
  let since := N.max (enqueued_at job) booted in
  starvation_verdict job now pool_preparing booted pool_labels = Starve reason grace →
  any_runner_matches job = false ∧ needs_external_host (starving_runs_on job) = false ∧
  (pool_labels ≠ [] → job_matches_runner (starving_runs_on job) pool_labels = true ∧
     (since + seconds 3600 <= now)%N) ∧
  (grace = seconds 120 ∧ pool_preparing = false ∧ (default since (first_seen job) + grace <= now)%N ∨
   grace = seconds 3600 ∧ pool_preparing = true ∧ (since + grace <= now)%N).
Proof.
  intros since. unfold starvation_verdict. fold since. cbv zeta.
  destruct (any_runner_matches job); [done|].
  destruct (needs_external_host (starving_runs_on job)); [done|]. cbn [orb].
  assert (0 < MAX_QUEUED_GRACE)%N as Hpos by reflexivity.
  assert (0 < QUEUED_JOB_GRACE)%N as Hpos' by reflexivity.
  change (seconds 120) with QUEUED_JOB_GRACE. change (seconds 3600) with MAX_QUEUED_GRACE.
  unfold pool_unsatisfiable_reason.
  destruct (Nat.eqb_spec (length pool_labels) 0) as [Hl|Hl].
  - apply length_zero_iff_nil in Hl. destruct pool_preparing; (case_ltb; [done|]);
      intros [= _ <-]; split_and!; try done; [right|left]; split_and!; try done; lia.
  - cbn [negb andb]. destruct (job_matches_runner (starving_runs_on job) pool_labels); [|done]. cbn [negb].
    destruct (N.ltb_spec (now - since) MAX_QUEUED_GRACE); [done|].
    destruct pool_preparing; [|case_ltb; [done|]];
      intros [= _ <-]; split_and!; try done; try (intros _; split; [done|lia]);
      [right|left]; split_and!; try done; lia.
Qed.

Lemma starvation_not_early_witness :
  let job := mkStarving ["gpu"] 0 None false in
  any_runner_matches job = false.
Proof.
  apply (starvation_not_early (mkStarving ["gpu"] 0 None false) (seconds 121) false 0 []
           (starve_reason ["gpu"] QUEUED_JOB_GRACE) QUEUED_JOB_GRACE).
  reflexivity.
Defined.
