(* ===== verification/Scheduler.v ===== *)
(** * Scheduling decisions

    The pure decisions of
    [crates/preloop-runner-server/src/control/logic.rs] and
    [runtime_scheduling.rs]: what a job's needs say, when it runs, which matrix
    legs start or are cancelled, what a completion settles, the queue state of
    a job row and the stamps of status events. *)
From S2P Require Export Labels NeedsDag.

(** ** Priorities and queue states *)

Definition INTERACTIVE_EVENTS : list string := ["issue_comment"; "workflow_dispatch"].
Definition INTERACTIVE_RUN_PRIORITY : Z := 10.

Definition run_priority (event : string) : Z :=
  if mem_str event INTERACTIVE_EVENTS then INTERACTIVE_RUN_PRIORITY else 0.

Inductive QueueState : Type :=
| QNone | QReady | QClaimed | QBlocked | QHeld | QPendingExpansion | QExpanding.

#[export] Instance QueueState_eq_dec : EqDecision QueueState.
Proof. solve_decision. Defined.

Record QueueStateInput : Type := mkQueueInput {
  q_status : ExecutionStatus;
  q_remaining_needs : Z;
  q_ready : bool;
  q_claimed : bool;
  q_concurrency_wait : bool;
  q_max_parallel_wait : bool;
  q_pending_expansion : bool;
  q_expanding : bool;
}.

Definition queue_state (input : QueueStateInput) : QueueState :=
  if is_terminal (q_status input) then QNone
  else if q_expanding input then QExpanding
  else if q_pending_expansion input then QPendingExpansion
  else if q_concurrency_wait input then QHeld
  else if q_claimed input then QClaimed
  else if q_ready input then QReady
  else if (0 <? q_remaining_needs input)%Z || q_max_parallel_wait input then QBlocked
  else QNone.

(** ** Aggregated needs *)

Definition has_status (s : ExecutionStatus) (statuses : list ExecutionStatus) : bool :=
  bool_decide (s ∈ statuses).

Definition all_status (s : ExecutionStatus) (statuses : list ExecutionStatus) : bool :=
  forallb (λ t, bool_decide (t = s)) statuses.

Definition aggregate_needs_status (statuses : list ExecutionStatus) : option ExecutionStatus :=
  if (length statuses =? 0) || existsb (λ s, negb (is_terminal s)) statuses then None
  else if has_status Failure statuses then Some Failure
  else if has_status Cancelled statuses then Some Cancelled
  else if has_status Skipped statuses then Some Skipped
  else if all_status Success statuses then Some Success
  else None.

(** [aggregate_need_status] of [runtime_scheduling.rs]. *)
Definition aggregate_need_status (statuses : list ExecutionStatus) : option ExecutionStatus :=
  if has_status Failure statuses then Some Failure
  else if has_status Cancelled statuses then Some Cancelled
  else if has_status Skipped statuses then Some Skipped
  else if negb (length statuses =? 0) && all_status Success statuses then Some Success
  else None.

Definition summarize_run (statuses : list ExecutionStatus) : ExecutionStatus :=
  if existsb (λ s, negb (is_terminal s)) statuses then InProgress
  else if has_status Failure statuses then Failure
  else if has_status Cancelled statuses then Cancelled
  else if negb (length statuses =? 0) && all_status Skipped statuses then Skipped
  else Success.

Definition status_string (s : ExecutionStatus) : string :=
  match s with
  | Queued | Pending | InProgress => "in_progress"
  | Success => "success"
  | Failure => "failure"
  | Skipped => "skipped"
  | Cancelled => "cancelled"
  end.

(** [status_str] and [status_parse] of [control/types.rs]. *)
Definition status_str (s : ExecutionStatus) : string :=
  match s with
  | Queued => "queued"
  | Pending => "pending"
  | InProgress => "in_progress"
  | Success => "success"
  | Failure => "failure"
  | Skipped => "skipped"
  | Cancelled => "cancelled"
  end.

Definition status_parse (s : string) : ExecutionStatus :=
  if str_eqb s "pending" then Pending
  else if str_eqb s "in_progress" then InProgress
  else if str_eqb s "success" then Success
  else if str_eqb s "failure" then Failure
  else if str_eqb s "skipped" then Skipped
  else if str_eqb s "cancelled" then Cancelled
  else Queued.

Inductive NeedsDecision : Type := NWait | NPromote | NSkip | NError.

Inductive NeedsCondition : Type :=
| DefaultSuccess | Always | AnyFailure | AnyCancelled | Explicit (b : bool).

Definition needs_decision_from_bool (condition : NeedsCondition) (v : bool) : NeedsDecision :=
  if v then NPromote else NSkip.

Definition needs_decision (statuses : list ExecutionStatus) (condition : NeedsCondition) : NeedsDecision :=
  if length statuses =? 0 then needs_decision_from_bool condition true
  else if existsb (λ s, negb (is_terminal s)) statuses then NWait
  else
    let v :=
      match condition with
      | DefaultSuccess => all_status Success statuses
      | Always => true
      | AnyFailure => has_status Failure statuses
      | AnyCancelled => has_status Cancelled statuses
      | Explicit v => v
      end in
    needs_decision_from_bool condition v.

(** A 32-bit signed subtraction that saturates at the type's bounds. *)
Definition i32_min : Z := - 2 ^ 31.
Definition i32_max : Z := 2 ^ 31 - 1.
Definition i32_saturating_sub (a b : Z) : Z := Z.max i32_min (Z.min i32_max (a - b)).

Definition decrement_remaining_needs (remaining : Z) (settled_dependency : bool) : Z * bool :=
  let next := if settled_dependency then i32_saturating_sub remaining 1 else remaining in
  (next, settled_dependency && (next =? 0)%Z).

(** ** Matrix legs *)

(** The fields of [MatrixLegRow] the admission reads. *)
Record MatrixLegRow : Type := mkLeg {
  leg_job_id : string;
  leg_status : ExecutionStatus;
  leg_queue_state : QueueState;
}.

Definition leg_active (leg : MatrixLegRow) : bool :=
  bool_decide (leg_status leg = InProgress) ||
  bool_decide (leg_queue_state leg = QReady ∨ leg_queue_state leg = QClaimed).

Definition leg_blocked (leg : MatrixLegRow) : bool := bool_decide (leg_queue_state leg = QBlocked).

(** The loop over the blocked legs, with the number already selected. *)
Fixpoint select_legs (available selected : nat) (legs : list MatrixLegRow) : list string :=
  match legs with
  | [] => []
  | leg :: legs =>
      if leg_blocked leg then
        if available <=? selected then []
        else leg_job_id leg :: select_legs available (S selected) legs
      else select_legs available selected legs
  end.

Definition count_legs (p : MatrixLegRow → bool) (legs : list MatrixLegRow) : nat :=
  length (filter (λ leg, Is_true (p leg)) legs).

Definition max_parallel_admission (legs : list MatrixLegRow) (max_parallel : option nat) : list string :=
  match max_parallel with
  | None => leg_job_id <$> filter (λ leg, Is_true (leg_blocked leg)) legs
  | Some limit => select_legs (limit - count_legs leg_active legs) 0 legs
  end.

(** The fields of [FailFastSibling] the selection reads. *)
Record FailFastSibling : Type := mkSibling {
  sibling_job_id : string;
  sibling_base_id : string;
  sibling_status : ExecutionStatus;
}.

Definition matrix_fail_fast (failed_job_id : string) (failed_base_id : option string) (fail_fast : bool)
    (siblings : list FailFastSibling) : list string :=
  if negb fail_fast then []
  else
    match failed_base_id with
    | None => []
    | Some base => sibling_job_id <$>
        filter (λ s, sibling_job_id s ≠ failed_job_id ∧ sibling_base_id s = base ∧
                     sibling_status s ∈ [Queued; Pending; InProgress]) siblings
    end.

(** ** Completions *)

(** The fields of [CompletionRow] the decision reads. *)
Record CompletionRow : Type := mkCompletion {
  prior_status : ExecutionStatus;
  reported_status : ExecutionStatus;
  completion_continue_on_error : bool;
  run_will_be_terminal : bool;
}.

Record CompletionDecision : Type := mkCompletionDecision {
  effective_status : ExecutionStatus;
  replayed : bool;
  release_workflow_hold : bool;
  promote_dependents : bool;
}.

Definition completion_decision (row : CompletionRow) : CompletionDecision :=
  let replayed := is_terminal (prior_status row) && negb (bool_decide (prior_status row = Cancelled)) in
  let reported :=
    if completion_continue_on_error row && bool_decide (reported_status row = Failure) then Success
    else reported_status row in
  let effective :=
    if bool_decide (prior_status row = Cancelled) && is_terminal reported then Cancelled
    else if replayed then prior_status row
    else reported in
  mkCompletionDecision effective replayed (run_will_be_terminal row) (negb replayed && is_terminal effective).

Definition count_run_statuses (statuses : list ExecutionStatus) : nat * nat * nat :=
  foldl (λ '(queued, running, completed) s,
           match s with
           | Queued => (S queued, running, completed)
           | Pending | InProgress => (queued, S running, completed)
           | _ => (queued, running, S completed)
           end) (0, 0, 0) statuses.

Record ExpansionFence : Type := mkFence { expected_generation : Z; current_generation : Z }.

Inductive ExpansionDecision : Type :=
| ExpansionStale
| ExpansionFailed (s : ExecutionStatus)
| ExpansionEmpty (s : ExecutionStatus)
| ExpansionApply.

Definition expansion_decision (fence : ExpansionFence) (build_status : result ExecutionStatus nat) :
    ExpansionDecision :=
  if negb (expected_generation fence =? current_generation fence)%Z then ExpansionStale
  else
    match build_status with
    | Err status => ExpansionFailed status
    | Ok 0 => ExpansionEmpty Skipped
    | Ok _ => ExpansionApply
    end.

(** ** Event stamps *)

Inductive EventStamp : Type := Version (v : Z) | Unversioned | Stale.

Definition job_event_stamp (event : ExecutionStatus) (row_status : string) (row_version : Z) : EventStamp :=
  let row := if str_eqb row_status "timed_out" then Failure else status_parse row_status in
  if bool_decide (row = event) then Version row_version
  else if is_terminal row then Stale
  else Unversioned.

Definition run_event_stamp (event : ExecutionStatus) (row_status : string)
    (row_conclusion : option string) (row_version : Z) : EventStamp :=
  let settled := str_eqb row_status "completed" in
  let row :=
    if settled then
      match row_conclusion with
      | None => Failure
      | Some conclusion => if str_eqb conclusion "timed_out" then Failure else status_parse conclusion
      end
    else status_parse row_status in
  let matched := bool_decide (row = event) || (bool_decide (row = Queued) && bool_decide (event = Pending)) in
  if matched then Version row_version
  else if settled then Stale
  else Unversioned.

(** ** Dependencies of a job in its run *)
Section dependencies.
Context {num : Type} `{NumberOps num, JsonCodec num, UnicodeCase}.
Variable hash_files : list (value num) → option string → result ExpressionError string.

(** The fields of [RunRecord] the decisions read. *)
Record RunRecord : Type := mkRun {
  jobs : gmap string ExecutionStatus;
  job_base_ids : gmap string string;
  job_needs : gmap string (list string);
  job_outputs : gmap string (gmap string (value num));
}.

(** The fields of [QueuedJob] [dependency_decision] reads. *)
Record QueuedJob : Type := mkQueued {
  queued_needs : list string;
  queued_if : option string;
  condition_context : Context num;
}.

Inductive DependencyDecision : Type := DWait | DRun | DSkip | DError.

Definition matching_need_ids (run : RunRecord) (need : string) : list string :=
  filter (λ job_id, job_id = need ∨ job_base_ids run !! job_id = Some need) (btree_keys (jobs run)).

Definition matching_need_statuses (run : RunRecord) (need : string) : list ExecutionStatus :=
  omap (λ job_id, jobs run !! job_id) (matching_need_ids run need).

Definition need_edges (run : RunRecord) (job_id : string) : list string :=
  flat_map (matching_need_ids run) (default [] (job_needs run !! job_id)).

(** The stack has its top first; [pending.pop()] takes the last pushed. *)
Fixpoint ancestor_loop (fuel : nat) (run : RunRecord) (pending : list string) (visited : gset string)
    (statuses : list ExecutionStatus) : option (list ExecutionStatus) :=
  match fuel with
  | O => None
  | S fuel =>
      match pending with
      | [] => Some statuses
      | job_id :: pending =>
          if decide (job_id ∈ visited) then ancestor_loop fuel run pending visited statuses
          else
            ancestor_loop fuel run (reverse (need_edges run job_id) ++ pending) ({[job_id]} ∪ visited)
              (statuses ++ match jobs run !! job_id with Some s => [s] | None => [] end)
      end
  end.

Definition direct_needs (run : RunRecord) (needs : list string) : list string :=
  flat_map (matching_need_ids run) needs.

Definition unvisited_cost (run : RunRecord) (visited : gset string) (job_id : string) : nat :=
  if decide (job_id ∈ visited) then 0 else length (need_edges run job_id).

Definition unvisited_edges (run : RunRecord) (visited : gset string) : nat :=
  sum_list_with (unvisited_cost run visited) (btree_keys (jobs run)).

(** The fuel is the number of pops: the direct needs and every edge once. *)
Definition ancestor_statuses (run : RunRecord) (needs : list string) : option (list ExecutionStatus) :=
  let pending := direct_needs run needs in
  ancestor_loop (S (length pending + unvisited_edges run ∅)) run (reverse pending) ∅ [].

(** One entry of the [needs] context. *)
Definition need_entry (run : RunRecord) (need : string) : option (string * value num) :=
  result ← aggregate_need_status (matching_need_statuses run need);
  let outputs :=
    foldl (λ acc job_id,
             imap_extend acc (omap (λ k, (k,.) <$> (default ∅ (job_outputs run !! job_id) !! k))
                                (btree_keys (default ∅ (job_outputs run !! job_id)))))
      [] (matching_need_ids run need) in
  Some (need, JObject [("result", JString (status_string result)); ("outputs", JObject outputs)]).

Definition needs_json_context (run : RunRecord) (needs : list string) : value num :=
  JObject (foldl (λ acc '(k, v), imap_insert k v acc) [] (omap (need_entry run) needs)).

(** [dependency_decision]; [None] would be the ancestor walk out of fuel. *)
Definition dependency_decision (run : RunRecord) (job : QueuedJob) : option DependencyDecision :=
  if length (queued_needs job) =? 0 then Some DRun
  else
    let direct_statuses := flat_map (matching_need_statuses run) (queued_needs job) in
    if (length direct_statuses =? 0) || existsb (λ s, negb (is_terminal s)) direct_statuses
    then Some DWait
    else
      statuses ← ancestor_statuses run (queued_needs job);
      let aggregate := default Skipped (aggregate_need_status statuses) in
      let context := with_status (condition_context job) (bool_decide (aggregate = Success))
                       (bool_decide (aggregate = Failure)) (bool_decide (aggregate = Cancelled)) in
      let context := context_insert context "needs" (needs_json_context run (queued_needs job)) in
      Some (match eval_bool hash_files (effective_condition (queued_if job)) context with
            | Ok true => DRun
            | Ok false => DSkip
            | Err _ => DError
            end).

End dependencies.
Arguments RunRecord : clear implicits.
Arguments QueuedJob : clear implicits.

(** ** Aggregation *)

Definition severity (s : ExecutionStatus) : nat :=
  match s with
  | Failure => 3
  | Cancelled => 2
  | Skipped => 1
  | _ => 0
  end.

Lemma has_status_true s l : has_status s l = true ↔ s ∈ l.
Proof. apply bool_decide_eq_true. Qed.

Lemma all_terminal l : existsb (λ s, negb (is_terminal s)) l = false ↔ ∀ s, s ∈ l → is_terminal s = true.
Proof.
  rewrite <-not_true_iff_false, existsb_exists. setoid_rewrite <-list_elem_of_In. split.
  - intros Hno s Hs. destruct (is_terminal s) eqn:Ht; [done|]. destruct Hno. exists s. by rewrite Ht.
  - intros Hall (s & Hs & Hn). by rewrite Hall in Hn.
Qed.

Lemma all_status_true s l : all_status s l = true ↔ ∀ t, t ∈ l → t = s.
Proof. unfold all_status. rewrite forallb_elem. by setoid_rewrite bool_decide_eq_true. Qed.

(** The result of a set of needs.  It is decided only when the set is not
    empty and every member is final, it is then the most severe member
    (failure, cancelled, skipped, success), and the two implementations, of
    the backends and of the runtime scheduler, agree on it. *)
Theorem aggregate_needs_status_spec statuses :
  (∀ s, aggregate_needs_status statuses = Some s ↔
     (∀ t, t ∈ statuses → is_terminal t = true ∧ severity t <= severity s) ∧ s ∈ statuses) ∧
  ((∀ t, t ∈ statuses → is_terminal t = true) →
     aggregate_needs_status statuses = aggregate_need_status statuses).
Proof.
  assert ((∀ t, t ∈ statuses → is_terminal t = true) →
     aggregate_needs_status statuses = aggregate_need_status statuses) as Hagree.
  { intros Hterm. unfold aggregate_needs_status, aggregate_need_status.
    rewrite (proj2 (all_terminal statuses)) by done. rewrite orb_false_r.
    destruct statuses as [|t l]; done. }
  split; [|done]. intros s. split.
  - unfold aggregate_needs_status. destruct (_ || _) eqn:Hund; [done|].
    apply orb_false_iff in Hund as [Hne Hterm]. rewrite all_terminal in Hterm.
    destruct (has_status Failure statuses) eqn:HF.
    { intros [= <-]. apply has_status_true in HF. split; [|done].
      intros t Ht. split; [by apply Hterm|]. by destruct t; simpl; lia. }
    destruct (has_status Cancelled statuses) eqn:HC.
    { intros [= <-]. apply has_status_true in HC. split; [|done].
      intros t Ht. split; [by apply Hterm|]. destruct t; simpl; try lia.
      by apply has_status_true in Ht; rewrite HF in Ht. }
    destruct (has_status Skipped statuses) eqn:HS.
    { intros [= <-]. apply has_status_true in HS. split; [|done].
      intros t Ht. split; [by apply Hterm|].
      destruct t; simpl; try lia; apply has_status_true in Ht; congruence. }
    destruct (all_status Success statuses) eqn:HA; [|done]. intros [= <-].
    rewrite all_status_true in HA. split.
    + intros t Ht. rewrite (HA t Ht). done.
    + destruct statuses as [|t l]; [done|]. rewrite <-(HA t); left.
  - intros [Hall Hin]. rewrite Hagree by (intros t Ht; by apply Hall). unfold aggregate_need_status.
    assert (∀ u, has_status u statuses = true → severity u <= severity s) as Hsev
      by (intros u Hu; by apply Hall, has_status_true).
    pose proof (proj2 (has_status_true s statuses) Hin) as Hself.
    pose proof (proj1 (Hall s Hin)) as Ht.
    destruct (has_status Failure statuses) eqn:HF.
    { apply Hsev in HF. destruct s; simpl in *; done || lia. }
    destruct (has_status Cancelled statuses) eqn:HC.
    { apply Hsev in HC. destruct s; simpl in *; done || lia || congruence. }
    destruct (has_status Skipped statuses) eqn:HS.
    { apply Hsev in HS. destruct s; simpl in *; done || lia || congruence. }
    assert (s = Success) as ->.
    { destruct s; done || congruence. }
    rewrite (proj2 (all_status_true Success statuses)).
    + destruct statuses; [by apply elem_of_nil in Hin|done].
    + intros t Htin. destruct (Hall t Htin) as [Htt _].
      destruct t; try done; apply has_status_true in Htin; congruence.
Qed.

(** The counter of remaining needs is not clamped at zero: a second decrement
    of a settled row leaves it negative. *)
Example decrement_below_zero : decrement_remaining_needs 0 true = ((-1)%Z, false).
Proof. reflexivity. Qed.

(** ** Matrix legs *)

Definition blocked_ids (legs : list MatrixLegRow) : list string :=
  leg_job_id <$> filter (λ leg, Is_true (leg_blocked leg)) legs.

Lemma select_legs_take available selected legs :
  select_legs available selected legs = take (available - selected) (blocked_ids legs).
Proof.
  revert selected. unfold blocked_ids. induction legs as [|leg legs IH]; intros selected; cbn [select_legs].
  { symmetry; apply take_nil. }
  rewrite filter_cons. destruct (leg_blocked leg) eqn:Hb.
  - rewrite decide_True by done. destruct (Nat.leb_spec available selected) as [Hle|Hgt].
    + by replace (available - selected) with 0 by lia.
    + rewrite IH, fmap_cons. by replace (available - selected) with (S (available - S selected)) by lia.
  - rewrite decide_False by by intros []. apply IH.
Qed.

(** Admission of matrix legs under [max-parallel].  The admitted legs are
    the first blocked ones in order; together with the legs that are already
    queued, claimed or running they never exceed the limit (unless the active
    ones alone do), and a blocked leg is left out only when the limit is
    reached. *)
Theorem max_parallel_admission_spec legs limit :
  let active := count_legs leg_active legs in
  let admitted := max_parallel_admission legs (Some limit) in
  admitted `prefix_of` blocked_ids legs ∧
  active + length admitted <= active `max` limit ∧
  (admitted = blocked_ids legs ∨ limit <= active + length admitted) ∧
  max_parallel_admission legs None = blocked_ids legs.
Proof.
  cbv zeta. cbn [max_parallel_admission]. rewrite select_legs_take, Nat.sub_0_r, length_take.
  split_and!; [apply prefix_take|lia| |done].
  destruct (Nat.le_gt_cases (length (blocked_ids legs)) (limit - count_legs leg_active legs)).
  - left. by apply take_ge.
  - right. lia.
Qed.

(** ** Completions *)

(** The status of a job after successive reports. *)
Definition settle (prior : ExecutionStatus) (reports : list (ExecutionStatus * bool)) : ExecutionStatus :=
  foldl (λ prior '(reported, coe),
           effective_status (completion_decision (mkCompletion prior reported coe false)))
    prior reports.

Lemma completion_settled prior reported coe terminal :
  is_terminal prior = true → is_terminal reported = true →
  effective_status (completion_decision (mkCompletion prior reported coe terminal)) = prior.
Proof. by destruct prior, reported, coe. Qed.

Lemma settle_settled prior reports :
  is_terminal prior = true → (∀ r coe, (r, coe) ∈ reports → is_terminal r = true) →
  settle prior reports = prior.
Proof.
  intros Hp Hr. induction reports as [|[r coe] reports IH]; [done|]. unfold settle. cbn [foldl].
  rewrite completion_settled; [|done|apply (Hr r coe); by left].
  apply IH. intros r' coe' Hin. apply (Hr r' coe'). by right.
Qed.

(** The first result wins.  A job that is not final takes the first final
    status reported (a failure counts as a success when it may continue on
    error), its dependents are promoted then, and no later report, of any
    status, changes it. *)
Theorem first_result_wins prior reported coe reports :
  is_terminal prior = false → is_terminal reported = true →
  (∀ r c, (r, c) ∈ reports → is_terminal r = true) →
  let result := if coe && bool_decide (reported = Failure) then Success else reported in
  settle prior ((reported, coe) :: reports) = result ∧
  (∀ t, let d := completion_decision (mkCompletion prior reported coe t) in
     effective_status d = result ∧ replayed d = false ∧ promote_dependents d = true) ∧
  (∀ r c t, result ≠ Cancelled →
     promote_dependents (completion_decision (mkCompletion result r c t)) = false).
Proof.
  intros Hp Hr Hreports result.
  assert (is_terminal result = true) as Hres by (unfold result; by destruct coe, reported).
  split_and!.
  - change (settle (effective_status (completion_decision (mkCompletion prior reported coe false))) reports
            = result).
    assert (effective_status (completion_decision (mkCompletion prior reported coe false)) = result) as ->
      by (unfold result; by destruct prior, reported, coe).
    by apply settle_settled.
  - intros t. unfold result. by destruct prior, reported, coe.
  - intros r c t Hne. unfold completion_decision. cbn. rewrite Hres.
    by rewrite bool_decide_eq_false_2.
Qed.

Lemma first_result_wins_witness :
  settle InProgress [(Failure, true); (Cancelled, false); (Failure, false)] = Success.
Proof.
  apply (first_result_wins InProgress Failure true [(Cancelled, false); (Failure, false)]); [done..|].
  intros r c Hin. repeat apply elem_of_cons in Hin as [[= -> ->]|Hin]; [done..|].
  by apply elem_of_nil in Hin.
Defined.

(** ** Event stamps *)

Lemma status_parse_str s : status_parse (status_str s) = s.
Proof. by destruct s. Qed.

(** What an event stamp claims.  An event carries the row's version
    exactly when the row still holds the state it reports (a held run is
    queued in its row); it is dropped as stale only when the row has settled
    on another final state; and the wire form of a status reads back. *)
Theorem event_stamps_sound event row version :
  (job_event_stamp event (status_str row) version =
     if bool_decide (row = event) then Version version
     else if is_terminal row then Stale else Unversioned) ∧
  job_event_stamp Failure "timed_out" version = Version version ∧
  (is_terminal row = true → run_event_stamp event "completed" (Some (status_str row)) version =
     if bool_decide (row = event) then Version version else Stale) ∧
  (is_terminal row = false → run_event_stamp event (status_str row) None version =
     if bool_decide (row = event ∨ (row = Queued ∧ event = Pending)) then Version version
     else Unversioned).
Proof. split_and!; destruct row, event; try reflexivity; discriminate. Qed.

Lemma event_stamps_sound_witness :
  run_event_stamp Pending (status_str Queued) None 7 = Version 7.
Proof. apply (event_stamps_sound Pending Queued 7). reflexivity. Defined.

(** ** Ancestors *)
Section ancestors.
Context {num : Type}.
Implicit Types (run : RunRecord num).

(** [b] is a job one of [a]'s needs stands for. *)
Definition needs_job run (a b : string) : Prop := b ∈ need_edges run a.

(** [id] is an ancestor of a job that declares [needs]. *)
Definition is_ancestor run (needs : list string) (id : string) : Prop :=
  ∃ direct, direct ∈ direct_needs run needs ∧ rtc (needs_job run) direct id.

Lemma elem_of_matching_need_ids run need id :
  id ∈ matching_need_ids run need ↔
  is_Some (jobs run !! id) ∧ (id = need ∨ job_base_ids run !! id = Some need).
Proof. unfold matching_need_ids. rewrite list_elem_of_filter, elem_of_btree_keys. tauto. Qed.

Lemma elem_of_flat_map {A B} (f : A → list B) l y : y ∈ flat_map f l ↔ ∃ x, x ∈ l ∧ y ∈ f x.
Proof. rewrite list_elem_of_In, in_flat_map. by setoid_rewrite <-list_elem_of_In. Qed.

Lemma matching_jobs run (needs : list string) id :
  id ∈ flat_map (matching_need_ids run) needs → is_Some (jobs run !! id).
Proof. intros (need & _ & Hid)%elem_of_flat_map. by apply elem_of_matching_need_ids in Hid as [? _]. Qed.

Record ancestor_inv run (needs : list string) (pending : list string) (visited : gset string)
    (statuses : list ExecutionStatus) : Prop := {
  anc_reach : ∀ id, id ∈ visited ∨ id ∈ pending → is_ancestor run needs id;
  anc_jobs : ∀ id, id ∈ pending → is_Some (jobs run !! id);
  anc_direct : ∀ id, id ∈ direct_needs run needs → id ∈ visited ∨ id ∈ pending;
  anc_edges : ∀ a b, a ∈ visited → needs_job run a b → b ∈ visited ∨ b ∈ pending;
  anc_statuses : ∀ s, s ∈ statuses ↔ ∃ id, id ∈ visited ∧ jobs run !! id = Some s;
}.

Lemma ancestor_inv_pop run needs id pending visited statuses :
  id ∈ visited → ancestor_inv run needs (id :: pending) visited statuses →
  ancestor_inv run needs pending visited statuses.
Proof.
  intros Hv [Hreach Hjobs Hdirect Hedges Hst]. split; [| | | |done].
  - intros x [?|?]; apply Hreach; [by left|right; by right].
  - intros x Hx. apply Hjobs. by right.
  - intros x Hx. destruct (Hdirect x Hx) as [?|[->|?]%elem_of_cons]; auto.
  - intros a b Ha Hab. destruct (Hedges a b Ha Hab) as [?|[->|?]%elem_of_cons]; auto.
Qed.

Lemma ancestor_inv_visit run needs id pending visited statuses :
  ancestor_inv run needs (id :: pending) visited statuses →
  ancestor_inv run needs (reverse (need_edges run id) ++ pending) ({[id]} ∪ visited)
    (statuses ++ match jobs run !! id with Some s => [s] | None => [] end).
Proof.
  intros [Hreach Hjobs Hdirect Hedges Hst].
  assert (∀ x, x ∈ reverse (need_edges run id) ++ pending ↔ needs_job run id x ∨ x ∈ pending) as Hin
    by (intros x; by rewrite elem_of_app, elem_of_reverse).
  assert (is_ancestor run needs id) as Hid by (apply Hreach; right; by left).
  split.
  - intros x. rewrite Hin, elem_of_union, elem_of_singleton.
    intros [[->|?]|[Hx|?]]; [done|apply Hreach; by left| |apply Hreach; right; by right].
    destruct Hid as (d & Hd & Hrtc). exists d. split; [done|]. by eapply rtc_r.
  - intros x. rewrite Hin. intros [Hx|Hx]; [by apply matching_jobs in Hx|apply Hjobs; by right].
  - intros x Hx. rewrite Hin, elem_of_union, elem_of_singleton.
    destruct (Hdirect x Hx) as [?|[->|?]%elem_of_cons]; auto.
  - intros a b. rewrite Hin, !elem_of_union, !elem_of_singleton. intros [->|Ha] Hab; [auto|].
    destruct (Hedges a b Ha Hab) as [?|[->|?]%elem_of_cons]; auto.
  - intros s. rewrite elem_of_app, Hst. split.
    + intros [(x & ? & ?)|Hs]; [exists x; by rewrite elem_of_union; auto|].
      exists id. rewrite elem_of_union, elem_of_singleton. split; [by left|].
      destruct (jobs run !! id); [by apply list_elem_of_singleton in Hs as ->|by apply elem_of_nil in Hs].
    + intros (x & [->%elem_of_singleton|?]%elem_of_union & Hx); [right|left; by exists x].
      rewrite Hx. by apply list_elem_of_singleton.
Qed.

Lemma unvisited_edges_insert run visited id :
  id ∉ visited → is_Some (jobs run !! id) →
  unvisited_edges run ({[id]} ∪ visited) + length (need_edges run id) = unvisited_edges run visited.
Proof.
  intros Hid Hjob. unfold unvisited_edges.
  assert (unvisited_cost run visited id = length (need_edges run id)) as Hold
    by (unfold unvisited_cost; by rewrite decide_False).
  assert (unvisited_cost run ({[id]} ∪ visited) id = 0) as Hnew
    by (unfold unvisited_cost; rewrite decide_True; [done|set_solver]).
  pose proof (sum_list_with_one (unvisited_cost run ({[id]} ∪ visited)) (unvisited_cost run visited)
    (btree_keys (jobs run)) id (NoDup_btree_keys _) (proj2 (elem_of_btree_keys _ _) Hjob)) as Hsum.
  rewrite Hold, Hnew in Hsum. rewrite Hsum; [lia|]. intros m _ Hm. unfold unvisited_cost.
  apply decide_ext. set_solver.
Qed.

Lemma ancestor_loop_spec run needs fuel pending visited statuses :
  ancestor_inv run needs pending visited statuses →
  length pending + unvisited_edges run visited < fuel →
  ∃ result, ancestor_loop fuel run pending visited statuses = Some result ∧
    ∀ s, s ∈ result ↔ ∃ id, is_ancestor run needs id ∧ jobs run !! id = Some s.
Proof.
  revert pending visited statuses. induction fuel as [|fuel IH]; intros pending visited statuses Hinv Hfuel; [lia|].
  cbn [ancestor_loop]. destruct pending as [|id pending].
  - eexists. split; [done|]. destruct Hinv as [Hreach Hjobs Hdirect Hedges Hst]. intros s. rewrite Hst.
    assert (∀ id, is_ancestor run needs id → id ∈ visited) as Hall.
    { intros id (d & Hd & Hrtc).
      assert (d ∈ visited) as Hv by (by destruct (Hdirect d Hd) as [?|?%elem_of_nil]). clear Hd.
      induction Hrtc as [|a b c Hab _ IHr]; [done|]. apply IHr.
      by destruct (Hedges a b Hv Hab) as [?|?%elem_of_nil]. }
    split; intros (id & Hid & ?); exists id; (split; [|done]); [apply Hreach; by left|by apply Hall].
  - case_decide as Hv.
    + apply IH; [by eapply ancestor_inv_pop|simpl in *; lia].
    + pose proof (anc_jobs _ _ _ _ _ Hinv id ltac:(by left)) as Hjob.
      pose proof (unvisited_edges_insert run visited id Hv Hjob).
      apply IH; [by apply ancestor_inv_visit|].
      rewrite length_app, length_reverse. simpl in *. lia.
Qed.

Lemma ancestor_statuses_cases run needs :
  ∃ statuses, ancestor_statuses run needs = Some statuses ∧
    ∀ s, s ∈ statuses ↔ ∃ id, is_ancestor run needs id ∧ jobs run !! id = Some s.
Proof.
  apply ancestor_loop_spec; [|rewrite length_reverse; lia]. split.
  - intros id. rewrite elem_of_reverse. intros [?%elem_of_empty|Hid]; [done|].
    exists id. split; [done|apply rtc_refl].
  - intros id. rewrite elem_of_reverse. apply matching_jobs.
  - intros id Hid. right. by apply elem_of_reverse.
  - by intros a b ?%elem_of_empty.
  - intros s. rewrite elem_of_nil. split; [done|]. by intros (? & ?%elem_of_empty & _).
Qed.

End ancestors.

(** ** The implicit success gate *)
Section gate.
Context {num : Type} `{NumberOps num, JsonCodec num, UnicodeCase}.
Variable hash_files : list (value num) → option string → result ExpressionError string.
Implicit Types (run : RunRecord num) (job : QueuedJob num).

Lemma eval_success (context : Context num) : eval_bool hash_files "success()" context = Ok (success context).
Proof.
  unfold eval_bool, eval_expression.
  assert (parse_input (num:=num) (trim_expression_markers "success()") = Ok (Call "success" [])) as ->
    by (vm_compute; reflexivity).
  vm_compute. reflexivity.
Qed.

Lemma elem_of_direct_statuses run (needs : list string) s :
  s ∈ flat_map (matching_need_statuses run) needs ↔
  ∃ id, id ∈ direct_needs run needs ∧ jobs run !! id = Some s.
Proof.
  unfold direct_needs, matching_need_statuses. rewrite elem_of_flat_map.
  setoid_rewrite list_elem_of_omap. setoid_rewrite elem_of_flat_map. naive_solver.
Qed.

Lemma aggregate_Success statuses :
  default Skipped (aggregate_need_status statuses) = Success ↔
  statuses ≠ [] ∧ ∀ s, s ∈ statuses → s = Success.
Proof.
  unfold aggregate_need_status. split.
  - destruct (has_status Failure statuses), (has_status Cancelled statuses),
      (has_status Skipped statuses); try done.
    destruct statuses as [|s l]; [done|]. cbn [length Nat.eqb negb andb].
    destruct (all_status Success (s :: l)) eqn:Hall; [|done]. rewrite all_status_true in Hall.
    by intros _.
  - intros [Hne Hall].
    assert (∀ t, t ≠ Success → has_status t statuses = false) as Hno.
    { intros t Ht. apply not_true_iff_false. rewrite has_status_true. intros Hin. by apply Ht, Hall. }
    rewrite !Hno by done. rewrite (proj2 (all_status_true Success statuses) Hall).
    by destruct statuses.
Qed.

(** The implicit success gate.  A job without an [if] waits until every
    job its needs stand for is final, then runs when all of its ancestors in
    the run succeeded and is skipped otherwise; the walk over the ancestors
    ends even when the needs form a cycle, and no condition error arises. *)
Theorem implicit_success_gate run job :
  queued_if job = None → queued_needs job ≠ [] →
  ∃ d, dependency_decision hash_files run job = Some d ∧
    let direct := direct_needs run (queued_needs job) in
    let ancestor := is_ancestor run (queued_needs job) in
    match d with
    | DWait => direct = [] ∨ ∃ id s, id ∈ direct ∧ jobs run !! id = Some s ∧ is_terminal s = false
    | DRun => direct ≠ [] ∧ ∀ id s, ancestor id → jobs run !! id = Some s → s = Success
    | DSkip => (∀ id s, id ∈ direct → jobs run !! id = Some s → is_terminal s = true) ∧
        ∃ id s, ancestor id ∧ jobs run !! id = Some s ∧ s ≠ Success
    | DError => False
    end.
Proof.
  intros Hif Hneeds. unfold dependency_decision. rewrite Hif.
  destruct (Nat.eqb_spec (length (queued_needs job)) 0) as [Hl|_];
    [by apply length_zero_iff_nil in Hl|].
  set (direct := direct_needs run (queued_needs job)).
  pose proof (elem_of_direct_statuses run (queued_needs job)) as Hst. fold direct in Hst.
  set (statuses := flat_map (matching_need_statuses run) (queued_needs job)) in *.
  destruct ((length statuses =? 0) || existsb (λ s, negb (is_terminal s)) statuses) eqn:Hwait.
  { eexists. split; [done|]. simpl. apply orb_true_iff in Hwait as [Hnil|Hex].
    - left. apply Nat.eqb_eq, length_zero_iff_nil in Hnil.
      destruct direct as [|id l] eqn:Hd; [done|]. exfalso.
      destruct (matching_jobs run (queued_needs job) id) as [s Hs]; [unfold direct, direct_needs in Hd; rewrite Hd; by left|].
      apply (not_elem_of_nil s). rewrite <-Hnil. apply Hst. exists id. split; [by left|done].
    - right. apply existsb_exists in Hex as (s & Hs%list_elem_of_In & Hn). apply Hst in Hs as (id & ? & ?).
      exists id, s. split_and!; [done..|by destruct (is_terminal s)]. }
  apply orb_false_iff in Hwait as [Hne Hterm]. rewrite all_terminal in Hterm.
  destruct (ancestor_statuses_cases run (queued_needs job)) as (anc & -> & Hanc). cbn [mbind option_bind].
  cbv zeta. rewrite eval_success. cbn [success context_insert set_roots with_status].
  eexists. split; [done|].
  pose proof (aggregate_Success anc) as Hagg.
  destruct (bool_decide_reflect (default Skipped (aggregate_need_status anc) = Success)) as [Hs|Hs]; simpl.
  - apply Hagg in Hs as [_ Hall]. split.
    + intros Hd. destruct statuses as [|s l]; [done|]. destruct (proj1 (Hst s)) as (id & Hid & _); [by left|].
      rewrite Hd in Hid. by apply elem_of_nil in Hid.
    + intros id s Hid Hjob. apply Hall, Hanc. by exists id.
  - split; [intros id s Hid Hjob; apply Hterm, Hst; by exists id|].
    destruct (decide (Forall (λ s, s = Success) anc)) as [Hall|Hex].
    + exfalso. apply Hs, Hagg. rewrite Forall_forall in Hall. split; [|done].
      destruct statuses as [|s l]; [done|]. destruct (proj1 (Hst s)) as (id & Hid & Hjob); [by left|].
      intros ->. apply (not_elem_of_nil s). apply Hanc. exists id. split; [|done].
      exists id. split; [done|apply rtc_refl].
    + apply not_Forall_Exists, Exists_exists in Hex as (s & Hin & Hne'); [|solve_decision].
      apply Hanc in Hin as (id & ? & ?). by exists id, s.
Qed.

End gate.

(** [deploy] needs [build], which needs the failed [lint]. *)
Definition sample_run : RunRecord Z :=
  mkRun {[ "lint" := Failure; "build" := Success ]} ∅ {[ "build" := ["lint"] ]} ∅.

Lemma implicit_success_gate_witness :
  ∃ d, dependency_decision no_files sample_run (mkQueued ["build"] None context_default) = Some d ∧
    d = DSkip.
Proof.
  destruct (implicit_success_gate no_files sample_run (mkQueued ["build"] None context_default))
    as (d & Hd & _); [reflexivity|discriminate|].
  exists d. split; [exact Hd|]. vm_compute in Hd. congruence.
Defined.
