(* ===== verification/GithubBreaker.v ===== *)
(** * The circuit breaker for GitHub calls

    [crates/preloop-runner-server/src/github_breaker.rs]: the breaker of one
    credential at one service, the registry of all of them, and the funnel
    that every outbound call goes through, with its accounting.

    Instants and durations are nanoseconds in [N]; an operation takes the instant
    it reads.  A breaker is shared by the calls that hold it ([Arc]) and stays
    with them when the registry drops it, so the breakers live in a heap and
    the registry and the calls refer to them by index.  The crate [http] is
    behind the interface [Http]. *)
From S2P Require Export Prelude ExprText.
From S2P Require Import Labels.

(** ** Data *)

Definition secs (n : N) : N := n * 1000000000.
Definition DURATION_MAX : N := 2 ^ 64 * 1000000000 - 1.
Definition u32_max : N := 2 ^ 32 - 1.
Definition u64_max : N := 2 ^ 64 - 1.

(** How a status prints, and whether a request header of a response, if it has
    it, is visible ASCII ([HeaderValue::to_str]). *)
Class Http := { status_display : N → string }.
Definition HeaderMap : Type := string → option string.

Inductive GithubFailureKind : Type :=
| Unavailable
| RateLimited (retry_after : option N).

Record BreakerConfig : Type := mkConfig {
  enabled : bool; failure_threshold : N; base_open : N; max_open : N; probe_timeout : N }.

Definition default_config : BreakerConfig := mkConfig true 3 (secs 30) (secs 300) (secs 60).

(** [BreakerConfig::from_env], over the variables that are set. *)
Definition from_env (env : string → option string) : BreakerConfig :=
  let cf := default_config in
  let off := match env "PRELOOP_GITHUB_BREAKER" with
             | Some v => bool_decide (to_ascii_lowercase (trim v) ∈ ["off"; "0"; "false"; "disabled"])
             | None => false
             end in
  let cf := if off then mkConfig false (failure_threshold cf) (base_open cf) (max_open cf) (probe_timeout cf) else cf in
  match (v ← env "PRELOOP_GITHUB_BREAKER_THRESHOLD"; parse_unsigned 32 (trim v)) with
  | Some t => if (0 <? t)%N then mkConfig (enabled cf) t (base_open cf) (max_open cf) (probe_timeout cf) else cf
  | None => cf
  end.

Record BreakerInner : Type := mkInner {
  consecutive_failures : N; open_until : option N; probe_started : option N;
  trips : N; open_streak : N; rate_limited : bool; last_error : option string }.

Definition new_inner : BreakerInner := mkInner 0 None None 0 0 false None.

(** ** One breaker *)

Section breaker.
Context (cf : BreakerConfig).

Definition remaining (i : BreakerInner) (now : N) : option N :=
  match open_until i with
  | Some u => if (now <? u)%N then Some (u - now)%N else None
  | None => None
  end.

Definition retry_after (i : BreakerInner) (now : N) : option N :=
  match remaining i now with
  | Some r => Some r
  | None =>
      match open_until i, probe_started i with
      | Some _, Some started =>
          if ((started <=? now) && (now - started <? probe_timeout cf))%N
          then Some (probe_timeout cf - (now - started))%N else None
      | _, _ => None
      end
  end.
Definition is_open (i : BreakerInner) (now : N) : bool := bool_decide (is_Some (retry_after i now)).

Definition with_probe (p : option N) (i : BreakerInner) : BreakerInner :=
  mkInner (consecutive_failures i) (open_until i) p (trips i) (open_streak i) (rate_limited i) (last_error i).

Definition acquire (now : N) (i : BreakerInner) : result N () * BreakerInner :=
  match remaining i now with
  | Some r => (Err r, i)
  | None =>
      match open_until i with
      | Some _ =>
          let probe_live := match probe_started i with
                            | Some started => (now - started <? probe_timeout cf)%N
                            | None => false
                            end in
          if probe_live then (Err (probe_timeout cf), i) else (Ok (), with_probe (Some now) i)
      | None => (Ok (), i)
      end
  end.

Definition record_success (i : BreakerInner) : BreakerInner := mkInner 0 None None (trips i) 0 false None.

Definition open_for (now wait : N) (i : BreakerInner) : BreakerInner :=
  mkInner (consecutive_failures i) (Some (now + wait)%N) (probe_started i)
    (N.min (trips i + 1) u64_max) (N.min (open_streak i + 1) u32_max) (rate_limited i) (last_error i).
Definition with_rate_limited (b : bool) (i : BreakerInner) : BreakerInner :=
  mkInner (consecutive_failures i) (open_until i) (probe_started i) (trips i) (open_streak i) b (last_error i).
Definition with_error (e : string) (i : BreakerInner) : BreakerInner :=
  mkInner (consecutive_failures i) (open_until i) (probe_started i) (trips i) (open_streak i) (rate_limited i) (Some e).
Definition count_failure (i : BreakerInner) : BreakerInner :=
  mkInner (N.min (consecutive_failures i + 1) u32_max) (open_until i) None (trips i) (open_streak i)
    (rate_limited i) (last_error i).

(** The wait a rate limit asks for: between a second and an hour. *)
Definition clamp_wait (wait : N) : N := N.min (N.max wait (secs 1)) (secs 3600).
Definition backoff (streak : N) : N :=
  N.min (N.min (base_open cf * 2 ^ N.min streak 4) DURATION_MAX) (max_open cf).

Definition record_failure (now : N) (kind : GithubFailureKind) (error : string) (i : BreakerInner) : BreakerInner :=
  let i := with_error error (count_failure i) in
  if negb (enabled cf) then i
  else
    match kind with
    | RateLimited wait => open_for now (clamp_wait (default (base_open cf) wait)) (with_rate_limited true i)
    | Unavailable =>
        let i := with_rate_limited false i in
        if (consecutive_failures i <? failure_threshold cf)%N then i
        else open_for now (backoff (open_streak i)) i
    end.

(** *** What a response says *)

(** [retry_after_from_headers]: [unix_now] is the wall clock in seconds. *)
Definition retry_after_from_headers (headers : HeaderMap) (unix_now : N) : option N :=
  let positive n := if (0 <? n)%N then Some (secs n) else None in
  match (v ← headers "retry-after"; n ← parse_unsigned 64 (trim v); positive n) with
  | Some d => Some d
  | None =>
      v ← headers "x-ratelimit-reset"; reset_at ← parse_unsigned 64 (trim v);
      if (unix_now <=? reset_at)%N then positive (reset_at - unix_now)%N else None
  end.

(** [x-ratelimit-remaining] is there and not positive. *)
Definition exhausted (headers : HeaderMap) : bool :=
  match (v ← headers "x-ratelimit-remaining"; parse_i64 (trim v)) with
  | Some remaining => (remaining <=? 0)%Z
  | None => false
  end.

Definition TOO_MANY_REQUESTS : N := 429.
Definition FORBIDDEN : N := 403.
Definition is_server_error (status : N) : bool := ((500 <=? status) && (status <? 600))%N.

Definition classify_status (status : N) (headers : HeaderMap) (unix_now : N) : option GithubFailureKind :=
  let retry_after := retry_after_from_headers headers unix_now in
  if (status =? TOO_MANY_REQUESTS)%N then Some (RateLimited retry_after)
  else if (status =? FORBIDDEN)%N then
    if exhausted headers || bool_decide (is_Some retry_after) then Some (RateLimited retry_after) else None
  else if is_server_error status then Some Unavailable
  else None.

Definition observe_rate_budget (now unix_now : N) (headers : HeaderMap) (i : BreakerInner) : BreakerInner :=
  if negb (enabled cf) then i
  else if negb (exhausted headers) then i
  else
    match retry_after_from_headers headers unix_now with
    | Some wait =>
        open_for now (clamp_wait wait) (with_error "GitHub primary rate limit exhausted" (with_rate_limited true i))
    | None => i
    end.

Definition observe_status `{Http} (now unix_now status : N) (headers : HeaderMap) (i : BreakerInner)
    : option GithubFailureKind * BreakerInner :=
  match classify_status status headers unix_now with
  | Some kind => (Some kind, record_failure now kind ("GitHub responded " +:+ status_display status) i)
  | None => (None, record_success i)
  end.

Record BreakerSnapshot : Type := mkSnapshot {
  snap_open : bool; retry_in_seconds : option N; snap_failures : N; snap_trips : N;
  snap_rate_limited : bool; snap_error : option string }.
Definition snapshot (i : BreakerInner) (now : N) : BreakerSnapshot :=
  mkSnapshot (bool_decide (is_Some (remaining i now))) ((λ r, (r / 1000000000)%N) <$> remaining i now)
    (consecutive_failures i) (trips i) (rate_limited i) (last_error i).

End breaker.

(** ** The registry *)

Inductive GithubCredentialBucket : Type :=
| Installation (id : N) | Pat | App (id : N) | InstallationToken (fingerprint : N) | Relay | Anonymous.
#[export] Instance bucket_eq_dec : EqDecision GithubCredentialBucket.
Proof. solve_decision. Defined.
#[export] Instance bucket_countable : Countable GithubCredentialBucket.
Proof.
  apply (inj_countable'
    (λ b, match b with Installation n => (0, n) | Pat => (1, 0) | App n => (2, n)
          | InstallationToken n => (3, n) | Relay => (4, 0) | Anonymous => (5, 0) end)%N
    (λ t, match t with (0, n) => Installation n | (1, _) => Pat | (2, n) => App n
          | (3, n) => InstallationToken n | (4, _) => Relay | _ => Anonymous end)%N).
  by intros [].
Defined.

(** FNV-1a on 64 bits. *)
Definition fnv1a_64 (b : list N) : N :=
  foldl (λ hash byte, (N.lxor hash byte * 0x100000001b3) mod 2 ^ 64)%N 0xcbf29ce484222325%N b.
Definition for_app (app_id : string) : GithubCredentialBucket :=
  let app_id := trim app_id in
  App (default (fnv1a_64 (Utf8.bytes app_id)) (parse_unsigned 64 app_id)).
Definition for_installation_token (token : string) : GithubCredentialBucket :=
  InstallationToken (fnv1a_64 (Utf8.bytes token)).

Definition unnamed_bucket (b : GithubCredentialBucket) : bool :=
  match b with InstallationToken _ => true | _ => false end.

Record GithubBreakerKey : Type := mkKey { origin : string; bucket : GithubCredentialBucket }.
#[export] Instance key_eq_dec : EqDecision GithubBreakerKey.
Proof. solve_decision. Defined.
#[export] Instance key_countable : Countable GithubBreakerKey.
Proof. apply (inj_countable' (λ k, (origin k, bucket k)) (λ p, mkKey p.1 p.2)). by intros []. Defined.

Record GithubBreakerRegistry : Type := mkRegistry {
  config : BreakerConfig; github_origin : string;
  breakers : gmap GithubBreakerKey nat; unnamed : list GithubBreakerKey; heap : list BreakerInner }.

Definition for_origin (cf : BreakerConfig) (o : string) : GithubBreakerRegistry := mkRegistry cf o ∅ [] [].
Definition with_heap (h : list BreakerInner) (r : GithubBreakerRegistry) : GithubBreakerRegistry :=
  mkRegistry (config r) (github_origin r) (breakers r) (unnamed r) h.

Definition MAX_UNNAMED_INSTALLATION_BUCKETS : nat := 256.

(** [VecDeque::remove] at the first position of [k], and [push_back]. *)
Definition touch_unnamed (k : GithubBreakerKey) (order : list GithubBreakerKey) : list GithubBreakerKey :=
  if unnamed_bucket (bucket k) then
    match list_find (λ c, c = k) order with
    | Some (position, k) => delete position order ++ [k]
    | None => order
    end
  else order.

Fixpoint evict_unnamed (order : list GithubBreakerKey) (m : gmap GithubBreakerKey nat)
    : list GithubBreakerKey * gmap GithubBreakerKey nat :=
  match order with
  | [] => ([], m)
  | k :: order' =>
      if MAX_UNNAMED_INSTALLATION_BUCKETS <? length order then evict_unnamed order' (delete k m) else (order, m)
  end.

Definition breaker_at (o : string) (b : GithubCredentialBucket) (r : GithubBreakerRegistry)
    : nat * GithubBreakerRegistry :=
  let key := mkKey o b in
  let order := touch_unnamed key (unnamed r) in
  match breakers r !! key with
  | Some id => (id, mkRegistry (config r) (github_origin r) (breakers r) order (heap r))
  | None =>
      let id := length (heap r) in
      let m := <[key := id]> (breakers r) in
      let '(order, m) := if unnamed_bucket b then evict_unnamed (order ++ [key]) m else (order, m) in
      (id, mkRegistry (config r) (github_origin r) m order (heap r ++ [new_inner]))
  end.
Definition breaker_for (b : GithubCredentialBucket) (r : GithubBreakerRegistry) : nat * GithubBreakerRegistry :=
  breaker_at (github_origin r) b r.

Definition inner_of (r : GithubBreakerRegistry) (k : GithubBreakerKey) : option BreakerInner :=
  id ← breakers r !! k; heap r !! id.

(** [Iterator::min] of durations. *)
Definition min_opt (a b : option N) : option N :=
  match a, b with Some x, Some y => Some (N.min x y) | Some x, None | None, Some x => Some x | None, None => None end.
Definition unavailable_retry_after_at (o : string) (now : N) (r : GithubBreakerRegistry) : option N :=
  foldr (λ e acc,
    match heap r !! e.2 with
    | Some i =>
        if bool_decide (origin e.1 = o) && negb (rate_limited i) then min_opt (retry_after (config r) i now) acc else acc
    | None => acc
    end) None (map_to_list (breakers r)).
Definition unavailable_retry_after (now : N) (r : GithubBreakerRegistry) : option N :=
  unavailable_retry_after_at (github_origin r) now r.

(** ** Accounting *)

Inductive GithubSubsystem : Type :=
| CheckRuns | Actions | RefResolve | Env | Snapshots | Workflows | Webhooks | AppAuth | Golden | Dispatch
| PushBack | Credentials | Oidc.
#[export] Instance subsystem_eq_dec : EqDecision GithubSubsystem.
Proof. solve_decision. Defined.

Definition ALL : list GithubSubsystem :=
  [CheckRuns; Actions; RefResolve; Env; Snapshots; Workflows; Webhooks; AppAuth; Golden; Dispatch; PushBack; Credentials; Oidc].

Record SubsystemCounters : Type := mkCounters {
  requests : N; c_bytes : N; cross_host_bytes : N; c_rate_limited : N; breaker_blocked : N }.
Definition GithubConsumption : Type := list SubsystemCounters.
Definition new_consumption : GithubConsumption := replicate (length ALL) (mkCounters 0 0 0 0 0).

(** [fetch_add] wraps. *)
Definition fetch_add (n m : N) : N := ((n + m) mod 2 ^ 64)%N.
Definition subsystem_index (s : GithubSubsystem) : nat :=
  match list_find (λ c, c = s) ALL with Some (i, _) => i | None => 0 end.
Definition record (s : GithubSubsystem) (f : SubsystemCounters → SubsystemCounters) (c : GithubConsumption)
    : GithubConsumption := alter f (subsystem_index s) c.
Definition record_request s := record s (λ c,
  mkCounters (fetch_add (requests c) 1) (c_bytes c) (cross_host_bytes c) (c_rate_limited c) (breaker_blocked c)).
Definition record_bytes s n := record s (λ c,
  mkCounters (requests c) (fetch_add (c_bytes c) n) (cross_host_bytes c) (c_rate_limited c) (breaker_blocked c)).
Definition record_cross_host_bytes s n := record s (λ c,
  mkCounters (requests c) (c_bytes c) (fetch_add (cross_host_bytes c) n) (c_rate_limited c) (breaker_blocked c)).
Definition record_rate_limited s := record s (λ c,
  mkCounters (requests c) (c_bytes c) (cross_host_bytes c) (fetch_add (c_rate_limited c) 1) (breaker_blocked c)).
Definition record_breaker_blocked s := record s (λ c,
  mkCounters (requests c) (c_bytes c) (cross_host_bytes c) (c_rate_limited c) (fetch_add (breaker_blocked c) 1)).
Definition record_advertised_bytes (s : GithubSubsystem) (headers : HeaderMap) (c : GithubConsumption) : GithubConsumption :=
  let n := default 0%N (v ← headers "content-length"; parse_unsigned 64 v) in
  if (0 <? n)%N then record_bytes s n c else c.

(** ** The funnel *)

Inductive Exchange : Type :=
| Response (status : N) (headers : HeaderMap)
| TransportError (error : string).

(** A call that was admitted and has not come back. *)
Record Call : Type := mkCall {
  call_key : GithubBreakerKey; call_breaker : nat; call_subsystem : GithubSubsystem; call_expect : list N }.

(** The first half of [send_observed_labeled_at]: the breaker and its permission. *)
Definition start_call (now : N) (o : string) (b : GithubCredentialBucket) (s : GithubSubsystem)
    (st : GithubBreakerRegistry * GithubConsumption) : result N nat * (GithubBreakerRegistry * GithubConsumption) :=
  let '(r, c) := st in
  let '(id, r) := breaker_at o b r in
  match heap r !! id with
  | None => (Ok id, (r, c))
  | Some i =>
      let '(granted, i) := acquire (config r) now i in
      let r := with_heap (<[id := i]> (heap r)) r in
      match granted with
      | Ok _ => (Ok id, (r, c))
      | Err wait => (Err wait, (r, record_breaker_blocked s c))
      end
  end.

(** The second half, on the breaker the call holds. *)
Definition complete `{Http} (now unix_now : N) (call : Call) (e : Exchange)
    (st : GithubBreakerRegistry * GithubConsumption) : GithubBreakerRegistry * GithubConsumption :=
  let '(r, c) := st in
  let update f := with_heap (alter f (call_breaker call) (heap r)) r in
  match e with
  | Response status headers =>
      let c := record_request (call_subsystem call) c in
      if bool_decide (status ∈ call_expect call) then (update (observe_rate_budget (config r) now unix_now headers), c)
      else
        match classify_status status headers unix_now with
        | Some (RateLimited _) =>
            (update (λ i, (observe_status (config r) now unix_now status headers i).2),
             record_rate_limited (call_subsystem call) c)
        | _ =>
            (update (λ i, observe_rate_budget (config r) now unix_now headers
                            (observe_status (config r) now unix_now status headers i).2), c)
        end
  | TransportError error => (update (record_failure (config r) now Unavailable error), c)
  end.

(** ** Runs

    The calls of all tasks, in the order the locks serialise their halves. *)
Record Funnel : Type := mkFunnel {
  registry : GithubBreakerRegistry; consumption : GithubConsumption; calls : gmap nat Call; next_call : nat }.
Definition new_funnel (cf : BreakerConfig) (o : string) : Funnel :=
  mkFunnel (for_origin cf o) new_consumption ∅ 0.

Inductive Event : Type :=
| Start (o : string) (b : GithubCredentialBucket) (s : GithubSubsystem) (expect : list N)
| Finish (call : nat) (unix_now : N) (e : Exchange).

Definition step `{Http} (now : N) (ev : Event) (f : Funnel) : Funnel :=
  match ev with
  | Start o b s expect =>
      let '(res, (r, c)) := start_call now o b s (registry f, consumption f) in
      match res with
      | Ok id => mkFunnel r c (<[next_call f := mkCall (mkKey o b) id s expect]> (calls f)) (S (next_call f))
      | Err _ => mkFunnel r c (calls f) (next_call f)
      end
  | Finish n unix_now e =>
      match calls f !! n with
      | Some call =>
          let '(r, c) := complete now unix_now call e (registry f, consumption f) in
          mkFunnel r c (delete n (calls f)) (next_call f)
      | None => f
      end
  end.
Fixpoint run `{Http} (evs : list (N * Event)) (f : Funnel) : Funnel :=
  match evs with
  | [] => f
  | (now, ev) :: evs => run evs (step now ev f)
  end.

(** The call is refused, and for how long. *)
Definition refusal (now : N) (k : GithubBreakerKey) (f : Funnel) : option N :=
  match (start_call now (origin k) (bucket k) CheckRuns (registry f, consumption f)).1 with
  | Err wait => Some wait
  | Ok _ => None
  end.

(** The event is a call on [k] that starts or comes back. *)
Definition concerns (k : GithubBreakerKey) (f : Funnel) (ev : Event) : Prop :=
  match ev with
  | Start o b _ _ => mkKey o b = k
  | Finish n _ _ => call_key <$> calls f !! n = Some k
  end.
Fixpoint elsewhere `{Http} (k : GithubBreakerKey) (evs : list (N * Event)) (f : Funnel) : Prop :=
  match evs with
  | [] => True
  | (now, ev) :: evs => ¬ concerns k f ev ∧ elsewhere k evs (step now ev f)
  end.

Record registry_ok (r : GithubBreakerRegistry) : Prop := {
  ok_heap : ∀ k id, breakers r !! k = Some id → id < length (heap r);
  ok_inj : ∀ k k' id, breakers r !! k = Some id → breakers r !! k' = Some id → k = k';
  ok_order : NoDup (unnamed r);
  ok_unnamed : ∀ k, k ∈ unnamed r ↔ is_Some (breakers r !! k) ∧ unnamed_bucket (bucket k) = true;
  ok_bound : length (unnamed r) ≤ MAX_UNNAMED_INSTALLATION_BUCKETS }.
Record funnel_ok (f : Funnel) : Prop := {
  ok_registry : registry_ok (registry f);
  ok_calls : ∀ n c, calls f !! n = Some c → n < next_call f ∧ call_breaker c < length (heap (registry f))
    ∧ ∀ k, breakers (registry f) !! k = Some (call_breaker c) → k = call_key c }.

(** ** The registry *)

Lemma touch_unnamed_perm k order : touch_unnamed k order ≡ₚ order.
Proof.
  unfold touch_unnamed. destruct (unnamed_bucket (bucket k)); [|done].
  destruct (list_find _ order) as [[p k']|] eqn:E; [|done].
  apply list_find_Some in E as (E & -> & _). etrans; [apply Permutation_app_comm|]. symmetry. by apply delete_Permutation.
Qed.

Lemma evict_unnamed_spec order m :
  NoDup order → (∀ k, k ∈ order → is_Some (m !! k)) →
  ∃ gone kept, order = gone ++ kept ∧ (evict_unnamed order m).1 = kept
    ∧ length kept ≤ MAX_UNNAMED_INSTALLATION_BUCKETS
    ∧ ∀ k, (evict_unnamed order m).2 !! k = if decide (k ∈ gone) then None else m !! k.
Proof.
  intros Hn. revert m. induction Hn as [|k order Hk Hn IH]; intros m Hm; cbn [evict_unnamed].
  { exists [], []. split_and!; [done|done|cbn; lia|].
    intros k. by rewrite decide_False by apply not_elem_of_nil. }
  destruct (MAX_UNNAMED_INSTALLATION_BUCKETS <? length (k :: order)) eqn:E.
  - destruct (IH (delete k m)) as (gone & kept & -> & H1 & H2 & H4).
    { intros k' H'. rewrite lookup_delete_ne by (intros ->; done). apply Hm. by right. }
    exists (k :: gone), kept. split_and!; [done|done|done|].
    intros k'. rewrite H4. destruct (decide (k' = k)) as [->|].
    * rewrite lookup_delete_eq. rewrite (decide_True (P := k ∈ k :: gone)) by by left. by destruct (decide (k ∈ gone)).
    * rewrite lookup_delete_ne by done. destruct (decide (k' ∈ gone)) as [|Hg].
      -- by rewrite decide_True by by right.
      -- rewrite decide_False; [done|]. by intros [?|?]%elem_of_cons.
  - exists [], (k :: order). apply Nat.ltb_ge in E. split_and!; [done|done|done|].
    intros k'. by rewrite decide_False by apply not_elem_of_nil.
Qed.

(** What [breaker_at] does: it returns the breaker of the key, a new one if it
    has none, and other keys keep theirs or lose one that is unattributable. *)
Lemma breaker_at_spec o b r id r' : registry_ok r → breaker_at o b r = (id, r') →
  registry_ok r'
  ∧ config r' = config r
  ∧ (∀ i, i < length (heap r) → heap r' !! i = heap r !! i)
  ∧ length (heap r) ≤ length (heap r')
  ∧ (breakers r !! mkKey o b = Some id ∧ heap r' = heap r
     ∨ breakers r !! mkKey o b = None ∧ id = length (heap r) ∧ heap r' = heap r ++ [new_inner])
  ∧ (∀ k, k ≠ mkKey o b → breakers r' !! k = breakers r !! k
       ∨ unnamed_bucket (bucket k) = true ∧ breakers r' !! k = None)
  ∧ (∀ k, breakers r' !! k = Some id → k = mkKey o b)
  ∧ (∀ id', breakers r' !! mkKey o b = Some id' → id' = id).
Proof.
  intros Hr. unfold breaker_at. pose proof (touch_unnamed_perm (mkKey o b) (unnamed r)) as Hp.
  assert (∀ k, k ∈ touch_unnamed (mkKey o b) (unnamed r) ↔ k ∈ unnamed r) as Hel by (intros k; by rewrite Hp).
  destruct Hr as [Hheap Hinj Hord Hun Hb].
  destruct (breakers r !! mkKey o b) as [id0|] eqn:E.
  - intros [= <- <-]. cbn. split_and!; [|done|done|lia|by left|by left|naive_solver|naive_solver].
    split; cbn; [done|done|by rewrite Hp| |by rewrite Hp]. intros k. by rewrite Hp.
  - cbn zeta.
    assert (∀ k id, <[mkKey o b := length (heap r)]> (breakers r) !! k = Some id →
      k = mkKey o b ∧ id = length (heap r) ∨ k ≠ mkKey o b ∧ breakers r !! k = Some id ∧ id < length (heap r)) as Hins.
    { intros k id' [[-> <-]|[? ?]]%lookup_insert_Some; [by left|right]. eauto. }
    destruct (unnamed_bucket b) eqn:Eb.
    + assert (NoDup (touch_unnamed (mkKey o b) (unnamed r) ++ [mkKey o b])) as Hnd.
      { apply NoDup_app. rewrite Hp. split_and!; [done| |apply NoDup_singleton].
        intros k Hk%Hel%Hun ->%list_elem_of_singleton. rewrite E in Hk. by destruct Hk as [[? [=]] _]. }
      assert (∀ k, k ∈ touch_unnamed (mkKey o b) (unnamed r) ++ [mkKey o b] ↔
        is_Some (<[mkKey o b := length (heap r)]> (breakers r) !! k) ∧ unnamed_bucket (bucket k) = true) as Hin.
      { intros k. rewrite elem_of_app, Hel, list_elem_of_singleton, Hun.
        destruct (decide (k = mkKey o b)) as [->|]; [rewrite lookup_insert_eq; naive_solver|].
        rewrite lookup_insert_ne by done. naive_solver. }
      destruct (evict_unnamed_spec _ (<[mkKey o b := length (heap r)]> (breakers r)) Hnd) as (gone & kept & Eq & H1 & H2 & H3).
      { intros k Hk. by apply Hin. }
      destruct (evict_unnamed _ _) as [order m]. cbn in H1, H3. subst order. intros [= <- <-]. cbn.
      rewrite Eq in Hnd, Hin. apply NoDup_app in Hnd as (_ & Hdis & Hk).
      assert (∀ k id, m !! k = Some id → <[mkKey o b := length (heap r)]> (breakers r) !! k = Some id) as Hm.
      { intros k id'. rewrite H3. by destruct (decide (k ∈ gone)). }
      rewrite length_app. split_and!; [|done|by intros; apply lookup_app_l|lia|by right| | |].
      * split; cbn; rewrite ?length_app; cbn; [| |done| |done].
        -- intros k id' [[-> ->]|(_ & _ & ?)]%Hm%Hins; lia.
        -- intros k k' id' [[-> ->]|(_ & ? & ?)]%Hm%Hins [[-> ?]|(_ & ? & ?)]%Hm%Hins; try lia; [done|eauto].
        -- intros k. rewrite H3. destruct (decide (k ∈ gone)) as [Hg|Hg].
           ++ split; [|intros [[? [=]] _]]. intros Hk'. by destruct (Hdis k Hg Hk').
           ++ rewrite <-Hin, elem_of_app. naive_solver.
      * intros k Hne. rewrite H3. destruct (decide (k ∈ gone)) as [Hg|Hg].
        -- right. split; [|done]. apply (Hin k). apply elem_of_app. by left.
        -- left. by rewrite lookup_insert_ne.
      * intros k [[-> _]|(_ & _ & ?)]%Hm%Hins; [done|lia].
      * intros id' [[_ ->]|(? & _)]%Hm%Hins; done.
    + intros [= <- <-]. cbn. rewrite length_app.
      split_and!; [|done|by intros; apply lookup_app_l|lia|by right| | |].
      * split; cbn; rewrite ?length_app; cbn; [| |by rewrite Hp| |by rewrite Hp].
        -- intros k id' [[-> ->]|(_ & _ & ?)]%Hins; lia.
        -- intros k k' id' [[-> ->]|(_ & ? & ?)]%Hins [[-> ?]|(_ & ? & ?)]%Hins; try lia; [done|eauto].
        -- intros k. rewrite Hel, Hun. destruct (decide (k = mkKey o b)) as [->|]; [|by rewrite lookup_insert_ne].
           cbn. rewrite Eb. naive_solver.
      * intros k Hne. left. by rewrite lookup_insert_ne.
      * intros k [[-> _]|(_ & _ & ?)]%Hins; [done|lia].
      * intros id' [[_ ->]|(? & _)]%Hins; done.
Qed.

Lemma with_heap_ok h r : registry_ok r → length h = length (heap r) → registry_ok (with_heap h r).
Proof. intros [] Hl. split; cbn; rewrite ?Hl; done. Qed.

(** A call starts on the breaker its key has, or on a new one. *)
Lemma start_call_spec now o b s r c res r' c' : registry_ok r → start_call now o b s (r, c) = (res, (r', c')) →
  ∃ id r1 i, breaker_at o b r = (id, r1) ∧ heap r1 !! id = Some i ∧ i = default new_inner (inner_of r (mkKey o b))
    ∧ r' = with_heap (<[id := (acquire (config r) now i).2]> (heap r1)) r1
    ∧ res = (λ _, id) <$> (acquire (config r) now i).1
    ∧ c' = if is_ok res then c else record_breaker_blocked s c.
Proof.
  intros Hr. unfold start_call. destruct (breaker_at o b r) as [id r1] eqn:E.
  destruct (breaker_at_spec _ _ _ _ _ Hr E) as (_ & Hc & _ & _ & Hid & _ & _ & _).
  assert (∃ i, heap r1 !! id = Some i ∧ i = default new_inner (inner_of r (mkKey o b))) as (i & Hi & Hdef).
  { unfold inner_of. destruct Hid as [[Hk ->]|(Hk & -> & ->)]; rewrite Hk; cbn.
    - destruct (lookup_lt_is_Some_2 (heap r) id) as [i Hi]; [by eapply ok_heap|]. exists i. by rewrite Hi.
    - exists new_inner. by rewrite list_lookup_middle. }
  rewrite Hi, Hc. destruct (acquire (config r) now i) as [[[]|w] i'] eqn:Ea; intros [= <- <- <-];
    exists id, r1, i; rewrite Ea; done.
Qed.

Lemma refusal_inner now k f : registry_ok (registry f) →
  refusal now k f = match (acquire (config (registry f)) now (default new_inner (inner_of (registry f) k))).1 with
                    | Err w => Some w | Ok _ => None end.
Proof.
  intros Hr. unfold refusal.
  destruct (start_call now (origin k) (bucket k) CheckRuns (registry f, consumption f)) as [res [r c]] eqn:E.
  destruct (start_call_spec _ _ _ _ _ _ _ _ _ Hr E) as (id & r1 & i & _ & _ & -> & _ & -> & _).
  destruct k as [o b]. by destruct (acquire _ _ _) as [[]].
Qed.

Section runs.
Context {HT : Http}.

Lemma complete_spec now unix_now call e r c r' c' : complete now unix_now call e (r, c) = (r', c') →
  ∃ g, r' = with_heap (alter g (call_breaker call) (heap r)) r.
Proof.
  unfold complete. destruct e as [st hs|err]; [|intros [= <- <-]; eauto].
  destruct (bool_decide _); [intros [= <- <-]; eauto|].
  destruct (classify_status _ _ _) as [[]|]; intros [= <- <-]; eauto.
Qed.

Lemma new_funnel_ok cf o : funnel_ok (new_funnel cf o).
Proof.
  split; [split; cbn|]; try done; [by constructor| |unfold MAX_UNNAMED_INSTALLATION_BUCKETS; lia].
  intros k. rewrite lookup_empty. split; [by intros ?%not_elem_of_nil|]. by intros [[? [=]] _].
Qed.

Lemma step_ok now ev f : funnel_ok f → funnel_ok (step now ev f).
Proof.
  intros [Hr Hc]. destruct ev as [o b s expect|n unix_now e]; cbn [step].
  - destruct (start_call now o b s (registry f, consumption f)) as [res [r c]] eqn:E.
    destruct (start_call_spec _ _ _ _ _ _ _ _ _ Hr E) as (id & r1 & i & E1 & Hi & _ & -> & -> & _).
    destruct (breaker_at_spec _ _ _ _ _ Hr E1) as (Hr1 & _ & _ & Hl & Hcase & Hk & Hid & Hid').
    assert (registry_ok (with_heap (<[id:=(acquire (config (registry f)) now i).2]> (heap r1)) r1)) as Hok
      by (apply with_heap_ok; [done|by rewrite length_insert]).
    assert (∀ n c0, calls f !! n = Some c0 → n < next_call f ∧ call_breaker c0 < length (heap r1)
      ∧ ∀ k, breakers r1 !! k = Some (call_breaker c0) → k = call_key c0) as Hold.
    { intros n c0 H0. destruct (Hc _ _ H0) as (H1 & H2 & H3). split_and!; [done|lia|].
      intros k Hb. destruct (decide (k = mkKey o b)) as [->|Hne].
      - apply Hid' in Hb as Hb'. destruct Hcase as [[Hkb _]|(_ & -> & _)]; [|lia]. apply H3. by rewrite Hb'.
      - destruct (Hk k Hne) as [Hkb|[_ Hkb]]; [|congruence]. apply H3. by rewrite <-Hkb. }
    destruct (acquire (config (registry f)) now i).1; cbn; split; cbn; rewrite ?length_insert; try done.
    intros n c0 [[<- <-]|[? H0]]%lookup_insert_Some; cbn.
    + split_and!; [lia|by eapply lookup_lt_Some|done].
    + destruct (Hold _ _ H0) as (? & ? & ?). split_and!; [lia|done|done].
  - destruct (calls f !! n) as [call|] eqn:E; [|done].
    destruct (complete now unix_now call e (registry f, consumption f)) as [r c] eqn:Ec.
    destruct (complete_spec _ _ _ _ _ _ _ _ Ec) as [g ->].
    split; cbn; [apply with_heap_ok; [done|by rewrite length_alter]|].
    intros m c0 [_ H0]%lookup_delete_Some. rewrite length_alter. eauto.
Qed.

(** What the answer to a call does to its breaker. *)
Definition effect (cf : BreakerConfig) (now unix_now : N) (expect : list N) (e : Exchange) (i : BreakerInner) : BreakerInner :=
  match e with
  | Response status headers =>
      if bool_decide (status ∈ expect) then observe_rate_budget cf now unix_now headers i
      else
        match classify_status status headers unix_now with
        | Some (RateLimited _) => (observe_status cf now unix_now status headers i).2
        | _ => observe_rate_budget cf now unix_now headers (observe_status cf now unix_now status headers i).2
        end
  | TransportError error => record_failure cf now Unavailable error i
  end.
Lemma complete_effect now unix_now call e r c :
  (complete now unix_now call e (r, c)).1
  = with_heap (alter (effect (config r) now unix_now (call_expect call) e) (call_breaker call) (heap r)) r.
Proof.
  unfold complete, effect. destruct e as [st hs|err]; [|done]. destruct (bool_decide _); [done|].
  by destruct (classify_status _ _ _) as [[]|].
Qed.

Lemma step_config now ev f : funnel_ok f → config (registry (step now ev f)) = config (registry f).
Proof.
  intros [Hr _]. destruct ev as [o b s expect|n unix_now e]; cbn [step].
  - destruct (start_call now o b s (registry f, consumption f)) as [res [r c]] eqn:E.
    destruct (start_call_spec _ _ _ _ _ _ _ _ _ Hr E) as (id & r1 & i & E1 & _ & _ & -> & _).
    destruct (breaker_at_spec _ _ _ _ _ Hr E1) as (_ & Hc & _). by destruct res.
  - destruct (calls f !! n) as [call|]; [|done].
    pose proof (complete_effect now unix_now call e (registry f) (consumption f)) as E.
    destruct (complete _ _ _ _ _) as [r c]. by cbn in E |- *; subst r.
Qed.

(** Every breaker stays in a set that the operations do not leave. *)
Lemma step_invariant (P : BreakerInner → Prop) now ev f : funnel_ok f →
  P new_inner →
  (∀ i, P i → P (acquire (config (registry f)) now i).2) →
  (∀ unix_now expect e i, P i → P (effect (config (registry f)) now unix_now expect e i)) →
  Forall P (heap (registry f)) → Forall P (heap (registry (step now ev f))).
Proof.
  intros [Hr _] Hnew Ha He HP. destruct ev as [o b s expect|n unix_now e]; cbn [step].
  - destruct (start_call now o b s (registry f, consumption f)) as [res [r c]] eqn:E.
    destruct (start_call_spec _ _ _ _ _ _ _ _ _ Hr E) as (id & r1 & i & E1 & Hi & _ & -> & _).
    destruct (breaker_at_spec _ _ _ _ _ Hr E1) as (_ & _ & _ & _ & Hh & _).
    assert (Forall P (heap r1)) as H1 by (destruct Hh as [[_ ->]|(_ & _ & ->)]; rewrite ?Forall_app; auto).
    assert (Forall P (<[id:=(acquire (config (registry f)) now i).2]> (heap r1)))
      by (apply Forall_insert; [done|by eapply Ha, Forall_lookup_1]).
    by destruct res.
  - destruct (calls f !! n) as [call|]; [|done].
    pose proof (complete_effect now unix_now call e (registry f) (consumption f)) as E.
    destruct (complete _ _ _ _ _) as [r c]. cbn in E |- *. subst r. cbn.
    apply Forall_alter; [done|]. intros i Hi HPi. auto.
Qed.
Lemma run_ok evs f : funnel_ok f → funnel_ok (run evs f) ∧ config (registry (run evs f)) = config (registry f).
Proof.
  revert f. induction evs as [|[now ev] evs IH]; intros f Hf; [done|]. cbn [run].
  destruct (IH (step now ev f)) as [? ->]; [by apply step_ok|]. split; [done|by apply step_config].
Qed.

(** A call on another key leaves the breaker of a named one alone. *)
Lemma step_elsewhere k now ev f : funnel_ok f → ¬ concerns k f ev → unnamed_bucket (bucket k) = false →
  inner_of (registry (step now ev f)) k = inner_of (registry f) k.
Proof.
  intros [Hr Hc] Hk Hu. destruct ev as [o b s expect|n unix_now e]; cbn [step concerns] in *.
  - destruct (start_call now o b s (registry f, consumption f)) as [res [r c]] eqn:E.
    destruct (start_call_spec _ _ _ _ _ _ _ _ _ Hr E) as (id & r1 & i & E1 & Hi & _ & -> & _).
    destruct (breaker_at_spec _ _ _ _ _ Hr E1) as (_ & _ & Hh & _ & _ & Hb & Hid & _).
    transitivity (inner_of (with_heap (<[id:=(acquire (config (registry f)) now i).2]> (heap r1)) r1) k); [by destruct res|].
    assert (k ≠ mkKey o b) as Hne by congruence.
    unfold inner_of. cbn. destruct (Hb k Hne) as [Hkb|[? _]]; [|congruence]. rewrite Hkb.
    destruct (breakers (registry f) !! k) as [id'|] eqn:Ek; [|done]. cbn.
    rewrite list_lookup_insert_ne; [apply Hh; by eapply ok_heap|].
    intros ->. destruct Hk. symmetry. apply Hid. congruence.
  - destruct (calls f !! n) as [call|] eqn:En; [|done].
    pose proof (complete_effect now unix_now call e (registry f) (consumption f)) as E.
    destruct (complete _ _ _ _ _) as [r c]. cbn in E |- *. subst r. unfold inner_of. cbn.
    destruct (breakers (registry f) !! k) as [id'|] eqn:Ek; [|done]. cbn.
    apply list_lookup_alter_ne. intros <-. destruct Hk. cbn. f_equal. symmetry. by eapply Hc.
Qed.

(** ** Recovery *)

(** Every instant kept is at most [T], every window ends at most [W] later. *)
Definition due_by (W T : N) (i : BreakerInner) : Prop :=
  (∀ u, open_until i = Some u → u ≤ T + W)%N ∧ (∀ p, probe_started i = Some p → p ≤ T)%N.

Lemma open_for_due W T now wait i : (now ≤ T → wait ≤ W → due_by W T i → due_by W T (open_for now wait i))%N.
Proof. intros ? ? [_ Hp]. split; cbn; [|done]. intros u [= <-]. lia. Qed.
Lemma clamp_wait_le w : (clamp_wait w ≤ secs 3600)%N.
Proof. unfold clamp_wait. lia. Qed.
Lemma acquire_due cf W T now i : (now ≤ T)%N → due_by W T i → due_by W T (acquire cf now i).2.
Proof.
  intros ? Hi. unfold acquire. destruct (remaining i now); [done|]. destruct (open_until i) eqn:Eo; [|done].
  destruct (match probe_started i with Some _ => _ | None => _ end); [done|].
  destruct Hi. split; cbn; [done|]. by intros p [= <-].
Qed.
Lemma record_failure_due cf T now kind err i : (now ≤ T)%N →
  due_by (N.max (secs 3600) (max_open cf)) T i → due_by (N.max (secs 3600) (max_open cf)) T (record_failure cf now kind err i).
Proof.
  intros ? [Ho Hp]. unfold record_failure.
  assert (∀ b, due_by (N.max (secs 3600) (max_open cf)) T (with_rate_limited b (with_error err (count_failure i)))) as Hi by done.
  destruct (negb (enabled cf)); [done|]. destruct kind as [|w].
  - destruct (_ <? _)%N; [apply (Hi false)|]. apply open_for_due; [done| |apply (Hi false)]. unfold backoff. lia.
  - apply open_for_due; [done| |apply (Hi true)]. pose proof (clamp_wait_le (default (base_open cf) w)). lia.
Qed.
Lemma observe_rate_budget_due cf T now unix_now hs i : (now ≤ T)%N →
  due_by (N.max (secs 3600) (max_open cf)) T i → due_by (N.max (secs 3600) (max_open cf)) T (observe_rate_budget cf now unix_now hs i).
Proof.
  intros ? Hi. unfold observe_rate_budget. destruct (negb (enabled cf)); [done|]. destruct (negb (exhausted hs)); [done|].
  destruct (retry_after_from_headers hs unix_now) as [w|]; [|done]. apply open_for_due; [done| |done].
  pose proof (clamp_wait_le w). lia.
Qed.
Lemma effect_due cf T now unix_now expect e i : (now ≤ T)%N →
  due_by (N.max (secs 3600) (max_open cf)) T i → due_by (N.max (secs 3600) (max_open cf)) T (effect cf now unix_now expect e i).
Proof.
  intros ? Hi. assert (∀ st hs, due_by (N.max (secs 3600) (max_open cf)) T (observe_status cf now unix_now st hs i).2) as Hs.
  { intros st hs. unfold observe_status. destruct (classify_status _ _ _); [by apply record_failure_due|]. by split. }
  destruct e as [st hs|err]; cbn [effect]; [|by apply record_failure_due].
  destruct (bool_decide _); [by apply observe_rate_budget_due|].
  destruct (classify_status _ _ _) as [[]|]; [by apply observe_rate_budget_due|done|by apply observe_rate_budget_due].
Qed.

Lemma run_due T evs f : funnel_ok f → Forall (λ e, (e.1 ≤ T)%N) evs →
  Forall (due_by (N.max (secs 3600) (max_open (config (registry f)))) T) (heap (registry f)) →
  Forall (due_by (N.max (secs 3600) (max_open (config (registry f)))) T) (heap (registry (run evs f))).
Proof.
  revert f. induction evs as [|[now ev] evs IH]; intros f Hf Ht Hd; [done|]. cbn [run].
  apply Forall_cons in Ht as [Hn Ht]. cbn in Hn.
  rewrite <-(step_config now ev f) by done. apply IH; [by apply step_ok|done|]. rewrite step_config by done.
  apply step_invariant; [done|by split| | |done].
  - intros i. by apply acquire_due.
  - intros unix_now expect e i. by apply effect_due.
Qed.

Lemma due_granted cf W T now i : due_by W T i → (T + N.max W (probe_timeout cf) ≤ now)%N → (acquire cf now i).1 = Ok ().
Proof.
  intros [Ho Hp] Hn. unfold acquire, remaining. destruct (open_until i) as [u|]; [|done].
  specialize (Ho u eq_refl). replace (now <? u)%N with false by lia.
  destruct (probe_started i) as [p|]; [|done]. specialize (Hp p eq_refl).
  by replace (now - p <? probe_timeout cf)%N with false by lia.
Qed.
End runs.

(** ** Theorems *)

(** Breakers partition by credential and service: as long as no call on a
    named key starts or comes back, whatever happens to the calls on other
    keys, its breaker and its refusals stay as they are. *)
Theorem partitions_isolated `{Http} k evs f now : funnel_ok f → unnamed_bucket (bucket k) = false →
  elsewhere k evs f →
  inner_of (registry (run evs f)) k = inner_of (registry f) k
  ∧ refusal now k (run evs f) = refusal now k f.
Proof.
  intros Hf Hu He.
  assert (inner_of (registry (run evs f)) k = inner_of (registry f) k) as Hi.
  { revert f Hf He. induction evs as [|[t ev] evs IH]; intros f Hf He; [done|]. destruct He as [He Hes]. cbn [run].
    rewrite IH by (done || by apply step_ok). by apply step_elsewhere. }
  destruct (run_ok evs f Hf) as [Hok Hc]. split; [done|].
  rewrite !refusal_inner by apply ok_registry, _ || by apply ok_registry. by rewrite Hi, Hc.
Qed.

(** The registry stays well formed and bounded: at most 256 partitions are
    named by tokens nobody vouches for, the order of eviction lists exactly
    them, partitions do not share a breaker, and a call keeps the breaker of
    its key or one that the registry has dropped. *)
Theorem registry_bounded `{Http} cf o evs : funnel_ok (run evs (new_funnel cf o)).
Proof. apply run_ok, new_funnel_ok. Qed.

(** The queue is never parked for good: whatever GitHub answered until [T], a
    call at any key is admitted once an hour, the longest window and the
    timeout of a probe have passed. *)
Theorem always_recovers `{Http} cf o evs k T now : Forall (λ e, (e.1 ≤ T)%N) evs →
  (T + N.max (N.max (secs 3600) (max_open cf)) (probe_timeout cf) ≤ now)%N →
  refusal now k (run evs (new_funnel cf o)) = None.
Proof.
  intros Ht Hn. destruct (run_ok evs (new_funnel cf o) (new_funnel_ok cf o)) as [Hok Hc].
  rewrite refusal_inner by apply Hok. rewrite Hc. cbn [registry new_funnel for_origin config].
  assert (due_by (N.max (secs 3600) (max_open cf)) T (default new_inner (inner_of (registry (run evs (new_funnel cf o))) k))) as Hd.
  { pose proof (run_due T evs (new_funnel cf o) (new_funnel_ok cf o) Ht (Forall_nil_2 _)) as Hall. cbn in Hall.
    unfold inner_of. destruct (breakers _ !! k) as [id|]; [|by split]. cbn.
    destruct (heap _ !! id) as [i|] eqn:E; [by eapply Forall_lookup_1 in Hall|by split]. }
  by rewrite (due_granted _ _ _ _ _ Hd Hn).
Qed.

(** A disabled breaker never refuses a call. *)
Theorem disabled_never_refuses `{Http} cf o evs k now : enabled cf = false →
  refusal now k (run evs (new_funnel cf o)) = None.
Proof.
  intros Hoff. destruct (run_ok evs (new_funnel cf o) (new_funnel_ok cf o)) as [Hok Hc].
  rewrite refusal_inner by apply Hok.
  assert (Forall (λ i, open_until i = None) (heap (registry (run evs (new_funnel cf o))))) as Hall.
  { assert (Forall (λ i, open_until i = None) (heap (registry (new_funnel cf o)))) as H0 by constructor.
    pose proof (new_funnel_ok cf o) as Hf. change (enabled (config (registry (new_funnel cf o))) = false) in Hoff.
    clear Hok Hc. revert Hoff H0 Hf. generalize (new_funnel cf o). induction evs as [|[t ev] evs IH]; intros f Hoff H0 Hf; [done|].
    cbn [run]. apply IH; [by rewrite step_config| |by apply step_ok].
    assert (∀ kind err i, open_until i = None → open_until (record_failure (config (registry f)) t kind err i) = None) as Hrf.
    { intros kind err i Hi. unfold record_failure. by rewrite Hoff. }
    assert (∀ u st hs i, open_until i = None → open_until (observe_status (config (registry f)) t u st hs i).2 = None) as Hos.
    { intros u st hs i Hi. unfold observe_status. destruct (classify_status _ _ _); [by apply Hrf|done]. }
    apply step_invariant; [done|done| | |done].
    - intros i Hi. unfold acquire, remaining. by rewrite Hi.
    - intros u expect [st hs|err] i Hi; cbn [effect]; [|by apply Hrf]. unfold observe_rate_budget. rewrite Hoff. cbn [negb].
      destruct (bool_decide _); [done|]. destruct (classify_status _ _ _) as [[]|]; by apply Hos. }
  unfold inner_of. destruct (breakers _ !! k) as [id|]; [|done]. cbn.
  destruct (heap _ !! id) as [i|] eqn:E; [|done]. cbn. unfold acquire, remaining.
  by rewrite (Forall_lookup_1 _ _ _ _ Hall E).
Qed.

(** *** One breaker *)

(** What tasks do to it while GitHub is down: they ask, or report a failure. *)
Inductive Report : Type :=
| Asks
| Fails (error : string).
Fixpoint outage (cf : BreakerConfig) (rs : list (N * Report)) (i : BreakerInner) : BreakerInner :=
  match rs with
  | [] => i
  | (now, Asks) :: rs => outage cf rs (acquire cf now i).2
  | (now, Fails e) :: rs => outage cf rs (record_failure cf now Unavailable e i)
  end.
Definition failure_times (rs : list (N * Report)) : list N :=
  omap (λ r, match r.2 with Fails _ => Some r.1 | Asks => None end) rs.

Lemma outage_snoc cf rs r i : outage cf (rs ++ [r]) i = outage cf [r] (outage cf rs i).
Proof. revert i. induction rs as [|[t []] rs IH]; intros i; [done|apply IH|apply IH]. Qed.
Lemma acquire_fields cf now i :
  let i' := (acquire cf now i).2 in
  consecutive_failures i' = consecutive_failures i ∧ open_until i' = open_until i ∧ open_streak i' = open_streak i.
Proof.
  cbn. unfold acquire. destruct (remaining i now); [done|]. destruct (open_until i) eqn:E; [|done].
  by destruct (match probe_started i with Some _ => _ | None => _ end).
Qed.

(** The breaker opens exactly at the threshold of consecutive failures, however
    many tasks ask in between, and every further failure extends the window
    from its own time, by twice as much, up to sixteen times the base and never
    beyond the ceiling. *)
Theorem opens_at_threshold cf rs i : enabled cf = true → (1 ≤ failure_threshold cf ≤ u32_max)%N →
  let i' := outage cf rs (record_success i) in
  let n := N.of_nat (length (failure_times rs)) in
  consecutive_failures i' = N.min n u32_max
  ∧ open_until i' =
      if (n <? failure_threshold cf)%N then None
      else (λ t, (t + backoff cf (n - failure_threshold cf))%N) <$> last (failure_times rs).
Proof.
  intros Hon Ht. cbn zeta.
  enough (∀ n, n = N.of_nat (length (failure_times rs)) →
    let i' := outage cf rs (record_success i) in
    consecutive_failures i' = N.min n u32_max
    ∧ open_streak i' = N.min (n + 1 - failure_threshold cf) u32_max
    ∧ open_until i' = if (n <? failure_threshold cf)%N then None
      else (λ t, (t + backoff cf (n - failure_threshold cf))%N) <$> last (failure_times rs)) as Hg.
  { destruct (Hg _ eq_refl) as (? & _ & ?). done. }
  induction rs as [|[t r] rs IH] using rev_ind; intros n ->.
  - cbn [length failure_times omap list_omap last outage record_success consecutive_failures open_streak open_until N.of_nat].
    replace (N.of_nat 0 <? failure_threshold cf)%N with true by lia. split_and!; [lia|lia|done].
  - destruct (IH _ eq_refl) as (H1 & H2 & H3). cbn zeta. rewrite outage_snoc. unfold failure_times in *. rewrite omap_app.
    set (i0 := outage cf rs (record_success i)) in *. set (ft := omap _ rs) in *.
    destruct r as [|err]; cbn [omap list_omap outage snd fst].
    + rewrite app_nil_r. destruct (acquire_fields cf t i0) as (-> & -> & ->). done.
    + rewrite length_app, last_snoc. cbn [length]. replace (N.of_nat (length ft + 1)) with (N.of_nat (length ft) + 1)%N by lia.
      unfold record_failure. rewrite Hon. cbn [negb]. cbn. rewrite H1.
      replace (N.min (N.min (N.of_nat (length ft)) u32_max + 1) u32_max) with (N.min (N.of_nat (length ft) + 1) u32_max) by lia.
      replace (N.min (N.of_nat (length ft) + 1) u32_max <? failure_threshold cf)%N
        with (N.of_nat (length ft) + 1 <? failure_threshold cf)%N by lia.
      destruct (N.of_nat (length ft) + 1 <? failure_threshold cf)%N eqn:E; cbn.
      * split_and!; [lia|lia|].
        rewrite H3. by replace (N.of_nat (length ft) <? failure_threshold cf)%N with true by lia.
      * split_and!; [lia|lia|]. rewrite H2. do 2 f_equal. unfold backoff. do 4 f_equal.
        unfold u32_max. lia.
Qed.

(** Attempts at the given times, and how many are let through. *)
Fixpoint grants (cf : BreakerConfig) (ts : list N) (i : BreakerInner) : nat :=
  match ts with
  | [] => 0
  | t :: ts => let '(res, i) := acquire cf t i in (if is_ok res then 1 else 0) + grants cf ts i
  end.

Lemma acquire_open cf t u i : open_until i = Some u →
  (∃ w, acquire cf t i = (Err w, i)) ∨
  acquire cf t i = (Ok (), with_probe (Some t) i)
  ∧ (∀ p, probe_started i = Some p → p ≤ t → p + probe_timeout cf ≤ t)%N.
Proof.
  intros Ho. unfold acquire. destruct (remaining i t); [left; eauto|]. rewrite Ho.
  destruct (probe_started i) as [p|] eqn:Ep; [|right; split; [done|intros p [=]]].
  destruct (t - p <? probe_timeout cf)%N eqn:E; [left; eauto|right; split; [done|]]. intros p' [= <-] ?. lia.
Qed.
Lemma grants_after cf ts u i p b : open_until i = Some u → probe_started i = Some p →
  StronglySorted N.le ts → Forall (λ t, p ≤ t ∧ t ≤ b)%N ts → (p ≤ b)%N →
  (p + N.of_nat (grants cf ts i) * probe_timeout cf ≤ b)%N.
Proof.
  intros Ho. revert i p Ho. induction ts as [|t ts IH]; intros i p Ho Hp Hs Ht Hb; cbn [grants]; [lia|].
  apply StronglySorted_inv in Hs as [Hs Hle]. apply Forall_cons in Ht as [[Ht1 Ht2] Ht].
  destruct (acquire_open cf t u i Ho) as [[w ->]|[-> Hgap]]; cbn [is_ok].
  - by apply IH.
  - specialize (Hgap p Hp Ht1).
    assert (t + N.of_nat (grants cf ts (with_probe (Some t) i)) * probe_timeout cf ≤ b)%N; [|lia].
    apply IH; [done|done|done| |done]. apply Forall_and. split; [done|].
    by eapply Forall_impl; [exact Ht|intros ? []].
Qed.

(** Recovery costs one request at a time: while no result comes back, the calls
    that an open breaker lets through between [a] and [b], however many ask,
    are at least the timeout of a probe apart. *)
Theorem probes_spaced cf ts u i a b : open_until i = Some u → (0 < probe_timeout cf)%N →
  StronglySorted N.le ts → Forall (λ t, a ≤ t ∧ t ≤ b)%N ts →
  (N.of_nat (grants cf ts i) ≤ 1 + (b - a) / probe_timeout cf)%N.
Proof.
  intros Ho Hpt. revert i Ho. induction ts as [|t ts IH]; intros i Ho Hs Ht; cbn [grants]; [lia|].
  apply StronglySorted_inv in Hs as [Hs Hle]. apply Forall_cons in Ht as [[Ht1 Ht2] Ht].
  destruct (acquire_open cf t u i Ho) as [[w ->]|[-> _]]; cbn [is_ok]; [by apply IH|].
  assert (t + N.of_nat (grants cf ts (with_probe (Some t) i)) * probe_timeout cf ≤ b)%N as Hg.
  { apply (grants_after cf ts u); [done|done|done| |done]. apply Forall_and. split; [done|].
    by eapply Forall_impl; [exact Ht|intros ? []]. }
  assert (N.of_nat (grants cf ts (with_probe (Some t) i)) ≤ (b - a) / probe_timeout cf)%N; [|lia].
  apply N.div_le_lower_bound; lia.
Qed.

(** The hint a caller polls and the permission agree. *)
Theorem retry_after_exact cf now i : (∀ p, probe_started i = Some p → p ≤ now)%N →
  is_open cf i now = negb (is_ok (acquire cf now i).1).
Proof.
  intros Hp. unfold is_open, retry_after, acquire. destruct (remaining i now); [done|].
  destruct (open_until i); [|done]. destruct (probe_started i) as [p|]; [|done].
  specialize (Hp p eq_refl). replace (p <=? now)%N with true by lia. by destruct (now - p <? probe_timeout cf)%N.
Qed.

(** What an unexpected answer does to the breaker of its call: a rate limit opens it once,
    for as long as GitHub says within a second and an hour; any other answer
    below 500 closes it, unless it reports that the budget is spent. *)
Theorem answers_judged `{Http} cf now unix_now expect status headers i : enabled cf = true → (status ∉ expect) →
  let i' := effect cf now unix_now expect (Response status headers) i in
  match classify_status status headers unix_now with
  | Some (RateLimited wait) =>
      open_until i' = Some (now + clamp_wait (default (base_open cf) wait))%N
      ∧ trips i' = N.min (trips i + 1) u64_max ∧ rate_limited i' = true
  | Some Unavailable => consecutive_failures i' = N.min (consecutive_failures i + 1) u32_max
  | None =>
      consecutive_failures i' = 0%N
      ∧ open_until i' = (if exhausted headers
                         then (λ w, (now + clamp_wait w)%N) <$> retry_after_from_headers headers unix_now else None)
  end.
Proof.
  intros Hon Hs. cbn [effect]. rewrite bool_decide_eq_false_2 by done. unfold observe_status, observe_rate_budget. rewrite Hon.
  destruct (classify_status status headers unix_now) as [[|w]|]; cbn [snd negb].
  - assert (∀ e, consecutive_failures (record_failure cf now Unavailable e i) = N.min (consecutive_failures i + 1) u32_max) as H1.
    { intros e. unfold record_failure. rewrite Hon. cbn [negb]. cbn zeta. by destruct (_ <? _)%N. }
    destruct (exhausted headers); [|apply H1]. destruct (retry_after_from_headers headers unix_now); apply H1.
  - unfold record_failure. rewrite Hon. done.
  - destruct (exhausted headers); [|done]. by destruct (retry_after_from_headers headers unix_now).
Qed.

(** *** Accounting *)

Definition total `{Http} (g : N → Event → Funnel → bool) : list (N * Event) → Funnel → N :=
  fix go evs f :=
    match evs with
    | [] => 0%N
    | (now, ev) :: evs => ((if g now ev f then 1 else 0) + go evs (step now ev f))%N
    end.
Definition attempted (s : GithubSubsystem) (_ : N) (ev : Event) (_ : Funnel) : bool :=
  match ev with Start _ _ s' _ => bool_decide (s' = s) | Finish _ _ _ => false end.
Definition refused (s : GithubSubsystem) (now : N) (ev : Event) (f : Funnel) : bool :=
  match ev with
  | Start o b s' _ => bool_decide (s' = s) && bool_decide (is_Some (refusal now (mkKey o b) f))
  | Finish _ _ _ => false
  end.
Definition came_back (answered : bool) (s : GithubSubsystem) (_ : N) (ev : Event) (f : Funnel) : bool :=
  match ev with
  | Finish n _ e =>
      bool_decide (call_subsystem <$> calls f !! n = Some s)
      && match e with Response _ _ => answered | TransportError _ => negb answered end
  | Start _ _ _ _ => false
  end.
Definition in_flight (s : GithubSubsystem) (f : Funnel) : gmap nat Call :=
  filter (λ c, call_subsystem c.2 = s) (calls f).

Lemma subsystem_index_lt s : subsystem_index s < length ALL.
Proof. destruct s; vm_compute; lia. Qed.
Lemma subsystem_index_inj s s' : subsystem_index s = subsystem_index s' → s = s'.
Proof. by destruct s, s'; vm_compute. Qed.

(** A counter after one more record, for the subsystem [s] it may be for. *)
Lemma record_lookup s s' g c : record s' g c !! subsystem_index s
  = if bool_decide (s' = s) then g <$> c !! subsystem_index s else c !! subsystem_index s.
Proof.
  unfold record. case_bool_decide as E; [subst; apply list_lookup_alter_eq|].
  apply list_lookup_alter_ne. by intros ?%subsystem_index_inj.
Qed.

(** The answers of GitHub update the counters of the call's subsystem only. *)
Lemma complete_counters `{Http} now unix_now call e st s k :
  st.2 !! subsystem_index s = Some k →
  ∃ k', (complete now unix_now call e st).2 !! subsystem_index s = Some k'
    ∧ breaker_blocked k' = breaker_blocked k
    ∧ requests k' = if bool_decide (call_subsystem call = s) && match e with Response _ _ => true | TransportError _ => false end
                    then fetch_add (requests k) 1 else requests k.
Proof.
  destruct st as [r c]. cbn [snd]. intros Hk. unfold complete. destruct e as [status hs|err].
  - rewrite andb_true_r.
    assert (∃ k1, record_request (call_subsystem call) c !! subsystem_index s = Some k1
      ∧ breaker_blocked k1 = breaker_blocked k
      ∧ requests k1 = if bool_decide (call_subsystem call = s) then fetch_add (requests k) 1 else requests k) as (k1 & H1 & H2 & H3).
    { unfold record_request. rewrite record_lookup, Hk. case_bool_decide; cbn; by eexists. }
    destruct (bool_decide (status ∈ _)); [cbn; eauto|].
    destruct (classify_status status hs unix_now) as [[]|]; cbn; eauto.
    unfold record_rate_limited. rewrite record_lookup, H1. destruct (bool_decide (call_subsystem call = s)); cbn; eauto.
  - rewrite andb_false_r. cbn. eauto.
Qed.

Lemma fetch_add_mod n m : fetch_add (n mod 2 ^ 64) m = ((n + m) mod 2 ^ 64)%N.
Proof. unfold fetch_add. by rewrite N.Div0.add_mod_idemp_l. Qed.

Section accounting.
Context {HT : Http} (s : GithubSubsystem).

(** The state of the books before and after an event. *)
Record books (blocked sent : N) (f : Funnel) : Prop := {
  b_row : ∃ c, consumption f !! subsystem_index s = Some c
    ∧ requests c = (sent mod 2 ^ 64)%N ∧ breaker_blocked c = (blocked mod 2 ^ 64)%N }.

Lemma step_books now ev f blocked sent : funnel_ok f → books blocked sent f →
  books (blocked + if refused s now ev f then 1 else 0) (sent + if came_back true s now ev f then 1 else 0) (step now ev f).
Proof.
  intros [Hr Hc] [(k & Hk & Hreq & Hbl)]. destruct ev as [o b s' expect|n unix_now e]; cbn [refused came_back step].
  - rewrite N.add_0_r, refusal_inner by done.
    destruct (start_call now o b s' (registry f, consumption f)) as [res [r c]] eqn:E.
    destruct (start_call_spec _ _ _ _ _ _ _ _ _ Hr E) as (id & r1 & i & _ & _ & -> & _ & -> & ->).
    destruct (acquire _ now _).1 as [u|w]; cbn [is_ok fmap result_fmap].
    + rewrite (bool_decide_eq_false_2 (is_Some None)) by (by intros [? [=]]). rewrite andb_false_r, N.add_0_r. split. eauto.
    + rewrite (bool_decide_eq_true_2 (is_Some (Some w))) by done. rewrite andb_true_r. split. cbn.
      unfold record_breaker_blocked. rewrite record_lookup, Hk. destruct (bool_decide (s' = s)); cbn.
      * eexists. split; [done|]. cbn. split; [done|]. by rewrite Hbl, fetch_add_mod.
      * rewrite N.add_0_r. eauto.
  - rewrite N.add_0_r. destruct (calls f !! n) as [call|]; cbn [fmap option_fmap option_map].
    + destruct (complete_counters now unix_now call e (registry f, consumption f) s k Hk) as (k' & Hk' & Hb & Hq).
      destruct (complete _ _ _ _ _) as [r c]. cbn [snd] in Hk'. split. cbn. exists k'. split; [done|]. rewrite Hb, Hq. split; [|done].
      assert (bool_decide (Some (call_subsystem call) = Some s) = bool_decide (call_subsystem call = s)) as ->
        by (apply bool_decide_ext; naive_solver).
      destruct (_ && _); [by rewrite Hreq, fetch_add_mod|by rewrite N.add_0_r].
    + rewrite bool_decide_eq_false_2 by done. cbn [andb]. rewrite N.add_0_r. split. eauto.
Qed.

Lemma step_in_flight now ev f : funnel_ok f →
  (N.of_nat (size (in_flight s f)) + (if attempted s now ev f then 1 else 0)
   = (if refused s now ev f then 1 else 0) + (if came_back true s now ev f then 1 else 0)
     + (if came_back false s now ev f then 1 else 0) + N.of_nat (size (in_flight s (step now ev f))))%N.
Proof.
  intros [Hr Hc]. destruct ev as [o b s' expect|n unix_now e]; cbn [attempted refused came_back step].
  - rewrite refusal_inner by done.
    destruct (start_call now o b s' (registry f, consumption f)) as [res [r c]] eqn:E.
    destruct (start_call_spec _ _ _ _ _ _ _ _ _ Hr E) as (id & r1 & i & _ & _ & -> & _ & -> & ->).
    destruct (acquire _ now _).1 as [[]|w]; cbn [is_ok fmap result_fmap].
    + rewrite (bool_decide_eq_false_2 (is_Some None)) by (by intros [? [=]]). rewrite andb_false_r.
      unfold in_flight. cbn [calls].
      assert (calls f !! next_call f = None) as Hf.
      { destruct (calls f !! next_call f) eqn:Ef; [|done]. destruct (Hc _ _ Ef) as [? _]. lia. }
      case_bool_decide as Es.
      * rewrite map_filter_insert_True by done. rewrite map_size_insert_None; [lia|].
        apply map_lookup_filter_None. by left.
      * rewrite map_filter_insert_False by done. rewrite delete_id by done. lia.
    + rewrite (bool_decide_eq_true_2 (is_Some (Some w))) by done. rewrite andb_true_r. cbn [calls in_flight]. unfold in_flight. cbn [calls]. lia.
  - destruct (calls f !! n) as [call|] eqn:En; cbn [fmap option_fmap option_map].
    + destruct (complete _ _ _ _ _) as [r c]. unfold in_flight. cbn [calls].
      assert (bool_decide (Some (call_subsystem call) = Some s) = bool_decide (call_subsystem call = s)) as ->
        by (apply bool_decide_ext; naive_solver).
      rewrite map_filter_delete. case_bool_decide as Es.
      * rewrite map_size_delete_Some by (exists call; by apply map_lookup_filter_Some).
        assert (size (filter (λ c0, call_subsystem c0.2 = s) (calls f)) ≠ 0) as Hne.
        { intros H0%map_size_empty_inv. assert (filter (λ c0, call_subsystem c0.2 = s) (calls f) !! n = Some call) as Hx
            by by apply map_lookup_filter_Some. rewrite H0 in Hx. done. }
        destruct e; cbn; lia.
      * rewrite delete_id; [cbn; lia|]. apply map_lookup_filter_None. right. intros c0 Hc0. rewrite En in Hc0. by injection Hc0 as <-.
    + rewrite (bool_decide_eq_false_2 (None = Some s)) by done. cbn. lia.
Qed.

(** The books balance: the counters of a subsystem are the exchanges GitHub
    answered and the attempts the breakers refused, modulo [2^64]; and every attempt
    was refused, answered, broken in transport, or is still in flight. *)
Theorem consumption_accounts cf o evs :
  let f0 := new_funnel cf o in let f := run evs f0 in
  (∃ c, consumption f !! subsystem_index s = Some c
    ∧ requests c = (total (came_back true s) evs f0 mod 2 ^ 64)%N
    ∧ breaker_blocked c = (total (refused s) evs f0 mod 2 ^ 64)%N)
  ∧ (total (attempted s) evs f0
     = total (refused s) evs f0 + total (came_back true s) evs f0 + total (came_back false s) evs f0
       + N.of_nat (size (in_flight s f)))%N.
Proof.
  cbn zeta. split.
  - enough (∀ f blocked sent, funnel_ok f → books blocked sent f →
      books (blocked + total (refused s) evs f) (sent + total (came_back true s) evs f) (run evs f)) as Hg.
    { apply (Hg (new_funnel cf o) 0 0)%N; [apply new_funnel_ok|]. split. cbn [consumption new_funnel].
      exists (mkCounters 0 0 0 0 0). split; [|done]. unfold new_consumption. apply lookup_replicate_2, subsystem_index_lt. }
    induction evs as [|[now ev] evs IH]; intros f blocked sent Hf Hb; cbn [total run]; [by rewrite !N.add_0_r|].
    rewrite !N.add_assoc. apply IH; [by apply step_ok|by apply step_books].
  - enough (∀ f, funnel_ok f → N.of_nat (size (in_flight s f)) + total (attempted s) evs f
      = total (refused s) evs f + total (came_back true s) evs f + total (came_back false s) evs f
        + N.of_nat (size (in_flight s (run evs f))))%N as Hg.
    { specialize (Hg _ (new_funnel_ok cf o)). unfold in_flight at 1 in Hg. cbn [calls new_funnel] in Hg.
      rewrite map_filter_empty, map_size_empty in Hg. lia. }
    induction evs as [|[now ev] evs IH]; intros f Hf; cbn [total run]; [lia|].
    pose proof (step_in_flight now ev f Hf). specialize (IH _ (step_ok now ev f Hf)). lia.
Qed.
End accounting.

(** ** Examples *)

#[local] Instance plain_http : Http := { status_display n := pretty n }.
Definition no_headers : HeaderMap := λ _, None.
Definition retry_in (s : string) : HeaderMap := λ n, if str_eqb n "retry-after" then Some s else None.
Definition api : string := "api.github.com".
Definition installation_7 : GithubBreakerKey := mkKey api (Installation 7).
Definition pat_key : GithubBreakerKey := mkKey api Pat.

(** Installation 7 is rate limited for a minute at second 10. *)
Definition limited : list (N * Event) :=
  [(secs 9, Start api (Installation 7) CheckRuns []); (secs 10, Finish 0 0 (Response 429 (retry_in "60")))].

Lemma partitions_isolated_witness :
  refusal (secs 11) installation_7 (run limited (new_funnel default_config api)) = Some (secs 59)
  ∧ refusal (secs 11) pat_key (run limited (new_funnel default_config api)) = refusal (secs 11) pat_key (new_funnel default_config api).
Proof.
  split; [by vm_compute|].
  apply (partitions_isolated pat_key limited (new_funnel default_config api) (secs 11)); [apply new_funnel_ok|done|].
  split; [done|]. split; [|done]. vm_compute. done.
Defined.

Lemma always_recovers_witness :
  refusal (secs 3610) installation_7 (run limited (new_funnel default_config api)) = None.
Proof.
  apply (always_recovers default_config api limited installation_7 (secs 10) (secs 3610)); [|by vm_compute].
  repeat (constructor; [by vm_compute|]). constructor.
Defined.

Lemma disabled_never_refuses_witness :
  let cf := from_env (λ v, if str_eqb v "PRELOOP_GITHUB_BREAKER" then Some " OFF " else None) in
  refusal (secs 11) installation_7 (run limited (new_funnel cf api)) = None.
Proof. apply disabled_never_refuses. by vm_compute. Defined.

Definition bad_minute : list (N * Report) :=
  (λ t, (secs t, Fails "502")) <$> [1; 2; 3; 40; 110; 240; 490]%N.

Lemma opens_at_threshold_witness :
  open_until (outage default_config (take 2 bad_minute) (record_success new_inner)) = None
  ∧ open_until (outage default_config (take 3 bad_minute) (record_success new_inner)) = Some (secs 3 + secs 30)%N
  ∧ open_until (outage default_config (take 4 bad_minute) (record_success new_inner)) = Some (secs 40 + secs 60)%N
  ∧ open_until (outage default_config bad_minute (record_success new_inner)) = Some (secs 490 + secs 300)%N.
Proof.
  assert (enabled default_config = true) as Hon by done.
  assert (1 ≤ failure_threshold default_config ≤ u32_max)%N as Ht by by vm_compute.
  split_and!; [rewrite (proj2 (opens_at_threshold default_config (take 2 bad_minute) new_inner Hon Ht))
              |rewrite (proj2 (opens_at_threshold default_config (take 3 bad_minute) new_inner Hon Ht))
              |rewrite (proj2 (opens_at_threshold default_config (take 4 bad_minute) new_inner Hon Ht))
              |rewrite (proj2 (opens_at_threshold default_config bad_minute new_inner Hon Ht))]; by vm_compute.
Defined.

Lemma probes_spaced_witness :
  let i := outage default_config (take 3 bad_minute) (record_success new_inner) in
  let ts := [secs 20; secs 33; secs 34; secs 92; secs 93; secs 94] in
  grants default_config ts i = 2
  ∧ (N.of_nat (grants default_config ts i) ≤ 1 + (secs 94 - secs 20) / probe_timeout default_config)%N.
Proof.
  cbn zeta. split; [by vm_compute|].
  apply (probes_spaced _ _ (secs 33)); [by vm_compute|by vm_compute| |].
  - apply Sorted_StronglySorted; [intros ? ? ?; apply N.le_trans|]. repeat constructor; by vm_compute.
  - repeat (constructor; [by vm_compute|]). constructor.
Defined.

Lemma retry_after_exact_witness :
  let i := (acquire default_config (secs 40) (outage default_config (take 3 bad_minute) (record_success new_inner))).2 in
  is_open default_config i (secs 50) = true ∧ is_ok (acquire default_config (secs 50) i).1 = false.
Proof.
  cbn zeta. assert (∀ b, negb b = true → b = false) as Hn by by intros [].
  split; [by vm_compute|]. apply Hn. rewrite <-retry_after_exact; [by vm_compute|].
  intros p. replace (probe_started _) with (Some (secs 40)) by by vm_compute. intros [= <-]. by vm_compute.
Defined.

Lemma answers_judged_witness :
  open_until (effect default_config (secs 10) 0 [] (Response 403 (retry_in "7")) new_inner) = Some (secs 17)
  ∧ open_until (effect default_config (secs 10) 0 [401%N] (Response 404 no_headers)
      (outage default_config bad_minute new_inner)) = None.
Proof.
  assert (enabled default_config = true) as Hon by done. split.
  - destruct (answers_judged default_config (secs 10) 0 [] 403 (retry_in "7") new_inner Hon) as [-> _];
      [apply not_elem_of_nil|by vm_compute].
  - destruct (answers_judged default_config (secs 10) 0 [401%N] 404 no_headers (outage default_config bad_minute new_inner) Hon)
      as [_ ->]; [by rewrite list_elem_of_singleton|by vm_compute].
Defined.

(** A failure of a call that was under way before the breaker opened, reported
    while a probe runs, frees the probe's place: two probes run at a time. *)
Lemma late_failure_admits_second_probe :
  let limited := record_failure default_config (secs 1) (RateLimited (Some (secs 5))) "429" new_inner in
  let '(first, probing) := acquire default_config (secs 7) limited in
  let late := record_failure default_config (secs 8) Unavailable "timeout" probing in
  first = Ok () ∧ (acquire default_config (secs 8) probing).1 = Err (secs 60)
  ∧ (acquire default_config (secs 8) late).1 = Ok ().
Proof. by vm_compute. Qed.

(** Failures reported late also shorten the wait that GitHub asked for. *)
Lemma late_failure_forgets_rate_limit :
  let limited := record_failure default_config (secs 1) (RateLimited (Some (secs 900))) "429" new_inner in
  let late := outage default_config [(secs 2, Fails "timeout"); (secs 3, Fails "timeout")] limited in
  open_until limited = Some (secs 901) ∧ open_until late = Some (secs 63) ∧ rate_limited late = false.
Proof. by vm_compute. Qed.
