(* ===== verification/Rerun.v ===== *)
(** * Re-running a workflow

    [rerun_set] of [crates/preloop-runner-server/src/control/logic.rs]: which
    jobs of a finished run a new attempt resets. *)
From S2P Require Export Scheduler.

Record RerunJobRow : Type := mkRerunRow {
  row_id : string;
  row_kind : string;
  row_base_id : string;
  row_parent : option string;
  row_status : string;
  row_needs : list string;
}.

Inductive RerunMode : Type := RerunAll | RerunFailed | RerunJob (job : string).

Definition row_matches (row : RerunJobRow) (need : string) : bool :=
  str_eqb (row_id row) need || str_eqb (row_base_id row) need.

Section rerun.
Variable rows : list RerunJobRow.

Definition has_children (id : string) : bool := existsb (λ r, bool_decide (row_parent r = Some id)) rows.

(** The kinds by id; a later row of the same id wins. *)
Definition kind_of : gmap string string := foldl (λ m r, <[row_id r := row_kind r]> m) ∅ rows.

Definition dead_parent (row : RerunJobRow) : bool :=
  str_eqb (row_kind row) "matrix_parent" && has_children (row_id row).

Definition matchable : list RerunJobRow := List.filter (λ r, negb (dead_parent r)) rows.

Definition ids_of (l : list RerunJobRow) : gset string := list_to_set (row_id <$> l).

Definition failed_status (s : string) : bool := mem_str s ["failure"; "cancelled"; "timed_out"].

Definition seeds (mode : RerunMode) : result ControlError (gset string) :=
  match mode with
  | RerunAll => Ok (ids_of matchable)
  | RerunFailed =>
      let failed := List.filter (λ r, failed_status (row_status r)) matchable in
      if length failed =? 0 then Err (Conflict "run has no failed or cancelled jobs to re-run")
      else Ok (ids_of failed)
  | RerunJob id =>
      let matched := List.filter (λ r, row_matches r id) matchable in
      if length matched =? 0 then Err (NotFound ("no job matching `" +:+ id +:+ "` in this run"))
      else Ok (ids_of matched)
  end.

Definition is_dependent (set : gset string) (row : RerunJobRow) : bool :=
  existsb (λ need,
    existsb (λ c, bool_decide (row_id c ∈ set)) (List.filter (λ c, row_matches c need) rows))
    (row_needs row).

Definition parent_is_member_caller (set : gset string) (row : RerunJobRow) : bool :=
  match row_parent row with
  | Some parent => bool_decide (kind_of !! parent = Some "reusable_caller") && bool_decide (parent ∈ set)
  | None => false
  end.

Definition is_caller_of_member (set : gset string) (row : RerunJobRow) : bool :=
  str_eqb (row_kind row) "reusable_caller" &&
  existsb (λ child, bool_decide (row_parent child = Some (row_id row)) && bool_decide (row_id child ∈ set)) rows.

Definition joins (set : gset string) (row : RerunJobRow) : bool :=
  is_dependent set row || parent_is_member_caller set row || is_caller_of_member set row.

(** One pass of the closure loop, over the rows in order. *)
Fixpoint pass (todo : list RerunJobRow) (set : gset string) (added : bool) : gset string * bool :=
  match todo with
  | [] => (set, added)
  | row :: todo =>
      if bool_decide (row_id row ∈ set) then pass todo set added
      else if joins set row then pass todo ({[row_id row]} ∪ set) true
      else pass todo set added
  end.

Fixpoint closure (fuel : nat) (set : gset string) : option (gset string) :=
  match fuel with
  | O => None
  | S fuel =>
      let '(set, added) := pass matchable set false in
      if (added : bool) then closure fuel set else Some set
  end.

(** Every pass but the last adds a row. *)
Definition rerun_set (mode : RerunMode) : option (result ControlError (gset string)) :=
  match seeds mode with
  | Err e => Some (Err e)
  | Ok set => Ok <$> closure (S (length matchable)) set
  end.

(** ** The set a re-run resets, as rules *)

Inductive resets (start : gset string) : string → Prop :=
| resets_seed id : id ∈ start → resets start id
| resets_dependent row need candidate :
    row ∈ matchable → need ∈ row_needs row → candidate ∈ rows → row_matches candidate need = true →
    resets start (row_id candidate) → resets start (row_id row)
| resets_callee row parent :
    row ∈ matchable → row_parent row = Some parent → kind_of !! parent = Some "reusable_caller" →
    resets start parent → resets start (row_id row)
| resets_caller row child :
    row ∈ matchable → row_kind row = "reusable_caller" → child ∈ rows →
    row_parent child = Some (row_id row) → resets start (row_id child) → resets start (row_id row).

Lemma elem_of_List_filter {A} (p : A → bool) l x : x ∈ List.filter p l ↔ x ∈ l ∧ p x = true.
Proof. by rewrite !list_elem_of_In, filter_In. Qed.

Lemma existsb_elem {A} (p : A → bool) l : existsb p l = true ↔ ∃ x, x ∈ l ∧ p x = true.
Proof. rewrite existsb_exists. by setoid_rewrite list_elem_of_In. Qed.

Lemma joins_true set row :
  joins set row = true ↔
  (∃ need candidate, need ∈ row_needs row ∧ candidate ∈ rows ∧ row_matches candidate need = true ∧
     row_id candidate ∈ set) ∨
  (∃ parent, row_parent row = Some parent ∧ kind_of !! parent = Some "reusable_caller" ∧ parent ∈ set) ∨
  (row_kind row = "reusable_caller" ∧
     ∃ child, child ∈ rows ∧ row_parent child = Some (row_id row) ∧ row_id child ∈ set).
Proof.
  unfold joins, is_dependent, parent_is_member_caller, is_caller_of_member, str_eqb.
  rewrite !orb_true_iff, existsb_elem, andb_true_iff, bool_decide_eq_true, existsb_elem.
  setoid_rewrite existsb_elem. setoid_rewrite elem_of_List_filter. setoid_rewrite andb_true_iff.
  setoid_rewrite bool_decide_eq_true.
  destruct (row_parent row) as [p|].
  - rewrite andb_true_iff, !bool_decide_eq_true. naive_solver.
  - naive_solver.
Qed.

Lemma joins_resets start set row :
  (∀ id, id ∈ set → resets start id) → row ∈ matchable → joins set row = true → resets start (row_id row).
Proof.
  intros Hset Hrow [(need & c & ? & ? & ? & ?)|[(p & ? & ? & ?)|(? & child & ? & ? & ?)]]%joins_true.
  - eapply resets_dependent; eauto.
  - eapply resets_callee; eauto.
  - eapply resets_caller; eauto.
Qed.

Lemma pass_spec start todo set added :
  (∀ id, id ∈ set → resets start id) → (∀ row, row ∈ todo → row ∈ matchable) →
  let r := pass todo set added in
  (∀ id, id ∈ r.1 → resets start id) ∧ set ⊆ r.1 ∧
  (r.2 = false → r.1 = set ∧ ∀ row, row ∈ todo → row_id row ∈ set ∨ joins set row = false) ∧
  (added = false → r.2 = true → ∃ row, row ∈ todo ∧ (row_id row ∉ set) ∧ row_id row ∈ r.1) ∧
  (added = true → r.2 = true).
Proof.
  revert set added. induction todo as [|row todo IH]; intros set added Hset Htodo; cbn [pass].
  { simpl. split_and!; [done..| | |done]; [|by intros -> ?].
    intros _. split; [done|]. by intros ? ?%elem_of_nil. }
  assert (∀ row, row ∈ todo → row ∈ matchable) as Htodo' by (intros; apply Htodo; by right).
  case_bool_decide as Hin; [|destruct (joins set row) eqn:Hj].
  - destruct (IH set added Hset Htodo') as (? & ? & Hno & Hyes & ?). split_and!; [done..| | |done].
    + intros Hf. destruct (Hno Hf) as [? Hall]. split; [done|].
      intros r [->|Hr]%elem_of_cons; [by left|by apply Hall].
    + intros Ha Ht. destruct (Hyes Ha Ht) as (r & ? & ? & ?). exists r. rewrite elem_of_cons. auto.
  - destruct (IH ({[row_id row]} ∪ set) true) as (? & Hsub & Hno & Hyes & Htrue).
    + intros id [->%elem_of_singleton|?]%elem_of_union; [|by apply Hset].
      eapply joins_resets; [done| |done]. apply Htodo. by left.
    + done.
    + split_and!; [done|set_solver| | |by intros _; apply Htrue].
      * intros Hf. by rewrite (Htrue eq_refl) in Hf.
      * intros _ _. exists row. split_and!; [by left|done|]. apply Hsub. set_solver.
  - destruct (IH set added Hset Htodo') as (? & ? & Hno & Hyes & ?). split_and!; [done..| | |done].
    + intros Hf. destruct (Hno Hf) as [? Hall]. split; [done|].
      intros r [->|Hr]%elem_of_cons; [by right|by apply Hall].
    + intros Ha Ht. destruct (Hyes Ha Ht) as (r & ? & ? & ?). exists r. rewrite elem_of_cons. auto.
Qed.

(** The matchable rows that are not in the set yet. *)
Definition missing (set : gset string) : nat :=
  length (List.filter (λ r, negb (bool_decide (row_id r ∈ set))) matchable).

Lemma missing_lt (set set' : gset string) row :
  set ⊆ set' → row ∈ matchable → row_id row ∉ set → row_id row ∈ set' → missing set' < missing set.
Proof.
  intros Hsub Hrow Hno Hyes. unfold missing. revert Hrow. induction matchable as [|r l IH].
  { by intros ?%elem_of_nil. }
  assert (length (List.filter (λ r, negb (bool_decide (row_id r ∈ set'))) l) <=
          length (List.filter (λ r, negb (bool_decide (row_id r ∈ set))) l)) as Hle.
  { clear -Hsub. induction l as [|x l IH]; simpl; [lia|].
    repeat case_bool_decide; simpl; try lia. set_solver. }
  intros [->|Hr]%elem_of_cons; simpl.
  - rewrite (bool_decide_eq_true_2 _ Hyes), (bool_decide_eq_false_2 _ Hno). simpl. lia.
  - specialize (IH Hr). repeat case_bool_decide; simpl; try lia. set_solver.
Qed.

Lemma closure_spec start fuel set :
  start ⊆ set → (∀ id, id ∈ set → resets start id) → missing set < fuel →
  ∃ result, closure fuel set = Some result ∧ ∀ id, id ∈ result ↔ resets start id.
Proof.
  revert set. induction fuel as [|fuel IH]; intros set Hstart Hset Hfuel; [lia|]. cbn [closure].
  destruct (pass_spec start matchable set false Hset) as (Hsound & Hsub & Hno & Hyes & _); [done|].
  destruct (pass matchable set false) as [set' added]. simpl in *. destruct added.
  - destruct (Hyes eq_refl eq_refl) as (row & Hrow & Hout & Hin).
    pose proof (missing_lt set set' row Hsub Hrow Hout Hin).
    apply IH; [set_solver|done|lia].
  - destruct (Hno eq_refl) as [-> Hclosed]. exists set. split; [done|]. intros id.
    split; [by apply Hset|]. induction 1 as [id Hid|row need c Hrow ? ? ? _ IHc|row p Hrow ? ? _ IHp
      |row child Hrow ? ? ? _ IHc].
    + by apply Hstart.
    + destruct (Hclosed row Hrow) as [?|Hj]; [done|]. rewrite <-not_true_iff_false in Hj.
      destruct Hj. apply joins_true. left. by exists need, c.
    + destruct (Hclosed row Hrow) as [?|Hj]; [done|]. rewrite <-not_true_iff_false in Hj.
      destruct Hj. apply joins_true. right. left. by exists p.
    + destruct (Hclosed row Hrow) as [?|Hj]; [done|]. rewrite <-not_true_iff_false in Hj.
      destruct Hj. apply joins_true. right. right. split; [done|]. by exists child.
Qed.

Lemma missing_le set : missing set <= length matchable.
Proof. unfold missing. induction matchable as [|r l IH]; simpl; [lia|]. case_bool_decide; simpl; lia. Qed.

End rerun.

Lemma length_filter_zero {A} (p : A → bool) l :
  (length (List.filter p l) =? 0) = true ↔ ∀ x, x ∈ l → p x = false.
Proof.
  rewrite Nat.eqb_eq, length_zero_iff_nil. split.
  - intros Hnil x Hx. apply not_true_iff_false. intros Hp.
    apply (not_elem_of_nil x). rewrite <-Hnil. by apply elem_of_List_filter.
  - intros Hall. destruct (List.filter p l) as [|x r] eqn:Hf; [done|]. exfalso.
    assert (x ∈ List.filter p l) as Hx by (rewrite Hf; by left).
    apply elem_of_List_filter in Hx as [Hx Hp]. by rewrite Hall in Hp.
Qed.

(** The rows a mode selects to begin with. *)
Definition selected (mode : RerunMode) (row : RerunJobRow) : bool :=
  match mode with
  | RerunAll => true
  | RerunFailed => failed_status (row_status row)
  | RerunJob id => row_matches row id
  end.

(** The refusal of a mode that selects nothing. *)
Definition refuses (mode : RerunMode) (e : ControlError) : Prop :=
  match mode with
  | RerunAll => False
  | RerunFailed => e = Conflict "run has no failed or cancelled jobs to re-run"
  | RerunJob id => e = NotFound ("no job matching `" +:+ id +:+ "` in this run")
  end.

Definition selects_some (rows : list RerunJobRow) (mode : RerunMode) : Prop :=
  ∃ row, row ∈ matchable rows ∧ selected mode row = true.

Lemma elem_of_ids_of l id : id ∈ ids_of l ↔ ∃ row, row ∈ l ∧ row_id row = id.
Proof. unfold ids_of. rewrite elem_of_list_to_set, list_elem_of_fmap. naive_solver. Qed.

Lemma seeds_spec rows mode :
  match seeds rows mode with
  | Ok start =>
      (mode = RerunAll ∨ selects_some rows mode) ∧
      ∀ id, id ∈ start ↔ ∃ row, row ∈ matchable rows ∧ selected mode row = true ∧ row_id row = id
  | Err e => refuses mode e ∧ ¬ selects_some rows mode
  end.
Proof.
  assert (∀ p, (length (List.filter p (matchable rows)) =? 0) = false →
    ∃ row, row ∈ matchable rows ∧ p row = true) as Hsome.
  { intros p Hl. destruct (List.filter p (matchable rows)) as [|row l] eqn:Hf; [done|].
    exists row. apply elem_of_List_filter. rewrite Hf. by left. }
  destruct mode as [| |job]; simpl.
  - split; [by left|]. intros id. rewrite elem_of_ids_of. naive_solver.
  - destruct (length _ =? 0) eqn:Hlen.
    + split; [done|]. rewrite length_filter_zero in Hlen. intros (row & Hin & Hs). naive_solver congruence.
    + split; [right; by apply Hsome|]. intros id. rewrite elem_of_ids_of. setoid_rewrite elem_of_List_filter. naive_solver.
  - destruct (length _ =? 0) eqn:Hlen.
    + split; [done|]. rewrite length_filter_zero in Hlen. intros (row & Hin & Hs). naive_solver congruence.
    + split; [right; by apply Hsome|]. intros id. rewrite elem_of_ids_of. setoid_rewrite elem_of_List_filter. naive_solver.
Qed.

(** C26: what a re-run resets.  [rerun_set] always returns.  It fails exactly
    when a failed-only or a single-job re-run selects nothing, with a conflict
    for the first and "not found" for the second; otherwise it returns the
    least set that holds the ids of the selected rows (all, the failed,
    cancelled and timed-out ones, or those named by their id or base) and is
    closed under the three rules: a job joins with one of its needs, a callee
    with its caller and a caller with a callee.  Every id in it is that of a
    row that is not an expanded matrix parent. *)
Theorem rerun_set_spec rows mode :
  ∃ r, rerun_set rows mode = Some r ∧
    match r with
    | Ok set =>
        (mode = RerunAll ∨ selects_some rows mode) ∧
        ∃ start,
        (∀ id, id ∈ start ↔ ∃ row, row ∈ matchable rows ∧ selected mode row = true ∧ row_id row = id) ∧
        (∀ id, id ∈ set ↔ resets rows start id) ∧
        ∀ id, id ∈ set → ∃ row, row ∈ rows ∧ row_id row = id ∧ dead_parent rows row = false
    | Err e => refuses mode e ∧ ¬ selects_some rows mode
    end.
Proof.
  unfold rerun_set. pose proof (seeds_spec rows mode) as Hseeds.
  destruct (seeds rows mode) as [start|e]; [|by eexists]. destruct Hseeds as [Hsome Hseeds].
  destruct (closure_spec rows start (S (length (matchable rows))) start) as (set & -> & Hset).
  - done.
  - intros id Hid. by constructor.
  - pose proof (missing_le rows start). lia.
  - eexists. split; [done|]. simpl. split; [done|]. exists start. split_and!; [done..|].
    assert (∀ row, row ∈ matchable rows → row ∈ rows ∧ dead_parent rows row = false) as Hmatch.
    { intros row [? Hd]%elem_of_List_filter. by apply negb_true_iff in Hd. }
    intros id Hid%Hset. induction Hid as [id Hid|row ? ? Hrow|row ? Hrow|row ? Hrow];
      [apply Hseeds in Hid as (row & Hrow & _ & <-)|..];
      destruct (Hmatch row Hrow); by exists row.
Qed.

(** A failed [build], the [deploy] that needs it, and an unrelated [lint]. *)
Definition sample_rows : list RerunJobRow :=
  [mkRerunRow "build" "job" "build" None "failure" [];
   mkRerunRow "deploy" "job" "deploy" None "skipped" ["build"];
   mkRerunRow "lint" "job" "lint" None "success" []].

Example sample_rerun :
  (λ r, match r with Ok s => btree_set_elems s | Err _ => [] end) <$> rerun_set sample_rows RerunFailed =
  Some ["build"; "deploy"].
Proof. vm_compute. reflexivity. Qed.
