(* ===== verification/EnvGate.v ===== *)
(** * Deployment environment gates

    The environment protection rules of
    [crates/preloop-runner-server/src/runtime_scheduling.rs]: the deployment
    branch policy, and the gate that holds a job until its wait timer and its
    reviewers release it. *)
From S2P Require Export Models Glob.

(** The fields of [EnvironmentRules] ([config.rs]) the gate reads. *)
Record EnvironmentRules : Type := mkRules {
  deployment_branches : list string;
  deployment_tags : list string;
  wait_timer_minutes : N;
  required_reviewers : N;
  branch_policy_restricted : bool;
  protected_branches_only : bool;
  custom_protection_rules : list string;
}.

(** The fields of [EnvironmentGateState] ([models.rs]) the gate reads and
    writes; an approval is the name of its actor. *)
Record EnvironmentGateState : Type := mkGate {
  environment_name : option string;
  wait_until_unix_nanos : option Z;
  approval_requested_at_unix_nanos : option Z;
  approvals : list string;
  approvals_required : option N;
  rejected_by : option string;
  unresolvable_name : option string;
}.

Definition gate_default : EnvironmentGateState := mkGate None None None [] None None None.

Inductive EnvironmentGateOutcome : Type := Proceed | Wait | Failed.

Inductive EnvironmentLookup : Type :=
| Resolved (rules : option EnvironmentRules)
| LookupPending.

Definition ENVIRONMENT_APPROVAL_WINDOW_NANOS : Z := 24 * 60 * 60 * 1000000000.

Section json.
Context {num : Type} `{NumberOps num}.

Definition environment_gate_name_of (environment : option (value num)) : option string :=
  match environment with
  | Some (JString name) => Some name
  | Some (JObject m) => imap_get "name" m ≫= as_str
  | _ => None
  end.

Definition environment_url_literal (environment : value num) : option string :=
  url ← value_get "url" environment;
  match as_str url with
  | Some raw => if negb (str_eqb (trim raw) "") && negb (str_contains "${{" raw) then Some raw else None
  | None =>
      match value_get "type" url ≫= (λ v, match v with JNumber n => as_u64 n | _ => None end) with
      | Some 0%Z =>
          literal ← value_get "lit" url ≫= as_str;
          if str_eqb literal "" then None else Some literal
      | _ => None
      end
  end.
End json.

(** [has_expressions] of [eval.rs]. *)
Definition has_expressions (input : string) : bool := str_contains "${{" input.

Definition resolved_environment_name_of (name : string) : option string :=
  if has_expressions name then None else Some name.

(** ** The deployment branch policy *)

Definition unprefixed (prefix pattern : string) : string := default pattern (strip_prefix prefix pattern).

(** Some pattern of a non-empty list matches the name. *)
Definition any_pattern (prefix : string) (patterns : list string) (name : string) : bool :=
  negb (length patterns =? 0) && existsb (λ pattern, glob_match (unprefixed prefix pattern) name) patterns.

Definition ref_allowed (rule : EnvironmentRules) (git_ref : string) : bool :=
  let branch := strip_prefix "refs/heads/" git_ref in
  let tag := strip_prefix "refs/tags/" git_ref in
  let restricted :=
    branch_policy_restricted rule || negb (length (deployment_branches rule) =? 0)
    || negb (length (deployment_tags rule) =? 0) in
  if negb restricted then true
  else if protected_branches_only rule then
    if length (deployment_branches rule) =? 0 then
      bool_decide (is_Some branch) || (negb (starts_with "refs/" git_ref) && bool_decide (tag = None))
    else
      match branch with
      | Some branch => existsb (λ name, str_eqb name branch) (deployment_branches rule)
      | None => false
      end
  else
    match branch, tag with
    | Some branch, _ => any_pattern "refs/heads/" (deployment_branches rule) branch
    | None, Some tag => any_pattern "refs/tags/" (deployment_tags rule) tag
    | None, None => any_pattern "refs/heads/" (deployment_branches rule) git_ref
    end.

Definition rules_gate_anything (rule : EnvironmentRules) : bool :=
  branch_policy_restricted rule || protected_branches_only rule
  || negb (length (deployment_branches rule) =? 0) || negb (length (deployment_tags rule) =? 0)
  || (0 <? wait_timer_minutes rule)%N || (0 <? required_reviewers rule)%N
  || negb (length (custom_protection_rules rule) =? 0).

(** ** 64-bit arithmetic *)

Definition i64_min : Z := - 2 ^ 63.
Definition i64_max : Z := 2 ^ 63 - 1.
Definition saturate (z : Z) : Z := Z.max i64_min (Z.min i64_max z).
(** [x as i64] of a [u64]. *)
Definition u64_as_i64 (n : N) : Z :=
  let z := (Z.of_N n mod 2 ^ 64)%Z in if (z <? 2 ^ 63)%Z then z else (z - 2 ^ 64)%Z.

(** ** The gate *)

Definition with_name (gate : option EnvironmentGateState) (name : string) : EnvironmentGateState :=
  let g := default gate_default gate in
  mkGate (Some name) (wait_until_unix_nanos g) (approval_requested_at_unix_nanos g) (approvals g)
    (approvals_required g) (rejected_by g) (unresolvable_name g).

Definition arm_wait (rule : EnvironmentRules) (now : Z) (g : EnvironmentGateState) : EnvironmentGateState :=
  match wait_until_unix_nanos g with
  | None =>
      if (0 <? wait_timer_minutes rule)%N then
        let wait_nanos := saturate (u64_as_i64 (wait_timer_minutes rule) * 60000000000) in
        mkGate (environment_name g) (Some (saturate (now + wait_nanos)))
          (approval_requested_at_unix_nanos g) (approvals g) (approvals_required g) (rejected_by g)
          (unresolvable_name g)
      else g
  | Some _ => g
  end.

Definition arm_approval (rule : EnvironmentRules) (now : Z) (g : EnvironmentGateState) :
    EnvironmentGateState :=
  match approval_requested_at_unix_nanos g with
  | None =>
      if (0 <? required_reviewers rule)%N then
        mkGate (environment_name g) (wait_until_unix_nanos g) (Some now) (approvals g)
          (Some (default (required_reviewers rule) (approvals_required g))) (rejected_by g)
          (unresolvable_name g)
      else g
  | Some _ => g
  end.

(** [approvals.len() as u32]. *)
Definition approvals_u32 (g : EnvironmentGateState) : N := (N.of_nat (length (approvals g)) mod 2 ^ 32)%N.

(** The wait and reviewer steps of a gate whose rules apply. *)
Definition evaluate_timers (rule : EnvironmentRules) (now : Z) (g : EnvironmentGateState) :
    EnvironmentGateOutcome * EnvironmentGateState :=
  let g := arm_wait rule now g in
  if match wait_until_unix_nanos g with Some deadline => (now <? deadline)%Z | None => false end
  then (Wait, g)
  else
    let g := arm_approval rule now g in
    match approval_requested_at_unix_nanos g with
    | Some requested_at =>
        let required := N.max 1 (default (required_reviewers rule) (approvals_required g)) in
        if (required <=? approvals_u32 g)%N then (Proceed, g)
        else if (ENVIRONMENT_APPROVAL_WINDOW_NANOS <? saturate (now - requested_at))%Z then (Failed, g)
        else (Wait, g)
    | None => (Proceed, g)
    end.

Definition evaluate_environment_gate (lookup : EnvironmentLookup) (git_ref env_name : string)
    (gate : option EnvironmentGateState) (now : Z) :
    EnvironmentGateOutcome * option EnvironmentGateState :=
  if bool_decide (is_Some (g ← gate; unresolvable_name g)) then (Failed, gate)
  else
    match lookup with
    | LookupPending => (Wait, Some (with_name gate env_name))
    | Resolved rules =>
        match resolved_environment_name_of env_name with
        | None => (Wait, Some (with_name gate env_name))
        | Some _ =>
            match rules ≫= (λ rule, if rules_gate_anything rule then Some rule else None) with
            | None => (Proceed, None)
            | Some rule =>
                let g := with_name gate env_name in
                if bool_decide (is_Some (rejected_by g)) then (Failed, Some g)
                else if negb (length (custom_protection_rules rule) =? 0) then (Failed, Some g)
                else if negb (ref_allowed rule git_ref) then (Failed, Some g)
                else
                  let '(outcome, g) := evaluate_timers rule now g in (outcome, Some g)
            end
        end
    end.

(** [check_environment_gates]: the name is the one of the runner message, or
    the one of the raw [environment:] value; [lookup] is what the resolver
    knows of it. *)
Definition check_environment_gates {num} (lookup : string → EnvironmentLookup) (git_ref : string)
    (message_name : option string) (environment : option (value num)) (has_needs : bool)
    (gate : option EnvironmentGateState) (now : Z) :
    EnvironmentGateOutcome * option EnvironmentGateState :=
  match (match message_name with Some n => Some n | None => environment_gate_name_of environment end) with
  | None => (Proceed, gate)
  | Some env_name =>
      if bool_decide (resolved_environment_name_of env_name = None) && has_needs then (Proceed, gate)
      else evaluate_environment_gate (lookup env_name) git_ref env_name gate now
  end.

(** ** Which refs may deploy *)

Definition deploys_branch (rule : EnvironmentRules) (branch : string) : Prop :=
  if protected_branches_only rule then deployment_branches rule = [] ∨ branch ∈ deployment_branches rule
  else ∃ pattern, pattern ∈ deployment_branches rule ∧
         globs (tokenize (chars (unprefixed "refs/heads/" pattern))) (chars branch).

Definition deploys_tag (rule : EnvironmentRules) (tag : string) : Prop :=
  protected_branches_only rule = false ∧ ∃ pattern, pattern ∈ deployment_tags rule ∧
    globs (tokenize (chars (unprefixed "refs/tags/" pattern))) (chars tag).

Lemma any_pattern_true prefix patterns name :
  any_pattern prefix patterns name = true ↔
  ∃ pattern, pattern ∈ patterns ∧ globs (tokenize (chars (unprefixed prefix pattern))) (chars name).
Proof.
  unfold any_pattern. rewrite andb_true_iff, existsb_exists.
  setoid_rewrite glob_match_chars_spec. setoid_rewrite <-list_elem_of_In.
  split; [by intros [_ ?]|]. intros (p & Hp & ?). split; [|by exists p].
  destruct patterns; [by apply elem_of_nil in Hp|done].
Qed.

Lemma strip_prefix_tags_heads s : strip_prefix "refs/heads/" ("refs/tags/" +:+ s) = None.
Proof. reflexivity. Qed.

(** The deployment branch policy.  Without a policy every ref deploys.
    With one, a branch deploys when a branch pattern matches it (under
    protected branches: when it is one of them, or when none is protected), a
    tag only when a tag pattern matches it and never under protected
    branches, so a policy with no patterns lets nothing deploy. *)
Theorem ref_allowed_spec rule :
  let restricted := branch_policy_restricted rule = true ∨ deployment_branches rule ≠ [] ∨
                    deployment_tags rule ≠ [] in
  (∀ branch, ref_allowed rule ("refs/heads/" +:+ branch) = true ↔ (restricted → deploys_branch rule branch)) ∧
  (∀ tag, ref_allowed rule ("refs/tags/" +:+ tag) = true ↔ (restricted → deploys_tag rule tag)).
Proof.
  intros restricted.
  assert (branch_policy_restricted rule || negb (length (deployment_branches rule) =? 0)
    || negb (length (deployment_tags rule) =? 0) = true ↔ restricted) as Hrestr.
  { unfold restricted. rewrite !orb_true_iff, !negb_true_iff, !Nat.eqb_neq, !length_zero_iff_nil. tauto. }
  unfold ref_allowed. destruct (_ || negb (length (deployment_tags rule) =? 0)) eqn:Hr.
  2: { cbn [negb]. split; (intros x; split; [|done]); intros _ Hx%Hrestr; done. }
  assert (restricted) as Hres by by apply Hrestr. cbn [negb].
  split; intros x.
  - rewrite strip_prefix_app. unfold deploys_branch. destruct (protected_branches_only rule).
    + destruct (Nat.eqb_spec (length (deployment_branches rule)) 0) as [Hl|Hl];
        rewrite length_zero_iff_nil in Hl.
      { rewrite bool_decide_eq_true_2 by by eexists. cbn [orb]. tauto. }
      rewrite existsb_exists. setoid_rewrite bool_decide_eq_true. setoid_rewrite <-list_elem_of_In.
      split; [intros (y & Hy & <-) _; by right|]. intros Hx. destruct (Hx Hres) as [?|?]; [done|by exists x].
    + rewrite any_pattern_true. tauto.
  - rewrite strip_prefix_tags_heads, strip_prefix_app. unfold deploys_tag.
    change (starts_with "refs/" ("refs/tags/" +:+ x)) with true.
    destruct (protected_branches_only rule).
    + destruct (length (deployment_branches rule) =? 0); cbn;
        (split; [done|intros Hx; by destruct (Hx Hres)]).
    + rewrite any_pattern_true. tauto.
Qed.

(** ** When the gate opens *)

(** The wait the rules ask for, in nanoseconds. *)
Definition wait_nanos (rule : EnvironmentRules) : Z := saturate (u64_as_i64 (wait_timer_minutes rule) * 60000000000).

(** The deadline, the instant of the request and the number of approvals an
    evaluation goes by: what the gate holds already, else what the rules ask
    for, counted from [now]. *)
Definition deadline_of rule (now : Z) g : option Z :=
  match wait_until_unix_nanos g with
  | Some deadline => Some deadline
  | None => if decide (wait_timer_minutes rule = 0%N) then None else Some (saturate (now + wait_nanos rule))
  end.
Definition requested_of rule (now : Z) g : option Z :=
  match approval_requested_at_unix_nanos g with
  | Some at_ => Some at_
  | None => if decide (required_reviewers rule = 0%N) then None else Some now
  end.
Definition required_of rule g : N := default (required_reviewers rule) (approvals_required g).

(** A gate that opens, as it is stored. *)
Definition opened rule (env_name : string) (now : Z) g : EnvironmentGateState :=
  mkGate (Some env_name) (deadline_of rule now g) (requested_of rule now g) (approvals g)
    (if decide (approval_requested_at_unix_nanos g = None ∧ required_reviewers rule ≠ 0%N)
     then Some (required_of rule g) else approvals_required g)
    None None.

Lemma arm_wait_wait rule now g : wait_until_unix_nanos (arm_wait rule now g) = deadline_of rule now g.
Proof.
  unfold arm_wait, deadline_of. destruct (wait_until_unix_nanos g) eqn:Hw; [done|].
  destruct (N.ltb_spec 0 (wait_timer_minutes rule)), (decide (wait_timer_minutes rule = 0%N)); done || lia.
Qed.

Lemma arm_wait_rest rule now g :
  let g' := arm_wait rule now g in
  environment_name g' = environment_name g ∧ approvals g' = approvals g ∧ rejected_by g' = rejected_by g ∧
  approval_requested_at_unix_nanos g' = approval_requested_at_unix_nanos g ∧
  approvals_required g' = approvals_required g ∧ unresolvable_name g' = unresolvable_name g.
Proof. unfold arm_wait. cbv zeta. repeat case_match; done. Qed.

Lemma arm_approval_eq rule now g :
  arm_approval rule now g =
  mkGate (environment_name g) (wait_until_unix_nanos g) (requested_of rule now g) (approvals g)
    (if decide (approval_requested_at_unix_nanos g = None ∧ required_reviewers rule ≠ 0%N)
     then Some (required_of rule g) else approvals_required g) (rejected_by g) (unresolvable_name g).
Proof.
  unfold arm_approval, requested_of. destruct g as [? ? requested ? ? ? ?]; simpl.
  destruct requested; [by rewrite decide_False by naive_solver|].
  destruct (N.ltb_spec 0 (required_reviewers rule)), (decide (required_reviewers rule = 0%N)) as [Hr|Hr];
    try lia; [by rewrite decide_True|by rewrite decide_False by naive_solver].
Qed.

Lemma evaluate_timers_proceed rule env_name now g g' :
  environment_name g = Some env_name → rejected_by g = None → unresolvable_name g = None →
  evaluate_timers rule now g = (Proceed, g') ↔
  (∀ d, deadline_of rule now g = Some d → (d <= now)%Z) ∧
  (is_Some (requested_of rule now g) → (N.max 1 (required_of rule g) <= approvals_u32 g)%N) ∧
  g' = opened rule env_name now g.
Proof.
  intros Hn Hrej Hu. unfold evaluate_timers. set (g1 := arm_wait rule now g).
  pose proof (arm_wait_wait rule now g : wait_until_unix_nanos g1 = _) as Hw.
  pose proof (arm_wait_rest rule now g) as (E1 & E2 & E3 & E4 & E5 & E6). fold g1 in E1, E2, E3, E4, E5, E6.
  assert (arm_approval rule now g1 = opened rule env_name now g) as ->.
  { rewrite arm_approval_eq. unfold opened, requested_of, required_of.
    rewrite Hw, E1, E2, E3, E4, E5, E6, Hn, Hrej, Hu. done. }
  rewrite Hw. destruct (match deadline_of rule now g with Some d => (now <? d)%Z | None => false end) eqn:Hdead.
  { split; [done|]. intros (Hd & _). destruct (deadline_of rule now g) as [d|]; [|done].
    specialize (Hd d eq_refl). lia. }
  assert (∀ d, deadline_of rule now g = Some d → (d <= now)%Z) as Hpast
    by (intros d Hd; rewrite Hd in Hdead; lia).
  cbn [opened approval_requested_at_unix_nanos].
  destruct (requested_of rule now g) as [at_|] eqn:Hreq.
  2: { split; [intros [= <-]; split_and!; [done|by intros [? ?]|done]|by intros (_ & _ & ->)]. }
  assert (default (required_reviewers rule) (approvals_required (opened rule env_name now g)) = required_of rule g) as ->.
  { unfold opened, required_of. simpl. destruct (decide _); done. }
  change (approvals_u32 (opened rule env_name now g)) with (approvals_u32 g).
  destruct (N.leb_spec (N.max 1 (required_of rule g)) (approvals_u32 g)) as [Hle|Hlt].
  - split; [by intros [= <-]|by intros (_ & _ & ->)].
  - split; [by repeat case_match|]. intros (_ & Hle & _). specialize (Hle (ex_intro _ at_ eq_refl)). lia.
Qed.

Lemma with_name_default gate env_name :
  let g := default gate_default gate in
  with_name gate env_name = mkGate (Some env_name) (wait_until_unix_nanos g) (approval_requested_at_unix_nanos g)
    (approvals g) (approvals_required g) (rejected_by g) (unresolvable_name g).
Proof. done. Qed.

(** The rules of a lookup that gate anything. *)
Definition gating (rules : option EnvironmentRules) : option EnvironmentRules :=
  rules ≫= (λ rule, if rules_gate_anything rule then Some rule else None).

Lemma evaluation_proceeds lookup git_ref env_name gate now gate' :
  let g := default gate_default gate in
  evaluate_environment_gate lookup git_ref env_name gate now = (Proceed, gate') ↔
  has_expressions env_name = false ∧ unresolvable_name g = None ∧
  ∃ rules, lookup = Resolved rules ∧
    match gating rules with
    | None => gate' = None
    | Some rule =>
        rejected_by g = None ∧ custom_protection_rules rule = [] ∧ ref_allowed rule git_ref = true ∧
        (∀ deadline, deadline_of rule now g = Some deadline → (deadline <= now)%Z) ∧
        (is_Some (requested_of rule now g) → (N.max 1 (required_of rule g) <= approvals_u32 g)%N) ∧
        gate' = Some (opened rule env_name now g)
    end.
Proof.
  cbv zeta. unfold evaluate_environment_gate, resolved_environment_name_of. fold (gating).
  assert (is_Some (g ← gate; unresolvable_name g) ↔ unresolvable_name (default gate_default gate) ≠ None) as Hun.
  { destruct gate as [g|]; simpl; [by rewrite <-not_eq_None_Some|]. split; [by intros [? ?]|done]. }
  rewrite (bool_decide_ext _ _ Hun). destruct (unresolvable_name (default gate_default gate)) as [u|] eqn:Hu.
  { rewrite bool_decide_true by done. split; [done|by intros (_ & ? & _)]. }
  rewrite bool_decide_false by naive_solver.
  destruct lookup as [rules|]; [|split; [done|by intros (_ & _ & ? & ? & _)]].
  destruct (has_expressions env_name); [split; [done|by intros (? & _)]|].
  transitivity (match gating rules with
    | None => gate' = None
    | Some rule =>
        let g := default gate_default gate in
        rejected_by g = None ∧ custom_protection_rules rule = [] ∧ ref_allowed rule git_ref = true ∧
        (∀ deadline, deadline_of rule now g = Some deadline → (deadline <= now)%Z) ∧
        (is_Some (requested_of rule now g) → (N.max 1 (required_of rule g) <= approvals_u32 g)%N) ∧
        gate' = Some (opened rule env_name now g)
    end).
  2: { split; [intros Hm; split_and!; [done..|by exists rules]|]. by intros (_ & _ & ? & [= <-] & Hm). }
  change (rules ≫= _) with (gating rules). destruct (gating rules) as [rule|]; [|naive_solver].
  rewrite with_name_default. cbv zeta. set (g := default gate_default gate) in *. cbn [rejected_by].
  destruct (rejected_by g) as [?|] eqn:Hrej.
  { rewrite bool_decide_true by by eexists. split; [done|by intros (? & _)]. }
  rewrite bool_decide_false by by intros [? ?].
  destruct (custom_protection_rules rule); [|split; [done|by intros (_ & ? & _)]]. cbn [length Nat.eqb negb].
  destruct (ref_allowed rule git_ref); [|split; [done|by intros (_ & _ & ? & _)]]. cbn [negb].
  pose proof (evaluate_timers_proceed rule env_name now) as Ht.
  set (g1 := mkGate _ _ _ _ _ _ _). destruct (evaluate_timers rule now g1) as [o g2] eqn:He.
  assert ((o, Some g2) = (Proceed, gate') ↔ ∃ g', evaluate_timers rule now g1 = (Proceed, g') ∧ gate' = Some g') as ->.
  { rewrite He. split; [intros [= -> <-]; eauto|]. by intros (? & [= -> ->] & ->). }
  setoid_rewrite (λ g3, Ht g1 g3 eq_refl eq_refl Hu).
  change (deadline_of rule now g1) with (deadline_of rule now g).
  change (requested_of rule now g1) with (requested_of rule now g).
  change (required_of rule g1) with (required_of rule g). change (approvals_u32 g1) with (approvals_u32 g).
  change (opened rule env_name now g1) with (opened rule env_name now g).
  split; [by intros (? & (? & ? & ->) & ->)|]. intros (_ & _ & _ & ? & ? & ->). eauto.
Qed.

(** C40: when a gate opens.  An evaluation proceeds exactly when the name is
    a literal that is not known to be unresolvable, the lookup has answered,
    and either no rule of the environment gates anything (the stored gate is
    then dropped, a recorded rejection with it), or all of this holds of the
    gate as it was stored before the evaluation: no rejection is recorded, no
    custom rule is enabled, the ref may deploy, a deadline is not after [now],
    and, where approvals were requested before or the rules ask for reviewers,
    the recorded approvals (counted as a [u32]) are as many as the gate, else
    the rules, require, and at least one.  The deadline is the stored one, or,
    for rules with a wait and none stored, [now] plus that wait in saturating
    64-bit nanoseconds; the gate that is stored keeps the approvals and carries
    that deadline, the instant of the request and the required count. *)
Theorem environment_gate_fail_closed lookup git_ref env_name gate now gate' :
  let g := default gate_default gate in
  evaluate_environment_gate lookup git_ref env_name gate now = (Proceed, gate') ↔
  has_expressions env_name = false ∧ unresolvable_name g = None ∧
  ∃ rules, lookup = Resolved rules ∧
    match gating rules with
    | None => gate' = None
    | Some rule =>
        rejected_by g = None ∧ custom_protection_rules rule = [] ∧ ref_allowed rule git_ref = true ∧
        (∀ deadline, deadline_of rule now g = Some deadline → (deadline <= now)%Z) ∧
        (is_Some (requested_of rule now g) → (N.max 1 (required_of rule g) <= approvals_u32 g)%N) ∧
        gate' = Some (opened rule env_name now g)
    end.
Proof. apply evaluation_proceeds. Qed.

(** A production environment with one reviewer, approved. *)
Definition sample_rules : EnvironmentRules := mkRules ["main"] [] 0 1 true false [].
Definition sample_gate : EnvironmentGateState :=
  mkGate (Some "prod") None (Some 5%Z) ["octocat"] (Some 1%N) None None.

Lemma environment_gate_fail_closed_witness :
  evaluate_environment_gate (Resolved (Some sample_rules)) "refs/heads/main" "prod" (Some sample_gate) 9 =
  (Proceed, Some sample_gate).
Proof.
  apply (environment_gate_fail_closed (Resolved (Some sample_rules)) "refs/heads/main" "prod"
    (Some sample_gate) 9 (Some sample_gate)).
  split; [reflexivity|]. split; [reflexivity|]. exists (Some sample_rules). split; [reflexivity|].
  split_and!; [reflexivity..| | |reflexivity]; [intros d Hd; vm_compute in Hd; discriminate|].
  intros _. vm_compute. discriminate.
Defined.

(** A rejected deployment proceeds once the environment has no rules left. *)
Example rejection_dropped_with_rules :
  evaluate_environment_gate (Resolved None) "refs/heads/main" "prod"
    (Some (mkGate (Some "prod") None (Some 5%Z) [] (Some 1%N) (Some "octocat") None)) 9 = (Proceed, None).
Proof. reflexivity. Qed.

(** ** The gate over time *)

(** What happens to a waiting job: the sweep evaluates its gate, reviewers
    approve or reject. *)
Inductive gate_event : Type :=
| Evaluate (now : Z)
| Approve (actor : string)
| Reject (actor : string).

Definition record_approval (actor : string) (g : EnvironmentGateState) : EnvironmentGateState :=
  mkGate (environment_name g) (wait_until_unix_nanos g) (approval_requested_at_unix_nanos g)
    (approvals g ++ [actor]) (approvals_required g) (rejected_by g) (unresolvable_name g).
Definition record_rejection (actor : string) (g : EnvironmentGateState) : EnvironmentGateState :=
  mkGate (environment_name g) (wait_until_unix_nanos g) (approval_requested_at_unix_nanos g)
    (approvals g) (approvals_required g) (Some actor) (unresolvable_name g).

Section trace.
Variables (rule : EnvironmentRules) (git_ref env_name : string).

Definition gate_step (gate : option EnvironmentGateState) (e : gate_event) : option EnvironmentGateState :=
  match e with
  | Evaluate now => (evaluate_environment_gate (Resolved (Some rule)) git_ref env_name gate now).2
  | Approve actor => record_approval actor <$> gate
  | Reject actor => record_rejection actor <$> gate
  end.

Definition evaluated_at (events : list gate_event) (now : Z) : Prop := Evaluate now ∈ events.

(** Every armed deadline is an earlier evaluation plus the wait. *)
Definition deadline_ok (events : list gate_event) (gate : option EnvironmentGateState) : Prop :=
  ∀ g d, gate = Some g → wait_until_unix_nanos g = Some d →
    ∃ t, evaluated_at events t ∧ d = saturate (t + wait_nanos rule).

Lemma evaluate_timers_deadline now g d :
  wait_until_unix_nanos (evaluate_timers rule now g).2 = Some d →
  wait_until_unix_nanos g = Some d ∨ d = saturate (now + wait_nanos rule).
Proof.
  unfold evaluate_timers. set (g1 := arm_wait rule now g).
  assert (wait_until_unix_nanos g1 = Some d →
    wait_until_unix_nanos g = Some d ∨ d = saturate (now + wait_nanos rule)) as Hg1.
  { unfold g1, arm_wait. destruct (wait_until_unix_nanos g) eqn:Hw; [rewrite Hw; by left|].
    destruct (0 <? wait_timer_minutes rule)%N; simpl; [|by rewrite Hw]. intros [= <-]. by right. }
  destruct (match wait_until_unix_nanos g1 with Some d => (now <? d)%Z | None => false end); [done|].
  assert (wait_until_unix_nanos (arm_approval rule now g1) = wait_until_unix_nanos g1) as Hw
    by (unfold arm_approval; repeat case_match; done).
  rewrite <-Hw in Hg1. destruct (approval_requested_at_unix_nanos (arm_approval rule now g1)); [|done].
  repeat case_match; done.
Qed.

Lemma gate_step_deadline events gate e :
  deadline_ok events gate → deadline_ok (events ++ [e]) (gate_step gate e).
Proof.
  intros Hok. assert (∀ g d, gate = Some g → wait_until_unix_nanos g = Some d →
    ∃ t, evaluated_at (events ++ [e]) t ∧ d = saturate (t + wait_nanos rule)) as Hold.
  { intros g d Hg Hd. destruct (Hok g d Hg Hd) as (t & ? & ?). exists t. split; [|done].
    apply elem_of_app. by left. }
  destruct e as [now|actor|actor]; simpl.
  2,3: intros g d; destruct gate as [g0|]; simpl; [|done]; intros [= <-]; simpl; by apply Hold.
  assert (∀ d, wait_until_unix_nanos (with_name gate env_name) = Some d →
    ∃ t, evaluated_at (events ++ [Evaluate now]) t ∧ d = saturate (t + wait_nanos rule)) as Hname.
  { intros d. destruct gate as [g0|]; simpl; [|done]. by apply Hold. }
  unfold evaluate_environment_gate. case_bool_decide; [done|].
  destruct (resolved_environment_name_of env_name); [|intros g d [= <-]; apply Hname].
  destruct (Some rule ≫= _) as [r|] eqn:Hr; [|done].
  assert (r = rule) as -> by (simpl in Hr; destruct (rules_gate_anything rule); congruence).
  pose proof (evaluate_timers_deadline now (with_name gate env_name)) as Htimers.
  destruct (evaluate_timers rule now (with_name gate env_name)) as [o g'].
  repeat case_match; simplify_eq/=; intros g d [= <-]; try apply Hname.
  intros [Hd| ->]%Htimers; [by apply Hname|].
  exists now. split; [|done]. apply elem_of_app. right. by left.
Qed.

Lemma gate_trace_deadline events : deadline_ok events (foldl gate_step None events).
Proof.
  induction events as [|e events IH] using rev_ind; [done|]. rewrite foldl_app. simpl.
  by apply gate_step_deadline.
Qed.

End trace.

(** The wait timer is waited.  Whatever evaluations, approvals and
    rejections came before, a gate whose rules ask for a wait proceeds only at
    an instant at least that wait after some evaluation, for waits and clocks
    in the range of 64-bit nanoseconds. *)
Theorem wait_timer_waited rule git_ref env_name events now gate' :
  (0 < wait_timer_minutes rule)%N → rules_gate_anything rule = true →
  (Z.of_N (wait_timer_minutes rule) * 60000000000 <= i64_max)%Z →
  (∀ t, evaluated_at (events ++ [Evaluate now]) t →
     (0 <= t /\ t + Z.of_N (wait_timer_minutes rule) * 60000000000 <= i64_max)%Z) →
  evaluate_environment_gate (Resolved (Some rule)) git_ref env_name
    (foldl (gate_step rule git_ref env_name) None events) now = (Proceed, gate') →
  ∃ t, evaluated_at (events ++ [Evaluate now]) t ∧
    (t + Z.of_N (wait_timer_minutes rule) * 60000000000 <= now)%Z.
Proof.
  intros Hwait Hrule Hmax Hrange Hproceed.
  pose proof (gate_trace_deadline rule git_ref env_name (events ++ [Evaluate now])) as Hok.
  rewrite foldl_app in Hok. cbn [foldl gate_step] in Hok. rewrite Hproceed in Hok. simpl in Hok.
  apply evaluation_proceeds in Hproceed as (_ & _ & ? & [= <-] & Hopen).
  unfold gating in Hopen. simpl in Hopen. rewrite Hrule in Hopen.
  destruct Hopen as (_ & _ & _ & Hpast & _ & ->). set (g := default gate_default _) in *.
  assert (is_Some (deadline_of rule now g)) as [d Hd].
  { unfold deadline_of. destruct (wait_until_unix_nanos g); [by eexists|].
    rewrite decide_False by lia. by eexists. }
  destruct (Hok _ d eq_refl Hd) as (t & Hin & ->). exists t. split; [done|].
  apply Hpast in Hd. destruct (Hrange t Hin) as [? ?].
  assert (wait_nanos rule = Z.of_N (wait_timer_minutes rule) * 60000000000)%Z as Heq.
  { unfold wait_nanos, u64_as_i64, saturate, i64_min, i64_max in *.
    rewrite Z.mod_small by lia. cbv zeta. destruct (Z.ltb_spec (Z.of_N (wait_timer_minutes rule)) (2 ^ 63)); lia. }
  rewrite Heq in Hd. unfold saturate, i64_min, i64_max in *. lia.
Qed.

Lemma wait_timer_waited_witness :
  ∃ t, evaluated_at [Evaluate 0; Evaluate 60000000000] t ∧ (t + 60000000000 <= 60000000000)%Z.
Proof.
  apply (wait_timer_waited (mkRules [] [] 1 0 false false []) "refs/heads/main" "prod" [Evaluate 0]
    60000000000 (Some (mkGate (Some "prod") (Some 60000000000%Z) None [] None None None))).
  - reflexivity.
  - reflexivity.
  - vm_compute. discriminate.
  - intros t Ht. repeat apply elem_of_cons in Ht as [[= ->]|Ht];
      [split; vm_compute; discriminate..|by apply elem_of_nil in Ht].
  - vm_compute. reflexivity.
Defined.
