(* ===== verification/TokenPermissions.v ===== *)
(** * What a job's token may do

    The [permissions:] of a workflow
    ([crates/preloop-gha-parser/src/expand.rs]), their reduction along calls of
    reusable workflows, the trust tier of a run and the one authorization
    decision taken from it
    ([crates/preloop-runner-server/src/events/trust_tier.rs]), the operator's
    ceiling ([crates/preloop-runner-server/src/token_ceiling.rs]), and the
    permissions sent to GitHub for an installation token
    ([crates/preloop-runner-server/src/github_app.rs]). *)
From S2P Require Export Models.

Abbreviation permissions := (gmap string string).

(** A [BTreeMap] collected from an iterator: a later entry of a key wins. *)
Definition collect_map (l : list (string * string)) : permissions :=
  foldl (λ m '(k, v), <[k := v]> m) ∅ l.

(** ** Declared permissions *)

Definition PERMISSION_SCOPES : list string :=
  ["actions"; "attestations"; "checks"; "contents"; "deployments"; "discussions"; "id-token";
   "issues"; "packages"; "pages"; "pull-requests"; "repository-projects"; "security-events";
   "statuses"; "vulnerability-alerts"].

Definition READ_ONLY_SCOPES : list string := ["vulnerability-alerts"].

Definition DEFAULT_TOKEN_PERMISSIONS : list (string * string) :=
  [("contents", "read"); ("metadata", "read"); ("packages", "read")].

Definition effective_token_permissions (declared : option permissions) : permissions :=
  match declared with
  | Some declared => declared
  | None => collect_map DEFAULT_TOKEN_PERMISSIONS
  end.

Section declared.
Context {num : Type}.

Definition resolve_permissions (job_permissions workflow_permissions : option (value num)) :
    option permissions :=
  effective ← match job_permissions with Some p => Some p | None => workflow_permissions end;
  match effective with
  | JString v =>
      let all level :=
        Some (collect_map
          ((λ s, (s, if str_eqb level "write" && bool_decide (s ∈ READ_ONLY_SCOPES)
                     then "read" else level)) <$> PERMISSION_SCOPES)) in
      if str_eqb v "read-all" then all "read"
      else if str_eqb v "write-all" then all "write"
      else Some ∅
  | JObject m => Some (collect_map (omap (λ '(k, v), (k,.) <$> as_str v) m))
  | _ => None
  end.

Definition id_token_granted (declared : option (value num)) : bool :=
  match declared with
  | Some (JString v) => str_eqb v "write-all"
  | Some (JObject m) =>
      match imap_get "id-token" m ≫= as_str with Some v => str_eqb v "write" | None => false end
  | _ => false
  end.

End declared.

Definition intersect_level (called_level caller_level : string) : option string :=
  if str_eqb called_level "write" && str_eqb caller_level "write" then Some "write"
  else if (str_eqb called_level "write" || str_eqb called_level "read")
          && (str_eqb caller_level "write" || str_eqb caller_level "read") then Some "read"
  else None.

Definition intersect_permissions (called caller : option permissions) : permissions :=
  let called := effective_token_permissions called in
  let caller := effective_token_permissions caller in
  map_imap (λ scope called_level,
    caller_level ← caller !! scope; intersect_level called_level caller_level) called.

(** ** Trust tiers *)

Inductive TrustTier : Type :=
| Trusted
| Internal
| InternalPullRequest
| UntrustedForkPullRequest
| PullRequestTarget
| AdminManual
| AppDispatch
| Deployment
| Schedule
| Untrusted.

#[export] Instance TrustTier_eq_dec : EqDecision TrustTier.
Proof. solve_decision. Defined.

Definition all_tiers : list TrustTier :=
  [Trusted; Internal; InternalPullRequest; UntrustedForkPullRequest; PullRequestTarget; AdminManual;
   AppDispatch; Deployment; Schedule; Untrusted].

Definition is_fork_restricted (tier : TrustTier) : bool :=
  match tier with UntrustedForkPullRequest | Untrusted => true | _ => false end.

Definition allows_secrets (tier : TrustTier) : bool := negb (is_fork_restricted tier).

Definition allows_head_checkout (tier : TrustTier) : bool :=
  match tier with
  | Trusted | Internal | InternalPullRequest | AdminManual | AppDispatch | Deployment | Schedule => true
  | _ => false
  end.

Definition concurrency_namespace (tier : TrustTier) : string :=
  match tier with
  | Trusted => "trusted"
  | Internal => "internal"
  | InternalPullRequest => "internal-pull-request"
  | UntrustedForkPullRequest => "untrusted-fork-pull-request"
  | PullRequestTarget => "pull-request-target"
  | AdminManual => "admin-manual"
  | AppDispatch => "app-dispatch"
  | Deployment => "deployment"
  | Schedule => "schedule"
  | Untrusted => "untrusted"
  end.

(** The serde name of a tier ([rename_all = "kebab-case"]) is its namespace. *)
Definition tier_from_str (s : string) : option TrustTier :=
  find (λ t, str_eqb (concurrency_namespace t) s) all_tiers.

(** [tier_of] of a submission with this [trust_tier]. *)
Definition tier_of (trust_tier : option string) : option TrustTier :=
  (λ v, default Untrusted (tier_from_str v)) <$> trust_tier.

(** ** The authorization decision *)

Definition ACTIONS_ONLY_SCOPES : list string := ["id-token"; "models"].

Record JobAuthorization : Type := mkAuthorization {
  auth_allows_secrets : bool;
  token_permissions : permissions;
  app_permissions : permissions;
  auth_id_token_granted : bool;
  fork_restricted : bool;
}.

Definition clamp_level (level : string) : string :=
  if eq_ignore_ascii_case level "none" then "none" else "read".

Definition fork_permission_set (restricted : bool) (effective : permissions) : permissions :=
  if negb restricted then effective
  else map_imap (λ scope level, if str_eqb scope "id-token" then None else Some (clamp_level level)) effective.

Definition repository_permissions (token : permissions) : permissions :=
  map_imap (λ scope level, if bool_decide (scope ∈ ACTIONS_ONLY_SCOPES) then None else Some level) token.

Definition job_authorization (tier : option TrustTier) (declared_permissions : option permissions)
    (declared_id_token_granted : bool) : JobAuthorization :=
  let restricted := match tier with Some t => is_fork_restricted t | None => false end in
  let secrets := match tier with Some t => allows_secrets t | None => true end in
  let token := fork_permission_set restricted (effective_token_permissions declared_permissions) in
  mkAuthorization secrets token (repository_permissions token)
    (declared_id_token_granted && negb restricted) restricted.

(** ** Installation tokens *)

Definition MINIMUM_PERMISSION : string * string := ("metadata", "read").

Definition permission_rank (level : string) : N :=
  let lower := to_ascii_lowercase level in
  if str_eqb lower "none" then 0
  else if str_eqb lower "read" then 1
  else if str_eqb lower "write" then 2
  else if str_eqb lower "admin" then 3
  else 255.

(** [scope.replace('-', "_")]. *)
Definition snake_case (scope : string) : string :=
  string_map (λ a, if bool_decide (a = "-"%char) then "_"%char else a) scope.

Definition clamp_to_grants (requested granted : permissions) : permissions :=
  map_imap (λ scope level,
    granted_level ← granted !! snake_case scope;
    Some (if (permission_rank granted_level <? permission_rank level)%N then granted_level else level))
    requested.

Definition ungranted (granted : permissions) (scope level : string) : bool :=
  negb (eq_ignore_ascii_case level "none") && negb (bool_decide (scope ∈ ACTIONS_ONLY_SCOPES)) &&
  match granted !! snake_case scope with
  | Some granted_level => (permission_rank granted_level <? permission_rank level)%N
  | None => true
  end.

Definition ungranted_scopes (requested granted : permissions) : list string :=
  omap (λ scope,
    level ← requested !! scope;
    if ungranted granted scope level then Some (scope +:+ ": " +:+ level) else None)
    (btree_keys requested).

Definition installation_permissions (requested : permissions) : permissions :=
  let scoped :=
    collect_map (omap (λ scope,
      level ← requested !! scope;
      if negb (eq_ignore_ascii_case level "none") && negb (bool_decide (scope ∈ ACTIONS_ONLY_SCOPES))
      then Some (snake_case scope, to_ascii_lowercase level) else None) (btree_keys requested)) in
  if bool_decide (scoped = ∅) then collect_map [MINIMUM_PERMISSION] else scoped.

(** ** The operator's ceiling *)

Inductive PermissionLevel : Type := LevelNone | LevelRead | LevelWrite | LevelAdmin.

Definition level_rank (level : PermissionLevel) : N :=
  match level with LevelNone => 0 | LevelRead => 1 | LevelWrite => 2 | LevelAdmin => 3 end.

Definition level_string (level : PermissionLevel) : string :=
  match level with
  | LevelNone => "none" | LevelRead => "read" | LevelWrite => "write" | LevelAdmin => "admin"
  end.

Record TokenPermissionsCeiling : Type := mkCeiling {
  ceiling_default : PermissionLevel;
  ceiling_scopes : gmap string PermissionLevel;
  allow_create_approve_pr : bool;
}.

(** [declared_rank] ranks the level strings as [permission_rank] does. *)
Definition declared_rank (level : string) : N := permission_rank level.

(** The cap of one scope. *)
Definition scope_cap (ceiling : TokenPermissionsCeiling) (scope : string) : PermissionLevel :=
  let cap := default (ceiling_default ceiling) (ceiling_scopes ceiling !! scope) in
  if str_eqb scope "pull-requests" && negb (allow_create_approve_pr ceiling) &&
     (level_rank LevelRead <? level_rank cap)%N
  then LevelRead else cap.

Record CeilingClampDetail : Type := mkClampDetail {
  clamp_scope : string; clamp_requested : string; clamp_granted : string }.

Definition apply_ceiling (ceiling : option TokenPermissionsCeiling) (requested : permissions) :
    permissions * list CeilingClampDetail :=
  match ceiling with
  | None => (requested, [])
  | Some ceiling =>
      (map_imap (λ scope level,
         let cap := scope_cap ceiling scope in
         Some (if (level_rank cap <? declared_rank level)%N then level_string cap else level)) requested,
       omap (λ scope,
         level ← requested !! scope;
         let cap := scope_cap ceiling scope in
         if (level_rank cap <? declared_rank level)%N
         then Some (mkClampDetail scope level (level_string cap)) else None) (btree_keys requested))
  end.

(** What a mint asks GitHub for: the permissions of the job under the ceiling,
    narrowed to the grants of the installation when GitHub refused the first
    request for them. *)
Definition minted_permissions (ceiling : option TokenPermissionsCeiling) (grants : option permissions)
    (app : permissions) : permissions :=
  let capped := (apply_ceiling ceiling app).1 in
  installation_permissions (match grants with Some g => clamp_to_grants capped g | None => capped end).

(** ** Reduction along calls *)

(** The permissions of a job of the innermost workflow of a chain of calls:
    each call intersects what the callee declares with what its caller has. *)
Definition call_permissions (outer : option permissions) (calls : list (option permissions)) :
    option permissions :=
  foldl (λ caller called, Some (intersect_permissions called caller)) outer calls.

Definition grants (declared : option permissions) (scope level : string) : Prop :=
  effective_token_permissions declared !! scope = Some level.

Definition grants_any (declared : option permissions) (scope : string) : Prop :=
  grants declared scope "read" ∨ grants declared scope "write".

Lemma intersect_level_spec called caller level :
  intersect_level called caller = Some level ↔
  (called = "write" ∧ caller = "write" ∧ level = "write") ∨
  ((called = "read" ∨ called = "write") ∧ (caller = "read" ∨ caller = "write") ∧
   (called = "read" ∨ caller = "read") ∧ level = "read").
Proof.
  unfold intersect_level, str_eqb.
  repeat case_bool_decide; simpl; split; naive_solver congruence.
Qed.

Lemma lookup_intersect called caller scope level :
  intersect_permissions called caller !! scope = Some level ↔
  ∃ x y, grants called scope x ∧ grants caller scope y ∧ intersect_level x y = Some level.
Proof.
  unfold intersect_permissions, grants. rewrite map_lookup_imap.
  destruct (effective_token_permissions called !! scope) as [x|]; simpl; [|naive_solver].
  destruct (effective_token_permissions caller !! scope) as [y|]; simpl; naive_solver.
Qed.

Lemma grants_call called caller scope level :
  grants (Some (intersect_permissions called caller)) scope level ↔
  (level = "write" ∧ grants called scope "write" ∧ grants caller scope "write") ∨
  (level = "read" ∧ grants_any called scope ∧ grants_any caller scope ∧
   (grants called scope "read" ∨ grants caller scope "read")).
Proof.
  unfold grants at 1. simpl. rewrite lookup_intersect. setoid_rewrite intersect_level_spec.
  unfold grants_any, grants. naive_solver.
Qed.

Lemma grants_any_call called caller scope :
  grants_any (Some (intersect_permissions called caller)) scope ↔
  grants_any called scope ∧ grants_any caller scope.
Proof. unfold grants_any at 1. rewrite !grants_call. unfold grants_any. naive_solver. Qed.

Lemma grants_functional d scope level level' :
  grants d scope level → grants d scope level' → level = level'.
Proof. unfold grants. congruence. Qed.

(** The levels along a chain, with the outermost declaration first. *)
Definition all_grant (chain : list (option permissions)) (scope : string) : Prop :=
  Forall (λ d, grants_any d scope) chain.
Definition all_write (chain : list (option permissions)) (scope : string) : Prop :=
  Forall (λ d, grants d scope "write") chain.

Lemma call_permissions_any outer calls scope :
  grants_any (call_permissions outer calls) scope ↔ all_grant (outer :: calls) scope.
Proof.
  unfold all_grant. revert outer. induction calls as [|call calls IH]; intros outer; simpl.
  - rewrite Forall_singleton. done.
  - rewrite IH, !Forall_cons, grants_any_call. tauto.
Qed.

Lemma call_permissions_write outer calls scope :
  grants (call_permissions outer calls) scope "write" ↔ all_write (outer :: calls) scope.
Proof.
  unfold all_write. revert outer. induction calls as [|call calls IH]; intros outer; simpl.
  - rewrite Forall_singleton. done.
  - rewrite IH, !Forall_cons, grants_call. naive_solver.
Qed.

Lemma call_permissions_levels outer calls scope level :
  calls ≠ [] → grants (call_permissions outer calls) scope level → level = "read" ∨ level = "write".
Proof.
  destruct calls as [|call calls] using rev_ind; [done|intros _].
  unfold call_permissions. rewrite foldl_app. simpl. rewrite grants_call. naive_solver.
Qed.

(** Calls of reusable workflows never widen a token.  The job of a
    workflow reached through calls holds a scope exactly when every workflow
    on the way grants it, and holds [write] only when all of them do: one
    [read] makes it [read]. *)
Theorem call_permissions_weakest outer call calls scope level :
  let chain := outer :: call :: calls in
  grants (call_permissions outer (call :: calls)) scope level ↔
  all_grant chain scope ∧
  ((level = "write" ∧ all_write chain scope) ∨ (level = "read" ∧ ¬ all_write chain scope)).
Proof.
  intros chain. split.
  - intros Hg. assert (level = "read" ∨ level = "write") as Hl
      by (by apply (call_permissions_levels outer (call :: calls) scope)).
    split; [apply call_permissions_any; unfold grants_any; naive_solver|].
    destruct Hl as [-> | ->]; [right|left; split; [done|by apply call_permissions_write]].
    split; [done|]. intros Hw%call_permissions_write.
    by pose proof (grants_functional _ _ _ _ Hg Hw).
  - intros [Ha [[-> Hw]|[-> Hw]]]; [by apply call_permissions_write|].
    apply call_permissions_any in Ha. destruct Ha as [Ha|Ha]; [done|].
    by apply call_permissions_write in Ha.
Qed.

(** ** Fork runs *)

Lemma clamp_level_rank level : (permission_rank (clamp_level level) <= 1)%N.
Proof. unfold clamp_level. by case_match. Qed.

Lemma lookup_fork_set effective scope level :
  fork_permission_set true effective !! scope = Some level →
  scope ≠ "id-token" ∧ ∃ declared, effective !! scope = Some declared ∧ level = clamp_level declared.
Proof.
  unfold fork_permission_set. simpl. rewrite map_lookup_imap. unfold str_eqb.
  destruct (effective !! scope) as [declared|]; simpl; [|done]. case_bool_decide; [done|naive_solver].
Qed.

Lemma collect_map_in l k v : collect_map l !! k = Some v → (k, v) ∈ l.
Proof.
  unfold collect_map. induction l as [|[k' v'] l IH] using rev_ind; [done|].
  rewrite foldl_app. simpl. rewrite elem_of_app.
  destruct (decide (k = k')) as [->|]; [rewrite lookup_insert_eq|rewrite lookup_insert_ne by done];
    [intros [= ->]; right; by left|auto].
Qed.

Lemma installation_permissions_in requested scope level :
  installation_permissions requested !! scope = Some level →
  (scope, level) = MINIMUM_PERMISSION ∨
  ∃ s l, requested !! s = Some l ∧ scope = snake_case s ∧ level = to_ascii_lowercase l ∧
    ¬ (s ∈ ACTIONS_ONLY_SCOPES) ∧ eq_ignore_ascii_case l "none" = false.
Proof.
  unfold installation_permissions. case_bool_decide as Hempty; intros Hl%collect_map_in.
  - left. apply list_elem_of_singleton in Hl. done.
  - right. apply list_elem_of_omap in Hl as (s & _ & Hs).
    destruct (requested !! s) as [l|] eqn:Hr; simpl in Hs; [|done].
    destruct (negb _ && negb _) eqn:Hk; [|done]. injection Hs as <- <-.
    apply andb_true_iff in Hk as [Hn Ha]. exists s, l. split_and!; try done.
    + by case_bool_decide.
    + by destruct (eq_ignore_ascii_case l "none").
Qed.

Definition restricted_tier (tier : option TrustTier) : bool :=
  match tier with Some t => is_fork_restricted t | None => false end.

(** Narrowing a request to what an installation holds only removes authority,
    and leaves nothing the installation does not hold. *)
Lemma clamp_to_grants_spec requested granted scope level :
  clamp_to_grants requested granted !! scope = Some level →
  ∃ asked held, requested !! scope = Some asked ∧ granted !! snake_case scope = Some held ∧
    (permission_rank level <= permission_rank asked)%N ∧
    (permission_rank level <= permission_rank held)%N.
Proof.
  unfold clamp_to_grants. rewrite map_lookup_imap.
  destruct (requested !! scope) as [asked|]; simpl; [|done].
  destruct (granted !! snake_case scope) as [held|]; simpl; [|done].
  intros [= <-]. exists asked, held. split_and!; try done; case_match eqn:Hr;
    rewrite ?N.ltb_lt, ?N.ltb_ge in Hr; lia.
Qed.

(** The ceiling only removes authority. *)
Lemma apply_ceiling_spec ceiling requested scope level :
  (apply_ceiling ceiling requested).1 !! scope = Some level →
  ∃ asked, requested !! scope = Some asked ∧ (permission_rank level <= permission_rank asked)%N.
Proof.
  destruct ceiling as [ceiling|]; simpl; [|intros ->; by exists level].
  rewrite map_lookup_imap. destruct (requested !! scope) as [asked|]; simpl; [|done].
  intros [= <-]. exists asked. split; [done|]. unfold declared_rank.
  destruct (N.ltb_spec (level_rank (scope_cap ceiling scope)) (permission_rank asked)); [|done].
  assert (permission_rank (level_string (scope_cap ceiling scope)) = level_rank (scope_cap ceiling scope)) as ->
    by (by destruct (scope_cap ceiling scope)). lia.
Qed.

Lemma lower_ascii_idem a : lower_ascii (lower_ascii a) = lower_ascii a.
Proof. destruct a as [[] [] [] [] [] [] [] []]; reflexivity. Qed.

Lemma to_ascii_lowercase_idem s : to_ascii_lowercase (to_ascii_lowercase s) = to_ascii_lowercase s.
Proof.
  unfold to_ascii_lowercase. induction s as [|a s IH]; [done|]. simpl. by rewrite lower_ascii_idem, IH.
Qed.

Lemma permission_rank_lower s : permission_rank (to_ascii_lowercase s) = permission_rank s.
Proof. unfold permission_rank. by rewrite to_ascii_lowercase_idem. Qed.

Lemma lowercase_none s : eq_ignore_ascii_case s "none" = str_eqb (to_ascii_lowercase s) "none".
Proof. done. Qed.

Lemma rank_read s :
  (permission_rank s <= 1)%N → eq_ignore_ascii_case s "none" = false → to_ascii_lowercase s = "read".
Proof.
  rewrite lowercase_none. unfold permission_rank, str_eqb. intros Hr Hn.
  repeat case_bool_decide; solve [done|lia].
Qed.

(** Whatever the ceiling and the grants, a minted scope is [metadata: read],
    asked for when nothing else is left, or one of the job's, no higher. *)
Lemma minted_permissions_spec ceiling grants app scope level :
  minted_permissions ceiling grants app !! scope = Some level →
  (scope, level) = MINIMUM_PERMISSION ∨
  ∃ s l l', app !! s = Some l ∧ scope = snake_case s ∧ level = to_ascii_lowercase l' ∧
    eq_ignore_ascii_case l' "none" = false ∧ (permission_rank l' <= permission_rank l)%N.
Proof.
  intros [Hm|(s & l' & Hl & -> & -> & _ & Hn)]%installation_permissions_in; [by left|right].
  assert (∃ l, (apply_ceiling ceiling app).1 !! s = Some l ∧ (permission_rank l' <= permission_rank l)%N)
    as (l & Hc & Hle).
  { destruct grants as [g|]; [|by exists l'].
    apply clamp_to_grants_spec in Hl as (l & _ & ? & _ & ? & _). by exists l. }
  apply apply_ceiling_spec in Hc as (asked & Ha & Hle'). exists s, asked, l'. split_and!; try done. lia.
Qed.

(** C39: what a run of untrusted code is given.  Its jobs get no stored
    secret and no OIDC grant, and the token permissions on the wire keep only
    declared scopes other than [id-token], none above [read].  Whatever the
    operator's ceiling and whatever the installation grants, the permissions
    asked for its installation token are [read] ones: [metadata], which is
    also asked for when nothing else is left, or scopes of the wire.  A tier
    the server cannot read is untrusted.  The authorization of any other run
    carries the declared permissions and OIDC grant unchanged (the defaults
    if it declared none); its installation token too never holds a scope,
    [metadata: read] aside, above the level of the authorization. *)
Theorem fork_runs_read_only tier declared oidc :
  let auth := job_authorization tier declared oidc in
  (restricted_tier tier = true →
   auth_allows_secrets auth = false ∧ auth_id_token_granted auth = false ∧
   (∀ scope level, token_permissions auth !! scope = Some level →
      (permission_rank level <= 1)%N ∧ scope ≠ "id-token" ∧
      is_Some (effective_token_permissions declared !! scope)) ∧
   (∀ ceiling grants scope level, minted_permissions ceiling grants (app_permissions auth) !! scope = Some level →
      level = "read" ∧
      (scope = "metadata" ∨ ∃ s, scope = snake_case s ∧ token_permissions auth !! s = Some "read"))) ∧
  (restricted_tier tier = false →
   auth_allows_secrets auth = true ∧ auth_id_token_granted auth = oidc ∧
   token_permissions auth = effective_token_permissions declared ∧
   (∀ ceiling grants scope level, minted_permissions ceiling grants (app_permissions auth) !! scope = Some level →
      (scope, level) = ("metadata", "read") ∨
      ∃ s asked, scope = snake_case s ∧ token_permissions auth !! s = Some asked ∧
        (permission_rank level <= permission_rank asked)%N)) ∧
  (∀ name, name ∉ concurrency_namespace <$> all_tiers → restricted_tier (tier_of (Some name)) = true).
Proof.
  intros auth. split_and!.
  - intros Hr. destruct tier as [t|]; [simpl in Hr|done]. unfold auth, job_authorization. simpl. rewrite Hr.
    unfold allows_secrets. rewrite Hr. split_and!; [done|by rewrite andb_false_r| |].
    + intros scope level (Hid & l & Hl & ->)%lookup_fork_set. eauto using clamp_level_rank.
    + intros ceiling grants scope level
        [[= -> ->]|(s & l & l' & Hl & -> & -> & Hn & Hle)]%minted_permissions_spec; [auto|].
      unfold repository_permissions in Hl. rewrite map_lookup_imap in Hl.
      destruct (fork_permission_set true _ !! s) as [l0|] eqn:Hs; simpl in Hl; [|done].
      case_bool_decide; [done|]. injection Hl as ->.
      pose proof Hs as (_ & d & _ & ->)%lookup_fork_set.
      assert (clamp_level d = "read") as Hread.
      { unfold clamp_level in *. destruct (eq_ignore_ascii_case d "none"); [|done]. exfalso.
        change (permission_rank "none") with 0%N in Hle. apply N.le_0_r in Hle.
        rewrite lowercase_none in Hn. unfold permission_rank in Hle. rewrite Hn in Hle.
        repeat case_match; done. }
      rewrite Hread in *. split; [by apply rank_read|]. right. by exists s.
  - intros Hr.
    assert (auth = mkAuthorization true (effective_token_permissions declared)
      (repository_permissions (effective_token_permissions declared)) oidc false) as ->.
    { unfold auth, job_authorization, allows_secrets. destruct tier as [t|]; simpl in *; rewrite ?Hr;
        by rewrite andb_true_r. }
    simpl. split_and!; [done..|]. intros ceiling grants scope level
      [Hm|(s & l & l' & Hl & -> & -> & _ & Hle)]%minted_permissions_spec; [by left|right].
    unfold repository_permissions in Hl. rewrite map_lookup_imap in Hl.
    destruct (effective_token_permissions declared !! s) as [l0|] eqn:Hs; simpl in Hl; [|done].
    case_bool_decide; [done|]. injection Hl as ->. exists s, l. by rewrite permission_rank_lower.
  - intros name Hn. simpl. destruct (tier_from_str name) as [t|] eqn:Ht; [|done].
    exfalso. apply find_some in Ht as [Ht Heq]. apply Hn. unfold str_eqb in Heq.
    apply bool_decide_eq_true_1 in Heq as <-. apply list_elem_of_fmap_2.
    by apply list_elem_of_In.
Qed.

Lemma clamped_is_granted requested granted :
  ungranted_scopes (clamp_to_grants requested granted) granted = [].
Proof.
  destruct (ungranted_scopes _ _) as [|text r] eqn:Hu; [done|]. exfalso.
  assert (text ∈ ungranted_scopes (clamp_to_grants requested granted) granted) as Ht
    by (rewrite Hu; by left).
  apply list_elem_of_omap in Ht as (scope & _ & Hs).
  destruct (clamp_to_grants requested granted !! scope) as [level|] eqn:Hl; simpl in Hs; [|done].
  destruct (ungranted granted scope level) eqn:Hg; [|done].
  apply clamp_to_grants_spec in Hl as (asked & held & _ & Hh & _ & Hle).
  unfold ungranted in Hg. rewrite Hh in Hg. apply andb_true_iff in Hg as [_ Hg].
  apply N.ltb_lt in Hg. lia.
Qed.

