(* ===== verification/Concurrency.v ===== *)
(** * Concurrency groups: holders, keys and decisions

    The holders of a concurrency group and their rows, the keys of groups, the
    order of the events that trigger runs and the queue modes
    ([crates/preloop-runner-server/src/concurrency.rs]), and the admission
    decisions of [control/logic.rs].

    A run id is a [Uuid]; its type, its text and its parser are those of the
    [uuid] crate and parameters here. *)
From S2P Require Export TokenPermissions.

Inductive Holder (RunId : Type) : Type :=
| HRun (run : RunId)
| HJob (run : RunId) (job : string)
| HJobSet (run : RunId) (jobs : gset string).
Arguments HRun {RunId} run.
Arguments HJob {RunId} run job.
Arguments HJobSet {RunId} run jobs.

#[export] Instance Holder_eq_dec {RunId} `{EqDecision RunId} : EqDecision (Holder RunId).
Proof. solve_decision. Defined.

Inductive ConcurrencyQueue : Type := Single | Max.

#[export] Instance ConcurrencyQueue_eq_dec : EqDecision ConcurrencyQueue.
Proof. solve_decision. Defined.

Section holders.
Context {RunId : Type} `{EqDecision RunId}.
Implicit Types (h : Holder RunId) (r : RunId).

Definition holder_run h : RunId :=
  match h with HRun r | HJob r _ | HJobSet r _ => r end.

Definition contains_job h r (job : string) : bool :=
  match h with
  | HRun r' => bool_decide (r' = r)
  | HJob r' job' => bool_decide (r' = r) && str_eqb job' job
  | HJobSet r' jobs => bool_decide (r' = r) && bool_decide (job ∈ jobs)
  end.

Definition is_run_holder h r : bool :=
  match h with
  | HRun r' | HJobSet r' _ => bool_decide (r' = r)
  | HJob _ _ => false
  end.

(** The jobs a run knows, with their status. *)
Definition holder_is_terminal h (jobs : gmap string ExecutionStatus) : bool :=
  let terminal job := match jobs !! job with Some s => is_terminal s | None => false end in
  match h with
  | HRun _ => forallb (λ '(_, s), is_terminal s) (map_to_list jobs)
  | HJob _ job => terminal job
  | HJobSet _ members => forallb terminal (btree_set_elems members)
  end.

(** ** Rows *)

Variables (run_to_string : RunId → string) (run_from_str : string → option RunId).
Context {num : Type} `{JsonCodec num}.

Record HolderRow : Type := mkHolderRow {
  hr_kind : string;
  hr_run_id : string;
  hr_job_id : option string;
  hr_job_ids : string;
}.

Definition holder_row h : HolderRow :=
  match h with
  | HRun r => mkHolderRow "run" (run_to_string r) None "[]"
  | HJob r job => mkHolderRow "job" (run_to_string r) (Some job) "[]"
  | HJobSet r jobs =>
      mkHolderRow "jobset" (run_to_string r) None
        (json_to_string (JArray ((JString : string → value num) <$> btree_set_elems jobs)))
  end.

(** [serde_json::from_str::<Vec<String>>]. *)
Definition strings_from_json (text : string) : option (list string) :=
  match json_from_str text : result string (value num) with
  | Ok (JArray vs) => mapM as_str vs
  | _ => None
  end.

Definition holder_from_row (row : HolderRow) : option (Holder RunId) :=
  r ← run_from_str (hr_run_id row);
  if str_eqb (hr_kind row) "run" then Some (HRun r)
  else if str_eqb (hr_kind row) "job" then HJob r <$> hr_job_id row
  else if str_eqb (hr_kind row) "jobset" then
    (λ ids, HJobSet r (list_to_set ids)) <$> strings_from_json (hr_job_ids row)
  else None.

End holders.

Definition queue_mode_row (queue : ConcurrencyQueue) : string :=
  match queue with Single => "single" | Max => "max" end.

Definition queue_mode_from_row (mode : string) : ConcurrencyQueue :=
  if str_eqb mode "max" then Max else Single.

(** ** Keys *)

Definition concurrency_key (repo group : string) : string * string :=
  (to_ascii_lowercase repo, to_ascii_lowercase group).

Definition TIER_KEY_SEP : ascii := "031".

(** [repo.rsplit(sep).next()]: the text after the last separator. *)
Fixpoint after_last (sep : ascii) (s : string) (bare : string) : string :=
  match s with
  | EmptyString => bare
  | String a r => after_last sep r (if decide (a = sep) then r else bare)
  end.

Definition concurrency_key_for_tier (repo group : string) (tier : option TrustTier) : string * string :=
  let '(repo, group) := concurrency_key (after_last TIER_KEY_SEP repo repo) group in
  match tier with
  | None => (repo, group)
  | Some tier => (concurrency_namespace tier +:+ String TIER_KEY_SEP repo, group)
  end.

(** ** The order of events *)

Record EventOrder : Type := mkOrder { scope : string; at_seconds : Z }.

Definition is_older_than (a b : EventOrder) : bool :=
  str_eqb (scope a) (scope b) && (at_seconds a <? at_seconds b)%Z.

Section event_order.
Context {num : Type} `{NumberOps num}.
Abbreviation json := (value num).

(** [DateTime::parse_from_rfc3339(text).timestamp()] of the [chrono] crate. *)
Variable rfc3339_seconds : string → option Z.

Definition value_i64 (v : json) : option Z := match v with JNumber n => as_i64 n | _ => None end.
Definition value_u64 (v : json) : option Z := match v with JNumber n => as_u64 n | _ => None end.

Definition option_or {A} (o p : option A) : option A := match o with Some _ => o | None => p end.

Definition unix_seconds (v : json) : option Z :=
  option_or (value_i64 v) (as_str v ≫= rfc3339_seconds).

(** First timestamp present among the fields of the object. *)
Fixpoint first_at (object : json) (fields : list string) : option Z :=
  match fields with
  | [] => None
  | field :: fields => option_or (value_get field object ≫= unix_seconds) (first_at object fields)
  end.

Definition event_number (object : json) : option Z := value_get "number" object ≫= value_u64.

Definition order (scope : string) (at_seconds : Z) : option EventOrder := Some (mkOrder scope at_seconds).

Definition created_or_updated : list string := ["updated_at"; "created_at"].

Definition pull_request_scope (repository : string) (number : Z) : string :=
  "pull_request:" +:+ repository +:+ "#" +:+ pretty number.

Definition numbered_scope (kind repository : string) (number : Z) : string :=
  kind +:+ ":" +:+ repository +:+ "#" +:+ pretty number.

Definition branch_scope (repository branch : string) : string :=
  "branch:" +:+ repository +:+ ":" +:+ branch.

Definition review_time (payload : json) : option Z :=
  option_or (value_get "review" payload ≫= λ v, first_at v ["submitted_at"; "updated_at"])
            (value_get "comment" payload ≫= λ v, first_at v created_or_updated).

Definition event_order (event repository : string) (payload : json) : option EventOrder :=
  let named := str_eqb event in
  if named "push" then
    at_ ← (r ← value_get "repository" payload; value_get "pushed_at" r) ≫= unix_seconds;
    order ("push:" +:+ repository) at_
  else if named "pull_request" || named "pull_request_target" then
    pull_request ← value_get "pull_request" payload;
    number ← option_or (event_number payload) (event_number pull_request);
    at_ ← first_at pull_request ["updated_at"];
    order (pull_request_scope repository number) at_
  else if named "pull_request_review" || named "pull_request_review_comment" then
    pull_request ← value_get "pull_request" payload;
    number ← event_number pull_request;
    at_ ← option_or (review_time payload) (first_at pull_request ["updated_at"]);
    order (pull_request_scope repository number) at_
  else if named "issue_comment" then
    issue ← value_get "issue" payload;
    n ← event_number issue;
    comment ← value_get "comment" payload;
    at_ ← first_at comment created_or_updated;
    order (if bool_decide (is_Some (value_get "pull_request" issue)) then pull_request_scope repository n
           else numbered_scope "issue" repository n) at_
  else if named "issues" then
    issue ← value_get "issue" payload;
    n ← event_number issue;
    at_ ← first_at issue created_or_updated;
    order (numbered_scope "issue" repository n) at_
  else if named "discussion" || named "discussion_comment" then
    discussion ← value_get "discussion" payload;
    n ← event_number discussion;
    at_ ← option_or (value_get "comment" payload ≫= λ v, first_at v created_or_updated)
                    (first_at discussion created_or_updated);
    order (numbered_scope "discussion" repository n) at_
  else if named "milestone" then
    milestone ← value_get "milestone" payload;
    n ← event_number milestone;
    at_ ← first_at milestone created_or_updated;
    order (numbered_scope "milestone" repository n) at_
  else if named "deployment" || named "deployment_status" then
    deployment ← value_get "deployment" payload;
    environment ← option_or (value_get "deployment_status" payload ≫= value_get "environment")
                            (value_get "environment" deployment);
    environment ← as_str environment;
    at_ ← match value_get "deployment_status" payload with
          | Some status => first_at status created_or_updated
          | None => first_at deployment created_or_updated
          end;
    order ("deployment:" +:+ repository +:+ ":" +:+ environment) at_
  else if named "workflow_run" || named "check_suite" then
    subject ← value_get event payload;
    branch ← value_get "head_branch" subject ≫= as_str;
    at_ ← first_at subject created_or_updated;
    order (branch_scope repository branch) at_
  else if named "check_run" then
    run ← value_get "check_run" payload;
    branch ← (s ← value_get "check_suite" run; value_get "head_branch" s) ≫= as_str;
    at_ ← first_at run ["completed_at"; "started_at"];
    order (branch_scope repository branch) at_
  else if named "release" then
    release ← value_get "release" payload;
    at_ ← first_at release ["published_at"; "created_at"];
    order ("release:" +:+ repository) at_
  else None.

End event_order.

(** ** Admission *)

Section admission.
Context {RunId : Type} `{EqDecision RunId}.

Record ConcurrencyRow : Type := mkConcurrencyRow {
  cr_group : string;
  cr_run_id : RunId;
  cr_job_id : option string;
  cr_wait_id : N;
  cr_cancel_in_progress : bool;
}.

Inductive ConcurrencyAdmission : Type :=
| AdmissionAcquired
| Waiting
| CancelCurrent (row : ConcurrencyRow)
| AdmissionCancelled.

Definition concurrency_admission (arrival : ConcurrencyRow) (holder : option ConcurrencyRow) :
    ConcurrencyAdmission :=
  match holder with
  | None => AdmissionAcquired
  | Some current =>
      if cr_cancel_in_progress arrival then
        if bool_decide (cr_run_id current = cr_run_id arrival) then AdmissionAcquired else CancelCurrent current
      else Waiting
  end.

(** [min_by_key] keeps the first of equal minima. *)
Definition concurrency_fifo_promotion (waiters : list ConcurrencyRow) : option ConcurrencyRow :=
  foldl (λ best w, match best with
                   | Some b => if (cr_wait_id w <? cr_wait_id b)%N then Some w else Some b
                   | None => Some w
                   end) None waiters.

Definition MAX_CONCURRENCY_WAITERS : nat := 100.

Record ConcurrencyQueueDecision : Type := mkQueueDecision {
  cancel_pending : list ConcurrencyRow;
  cancel_arrival : bool;
  park_arrival : bool;
}.

Definition concurrency_queue_decision (mode : ConcurrencyQueue) (existing : list ConcurrencyRow) :
    ConcurrencyQueueDecision :=
  match mode with
  | Single => mkQueueDecision existing false true
  | Max =>
      if MAX_CONCURRENCY_WAITERS <=? length existing then mkQueueDecision [] true false
      else mkQueueDecision [] false true
  end.

End admission.
Arguments ConcurrencyRow : clear implicits.
Arguments ConcurrencyAdmission : clear implicits.
Arguments ConcurrencyQueueDecision : clear implicits.

(** ** Tier keys *)

(** The characters of a string contain no separator. *)
Fixpoint separator_free (sep : ascii) (s : string) : bool :=
  match s with
  | EmptyString => true
  | String a r => negb (bool_decide (a = sep)) && separator_free sep r
  end.

Lemma after_last_none sep s bare : separator_free sep s = true → after_last sep s bare = bare.
Proof.
  revert bare. induction s as [|a s IH]; intros bare; simpl; [done|].
  destruct (decide (a = sep)) as [->|Ha]; [by rewrite bool_decide_true|].
  rewrite bool_decide_false by done. apply IH.
Qed.

Lemma after_last_free sep s bare :
  separator_free sep bare = true ∨ separator_free sep s = false →
  separator_free sep (after_last sep s bare) = true.
Proof.
  revert bare. induction s as [|a s IH]; intros bare; simpl; [naive_solver|].
  intros Hor. apply IH. destruct (decide (a = sep)) as [->|Ha].
  - destruct (separator_free sep s); auto.
  - by rewrite bool_decide_false in Hor.
Qed.

Lemma bare_free sep s : separator_free sep (after_last sep s s) = true.
Proof. apply after_last_free. destruct (separator_free sep s); auto. Qed.

Lemma lower_separator a : lower_ascii a = TIER_KEY_SEP → a = TIER_KEY_SEP.
Proof. destruct a as [[] [] [] [] [] [] [] []]; vm_compute; congruence. Qed.

Lemma lower_free s : separator_free TIER_KEY_SEP s = true → separator_free TIER_KEY_SEP (to_ascii_lowercase s) = true.
Proof.
  unfold to_ascii_lowercase. induction s as [|a s IH]; cbn [separator_free string_map]; [done|].
  intros [Ha Hs]%andb_prop. rewrite IH by done. rewrite andb_true_r.
  apply negb_true_iff, bool_decide_eq_false_2. apply negb_true_iff, bool_decide_eq_false_1 in Ha.
  intros Hl. by apply Ha, lower_separator.
Qed.

Lemma lower_idempotent s : to_ascii_lowercase (to_ascii_lowercase s) = to_ascii_lowercase s.
Proof.
  unfold to_ascii_lowercase. induction s as [|a s IH]; cbn [string_map]; [done|]. rewrite IH. f_equal.
  destruct a as [[] [] [] [] [] [] [] []]; reflexivity.
Qed.

(** The repository part of a key, under its tier. *)
Definition tier_repo (bare : string) (tier : option TrustTier) : string :=
  match tier with
  | None => bare
  | Some t => concurrency_namespace t +:+ String TIER_KEY_SEP bare
  end.

Lemma tier_repo_bare bare tier :
  separator_free TIER_KEY_SEP bare = true →
  after_last TIER_KEY_SEP (tier_repo bare tier) (tier_repo bare tier) = bare.
Proof. intros Hb. destruct tier as [[]|]; simpl; by apply after_last_none. Qed.

Lemma tier_repo_inj bare bare' tier tier' :
  separator_free TIER_KEY_SEP bare = true → separator_free TIER_KEY_SEP bare' = true →
  tier_repo bare tier = tier_repo bare' tier' → tier = tier' ∧ bare = bare'.
Proof.
  intros Hb Hb' Heq. assert (bare = bare') as <-.
  { by rewrite <-(tier_repo_bare bare tier Hb), <-(tier_repo_bare bare' tier' Hb'), Heq. }
  split; [|done]. assert (∀ t, tier_repo bare (Some t) ≠ bare) as Hne.
  { intros t Ht. rewrite <-Ht in Hb. revert Hb. clear. by destruct t. }
  destruct tier as [t|], tier' as [t'|]; [|by apply Hne in Heq|by symmetry in Heq; apply Hne in Heq|done].
  destruct t, t'; first [done|by inversion Heq].
Qed.

Lemma key_for_tier_repo repo group tier :
  concurrency_key_for_tier repo group tier =
  (tier_repo (to_ascii_lowercase (after_last TIER_KEY_SEP repo repo)) tier, to_ascii_lowercase group).
Proof. unfold concurrency_key_for_tier, concurrency_key. by destruct tier. Qed.

(** Rekeying an already namespaced key is the same as keying its repository,
    and keys of different trust tiers, or of a tier and of none, never meet. *)
Theorem tier_keys_isolated repo group tier :
  (∀ tier', let k := concurrency_key_for_tier repo group tier in
            concurrency_key_for_tier k.1 k.2 tier' = concurrency_key_for_tier repo group tier') ∧
  (∀ repo' group' tier',
     concurrency_key_for_tier repo group tier = concurrency_key_for_tier repo' group' tier' →
     tier = tier' ∧
     concurrency_key_for_tier repo group None = concurrency_key_for_tier repo' group' None).
Proof.
  assert (∀ r, separator_free TIER_KEY_SEP (to_ascii_lowercase (after_last TIER_KEY_SEP r r)) = true) as Hfree
    by (intros r; apply lower_free, bare_free).
  split.
  - intros tier'. cbv zeta. rewrite !key_for_tier_repo. cbn [fst snd]. by rewrite tier_repo_bare, !lower_idempotent by apply Hfree.
  - intros repo' group' tier'. rewrite !key_for_tier_repo. intros [= Heq Hg].
    apply tier_repo_inj in Heq as [-> Hbare]; [|apply Hfree..]. split; [done|]. simpl. by rewrite Hbare, Hg.
Qed.
