(* ===== verification/WorkflowModel.v ===== *)
(** * Workflows and job plans

    The data of [crates/preloop-gha-parser/src/models.rs] as the expander sees
    it after deserialization, with the operations on it: environments, labels,
    needs, deferred scalars, the [workflow_call] trigger and the inputs of a
    [workflow_dispatch]; the coercion of input values of [expand.rs]; and the
    plans of [crates/preloop-gha-protocol/src/lib.rs] the expander produces.

    Reading YAML or JSON into these types is done by the [serde] crates: the
    readers the code calls are the fields of [WorkflowReaders]. *)
From S2P Require Export Template TokenPermissions Matrix.
From S2P Require Import Labels Concurrency.
From S2P Require Export Trigger.

(** ** Numbers of inputs *)

(** Conversions into [serde_json::Number]; [from_f64] refuses infinities and
    NaN. *)
Class NumberMake (num : Type) := {
  num_of_i64 : Z → num;
  num_from_f64 : f64 → option num;
}.

(** The text of a binary64, which the code only shows in an error message. *)
Class FloatText := { f64_to_string : f64 → string }.

Definition special_float (word : string) (neg : bool) : option f64 :=
  if eq_ignore_ascii_case word "inf" || eq_ignore_ascii_case word "infinity"
  then Some (f64_infinity neg)
  else if eq_ignore_ascii_case word "nan" then Some f64_nan else None.

(** [str::parse::<f64>]. *)
Definition f64_from_str (s : string) : option f64 :=
  if is_decimal_number s then Some (parse_f64 s)
  else match strip_prefix "-" s with
       | Some word => special_float word true
       | None => special_float (default s (strip_prefix "+" s)) false
       end.

Definition f64_is_finite (x : f64) : bool :=
  match x with S754_zero _ | S754_finite _ _ _ => true | _ => false end.

(** [x as u64]: truncated, and saturated at both ends. *)
Definition f64_as_u64 (x : f64) : N := N.min (2 ^ 64 - 1) (Z.to_N (f64_trunc x)).

(** ** Workflow data *)
Section workflow.
Context {num : Type}.
Abbreviation json := (value num).

Inductive EnvValue : Type :=
| EnvString (v : string)
| EnvBool (v : bool)
| EnvNumber (v : num)
| EnvNull.

Inductive Env : Type :=
| EnvEmpty
| EnvMap (values : gmap string EnvValue)
| EnvExpression (v : string).

Inductive RunsOn : Type :=
| RunsOnSingle (label : string)
| RunsOnMany (labels : list string)
| RunsOnDynamic (selector : json).

Inductive Needs : Type :=
| NeedsNone
| NeedsSingle (job : string)
| NeedsMany (jobs : list string).

Inductive DeferredBool : Type :=
| BoolLiteral (v : bool)
| BoolExpression (expression : string).

Inductive DeferredNumber : Type :=
| NumberLiteral (v : N)
| NumberFloat (v : f64)
| NumberExpression (expression : string).

Inductive JobContinueOnError : Type :=
| ContinueBool (v : bool)
| ContinueExpression (expression : string).

Inductive MatrixValue : Type :=
| MatrixStatic (matrix : Matrix num)
| MatrixExpression (expression : string).

Record Strategy : Type := mkStrategy {
  strategy_matrix : option MatrixValue;
  strategy_fail_fast : option DeferredBool;
  strategy_max_parallel : option DeferredNumber;
}.

(** [Concurrency] of a workflow or job. *)
Record ConcurrencyConfig : Type := mkConcurrencyConfig {
  cc_group : string;
  cc_cancel_in_progress : option string;
  cc_queue : ConcurrencyQueue;
}.

Record DefaultsRun : Type := mkDefaultsRun {
  default_shell : option string;
  default_working_directory : option string;
}.
Record JobDefaults : Type := mkJobDefaults { defaults_run : option DefaultsRun }.

Record Step : Type := mkStep {
  step_id : option string;
  step_name : option string;
  step_run : option string;
  step_uses : option string;
  step_env : Env;
  step_with : gmap string json;
  step_if : option string;
  step_working_directory : option string;
  step_timeout_minutes : option DeferredNumber;
  step_shell : option string;
  step_continue_on_error : option DeferredBool;
}.

Record Job : Type := mkJobSpec {
  job_name : option string;
  job_runs_on : RunsOn;
  job_needs : Needs;
  job_if : option string;
  job_continue_on_error : option JobContinueOnError;
  job_strategy : Strategy;
  job_concurrency : option ConcurrencyConfig;
  job_env : Env;
  job_environment : option json;
  job_permissions : option json;
  job_steps : list Step;
  job_uses : option string;
  job_with : gmap string json;
  job_secrets : option json;
  job_container : option json;
  job_services : option json;
  job_defaults : option JobDefaults;
  job_outputs : gmap string json;
  job_timeout_minutes : option DeferredNumber;
}.

Record Workflow : Type := mkWorkflow {
  wf_name : option string;
  wf_run_name : option string;
  wf_on : Trigger num;
  wf_env : Env;
  wf_defaults : option JobDefaults;
  wf_permissions : option json;
  wf_concurrency : option ConcurrencyConfig;
  wf_jobs : imap Job;
}.

Inductive InputType : Type := InString | InNumber | InBoolean | InChoice | InEnvironment.

Record InputDefinition : Type := mkInputDef {
  input_type : InputType;
  input_required : bool;
  input_default : option json;
}.

Record WorkflowCallTrigger : Type := mkCallTrigger {
  call_inputs : gmap string InputDefinition;
  call_secrets : gmap string bool;
  call_outputs : gmap string string;
}.

End workflow.
Arguments EnvValue : clear implicits.
Arguments Env : clear implicits.
Arguments RunsOn : clear implicits.
Arguments MatrixValue : clear implicits.
Arguments Strategy : clear implicits.
Arguments Step : clear implicits.
Arguments Job : clear implicits.
Arguments Workflow : clear implicits.
Arguments InputDefinition : clear implicits.
Arguments WorkflowCallTrigger : clear implicits.

#[export] Instance InputType_eq_dec : EqDecision InputType.
Proof. solve_decision. Defined.

(** What the code asks of the [serde] readers: a workflow file, the options of
    [on.workflow_call], the [type] of an input. *)
Class WorkflowReaders (num : Type) := {
  read_workflow : string → result string (Workflow num);
  call_trigger_from_value : value num → result string (WorkflowCallTrigger num);
  input_type_from_value : value num → result string InputType;
}.

(** ** Operations on the data *)
Section operations.
Context {num : Type} `{NumberOps num, JsonCodec num, UnicodeCase, NumberMake num}.
Abbreviation json := (value num).

Definition env_value_string (v : EnvValue num) : string :=
  match v with
  | EnvString s => s
  | EnvBool b => bool_string b
  | EnvNumber n => num_to_string n
  | EnvNull => ""
  end.

Definition into_strings (e : Env num) : gmap string string :=
  match e with
  | EnvEmpty => ∅
  | EnvMap vs => env_value_string <$> vs
  | EnvExpression v => {["__preloop_env_expression" := v]}
  end.

Definition labels (r : RunsOn num) : list string :=
  match r with
  | RunsOnSingle v => [v]
  | RunsOnMany vs => vs
  | RunsOnDynamic (JString v) => [v]
  | RunsOnDynamic (JObject object) =>
      match imap_get "labels" object with
      | Some (JString v) => [v]
      | Some (JArray vs) => omap as_str vs
      | _ => []
      end
  | RunsOnDynamic _ => []
  end.

Definition group (r : RunsOn num) : option string :=
  match r with RunsOnDynamic (JObject object) => imap_get "group" object ≫= as_str | _ => None end.

Definition ids (n : Needs) : list string :=
  match n with NeedsNone => [] | NeedsSingle v => [v] | NeedsMany vs => vs end.

Definition literal (n : DeferredNumber) : option N :=
  match n with
  | NumberLiteral v => Some v
  | NumberFloat v =>
      if f64_is_finite v && f64_fract_zero v && SFleb f64_zero v then Some (f64_as_u64 v) else None
  | NumberExpression _ => None
  end.

(** ** Input values *)

Definition is_expression_text (s : string) : bool :=
  starts_with opener s && is_some (strip_suffix closer s).

Definition invalid_input (name v expected : string) : result ParserError json :=
  Err (InvalidInputValue name v expected).

Definition text_value (v : json) : json :=
  match v with JString _ => v | other => JString (json_to_string other) end.

Definition coerce_value (v : json) (ty : InputType) (name : string) : result ParserError json :=
  match ty with
  | InBoolean =>
      match v with
      | JBool b => Ok (JBool b)
      | JString s =>
          let t := trim s in
          if is_expression_text t then Ok v
          else if eq_ignore_ascii_case t "true" then Ok (JBool true)
          else if eq_ignore_ascii_case t "false" then Ok (JBool false)
          else invalid_input name s "boolean"
      | _ => invalid_input name (json_to_string v) "boolean"
      end
  | InNumber =>
      match v with
      | JNumber _ => Ok v
      | JString s =>
          let t := trim s in
          if is_expression_text t then Ok v
          else
            match parse_i64 t with
            | Some n => Ok (JNumber (num_of_i64 n))
            | None =>
                match f64_from_str t ≫= num_from_f64 with
                | Some n => Ok (JNumber n)
                | None => invalid_input name s "number"
                end
            end
      | _ => invalid_input name (json_to_string v) "number"
      end
  | InString | InChoice | InEnvironment => Ok (text_value v)
  end.

(** ** Triggers *)

Definition KNOWN_TRIGGER_EVENTS : list string :=
  ["branch_protection_rule"; "check_run"; "check_suite"; "create"; "delete"; "deployment";
   "deployment_status"; "discussion"; "discussion_comment"; "fork"; "gollum"; "issue_comment";
   "issues"; "label"; "merge_group"; "milestone"; "page_build"; "public"; "pull_request";
   "pull_request_review"; "pull_request_review_comment"; "pull_request_target"; "push";
   "registry_package"; "release"; "repository_dispatch"; "schedule"; "secret_scanning_alert";
   "status"; "watch"; "workflow_call"; "workflow_dispatch"; "workflow_run"].

Definition validate_event_names (t : Trigger num) : result ParserError unit :=
  try_for_each (λ name,
    if existsb (λ known, eq_ignore_ascii_case known name) KNOWN_TRIGGER_EVENTS then Ok tt
    else Err (InvalidTriggerEvent name)) (declared_events t).

Definition unsupported_kind (ty : InputType) : option string :=
  match ty with InChoice => Some "choice" | InEnvironment => Some "environment" | _ => None end.

(** [WorkflowCallTrigger::validate]; the inputs are visited in key order. *)
Definition validate_call_trigger (t : WorkflowCallTrigger num) : result ParserError unit :=
  try_for_each (λ name,
    match call_inputs t !! name with
    | Some definition =>
        match unsupported_kind (input_type definition) with
        | Some kind =>
            Err (InvalidWorkflowCallTrigger
              ("input `" +:+ name +:+ "` uses `" +:+ kind +:+
               "`; workflow_call supports only boolean, number, and string"))
        | None => Ok tt
        end
    | None => Ok tt
    end) (btree_keys (call_inputs t)).

Definition empty_call_trigger : WorkflowCallTrigger num := mkCallTrigger ∅ ∅ ∅.

Context `{WorkflowReaders num}.

Definition workflow_call_trigger (w : Workflow num) :
    result ParserError (option (WorkflowCallTrigger num)) :=
  match wf_on w with
  | Trigger.Single s => Ok (if str_eqb s "workflow_call" then Some empty_call_trigger else None)
  | Trigger.Many v =>
      Ok (if existsb (λ s, str_eqb s "workflow_call") v then Some empty_call_trigger else None)
  | Trigger.Map m =>
      match imap_get "workflow_call" m with
      | None => Ok None
      | Some JNull => Ok (Some empty_call_trigger)
      | Some val =>
          trigger ← map_err InvalidWorkflowCallTrigger (call_trigger_from_value val);
          _ ← validate_call_trigger trigger;
          Ok (Some trigger)
      end
  end.

(** ** Inputs of a dispatch *)

(** [serde_json::Map::remove] with insertion order kept: the last entry takes
    the place of the removed one. *)
Definition swap_remove (k : string) (m : imap json) : imap json :=
  match list_find (λ kv, kv.1 = k) m with
  | None => m
  | Some (i, _) =>
      match last m with
      | Some entry => if decide (S i = length m) then removelast m else <[i := entry]> (removelast m)
      | None => m
      end
  end.

Definition declared_type (definition : imap json) : result ParserError InputType :=
  match imap_get "type" definition with
  | Some v => map_err InvalidWorkflowCallTrigger (input_type_from_value v)
  | None => Ok InString
  end.

Definition is_null (v : json) : bool := match v with JNull => true | _ => false end.
Definition as_bool (v : json) : option bool := match v with JBool b => Some b | _ => None end.

Definition empty_choice (definition : imap json) : json :=
  default (JString "") (options ← imap_get "options" definition ≫= as_array; head options).

(** The value of an input that was not supplied. *)
Definition missing_value (name : string) (definition : imap json) (ty : InputType) :
    result ParserError json :=
  match imap_get "default" definition with
  | Some d => Ok d
  | None =>
      if default false (imap_get "required" definition ≫= as_bool)
      then Err (MissingRequiredInput name)
      else Ok match ty with
              | InBoolean => JBool false
              | InNumber => JNumber (num_of_i64 0)
              | InChoice => empty_choice definition
              | InString | InEnvironment => JString ""
              end
  end.

Definition is_declared_choice (definition : imap json) (v : json) : bool :=
  match imap_get "options" definition ≫= as_array with
  | Some options => existsb (λ option, value_eqb option v) options
  | None => false
  end.

(** The value of one declared input, from what was supplied for it. *)
Definition dispatch_value (name : string) (definition : json) (supplied : option json) :
    result ParserError json :=
  definition ← ok_or (InvalidWorkflowCallTrigger
    ("workflow_dispatch input `" +:+ name +:+ "` must be an object")) (as_object definition);
  ty ← declared_type definition;
  v ← match supplied with
      | Some v => if is_null v then missing_value name definition ty else coerce_value v ty name
      | None => missing_value name definition ty
      end;
  if bool_decide (ty = InChoice) && negb (is_declared_choice definition v)
  then Err (InvalidInputValue name (json_to_string v) "declared choice")
  else Ok v.

Fixpoint dispatch_inputs (definitions inputs : imap json) : result ParserError (imap json) :=
  match definitions with
  | [] => Ok inputs
  | (name, definition) :: definitions =>
      v ← dispatch_value name definition (imap_get name inputs);
      dispatch_inputs definitions (imap_insert name v (swap_remove name inputs))
  end.

Definition dispatch_definitions (w : Workflow num) : option (imap json) :=
  match wf_on w with
  | Trigger.Map triggers =>
      config ← imap_get "workflow_dispatch" triggers ≫= as_object;
      imap_get "inputs" config ≫= as_object
  | _ => None
  end.

(** The payload after the call; on an error the callers drop the payload. *)
Definition apply_workflow_dispatch_inputs (w : Workflow num) (payload : json) :
    result ParserError json :=
  match dispatch_definitions w with
  | None => Ok payload
  | Some definitions =>
      let payload := if is_null payload then JObject [] else payload in
      object ← ok_or (InvalidWorkflowCallTrigger "workflow_dispatch payload must be an object")
        (as_object payload);
      let object := if imap_contains "inputs" object then object
                    else imap_insert "inputs" (JObject []) object in
      inputs ← ok_or (InvalidWorkflowCallTrigger "workflow_dispatch inputs must be an object")
        (imap_get "inputs" object ≫= as_object);
      inputs ← dispatch_inputs definitions inputs;
      Ok (JObject (imap_insert "inputs" (JObject inputs) object))
  end.

End operations.

(** ** Plans *)
Section plans.
Context {num : Type}.
Abbreviation json := (value num).

Record StepPlan : Type := mkStepPlan {
  sp_id : option string;
  sp_name : option string;
  sp_run : option string;
  sp_uses : option string;
  sp_env : gmap string string;
  sp_with : gmap string json;
  sp_if_condition : option string;
  sp_working_directory : option string;
  sp_timeout_in_minutes : option N;
  sp_shell : option string;
  sp_continue_on_error : option bool;
}.

Record ReusableCallPlan : Type := mkCallPlan {
  rc_uses : string;
  rc_workflow_file : string;
  rc_workflow_sha : option string;
  rc_workflow_repository : option string;
  rc_depth : nat;
}.

(** [JobPlan]: [core] holds the fields the needs graph and the scheduler read. *)
Record FullPlan : Type := mkFullPlan {
  core : JobPlan;
  plan_name : string;
  plan_matrix : imap json;
  plan_matrix_index : option nat;
  plan_matrix_total : option nat;
  plan_env : gmap string string;
  plan_steps : list StepPlan;
  plan_secrets_inherit : bool;
  plan_container : option json;
  plan_services : option json;
  plan_inputs : gmap string json;
  plan_workflow_file : option string;
  plan_workflow_ref : option string;
  plan_workflow_sha : option string;
  plan_workflow_repository : option string;
  plan_secrets_map : gmap string string;
  plan_job_outputs : gmap string string;
  plan_oidc_id_token_granted : bool;
  plan_permissions : option permissions;
  plan_oidc_environment : option string;
  plan_oidc_job_workflow_ref : option string;
  plan_environment : option json;
  plan_defaults : list json;
  plan_concurrency_group : option string;
  plan_concurrency_cancel_in_progress : option string;
  plan_concurrency_queue : option string;
  plan_reusable_call : option ReusableCallPlan;
  plan_timeout_minutes : option N;
}.

Record ReusableCallMetadata : Type := mkCallMetadata {
  rm_caller_job_id : string;
  rm_output_definitions : gmap string string;
  rm_inner_job_ids : list string;
  rm_inputs : gmap string json;
  rm_caller_concurrency : option ConcurrencyConfig;
  rm_embedded_concurrency : option ConcurrencyConfig;
  rm_matrix : gmap string json;
  rm_if_condition : option string;
  rm_workflow_sha : option string;
  rm_workflow_repository : option string;
}.

Record ExpandedWorkflows : Type := mkExpanded {
  jobs : list FullPlan;
  reusable_calls : gmap string ReusableCallMetadata;
}.

End plans.
Arguments StepPlan : clear implicits.
Arguments FullPlan : clear implicits.
Arguments ReusableCallMetadata : clear implicits.
Arguments ExpandedWorkflows : clear implicits.

(** ** Lemmas on input values *)
Section input_lemmas.
Context {num : Type} `{NumberOps num, JsonCodec num, UnicodeCase, NumberMake num, WorkflowReaders num}.
Abbreviation json := (value num).

Definition is_expression_value (v : json) : Prop :=
  ∃ s, v = JString s ∧ is_expression_text (trim s) = true.

(** The values a coercion can yield for a declared type. *)
Definition fits (ty : InputType) (v : json) : Prop :=
  match ty with
  | InBoolean => (∃ b, v = JBool b) ∨ is_expression_value v
  | InNumber => (∃ n, v = JNumber n) ∨ is_expression_value v
  | InString | InChoice | InEnvironment => ∃ s, v = JString s
  end.

Lemma fits_coerce ty v name : fits ty v → coerce_value v ty name = Ok v.
Proof.
  destruct ty; simpl.
  - by intros [s ->].
  - intros [[n ->]|(s & -> & Hs)]; [done|]. by rewrite Hs.
  - intros [[b ->]|(s & -> & Hs)]; [done|]. by rewrite Hs.
  - by intros [s ->].
  - by intros [s ->].
Qed.

Lemma coerce_fits ty v name w : coerce_value v ty name = Ok w → fits ty w.
Proof.
  assert (∀ u : json, ∃ s, text_value u = JString s) as Htext by (intros []; simpl; eauto).
  destruct ty; simpl; try (intros [= <-]; apply Htext).
  - destruct v as [| |n|s| |]; simpl; try done; [intros [= <-]; eauto|].
    destruct (is_expression_text (trim s)) eqn:Hs; [intros [= <-]; right; by exists s|].
    destruct (parse_i64 (trim s)); [intros [= <-]; eauto|].
    destruct (f64_from_str (trim s) ≫= num_from_f64); [intros [= <-]; eauto|done].
  - destruct v as [|b| |s| |]; simpl; try done; [intros [= <-]; eauto|].
    destruct (is_expression_text (trim s)) eqn:Hs; [intros [= <-]; right; by exists s|].
    destruct (eq_ignore_ascii_case (trim s) "true"); [intros [= <-]; eauto|].
    destruct (eq_ignore_ascii_case (trim s) "false"); [intros [= <-]; eauto|done].
Qed.

Lemma imap_get_app_ne k k' (v : json) m1 m2 :
  k ≠ k' → imap_get k (m1 ++ (k', v) :: m2) = imap_get k (m1 ++ m2).
Proof.
  intros Hne. induction m1 as [|[k1 v1] m1 IH]; simpl; [by rewrite decide_False|].
  case_decide; [done|apply IH].
Qed.

Lemma imap_get_perm k (m m' : imap json) :
  NoDup m.*1 → m ≡ₚ m' → imap_get k m = imap_get k m'.
Proof.
  intros Hnd Hp. assert (NoDup m'.*1) as Hnd' by (by rewrite <- Hp).
  destruct (imap_get k m) as [v|] eqn:Hm; symmetry.
  - apply elem_of_imap_get; [done|]. rewrite <- Hp. by apply imap_get_elem_of.
  - apply imap_get_None. rewrite <- Hp. by apply imap_get_None.
Qed.

Lemma imap_get_middle k (v : json) l1 l2 :
  (∀ kv, kv ∈ l1 → kv.1 ≠ k) → imap_get k (l1 ++ (k, v) :: l2) = Some v.
Proof.
  induction l1 as [|[k1 v1] l1 IH]; intros Hl; simpl; [by rewrite decide_True|].
  rewrite decide_False; [apply IH|].
  - intros kv Hkv. apply Hl. by apply elem_of_cons; right.
  - intros ->. apply (Hl (k1, v1)); [apply elem_of_cons; by left|done].
Qed.

Lemma list_find_get k (m : imap json) i v :
  list_find (λ kv, kv.1 = k) m = Some (i, v) → m !! i = Some (k, v.2) ∧ imap_get k m = Some v.2.
Proof.
  destruct v as [k' v]. intros (Hi & Hk & Hbefore)%list_find_Some. simpl in *. subst k'.
  split; [done|]. rewrite <- (take_drop_middle m i (k, v) Hi). apply imap_get_middle.
  intros kv (j & Hj)%list_elem_of_lookup. rewrite lookup_take_Some in Hj.
  destruct Hj as [Hj Hlt]. by apply (Hbefore j kv).
Qed.

(** Putting the last element in the place of the removed one. *)
Lemma swap_out_perm {A} (l : list A) (e : A) i x :
  l !! i = Some x → l ++ [e] ≡ₚ x :: <[i:=e]> l.
Proof.
  intros Hi. pose proof (take_drop_middle l i x Hi) as Hm.
  rewrite insert_take_drop by (by eapply lookup_lt_Some).
  rewrite <- Hm at 1. rewrite Permutation_app_comm. simpl. rewrite !Permutation_middle.
  by rewrite <- !Permutation_middle, (Permutation_swap x e).
Qed.

(** Removal keeps the other entries; only their order can change. *)
Lemma swap_remove_perm k (m : imap json) :
  match imap_get k m with
  | Some v => m ≡ₚ (k, v) :: swap_remove k m
  | None => swap_remove k m = m
  end.
Proof.
  unfold swap_remove. destruct (list_find (λ kv, kv.1 = k) m) as [[i kv]|] eqn:Hf.
  - apply list_find_get in Hf as [Hi ->].
    assert (m ≠ []) as Hne by (intros ->; by rewrite lookup_nil in Hi).
    destruct (exists_last Hne) as (m0 & e & ->). rewrite last_snoc, removelast_last, length_app. simpl.
    case_decide as Hlen.
    + assert (i = length m0) as -> by lia. rewrite lookup_app_r, Nat.sub_diag in Hi by lia.
      injection Hi as ->. by rewrite Permutation_app_comm.
    + apply swap_out_perm. apply lookup_app_Some in Hi as [Hi|[Hge Hi]]; [done|].
      apply lookup_lt_Some in Hi. simpl in Hi. lia.
  - destruct (imap_get k m) as [v|] eqn:Hg; [|done].
    apply imap_get_elem_of in Hg. apply list_find_None in Hf. rewrite Forall_forall in Hf.
    by destruct (Hf _ Hg).
Qed.

Lemma swap_remove_spec k (m : imap json) :
  NoDup m.*1 →
  NoDup (swap_remove k m).*1 ∧ imap_get k (swap_remove k m) = None ∧
  ∀ k', k' ≠ k → imap_get k' (swap_remove k m) = imap_get k' m.
Proof.
  intros Hnd. pose proof (swap_remove_perm k m) as Hp.
  destruct (imap_get k m) as [v|] eqn:Hg; [|by rewrite Hp].
  assert (NoDup ((k, v) :: swap_remove k m).*1) as Hnd' by (by rewrite <- Hp).
  simpl in Hnd'. apply NoDup_cons in Hnd' as [Hk Hnd']. split; [done|].
  split; [by apply imap_get_None|]. intros k' Hne.
  rewrite (imap_get_perm k' m _ Hnd Hp). simpl. by rewrite decide_False.
Qed.

(** What a dispatch leaves in the payload's inputs: every declared input has
    the value [dispatch_value] gives it from what was supplied, the others are
    as supplied; it fails with the error of one of the declared inputs. *)
Lemma dispatch_inputs_spec definitions inputs :
  NoDup definitions.*1 → NoDup inputs.*1 →
  match dispatch_inputs definitions inputs with
  | Ok inputs' =>
      NoDup inputs'.*1 ∧
      ∀ k, match imap_get k definitions with
           | Some d => ∃ v, dispatch_value k d (imap_get k inputs) = Ok v ∧ imap_get k inputs' = Some v
           | None => imap_get k inputs' = imap_get k inputs
           end
  | Err e => ∃ k d, imap_get k definitions = Some d ∧ dispatch_value k d (imap_get k inputs) = Err e
  end.
Proof.
  revert inputs. induction definitions as [|[name d] definitions IH]; intros inputs Hd Hi; simpl; [done|].
  simpl in Hd. apply NoDup_cons in Hd as [Hn Hd].
  destruct (dispatch_value name d (imap_get name inputs)) as [v|e] eqn:Hv; simpl.
  2:{ exists name, d. by rewrite decide_True. }
  destruct (swap_remove_spec name inputs Hi) as (Hnd & Hnone & Hother).
  specialize (IH (imap_insert name v (swap_remove name inputs)) Hd (imap_insert_NoDup _ _ _ Hnd)).
  destruct (dispatch_inputs definitions _) as [inputs'|e].
  - destruct IH as [Hnd' IH]. split; [done|]. intros k. specialize (IH k). case_decide as Hk.
    + subst k. exists v. split; [done|]. rewrite (proj2 (imap_get_None name definitions) Hn) in IH.
      by rewrite IH, imap_get_insert_eq.
    + destruct (imap_get k definitions); rewrite imap_get_insert_ne, Hother in IH by done; done.
  - destruct IH as (k & d' & Hk & He). exists k, d'.
    assert (k ≠ name) by (intros ->; by rewrite (proj2 (imap_get_None name definitions) Hn) in Hk).
    rewrite decide_False by done. split; [done|]. by rewrite imap_get_insert_ne, Hother in He.
Qed.

End input_lemmas.

(** What an accepted dispatch sends on.  The payload keeps its other members;
    among its inputs each declared one has the value the declaration gives it,
    a required one was supplied, a choice is one of its options, and undeclared
    ones are left alone.  A rejection is the rejection of a declared input. *)
Theorem dispatch_payload_spec {num} `{NumberOps num, JsonCodec num, UnicodeCase, NumberMake num,
    WorkflowReaders num} (w : Workflow num) definitions object inputs :
  dispatch_definitions w = Some definitions → NoDup definitions.*1 → NoDup inputs.*1 →
  imap_get "inputs" object = Some (JObject inputs) →
  match apply_workflow_dispatch_inputs w (JObject object) with
  | Ok payload => ∃ inputs',
      payload = JObject (imap_insert "inputs" (JObject inputs') object) ∧
      ∀ k, match imap_get k definitions with
           | Some d => ∃ v, dispatch_value k d (imap_get k inputs) = Ok v ∧ imap_get k inputs' = Some v
           | None => imap_get k inputs' = imap_get k inputs
           end
  | Err e => ∃ k d, imap_get k definitions = Some d ∧ dispatch_value k d (imap_get k inputs) = Err e
  end.
Proof.
  intros Hw Hd Hi Ho. unfold apply_workflow_dispatch_inputs. rewrite Hw.
  pose proof (dispatch_inputs_spec definitions inputs Hd Hi) as Hs.
  cbn [is_null as_object ok_or mbind result_bind]. unfold imap_contains.
  rewrite (bool_decide_eq_true_2 (is_Some (imap_get "inputs" object))) by (rewrite Ho; eauto).
  rewrite Ho. cbn [mbind option_bind as_object ok_or result_bind].
  destruct (dispatch_inputs definitions inputs) as [inputs'|e]; cbn [mbind result_bind]; [|done].
  exists inputs'. by destruct Hs.
Qed.

(** ** Concrete instances for the examples *)

#[export] Instance Z_make : NumberMake Z := {
  num_of_i64 := λ z, z;
  num_from_f64 f := if f64_is_finite f && f64_fract_zero f then Some (f64_trunc f) else None;
}.

Definition input_type_of (v : value Z) : result string InputType :=
  match v with
  | JString "string" => Ok InString
  | JString "number" => Ok InNumber
  | JString "boolean" => Ok InBoolean
  | JString "choice" => Ok InChoice
  | JString "environment" => Ok InEnvironment
  | _ => Err "unknown variant"
  end.

(** Readers over a table of files that are already read; [inputs] is the
    declaration every [workflow_call] options object stands for. *)
Definition table_readers (files : list (string * Workflow Z)) (trigger : WorkflowCallTrigger Z) :
    WorkflowReaders Z := {|
  read_workflow s := ok_or "no such file" (imap_get s files);
  call_trigger_from_value _ := Ok trigger;
  input_type_from_value := input_type_of;
|}.

Definition no_strategy : Strategy Z := mkStrategy None None None.
Definition sample_step (run : string) : Step Z :=
  mkStep None None (Some run) None EnvEmpty ∅ None None None None None.
(** A job that only runs steps. *)
Definition run_job (runs_on : RunsOn Z) (needs : list string) (matrix : option (MatrixValue Z))
    (steps : list (Step Z)) : Job Z :=
  mkJobSpec None runs_on (NeedsMany needs) None None (mkStrategy matrix None None) None EnvEmpty None
    None steps None ∅ None None None None ∅ None.
(** A job that calls a reusable workflow. *)
Definition call_job (uses : string) (with_ : gmap string (value Z)) (secrets : option (value Z))
    (permissions : option (value Z)) : Job Z :=
  mkJobSpec None (RunsOnMany []) NeedsNone None None no_strategy None EnvEmpty None permissions []
    (Some uses) with_ secrets None None None ∅ None.
Definition sample_workflow (on : Trigger Z) (jobs : imap (Job Z)) : Workflow Z :=
  mkWorkflow None None on EnvEmpty None None None jobs.

Definition dispatch_workflow : Workflow Z :=
  sample_workflow (Trigger.Map [("workflow_dispatch", JObject [("inputs", JObject
    [("debug", JObject [("type", JString "boolean")]);
     ("level", JObject [("type", JString "choice"); ("options", JArray [JString "low"; JString "high"])])])])])
    [("build", run_job (RunsOnSingle "ubuntu-latest") [] None [])].

Lemma dispatch_payload_spec_witness :
  apply_workflow_dispatch_inputs (H3 := table_readers [] empty_call_trigger) dispatch_workflow
    (JObject [("ref", JString "main"); ("inputs", JObject [("debug", JString "TRUE"); ("x", JNull)])]) =
  Ok (JObject [("ref", JString "main");
               ("inputs", JObject [("x", JNull); ("debug", JBool true); ("level", JString "low")])]) ∧
  ∃ v, dispatch_value (H3 := table_readers [] empty_call_trigger) "level"
         (JObject [("type", JString "choice"); ("options", JArray [JString "low"; JString "high"])]) None = Ok v ∧
       v = JString "low".
Proof.
  pose proof (dispatch_payload_spec (H3 := table_readers [] empty_call_trigger) dispatch_workflow
    _ [("ref", JString "main"); ("inputs", JObject [("debug", JString "TRUE"); ("x", JNull)])]
    [("debug", JString "TRUE"); ("x", JNull)] eq_refl) as Hs.
  split; [by vm_compute|].
  destruct Hs as (inputs' & Hp & Hk); [by apply (bool_decide_unpack _); vm_compute..|by vm_compute|].
  specialize (Hk "level"). destruct Hk as (v & Hv & _). exists v. split; [exact Hv|].
  vm_compute in Hv. by injection Hv as <-.
Defined.
