(* ===== verification/WorkflowCheck.v ===== *)
(** * Validation of a workflow's expressions

    [validate_workflow_expressions] of
    [crates/preloop-gha-parser/src/eval.rs]: every field that may hold an
    expression, with the contexts its place allows; and [parse_workflow] of
    [yaml.rs], which rejects a workflow that fails it. *)
From S2P Require Export WorkflowModel.

(** ** Contexts allowed by place *)

Definition CTX_RUN_NAME : list string := ["github"; "inputs"; "vars"].
Definition CTX_WORKFLOW_ENV : list string := ["github"; "inputs"; "vars"; "secrets"].
Definition CTX_WORKFLOW_CONCURRENCY : list string := ["github"; "inputs"; "vars"].
Definition CTX_JOB_IF : list string :=
  ["github"; "inputs"; "vars"; "needs"; "always(0,0)"; "failure(0,MAX)"; "cancelled(0,0)";
   "success(0,MAX)"].
Definition CTX_JOB_RUNS_ON : list string :=
  ["github"; "inputs"; "vars"; "needs"; "matrix"; "strategy"].
Definition CTX_STRATEGY : list string := ["github"; "inputs"; "vars"; "needs"].
Definition CTX_JOB_ENV : list string :=
  ["github"; "inputs"; "vars"; "needs"; "strategy"; "matrix"; "secrets"].
Definition CTX_JOB_CONCURRENCY : list string :=
  ["github"; "inputs"; "vars"; "needs"; "strategy"; "matrix"].
Definition CTX_JOB_DEFAULTS_RUN : list string :=
  ["github"; "inputs"; "vars"; "strategy"; "matrix"; "needs"; "env"].
Definition CTX_NO_EXPRESSIONS : list string := [].
Definition CTX_JOB_CONTAINER : list string :=
  ["github"; "inputs"; "needs"; "strategy"; "matrix"; "vars"].
Definition CTX_CONTAINER_CREDENTIALS : list string := ["github"; "inputs"; "vars"; "secrets"; "env"].
Definition CTX_RUNNER : list string :=
  ["github"; "inputs"; "vars"; "needs"; "strategy"; "matrix"; "secrets"; "steps"; "job"; "runner";
   "env"].
Definition CTX_STEP_IF : list string :=
  ["github"; "inputs"; "vars"; "needs"; "strategy"; "matrix"; "steps"; "job"; "runner"; "env";
   "always(0,0)"; "failure(0,0)"; "cancelled(0,0)"; "success(0,0)"; "hashFiles(1,255)"].
Definition CTX_STEP_TIMEOUT : list string :=
  ["github"; "inputs"; "vars"; "needs"; "strategy"; "matrix"; "secrets"; "job"; "runner"; "env";
   "hashFiles(1,255)"].
Definition CTX_STEP_ENV : list string :=
  ["github"; "inputs"; "vars"; "needs"; "strategy"; "matrix"; "secrets"; "steps"; "job"; "runner";
   "env"; "hashFiles(1,255)"].
Definition CTX_STEP_CONTINUE_ON_ERROR : list string := CTX_STEP_ENV.
Definition CTX_STEP_WITH : list string := CTX_STEP_ENV.
Definition CTX_STEP_RUN : list string := CTX_STEP_ENV.
Definition CTX_STEP_NAME : list string := CTX_STEP_ENV.
Definition CTX_STEP_WORKING_DIR : list string := CTX_STEP_ENV.

Section check.
Context {num : Type} `{NumberOps num, JsonCodec num, UnicodeCase, HashOrder}.
Abbreviation json := (value num).

(** A check that only applies to a present value. *)
Definition when_some {A} (f : A → result string unit) (o : option A) : result string unit :=
  match o with Some a => f a | None => Ok tt end.

(** The errors of a check, with the place they are reported at. *)
Definition at_place (place : string) (r : result string unit) : result ParserError unit :=
  map_err (λ e, InvalidExpression (place +:+ e)) r.

Definition check_text (allowed : list string) (s : string) : result string unit :=
  validate_expressions_in_string (num:=num) s false (Some allowed).
Definition check_if (allowed : list string) (s : string) : result string unit :=
  validate_expressions_in_string (num:=num) s true (Some allowed).
Definition check_json (allowed : list string) (v : json) : result string unit :=
  validate_value_expressions v (Some allowed).

(** The values of a [BTreeMap], in key order. *)
Definition map_values {A} (m : gmap string A) : list A := omap (λ k, m !! k) (btree_keys m).
Definition map_entries {A} (m : gmap string A) : list (string * A) :=
  omap (λ k, (λ a, (k, a)) <$> m !! k) (btree_keys m).

Definition validate_env_expressions (env : Env num) (allowed : list string) : result string unit :=
  match env with
  | EnvEmpty => Ok tt
  | EnvExpression expr => check_text allowed expr
  | EnvMap m =>
      try_for_each (λ v, match v with EnvString s => check_text allowed s | _ => Ok tt end)
        (map_values m)
  end.

Definition container_contexts (key : string) : list string :=
  if str_eqb key "credentials" then CTX_CONTAINER_CREDENTIALS
  else if str_eqb key "env" then CTX_RUNNER
  else CTX_JOB_CONTAINER.

Definition validate_container_expressions (v : json) : result string unit :=
  match v with
  | JObject m => try_for_each (λ '(key, v), check_json (container_contexts key) v) m
  | _ => check_json CTX_JOB_CONTAINER v
  end.

Definition validate_run_defaults (defaults : JobDefaults) (label : string) (allowed : list string) :
    result ParserError unit :=
  match defaults_run defaults with
  | None => Ok tt
  | Some run =>
      try_for_each (λ '(field, v),
          at_place (label +:+ ".run." +:+ field +:+ ": ") (when_some (check_text allowed) v))
        [("shell", default_shell run); ("working-directory", default_working_directory run)]
  end.

(** The expression of a deferred scalar, when it is one. *)
Definition bool_expression (b : DeferredBool) : option string :=
  match b with BoolExpression e => Some e | BoolLiteral _ => None end.
Definition number_expression (n : DeferredNumber) : option string :=
  match n with NumberExpression e => Some e | _ => None end.
Definition matrix_expression (m : MatrixValue num) : option string :=
  match m with MatrixExpression e => Some e | MatrixStatic _ => None end.
Definition continue_expression (c : JobContinueOnError) : option string :=
  match c with ContinueExpression e => Some e | ContinueBool _ => None end.

Definition validate_concurrency (place group_place cancel_place : string) (allowed : list string)
    (c : option ConcurrencyConfig) : result ParserError unit :=
  match c with
  | None => Ok tt
  | Some c =>
      _ ← at_place (place +:+ group_place) (check_text allowed (cc_group c));
      at_place (place +:+ cancel_place) (when_some (check_text allowed) (cc_cancel_in_progress c))
  end.

(** ** Steps *)

Definition validate_step (job_id : string) (step_idx : nat) (step : Step num) :
    result ParserError unit :=
  let step_ref := match step_name step with
                  | Some n => "step " +:+ ticked n
                  | None => "step #" +:+ pretty step_idx
                  end in
  let place := "job " +:+ ticked job_id +:+ " " +:+ step_ref in
  _ ← at_place (place +:+ ": ") (when_some (check_text CTX_STEP_NAME) (step_name step));
  _ ← at_place (place +:+ " if condition: ") (when_some (check_if CTX_STEP_IF) (step_if step));
  _ ← at_place (place +:+ " continue-on-error: ")
        (when_some (check_text CTX_STEP_CONTINUE_ON_ERROR)
          (step_continue_on_error step ≫= bool_expression));
  _ ← at_place (place +:+ " timeout-minutes: ")
        (when_some (check_text CTX_STEP_TIMEOUT) (step_timeout_minutes step ≫= number_expression));
  _ ← at_place (place +:+ " env: ") (validate_env_expressions (step_env step) CTX_STEP_ENV);
  _ ← at_place (place +:+ " with: ") (try_for_each (check_json CTX_STEP_WITH) (map_values (step_with step)));
  _ ← at_place (place +:+ " run: ") (when_some (check_text CTX_STEP_RUN) (step_run step));
  _ ← at_place (place +:+ " working-directory: ")
        (when_some (check_text CTX_STEP_WORKING_DIR) (step_working_directory step));
  at_place (place +:+ " shell: ") (when_some (check_text CTX_NO_EXPRESSIONS) (step_shell step)).

Fixpoint validate_steps (job_id : string) (step_idx : nat) (steps : list (Step num)) :
    result ParserError unit :=
  match steps with
  | [] => Ok tt
  | step :: steps => _ ← validate_step job_id step_idx step; validate_steps job_id (S step_idx) steps
  end.

(** ** Jobs *)

Definition validate_runs_on (place : string) (r : RunsOn num) : result ParserError unit :=
  match r with
  | RunsOnSingle s => at_place place (check_text CTX_JOB_RUNS_ON s)
  | RunsOnMany l => at_place place (try_for_each (check_text CTX_JOB_RUNS_ON) l)
  | RunsOnDynamic v => at_place place (check_json CTX_JOB_RUNS_ON v)
  end.

Definition validate_services (place : string) (services : json) : result ParserError unit :=
  match services with
  | JObject services =>
      try_for_each (λ '(service_name, service),
        at_place (place +:+ " service " +:+ ticked service_name +:+ ": ")
          (validate_container_expressions service)) services
  | _ => at_place (place +:+ " services: ") (check_json CTX_JOB_CONTAINER services)
  end.

Definition when_some_err {A} (f : A → result ParserError unit) (o : option A) : result ParserError unit :=
  match o with Some a => f a | None => Ok tt end.

Definition validate_job (job_id : string) (job : Job num) : result ParserError unit :=
  let place := "job " +:+ ticked job_id in
  let strategy := job_strategy job in
  _ ← at_place (place +:+ " strategy.matrix: ")
        (when_some (check_text CTX_STRATEGY) (strategy_matrix strategy ≫= matrix_expression));
  _ ← at_place (place +:+ " strategy.fail-fast: ")
        (when_some (check_text CTX_STRATEGY) (strategy_fail_fast strategy ≫= bool_expression));
  _ ← at_place (place +:+ " strategy.max-parallel: ")
        (when_some (check_text CTX_STRATEGY) (strategy_max_parallel strategy ≫= number_expression));
  _ ← at_place (place +:+ ": ") (when_some (check_text CTX_JOB_RUNS_ON) (job_name job));
  _ ← validate_runs_on (place +:+ " runs-on: ") (job_runs_on job);
  _ ← at_place (place +:+ " if condition: ") (when_some (check_if CTX_JOB_IF) (job_if job));
  _ ← at_place (place +:+ " env: ") (validate_env_expressions (job_env job) CTX_JOB_ENV);
  _ ← validate_concurrency place " concurrency: " " concurrency cancel-in-progress: "
        CTX_JOB_CONCURRENCY (job_concurrency job);
  _ ← at_place (place +:+ " continue-on-error: ")
        (when_some (check_text CTX_JOB_RUNS_ON) (job_continue_on_error job ≫= continue_expression));
  _ ← at_place (place +:+ " container: ") (when_some validate_container_expressions (job_container job));
  _ ← when_some_err (validate_services place) (job_services job);
  _ ← when_some_err (λ d, validate_run_defaults d (place +:+ " defaults") CTX_JOB_DEFAULTS_RUN)
        (job_defaults job);
  _ ← try_for_each (λ '(output_name, output),
          at_place (place +:+ " output " +:+ ticked output_name +:+ ": ") (check_json CTX_RUNNER output))
        (map_entries (job_outputs job));
  validate_steps job_id 0 (job_steps job).

(** ** Workflows *)

Definition validate_workflow_expressions (w : Workflow num) : result ParserError unit :=
  _ ← at_place "" (when_some (check_text CTX_RUN_NAME) (wf_run_name w));
  _ ← at_place "" (validate_env_expressions (wf_env w) CTX_WORKFLOW_ENV);
  _ ← when_some_err (λ d, validate_run_defaults d "workflow defaults" CTX_NO_EXPRESSIONS) (wf_defaults w);
  _ ← validate_concurrency "" "" "" CTX_WORKFLOW_CONCURRENCY (wf_concurrency w);
  try_for_each (λ '(job_id, job), validate_job job_id job) (wf_jobs w).

Context `{NumberMake num, WorkflowReaders num}.

(** [parse_workflow]; [read_workflow] is the YAML reader with the
    normalization of the keys. *)
Definition parse_workflow (input : string) : result ParserError (Workflow num) :=
  workflow ← map_err Yaml (read_workflow input);
  _ ← validate_event_names (wf_on workflow);
  if length (wf_jobs workflow) =? 0 then Err EmptyJobs
  else _ ← validate_workflow_expressions workflow; Ok workflow.

End check.

(** ** The texts of a workflow

    Every text the validation reads as a template. *)
Section texts.
Context {num : Type} `{NumberOps num, JsonCodec num, UnicodeCase, HashOrder}.
Abbreviation json := (value num).

Fixpoint json_texts (v : json) : list string :=
  match v with
  | JString s => [s]
  | JArray vs => flat_map json_texts vs
  | JObject m => flat_map (λ kv, json_texts kv.2) m
  | _ => []
  end.

Definition env_texts (e : Env num) : list string :=
  match e with
  | EnvEmpty => []
  | EnvExpression s => [s]
  | EnvMap m => flat_map (λ v, match v with EnvString s => [s] | _ => [] end) (map_values m)
  end.

Definition concurrency_texts (c : option ConcurrencyConfig) : list string :=
  match c with Some c => cc_group c :: option_list (cc_cancel_in_progress c) | None => [] end.

Definition defaults_texts (d : option JobDefaults) : list string :=
  match d ≫= defaults_run with
  | Some run => option_list (default_shell run) ++ option_list (default_working_directory run)
  | None => []
  end.

Definition runs_on_texts (r : RunsOn num) : list string :=
  match r with
  | RunsOnSingle s => [s]
  | RunsOnMany l => l
  | RunsOnDynamic v => json_texts v
  end.

Definition step_texts (s : Step num) : list string :=
  option_list (step_name s) ++ option_list (step_continue_on_error s ≫= bool_expression)
  ++ option_list (step_timeout_minutes s ≫= number_expression) ++ env_texts (step_env s)
  ++ flat_map json_texts (map_values (step_with s)) ++ option_list (step_run s)
  ++ option_list (step_working_directory s) ++ option_list (step_shell s).

Definition job_texts (j : Job num) : list string :=
  option_list (strategy_matrix (job_strategy j) ≫= matrix_expression)
  ++ option_list (strategy_fail_fast (job_strategy j) ≫= bool_expression)
  ++ option_list (strategy_max_parallel (job_strategy j) ≫= number_expression)
  ++ option_list (job_name j) ++ runs_on_texts (job_runs_on j) ++ env_texts (job_env j)
  ++ concurrency_texts (job_concurrency j)
  ++ option_list (job_continue_on_error j ≫= continue_expression)
  ++ flat_map json_texts (option_list (job_container j))
  ++ flat_map json_texts (option_list (job_services j)) ++ defaults_texts (job_defaults j)
  ++ flat_map (λ kv, json_texts kv.2) (map_entries (job_outputs j))
  ++ flat_map step_texts (job_steps j).

Definition workflow_texts (w : Workflow num) : list string :=
  option_list (wf_run_name w) ++ env_texts (wf_env w) ++ defaults_texts (wf_defaults w)
  ++ concurrency_texts (wf_concurrency w) ++ flat_map (λ kj, job_texts kj.2) (wf_jobs w).

Definition text_ok (s : string) : Prop :=
  ∃ allowed, validate_expressions_in_string (num:=num) s false allowed = Ok tt.

Lemma bind_tt {E} (r : result E unit) (k : result E unit) :
  (_ ← r; k) = Ok tt ↔ r = Ok tt ∧ k = Ok tt.
Proof. destruct r as [[]|e]; simpl; naive_solver. Qed.

Lemma try_for_each_tt {A E} (f : A → result E unit) (l : list A) :
  try_for_each f l = Ok tt ↔ Forall (λ a, f a = Ok tt) l.
Proof.
  induction l as [|a l IH]; simpl; [by split; [constructor|]|].
  rewrite Forall_cons, <- IH. destruct (f a) as [[]|e]; naive_solver.
Qed.

Lemma at_place_tt place (r : result string unit) : at_place place r = Ok tt ↔ r = Ok tt.
Proof. destruct r as [[]|e]; simpl; naive_solver. Qed.

Lemma Forall_flat_map {A B} (P : B → Prop) (f : A → list B) (l : list A) :
  Forall P (flat_map f l) ↔ Forall (λ a, Forall P (f a)) l.
Proof. induction l as [|a l IH]; simpl; [by split; constructor|]. by rewrite Forall_app, Forall_cons, IH. Qed.

Lemma when_some_texts (f : string → result string unit) o :
  (∀ s, f s = Ok tt → text_ok s) → when_some f o = Ok tt → Forall text_ok (option_list o).
Proof. intros Hf. destruct o as [s|]; simpl; [intros Hs; constructor; [by apply Hf|constructor]|constructor]. Qed.

Lemma check_text_ok allowed s : check_text (num:=num) allowed s = Ok tt → text_ok s.
Proof. by exists (Some allowed). Qed.

Lemma json_texts_ok allowed v : validate_value_expressions v allowed = Ok tt → Forall text_ok (json_texts v).
Proof.
  induction v as [| | |s|vs IH|m IH] using value_ind'; simpl; try by constructor.
  - intros Hs. constructor; [by exists allowed|constructor].
  - intros Hv%try_for_each_tt. apply Forall_flat_map. rewrite Forall_forall in *. auto.
  - intros Hv%try_for_each_tt. apply Forall_flat_map. rewrite Forall_forall in *. auto.
Qed.

Lemma env_texts_ok allowed e : validate_env_expressions e allowed = Ok tt → Forall text_ok (env_texts e).
Proof.
  destruct e as [|m|s]; simpl; [constructor| |intros Hs; constructor; [by eapply check_text_ok|constructor]].
  intros Hv%try_for_each_tt. apply Forall_flat_map. eapply Forall_impl; [exact Hv|].
  intros [s| | |]; simpl; try by constructor. intros Hs. constructor; [by eapply check_text_ok|constructor].
Qed.

Lemma concurrency_texts_ok p g x allowed c :
  validate_concurrency (num:=num) p g x allowed c = Ok tt → Forall text_ok (concurrency_texts c).
Proof.
  destruct c as [c|]; simpl; [|constructor]. intros [Hg%at_place_tt Hc%at_place_tt]%bind_tt.
  constructor; [by eapply check_text_ok|]. by eapply when_some_texts; [apply check_text_ok|].
Qed.

Lemma defaults_texts_ok label allowed d :
  when_some_err (λ d, validate_run_defaults (num:=num) d label allowed) d = Ok tt →
  Forall text_ok (defaults_texts d).
Proof.
  destruct d as [d|]; [|constructor]. unfold defaults_texts, validate_run_defaults, when_some_err.
  cbn [mbind option_bind]. destruct (defaults_run d) as [run|]; [|constructor].
  intros Hv%try_for_each_tt. rewrite !Forall_cons in Hv. destruct Hv as (Hs%at_place_tt & Hw%at_place_tt & _).
  apply Forall_app. split; eapply when_some_texts; by (try apply check_text_ok).
Qed.

Lemma container_texts_ok v : validate_container_expressions v = Ok tt → Forall text_ok (json_texts v).
Proof.
  destruct v as [| | |s|vs|m]; try (intros Hv; exact (json_texts_ok _ _ Hv)). simpl. intros Hv%try_for_each_tt.
  apply Forall_flat_map. eapply Forall_impl; [exact Hv|]. intros [k v]. apply json_texts_ok.
Qed.

Lemma services_texts_ok place v : validate_services place v = Ok tt → Forall text_ok (json_texts v).
Proof.
  destruct v as [| | |s|vs|m]; try (intros Hv%at_place_tt; exact (json_texts_ok _ _ Hv)).
  simpl. intros Hv%try_for_each_tt. apply Forall_flat_map. eapply Forall_impl; [exact Hv|].
  intros [k v] Hk%at_place_tt. by apply container_texts_ok.
Qed.

Lemma runs_on_texts_ok place r : validate_runs_on place r = Ok tt → Forall text_ok (runs_on_texts r).
Proof.
  destruct r as [s|l|v]; simpl; intros Hv%at_place_tt.
  - constructor; [by eapply check_text_ok|constructor].
  - apply try_for_each_tt in Hv. eapply Forall_impl; [exact Hv|]. apply check_text_ok.
  - by eapply json_texts_ok.
Qed.

(** The checks of a field and the texts it contributes, for the fields read
    one after the other. *)
Ltac split_checks :=
  repeat match goal with
  | Hx : (_ ← _; _) = Ok tt |- _ => apply bind_tt in Hx as [? Hx]
  | Hx : at_place _ _ = Ok tt |- _ => apply at_place_tt in Hx
  end.
Ltac text_fields :=
  repeat (apply Forall_app; split);
  first [by eapply when_some_texts; [apply check_text_ok|eassumption]
        |by eapply env_texts_ok; eassumption
        |by eapply concurrency_texts_ok; eassumption
        |by eapply defaults_texts_ok; eassumption
        |by eapply runs_on_texts_ok; eassumption
        |idtac].

Lemma step_texts_ok job_id i step : validate_step job_id i step = Ok tt → Forall text_ok (step_texts step).
Proof.
  unfold validate_step, step_texts. intros Hv. split_checks. text_fields.
  match goal with Hw : try_for_each _ (map_values (step_with step)) = _ |- _ => apply try_for_each_tt in Hw end.
  apply Forall_flat_map. eapply Forall_impl; [eassumption|]. intros v. apply json_texts_ok.
Qed.

Lemma steps_texts_ok job_id i steps :
  validate_steps job_id i steps = Ok tt → Forall text_ok (flat_map step_texts steps).
Proof.
  revert i. induction steps as [|step steps IH]; intros i; simpl; [constructor|].
  intros [Hs Hr]%bind_tt. apply Forall_app. split; [by eapply step_texts_ok|by eapply IH].
Qed.

Lemma when_some_json (f : json → result string unit) o :
  (∀ v, f v = Ok tt → Forall text_ok (json_texts v)) → when_some f o = Ok tt →
  Forall text_ok (flat_map json_texts (option_list o)).
Proof.
  intros Hf. destruct o as [v|]; simpl; [|constructor]. rewrite app_nil_r. apply Hf.
Qed.

Lemma when_some_err_json (f : json → result ParserError unit) o :
  (∀ v, f v = Ok tt → Forall text_ok (json_texts v)) → when_some_err f o = Ok tt →
  Forall text_ok (flat_map json_texts (option_list o)).
Proof.
  intros Hf. destruct o as [v|]; simpl; [|constructor]. rewrite app_nil_r. apply Hf.
Qed.

Lemma job_texts_ok job_id job : validate_job job_id job = Ok tt → Forall text_ok (job_texts job).
Proof.
  unfold validate_job, job_texts. intros Hv. split_checks. text_fields.
  - by eapply when_some_json; [apply container_texts_ok|].
  - by eapply when_some_err_json; [apply services_texts_ok|].
  - match goal with Ho : try_for_each _ (map_entries (job_outputs job)) = _ |- _ => apply try_for_each_tt in Ho end.
    apply Forall_flat_map. eapply Forall_impl; [eassumption|].
    intros [k v] Hk%at_place_tt. by eapply json_texts_ok.
  - by eapply steps_texts_ok.
Qed.

Lemma workflow_texts_ok w : validate_workflow_expressions w = Ok tt → Forall text_ok (workflow_texts w).
Proof.
  unfold validate_workflow_expressions, workflow_texts. intros Hv. split_checks. text_fields.
  apply try_for_each_tt in Hv. apply Forall_flat_map. eapply Forall_impl; [exact Hv|].
  intros [k j]. apply job_texts_ok.
Qed.

End texts.

(** ** Theorems *)
Section theorems.
Context {num : Type} `{NumberOps num, JsonCodec num, UnicodeCase, HashOrder, NumberMake num,
  WorkflowReaders num}.
Variable hash_files : list (value num) → option string → result ExpressionError string.

Lemma parse_workflow_Ok input (w : Workflow num) :
  parse_workflow input = Ok w →
  read_workflow input = Ok w ∧ wf_jobs w ≠ [] ∧ validate_workflow_expressions w = Ok tt.
Proof.
  unfold parse_workflow. intros (w' & Hr & ([] & _ & Hw)%bind_Ok)%bind_Ok.
  destruct (length (wf_jobs w') =? 0) eqn:Hl; [done|]. apply bind_Ok in Hw as ([] & Hv & [= ->]).
  destruct (read_workflow input) as [w''|]; [|done]. injection Hr as ->. repeat split; [|done].
  by intros He; rewrite He in Hl.
Qed.

(** C31: the validated texts of a parsed workflow resolve. The texts the
    validator reads are: of the workflow, its run name, [env], defaults and
    concurrency; of each job, the expressions in place of a matrix, of
    [fail-fast], [max-parallel] and [continue-on-error], its name, labels,
    [env], concurrency, container, services, defaults and outputs; of each
    step, all its fields but [id], [if] and [uses]. If [parse_workflow]
    accepts the workflow, and [hashFiles()] reports only errors of its own,
    each of these texts, in any context, resolves or fails in the evaluation
    of one of its expressions, never on a marker, on syntax, or on the name or
    the arity of a call. (The axes of a static matrix and a job's [with],
    [secrets], [environment] and timeout are not among them.) *)
Theorem parsed_workflow_resolves input (w : Workflow num) text c m :
  (∀ vs dir err, hash_files vs dir = Err err → benign err) →
  parse_workflow input = Ok w → text ∈ workflow_texts w → resolve_string hash_files text c = Err m →
  ∃ e err, expression_of text e ∧ validate_function_calls e = Ok tt ∧ eval_expr hash_files c e = Err err ∧
    benign err ∧ m = expression_error_text err.
Proof.
  intros Hh (_ & _ & Hw)%parse_workflow_Ok Ht. apply workflow_texts_ok in Hw.
  rewrite Forall_forall in Hw. destruct (Hw _ Ht) as [allowed Hv].
  by apply (validated_template_errors hash_files c text allowed).
Qed.

End theorems.

(** ** Examples *)

(** A job whose run step formats a broken template. *)
Definition broken_format_workflow : Workflow Z :=
  sample_workflow (Trigger.Single "push")
    [("build", run_job (RunsOnSingle "ubuntu-latest") [] None [sample_step "echo ${{ format('{') }}"])].

Lemma parsed_workflow_resolves_witness :
  ∃ e err, expression_of "echo ${{ format('{') }}" e ∧ validate_function_calls (num:=Z) e = Ok tt ∧
    eval_expr no_files (job_context JNull) e = Err err ∧ benign err ∧
    "invalid format string: {" = expression_error_text err.
Proof.
  apply (parsed_workflow_resolves (H4 := table_readers [("ci.yml", broken_format_workflow)] empty_call_trigger)
    no_files "ci.yml" broken_format_workflow "echo ${{ format('{') }}" (job_context JNull)).
  - done.
  - vm_compute. reflexivity.
  - apply (bool_decide_unpack _). by vm_compute.
  - vm_compute. reflexivity.
Defined.

(** [validate_workflow_expressions] says it validates all expressions of a
    workflow; those of [with:], [secrets:], [environment:], the job's
    [timeout-minutes] and a static matrix are not read. *)
Definition unread_fields_job : Job Z :=
  let bad := "${{ nosuch( }}" in
  mkJobSpec None (RunsOnSingle "ubuntu-latest") NeedsNone None None
    (mkStrategy (Some (MatrixStatic (mkMatrix [] [] [("os", JString bad)]))) None None) None EnvEmpty
    (Some (JString bad)) None [] None {["x" := JString bad]} (Some (JObject [("t", JString bad)]))
    None None None ∅ (Some (NumberExpression bad)).

Example some_fields_not_validated :
  validate_workflow_expressions (sample_workflow (Trigger.Single "push") [("build", unread_fields_job)]) = Ok tt ∧
  validate_expressions_in_string (num:=Z) "${{ nosuch( }}" false None ≠ Ok tt.
Proof. split; [by vm_compute|by vm_compute]. Qed.
