(* ===== verification/ReusableRefs.v ===== *)
(** * References to reusable workflows

    The [uses:] references of [crates/preloop-gha-parser/src/expand.rs]: which
    are local, what a plain path is, and the key a reference resolves to when
    it is written inside a workflow fetched from another repository.
    [local_reference_pinned] shows that such a reference stays in that
    repository, at its pinned commit, and under [.github/workflows/]. *)
From S2P Require Import WorkerCommands.
From S2P Require Export Template.

(** ** Plain names and paths *)

Definition is_local_workflow_ref (uses : string) : bool := starts_with "./" uses || starts_with "$/" uses.

Definition is_plain_byte (a : ascii) : bool :=
  is_ascii_alphanumeric (N_of_ascii a) || bool_decide (a ∈ ["-"; "_"; "."]%char).

Definition is_plain_segment (segment : string) : bool :=
  negb (str_eqb segment "") && negb (str_eqb segment ".") && negb (str_eqb segment "..")
  && forallb is_plain_byte (String.list_ascii_of_string segment).

Definition is_plain_path (path : string) : bool :=
  negb (str_eqb path "") && forallb is_plain_segment (split_char "/" path).

Definition is_reusable_workflow_path (path : string) : bool :=
  starts_with ".github/workflows/" path && is_plain_path path.

Definition strip_local (uses : string) : option string :=
  match strip_prefix "./" uses with Some path => Some path | None => strip_prefix "$/" uses end.

Definition same_repository_path (uses : string) : option string :=
  path ← strip_local uses;
  if is_reusable_workflow_path path then Some path else None.

(** ** Resolution of a reference *)

(** [str::rsplit_once]: around the last occurrence. *)
Fixpoint rsplit_once (c : ascii) (s : string) : option (string * string) :=
  match s with
  | EmptyString => None
  | String a r =>
      match rsplit_once c r with
      | Some (before, after) => Some (String a before, after)
      | None => if decide (a = c) then Some (EmptyString, r) else None
      end
  end.

Definition scope_same_repository_ref (uses origin origin_pin : string) : option string :=
  path ← same_repository_path uses;
  '(owner, rest) ← split_once "/" origin;
  '(repo, _) ← split_once "/" rest;
  if negb (is_plain_segment owner) || negb (is_plain_segment repo) || negb (is_plain_path origin_pin)
  then None
  else Some (owner +:+ "/" +:+ repo +:+ "/" +:+ path +:+ "@" +:+ origin_pin).

Definition origin_pin (origin : string) (reusable_workflow_shas : gmap string string) : string :=
  match reusable_workflow_shas !! origin with
  | Some sha => sha
  | None => match rsplit_once "@" origin with Some (_, git_ref) => git_ref | None => "" end
  end.

Definition callee_reference (declared : string) (origin : option string)
    (reusable_workflow_shas : gmap string string) : result ParserError string :=
  match origin with
  | Some origin =>
      if is_local_workflow_ref declared then
        ok_or (MissingReusableWorkflow declared)
          (scope_same_repository_ref declared origin (origin_pin origin reusable_workflow_shas))
      else Ok declared
  | None => Ok declared
  end.

Definition reusable_workflow_repository (uses : string) : option string :=
  if is_local_workflow_ref uses then None
  else
    '(owner, rest) ← split_once "/" uses;
    '(repo, _) ← split_once "/" rest;
    Some (owner +:+ "/" +:+ repo).

(** [Path::components] collected into a [PathBuf], on Unix: empty segments and
    [.] disappear, except a leading [.] of a relative path; [..] stays. *)
Definition path_components (path : string) : list string :=
  match split_char "/" path with
  | first :: rest =>
      let keep s := negb (str_eqb s "") && negb (str_eqb s ".") in
      (if str_eqb first "." then ["."] else filter (λ s, Is_true (keep s)) [first])
      ++ filter (λ s, Is_true (keep s)) rest
  | [] => []
  end.
Definition normalize_path (path : string) : string :=
  (if starts_with "/" path then "/" else "") +:+ join "/" (path_components path).

Definition normalize_reusable_path (uses : string) : string :=
  let without_ref := match split_char "@" uses with first :: _ => first | [] => uses end in
  normalize_path (default without_ref (strip_local without_ref)).

(** ** Lemmas *)

Definition plain (s : string) : Prop := is_plain_segment s = true.

Lemma plain_inv s : plain s → s ≠ "" ∧ s ≠ "." ∧ s ≠ ".." ∧ Forall (λ a, is_plain_byte a = true) (String.list_ascii_of_string s).
Proof.
  unfold plain, is_plain_segment, str_eqb. rewrite !andb_true_iff, !negb_true_iff, !bool_decide_eq_false.
  intros (((H1 & H2) & H3) & H4). repeat split; try done.
  rewrite forallb_forall in H4. apply Forall_forall. intros a Ha. apply H4. by apply list_elem_of_In.
Qed.

Lemma plain_lacks c s : plain s → is_plain_byte c = false → lacks c s = true.
Proof.
  intros (_ & _ & _ & Hb)%plain_inv Hc. induction s as [|a s IH]; [done|]. simpl in Hb.
  apply Forall_cons in Hb as [Ha Hb]. cbn [lacks]. rewrite IH by done.
  rewrite bool_decide_false; [done|]. intros ->. congruence.
Qed.

Lemma join_split_char s : join "/" (split_char "/" s) = s.
Proof.
  induction s as [|a s IH]; [done|]. cbn [split_char].
  destruct (split_char "/" s) as [|p ps] eqn:Hs.
  - exfalso. clear IH. induction s as [|b s IH]; [done|]. cbn [split_char] in Hs. case_decide; [done|].
    by destruct (split_char "/" s).
  - case_decide as Ha.
    + subst a. change (join "/" ("" :: p :: ps)) with (String "/" (join "/" (p :: ps))). by rewrite IH.
    + assert (join "/" (String a p :: ps) = String a (join "/" (p :: ps))) as ->; [by destruct ps|by rewrite IH].
Qed.

(** A plain path is its segments joined again. *)
Lemma plain_path_inv p :
  is_plain_path p = true → ∃ l, l ≠ [] ∧ Forall plain l ∧ p = join "/" l ∧ split_char "/" p = l.
Proof.
  unfold is_plain_path. intros [Hp Hl]%andb_true_iff. exists (split_char "/" p).
  repeat split; [| |by rewrite join_split_char].
  - intros He. pose proof (join_split_char p) as Hj. rewrite He in Hj. by rewrite <- Hj in Hp.
  - apply Forall_forall. intros s Hs. rewrite forallb_forall in Hl. apply Hl. by apply list_elem_of_In.
Qed.

Lemma lacks_join_slash c l : c ≠ "/"%char → Forall (λ s, lacks c s = true) l → lacks c (join "/" l) = true.
Proof.
  intros Hc. induction 1 as [|s l Hs Hl IH]; [done|]. destruct l as [|t l]; [done|].
  change (join "/" (s :: t :: l)) with (s +:+ "/" +:+ join "/" (t :: l)). rewrite !lacks_app, Hs, IH.
  cbn [lacks]. by rewrite bool_decide_false by congruence.
Qed.

Lemma plain_not_local s r : plain s → is_local_workflow_ref (s +:+ "/" +:+ r) = false.
Proof.
  intros (Hne & Hdot & _ & Hb)%plain_inv. unfold is_local_workflow_ref, starts_with.
  destruct s as [|a s]; [done|]. simpl in Hb. apply Forall_cons in Hb as [Ha Hb].
  change (String a s +:+ "/" +:+ r) with (String a (s +:+ "/" +:+ r)). simpl.
  destruct (decide ("$"%char = a)) as [<-|]; [done|]. destruct (decide ("."%char = a)) as [<-|]; [|done].
  destruct s as [|b s]; [done|]. change (String b s +:+ "/" +:+ r) with (String b (s +:+ "/" +:+ r)). simpl.
  simpl in Hb. apply Forall_cons in Hb as [Hb _].
  destruct (decide ("/"%char = b)) as [<-|]; [done|]. by destruct s.
Qed.

Lemma is_local_strip s : is_local_workflow_ref s = false ↔ strip_local s = None.
Proof.
  unfold is_local_workflow_ref, strip_local, starts_with.
  destruct (strip_prefix "./" s), (strip_prefix "$/" s); simpl; naive_solver.
Qed.

(** A path of plain segments is already normal. *)
Lemma normalize_plain l : l ≠ [] → Forall plain l → normalize_path (join "/" l) = join "/" l.
Proof.
  intros Hne Hl. assert (Forall (λ s, lacks "/" s = true) l) as Hlacks.
  { eapply Forall_impl; [exact Hl|]. intros s Hs. by apply plain_lacks. }
  assert (∀ k, Forall plain k → filter (λ s, Is_true (negb (str_eqb s "") && negb (str_eqb s "."))) k = k) as Hf.
  { intros k Hk. induction Hk as [|s k (H1 & H2 & _)%plain_inv _ IH]; [done|].
    rewrite filter_cons_True, IH; [done|]. unfold str_eqb. by rewrite !bool_decide_false. }
  unfold normalize_path, path_components. change "/" with (lit "/") at 3. rewrite split_char_join by done.
  destruct l as [|s l]; [done|]. apply Forall_cons in Hl as [Hs Hl].
  rewrite (Hf l Hl), (Hf [s]) by (by constructor; [|constructor]).
  pose proof Hs as (H1 & H2 & _)%plain_inv. unfold str_eqb. rewrite bool_decide_false by done.
  assert (starts_with "/" (join "/" (s :: l)) = false) as ->; [|done].
  apply Forall_cons in Hlacks as [Hls _]. destruct s as [|a s]; [done|]. cbn [lacks] in Hls.
  unfold starts_with. apply bool_decide_eq_false. intros [r Hr]. apply strip_prefix_Some in Hr.
  assert (∃ t, join "/" (String a s :: l) = String a t) as [t Ht] by (destruct l; eexists; reflexivity).
  rewrite Ht in Hr. injection Hr as -> _. done.
Qed.

(** What the scope of a reference is made of. *)
Lemma scope_inv uses origin pin key :
  scope_same_repository_ref uses origin pin = Some key →
  ∃ owner repo tail path,
    strip_local uses = Some path ∧ starts_with ".github/workflows/" path = true ∧
    is_plain_path path = true ∧ origin = owner +:+ "/" +:+ repo +:+ "/" +:+ tail ∧
    plain owner ∧ plain repo ∧ is_plain_path pin = true ∧
    key = owner +:+ "/" +:+ repo +:+ "/" +:+ path +:+ "@" +:+ pin.
Proof.
  unfold scope_same_repository_ref, same_repository_path.
  destruct (strip_local uses) as [path|]; simpl; [|done].
  destruct (is_reusable_workflow_path path) eqn:Hp; simpl; [|done].
  apply andb_true_iff in Hp as [Hw Hp].
  destruct (split_once "/" origin) as [[owner rest]|] eqn:Ho; simpl; [|done].
  destruct (split_once "/" rest) as [[repo tail]|] eqn:Hr; simpl; [|done].
  destruct (is_plain_segment owner) eqn:Hpo; simpl; [|done].
  destruct (is_plain_segment repo) eqn:Hpr; simpl; [|done].
  destruct (is_plain_path pin) eqn:Hpin; simpl; [|done]. intros [= <-].
  exists owner, repo, tail, path. repeat split; try done.
  by rewrite (split_once_app _ _ _ _ Ho), (split_once_app _ _ _ _ Hr).
Qed.

Lemma rsplit_once_last c b a : lacks c a = true → rsplit_once c (b +:+ String c a) = Some (b, a).
Proof.
  intros Ha. assert (rsplit_once c a = None) as Hn.
  { induction a as [|d a IH]; [done|]. cbn [lacks] in Ha. apply andb_true_iff in Ha as [Hd Ha].
    cbn [rsplit_once]. rewrite IH by done. rewrite decide_False; [done|].
    intros ->. by rewrite bool_decide_true in Hd. }
  induction b as [|d b IH].
  - change ("" +:+ String c a) with (String c a). cbn [rsplit_once]. by rewrite Hn, decide_True.
  - change (String d b +:+ String c a) with (String d (b +:+ String c a)). cbn [rsplit_once]. by rewrite IH.
Qed.

Lemma plain_repository owner repo r :
  plain owner → plain repo →
  reusable_workflow_repository (owner +:+ "/" +:+ repo +:+ "/" +:+ r) = Some (owner +:+ "/" +:+ repo).
Proof.
  intros Ho Hr. unfold reusable_workflow_repository. rewrite plain_not_local by done.
  rewrite (split_once_first "/" "" owner) by (by apply plain_lacks). simpl.
  by rewrite (split_once_first "/" "" repo) by (by apply plain_lacks).
Qed.

Lemma plain_path_lacks p : is_plain_path p = true → lacks "@" p = true.
Proof.
  intros (l & _ & Hl & -> & _)%plain_path_inv. apply lacks_join_slash; [done|].
  eapply Forall_impl; [exact Hl|]. intros s Hs. by apply plain_lacks.
Qed.

Lemma normalize_key owner repo path pin :
  plain owner → plain repo → is_plain_path path = true →
  normalize_reusable_path (owner +:+ "/" +:+ repo +:+ "/" +:+ path +:+ "@" +:+ pin) =
  owner +:+ "/" +:+ repo +:+ "/" +:+ path.
Proof.
  intros Ho Hr Hp. pose proof (plain_path_lacks path Hp) as Hpl.
  apply plain_path_inv in Hp as (l & Hne & Hl & -> & _).
  set (dir := owner +:+ "/" +:+ repo +:+ "/" +:+ join "/" l).
  assert (lacks "@" dir = true) as Hd.
  { unfold dir. rewrite !lacks_app, Hpl. by rewrite (plain_lacks _ owner), (plain_lacks _ repo). }
  assert (owner +:+ "/" +:+ repo +:+ "/" +:+ join "/" l +:+ "@" +:+ pin = dir +:+ String "@" pin) as ->.
  { unfold dir. change (String "@" pin) with ("@" +:+ pin). by rewrite !app_assoc_string. }
  unfold normalize_reusable_path. rewrite split_char_app by done.
  assert (strip_local dir = None) as -> by (by apply is_local_strip, plain_not_local). cbn [default from_option].
  assert (dir = join "/" (owner :: repo :: l)) as -> by (unfold dir; by destruct l).
  apply normalize_plain; [done|]. by constructor; [|constructor].
Qed.

(** ** Theorems *)

(** A same-repository reference inside a workflow of another repository
    stays in that repository, at the commit it is pinned to.  When it resolves,
    the key is [owner/repo/file@pin] with the owner, the repository and the pin
    of the workflow that holds it, the file is a path under
    [.github/workflows/] of plain segments, none of them [..], so the request
    path cannot climb out of it; and the references of the called workflow
    resolve against the same repository and pin again. *)
Theorem local_reference_pinned declared origin shas key :
  is_local_workflow_ref declared = true → callee_reference declared (Some origin) shas = Ok key →
  ∃ repository file,
    reusable_workflow_repository origin = Some repository ∧
    key = repository +:+ "/" +:+ file +:+ "@" +:+ origin_pin origin shas ∧
    strip_local declared = Some file ∧ starts_with ".github/workflows/" file = true ∧
    Forall (λ s, plain s ∧ s ≠ "." ∧ s ≠ "..") (split_char "/" file) ∧
    normalize_reusable_path key = repository +:+ "/" +:+ file ∧
    is_local_workflow_ref key = false ∧ reusable_workflow_repository key = Some repository ∧
    (shas !! key = None → origin_pin key shas = origin_pin origin shas).
Proof.
  intros Hl. unfold callee_reference. rewrite Hl.
  destruct (scope_same_repository_ref declared origin (origin_pin origin shas)) as [k|] eqn:Hs; [|done].
  intros [= <-]. apply scope_inv in Hs as (owner & repo & tail & path & Hd & Hw & Hp & Ho & Hpo & Hpr & Hpin & ->).
  exists (owner +:+ "/" +:+ repo), path.
  pose proof (plain_path_inv _ Hp) as (l & _ & Hpl & _ & Hsplit).
  split; [rewrite Ho; by apply plain_repository|]. split; [by rewrite <- !app_assoc_string|].
  split; [done|]. split; [done|].
  split; [rewrite Hsplit; eapply Forall_impl; [exact Hpl|]; intros s Hs; by destruct (plain_inv s Hs) as (_ & ? & ? & _)|].
  split; [rewrite normalize_key by done; by rewrite <- !app_assoc_string|].
  split; [by apply plain_not_local|]. split; [by apply plain_repository|].
  intros Hn. unfold origin_pin at 1. rewrite Hn.
  change ("@" +:+ origin_pin origin shas) with (String "@" (origin_pin origin shas)).
  rewrite !app_assoc_string. rewrite rsplit_once_last; [done|]. by apply plain_path_lacks.
Qed.

Lemma local_reference_pinned_witness :
  ∃ repository file, repository = "acme/ci" ∧ file = ".github/workflows/build.yml" ∧
    "acme/ci/.github/workflows/build.yml@abc123" = repository +:+ "/" +:+ file +:+ "@" +:+ "abc123".
Proof.
  destruct (local_reference_pinned "./.github/workflows/build.yml" "acme/ci/.github/workflows/all.yml@v1"
    {["acme/ci/.github/workflows/all.yml@v1" := "abc123"]}
    "acme/ci/.github/workflows/build.yml@abc123") as (repository & file & Hr & Hk & Hf & _).
  - vm_compute. reflexivity.
  - vm_compute. reflexivity.
  - exists repository, file. vm_compute in Hr. injection Hr as <-. vm_compute in Hf. injection Hf as <-.
    repeat split.
Defined.

Example climbing_reference_refused :
  callee_reference "./../../victim/.github/workflows/x.yml" (Some "acme/ci/.github/workflows/all.yml@v1") ∅ =
  Err (MissingReusableWorkflow "./../../victim/.github/workflows/x.yml").
Proof. vm_compute. reflexivity. Qed.
