(* ===== verification/TemplateTokens.v ===== *)
(** * Template tokens

    The wire form of a template in a job message: [template_string_token],
    [template_token], [job_outputs_token] and [non_empty_services] of
    [crates/preloop-gha-parser/src/job_builder.rs] with [append_format_literal]
    of [crates/preloop-gha-protocol/src/azdo/job.rs], and [defaults_run_token]
    of [expand.rs].  A text with several expressions becomes one [format()]
    call; [format_template_spec] shows that this call is read as a call of
    [format] on a format string and the trees of the expressions, and that it
    evaluates to the text the server's own resolution gives. *)
From S2P Require Import ParseContext EvalBudgets.
From S2P Require Export WorkflowModel.

Section tokens.
Context {num : Type} `{NumberOps num, JsonCodec num, UnicodeCase, NumberMake num}.
Abbreviation json := (value num).

Definition int_value (z : Z) : json := JNumber (num_of_i64 z).

Definition location (file_id : Z) : imap json :=
  [("file", int_value file_id); ("line", int_value 1); ("col", int_value 1)].

Definition typed_location (ty file_id : Z) : imap json := ("type", int_value ty) :: location file_id.

(** A literal token, with its type after the location. *)
Definition literal_token (file_id : Z) (lit : string) : json :=
  JObject (location file_id ++ [("type", int_value 0); ("lit", JString lit)]).
Definition key_token (file_id : Z) (key : string) : json :=
  JObject (typed_location 0 file_id ++ [("lit", JString key)]).
Definition expression_token (file_id : Z) (expr : string) : json :=
  JObject (typed_location 3 file_id ++ [("expr", JString expr)]).
Definition mapping_token (file_id : Z) (entries : list json) : json :=
  JObject (typed_location 2 file_id ++ [("map", JArray entries)]).
Definition entry_token (file_id : Z) (key : string) (v : json) : json :=
  JObject [("Key", key_token file_id key); ("Value", v)].

(** [append_format_literal]: a quote, an opening and a closing brace are
    doubled. *)
Definition doubled (a : ascii) : bool := bool_decide (a ∈ ["'"; "{"; "}"]%char).
Fixpoint format_literal (s : string) : string :=
  match s with
  | EmptyString => EmptyString
  | String a r => if doubled a then String a (String a (format_literal r)) else String a (format_literal r)
  end.

(** The loop over the expressions of a text: the format string and the
    arguments, or [None] when a marker is not closed. *)
Fixpoint format_parts (fuel : nat) (remaining format_string : string) (expressions : list string) :
    option (string * list string) :=
  match fuel with
  | O => None
  | S fuel =>
      match split_once opener remaining with
      | None => Some (format_string +:+ format_literal remaining, expressions)
      | Some (before, after) =>
          end_ ← find_expression_end after;
          format_parts fuel (str_drop (end_ + 2) after)
            (format_string +:+ format_literal before +:+ "{" +:+ pretty (length expressions) +:+ "}")
            (expressions ++ [trim (str_take end_ after)])
      end
  end.

Definition format_call (format_string : string) (expressions : list string) : string :=
  "format('" +:+ format_string +:+ "'" +:+ join "" ((λ e, ", " +:+ e) <$> expressions) +:+ ")".

(** The body of a text that is one expression, up to white space around it. *)
Definition single_expression (raw : string) : option string :=
  source ← strip_prefix opener (trim raw);
  end_ ← find_expression_end source;
  if end_ + 2 =? String.length source then Some (trim (str_take end_ source)) else None.

Definition template_string_token (raw : string) (file_id : Z) : json :=
  match single_expression raw with
  | Some expr => expression_token file_id expr
  | None =>
      if negb (str_contains opener raw) then literal_token file_id raw
      else match format_parts (S (String.length raw)) raw "" [] with
           | Some (format_string, expressions) =>
               expression_token file_id (format_call format_string expressions)
           | None => literal_token file_id raw
           end
  end.

Fixpoint template_token (v : json) (file_id : Z) : json :=
  match v with
  | JObject m =>
      mapping_token file_id ((λ '(key, v), entry_token file_id key (template_token v file_id)) <$> m)
  | JArray vs =>
      JObject (typed_location 1 file_id ++ [("seq", JArray ((λ v, template_token v file_id) <$> vs))])
  | JString raw => template_string_token raw file_id
  | JBool b => literal_token file_id (bool_string b)
  | JNumber n => literal_token file_id (num_to_string n)
  | JNull => literal_token file_id ""
  end.

(** [job_outputs_token]; the outputs are visited in key order. *)
Definition output_token (file_id : Z) (raw : string) : json :=
  match (s ← strip_prefix opener (trim raw); strip_suffix closer s) with
  | Some expr => JObject (typed_location 3 file_id ++ [("expr", JString (trim expr))])
  | None => JObject (typed_location 0 file_id ++ [("lit", JString raw)])
  end.
Definition job_outputs_token (outputs : gmap string string) (file_id : Z) : option json :=
  if bool_decide (outputs = ∅) then None
  else Some (mapping_token file_id
    (omap (λ k, (λ raw, entry_token file_id k (output_token file_id raw)) <$> outputs !! k)
      (btree_keys outputs))).

Definition defaults_run_token (run : DefaultsRun) : json :=
  let entry key v := entry_token 1 key (template_token (JString v) 1) in
  let map := option_list (entry "shell" <$> default_shell run)
             ++ option_list (entry "working-directory" <$> default_working_directory run) in
  mapping_token 1 [entry_token 1 "run" (mapping_token 1 map)].

(** [non_empty_services] of the job builder. *)
Definition services_token (services : option json) (file_id : Z) : option json :=
  match services with
  | Some (JObject []) => None
  | Some v => Some (template_token v file_id)
  | None => None
  end.

End tokens.

(** ** The literals of a format string *)

(** The text the literal denotes once the expression lexer has read it: only
    the braces are still doubled. *)
Definition is_brace (c : N) : bool := (c =? ch "{")%N || (c =? ch "}")%N.
Definition double_braces (cs : list N) : list N :=
  flat_map (λ c, if is_brace c then [c; c] else [c]) cs.
Definition brace_literal (s : string) : string := Utf8.of_bytes (double_braces (Utf8.bytes s)).

Lemma double_braces_lt bs : Forall (λ b, (b < 256)%N) bs → Forall (λ b, (b < 256)%N) (double_braces bs).
Proof.
  induction 1 as [|b bs Hb _ IH]; [constructor|]. unfold double_braces. cbn [flat_map].
  apply Forall_app. split; [|exact IH]. destruct (is_brace b); repeat constructor; done.
Qed.

Lemma bytes_brace_literal s : Utf8.bytes (brace_literal s) = double_braces (Utf8.bytes s).
Proof. apply list_ascii_of_bytes, double_braces_lt, bytes_lt. Qed.

Lemma brace_literal_app s t : brace_literal (s +:+ t) = brace_literal s +:+ brace_literal t.
Proof. unfold brace_literal, double_braces. by rewrite bytes_app, flat_map_app, of_bytes_app. Qed.

Section format.
Context {num : Type} `{NumberOps num, JsonCodec num, UnicodeCase, NumberMake num}.
Implicit Types (vs : list (value num)) (b : EvalBudget).

(** The literals with the values in between. *)
Fixpoint weave (ps : list (string * string)) (t : string) vs : string :=
  match ps, vs with
  | (l, _) :: ps, v :: vs => l +:+ stringify_value v +:+ weave ps t vs
  | _, _ => t
  end.

(** The format string the runner sees, from the [n]-th expression on. *)
Fixpoint format_text (n : nat) (ps : list (string * string)) (t : string) : string :=
  match ps with
  | [] => brace_literal t
  | (l, _) :: ps => brace_literal l +:+ "{" +:+ pretty n +:+ "}" +:+ format_text (S n) ps t
  end.

(** [format_loop] with the fuel [format_args] gives it. *)
Definition scan fmt vs b (rest seg : list N) (output : string) : result ExpressionError string :=
  format_loop (length rest) fmt vs b rest seg output.

Lemma scan_fuel fuel fmt vs b rest seg output :
  length rest <= fuel → format_loop fuel fmt vs b rest seg output = scan fmt vs b rest seg output.
Proof. intros Hl. by apply format_fuel. Qed.

Lemma scan_unfold fmt vs b c rest seg output :
  ∃ n, length rest <= n ∧
    scan fmt vs b (c :: rest) seg output = format_loop (S n) fmt vs b (c :: rest) seg output.
Proof. exists (length rest). done. Qed.

Definition room b (n : N) : Prop := (n ≤ MAX_FORMAT_OUTPUT_BYTES)%N ∧ (n ≤ remaining b)%N.

Lemma len_of_bytes bs : len (Utf8.of_bytes bs) = N.of_nat (length bs).
Proof.
  unfold len, Utf8.of_bytes. f_equal. induction bs as [|x bs IH]; [done|]. csimpl. by rewrite IH.
Qed.

Lemma push_room output seg b :
  room b (len output + len seg) → push_format_capped output seg b = Ok (output +:+ seg).
Proof.
  intros [Hm Hr]. unfold push_format_capped.
  destruct (_ <? _)%N eqn:Ha; [bool_to_prop; lia|]. destruct (remaining b - _ <? _)%N eqn:Hb; [bool_to_prop; lia|done].
Qed.

Lemma room_le b n m : room b n → (m ≤ n)%N → room b m.
Proof. unfold room. lia. Qed.

(** Two bytes of a brace. *)
Lemma scan_brace fmt vs b c rest seg output :
  is_brace c = true → room b (len output + N.of_nat (length seg) + 1) →
  scan fmt vs b (c :: c :: rest) seg output =
  scan fmt vs b rest [] (output +:+ Utf8.of_bytes seg +:+ Utf8.of_bytes [c]).
Proof.
  intros Hc Hr. destruct (scan_unfold fmt vs b c (c :: rest) seg output) as (n & Hn & ->). cbn [format_loop].
  assert (len (Utf8.of_bytes [c]) = 1%N) as Hl1 by (rewrite len_of_bytes; done).
  rewrite push_room by (eapply room_le; [exact Hr|]; rewrite len_of_bytes; lia).
  unfold is_brace in Hc. apply orb_true_iff in Hc as [Hc|Hc]; apply N.eqb_eq in Hc as ->.
  - rewrite N.eqb_refl. cbn [mbind result_bind head tail]. rewrite bool_decide_eq_true_2 by done.
    change (Utf8.of_bytes [ch "{"]) with "{" in *.
    rewrite push_room by (eapply room_le; [exact Hr|]; rewrite len_app, len_of_bytes, Hl1; lia).
    cbn [mbind result_bind]. rewrite scan_fuel by (simpl in Hn; lia). by rewrite <- app_assoc_string.
  - change (ch "}" =? ch "{")%N with false. cbn iota. rewrite N.eqb_refl. cbn [mbind result_bind head tail].
    rewrite bool_decide_eq_true_2 by done. change (Utf8.of_bytes [ch "}"]) with "}" in *.
    rewrite push_room by (eapply room_le; [exact Hr|]; rewrite len_app, len_of_bytes, Hl1; lia).
    cbn [mbind result_bind]. rewrite scan_fuel by (simpl in Hn; lia). by rewrite <- app_assoc_string.
Qed.

Lemma scan_literal fmt vs b l rest seg output :
  room b (len output + N.of_nat (length seg) + N.of_nat (length l)) →
  ∃ seg' output', output' +:+ Utf8.of_bytes seg' = output +:+ Utf8.of_bytes (seg ++ l) ∧
    scan fmt vs b (double_braces l ++ rest) seg output = scan fmt vs b rest seg' output'.
Proof.
  revert seg output. induction l as [|c l IH]; intros seg output Hr.
  { exists seg, output. by rewrite app_nil_r. }
  change (double_braces (c :: l)) with ((if is_brace c then [c; c] else [c]) ++ double_braces l).
  cbn [length] in *. destruct (is_brace c) eqn:Hc.
  - rewrite <- app_assoc. cbn [app].
    rewrite scan_brace by (done || (eapply room_le; [exact Hr|]; lia)).
    destruct (IH [] (output +:+ Utf8.of_bytes seg +:+ Utf8.of_bytes [c])) as (seg' & out' & He & ->).
    { eapply room_le; [exact Hr|]. rewrite !len_app, !len_of_bytes. simpl. lia. }
    exists seg', out'. split; [|done]. rewrite He. cbn [app].
    change (seg ++ c :: l) with (seg ++ [c] ++ l). rewrite !of_bytes_app. by rewrite <- !app_assoc_string.
  - rewrite <- app_assoc. cbn [app].
    destruct (IH (seg ++ [c]) output) as (seg' & out' & He & Hs).
    { eapply room_le; [exact Hr|]. rewrite length_app. simpl. lia. }
    exists seg', out'. rewrite He, <- app_assoc. split; [done|]. rewrite <- Hs.
    destruct (scan_unfold fmt vs b c (double_braces l ++ rest) seg output) as (n & Hn & ->). cbn [format_loop].
    unfold is_brace in Hc. apply orb_false_iff in Hc as [-> ->]. by apply scan_fuel.
Qed.

Lemma bounded_stringify (v : value num) limit overflow :
  (len (stringify_value v) ≤ limit)%N → string_value_bounded v limit overflow = Ok (stringify_value v).
Proof.
  destruct v as [|[]| | | |]; simpl; try done; intros Hl;
    rewrite capped_write_spec by (unfold len; simpl; lia);
    rewrite (proj2 (N.leb_le _ _)); done || exact Hl.
Qed.

Lemma pretty_nat_bytes n :
  (N.of_nat n < 2 ^ 8)%N →
  is_digit_string (pretty n) ∧ parse_u8 (Utf8.bytes (pretty n)) = Some (N.of_nat n) ∧ pretty n ≠ "".
Proof.
  intros Hn. change (pretty n) with (pretty (N.of_nat n)).
  destruct (pretty_N_digits 3 (N.of_nat n)) as (_ & Hd & _ & Hne); [simpl in *; lia|done|].
  split; [done|]. split; [|done]. unfold parse_u8. rewrite of_bytes_bytes. by apply parse_unsigned_pretty.
Qed.

Lemma scan_placeholder fmt fv vs b n v rest seg output :
  vs !! n = Some v → (N.of_nat n < 2 ^ 8)%N →
  room b (len output + N.of_nat (length seg) + len (stringify_value v)) →
  scan fmt (fv :: vs) b (ch "{" :: Utf8.bytes (pretty n) ++ ch "}" :: rest) seg output =
  scan fmt (fv :: vs) b rest [] (output +:+ Utf8.of_bytes seg +:+ stringify_value v).
Proof.
  intros Hv Hn Hr. destruct (pretty_nat_bytes n Hn) as (Hd & Hp & Hne).
  destruct (scan_unfold fmt (fv :: vs) b (ch "{") (Utf8.bytes (pretty n) ++ ch "}" :: rest) seg output)
    as (k & Hk & ->). cbn [format_loop]. rewrite N.eqb_refl.
  rewrite push_room by (eapply room_le; [exact Hr|]; rewrite len_of_bytes; lia). cbn [mbind result_bind].
  assert (head (Utf8.bytes (pretty n) ++ ch "}" :: rest) ≠ Some (ch "{")) as Hh.
  { destruct (Utf8.bytes (pretty n)) as [|d ds] eqn:Hb; [done|]. simpl. intros [= ->].
    unfold is_digit_string in Hd. rewrite Hb in Hd. by apply Forall_cons in Hd as [? _]. }
  rewrite bool_decide_eq_false_2 by exact Hh.
  rewrite (take_while_app is_ascii_digit (Utf8.bytes (pretty n)) (ch "}" :: rest)).
  2:{ apply forallb_forall. intros c Hc%list_elem_of_In. unfold is_digit_string in Hd.
      rewrite Forall_forall in Hd. by apply Hd. }
  2:{ by intros c r [= <- _]. }
  destruct (length (Utf8.bytes (pretty n)) =? 0) eqn:Hl.
  { apply Nat.eqb_eq, nil_length_inv in Hl. destruct (pretty n); [done|discriminate Hl]. }
  rewrite Hp. cbn [ok_or mbind result_bind head tail]. rewrite bool_decide_eq_true_2 by done.
  rewrite Nat2N.id. change ((fv :: vs) !! S n) with (vs !! n). rewrite Hv. cbn [ok_or mbind result_bind].
  rewrite bounded_stringify by (destruct Hr as [Hm _]; rewrite len_app, len_of_bytes; lia).
  cbn [mbind result_bind].
  rewrite push_room by (eapply room_le; [exact Hr|]; rewrite len_app, len_of_bytes; lia).
  cbn [mbind result_bind]. rewrite scan_fuel.
  - by rewrite <- app_assoc_string.
  - rewrite length_app in Hk. simpl in Hk. lia.
Qed.

Lemma scan_text fmt fv all b ps t n vs seg output :
  drop n all = vs → length vs = length ps → n + length ps ≤ 256 →
  room b (len output + N.of_nat (length seg) + len (weave ps t vs)) →
  scan fmt (fv :: all) b (Utf8.bytes (format_text n ps t)) seg output =
  Ok (output +:+ Utf8.of_bytes seg +:+ weave ps t vs).
Proof.
  revert n vs seg output. induction ps as [|[l body] ps IH]; intros n vs seg output Hd Hl Hn Hr; cbn [format_text].
  - rewrite bytes_brace_literal, <- (app_nil_r (double_braces (Utf8.bytes t))).
    destruct vs; [|done]. cbn [weave] in *.
    destruct (scan_literal fmt (fv :: all) b (Utf8.bytes t) [] seg output) as (seg' & out' & He & ->).
    { eapply room_le; [exact Hr|]. unfold len. rewrite <- (of_bytes_bytes t) at 2.
      pose proof (len_of_bytes (Utf8.bytes t)) as Hb. unfold len in Hb. lia. }
    rewrite of_bytes_app, of_bytes_bytes in He. rewrite <- He. unfold scan. cbn [length format_loop].
    apply push_room. eapply room_le; [exact Hr|].
    apply (f_equal len) in He. rewrite !len_app, !len_of_bytes in He. rewrite len_of_bytes. lia.
  - destruct vs as [|v vs]; [done|]. cbn [length weave] in *. rewrite !len_app in Hr.
    rewrite !bytes_app, bytes_brace_literal.
    destruct (scan_literal fmt (fv :: all) b (Utf8.bytes l)
      (Utf8.bytes "{" ++ Utf8.bytes (pretty n) ++ Utf8.bytes "}" ++ Utf8.bytes (format_text (S n) ps t)) seg output)
      as (seg' & out' & He & ->).
    { eapply room_le; [exact Hr|]. pose proof (len_of_bytes (Utf8.bytes l)) as Hb.
      rewrite of_bytes_bytes in Hb. lia. }
    rewrite of_bytes_app, of_bytes_bytes in He. pose proof (f_equal len He) as Hle.
    rewrite !len_app, !len_of_bytes in Hle.
    change (Utf8.bytes "{") with [ch "{"]. change (Utf8.bytes "}") with [ch "}"]. cbn [app].
    rewrite (scan_placeholder fmt fv all b n v).
    + rewrite (IH (S n) vs [] (out' +:+ Utf8.of_bytes seg' +:+ stringify_value v)).
      * rewrite (app_assoc_string out'), He. f_equal. change (Utf8.of_bytes []) with "".
        rewrite <- !app_assoc_string. done.
      * rewrite <- Nat.add_1_r, <- drop_drop, Hd. done.
      * lia.
      * lia.
      * eapply room_le; [exact Hr|]. rewrite !len_app, len_of_bytes. simpl. lia.
    + rewrite <- (Nat.add_0_r n), <- lookup_drop, Hd. done.
    + change (2 ^ 8)%N with 256%N. lia.
    + eapply room_le; [exact Hr|]. lia.
Qed.

End format.

(** ** The format string as source text *)

(** Doubling the bytes of a set of ASCII characters. *)
Definition double (p : N → bool) (bs : list N) : list N := flat_map (λ c, if p c then [c; c] else [c]) bs.
Definition is_quote (c : N) : bool := (c =? ch "'")%N.

Lemma double_app p a b : double p (a ++ b) = double p a ++ double p b.
Proof. apply flat_map_app. Qed.

(** On a character outside the set, and on one inside it. *)
Lemma double_encode p c :
  (∀ x, p x = true → (x < 128)%N) → is_scalar c = true →
  double p (Utf8.encode_char c) = if p c then [c; c] else Utf8.encode_char c.
Proof.
  intros Hp Hc. destruct (decide (c < 128)%N) as [Hlt|Hge].
  - unfold Utf8.encode_char. rewrite (proj2 (N.ltb_lt _ _)) by done. unfold double. simpl. by destruct (p c).
  - destruct (p c) eqn:Hpc; [by apply Hp in Hpc|].
    assert (Forall (λ x, p x = false) (Utf8.encode_char c)) as Hf.
    { assert (Forall (λ x, (128 ≤ x)%N) (Utf8.encode_char c)) as Hb.
      { unfold Utf8.encode_char. rewrite (proj2 (N.ltb_ge c 128)) by lia.
        repeat case_match; bool_to_prop; repeat apply Forall_cons_2; try apply Forall_nil_2; div_mod_lia. }
      eapply Forall_impl; [exact Hb|]. intros x Hx. destruct (p x) eqn:Hpx; [|done].
      apply Hp in Hpx. cbv beta in Hx. lia. }
    induction Hf as [|x l Hx _ IH]; [done|]. unfold double. simpl. rewrite Hx. simpl. f_equal. exact IH.
Qed.

Lemma double_utf8 p bs : (∀ x, p x = true → (x < 128)%N) → utf8 bs → utf8 (double p bs).
Proof.
  intros Hp. induction 1 as [|c bs Hc _ IH]; [constructor|]. rewrite double_app, double_encode by done.
  destruct (p c) eqn:Hpc; [|by constructor].
  apply utf8_app; [|done]. apply utf8_ascii. repeat constructor; by apply Hp.
Qed.

Lemma is_brace_ascii x : is_brace x = true → (x < 128)%N.
Proof. unfold is_brace. eval_ch. lia. Qed.
Lemma is_quote_ascii x : is_quote x = true → (x < 128)%N.
Proof. unfold is_quote. eval_ch. lia. Qed.

Lemma doubled_byte a : doubled a = is_brace (N_of_ascii a) || is_quote (N_of_ascii a).
Proof. by destruct a as [[] [] [] [] [] [] [] []]. Qed.

(** The literal of the source doubles the quotes of the literal it denotes. *)
Lemma format_literal_bytes s : Utf8.bytes (format_literal s) = double is_quote (double is_brace (Utf8.bytes s)).
Proof.
  induction s as [|a s IH]; [done|]. cbn [format_literal].
  change (Utf8.bytes (String a s)) with ([N_of_ascii a] ++ Utf8.bytes s). rewrite double_app, double_app, <- IH.
  rewrite doubled_byte. unfold double at 2. cbn [flat_map app].
  destruct (is_brace (N_of_ascii a)) eqn:Hb; cbn [orb app].
  - assert (is_quote (N_of_ascii a) = false) as Hq.
    { revert Hb. unfold is_brace, is_quote. eval_ch. lia. }
    unfold double. simpl. by rewrite Hq.
  - unfold double. simpl. by destruct (is_quote (N_of_ascii a)).
Qed.

Lemma escape_quotes_bytes cs :
  Forall (λ c, is_scalar c = true) cs →
  Utf8.bytes (of_chars (escape_quotes cs)) = double is_quote (Utf8.bytes (of_chars cs)).
Proof.
  intros Hcs. unfold of_chars.
  assert (∀ l, Forall (λ c, is_scalar c = true) l → Forall (λ b, (b < 256)%N) (flat_map Utf8.encode_char l)) as Hlt.
  { induction 1 as [|c l Hc _ IH]; [constructor|]. cbn [flat_map]. apply Forall_app.
    split; [by apply encode_char_bytes, is_scalar_lt|done]. }
  rewrite (list_ascii_of_bytes (flat_map Utf8.encode_char (escape_quotes cs))) by (by apply Hlt, escape_quotes_scalar).
  rewrite (list_ascii_of_bytes (flat_map Utf8.encode_char cs)) by (by apply Hlt). clear Hlt.
  induction Hcs as [|c cs Hc _ IH]; [done|]. cbn [escape_quotes flat_map].
  rewrite flat_map_app. fold (escape_quotes cs). rewrite IH, double_app, double_encode by (done || apply is_quote_ascii).
  f_equal. change (c =? ch "'")%N with (is_quote c). destruct (is_quote c) eqn:Hq; [|cbn [flat_map]; by rewrite app_nil_r].
  cbn [flat_map]. unfold Utf8.encode_char. rewrite (proj2 (N.ltb_lt _ _)) by (by apply is_quote_ascii). done.
Qed.

Lemma pretty_digits n : is_digit_string (pretty (n : N)).
Proof.
  destruct (pretty_N_digits (S (N.to_nat (N.log2 n))) n) as (_ & Hd & _); [|done..].
  rewrite Nat2N.inj_succ, N2Nat.id. destruct (decide (n = 0)%N) as [->|]; [done|].
  apply (N.lt_le_trans _ (2 ^ N.succ (N.log2 n))); [apply N.log2_spec; lia|].
  apply N.pow_le_mono_l. lia.
Qed.

Section source.
Context {num : Type} `{NumberOps num, JsonCodec num, UnicodeCase, HashOrder, NumberMake num}.
Variable hash_files : list (value num) → option string → result ExpressionError string.
Implicit Types (c : Context num) (b : EvalBudget).

(** The format string as [format_parts] writes it. *)
Fixpoint source_text (n : nat) (ps : list (string * string)) (t : string) : string :=
  match ps with
  | [] => format_literal t
  | (l, _) :: ps => format_literal l +:+ "{" +:+ pretty n +:+ "}" +:+ source_text (S n) ps t
  end.

Lemma format_parts_pieces fuel s ps t fs es :
  template s ps (Some t) → String.length s < fuel →
  format_parts fuel s fs es =
  Some (fs +:+ source_text (length es) ps t, es ++ (trim <$> ps.*2)).
Proof.
  intros Ht. remember (Some t) as o eqn:Ho. revert fuel fs es Ho.
  induction Ht as [t' Hn|l r Hl Hr|l body s ps o Hl Hb Ht IH]; intros [|fuel] fs es Ho Hf; try lia;
    cbn [format_parts]; simplify_eq.
  - rewrite Hn. by rewrite app_nil_r.
  - destruct (template_head l body s Hl Hb) as (-> & Hend & Ht' & Hd & Hlt). rewrite Hend. cbn [mbind option_bind].
    rewrite Ht', Hd, IH by (done || lia). rewrite length_app, <- app_assoc. simpl.
    rewrite Nat.add_1_r. by rewrite <- !app_assoc_string.
Qed.

Lemma template_utf8_all s ps t :
  template s ps (Some t) → utf8_ok s → Forall (λ p, utf8_ok p.1) ps ∧ utf8_ok t.
Proof.
  intros Ht. remember (Some t) as o eqn:Ho. induction Ht as [t' Hn|l r Hl Hr|l body s ps o Hl Hb Ht IH];
    simplify_eq; intros Hu; [by split; [constructor|]|].
  assert (utf8_ok l) as Hul.
  { revert Hu. rewrite !utf8_ok_bytes, bytes_app. intros [Hu _]%(utf8_cut _ 36); done. }
  apply template_utf8 in Hu as [_ Hu]. destruct (IH eq_refl Hu) as [Hps Ht']. split; [by constructor|done].
Qed.

Lemma pretty_utf8 n : utf8 (Utf8.bytes (pretty (n : nat))).
Proof. apply utf8_ascii, is_ascii_bytes, digit_string_ascii, (pretty_digits (N.of_nat n)). Qed.

(** The source is the literal of the format string, quotes doubled. *)
Lemma source_text_literal n ps t :
  Forall (λ p, utf8_ok p.1) ps → utf8_ok t →
  utf8_ok (format_text n ps t) ∧
  source_text n ps t = of_chars (escape_quotes (chars (format_text n ps t))).
Proof.
  intros Hps Ht.
  assert (utf8_ok (format_text n ps t) ∧
    Utf8.bytes (source_text n ps t) = double is_quote (Utf8.bytes (format_text n ps t))) as [Hu Hb].
  { revert n. induction Hps as [|[l body] ps Hl _ IH]; intros n; cbn [format_text source_text].
    - rewrite format_literal_bytes, bytes_brace_literal. split; [|done].
      rewrite utf8_ok_bytes, bytes_brace_literal. apply (double_utf8 is_brace); [apply is_brace_ascii|].
      by apply utf8_ok_bytes.
    - destruct (IH (S n)) as [Hu Hb]. simpl in Hl. split.
      + rewrite utf8_ok_bytes, !bytes_app, bytes_brace_literal. apply utf8_app.
        { apply (double_utf8 is_brace); [apply is_brace_ascii|]. by apply utf8_ok_bytes. }
        apply utf8_app; [by apply utf8_ascii; repeat constructor|].
        apply utf8_app; [apply pretty_utf8|]. apply utf8_app; [by apply utf8_ascii; repeat constructor|].
        by apply utf8_ok_bytes.
      + rewrite !bytes_app, !double_app, format_literal_bytes, bytes_brace_literal, Hb. f_equal.
        change (double is_quote (Utf8.bytes "{")) with (Utf8.bytes "{").
        change (double is_quote (Utf8.bytes "}")) with (Utf8.bytes "}"). f_equal. f_equal.
        assert (Forall (λ x, is_quote x = false) (Utf8.bytes (pretty n))) as Hq.
        { eapply Forall_impl; [apply (pretty_digits (N.of_nat n))|].
          intros x. unfold is_ascii_digit, in_range, is_quote. eval_ch. lia. }
        induction Hq as [|x bs Hx _ IHq]; [done|]. unfold double. cbn [flat_map]. rewrite Hx. simpl. f_equal.
        exact IHq. }
  split; [done|]. apply (f_equal Utf8.of_bytes) in Hb. rewrite of_bytes_bytes in Hb. rewrite Hb.
  destruct Hu as (cs & Hcs & He). rewrite He, chars_of_chars by done.
  rewrite <- escape_quotes_bytes by done. apply of_bytes_bytes.
Qed.

(** A string literal in source text. *)
Definition string_literal (s : string) : string := of_chars (render_token (TString s)).

Lemma string_literal_quoted s : string_literal s = "'" +:+ of_chars (escape_quotes (chars s)) +:+ "'".
Proof.
  unfold string_literal. cbn [render_token].
  change (ch "'" :: escape_quotes (chars s) ++ [ch "'"]) with ([ch "'"] ++ escape_quotes (chars s) ++ [ch "'"]).
  by rewrite !of_chars_app.
Qed.

Lemma resolve_pieces_weave c ps t vs :
  Forall2 (λ p v, eval_piece hash_files c p.2 = Ok v) ps vs →
  resolve_pieces hash_files c ps (Some t) = Ok (weave ps t vs).
Proof.
  induction 1 as [|[l body] v ps vs Hv _ IH]; [done|]. cbn [resolve_pieces weave]. simpl in Hv.
  rewrite Hv. cbn [mbind result_bind]. by rewrite IH.
Qed.

(** ** The call, as it is read *)

Lemma chars_string_literal fmt : utf8_ok fmt → chars (string_literal fmt) = render_token (TString fmt).
Proof. intros Hf. apply chars_of_chars. by apply (render_token_scalar (TString fmt)). Qed.

Lemma string_literal_utf8 fmt : utf8_ok fmt → utf8_ok (string_literal fmt).
Proof. intros Hf. apply of_chars_utf8_ok. by apply (render_token_scalar (TString fmt)). Qed.

(** The expressions, each after a comma, and the closing parenthesis. *)
Definition args_text (es : list string) : string := join "" ((λ e, ", " +:+ e) <$> es) +:+ ")".

Lemma args_text_cons e es : args_text (e :: es) = ", " +:+ e +:+ args_text es.
Proof. unfold args_text. cbn [fmap list_fmap]. by rewrite join_empty_cons, <-!app_assoc_string. Qed.

Lemma args_text_utf8 es : Forall utf8_ok es → utf8_ok (args_text es).
Proof.
  induction 1 as [|e es He _ IH]; [by apply ascii_utf8_ok|]. rewrite args_text_cons. auto with utf8.
Qed.

Lemma args_text_closes es : Forall utf8_ok es → ParseContext.closes (chars (args_text es)).
Proof.
  destruct 1 as [|e es He Hes]; [apply (closes_paren [])|]. rewrite args_text_cons.
  rewrite chars_app by auto using args_text_utf8 with utf8. apply (closes_comma (ch " " :: _)).
Qed.

Definition lexes_alone (s : string) (ts : list Token) : Prop := utf8_ok s ∧ lex s = Ok (ts ++ [TEnd]).

Lemma lex_args es tss :
  Forall2 lexes_alone es tss →
  lex_chars (chars (args_text es)) = Ok (concat ((λ ts, TComma :: ts) <$> tss) ++ [TRParen; TEnd]).
Proof.
  assert (∀ r, lex_step (ch ",") r = Ok (Some TComma, r)) as Hcomma by reflexivity.
  assert (∀ r, lex_step (ch " ") r = Ok (None, r)) as Hspace by reflexivity.
  induction 1 as [|e ts es tss [Hu Hl] Hall IH]; [reflexivity|].
  assert (Forall utf8_ok es) as Hes by (eapply Forall2_Forall_l, Forall_true; [exact Hall|]; by intros ? ? [? ?]).
  rewrite args_text_cons, !chars_app by auto using args_text_utf8 with utf8.
  change (chars ", ") with [ch ","; ch " "]. cbn [app].
  rewrite lex_chars_cons, Hcomma, lex_chars_cons, Hspace.
  rewrite (lex_chars_closes _ ts) by (done || by apply args_text_closes). rewrite IH.
  cbn [mbind result_bind fmap list_fmap concat]. cbn [app]. by rewrite <-app_assoc.
Qed.

Lemma args_tokens_concat ts tss :
  args_tokens (ts :: tss) = ts ++ concat ((λ ts, TComma :: ts) <$> tss).
Proof.
  revert ts. induction tss as [|ts' tss IH]; intros ts; [by rewrite app_nil_r|].
  rewrite args_tokens_cons, IH by done. done.
Qed.

Definition call_text (fmt : string) (es : list string) : string :=
  "format(" +:+ string_literal fmt +:+ args_text es.

Lemma call_text_utf8 fmt es : utf8_ok fmt → Forall utf8_ok es → utf8_ok (call_text fmt es).
Proof. intros. unfold call_text. auto using string_literal_utf8, args_text_utf8 with utf8. Qed.

Lemma lex_call fmt es tss :
  utf8_ok fmt → Forall2 lexes_alone es tss →
  lex (call_text fmt es) =
  Ok (TIdent "format" :: TLParen :: args_tokens ([TString fmt] :: tss) ++ [TRParen; TEnd]).
Proof.
  intros Hf Hall.
  assert (Forall utf8_ok es) as Hes by (eapply Forall2_Forall_l, Forall_true; [exact Hall|]; by intros ? ? [? ?]).
  unfold lex, call_text. rewrite !chars_app by auto using string_literal_utf8, args_text_utf8 with utf8.
  rewrite chars_string_literal by done.
  change (chars "format(") with (chars "format" ++ [ch "("]). rewrite <-app_assoc. cbn [app].
  assert (∀ r, lex_chars (chars "format" ++ ch "(" :: r) =
    (rest ← lex_chars r; Ok (TIdent "format" :: TLParen :: rest))) as ->.
  { intros r. change (chars "format") with (ch "f" :: chars "ormat"). cbn [app]. rewrite lex_chars_cons.
    assert (lex_step (ch "f") (chars "ormat" ++ ch "(" :: r) = Ok (Some (TIdent "format"), ch "(" :: r)) as -> by reflexivity.
    rewrite lex_chars_cons. assert (lex_step (ch "(") r = Ok (Some TLParen, r)) as -> by reflexivity.
    by destruct (lex_chars r). }
  cbn [render_token app]. rewrite <-app_assoc. cbn [app]. rewrite lex_chars_cons.
  assert (lex_step (ch "'") (escape_quotes (chars fmt) ++ ch "'" :: chars (args_text es)) =
    Ok (Some (TString fmt), chars (args_text es))) as ->.
  { unfold lex_step. change (is_whitespace (ch "'")) with false. change (ch "'" =? ch "'")%N with true. cbv iota.
    rewrite lex_string_escape.
    - cbn [mbind result_bind app]. by rewrite of_chars_chars.
    - intros c r Hc. destruct (args_text_closes es Hes) as (r' & [Hr|Hr]); rewrite Hr in Hc; by injection Hc as <- <-. }
  rewrite (lex_args es tss Hall). cbn [mbind result_bind]. rewrite args_tokens_concat. done.
Qed.

(** Expressions that are read alone are read as arguments. *)
Lemma parse_call_text fmt bodies es :
  utf8_ok fmt → Forall utf8_ok bodies → bodies ≠ [] →
  Forall2 (λ s e, parse_input (num:=num) s = Ok e) bodies es →
  parse_input (call_text fmt bodies) = Ok (Call "format" (Literal (JString fmt) :: es)) ∨
  parse_input (num:=num) (call_text fmt bodies) = too_deep.
Proof.
  intros Hf Hus Hne Hall.
  assert (∃ tss, Forall2 lexes_alone bodies tss ∧ Forall2 reads_alone tss es ∧ length tss = length bodies)
    as (tss & Hlex & Hreads & Hlen).
  { clear Hne. induction Hall as [|s e bodies es Hp _ IH]; [by exists []|].
    apply Forall_cons in Hus as [Hu Hus]. destruct (IH Hus) as (tss & ? & ? & ?).
    apply parse_input_tokens in Hp as (ts & Hl & Hend & Hp); [|done].
    exists (ts :: tss). split_and!; [by constructor|by constructor|]. simpl. lia. }
  unfold parse_input. rewrite (lex_call fmt bodies tss) by done. cbn [mbind result_bind].
  destruct (parse_call "format" fmt tss es Hreads) as [->| ->]; [|by right|by left].
  intros ->. destruct bodies; [done|simpl in Hlen; lia].
Qed.

Lemma call_text_markers fmt es :
  utf8_ok fmt → Forall utf8_ok es → trim_expression_markers (call_text fmt es) = call_text fmt es.
Proof.
  intros Hf Hes. unfold trim_expression_markers.
  rewrite (trim_fixed (call_text fmt es) (ch "f")
    (chars "ormat(" ++ chars (string_literal fmt) ++ chars (join "" ((λ e, ", " +:+ e) <$> es))) (ch ")")).
  - done.
  - by apply call_text_utf8.
  - assert (utf8_ok (join "" ((λ e, ", " +:+ e) <$> es))) as Hj.
    { clear Hf. induction Hes as [|e es He _ IH]; [by apply ascii_utf8_ok|]. cbn [fmap list_fmap].
      rewrite join_empty_cons. auto with utf8. }
    unfold call_text, args_text. rewrite !chars_app by auto using string_literal_utf8 with utf8.
    rewrite <-!app_assoc. done.
  - done.
  - done.
Qed.

(** ** The call, as it is evaluated *)

Lemma eval_literal_same c (v : value num) b b' : same_value (Ok (v, b)) (eval hash_files c (Literal v) b').
Proof.
  rewrite eval_unfold. unfold eval_guard. case_match; [by apply agrees_refused|].
  unfold eval_inner. cbn [mbind result_bind]. unfold charge.
  repeat (case_match; try by apply agrees_refused); simplify_eq/=; apply same_value_ok || by apply agrees_refused.
Qed.

Lemma eval_args_values c b es vs :
  Forall2 (λ e v, eval_expr hash_files c e = Ok v) es vs →
  same_value (Ok (vs, b)) (eval_args (eval hash_files c) es b).
Proof.
  intros Hall. revert b. induction Hall as [|e v es vs He _ IH]; intros b; [apply agrees_refl|]. cbn [eval_args].
  change (Ok (v :: vs, b)) with
    ('(v, b) ← (Ok (v, b) : result ExpressionError (value num * EvalBudget)); '(vs, b) ← Ok (vs, b); Ok (v :: vs, b)).
  apply same_value_bind.
  - unfold eval_expr in He. apply bind_Ok in He as ([v' b'] & He & [= <-]).
    pose proof (eval_same_value hash_files c e (mkBudget 0 0) b) as Hs. by rewrite He in Hs.
  - intros v0 b1 b2. apply same_value_bind; [|intros; apply same_value_ok].
    pose proof (IH b2) as Hi. exact Hi.
Qed.

Lemma eval_format_call c fmt es vs text :
  Forall2 (λ e v, eval_expr hash_files c e = Ok v) es vs → length es ≤ 254 →
  format_args (JString fmt :: vs) (mkBudget 0 0) = Ok text →
  eval_expr hash_files c (Call "format" (Literal (JString fmt) :: es)) = Ok (JString text) ∨
  ∃ err, eval_expr hash_files c (Call "format" (Literal (JString fmt) :: es)) = Err err ∧ resource_error err.
Proof.
  intros Hvs Hlen Hfmt. set (e := Call _ _).
  assert (same_value (Ok (JString text, mkBudget 0 0)) (eval hash_files c e (mkBudget 0 0))) as Hs.
  { rewrite eval_unfold. unfold eval_guard. cbn [eval_depth used_bytes].
    change (MAX_EXPRESSION_DEPTH <? 1) with false. cbv iota.
    set (b := mkBudget 0 1).
    change (Ok (JString text, mkBudget 0 0)) with
      ('(v, b) ← (Ok (JString text, b) : result ExpressionError (value num * EvalBudget)); Ok (v, mkBudget 0 0)).
    apply same_value_bind; [|intros; apply same_value_ok]. unfold eval_inner, e.
    change (Ok (JString text, b)) with
      ('(v, b) ← (Ok (JString text, b) : result ExpressionError (value num * EvalBudget)); Ok (v, b)).
    apply same_value_bind.
    2: { intros w b1 b2. unfold charge. repeat (case_match; try by apply agrees_refused). apply same_value_ok. }
    unfold eval_call. change (to_ascii_lowercase "format") with "format".
    assert (validate_function_arity "format" (length (Literal (JString fmt : value num) :: es)) = Ok tt) as ->.
    { unfold validate_function_arity. change (to_ascii_lowercase "format") with "format".
      change (function_arity "format") with (Some (1, 255)). cbn [length]. cbv beta iota zeta.
      change (str_eqb "format" "case") with false. cbn [andb].
      destruct (Nat.leb_spec 1 (S (length es))), (Nat.leb_spec (S (length es)) 255); done || lia. }
    cbn [mbind result_bind]. change (str_eqb "format" "case") with false. cbv iota.
    assert ((Ok (JString text, b) : result ExpressionError (value num * EvalBudget)) =
      ('(vs, b) ← Ok (JString fmt :: vs, b);
       v ← call_function hash_files "format" "format" vs c (mkBudget 0 0); Ok (v, b))) as ->.
    { cbn [mbind result_bind].
      change (call_function hash_files "format" "format" (JString fmt :: vs) c (mkBudget 0 0))
        with (JString (num:=num) <$> format_args (JString fmt :: vs) (mkBudget 0 0)).
      by rewrite Hfmt. }
    apply same_value_bind.
    - cbn [eval_args].
      change (Ok (JString fmt :: vs, b)) with
        ('(v, b) ← (Ok (JString fmt, b) : result ExpressionError (value num * EvalBudget)); '(vs, b) ← Ok (vs, b); Ok (v :: vs, b)).
      apply same_value_bind; [apply eval_literal_same|]. intros w b1 b2.
      apply same_value_bind; [exact (eval_args_values c b2 es vs Hvs)|]. intros. apply same_value_ok.
    - intros values b1 b2 x (y & (w & Hw & [= <-])%bind_Ok & ->)%result_fmap_Ok.
      destruct (call_function_agrees hash_files "format" "format" values c _ b2 w Hw) as [->|(err & -> & He)];
        [by left|right; by exists err]. }
  unfold eval_expr. destruct (Hs (JString text) eq_refl) as [([v b] & -> & [= <-])%result_fmap_Ok|(err & He & Hr)]; [by left|right].
  exists err. split; [|done]. destruct (eval hash_files c e (mkBudget 0 0)) as [p|err']; [done|]. by injection He as ->.
Qed.

(** A text that parses is not between markers: no token starts with [$]. *)
Lemma parsed_no_markers s e :
  utf8_ok s → parse_input (num:=num) (trim s) = Ok e → trim_expression_markers (trim s) = trim s.
Proof.
  intros Hu Hp. unfold trim_expression_markers. rewrite trim_trim by done.
  destruct (strip_prefix "${{" (trim s)) as [r|] eqn:Hr; [|done]. exfalso.
  apply strip_prefix_Some in Hr. revert Hp. unfold parse_input, lex. rewrite Hr.
  change (chars ("${{" +:+ r)) with (ch "$" :: chars ("{{" +:+ r)). rewrite lex_chars_cons.
  assert (∃ err, lex_step (ch "$") (chars ("{{" +:+ r)) = Err err) as [err ->] by (eexists; reflexivity).
  done.
Qed.

Lemma eval_piece_parsed c body e v :
  utf8_ok body → parse_input (trim body) = Ok e → eval_expr hash_files c e = Ok v →
  eval_piece hash_files c body = Ok v.
Proof.
  intros Hu Hp He. unfold eval_piece, eval_expression. rewrite (parsed_no_markers body e) by done.
  rewrite Hp. cbn [mbind result_bind]. by rewrite He.
Qed.

Lemma pieces_trees c (ps : list (string * string)) vs :
  Forall2 (λ p v, ∃ e, parse_input (trim p.2) = Ok e ∧ eval_expr hash_files c e = Ok v) ps vs →
  ∃ trees, Forall2 (λ s e, parse_input s = Ok e) (trim <$> ps.*2) trees ∧
    Forall2 (λ e v, eval_expr hash_files c e = Ok v) trees vs ∧ length trees = length ps.
Proof.
  induction 1 as [|p v ps vs (e & Hp & He) _ (trees & ? & ? & ?)]; [by exists []|].
  exists (e :: trees). split_and!; [by constructor|by constructor|]. simpl. lia.
Qed.

(** C28: a template means the same on the wire.  Take a text whose markers are
    closed, with literals around at most 254 expressions or with several of
    them, each of which parses and has a value, so that the text they make is
    at most a mebibyte.  It is sent as [format('...', e1, ..., en)]; the server's
    own resolution gives the literals with the values in between; and the call,
    read and evaluated in the same context, gives that very text, whatever
    quotes, braces and commas the literals and the expressions contain, unless
    it is refused as too deep or for the size of its values.  (From 255
    expressions on the call has too many arguments.) *)
Theorem format_template_spec c s ps t vs file_id :
  template s ps (Some t) → utf8_ok s → ps ≠ [] → length ps ≤ 254 → single_expression s = None →
  Forall2 (λ p v, ∃ e, parse_input (trim p.2) = Ok e ∧ eval_expr hash_files c e = Ok v) ps vs →
  (len (weave ps t vs) ≤ MAX_FORMAT_OUTPUT_BYTES)%N →
  ∃ call,
    template_string_token s file_id = expression_token file_id call ∧
    resolve_string hash_files s c = Ok (weave ps t vs) ∧
    (eval_expression hash_files call c = Ok (JString (weave ps t vs)) ∨
     ∃ err, eval_expression hash_files call c = Err err ∧ resource_error err).
Proof.
  intros Ht Hu Hne Hl Hs Hvs Hr. exists (call_text (format_text 0 ps t) (trim <$> ps.*2)).
  destruct (template_utf8_all s ps t Ht Hu) as [Hups Hut].
  pose proof (template_bodies_utf8 s ps (Some t) Ht Hu) as Hbodies.
  destruct (source_text_literal 0 ps t Hups Hut) as [Huf Hsrc].
  assert (Forall utf8_ok (trim <$> ps.*2)) as Hes.
  { rewrite !Forall_fmap. eapply Forall_impl; [exact Hbodies|]. intros p Hp. by apply trim_utf8_ok. }
  split_and!.
  - unfold template_string_token. rewrite Hs.
    assert (str_contains opener s = true) as ->.
    { destruct (str_contains opener s) eqn:Hc; [done|]. apply split_once_contains in Hc.
      inversion Ht as [| |l body s' ps' t' Hsl Hb Ht' He Hp]; subst; [done|].
      rewrite split_once_opener in Hc by done. done. }
    cbn [negb]. rewrite (format_parts_pieces _ s ps t "" [] Ht) by lia. f_equal.
    unfold format_call, call_text, args_text. rewrite string_literal_quoted, <- Hsrc. cbn [length app].
    change ("" +:+ source_text 0 ps t) with (source_text 0 ps t).
    by rewrite <- !app_assoc_string.
  - rewrite (resolve_string_pieces hash_files c s ps (Some t) Ht). apply resolve_pieces_weave.
    clear -Hvs Hbodies. induction Hvs as [|p v ps vs (e & Hp & He) _ IH]; [constructor|].
    apply Forall_cons in Hbodies as [Hb Hbodies]. constructor; [by apply (eval_piece_parsed c p.2 e v)|auto].
  - destruct (pieces_trees c ps vs Hvs) as (trees & Htrees & Hvals & Hlen).
    unfold eval_expression. rewrite call_text_markers by done.
    destruct (parse_call_text (format_text 0 ps t) _ trees Huf Hes) as [->| ->];
      [by destruct ps|exact Htrees| |right; by eexists].
    cbn [mbind result_bind]. apply (eval_format_call c _ _ vs); [done|lia|].
    unfold format_args. cbn [first_value head default from_option Datatypes.id string_value_bounded mbind result_bind].
    apply (scan_text (format_text 0 ps t) (JString (format_text 0 ps t)) vs (mkBudget 0 0) ps t 0 vs [] "" eq_refl
      (eq_sym (Forall2_length _ _ _ Hvs))); [lia|]. split; [done|]. etrans; [exact Hr|]. by vm_compute.
Qed.

End source.

(** ** Examples *)

Lemma template_sample :
  template "it's {${{ matrix.os }}} and ${{ 1 }}" [("it's {", " matrix.os "); ("} and ", " 1 ")] (Some "").
Proof.
  change "it's {${{ matrix.os }}} and ${{ 1 }}" with
    ("it's {" +:+ opener +:+ " matrix.os " +:+ closer +:+ ("} and " +:+ opener +:+ " 1 " +:+ closer +:+ "")).
  apply template_expr; [vm_compute; reflexivity..|]. apply template_expr; [vm_compute; reflexivity..|].
  apply template_end. vm_compute. reflexivity.
Qed.

Lemma format_template_spec_witness :
  ∃ call, template_string_token "it's {${{ matrix.os }}} and ${{ 1 }}" 1 = expression_token (num:=Z) 1 call ∧
    eval_expression no_files call (job_context (JObject [("os", JString "linux")])) = Ok (JString "it's {linux} and 1").
Proof.
  destruct (format_template_spec no_files (job_context (JObject [("os", JString "linux")])) "it's {${{ matrix.os }}} and ${{ 1 }}"
    [("it's {", " matrix.os "); ("} and ", " 1 ")] "" [JString "linux"; JNumber 1%Z] 1%Z)
    as (call & Htok & _ & Hcall).
  - exact template_sample.
  - by apply ascii_utf8_ok.
  - done.
  - simpl. lia.
  - vm_compute. reflexivity.
  - apply Forall2_cons_2; [|apply Forall2_cons_2; [|apply Forall2_nil_2]]; (eexists; split; [vm_compute; reflexivity|vm_compute; reflexivity]).
  - apply N.leb_le; vm_compute; reflexivity.
  - exists call. split; [exact Htok|]. destruct Hcall as [Hcall|(err & Hcall & Hres)]; [exact Hcall|].
    vm_compute in Htok. injection Htok as <-. vm_compute in Hcall. discriminate.
Defined.

(** A call of [format()] takes at most 255 arguments, so a text with 255
    expressions, which the server resolves, becomes a call the runner's
    evaluator refuses. *)
Definition many_expressions (n : nat) : string := join "" (replicate n "${{ 1 }}").

Example token_exceeds_format_arity :
  resolve_string no_files (many_expressions 255) (job_context JNull) = Ok (join "" (replicate 255 "1")) ∧
  (match format_parts (S (String.length (many_expressions 255))) (many_expressions 255) "" [] with
   | Some (fmt, es) => validate_expression (num:=Z) (format_call fmt es)
   | None => Ok tt
   end) = Err (InvalidFunctionArity "format" 1 255 256).
Proof. split; vm_compute; reflexivity. Qed.
