(* ===== verification/ExpandJobs.v ===== *)
(** * Expansion of the jobs of one workflow

    The part of [crates/preloop-gha-parser/src/expand.rs] that turns the jobs
    of one workflow file into plans: the context of an expression at expansion,
    the fields resolved per matrix cell (name, labels, deferred scalars,
    environment, steps), the expansion of a matrix and its deferral until the
    outputs of the needs exist. *)
From S2P Require Export WorkflowCheck TemplateTokens.

Section expand.
Context {num : Type} `{NumberOps num, JsonCodec num, UnicodeCase, HashOrder, NumberMake num, FloatText}.
Variable hash_files : list (value num) → option string → result ExpressionError string.
Abbreviation json := (value num).
Abbreviation row := (imap (value num)).
Implicit Types (matrix : row) (inputs : option (gmap string json)).

Definition eval_or_invalid (expression : string) (c : Context num) : result ParserError json :=
  map_err (λ e, InvalidExpression (expression_error_text e)) (eval_expression hash_files expression c).

(** ** The context of an expression at expansion *)

Definition input_text (v : json) : string :=
  match v with
  | JString s => s
  | JBool b => bool_string b
  | JNumber n => num_to_string n
  | JNull => ""
  | other => json_to_string other
  end.

Definition expansion_event inputs (event_name : option string) : string :=
  match event_name with
  | Some e => e
  | None => match inputs with
            | Some i => if bool_decide (i = ∅) then "push" else "workflow_dispatch"
            | None => "push"
            end
  end.

Definition expression_context matrix inputs (event_name : option string) : Context num :=
  let c := context_insert context_default "matrix" (JObject matrix) in
  let event := ("event_name", JString (expansion_event inputs event_name)) in
  match inputs with
  | Some i =>
      let c := context_insert c "inputs" (JObject (object_of (λ v, v) i)) in
      let strings := object_of (λ v, JString (input_text v)) i in
      context_insert c "github"
        (JObject [event; ("event", JObject [("inputs", JObject strings)])])
  | None => context_insert c "github" (JObject [event])
  end.

(** ** Fields resolved per cell *)

Definition resolved_job_name (name : option string) (base_id : string) matrix inputs : string :=
  match name with
  | Some raw => result_default raw (resolve_string hash_files raw (expression_context matrix inputs None))
  | None => display_job_name base_id matrix
  end.

Definition resolved_label matrix inputs (label : string) : list string :=
  if resolves_after_job_build (num:=num) label then [label]
  else resolve_runs_on_label hash_files label (expression_context matrix inputs None).

Definition nonblank (label : string) : bool := negb (str_eqb (trim label) "").

Definition resolved_runs_on (labels : list string) matrix inputs : list string :=
  let resolved := filter (λ l, Is_true (nonblank l)) (flat_map (resolved_label matrix inputs) labels) in
  if (length resolved =? 0) && negb (length labels =? 0) then labels else resolved.

Definition strip_markers (s : string) : option string :=
  t ← strip_prefix opener s; u ← strip_suffix closer t; Some (trim u).

Definition resolved_continue_on_error (job_id : string) (v : option JobContinueOnError) matrix :
    result ParserError bool :=
  match v with
  | None => Ok false
  | Some (ContinueBool b) => Ok b
  | Some (ContinueExpression e) =>
      let trimmed := trim e in
      if eq_ignore_ascii_case trimmed "true" then Ok true
      else if eq_ignore_ascii_case trimmed "false" then Ok false
      else
        expression ← ok_or (InvalidContinueOnError job_id "expected a boolean or `${{ }}` expression")
          (strip_markers trimmed);
        res ← map_err (λ e, InvalidContinueOnError job_id (expression_error_text e))
          (eval_expression hash_files expression
            (context_insert context_default "matrix" (JObject matrix)));
        ok_or (InvalidContinueOnError job_id
                ("expression returned " +:+ json_to_string res +:+ ", expected a boolean"))
          (as_bool res)
  end.

Definition resolve_deferred_bool (v : option DeferredBool) matrix inputs (default_ : bool) :
    result ParserError bool :=
  match v with
  | None => Ok default_
  | Some (BoolLiteral b) => Ok b
  | Some (BoolExpression e) =>
      res ← eval_or_invalid e (expression_context matrix inputs None);
      ok_or (InvalidExpression ("expression returned " +:+ json_to_string res +:+ ", expected a boolean"))
        (as_bool res)
  end.

Definition value_as_u64 (v : json) : option N :=
  match v with JNumber n => Z.to_N <$> as_u64 n | _ => None end.

Definition resolve_deferred_number (v : option DeferredNumber) matrix inputs :
    result ParserError (option N) :=
  match v with
  | None => Ok None
  | Some (NumberExpression e) =>
      res ← eval_or_invalid e (expression_context matrix inputs None);
      Some <$> ok_or (InvalidExpression
        ("expression returned " +:+ json_to_string res +:+ ", expected a number")) (value_as_u64 res)
  | Some (NumberLiteral n) => Ok (Some n)
  | Some (NumberFloat x) =>
      Some <$> ok_or (InvalidExpression ("expected a whole number, got " +:+ f64_to_string x))
        (literal (NumberFloat x))
  end.

Definition resolve_step_timeout (job_id step_label : string) (v : option DeferredNumber) matrix inputs
    (matrix_deferred : bool) : result ParserError (option N) :=
  resolved ← (if matrix_deferred then Ok (v ≫= literal) else resolve_deferred_number v matrix inputs);
  match resolved with
  | None => Ok None
  | Some n =>
      if ((1 <=? n) && (n <=? 360))%N then Ok (Some n)
      else Err (InvalidStepTimeout job_id step_label
             ("expected a value from 1 through 360, got " +:+ pretty n))
  end.

Definition non_empty_services (services : option json) : option json :=
  match services with Some (JObject []) => None | _ => services end.

(** ** Environments *)

Definition environment_text (environment : json) : option string :=
  match environment with
  | JString v => Some v
  | JObject m => imap_get "name" m ≫= as_str
  | _ => None
  end.

Definition resolved_environment (environment : json) matrix : option string :=
  v ← environment_text environment;
  expression ← strip_markers (trim v);
  key ← strip_prefix "matrix." expression;
  v ← imap_get key matrix;
  match v with
  | JString s => Some s
  | JNumber n => Some (num_to_string n)
  | JBool b => Some (bool_string b)
  | _ => None
  end.

Definition oidc_environment (environment : option json) matrix : option string :=
  environment ← environment;
  v ← environment_text environment;
  if starts_with opener (trim v) then resolved_environment environment matrix else Some v.

(** ** Steps *)

Definition pick (field : DefaultsRun → option string) (levels : list (option JobDefaults)) :
    option string :=
  head (omap (λ level : option JobDefaults, d ← level; run ← defaults_run d; field run) levels).

Definition step_plan (job_id : string) (step_index : nat) (step : Step num)
    (job_level workflow_level : option JobDefaults) matrix inputs (matrix_deferred : bool) :
    result ParserError (StepPlan num) :=
  let step_label := default ("step #" +:+ pretty step_index) (step_name step) in
  timeout ← resolve_step_timeout job_id step_label (step_timeout_minutes step) matrix inputs
              matrix_deferred;
  let inherited o field := match o with
                           | Some v => Some v
                           | None => pick field [job_level; workflow_level]
                           end in
  continue_on_error ←
    match step_continue_on_error step with
    | None => Ok None
    | Some (BoolLiteral b) => Ok (Some b)
    | Some v => if matrix_deferred then Ok None
                else Some <$> resolve_deferred_bool (Some v) matrix inputs false
    end;
  Ok (mkStepPlan (step_id step) (step_name step) (step_run step) (step_uses step)
    (into_strings (step_env step)) (step_with step) (step_if step)
    (inherited (step_working_directory step) default_working_directory) timeout
    (inherited (step_shell step) default_shell) continue_on_error).

Fixpoint step_plans (job_id : string) (step_index : nat) (steps : list (Step num))
    (job_level workflow_level : option JobDefaults) matrix inputs (matrix_deferred : bool) :
    result ParserError (list (StepPlan num)) :=
  match steps with
  | [] => Ok []
  | step :: steps =>
      p ← step_plan job_id step_index step job_level workflow_level matrix inputs matrix_deferred;
      ps ← step_plans job_id (S step_index) steps job_level workflow_level matrix inputs matrix_deferred;
      Ok (p :: ps)
  end.

(** ** One plan *)

Definition concurrency_fields (c : option ConcurrencyConfig) :
    option string * option string * option string :=
  match c with
  | Some c =>
      (Some (cc_group c), cc_cancel_in_progress c,
       Some match cc_queue c with Concurrency.Single => "single" | Concurrency.Max => "max" end)
  | None => (None, None, None)
  end.

Definition level_tokens (level : option JobDefaults) : list json :=
  option_list (defaults_run_token <$> (level ≫= defaults_run)).

Definition output_text (v : json) : string := default (json_to_string v) (as_str v).

Definition option_or {A} (o p : option A) : option A := match o with Some _ => o | None => p end.

Definition job_plan_from_job (job_id : string) (job : Job num) (expanded_id : string) matrix
    (matrix_index matrix_total : option nat) (env : gmap string string) (oidc_env : option string)
    (workflow_permissions : option json) (workflow_defaults : option JobDefaults) inputs
    (matrix_deferred : bool) : result ParserError (FullPlan num) :=
  let '(group_, cancel, queue) := concurrency_fields (job_concurrency job) in
  let strategy := job_strategy job in
  continue_on_error ←
    (if matrix_deferred
     then Ok match job_continue_on_error job with Some (ContinueBool b) => b | _ => false end
     else resolved_continue_on_error job_id (job_continue_on_error job) matrix);
  fail_fast_ ←
    (if matrix_deferred
     then Ok match strategy_fail_fast strategy with Some (BoolLiteral b) => b | _ => true end
     else resolve_deferred_bool (strategy_fail_fast strategy) matrix inputs true);
  max_parallel_ ←
    (if matrix_deferred then Ok (strategy_max_parallel strategy ≫= literal)
     else resolve_deferred_number (strategy_max_parallel strategy) matrix inputs);
  timeout ←
    (if matrix_deferred then Ok (job_timeout_minutes job ≫= literal)
     else resolve_deferred_number (job_timeout_minutes job) matrix inputs);
  steps ← step_plans job_id 0 (job_steps job) (job_defaults job) workflow_defaults matrix inputs
            matrix_deferred;
  let core := mkJobPlan expanded_id job_id (group (job_runs_on job))
                (resolved_runs_on (labels (job_runs_on job)) matrix inputs) (ids (job_needs job)) None
                (job_if job) fail_fast_ continue_on_error max_parallel_ in
  let declared := option_or (job_permissions job) workflow_permissions in
  Ok (mkFullPlan core (resolved_job_name (job_name job) job_id matrix inputs) matrix matrix_index
    matrix_total env steps false (job_container job) (non_empty_services (job_services job))
    (default ∅ inputs) None None None None ∅ (output_text <$> job_outputs job)
    (id_token_granted declared) (resolve_permissions (job_permissions job) workflow_permissions) oidc_env
    None (job_environment job) (level_tokens workflow_defaults ++ level_tokens (job_defaults job))
    group_ cancel queue None timeout).

(** ** Matrices *)

Inductive MatrixExpansion : Type :=
| Combinations (cells : list row)
| Deferred (expression : string).

Definition into_cells (m : MatrixExpansion) : list row * option string :=
  match m with
  | Combinations cells => (cells, None)
  | Deferred expression => ([[]], Some expression)
  end.

Definition reads_needs (s : string) : bool := str_contains "needs." s || str_contains "needs[" s.

Fixpoint contains_needs_expression (v : json) : bool :=
  match v with
  | JString s => str_contains opener s && reads_needs s
  | JArray vs => existsb contains_needs_expression vs
  | JObject m => existsb (λ kv, contains_needs_expression kv.2) m
  | _ => false
  end.

Definition matrix_contains_needs_expression (m : Matrix num) : bool :=
  existsb (λ kv, contains_needs_expression kv.2) (matrix_axes m)
  || existsb contains_needs_expression (matrix_include m)
  || existsb contains_needs_expression (matrix_exclude m).

Definition DEFERRED_MATRIX_SPEC_PREFIX : string := "__preloop_deferred_matrix_spec__:".

(** The serialized [Matrix]: its axes are flattened after the two lists. *)
Definition matrix_value (m : Matrix num) : json :=
  JObject ([("include", JArray (matrix_include m)); ("exclude", JArray (matrix_exclude m))]
           ++ matrix_axes m).
Definition encode_deferred_matrix_spec (m : Matrix num) : string :=
  DEFERRED_MATRIX_SPEC_PREFIX +:+ json_to_string (matrix_value m).

Definition matrix_cells (job_id : string) (spec : MatrixSpec num) : result ParserError (list row) :=
  rows ← try_expand_matrix_spec job_id spec;
  Ok (map values rows).

(** An [include] or [exclude] that is one expression: [Ok None] when it
    evaluates to null. *)
Definition resolve_entries_field (field : string) (vs : list json) inputs (event_name : option string) :
    result ParserError (option (list json)) :=
  match vs with
  | [JString expression] =>
      resolved ← eval_or_invalid expression (expression_context [] inputs event_name);
      match resolved with
      | JNull => Ok None
      | _ => Some <$> ok_or (InvalidExpression ("matrix " +:+ field +:+ " expression did not return an array"))
               (as_array resolved)
      end
  | _ => Ok (Some vs)
  end.

Definition expand_matrix (job_id : string) (matrix : option (MatrixValue num)) inputs
    (event_name : option string) : result ParserError MatrixExpansion :=
  match matrix with
  | None => Ok (Combinations [[]])
  | Some (MatrixExpression expression) =>
      if reads_needs expression then Ok (Deferred expression)
      else
        v ← eval_or_invalid expression (expression_context [] inputs event_name);
        match v with
        | JNull => Ok (Combinations [])
        | _ => spec ← value_to_matrix_spec job_id v; Combinations <$> matrix_cells job_id spec
        end
  | Some (MatrixStatic m) =>
      if matrix_contains_needs_expression m then Ok (Deferred (encode_deferred_matrix_spec m))
      else
        include ← resolve_entries_field "include" (matrix_include m) inputs event_name;
        match include with
        | None => Ok (Combinations [[]])
        | Some include =>
            exclude ← resolve_entries_field "exclude" (matrix_exclude m) inputs event_name;
            match exclude with
            | None => Ok (Combinations [[]])
            | Some exclude =>
                spec ← matrix_to_spec job_id (mkMatrix include exclude (matrix_axes m));
                Combinations <$> matrix_cells job_id spec
            end
        end
  end.

(** ** All jobs of a workflow *)

Definition set_deferred_matrix (d : option string) (p : FullPlan num) : FullPlan num :=
  let c := core p in
  mkFullPlan
    (mkJobPlan (id c) (base_id c) (runner_group c) (runs_on c) (needs c) d (if_condition c)
      (fail_fast c) (continue_on_error c) (max_parallel c))
    (plan_name p) (plan_matrix p) (plan_matrix_index p) (plan_matrix_total p) (plan_env p)
    (plan_steps p) (plan_secrets_inherit p) (plan_container p) (plan_services p) (plan_inputs p)
    (plan_workflow_file p) (plan_workflow_ref p) (plan_workflow_sha p) (plan_workflow_repository p)
    (plan_secrets_map p) (plan_job_outputs p) (plan_oidc_id_token_granted p) (plan_permissions p)
    (plan_oidc_environment p) (plan_oidc_job_workflow_ref p) (plan_environment p) (plan_defaults p)
    (plan_concurrency_group p) (plan_concurrency_cancel_in_progress p) (plan_concurrency_queue p)
    (plan_reusable_call p) (plan_timeout_minutes p).

(** The environment of a job: the workflow's, overridden by its own. *)
Definition job_environment_map (w : Workflow num) (job : Job num) : gmap string string :=
  into_strings (job_env job) ∪ into_strings (wf_env w).

(** The plans of the cells of one job, numbered from [index]. *)
Fixpoint cell_plans (w : Workflow num) (job_id : string) (job : Job num) inputs (deferred : option string)
    (total index : nat) (cells : list row) : result ParserError (list (FullPlan num)) :=
  match cells with
  | [] => Ok []
  | matrix :: cells =>
      let many := 1 <? total in
      plan ← job_plan_from_job job_id job (expanded_job_id job_id matrix) matrix
               (if many then Some (index + 1) else None) (if many then Some total else None)
               (job_environment_map w job) (oidc_environment (job_environment job) matrix)
               (wf_permissions w) (wf_defaults w) inputs (bool_decide (is_Some deferred));
      plans ← cell_plans w job_id job inputs deferred total (S index) cells;
      Ok (set_deferred_matrix deferred plan :: plans)
  end.

Definition expand_job (w : Workflow num) inputs (event_name : option string) (job_id : string)
    (job : Job num) : result ParserError (list (FullPlan num)) :=
  expansion ← expand_matrix job_id (strategy_matrix (job_strategy job)) inputs event_name;
  let '(cells, deferred) := into_cells expansion in
  cell_plans w job_id job inputs deferred (length cells) 0 cells.

(** [dag::validate_job_plans]; the search never runs out of fuel
    ([validate_job_plans_total]). *)
Definition validate_plans (plans : list (FullPlan num)) : result ParserError unit :=
  default (Err (NeedsCycle "")) (validate_job_plans num (core <$> plans)).

Fixpoint expand_all (w : Workflow num) (jobs : imap (Job num)) : result ParserError (list (FullPlan num)) :=
  match jobs with
  | [] => Ok []
  | (job_id, job) :: jobs =>
      plans ← expand_job w None None job_id job;
      rest ← expand_all w jobs;
      Ok (plans ++ rest)
  end.

Definition expand_jobs (w : Workflow num) : result ParserError (list (FullPlan num)) :=
  plans ← expand_all w (wf_jobs w);
  _ ← validate_plans plans;
  Ok plans.

(** ** Deferred matrices *)

(** [rsplit_once('/')], its tail. *)
Fixpoint after_last_slash (key bare : string) : string :=
  match key with
  | EmptyString => bare
  | String a r => after_last_slash r (if decide (a = "/"%char) then r else bare)
  end.
Definition callee_local_key (key : string) : string := after_last_slash key key.

Fixpoint resolve_matrix_spec_templates (v : json) (c : Context num) : result ParserError json :=
  match v with
  | JString raw =>
      if str_contains opener raw then
        expression ← ok_or (InvalidExpression ("invalid deferred matrix expression " +:+ ticked raw))
          (strip_markers (trim raw));
        eval_or_invalid expression c
      else Ok v
  | JArray vs =>
      JArray <$> (fix each vs :=
        match vs with
        | [] => Ok []
        | v :: vs => r ← resolve_matrix_spec_templates v c; rs ← each vs; Ok (r :: rs)
        end) vs
  | JObject m =>
      JObject <$> (fix members (m : row) :=
        match m with
        | [] => Ok []
        | (k, v) :: m => r ← resolve_matrix_spec_templates v c; rs ← members m; Ok ((k, r) :: rs)
        end) m
  | _ => Ok v
  end.

Definition needs_value (needs_outputs : gmap string (gmap string json)) : json :=
  JObject (foldl (λ m '(need_id, outputs),
      imap_insert (callee_local_key need_id) (JObject [("outputs", JObject (object_of (λ v, v) outputs))]) m)
    [] (map_entries needs_outputs)).

Definition deferred_context (needs_outputs : gmap string (gmap string json)) inputs : Context num :=
  let c := context_insert context_default "needs" (needs_value needs_outputs) in
  match inputs with
  | Some i => context_insert c "inputs" (JObject (object_of (λ v, v) i))
  | None => c
  end.

Definition resolve_deferred_matrix_cells (job_id expression : string)
    (needs_outputs : gmap string (gmap string json)) inputs : result ParserError (list row) :=
  let c := deferred_context needs_outputs inputs in
  v ← match strip_prefix DEFERRED_MATRIX_SPEC_PREFIX expression with
      | Some encoded =>
          spec ← map_err InvalidExpression (json_from_str encoded);
          resolve_matrix_spec_templates spec c
      | None => eval_or_invalid expression c
      end;
  spec ← value_to_matrix_spec job_id v;
  matrix_cells job_id spec.

(** The prefix of a run id, with its slash. *)
Definition needs_prefix (job_id : string) : string :=
  str_take (String.length job_id - String.length (callee_local_key job_id)) job_id.

Definition set_needs (ns : list string) (p : FullPlan num) : FullPlan num :=
  let c := core p in
  mkFullPlan
    (mkJobPlan (id c) (base_id c) (runner_group c) (runs_on c) ns (deferred_matrix c) (if_condition c)
      (fail_fast c) (continue_on_error c) (max_parallel c))
    (plan_name p) (plan_matrix p) (plan_matrix_index p) (plan_matrix_total p) (plan_env p)
    (plan_steps p) (plan_secrets_inherit p) (plan_container p) (plan_services p) (plan_inputs p)
    (plan_workflow_file p) (plan_workflow_ref p) (plan_workflow_sha p) (plan_workflow_repository p)
    (plan_secrets_map p) (plan_job_outputs p) (plan_oidc_id_token_granted p) (plan_permissions p)
    (plan_oidc_environment p) (plan_oidc_job_workflow_ref p) (plan_environment p) (plan_defaults p)
    (plan_concurrency_group p) (plan_concurrency_cancel_in_progress p) (plan_concurrency_queue p)
    (plan_reusable_call p) (plan_timeout_minutes p).

Definition find_job (w : Workflow num) (job_id : string) : option (Job num) :=
  option_or (imap_get job_id (wf_jobs w)) (imap_get (callee_local_key job_id) (wf_jobs w)).

Definition expand_deferred_matrix_job (w : Workflow num) (job_id expression : string)
    (needs_outputs : gmap string (gmap string json)) inputs : result ParserError (list (FullPlan num)) :=
  job ← ok_or (InvalidExpression ("job " +:+ ticked job_id +:+ " not found in workflow"))
    (find_job w job_id);
  combinations ← resolve_deferred_matrix_cells job_id expression needs_outputs inputs;
  plans ← cell_plans w job_id job inputs None (length combinations) 0 combinations;
  Ok (map (λ p, set_needs (map (λ need, needs_prefix job_id +:+ need) (needs (core p))) p) plans).

End expand.

(** ** Lemmas *)
Section lemmas.
Context {num : Type} `{NumberOps num, JsonCodec num, UnicodeCase, HashOrder, NumberMake num, FloatText}.
Variable hash_files : list (value num) → option string → result ExpressionError string.
Abbreviation row := (imap (value num)).
Implicit Types (job : Job num) (matrix : row) (p : FullPlan num).

Lemma validate_job_plans_total plans : ∃ r, validate_job_plans num plans = Some r.
Proof.
  unfold validate_job_plans. destruct (build_graph plans plans ∅) as [graph|e]; [|by eexists].
  destruct (detect_needs_cycle_cases graph) as (r & -> & _). simpl. by eexists.
Qed.

Lemma resolved_runs_on_nil labels matrix inputs :
  resolved_runs_on hash_files labels matrix inputs = [] ↔ labels = [].
Proof.
  unfold resolved_runs_on. destruct labels as [|l ls]; [done|].
  set (resolved := filter _ _). destruct resolved; simpl; split; intros; congruence.
Qed.

(** What a step of the workflow becomes in a plan. *)
Definition step_kept (s : Step num) (sp : StepPlan num) : Prop :=
  sp_id sp = step_id s ∧ sp_run sp = step_run s ∧ sp_uses sp = step_uses s ∧
  sp_if_condition sp = step_if s ∧ ∀ n, sp_timeout_in_minutes sp = Some n → (1 <= n <= 360)%N.

Lemma resolve_step_timeout_ok job_id label v matrix inputs deferred r n :
  resolve_step_timeout hash_files job_id label v matrix inputs deferred = Ok r → r = Some n →
  (1 <= n <= 360)%N.
Proof.
  unfold resolve_step_timeout. intros Hr ->.
  destruct (if deferred then _ else _) as [[m|]|]; simpl in Hr; [|done..].
  destruct ((1 <=? m) && (m <=? 360))%N eqn:Hm; [|done]. injection Hr as ->.
  apply andb_true_iff in Hm as [?%N.leb_le ?%N.leb_le]. done.
Qed.

Lemma step_plans_ok job_id i steps jl wl matrix inputs deferred ps :
  step_plans hash_files job_id i steps jl wl matrix inputs deferred = Ok ps →
  Forall2 step_kept steps ps.
Proof.
  revert i ps. induction steps as [|s steps IH]; intros i ps; simpl.
  { intros [= <-]. constructor. }
  intros (p & Hp & (ps' & Hps & [= <-])%bind_Ok)%bind_Ok. constructor; [|by eapply IH].
  unfold step_plan in Hp. apply bind_Ok in Hp as (t & Ht & (c & Hc & [= <-])%bind_Ok).
  cbn. split_and!; [done..|]. intros n Hn. by eapply resolve_step_timeout_ok.
Qed.

(** What one cell of a job becomes. *)
Record plan_of_cell (job_id : string) job inputs (deferred : option string) (total index : nat)
    matrix p : Prop := {
  cell_id : id (core p) = expanded_job_id job_id matrix;
  cell_base : base_id (core p) = job_id;
  cell_matrix : plan_matrix p = matrix;
  cell_needs : needs (core p) = ids (job_needs job);
  cell_deferred : deferred_matrix (core p) = deferred;
  cell_if : if_condition (core p) = job_if job;
  cell_index : plan_matrix_index p = if 1 <? total then Some (index + 1) else None;
  cell_total : plan_matrix_total p = if 1 <? total then Some total else None;
  cell_runs_on : runs_on (core p) = [] ↔ labels (job_runs_on job) = [];
  cell_inputs : plan_inputs p = default ∅ inputs;
  cell_steps : Forall2 step_kept (job_steps job) (plan_steps p);
}.

Lemma job_plan_cell job_id job matrix env oe wp wd inputs deferred total index p :
  job_plan_from_job hash_files job_id job (expanded_job_id job_id matrix) matrix
    (if 1 <? total then Some (index + 1) else None) (if 1 <? total then Some total else None)
    env oe wp wd inputs (bool_decide (is_Some deferred)) = Ok p →
  plan_of_cell job_id job inputs deferred total index matrix (set_deferred_matrix deferred p).
Proof.
  unfold job_plan_from_job. destruct (concurrency_fields (job_concurrency job)) as [[g c] q].
  intros (? & _ & (? & _ & (? & _ & (? & _ & (ps & Hps & [= <-])%bind_Ok)%bind_Ok)%bind_Ok)%bind_Ok)%bind_Ok.
  split; [done..|apply resolved_runs_on_nil|done|by eapply step_plans_ok].
Qed.

Lemma cell_plans_ok w job_id job inputs deferred total index cells plans :
  cell_plans hash_files w job_id job inputs deferred total index cells = Ok plans →
  length plans = length cells ∧
  ∀ i cell p, cells !! i = Some cell → plans !! i = Some p →
    plan_of_cell job_id job inputs deferred total (index + i) cell p.
Proof.
  revert index plans. induction cells as [|cell cells IH]; intros index plans; simpl.
  { intros [= <-]. done. }
  intros (p & Hp & (ps & Hps & [= <-])%bind_Ok)%bind_Ok.
  apply job_plan_cell in Hp. apply IH in Hps as [Hl Hps]. split; [by simpl; rewrite Hl|].
  intros [|i] cell' p'; simpl; [intros [= <-] [= <-]; by rewrite Nat.add_0_r|].
  intros Hc Hi. rewrite <- Nat.add_succ_comm. by apply Hps.
Qed.
End lemmas.

(** The plans of one job, in the order of its matrix cells.  Each has the
    id of its cell and, when there are several, its number and the total; it
    keeps the needs, the condition and the steps of the job, carries the
    expression a deferred matrix waits for, has step timeouts from 1 to 360
    minutes, and never loses all of its declared labels, which would let any
    runner take it. *)
Theorem expand_job_plans {num} `{NumberOps num, JsonCodec num, UnicodeCase, HashOrder, NumberMake num, FloatText}
    hash_files (w : Workflow num) inputs event_name job_id job plans :
  expand_job hash_files w inputs event_name job_id job = Ok plans →
  ∃ cells deferred,
    into_cells <$> expand_matrix hash_files job_id (strategy_matrix (job_strategy job)) inputs event_name =
      Ok (cells, deferred) ∧
    length plans = length cells ∧
    ∀ i cell p, cells !! i = Some cell → plans !! i = Some p →
      plan_of_cell job_id job inputs deferred (length cells) i cell p.
Proof.
  unfold expand_job. intros (m & Hm & Hp)%bind_Ok. rewrite Hm. cbn [fmap result_fmap].
  destruct (into_cells m) as [cells deferred]. exists cells, deferred. split; [done|].
  by apply cell_plans_ok in Hp.
Qed.

(** ** A deferred matrix is the static matrix of its values *)
Section deferred.
Context {num : Type} `{NumberOps num, JsonCodec num, UnicodeCase, HashOrder, NumberMake num, FloatText}.
Variable hash_files : list (value num) → option string → result ExpressionError string.
Implicit Types (m : Matrix num).

Definition plain_axes m : Prop :=
  ("include" ∉ (matrix_axes m).*1) ∧ ("exclude" ∉ (matrix_axes m).*1).

(** The serialized form is read back as the specification of the matrix. *)
Lemma value_to_matrix_spec_serialized job_id m spec :
  plain_axes m →
  (value_to_matrix_spec job_id (matrix_value m) = Ok spec) ↔ matrix_to_spec job_id m = Ok spec.
Proof.
  intros [Hi He]. unfold value_to_matrix_spec, matrix_value, matrix_to_spec. cbn [app spec_members].
  change (str_eqb "include" "include") with true. change (str_eqb "exclude" "include") with false.
  change (str_eqb "exclude" "exclude") with true.
  cbn [as_array ok_or mbind result_bind].
  pose proof (spec_members_axes job_id (matrix_axes m) []) as Hax. rewrite app_nil_r in Hax.
  destruct (matrix_entries job_id "include" (matrix_include m)) as [inc|]; cbn [mbind result_bind];
    destruct (matrix_entries job_id "exclude" (matrix_exclude m)) as [exc|]; cbn [mbind result_bind]; try done.
  rewrite Hax by done. done.
Qed.

(** No template is left to evaluate. *)
Definition settled m : Prop :=
  plain_axes m ∧ matrix_contains_needs_expression m = false ∧
  (∀ s, matrix_include m ≠ [JString s]) ∧ (∀ s, matrix_exclude m ≠ [JString s]).

Lemma resolve_entries_settled field (vs : list (value num)) inputs event_name :
  (∀ s, vs ≠ [JString s]) → resolve_entries_field hash_files field vs inputs event_name = Ok (Some vs).
Proof. intros Hv. destruct vs as [|[] []]; try done. by destruct (Hv s). Qed.

Lemma expand_settled job_id m inputs event_name :
  settled m →
  expand_matrix hash_files job_id (Some (MatrixStatic m)) inputs event_name =
  (spec ← matrix_to_spec job_id m; (Combinations <$> matrix_cells job_id spec)).
Proof.
  intros (_ & Hn & Hi & He). unfold expand_matrix. rewrite Hn, resolve_entries_settled by done.
  cbn [mbind result_bind]. rewrite resolve_entries_settled by done. cbn [mbind result_bind].
  by destruct m.
Qed.
End deferred.

(** C22: a matrix that reads the outputs of its needs is kept back whole, and
    yields the cells of a static one. Take a matrix whose serialized
    specification reads back, and suppose that resolving the templates in it
    with the outputs of the needs gives the specification of a matrix without
    templates. Then the run-time path through the serialized specification
    gives exactly the cells that the expansion gives for that static matrix,
    or fails when it does. The values stand where their expressions stood: one
    expression for a whole [include] or [exclude] list becomes an array inside
    the list, unlike in a matrix that is evaluated at once. *)
Theorem deferred_matrix_is_static {num}
    `{NumberOps num, JsonCodec num, UnicodeCase, HashOrder, NumberMake num, FloatText}
    hash_files job_id (m m' : Matrix num) needs_outputs inputs inputs' event_name :
  matrix_contains_needs_expression m = true →
  json_from_str (json_to_string (matrix_value m)) = Ok (matrix_value m) →
  resolve_matrix_spec_templates hash_files (matrix_value m) (deferred_context needs_outputs inputs) =
    Ok (matrix_value m') →
  settled m' →
  ∃ expression,
    expand_matrix hash_files job_id (Some (MatrixStatic m)) inputs' event_name = Ok (Deferred expression) ∧
    ∀ cells,
      resolve_deferred_matrix_cells hash_files job_id expression needs_outputs inputs = Ok cells ↔
      expand_matrix hash_files job_id (Some (MatrixStatic m')) inputs' event_name = Ok (Combinations cells).
Proof.
  intros Hn Hcodec Hsub Hset. eexists. unfold expand_matrix at 1. rewrite Hn. split; [done|].
  intros cells. rewrite (expand_settled hash_files) by done.
  unfold resolve_deferred_matrix_cells, encode_deferred_matrix_spec.
  rewrite strip_prefix_app. rewrite Hcodec. cbn [map_err mbind result_bind]. rewrite Hsub.
  cbn [mbind result_bind].
  pose proof (λ spec, value_to_matrix_spec_serialized job_id m' spec (proj1 Hset)) as Hspec.
  destruct (value_to_matrix_spec job_id (matrix_value m')) as [spec|e].
  - rewrite (proj1 (Hspec spec) eq_refl). cbn [mbind result_bind].
    destruct (matrix_cells job_id spec); cbn [fmap result_fmap]; split; congruence.
  - destruct (matrix_to_spec job_id m') as [spec'|e']; [by destruct (proj2 (Hspec spec') eq_refl)|done].
Qed.

(** ** Examples *)

#[export] Instance Z_float_text : FloatText := { f64_to_string x := pretty (f64_trunc x) }.

(** A codec that knows the texts of a table, and scalars. *)
Definition table_codec (table : list (string * value Z)) : JsonCodec Z := {|
  json_from_str s := match imap_get s table with Some v => Ok v | None => @json_from_str Z Z_codec s end;
  json_writes v := match list_find (λ kv, value_eqb kv.2 v = true) table with
                   | Some (_, (s, _)) => [s]
                   | None => [scalar_text v]
                   end;
  json_writes_pretty v := [scalar_text v];
|}.

Definition modules_expression : string := "${{ fromJSON(needs.detect.outputs.modules) }}".
Definition module_matrix (modules : value Z) : Matrix Z := mkMatrix [] [] [("module", modules)].
Definition detect_outputs : gmap string (gmap string (value Z)) :=
  {["ci/detect" := {["modules" := JString "MODULES"]}]}.
Definition module_list : value Z := JArray [JString "core"; JString "web"].
Definition module_codec (m : Matrix Z) : JsonCodec Z :=
  table_codec [("SPEC", matrix_value m); ("MODULES", module_list)].

Lemma deferred_matrix_is_static_witness :
  resolve_deferred_matrix_cells (H0 := module_codec (module_matrix (JString modules_expression)))
    no_files "ci/lint" "__preloop_deferred_matrix_spec__:SPEC" detect_outputs None =
  Ok [[("module", JString "core")]; [("module", JString "web")]].
Proof.
  pose proof (deferred_matrix_is_static (H0 := module_codec (module_matrix (JString modules_expression)))
    no_files "ci/lint" (module_matrix (JString modules_expression)) (module_matrix module_list)
    detect_outputs None None None) as Hd.
  destruct Hd as (e & He & Hc).
  - vm_compute. reflexivity.
  - vm_compute. reflexivity.
  - vm_compute. reflexivity.
  - split; [split; apply (bool_decide_unpack _); vm_compute; reflexivity|].
    split_and!; [vm_compute; reflexivity|discriminate|discriminate].
  - vm_compute in He. injection He as <-. apply Hc. vm_compute. reflexivity.
Defined.

(** Two cells of a matrix. *)
Lemma expand_job_plans_witness :
  ∃ plans : list (FullPlan Z),
    expand_job no_files (sample_workflow (Trigger.Single "push") []) None None "test"
      (run_job (RunsOnSingle "${{ matrix.os }}") ["build"]
        (Some (MatrixStatic (mkMatrix [] [] [("os", JArray [JString "linux"; JString "mac"])])))
        [sample_step "make"]) = Ok plans ∧
    length plans = 2 ∧ ∀ p, plans !! 1 = Some p → id (core p) = "test (mac)".
Proof.
  destruct (expand_job no_files (sample_workflow (Trigger.Single "push") []) None None "test"
      (run_job (RunsOnSingle "${{ matrix.os }}") ["build"]
        (Some (MatrixStatic (mkMatrix [] [] [("os", JArray [JString "linux"; JString "mac"])])))
        [sample_step "make"])) as [plans|e] eqn:He; [|by vm_compute in He].
  destruct (expand_job_plans _ _ _ _ _ _ _ He) as (cells & d & Hm & Hl & Hp).
  vm_compute in Hm. injection Hm as <- <-. exists plans. split_and!; [done|by rewrite Hl|].
  intros p Hi. destruct (Hp 1 _ p eq_refl Hi) as [-> _ _ _ _ _ _ _ _ _ _]. vm_compute. reflexivity.
Defined.

(** An [include] that is one expression is read as a list with that
    expression.  Where it can be evaluated at once its array replaces the list,
    but the run-time path puts the array inside it, so a matrix such as
    [include: ${{ fromJSON(needs.detect.outputs.modules) }}] always fails. *)
Example deferred_include_fails :
  let m := mkMatrix [JString modules_expression] [] [] in
  let rows := JArray [JObject [("module", JString "core")]] in
  let codec := table_codec [("SPEC", matrix_value m); ("MODULES", rows)] in
  expand_matrix no_files "lint" (Some (MatrixStatic m)) None None =
    Ok (Deferred (encode_deferred_matrix_spec m)) ∧
  resolve_deferred_matrix_cells (H0 := codec) no_files "lint" "__preloop_deferred_matrix_spec__:SPEC"
    detect_outputs None = Err (InvalidMatrixEntry "lint" "include") ∧
  expand_matrix (H0 := codec) no_files "lint"
    (Some (MatrixStatic (mkMatrix [JString "${{ fromJSON('MODULES') }}"] [] []))) None None =
    Ok (Combinations [[("module", JString "core")]]).
Proof. vm_compute. done. Qed.

(** A label expression that yields nothing leaves the labels as written. *)
Example empty_labels_are_kept :
  resolved_runs_on no_files ["${{ matrix.os }}"] [("os", JString " ")] None = ["${{ matrix.os }}"] ∧
  resolved_runs_on no_files ["${{ matrix.os }}"; "x64"] [("os", JArray [JString "a"; JString ""])] None =
    ["a"; "x64"].
Proof. vm_compute. done. Qed.
