(* ===== verification/CallTree.v ===== *)
(** * The tree of reusable workflow calls

    [validate_reusable_workflow_tree] of
    [crates/preloop-gha-parser/src/expand.rs]: before anything is expanded the
    calls of a workflow are walked depth first, to bound how deep they nest and
    how many workflows they name, and to refuse a workflow that calls itself.

    The walk has one unit of fuel per nesting level; [call_tree_bounded] shows
    that the depth limit stops it before the fuel does. *)
From S2P Require Export WorkflowCheck ReusableRefs.

Definition MAX_WORKFLOW_DEPTH : nat := 10.
Definition MAX_REUSABLE_WORKFLOW_DEPTH : nat := MAX_WORKFLOW_DEPTH - 1.
Definition MAX_UNIQUE_REUSABLE_WORKFLOWS : nat := 50.

Section tree.
Context {num : Type} `{NumberOps num, JsonCodec num, UnicodeCase, HashOrder, NumberMake num, WorkflowReaders num}.
Variables (reusable_workflows reusable_workflow_shas : gmap string string).
Implicit Types (origin : option string) (job : Job num) (js : list (Job num)) (unique : gset string).

(** The text of a called workflow, under its reference or its path. *)
Definition callee_yaml (uses : string) : option string :=
  match reusable_workflows !! uses with
  | Some yaml => Some yaml
  | None => reusable_workflows !! normalize_reusable_path uses
  end.
(** Where the references of a called workflow are resolved. *)
Definition callee_origin (uses : string) : option string :=
  if is_local_workflow_ref uses then None else Some uses.

Definition visited : Type := option (result ParserError (gset string)).

(** One job of the loop; [walk] is the recursive call. *)
Definition visit_job (walk : Workflow num → option string → nat → list string → gset string → visited)
    origin (depth : nat) (call_chain : list string) job unique : visited :=
  match job_uses job with
  | None => Some (Ok unique)
  | Some declared =>
      if MAX_REUSABLE_WORKFLOW_DEPTH <=? depth then Some (Err MaxNestingDepthExceeded)
      else
        match callee_reference declared origin reusable_workflow_shas with
        | Err e => Some (Err e)
        | Ok uses =>
            let path := normalize_reusable_path uses in
            if bool_decide (path ∈ call_chain) then Some (Err MaxNestingDepthExceeded)
            else
              let unique := {[path]} ∪ unique in
              if MAX_UNIQUE_REUSABLE_WORKFLOWS <? size unique
              then Some (Err (MaxReusableWorkflowsExceeded (size unique) MAX_UNIQUE_REUSABLE_WORKFLOWS))
              else
                match callee_yaml uses with
                | None => Some (Ok unique)
                | Some yaml =>
                    match parse_workflow yaml with
                    | Err e => Some (Err e)
                    | Ok called => walk called (callee_origin uses) (S depth) (call_chain ++ [path]) unique
                    end
                end
        end
  end.

Fixpoint visit_jobs (walk : Workflow num → option string → nat → list string → gset string → visited)
    origin (depth : nat) (call_chain : list string) js unique : visited :=
  match js with
  | [] => Some (Ok unique)
  | job :: js =>
      match visit_job walk origin depth call_chain job unique with
      | Some (Ok unique) => visit_jobs walk origin depth call_chain js unique
      | r => r
      end
  end.

Fixpoint validate_reusable_workflow_tree (fuel : nat) (w : Workflow num) origin (depth : nat)
    (call_chain : list string) unique : visited :=
  match fuel with
  | 0 => None
  | S fuel =>
      visit_jobs (validate_reusable_workflow_tree fuel) origin depth call_chain (wf_jobs w).*2 unique
  end.

(** The check the expansion starts with. *)
Definition validate_call_tree (w : Workflow num) : result ParserError unit :=
  match validate_reusable_workflow_tree MAX_WORKFLOW_DEPTH w None 0 [] ∅ with
  | Some (Ok _) => Ok tt
  | Some (Err e) => Err e
  | None => Err MaxNestingDepthExceeded
  end.

(** ** Chains of calls *)

(** [calls origin js ps]: some job of [js] starts a chain of calls through the
    workflows at the paths [ps]. *)
Inductive calls : option string → list (Job num) → list string → Prop :=
| calls_last origin js job declared uses :
    job ∈ js → job_uses job = Some declared →
    callee_reference declared origin reusable_workflow_shas = Ok uses →
    calls origin js [normalize_reusable_path uses]
| calls_step origin js job declared uses yaml called ps :
    job ∈ js → job_uses job = Some declared →
    callee_reference declared origin reusable_workflow_shas = Ok uses →
    callee_yaml uses = Some yaml → parse_workflow yaml = Ok called →
    calls (callee_origin uses) (wf_jobs called).*2 ps →
    calls origin js (normalize_reusable_path uses :: ps).

(** [n] calls nest below each other; the innermost one is only written. *)
Inductive nested : option string → list (Job num) → nat → Prop :=
| nested_one origin js job declared :
    job ∈ js → job_uses job = Some declared → nested origin js 1
| nested_step origin js job declared uses yaml called n :
    job ∈ js → job_uses job = Some declared →
    callee_reference declared origin reusable_workflow_shas = Ok uses →
    callee_yaml uses = Some yaml → parse_workflow yaml = Ok called →
    nested (callee_origin uses) (wf_jobs called).*2 n → nested origin js (S n).

(** A reference or a file on some chain is refused for its own sake. *)
Inductive refused : option string → list (Job num) → ParserError → Prop :=
| refused_reference origin js job declared e :
    job ∈ js → job_uses job = Some declared →
    callee_reference declared origin reusable_workflow_shas = Err e → refused origin js e
| refused_file origin js job declared uses yaml e :
    job ∈ js → job_uses job = Some declared →
    callee_reference declared origin reusable_workflow_shas = Ok uses →
    callee_yaml uses = Some yaml → parse_workflow yaml = Err e → refused origin js e
| refused_inside origin js job declared uses yaml called e :
    job ∈ js → job_uses job = Some declared →
    callee_reference declared origin reusable_workflow_shas = Ok uses →
    callee_yaml uses = Some yaml → parse_workflow yaml = Ok called →
    refused (callee_origin uses) (wf_jobs called).*2 e → refused origin js e.

Definition reached origin js (p : string) : Prop := ∃ ps, calls origin js ps ∧ p ∈ ps.

(** What the walk may say of the jobs [js] at [depth] below [chain]. *)
Definition walk_ok origin (depth : nat) (chain : list string) js unique (r : result ParserError (gset string)) :
    Prop :=
  match r with
  | Ok unique' =>
      unique ⊆ unique' ∧ size unique' ≤ MAX_UNIQUE_REUSABLE_WORKFLOWS ∧
      (∀ p, p ∈ unique' → p ∈ unique ∨ reached origin js p) ∧
      (∀ n, nested origin js n → depth + n ≤ MAX_REUSABLE_WORKFLOW_DEPTH) ∧
      ∀ ps, calls origin js ps → NoDup (chain ++ ps) ∧ ∀ p, p ∈ ps → p ∈ unique'
  | Err e =>
      (e = MaxNestingDepthExceeded ∧
         ((∃ n, nested origin js n ∧ MAX_REUSABLE_WORKFLOW_DEPTH < depth + n) ∨
          ∃ ps, calls origin js ps ∧ ¬ NoDup (chain ++ ps))) ∨
      (∃ many : gset string, e = MaxReusableWorkflowsExceeded (size many) MAX_UNIQUE_REUSABLE_WORKFLOWS ∧
         MAX_UNIQUE_REUSABLE_WORKFLOWS < size many ∧ ∀ p, p ∈ many → p ∈ unique ∨ reached origin js p) ∨
      refused origin js e
  end.

Lemma calls_mono origin js js' ps : js ⊆ js' → calls origin js ps → calls origin js' ps.
Proof. intros Hs Hc. destruct Hc; [eapply calls_last|eapply calls_step]; eauto. Qed.

Lemma nested_mono origin js js' n : js ⊆ js' → nested origin js n → nested origin js' n.
Proof. intros Hs Hc. destruct Hc; [eapply nested_one|eapply nested_step]; eauto. Qed.

Lemma refused_mono origin js js' e : js ⊆ js' → refused origin js e → refused origin js' e.
Proof.
  intros Hs Hc. destruct Hc; [eapply refused_reference|eapply refused_file|eapply refused_inside]; eauto.
Qed.

Lemma reached_mono origin js js' p : js ⊆ js' → reached origin js p → reached origin js' p.
Proof. intros Hs (ps & Hc & Hp). exists ps. split; [by eapply calls_mono|done]. Qed.

Lemma elem_of_one job : job ∈ [job].
Proof. by apply list_elem_of_singleton. Qed.

Lemma calls_cons origin job js ps :
  calls origin (job :: js) ps → calls origin [job] ps ∨ calls origin js ps.
Proof.
  intros Hc. inversion Hc as [? ? j ? ? Hj|? ? j ? ? ? ? ? Hj]; subst;
    apply elem_of_cons in Hj as [->|Hj]; [left|right|left|right];
    [eapply calls_last|eapply calls_last|eapply calls_step|eapply calls_step]; eauto using elem_of_one.
Qed.

Lemma nested_cons origin job js n :
  nested origin (job :: js) n → nested origin [job] n ∨ nested origin js n.
Proof.
  intros Hc. inversion Hc as [? ? j ? Hj|? ? j ? ? ? ? ? Hj]; subst;
    apply elem_of_cons in Hj as [->|Hj]; [left|right|left|right];
    [eapply nested_one|eapply nested_one|eapply nested_step|eapply nested_step]; eauto using elem_of_one.
Qed.

Lemma calls_nil origin ps : ¬ calls origin [] ps.
Proof. intros Hc. inversion Hc as [? ? ? ? ? Hj|? ? ? ? ? ? ? ? Hj]; subst; by apply elem_of_nil in Hj. Qed.

Lemma nested_nil origin n : ¬ nested origin [] n.
Proof. intros Hc. inversion Hc as [? ? ? ? Hj|? ? ? ? ? ? ? ? Hj]; subst; by apply elem_of_nil in Hj. Qed.

Lemma no_uses origin job :
  job_uses job = None → (∀ ps, ¬ calls origin [job] ps) ∧ ∀ n, ¬ nested origin [job] n.
Proof.
  intros Hu. split.
  - intros ps Hc. inversion Hc as [? ? j ? ? Hj|? ? j ? ? ? ? ? Hj]; subst;
      apply list_elem_of_singleton in Hj as ->; congruence.
  - intros n Hc. inversion Hc as [? ? j ? Hj|? ? j ? ? ? ? ? Hj]; subst;
      apply list_elem_of_singleton in Hj as ->; congruence.
Qed.

(** The chains one job starts, when its reference resolves. *)
Lemma calls_one origin job declared uses ps :
  job_uses job = Some declared → callee_reference declared origin reusable_workflow_shas = Ok uses →
  calls origin [job] ps →
  ps = [normalize_reusable_path uses] ∨
  ∃ yaml called ps', ps = normalize_reusable_path uses :: ps' ∧ callee_yaml uses = Some yaml ∧
    parse_workflow yaml = Ok called ∧ calls (callee_origin uses) (wf_jobs called).*2 ps'.
Proof.
  intros Hd Hu Hc. inversion Hc as [? ? j d u Hj Hd' Hu'|? ? j d u y called ps' Hj Hd' Hu']; subst;
    apply list_elem_of_singleton in Hj as ->; assert (d = declared) as -> by congruence;
    assert (u = uses) as -> by congruence; eauto 10.
Qed.

Lemma nested_job origin job declared uses n :
  job_uses job = Some declared → callee_reference declared origin reusable_workflow_shas = Ok uses →
  nested origin [job] n →
  n = 1 ∨ ∃ yaml called n', n = S n' ∧ callee_yaml uses = Some yaml ∧
    parse_workflow yaml = Ok called ∧ nested (callee_origin uses) (wf_jobs called).*2 n'.
Proof.
  intros Hd Hu Hc. inversion Hc as [? ? j d Hj|? ? j d u y called n' Hj Hd' Hu']; subst;
    apply list_elem_of_singleton in Hj as ->; [by left|].
  assert (d = declared) as -> by congruence. assert (u = uses) as -> by congruence. eauto 10.
Qed.

Lemma walk_ok_cons origin depth chain job js unique unique' r :
  walk_ok origin depth chain [job] unique (Ok unique') → walk_ok origin depth chain js unique' r →
  walk_ok origin depth chain (job :: js) unique r.
Proof.
  intros (Hsub & _ & Hre & Hn & Hch) Hr.
  assert (∀ p, p ∈ unique' ∨ reached origin js p → p ∈ unique ∨ reached origin (job :: js) p) as Hp.
  { intros p [Hp|Hp]; [|right; by eapply reached_mono, Hp; set_solver].
    destruct (Hre p Hp) as [?|Hq]; [by left|right]. eapply reached_mono, Hq. set_solver. }
  destruct r as [unique''|e]; simpl in *.
  - destruct Hr as (Hsub' & Hsz & Hre' & Hn' & Hch').
    split_and!; [set_solver|done|intros p Hu; apply Hp; auto|intros n [Hc|Hc]%nested_cons; auto|].
    intros ps [Hc|Hc]%calls_cons; [|by apply Hch'].
    destruct (Hch ps Hc) as (? & Hin). split_and!; [done..|set_solver].
  - destruct Hr as [(-> & [(n & Hc & Hd)|(ps & Hc & Hd)])|[(many & -> & Hlt & Hm)|Hr]].
    + left. split; [done|left]. exists n. split; [eapply nested_mono, Hc; set_solver|done].
    + left. split; [done|right]. exists ps. split; [eapply calls_mono, Hc; set_solver|done].
    + right; left. exists many. split_and!; [done..|]. intros p Hin. apply Hp. by apply Hm.
    + right; right. eapply refused_mono, Hr. set_solver.
Qed.

Lemma walk_err_mono origin depth chain js js' unique e :
  js ⊆ js' → walk_ok origin depth chain js unique (Err e) → walk_ok origin depth chain js' unique (Err e).
Proof.
  intros Hs [(-> & [(n & Hc & Hd)|(ps & Hc & Hd)])|[(many & -> & Hlt & Hm)|Hr]].
  - left. split; [done|left]. exists n. split; [by eapply nested_mono|done].
  - left. split; [done|right]. exists ps. split; [by eapply calls_mono|done].
  - right; left. exists many. split_and!; [done..|]. intros p Hin.
    destruct (Hm p Hin) as [?|Hq]; [by left|right; by eapply reached_mono].
  - right; right. by eapply refused_mono.
Qed.

Lemma visit_jobs_ok walk origin depth chain js unique :
  (∀ job unique, size unique ≤ MAX_UNIQUE_REUSABLE_WORKFLOWS →
     ∃ r, visit_job walk origin depth chain job unique = Some r ∧ walk_ok origin depth chain [job] unique r) →
  size unique ≤ MAX_UNIQUE_REUSABLE_WORKFLOWS →
  ∃ r, visit_jobs walk origin depth chain js unique = Some r ∧ walk_ok origin depth chain js unique r.
Proof.
  intros Hjob. revert unique. induction js as [|job js IH]; intros unique Hu; simpl.
  { eexists. split; [done|]. split_and!; [done..|auto|by intros n []%nested_nil|by intros ps []%calls_nil]. }
  destruct (Hjob job unique Hu) as ([unique'|e] & -> & Hr).
  - destruct (IH unique') as (r & -> & Hr'); [by destruct Hr as (_ & ? & _)|].
    exists r. split; [done|]. by eapply walk_ok_cons.
  - exists (Err e). split; [done|]. eapply walk_err_mono, Hr. set_solver.
Qed.

(** What holds of the called workflow holds of the job that calls it. *)
Lemma walk_ok_call origin depth chain job declared uses yaml called unique r :
  let path := normalize_reusable_path uses in
  job_uses job = Some declared → callee_reference declared origin reusable_workflow_shas = Ok uses →
  callee_yaml uses = Some yaml → parse_workflow yaml = Ok called →
  depth < MAX_REUSABLE_WORKFLOW_DEPTH → NoDup (chain ++ [path]) →
  walk_ok (callee_origin uses) (S depth) (chain ++ [path]) (wf_jobs called).*2 ({[path]} ∪ unique) r →
  walk_ok origin depth chain [job] unique r.
Proof.
  intros path Hd Hu Hy Hpw Hlt Hnd Hr. set (js := (wf_jobs called).*2) in *.
  pose proof (elem_of_one job) as Hj.
  assert (∀ ps, calls (callee_origin uses) js ps → calls origin [job] (path :: ps)) as Hstep
    by (intros ps Hc; by eapply calls_step).
  assert (calls origin [job] [path]) as Hlast by by eapply calls_last.
  assert (∀ p, p ∈ {[path]} ∪ unique ∨ reached (callee_origin uses) js p →
            p ∈ unique ∨ reached origin [job] p) as Hp.
  { intros p [[->%elem_of_singleton|?]%elem_of_union|(ps & Hc & Hin)]; [right|by left|right].
    - exists [path]. split; [done|by apply list_elem_of_singleton].
    - exists (path :: ps). split; [by apply Hstep|by apply elem_of_cons; right]. }
  destruct r as [unique'|e]; simpl in *.
  - destruct Hr as (Hsub & Hsz & Hre & Hn & Hch). split_and!; [set_solver|done|auto| |].
    + intros n Hc. destruct (nested_job origin job declared uses n Hd Hu Hc)
        as [->|(y & c & n' & -> & Hy' & Hpw' & Hc')]; [lia|].
      assert (y = yaml) as -> by congruence. assert (c = called) as -> by congruence.
      specialize (Hn n' Hc'). lia.
    + intros ps Hc. destruct (calls_one origin job declared uses ps Hd Hu Hc)
        as [->|(y & c & ps' & -> & Hy' & Hpw' & Hc')].
      * split; [done|]. intros p ->%list_elem_of_singleton. set_solver.
      * assert (y = yaml) as -> by congruence. assert (c = called) as -> by congruence.
        destruct (Hch ps' Hc') as (Hnd' & Hin). rewrite <- app_assoc in Hnd'.
        split; [done|]. intros p [->|?]%elem_of_cons; [fold path; set_solver|auto].
  - destruct Hr as [(-> & [(n & Hc & Hbad)|(ps & Hc & Hbad)])|[(many & -> & Hl & Hm)|Hr]].
    + left. split; [done|left]. exists (S n). split; [by eapply nested_step|lia].
    + left. split; [done|right]. exists (path :: ps). split; [by apply Hstep|]. by rewrite <- app_assoc in Hbad.
    + right; left. exists many. split_and!; [done..|]. intros p Hin. apply Hp. by apply Hm.
    + right; right. by eapply refused_inside.
Qed.

Lemma visit_job_ok walk origin depth chain job unique :
  (∀ called o path unique, S depth ≤ MAX_REUSABLE_WORKFLOW_DEPTH → NoDup (chain ++ [path]) →
     size unique ≤ MAX_UNIQUE_REUSABLE_WORKFLOWS →
     ∃ r, walk called o (S depth) (chain ++ [path]) unique = Some r ∧
          walk_ok o (S depth) (chain ++ [path]) (wf_jobs called).*2 unique r) →
  depth ≤ MAX_REUSABLE_WORKFLOW_DEPTH → NoDup chain → size unique ≤ MAX_UNIQUE_REUSABLE_WORKFLOWS →
  ∃ r, visit_job walk origin depth chain job unique = Some r ∧ walk_ok origin depth chain [job] unique r.
Proof.
  intros Hwalk Hdepth Hnd Hsz. unfold visit_job.
  pose proof (elem_of_one job) as Hj.
  destruct (job_uses job) as [declared|] eqn:Hd.
  2:{ destruct (no_uses origin job Hd) as [Hc Hn]. eexists. split; [done|].
      split_and!; [done..|auto|by intros n []%Hn|by intros ps []%Hc]. }
  destruct (Nat.leb_spec MAX_REUSABLE_WORKFLOW_DEPTH depth) as [Hge|Hlt].
  { eexists. split; [done|]. left. split; [done|left]. exists 1. split; [by eapply nested_one|lia]. }
  destruct (callee_reference declared origin reusable_workflow_shas) as [uses|e] eqn:Hu.
  2:{ eexists. split; [done|]. right; right. by eapply refused_reference. }
  set (path := normalize_reusable_path uses).
  assert (calls origin [job] [path]) as Hlast by by eapply calls_last.
  case_bool_decide as Hin; simpl.
  { eexists. split; [done|]. left. split; [done|right]. exists [path]. split; [done|].
    intros (_ & Hno & _)%NoDup_app. apply (Hno path Hin), list_elem_of_singleton. done. }
  assert (NoDup (chain ++ [path])) as Hnd'.
  { apply NoDup_app. split_and!; [done| |apply NoDup_singleton]. by intros p Hp ->%list_elem_of_singleton. }
  assert (∀ p, p ∈ {[path]} ∪ unique → p ∈ unique ∨ reached origin [job] p) as Hp.
  { intros p [->%elem_of_singleton|?]%elem_of_union; [right|by left]. exists [path].
    split; [done|by apply list_elem_of_singleton]. }
  destruct (Nat.ltb_spec MAX_UNIQUE_REUSABLE_WORKFLOWS (size ({[path]} ∪ unique))) as [Hm|Hm].
  { eexists. split; [done|]. right; left. by exists ({[path]} ∪ unique). }
  destruct (callee_yaml uses) as [yaml|] eqn:Hy.
  2:{ eexists. split; [done|]. split_and!; [set_solver|done|done| |].
      - intros n Hc. destruct (nested_job origin job declared uses n Hd Hu Hc)
          as [->|(y & c & n' & -> & Hy' & _)]; [lia|congruence].
      - intros ps Hc. destruct (calls_one origin job declared uses ps Hd Hu Hc)
          as [->|(y & c & n' & -> & Hy' & _)]; [|congruence]. fold path. split; [done|].
        intros p ->%list_elem_of_singleton. set_solver. }
  destruct (parse_workflow yaml) as [called|e] eqn:Hpw.
  2:{ eexists. split; [done|]. right; right. by eapply refused_file. }
  destruct (Hwalk called (callee_origin uses) path ({[path]} ∪ unique)) as (r & -> & Hr); [lia|done..|].
  exists r. split; [done|]. by eapply walk_ok_call.
Qed.

Lemma validate_tree_ok fuel w origin depth chain unique :
  MAX_WORKFLOW_DEPTH ≤ fuel + depth → depth ≤ MAX_REUSABLE_WORKFLOW_DEPTH → NoDup chain →
  size unique ≤ MAX_UNIQUE_REUSABLE_WORKFLOWS →
  ∃ r, validate_reusable_workflow_tree fuel w origin depth chain unique = Some r ∧
       walk_ok origin depth chain (wf_jobs w).*2 unique r.
Proof.
  revert w origin depth chain unique.
  induction fuel as [|fuel IH]; intros w origin depth chain unique Hf Hd Hnd Hsz.
  { unfold MAX_REUSABLE_WORKFLOW_DEPTH, MAX_WORKFLOW_DEPTH in *. lia. }
  apply visit_jobs_ok; [|done]. intros job unique' Hu. apply visit_job_ok; [|done..].
  intros. apply IH; [lia|done..].
Qed.
End tree.

(** C12: the walk over the calls of a workflow always returns.  When it
    accepts, calls nest at most nine deep, no chain of calls comes back to a
    workflow it went through, and the paths it collected, at most fifty, are
    exactly the ones some chain reaches.  Each refusal has its cause: a tenth
    nested call or a chain that repeats a path, more than fifty reachable
    paths, or a reference or a file that is refused for its own sake. *)
Theorem call_tree_bounded {num}
    `{NumberOps num, JsonCodec num, UnicodeCase, HashOrder, NumberMake num, WorkflowReaders num}
    (workflows shas : gmap string string) (w : Workflow num) :
  let js := (wf_jobs w).*2 in
  ∃ r, validate_reusable_workflow_tree workflows shas MAX_WORKFLOW_DEPTH w None 0 [] ∅ = Some r ∧
  match r with
  | Ok unique =>
      size unique ≤ MAX_UNIQUE_REUSABLE_WORKFLOWS ∧
      (∀ p, p ∈ unique ↔ reached workflows shas None js p) ∧
      (∀ n, nested workflows shas None js n → n ≤ MAX_REUSABLE_WORKFLOW_DEPTH) ∧
      ∀ ps, calls workflows shas None js ps → NoDup ps
  | Err e =>
      (e = MaxNestingDepthExceeded ∧
         ((∃ n, nested workflows shas None js n ∧ MAX_REUSABLE_WORKFLOW_DEPTH < n) ∨
          ∃ ps, calls workflows shas None js ps ∧ ¬ NoDup ps)) ∨
      (∃ many : gset string, e = MaxReusableWorkflowsExceeded (size many) MAX_UNIQUE_REUSABLE_WORKFLOWS ∧
         MAX_UNIQUE_REUSABLE_WORKFLOWS < size many ∧ ∀ p, p ∈ many → reached workflows shas None js p) ∨
      refused workflows shas None js e
  end.
Proof.
  intros js. destruct (validate_tree_ok workflows shas MAX_WORKFLOW_DEPTH w None 0 [] ∅)
    as (r & -> & Hr); [lia..|apply NoDup_nil_2|rewrite size_empty; lia|].
  exists r. split; [done|]. destruct r as [unique|e]; simpl in Hr.
  - destruct Hr as (_ & Hsz & Hre & Hn & Hc). split_and!; [done| |done|intros ps Hps; by apply Hc].
    intros p. split; [|intros (ps & Hps & Hp); by apply (Hc ps Hps)].
    intros [[]%elem_of_empty|?]%Hre; done.
  - destruct Hr as [?|[(many & -> & Hlt & Hm)|?]]; [by left|right; left|by right; right].
    exists many. split_and!; [done..|]. intros p [[]%elem_of_empty|?]%Hm; done.
Qed.

(** ** Examples *)
Section examples.

(** A workflow of one job, which calls [uses]. *)
Definition caller_of (uses : string) : Workflow Z :=
  sample_workflow (Trigger.Single "workflow_call") [("call", call_job uses ∅ None None)].

(** The file [deep i], which calls the next one. *)
Definition deep (i : nat) : string := "./.github/workflows/" +:+ pretty i +:+ ".yml".
Definition deep_text (i : nat) : string := "text" +:+ pretty i.
Definition deep_files (n : nat) : gmap string string :=
  list_to_map (map (λ i, (deep i, deep_text i)) (seq 0 n)).
Definition leaf : Workflow Z :=
  sample_workflow (Trigger.Single "workflow_call") [("build", run_job (RunsOnSingle "linux") [] None [])].
#[local] Instance deep_readers : WorkflowReaders Z :=
  table_readers (("top", caller_of (deep 0)) :: (deep_text 8, leaf) :: map (λ i, (deep_text i, caller_of (deep (S i)))) (seq 0 8))
    empty_call_trigger.

(** Nine nested files are accepted, a tenth level is not. *)
Example nine_levels_accepted :
  validate_call_tree (deep_files 9) ∅ (caller_of (deep 0)) = Ok tt ∧
  validate_call_tree (<["./top.yml" := "top"]> (deep_files 9)) ∅ (caller_of "./top.yml") =
    Err MaxNestingDepthExceeded.
Proof. vm_compute. done. Qed.

(** The same files, the first one called under another path by the last. *)
#[local] Instance loop_readers : WorkflowReaders Z :=
  table_readers [("a", caller_of "./b.yml"); ("b", caller_of "././a.yml")] empty_call_trigger.

Example self_call_refused :
  validate_call_tree (H4 := loop_readers) {["./a.yml" := "a"; "./b.yml" := "b"]} ∅
    (caller_of "./a.yml") = Err MaxNestingDepthExceeded.
Proof. vm_compute. done. Qed.
End examples.
