(* ===== verification/ReusableCalls.v ===== *)
(** * Expansion of reusable workflow calls

    The rest of [crates/preloop-gha-parser/src/expand.rs]: the jobs of a
    workflow with the calls among them as placeholder nodes, their inputs and
    secrets checked against the called workflow; the rewriting of needs; and the
    materialization of a called workflow under the node that calls it. *)
From S2P Require Export ExpandJobs CallTree.
From S2P Require Import Labels Concurrency.

(** ** Pieces without expressions *)

Definition is_secrets_inherit {num} (secrets : option (value num)) : bool :=
  match secrets with Some (JString s) => str_eqb s "inherit" | _ => false end.

(** [merge_job_conditions]: the caller's condition and the job's. *)
Definition merge_job_conditions (outer inner : option string) : option string :=
  match outer, inner with
  | None, None => None
  | Some condition, None | None, Some condition => Some condition
  | Some outer, Some inner =>
      Some ("(" +:+ trim (trim_expression_markers outer) +:+ ") && ("
            +:+ trim (trim_expression_markers inner) +:+ ")")
  end.

(** The keys of a map that stand for [name], compared without case. *)
Definition names_key {A} (name : string) (m : gmap string A) : bool :=
  existsb (λ k, eq_ignore_ascii_case k name) (btree_keys m).

(** [try_map] over a [BTreeMap], in key order. *)
Fixpoint try_entries {E A B} (f : string → A → result E B) (l : list (string * A)) :
    result E (gmap string B) :=
  match l with
  | [] => Ok ∅
  | (k, a) :: l => b ← f k a; rest ← try_entries f l; Ok (<[k := b]> rest)
  end.
Definition try_map {E A B} (f : string → A → result E B) (m : gmap string A) : result E (gmap string B) :=
  try_entries f (map_entries m).

Section reusable.
Context {num : Type} `{NumberOps num, JsonCodec num, UnicodeCase, HashOrder, NumberMake num, FloatText,
  WorkflowReaders num}.
Variable hash_files : list (value num) → option string → result ExpressionError string.
Abbreviation json := (value num).
Abbreviation row := (imap (value num)).
Implicit Types (job : Job num) (inputs : option (gmap string json)) (trigger : WorkflowCallTrigger num)
  (matrix : row).

(** ** Inputs and secrets of a call *)

Definition check_declared_inputs trigger job : result ParserError unit :=
  try_for_each (λ name, if names_key name (call_inputs trigger) then Ok tt else Err (UndeclaredInput name))
    (btree_keys (job_with job)).

(** The [with:] value given for an input, its name compared without case. *)
Definition caller_value (name : string) job : option json :=
  kv ← find (λ kv, eq_ignore_ascii_case kv.1 name) (map_entries (job_with job)); Some kv.2.

Definition absent_input (ty : InputType) : json :=
  match ty with
  | InNumber => JNumber (num_of_i64 0)
  | InBoolean => JBool false
  | InString | InChoice | InEnvironment => JString ""
  end.

Definition coerced_input job (name : string) (def : InputDefinition num) :
    result ParserError (InputType * json) :=
  v ← match caller_value name job with
      | Some v => coerce_value v (input_type def) name
      | None =>
          match input_default def with
          | Some d => Ok d
          | None => if input_required def then Err (MissingRequiredInput name)
                    else Ok (absent_input (input_type def))
          end
      end;
  Ok (input_type def, v).

Definition caller_secrets job : option row :=
  match job_secrets job with Some (JObject m) => Some m | _ => None end.

Definition names_member (name : string) (m : row) : bool := existsb (λ kv, eq_ignore_ascii_case kv.1 name) m.

Definition check_declared_secrets trigger job : result ParserError unit :=
  match caller_secrets job with
  | Some m =>
      if bool_decide (call_secrets trigger = ∅) then Ok tt
      else try_for_each (λ kv, if names_key kv.1 (call_secrets trigger) then Ok tt
                               else Err (UndeclaredSecret kv.1)) m
  | None => Ok tt
  end.

Definition check_required_secrets trigger job : result ParserError unit :=
  try_for_each (λ '(name, required),
      if (required : bool) && negb (from_option (names_member name) false (caller_secrets job))
      then Err (MissingRequiredSecret name) else Ok tt) (map_entries (call_secrets trigger)).

(** The secrets handed over by name; none when all are inherited. *)
Definition call_secrets_map trigger job : result ParserError (gmap string string) :=
  if is_secrets_inherit (job_secrets job) then Ok ∅
  else
    _ ← check_declared_secrets trigger job;
    _ ← check_required_secrets trigger job;
    Ok (foldl (λ m '(k, v), <[k := output_text v]> m) ∅ (default [] (caller_secrets job))).

(** ** One call *)

(** An input of one cell: an expression that can be evaluated is, and coerced
    again; if the result does not fit, the expression is kept. *)
Definition cell_input (job_id : string) (c : Context num) (name : string) (typed : InputType * json) :
    result ParserError json :=
  let '(ty, coerced) := typed in
  match coerced with
  | JString raw =>
      if str_contains opener raw && negb (resolves_after_job_build (num:=num) raw) then
        resolved ← map_err (λ error, InvalidExpression
            ("job " +:+ ticked job_id +:+ " input " +:+ ticked name +:+ " failed to evaluate: " +:+ error))
          (resolve_string hash_files raw c);
        Ok (result_default coerced (coerce_value (JString resolved) ty name))
      else Ok coerced
  | other => Ok other
  end.

(** What a call resolves to before its cells are made. *)
Record CallSite : Type := mkCallSite {
  cs_uses : string;
  cs_path : string;
  cs_called : Workflow num;
  cs_trigger : WorkflowCallTrigger num;
  cs_inputs : gmap string (InputType * json);
  cs_secrets_inherit : bool;
  cs_secrets_map : gmap string string;
}.

Variables (reusable_workflows reusable_workflow_shas : gmap string string).

(** The part of [expand_jobs_with_reusables_internal] that does not depend on a
    matrix cell. *)
Definition call_site (depth : nat) (origin : option string) job (declared : string) :
    result ParserError CallSite :=
  if MAX_REUSABLE_WORKFLOW_DEPTH <=? depth then Err MaxNestingDepthExceeded
  else
    uses ← callee_reference declared origin reusable_workflow_shas;
    let path := normalize_reusable_path uses in
    yaml ← ok_or (MissingReusableWorkflow uses) (callee_yaml reusable_workflows uses);
    called ← parse_workflow yaml;
    found ← workflow_call_trigger called;
    trigger ← ok_or MissingWorkflowCallTrigger found;
    _ ← check_declared_inputs trigger job;
    coerced ← try_map (coerced_input job) (call_inputs trigger);
    secrets ← call_secrets_map trigger job;
    Ok (mkCallSite uses path called trigger coerced (is_secrets_inherit (job_secrets job)) secrets).

(** The node that stands for one cell of a call until it runs. *)
Definition caller_placeholder (w : Workflow num) (depth : nat) (job_id : string) job (site : CallSite)
    (deferred : option string) (total index : nat) matrix (resolved : gmap string json) : FullPlan num :=
  let many := 1 <? total in
  let sha := reusable_workflow_shas !! cs_uses site in
  let repository := reusable_workflow_repository (cs_uses site) in
  let declared := option_or (job_permissions job) (wf_permissions w) in
  let core := mkJobPlan (expanded_job_id job_id matrix) job_id None [] (ids (job_needs job)) deferred
                (job_if job) true false None in
  mkFullPlan core (resolved_job_name hash_files (job_name job) job_id matrix (Some resolved)) matrix
    (if many then Some (index + 1) else None) (if many then Some total else None)
    (job_environment_map w job) [] (cs_secrets_inherit site) None None resolved
    (Some (cs_path site)) (Some (cs_uses site)) sha repository (cs_secrets_map site) ∅
    (id_token_granted declared) (resolve_permissions (job_permissions job) (wf_permissions w)) None None
    (job_environment job) [] None None None
    (Some (mkCallPlan (cs_uses site) (cs_path site) sha repository (depth + 1))) None.

Definition call_metadata (job_id : string) job (site : CallSite) matrix (resolved : gmap string json) :
    ReusableCallMetadata num :=
  mkCallMetadata (expanded_job_id job_id matrix) (call_outputs (cs_trigger site)) [] resolved
    (job_concurrency job) (wf_concurrency (cs_called site))
    (foldl (λ m '(k, v), <[k := v]> m) ∅ matrix) (job_if job)
    (reusable_workflow_shas !! cs_uses site) (reusable_workflow_repository (cs_uses site)).

Abbreviation calls_map := (gmap string (ReusableCallMetadata num)).

Fixpoint caller_cells (w : Workflow num) (depth : nat) (job_id : string) job (site : CallSite) inputs
    (event_name deferred : option string) (total index : nat) (cells : list row) (metadata : calls_map) :
    result ParserError (list (FullPlan num) * calls_map) :=
  match cells with
  | [] => Ok ([], metadata)
  | matrix :: cells =>
      resolved ←
        match deferred with
        | None => try_map (cell_input job_id (expression_context matrix inputs event_name)) (cs_inputs site)
        | Some _ => Ok (snd <$> cs_inputs site)
        end;
      let metadata := <[expanded_job_id job_id matrix := call_metadata job_id job site matrix resolved]> metadata in
      let plan := caller_placeholder w depth job_id job site deferred total index matrix resolved in
      '(plans, metadata) ← caller_cells w depth job_id job site inputs event_name deferred total (S index)
                             cells metadata;
      Ok (plan :: plans, metadata)
  end.

Definition expand_call (w : Workflow num) (depth : nat) (origin : option string) inputs
    (event_name : option string) (job_id : string) job (declared : string) (metadata : calls_map) :
    result ParserError (list (FullPlan num) * calls_map) :=
  site ← call_site depth origin job declared;
  expansion ← expand_matrix hash_files job_id (strategy_matrix (job_strategy job))
                (Some (snd <$> cs_inputs site)) event_name;
  let '(cells, deferred) := into_cells expansion in
  caller_cells w depth job_id job site inputs event_name deferred (length cells) 0 cells metadata.

(** ** All jobs *)

Fixpoint expand_jobs_with_reusables_internal (w : Workflow num) (depth : nat) (origin : option string)
    inputs (event_name : option string) (jobs : imap (Job num)) (metadata : calls_map) :
    result ParserError (list (FullPlan num) * calls_map) :=
  match jobs with
  | [] => Ok ([], metadata)
  | (job_id, job) :: jobs =>
      '(plans, metadata) ←
        match job_uses job with
        | Some declared => expand_call w depth origin inputs event_name job_id job declared metadata
        | None => plans ← expand_job hash_files w inputs event_name job_id job; Ok (plans, metadata)
        end;
      '(rest, metadata) ← expand_jobs_with_reusables_internal w depth origin inputs event_name jobs metadata;
      Ok (plans ++ rest, metadata)
  end.

(** A need that is no node is replaced by the nodes below or beside it, in the
    order of a hash set. *)
Definition stands_for (need id : string) : bool :=
  starts_with (need +:+ "/") id || starts_with (need +:+ " (") id.
Definition rewrite_need (expanded_ids : gset string) (need : string) : list string :=
  if bool_decide (need ∈ expanded_ids) then [need]
  else match filter (λ id, Is_true (stands_for need id)) (hash_order expanded_ids) with
       | [] => [need]
       | matched => matched
       end.
Definition rewrite_needs (expanded_ids : gset string) (p : FullPlan num) : FullPlan num :=
  set_needs (flat_map (rewrite_need expanded_ids) (needs (core p))) p.

(** [expand_jobs_with_reusables_and_shas_and_inputs_and_event], which the
    other entry points call. *)
Definition expand_workflow (w : Workflow num) inputs (event_name : option string) :
    result ParserError (ExpandedWorkflows num) :=
  _ ← validate_call_tree reusable_workflows reusable_workflow_shas w;
  '(plans, metadata) ← expand_jobs_with_reusables_internal w 0 None inputs event_name (wf_jobs w) ∅;
  let expanded_ids : gset string := list_to_set (map (λ p, id (core p)) plans) in
  let plans := map (rewrite_needs expanded_ids) plans in
  _ ← validate_plans plans;
  Ok (mkExpanded plans metadata).

(** ** Materialization of a call *)

Definition retain_needs (external : list string) (p : FullPlan num) : JobPlan :=
  let c := core p in
  mkJobPlan (id c) (base_id c) (runner_group c) (runs_on c)
    (filter (λ need, need ∉ external) (needs c)) (deferred_matrix c)
    (if_condition c) (fail_fast c) (continue_on_error c) (max_parallel c).

Definition validate_expanded_subtree (plans : list (FullPlan num)) (external : list string) :
    result ParserError unit :=
  default (Err (NeedsCycle "")) (validate_job_plans num (retain_needs external <$> plans)).

(** The outer needs a plan does not have yet, one by one. *)
Definition add_needs (ns outer : list string) : list string :=
  foldl (λ ns need, if bool_decide (need ∈ ns) then ns else ns ++ [need]) ns outer.

Definition under (caller_id inner : string) : string := caller_id +:+ "/" +:+ inner.

(** One job of the called workflow, under the node of its caller. *)
Definition inner_plan (caller_plan : FullPlan num) (call : ReusableCallPlan) (p : FullPlan num) : FullPlan num :=
  let caller_id := id (core caller_plan) in
  let c := core p in
  let core := mkJobPlan (under caller_id (id c)) (under caller_id (base_id c)) (runner_group c) (runs_on c)
    (add_needs (map (under caller_id) (needs c)) (needs (core caller_plan))) (deferred_matrix c)
    (merge_job_conditions (if_condition (core caller_plan)) (if_condition c))
    (fail_fast c) (continue_on_error c) (max_parallel c) in
  mkFullPlan core (plan_name caller_plan +:+ " / " +:+ plan_name p)
    (foldl (λ m '(k, v), imap_insert k v m) (plan_matrix p) (plan_matrix caller_plan))
    (plan_matrix_index p) (plan_matrix_total p) (plan_env caller_plan ∪ plan_env p) (plan_steps p)
    (plan_secrets_inherit caller_plan) (plan_container p) (plan_services p)
    (plan_inputs caller_plan ∪ plan_inputs p)
    (Some (rc_workflow_file call)) (Some (rc_uses call)) (rc_workflow_sha call) (rc_workflow_repository call)
    (plan_secrets_map caller_plan ∪ plan_secrets_map p) (plan_job_outputs p)
    (plan_oidc_id_token_granted p && plan_oidc_id_token_granted caller_plan)
    (Some (intersect_permissions (plan_permissions p) (plan_permissions caller_plan)))
    (plan_oidc_environment p) (Some (rc_uses call)) (plan_environment p) (plan_defaults p)
    (plan_concurrency_group p) (plan_concurrency_cancel_in_progress p) (plan_concurrency_queue p)
    (plan_reusable_call p) (plan_timeout_minutes p).

Definition prefix_metadata (caller_id : string) (m : ReusableCallMetadata num) : ReusableCallMetadata num :=
  mkCallMetadata (under caller_id (rm_caller_job_id m)) (rm_output_definitions m) (rm_inner_job_ids m)
    (rm_inputs m) (rm_caller_concurrency m) (rm_embedded_concurrency m) (rm_matrix m) (rm_if_condition m)
    (rm_workflow_sha m) (rm_workflow_repository m).

(** Nested calls move with the jobs they belong to. *)
Definition prefix_calls (caller_id : string) (metadata : calls_map) : calls_map :=
  kmap (M2:=gmap string) (under caller_id) (prefix_metadata caller_id <$> metadata).

Definition expand_reusable_call (called : Workflow num) (caller_plan : FullPlan num) :
    result ParserError (ExpandedWorkflows num) :=
  let caller_id := id (core caller_plan) in
  call ← ok_or (InvalidExpression ("job " +:+ ticked caller_id +:+ " is not a reusable-workflow caller"))
    (plan_reusable_call caller_plan);
  if bool_decide (is_Some (deferred_matrix (core caller_plan))) then
    Err (InvalidExpression ("job " +:+ ticked caller_id +:+
      " has a needs-deferred matrix; resolve it with expand_deferred_reusable_call before materializing the callee subtree"))
  else
    '(inner, metadata) ← expand_jobs_with_reusables_internal called (rc_depth call)
      (callee_origin (rc_uses call)) (Some (plan_inputs caller_plan)) None (wf_jobs called) ∅;
    let inner := map (inner_plan caller_plan call) inner in
    _ ← validate_expanded_subtree inner (needs (core caller_plan));
    Ok (mkExpanded inner (prefix_calls caller_id metadata)).

(** ** Calls with a deferred matrix *)

(** The job that calls, in the workflow that contains it. *)
Definition caller_job (caller_workflow : Workflow num) (base : string) : option (Job num) :=
  option_or (imap_get base (wf_jobs caller_workflow)) ('(_, tail) ← rsplit_once "/" base; imap_get tail (wf_jobs caller_workflow)).

(** The inputs of one cell: the expressions of [with:] are evaluated anew,
    under the caller's spelling of the name. *)
Fixpoint cell_inputs (c : Context num) (with_ : list (string * json)) (inputs : gmap string json) :
    result ParserError (gmap string json) :=
  match with_ with
  | [] => Ok inputs
  | (name, JString raw) :: with_ =>
      if str_contains opener raw then
        resolved ← map_err InvalidExpression (resolve_string hash_files raw c);
        cell_inputs c with_ (<[name := JString resolved]> inputs)
      else cell_inputs c with_ inputs
  | _ :: with_ => cell_inputs c with_ inputs
  end.

Definition cell_caller (caller_plan : FullPlan num) (raw_name : option string) (many : bool) (index : nat)
    (cell : row) (inputs : gmap string json) : FullPlan num :=
  let c := core caller_plan in
  mkFullPlan
    (mkJobPlan (expanded_job_id (id c) cell) (base_id c) (runner_group c) (runs_on c) (needs c) None
      (if_condition c) (fail_fast c) (continue_on_error c) (max_parallel c))
    (resolved_job_name hash_files raw_name (id c) cell (Some (plan_inputs caller_plan))) cell
    (if many then Some (index + 1) else None) (plan_matrix_total caller_plan) (plan_env caller_plan)
    (plan_steps caller_plan) (plan_secrets_inherit caller_plan) (plan_container caller_plan)
    (plan_services caller_plan) inputs (plan_workflow_file caller_plan) (plan_workflow_ref caller_plan)
    (plan_workflow_sha caller_plan) (plan_workflow_repository caller_plan) (plan_secrets_map caller_plan)
    (plan_job_outputs caller_plan) (plan_oidc_id_token_granted caller_plan) (plan_permissions caller_plan)
    (plan_oidc_environment caller_plan) (plan_oidc_job_workflow_ref caller_plan)
    (plan_environment caller_plan) (plan_defaults caller_plan) (plan_concurrency_group caller_plan)
    (plan_concurrency_cancel_in_progress caller_plan) (plan_concurrency_queue caller_plan)
    (plan_reusable_call caller_plan) (plan_timeout_minutes caller_plan).

Fixpoint deferred_cells (called caller_workflow : Workflow num) (caller_plan : FullPlan num)
    (many : bool) (index : nat) (cells : list row) : result ParserError (ExpandedWorkflows num) :=
  match cells with
  | [] => Ok (mkExpanded [] ∅)
  | cell :: cells =>
      let job := caller_job caller_workflow (base_id (core caller_plan)) in
      let c := expression_context cell (Some (plan_inputs caller_plan)) None in
      inputs ← cell_inputs c (from_option (λ job, map_entries (job_with job)) [] job) (plan_inputs caller_plan);
      expanded ← expand_reusable_call called (cell_caller caller_plan (job ≫= job_name) many index cell inputs);
      rest ← deferred_cells called caller_workflow caller_plan many (S index) cells;
      Ok (mkExpanded (jobs expanded ++ jobs rest) (reusable_calls rest ∪ reusable_calls expanded))
  end.

Definition expand_deferred_reusable_call (called caller_workflow : Workflow num) (caller_plan : FullPlan num)
    (needs_outputs : gmap string (gmap string json)) : result ParserError (ExpandedWorkflows num) :=
  let caller_id := id (core caller_plan) in
  _ ← ok_or (InvalidExpression ("job " +:+ ticked caller_id +:+ " is not a reusable-workflow caller"))
    (plan_reusable_call caller_plan);
  expression ← ok_or (InvalidExpression ("job " +:+ ticked caller_id +:+ " has no deferred matrix to resolve"))
    (deferred_matrix (core caller_plan));
  cells ← resolve_deferred_matrix_cells hash_files (base_id (core caller_plan)) expression needs_outputs
    (Some (plan_inputs caller_plan));
  deferred_cells called caller_workflow caller_plan (1 <? length cells) 0 cells.

End reusable.

(** ** Plans of an expansion *)
Section plans.
Context {num : Type} `{NumberOps num, JsonCodec num, UnicodeCase, HashOrder, NumberMake num, FloatText,
  WorkflowReaders num}.
Variable hash_files : list (value num) → option string → result ExpressionError string.
Variables (workflows shas : gmap string string).
Abbreviation calls_map := (gmap string (ReusableCallMetadata num)).
Implicit Types (p q : FullPlan num) (job : Job num) (metadata : calls_map).

(** Every record belongs to a node. *)
Definition records_ok metadata (plans : list (FullPlan num)) : Prop :=
  ∀ k m, metadata !! k = Some m → rm_caller_job_id m = k ∧
    ∃ p, p ∈ plans ∧ id (core p) = k ∧ is_Some (plan_reusable_call p).

(** A job, or the node of a call one level below [depth], which has a record. *)
Definition node_ok (depth : nat) metadata p : Prop :=
  ∀ c, plan_reusable_call p = Some c →
    rc_depth c = S depth ∧ rc_depth c ≤ MAX_REUSABLE_WORKFLOW_DEPTH ∧ is_Some (metadata !! id (core p)).

Definition grown depth metadata metadata' (done plans : list (FullPlan num)) : Prop :=
  records_ok metadata' (done ++ plans) ∧ (∀ k, is_Some (metadata !! k) → is_Some (metadata' !! k)) ∧
  ∀ p, p ∈ plans → node_ok depth metadata' p.

Lemma job_plan_no_call job_id job eid matrix mi mt env oe wp wd inputs deferred p :
  job_plan_from_job hash_files job_id job eid matrix mi mt env oe wp wd inputs deferred = Ok p →
  plan_reusable_call p = None.
Proof.
  unfold job_plan_from_job. destruct (concurrency_fields (job_concurrency job)) as [[g c] q].
  intros (? & _ & (? & _ & (? & _ & (? & _ & (ps & _ & [= <-])%bind_Ok)%bind_Ok)%bind_Ok)%bind_Ok)%bind_Ok.
  done.
Qed.

Lemma cell_plans_no_call w job_id job inputs deferred total index cells plans p :
  cell_plans hash_files w job_id job inputs deferred total index cells = Ok plans → p ∈ plans →
  plan_reusable_call p = None.
Proof.
  revert index plans. induction cells as [|cell cells IH]; intros index plans; simpl.
  { intros [= <-] []%elem_of_nil. }
  intros (q & Hq%job_plan_no_call & (ps & Hps & [= <-])%bind_Ok)%bind_Ok [->|Hp]%elem_of_cons; [done|].
  by eapply IH.
Qed.

Lemma caller_cells_ok w depth job_id job site inputs ev deferred total index cells metadata done plans metadata' :
  depth < MAX_REUSABLE_WORKFLOW_DEPTH → records_ok metadata done →
  caller_cells hash_files shas w depth job_id job site inputs ev deferred total index cells metadata =
    Ok (plans, metadata') →
  grown depth metadata metadata' done plans.
Proof.
  intros Hd. revert index metadata done plans.
  induction cells as [|cell cells IH]; intros index metadata done plans Hm; simpl.
  { intros [= <- <-]. unfold grown. rewrite app_nil_r. split_and!; [done|done|by intros p []%elem_of_nil]. }
  intros (resolved & _ & ([ps ms] & Hps & [= <- <-])%bind_Ok)%bind_Ok.
  set (k := expanded_job_id job_id cell) in *.
  set (p0 := caller_placeholder _ _ _ _ _ _ _ _ _ _ _ _) in *.
  assert (records_ok (<[k:=call_metadata shas job_id job site cell resolved]> metadata) (done ++ [p0])) as Hm'.
  { intros k' m [[<- <-]|[Hne Hk']]%lookup_insert_Some.
    - split; [done|]. exists p0. split_and!; [|done|by eexists]. apply elem_of_app. right. by apply list_elem_of_singleton.
    - destruct (Hm k' m Hk') as (? & p & ? & ? & ?). split; [done|]. exists p. split_and!; [|done..].
      apply elem_of_app. by left. }
  destruct (IH _ _ _ ps Hm' Hps) as (Hr & Hk & Hn).
  rewrite <- app_assoc in Hr. split_and!; [done|intros k' Hk'; apply Hk, lookup_insert_is_Some|].
  - destruct (decide (k = k')); auto.
  - intros p [->|Hp]%elem_of_cons; [|by apply Hn]. intros c [= <-].
    split_and!; [simpl; lia|simpl; lia|apply Hk]. simpl. by rewrite lookup_insert_eq.
Qed.

Lemma call_site_depth depth origin job declared site :
  call_site workflows shas depth origin job declared = Ok site → depth < MAX_REUSABLE_WORKFLOW_DEPTH.
Proof. unfold call_site. by destruct (Nat.leb_spec MAX_REUSABLE_WORKFLOW_DEPTH depth). Qed.

Lemma expand_internal_ok w depth origin inputs ev js metadata done plans metadata' :
  records_ok metadata done →
  expand_jobs_with_reusables_internal hash_files workflows shas w depth origin inputs ev js metadata =
    Ok (plans, metadata') →
  grown depth metadata metadata' done plans.
Proof.
  revert metadata done plans. induction js as [|[job_id job] js IH]; intros metadata done plans Hm; simpl.
  { intros [= <- <-]. unfold grown. rewrite app_nil_r. split_and!; [done|done|by intros p []%elem_of_nil]. }
  intros ([ps ms] & Hps & ([rest ms'] & Hrest & [= <- <-])%bind_Ok)%bind_Ok.
  assert (grown depth metadata ms done ps) as (Hr & Hk & Hn).
  { destruct (job_uses job) as [declared|].
    - unfold expand_call in Hps. apply bind_Ok in Hps as (site & Hsite%call_site_depth & Hps).
      apply bind_Ok in Hps as (m & _ & Hps). destruct (into_cells m) as [cells deferred].
      by eapply caller_cells_ok.
    - apply bind_Ok in Hps as (ps' & Hps & [= <- <-]). split_and!; [|done|].
      + intros k m Hkm. destruct (Hm k m Hkm) as (? & p & ? & ? & ?). split; [done|]. exists p.
        split_and!; [|done..]. apply elem_of_app. by left.
      + intros p Hp c. unfold expand_job in Hps. apply bind_Ok in Hps as (m & _ & Hps).
        destruct (into_cells m) as [cells deferred]. by rewrite (cell_plans_no_call _ _ _ _ _ _ _ _ _ _ Hps Hp). }
  destruct (IH _ (done ++ ps) _ Hr Hrest) as (Hr' & Hk' & Hn'). rewrite <- app_assoc in Hr'.
  split_and!; [done|auto|]. intros p [Hp|Hp]%elem_of_app; [|by apply Hn'].
  intros c Hc. destruct (Hn p Hp c Hc) as (? & ? & ?). auto.
Qed.

(** ** What validation says of the needs *)

Lemma build_graph_valid (js todo : list JobPlan) graph graph' :
  build_graph (num:=num) js todo graph = Ok graph' → ∀ job : JobPlan, job ∈ todo →
    check_condition (num:=num) job = Ok tt ∧
    ∀ need, need ∈ needs job → ∃ other, other ∈ js ∧ (id other = need ∨ base_id other = need).
Proof.
  revert graph. induction todo as [|j todo IH]; intros graph Hb job Hin; simpl in Hb.
  { by apply elem_of_nil in Hin. }
  apply bind_Ok in Hb as ([] & Hc & (ns & Hns & Hb)%bind_Ok).
  apply elem_of_cons in Hin as [->|Hin]; [|by eapply IH].
  split; [done|]. intros need Hneed. pose proof (expand_needs_spec js j (needs j)) as Hs.
  rewrite Hns in Hs. by apply Hs.
Qed.

Lemma validate_plans_valid (js : list JobPlan) (job : JobPlan) :
  validate_job_plans num js = Some (Ok tt) → job ∈ js →
  check_condition (num:=num) job = Ok tt ∧
  ∀ need, need ∈ needs job → ∃ other, other ∈ js ∧ (id other = need ∨ base_id other = need).
Proof.
  unfold validate_job_plans. intros Hv Hj.
  destruct (build_graph js js ∅) as [graph|e] eqn:Hb; [|done]. by eapply build_graph_valid.
Qed.

Lemma elem_of_add_needs ns outer need : need ∈ add_needs ns outer ↔ need ∈ ns ∨ need ∈ outer.
Proof.
  unfold add_needs. revert ns. induction outer as [|o outer IH]; intros ns; simpl; [set_solver|].
  rewrite IH. case_bool_decide; set_solver.
Qed.

#[local] Instance under_inj caller_id : Inj (=) (=) (under caller_id).
Proof. intros a b Hab. unfold under in Hab. by simplify_eq. Qed.

Lemma lookup_prefix_calls caller_id metadata k m :
  prefix_calls caller_id metadata !! k = Some m ↔
  ∃ k0 m0, k = under caller_id k0 ∧ metadata !! k0 = Some m0 ∧ m = prefix_metadata caller_id m0.
Proof.
  unfold prefix_calls. rewrite lookup_kmap_Some by apply _. setoid_rewrite lookup_fmap_Some. naive_solver.
Qed.

(** The pieces of a materialization. *)
Lemma expand_reusable_call_inv called caller e :
  expand_reusable_call hash_files workflows shas called caller = Ok e →
  ∃ call inner metadata,
    plan_reusable_call caller = Some call ∧ deferred_matrix (core caller) = None ∧
    jobs e = map (inner_plan caller call) inner ∧
    reusable_calls e = prefix_calls (id (core caller)) metadata ∧
    grown (rc_depth call) ∅ metadata [] inner ∧
    validate_expanded_subtree (jobs e) (needs (core caller)) = Ok tt.
Proof.
  unfold expand_reusable_call. intros (call & Hc & He)%bind_Ok.
  case_bool_decide as Hd; [done|]. apply bind_Ok in He as ([inner metadata] & Hi & ([] & Hv & [= <-])%bind_Ok).
  destruct (plan_reusable_call caller); [|done]. injection Hc as ->.
  exists call, inner, metadata. split_and!; [done| |done|done| |done].
  - destruct (deferred_matrix (core caller)); [by destruct Hd|done].
  - by eapply expand_internal_ok in Hi.
Qed.
End plans.

(** C16: where a materialized call lands in the run.  Every job gets an id
    below its caller's node and the caller's reference as its own; it waits for
    all that the caller waited for, and each of its needs is one of these or
    names a job of the subtree; its condition parses.  A nested call is one
    level deeper, within the limit, and has its record, and every record is that
    of a nested call. *)
Theorem callee_jobs_under_caller {num}
    `{NumberOps num, JsonCodec num, UnicodeCase, HashOrder, NumberMake num, FloatText, WorkflowReaders num}
    hash_files workflows shas (called : Workflow num) caller e :
  expand_reusable_call hash_files workflows shas called caller = Ok e →
  ∃ call, plan_reusable_call caller = Some call ∧
    (∀ p, p ∈ jobs e →
       (∃ inner, id (core p) = under (id (core caller)) inner) ∧ plan_workflow_ref p = Some (rc_uses call) ∧
       needs (core caller) ⊆ needs (core p) ∧
       (∀ need, need ∈ needs (core p) → need ∈ needs (core caller) ∨
          ∃ q, q ∈ jobs e ∧ (id (core q) = need ∨ base_id (core q) = need)) ∧
       check_condition (num:=num) (core p) = Ok tt ∧
       ∀ c, plan_reusable_call p = Some c →
         rc_depth c = S (rc_depth call) ∧ rc_depth c ≤ MAX_REUSABLE_WORKFLOW_DEPTH ∧
         is_Some (reusable_calls e !! id (core p))) ∧
    ∀ k m, reusable_calls e !! k = Some m → rm_caller_job_id m = k ∧
      ∃ p, p ∈ jobs e ∧ id (core p) = k ∧ is_Some (plan_reusable_call p).
Proof.
  intros (call & inner & metadata & Hc & _ & Hj & Hr & (Hrec & _ & Hnodes) & Hv)%expand_reusable_call_inv.
  exists call. rewrite Hr. split_and!; [done| |].
  - intros p Hp. pose proof Hp as Hp'. rewrite Hj in Hp'. apply list_elem_of_fmap in Hp' as (p0 & -> & Hp0).
    assert (validate_job_plans num (retain_needs (needs (core caller)) <$> jobs e) = Some (Ok tt)) as Hval.
    { unfold validate_expanded_subtree in Hv. by destruct (validate_job_plans _ _) as [[[]|]|]. }
    destruct (validate_plans_valid _ (retain_needs (needs (core caller)) (inner_plan caller call p0)) Hval)
      as [Hcond Hneeds]; [by apply list_elem_of_fmap_2|].
    split_and!; [by eexists|done|intros need ?; apply elem_of_add_needs; by right| |done|].
    + intros need Hneed. destruct (decide (need ∈ needs (core caller))) as [?|Hno]; [by left|right].
      destruct (Hneeds need) as (o & Ho & Hid); [by apply list_elem_of_filter|].
      apply list_elem_of_fmap in Ho as (q & -> & Hq). by exists q.
    + intros c Hcp. destruct (Hnodes p0 Hp0 c Hcp) as (? & ? & [m Hm]). split_and!; [done..|].
      exists (prefix_metadata (id (core caller)) m). apply lookup_prefix_calls. by eexists _, _.
  - intros k m (k0 & m0 & -> & Hm & ->)%lookup_prefix_calls.
    destruct (Hrec k0 m0 Hm) as (Hk & p & Hp & Hpid & Hpc). simpl. split; [by rewrite Hk|].
    exists (inner_plan caller call p). rewrite Hj. split_and!; [by apply list_elem_of_fmap_2|by simpl; rewrite Hpid|done].
Qed.

(** ** Authority along calls *)
Section authority.
Context {num : Type} `{NumberOps num, JsonCodec num, UnicodeCase, HashOrder, NumberMake num, FloatText,
  WorkflowReaders num}.
Variable hash_files : list (value num) → option string → result ExpressionError string.
Variables (workflows shas : gmap string string).
Implicit Types (p q : FullPlan num).

(** [p] holds no more than [q]: not a scope, nor a higher level of one, nor the
    right to an identity token. *)
Definition within p q : Prop :=
  (∀ scope, grants_any (plan_permissions p) scope → grants_any (plan_permissions q) scope) ∧
  (∀ scope, grants (plan_permissions p) scope "write" → grants (plan_permissions q) scope "write") ∧
  (plan_oidc_id_token_granted p = true → plan_oidc_id_token_granted q = true).

Lemma within_refl p : within p p.
Proof. by split_and!. Qed.
Lemma within_trans p q r : within p q → within q r → within p r.
Proof. intros (? & ? & ?) (? & ? & ?). split_and!; auto. Qed.

(** [p] is a job of a workflow that the node [caller] calls. *)
Definition materialized caller p : Prop :=
  ∃ called e, p ∈ jobs e ∧
    (expand_reusable_call hash_files workflows shas called caller = Ok e ∨
     ∃ caller_workflow outputs,
       expand_deferred_reusable_call hash_files workflows shas called caller_workflow caller outputs = Ok e).

Lemma inner_plan_within caller call p : within (inner_plan caller call p) caller.
Proof.
  split_and!; simpl.
  - intros scope Hg. by apply grants_any_call in Hg as [_ Hg].
  - intros scope Hg. apply grants_call in Hg. destruct Hg as [(_ & _ & Hg)|[? _]]; done.
  - by intros [_ Ho]%andb_true_iff.
Qed.

Lemma expand_call_within called caller e p :
  expand_reusable_call hash_files workflows shas called caller = Ok e → p ∈ jobs e →
  within p caller ∧ plan_secrets_inherit p = plan_secrets_inherit caller.
Proof.
  intros (call & inner & metadata & _ & _ & -> & _)%expand_reusable_call_inv Hp.
  apply list_elem_of_fmap in Hp as (p0 & -> & _). split; [apply inner_plan_within|done].
Qed.

Lemma deferred_cells_within called caller_workflow caller many index cells e p :
  deferred_cells hash_files workflows shas called caller_workflow caller many index cells = Ok e → p ∈ jobs e →
  within p caller ∧ plan_secrets_inherit p = plan_secrets_inherit caller.
Proof.
  revert index e. induction cells as [|cell cells IH]; intros index e; simpl.
  { intros [= <-] []%elem_of_nil. }
  intros (inputs & _ & (e1 & He1 & (e2 & He2 & [= <-])%bind_Ok)%bind_Ok)%bind_Ok.
  intros [Hp|Hp]%elem_of_app; [|by eapply IH]. by eapply expand_call_within in He1 as [Hw ?].
Qed.

Lemma materialized_within caller p :
  materialized caller p → within p caller ∧ plan_secrets_inherit p = plan_secrets_inherit caller.
Proof.
  intros (called & e & Hp & [He|(cw & outputs & He)]); [by eapply expand_call_within|].
  unfold expand_deferred_reusable_call in He.
  apply bind_Ok in He as (? & _ & (? & _ & (cells & _ & He)%bind_Ok)%bind_Ok). by eapply deferred_cells_within.
Qed.
End authority.

(** C11: calls never widen what a job may do. Take a node and a job that
    expanding the reusable calls under it yields, through any number of calls,
    each expanded at build time or, when its caller waited for outputs, at run
    time. The job's token has no scope the node's lacks, [write] only where
    the node has [write], and an identity token only if the node does; and it
    inherits all secrets exactly when the node does. (The cells that are
    expanded later from the job of a called workflow whose own matrix is
    deferred are not among them.) *)
Theorem materialized_authority_shrinks {num}
    `{NumberOps num, JsonCodec num, UnicodeCase, HashOrder, NumberMake num, FloatText, WorkflowReaders num}
    hash_files workflows shas (node job : FullPlan num) :
  rtc (materialized hash_files workflows shas) node job →
  within job node ∧ plan_secrets_inherit job = plan_secrets_inherit node.
Proof.
  induction 1 as [p|x y z Hxy _ [IHw IHs]]; [split; [apply within_refl|done]|].
  apply materialized_within in Hxy as [? ?]. split; [by eapply within_trans|congruence].
Qed.
