(* ===== verification/ConditionText.v ===== *)
(** * Conditions built as text

    What the texts of [effective_condition]
    ([crates/preloop-gha-expressions/src/conditions.rs]) and
    [merge_job_conditions] ([crates/preloop-gha-parser/src/expand.rs]) are read
    as.  A condition that parses alone cannot escape the parentheses it is put
    in: the gate is the conjunction of [success()] and the condition, and a
    merged condition that of the caller's and the job's. *)
From S2P Require Export ReusableCalls.

(** ** Markers *)

Lemma strip_suffix_Some p s u : strip_suffix p s = Some u → s = u +:+ p.
Proof.
  unfold strip_suffix. intros (r & Hr & ->)%fmap_Some_1. apply strip_prefix_Some in Hr.
  apply (f_equal str_rev) in Hr. unfold str_rev in *.
  rewrite !String.list_ascii_of_string_of_list_ascii, reverse_involutive in Hr.
  assert (∀ a b, String.list_ascii_of_string (a +:+ b) =
    String.list_ascii_of_string a ++ String.list_ascii_of_string b) as Happ
    by (intros a b; induction a as [|x a IH]; [done|]; exact (f_equal (cons x) IH)).
  assert (∀ a b, String.string_of_list_ascii (a ++ b) =
    String.string_of_list_ascii a +:+ String.string_of_list_ascii b) as Happ'
    by (intros a b; induction a as [|x a IH]; [done|]; exact (f_equal (String x) IH)).
  rewrite Happ, String.list_ascii_of_string_of_list_ascii, reverse_app, reverse_involutive, Happ' in Hr.
  by rewrite !String.string_of_list_ascii_of_string in Hr.
Qed.

Lemma trim_markers_ok s : utf8_ok s → utf8_ok (trim_expression_markers s).
Proof.
  intros Hs. unfold trim_expression_markers. pose proof (trim_utf8_ok s Hs) as Ht.
  destruct (strip_prefix "${{" (trim s)) as [t|] eqn:Hp; [|done]. cbn [mbind option_bind].
  destruct (strip_suffix "}}" t) as [u|] eqn:Hu; [|done]. apply trim_utf8_ok.
  apply strip_prefix_Some in Hp. apply strip_suffix_Some in Hu. rewrite Hp, Hu in Ht.
  by apply (template_utf8 "" u "") in Ht as [? _].
Qed.

Lemma trim_markers_trimmed s : utf8_ok s → trim (trim_expression_markers s) = trim_expression_markers s.
Proof.
  intros Hs. unfold trim_expression_markers.
  destruct (strip_prefix "${{" (trim s)) as [t|] eqn:Hp; [|by apply trim_trim]. cbn [mbind option_bind].
  destruct (strip_suffix "}}" t) as [u|] eqn:Hu; [|by apply trim_trim]. apply trim_trim.
  apply strip_prefix_Some in Hp. apply strip_suffix_Some in Hu.
  pose proof (trim_utf8_ok s Hs) as Ht. rewrite Hp, Hu in Ht. by apply (template_utf8 "" u "") in Ht as [? _].
Qed.

(** Texts that are neither trimmed nor between markers. *)
Lemma markers_gated s : utf8_ok s → trim_expression_markers (gated s) = gated s.
Proof.
  intros Hs. unfold trim_expression_markers.
  rewrite (trim_fixed (gated s) (ch "s") (chars "uccess() && (" ++ chars s) (ch ")")).
  - done.
  - unfold gated. auto 10 with utf8.
  - unfold gated. rewrite !chars_app by auto 10 with utf8. by rewrite <- app_assoc.
  - done.
  - done.
Qed.

Lemma markers_joined a b : utf8_ok a → utf8_ok b → trim_expression_markers (joined a b) = joined a b.
Proof.
  intros Ha Hb. unfold trim_expression_markers.
  rewrite (trim_fixed (joined a b) (ch "(") (chars a ++ chars ") && (" ++ chars b) (ch ")")).
  - done.
  - unfold joined. auto 10 with utf8.
  - unfold joined. rewrite !chars_app by auto 10 with utf8. by rewrite <- !app_assoc.
  - done.
  - done.
Qed.

(** ** The implicit gate *)

Lemma effective_gated condition :
  trim condition ≠ "" → contains_status_check_function (trim_expression_markers condition) = false →
  effective_condition (Some condition) = gated (trim_expression_markers condition).
Proof.
  intros Hne Hs. unfold effective_condition, str_eqb. rewrite bool_decide_eq_false_2 by done. by rewrite Hs.
Qed.

Lemma eval_unsuccessful {num} `{NumberOps num, JsonCodec num, UnicodeCase} hash_files (c : Context num) e :
  success c = false → eval_expr hash_files c (Binary OpAnd (Call "success" []) e) = Ok (JBool false).
Proof.
  destruct c as [vars s f cc w]. intros Hs. cbn in Hs. subst s. reflexivity.
Qed.

(** C17: the gate in front of a condition without status functions.  When
    the condition parses alone, the text the gate builds parses as [success()]
    and the condition, with whatever the condition contains inside the
    conjunction, or is refused as too deep; so a job whose needs did not succeed
    is not started by it. *)
Theorem success_gate_holds {num} `{NumberOps num, JsonCodec num, UnicodeCase} hash_files
    condition (e : Expr num) (c : Context num) :
  utf8_ok condition → trim condition ≠ "" →
  contains_status_check_function (trim_expression_markers condition) = false →
  parse_input (trim_expression_markers condition) = Ok e →
  let gate := effective_condition (Some condition) in
  (parse_input (trim_expression_markers gate) = Ok (Binary OpAnd (Call "success" []) e) ∧
   (success c = false → eval_bool hash_files gate c = Ok false)) ∨
  eval_bool hash_files gate c = Err (TooDeep MAX_EXPRESSION_DEPTH).
Proof.
  intros Hc Hne Hs Hp gate. unfold gate. rewrite effective_gated by done.
  pose proof (trim_markers_ok condition Hc) as Ht. unfold eval_bool, eval_expression.
  rewrite markers_gated by done.
  destruct (parse_gated (num:=num) _ e Ht Hp) as [->| ->]; [left|by right].
  split; [done|]. intros Hsucc. cbn [mbind result_bind]. by rewrite eval_unsuccessful.
Qed.

Lemma success_gate_holds_witness :
  let failed := mkContext (num:=Z) ∅ false true false None in
  eval_bool no_files (effective_condition (Some "${{ github.ref == 'x' || 1 }}")) failed = Ok false.
Proof.
  intros failed.
  destruct (success_gate_holds no_files "${{ github.ref == 'x' || 1 }}"
    (Binary OpOr (Binary OpEq (Path ["github"; "ref"]) (Literal (JString "x"))) (Literal (JNumber 1%Z))) failed)
    as [[_ Hf]|Hd].
  - by apply ascii_utf8_ok.
  - apply (bool_decide_unpack _). by vm_compute.
  - vm_compute. reflexivity.
  - vm_compute. reflexivity.
  - by apply Hf.
  - vm_compute in Hd. discriminate.
Defined.

(** ** Conditions of callers *)

(** C18: the condition of a job under a call.  When the caller's
    condition and the job's each parse alone, their merged text parses as the
    conjunction of the two trees, or is refused as too deep: neither can close
    the parentheses around it and weaken the other. *)
Theorem merged_conditions_conjoin {num} `{NumberOps num} outer inner (eo ei : Expr num) :
  utf8_ok outer → utf8_ok inner →
  parse_input (trim_expression_markers outer) = Ok eo → parse_input (trim_expression_markers inner) = Ok ei →
  ∃ merged, merge_job_conditions (Some outer) (Some inner) = Some merged ∧
    ((parse_input (trim_expression_markers merged) = Ok (Binary OpAnd eo ei)) ∨
     parse_input (num:=num) (trim_expression_markers merged) = Err (TooDeep MAX_EXPRESSION_DEPTH)).
Proof.
  intros Ho Hi Hpo Hpi. exists (joined (trim_expression_markers outer) (trim_expression_markers inner)).
  split; [unfold merge_job_conditions; by rewrite !trim_markers_trimmed|].
  rewrite markers_joined by by apply trim_markers_ok. by apply parse_joined; [apply trim_markers_ok..| |].
Qed.

(** The text [false) || (true] does not parse alone; next to it, conditions that
    do stay inside their parentheses. *)
Lemma merged_conditions_conjoin_witness :
  ∃ merged, merge_job_conditions (Some "${{ inputs.deploy || true }}") (Some "always()") = Some merged ∧
    parse_input (num:=Z) (trim_expression_markers merged) =
      Ok (Binary OpAnd (Binary OpOr (Path ["inputs"; "deploy"]) (Literal (JBool true))) (Call "always" [])).
Proof.
  destruct (merged_conditions_conjoin (num:=Z) "${{ inputs.deploy || true }}" "always()"
    (Binary OpOr (Path ["inputs"; "deploy"]) (Literal (JBool true))) (Call "always" []))
    as (merged & Hm & Hp).
  - by apply ascii_utf8_ok.
  - by apply ascii_utf8_ok.
  - vm_compute. reflexivity.
  - vm_compute. reflexivity.
  - exists merged. split; [exact Hm|]. destruct Hp as [Hp|Hp]; [exact Hp|].
    vm_compute in Hm. injection Hm as <-. vm_compute in Hp. discriminate.
Defined.
