(* ===== verification/CallChecks.v ===== *)
(** * What a reusable call is checked for

    Theorems on the checks and values of [ReusableCalls.call_site] (the inputs
    and secrets part of [expand_jobs_with_reusables_internal] of
    [crates/preloop-gha-parser/src/expand.rs]), and concrete calls that show what
    the expansion does where callers and callees share names. *)
From S2P Require Export ReusableCalls.

(** ** What a call is checked for *)
Section checks.
Context {num : Type} `{NumberOps num, JsonCodec num, UnicodeCase, HashOrder, NumberMake num, FloatText,
  WorkflowReaders num}.
Variables (workflows shas : gmap string string).
Implicit Types (job : Job num) (trigger : WorkflowCallTrigger num).

Lemma elem_of_map_entries {A} (m : gmap string A) k a : (k, a) ∈ map_entries m ↔ m !! k = Some a.
Proof.
  unfold map_entries. rewrite list_elem_of_omap. split.
  - intros (k' & _ & Hk). destruct (m !! k') eqn:Hm; [|done]. simpl in Hk. by injection Hk as -> ->.
  - intros Hm. exists k. rewrite Hm. split; [|done]. apply elem_of_btree_keys. by eexists.
Qed.

Lemma try_entries_Ok {E A B} (f : string → A → result E B) l m' :
  try_entries f l = Ok m' →
  (∀ k a, (k, a) ∈ l → ∃ b, f k a = Ok b) ∧
  ∀ k b, m' !! k = Some b → ∃ a, (k, a) ∈ l ∧ f k a = Ok b.
Proof.
  revert m'. induction l as [|[k a] l IH]; intros m'; simpl.
  { intros [= <-]. split; [by intros ? ? []%elem_of_nil|by intros ? ? []%lookup_empty_Some]. }
  intros (b & Hb & (rest & Hrest & [= <-])%bind_Ok)%bind_Ok. destruct (IH _ Hrest) as [Hf Hr]. split.
  - intros k' a' [[= -> ->]|Hin]%elem_of_cons; [by exists b|by apply Hf].
  - intros k' b' [[<- <-]|[_ Hk]]%lookup_insert_Some; [by exists a; split; [left|]|].
    destruct (Hr k' b' Hk) as (a' & ? & ?). exists a'. split; [by right|done].
Qed.

Lemma try_entries_exists {E A B} (f : string → A → result E B) l :
  (∀ k a, (k, a) ∈ l → ∃ b, f k a = Ok b) →
  ∃ m', try_entries f l = Ok m' ∧ ∀ k a, (k, a) ∈ l → is_Some (m' !! k).
Proof.
  induction l as [|[k a] l IH]; intros Hf; simpl.
  { eexists. split; [done|]. by intros ? ? []%elem_of_nil. }
  destruct (Hf k a) as [b ->]; [by left|]. simpl.
  destruct IH as (m' & -> & Hd); [intros k' a' ?; apply (Hf k'); by right|]. simpl.
  eexists. split; [done|]. intros k' a' [[= -> ->]|Hin]%elem_of_cons.
  - by rewrite lookup_insert_eq.
  - destruct (decide (k = k')) as [->|?]; [by rewrite lookup_insert_eq|]. rewrite lookup_insert_ne by done. eauto.
Qed.

Lemma try_map_Ok {E A B} (f : string → A → result E B) (m : gmap string A) m' :
  try_map f m = Ok m' → ∀ k, match m !! k with
                             | Some a => ∃ b, f k a = Ok b ∧ m' !! k = Some b
                             | None => m' !! k = None
                             end.
Proof.
  intros Hm k. destruct (try_entries_Ok f _ m' Hm) as [Hf Hr].
  destruct (try_entries_exists f _ Hf) as (m'' & Hm' & Hd). unfold try_map in Hm. rewrite Hm in Hm'.
  injection Hm' as <-. destruct (m !! k) as [a|] eqn:Hk.
  - destruct (Hd k a) as [b Hb]; [by apply elem_of_map_entries|]. exists b. split; [|done].
    destruct (Hr k b Hb) as (a' & Ha' & Hfa). apply elem_of_map_entries in Ha'. congruence.
  - destruct (m' !! k) as [b|] eqn:Hb; [|done]. destruct (Hr k b Hb) as (a' & Ha' & _).
    apply elem_of_map_entries in Ha'. congruence.
Qed.

Lemma try_map_exists {E A B} (f : string → A → result E B) (m : gmap string A) :
  (∃ m', try_map f m = Ok m') ↔ ∀ k a, m !! k = Some a → ∃ b, f k a = Ok b.
Proof.
  split.
  - intros [m' Hm] k a Hk. destruct (try_entries_Ok f _ m' Hm) as [Hf _]. apply (Hf k).
    by apply elem_of_map_entries.
  - intros Hf. destruct (try_entries_exists f (map_entries m)) as (m' & Hm & _); [|by exists m'].
    intros k a Hk%elem_of_map_entries. by apply Hf.
Qed.

Lemma names_key_true {A} name (m : gmap string A) :
  names_key name m = true ↔ ∃ k, is_Some (m !! k) ∧ eq_ignore_ascii_case k name = true.
Proof.
  unfold names_key. rewrite existsb_exists. setoid_rewrite <- list_elem_of_In.
  by setoid_rewrite elem_of_btree_keys.
Qed.

(** Each value the caller gives is for a declared input. *)
Definition inputs_declared trigger job : Prop :=
  ∀ name, is_Some (job_with job !! name) →
    ∃ k, is_Some (call_inputs trigger !! k) ∧ eq_ignore_ascii_case k name = true.

(** A given value converts to the declared type; an absent one has a default or
    is not required. *)
Definition input_supplied job (name : string) (def : InputDefinition num) : Prop :=
  match caller_value name job with
  | Some v => ∃ w, coerce_value v (input_type def) name = Ok w
  | None => is_Some (input_default def) ∨ input_required def = false
  end.

Definition secrets_declared trigger job : Prop :=
  ∀ m kv, caller_secrets job = Some m → call_secrets trigger ≠ ∅ → kv ∈ m →
    ∃ k, is_Some (call_secrets trigger !! k) ∧ eq_ignore_ascii_case k kv.1 = true.

Definition secrets_supplied trigger job : Prop :=
  ∀ name, call_secrets trigger !! name = Some true →
    ∃ m kv, caller_secrets job = Some m ∧ kv ∈ m ∧ eq_ignore_ascii_case kv.1 name = true.

Lemma check_declared_inputs_ok trigger job :
  check_declared_inputs trigger job = Ok tt ↔ inputs_declared trigger job.
Proof.
  unfold check_declared_inputs, inputs_declared. rewrite try_for_each_tt, Forall_forall.
  split; intros Hn name Hin.
  - apply names_key_true. specialize (Hn name). rewrite elem_of_btree_keys in Hn. specialize (Hn Hin).
    by destruct (names_key name (call_inputs trigger)).
  - apply elem_of_btree_keys in Hin. by rewrite (proj2 (names_key_true _ _) (Hn name Hin)).
Qed.

Lemma coerced_input_ok job name def :
  (∃ tv, coerced_input job name def = Ok tv) ↔ input_supplied job name def.
Proof.
  unfold coerced_input, input_supplied. destruct (caller_value name job) as [v|].
  - destruct (coerce_value v (input_type def) name) as [w|e]; simpl; [split; eauto|].
    split; [by intros [? ?]|by intros [? ?]].
  - destruct (input_default def) as [d|]; simpl; [split; eauto|].
    destruct (input_required def); simpl; [|split; eauto].
    split; [by intros [? ?]|by intros [[? ?]|?]].
Qed.

Lemma check_declared_secrets_ok trigger job :
  check_declared_secrets trigger job = Ok tt ↔ secrets_declared trigger job.
Proof.
  unfold check_declared_secrets, secrets_declared. destruct (caller_secrets job) as [m|]; [|by split].
  case_bool_decide as He; [by split|]. rewrite try_for_each_tt, Forall_forall. split.
  - intros Hn ? kv [= <-] _ Hin. apply names_key_true. specialize (Hn kv Hin).
    by destruct (names_key kv.1 (call_secrets trigger)).
  - intros Hn kv Hin. by rewrite (proj2 (names_key_true _ _) (Hn m kv eq_refl He Hin)).
Qed.

Lemma names_member_true name (m : imap (value num)) :
  names_member name m = true ↔ ∃ kv, kv ∈ m ∧ eq_ignore_ascii_case kv.1 name = true.
Proof. unfold names_member. rewrite existsb_exists. by setoid_rewrite <- list_elem_of_In. Qed.

Lemma check_required_secrets_ok trigger job :
  check_required_secrets trigger job = Ok tt ↔ secrets_supplied trigger job.
Proof.
  unfold check_required_secrets, secrets_supplied. rewrite try_for_each_tt, Forall_forall.
  assert (∀ name, from_option (names_member name) false (caller_secrets job) = true ↔
    ∃ m kv, caller_secrets job = Some m ∧ kv ∈ m ∧ eq_ignore_ascii_case kv.1 name = true) as Hm.
  { intros name. destruct (caller_secrets job) as [m|]; simpl; [|naive_solver].
    rewrite names_member_true. naive_solver. }
  split.
  - intros Hn name Hs. specialize (Hn (name, true)). rewrite elem_of_map_entries in Hn. specialize (Hn Hs).
    apply Hm. simpl in Hn. by destruct (from_option _ _ _).
  - intros Hn [name []] Hin%elem_of_map_entries; [|done]. by rewrite (proj2 (Hm name) (Hn name Hin)).
Qed.

Definition secrets_accepted trigger job : Prop :=
  is_secrets_inherit (job_secrets job) = true ∨ (secrets_declared trigger job ∧ secrets_supplied trigger job).

Lemma call_secrets_map_ok trigger job :
  (∃ m, call_secrets_map trigger job = Ok m) ↔ secrets_accepted trigger job.
Proof.
  unfold call_secrets_map, secrets_accepted. destruct (is_secrets_inherit (job_secrets job)); [split; eauto|].
  rewrite <- check_declared_secrets_ok, <- check_required_secrets_ok.
  destruct (check_declared_secrets trigger job) as [[]|]; simpl; [|split; [by intros []|by intros [|[]]]].
  destruct (check_required_secrets trigger job) as [[]|]; simpl; [split; eauto|split; [by intros []|by intros [|[]]]].
Qed.
(** The value of each declared input of an accepted call. *)
Definition site_input job trigger (inputs : gmap string (InputType * value num)) (name : string) : Prop :=
  match call_inputs trigger !! name with
  | Some def => ∃ v, inputs !! name = Some (input_type def, v) ∧
      match caller_value name job with
      | Some given => coerce_value given (input_type def) name = Ok v ∧ fits (input_type def) v
      | None => v = default (absent_input (input_type def)) (input_default def)
      end
  | None => inputs !! name = None
  end.

Lemma call_site_inputs depth origin job declared site :
  call_site workflows shas depth origin job declared = Ok site →
  ∀ name, site_input job (cs_trigger site) (cs_inputs site) name.
Proof.
  unfold call_site. destruct (MAX_REUSABLE_WORKFLOW_DEPTH <=? depth); [done|].
  intros (uses & _ & (yaml & _ & (called & _ & (found & _ & (trigger & _ & (u & _ &
    (coerced & Hc & (secrets & _ & [= <-])%bind_Ok)%bind_Ok)%bind_Ok)%bind_Ok)%bind_Ok)%bind_Ok)%bind_Ok)%bind_Ok.
  intros name. unfold site_input. pose proof (try_map_Ok _ _ _ Hc name) as Hn. cbn [cs_trigger cs_inputs].
  destruct (call_inputs trigger !! name) as [def|]; [|done]. destruct Hn as (tv & Htv & Hcv).
  unfold coerced_input in Htv. apply bind_Ok in Htv as (v & Hv & [= <-]). exists v. split; [done|].
  destruct (caller_value name job) as [given|]; [split; [done|by eapply coerce_fits]|].
  destruct (input_default def) as [d|]; [by injection Hv as ->|].
  destruct (input_required def); [done|by injection Hv as ->].
Qed.
End checks.

(** C15: which calls pass the checks at their site, and with which inputs. The
    check that is made once for a calling job, before its matrix and the
    expressions in the values are evaluated, passes exactly when the call
    nests at most nine deep; its reference and its file are found, the file
    parses and declares [workflow_call]; every value the call gives is for a
    declared input and converts to the input's type; every required input
    without a default is given; and the secrets are inherited, or those passed
    are declared (unless the callee declares none, when any may be passed) and
    include the required ones. Each input of the site then has the converted
    value, its default, or the empty value of its type, and no other input
    exists. *)
Theorem call_accepted_iff {num}
    `{NumberOps num, JsonCodec num, UnicodeCase, HashOrder, NumberMake num, WorkflowReaders num}
    (workflows shas : gmap string string) depth origin (job : Job num) declared :
  ((∃ site, call_site workflows shas depth origin job declared = Ok site) ↔
   depth < MAX_REUSABLE_WORKFLOW_DEPTH ∧ ∃ uses yaml called trigger,
     callee_reference declared origin shas = Ok uses ∧ callee_yaml workflows uses = Some yaml ∧
     parse_workflow yaml = Ok called ∧ workflow_call_trigger called = Ok (Some trigger) ∧
     inputs_declared trigger job ∧
     (∀ name def, call_inputs trigger !! name = Some def → input_supplied job name def) ∧
     secrets_accepted trigger job) ∧
  ∀ site, call_site workflows shas depth origin job declared = Ok site →
    ∀ name, site_input job (cs_trigger site) (cs_inputs site) name.
Proof.
  unfold call_site. split.
  - destruct (Nat.leb_spec MAX_REUSABLE_WORKFLOW_DEPTH depth) as [Hd|Hd].
    { split; [by intros []|intros [? _]; lia]. }
    split.
    + intros (site & (uses & Hu & (yaml & Hy & (called & Hp & (found & Hf & (trigger & Ht & (u & Hi &
        (coerced & Hc & (secrets & Hs & _)%bind_Ok)%bind_Ok)%bind_Ok)%bind_Ok)%bind_Ok)%bind_Ok)%bind_Ok)%bind_Ok).
      destruct u. split; [done|]. exists uses, yaml, called, trigger.
      split_and!; [done|by destruct (callee_yaml workflows uses); simplify_eq/=|done|
        by destruct found; simplify_eq/=|by apply check_declared_inputs_ok| |
        apply call_secrets_map_ok; eauto].
      intros name def Hn. apply coerced_input_ok.
      by apply (proj1 (try_map_exists (coerced_input job) _) (ex_intro _ coerced Hc)).
    + intros (_ & uses & yaml & called & trigger & -> & Hy & Hp & Hf & Hi & Hc & Hs).
      cbn [mbind result_bind]. rewrite Hy. cbn [ok_or mbind result_bind]. rewrite Hp. cbn [mbind result_bind]. rewrite Hf.
      cbn [mbind result_bind ok_or]. apply check_declared_inputs_ok in Hi as ->. cbn [mbind result_bind].
      destruct (proj2 (try_map_exists (coerced_input job) (call_inputs trigger))) as [coerced ->].
      { intros name def Hn. apply coerced_input_ok. by apply Hc. }
      apply call_secrets_map_ok in Hs as [secrets ->]. eexists. reflexivity.
  - apply call_site_inputs.
Qed.

(** ** Concrete calls *)
Section examples.

(** Two files, [a.yml] and [b.yml], which declare a string input [env]; the job
    of the first calls the second, with its own value and its own secret. *)
Definition env_trigger : WorkflowCallTrigger Z :=
  mkCallTrigger {["env" := mkInputDef InString false None]} ∅ ∅.
Definition call_options : Trigger Z := Trigger.Map [("workflow_call", JObject [])].
Definition nested_call : Job Z :=
  call_job "./b.yml" {["env" := JString "staging"]} (Some (JObject [("TOKEN", JString "t")])) None.
Definition file_a : Workflow Z := sample_workflow call_options [("inner", nested_call)].
Definition file_b : Workflow Z :=
  sample_workflow call_options [("build", run_job (RunsOnSingle "linux") [] None [sample_step "make"])].
#[local] Instance files : WorkflowReaders Z := table_readers [("a", file_a); ("b", file_b)] env_trigger.
Definition yaml : gmap string string := {["./a.yml" := "a"; "./b.yml" := "b"]}.

Definition outer_call : Job Z :=
  call_job "./a.yml" {["ENV" := JString "prod"]} (Some (JString "inherit")) (Some (JObject [("contents", JString "read")])).
Definition root : Workflow Z := sample_workflow (Trigger.Single "push") [("outer", outer_call)].

Lemma call_accepted_iff_witness :
  (∃ site, call_site yaml ∅ 0 None outer_call "./a.yml" = Ok site) ∧
  ¬ ∃ site, call_site yaml ∅ 9 None outer_call "./a.yml" = Ok site.
Proof.
  split.
  - apply (call_accepted_iff yaml ∅ 0 None outer_call "./a.yml"). split; [by apply Nat.ltb_lt|].
    exists "./a.yml", "a", file_a, env_trigger. do 4 (split; [vm_compute; reflexivity|]). split_and!; [| |by left].
    + intros name [v Hv]. cbn [outer_call call_job job_with] in Hv. apply lookup_singleton_Some in Hv as [<- _]. exists "env".
      split; [by eexists|vm_compute; reflexivity].
    + intros name def Hd. cbn [env_trigger call_inputs] in Hd. apply lookup_singleton_Some in Hd as [<- <-].
      assert (caller_value "env" outer_call = Some (JString "prod")) as Hc by (vm_compute; reflexivity).
      unfold input_supplied. rewrite Hc. exists (JString "prod"). reflexivity.
  - intros (Hd & _)%(call_accepted_iff yaml ∅ 9 None outer_call "./a.yml").
    by apply Nat.ltb_lt in Hd.
Defined.

(** The nodes of a chain of calls, outermost first. *)
Definition first_plan (r : result ParserError (ExpandedWorkflows Z)) : option (FullPlan Z) :=
  match r with Ok e => head (jobs e) | Err _ => None end.
Definition outer_node : option (FullPlan Z) := first_plan (expand_workflow no_files yaml ∅ root None None).
Definition inner_node : option (FullPlan Z) :=
  outer_node ≫= λ p, first_plan (expand_reusable_call no_files yaml ∅ file_a p).
Definition build_plan : option (FullPlan Z) :=
  inner_node ≫= λ p, first_plan (expand_reusable_call no_files yaml ∅ file_b p).

(** The nested call gives [env] the value [staging] and names one secret; the
    outer caller's input and its [secrets: inherit] replace both, in the node of
    the call and in the job it becomes. *)
Example outer_call_overrides_nested :
  (λ p, (id (core p), plan_inputs p !! "env", plan_secrets_inherit p, plan_secrets_map p !! "TOKEN")) <$> inner_node =
    Some ("outer/inner", Some (JString "prod"), true, Some "t") ∧
  (λ p, (id (core p), plan_inputs p !! "env", plan_secrets_inherit p)) <$> build_plan =
    Some ("outer/inner/build", Some (JString "prod"), true).
Proof. vm_compute. done. Qed.

(** The matrix and the name of a call are evaluated over the inputs of the
    called workflow: a caller's own input is not found there, so a matrix read
    from it has no cell and the call disappears, and a name shows the value that
    is passed on. *)
Definition matrix_call : Job Z :=
  mkJobSpec (Some "${{ inputs.env }}") (RunsOnMany []) NeedsNone None None
    (mkStrategy (Some (MatrixExpression "${{ inputs.axes }}")) None None) None EnvEmpty None None [] (Some "./b.yml")
    {["env" := JString "staging"]} None None None None ∅ None.
Definition axes_inputs : option (gmap string (value Z)) :=
  Some {["axes" := JObject [("os", JArray [JString "linux"])]; "env" := JString "prod"]}.

Example caller_inputs_not_seen :
  expand_call no_files yaml ∅ root 0 None axes_inputs None "call" matrix_call "./b.yml" ∅ = Ok ([], ∅) ∧
  expand_matrix no_files "call" (strategy_matrix (job_strategy matrix_call)) axes_inputs None =
    Ok (Combinations [[("os", JString "linux")]]) ∧
  resolved_job_name no_files (job_name matrix_call) "call" [] axes_inputs = "prod" ∧
  resolved_job_name no_files (job_name matrix_call) "call" [] (Some {["env" := JString "staging"]}) = "staging".
Proof. vm_compute. done. Qed.

(** When the matrix of a call is deferred its inputs are evaluated again per
    cell, but under the caller's spelling, without conversion to the declared
    type, and with the outputs of the needs read as nothing. *)
Example deferred_inputs_not_coerced :
  (λ m : gmap string (value Z), (m !! "Flag", m !! "flag", m !! "ref")) <$>
    (match cell_inputs no_files
        (expression_context [("on", JBool true)] (Some {["flag" := JString "${{ matrix.on }}"]}) None)
        [("Flag", JString "${{ matrix.on }}"); ("ref", JString "${{ needs.plan.outputs.ref }}")]
        {["flag" := JString "${{ matrix.on }}"]} with Ok m => Some m | Err _ => None end) =
  Some (Some (JString "true"), Some (JString "${{ matrix.on }}"), Some (JString "")).
Proof. vm_compute. done. Qed.

(** A condition with a status function replaces the implicit [success()] of
    every job of the called workflow: under a caller with [always()], a job
    without a condition runs although a job of the same workflow that it needs
    has failed. *)
Example always_reaches_inner_jobs :
  let failed := mkContext (num:=Z) ∅ false true false None in
  let effective c := effective_condition (merge_job_conditions (Some "always()") c) in
  eval_bool no_files (effective_condition None) failed = Ok false ∧
  eval_bool no_files (effective None) failed = Ok true ∧
  eval_bool no_files (effective_condition (Some "true")) failed = Ok false ∧
  eval_bool no_files (effective (Some "true")) failed = Ok true.
Proof. vm_compute. done. Qed.

(** A matrix that waits for needs of the called workflow escapes the reduction
    along the call: its node holds [read], the cells that replace it hold what
    their job asks for, and no longer name the workflow they come from. *)
Definition writing_job : Job Z :=
  mkJobSpec None (RunsOnSingle "linux") (NeedsSingle "plan") None None
    (mkStrategy (Some (MatrixExpression "${{ fromJSON(needs.plan.outputs.m) }}")) None None) None EnvEmpty None
    (Some (JObject [("contents", JString "write")])) [] None ∅ None None None None ∅ None.
Definition matrix_file : Workflow Z :=
  sample_workflow call_options [("plan", run_job (RunsOnSingle "linux") [] None []); ("write", writing_job)].
Definition cell_codec : JsonCodec Z := table_codec [("M", JObject [("x", JArray [JNumber 1%Z])])].
Definition write_node : option (FullPlan Z) :=
  outer_node ≫= λ p,
    match expand_reusable_call no_files yaml ∅ matrix_file p with
    | Ok e => find (λ q, str_eqb (id (core q)) "outer/write") (jobs e)
    | Err _ => None
    end.

Example deferred_cells_escape_reduction :
  (λ p, (plan_permissions p, plan_workflow_file p, deferred_matrix (core p))) <$> write_node =
    Some (Some {["contents" := "read"]}, Some "a.yml", Some "${{ fromJSON(needs.plan.outputs.m) }}") ∧
  (λ p, (id (core p), plan_permissions p, plan_workflow_file p)) <$>
    (match expand_deferred_matrix_job (H0 := cell_codec) no_files matrix_file "outer/write"
       "${{ fromJSON(needs.plan.outputs.m) }}" {["outer/plan" := {["m" := JString "M"]}]} None with
     | Ok plans => head plans | Err _ => None end) =
    Some ("outer/write (1)", Some {["contents" := "write"]}, None).
Proof. split; vm_compute; reflexivity. Qed.

Lemma first_plan_in r p : first_plan r = Some p → ∃ e, r = Ok e ∧ p ∈ jobs e.
Proof.
  destruct r as [e|]; [|done]. simpl. intros Hp. exists e. split; [done|].
  destruct (jobs e); [done|]. injection Hp as ->. by left.
Qed.

(** Two calls deep, the authority of the build job. *)
Lemma materialized_authority_shrinks_witness :
  match outer_node, build_plan with
  | Some node, Some job => ∀ scope, ¬ grants (plan_permissions job) scope "write"
  | _, _ => False
  end.
Proof.
  assert (plan_permissions <$> outer_node = Some (Some {["contents" := "read"]})) as Hp by (vm_compute; reflexivity).
  assert (is_Some build_plan) as [job Hj] by (vm_compute; by eexists).
  pose proof Hj as Hj'. unfold build_plan in Hj'. destruct inner_node as [mid|] eqn:Hm; [|discriminate].
  pose proof Hm as Hm'. unfold inner_node in Hm'. destruct outer_node as [node|] eqn:Hn; [|discriminate].
  cbn [mbind option_bind] in Hj', Hm'. rewrite Hj.
  destruct (materialized_authority_shrinks no_files yaml ∅ node job) as [(_ & Hw & _) _].
  - apply first_plan_in in Hj' as (e2 & He2 & ?), Hm' as (e1 & He1 & ?).
    apply (rtc_l _ node mid job); [exists file_a, e1|apply rtc_once; exists file_b, e2];
      (split; [assumption|left; assumption]).
  - injection Hp as Hp. intros scope Hg. apply Hw in Hg. rewrite Hp in Hg.
    unfold grants in Hg. cbn [effective_token_permissions] in Hg.
    apply lookup_singleton_Some in Hg as [_ Hg]. discriminate.
Defined.

Lemma callee_jobs_under_caller_witness :
  match build_plan with
  | Some job => ∃ inner, id (core job) = under "outer/inner" inner
  | None => False
  end.
Proof.
  assert (id ∘ core <$> inner_node = Some "outer/inner") as Hi by (vm_compute; reflexivity).
  assert (is_Some build_plan) as [job Hj] by (vm_compute; by eexists).
  pose proof Hj as Hj'. unfold build_plan in Hj'. destruct inner_node as [mid|] eqn:Hm; [|discriminate].
  cbn [mbind option_bind] in Hj'. rewrite Hj. apply first_plan_in in Hj' as (e & He & Hin).
  destruct (callee_jobs_under_caller no_files yaml ∅ file_b mid e He) as (call & _ & Hp & _).
  injection Hi as Hi. simpl in Hi. rewrite <- Hi. by destruct (Hp job Hin).
Defined.

End examples.
