(* ===== verification/LiteGroups.v ===== *)
(** * Concurrency groups in the embedded database

    The tables [concurrency_holds], [concurrency_waits], [jobsets] and the
    columns of [jobs] that the gates read and write, and the operations of
    [crates/preloop-runner-server/src/control/lite/concurrency.rs] and
    [settle.rs] on them.  Each operation runs inside one transaction, so it is
    a function from one state of the tables to the next or to the error that
    rolls it back.

    A row of [concurrency_holds] is keyed by its group, as the primary key of
    the table is; [concurrency_waits] is the list of its rows in the order of
    its primary key [wait_id], which SQLite assigns ([AUTOINCREMENT]).  A
    [jobset] holder is stored by the id of its row of [jobsets], which is
    unique per run and member set; the model stores the run and the set.

    The other tables these functions write ([runs], [job_assignments],
    [provision_requests], the outbox) are not read by the operations here and
    are left out, as are failures of the store itself; a constraint of the
    schema that an operation violates is an error of the model. *)
From S2P Require Export Concurrency Scheduler.

(** Namespace, repository and group name. *)
Abbreviation GroupKey := (string * string * string)%type.

#[local] Set Default Proof Using "Type".

Section groups.
(** [Detail] is the rest of a row of [jobs] and of its spec, [Rest] the other
    tables: the operations here only carry them. *)
Context {RunId Detail Rest : Type} `{EqDecision RunId}.
Abbreviation Holder := (Holder RunId).
Implicit Types (h : Holder) (r : RunId) (k : GroupKey).

Record WaitRow : Type := mkWait { wait_id : N; wait_key : GroupKey; wait_holder : Holder }.

(** The columns of [jobs] (and [max_parallel] of [job_specs]) the gates use. *)
Record JobRow : Type := mkJobRow {
  job_run : RunId;
  job_name : string;
  job_kind : string;
  job_parent : option string;
  job_base_id : string;
  job_status : string;
  job_queue_state : string;
  job_runs_on : list string;
  job_max_parallel : option N;
  job_detail : Detail;
}.

Record Db : Type := mkDb {
  holds : gmap GroupKey (string * Holder);
  waits : list WaitRow;
  last_wait_id : N;
  jobsets : list (RunId * gset string);
  job_rows : list JobRow;
  runner_labels : list (list string);
  rest : Rest;
}.
Implicit Types (db : Db).

Definition with_holds db hs : Db :=
  mkDb hs (waits db) (last_wait_id db) (jobsets db) (job_rows db) (runner_labels db) (rest db).
Definition with_waits db ws n : Db :=
  mkDb (holds db) ws n (jobsets db) (job_rows db) (runner_labels db) (rest db).
Definition with_jobsets db js : Db :=
  mkDb (holds db) (waits db) (last_wait_id db) js (job_rows db) (runner_labels db) (rest db).
Definition with_job_rows db rows : Db :=
  mkDb (holds db) (waits db) (last_wait_id db) (jobsets db) rows (runner_labels db) (rest db).

(** ** Rows *)

(** [holder_columns]: a [JobSet] gets its [jobsets] row on first use. *)
Definition holder_columns db h : Db :=
  match h with
  | HJobSet r jobs =>
      if bool_decide ((r, jobs) ∈ jobsets db) then db else with_jobsets db (jobsets db ++ [(r, jobs)])
  | _ => db
  end.

Definition hold_row db k : option (Holder * string) := (λ '(d, h), (h, d)) <$> holds db !! k.

Definition waiters db k : list (N * Holder) :=
  omap (λ w, if bool_decide (wait_key w = k) then Some (wait_id w, wait_holder w) else None) (waits db).

Definition unique_violation (table : string) : ControlError :=
  Backend ("UNIQUE constraint failed: " +:+ table).

Definition take_hold db k (display_name : string) h : result ControlError Db :=
  let db := holder_columns db h in
  match holds db !! k with
  | Some _ => Err (unique_violation "concurrency_holds")
  | None => Ok (with_holds db (<[k := (display_name, h)]> (holds db)))
  end.

Definition release_hold db k h : bool * Db :=
  let db := holder_columns db h in
  match holds db !! k with
  | Some (_, current) =>
      if bool_decide (current = h) then (true, with_holds db (delete k (holds db))) else (false, db)
  | None => (false, db)
  end.

Definition enqueue_wait db k h : Db :=
  let db := holder_columns db h in
  let id := (last_wait_id db + 1)%N in
  with_waits db (waits db ++ [mkWait id k h]) id.

Definition is_wait k h (w : WaitRow) : bool := bool_decide (wait_key w = k ∧ wait_holder w = h).

Definition remove_wait db k h : bool * Db :=
  let db := holder_columns db h in
  let kept := List.filter (λ w, negb (is_wait k h w)) (waits db) in
  (negb (length kept =? length (waits db)), with_waits db kept (last_wait_id db)).

Definition remove_wait_by_id db (id : N) : Db :=
  with_waits db (List.filter (λ w, negb (wait_id w =? id)%N) (waits db)) (last_wait_id db).

(** Insertion in the order of the primary key. *)
Fixpoint insert_by_id (w : WaitRow) (ws : list WaitRow) : option (list WaitRow) :=
  match ws with
  | [] => Some [w]
  | x :: ws =>
      if (wait_id w <? wait_id x)%N then Some (w :: x :: ws)
      else if (wait_id w =? wait_id x)%N then None
      else cons x <$> insert_by_id w ws
  end.

Definition requeue_wait db k h (id : N) : result ControlError Db :=
  let db := holder_columns db h in
  match insert_by_id (mkWait id k h) (waits db) with
  | None => Err (unique_violation "concurrency_waits")
  | Some ws => Ok (with_waits db ws (N.max id (last_wait_id db)))
  end.

Definition first_waiter db k : option (N * Holder) := head (waiters db k).

Definition hold_display_name db k : option string := fst <$> holds db !! k.

Definition job_has_wait db r (job : string) : bool :=
  existsb (λ w, contains_job (wait_holder w) r job) (waits db).

Definition job_waits db r (job : string) : list (GroupKey * Holder) :=
  omap (λ w, if contains_job (wait_holder w) r job then Some (wait_key w, wait_holder w) else None)
    (waits db).

(** The rows of a table keyed by group come in the order of its keys, which
    the code does not rely on. *)
Definition job_holds db r (job : string) : list (GroupKey * Holder) :=
  omap (λ '(k, (_, h)), if contains_job h r job then Some (k, h) else None) (map_to_list (holds db)).

Definition run_holds db r : list (GroupKey * Holder) :=
  omap (λ '(k, (_, h)), if bool_decide (holder_run h = r) then Some (k, h) else None)
    (map_to_list (holds db)).

Definition find_jobset db r (jobs : gset string) : bool := bool_decide ((r, jobs) ∈ jobsets db).

(** ** Stuck holders *)

Definition platform_of (label : string) : option string :=
  let label := to_ascii_lowercase label in
  if bool_decide (label ∈ ["linux"; "macos"; "windows"]) then Some label else None.

Definition registered_platforms db : list string :=
  foldl (λ platforms label,
    match platform_of label with
    | Some os => if bool_decide (os ∈ platforms) then platforms else platforms ++ [os]
    | None => platforms
    end) [] (concat (runner_labels db)).

Definition rows_of db r : list JobRow := List.filter (λ j, bool_decide (job_run j = r)) (job_rows db).

(** [run_stuck_on_external_hosts]; a run with no row of its own is missing. *)
Definition run_stuck_on_external_hosts db r : bool :=
  if existsb (λ os, str_eqb os "macos" || str_eqb os "windows") (registered_platforms db) then false
  else
    forallb (λ j,
      if is_terminal (status_parse (job_status j)) then true
      else if negb (str_eqb (job_queue_state j) "ready") then false
      else needs_external_host (job_runs_on j)) (rows_of db r).

(** ** Acquisition *)

Inductive AcqOutcome : Type := Acquired | Parked | ArrivalCancelled | AcqFailed.

(** [cancel_holder] of [settle.rs], and the order of the event of a run (its
    row of [run_submissions], decoded).  The cancellation settles jobs, whose
    release comes back to the operations here, so it is an argument of them;
    [LitePromote.cancel] is the whole of it, and the sweep there
    ([acquire_job_gate], [advance_gates]) calls [acquire] with it. *)
Variables (cancel : Db → Holder → result ControlError Db)
          (event_order_of : RunId → result ControlError (option EventOrder)).

(** Some holder of another run stands for a newer event than the arrival. *)
Fixpoint newer_than (arrival : EventOrder) r (existing : list Holder) : result ControlError bool :=
  match existing with
  | [] => Ok false
  | e :: existing =>
      if bool_decide (holder_run e = r) then newer_than arrival r existing
      else
        o ← event_order_of (holder_run e);
        match o with
        | Some o => if is_older_than arrival o then Ok true else newer_than arrival r existing
        | None => newer_than arrival r existing
        end
  end.

Definition superseded (displacement : bool) r (existing : list Holder) : result ControlError bool :=
  if negb displacement then Ok false
  else
    o ← event_order_of r;
    match o with
    | Some arrival => newer_than arrival r existing
    | None => Ok false
    end.

Definition gate_row k (cancel_flag : bool) (id : N) h : ConcurrencyRow RunId :=
  mkConcurrencyRow k.2 (holder_run h) (match h with HJob _ job => Some job | _ => None end) id cancel_flag.

(** Cancel a displaced waiter of another run, and drop its row. *)
Definition displace_waiter k r db h : result ControlError Db :=
  db ← (if bool_decide (holder_run h = r) then Ok db else cancel db h);
  Ok (remove_wait db k h).2.

Fixpoint displace_waiters k r db (hs : list Holder) : result ControlError Db :=
  match hs with
  | [] => Ok db
  | h :: hs => db ← displace_waiter k r db h; displace_waiters k r db hs
  end.

Definition acquire db k (display_name : string) h (cancel_in_progress : bool)
    (queue : ConcurrencyQueue) : result ControlError (AcqOutcome * Db) :=
  let current := hold_row db k in
  let pending := waiters db k in
  let acquired db := (Acquired, db) in
  late ← superseded (cancel_in_progress || bool_decide (queue = Single)) (holder_run h)
           (option_list (fst <$> current) ++ pending.*2);
  if late : bool then Ok (ArrivalCancelled, db)
  else
    match current with
    | Some (current_holder, _) =>
        if run_stuck_on_external_hosts db (holder_run current_holder) then
          acquired <$> take_hold (release_hold db k current_holder).2 k display_name h
        else
          match concurrency_admission (gate_row k cancel_in_progress 0 h)
                  (Some (gate_row k false 0 current_holder)) with
          | AdmissionAcquired => acquired <$> take_hold db k display_name h
          | CancelCurrent _ =>
              db ← displace_waiters k (holder_run h) db pending.*2;
              let db := (release_hold db k current_holder).2 in
              db ← (if bool_decide (holder_run current_holder = holder_run h) then Ok db
                    else cancel db current_holder);
              acquired <$> take_hold db k display_name h
          | AdmissionCancelled => Ok (ArrivalCancelled, db)
          | Waiting =>
              let existing := (λ '(id, w), gate_row k false id w) <$> pending in
              let decision := concurrency_queue_decision queue existing in
              if cancel_arrival decision then Ok (ArrivalCancelled, db)
              else
                db ← displace_waiters k (holder_run h) db
                       (omap (λ row, snd <$> find (λ '(id, _), (id =? cr_wait_id row)%N) pending)
                          (cancel_pending decision));
                if park_arrival decision then Ok (Parked, enqueue_wait db k h)
                else Ok (Acquired, db)
          end
    | None => acquired <$> take_hold db k display_name h
    end.

(** ** Promotion and release *)

Definition is_job r (job : string) (j : JobRow) : bool := bool_decide (job_run j = r ∧ job_name j = job).

Definition find_job db r (job : string) : option JobRow := find (is_job r job) (job_rows db).

Definition with_state (queue_state status : string) (j : JobRow) : JobRow :=
  mkJobRow (job_run j) (job_name j) (job_kind j) (job_parent j) (job_base_id j) status queue_state
    (job_runs_on j) (job_max_parallel j) (job_detail j).

(** [UPDATE jobs SET queue_state = .., status = .. WHERE p]. *)
Definition update_jobs (p : JobRow → bool) (queue_state status : string) db : Db :=
  with_job_rows db ((λ j, if p j then with_state queue_state status j else j) <$> job_rows db).

Definition active_leg r (base_id : string) (j : JobRow) : bool :=
  bool_decide (job_run j = r) && str_eqb (job_base_id j) base_id &&
  (str_eqb (job_status j) "in_progress" || bool_decide (job_queue_state j ∈ ["ready"; "claimed"])).

Definition under_max_parallel db (j : JobRow) : bool :=
  match job_max_parallel j with
  | None => true
  | Some limit =>
      (N.of_nat (length (List.filter (active_leg (job_run j) (job_base_id j)) (job_rows db))) <? limit)%N
  end.

(** The queue columns [enqueue_ready] writes. *)
Definition enqueue_ready_job db (j : JobRow) : Db :=
  update_jobs (is_job (job_run j) (job_name j)) "ready" "queued" db.

Definition held (j : JobRow) : bool := str_eqb (job_queue_state j) "held".

Definition held_jobs_of_run db r : list string :=
  job_name <$> List.filter (λ j, bool_decide (job_run j = r) && held j && str_eqb (job_status j) "pending"
                                 && negb (job_has_wait db r (job_name j))) (job_rows db).

Inductive Advance : Type := AdvanceReady | AdvanceBlocked | AdvanceFail (status : ExecutionStatus).

(** The sweep of [promote.rs] that queues what became runnable, the gates of
    a jobset, and the conclusion of a jobset that could not be admitted. *)
Variables (promote_run : Db → RunId → result ControlError Db)
          (advance_jobset : Db → RunId → gset string → GroupKey → result ControlError (Advance * Db))
          (fail_jobset : Db → RunId → gset string → ExecutionStatus → result ControlError Db).

(** A jobset that took the slot: its other gates, then its members. *)
Definition admit_jobset db k r (jobs : gset string) : result ControlError Db :=
  advanced ← advance_jobset db r jobs k;
  match advanced with
  | (AdvanceBlocked, db) => Ok db
  | (AdvanceFail status, db) => fail_jobset db r jobs status
  | (AdvanceReady, db) =>
      promote_run (update_jobs (λ j, bool_decide (job_run j = r ∧ job_name j ∈ jobs) && held j)
                     "blocked" "queued" db) r
  end.

Definition promote_next_in_group db k (display : option string) : result ControlError Db :=
  match first_waiter db k with
  | None => Ok db
  | Some (id, h) =>
      let db := remove_wait_by_id db id in
      let display := default k.2 display in
      match h with
      | HJob r job =>
          match find_job db r job with
          | None => Ok db
          | Some j =>
              if is_terminal (status_parse (job_status j)) || negb (held j) then Ok db
              else if negb (under_max_parallel db j) then requeue_wait db k h id
              else
                db ← take_hold db k display h;
                Ok (enqueue_ready_job db j)
          end
      | HRun r =>
          let parked := held_jobs_of_run db r in
          if length parked =? 0 then Ok db
          else
            db ← take_hold db k display h;
            promote_run (update_jobs (λ j, bool_decide (job_run j = r ∧ job_name j ∈ parked))
                           "blocked" "queued" db) r
      | HJobSet r jobs =>
          if negb (find_jobset db r jobs) then Ok db
          else
            db ← take_hold db k display h;
            admit_jobset db k r jobs
      end
  end.

Definition release_and_promote db k h : result ControlError Db :=
  let display := hold_display_name db k in
  let '(released, db) := release_hold db k h in
  if released : bool then promote_next_in_group db k display else Ok db.

Fixpoint release_each (release : Db → Holder → bool) db (l : list (GroupKey * Holder)) :
    result ControlError Db :=
  match l with
  | [] => Ok db
  | (k, h) :: l =>
      db ← (if release db h then release_and_promote db k h else Ok db);
      release_each release db l
  end.

(** A matrix parent that its legs have replaced. *)
Definition replaced (rows : list JobRow) (j : JobRow) : bool :=
  str_eqb (job_kind j) "matrix_parent" &&
  existsb (λ c, bool_decide (job_parent c = Some (job_name j))) rows.

(** The rows that count for a run, and the statuses of its jobs. *)
Definition live_rows db r : list JobRow :=
  List.filter (λ j, negb (replaced (rows_of db r) j)) (rows_of db r).

Definition run_statuses db r : gmap string ExecutionStatus :=
  list_to_map ((λ j, (job_name j, status_parse (job_status j))) <$> live_rows db r).

Definition release_concurrency_for_job db r (job : string) : result ControlError Db :=
  let statuses := run_statuses db r in
  let release _ h := match h with HJob _ _ => true | _ => holder_is_terminal h statuses end in
  db ← release_each release db (job_holds db r job);
  Ok (foldl (λ db '(k, h), (remove_wait db k h).2) db (job_waits db r job)).

Definition release_concurrency_for_run db r : result ControlError Db :=
  db ← release_each (λ _ _, true) db (run_holds db r);
  Ok (with_waits db (List.filter (λ w, negb (bool_decide (holder_run (wait_holder w) = r))) (waits db))
        (last_wait_id db)).

(** ** Reconciliation at boot

    The part of [reconcile_on_boot] of [lite/lifecycle.rs] on groups: each hold
    of a run that is over or unknown ([live] is the join with [runs]) passes to
    the group's oldest waiter, or is deleted; then the waits of such runs go. *)
Definition reconcile_dead_hold db k : result ControlError Db :=
  if bool_decide (is_Some (first_waiter db k)) then promote_next_in_group db k (hold_display_name db k)
  else Ok (with_holds db (delete k (holds db))).

Fixpoint reconcile_each db (keys : list GroupKey) : result ControlError Db :=
  match keys with
  | [] => Ok db
  | k :: keys => db ← reconcile_dead_hold db k; reconcile_each db keys
  end.

Definition reconcile_groups (live : RunId → bool) db : result ControlError Db :=
  let dead := omap (λ '(k, (_, h)), if live (holder_run h) then None else Some k) (map_to_list (holds db)) in
  db ← reconcile_each db dead;
  Ok (with_waits db (List.filter (λ w, live (holder_run (wait_holder w))) (waits db)) (last_wait_id db)).

(** ** The tables stay well formed *)

(** [lia] without the callbacks, which it would make a lemma depend on. *)
#[local] Ltac arith :=
  try clear promote_run; try clear advance_jobset; try clear fail_jobset;
  try clear event_order_of; try clear cancel; lia.

Definition older (a b : WaitRow) : Prop := (wait_id a < wait_id b)%N.

(** Wait rows are in the order of their ids, which are all assigned. *)
Record wf db : Prop := mk_wf {
  wf_sorted : StronglySorted older (waits db);
  wf_assigned : Forall (λ w, (wait_id w <= last_wait_id db)%N) (waits db);
}.

Definition of_key k (ws : list WaitRow) : list (N * Holder) :=
  omap (λ w, if bool_decide (wait_key w = k) then Some (wait_id w, wait_holder w) else None) ws.

Lemma holder_columns_holds db h : holds (holder_columns db h) = holds db.
Proof. unfold holder_columns. by repeat case_match. Qed.
Lemma holder_columns_waits db h : waits (holder_columns db h) = waits db.
Proof. unfold holder_columns. by repeat case_match. Qed.
Lemma holder_columns_last db h : last_wait_id (holder_columns db h) = last_wait_id db.
Proof. unfold holder_columns. by repeat case_match. Qed.

Lemma sorted_filter (p : WaitRow → bool) ws :
  StronglySorted older ws → StronglySorted older (List.filter p ws).
Proof.
  induction 1 as [|w ws Hs IH Hw]; simpl; [constructor|]. destruct (p w); [|done].
  constructor; [done|]. rewrite Forall_forall in *. intros x Hx. apply Hw.
  apply list_elem_of_In, filter_In in Hx as [Hx _]. by apply list_elem_of_In.
Qed.

Lemma forall_filter (P : WaitRow → Prop) (p : WaitRow → bool) ws :
  Forall P ws → Forall P (List.filter p ws).
Proof. induction 1; simpl; [done|]. destruct (p x); [by constructor|done]. Qed.

Lemma wf_filter p db : wf db → wf (with_waits db (List.filter p (waits db)) (last_wait_id db)).
Proof. intros [Hs Ha]. split; simpl; auto using sorted_filter, forall_filter. Qed.

Lemma wf_waits db db' : waits db' = waits db → last_wait_id db' = last_wait_id db → wf db → wf db'.
Proof. intros Hw Hl [Hs Ha]. split; rewrite Hw, ?Hl; done. Qed.

Lemma wf_columns db h : wf db → wf (holder_columns db h).
Proof. apply wf_waits; auto using holder_columns_waits, holder_columns_last. Qed.

Lemma wf_remove_wait db k h : wf db → wf (remove_wait db k h).2.
Proof. intros Hwf%(wf_columns _ h). unfold remove_wait. simpl. by apply wf_filter. Qed.

Lemma wf_remove_by_id db id : wf db → wf (remove_wait_by_id db id).
Proof. apply wf_filter. Qed.

Lemma wf_release db k h : wf db → wf (release_hold db k h).2.
Proof.
  intros Hwf%(wf_columns _ h). unfold release_hold. repeat case_match; simpl; try done.
  by apply (wf_waits (holder_columns db h)).
Qed.

Lemma wf_take db k d h db' : take_hold db k d h = Ok db' → wf db → wf db'.
Proof.
  unfold take_hold. case_match; [done|]. intros [= <-] Hwf%(wf_columns _ h).
  by apply (wf_waits (holder_columns db h)).
Qed.

Lemma sorted_snoc ws w : StronglySorted older ws → Forall (λ x, older x w) ws → StronglySorted older (ws ++ [w]).
Proof.
  induction 1 as [|x ws Hs IH Hx]; intros Hw; simpl; [repeat constructor|].
  inversion Hw; subst. constructor; [by apply IH|]. apply Forall_app. split; [done|by constructor].
Qed.

Lemma wf_enqueue db k h : wf db → wf (enqueue_wait db k h).
Proof.
  intros [Hs Ha]%(wf_columns _ h). unfold enqueue_wait. split; simpl.
  - apply sorted_snoc; [done|]. eapply Forall_impl; [done|]. intros w Hw. unfold older. simpl in Hw |- *. arith.
  - apply Forall_app. split; [|by repeat constructor].
    eapply Forall_impl; [done|]. intros w Hw. simpl in Hw |- *. arith.
Qed.

(** ** What each operation does to the queue of a group *)

Lemma of_key_app k ws ws' : of_key k (ws ++ ws') = of_key k ws ++ of_key k ws'.
Proof. unfold of_key. apply omap_app. Qed.

Lemma waiters_of_key db k : waiters db k = of_key k (waits db).
Proof. done. Qed.

Lemma waiters_columns db h k : waiters (holder_columns db h) k = waiters db k.
Proof. by rewrite !waiters_of_key, holder_columns_waits. Qed.

Lemma waiters_enqueue db k h :
  waiters (enqueue_wait db k h) k = waiters db k ++ [((last_wait_id db + 1)%N, h)].
Proof.
  unfold enqueue_wait. rewrite !waiters_of_key. simpl.
  rewrite holder_columns_waits, holder_columns_last, of_key_app. f_equal. unfold of_key. simpl.
  by rewrite bool_decide_true.
Qed.

Lemma of_key_cons k w ws :
  of_key k (w :: ws) =
  (if bool_decide (wait_key w = k) then [(wait_id w, wait_holder w)] else []) ++ of_key k ws.
Proof. unfold of_key. simpl. by case_bool_decide. Qed.

Lemma of_key_remove k h ws :
  of_key k (List.filter (λ w, negb (is_wait k h w)) ws) =
  List.filter (λ w, negb (bool_decide (w.2 = h))) (of_key k ws).
Proof.
  induction ws as [|w ws IH]; [done|]. rewrite of_key_cons. cbn [List.filter]. unfold is_wait at 1.
  destruct (decide (wait_key w = k)) as [Hk|Hk].
  - rewrite (bool_decide_true (wait_key w = k)) by done. cbn [app List.filter snd].
    destruct (decide (wait_holder w = h)) as [Hh|Hh].
    + by rewrite !bool_decide_true by done.
    + rewrite !bool_decide_false by naive_solver. cbn [negb app]. rewrite of_key_cons, bool_decide_true by done.
      by rewrite IH.
  - rewrite !bool_decide_false by naive_solver. cbn [negb app]. rewrite of_key_cons, bool_decide_false by done.
    done.
Qed.

Lemma waiters_remove db k h :
  waiters (remove_wait db k h).2 k = List.filter (λ w, negb (bool_decide (w.2 = h))) (waiters db k).
Proof.
  unfold remove_wait. rewrite !waiters_of_key. simpl. rewrite holder_columns_waits. apply of_key_remove.
Qed.

Lemma waiters_release db k h k' : waiters (release_hold db k h).2 k' = waiters db k'.
Proof.
  unfold release_hold. rewrite waiters_of_key, (waiters_of_key db), <-(holder_columns_waits db h).
  by repeat case_match.
Qed.

Lemma release_holds db k d h :
  holds db !! k = Some (d, h) → (release_hold db k h).1 = true ∧ holds (release_hold db k h).2 !! k = None.
Proof.
  intros Hk. unfold release_hold. rewrite holder_columns_holds, Hk. rewrite bool_decide_true by done.
  split; [done|]. simpl. apply lookup_delete_eq.
Qed.

Lemma take_hold_ok db k d h db' :
  take_hold db k d h = Ok db' →
  holds db !! k = None ∧ holds db' !! k = Some (d, h) ∧ (∀ k', waiters db' k' = waiters db k') ∧
  last_wait_id db' = last_wait_id db.
Proof.
  unfold take_hold. destruct (holds (holder_columns db h) !! k) eqn:Hk; [done|]. intros [= <-].
  rewrite holder_columns_holds in Hk. simpl. split_and!; [done|apply lookup_insert_eq| |].
  - intros k'. by rewrite !waiters_of_key, <-(holder_columns_waits db h).
  - apply holder_columns_last.
Qed.

Lemma remove_wait_holds db k h : holds (remove_wait db k h).2 = holds db.
Proof. unfold remove_wait. simpl. apply holder_columns_holds. Qed.

(** ** Displacement

    The contract of the cancellation callback towards the group being
    acquired: it leaves the group's hold alone and only removes waiters. *)
Definition cancel_keeps k : Prop :=
  ∀ db h db', wf db → cancel db h = Ok db' →
    wf db' ∧ holds db' !! k = holds db !! k ∧ waiters db' k `sublist_of` waiters db k ∧
    (last_wait_id db <= last_wait_id db')%N.

Lemma sublist_list_filter {A} (p : A → bool) (l : list A) : List.filter p l `sublist_of` l.
Proof. induction l as [|x l IH]; simpl; [done|]. destruct (p x); by constructor. Qed.

Lemma Forall_sublist {A} (P : A → Prop) (l l' : list A) : l `sublist_of` l' → Forall P l' → Forall P l.
Proof. induction 1; intros Hl; try inversion Hl; subst; auto. Qed.

Lemma elem_of_sublist {A} (x : A) (l l' : list A) : l `sublist_of` l' → x ∈ l → x ∈ l'.
Proof.
  induction 1 as [|y l l' Hs IH|y l l' Hs IH]; intros Hx; [done| |right; auto].
  apply elem_of_cons in Hx as [->|Hx]; [by left|right; auto].
Qed.

Lemma displace_waiter_spec k r db h db' :
  cancel_keeps k → wf db → displace_waiter k r db h = Ok db' →
  wf db' ∧ holds db' !! k = holds db !! k ∧ waiters db' k `sublist_of` waiters db k ∧
  (last_wait_id db <= last_wait_id db')%N ∧ Forall (λ w, w.2 ≠ h) (waiters db' k).
Proof.
  intros Hc Hwf. unfold displace_waiter.
  assert (∀ db1, wf db1 → holds db1 !! k = holds db !! k → waiters db1 k `sublist_of` waiters db k →
    (last_wait_id db <= last_wait_id db1)%N →
    let db' := (remove_wait db1 k h).2 in
    wf db' ∧ holds db' !! k = holds db !! k ∧ waiters db' k `sublist_of` waiters db k ∧
    (last_wait_id db <= last_wait_id db')%N ∧ Forall (λ w, w.2 ≠ h) (waiters db' k)) as Hrem.
  { intros db1 Hw1 Hh1 Hs1 Hl1 db2. split_and!.
    - by apply wf_remove_wait.
    - unfold db2. by rewrite remove_wait_holds.
    - unfold db2. rewrite waiters_remove. etrans; [apply sublist_list_filter|done].
    - unfold db2, remove_wait. simpl. by rewrite holder_columns_last.
    - unfold db2. rewrite waiters_remove. apply Forall_forall. intros w [_ Hw]%list_elem_of_In%filter_In.
      by apply negb_true_iff, bool_decide_eq_false_1 in Hw. }
  case_bool_decide; simpl.
  - intros [= <-]. by apply Hrem.
  - destruct (cancel db h) as [db1|] eqn:Hdb1; simpl; [|done]. intros [= <-].
    destruct (Hc db h db1) as (? & ? & ? & ?); [done|done|]. by apply Hrem.
Qed.

Lemma displace_waiters_spec k r hs db db' :
  cancel_keeps k → wf db → displace_waiters k r db hs = Ok db' →
  wf db' ∧ holds db' !! k = holds db !! k ∧ waiters db' k `sublist_of` waiters db k ∧
  (last_wait_id db <= last_wait_id db')%N ∧ Forall (λ w, w.2 ∉ hs) (waiters db' k).
Proof.
  intros Hc. revert db. induction hs as [|h hs IH]; intros db Hwf; simpl.
  { intros [= <-]. split_and!; try done. apply Forall_forall. intros w _. apply not_elem_of_nil. }
  destruct (displace_waiter k r db h) as [db1|] eqn:Hd; simpl; [|done].
  apply displace_waiter_spec in Hd as (Hwf1 & Hh1 & Hs1 & Hl1 & Hne); [|done|done].
  intros (Hwf' & Hh' & Hs' & Hl' & Hne')%IH; [|done]. split_and!.
  - done.
  - by rewrite Hh'.
  - by etrans.
  - arith.
  - apply (Forall_sublist _ _ _ Hs') in Hne. rewrite Forall_forall in *. intros w Hw.
    apply not_elem_of_cons. auto.
Qed.

(** Displacing every waiter of the group empties its queue. *)
Lemma displace_all k r db db' :
  cancel_keeps k → wf db → displace_waiters k r db (waiters db k).*2 = Ok db' →
  wf db' ∧ holds db' !! k = holds db !! k ∧ waiters db' k = [] ∧
  (last_wait_id db <= last_wait_id db')%N.
Proof.
  intros Hc Hwf (Hwf' & Hh & Hs & Hl & Hne)%displace_waiters_spec; [|done|done].
  split_and!; try done. destruct (waiters db' k) as [|w ws]; [done|exfalso].
  apply Forall_cons in Hne as [Hne _]. apply Hne, list_elem_of_fmap_2.
  apply (elem_of_sublist _ _ _ Hs). by left.
Qed.

Lemma of_key_nodup k db : wf db → NoDup (waiters db k).*1.
Proof.
  intros [Hs _]. rewrite waiters_of_key. induction Hs as [|w ws Hs IH Hw]; [constructor|].
  rewrite of_key_cons. case_bool_decide; simpl; [|done]. constructor; [|done].
  intros ([id h] & Hid & Hin)%list_elem_of_fmap. unfold of_key in Hin. simpl in Hid.
  apply list_elem_of_omap in Hin as (x & Hx & Heq). case_bool_decide; [|done]. injection Heq as <- <-.
  rewrite Forall_forall in Hw. specialize (Hw x Hx). unfold older in Hw. simpl in *. arith.
Qed.

Lemma find_each (l : list (N * Holder)) :
  NoDup l.*1 → omap (λ w, snd <$> find (λ '(id, _), (id =? w.1)%N) l) l = l.*2.
Proof.
  intros Hn. assert (∀ sub, sub ⊆ l → omap (λ w, snd <$> find (λ '(id, _), (id =? w.1)%N) l) sub = sub.*2)
    as Hsub; [|by apply Hsub].
  intros sub. induction sub as [|[id h] sub IH]; intros Hs; simpl; [done|].
  assert (find (λ '(id', _), (id' =? id)%N) l = Some (id, h)) as ->; [|simpl; f_equal; apply IH; intros x Hx; apply Hs; by right].
  assert ((id, h) ∈ l) as Hin by (apply Hs; by left). clear -Hn Hin.
  induction l as [|[id' h'] l IH]; [by apply not_elem_of_nil in Hin|]. simpl in *.
  inversion Hn as [|? ? Hnot Hn']; subst. apply elem_of_cons in Hin as [[= -> ->]|Hin].
  { by rewrite N.eqb_refl. }
  destruct (id' =? id)%N eqn:Hid; [|by apply IH]. apply N.eqb_eq in Hid as ->.
  destruct Hnot. by apply (list_elem_of_fmap_2 fst) in Hin.
Qed.

(** The holders a single-mode arrival displaces are those of every waiter. *)
Lemma displaced_holders k db :
  wf db →
  omap (λ row, snd <$> find (λ '(id, _), (id =? cr_wait_id row)%N) (waiters db k))
    ((λ '(id, w), gate_row k false id w) <$> waiters db k) = (waiters db k).*2.
Proof.
  intros Hwf. etrans; [|exact (find_each _ (of_key_nodup k db Hwf))].
  generalize (waiters db k) at 1 3 as all. intros all.
  induction (waiters db k) as [|[id h] l IH]; [done|]. cbn. by rewrite IH.
Qed.

(** ** Acquisition: what each outcome leaves behind *)

Lemma take_hold_acquired db k d h o db' :
  pair Acquired <$> take_hold db k d h = Ok (o, db') → wf db →
  o = Acquired ∧ wf db' ∧ holds db !! k = None ∧ holds db' !! k = Some (d, h) ∧
  waiters db' k = waiters db k.
Proof.
  destruct (take_hold db k d h) as [db1|] eqn:Ht; simpl; [|done]. intros [= <- <-] Hwf.
  pose proof (wf_take _ _ _ _ _ Ht Hwf). apply take_hold_ok in Ht as (? & ? & Hw & _). auto.
Qed.

Lemma hold_row_some db k h d : hold_row db k = Some (h, d) → holds db !! k = Some (d, h).
Proof. unfold hold_row. destruct (holds db !! k) as [[]|]; simpl; congruence. Qed.

Lemma hold_row_none db k : hold_row db k = None → holds db !! k = None.
Proof. unfold hold_row. by destruct (holds db !! k). Qed.

(** Why an arrival may take the slot of a group. *)
Definition may_take db k h (cancel_in_progress : bool) : Prop :=
  match holds db !! k with
  | None => True
  | Some (_, current) =>
      run_stuck_on_external_hosts db (holder_run current) = true ∨
      (cancel_in_progress = true ∧ holder_run current ≠ holder_run h)
  end.

(** The queue an arrival joins. *)
Definition kept_waiters db k (queue : ConcurrencyQueue) : list (N * Holder) :=
  match queue with Single => [] | Max => waiters db k end.

Definition acquire_post db k d h (cip : bool) queue (o : AcqOutcome) db' : Prop :=
  match o with
  | Acquired =>
      may_take db k h cip ∧ holds db' !! k = Some (d, h) ∧
      (waiters db' k = waiters db k ∨ waiters db' k = [])
  | Parked =>
      cip = false ∧ is_Some (holds db !! k) ∧ holds db' !! k = holds db !! k ∧
      length (waiters db' k) <= MAX_CONCURRENCY_WAITERS ∧
      ∃ id, (last_wait_id db < id)%N ∧ waiters db' k = kept_waiters db k queue ++ [(id, h)]
  | ArrivalCancelled =>
      db' = db ∧
      (superseded (cip || bool_decide (queue = Single)) (holder_run h)
         (option_list (fst <$> hold_row db k) ++ (waiters db k).*2) = Ok true ∨
       (queue = Max ∧ cip = false ∧ MAX_CONCURRENCY_WAITERS <= length (waiters db k)))
  | AcqFailed => False
  end.

Lemma acquire_displace db k d h d0 h0 cip queue o db1 db' :
  cancel_keeps k → wf db → hold_row db k = Some (h0, d0) → cip = true → holder_run h0 ≠ holder_run h →
  displace_waiters k (holder_run h) db (waiters db k).*2 = Ok db1 →
  (db2 ← (if bool_decide (holder_run h0 = holder_run h) then Ok (release_hold db1 k h0).2
          else cancel (release_hold db1 k h0).2 h0);
   pair Acquired <$> take_hold db2 k d h) = Ok (o, db') →
  wf db' ∧ acquire_post db k d h cip queue o db'.
Proof.
  intros Hc Hwf Hrow%hold_row_some -> Hne (Hwf1 & Hh1 & Hw1 & Hl1)%displace_all; [|done|done].
  rewrite bool_decide_false by done. rewrite Hrow in Hh1. apply release_holds in Hh1 as [_ Hh2].
  assert (wf (release_hold db1 k h0).2) as Hwf2 by by apply wf_release.
  assert (waiters (release_hold db1 k h0).2 k = []) as Hw2 by by rewrite waiters_release.
  revert Hh2 Hwf2 Hw2. generalize (release_hold db1 k h0).2. intros db2 Hh2 Hwf2 Hw2.
  destruct (cancel db2 h0) as [db3|] eqn:H3; simpl; [|done].
  apply Hc in H3 as (Hwf3 & Hh3 & Hs3 & _); [|done]. rewrite Hw2 in Hs3.
  assert (waiters db3 k = []) as Hw3 by (by inversion Hs3).
  intros (-> & Hwf' & _ & Hk' & Hw')%take_hold_acquired; [|done]. split; [done|]. simpl.
  unfold may_take. rewrite Hrow, Hw', Hw3. auto.
Qed.

Lemma acquire_wait db k d h d0 h0 queue o db' :
  cancel_keeps k → wf db → hold_row db k = Some (h0, d0) →
  (let decision := concurrency_queue_decision queue ((λ '(id, w), gate_row k false id w) <$> waiters db k) in
   if cancel_arrival decision then Ok (ArrivalCancelled, db)
   else
     db ← displace_waiters k (holder_run h) db
            (omap (λ row, snd <$> find (λ '(id, _), (id =? cr_wait_id row)%N) (waiters db k))
               (cancel_pending decision));
     if park_arrival decision then Ok (Parked, enqueue_wait db k h) else Ok (Acquired, db)) = Ok (o, db') →
  wf db' ∧ acquire_post db k d h false queue o db'.
Proof.
  intros Hc Hwf Hrow%hold_row_some.
  assert (∀ db1, wf db1 → holds db1 !! k = holds db !! k → (last_wait_id db <= last_wait_id db1)%N →
    waiters db1 k = kept_waiters db k queue → length (kept_waiters db k queue) < MAX_CONCURRENCY_WAITERS →
    wf (enqueue_wait db1 k h) ∧ acquire_post db k d h false queue Parked (enqueue_wait db1 k h)) as Hpark.
  { intros db1 Hwf1 Hh1 Hl1 Hw1 Hlen. split; [by apply wf_enqueue|]. simpl. rewrite waiters_enqueue, Hw1, Hrow.
    split_and!; [done|done| | |].
    - rewrite <-Hrow, <-Hh1. unfold enqueue_wait. simpl. by rewrite holder_columns_holds.
    - rewrite length_app. simpl. arith.
    - exists (last_wait_id db1 + 1)%N. split; [arith|done]. }
  destruct queue; unfold concurrency_queue_decision; cbn [cancel_arrival cancel_pending park_arrival].
  - rewrite displaced_holders by done.
    destruct (displace_waiters k (holder_run h) db (waiters db k).*2) as [db1|] eqn:Hd; simpl; [|done].
    apply displace_all in Hd as (? & ? & ? & ?); [|done|done]. intros [= <- <-]. apply Hpark; try done.
    simpl. unfold MAX_CONCURRENCY_WAITERS. arith.
  - destruct (Nat.leb_spec MAX_CONCURRENCY_WAITERS
      (length ((λ '(id, w), gate_row k false id w) <$> waiters db k))) as [Hle|Hlt];
      cbn [cancel_arrival cancel_pending park_arrival]; rewrite length_fmap in *.
    + intros [= <- <-]. split; [done|]. simpl. auto.
    + simpl. intros [= <- <-]. by apply Hpark.
Qed.

(** A slot is acquired only when the group is free, its holder can never
    run, or the arrival cancels a holder of another run; a parked arrival
    leaves the hold alone and is the youngest waiter of a queue that is
    bounded and in which a single-mode arrival is alone; an arrival is
    cancelled, changing nothing, only when it is late or the queue is full. *)
Theorem acquire_spec db k d h cip queue o db' :
  cancel_keeps k → wf db → acquire db k d h cip queue = Ok (o, db') →
  wf db' ∧ acquire_post db k d h cip queue o db'.
Proof.
  intros Hc Hwf. unfold acquire.
  destruct (superseded _ _ _) as [[]|] eqn:Hlate; simpl; [|..|done].
  { intros [= <- <-]. simpl. auto. }
  destruct (hold_row db k) as [[h0 d0]|] eqn:Hrow.
  - destruct (run_stuck_on_external_hosts db (holder_run h0)) eqn:Hstuck.
    { apply hold_row_some in Hrow. destruct (release_holds _ _ _ _ Hrow) as [_ Hrel].
      intros (-> & ? & _ & ? & Hw)%take_hold_acquired; [|by apply wf_release].
      split; [done|]. simpl. unfold may_take. rewrite Hrow, Hw, waiters_release. auto. }
    unfold concurrency_admission. cbn [gate_row cr_cancel_in_progress cr_run_id].
    destruct cip; [|by apply acquire_wait with (d0 := d0) (h0 := h0)].
    destruct (decide (holder_run h0 = holder_run h)) as [Hrun|Hrun].
    { rewrite bool_decide_true by done. intros (_ & _ & Hfree & _)%take_hold_acquired; [|done]. apply hold_row_some in Hrow. congruence. }
    rewrite (bool_decide_false (holder_run h0 = _)) at 1 by done.
    destruct (displace_waiters _ _ _ _) as [db1|] eqn:Hd; simpl; [|done].
    by apply (acquire_displace db k d h d0 h0 true queue o db1 db').
  - intros (-> & ? & ? & ? & Hw)%take_hold_acquired; [|done].
    split; [done|]. simpl. unfold may_take. apply hold_row_none in Hrow. rewrite Hrow, Hw. auto.
Qed.

(** ** Release: the slot goes to the oldest waiter *)

Lemma filter_all {A} (p : A → bool) (l : list A) : Forall (λ x, p x = true) l → List.filter p l = l.
Proof. induction 1 as [|x l Hx Hl IH]; simpl; [done|]. by rewrite Hx, IH. Qed.

Lemma of_key_remove_id k id ws :
  of_key k (List.filter (λ w, negb (wait_id w =? id)%N) ws) =
  List.filter (λ w, negb (w.1 =? id)%N) (of_key k ws).
Proof.
  induction ws as [|w ws IH]; [done|]. rewrite of_key_cons. cbn [List.filter].
  destruct (negb (wait_id w =? id)%N) eqn:Hid; rewrite ?of_key_cons; case_bool_decide; simpl;
    rewrite ?Hid, IH; done.
Qed.

Lemma waiters_remove_first db k id h rest :
  wf db → waiters db k = (id, h) :: rest → waiters (remove_wait_by_id db id) k = rest.
Proof.
  intros Hwf Hw. pose proof (of_key_nodup k db Hwf) as Hn. unfold remove_wait_by_id.
  rewrite waiters_of_key in *. simpl. rewrite of_key_remove_id, Hw. simpl. rewrite N.eqb_refl. simpl.
  rewrite Hw in Hn. inversion Hn as [|? ? Hid _]; subst. apply filter_all, Forall_forall. intros [id' h'] Hin.
  apply negb_true_iff, N.eqb_neq. simpl. intros Heq. subst. apply Hid.
  by apply (list_elem_of_fmap_2 fst) in Hin.
Qed.

Lemma waiter_row db k id h rest :
  waiters db k = (id, h) :: rest → mkWait id k h ∈ waits db.
Proof.
  intros Hw. assert ((id, h) ∈ waiters db k) as Hin by (rewrite Hw; by left). unfold waiters in Hin.
  apply list_elem_of_omap in Hin as ([id' k' h'] & Hx & Heq). case_bool_decide as Hk; [|done].
  simpl in *. congruence.
Qed.

(** Putting a removed row back restores the table. *)
Lemma insert_removed w ws :
  StronglySorted older ws → w ∈ ws →
  insert_by_id w (List.filter (λ x, negb (wait_id x =? wait_id w)%N) ws) = Some ws.
Proof.
  induction 1 as [|x ws Hs IH Hx]; intros Hin; [by apply not_elem_of_nil in Hin|].
  rewrite Forall_forall in Hx. cbn [List.filter]. apply elem_of_cons in Hin as [->|Hin].
  - rewrite N.eqb_refl. cbn [negb]. rewrite filter_all.
    + destruct ws as [|y ws]; [done|]. simpl.
      assert ((wait_id x <? wait_id y)%N = true) as -> by (apply N.ltb_lt, Hx; by left). done.
    + apply Forall_forall. intros y Hy. apply negb_true_iff, N.eqb_neq. specialize (Hx y Hy).
      unfold older in Hx. arith.
  - pose proof (Hx w Hin) as Hlt. unfold older in Hlt.
    assert ((wait_id x =? wait_id w)%N = false) as -> by (apply N.eqb_neq; arith). simpl.
    assert ((wait_id w <? wait_id x)%N = false) as -> by (apply N.ltb_ge; arith).
    assert ((wait_id w =? wait_id x)%N = false) as -> by (apply N.eqb_neq; arith).
    by rewrite IH.
Qed.

Lemma requeue_removed db k id h rest :
  wf db → waiters db k = (id, h) :: rest →
  ∃ db', requeue_wait (remove_wait_by_id db id) k h id = Ok db' ∧ waits db' = waits db ∧
    last_wait_id db' = last_wait_id db ∧ holds db' = holds db ∧ job_rows db' = job_rows db.
Proof.
  intros [Hs Ha] Hw%waiter_row. unfold requeue_wait. rewrite holder_columns_waits. simpl.
  rewrite (insert_removed (mkWait id k h)) by done. eexists. split; [done|]. simpl.
  rewrite holder_columns_holds, holder_columns_last. simpl. split_and!; try done.
  - rewrite Forall_forall in Ha. specialize (Ha _ Hw). simpl in Ha. arith.
  - unfold holder_columns. by repeat case_match.
Qed.

Lemma holder_columns_rows db h : job_rows (holder_columns db h) = job_rows db.
Proof. unfold holder_columns. by repeat case_match. Qed.

Lemma release_rows db k h : job_rows (release_hold db k h).2 = job_rows db.
Proof. unfold release_hold. rewrite <-(holder_columns_rows db h). by repeat case_match. Qed.

Lemma release_waits db k h : waits (release_hold db k h).2 = waits db.
Proof. unfold release_hold. rewrite <-(holder_columns_waits db h). by repeat case_match. Qed.

Lemma take_hold_free db k d h :
  holds db !! k = None →
  ∃ db', take_hold db k d h = Ok db' ∧ holds db' !! k = Some (d, h) ∧ waits db' = waits db ∧
    last_wait_id db' = last_wait_id db ∧ job_rows db' = job_rows db.
Proof.
  intros Hk. unfold take_hold. rewrite holder_columns_holds, Hk. eexists. split; [done|]. simpl.
  rewrite holder_columns_waits, holder_columns_last, holder_columns_rows. split_and!; try done.
  apply lookup_insert_eq.
Qed.

Lemma find_job_enqueued db r job j :
  find_job db r job = Some j → find_job (enqueue_ready_job db j) r job = Some (with_state "ready" "queued" j).
Proof.
  unfold find_job. intros Hj. assert (job_run j = r ∧ job_name j = job) as [Hr Hn].
  { apply find_some in Hj as [_ Hj]. unfold is_job in Hj. by apply bool_decide_eq_true_1 in Hj. }
  unfold enqueue_ready_job, update_jobs. cbn [job_rows with_job_rows]. rewrite Hr, Hn.
  induction (job_rows db) as [|x l IH]; simpl in *; [done|].
  destruct (is_job r job x) eqn:Hx; [|rewrite Hx; by apply IH].
  injection Hj as ->. unfold is_job in *. cbn. by rewrite bool_decide_true.
Qed.

Lemma held_jobs_same db db' r :
  waits db' = waits db → job_rows db' = job_rows db → held_jobs_of_run db' r = held_jobs_of_run db r.
Proof. intros Hw Hr. unfold held_jobs_of_run, job_has_wait. by rewrite Hw, Hr. Qed.

(** A waiting job that can be promoted. *)
Definition promotable (j : JobRow) : bool :=
  negb (is_terminal (status_parse (job_status j))) && held j.

(** The state the oldest waiter of group [k] takes the slot in. *)
Definition handed_over db k d h rest db1 : Prop :=
  holds db1 !! k = Some (d, h) ∧ waiters db1 k = rest ∧ job_rows db1 = job_rows db.

(** The group is free and its queue is [queue]. *)
Definition left_free k (queue : list (N * Holder)) db' : Prop :=
  holds db' !! k = None ∧ waiters db' k = queue.

Definition job_promoted db k d id r job rest db' : Prop :=
  match find_job db r job with
  | None => left_free k rest db'
  | Some j =>
      if negb (promotable j) then left_free k rest db'
      else if under_max_parallel db j then
        holds db' !! k = Some (d, HJob r job) ∧ waiters db' k = rest ∧
        find_job db' r job = Some (with_state "ready" "queued" j)
      else left_free k ((id, HJob r job) :: rest) db' ∧ waits db' = waits db
  end.

Definition release_post db k d cur (out : result ControlError Db) : Prop :=
  match waiters db k with
  | [] => ∃ db', out = Ok db' ∧ left_free k [] db'
  | (id, HJob r job) :: rest => ∃ db', out = Ok db' ∧ job_promoted db k d id r job rest db'
  | (id, HRun r) :: rest =>
      let parked := held_jobs_of_run (remove_wait_by_id db id) r in
      match parked with
      | [] => ∃ db', out = Ok db' ∧ left_free k rest db'
      | _ => ∃ db1, handed_over db k d (HRun r) rest db1 ∧
               out = promote_run (update_jobs (λ j, bool_decide (job_run j = r ∧ job_name j ∈ parked))
                                    "blocked" "queued" db1) r
      end
  | (_, HJobSet r jobs) :: rest =>
      if find_jobset (release_hold db k cur).2 r jobs then
        ∃ db1, handed_over db k d (HJobSet r jobs) rest db1 ∧ out = admit_jobset db1 k r jobs
      else ∃ db', out = Ok db' ∧ left_free k rest db'
  end.

Lemma promote_job_waiter db k d id r job rest :
  wf db → holds db !! k = None → waiters db k = (id, HJob r job) :: rest →
  ∃ db', promote_next_in_group db k (Some d) = Ok db' ∧ job_promoted db k d id r job rest db'.
Proof.
  intros Hwf Hk Hw. unfold promote_next_in_group, first_waiter, job_promoted, promotable. rewrite Hw. cbn [head].
  pose proof (waiters_remove_first _ _ _ _ _ Hwf Hw) as Hrest.
  change (find_job (remove_wait_by_id db id) r job) with (find_job db r job).
  destruct (find_job db r job) as [j|] eqn:Hj; [|by eexists].
  change (under_max_parallel (remove_wait_by_id db id) j) with (under_max_parallel db j).
  rewrite negb_andb, negb_involutive. destruct (_ || _); [by eexists|].
  destruct (under_max_parallel db j); cbn [negb default Datatypes.id].
  - destruct (take_hold_free (remove_wait_by_id db id) k d (HJob r job)) as (db1 & -> & Hh1 & Hw1 & _ & Hr1); [done|].
    eexists. split; [done|]. split_and!; [done| |].
    + by rewrite waiters_of_key, <-Hrest, (waiters_of_key (remove_wait_by_id _ _)), <-Hw1.
    + apply find_job_enqueued. unfold find_job. by rewrite Hr1.
  - destruct (requeue_removed _ _ _ _ _ Hwf Hw) as (db1 & -> & Hw1 & _ & Hh1 & _).
    eexists. split; [done|]. split; [|done]. unfold left_free. by rewrite Hh1, waiters_of_key, Hw1, <-Hw.
Qed.

Lemma promote_group_waiter db k d id h rest :
  wf db → holds db !! k = None → waiters db k = (id, h) :: rest →
  ∃ db1, take_hold (remove_wait_by_id db id) k d h = Ok db1 ∧ handed_over db k d h rest db1.
Proof.
  intros Hwf Hk Hw. pose proof (waiters_remove_first _ _ _ _ _ Hwf Hw) as Hrest.
  destruct (take_hold_free (remove_wait_by_id db id) k d h) as (db1 & -> & Hh1 & Hw1 & _ & Hr1); [done|].
  eexists. split; [done|]. split_and!; [done| |done].
  by rewrite waiters_of_key, <-Hrest, (waiters_of_key (remove_wait_by_id _ _)), <-Hw1.
Qed.

(** C20: releasing a hold gives the slot, under the group's display name, to
    the oldest waiter: a promotable job becomes ready, or, when its base is at
    [max-parallel], keeps its place at the head of the queue; the held jobs of
    a run are unblocked; a stale waiter is dropped; with no waiter the group
    is left free. *)
Theorem release_fifo db k d cur :
  wf db → holds db !! k = Some (d, cur) → release_post db k d cur (release_and_promote db k cur).
Proof.
  intros Hwf Hk. unfold release_and_promote, hold_display_name. rewrite Hk. cbn [fmap option_fmap option_map fst].
  destruct (release_holds _ _ _ _ Hk) as [Hrel Hfree].
  pose proof (wf_release db k cur Hwf) as Hwf0.
  unfold release_post. rewrite <-(waiters_release db k cur k).
  destruct (release_hold db k cur) as [released db0] eqn:Hdb0. cbn [fst snd] in *. subst released.
  assert (job_rows db0 = job_rows db) as Hrows by by rewrite <-(release_rows db k cur), Hdb0.
  assert (waits db0 = waits db) as Hwaits by by rewrite <-(release_waits db k cur), Hdb0.
  destruct (waiters db0 k) as [|[id [r|r job|r jobs]] rest] eqn:Hw.
  - unfold promote_next_in_group, first_waiter. rewrite Hw. by eexists.
  - rewrite (held_jobs_same (remove_wait_by_id db0 id) (remove_wait_by_id db id) r);
      [|unfold remove_wait_by_id; simpl; congruence|done].
    unfold promote_next_in_group, first_waiter. rewrite Hw. cbn [head default Datatypes.id].
    pose proof (waiters_remove_first _ _ _ _ _ Hwf0 Hw) as Hrest.
    destruct (held_jobs_of_run (remove_wait_by_id db0 id) r) as [|job parked]; [by eexists|].
    destruct (promote_group_waiter db0 k d id (HRun r) rest) as (db1 & -> & ? & ? & ?); [done..|].
    exists db1. split; [|done]. split_and!; congruence.
  - destruct (promote_job_waiter db0 k d id r job rest) as (db' & -> & Hp); [done..|]. exists db'. split; [done|].
    unfold job_promoted, find_job, under_max_parallel in *. by rewrite Hrows, Hwaits in Hp.
  - unfold promote_next_in_group, first_waiter. rewrite Hw. cbn [head default Datatypes.id].
    change (find_jobset (remove_wait_by_id db0 id) r jobs) with (find_jobset db0 r jobs).
    destruct (find_jobset db0 r jobs); cbn [negb].
    + destruct (promote_group_waiter db0 k d id (HJobSet r jobs) rest) as (db1 & -> & ? & ? & ?); [done..|].
      exists db1. split; [|done]. split_and!; congruence.
    + eexists. split; [done|]. split; [done|]. by eapply waiters_remove_first.
Qed.

(** ** Two insertions over a hold that is still there

    [take_hold] inserts a row under the group's primary key, so it fails while
    the group is held. *)
Lemma take_hold_held db k d h : is_Some (holds db !! k) → take_hold db k d h = Err (unique_violation "concurrency_holds").
Proof. intros [x Hx]. unfold take_hold. by rewrite holder_columns_holds, Hx. Qed.

(** A job with [cancel-in-progress] whose run already holds the group does not
    take the slot over: the admission says [AdmissionAcquired], the insertion fails. *)
Theorem same_run_takeover_fails db k d h d0 h0 queue :
  holds db !! k = Some (d0, h0) → holder_run h0 = holder_run h →
  run_stuck_on_external_hosts db (holder_run h0) = false →
  superseded true (holder_run h) (h0 :: (waiters db k).*2) = Ok false →
  acquire db k d h true queue = Err (unique_violation "concurrency_holds").
Proof.
  intros Hk Hrun Hstuck Hsup. unfold acquire, hold_row. rewrite Hk.
  change (superseded _ _ _) with (superseded true (holder_run h) (h0 :: (waiters db k).*2)).
  rewrite Hsup. cbn. rewrite Hstuck.
  unfold concurrency_admission. cbn [gate_row cr_cancel_in_progress cr_run_id].
  rewrite bool_decide_true by done. rewrite take_hold_held by (by rewrite Hk). done.
Qed.

(** At boot the hold of a dead run is not deleted before its group's oldest
    waiter is promoted, so a waiter that can run fails the reconciliation. *)
Theorem reconcile_fails_with_waiter db k d0 h0 id r job rest j :
  holds db !! k = Some (d0, h0) → waiters db k = (id, HJob r job) :: rest →
  find_job db r job = Some j → promotable j = true → under_max_parallel db j = true →
  reconcile_dead_hold db k = Err (unique_violation "concurrency_holds").
Proof.
  intros Hk Hw Hj Hp Hu. unfold reconcile_dead_hold, promote_next_in_group, first_waiter. rewrite Hw. cbn [head].
  rewrite bool_decide_true by done.
  change (find_job (remove_wait_by_id db id) r job) with (find_job db r job). rewrite Hj.
  change (under_max_parallel (remove_wait_by_id db id) j) with (under_max_parallel db j). rewrite Hu.
  apply andb_prop in Hp as [Ht Hh]. apply negb_true_iff in Ht. rewrite Ht, Hh. cbn [orb negb].
  rewrite take_hold_held; [done|]. unfold remove_wait_by_id. simpl. by rewrite Hk.
Qed.

End groups.
Arguments Db : clear implicits.
Arguments WaitRow : clear implicits.
Arguments JobRow : clear implicits.
Arguments mkDb {RunId Detail Rest} _ _ _ _ _ _ _.
Arguments mkWait {RunId} _ _ _.
Arguments mkJobRow {RunId Detail} _ _ _ _ _ _ _ _ _ _.

(** ** Concrete groups *)

Section concrete.
Abbreviation run := nat.

Definition example_key : GroupKey := ("ns", "repo", "deploy").

(** Run 0 builds and holds the group; job [test] of run 1 waits behind it. *)
Definition example_db : Db run unit unit :=
  mkDb {[example_key := ("Deploy", HJob 0 "build")]}
    [mkWait 1 example_key (HJob 1 "test"); mkWait 2 example_key (HJob 2 "test")] 2 []
    [mkJobRow 0 "build" "job" None "build" "in_progress" "claimed" ["linux"] None tt;
     mkJobRow 1 "test" "job" None "test" "pending" "held" ["linux"] None tt;
     mkJobRow 2 "test" "job" None "test" "pending" "held" ["linux"] None tt] [] tt.

Definition example_cancel (k : GroupKey) (db : Db run unit unit) (h : Holder run) : result ControlError (Db run unit unit) :=
  Ok (remove_wait db k h).2.

Lemma ok_inj {E A} (a b : A) : (Ok a : result E A) = Ok b → a = b.
Proof. congruence. Qed.

Lemma example_cancel_keeps k : cancel_keeps (example_cancel k) k.
Proof.
  intros db h db' Hwf <-%ok_inj. split_and!.
  - by apply wf_remove_wait.
  - by rewrite remove_wait_holds.
  - rewrite waiters_remove. apply sublist_list_filter.
  - unfold remove_wait. simpl. by rewrite holder_columns_last.
Qed.

Lemma example_wf : wf example_db.
Proof. split; repeat constructor; simpl; unfold older; simpl; lia. Qed.

Definition no_order (r : run) : result ControlError (option EventOrder) := Ok None.

(** A single-mode arrival displaces both waiters and parks alone. *)
Definition example_parked : result ControlError (AcqOutcome * Db run unit unit) :=
  acquire (example_cancel example_key) no_order example_db example_key "Deploy" (HJob 3 "test") false Single.

Lemma acquire_spec_witness :
  ∃ db', example_parked = Ok (Parked, db') ∧ waiters db' example_key = [(3%N, HJob 3 "test")] ∧
    acquire_post no_order example_db example_key "Deploy" (HJob 3 "test") false Single Parked db'.
Proof.
  eexists. split; [by vm_compute|]. split; [by vm_compute|].
  refine (proj2 (acquire_spec (example_cancel example_key) no_order example_db example_key "Deploy"
    (HJob 3 "test") false Single Parked _ (example_cancel_keeps _) example_wf _)).
  by vm_compute.
Defined.

(** Releasing the hold of [build] starts [test] of run 1. *)
Lemma release_fifo_witness :
  release_post (λ db _, Ok db) (λ db _ _ _, Ok (AdvanceBlocked, db)) (λ db _ _ _, Ok db)
    example_db example_key "Deploy" (HJob 0 "build")
    (release_and_promote (λ db _, Ok db) (λ db _ _ _, Ok (AdvanceBlocked, db)) (λ db _ _ _, Ok db)
       example_db example_key (HJob 0 "build")).
Proof. apply release_fifo; [exact example_wf|]. by vm_compute. Defined.

(** A second job of run 0 asks for the group with [cancel-in-progress]. *)
Lemma same_run_takeover_fails_witness :
  acquire (example_cancel example_key) no_order example_db example_key "Deploy" (HJob 0 "test") true Single =
  Err (unique_violation "concurrency_holds").
Proof. apply (same_run_takeover_fails _ _ _ _ _ _ "Deploy" (HJob 0 "build")); by vm_compute. Defined.

Lemma reconcile_fails_with_waiter_witness :
  reconcile_dead_hold (λ db _, Ok db) (λ db _ _ _, Ok (AdvanceBlocked, db)) (λ db _ _ _, Ok db)
    example_db example_key = Err (unique_violation "concurrency_holds").
Proof.
  apply (reconcile_fails_with_waiter _ _ _ _ _ "Deploy" (HJob 0 "build") 1 1 "test" [(2%N, HJob 2 "test")]
    (mkJobRow 1 "test" "job" None "test" "pending" "held" ["linux"] None tt)); by vm_compute.
Defined.

(** A single-mode arrival drops the wait of another job of its own run, which
    is not cancelled and stays held with nothing left to wake it. *)
Definition refuse_cancel (db : Db run unit unit) (h : Holder run) : result ControlError (Db run unit unit) :=
  Err (Backend "cancelled").

Definition same_run_db : Db run unit unit :=
  mkDb {[example_key := ("Deploy", HJob 0 "build")]} [mkWait 1 example_key (HJob 1 "test")] 1 []
    [mkJobRow 0 "build" "job" None "build" "in_progress" "claimed" ["linux"] None tt;
     mkJobRow 1 "test" "job" None "test" "pending" "held" ["linux"] None tt;
     mkJobRow 1 "lint" "job" None "lint" "pending" "held" ["linux"] None tt] [] tt.

Theorem single_drops_same_run_waiter :
  match acquire refuse_cancel no_order same_run_db example_key "Deploy" (HJob 1 "lint") false Single with
  | Ok (Parked, db) =>
      waiters db example_key = [(2%N, HJob 1 "lint")] ∧ job_has_wait db 1 "test" = false ∧
      find_job db 1 "test" = find_job same_run_db 1 "test"
  | _ => False
  end.
Proof. vm_compute. done. Qed.

End concrete.
