(* ===== verification/LiteRequests.v ===== *)
(** * Execution attempts of the embedded backend

    [crates/preloop-runner-server/src/control/lite/requests.rs]: the tables
    [job_requests], [job_leases] and [runner_sessions], with the statements on them of
    [acquire.rs], [poll.rs], [dispatch.rs], [settle.rs], [lifecycle.rs],
    [reaper.rs], [rerun.rs] and [submit.rs].

    A table is a finite map from its key; a command is a function on the
    database that runs as one transaction ([write]): an error rolls it back.
    Times are microseconds. The parser of RFC 3339 timestamps (the crate
    [chrono]) is behind the interface [LeaseCodec]. *)
From S2P Require Export Scheduler.

(** ** Tables *)

Record Request : Type := mkRequest {
  run_id : string; job_id : string; agent_job_id : string; timeline_id : string;
  runner_id : option Z; session_id : option string; outcome : option string;
  timeout_triggered : bool; debug_token_issued : bool;
  claimed_at : Z; started_at : option Z; finished_at : option Z }.

Record Lease : Type := mkLease { holder : Z; expires_at : Z; renewed_at : Z }.
Record Session : Type := mkSession { session_runner : option Z; verified : bool; last_seen_at : Z }.
Record Cancellation : Type := mkCancellation { cancelled_request : Z; reason : option string; delivered_at : option Z }.
Record Message : Type := mkMessage { message_session : string; message_type : string; message_request : option Z }.

(** [next_id] is the next value of the [AUTOINCREMENT] key; a job message is
    kept as its [jobTimeout], a submission as its [preserve_on_failure]. *)
Record Lite : Type := mkLite {
  job_requests : gmap Z Request; next_id : Z; job_leases : gmap Z Lease;
  runner_sessions : gmap string Session; runners : gset Z;
  token_requests : gset Z; cancellations : list Cancellation; session_messages : list Message;
  job_messages : gmap (string * string) (option Z); run_submissions : gmap string bool }.

Definition with_requests m db := mkLite m (next_id db) (job_leases db) (runner_sessions db) (runners db)
  (token_requests db) (cancellations db) (session_messages db) (job_messages db) (run_submissions db).
Definition with_leases m db := mkLite (job_requests db) (next_id db) m (runner_sessions db) (runners db)
  (token_requests db) (cancellations db) (session_messages db) (job_messages db) (run_submissions db).
Definition with_sessions m rs db := mkLite (job_requests db) (next_id db) (job_leases db) m rs
  (token_requests db) (cancellations db) (session_messages db) (job_messages db) (run_submissions db).
Definition with_tokens s db := mkLite (job_requests db) (next_id db) (job_leases db) (runner_sessions db) (runners db)
  s (cancellations db) (session_messages db) (job_messages db) (run_submissions db).
Definition with_notices cs ms db := mkLite (job_requests db) (next_id db) (job_leases db) (runner_sessions db) (runners db)
  (token_requests db) cs ms (job_messages db) (run_submissions db).

(** [RFC 3339] timestamps: what the parser makes of one, and the one the
    server writes for the end of a lease taken now. *)
Class LeaseCodec := {
  parse_lease_us : string → option Z;
  agent_request_locked_until : Z → string;
  locked_until_parses now : is_Some (parse_lease_us (agent_request_locked_until now));
}.

(** A transaction: an error leaves the database as it was. *)
Definition write {A} (f : Lite → result ControlError (A * Lite)) (db : Lite) : result ControlError A * Lite :=
  match f db with
  | Ok (a, db) => (Ok a, db)
  | Err e => (Err e, db)
  end.

(** ** Statements *)

Definition in_flight (q : Request) : bool := bool_decide (outcome q = None).
Definition of_job (run job : string) (q : Request) : bool := bool_decide (run_id q = run ∧ job_id q = job).
Definition live_of_job (run job : string) (q : Request) : bool := of_job run job q && in_flight q.

(** [SELECT .. WHERE p ORDER BY request_id DESC LIMIT 1]. *)
Definition newer (p : Request → bool) (e : Z * Request) (acc : option (Z * Request)) : option (Z * Request) :=
  if p e.2 then
    match acc with
    | Some (j, q) => if (j <? e.1)%Z then Some e else acc
    | None => Some e
    end
  else acc.
Definition newest (p : Request → bool) (m : gmap Z Request) : option (Z * Request) :=
  foldr (newer p) None (map_to_list m).

(** [SELECT .. WHERE p ORDER BY request_id]. *)
Definition id_le (a b : Z * Request) : Prop := (a.1 ≤ b.1)%Z.
#[export] Instance id_le_dec : RelDecision id_le.
Proof. intros a b. unfold id_le. apply _. Defined.
Definition rows_where (p : Request → bool) (db : Lite) : list (Z * Request) :=
  merge_sort id_le (filter (λ e, p e.2 = true) (map_to_list (job_requests db))).

(** [UPDATE job_requests SET .. WHERE p]. *)
Definition update_where (p : Request → bool) (f : Request → Request) (db : Lite) : Lite :=
  with_requests ((λ q, if p q then f q else q) <$> job_requests db) db.

(** [UPDATE job_requests SET .. WHERE request_id = id AND p], with the number
    of rows it changed. *)
Definition update_request (id : Z) (p : Request → bool) (f : Request → Request) (db : Lite) : nat * Lite :=
  match job_requests db !! id with
  | Some q => if p q then (1, with_requests (<[id := f q]> (job_requests db)) db) else (0, db)
  | None => (0, db)
  end.

Definition set_outcome (r : string) (now : Z) (q : Request) : Request :=
  mkRequest (run_id q) (job_id q) (agent_job_id q) (timeline_id q) (runner_id q) (session_id q) (Some r)
    (timeout_triggered q) (debug_token_issued q) (claimed_at q) (started_at q) (Some now).
Definition set_session (s : option string) (q : Request) : Request :=
  mkRequest (run_id q) (job_id q) (agent_job_id q) (timeline_id q) (runner_id q) s (outcome q)
    (timeout_triggered q) (debug_token_issued q) (claimed_at q) (started_at q) (finished_at q).
Definition set_unclaimed (q : Request) : Request :=
  mkRequest (run_id q) (job_id q) (agent_job_id q) (timeline_id q) None None (outcome q)
    false (debug_token_issued q) (claimed_at q) None (finished_at q).
Definition set_claimed (s : string) (r : option Z) (now : Z) (q : Request) : Request :=
  mkRequest (run_id q) (job_id q) (agent_job_id q) (timeline_id q) r (Some s) (outcome q)
    (timeout_triggered q) (debug_token_issued q) now (Some now) (finished_at q).
Definition set_timed_out (q : Request) : Request :=
  mkRequest (run_id q) (job_id q) (agent_job_id q) (timeline_id q) (runner_id q) (session_id q) (outcome q)
    true (debug_token_issued q) (claimed_at q) (started_at q) (finished_at q).
Definition set_debug_issued (q : Request) : Request :=
  mkRequest (run_id q) (job_id q) (agent_job_id q) (timeline_id q) (runner_id q) (session_id q) (outcome q)
    (timeout_triggered q) true (claimed_at q) (started_at q) (finished_at q).
Definition set_abandoned (now : Z) (q : Request) : Request :=
  mkRequest (run_id q) (job_id q) (agent_job_id q) (timeline_id q) None None (Some "cancelled")
    (timeout_triggered q) (debug_token_issued q) (claimed_at q) (started_at q) (Some now).

(** The upsert of a lease: a conflict keeps the holder. *)
Definition upsert_lease (id r expires now : Z) (db : Lite) : Lite :=
  let h := match job_leases db !! id with Some l => holder l | None => r end in
  with_leases (<[id := mkLease h expires now]> (job_leases db)) db.
Definition drop_lease (id : Z) (db : Lite) : Lite := with_leases (delete id (job_leases db)) db.

Definition session_of (q : Request) (db : Lite) : option Session := s ← session_id q; runner_sessions db !! s.

(** [COALESCE(q.runner_id, s.runner_id)]. *)
Definition owner_or_session (q : Request) (db : Lite) : option Z :=
  match runner_id q with Some r => Some r | None => s ← session_of q db; session_runner s end.

(** [INSERT INTO job_requests], with its unique index on [agent_job_id] and the
    partial one on the in-flight attempts of a job. *)
Definition insert_request (q : Request) (db : Lite) : result ControlError (Z * Lite) :=
  if bool_decide (map_Exists (λ _ q', agent_job_id q' = agent_job_id q) (job_requests db))
  then Err (Backend "UNIQUE constraint failed: job_requests.agent_job_id")
  else if in_flight q && bool_decide (map_Exists (λ _ q', live_of_job (run_id q) (job_id q) q' = true) (job_requests db))
  then Err (Backend "UNIQUE constraint failed: job_requests_inflight")
  else
    let id := next_id db in
    Ok (id, mkLite (<[id := q]> (job_requests db)) (id + 1)%Z (job_leases db) (runner_sessions db) (runners db)
              (token_requests db) (cancellations db) (session_messages db) (job_messages db) (run_submissions db)).

(** [DELETE FROM job_requests], whose foreign keys cascade. *)
Definition delete_request (id : Z) (db : Lite) : Lite :=
  mkLite (delete id (job_requests db)) (next_id db) (delete id (job_leases db)) (runner_sessions db) (runners db)
    (token_requests db ∖ {[id]}) (filter (λ c, cancelled_request c ≠ id) (cancellations db))
    (filter (λ m, message_request m ≠ Some id) (session_messages db)) (job_messages db) (run_submissions db).

(** ** Commands *)

Section commands.
Context {LC : LeaseCodec}.

Definition parse_lease (locked_until : string) : result ControlError Z :=
  ok_or (BadRequest ("invalid lease timestamp " +:+ locked_until)) (parse_lease_us locked_until).

(** [insert_attempt] and the token request of [mint_request]. *)
Definition new_attempt (run job agent timeline : string) : Request :=
  mkRequest run job agent timeline None None None false false 0 None None.
Definition insert_attempt (run job agent timeline : string) (db : Lite) : result ControlError (Z * Lite) :=
  insert_request (new_attempt run job agent timeline) db.
Definition mint_request (request : option (string * string)) (token : bool) (run job : string) (db : Lite)
    : result ControlError (() * Lite) :=
  match request with
  | None => Ok ((), db)
  | Some (agent, timeline) =>
      '(id, db) ← insert_attempt run job agent timeline db;
      Ok ((), if token then with_tokens ({[id]} ∪ token_requests db) db else db)
  end.

(** A lease for the recorded owner of the attempt, if it has one. *)
Definition set_lease (id expires now : Z) (db : Lite) : Lite :=
  match job_requests db !! id with
  | Some q => match runner_id q with Some r => upsert_lease id r expires now db | None => db end
  | None => db
  end.

Definition stamp_result (id : Z) (res : ExecutionStatus) (locked_until : string) (now : Z) (db : Lite)
    : result ControlError (bool * Lite) :=
  expires ← parse_lease locked_until;
  if negb (is_terminal res) then Ok (true, set_lease id expires now db)
  else
    let '(settled, db) := update_request id in_flight (set_outcome (status_str res) now) db in
    Ok (settled =? 1, if settled =? 1 then set_lease id expires now db else db).

Definition JOB_CANCELLED : string := "JobCancellation".
Definition attempt_tuple (q : Request) : string * string * string := (run_id q, job_id q, agent_job_id q).

(** The cleanup both settle commands share: token request, cancellations not
    delivered yet and their messages, session binding. *)
Definition settle_cleanup (id : Z) (db : Lite) : Lite :=
  let db := with_tokens (token_requests db ∖ {[id]}) db in
  let db := with_notices
    (filter (λ c, ¬ (cancelled_request c = id ∧ delivered_at c = None)) (cancellations db))
    (filter (λ m, ¬ (message_request m = Some id ∧ message_type m = JOB_CANCELLED)) (session_messages db)) db in
  (update_request id (λ _, true) (set_session None) db).2.

Definition settle_request_body (id : Z) (res : ExecutionStatus) (locked_until : string) (now : Z) (db : Lite)
    : result ControlError (option (string * string * string) * Lite) :=
  match job_requests db !! id with
  | None => Ok (None, db)
  | Some q =>
      '(_, db) ← stamp_result id res locked_until now (settle_cleanup id db);
      Ok (Some (attempt_tuple q), db)
  end.
Definition settle_request id res locked_until now := write (settle_request_body id res locked_until now).

(** [settle_request_tx] of [dispatch.rs]. *)
Definition settle_request_tx (id : Z) (res : ExecutionStatus) (now : Z) (db : Lite)
    : result ControlError (() * Lite) :=
  '(_, db) ← stamp_result id res (agent_request_locked_until now) now (settle_cleanup id db);
  Ok ((), db).

Definition settle_agent_request (id : Z) (res : ExecutionStatus) (locked_until : string) (now : Z)
    : Lite → result ControlError (option (string * string * string)) * Lite :=
  write (λ db,
    match stamp_result id res locked_until now db with
    | Ok (settled, db) => Ok (if settled then attempt_tuple <$> job_requests db !! id else None, db)
    | Err e => Err e
    end).

(** [undo_pending_cancellation] and [settle_requests_for_job] of [settle.rs]. *)
Definition undo_pending_cancellation (id : Z) (now : Z) (db : Lite) : Lite :=
  with_notices
    ((λ c, if bool_decide (cancelled_request c = id ∧ delivered_at c = None)
           then mkCancellation (cancelled_request c) (reason c) (Some now) else c) <$> cancellations db)
    (filter (λ m, message_request m ≠ Some id) (session_messages db)) db.

Fixpoint settle_each (ids : list Z) (res : ExecutionStatus) (now : Z) (db : Lite) : result ControlError (() * Lite) :=
  match ids with
  | [] => Ok ((), db)
  | id :: ids =>
      '(_, db) ← stamp_result id res (agent_request_locked_until now) now db;
      settle_each ids res now (undo_pending_cancellation id now db)
  end.
Definition ids_where (p : Request → bool) (db : Lite) : list Z := (rows_where p db).*1.
Definition settle_requests_for_job (run job : string) (res : ExecutionStatus) (now : Z) (db : Lite)
    : result ControlError (() * Lite) :=
  settle_each (ids_where (live_of_job run job) db) res now db.
Definition purge_node_requests (run job : string) (db : Lite) : Lite :=
  foldl (λ db id, delete_request id db) db (ids_where (of_job run job) db).

(** *** Renewal *)

(** [renew_miss] of [types.rs]. *)
Definition renew_miss (row : option (option string * option Z)) (runner : Z) : result ControlError bool :=
  match row with
  | None => Err (NotFound "broker renew request not found")
  | Some (Some _, _) => Err (Conflict "broker request already completed")
  | Some (None, Some owner) =>
      if negb (owner =? runner)%Z then Err (Forbidden "broker request belongs to another runner") else Ok false
  | Some (None, None) => Ok false
  end.

Definition by_agent (agent : string) (q : Request) : bool := bool_decide (agent_job_id q = agent).

(** Why no row was renewed. *)
Definition renew_lease_miss (agent : string) (runner : Z) (lease : result ControlError Z) (db : Lite)
    : result ControlError bool :=
  let row := (λ e, (outcome e.2, runner_id e.2)) <$> newest (by_agent agent) (job_requests db) in
  let owned_inflight := match row with Some (None, Some owner) => bool_decide (owner = runner) | _ => false end in
  match renew_miss row runner with
  | Err e => Err e
  | Ok miss =>
      match lease with
      | Err e => if owned_inflight then Err e else Ok miss
      | Ok _ => Ok miss
      end
  end.

Definition renew_lease (agent : string) (runner : Z) (locked_until : string) (now : Z)
    : Lite → result ControlError bool * Lite :=
  write (λ db,
    let lease := parse_lease locked_until in
    let renewable q := by_agent agent q && in_flight q && bool_decide (runner_id q = Some runner) in
    match lease, newest renewable (job_requests db) with
    | Ok expires, Some (id, _) => Ok (true, upsert_lease id runner expires now db)
    | _, _ =>
        match renew_lease_miss agent runner lease db with
        | Ok miss => Ok (miss, db)
        | Err e => Err e
        end
    end).

(** [request_owner], and [ensure_request_owner] of [types.rs]. *)
Definition request_owner (id : Z) (db : Lite) : option (option Z * option Z * bool) :=
  (λ q, (runner_id q, session_of q db ≫= session_runner, bool_decide (is_Some (session_of q db))))
    <$> job_requests db !! id.
Definition ensure_request_owner (owner session_owner : option Z) (has_session : bool) (runner : Z)
    : result ControlError () :=
  match owner with
  | Some owner =>
      if (owner =? runner)%Z then Ok () else Err (Forbidden "broker request belongs to another runner")
  | None =>
      match has_session, session_owner with
      | _, Some owner =>
          if (owner =? runner)%Z then Ok () else Err (Forbidden "broker request belongs to another runner")
      | true, None => Ok ()
      | false, None => Err (NotFound "broker request is not assigned to a session")
      end
  end.

(** The checks of [acquire_for_runner] of [acquire.rs]. *)
Definition acquire_check (id : Z) (runner : Z) (db : Lite) : result ControlError () :=
  match job_requests db !! id with
  | None => Err (NotFound ("request " +:+ pretty id))
  | Some q =>
      if negb (in_flight q) then Err (Conflict ("request " +:+ pretty id +:+ " already settled"))
      else match request_owner id db with
           | None => Err (NotFound ("request " +:+ pretty id))
           | Some (owner, session_owner, has_session) => ensure_request_owner owner session_owner has_session runner
           end
  end.

Definition renew_broker_request (agent : string) (runner : Z) (locked_until : string) (now : Z)
    : Lite → result ControlError () * Lite :=
  write (λ db,
    match newest (by_agent agent) (job_requests db) with
    | None => Err (NotFound "broker renew request not found")
    | Some (id, q) =>
        let session_owner := session_of q db ≫= session_runner in
        let has_session := bool_decide (is_Some (session_of q db)) in
        let foreign :=
          match (match runner_id q with Some r => Some r | None => session_owner end) with
          | Some owner =>
              if negb (owner =? runner)%Z then Some (Forbidden "broker request belongs to another runner") else None
          | None => if negb has_session then Some (NotFound "broker request is not assigned to a session") else None
          end in
        match foreign with
        | Some e => Err e
        | None =>
            if negb (in_flight q) then Err (Conflict "broker request already completed")
            else
              expires ← parse_lease locked_until;
              Ok ((), upsert_lease id runner expires now db)
        end
    end).

Definition renew_agent_request (id : Z) (locked_until : string) (now : Z) (db : Lite)
    : result ControlError bool * Lite :=
  match parse_lease locked_until with
  | Err e => (Err e, db)
  | Ok expires =>
      write (λ db,
        match job_requests db !! id with
        | Some q =>
            match owner_or_session q db with
            | Some r => if in_flight q then Ok (true, upsert_lease id r expires now db) else Ok (false, db)
            | None => Ok (false, db)
            end
        | None => Ok (false, db)
        end) db
  end.

(** [renew_request] of [dispatch.rs]. *)
Definition renew_request (id : Z) (runner : Z) (now : Z) : Lite → result ControlError () * Lite :=
  write (λ db,
    match job_requests db !! id with
    | None => Err (NotFound ("request " +:+ pretty id))
    | Some q =>
        if negb (bool_decide (runner_id q = Some runner))
        then Err (Models.Stale ("request " +:+ pretty id +:+ " not owned by runner " +:+ pretty runner))
        else
          expires ← parse_lease (agent_request_locked_until now);
          Ok ((), upsert_lease id runner expires now db)
    end).

(** *** Claim and release *)

(** The statements of [bind_claim] of [poll.rs] on attempts and leases. *)
Definition bind_claim (run job session : string) (runner : option Z) (now : Z) (db : Lite)
    : result ControlError (option Z * Lite) :=
  match newest (live_of_job run job) (job_requests db) with
  | None => Ok (None, db)
  | Some (id, _) =>
      let db := (update_request id (λ _, true) (set_claimed session runner now) db).2 in
      match runner with
      | Some r =>
          expires ← parse_lease (agent_request_locked_until now);
          Ok (Some id, with_leases (<[id := mkLease r expires now]> (job_leases db)) db)
      | None => Ok (Some id, db)
      end
  end.

Definition release_claimed_request (id : Z) (db : Lite) : bool * Lite :=
  let '(released, db) := update_request id in_flight set_unclaimed db in
  if released =? 0 then (false, db) else (true, drop_lease id db).

(** [release_request] of [dispatch.rs]. *)
Definition release_request (id : Z) (db : Lite) : Lite :=
  drop_lease id (update_request id in_flight set_unclaimed db).2.

Definition issue_debug_token (agent : string) : Lite → result ControlError (string * string) * Lite :=
  write (λ db,
    match newest (λ q, by_agent agent q && in_flight q) (job_requests db) with
    | None => Err (NotFound ("no active job request for agent job " +:+ agent))
    | Some (id, q) =>
        if negb (default false (run_submissions db !! run_id q))
        then Err (Forbidden "this run did not enable pause-on-failure")
        else
          let '(flipped, db) :=
            if debug_token_issued q then (0, db)
            else update_request id (λ q, negb (debug_token_issued q)) set_debug_issued db in
          if flipped =? 0
          then Err (Conflict ("debug-worker token already issued for agent job " +:+ agent))
          else Ok ((run_id q, agent), db)
    end).

(** [retry_attempt] of [lifecycle.rs]: the identity of the replacement is
    drawn by the caller. *)
Definition retry_attempt (run job agent timeline : string) (now : Z) (db : Lite)
    : result ControlError (option string * Lite) :=
  match newest (live_of_job run job) (job_requests db) with
  | None => Ok (None, db)
  | Some (id, q) =>
      match job_messages db !! (run, job) with
      | None => Err (Backend ("request " +:+ pretty id +:+ " has no message template"))
      | Some _ =>
          let db := drop_lease id (update_request id (λ _, true) (set_abandoned now) db).2 in
          '(retry, db) ← insert_attempt run job agent timeline db;
          let tokens :=
            if bool_decide (id ∈ token_requests db) then {[retry]} ∪ (token_requests db ∖ {[id]}) else token_requests db in
          Ok (Some (agent_job_id q), with_tokens tokens db)
      end
  end.

(** *** Sessions *)

Inductive SessionProtocol : Type := Compat | Broker | Azdo.

(** [create_session] of [lifecycle.rs], whose session id is drawn fresh; the
    primary key refuses one that exists. It asks for no other session to be
    closed. *)
Definition create_session (session : string) (protocol : SessionProtocol) (runner : Z) (now : Z)
    : Lite → result ControlError () * Lite :=
  let runner_id := match protocol with Compat => None | _ => Some runner end in
  write (λ db,
    if match runner_id with Some r => negb (bool_decide (r ∈ runners db)) | None => false end
    then Err (Forbidden "runner registration no longer exists")
    else if bool_decide (is_Some (runner_sessions db !! session))
    then Err (Backend "UNIQUE constraint failed: runner_sessions.session_id")
    else Ok ((), with_sessions (<[session := mkSession runner_id true now]> (runner_sessions db)) (runners db) db)).

(** The row that [poll_azdo_session] of [poll.rs] makes for an implicit session. *)
Definition implicit_session (session : string) (now : Z) (db : Lite) : Lite :=
  match runner_sessions db !! session with
  | Some _ => db
  | None => with_sessions (<[session := mkSession None false now]> (runner_sessions db)) (runners db) db
  end.

(** [touch_session] of [lifecycle.rs] and [touch_session_row] of [poll.rs]. *)
Definition touch_session (session : string) (now : Z) (db : Lite) : Lite :=
  with_sessions (alter (λ s, mkSession (session_runner s) (verified s) now) session (runner_sessions db)) (runners db) db.

(** [open_runner_session] of [lifecycle.rs]. *)
Definition open_runner_session (session : string) (runner : option Z) (require_live is_verified : bool) (now : Z)
    (db : Lite) : result ControlError () * Lite :=
  match runner with
  | None => (Ok (), db)
  | Some r =>
      write (λ db,
        if require_live && negb (bool_decide (r ∈ runners db))
        then Err (Forbidden "runner registration no longer exists")
        else if is_verified && bool_decide (map_Exists (λ s' s,
               session_runner s = Some r ∧ verified s = true ∧ s' ≠ session) (runner_sessions db))
        then Err (Conflict ("runner " +:+ pretty r +:+ " already owns a verified session"))
        else Ok ((), with_sessions (<[session := mkSession runner is_verified now]> (runner_sessions db)) (runners db) db))
        db
  end.

Definition close_runner_session (session : string) (caller : option Z) : Lite → result ControlError bool * Lite :=
  write (λ db,
    match runner_sessions db !! session with
    | None => Ok (false, db)
    | Some s =>
        match session_runner s, caller with
        | Some owner, Some caller =>
            if negb (owner =? caller)%Z then Err (Forbidden "session belongs to another runner")
            else Ok (true, update_where (λ q, bool_decide (session_id q = Some session) && in_flight q) (set_session None)
                   (with_sessions (delete session (runner_sessions db)) (runners db) db))
        | _, _ =>
            Ok (true, update_where (λ q, bool_decide (session_id q = Some session) && in_flight q) (set_session None)
              (with_sessions (delete session (runner_sessions db)) (runners db) db))
        end
    end).

(** The statements of [purge_runner_tx] on attempts, leases, sessions and the
    runner row; the messages of a session go with it. *)
Definition purge_runner (runner : Z) (db : Lite) : Lite :=
  let of_runner s := bool_decide (session_runner s = Some runner) in
  let bound q := in_flight q && (bool_decide (runner_id q = Some runner)
    || match session_of q db with Some s => of_runner s | None => false end) in
  let db' := update_where bound set_unclaimed db in
  let db' := with_leases (filter (λ e, holder e.2 ≠ runner) (job_leases db')) db' in
  let gone := filter (λ e, of_runner e.2 = true) (runner_sessions db') in
  let db' := with_notices (cancellations db')
    (filter (λ m, gone !! message_session m = None) (session_messages db')) db' in
  with_sessions (filter (λ e, of_runner e.2 = false) (runner_sessions db')) (runners db' ∖ {[runner]}) db'.

(** *** The reaper *)

(** [clamp_job_timeout_seconds], [effective_job_timeout_seconds] of
    [job_builder.rs] and the lease bounds of [distributed_task.rs]. *)
Definition DEFAULT_JOB_TIMEOUT_SECONDS : Z := 360 * 60.
Definition MAX_JOB_TIMEOUT_SECONDS : Z := 5 * 24 * 60 * 60.
Definition clamp_job_timeout_seconds (s : Z) : Z := Z.min (Z.max s 0) MAX_JOB_TIMEOUT_SECONDS.
Definition effective_job_timeout_seconds (declared : option Z) : Z :=
  clamp_job_timeout_seconds (default DEFAULT_JOB_TIMEOUT_SECONDS declared).
Definition HUNG_WORKER_LEASE_SECONDS : Z := 180.
Definition DEAD_SESSION_LEASE_SECONDS : Z := 600.
Definition lease_seconds (session_live : bool) : Z :=
  if session_live then HUNG_WORKER_LEASE_SECONDS else DEAD_SESSION_LEASE_SECONDS.
Definition seconds (n : Z) : Z := n * 1000000.

Record ActiveRequest : Type := mkActive {
  active_id : Z; active_run : string; active_job : string; active_started : option Z;
  last_renewed_at : option Z; active_timeout_triggered : bool; session_live : bool; job_timeout_s : option Z }.

(** The [active] part of [reap_inputs]. *)
Definition active_of (cutoff : Z) (db : Lite) (id : Z) (q : Request) : ActiveRequest :=
  mkActive id (run_id q) (job_id q) (started_at q) (renewed_at <$> job_leases db !! id) (timeout_triggered q)
    (match session_of q db with Some s => bool_decide (cutoff ≤ last_seen_at s)%Z | None => false end)
    (mjoin (job_messages db !! (run_id q, job_id q))).
Definition reap_active (cutoff : Z) (db : Lite) : list ActiveRequest :=
  (λ e, active_of cutoff db e.1 e.2) <$> rows_where in_flight db.

(** [now.duration_since(t).unwrap_or_default()]. *)
Definition elapsed (now t : Z) : Z := Z.max 0 (now - t).

Definition timed_out (now paused : Z) (r : ActiveRequest) : bool :=
  match active_started r with
  | Some t => negb (active_timeout_triggered r)
              && bool_decide (seconds (effective_job_timeout_seconds (job_timeout_s r)) ≤ Z.max 0 (elapsed now t - paused))%Z
  | None => false
  end.
Definition lease_expired (now : Z) (r : ActiveRequest) : bool :=
  match last_renewed_at r with
  | Some t => bool_decide (seconds (lease_seconds (session_live r)) ≤ elapsed now t)%Z
  | None => false
  end.

(** The runs the tick of [bootstrap.rs] sweeps for its attempts: no pause is
    credited there. *)
Definition due_runs (now : Z) (active : list ActiveRequest) : list string :=
  active_run <$> filter (λ r, timed_out now 0 r || lease_expired now r = true) active.

Definition queue_job_cancellation (run job : string) (db : Lite) : bool * Lite :=
  match newest (live_of_job run job) (job_requests db) with
  | None => (false, db)
  | Some (id, _) => (true, with_notices (cancellations db ++ [mkCancellation id (Some "timeout") None]) (session_messages db) db)
  end.

Record ReapSweepOutcome : Type := mkReaped { reaped_cancellations : nat; reaped_expired : list (Z * string * string) }.

Definition expire_attempt (now : Z) (q : Request) : Request := set_session None (set_outcome "failure" now q).

(** The loop of [reap_sweep] over the attempts it was given. *)
Definition reap_one (now : Z) (paused : gmap Z Z) (acc : ReapSweepOutcome * Lite) (r : ActiveRequest)
    : ReapSweepOutcome * Lite :=
  let '(out, db) := acc in
  let id := active_id r in
  let '(out, db) :=
    if timed_out now (default 0%Z (paused !! id)) r then
      let db := (update_request id (λ _, true) set_timed_out db).2 in
      let '(queued, db) := queue_job_cancellation (active_run r) (active_job r) db in
      (if queued then mkReaped (S (reaped_cancellations out)) (reaped_expired out) else out, db)
    else (out, db) in
  if lease_expired now r then
    let db := drop_lease id (update_request id in_flight (expire_attempt now) db).2 in
    (mkReaped (reaped_cancellations out) (reaped_expired out ++ [(id, active_run r, active_job r)]), db)
  else (out, db).
Definition reap_sweep (now : Z) (paused : gmap Z Z) (active : list ActiveRequest) (db : Lite) : ReapSweepOutcome * Lite :=
  foldl (reap_one now paused) (mkReaped 0 [], db) active.

(** *** Other statements that settle attempts *)

(** [settle_stale_requests] of [rerun.rs], for one job of the re-run set. *)
Definition stale_result (status_raw : string) : string :=
  if bool_decide (status_raw ∈ ["success"; "failure"; "cancelled"; "skipped"; "timed_out"]) then status_raw else "cancelled".
Definition set_stale (r : string) (now : Z) (q : Request) : Request :=
  mkRequest (run_id q) (job_id q) (agent_job_id q) (timeline_id q) (runner_id q) (session_id q) (Some r)
    (timeout_triggered q) (debug_token_issued q) (claimed_at q) (started_at q)
    (Some (default now (finished_at q))).
Definition settle_stale_requests (run : string) (rows : list (string * string)) (set : gset string) (now : Z) (db : Lite) : Lite :=
  foldl (λ db '(job, status_raw),
    if bool_decide (job ∈ set) then update_where (live_of_job run job) (set_stale (stale_result status_raw) now) db else db)
    db rows.

(** The submission that arrives cancelled, of [submit.rs]. *)
Definition cancel_arrived (run : string) (now : Z) (db : Lite) : Lite :=
  update_where (λ q, bool_decide (run_id q = run) && in_flight q) (set_outcome "cancelled" now) db.

(** *** Reads *)

Inductive RequestKey : Type :=
| ById (id : Z) | ByPlan (plan : string) | ByAgent (agent : string) | ByTimeline (timeline : string)
| ByJob (run job : string).

(** Identifiers are kept in their canonical text, so a plan names the attempt
    whose agent job id it is. *)
Definition request (key : RequestKey) (db : Lite) : option (Z * Request) :=
  match key with
  | ById id => (λ q, (id, q)) <$> job_requests db !! id
  | ByPlan a | ByAgent a => newest (by_agent a) (job_requests db)
  | ByTimeline t => newest (λ q, bool_decide (timeline_id q = t)) (job_requests db)
  | ByJob run job => newest (of_job run job) (job_requests db)
  end.

(** The plan first, then the timeline, then the agent job id. *)
Definition callback_job (plan timeline agent : option string) (db : Lite) : option (Z * Request) :=
  let by_plan q := match plan with Some p => by_agent p q | None => false end in
  let by_timeline q := match timeline with Some t => bool_decide (timeline_id q = t) | None => false end in
  let by_id q := match agent with Some a => by_agent a q | None => false end in
  let m := job_requests db in
  match newest (λ q, by_plan q && by_timeline q) m, newest by_plan m, newest by_timeline m with
  | Some e, _, _ | None, Some e, _ | None, None, Some e => Some e
  | None, None, None => newest by_id m
  end.

Definition orphaned (db : Lite) (q : Request) : bool :=
  in_flight q && (bool_decide (is_Some (runner_id q)) || bool_decide (is_Some (session_id q)))
  && negb match session_of q db with
          | Some s => match session_runner s with Some r => bool_decide (r ∈ runners db) | None => false end
          | None => false
          end.
Definition orphaned_claims (db : Lite) : list (Z * string * string) :=
  (λ e, (e.1, run_id e.2, job_id e.2)) <$> rows_where (orphaned db) db.

Definition sole_inflight_request (db : Lite) : option (Z * Request) :=
  match rows_where (λ q, in_flight q && bool_decide (is_Some (session_of q db))) db with
  | [only] => Some only
  | _ => None
  end.

Definition active_plan_ids (db : Lite) : gset string :=
  list_to_set ((λ e, agent_job_id e.2) <$> rows_where in_flight db).

End commands.

(** ** Commands as steps

    The commands of the backend, with the arguments their callers pass; the
    identities and timestamps they draw are arguments too. *)
Inductive Command : Type :=
| MintRequest (request : option (string * string)) (token : bool) (run job : string)
| BindClaim (run job session : string) (runner : option Z)
| RenewLease (agent : string) (runner : Z) (locked_until : string)
| RenewBrokerRequest (agent : string) (runner : Z) (locked_until : string)
| RenewAgentRequest (id : Z) (locked_until : string)
| RenewRequest (id runner : Z)
| ReleaseClaimedRequest (id : Z)
| ReleaseRequest (id : Z)
| SettleRequest (id : Z) (res : ExecutionStatus) (locked_until : string)
| SettleRequestTx (id : Z) (res : ExecutionStatus)
| SettleAgentRequest (id : Z) (res : ExecutionStatus) (locked_until : string)
| SettleRequestsForJob (run job : string) (res : ExecutionStatus)
| PurgeNodeRequests (run job : string)
| IssueDebugToken (agent : string)
| RetryAttempt (run job agent timeline : string)
| OpenSession (session : string) (runner : option Z) (require_live is_verified : bool)
| CreateSession (session : string) (protocol : SessionProtocol) (runner : Z)
| ImplicitSession (session : string)
| TouchSession (session : string)
| CloseSession (session : string) (caller : option Z)
| PurgeRunner (runner : Z)
| ReapSweep (paused : gmap Z Z) (active : list ActiveRequest)
| SettleStale (run : string) (rows : list (string * string)) (set : gset string)
| CancelArrived (run : string).

Definition forget {A} (r : result ControlError A * Lite) : result ControlError () * Lite :=
  ((λ _, ()) <$> r.1, r.2).
Definition total (db : Lite) : result ControlError () * Lite := (Ok (), db).

Definition execute {LC : LeaseCodec} (now : Z) (c : Command) (db : Lite) : result ControlError () * Lite :=
  match c with
  | MintRequest req token run job => write (mint_request req token run job) db
  | BindClaim run job s r => forget (write (bind_claim run job s r now) db)
  | RenewLease a r l => forget (renew_lease a r l now db)
  | RenewBrokerRequest a r l => renew_broker_request a r l now db
  | RenewAgentRequest id l => forget (renew_agent_request id l now db)
  | RenewRequest id r => renew_request id r now db
  | ReleaseClaimedRequest id => total (release_claimed_request id db).2
  | ReleaseRequest id => total (release_request id db)
  | SettleRequest id res l => forget (settle_request id res l now db)
  | SettleRequestTx id res => write (settle_request_tx id res now) db
  | SettleAgentRequest id res l => forget (settle_agent_request id res l now db)
  | SettleRequestsForJob run job res => write (settle_requests_for_job run job res now) db
  | PurgeNodeRequests run job => total (purge_node_requests run job db)
  | IssueDebugToken a => forget (issue_debug_token a db)
  | RetryAttempt run job a t => forget (write (retry_attempt run job a t now) db)
  | OpenSession s r live v => open_runner_session s r live v now db
  | CreateSession s p r => create_session s p r now db
  | ImplicitSession s => total (implicit_session s now db)
  | TouchSession s => total (touch_session s now db)
  | CloseSession s caller => forget (close_runner_session s caller db)
  | PurgeRunner r => total (purge_runner r db)
  | ReapSweep paused active => total (reap_sweep now paused active db).2
  | SettleStale run rows set => total (settle_stale_requests run rows set now db)
  | CancelArrived run => total (cancel_arrived run now db)
  end.

(** A trace: the commands of all callers, in the order the single writer ran
    them. *)
Fixpoint run {LC : LeaseCodec} (cs : list (Z * Command)) (db : Lite) : Lite :=
  match cs with
  | [] => db
  | (now, c) :: cs => run cs (execute now c db).2
  end.

(** ** Well-formed databases

    [open_runner_session] keeps one verified session per runner, [create_session]
    does not; [exclusive] says whether well-formedness includes that. *)
Section invariant.
Variable exclusive : bool.

Definition key_of (q : Request) : string * string * string * string :=
  (run_id q, job_id q, agent_job_id q, timeline_id q).

Record wf (db : Lite) : Prop := {
  wf_fresh : ∀ id q, job_requests db !! id = Some q → (id < next_id db)%Z;
  wf_agent : ∀ i j q q', job_requests db !! i = Some q → job_requests db !! j = Some q' →
    agent_job_id q = agent_job_id q' → i = j;
  wf_in_flight : ∀ i j q q', job_requests db !! i = Some q → job_requests db !! j = Some q' →
    in_flight q = true → in_flight q' = true → run_id q = run_id q' → job_id q = job_id q' → i = j;
  wf_lease : ∀ id l, job_leases db !! id = Some l →
    ∃ q, job_requests db !! id = Some q ∧ ∀ r, runner_id q = Some r → holder l = r;
  wf_tokens : ∀ id, id ∈ token_requests db → is_Some (job_requests db !! id);
  wf_cancellations : ∀ c, c ∈ cancellations db → is_Some (job_requests db !! cancelled_request c);
  wf_verified : exclusive = true → ∀ s s' a b, runner_sessions db !! s = Some a → runner_sessions db !! s' = Some b →
    verified a = true → verified b = true → is_Some (session_runner a) → session_runner a = session_runner b → s = s' }.

(** What happens to a row: its identity stays, a result and its time are
    final, and an issued debug token stays issued. *)
Record ages (q q' : Request) : Prop := {
  ages_key : key_of q' = key_of q;
  ages_outcome : ∀ r, outcome q = Some r → outcome q' = Some r ∧ finished_at q' = finished_at q;
  ages_debug : debug_token_issued q = true → debug_token_issued q' = true }.
#[export] Instance ages_preorder : PreOrder ages.
Proof.
  split; [by split|]. intros a b c [K1 O1 D1] [K2 O2 D2]. split; [congruence| |auto].
  intros r H. destruct (O1 r H) as [H' F]. destruct (O2 r H') as [? ?]. split; [done|congruence].
Qed.

Record evolves (db db' : Lite) : Prop := {
  evolves_rows : ∀ id q', job_requests db' !! id = Some q' →
    (∃ q, job_requests db !! id = Some q ∧ ages q q') ∨ (next_id db ≤ id)%Z;
  evolves_next : (next_id db ≤ next_id db')%Z }.
#[export] Instance evolves_preorder : PreOrder evolves.
Proof.
  split.
  - intros db. split; [|lia]. intros id q' H. left. by exists q'.
  - intros a b c [R1 N1] [R2 N2]. split; [|lia]. intros id q'' H.
    destruct (R2 _ _ H) as [(q' & H' & A')|?]; [|right; lia].
    destruct (R1 _ _ H') as [(q & ? & ?)|?]; [|by right]. left. exists q. split; [done|by etransitivity].
Qed.

(** A step of the database: it preserves well-formedness and only ages rows. *)
Definition sound (db db' : Lite) : Prop := wf db → wf db' ∧ evolves db db'.
#[export] Instance sound_preorder : PreOrder sound.
Proof.
  split; [by split|]. intros a b c H1 H2 Ha. destruct (H1 Ha) as [Hb E1], (H2 Hb) as [Hc E2].
  split; [done|by etransitivity].
Qed.

(** An assignment to a row that keeps its owner or drops it. *)
Definition plain (f : Request → Request) (p : Request → bool) : Prop :=
  ∀ q, p q = true → ages q (f q) ∧ (runner_id (f q) = runner_id q ∨ runner_id (f q) = None).

Lemma ages_in_flight q q' : ages q q' → in_flight q' = true → in_flight q = true.
Proof.
  intros [_ O _]. unfold in_flight. rewrite !bool_decide_eq_true. intros H.
  destruct (outcome q) as [r|]; [|done]. destruct (O r eq_refl). congruence.
Qed.
Lemma ages_fields q q' : ages q q' →
  run_id q' = run_id q ∧ job_id q' = job_id q ∧ agent_job_id q' = agent_job_id q ∧ timeline_id q' = timeline_id q.
Proof. intros [K _ _]. by injection K. Qed.

(** Replacing the rows by aged ones. *)
Lemma sound_rows (db : Lite) (m : gmap Z Request) :
  (∀ id q', m !! id = Some q' → ∃ q, job_requests db !! id = Some q ∧ ages q q'
     ∧ (runner_id q' = runner_id q ∨ runner_id q' = None)) →
  (∀ id, is_Some (job_requests db !! id) → is_Some (m !! id)) →
  sound db (with_requests m db).
Proof.
  intros Hm Hd W. assert (evolves db (with_requests m db)) as E.
  { split; [|done]. intros id q' H. destruct (Hm _ _ H) as (q & ? & ? & _). left. by exists q. }
  split; [|done]. destruct W as [Wf Wa Wi Wl Wt Wc Wv]. split; cbn.
  - intros id q' H. destruct (Hm _ _ H) as (q & ? & _). by eapply Wf.
  - intros i j q q' Hi Hj He. destruct (Hm _ _ Hi) as (a & Ha & Aa & _), (Hm _ _ Hj) as (b & Hb & Ab & _).
    apply ages_fields in Aa as (? & ? & ? & ?), Ab as (? & ? & ? & ?). eapply Wa; eauto. congruence.
  - intros i j q q' Hi Hj Fi Fj Hr Hj'. destruct (Hm _ _ Hi) as (a & Ha & Aa & _), (Hm _ _ Hj) as (b & Hb & Ab & _).
    assert (in_flight a = true) by by eapply ages_in_flight. assert (in_flight b = true) by by eapply ages_in_flight.
    apply ages_fields in Aa as (? & ? & ? & ?), Ab as (? & ? & ? & ?). eapply Wi; eauto; congruence.
  - intros id l H. destruct (Wl _ _ H) as (q & Hq & Ho). destruct (Hd id) as [q' Hq']; [by eexists|].
    exists q'. split; [done|]. destruct (Hm _ _ Hq') as (q0 & Hq0 & _ & [Hr|Hr]); rewrite Hr; [|done].
    simplify_eq. done.
  - intros id H. by apply Hd, Wt.
  - intros c H. by apply Hd, Wc.
  - done.
Qed.

Lemma sound_update_where p f db : plain f p → sound db (update_where p f db).
Proof.
  intros Hf. apply sound_rows.
  - intros id q'. rewrite lookup_fmap. intros (q & Hl & ->)%fmap_Some. exists q. split; [done|].
    destruct (p q) eqn:E; [by apply Hf|]. split; [done|by left].
  - intros id [q Hq]. rewrite lookup_fmap, Hq. by eexists.
Qed.

Lemma sound_update_request id p f db : plain f p → sound db (update_request id p f db).2.
Proof.
  intros Hf. unfold update_request. destruct (job_requests db !! id) as [q|] eqn:E; [|done].
  destruct (p q) eqn:Ep; [|done]. cbn. apply sound_rows.
  - intros j q' H. destruct (decide (id = j)) as [<-|Hne].
    + rewrite lookup_insert_eq in H. injection H as <-. exists q. split; [done|by apply Hf].
    + rewrite lookup_insert_ne in H by done. exists q'. split_and!; [done|done|by left].
  - intros j Hj. destruct (decide (id = j)) as [<-|Hne]; [by rewrite lookup_insert_eq|by rewrite lookup_insert_ne].
Qed.

Lemma sound_leases (db : Lite) (m : gmap Z Lease) :
  (∀ id l, m !! id = Some l → (∃ l', job_leases db !! id = Some l' ∧ holder l' = holder l)
     ∨ ∃ q, job_requests db !! id = Some q ∧ ∀ r, runner_id q = Some r → holder l = r) →
  sound db (with_leases m db).
Proof.
  intros Hm W. split; [|by split; [left; eexists|]]. destruct W as [Wf Wa Wi Wl Wt Wc Wv]. split; cbn; try done.
  intros id l H. destruct (Hm _ _ H) as [(l' & Hl' & <-)|?]; [by apply Wl|done].
Qed.

Lemma sound_drop_lease id db : sound db (drop_lease id db).
Proof.
  apply sound_leases. intros j l H. left. exists l. apply lookup_delete_Some in H as [_ ?]. done.
Qed.

Lemma sound_upsert_lease id r e now db q :
  job_requests db !! id = Some q → (∀ r', runner_id q = Some r' → r = r') → sound db (upsert_lease id r e now db).
Proof.
  intros Hq Hr. apply sound_leases. intros j l H. destruct (decide (id = j)) as [<-|Hne].
  - rewrite lookup_insert_eq in H. injection H as <-. destruct (job_leases db !! id) as [l|] eqn:E; [left|right].
    + by exists l.
    + exists q. by split.
  - rewrite lookup_insert_ne in H by done. left. by exists l.
Qed.

Lemma sound_notices cs ms db :
  (∀ c, c ∈ cs → ∃ c', c' ∈ cancellations db ∧ cancelled_request c = cancelled_request c') → sound db (with_notices cs ms db).
Proof.
  intros Hc W. split; [|by split; [left; eexists|]]. destruct W as [Wf Wa Wi Wl Wt Wc Wv]. split; cbn; try done.
  intros c H. destruct (Hc _ H) as (c' & ? & ->). by apply Wc.
Qed.

Lemma sound_tokens s db : (∀ id, id ∈ s → is_Some (job_requests db !! id)) → sound db (with_tokens s db).
Proof.
  intros Hs W. split; [|by split; [left; eexists|]]. destruct W as [Wf Wa Wi Wl Wt Wc Wv]. by split.
Qed.

Lemma sound_sessions m rs db :
  (∀ s a, m !! s = Some a → ∃ a', runner_sessions db !! s = Some a' ∧ session_runner a' = session_runner a ∧ verified a' = verified a) →
  sound db (with_sessions m rs db).
Proof.
  intros Hm W. split; [|by split; [left; eexists|]]. destruct W as [Wf Wa Wi Wl Wt Wc Wv]. split; cbn; try done.
  intros He s s' a b (a' & Ha & <- & <-)%Hm (b' & Hb & <- & <-)%Hm. by apply (Wv He).
Qed.

Lemma sound_insert q db id db' : insert_request q db = Ok (id, db') → outcome q = None → runner_id q = None →
  sound db db' ∧ is_Some (job_requests db' !! id) ∧ token_requests db' = token_requests db
  ∧ (∀ j, is_Some (job_requests db !! j) → is_Some (job_requests db' !! j)).
Proof.
  unfold insert_request. intros H Ho Hr.
  destruct (bool_decide (map_Exists _ _)) eqn:Ea; [done|]. apply bool_decide_eq_false in Ea.
  assert (in_flight q = true) as Hq by by apply bool_decide_eq_true. rewrite Hq in H. cbn [andb] in H.
  destruct (bool_decide (map_Exists (λ _ q', live_of_job _ _ q' = true) _)) eqn:Ei; [done|]. apply bool_decide_eq_false in Ei.
  injection H as <- <-. split_and!.
  2: cbn; rewrite lookup_insert_eq; by eexists.
  2: done.
  2: { intros j Hj. cbn. destruct (decide (next_id db = j)) as [<-|]; [by rewrite lookup_insert_eq|by rewrite lookup_insert_ne]. }
  intros W. destruct W as [Wf Wa Wi Wl Wt Wc Wv].
  assert (job_requests db !! next_id db = None) as Hn.
  { destruct (job_requests db !! next_id db) as [q0|] eqn:E; [|done]. specialize (Wf _ _ E). lia. }
  assert (∀ j q', <[next_id db := q]> (job_requests db) !! j = Some q' →
    (j = next_id db ∧ q' = q) ∨ (j ≠ next_id db ∧ job_requests db !! j = Some q')) as Hl.
  { intros j q' H. destruct (decide (next_id db = j)) as [<-|].
    - rewrite lookup_insert_eq in H. left. by injection H.
    - rewrite lookup_insert_ne in H by done. by right. }
  split; [split; cbn; try done|].
  - intros j q' [[-> ->]|[_ H]]%Hl; [lia|]. specialize (Wf _ _ H). lia.
  - intros i j a b [[-> ->]|[_ Hi]]%Hl [[-> ->]|[_ Hj]]%Hl He; [done|..|by eapply Wa].
    + destruct Ea. exists j, b. done.
    + destruct Ea. exists i, a. done.
  - intros i j a b [[-> ->]|[_ Hi]]%Hl [[-> ->]|[_ Hj]]%Hl Fa Fb Hrn Hjb; [done|..|by eapply Wi].
    + destruct Ei. exists j, b. split; [done|]. unfold live_of_job, of_job. rewrite Fb, bool_decide_eq_true_2; done.
    + destruct Ei. exists i, a. split; [done|]. unfold live_of_job, of_job. rewrite Fa, bool_decide_eq_true_2; done.
  - intros j l H. destruct (Wl _ _ H) as (q0 & Hq0 & Hh). exists q0. split; [|done].
    rewrite lookup_insert_ne; [done|]. intros <-. congruence.
  - intros j H. destruct (Wt _ H) as [q0 H0]. exists q0. rewrite lookup_insert_ne; [done|]. intros <-. congruence.
  - intros c H. destruct (Wc _ H) as [q0 H0]. exists q0. rewrite lookup_insert_ne; [done|]. intros He. congruence.
  - split; cbn; [|lia]. intros j q' [[-> ->]|[_ H]]%Hl; [right; lia|]. left. by exists q'.
Qed.

Lemma sound_delete_request id db : sound db (delete_request id db).
Proof.
  intros W. destruct W as [Wf Wa Wi Wl Wt Wc Wv].
  split; [split; cbn; try done|split; cbn; [|lia]].
  - intros j q [_ H]%lookup_delete_Some. by eapply Wf.
  - intros i j a b [_ Hi]%lookup_delete_Some [_ Hj]%lookup_delete_Some. by apply Wa.
  - intros i j a b [_ Hi]%lookup_delete_Some [_ Hj]%lookup_delete_Some. by apply Wi.
  - intros j l [Hne H]%lookup_delete_Some. destruct (Wl _ _ H) as (q & ? & ?). exists q. by rewrite lookup_delete_ne.
  - intros j [H Hne]%elem_of_difference. rewrite lookup_delete_ne by set_solver. by apply Wt.
  - intros c [Hne H]%list_elem_of_filter. rewrite lookup_delete_ne by done. by apply Wc.
  - intros j q [_ H]%lookup_delete_Some. left. by exists q.
Qed.

Create HintDb lite.
Hint Resolve sound_update_where sound_update_request sound_drop_lease sound_delete_request : lite.

Ltac plain_update := intros q Hq; split; [split; cbn; try done | by (left + right)].

Lemma plain_outcome r now : plain (set_outcome r now) in_flight.
Proof. plain_update. intros r0 H. apply bool_decide_eq_true in Hq. congruence. Qed.
Lemma plain_outcome_where r now p : plain (set_outcome r now) (λ q, p q && in_flight q).
Proof. plain_update. intros r0 H. apply andb_true_iff in Hq as [_ Hq]. apply bool_decide_eq_true in Hq. congruence. Qed.
Lemma plain_session s p : plain (set_session s) p.
Proof. plain_update. Qed.
Lemma plain_unclaimed p : plain set_unclaimed p.
Proof. plain_update. Qed.
Lemma plain_timed_out p : plain set_timed_out p.
Proof. plain_update. Qed.
Lemma plain_debug p : plain set_debug_issued p.
Proof. plain_update. Qed.
Lemma plain_stale r now p : plain (set_stale r now) (λ q, p q && in_flight q).
Proof. plain_update. intros r0 H. apply andb_true_iff in Hq as [_ Hq]. apply bool_decide_eq_true in Hq. congruence. Qed.
Lemma plain_expire now : plain (expire_attempt now) in_flight.
Proof. plain_update. intros r0 H. apply bool_decide_eq_true in Hq. congruence. Qed.
Hint Resolve plain_outcome plain_outcome_where plain_session plain_unclaimed plain_timed_out plain_debug
  plain_stale plain_expire : lite.

Lemma newer_None p l : foldr (newer p) None l = None ↔ Forall (λ e, p e.2 = false) l.
Proof.
  induction l as [|e l IH]; [done|]. cbn [foldr]. rewrite Forall_cons, <- IH. unfold newer at 1.
  destruct (p e.2); [|naive_solver]. destruct (foldr _ _ l) as [[j q]|]; [destruct (_ <? _)%Z|]; naive_solver.
Qed.

Lemma newer_Some p l e : foldr (newer p) None l = Some e →
  e ∈ l ∧ p e.2 = true ∧ ∀ e', e' ∈ l → p e'.2 = true → (e'.1 ≤ e.1)%Z.
Proof.
  revert e. induction l as [|e0 l IH]; intros e; [done|]. cbn [foldr]. unfold newer at 1.
  setoid_rewrite elem_of_cons. destruct (p e0.2) eqn:E0.
  - destruct (foldr (newer p) None l) as [[j q]|] eqn:F.
    + specialize (IH _ eq_refl) as (Hin & Hp & Hmax). cbn [fst snd] in *.
      destruct (Z.ltb_spec j e0.1) as [Hlt|Hle]; intros [= <-].
      * split_and!; [by left|done|]. intros e' [->|H] He'; [done|]. specialize (Hmax _ H He'). lia.
      * split_and!; [by right|done|]. intros e' [->|H] He'; [done|]. by apply Hmax.
    + intros [= <-]. apply newer_None in F. rewrite Forall_forall in F. split_and!; [by left|done|].
      intros e' [->|H] He'; [done|]. specialize (F _ H). congruence.
  - intros H. destruct (IH _ H) as (Hin & Hp & Hmax). split_and!; [by right|done|].
    intros e' [->|He] He'; [congruence|by apply Hmax].
Qed.

Lemma newest_Some p m i q : newest p m = Some (i, q) ↔
  m !! i = Some q ∧ p q = true ∧ ∀ j q', m !! j = Some q' → p q' = true → (j ≤ i)%Z.
Proof.
  unfold newest. split.
  - intros (H & Hp & Hmax)%newer_Some. apply elem_of_map_to_list in H. split_and!; [done|done|].
    intros j q' Hj. apply elem_of_map_to_list in Hj. apply (Hmax (j, q') Hj).
  - intros (H & Hp & Hmax). destruct (foldr _ _ _) as [[j q']|] eqn:F.
    + apply newer_Some in F as (Hj & Hp' & Hmax'). cbn in *. assert (Hj' := Hj). apply elem_of_map_to_list in Hj'.
      apply elem_of_map_to_list in H. specialize (Hmax' (i, q) H Hp). specialize (Hmax j q' Hj' Hp'). cbn in *.
      assert (i = j) as <- by lia. apply elem_of_map_to_list in H. congruence.
    + apply newer_None in F. rewrite Forall_forall in F. apply elem_of_map_to_list in H. specialize (F _ H). cbn in F. congruence.
Qed.

Lemma newest_None p m : newest p m = None ↔ ∀ i q, m !! i = Some q → p q = false.
Proof.
  unfold newest. rewrite newer_None, Forall_forall. split.
  - intros H i q Hi. by apply (H (i, q)), elem_of_map_to_list.
  - intros H [i q] Hi. by apply (H i), elem_of_map_to_list.
Qed.

Lemma rows_where_elem p db i q : (i, q) ∈ rows_where p db ↔ job_requests db !! i = Some q ∧ p q = true.
Proof.
  unfold rows_where. rewrite (merge_sort_Permutation id_le), list_elem_of_filter, elem_of_map_to_list. cbn. tauto.
Qed.

Lemma sound_update_row id f db q :
  job_requests db !! id = Some q → ages q (f q) → runner_id (f q) = runner_id q ∨ runner_id (f q) = None →
  sound db (update_request id (λ _, true) f db).2.
Proof.
  intros Hq Ha Hr. unfold update_request. rewrite Hq. cbn. apply sound_rows.
  - intros j q' H. destruct (decide (id = j)) as [<-|Hne].
    + rewrite lookup_insert_eq in H. injection H as <-. by exists q.
    + rewrite lookup_insert_ne in H by done. exists q'. split_and!; [done|done|by left].
  - intros j Hj. destruct (decide (id = j)) as [<-|Hne]; [by rewrite lookup_insert_eq|by rewrite lookup_insert_ne].
Qed.

Section sound.
Context {LC : LeaseCodec}.

Lemma sound_write {A} (f : Lite → result ControlError (A * Lite)) db :
  (∀ a db', f db = Ok (a, db') → sound db db') → sound db (write f db).2.
Proof. unfold write. intros H. destruct (f db) as [[a db']|e] eqn:E; [by eapply H|done]. Qed.

Lemma sound_set_lease id e now db : sound db (set_lease id e now db).
Proof.
  unfold set_lease. destruct (job_requests db !! id) as [q|] eqn:E; [|done].
  destruct (runner_id q) as [r|] eqn:Er; [|done]. eapply sound_upsert_lease; [done|]. congruence.
Qed.

Lemma sound_stamp_result id res l now db b db' : stamp_result id res l now db = Ok (b, db') → sound db db'.
Proof.
  unfold stamp_result. destruct (parse_lease l) as [e|]; [|done]. cbn [mbind result_bind].
  destruct (is_terminal res); cbn [negb]; [|intros [= <- <-]; apply sound_set_lease].
  destruct (update_request _ _ _ _) as [n db1] eqn:E. intros [= <- <-].
  assert (sound db db1) as H1.
  { replace db1 with (update_request id in_flight (set_outcome (status_str res) now) db).2 by by rewrite E. auto with lite. }
  destruct (n =? 1); [|done]. etransitivity; [exact H1|apply sound_set_lease].
Qed.

Lemma sound_cleanup id db : sound db (settle_cleanup id db).
Proof.
  unfold settle_cleanup. etransitivity; [|auto with lite].
  etransitivity; [|apply sound_notices; cbn; intros c [_ H]%list_elem_of_filter; by exists c].
  intros W. apply sound_tokens; [|done]. intros j [H _]%elem_of_difference. by apply (wf_tokens _ W).
Qed.

Lemma sound_undo id now db : sound db (undo_pending_cancellation id now db).
Proof.
  apply sound_notices. intros c (c' & -> & Hc)%list_elem_of_fmap. exists c'. split; [done|]. by destruct (bool_decide _).
Qed.

Lemma sound_settle_each ids res now db u db' : settle_each ids res now db = Ok (u, db') → sound db db'.
Proof.
  revert db. induction ids as [|id ids IH]; intros db; cbn [settle_each]; [by intros [= _ <-]|].
  destruct (stamp_result _ _ _ _ _) as [[b db1]|] eqn:E; [|done]. cbn [mbind result_bind]. intros H.
  etransitivity; [by eapply sound_stamp_result|]. etransitivity; [apply sound_undo|by apply IH].
Qed.

Lemma sound_foldl {A} (f : Lite → A → Lite) l db : (∀ db a, sound db (f db a)) → sound db (foldl f db l).
Proof.
  intros H. revert db. induction l as [|a l IH]; intros db; cbn; [done|]. etransitivity; [apply H|apply IH].
Qed.

Lemma sound_bind_claim run job ses r now db o db' : bind_claim run job ses r now db = Ok (o, db') → sound db db'.
Proof.
  unfold bind_claim. destruct (newest _ _) as [[id q]|] eqn:E; [|by intros [= _ <-]].
  apply newest_Some in E as (Hq & _). intros H W.
  assert (ages q (set_claimed ses r now q)) as Ha by by split.
  set (m := <[id := set_claimed ses r now q]> (job_requests db)).
  assert (job_requests db' = m ∧ next_id db' = next_id db ∧ token_requests db' = token_requests db
    ∧ cancellations db' = cancellations db ∧ runner_sessions db' = runner_sessions db
    ∧ (job_leases db' = job_leases db ∧ r = None
       ∨ ∃ r0 e, r = Some r0 ∧ job_leases db' = <[id := mkLease r0 e now]> (job_leases db))) as (Em & En & Et & Ec & Es & El).
  { unfold update_request in H. rewrite Hq in H. cbn [snd] in H. destruct r as [r|].
    - destruct (parse_lease (agent_request_locked_until now)) as [e|]; [|done]. injection H as _ <-. split_and!; try done. right. by eexists _, _.
    - injection H as _ <-. split_and!; try done. by left. }
  assert (∀ j q', m !! j = Some q' → ∃ q0, job_requests db !! j = Some q0 ∧ ages q0 q' ∧ (j ≠ id → q' = q0)) as Hm.
  { intros j q' Hj. destruct (decide (id = j)) as [<-|Hne]; subst m.
    - rewrite lookup_insert_eq in Hj. injection Hj as <-. by exists q.
    - rewrite lookup_insert_ne in Hj by done. by exists q'. }
  assert (∀ j, is_Some (job_requests db !! j) → is_Some (m !! j)) as Hd.
  { intros j Hj. subst m. destruct (decide (id = j)) as [<-|]; [by rewrite lookup_insert_eq|by rewrite lookup_insert_ne]. }
  destruct W as [Wf Wa Wi Wl Wt Wc Wv]. split.
  2:{ split; [|by rewrite En]. intros j q'. rewrite Em. intros (q0 & ? & ? & _)%Hm. left. by exists q0. }
  split; rewrite ?Em, ?En, ?Et, ?Ec, ?Es; try done.
  - intros j q' (q0 & ? & _)%Hm. by eapply Wf.
  - intros i j a b (a0 & Ha0 & Aa & _)%Hm (b0 & Hb0 & Ab & _)%Hm He.
    apply ages_fields in Aa as (? & ? & ? & ?), Ab as (? & ? & ? & ?). eapply Wa; eauto. congruence.
  - intros i j a b (a0 & Ha0 & Aa & _)%Hm (b0 & Hb0 & Ab & _)%Hm Fa Fb Hr Hj.
    assert (in_flight a0 = true) by by eapply ages_in_flight. assert (in_flight b0 = true) by by eapply ages_in_flight.
    apply ages_fields in Aa as (? & ? & ? & ?), Ab as (? & ? & ? & ?). eapply Wi; eauto; congruence.
  - assert (∀ j l, job_leases db !! j = Some l → j ≠ id →
      ∃ q0, m !! j = Some q0 ∧ ∀ r0, runner_id q0 = Some r0 → holder l = r0) as Hold.
    { intros j l Hl Hne. destruct (Wl _ _ Hl) as (q0 & Hq0 & Hh). exists q0. subst m. by rewrite lookup_insert_ne. }
    assert (m !! id = Some (set_claimed ses r now q)) as Hid by apply lookup_insert_eq.
    destruct El as [[-> ->]|(r0 & e & -> & ->)]; intros j l Hl.
    + destruct (decide (j = id)) as [->|Hne]; [|by apply Hold]. eexists. split; [exact Hid|done].
    + destruct (decide (id = j)) as [<-|Hne].
      * rewrite lookup_insert_eq in Hl. injection Hl as <-. eexists. split; [exact Hid|]. cbn. by intros r1 [= <-].
      * rewrite lookup_insert_ne in Hl by done. by apply Hold.
  - intros j Hj. by apply Hd, Wt.
  - intros c Hc. by apply Hd, Wc.
Qed.

Lemma sound_retry_attempt run job agent timeline now db o db' :
  retry_attempt run job agent timeline now db = Ok (o, db') → sound db db'.
Proof.
  unfold retry_attempt. destruct (newest _ _) as [[id q]|] eqn:E; [|by intros [= _ <-]].
  apply newest_Some in E as (Hq & Hlive & _). apply andb_true_iff in Hlive as [_ Hf]. apply bool_decide_eq_true in Hf.
  destruct (job_messages db !! (run, job)); [|done].
  set (db1 := drop_lease id _). destruct (insert_attempt _ _ _ _ db1) as [[retry db2]|] eqn:Ei; [|done].
  cbn [mbind result_bind]. intros [= _ <-].
  assert (sound db db1) as H1.
  { etransitivity; [|apply sound_drop_lease]. eapply sound_update_row; [exact Hq| |by right].
    split; [done|congruence|done]. }
  apply sound_insert in Ei as (H2 & Hretry & Ht & Hd); [|done..].
  etransitivity; [exact H1|]. etransitivity; [exact H2|]. intros W. apply sound_tokens; [|done].
  intros j. assert (Hk := wf_tokens _ W). destruct (bool_decide _); [|apply Hk].
  intros [H%elem_of_singleton|[H _]%elem_of_difference]%elem_of_union; [by subst j|by apply Hk].
Qed.

Lemma sound_open_session ses r live v now db : sound db (open_runner_session ses r live v now db).2.
Proof.
  unfold open_runner_session. destruct r as [r|]; [|done]. apply sound_write. intros [] db'.
  destruct (live && _); [done|]. destruct (v && _) eqn:Ev; [done|]. intros [= <-] W.
  split; [|by split; [left; eexists|]]. destruct W as [Wf Wa Wi Wl Wt Wc Wv]. split; cbn; try done.
  assert (∀ s a, runner_sessions db !! s = Some a → v = true → verified a = true → session_runner a = Some r → s = ses) as Hc.
  { intros s a Ha -> Hva Hra. cbn in Ev. apply bool_decide_eq_false in Ev. destruct (decide (s = ses)) as [|Hne]; [done|].
    destruct Ev. by exists s, a. }
  intros Hx s s' a b Ha Hb Va Vb Hs He.
  destruct (decide (ses = s)) as [<-|Hn], (decide (ses = s')) as [<-|Hn']; [done|..|].
  - rewrite lookup_insert_eq in Ha. rewrite lookup_insert_ne in Hb by done. injection Ha as <-. cbn in *.
    symmetry. eapply Hc; eauto.
  - rewrite lookup_insert_ne in Ha by done. rewrite lookup_insert_eq in Hb. injection Hb as <-. cbn in *. by eapply Hc.
  - rewrite lookup_insert_ne in Ha, Hb by done. by eapply Wv.
Qed.

(** A new session that no runner owns, or any where exclusivity is not asked for. *)
Lemma sound_new_session ses a db :
  session_runner a = None ∨ exclusive = false → runner_sessions db !! ses = None →
  sound db (with_sessions (<[ses := a]> (runner_sessions db)) (runners db) db).
Proof.
  intros Ha Hs W. split; [|by split; [left; eexists|]]. destruct W as [Wf Wa Wi Wl Wt Wc Wv]. split; cbn; try done.
  intros Hx s s' b b' Hb Hb' Vb Vb' [r Hr] He. destruct Ha as [Ha|?]; [|congruence].
  apply lookup_insert_Some in Hb as [[<- <-]|[_ Hb]], Hb' as [[<- <-]|[_ Hb']]; [done|congruence..|].
  by eapply (Wv Hx s s' b b').
Qed.

Lemma sound_create_session ses p r now db :
  exclusive = false ∨ p = Compat → sound db (create_session ses p r now db).2.
Proof.
  intros Hp. apply sound_write. intros [] db'. cbv zeta. destruct (match _ with Some _ => _ | None => _ end); [done|].
  destruct (bool_decide _) eqn:Eb; [done|]. apply bool_decide_eq_false in Eb.
  intros [= <-]. apply sound_new_session; [|by apply eq_None_not_Some].
  destruct Hp as [?| ->]; [by right|by left].
Qed.

Lemma sound_implicit_session ses now db : sound db (implicit_session ses now db).
Proof. unfold implicit_session. destruct (_ !! ses) eqn:E; [done|]. by apply sound_new_session; [left|]. Qed.

Lemma sound_touch_session ses now db : sound db (touch_session ses now db).
Proof.
  apply sound_sessions. intros s a [(<- & b & Hb & ->)|[_ Ha]]%lookup_alter_Some; [by exists b|by exists a].
Qed.

Lemma sound_close_session ses caller db : sound db (close_runner_session ses caller db).2.
Proof.
  assert (∀ db, sound db (update_where (λ q, bool_decide (session_id q = Some ses) && in_flight q) (set_session None)
    (with_sessions (delete ses (runner_sessions db)) (runners db) db))) as H.
  { intros db0. etransitivity; [|apply sound_update_where, plain_session].
    apply sound_sessions. intros s a [_ ?]%lookup_delete_Some. by exists a. }
  apply sound_write. intros b db'. destruct (runner_sessions db !! ses) as [s|]; [|by intros [= _ <-]].
  destruct (session_runner s), caller; try (intros [= _ <-]; apply H).
  destruct (negb _); [done|]. intros [= _ <-]. apply H.
Qed.

Lemma sound_purge_runner r db : sound db (purge_runner r db).
Proof.
  unfold purge_runner.
  etransitivity; [|apply sound_sessions; intros s a [? _]%map_lookup_filter_Some; by exists a].
  etransitivity; [|apply sound_notices; intros c Hc; by exists c].
  etransitivity; [|apply sound_leases; intros id l [H _]%map_lookup_filter_Some; left; by exists l].
  apply sound_update_where, plain_unclaimed.
Qed.

Lemma sound_queue_cancellation run job db : sound db (queue_job_cancellation run job db).2.
Proof.
  unfold queue_job_cancellation. destruct (newest _ _) as [[id q]|] eqn:E; [|done]. cbn [snd].
  apply newest_Some in E as (Hq & _). intros W. split; [|by split; [left; eexists|]].
  destruct W as [Wf Wa Wi Wl Wt Wc Wv]. split; cbn; try done.
  intros c [H|H%list_elem_of_singleton]%elem_of_app; [by apply Wc|]. subst c. by exists q.
Qed.

Lemma sound_reap_one now paused out db r : sound db (reap_one now paused (out, db) r).2.
Proof.
  unfold reap_one. set (X := if timed_out _ _ _ then _ else _).
  assert (sound db X.2) as H.
  { subst X. destruct (timed_out _ _ _); [|done].
    destruct (queue_job_cancellation _ _ _) as [b db1] eqn:E. cbn [snd].
    etransitivity; [apply (sound_update_request (active_id r) (λ _, true) set_timed_out), plain_timed_out|].
    assert (H := sound_queue_cancellation (active_run r) (active_job r)
      (update_request (active_id r) (λ _, true) set_timed_out db).2). by rewrite E in H. }
  destruct X as [out1 db1]. cbn in H. destruct (lease_expired now r); [|done]. cbn [snd].
  etransitivity; [exact H|]. etransitivity; [|apply sound_drop_lease]. auto with lite.
Qed.

Lemma sound_reap_sweep now paused active db : sound db (reap_sweep now paused active db).2.
Proof.
  unfold reap_sweep. generalize (mkReaped 0 []) as out. revert db.
  induction active as [|r active IH]; intros db out; cbn [foldl]; [done|].
  assert (H := sound_reap_one now paused out db r). destruct (reap_one _ _ _ r) as [out1 db1].
  etransitivity; [exact H|apply IH].
Qed.

Lemma sound_renew_agent id l now db : sound db (renew_agent_request id l now db).2.
Proof.
  unfold renew_agent_request. destruct (parse_lease l) as [e|]; [|done]. apply sound_write. intros b db'.
  destruct (job_requests db !! id) as [q|] eqn:Eq; [|by intros [= _ <-]].
  destruct (owner_or_session q db) as [r|] eqn:Eo; [|by intros [= _ <-]].
  destruct (in_flight q); intros [= _ <-]; [|done]. eapply sound_upsert_lease; [exact Eq|].
  intros r' Hr. unfold owner_or_session in Eo. rewrite Hr in Eo. by injection Eo.
Qed.

Lemma sound_renew_lease a r l now db : sound db (renew_lease a r l now db).2.
Proof.
  apply sound_write. intros b db'. cbv beta zeta.
  assert (match renew_lease_miss a r (parse_lease l) db with Ok miss => Ok (miss, db) | Err e => Err e end = Ok (b, db')
    → sound db db') as Hm by (destruct (renew_lease_miss _ _ _ _); [by intros [= _ <-]|done]).
  destruct (parse_lease l) as [e|]; [|exact Hm].
  destruct (newest _ _) as [[id q]|] eqn:En; [|exact Hm]. intros [= _ <-].
  apply newest_Some in En as (Hq & Hp & _). apply andb_true_iff in Hp as [_ Hr]. apply bool_decide_eq_true in Hr.
  eapply sound_upsert_lease; [exact Hq|]. congruence.
Qed.

Lemma sound_renew_broker a r l now db : sound db (renew_broker_request a r l now db).2.
Proof.
  apply sound_write. intros [] db'. cbv beta zeta. destruct (newest _ _) as [[id q]|] eqn:En; [|done].
  apply newest_Some in En as (Hq & _).
  match goal with |- match ?x with Some _ => _ | None => _ end = _ → _ => destruct x eqn:Ef end; [done|].
  destruct (in_flight q); cbn [negb]; [|done]. destruct (parse_lease l); [|done].
  intros [= <-]. eapply sound_upsert_lease; [exact Hq|]. intros r' Hr. rewrite Hr in Ef.
  destruct (Z.eqb_spec r' r); done.
Qed.

Lemma sound_renew_request id r now db : sound db (renew_request id r now db).2.
Proof.
  apply sound_write. intros [] db'. destruct (job_requests db !! id) as [q|] eqn:Eq; [|done].
  destruct (bool_decide (runner_id q = Some r)) eqn:Er; [|done]. cbn [negb]. apply bool_decide_eq_true in Er.
  destruct (parse_lease _); [|done]. intros [= <-]. eapply sound_upsert_lease; [exact Eq|]. congruence.
Qed.

Lemma sound_debug_token a db : sound db (issue_debug_token a db).2.
Proof.
  apply sound_write. intros x db'. destruct (newest _ _) as [[id q]|]; [|done]. destruct (negb _); [done|].
  destruct (debug_token_issued q); [done|].
  destruct (update_request _ _ _ _) as [n db1] eqn:E. destruct (n =? 0); [done|]. intros [= _ <-].
  replace db1 with (update_request id (λ q, negb (debug_token_issued q)) set_debug_issued db).2 by by rewrite E.
  auto with lite.
Qed.
End sound.

(** ** Traces *)

Section traces.
Context {LC : LeaseCodec}.

Lemma sound_forget {A} (r : result ControlError A * Lite) db : sound db r.2 → sound db (forget r).2.
Proof. done. Qed.

(** The command gives a runner a session without looking for another. *)
Definition unchecked_session (c : Command) : Prop :=
  match c with CreateSession _ (Broker | Azdo) _ => True | _ => False end.

Lemma sound_execute now c db : exclusive = false ∨ ¬ unchecked_session c → sound db (execute now c db).2.
Proof.
  intros Hx. destruct c; cbn [execute forget total snd].
  - apply sound_write. intros [] db'. unfold mint_request. destruct request0 as [[agent timeline]|]; [|by intros [= <-]].
    destruct (insert_attempt _ _ _ _ _) as [[id db1]|] eqn:E; [|done]. cbn [mbind result_bind]. intros [= <-].
    apply sound_insert in E as (H & Hid & Ht & Hd); [|done..]. destruct token; [|done].
    etransitivity; [exact H|]. intros W. apply sound_tokens; [|done].
    intros j [Hj%elem_of_singleton|Hj]%elem_of_union; [by subst j|by apply (wf_tokens _ W)].
  - apply sound_write. intros o db'. apply sound_bind_claim.
  - apply sound_renew_lease.
  - apply sound_renew_broker.
  - apply sound_renew_agent.
  - apply sound_renew_request.
  - unfold release_claimed_request.
    assert (H := sound_update_request id in_flight set_unclaimed db (plain_unclaimed _)).
    destruct (update_request _ _ _ _) as [n db1]. destruct (n =? 0); [done|]. etransitivity; [exact H|apply sound_drop_lease].
  - unfold release_request. etransitivity; [|apply sound_drop_lease]. auto with lite.
  - apply sound_write. intros o db'. unfold settle_request_body. destruct (_ !! _); [|by intros [= _ <-]].
    destruct (stamp_result _ _ _ _ _) as [[b db1]|] eqn:E; [|done]. intros [= _ <-].
    etransitivity; [apply sound_cleanup|by eapply sound_stamp_result].
  - apply sound_write. intros [] db'. unfold settle_request_tx.
    destruct (stamp_result _ _ _ _ _) as [[b db1]|] eqn:E; [|done]. intros [= <-].
    etransitivity; [apply sound_cleanup|by eapply sound_stamp_result].
  - apply sound_write. intros o db'. destruct (stamp_result _ _ _ _ _) as [[b db1]|] eqn:E; [|done]. intros [= _ <-].
    by eapply sound_stamp_result.
  - apply sound_write. intros u db'. apply sound_settle_each.
  - apply sound_foldl. intros. apply sound_delete_request.
  - apply sound_debug_token.
  - apply sound_write. intros o db'. apply sound_retry_attempt.
  - apply sound_open_session.
  - apply sound_create_session. destruct Hx as [?|Hx]; [by left|]. destruct protocol; [by right|by destruct Hx..].
  - apply sound_implicit_session.
  - apply sound_touch_session.
  - apply sound_close_session.
  - apply sound_purge_runner.
  - apply sound_reap_sweep.
  - apply sound_foldl. intros db0 [job raw]. destruct (bool_decide _); [|done].
    apply sound_update_where. exact (plain_stale _ _ (of_job run0 job)).
  - apply sound_update_where. exact (plain_outcome_where _ _ (λ q, bool_decide (run_id q = run0))).
Qed.

Lemma sound_run cs db :
  exclusive = false ∨ Forall (λ c, ¬ unchecked_session c.2) cs → sound db (run cs db).
Proof.
  revert db. induction cs as [|[now c] cs IH]; intros db Hx; cbn [run]; [done|].
  etransitivity; [apply sound_execute|apply IH]; (destruct Hx as [?|Hx]; [by left|right]; by inversion Hx).
Qed.
End traces.
End invariant.

Section properties.
Context {LC : LeaseCodec}.

(** C4: the commands on attempts, leases and sessions keep the database well
    formed: request ids are fresh, an agent job id names one attempt, a job has
    at most one attempt in flight, a lease belongs to an attempt and is held by
    the recorded owner of it, if there is one, and tokens and cancellations are of recorded attempts. Moreover a
    runner has at most one verified session, as long as no session is made by
    [create_session] for a runner, which does not look for another. *)
Theorem requests_well_formed cs db :
  wf false db →
  wf false (run cs db) ∧
  (wf true db → Forall (λ c, ¬ unchecked_session c.2) cs → wf true (run cs db)).
Proof.
  intros W. split; [apply sound_run; [by left|done]|]. intros W' Hc. apply sound_run; [by right|done].
Qed.

(** The first result of an attempt is final: whatever commands follow, an
    attempt that is still recorded keeps its identity, its result and the time
    it finished. *)
Theorem first_result_final cs db id q r q' : wf false db →
  job_requests db !! id = Some q → outcome q = Some r → job_requests (run cs db) !! id = Some q' →
  outcome q' = Some r ∧ finished_at q' = finished_at q ∧ key_of q' = key_of q.
Proof.
  intros W Hq Hr Hq'. destruct (sound_run false cs db (or_introl eq_refl) W) as [_ E].
  destruct (evolves_rows _ _ E _ _ Hq') as [(q0 & Hq0 & [K O _])|Hn].
  - assert (q0 = q) as -> by congruence. by destruct (O r Hr) as [-> ->].
  - assert (H := wf_fresh _ _ W _ _ Hq). lia.
Qed.

Lemma debug_token_issued_spec a db v db' : wf false db → issue_debug_token a db = (Ok v, db') →
  ∃ id q, job_requests db !! id = Some q ∧ agent_job_id q = a ∧ outcome q = None
    ∧ run_submissions db !! run_id q = Some true ∧ debug_token_issued q = false ∧ v = (run_id q, a)
    ∧ job_requests db' = <[id := set_debug_issued q]> (job_requests db).
Proof.
  intros W. unfold issue_debug_token, write. destruct (newest _ _) as [[id q]|] eqn:En; [|done].
  apply newest_Some in En as (Hq & Hp & _). apply andb_true_iff in Hp as [Ha Hf].
  apply bool_decide_eq_true in Ha, Hf. destruct (run_submissions db !! run_id q) as [[]|] eqn:Es; try done. cbn [default negb].
  destruct (debug_token_issued q) eqn:Ed; [by cbn|]. unfold update_request. rewrite Hq, Ed. cbn.
  intros [= <- <-]. exists id, q. done.
Qed.

(** The debug credential of an attempt is issued at most once: after a success,
    whatever commands follow, no request for the same attempt succeeds while
    it is recorded. *)
Theorem debug_token_once a db v db' cs id : wf false db →
  issue_debug_token a db = (Ok v, db') →
  (∃ q, job_requests db !! id = Some q ∧ agent_job_id q = a) →
  is_Some (job_requests (run cs db') !! id) →
  is_ok (issue_debug_token a (run cs db')).1 = false.
Proof.
  intros W Hi (q & Hq & Ha) [q' Hq'].
  assert (sound false db db') as S by (assert (H := sound_debug_token false a db); by rewrite Hi in H).
  destruct (S W) as [W' _]. destruct (sound_run false cs db' (or_introl eq_refl) W') as [W'' E].
  apply debug_token_issued_spec in Hi as (id0 & q0 & Hq0 & Ha0 & _ & _ & _ & _ & Hdb'); [|done].
  assert (id = id0) as <- by (eapply (wf_agent _ _ W); [done|done|congruence]).
  assert (agent_job_id q' = a ∧ debug_token_issued q' = true) as [Ha' Hd'].
  { assert (job_requests db' !! id = Some (set_debug_issued q0)) as H0 by (rewrite Hdb'; apply lookup_insert_eq).
    destruct (evolves_rows _ _ E _ _ Hq') as [(q1 & H1 & A)|Hn].
    - simplify_eq. split; [by destruct (ages_fields _ _ A) as (_ & _ & -> & _)|by apply (ages_debug _ _ A)].
    - assert (H := wf_fresh _ _ W' _ _ H0). lia. }
  destruct (issue_debug_token a (run cs db')) as [[v2|] db2] eqn:E2; [exfalso|done].
  apply debug_token_issued_spec in E2 as (id2 & q2 & Hq2 & Ha2 & _ & _ & Hd2 & _); [|done].
  assert (id2 = id) as -> by (eapply (wf_agent _ _ W''); [done|done|congruence]). simplify_eq. congruence.
Qed.
End properties.

(** ** Renewal *)

(** Who may renew an attempt: its recorded owner, or while it has none, the
    runner of the session it is bound to (any runner, if the session names
    none). *)
Definition entitled (runner : Z) (q : Request) (db : Lite) : Prop :=
  match runner_id q with
  | Some owner => owner = runner
  | None => ∃ s, session_of q db = Some s ∧ ∀ owner, session_runner s = Some owner → owner = runner
  end.

Section renewal.
Context {LC : LeaseCodec}.

Definition renews (runner : Z) (c : Command) : Prop :=
  match c with
  | RenewLease _ r _ | RenewBrokerRequest _ r _ | RenewRequest _ r => r = runner
  | _ => False
  end.

Lemma upsert_lease_lookup id r e now db j l :
  job_leases (upsert_lease id r e now db) !! j = Some l →
  job_leases db !! j = Some l ∨ (j = id ∧ expires_at l = e ∧ renewed_at l = now).
Proof.
  unfold upsert_lease. cbn. destruct (decide (id = j)) as [<-|Hne].
  - rewrite lookup_insert_eq. intros [= <-]. by right.
  - rewrite lookup_insert_ne by done. by left.
Qed.

(** A runner renews only attempts it is entitled to, and a renewal changes
    nothing but their leases. *)
Theorem renewal_authorised now c db runner : renews runner c →
  let db' := (execute now c db).2 in
  job_requests db' = job_requests db ∧ runner_sessions db' = runner_sessions db
  ∧ ∀ id l, job_leases db' !! id = Some l → job_leases db !! id = Some l
      ∨ ∃ q, job_requests db !! id = Some q ∧ entitled runner q db ∧ renewed_at l = now.
Proof.
  intros Hc. destruct c; try done; cbn in Hc; subst; cbn [execute forget snd].
  - unfold renew_lease, write. cbv beta zeta.
    assert (∀ db', (match renew_lease_miss agent runner (parse_lease locked_until) db with
      Ok miss => (Ok miss, db) | Err e => (Err e, db) end : result ControlError bool * Lite).2 = db' → db' = db) as Hm
      by (intros db' <-; by destruct (renew_lease_miss _ _ _ _)).
    destruct (parse_lease locked_until) as [e|e]; [|by destruct (renew_lease_miss _ _ _ _); auto].
    destruct (newest _ _) as [[id q]|] eqn:En; [|by destruct (renew_lease_miss _ _ _ _); auto].
    apply newest_Some in En as (Hq & Hp & _). apply andb_true_iff in Hp as [_ Ho]. apply bool_decide_eq_true in Ho.
    split_and!; [done|done|]. intros j l [?|(-> & _ & ?)]%upsert_lease_lookup; [by left|right].
    exists q. unfold entitled. by rewrite Ho.
  - unfold renew_broker_request, write. cbv beta zeta. destruct (newest _ _) as [[id q]|] eqn:En; [|by auto].
    apply newest_Some in En as (Hq & _).
    match goal with |- context [match ?x with Some e => Err e | None => _ end] => destruct x eqn:Ef end; [by auto|].
    destruct (in_flight q); cbn [negb]; [|by auto]. destruct (parse_lease locked_until); [|by auto].
    split_and!; [done|done|]. intros j l [?|(-> & _ & ?)]%upsert_lease_lookup; [by left|right].
    exists q. split_and!; [done| |done]. unfold entitled. destruct (runner_id q) as [o|]; cbn in Ef.
    + by destruct (Z.eqb_spec o runner).
    + destruct (session_of q db) as [s|]; [|done]. exists s. split; [done|]. intros o Ho. cbn in Ef. rewrite Ho in Ef.
      by destruct (Z.eqb_spec o runner).
  - unfold renew_request, write. destruct (job_requests db !! id) as [q|] eqn:Eq; [|by auto].
    destruct (bool_decide (runner_id q = Some runner)) eqn:Eo; [|by auto]. cbn [negb]. apply bool_decide_eq_true in Eo.
    destruct (parse_lease _); [|by auto]. split_and!; [done|done|].
    intros j l [?|(-> & _ & ?)]%upsert_lease_lookup; [by left|right]. exists q. unfold entitled. by rewrite Eo.
Qed.
End renewal.

(** ** Expiry *)

Section expiry.
Context {LC : LeaseCodec}.

(** What a sweep does to the row of an attempt it was given. *)
Definition reap_row (now : Z) (paused : gmap Z Z) (r : ActiveRequest) (q : Request) : Request :=
  let q := if timed_out now (default 0%Z (paused !! active_id r)) r then set_timed_out q else q in
  if lease_expired now r && in_flight q then expire_attempt now q else q.

Lemma update_request_rows id p f db :
  job_requests (update_request id p f db).2 = alter (λ q, if p q then f q else q) id (job_requests db).
Proof.
  unfold update_request. destruct (job_requests db !! id) as [q|] eqn:E.
  - apply map_eq. intros j. destruct (decide (id = j)) as [<-|Hne].
    + rewrite lookup_alter_eq, E. cbn. destruct (p q); cbn; [by rewrite lookup_insert_eq|by rewrite E].
    + rewrite lookup_alter_ne by done. destruct (p q); cbn; [by rewrite lookup_insert_ne|done].
  - cbn. apply map_eq. intros j. destruct (decide (id = j)) as [<-|Hne];
      [by rewrite lookup_alter_eq, E|by rewrite lookup_alter_ne].
Qed.

Lemma queue_cancellation_rows run job db :
  job_requests (queue_job_cancellation run job db).2 = job_requests db.
Proof. unfold queue_job_cancellation. by destruct (newest _ _) as [[? ?]|]. Qed.

Lemma alter_twice (f g : Request → Request) (m : gmap Z Request) id :
  alter f id (alter g id m) = alter (λ q, f (g q)) id m.
Proof.
  apply map_eq. intros j. destruct (decide (id = j)) as [<-|Hne].
  - rewrite !lookup_alter_eq. by destruct (m !! id).
  - by rewrite !lookup_alter_ne.
Qed.

Lemma reap_one_rows now paused out db r :
  job_requests (reap_one now paused (out, db) r).2 = alter (reap_row now paused r) (active_id r) (job_requests db).
Proof.
  unfold reap_one. set (X := if timed_out _ _ _ then _ else _).
  assert (job_requests X.2 = alter (λ q, if timed_out now (default 0%Z (paused !! active_id r)) r then set_timed_out q else q)
    (active_id r) (job_requests db)) as H.
  { subst X. destruct (timed_out _ _ _).
    - destruct (queue_job_cancellation _ _ _) as [b db1] eqn:E. cbn [snd].
      assert (H := queue_cancellation_rows (active_run r) (active_job r)
        (update_request (active_id r) (λ _, true) set_timed_out db).2).
      rewrite E in H. cbn [snd] in H. rewrite H. apply update_request_rows.
    - cbn [snd]. symmetry. apply map_eq. intros j. destruct (decide (active_id r = j)) as [<-|Hne];
        [rewrite lookup_alter_eq; by destruct (_ !! _)|by rewrite lookup_alter_ne]. }
  destruct X as [out1 db1]. cbn [snd] in H. unfold reap_row.
  destruct (lease_expired now r); cbn [andb snd].
  - unfold drop_lease. cbn [job_requests with_leases]. rewrite update_request_rows, H. apply alter_twice.
  - exact H.
Qed.

Lemma reap_sweep_rows now paused active db :
  job_requests (reap_sweep now paused active db).2 =
    foldl (λ m r, alter (reap_row now paused r) (active_id r) m) (job_requests db) active.
Proof.
  unfold reap_sweep. generalize (mkReaped 0 []) as out. revert db.
  induction active as [|r active IH]; intros db out; cbn [foldl]; [done|].
  assert (H := reap_one_rows now paused out db r). destruct (reap_one _ _ _ r) as [out1 db1]. cbn [snd] in H.
  rewrite IH. by rewrite H.
Qed.

Lemma foldl_alter_other (f : ActiveRequest → Request → Request) active (m : gmap Z Request) id :
  (∀ r, r ∈ active → active_id r = id → ∀ q, m !! id = Some q → f r q = q) →
  foldl (λ m r, alter (f r) (active_id r) m) m active !! id = m !! id.
Proof.
  revert m. induction active as [|r active IH]; intros m H; [done|]. cbn [foldl].
  assert (alter (f r) (active_id r) m !! id = m !! id) as E.
  { destruct (decide (active_id r = id)) as [He|Hne]; [|by rewrite lookup_alter_ne].
    rewrite He, lookup_alter_eq. destruct (m !! id) as [q|] eqn:Eq; [|done]. cbn. by rewrite (H r) by (done || by left). }
  rewrite IH; [done|]. intros r' Hr' He q Hq. rewrite E in Hq. apply H; [by right|done|done].
Qed.

Lemma foldl_alter_one (f : ActiveRequest → Request → Request) active (m : gmap Z Request) r :
  NoDup (active_id <$> active) → r ∈ active →
  foldl (λ m r, alter (f r) (active_id r) m) m active !! active_id r = f r <$> m !! active_id r.
Proof.
  revert m. induction active as [|r' active IH]; intros m Hnd Hr; [by apply not_elem_of_nil in Hr|].
  cbn [foldl]. apply NoDup_cons in Hnd as [Hn Hnd]. apply elem_of_cons in Hr as [->|Hr].
  - rewrite foldl_alter_other; [apply lookup_alter_eq|].
    intros r0 Hr0 He. destruct Hn. rewrite <- He. by apply list_elem_of_fmap_2.
  - rewrite IH by done. rewrite lookup_alter_ne; [done|]. intros He. destruct Hn. rewrite He. by apply list_elem_of_fmap_2.
Qed.

Lemma reap_active_ids cutoff db : NoDup (active_id <$> reap_active cutoff db).
Proof.
  unfold reap_active. rewrite <- list_fmap_compose.
  change (active_id ∘ (λ e : Z * Request, active_of cutoff db e.1 e.2)) with (fst : Z * Request → Z).
  unfold rows_where. rewrite (merge_sort_Permutation id_le).
  eapply sublist_NoDup; [apply (NoDup_fst_map_to_list (job_requests db))|]. apply fmap_sublist, sublist_filter.
Qed.

(** A sweep over what it has just read fails exactly the attempts whose lease
    was last renewed 180 seconds ago or more, 600 if no live session stands
    behind them; an attempt without a lease is never failed, and the others
    keep running. *)
Theorem lease_expiry_exact now cutoff paused db id q :
  job_requests db !! id = Some q → in_flight q = true →
  outcome <$> job_requests (reap_sweep now paused (reap_active cutoff db) db).2 !! id =
    Some (match job_leases db !! id with
          | Some l =>
              let live := match session_of q db with Some s => (cutoff <=? last_seen_at s)%Z | None => false end in
              if (seconds (if live then 180 else 600) <=? elapsed now (renewed_at l))%Z then Some "failure" else None
          | None => None
          end).
Proof.
  intros Hq Hf. rewrite reap_sweep_rows.
  assert (active_of cutoff db id q ∈ reap_active cutoff db) as Hin.
  { apply list_elem_of_fmap. exists (id, q). split; [done|]. by apply rows_where_elem. }
  assert (H := foldl_alter_one (reap_row now paused) _ (job_requests db) _ (reap_active_ids cutoff db) Hin).
  cbn [active_id active_of] in H. rewrite H, Hq. cbn [fmap option_fmap option_map]. f_equal.
  apply bool_decide_eq_true in Hf as Ho.
  assert (∀ q', outcome q' = None → outcome (if lease_expired now (active_of cutoff db id q) && in_flight q'
    then expire_attempt now q' else q') = if lease_expired now (active_of cutoff db id q) then Some "failure" else None) as Hx.
  { intros q' Hq'. assert (in_flight q' = true) as -> by by apply bool_decide_eq_true. rewrite andb_true_r.
    by destruct (lease_expired _ _). }
  unfold reap_row. rewrite Hx by (by destruct (timed_out _ _ _)).
  unfold lease_expired. cbn [last_renewed_at active_of session_live]. destruct (job_leases db !! id) as [l|]; [|done].
  cbn [fmap option_fmap option_map]. unfold lease_seconds, HUNG_WORKER_LEASE_SECONDS, DEAD_SESSION_LEASE_SECONDS.
  destruct (session_of q db) as [s|]; cbv zeta.
  - replace (bool_decide (cutoff ≤ last_seen_at s)%Z) with (cutoff <=? last_seen_at s)%Z
      by (destruct (Z.leb_spec cutoff (last_seen_at s)); symmetry; [apply bool_decide_eq_true|apply bool_decide_eq_false]; lia).
    destruct (Z.leb_spec (seconds (if (cutoff <=? last_seen_at s)%Z then 180 else 600)) (elapsed now (renewed_at l)));
      [by rewrite bool_decide_eq_true_2|rewrite bool_decide_eq_false_2 by lia; done].
  - destruct (Z.leb_spec (seconds 600) (elapsed now (renewed_at l)));
      [by rewrite bool_decide_eq_true_2|rewrite bool_decide_eq_false_2 by lia; done].
Qed.

(** The runs the tick collects cover the sweep: a row it changes belongs to an
    attempt of one of them, whatever pauses are credited. *)
Theorem sweep_in_due_runs now paused active db id :
  map_Forall (λ _ p, (0 ≤ p)%Z) paused →
  job_requests (reap_sweep now paused active db).2 !! id ≠ job_requests db !! id →
  ∃ r, r ∈ active ∧ active_id r = id ∧ active_run r ∈ due_runs now active.
Proof.
  intros Hp Hne. rewrite reap_sweep_rows in Hne.
  destruct (decide (Exists (λ r, active_id r = id ∧ timed_out now 0 r || lease_expired now r = true) active)) as [He|Hn].
  - apply Exists_exists in He as (r & Hr & Hid & Hd). exists r. split_and!; [done|done|].
    unfold due_runs. apply list_elem_of_fmap_2, list_elem_of_filter. by split.
  - destruct Hne. apply foldl_alter_other. intros r Hr Hid q Hq.
    rewrite <- Forall_Exists_neg, Forall_forall in Hn. specialize (Hn r Hr).
    assert (timed_out now 0 r = false ∧ lease_expired now r = false) as [Ht Hl].
    { apply orb_false_iff, not_true_iff_false. intros H. by apply Hn. }
    unfold reap_row. rewrite Hl. cbn [andb].
    assert (timed_out now (default 0%Z (paused !! active_id r)) r = false) as ->; [|done].
    unfold timed_out in *. destruct (active_started r); [|done]. destruct (negb _); [|done]. cbn [andb] in *.
    apply bool_decide_eq_false in Ht. apply bool_decide_eq_false.
    assert (0 ≤ default 0%Z (paused !! active_id r))%Z.
    { destruct (paused !! active_id r) as [p|] eqn:E; [by apply (Hp _ _ E)|done]. }
    unfold elapsed in *. lia.
Qed.
End expiry.

(** ** Instances *)

Definition empty_db : Lite := mkLite ∅ 1 ∅ ∅ {[7%Z; 8%Z]} ∅ [] [] {[("r", "j") := None]} {["r" := true]}.

Lemma empty_wf : wf true empty_db.
Proof. split; cbn; try (intros *; rewrite !lookup_empty; done); set_solver. Qed.

(** A codec whose timestamps are their lengths in seconds. *)
#[local] Instance length_codec : LeaseCodec := {|
  parse_lease_us s := if bool_decide (s = "") then None else Some (seconds (Z.of_nat (String.length s)));
  agent_request_locked_until now := "t" +:+ pretty now; locked_until_parses now := ltac:(by eexists) |}.

Definition claimed : Lite :=
  run [(0%Z, MintRequest (Some ("a", "t")) true "r" "j"); (0%Z, OpenSession "s" (Some 7%Z) true true);
       (seconds 1, BindClaim "r" "j" "s" (Some 7%Z))] empty_db.
Lemma claimed_wf x : wf x claimed.
Proof. apply sound_run; [right|destruct x; [apply empty_wf|by destruct empty_wf]]. by repeat constructor; intros []. Qed.

Definition row_at (id : Z) (db : Lite) : Request := default (new_attempt "" "" "" "") (job_requests db !! id).
Lemma row_at_spec id db : bool_decide (is_Some (job_requests db !! id)) = true → job_requests db !! id = Some (row_at id db).
Proof. intros [q H]%bool_decide_eq_true. unfold row_at. by rewrite H. Qed.

Lemma requests_well_formed_witness :
  let cs := [(seconds 2, SettleRequest 1 Success "z"); (seconds 3, TouchSession "s")] in
  wf false (run cs claimed) ∧ wf true (run cs claimed).
Proof.
  intros cs. destruct (requests_well_formed cs claimed (claimed_wf false)) as [Hf Ht].
  split; [exact Hf|]. apply (Ht (claimed_wf true)). repeat constructor; by intros [].
Defined.

(** A session made by [create_session] is a second verified one. *)
Example create_session_not_exclusive :
  let db := run [(seconds 2, CreateSession "s2" Broker 7)] claimed in
  verified <$> runner_sessions db !! "s" = Some true ∧ verified <$> runner_sessions db !! "s2" = Some true
  ∧ session_runner <$> runner_sessions db !! "s" = session_runner <$> runner_sessions db !! "s2".
Proof. by vm_compute. Qed.

Definition settled : Lite := run [(seconds 2, SettleRequest 1 Success "z")] claimed.

Lemma first_result_final_witness :
  outcome (row_at 1 (run [(seconds 3, SettleRequest 1 Failure "z"); (seconds 4, ReapSweep ∅ (reap_active 0 claimed))] settled))
    = Some "success".
Proof.
  eapply (first_result_final _ settled 1 (row_at 1 settled) "success").
  - apply sound_run; [by left|apply claimed_wf].
  - apply row_at_spec. by vm_compute.
  - by vm_compute.
  - apply row_at_spec. by vm_compute.
Defined.

Definition debugged : Lite := (issue_debug_token "a" claimed).2.

Lemma debug_token_once_witness :
  is_ok (issue_debug_token "a" (run [(seconds 2, ReleaseClaimedRequest 1)] debugged)).1 = false.
Proof.
  eapply (debug_token_once "a" claimed ("r", "a") debugged _ 1 (claimed_wf false)).
  - unfold debugged. destruct (issue_debug_token "a" claimed) as [r db'] eqn:E. cbn [snd]. f_equal.
    change r with (r, db').1. rewrite <- E. by vm_compute.
  - exists (row_at 1 claimed). split; [apply row_at_spec|]; by vm_compute.
  - apply (bool_decide_unpack _). by vm_compute.
Defined.

Lemma renewal_authorised_witness :
  job_requests (execute (seconds 2) (RenewRequest 1 7) claimed).2 = job_requests claimed.
Proof. apply (renewal_authorised (seconds 2) (RenewRequest 1 7) claimed 7). done. Defined.

Lemma lease_expiry_exact_witness :
  outcome <$> job_requests (reap_sweep (seconds 181) ∅ (reap_active 0 claimed) claimed).2 !! 1%Z = Some (Some "failure").
Proof.
  rewrite (lease_expiry_exact (seconds 181) 0 ∅ claimed 1 (row_at 1 claimed)).
  - by vm_compute.
  - apply row_at_spec. by vm_compute.
  - by vm_compute.
Defined.

Lemma sweep_in_due_runs_witness :
  ∃ r, r ∈ reap_active 0 claimed ∧ active_id r = 1%Z ∧ active_run r ∈ due_runs (seconds 181) (reap_active 0 claimed).
Proof.
  apply (sweep_in_due_runs (seconds 181) ∅ (reap_active 0 claimed) claimed 1).
  - apply map_Forall_empty.
  - intros H. apply (f_equal (λ o, outcome <$> o)) in H. vm_compute in H. done.
Defined.

(** ** Behaviours of the embedded backend *)

(** The sweep decides over the snapshot it is given and does not read it
    again: an attempt renewed after the snapshot is failed all the same. *)
Lemma stale_snapshot_fails_renewed_attempt :
  let renewed := run [(seconds 181, RenewRequest 1 7)] claimed in
  outcome (row_at 1 (reap_sweep (seconds 181) ∅ (reap_active 0 claimed) renewed).2) = Some "failure"
  ∧ outcome (row_at 1 (reap_sweep (seconds 181) ∅ (reap_active 0 renewed) renewed).2) = None.
Proof. by vm_compute. Qed.

(** An attempt that settled after the snapshot is reported as expired, and
    loses its lease. *)
Lemma stale_snapshot_reports_settled_attempt :
  let '(out, db) := reap_sweep (seconds 181) ∅ (reap_active 0 claimed) settled in
  reaped_expired out = [(1%Z, "r", "j")] ∧ outcome (row_at 1 db) = Some "success" ∧ job_leases db !! 1%Z = None.
Proof. by vm_compute. Qed.

(** Cancellations of an attempt are not deduplicated. *)
Lemma cancellations_not_deduplicated :
  let db := (queue_job_cancellation "r" "j" (queue_job_cancellation "r" "j" claimed).2).2 in
  cancellations db = [mkCancellation 1 (Some "timeout") None; mkCancellation 1 (Some "timeout") None].
Proof. by vm_compute. Qed.

(** [release_request] drops the lease of a settled attempt. *)
Lemma release_settled_drops_lease :
  bool_decide (is_Some (job_leases settled !! 1%Z)) = true ∧ job_leases (release_request 1 settled) !! 1%Z = None.
Proof. by vm_compute. Qed.
