(* ===== verification/LiteJobs.v ===== *)
(** * The jobs of a run in the embedded database: settlement and cancellation

    The tables [jobs], [job_specs], [job_needs] and [runs] with the statements of
    [crates/preloop-runner-server/src/control/lite/jobs.rs] on them, and the
    operations of [settle.rs]: a job reaches its terminal status, its dependents'
    counts follow, failing matrix legs stop their siblings, runs are cancelled
    and summarised.

    The state is the database of [LiteGroups] with the remaining columns of a
    row ([JobDetail]) and the remaining tables ([Tables], which holds the attempts
    of [LiteRequests]).  A run is named by its key.  Time stamps, the rows that
    offer a job to a runner pool ([job_assignments], [provision_requests]) and
    the steps of an attempt are left out; an outbox row is an [OutboxEvent].

    What a release starts elsewhere ([promote_next_in_group] hands a freed group
    to another job, run or jobset) comes back to these operations: they take the
    functions it calls as a [Cascade], which [LitePromote] closes. *)
From S2P Require Export LiteRequests EnvGate LiteGroups.

#[local] Set Default Proof Using "Type".

(** ** Tables *)

Section tables.
Context {num Conc : Type}.

(** The other columns of [jobs] and its [job_specs], [job_needs] and
    [job_messages] rows.  [reusable_call] keeps the two concurrency blocks of a
    caller; [Conc] is the parsed [concurrency:] value. *)
Record JobDetail : Type := mkDetail {
  namespace_id : string;
  job_order : Z;
  remaining_needs : Z;
  expand_generation : Z;
  declared_needs : list string;
  outputs : option (gmap string (value num));
  environment_gate : option EnvironmentGateState;
  spec_if : option string;
  spec_context : Context num;
  spec_deferred_matrix : option string;
  spec_reusable_call : option (option Conc * option Conc);
  spec_concurrency : option Conc;
  spec_fail_fast : option bool;
  spec_continue_on_error : option bool;
}.

Record RunRow : Type := mkRunRow {
  row_run : string;
  row_repository : string;
  row_submission_repository : string;
  row_ref : string;
  row_status : string;
  row_conclusion : option string;
  row_fork_pending : bool;
  row_fork_requested_at : option Z;
}.

Record GateRow : Type := mkGateRow {
  gate_jobset : string * gset string;
  gate_index : nat;
  gate_key : string * string;
  gate_display : string;
  gate_cancel : bool;
  gate_queue : ConcurrencyQueue;
  gate_acquired : bool;
}.

Inductive OutboxEvent : Type :=
| RunCompleted (run : string) (status : string)
| JobCompleted (run job : string) (status : string)
| JobQueued (run job : string)
| ExpansionQueued (run job : string).

Record Tables : Type := mkTables {
  lite : Lite;
  runs : list RunRow;
  jobset_gates : list GateRow;
  outbox : list OutboxEvent;
}.

End tables.
Arguments JobDetail : clear implicits.

Section jobs.
Context {num Conc : Type} `{NumberOps num, JsonCodec num, UnicodeCase, UnicodeLower, LeaseCodec}.
Abbreviation JobRow := (JobRow string (JobDetail num Conc)).
Abbreviation Db := (Db string (JobDetail num Conc) Tables).
Abbreviation Holder := (Holder string).
Implicit Types (db : Db) (j d : JobRow) (r job : string) (h : Holder).

(** ** Statements *)

Definition with_detail (f : JobDetail num Conc → JobDetail num Conc) j : JobRow :=
  mkJobRow (job_run j) (job_name j) (job_kind j) (job_parent j) (job_base_id j) (job_status j)
    (job_queue_state j) (job_runs_on j) (job_max_parallel j) (f (job_detail j)).

Definition set_remaining (n : Z) (d : JobDetail num Conc) : JobDetail num Conc :=
  mkDetail (namespace_id d) (job_order d) n (expand_generation d) (declared_needs d) (outputs d) (environment_gate d)
    (spec_if d) (spec_context d) (spec_deferred_matrix d) (spec_reusable_call d) (spec_concurrency d)
    (spec_fail_fast d) (spec_continue_on_error d).

Definition bump_generation (d : JobDetail num Conc) : JobDetail num Conc :=
  mkDetail (namespace_id d) (job_order d) (remaining_needs d) (expand_generation d + 1) (declared_needs d) (outputs d)
    (environment_gate d) (spec_if d) (spec_context d) (spec_deferred_matrix d) (spec_reusable_call d)
    (spec_concurrency d) (spec_fail_fast d) (spec_continue_on_error d).

Definition set_gate (g : option EnvironmentGateState) (d : JobDetail num Conc) : JobDetail num Conc :=
  mkDetail (namespace_id d) (job_order d) (remaining_needs d) (expand_generation d) (declared_needs d) (outputs d) g
    (spec_if d) (spec_context d) (spec_deferred_matrix d) (spec_reusable_call d) (spec_concurrency d)
    (spec_fail_fast d) (spec_continue_on_error d).

(** [UPDATE jobs SET .. WHERE p]. *)
Definition alter_jobs (p : JobRow → bool) (f : JobRow → JobRow) db : Db :=
  with_job_rows db ((λ j, if p j then f j else j) <$> job_rows db).

Definition with_rest db (t : Tables) : Db :=
  mkDb (holds db) (waits db) (last_wait_id db) (jobsets db) (job_rows db) (runner_labels db) t.
Definition with_lite db (l : Lite) : Db :=
  with_rest db (mkTables l (runs (rest db)) (jobset_gates (rest db)) (outbox (rest db))).
Definition with_runs db (rs : list RunRow) : Db :=
  with_rest db (mkTables (lite (rest db)) rs (jobset_gates (rest db)) (outbox (rest db))).
Definition with_gates db (gs : list GateRow) : Db :=
  with_rest db (mkTables (lite (rest db)) (runs (rest db)) gs (outbox (rest db))).
Definition emit_outbox db (e : OutboxEvent) : Db :=
  with_rest db (mkTables (lite (rest db)) (runs (rest db)) (jobset_gates (rest db)) (outbox (rest db) ++ [e])).

(** [status NOT IN ('success','failure','cancelled','skipped')]. *)
Definition open_row j : bool := negb (bool_decide (job_status j ∈ ["success"; "failure"; "cancelled"; "skipped"])).

Definition is_expandable db r job : bool :=
  existsb (λ j, is_job r job j &&
    (bool_decide (is_Some (spec_deferred_matrix (job_detail j))) ||
     bool_decide (is_Some (spec_reusable_call (job_detail j))))) (job_rows db).

(** [run_graph]: the statuses leave out a matrix parent its legs replaced, the
    edges do not. *)
Definition run_graph db r : RunRecord num :=
  mkRun (run_statuses db r)
    (list_to_map ((λ j, (job_name j, job_base_id j)) <$> live_rows db r))
    (list_to_map (omap (λ j, match declared_needs (job_detail j) with
                             | [] => None
                             | ns => Some (job_name j, ns)
                             end) (rows_of db r)))
    (list_to_map (omap (λ j, (job_name j,.) <$> outputs (job_detail j)) (live_rows db r))).

(** The subquery of [refresh_remaining_needs]: a declared need is open while
    some row it matches is not terminal. *)
Definition matches_need (need : string) j : bool := str_eqb (job_name j) need || str_eqb (job_base_id j) need.
Definition need_open db r (need : string) : bool :=
  existsb (λ d, matches_need need d && negb (replaced (rows_of db r) d) && open_row d) (rows_of db r).
Definition open_needs db j : Z :=
  Z.of_nat (length (List.filter (need_open db (job_run j)) (declared_needs (job_detail j)))).

Definition refresh_where (p : JobRow → bool) db : Db :=
  alter_jobs p (λ j, with_detail (set_remaining (open_needs db j)) j) db.

Definition queued_in r j : bool := bool_decide (job_run j = r) && negb (str_eqb (job_queue_state j) "none").

Definition refresh_remaining_needs db r (settled_job_id settled_base_id : string) : Db :=
  refresh_where (λ j, queued_in r j &&
    existsb (λ n, str_eqb n settled_job_id || str_eqb n settled_base_id) (declared_needs (job_detail j))) db.

Definition refresh_run_remaining_needs db r : Db := refresh_where (queued_in r) db.

(** [UPDATE runs SET .. WHERE run_id = r AND p], with the rows it changed. *)
Definition update_runs r (p : RunRow → bool) (f : RunRow → RunRow) db : nat * Db :=
  let hit x := bool_decide (row_run x = r) && p x in
  (length (List.filter hit (runs (rest db))), with_runs db ((λ x, if hit x then f x else x) <$> runs (rest db))).

Definition set_run_status (status : string) (x : RunRow) : RunRow :=
  mkRunRow (row_run x) (row_repository x) (row_submission_repository x) (row_ref x) status (row_conclusion x) (row_fork_pending x)
    (row_fork_requested_at x).
Definition conclude_run (conclusion : string) (x : RunRow) : RunRow :=
  mkRunRow (row_run x) (row_repository x) (row_submission_repository x) (row_ref x) "completed" (Some conclusion) (row_fork_pending x)
    (row_fork_requested_at x).
Definition clear_fork_hold (x : RunRow) : RunRow :=
  mkRunRow (row_run x) (row_repository x) (row_submission_repository x) (row_ref x) (row_status x) (row_conclusion x) false
    (row_fork_requested_at x).

Definition not_completed (x : RunRow) : bool := negb (str_eqb (row_status x) "completed").

Definition summarize_run_row db r : ExecutionStatus * Db :=
  let statuses := (map_to_list (run_statuses db r)).*2 in
  let status := summarize_run statuses in
  let terminal := is_terminal status && forallb is_terminal statuses && negb (length statuses =? 0) in
  (status,
   if terminal then (update_runs r (λ _, true) (conclude_run (status_string status)) db).2
   else
     let wire := match status with InProgress => "in_progress" | _ => "queued" end in
     (update_runs r not_completed (set_run_status wire) db).2).

(** ** Settlement *)

(** Which calls of a release come back to this file. *)
Record Cascade : Type := mkCascade {
  c_promote_run : Db → string → result ControlError Db;
  c_advance_jobset : Db → string → gset string → GroupKey → result ControlError (Advance * Db);
  c_fail_jobset : Db → string → gset string → ExecutionStatus → result ControlError Db;
}.
Variables (c : Cascade) (now : Z).

Definition release_job db r job : result ControlError Db :=
  release_concurrency_for_job (c_promote_run c) (c_advance_jobset c) (c_fail_jobset c) db r job.
Definition release_run db r : result ControlError Db :=
  release_concurrency_for_run (c_promote_run c) (c_advance_jobset c) (c_fail_jobset c) db r.

Definition retire_node_requests db r job (status : ExecutionStatus) : result ControlError Db :=
  '(_, l) ← settle_requests_for_job r job status now (lite (rest db));
  Ok (with_lite db l).

Definition finish_job_row db r job (status : ExecutionStatus) : Db :=
  alter_jobs (λ j, is_job r job j && open_row j) (with_state "none" (status_str status)) db.

Definition continue_on_error db r job : bool :=
  default false (j ← find_job db r job; spec_continue_on_error (job_detail j)).

(** [LIMIT 1] of an unordered query: the legs of a base have one value. *)
Definition fail_fast_for_base db r (base_id : string) : bool :=
  default true (head (omap (λ j, if str_eqb (job_base_id j) base_id then spec_fail_fast (job_detail j) else None)
                        (rows_of db r))).

(** Rows in the order of their [job_order]. *)
Definition order_le j d : Prop := (job_order (job_detail j) ≤ job_order (job_detail d))%Z.
#[local] Instance order_le_dec : RelDecision order_le.
Proof. intros j d. unfold order_le. apply _. Defined.
Definition by_order (l : list JobRow) : list JobRow := merge_sort order_le l.

Definition live_request db r job : option Z := fst <$> newest (live_of_job r job) (LiteRequests.job_requests (lite (rest db))).

(** One undelivered cancellation per attempt. *)
Definition queue_cancellation db (request : Z) (reason : option string) : Db :=
  let l := lite (rest db) in
  if existsb (λ x, bool_decide (cancelled_request x = request ∧ delivered_at x = None)) (cancellations l) then db
  else with_lite db (with_notices (cancellations l ++ [mkCancellation request reason None]) (session_messages l) l).

Definition may_fail_fast r (failed : JobRow) j : bool :=
  bool_decide (job_run j = r) && str_eqb (job_base_id j) (job_base_id failed) &&
  negb (str_eqb (job_name j) (job_name failed)) &&
  bool_decide (job_status j ∈ ["pending"; "queued"; "in_progress"]).

(** The siblings are read with their status and attempt before the loop. *)
Definition cancel_sibling r (failed : JobRow) db (s : JobRow * option Z) : result ControlError Db :=
  let '(j, request) := s in
  let db := match request with
            | Some id => if str_eqb (job_status j) "in_progress"
                         then queue_cancellation db id (Some "fail_fast") else db
            | None => db
            end in
  let db := finish_job_row db r (job_name j) Cancelled in
  db ← release_job db r (job_name j);
  Ok (refresh_remaining_needs db r (job_name j) (job_base_id failed)).

Fixpoint cancel_siblings r (failed : JobRow) db (l : list (JobRow * option Z)) : result ControlError Db :=
  match l with
  | [] => Ok db
  | s :: l => db ← cancel_sibling r failed db s; cancel_siblings r failed db l
  end.

Definition apply_fail_fast db r (failed_job_id : string) : result ControlError (list string * Db) :=
  match find_job db r failed_job_id with
  | None => Ok ([], db)
  | Some failed =>
      if negb (fail_fast_for_base db r (job_base_id failed)) then Ok ([], db)
      else
        let siblings := by_order (List.filter (may_fail_fast r failed) (job_rows db)) in
        db ← cancel_siblings r failed db ((λ j, (j, live_request db r (job_name j))) <$> siblings);
        let cancelled := job_name <$> siblings in
        Ok (cancelled, if length cancelled =? 0 then db else (summarize_run_row db r).2)
  end.

Record SettleEffects : Type := mkEffects {
  settled_status : ExecutionStatus;
  settle_replayed : bool;
  cancelled_siblings : list string;
  newly_terminal_success : bool;
}.

Definition unchanged (status : ExecutionStatus) : SettleEffects := mkEffects status true [] false.

Definition run_row_status db r : option string :=
  row_status <$> find (λ x, bool_decide (row_run x = r)) (runs (rest db)).

Definition settle_node db r job (reported : ExecutionStatus) : result ControlError (SettleEffects * Db) :=
  match find_job db r job with
  | None => Ok (unchanged reported, db)
  | Some j =>
      let prior := status_parse (job_status j) in
      if is_terminal prior && negb (bool_decide (prior = Cancelled)) then Ok (unchanged prior, db)
      else
        let tolerated := continue_on_error db r job in
        let decision := completion_decision (mkCompletion prior reported tolerated false) in
        let effective := effective_status decision in
        let before := run_row_status db r in
        let db := finish_job_row db r job effective in
        let db := refresh_remaining_needs db r job (job_base_id j) in
        let '(summary, db) := summarize_run_row db r in
        let success := bool_decide (summary = Success) && negb (bool_decide (before = Some "completed")) in
        '(siblings, db) ← (if bool_decide (effective = Failure) then apply_fail_fast db r job else Ok ([], db));
        let '(summary, db) := if length siblings =? 0 then (summary, db) else summarize_run_row db r in
        db ← retire_node_requests db r job effective;
        db ← release_job db r job;
        db ← (if is_terminal summary
              then db ← release_run db r; Ok (emit_outbox db (RunCompleted r (status_str summary)))
              else Ok db);
        let db := emit_outbox db (JobCompleted r job (status_str effective)) in
        Ok (mkEffects effective (replayed decision) siblings success, db)
  end.

(** ** Cancellation *)

(** [release_jobset]: its waits, the groups it holds (each is read again before
    it is released and promoted), its row and with it its gates. *)
Definition jobset_holds db r (jobs : gset string) : list GroupKey :=
  omap (λ '(k, (_, h)), if bool_decide (h = HJobSet r jobs) then Some k else None) (map_to_list (holds db)).

Fixpoint release_groups db (l : list GroupKey) : result ControlError Db :=
  match l with
  | [] => Ok db
  | k :: l =>
      db ← (match hold_row db k with
            | Some (h, _) => release_and_promote (c_promote_run c) (c_advance_jobset c) (c_fail_jobset c) db k h
            | None => Ok db
            end);
      release_groups db l
  end.

Definition drop_jobsets (p : string * gset string → bool) db : Db :=
  with_gates (with_jobsets db (List.filter (λ s, negb (p s)) (jobsets db)))
    (List.filter (λ g, negb (p (gate_jobset g))) (jobset_gates (rest db))).

Definition release_jobset db r (jobs : gset string) : result ControlError Db :=
  let db := with_waits db (List.filter (λ w, negb (bool_decide (wait_holder w = HJobSet r jobs))) (waits db))
              (last_wait_id db) in
  db ← release_groups db (jobset_holds db r jobs);
  Ok (drop_jobsets (λ s, bool_decide (s = (r, jobs))) db).

Definition bump_job db r job : Db := alter_jobs (is_job r job) (with_detail bump_generation) db.

Fixpoint fail_members db r (status : ExecutionStatus) (l : list string) : result ControlError Db :=
  match l with
  | [] => Ok db
  | job :: l =>
      let db := finish_job_row (bump_job db r job) r job status in
      db ← (if is_expandable db r job then retire_node_requests db r job status else Ok db);
      db ← release_job db r job;
      fail_members db r status l
  end.

Definition fail_jobset db r (jobs : gset string) (status : ExecutionStatus) : result ControlError Db :=
  db ← (if find_jobset db r jobs then release_jobset db r jobs else Ok db);
  db ← fail_members db r status (btree_set_elems jobs);
  Ok (summarize_run_row db r).2.

Fixpoint cancel_attempts db (l : list (option Z)) : nat * Db :=
  match l with
  | [] => (0, db)
  | Some id :: l => let '(n, db) := cancel_attempts (queue_cancellation db id None) l in (S n, db)
  | None :: l => cancel_attempts db l
  end.

Fixpoint retire_expandable db r (status : ExecutionStatus) (l : list string) : result ControlError Db :=
  match l with
  | [] => Ok db
  | job :: l =>
      db ← (if is_expandable db r job then retire_node_requests db r job status else Ok db);
      retire_expandable db r status l
  end.

Definition run_exists db r : bool := existsb (λ x, bool_decide (row_run x = r)) (runs (rest db)).

(** The result is the number of cancellations queued and whether the run was
    still going. *)
Definition cancel_run_inner db r : result ControlError (nat * bool * Db) :=
  if negb (run_exists db r) then Ok (0, false, db)
  else
    let in_flight := (λ j, live_request db r (job_name j)) <$>
                       List.filter (λ j, str_eqb (job_status j) "in_progress") (rows_of db r) in
    let '(n, db) := cancel_attempts db in_flight in
    let nodes := job_name <$> List.filter open_row (rows_of db r) in
    let db := alter_jobs (λ j, bool_decide (job_run j = r) && open_row j)
                (λ j, with_detail bump_generation (with_state "none" "cancelled" j)) db in
    db ← retire_expandable db r Cancelled nodes;
    let '(finalized, db) := update_runs r not_completed (conclude_run "cancelled") db in
    db ← release_run db r;
    let db := drop_jobsets (λ s, bool_decide (s.1 = r)) db in
    Ok (n, 0 <? finalized, if 0 <? finalized then emit_outbox db (RunCompleted r "cancelled") else db).

(** The subtree of a caller or a matrix parent; the fuel is its depth. *)
Fixpoint cancel_job_inner (fuel : nat) db r job : result ControlError (nat * Db) :=
  match fuel with
  | O => Err (Backend "out of fuel")
  | S fuel =>
      match find_job db r job with
      | None => Ok (0, db)
      | Some j =>
          let expandable := is_expandable db r job in
          let '(count, db) := match live_request db r job with
                              | Some id => if bool_decide (status_parse (job_status j) = InProgress)
                                           then (1, queue_cancellation db id None) else (0, db)
                              | None => (0, db)
                              end in
          let db := finish_job_row (bump_job db r job) r job Cancelled in
          let children := job_name <$> List.filter (λ d, bool_decide (job_parent d = Some job) && open_row d)
                                         (rows_of db r) in
          let fix each db count l : result ControlError (nat * Db) :=
            match l with
            | [] => Ok (count, db)
            | child :: l => '(n, db) ← cancel_job_inner fuel db r child; each db (count + n) l
            end in
          '(count, db) ← each db count children;
          db ← (if expandable then retire_node_requests db r job Cancelled else Ok db);
          db ← release_job db r job;
          Ok (count, (summarize_run_row db r).2)
      end
  end.

(** A job and its descendants are no more than the rows of the run. *)
Definition cancel_depth db : nat := S (length (job_rows db)).

Definition cancel_job db r job : result ControlError (nat * Db) := cancel_job_inner (cancel_depth db) db r job.

Definition cancel_holder db h : result ControlError Db :=
  match h with
  | HRun r => '(_, db) ← cancel_run_inner db r; Ok db
  | HJob r job => '(_, db) ← cancel_job db r job; Ok db
  | HJobSet r jobs => fail_jobset db r jobs Cancelled
  end.

(** ** Approvals that lapsed, and starved jobs *)

Definition unexpired_row j : bool :=
  negb (bool_decide (job_status j ∈ ["success"; "failure"; "cancelled"; "skipped"; "timed_out"])).

Definition expire_run db r : result ControlError (bool * Db) :=
  let nodes := job_name <$> List.filter unexpired_row (rows_of db r) in
  let db := alter_jobs (λ j, bool_decide (job_run j = r) && unexpired_row j) (with_state "none" "failure") db in
  db ← retire_expandable db r Failure nodes;
  let '(finalized, db) := update_runs r not_completed (λ x, clear_fork_hold (conclude_run "failure" x)) db in
  if finalized =? 0 then Ok (false, (update_runs r (λ _, true) clear_fork_hold db).2)
  else
    let db := drop_jobsets (λ s, bool_decide (s.1 = r)) db in
    db ← release_run db r;
    Ok (true, emit_outbox db (RunCompleted r "failure")).

Fixpoint expire_each db (l : list string) : result ControlError (list string * Db) :=
  match l with
  | [] => Ok ([], db)
  | r :: l =>
      '(failed, db) ← expire_run db r;
      '(rest, db) ← expire_each db l;
      Ok (if failed : bool then r :: rest else rest, db)
  end.

(** The rows of [runs] are listed in the order of their key. *)
Definition expire_fork_approvals (before : Z) db : result ControlError (list string * Db) :=
  expire_each db (row_run <$> List.filter (λ x, row_fork_pending x && not_completed x &&
    match row_fork_requested_at x with Some at_ => (at_ <? before)%Z | None => false end) (runs (rest db))).

(** [starve_job] of [reaper.rs]. *)
Definition starve_job db r job : Db :=
  let db := alter_jobs (λ j, is_job r job j && str_eqb (job_queue_state j) "ready") (with_state "none" "failure") db in
  (summarize_run_row db r).2.

End jobs.
