(* ===== verification/LitePromote.v ===== *)
(** * The promotion sweep of the embedded database

    [crates/preloop-runner-server/src/control/lite/promote.rs]: the sweep that
    moves the blocked jobs of a run to the ready queue, to expansion, behind a
    gate or to a terminal status once their [needs:] settle.

    [SweepInputs] stands for what the sweep consults: the evaluation of
    [concurrency:] blocks, the order of events, the rules the environment resolver
    has fetched, the labels the runner pool advertises, [hashFiles], the clock,
    and the message template of a job, whose hydration gives the resolved labels
    and environment name. *)
From S2P Require Export LiteJobs.

#[local] Set Default Proof Using "Type".

(** What hydration resolves: labels, gate marker and environment name. *)
Record Hydrated : Type := mkHydrated {
  hydrated_runs_on : list string;
  hydrated_gate : option EnvironmentGateState;
  hydrated_environment : option string;
}.

Inductive GateOutcome : Type := GateProceed | GateParked | GateFailed (status : ExecutionStatus).

Inductive ConcurrencyScope : Type := WorkflowScope | JobScope.

Record SchedulingOutcome : Type := mkOutcome {
  promoted : nat;
  failed : list (string * string);
  skipped : list (string * string);
}.

Section promote.
Context {num Conc : Type} `{NumberOps num, JsonCodec num, UnicodeCase, UnicodeLower, LeaseCodec}.
Abbreviation JobRow := (JobRow string (JobDetail num Conc)).
Abbreviation Db := (Db string (JobDetail num Conc) Tables).
Abbreviation Holder := (Holder string).
Abbreviation Cascade := (Cascade (num:=num) (Conc:=Conc)).
Implicit Types (db : Db) (j d : JobRow) (r job : string) (h : Holder) (graph : RunRecord num).

(** What the sweep consults. *)
Record SweepInputs : Type := mkInputs {
  in_hash_files : list (value num) → option string → result ExpressionError string;
  in_concurrency : ConcurrencyScope → JobRow → Conc → option (string * bool * ConcurrencyQueue);
  in_event_order : string → result ControlError (option EventOrder);
  in_environment : string → string → EnvironmentLookup;
  in_hydrate : RunRecord num → JobRow → Hydrated;
  in_pool_labels : list string;
  in_now : Z;
}.
Variables (inputs : SweepInputs) (c : Cascade).

(** ** Dependencies *)

Definition merged_outputs graph (need : string) : gmap string (value num) :=
  foldl (λ acc id, default ∅ (job_outputs graph !! id) ∪ acc) ∅ (matching_need_ids graph need).

(** A row of [needs_rows], and its entry in [needs_context]. *)
Definition need_row graph (need : string) : option (string * value num) :=
  status ← aggregate_need_status (matching_need_statuses graph need);
  result ← aggregate_needs_status [status];
  let merged := merged_outputs graph need in
  Some (need, JObject [("result", JString (status_string result));
                       ("outputs", JObject (omap (λ k, (k,.) <$> merged !! k) (btree_keys merged)))]).

Definition needs_context graph (needs : list string) : value num :=
  JObject (foldl (λ acc '(k, v), imap_insert k v acc) [] (omap (need_row graph) needs)).

Definition direct_statuses graph (needs : list string) : list ExecutionStatus :=
  flat_map (matching_need_statuses graph) needs.

(** [dependency_decision]; [None] would be the ancestor walk out of fuel. *)
Definition dependency_decision graph (needs : list string) (if_condition : option string)
    (condition_context : Context num) : option DependencyDecision :=
  if length needs =? 0 then Some DRun
  else
    let direct := direct_statuses graph needs in
    if (length direct =? 0) || existsb (λ s, negb (is_terminal s)) direct then Some DWait
    else
      statuses ← ancestor_statuses graph needs;
      let aggregate := default Skipped (aggregate_need_status statuses) in
      let context := with_status condition_context (bool_decide (aggregate = Success))
                       (bool_decide (aggregate = Failure)) (bool_decide (aggregate = Cancelled)) in
      let context := context_insert context "needs" (needs_context graph needs) in
      Some (match eval_bool (in_hash_files inputs) (effective_condition if_condition) context with
            | Ok true => DRun
            | Ok false => DSkip
            | Err _ => DError
            end).

(** ** Gates *)

Definition cancel db h : result ControlError Db := cancel_holder c (in_now inputs) db h.

Definition run_row db r : option RunRow := find (λ x, bool_decide (row_run x = r)) (runs (rest db)).
Definition run_repository db r : string := default "" (row_repository <$> run_row db r).
Definition run_ref db r : string := default "" (row_ref <$> run_row db r).

Definition group_key (namespace repository group : string) : GroupKey :=
  let '(repo, name) := concurrency_key repository group in (namespace, repo, name).
Definition submission_repository db r : string := default "" (row_submission_repository <$> run_row db r).

Definition acquire_job_gate db j : result ControlError (GateOutcome * Db) :=
  match spec_concurrency (job_detail j) with
  | None => Ok (GateProceed, db)
  | Some raw =>
      match in_concurrency inputs JobScope j raw with
      | None => Ok (GateFailed Failure, db)
      | Some (group, cancel_in_progress, queue) =>
          if str_eqb (trim group) "" then Ok (GateFailed Failure, db)
          else
            '(outcome, db) ← acquire cancel (in_event_order inputs) db
              (group_key (namespace_id (job_detail j)) (submission_repository db (job_run j)) group) group (HJob (job_run j) (job_name j))
              cancel_in_progress queue;
            Ok (match outcome with
                | Acquired => GateProceed
                | Parked => GateParked
                | ArrivalCancelled => GateFailed Cancelled
                | AcqFailed => GateFailed Failure
                end, db)
      end
  end.

Record GateDecl : Type := mkGateDecl {
  decl_key : string * string;
  decl_display : string;
  decl_cancel : bool;
  decl_queue : ConcurrencyQueue;
}.

(** Two blocks with one key are one gate. *)
Fixpoint merge_jobset_gate (decl : GateDecl) (gates : list GateDecl) : list GateDecl :=
  match gates with
  | [] => [decl]
  | g :: gates =>
      if bool_decide (decl_key g = decl_key decl)
      then mkGateDecl (decl_key g) (decl_display g) (decl_cancel g || decl_cancel decl)
             (if bool_decide (decl_queue decl = Single) then Single else decl_queue g) :: gates
      else g :: merge_jobset_gate decl gates
  end.

Fixpoint collect_gates db j (blocks : list (option Conc * ConcurrencyScope)) (gates : list GateDecl) :
    option (list GateDecl) :=
  match blocks with
  | [] => Some gates
  | (None, _) :: blocks => collect_gates db j blocks gates
  | (Some raw, scope) :: blocks =>
      match in_concurrency inputs scope j raw with
      | Some (group, cancel_in_progress, queue) =>
          if str_eqb (trim group) "" then None
          else
            collect_gates db j blocks
              (merge_jobset_gate
                 (mkGateDecl (concurrency_key (submission_repository db (job_run j)) group) (trim group)
                    cancel_in_progress queue) gates)
      | None => None
      end
  end.

Definition decl_le (a b : GateDecl) : Prop :=
  String.le (decl_key a).1 (decl_key b).1 ∧
  ((decl_key a).1 = (decl_key b).1 → String.le (decl_key a).2 (decl_key b).2).
#[local] Instance decl_le_dec : RelDecision decl_le.
Proof. intros a b. unfold decl_le. apply _. Defined.

(** [None]: a block does not evaluate to a group, and the caller fails. *)
Definition caller_jobset_gates db j : option (list GateDecl) :=
  match spec_reusable_call (job_detail j) with
  | None => Some []
  | Some (caller, embedded) =>
      merge_sort decl_le <$> collect_gates db j [(caller, JobScope); (embedded, WorkflowScope)] []
  end.

Definition alter_gates (p : GateRow → bool) db : Db :=
  with_gates db ((λ g, if p g then mkGateRow (gate_jobset g) (gate_index g) (gate_key g) (gate_display g)
                                     (gate_cancel g) (gate_queue g) true else g) <$> jobset_gates (rest db)).

Definition gates_of db (set : string * gset string) : list GateRow :=
  List.filter (λ g, bool_decide (gate_jobset g = set)) (jobset_gates (rest db)).

(** The first gate not acquired, by [gate_index]: the rows of a jobset are
    inserted in that order. *)
Definition next_gate db (set : string * gset string) : option GateRow :=
  find (λ g, negb (gate_acquired g)) (gates_of db set).

Definition jobset_namespace db (set : string * gset string) : string :=
  default "default"
    (job ← head (btree_set_elems set.2); j ← find_job db set.1 job; Some (namespace_id (job_detail j))).

Fixpoint advance_gates (fuel : nat) db (set : string * gset string) : result ControlError (Advance * Db) :=
  match next_gate db set with
  | None => Ok (AdvanceReady, db)
  | Some g =>
      match fuel with
      | O => Err (Backend "out of fuel")
      | S fuel =>
          let '(repo, group) := gate_key g in
          '(outcome, db) ← acquire cancel (in_event_order inputs) db (jobset_namespace db set, repo, group)
                             (gate_display g) (HJobSet set.1 set.2) (gate_cancel g) (gate_queue g);
          match outcome with
          | Acquired =>
              advance_gates fuel
                (alter_gates (λ x, bool_decide (gate_jobset x = set ∧ gate_index x = gate_index g)) db) set
          | Parked => Ok (AdvanceBlocked, db)
          | ArrivalCancelled => Ok (AdvanceFail Cancelled, db)
          | AcqFailed => Ok (AdvanceFail Failure, db)
          end
      end
  end.

(** Each turn acquires one gate of the jobset. *)
Definition advance_jobset db r (jobs : gset string) (granted : option GroupKey) :
    result ControlError (Advance * Db) :=
  let db := match granted with
            | Some (_, repo, group) =>
                alter_gates (λ g, bool_decide (gate_jobset g = (r, jobs) ∧ gate_key g = (repo, group))) db
            | None => db
            end in
  advance_gates (length (gates_of db (r, jobs))) db (r, jobs).

(** [INSERT .. ON CONFLICT DO NOTHING] on (jobset, index). *)
Definition insert_gate db (set : string * gset string) (index : nat) (g : GateDecl) : Db :=
  if existsb (λ x, bool_decide (gate_jobset x = set ∧ gate_index x = index)) (jobset_gates (rest db)) then db
  else with_gates db (jobset_gates (rest db) ++
         [mkGateRow set index (decl_key g) (decl_display g) (decl_cancel g) (decl_queue g) false]).

Definition ensure_jobset db j : result ControlError (Advance * Db) :=
  match caller_jobset_gates db j with
  | None => Ok (AdvanceFail Failure, db)
  | Some [] => Ok (AdvanceReady, db)
  | Some gates =>
      let member : gset string := {[job_name j]} in
      let db := holder_columns db (HJobSet (job_run j) member) in
      let db := foldl (λ db '(i, g), insert_gate db (job_run j, member) i g) db (zip (seq 0 (length gates)) gates) in
      advance_jobset db (job_run j) member None
  end.

Definition jobset_parked db r job : bool :=
  match find (λ '(r', jobs), bool_decide (r' = r ∧ job ∈ jobs)) (jobsets db) with
  | None => false
  | Some (r', jobs) => existsb (λ w, bool_decide (wait_holder w = HJobSet r' jobs)) (waits db)
  end.

(** ** The sweep *)

(** [hydrate_message], as far as the row goes. *)
Definition with_runs_on (labels : list string) j : JobRow :=
  mkJobRow (job_run j) (job_name j) (job_kind j) (job_parent j) (job_base_id j) (job_status j)
    (job_queue_state j) labels (job_max_parallel j) (job_detail j).

Definition hydrate_message db graph j : Db * JobRow * option string :=
  let x := in_hydrate inputs graph j in
  let labels := if runs_on_deferred (job_runs_on j) then hydrated_runs_on x else job_runs_on j in
  (alter_jobs (is_job (job_run j) (job_name j)) (with_runs_on labels) db,
   with_detail (set_gate (hydrated_gate x)) (with_runs_on labels j),
   hydrated_environment x).

Definition write_gate db j (gate : option EnvironmentGateState) : Db :=
  alter_jobs (is_job (job_run j) (job_name j)) (with_detail (set_gate gate)) db.

Definition set_queue db j (queue_state status : string) : Db :=
  update_jobs (is_job (job_run j) (job_name j)) queue_state status db.

(** [UPDATE jobs SET queue_state = 'pending_expansion']. *)
Definition queue_expansion db j : Db :=
  emit_outbox
    (alter_jobs (is_job (job_run j) (job_name j)) (λ d, with_state "pending_expansion" (job_status d) d) db)
    (ExpansionQueued (job_run j) (job_name j)).

Definition enqueue_ready db j : Db :=
  emit_outbox (enqueue_ready_job db j) (JobQueued (job_run j) (job_name j)).

(** A step of the sweep: has something settled, the outcome so far, the tables. *)
Abbreviation Sweep := (bool * SchedulingOutcome * Db)%type.

Definition add_failed j (o : SchedulingOutcome) : SchedulingOutcome :=
  mkOutcome (promoted o) (failed o ++ [(job_run j, job_name j)]) (skipped o).
Definition add_skipped j (o : SchedulingOutcome) : SchedulingOutcome :=
  mkOutcome (promoted o) (failed o) (skipped o ++ [(job_run j, job_name j)]).
Definition add_promoted (o : SchedulingOutcome) : SchedulingOutcome :=
  mkOutcome (S (promoted o)) (failed o) (skipped o).

(** [settle_job_row], and the failure it reports. *)
Definition settle_job_row db j (status : ExecutionStatus) : result ControlError Db :=
  '(_, db) ← settle_node c (in_now inputs) db (job_run j) (job_name j) status; Ok db.

Definition fail_job (o : SchedulingOutcome) db j (status : ExecutionStatus) : result ControlError Sweep :=
  db ← settle_job_row db j status; Ok (true, add_failed j o, db).

Definition promote_caller (o : SchedulingOutcome) db j : result ControlError Sweep :=
  '(advanced, db) ← (if jobset_parked db (job_run j) (job_name j) then Ok (AdvanceBlocked, db)
                     else ensure_jobset db j);
  match advanced with
  | AdvanceReady => Ok (true, o, queue_expansion db j)
  | AdvanceBlocked => Ok (true, o, set_queue db j "held" "pending")
  | AdvanceFail status => fail_job o db j status
  end.

(** The labels and the concurrency gate, after the environment let it pass. *)
Definition admit_job (settled : bool) (o : SchedulingOutcome) db j : result ControlError Sweep :=
  let runners := match in_pool_labels inputs with [] => [] | _ => runner_labels db end in
  match promotion_unsatisfiable_reason (job_runs_on j) (registered_platforms db) (in_pool_labels inputs)
          (existsb (job_matches_runner (job_runs_on j)) runners) with
  | Some _ => fail_job o db j Failure
  | None =>
      '(gate, db) ← acquire_job_gate db j;
      match gate with
      | GateProceed => Ok (settled, add_promoted o, enqueue_ready db j)
      | GateParked => Ok (settled, o, set_queue db j "held" "pending")
      | GateFailed status => fail_job o db j status
      end
  end.

Definition promote_job (settled : bool) (o : SchedulingOutcome) graph db j : result ControlError Sweep :=
  let r := job_run j in
  let '(db, j, environment) := hydrate_message db graph j in
  match environment with
  | None => admit_job settled o db j
  | Some env_name =>
      let '(verdict, gate) := evaluate_environment_gate (in_environment inputs (run_repository db r) env_name)
                                (run_ref db r) env_name (environment_gate (job_detail j)) (in_now inputs) in
      match verdict with
      | Wait => Ok (settled, o, set_queue (write_gate db j gate) j "held" "pending")
      | Failed => fail_job o (write_gate db j gate) j Failure
      | Proceed =>
          let touched := bool_decide (is_Some (environment_gate (job_detail j))) || bool_decide (is_Some gate) in
          admit_job settled o (if touched then write_gate db j gate else db) j
      end
  end.

(** One candidate, as it was read at the start of the pass. *)
Definition promote_candidate (settled : bool) (o : SchedulingOutcome) graph db j : result ControlError Sweep :=
  let d := job_detail j in
  match dependency_decision graph (declared_needs d) (spec_if d) (spec_context d) with
  | None => Err (Backend "out of fuel")
  | Some DRun =>
      if bool_decide (is_Some (spec_reusable_call d)) then promote_caller o db j
      else if bool_decide (is_Some (spec_deferred_matrix d)) then Ok (true, o, queue_expansion db j)
      else if under_max_parallel db j then promote_job settled o graph db j
      else Ok (settled, o, db)
  | Some DSkip =>
      db ← settle_job_row db j Skipped; Ok (true, add_skipped j o, db)
  | Some DError => fail_job o db j Failure
  | Some DWait => Ok (settled, o, db)
  end.

Fixpoint promote_pass graph (s : Sweep) (candidates : list JobRow) : result ControlError Sweep :=
  match candidates with
  | [] => Ok s
  | j :: candidates =>
      let '(settled, o, db) := s in
      s ← promote_candidate settled o graph db j;
      promote_pass graph s candidates
  end.

Definition candidate r j : bool :=
  bool_decide (job_run j = r) && str_eqb (job_queue_state j) "blocked" &&
  (remaining_needs (job_detail j) =? 0)%Z.

Definition candidates db r : list JobRow := by_order (List.filter (candidate r) (job_rows db)).

Fixpoint promote_passes (fuel : nat) (o : SchedulingOutcome) db r : result ControlError (SchedulingOutcome * Db) :=
  match candidates db r with
  | [] => Ok (o, db)
  | js =>
      match fuel with
      | O => Err (Backend "out of fuel")
      | S fuel =>
          '(settled, o, db) ← promote_pass (run_graph db r) (false, o, db) js;
          if settled : bool then promote_passes fuel o db r else Ok (o, db)
      end
  end.

Definition blocked_in r j : bool := bool_decide (job_run j = r) && str_eqb (job_queue_state j) "blocked".

(** A pass that settles something takes a job out of [blocked]. *)
Definition sweep_fuel db r : nat := S (length (List.filter (blocked_in r) (job_rows db))).

Definition promote_run (o : SchedulingOutcome) db r : result ControlError (SchedulingOutcome * Db) :=
  promote_passes (sweep_fuel db r) o db r.

Definition no_outcome : SchedulingOutcome := mkOutcome 0 [] [].

(** ** Claims

    The fence of [claim] in [poll.rs], with the run's transition in [bind_claim]
    when it took the row, and the lease of [claim_expansion] in [expansion.rs]. *)
Definition claimable r job j : bool := is_job r job j && str_eqb (job_queue_state j) "ready".

Definition claim_job db r job : Db :=
  if existsb (claimable r job) (job_rows db) then
    let db := alter_jobs (claimable r job) (with_state "claimed" "in_progress") db in
    (update_runs r (λ x, str_eqb (row_status x) "queued") (set_run_status "in_progress") db).2
  else db.

Definition lease_expansion db r job : Db :=
  alter_jobs (λ j, is_job r job j && str_eqb (job_queue_state j) "pending_expansion")
    (λ j, with_detail bump_generation (with_state "expanding" (job_status j) j)) db.

(** ** What a release starts

    A run that takes a freed group is swept and started. *)
Definition cascade_promote_run db r : result ControlError Db :=
  '(_, db) ← promote_run no_outcome db r;
  Ok (update_runs r (λ x, str_eqb (row_status x) "queued") (set_run_status "in_progress") db).2.

Definition cascade_step : Cascade :=
  mkCascade cascade_promote_run (λ db r jobs k, advance_jobset db r jobs (Some k)) (fail_jobset c (in_now inputs)).

End promote.
Arguments SweepInputs : clear implicits.

(** ** The cascade closed

    The depth is the number of nested promotions of groups. *)
Section knot.
Context {num Conc : Type} `{NumberOps num, JsonCodec num, UnicodeCase, UnicodeLower, LeaseCodec}.

Definition no_cascade : Cascade (num:=num) (Conc:=Conc) :=
  mkCascade (λ _ _, Err (Backend "out of fuel")) (λ _ _ _ _, Err (Backend "out of fuel"))
    (λ _ _ _ _, Err (Backend "out of fuel")).

Fixpoint cascade (inputs : SweepInputs num Conc) (depth : nat) : Cascade :=
  match depth with
  | O => no_cascade
  | S depth => cascade_step inputs (cascade inputs depth)
  end.

End knot.
