(* ===== verification/LiteProgress.v ===== *)
(** * Progress of a run: what settlement and the sweep guarantee

    Theorems on [LiteJobs] and [LitePromote] for a run that uses no concurrency
    group: its jobs settle once, their dependents' counts never exceed the needs
    still open, the sweep ends, leaves nothing that could move, and starts a job
    only when its needs allow it. *)
From S2P Require Export LitePromote.

#[local] Set Default Proof Using "Type".

(** Whether well-formedness includes the counts of the blocked jobs: the
    cancellation of one job and its starvation do not keep them. *)
Class Counted : Set := counted : bool.

Section progress.
Context {num Conc : Type} `{NumberOps num, JsonCodec num, UnicodeCase, UnicodeLower, LeaseCodec} {CK : Counted}.
Abbreviation JobRow := (JobRow string (JobDetail num Conc)).
Abbreviation Db := (Db string (JobDetail num Conc) Tables).
Abbreviation Holder := (Holder string).
Abbreviation Cascade := (Cascade (num:=num) (Conc:=Conc)).
Implicit Types (db : Db) (j d : JobRow) (r job : string) (h : Holder) (graph : RunRecord num).

(** ** Rows *)

Definition terminal_status : list string := ["success"; "failure"; "cancelled"; "skipped"].

Lemma terminal_parse (s : string) : is_terminal (status_parse s) = bool_decide (s ∈ terminal_status).
Proof.
  unfold status_parse, str_eqb. repeat (case_bool_decide; [by subst|]).
  symmetry. apply bool_decide_eq_false_2. intros Hs.
  repeat (apply elem_of_cons in Hs as [->|Hs]; [done|]). by apply not_elem_of_nil in Hs.
Qed.

Lemma open_row_parse j : open_row j = negb (is_terminal (status_parse (job_status j))).
Proof. by rewrite terminal_parse. Qed.

(** The columns no operation changes. *)
Record same_key j d : Prop := mk_same_key {
  same_run : job_run d = job_run j;
  same_name : job_name d = job_name j;
  same_kind : job_kind d = job_kind j;
  same_parent : job_parent d = job_parent j;
  same_base : job_base_id d = job_base_id j;
  same_max : job_max_parallel d = job_max_parallel j;
  same_needs : declared_needs (job_detail d) = declared_needs (job_detail j);
  same_if : spec_if (job_detail d) = spec_if (job_detail j);
  same_context : spec_context (job_detail d) = spec_context (job_detail j);
  same_deferred : spec_deferred_matrix (job_detail d) = spec_deferred_matrix (job_detail j);
  same_call : spec_reusable_call (job_detail d) = spec_reusable_call (job_detail j);
  same_concurrency : spec_concurrency (job_detail d) = spec_concurrency (job_detail j);
  same_fail_fast : spec_fail_fast (job_detail d) = spec_fail_fast (job_detail j);
  same_outputs : outputs (job_detail d) = outputs (job_detail j);
}.

#[export] Instance same_key_refl : Reflexive same_key.
Proof. by split. Qed.
#[export] Instance same_key_trans : Transitive same_key.
Proof. intros x y z [] []. split; congruence. Qed.

(** From [db] to [db'] the rows of other runs stay, those of [r] are related by
    [P], the groups are the same. *)
Record moves r (P : JobRow → JobRow → Prop) db db' : Prop := mk_moves {
  moved_holds : holds db' = holds db;
  moved_waits : waits db' = waits db;
  moved_labels : runner_labels db' = runner_labels db;
  moved_rows : Forall2 (λ j d, same_key j d ∧ (job_run j ≠ r → d = j) ∧ (job_run j = r → P j d))
                 (job_rows db) (job_rows db');
}.

Lemma moves_trans r (P Q R : JobRow → JobRow → Prop) db1 db2 db3 :
  (∀ j1 j2 j3, same_key j1 j2 → same_key j2 j3 → P j1 j2 → Q j2 j3 → R j1 j3) →
  moves r P db1 db2 → moves r Q db2 db3 → moves r R db1 db3.
Proof.
  intros HR [Hh Hw Hl Hp] [Hh' Hw' Hl' Hq]. split; [congruence..|].
  eapply Forall2_trans; [|exact Hp|exact Hq]. intros x y z (Hk & Ho & Hx) (Hk' & Ho' & Hy). split_and!.
  - by etrans.
  - intros Hr. rewrite (Ho Hr) in *. auto.
  - intros Hr. eapply HR; [done..|by apply Hx|]. apply Hy. by rewrite (same_run _ _ Hk).
Qed.

Lemma moves_mono r (P Q : JobRow → JobRow → Prop) db db' :
  (∀ j d, P j d → Q j d) → moves r P db db' → moves r Q db db'.
Proof.
  intros HPQ [? ? ? Hrows]. split; [done..|]. eapply Forall2_impl; [exact Hrows|]. naive_solver.
Qed.

Lemma moves_refl r (P : JobRow → JobRow → Prop) db : (∀ j, P j j) → moves r P db db.
Proof.
  intros HP. split; [done..|]. apply Forall_Forall2_diag, Forall_forall. intros j _. cbv beta. by split_and!.
Qed.

(** An update that changes no key and only rows of [r]. *)
Lemma moves_alter r (P : JobRow → JobRow → Prop) (p : JobRow → bool) f db :
  (∀ j, p j = true → same_key j (f j) ∧ job_run j = r ∧ P j (f j)) →
  (∀ j, p j = false → job_run j = r → P j j) → moves r P db (alter_jobs p f db).
Proof.
  intros Hf Hid. split; [done..|]. simpl. apply Forall2_fmap_r, Forall_Forall2_diag, Forall_forall.
  intros j _. destruct (p j) eqn:Hp.
  - destruct (Hf j Hp) as (? & ? & ?). split_and!; rewrite Hp; done.
  - split_and!; rewrite Hp; auto. done.
Qed.

Lemma moves_rest r (P : JobRow → JobRow → Prop) db t : (∀ j, P j j) → moves r P db (with_rest db t).
Proof.
  intros HP. split; [done..|]. apply Forall_Forall2_diag, Forall_forall. intros j _. cbv beta. by split_and!.
Qed.

(** ** What the rows of a run satisfy *)

Definition queued_states : list string := ["blocked"; "held"; "ready"; "claimed"; "pending_expansion"; "expanding"].

Definition closed_states : list string := ["none"; "pending_expansion"; "expanding"].

Definition waiting_status : list string := ["pending"; "queued"].

(** An open row runs or waits somewhere; a closed one is in no queue, unless
    its expansion was queued. *)
Definition queue_ok j : Prop :=
  if open_row j then
    if str_eqb (job_status j) "in_progress" then job_queue_state j ≠ "blocked"
    else job_status j ∈ waiting_status ∧ job_queue_state j ∈ queued_states
  else job_queue_state j ∈ closed_states.

(** The count of a blocked job never exceeds the needs still open. *)
Definition count_ok db j : Prop :=
  job_queue_state j = "blocked" → (0 ≤ remaining_needs (job_detail j) ≤ open_needs db j)%Z.

Definition counts r db : Prop := counted = true → ∀ j, j ∈ rows_of db r → count_ok db j.

Record run_wf r db : Prop := mk_run_wf {
  names_unique : NoDup (job_name <$> rows_of db r);
  queues_ok : ∀ j, j ∈ live_rows db r → queue_ok j;
  parents_ok : ∀ j, j ∈ rows_of db r → replaced (rows_of db r) j = true →
    job_queue_state j = "none" ∧ job_status j ≠ "in_progress";
  counts_ok : counts r db;
}.

(** No group concerns the run. *)
Record groups_free r db : Prop := mk_groups_free {
  free_holds : map_Forall (λ _ '(_, h), holder_run h ≠ r) (holds db);
  free_waits : Forall (λ w, holder_run (wait_holder w) ≠ r) (waits db);
  free_jobs : Forall (λ j, job_run j = r → spec_concurrency (job_detail j) = None ∧
    (spec_reusable_call (job_detail j) = None ∨ spec_reusable_call (job_detail j) = Some (None, None)))
    (job_rows db);
}.

Lemma elem_of_rows_of db r j : j ∈ rows_of db r ↔ j ∈ job_rows db ∧ job_run j = r.
Proof. unfold rows_of. rewrite !list_elem_of_In, filter_In, bool_decide_eq_true. done. Qed.

Lemma filter_Forall2 {A} (R : A → A → Prop) (p q : A → bool) l k :
  (∀ x y, R x y → p x = q y) → Forall2 R l k → Forall2 R (List.filter p l) (List.filter q k).
Proof.
  intros Hpq. induction 1 as [|x y l k Hxy _ IH]; simpl; [done|]. rewrite (Hpq x y Hxy).
  destruct (q y); [by constructor|done].
Qed.

Lemma existsb_Forall2 {A} (R : A → A → Prop) (p q : A → bool) l k :
  (∀ x y, R x y → p x = q y) → Forall2 R l k → existsb p l = existsb q k.
Proof. intros Hpq. induction 1 as [|x y l k Hxy _ IH]; simpl; [done|]. by rewrite (Hpq x y Hxy), IH. Qed.

(** ** What a move keeps *)
Section moved.
Context (r : string) (P : JobRow → JobRow → Prop) (db db' : Db) (Hm : moves r P db db').
#[local] Set Default Proof Using "Type Hm".

Definition pairs (j d : JobRow) : Prop := same_key j d ∧ P j d.

Lemma moves_rows_of : Forall2 pairs (rows_of db r) (rows_of db' r).
Proof.
  unfold rows_of. induction (moved_rows _ _ _ _ Hm) as [|j d l k (Hk & _ & HP) _ IH]; simpl; [done|].
  rewrite (same_run _ _ Hk). case_bool_decide; [|done]. constructor; [by split; auto|done].
Qed.

Lemma moves_replaced j d : same_key j d → replaced (rows_of db' r) d = replaced (rows_of db r) j.
Proof.
  intros Hk. unfold replaced. rewrite (same_kind _ _ Hk), (same_name _ _ Hk). f_equal. symmetry.
  eapply existsb_Forall2; [|exact moves_rows_of]. intros x y [Hxy _]. by rewrite (same_parent _ _ Hxy).
Qed.

Lemma moves_live_rows : Forall2 pairs (live_rows db r) (live_rows db' r).
Proof.
  unfold live_rows. eapply filter_Forall2; [|exact moves_rows_of]. intros x y [Hxy _].
  by rewrite (moves_replaced x y Hxy).
Qed.

Lemma moves_names : job_name <$> rows_of db' r = job_name <$> rows_of db r.
Proof.
  induction moves_rows_of as [|x y l k [Hxy _] _ IH]; [done|]. rewrite !fmap_cons, IH. f_equal. apply (same_name _ _ Hxy).
Qed.

Lemma moves_row_l j : j ∈ rows_of db r → ∃ d, d ∈ rows_of db' r ∧ pairs j d.
Proof.
  intros [i Hi]%list_elem_of_lookup. destruct (Forall2_lookup_l _ _ _ _ _ moves_rows_of Hi) as (d & Hd & Hp).
  exists d. split; [by apply list_elem_of_lookup_2 in Hd|done].
Qed.

Lemma moves_row_r d : d ∈ rows_of db' r → ∃ j, j ∈ rows_of db r ∧ pairs j d.
Proof.
  intros [i Hi]%list_elem_of_lookup. destruct (Forall2_lookup_r _ _ _ _ _ moves_rows_of Hi) as (j & Hj & Hp).
  exists j. split; [by apply list_elem_of_lookup_2 in Hj|done].
Qed.

Lemma moves_live_l j : j ∈ live_rows db r → ∃ d, d ∈ live_rows db' r ∧ pairs j d.
Proof.
  intros [i Hi]%list_elem_of_lookup. destruct (Forall2_lookup_l _ _ _ _ _ moves_live_rows Hi) as (d & Hd & Hp).
  exists d. split; [by apply list_elem_of_lookup_2 in Hd|done].
Qed.

Lemma moves_live_r d : d ∈ live_rows db' r → ∃ j, j ∈ live_rows db r ∧ pairs j d.
Proof.
  intros [i Hi]%list_elem_of_lookup. destruct (Forall2_lookup_r _ _ _ _ _ moves_live_rows Hi) as (j & Hj & Hp).
  exists j. split; [by apply list_elem_of_lookup_2 in Hj|done].
Qed.

Lemma moves_free r' : groups_free r' db → groups_free r' db'.
Proof.
  intros [Hh Hw Hj]. destruct Hm as [Hh' Hw' _ Hrows]. split; [by rewrite Hh'|by rewrite Hw'|].
  revert Hj. induction Hrows as [|j d l k (Hk & _) _ IH]; [constructor|]. intros [Hj Hl]%Forall_cons.
  constructor; [|auto]. rewrite (same_run _ _ Hk), (same_concurrency _ _ Hk), (same_call _ _ Hk). done.
Qed.

(** A move that opens no row opens no need. *)
Lemma moves_need_open (need : string) :
  (∀ j d, P j d → open_row d = true → open_row j = true) →
  need_open db' r need = true → need_open db r need = true.
Proof.
  intros Hopen. unfold need_open. rewrite !existsb_exists. intros (d & Hd%list_elem_of_In & Hp).
  destruct (moves_row_r d Hd) as (j & Hj & Hk & HP). exists j. split; [by apply list_elem_of_In|].
  revert Hp. rewrite !andb_true_iff. unfold matches_need. rewrite (moves_replaced j d Hk), (same_name _ _ Hk), (same_base _ _ Hk).
  intros [? ?]. split; [done|]. by apply (Hopen j d).
Qed.

Lemma moves_need_open_eq (need : string) :
  (∀ j d, P j d → open_row d = open_row j) → need_open db' r need = need_open db r need.
Proof.
  intros Hopen. unfold need_open. symmetry. eapply existsb_Forall2; [|exact moves_rows_of].
  intros j d [Hk HP]. unfold matches_need. rewrite (moves_replaced j d Hk), (same_name _ _ Hk), (same_base _ _ Hk).
  by rewrite (Hopen j d HP).
Qed.

Lemma moves_open_needs j d :
  (∀ j d, P j d → open_row d = open_row j) → same_key j d → job_run j = r → open_needs db' d = open_needs db j.
Proof.
  intros Hopen Hk Hr. unfold open_needs. rewrite (same_run _ _ Hk), (same_needs _ _ Hk), Hr. do 2 f_equal.
  apply List.filter_ext. intros need. by apply moves_need_open_eq.
Qed.

(** A move that closes no row keeps the counts that it does not raise. *)
Lemma moves_open_needs_le j d :
  (∀ j d, P j d → open_row j = true → open_row d = true) → same_key j d → job_run j = r →
  (open_needs db j ≤ open_needs db' d)%Z.
Proof.
  intros Hopen Hk Hr. unfold open_needs. rewrite (same_run _ _ Hk), (same_needs _ _ Hk), Hr.
  apply Nat2Z.inj_le. induction (declared_needs (job_detail j)) as [|n ns IH]; simpl; [done|].
  destruct (need_open db r n) eqn:Hn; simpl.
  - assert (need_open db' r n = true) as ->; [|simpl; lia]. revert Hn. unfold need_open. rewrite !existsb_exists.
    intros (x & Hx%list_elem_of_In & Hp). destruct (moves_row_l x Hx) as (y & Hy & Hky & HPy).
    exists y. split; [by apply list_elem_of_In|]. revert Hp. unfold matches_need. rewrite !andb_true_iff.
    rewrite (moves_replaced x y Hky), (same_name _ _ Hky), (same_base _ _ Hky). intros [? ?]. eauto.
  - destruct (need_open db' r n); simpl; lia.
Qed.

End moved.

(** ** Settling a row *)

Definition same_state j d : Prop :=
  job_status d = job_status j ∧ job_queue_state d = job_queue_state j.

(** A row keeps its state, or was open and is closed. *)
Definition closes j d : Prop :=
  same_state j d ∨ open_row j = true ∧ open_row d = false ∧ job_queue_state d = "none".

Lemma same_state_open j d : same_state j d → open_row d = open_row j.
Proof. unfold open_row. by intros [-> _]. Qed.

Lemma closes_refl j : closes j j.
Proof. by left. Qed.

Lemma closes_open j d : closes j d → open_row d = true → open_row j = true.
Proof. intros [<-%same_state_open|(? & ? & _)]; congruence. Qed.

Lemma closes_trans j1 j2 j3 : closes j1 j2 → closes j2 j3 → closes j1 j3.
Proof.
  intros H12 [[Hs Hq]|(Ho & Hc & Hq)]; [|by right; eauto using closes_open].
  destruct H12 as [[Hs' Hq']|(Ho' & Hc' & Hq')]; [left; split; congruence|right].
  split_and!; [done|by rewrite (same_state_open j2)|congruence].
Qed.

Lemma closes_moves_trans r db1 db2 db3 : moves r closes db1 db2 → moves r closes db2 db3 → moves r closes db1 db3.
Proof. apply moves_trans. intros j1 j2 j3 _ _. apply closes_trans. Qed.

Lemma is_job_true r job j : is_job r job j = true ↔ job_run j = r ∧ job_name j = job.
Proof. apply bool_decide_eq_true. Qed.

Lemma open_status (s : ExecutionStatus) : negb (bool_decide (status_str s ∈ terminal_status)) = negb (is_terminal s).
Proof. by destruct s. Qed.

Lemma with_state_key (q s : string) j : same_key j (with_state q s j).
Proof. by split. Qed.

Lemma finish_moves r job s db : is_terminal s = true → moves r closes db (finish_job_row db r job s).
Proof.
  intros Hs. apply moves_alter; [|intros; apply closes_refl]. intros j [[Hr _]%is_job_true Ho]%andb_true_iff.
  split_and!; [apply with_state_key|done|]. right. split_and!; [done| |done].
  unfold open_row. simpl. pose proof (open_status s) as Ht. rewrite Hs in Ht. exact Ht.
Qed.

Lemma with_detail_key (f : JobDetail num Conc → JobDetail num Conc) j :
  (∀ d : JobDetail num Conc, declared_needs (f d) = declared_needs d ∧ spec_if (f d) = spec_if d ∧ spec_context (f d) = spec_context d ∧
        spec_deferred_matrix (f d) = spec_deferred_matrix d ∧ spec_reusable_call (f d) = spec_reusable_call d ∧
        spec_concurrency (f d) = spec_concurrency d ∧ spec_fail_fast (f d) = spec_fail_fast d ∧ outputs (f d) = outputs d) →
  same_key j (with_detail f j).
Proof. intros Hf. destruct (Hf (job_detail j)) as (?&?&?&?&?&?&?&?). by split. Qed.

Lemma refresh_moves r (p : JobRow → bool) db :
  (∀ j, p j = true → job_run j = r) → moves r same_state db (refresh_where p db).
Proof.
  intros Hp. apply moves_alter; [|done]. intros j Hj. split_and!; [by apply with_detail_key|auto|done].
Qed.

(** Closing a row and refreshing the counts of its dependents. *)
Lemma finish_refresh_moves r job s base db :
  is_terminal s = true →
  moves r closes db (refresh_remaining_needs (finish_job_row db r job s) r job base).
Proof.
  intros Hs. eapply closes_moves_trans; [by apply finish_moves|].
  eapply moves_mono; [|apply refresh_moves]; [by left|].
  by intros j [[Hr _]%andb_true_iff _]%andb_true_iff; apply bool_decide_eq_true in Hr.
Qed.

Lemma rows_of_alter r p f db :
  (∀ j, p j = true → same_key j (f j)) →
  rows_of (alter_jobs p f db) r = (λ j, if p j then f j else j) <$> rows_of db r.
Proof.
  intros Hf. unfold rows_of. simpl. induction (job_rows db) as [|j l IH]; [done|]. rewrite fmap_cons. cbn [List.filter].
  assert (job_run (if p j then f j else j) = job_run j) as ->
    by (destruct (p j) eqn:Hp; [apply (same_run _ _ (Hf j Hp))|done]).
  case_bool_decide; [|done]. rewrite fmap_cons. by f_equal.
Qed.

Lemma existsb_ext_elem {A} (p q : A → bool) l : (∀ x, x ∈ l → p x = q x) → existsb p l = existsb q l.
Proof.
  induction l as [|x l IH]; intros Hpq; simpl; [done|]. rewrite (Hpq x), IH; [done| |by left].
  intros y Hy. apply Hpq. by right.
Qed.

Lemma existsb_fmap {A B} (f : A → B) (p : B → bool) l : existsb p (f <$> l) = existsb (λ x, p (f x)) l.
Proof. induction l as [|x l IH]; simpl; [done|]. by rewrite <-IH. Qed.

Lemma finish_need_open r job s base db need :
  is_terminal s = true → (∀ d, d ∈ rows_of db r → job_name d = job → job_base_id d = base) →
  need ≠ job → need ≠ base → need_open (finish_job_row db r job s) r need = need_open db r need.
Proof.
  intros Hs Hbase Hjob Hneed. pose proof (finish_moves r job s db Hs) as Hm. unfold need_open at 1 2.
  unfold finish_job_row at 2. rewrite rows_of_alter by (intros; apply with_state_key). rewrite existsb_fmap.
  apply existsb_ext_elem. intros j Hj. cbv beta.
  destruct (is_job r job j && open_row j) eqn:Hp.
  - apply andb_true_iff in Hp as [[_ Hn]%is_job_true _]. unfold matches_need. simpl.
    rewrite Hn, (Hbase j Hj Hn). unfold str_eqb. by rewrite !bool_decide_eq_false_2.
  - by rewrite (moves_replaced _ _ _ _ Hm j j).
Qed.

Lemma finish_refresh_counts r job s base db :
  is_terminal s = true → (∀ d, d ∈ rows_of db r → job_name d = job → job_base_id d = base) →
  counts r db → counts r (refresh_remaining_needs (finish_job_row db r job s) r job base).
Proof.
  intros Hs Hbase Hc Hcnt. specialize (Hc Hcnt). set (db1 := finish_job_row db r job s).
  set (p := λ j : JobRow, queued_in r j &&
    existsb (λ n, str_eqb n job || str_eqb n base) (declared_needs (job_detail j))).
  change (∀ j, j ∈ rows_of (refresh_where p db1) r → count_ok (refresh_where p db1) j).
  assert (moves r same_state db1 (refresh_where p db1)) as Hm.
  { apply refresh_moves. by intros j [[Hr _]%andb_true_iff _]%andb_true_iff; apply bool_decide_eq_true in Hr. }
  intros d Hd Hq. unfold refresh_where in Hd. rewrite rows_of_alter in Hd by (intros; by apply with_detail_key).
  apply list_elem_of_fmap in Hd as (j & -> & Hj). apply elem_of_rows_of in Hj as Hr. destruct Hr as [_ Hr].
  destruct (p j) eqn:Hp.
  - rewrite (moves_open_needs _ _ _ _ Hm j _ same_state_open) by (done || by apply with_detail_key).
    simpl. unfold open_needs. lia.
  - rewrite (moves_open_needs _ _ _ _ Hm j j same_state_open) by done.
    unfold db1, finish_job_row in Hj. rewrite rows_of_alter in Hj by (intros; apply with_state_key).
    apply list_elem_of_fmap in Hj as (j0 & -> & Hj0). destruct (is_job r job j0 && open_row j0) eqn:Hp0; [done|].
    assert (open_needs db1 j0 = open_needs db j0) as ->; [|by apply Hc].
    unfold open_needs. do 2 f_equal. apply List.filter_ext_in. intros need Hneed. rewrite Hr.
    assert (¬ (need = job ∨ need = base)) as Hn.
    { intros Hn. apply not_true_iff_false in Hp. apply Hp. unfold p, queued_in. rewrite Hr, Hq, bool_decide_eq_true_2 by done.
      simpl. apply existsb_exists. exists need. split; [done|]. unfold str_eqb. apply orb_true_iff.
      by rewrite !bool_decide_eq_true. }
    apply (finish_need_open _ _ _ base); [done|done| |]; intros ->; apply Hn; auto.
Qed.

(** ** A run without groups releases nothing *)

Lemma contains_job_run h r job : contains_job h r job = true → holder_run h = r.
Proof. destruct h; simpl; rewrite ?andb_true_iff, ?bool_decide_eq_true; naive_solver. Qed.

Lemma omap_none {A B} (f : A → option B) l : (∀ x, x ∈ l → f x = None) → omap f l = [].
Proof.
  induction l as [|x l IH]; intros Hf; [done|]. cbn. rewrite (Hf x) by left. apply IH. intros y Hy. apply Hf. by right.
Qed.

Lemma job_holds_free r job db : groups_free r db → job_holds db r job = [].
Proof.
  intros [Hh _ _]. apply omap_none. intros [k [t h]] Hk%elem_of_map_to_list. specialize (Hh k _ Hk). simpl in Hh.
  destruct (contains_job h r job) eqn:Hc; [|done]. by apply contains_job_run in Hc.
Qed.

Lemma run_holds_free r db : groups_free r db → run_holds db r = [].
Proof.
  intros [Hh _ _]. apply omap_none. intros [k [t h]] Hk%elem_of_map_to_list. specialize (Hh k _ Hk). simpl in Hh.
  by rewrite bool_decide_eq_false_2.
Qed.

Lemma job_waits_free r job db : groups_free r db → job_waits db r job = [].
Proof.
  intros [_ Hw _]. apply omap_none. intros w Hin. rewrite Forall_forall in Hw. specialize (Hw w Hin).
  destruct (contains_job (wait_holder w) r job) eqn:Hc; [|done]. by apply contains_job_run in Hc.
Qed.

Lemma release_job_free c r job db : groups_free r db → release_job c db r job = Ok db.
Proof.
  intros Hf. unfold release_job, release_concurrency_for_job. rewrite job_holds_free by done.
  simpl. by rewrite job_waits_free.
Qed.

Lemma release_run_free c r db : groups_free r db → release_run c db r = Ok db.
Proof.
  intros Hf. unfold release_run, release_concurrency_for_run. rewrite run_holds_free by done. simpl.
  rewrite filter_all; [by destruct db|]. apply Forall_forall. intros w Hw. destruct Hf as [_ Hfw _]. rewrite Forall_forall in Hfw.
  by rewrite bool_decide_eq_false_2 by auto.
Qed.

Lemma settle_each_Ok ids s now l : ∃ l', settle_each ids s now l = Ok ((), l').
Proof.
  revert l. induction ids as [|id ids IH]; intros l; [by eexists|]. cbn [settle_each].
  assert (∃ b l', stamp_result id s (agent_request_locked_until now) now l = Ok (b, l')) as (b & l' & ->).
  { unfold stamp_result, parse_lease. destruct (locked_until_parses now) as [e ->]. simpl.
    destruct (is_terminal s); simpl; [|by repeat eexists]. destruct (update_request _ _ _ _). by repeat eexists. }
  simpl. apply IH.
Qed.

Lemma retire_Ok now db r job s : ∃ l, retire_node_requests now db r job s = Ok (with_lite db l).
Proof.
  unfold retire_node_requests, settle_requests_for_job.
  destruct (settle_each_Ok (ids_where (live_of_job r job) (lite (rest db))) s now (lite (rest db))) as [l' ->].
  by eexists.
Qed.

(** Only the tables besides [jobs] and the groups differ. *)
Definition same_rows db db' : Prop := ∃ t, db' = with_rest db t.

Lemma same_rows_refl db : same_rows db db.
Proof. exists (rest db). by destruct db. Qed.

Lemma same_rows_trans db1 db2 db3 : same_rows db1 db2 → same_rows db2 db3 → same_rows db1 db3.
Proof. intros [t ->] [t' ->]. by exists t'. Qed.

Lemma summarize_same_rows db r : same_rows db (summarize_run_row db r).2.
Proof. unfold summarize_run_row. cbv zeta. cbn [snd]. case_match; by eexists. Qed.

Lemma same_rows_moves r (P : JobRow → JobRow → Prop) db db' : (∀ j, P j j) → same_rows db db' → moves r P db db'.
Proof. intros HP [t ->]. by apply moves_rest. Qed.

Lemma same_rows_counts r db db' : same_rows db db' → counts r db → counts r db'.
Proof. by intros [t ->]. Qed.

Lemma queue_cancellation_same db id reason : same_rows db (queue_cancellation db id reason).
Proof. unfold queue_cancellation. cbv zeta. case_match; [apply same_rows_refl|by eexists]. Qed.

(** ** Settlement in a run without groups *)

Definition settled r db db' : Prop := moves r closes db db' ∧ (counts r db → counts r db').

Lemma settled_refl r db : settled r db db.
Proof. split; [apply moves_refl, closes_refl|done]. Qed.

Lemma settled_trans r db1 db2 db3 : settled r db1 db2 → settled r db2 db3 → settled r db1 db3.
Proof. intros [Hm Hc] [Hm' Hc']. split; [by eapply closes_moves_trans|auto]. Qed.

Lemma settled_same r db db' : same_rows db db' → settled r db db'.
Proof. intros Hs. split; [by apply same_rows_moves; [apply closes_refl|]|by apply same_rows_counts]. Qed.

Lemma settled_free r r' db db' : settled r db db' → groups_free r' db → groups_free r' db'.
Proof. intros [Hm _]. apply (moves_free _ _ _ _ Hm). Qed.

(** All rows of a name have this base. *)
Definition has_base r db job (base : string) : Prop := ∀ d, d ∈ rows_of db r → job_name d = job → job_base_id d = base.

Lemma settled_base r db db' job base : settled r db db' → has_base r db job base → has_base r db' job base.
Proof.
  intros [Hm _] Hb d Hd Hn. destruct (moves_row_r _ _ _ _ Hm d Hd) as (j & Hj & Hk & _).
  rewrite (same_base _ _ Hk). apply Hb; [done|]. by rewrite <-(same_name _ _ Hk).
Qed.

Lemma finish_refresh_settled r job s base db : is_terminal s = true → has_base r db job base →
  settled r db (refresh_remaining_needs (finish_job_row db r job s) r job base).
Proof. intros Hs Hb. split; [by apply finish_refresh_moves|by apply finish_refresh_counts]. Qed.

Lemma cancel_sibling_free c r failed db j request :
  groups_free r db → has_base r db (job_name j) (job_base_id failed) →
  ∃ db', cancel_sibling c r failed db (j, request) = Ok db' ∧ settled r db db'.
Proof.
  intros Hf Hb. unfold cancel_sibling. cbv zeta. set (db0 := match request with Some _ => _ | None => db end).
  assert (same_rows db db0) as Hs.
  { unfold db0. destruct request; [case_match; [apply queue_cancellation_same|]|]; apply same_rows_refl. }
  apply (settled_same r) in Hs.
  rewrite release_job_free; [|eapply moves_free; [by apply (finish_moves _ _ Cancelled)|by eapply settled_free]].
  eexists. split; [done|]. eapply settled_trans; [exact Hs|]. apply finish_refresh_settled; [done|].
  by eapply settled_base.
Qed.

Lemma cancel_siblings_free c r failed l db :
  groups_free r db → Forall (λ s, has_base r db (job_name s.1) (job_base_id failed)) l →
  ∃ db', cancel_siblings c r failed db l = Ok db' ∧ settled r db db'.
Proof.
  revert db. induction l as [|[j q] l IH]; intros db Hf Hl; [eexists; split; [done|apply settled_refl]|].
  apply Forall_cons in Hl as [Hb Hl]. cbn [cancel_siblings].
  destruct (cancel_sibling_free c r failed db j q Hf Hb) as (db1 & -> & Hs). simpl.
  destruct (IH db1) as (db2 & -> & Hs2); [by eapply settled_free| |].
  - eapply Forall_impl; [exact Hl|]. intros s Hs'. by eapply settled_base.
  - eexists. split; [done|]. by eapply settled_trans.
Qed.

Lemma find_job_Some db r job j : find_job db r job = Some j → j ∈ rows_of db r ∧ job_name j = job.
Proof.
  unfold find_job. intros [Hin Hj]%find_some. apply is_job_true in Hj as [Hr Hn]. split; [|done].
  apply elem_of_rows_of. split; [by apply list_elem_of_In|done].
Qed.

Lemma find_job_None db r job j : find_job db r job = None → j ∈ rows_of db r → job_name j ≠ job.
Proof.
  intros Hn [Hin Hr]%elem_of_rows_of Hj. apply list_elem_of_In in Hin.
  apply (find_none _ _ Hn) in Hin. apply not_true_iff_false in Hin. apply Hin, is_job_true. done.
Qed.

Lemma name_unique r db j d : NoDup (job_name <$> rows_of db r) →
  j ∈ rows_of db r → d ∈ rows_of db r → job_name j = job_name d → j = d.
Proof.
  intros Hnd [i Hi]%list_elem_of_lookup [k Hk]%list_elem_of_lookup Hn.
  assert (i = k) as ->; [|congruence]. eapply NoDup_lookup; [exact Hnd|rewrite list_lookup_fmap, Hi; done|].
  by rewrite list_lookup_fmap, Hk, Hn.
Qed.

Lemma unique_base r db j : NoDup (job_name <$> rows_of db r) → j ∈ rows_of db r →
  has_base r db (job_name j) (job_base_id j).
Proof. intros Hnd Hj d Hd Hn. by rewrite (name_unique r db d j). Qed.

Lemma apply_fail_fast_free c r job db :
  groups_free r db → NoDup (job_name <$> rows_of db r) →
  ∃ siblings db', apply_fail_fast c db r job = Ok (siblings, db') ∧ settled r db db'.
Proof.
  intros Hf Hnd. unfold apply_fail_fast. destruct (find_job db r job) as [failed|]; [|exists [], db; split; [done|apply settled_refl]].
  destruct (negb _); [exists [], db; split; [done|apply settled_refl]|]. cbv zeta.
  set (siblings := by_order _). set (l := (λ j, _) <$> siblings).
  destruct (cancel_siblings_free c r failed l db Hf) as (db1 & -> & Hs).
  { unfold l. apply Forall_fmap, Forall_forall. intros j Hj. simpl. unfold siblings, by_order in Hj.
    rewrite merge_sort_Permutation in Hj. apply list_elem_of_In, filter_In in Hj as [Hin Hm].
    unfold may_fail_fast in Hm. rewrite !andb_true_iff in Hm. destruct Hm as (((Hr & Hb) & _) & _).
    apply bool_decide_eq_true in Hr, Hb. rewrite <-Hb. apply unique_base; [done|]. apply elem_of_rows_of.
    by rewrite list_elem_of_In. }
  simpl. do 2 eexists. split; [done|]. case_match; [done|].
  eapply settled_trans; [exact Hs|]. apply settled_same, summarize_same_rows.
Qed.

Lemma refresh_closed r job s base db d : is_terminal s = true →
  d ∈ rows_of (refresh_remaining_needs (finish_job_row db r job s) r job base) r → job_name d = job → open_row d = false.
Proof.
  intros Hs Hd Hn. unfold refresh_remaining_needs, refresh_where in Hd.
  rewrite rows_of_alter in Hd by (intros; by apply with_detail_key). apply list_elem_of_fmap in Hd as (j & -> & Hj).
  assert (job_name j = job) as Hj' by (revert Hn; by case_match).
  assert (open_row j = false) as <-; [|by case_match]. clear Hn.
  unfold finish_job_row in Hj. rewrite rows_of_alter in Hj by (intros; apply with_state_key).
  apply list_elem_of_fmap in Hj as (i & -> & [_ Hr]%elem_of_rows_of).
  destruct (is_job r job i && open_row i) eqn:Hp.
  - unfold open_row. simpl. pose proof (open_status s) as Ht. rewrite Hs in Ht. exact Ht.
  - apply andb_false_iff in Hp as [Hp|]; [|done]. apply not_true_iff_false in Hp. exfalso. by apply Hp, is_job_true.
Qed.

Lemma effective_terminal prior reported tolerated run_terminal :
  is_terminal reported = true → is_terminal prior = false ∨ prior = Cancelled →
  is_terminal (effective_status (completion_decision (mkCompletion prior reported tolerated run_terminal))) = true.
Proof. destruct prior, reported, tolerated; simpl; naive_solver. Qed.

Lemma settle_node_free c now r job reported db :
  groups_free r db → NoDup (job_name <$> rows_of db r) → is_terminal reported = true →
  ∃ effects db', settle_node c now db r job reported = Ok (effects, db') ∧ settled r db db' ∧
    ∀ d, d ∈ rows_of db' r → job_name d = job → open_row d = false.
Proof.
  intros Hf Hnd Hrep. unfold settle_node. destruct (find_job db r job) as [j|] eqn:Hj.
  2:{ do 2 eexists. split_and!; [done|apply settled_refl|]. intros d Hd Hn. by apply (find_job_None _ _ _ _ Hj) in Hd. }
  apply find_job_Some in Hj as [Hin <-]. cbv zeta.
  destruct (is_terminal (status_parse (job_status j)) && _) eqn:Hprior.
  { do 2 eexists. split_and!; [done|apply settled_refl|]. intros d Hd Hn.
    assert (d = j) as -> by exact (name_unique r db d j Hnd Hd Hin Hn). apply andb_true_iff in Hprior as [Ht _].
    by rewrite open_row_parse, Ht. }
  set (effective := effective_status _).
  assert (is_terminal effective = true) as Heff.
  { apply effective_terminal; [done|]. apply andb_false_iff in Hprior as [?|Hp]; [by left|right].
    by apply negb_false_iff, bool_decide_eq_true in Hp. }
  pose proof (finish_refresh_settled r (job_name j) effective (job_base_id j) db Heff (unique_base r db j Hnd Hin)) as Hs1.
  set (db1 := refresh_remaining_needs _ _ _ _) in *.
  pose proof (summarize_same_rows db1 r) as Hsum. destruct (summarize_run_row db1 r) as [summary db2]. simpl in Hsum.
  assert (settled r db db2) as Hs2 by (eapply settled_trans; [exact Hs1|by apply settled_same]).
  assert (∃ siblings db3, (if bool_decide (effective = Failure) then apply_fail_fast c db2 r (job_name j) else Ok ([], db2))
            = Ok (siblings, db3) ∧ settled r db2 db3) as (siblings & db3 & -> & Hs3).
  { destruct (bool_decide (effective = Failure)); [|exists [], db2; split; [done|apply settled_refl]].
    apply apply_fail_fast_free; [by eapply settled_free|]. by rewrite (moves_names _ _ _ _ (proj1 Hs2)). }
  cbn [mbind result_bind]. cbv beta iota.
  assert (∃ summary' db4, (if length siblings =? 0 then (summary, db3) else summarize_run_row db3 r) = (summary', db4) ∧
            same_rows db3 db4) as (summary' & db4 & -> & Hs4).
  { pose proof (summarize_same_rows db3 r). destruct (length siblings =? 0); [exists summary, db3; split; [done|apply same_rows_refl]|].
    destruct (summarize_run_row db3 r) as [x y]. by exists x, y. }
  destruct (retire_Ok now db4 r (job_name j) effective) as [l ->]. cbn [mbind result_bind]. cbv beta iota.
  assert (settled r db1 (with_lite db4 l)) as Hs5.
  { eapply settled_trans; [by apply settled_same|]. eapply settled_trans; [exact Hs3|].
    apply settled_same. eapply same_rows_trans; [exact Hs4|by eexists]. }
  assert (groups_free r (with_lite db4 l)) as Hf5 by (eapply settled_free; [exact Hs5|]; by eapply settled_free).
  rewrite release_job_free by done. cbn [mbind result_bind].
  assert (∃ db5, (if is_terminal summary'
                  then release_run c (with_lite db4 l) r ≫= λ db, Ok (emit_outbox db (RunCompleted r (status_str summary')))
                  else Ok (with_lite db4 l)) = Ok db5 ∧ same_rows (with_lite db4 l) db5) as (db5 & -> & Hs6).
  { destruct (is_terminal summary'); [rewrite release_run_free by done|]; eexists; (split; [done|]).
    - by eexists.
    - apply same_rows_refl. }
  cbn [mbind result_bind].
  assert (settled r db1 (emit_outbox db5 (JobCompleted r (job_name j) (status_str effective)))) as Hs7.
  { eapply settled_trans; [exact Hs5|]. apply settled_same. eapply same_rows_trans; [exact Hs6|by eexists]. }
  do 2 eexists. split_and!; [done|exact (settled_trans _ _ _ _ Hs1 Hs7)|].
  intros d Hd Hn. destruct (moves_row_r _ _ _ _ (proj1 Hs7) d Hd) as (d1 & Hd1 & Hk & Hcl).
  apply not_true_iff_false. intros Ho%(closes_open _ _ Hcl). apply not_false_iff_true in Ho. apply Ho.
  apply (refresh_closed r (job_name j) effective (job_base_id j) db d1 Heff Hd1). by rewrite <-(same_name _ _ Hk).
Qed.

(** ** One candidate of a pass *)

Section pass.
Context (inputs : SweepInputs num Conc) (c : Cascade) (r : string).

Definition decide_job graph j : option DependencyDecision :=
  dependency_decision inputs graph (declared_needs (job_detail j)) (spec_if (job_detail j)) (spec_context (job_detail j)).

(** A step of the sweep for the candidate [j]: rows close, and its own row may
    leave the blocked state for another queue. *)
Definition cstep graph j (d e : JobRow) : Prop :=
  closes d e ∨
  job_name d = job_name j ∧ decide_job graph j = Some DRun ∧ (queue_ok d → queue_ok e) ∧ job_queue_state e ≠ "blocked".

Lemma queue_ok_same j d : same_state j d → queue_ok j → queue_ok d.
Proof. unfold queue_ok, open_row. intros [-> ->]. done. Qed.

(** Whatever its status, a row may queue for its expansion. *)
Lemma expansion_queue_ok j d : job_status d = job_status j → job_queue_state d ∈ ["pending_expansion"; "expanding"] →
  queue_ok j → queue_ok d.
Proof.
  intros Hs Hq. unfold queue_ok, open_row. rewrite Hs. set (q := job_queue_state d) in *.
  assert (q = "pending_expansion" ∨ q = "expanding") as [-> | ->]
    by (apply elem_of_cons in Hq as [?|Hq]; [by left|right]; by apply list_elem_of_singleton in Hq).
  all: repeat case_match; [done|intros [? _]; split; [done|]|intros _]; apply (bool_decide_unpack _); by vm_compute.
Qed.

Lemma closes_queue_ok j d : closes j d → queue_ok j → queue_ok d.
Proof.
  intros [Hs|(_ & Hc & Hq)]; [by apply queue_ok_same|]. intros _. unfold queue_ok. rewrite Hc, Hq. by left.
Qed.

Lemma closes_not_blocked j d : closes j d → job_queue_state j ≠ "blocked" → job_queue_state d ≠ "blocked".
Proof. intros [[_ ->]|(_ & _ & ->)]; done. Qed.

Lemma cstep_trans graph j d1 d2 d3 : same_key d1 d2 → cstep graph j d1 d2 → cstep graph j d2 d3 → cstep graph j d1 d3.
Proof.
  intros Hk [Hc1|(Hn & Hd & Hq & Hb)] [Hc2|(Hn2 & Hd2 & Hq2 & Hb2)].
  - left. by eapply closes_trans.
  - right. split_and!; [by rewrite <-(same_name _ _ Hk)|done| |done]. eauto using closes_queue_ok.
  - right. split_and!; eauto using closes_queue_ok, closes_not_blocked.
  - right. split_and!; auto.
Qed.

Definition stepped graph j db db' : Prop := moves r (cstep graph j) db db' ∧ (counts r db → counts r db').

Lemma stepped_trans graph j db1 db2 db3 : stepped graph j db1 db2 → stepped graph j db2 db3 → stepped graph j db1 db3.
Proof.
  intros [Hm Hc] [Hm' Hc']. split; [|auto]. eapply moves_trans; [|exact Hm|exact Hm'].
  intros j1 j2 j3 Hk _. by apply cstep_trans.
Qed.

Lemma stepped_settled graph j db db' : settled r db db' → stepped graph j db db'.
Proof. intros [Hm Hc]. split; [|done]. eapply moves_mono; [|exact Hm]. by left. Qed.

(** Changes that close no row and do not touch the count of a blocked one. *)
Lemma opening_counts (P : JobRow → JobRow → Prop) db db' :
  (∀ d e, P d e → (open_row d = true → open_row e = true) ∧
     (job_queue_state e = "blocked" → job_queue_state d = "blocked" ∧
        remaining_needs (job_detail e) = remaining_needs (job_detail d))) →
  moves r P db db' → counts r db → counts r db'.
Proof.
  intros HP Hm Hc Hcnt e He Hq. specialize (Hc Hcnt). destruct (moves_row_r _ _ _ _ Hm e He) as (d & Hd & Hk & HPe).
  destruct (HP d e HPe) as [Ho Hb]. destruct (Hb Hq) as [Hbd ->]. specialize (Hc d Hd Hbd).
  apply elem_of_rows_of in Hd as [_ Hr].
  destruct Hc as [? ?]. split; [done|]. etrans; [done|].
  exact (moves_open_needs_le _ _ _ _ Hm d e (λ x y Hxy, proj1 (HP x y Hxy)) Hk Hr).
Qed.

(** An update of the candidate's own row. *)
Lemma stepped_own graph j db f :
  job_run j = r →
  (∀ d, same_key d (f d) ∧ remaining_needs (job_detail (f d)) = remaining_needs (job_detail d)) →
  (∀ d, same_state d (f d) ∨
        decide_job graph j = Some DRun ∧ (open_row d = true → open_row (f d) = true) ∧ (queue_ok d → queue_ok (f d)) ∧
        job_queue_state (f d) ≠ "blocked") →
  stepped graph j db (alter_jobs (is_job (job_run j) (job_name j)) f db).
Proof.
  intros Hr Hk Hf.
  assert (moves r (λ d e, cstep graph j d e ∧ (open_row d = true → open_row e = true) ∧
     (job_queue_state e = "blocked" → job_queue_state d = "blocked" ∧
        remaining_needs (job_detail e) = remaining_needs (job_detail d))) db
     (alter_jobs (is_job (job_run j) (job_name j)) f db)) as Hm.
  { apply moves_alter.
    - intros d [Hdr Hdn]%is_job_true. destruct (Hk d) as [? ?]. split_and!; [done|congruence| | |].
      + destruct (Hf d) as [?|(? & ? & ? & ?)]; [by left; left|right]. by split_and!.
      + destruct (Hf d) as [?%same_state_open|(? & ? & ? & ?)]; [congruence|done].
      + destruct (Hf d) as [[_ ->]|(? & ? & ? & ?)]; [done|done].
    - intros d _ _. split_and!; [left; apply closes_refl|done|done]. }
  split; [eapply moves_mono; [|exact Hm]; by intros d e [? _]|].
  eapply opening_counts; [|exact Hm]. by intros d e [_ ?].
Qed.

Lemma stepped_refl graph j db : stepped graph j db db.
Proof. apply stepped_settled, settled_refl. Qed.

Lemma stepped_same graph j db db' : same_rows db db' → stepped graph j db db'.
Proof. intros Hs. by apply stepped_settled, settled_same. Qed.

Lemma stepped_free graph j db db' r' : stepped graph j db db' → groups_free r' db → groups_free r' db'.
Proof. intros [Hm _]. apply (moves_free _ _ _ _ Hm). Qed.

Lemma stepped_names graph j db db' : stepped graph j db db' → job_name <$> rows_of db' r = job_name <$> rows_of db r.
Proof. intros [Hm _]. apply (moves_names _ _ _ _ Hm). Qed.

(** What a step leaves of the candidate's own row. *)
Definition own j db (P : JobRow → Prop) : Prop := ∀ e, e ∈ rows_of db r → job_name e = job_name j → P e.

Lemma fail_job_spec graph o db j s :
  job_run j = r → groups_free r db → NoDup (job_name <$> rows_of db r) → is_terminal s = true →
  ∃ db', settle_job_row inputs c db j s = Ok db' ∧ stepped graph j db db' ∧ own j db' (λ e, open_row e = false) ∧
    fail_job inputs c o db j s = Ok (true, add_failed j o, db').
Proof.
  intros Hr Hf Hnd Hs. unfold fail_job, settle_job_row. rewrite Hr.
  destruct (settle_node_free c (in_now inputs) r (job_name j) s db Hf Hnd Hs) as (eff & db' & -> & Hset & Hown).
  exists db'. split_and!; [done|by apply stepped_settled|exact Hown|done].
Qed.

(** The rows a quiet step changes: the candidate's own one joins a queue. *)
Definition joins j (d e : JobRow) : Prop :=
  remaining_needs (job_detail e) = remaining_needs (job_detail d) ∧
  (same_state d e ∨ job_name d = job_name j ∧ open_row e = true ∧ job_queue_state e ∈ ["ready"; "held"]).

Definition quiet graph j db db' : Prop := stepped graph j db db' ∧ moves r (joins j) db db'.

Lemma joins_trans j d1 d2 d3 : same_key d1 d2 → joins j d1 d2 → joins j d2 d3 → joins j d1 d3.
Proof.
  intros Hk [Hr1 [[Hs1 Hq1]|(Hn & Ho & Hq)]] [Hr2 [[Hs2 Hq2]|(Hn2 & Ho2 & Hq2)]]; (split; [congruence|]).
  - left. split; congruence.
  - right. split_and!; [by rewrite <-(same_name _ _ Hk)|done..].
  - right. split_and!; [done|by rewrite (same_state_open d2)|by rewrite Hq2].
  - right. by split_and!.
Qed.

Lemma quiet_trans graph j db1 db2 db3 : quiet graph j db1 db2 → quiet graph j db2 db3 → quiet graph j db1 db3.
Proof.
  intros [Hs Hm] [Hs' Hm']. split; [by eapply stepped_trans|]. eapply moves_trans; [|exact Hm|exact Hm'].
  intros d1 d2 d3 Hk _. by apply joins_trans.
Qed.

Lemma quiet_refl graph j db : quiet graph j db db.
Proof. split; [apply stepped_refl|]. apply moves_refl. split; [done|by left]. Qed.

(** Writes on the candidate's row that keep its state. *)
Lemma quiet_write graph j db f :
  job_run j = r →
  (∀ d, same_key d (f d) ∧ remaining_needs (job_detail (f d)) = remaining_needs (job_detail d)) →
  (∀ d, same_state d (f d)) →
  quiet graph j db (alter_jobs (is_job (job_run j) (job_name j)) f db).
Proof.
  intros Hr Hk Hs. split; [apply stepped_own; auto|]. apply moves_alter; [|split; [done|by left]].
  intros d [Hdr _]%is_job_true. split_and!; [apply Hk|congruence|]. split; [apply Hk|by left].
Qed.

Lemma queued_ok (q s : string) j : q ∈ ["ready"; "held"] → s ∈ ["queued"; "pending"] →
  open_row (with_state q s j) = true ∧ queue_ok (with_state q s j) ∧ job_queue_state (with_state q s j) ≠ "blocked".
Proof.
  intros Hq Hs.
  assert ((q = "ready" ∨ q = "held") ∧ (s = "queued" ∨ s = "pending")) as [[-> | ->] [-> | ->]]
    by (rewrite !elem_of_cons in Hq, Hs; pose proof (not_elem_of_nil q); pose proof (not_elem_of_nil s); naive_solver);
  (split_and!; [done| |done]);
  match goal with |- queue_ok (with_state ?q ?s _) => change (s ∈ waiting_status ∧ q ∈ queued_states) end; split;
  apply (bool_decide_unpack _); by vm_compute.
Qed.

Lemma quiet_queue graph j db (q s : string) :
  job_run j = r → decide_job graph j = Some DRun → q ∈ ["ready"; "held"] → s ∈ ["queued"; "pending"] →
  quiet graph j db (set_queue db j q s) ∧ own j (set_queue db j q s) (λ e, job_queue_state e ∈ ["ready"; "held"]).
Proof.
  intros Hr Hd Hq Hs. change (set_queue db j q s) with (alter_jobs (is_job (job_run j) (job_name j)) (with_state q s) db).
  split; [split|].
  - apply stepped_own; [done|intros; split; [apply with_state_key|done]|]. intros d. right.
    destruct (queued_ok q s d Hq Hs) as (? & ? & ?). by split_and!.
  - apply moves_alter; [|split; [done|by left]]. intros d [Hdr Hdn]%is_job_true. split_and!; [apply with_state_key|congruence|].
    split; [done|right]. destruct (queued_ok q s d Hq Hs) as (? & ? & ?). by split_and!.
  - intros e He Hn. rewrite rows_of_alter in He by (intros; apply with_state_key).
    apply list_elem_of_fmap in He as (d & -> & [_ Hdr]%elem_of_rows_of).
    assert (is_job (job_run j) (job_name j) d = true) as ->; [|done].
    apply is_job_true. split; [congruence|]. revert Hn. by case_match.
Qed.

Definition leaves j db' : Prop := own j db' (λ e, open_row e = false ∨ job_queue_state e = "pending_expansion").
Definition joined j db' : Prop := own j db' (λ e, job_queue_state e ∈ ["ready"; "held"]).

(** What a candidate that may run comes to: something settled, or it queues. *)
Definition queued_post graph (flag : bool) j db (s : bool * SchedulingOutcome * Db) : Prop :=
  let '(flag', _, db') := s in
  stepped graph j db db' ∧ (flag' = true ∧ leaves j db' ∨ flag' = flag ∧ quiet graph j db db' ∧ joined j db').

Lemma queued_post_quiet graph flag j db db1 s : quiet graph j db db1 → queued_post graph flag j db1 s → queued_post graph flag j db s.
Proof.
  destruct s as [[flag' o] db']. intros Hq [Hs Hcase]. split; [eapply stepped_trans; [apply Hq|done]|].
  destruct Hcase as [?|(? & ? & ?)]; [by left|right]. split_and!; [done| |done]. by eapply quiet_trans.
Qed.

Lemma decide_job_key graph j d : same_key j d → decide_job graph d = decide_job graph j.
Proof. intros Hk. unfold decide_job. by rewrite (same_needs _ _ Hk), (same_if _ _ Hk), (same_context _ _ Hk). Qed.

Lemma queued_post_key graph flag j d db s : same_key j d → queued_post graph flag d db s → queued_post graph flag j db s.
Proof.
  intros Hk. unfold queued_post, stepped, quiet, stepped, cstep, joins, leaves, joined, own.
  by rewrite (decide_job_key graph j d Hk), (same_name _ _ Hk).
Qed.

Lemma admit_job_spec graph flag o db j :
  job_run j = r → groups_free r db → NoDup (job_name <$> rows_of db r) →
  spec_concurrency (job_detail j) = None → decide_job graph j = Some DRun →
  ∃ s, admit_job inputs c flag o db j = Ok s ∧ queued_post graph flag j db s.
Proof.
  intros Hr Hf Hnd Hc Hd. unfold admit_job. cbv zeta. case_match.
  - destruct (fail_job_spec graph o db j Failure Hr Hf Hnd eq_refl) as (db' & _ & Hs & Ho & ->).
    eexists. split; [done|]. split; [done|]. left. split; [done|]. intros e He Hn. left. by apply Ho.
  - unfold acquire_job_gate. rewrite Hc. cbn [mbind result_bind]. cbv beta iota.
    eexists. split; [done|]. destruct (quiet_queue graph j db "ready" "queued" Hr Hd) as [Hq Ho]; [by left|by left|].
    assert (quiet graph j db (enqueue_ready db j)) as Hq'.
    { eapply quiet_trans; [exact Hq|]. split; [apply stepped_same; by eexists|apply moves_rest; split; [done|by left]]. }
    split; [apply Hq'|]. right. split_and!; [done|done|exact Ho].
Qed.

Lemma set_gate_key g j : same_key j (with_detail (set_gate g) j).
Proof. by apply with_detail_key. Qed.

Lemma promote_job_spec graph flag o db j :
  job_run j = r → groups_free r db → NoDup (job_name <$> rows_of db r) →
  spec_concurrency (job_detail j) = None → decide_job graph j = Some DRun →
  ∃ s, promote_job inputs c flag o graph db j = Ok s ∧ queued_post graph flag j db s.
Proof.
  intros Hr Hf Hnd Hc Hd. unfold promote_job, hydrate_message. cbv zeta. cbv beta iota.
  set (labels := if runs_on_deferred _ then _ else _). set (x := in_hydrate inputs graph j).
  set (db1 := alter_jobs _ _ db). set (j1 := with_detail _ (with_runs_on labels j)).
  assert (same_key j j1) as Hk by by split.
  assert (quiet graph j db db1) as Hq1 by (apply quiet_write; [done|by intros d|by intros d]).
  assert (groups_free r db1) as Hf1 by (eapply stepped_free; [apply Hq1|done]).
  assert (NoDup (job_name <$> rows_of db1 r)) as Hnd1 by (by rewrite (stepped_names _ _ _ _ (proj1 Hq1))).
  assert (∀ g, quiet graph j1 db1 (write_gate db1 j1 g)) as Hgate.
  { intros g. apply quiet_write; [done| |done]. intros d. split; [apply set_gate_key|done]. }
  assert (decide_job graph j1 = Some DRun) as Hd1 by by rewrite (decide_job_key _ _ _ Hk).
  assert (∀ db2, quiet graph j1 db1 db2 →
    ∃ s, admit_job inputs c flag o db2 j1 = Ok s ∧ queued_post graph flag j1 db1 s) as Hadmit.
  { intros db2 Hq2. destruct (admit_job_spec graph flag o db2 j1) as (s & Hs & Hp); [done| | |done..|].
    - eapply stepped_free; [apply Hq2|done].
    - by rewrite (stepped_names _ _ _ _ (proj1 Hq2)).
    - exists s. split; [done|]. by eapply queued_post_quiet. }
  assert (∀ res : result ControlError (bool * SchedulingOutcome * Db), (∃ s, res = Ok s ∧ queued_post graph flag j1 db1 s) → ∃ s, res = Ok s ∧ queued_post graph flag j db s) as Hback.
  { intros res (s & Hs & Hp). exists s. split; [done|]. eapply queued_post_quiet; [exact Hq1|]. by eapply queued_post_key. }
  apply Hback. clear Hback. destruct (hydrated_environment x) as [env|]; [|apply Hadmit, quiet_refl].
  destruct (evaluate_environment_gate _ _ _ _ _) as [verdict gate]. destruct verdict.
  - apply Hadmit. case_match; [apply Hgate|apply quiet_refl].
  - eexists. split; [done|].
    destruct (quiet_queue graph j1 (write_gate db1 j1 gate) "held" "pending") as [Hq Ho];
      [done|done|by right; left|by right; left|].
    assert (quiet graph j1 db1 (set_queue (write_gate db1 j1 gate) j1 "held" "pending")) as Hq2
      by (eapply quiet_trans; [apply Hgate|done]).
    split; [apply Hq2|]. right. by split_and!.
  - destruct (fail_job_spec graph o (write_gate db1 j1 gate) j1 Failure) as (db' & _ & Hs & Ho & ->); [done| | |done|].
    + eapply stepped_free; [apply (Hgate gate)|done].
    + by rewrite (stepped_names _ _ _ _ (proj1 (Hgate gate))).
    + eexists. split; [done|]. split; [eapply stepped_trans; [apply Hgate|done]|]. left. split; [done|].
      intros e He Hn. left. by apply Ho.
Qed.

Lemma queue_expansion_spec graph db j :
  job_run j = r → decide_job graph j = Some DRun →
  stepped graph j db (queue_expansion db j) ∧ leaves j (queue_expansion db j).
Proof.
  intros Hr Hd. unfold queue_expansion. set (f := λ d : JobRow, with_state "pending_expansion" (job_status d) d). split.
  - eapply stepped_trans; [|apply stepped_same; by eexists]. apply stepped_own; [done|by intros d|].
    intros d. right. split_and!; [done|done| |done]. apply expansion_queue_ok; [done|by left].
  - intros e He Hn. right.
    change (e ∈ rows_of (alter_jobs (is_job (job_run j) (job_name j)) f db) r) in He.
    rewrite rows_of_alter in He by (intros; apply with_state_key).
    apply list_elem_of_fmap in He as (d & -> & [_ Hdr]%elem_of_rows_of).
    assert (is_job (job_run j) (job_name j) d = true) as ->; [|done].
    apply is_job_true. split; [congruence|]. revert Hn. by case_match.
Qed.

Definition job_free j : Prop := spec_concurrency (job_detail j) = None ∧
  (spec_reusable_call (job_detail j) = None ∨ spec_reusable_call (job_detail j) = Some (None, None)).

Lemma promote_caller_free o db j : job_run j = r → groups_free r db → job_free j →
  promote_caller inputs c o db j = Ok (true, o, queue_expansion db j).
Proof.
  intros Hr [_ Hw _] [_ Hcall]. unfold promote_caller.
  assert (jobset_parked db (job_run j) (job_name j) = false) as ->.
  { unfold jobset_parked. destruct (find _ _) as [[r' js]|] eqn:Hfind; [|done].
    apply find_some in Hfind as [_ [-> _]%bool_decide_eq_true]. apply not_true_iff_false. rewrite existsb_exists.
    intros (w & Hin%list_elem_of_In & Hb%bool_decide_eq_true). rewrite Forall_forall in Hw.
    apply (Hw w Hin). by rewrite Hb. }
  unfold ensure_jobset, caller_jobset_gates. by destruct Hcall as [-> | ->].
Qed.

(** Why a candidate stays where it is. *)
Definition stays graph db j : Prop :=
  decide_job graph j = Some DWait ∨
  decide_job graph j = Some DRun ∧ spec_reusable_call (job_detail j) = None ∧
    spec_deferred_matrix (job_detail j) = None ∧ under_max_parallel db j = false.

Definition candidate_post graph (flag : bool) j db (s : bool * SchedulingOutcome * Db) : Prop :=
  queued_post graph flag j db s ∨ s.1.1 = flag ∧ s.2 = db ∧ stays graph db j.

Lemma dependency_decision_total graph j : ∃ a, decide_job graph j = Some a.
Proof.
  unfold decide_job, dependency_decision. repeat case_match; try by eexists.
  destruct (ancestor_statuses_cases graph (declared_needs (job_detail j))) as (l & -> & _). by eexists.
Qed.

Lemma promote_candidate_spec graph flag o db j :
  job_run j = r → groups_free r db → NoDup (job_name <$> rows_of db r) → job_free j →
  ∃ s, promote_candidate inputs c flag o graph db j = Ok s ∧ candidate_post graph flag j db s.
Proof.
  intros Hr Hf Hnd Hfree. unfold promote_candidate. cbv zeta.
  change (dependency_decision inputs graph _ _ _) with (decide_job graph j).
  destruct (dependency_decision_total graph j) as [a Hd]. rewrite Hd. destruct a.
  - eexists. split; [done|]. right. split_and!; [done|done|by left].
  - case_bool_decide as Hcall.
    { rewrite promote_caller_free by done. eexists. split; [done|]. left.
      destruct (queue_expansion_spec graph db j Hr Hd). split; [done|by left]. }
    case_bool_decide as Hdef.
    { eexists. split; [done|]. left. destruct (queue_expansion_spec graph db j Hr Hd). split; [done|by left]. }
    destruct (under_max_parallel db j) eqn:Hmax.
    + destruct (promote_job_spec graph flag o db j Hr Hf Hnd (proj1 Hfree) Hd) as (s & Hs & Hp). exists s. split; [done|by left].
    + eexists. split; [done|]. right. split_and!; [done|done|right]. rewrite <-!eq_None_not_Some in *. by split_and!.
  - destruct (fail_job_spec graph o db j Skipped Hr Hf Hnd eq_refl) as (db' & -> & Hs & Ho & _).
    eexists. split; [done|]. left. split; [done|]. left. split; [done|]. intros e He Hn. left. by apply Ho.
  - destruct (fail_job_spec graph o db j Failure Hr Hf Hnd eq_refl) as (db' & _ & Hs & Ho & ->).
    eexists. split; [done|]. left. split; [done|]. left. split; [done|]. intros e He Hn. left. by apply Ho.
Qed.

End pass.

End progress.
