(* ===== verification/LiteSweep.v ===== *)
(** * The sweep of a run: termination, completeness and needs

    Passes of [promote_run] in a run without concurrency groups, on top of the
    steps of [LiteProgress]. *)
From S2P Require Export LiteProgress.

#[local] Set Default Proof Using "Type".

Section sweep.
Context {num Conc : Type} `{NumberOps num, JsonCodec num, UnicodeCase, UnicodeLower, LeaseCodec} {CK : Counted}.
Abbreviation JobRow := (JobRow string (JobDetail num Conc)).
Abbreviation Db := (Db string (JobDetail num Conc) Tables).
Abbreviation Cascade := (Cascade (num:=num) (Conc:=Conc)).
Context (inputs : SweepInputs num Conc) (c : Cascade) (r : string).
Implicit Types (db : Db) (j d e : JobRow) (job : string) (graph : RunRecord num).

Lemma Forall2_elem {A B} (R : A → B → Prop) l k : Forall2 R l k → Forall2 (λ x y, R x y ∧ x ∈ l ∧ y ∈ k) l k.
Proof.
  intros HR. apply Forall2_same_length_lookup. split; [by eapply Forall2_length|]. intros i x y Hx Hy.
  split_and!; [by eapply Forall2_lookup_lr|by eapply list_elem_of_lookup_2..].
Qed.

Lemma moves_elem (P : JobRow → JobRow → Prop) db db' :
  moves r P db db' → moves r (λ j d, P j d ∧ j ∈ rows_of db r ∧ d ∈ rows_of db' r) db db'.
Proof.
  intros [? ? ? Hrows]. split; [done..|]. eapply Forall2_impl; [by apply Forall2_elem|].
  intros j d ((Hk & Ho & HP) & Hj & Hd). split_and!; [done|done|]. intros Hr. split_and!; [auto|..];
    apply elem_of_rows_of; (split; [done|]); [done|]. by rewrite (same_run _ _ Hk).
Qed.

(** ** A pass *)

(** From the start of a pass: a row keeps its state, closes, or was blocked with
    needs that let it run and has joined a queue. *)
Definition swept graph j d : Prop :=
  same_state j d ∨
  open_row j = true ∧ queue_ok d ∧ job_queue_state d ≠ "blocked" ∧
    (open_row d = false ∧ job_queue_state d = "none" ∨
     job_queue_state j = "blocked" ∧ decide_job inputs graph j = Some DRun).

Definition pass_candidate db0 j : Prop := j ∈ rows_of db0 r ∧ job_queue_state j = "blocked" ∧ job_free j.

Lemma swept_refl graph j : swept graph j j.
Proof. by left. Qed.

Lemma blocked_open j : queue_ok j → job_queue_state j = "blocked" → open_row j = true ∧ job_status j ≠ "in_progress".
Proof.
  unfold queue_ok. intros Hok Hq. rewrite Hq in Hok. destruct (open_row j).
  - split; [done|]. unfold str_eqb in Hok. by case_bool_decide.
  - exfalso. repeat (apply elem_of_cons in Hok as [Hok|Hok]; [done|]). by apply not_elem_of_nil in Hok.
Qed.

Lemma swept_step db0 graph j0 db db' :
  run_wf r db0 → pass_candidate db0 j0 → queue_ok j0 → open_row j0 = true → moves r (swept graph) db0 db →
  stepped inputs r graph j0 db db' → moves r (swept graph) db0 db'.
Proof.
  intros Hwf (Hin & Hblk & _) Hok0 Hopen Hm [Hs _]. apply moves_elem in Hm. eapply moves_trans; [|exact Hm|exact Hs].
  intros j d e Hk Hk' [Hsw [Hj _]] [Hc|(Hn & Hdec & Hok & Hnb)].
  - destruct Hc as [Hst|(Ho & Hcl & Hq)].
    + destruct Hsw as [Hjd|(Hoj & Hok & Hnb & Hcase)].
      * left. destruct Hst, Hjd. split; congruence.
      * right. destruct Hst as [Hst Hqe]. split_and!; [done|by eapply queue_ok_same|by rewrite Hqe|].
        rewrite (same_state_open d e), Hqe by done. done.
    + right. split_and!; [|unfold queue_ok; rewrite Hcl, Hq; by left|by rewrite Hq|by left].
      destruct Hsw as [<-%same_state_open|(? & _)]; done.
  - assert (j = j0) as ->.
    2:{ right. split_and!; [done| |done|right; by split]. apply Hok. destruct Hsw as [Hsw|(_ & ? & _)]; [|done].
        by eapply queue_ok_same. }
    apply (name_unique r db0); [apply Hwf|done|done|]. by rewrite <-Hn, (same_name _ _ Hk).
Qed.

(** Without anything settled, a pass only fills the queues. *)
Definition calm j d : Prop :=
  remaining_needs (job_detail d) = remaining_needs (job_detail j) ∧
  (same_state j d ∨
   job_queue_state j = "blocked" ∧ job_status j ≠ "in_progress" ∧ open_row j = true ∧ open_row d = true ∧
     job_queue_state d ∈ ["ready"; "held"]).

Lemma calm_refl j : calm j j.
Proof. split; [done|by left]. Qed.

Definition keeps_out j d : Prop := job_queue_state j ≠ "blocked" → job_queue_state d ≠ "blocked".

Lemma in_queue_not_blocked (q : string) : q ∈ ["ready"; "held"] → q ≠ "blocked".
Proof. intros Hq ->. repeat (apply elem_of_cons in Hq as [Hq|Hq]; [done|]). by apply not_elem_of_nil in Hq. Qed.

Lemma calm_trans j1 j2 j3 : calm j1 j2 → calm j2 j3 → calm j1 j3.
Proof.
  intros [Hr [[Hs Hq]|(Hb & Hs & Ho & Ho2 & Hq)]] [Hr' [[Hs' Hq']|(Hb' & Hs' & Ho' & Ho2' & Hq')]];
    (split; [congruence|]).
  - left. split; congruence.
  - right. split_and!; [congruence|congruence| |done..]. by rewrite <-(same_state_open j1 j2).
  - right. split_and!; [done..| |by rewrite Hq']. by rewrite (same_state_open j2 j3).
  - by apply in_queue_not_blocked in Hq.
Qed.

Lemma calm_open j d : calm j d → open_row d = open_row j.
Proof. intros [_ [?%same_state_open|(_ & _ & ? & ? & _)]]; congruence. Qed.

Lemma calm_active (base : string) j d : same_key j d → calm j d → active_leg r base j = true → active_leg r base d = true.
Proof.
  intros Hk. unfold active_leg. rewrite (same_run _ _ Hk), (same_base _ _ Hk), !andb_true_iff.
  intros [_ [[-> ->]|(Hb & Hs & _)]]; [done|]. rewrite Hb. unfold str_eqb at 2.
  rewrite (bool_decide_eq_false_2 (job_status j = "in_progress")) by done.
  by intros [_ Hx].
Qed.

Lemma filter_length_le {A} (p q : A → bool) (R : A → A → Prop) l k :
  (∀ x y, R x y → p x = true → q y = true) → Forall2 R l k →
  length (List.filter p l) <= length (List.filter q k).
Proof.
  intros Hpq. induction 1 as [|x y l k Hxy _ IH]; simpl; [done|].
  destruct (p x) eqn:Hp; [rewrite (Hpq x y Hxy Hp); simpl|destruct (q y); simpl]; auto with arith.
Qed.

Lemma calm_max_parallel j db db' : job_run j = r → moves r calm db db' →
  under_max_parallel db j = false → under_max_parallel db' j = false.
Proof.
  intros Hr Hm. unfold under_max_parallel. destruct (job_max_parallel j) as [limit|]; [|done].
  rewrite !N.ltb_ge, Hr. intros Hle. etrans; [exact Hle|]. apply N2Z.inj_le. rewrite !nat_N_Z. apply Nat2Z.inj_le.
  eapply filter_length_le; [|apply (moved_rows _ _ _ _ Hm)]. intros d e (Hk & Ho & Hc).
  destruct (decide (job_run d = r)) as [Hd|Hd]; [by apply calm_active, Hc|by rewrite (Ho Hd)].
Qed.

Lemma calm_stays graph j db db' : job_run j = r → moves r calm db db' →
  stays inputs graph db j → stays inputs graph db' j.
Proof.
  intros Hr Hm [Hw|(Hd & Hc & Hdef & Hmax)]; [by left|right]. split_and!; [done..|]. by eapply calm_max_parallel.
Qed.

Lemma calm_joined j db db' : moves r calm db db' → joined r j db → joined r j db'.
Proof.
  intros Hm Hj e He Hn. destruct (moves_row_r _ _ _ _ Hm e He) as (d & Hd & Hk & [_ [[_ ->]|(Hb & _)]]).
  - apply Hj; [done|]. by rewrite <-(same_name _ _ Hk).
  - exfalso. apply (in_queue_not_blocked (job_queue_state d)); [|done]. apply Hj; [done|]. by rewrite <-(same_name _ _ Hk).
Qed.

Lemma cstep_keeps_out graph j d e : cstep inputs graph j d e → keeps_out d e.
Proof. intros [Hc|(_ & _ & _ & Hb)]; [intros ?; by apply (closes_not_blocked d)|by intros _]. Qed.

Lemma keeps_out_trans db1 db2 db3 : moves r keeps_out db1 db2 → moves r keeps_out db2 db3 → moves r keeps_out db1 db3.
Proof. apply moves_trans. intros j1 j2 j3 _ _. unfold keeps_out. auto. Qed.

Definition out j db : Prop := own r j db (λ e, job_queue_state e ≠ "blocked").

Lemma keeps_out_own j db db' : moves r keeps_out db db' → out j db → out j db'.
Proof.
  intros Hm Ho e He Hn. destruct (moves_row_r _ _ _ _ Hm e He) as (d & Hd & Hk & Hp). apply Hp, Ho; [done|].
  by rewrite <-(same_name _ _ Hk).
Qed.

(** A candidate that settled is no longer blocked. *)
Lemma leaves_out db0 graph j db : run_wf r db0 → pass_candidate db0 j → open_row j = true →
  moves r (swept graph) db0 db → leaves r j db → out j db.
Proof.
  intros Hwf (Hin & _ & _) Ho Hm Hl e He Hn. destruct (Hl e He Hn) as [Hcl| ->]; [|done].
  apply moves_elem in Hm. destruct (moves_row_r _ _ _ _ Hm e He) as (d & Hd & Hk & Hsw & _).
  assert (d = j) as ->.
  { apply (name_unique r db0); [apply Hwf|done|done|]. by rewrite <-(same_name _ _ Hk). }
  destruct Hsw as [Hs%same_state_open|(_ & _ & ? & _)]; [congruence|done].
Qed.

(** One candidate, as seen from the start of the pass. *)
Lemma pass_step db0 graph j db flag o :
  run_wf r db0 → pass_candidate db0 j → queue_ok j →
  moves r (swept graph) db0 db → counts r db → groups_free r db →
  (flag = false → own r j db (same_state j)) →
  ∃ flag1 o1 db1, promote_candidate inputs c flag o graph db j = Ok (flag1, o1, db1) ∧
    moves r (swept graph) db0 db1 ∧ counts r db1 ∧ groups_free r db1 ∧ moves r keeps_out db db1 ∧
    (flag = true → flag1 = true) ∧ (flag1 = true → flag = true ∨ out j db1) ∧
    (flag1 = false → moves r calm db db1 ∧ moves r (joins j) db db1 ∧ (joined r j db1 ∨ stays inputs graph db1 j)).
Proof.
  intros Hwf Hcand Hok Hm Hc Hf Hown. pose proof Hcand as (Hin & Hblk & Hfree).
  destruct (blocked_open j Hok Hblk) as [Hopen Hnip].
  pose proof (proj2 (proj1 (elem_of_rows_of db0 r j) Hin)) as Hr.
  assert (NoDup (job_name <$> rows_of db r)) as Hnd by (rewrite (moves_names _ _ _ _ Hm); apply Hwf).
  destruct (promote_candidate_spec inputs c r graph flag o db j Hr Hf Hnd Hfree) as ([[flag1 o1] db1] & -> & Hpost).
  exists flag1, o1, db1. split; [done|].
  assert (stepped inputs r graph j db db1) as Hst.
  { destruct Hpost as [[? _]|(_ & Hdb & _)]; [done|]. simpl in Hdb. rewrite Hdb. apply stepped_refl. }
  assert (moves r (swept graph) db0 db1) as Hm1 by by eapply swept_step.
  split_and!; [done|by apply Hst|by eapply stepped_free|
    by eapply moves_mono; [apply cstep_keeps_out|apply Hst]|..].
  - intros ->. by destruct Hpost as [[_ [[-> _]|[-> _]]]|[? _]].
  - intros ->. destruct Hpost as [[_ [[_ Hl]|[<- _]]]|[<- _]]; [right|by left..]. by eapply leaves_out.
  - intros ->. destruct Hpost as [[_ [[? _]|(Hfl & [_ Hq] & Hj)]]|(Hfl & Hdb & Hs)]; [done| |].
    + split_and!; [|done|by left]. eapply moves_mono; [|apply (moves_elem _ _ _ Hq)].
      intros d e [[Hrem [?|(Hn & Ho & Hqe)]] [Hd _]]; (split; [done|]); [by left|right].
      destruct (Hown (eq_sym Hfl) d Hd Hn) as [Hsd Hqd]. split_and!; [congruence|congruence| |done..].
      by rewrite (same_state_open j d).
    + simpl in Hdb. rewrite Hdb. split_and!; [apply moves_refl, calm_refl|apply moves_refl; split; [done|by left]|by right].
Qed.

Lemma same_state_trans j d e : same_state j d → same_state d e → same_state j e.
Proof. intros [Hs Hq] [Hs' Hq']. split; congruence. Qed.

Lemma promote_pass_spec db0 graph js : run_wf r db0 → ∀ db flag o,
  NoDup (job_name <$> js) → Forall (λ j, pass_candidate db0 j ∧ queue_ok j) js →
  moves r (swept graph) db0 db → counts r db → groups_free r db →
  (flag = false → Forall (λ j, own r j db (same_state j)) js) →
  ∃ flag' o' db', promote_pass inputs c graph (flag, o, db) js = Ok (flag', o', db') ∧
    moves r (swept graph) db0 db' ∧ counts r db' ∧ groups_free r db' ∧ moves r keeps_out db db' ∧
    (flag = true → flag' = true) ∧ (flag' = true → flag = true ∨ ∃ j, j ∈ js ∧ out j db') ∧
    (flag' = false → moves r calm db db' ∧ Forall (λ j, joined r j db' ∨ stays inputs graph db' j) js).
Proof.
  intros Hwf. induction js as [|j js IH]; intros db flag o Hnd Hjs Hm Hc Hf Hown.
  { exists flag, o, db. split_and!; [done..|apply moves_refl; by intros ? ?|done|by left|].
    intros _. split; [apply moves_refl, calm_refl|done]. }
  apply Forall_cons in Hjs as [[Hcand Hok] Hjs]. apply NoDup_cons in Hnd as [Hnotin Hnd].
  pose proof (proj2 (proj1 (elem_of_rows_of db0 r j) (proj1 Hcand))) as Hr.
  destruct (pass_step db0 graph j db flag o) as (flag1 & o1 & db1 & Hs & Hm1 & Hc1 & Hf1 & Hk1 & Hft & Htr & Hquiet); [done..| |].
  { intros Hfl. by apply Forall_cons in Hown as [? _]; [|done]. }
  cbn [promote_pass]. rewrite Hs. cbn [mbind result_bind].
  destruct (IH db1 flag1 o1) as (flag' & o' & db' & -> & Hm' & Hc' & Hf' & Hk' & Hft' & Htr' & Hq'); [done..| |].
  { intros ->. destruct (Hquiet eq_refl) as (_ & Hj & _). assert (flag = false) as -> by (destruct flag; [by discriminate Hft|done]).
    specialize (Hown eq_refl). apply Forall_cons in Hown as [_ Hown]. apply Forall_forall. intros x Hx e He Hn.
    rewrite Forall_forall in Hown. destruct (moves_row_r _ _ _ _ Hj e He) as (d & Hd & Hk & [_ [Hde|(Hnd' & _)]]).
    - eapply same_state_trans; [|exact Hde]. apply (Hown x Hx); [done|]. by rewrite <-(same_name _ _ Hk).
    - exfalso. apply Hnotin. apply list_elem_of_fmap. exists x. split; [|done]. by rewrite <-Hn, (same_name _ _ Hk). }
  exists flag', o', db'. split_and!; [done..|by eapply keeps_out_trans|auto| |].
  - intros Hfl'. destruct (Htr' Hfl') as [Hfl1|(x & Hx & Hout)]; [|right; exists x; split; [by right|done]].
    destruct (Htr Hfl1) as [?|Hout]; [by left|right]. exists j. split; [by left|]. by eapply keeps_out_own.
  - intros Hfl'. destruct (Hq' Hfl') as [Hcalm' Hall]. assert (flag1 = false) as Hfl1 by (destruct flag1; [by rewrite Hft' in Hfl'|done]).
    destruct (Hquiet Hfl1) as (Hcalm & _ & Hcase). split; [eapply moves_trans; [|exact Hcalm|exact Hcalm'];
      intros j1 j2 j3 _ _; apply calm_trans|]. constructor; [|done].
    destruct Hcase as [Hjn|Hst]; [left; by eapply calm_joined|right; by eapply calm_stays].
Qed.

(** ** The dependency graph along a move *)

(** The same jobs and edges, with statuses related by [R]. *)
Record graph_rel (R : ExecutionStatus → ExecutionStatus → Prop) (g g' : RunRecord num) : Prop := mk_graph_rel {
  rel_bases : job_base_ids g' = job_base_ids g;
  rel_needs : job_needs g' = job_needs g;
  rel_outputs : job_outputs g' = job_outputs g;
  rel_jobs : ∀ id, option_Forall2 R (jobs g !! id) (jobs g' !! id);
}.

Lemma list_to_map_rel {A} (R : A → A → Prop) (l l' : list (string * A)) :
  Forall2 (λ x y, x.1 = y.1 ∧ R x.2 y.2) l l' →
  ∀ id, option_Forall2 R ((list_to_map l : gmap string A) !! id) ((list_to_map l' : gmap string A) !! id).
Proof.
  induction 1 as [|[k x] [k' y] l l' [Hk HR] _ IH]; intros id; [constructor|]. simpl in *. subst k'.
  destruct (decide (k = id)) as [->|Hne].
  - rewrite !lookup_insert_eq. by constructor.
  - by rewrite !lookup_insert_ne.
Qed.

Lemma fmap_Forall2_eq {A B C} (R : A → B → Prop) (f : A → C) (g : B → C) l k :
  (∀ x y, R x y → f x = g y) → Forall2 R l k → f <$> l = g <$> k.
Proof. intros Hfg. induction 1 as [|x y l k Hxy _ IH]; [done|]. rewrite !fmap_cons. f_equal; auto. Qed.

Lemma omap_Forall2_eq {A B C} (R : A → B → Prop) (f : A → option C) (g : B → option C) l k :
  (∀ x y, R x y → f x = g y) → Forall2 R l k → omap f l = omap g k.
Proof.
  intros Hfg. induction 1 as [|x y l k Hxy _ IH]; [done|]. cbn. rewrite (Hfg x y Hxy).
  destruct (g y); [f_equal|]; apply IH.
Qed.

Lemma moves_graph (P : JobRow → JobRow → Prop) (R : ExecutionStatus → ExecutionStatus → Prop) db db' :
  (∀ j d, P j d → R (status_parse (job_status j)) (status_parse (job_status d))) →
  moves r P db db' → graph_rel R (run_graph db r) (run_graph db' r).
Proof.
  intros HR Hm. pose proof (moves_live_rows _ _ _ _ Hm) as Hlive. pose proof (moves_rows_of _ _ _ _ Hm) as Hrows.
  split; simpl.
  - f_equal. symmetry. eapply fmap_Forall2_eq; [|exact Hlive]. intros j d [Hk _].
    by rewrite (same_name _ _ Hk), (same_base _ _ Hk).
  - f_equal. symmetry. eapply omap_Forall2_eq; [|exact Hrows]. intros j d [Hk _].
    by rewrite (same_name _ _ Hk), (same_needs _ _ Hk).
  - f_equal. symmetry. eapply omap_Forall2_eq; [|exact Hlive]. intros j d [Hk _].
    by rewrite (same_name _ _ Hk), (same_outputs _ _ Hk).
  - apply list_to_map_rel, Forall2_fmap. eapply Forall2_impl; [exact Hlive|]. intros j d [Hk HP]. split; simpl.
    + by rewrite (same_name _ _ Hk).
    + by apply HR.
Qed.

Lemma sorted_unique_keys {A B} (m : gmap string A) (m' : gmap string B) :
  (∀ k, is_Some (m !! k) ↔ is_Some (m' !! k)) → btree_keys m = btree_keys m'.
Proof.
  intros Hk. apply (StronglySorted_unique String.le).
  - apply Sorted_StronglySorted; [apply _|apply Sorted_btree_keys].
  - apply Sorted_StronglySorted; [apply _|apply Sorted_btree_keys].
  - apply NoDup_Permutation; [apply NoDup_btree_keys..|]. intros k. by rewrite !elem_of_btree_keys.
Qed.

Section related.
Context (R : ExecutionStatus → ExecutionStatus → Prop) (g g' : RunRecord num) (Hg : graph_rel R g g').
#[local] Set Default Proof Using "Type Hg".

Lemma rel_matching (need : string) : matching_need_ids g' need = matching_need_ids g need.
Proof.
  unfold matching_need_ids. rewrite (rel_bases _ _ _ Hg), (sorted_unique_keys (jobs g') (jobs g)); [done|].
  intros k. destruct (rel_jobs _ _ _ Hg k); rewrite ?is_Some_alt; naive_solver.
Qed.

Lemma rel_matching_statuses (need : string) : Forall2 R (matching_need_statuses g need) (matching_need_statuses g' need).
Proof.
  unfold matching_need_statuses. rewrite rel_matching. induction (matching_need_ids g need) as [|id ids IH]; [constructor|].
  simpl. destruct (rel_jobs _ _ _ Hg id); [by constructor|done].
Qed.

Lemma rel_direct (needs : list string) : Forall2 R (direct_statuses g needs) (direct_statuses g' needs).
Proof.
  induction needs as [|n ns IH]; [constructor|]. unfold direct_statuses. simpl. apply Forall2_app; [|done].
  apply rel_matching_statuses.
Qed.

Lemma rel_edges (id : string) : need_edges g' id = need_edges g id.
Proof.
  unfold need_edges. rewrite (rel_needs _ _ _ Hg). induction (default [] _) as [|n ns IH]; [done|]. simpl.
  by rewrite rel_matching, IH.
Qed.

Lemma rel_direct_needs (needs : list string) : direct_needs g' needs = direct_needs g needs.
Proof. unfold direct_needs. induction needs as [|n ns IH]; [done|]. simpl. by rewrite rel_matching, IH. Qed.

End related.

(** Statuses that agree, up to which kind of open status they are. *)
Definition same_verdict (s t : ExecutionStatus) : Prop :=
  s = t ∨ is_terminal s = false ∧ is_terminal t = false.

Lemma has_status_rel (t : ExecutionStatus) l k : is_terminal t = true → Forall2 same_verdict l k →
  has_status t k = has_status t l.
Proof.
  intros Ht Hlk. apply eq_true_iff_eq. rewrite !has_status_true. induction Hlk as [|x y l k Hxy _ IH]; [done|].
  rewrite !elem_of_cons, IH. destruct Hxy as [->|[Hx Hy]]; [done|].
  split; (intros [<-|?]; [congruence|by right]).
Qed.

Lemma all_success_rel l k : Forall2 same_verdict l k → all_status Success k = all_status Success l.
Proof.
  intros Hlk. apply eq_true_iff_eq. rewrite !all_status_true, <-!Forall_forall.
  induction Hlk as [|x y l k Hxy _ IH]; [done|]. rewrite !Forall_cons, IH.
  destruct Hxy as [->|[Hx Hy]]; [done|]. split; intros [-> _]; done.
Qed.

Lemma aggregate_rel l k : Forall2 same_verdict l k → aggregate_need_status k = aggregate_need_status l.
Proof.
  intros Hlk. unfold aggregate_need_status.
  rewrite !(has_status_rel _ l k), (all_success_rel l k), (Forall2_length _ _ _ Hlk) by done. done.
Qed.

Lemma open_rel l k : Forall2 same_verdict l k →
  existsb (λ s, negb (is_terminal s)) k = existsb (λ s, negb (is_terminal s)) l.
Proof.
  intros Hlk. symmetry. eapply existsb_Forall2; [|exact Hlk]. by intros s t [->|[-> ->]].
Qed.

Section verdict.
Context (g g' : RunRecord num) (Hg : graph_rel same_verdict g g').
#[local] Set Default Proof Using "Type Hg".

Lemma ancestor_loop_rel fuel : ∀ pending visited l k, Forall2 same_verdict l k →
  option_Forall2 (Forall2 same_verdict) (ancestor_loop fuel g pending visited l) (ancestor_loop fuel g' pending visited k).
Proof.
  induction fuel as [|fuel IH]; intros pending visited l k Hlk; [constructor|]. simpl.
  destruct pending as [|id pending]; [by constructor|]. destruct (decide (id ∈ visited)); [by apply IH|].
  rewrite (rel_edges _ _ _ Hg). apply IH, Forall2_app; [done|].
  destruct (rel_jobs _ _ _ Hg id); [constructor; [done|constructor]|constructor].
Qed.

Lemma unvisited_rel : unvisited_edges g' ∅ = unvisited_edges g ∅.
Proof.
  unfold unvisited_edges. rewrite (sorted_unique_keys (jobs g') (jobs g)).
  - induction (btree_keys (jobs g)) as [|id ids IH]; [done|]. simpl. unfold unvisited_cost at 1 3.
    by rewrite (rel_edges _ _ _ Hg), IH.
  - intros k. destruct (rel_jobs _ _ _ Hg k); naive_solver.
Qed.

Lemma ancestor_statuses_rel (needs : list string) :
  option_Forall2 (Forall2 same_verdict) (ancestor_statuses g needs) (ancestor_statuses g' needs).
Proof.
  unfold ancestor_statuses. rewrite (rel_direct_needs _ _ _ Hg), unvisited_rel. by apply ancestor_loop_rel.
Qed.

Lemma needs_context_rel (needs : list string) : needs_context g' needs = needs_context g needs.
Proof.
  unfold needs_context. do 2 f_equal. induction needs as [|n ns IH]; [done|]. cbn.
  assert (need_row g' n = need_row g n) as ->; [|destruct (need_row g n); [f_equal|]; apply IH].
  unfold need_row. rewrite (aggregate_rel _ _ (rel_matching_statuses _ _ _ Hg n)).
  assert (merged_outputs g' n = merged_outputs g n) as ->; [|done].
  unfold merged_outputs. by rewrite (rel_matching _ _ _ Hg), (rel_outputs _ _ _ Hg).
Qed.

(** Decisions do not see which kind of open status a job has. *)
Lemma decide_job_rel j : decide_job inputs g' j = decide_job inputs g j.
Proof.
  unfold decide_job, dependency_decision. case_match; [done|]. cbv zeta.
  pose proof (rel_direct _ _ _ Hg (declared_needs (job_detail j))) as Hd.
  rewrite (open_rel _ _ Hd), (Forall2_length _ _ _ Hd). case_match; [done|].
  destruct (ancestor_statuses_rel (declared_needs (job_detail j))) as [l k Hlk|]; [|done]. cbn [mbind option_bind].
  by rewrite (aggregate_rel _ _ Hlk), needs_context_rel.
Qed.

End verdict.

(** ** When a job may start *)

Definition needs_met graph j : Prop :=
  let needs := declared_needs (job_detail j) in
  needs = [] ∨
  direct_statuses graph needs ≠ [] ∧ Forall (λ s, is_terminal s = true) (direct_statuses graph needs) ∧
  (spec_if (job_detail j) = None → Forall (λ s, s = Success) (direct_statuses graph needs)).

Lemma decide_needs_met graph j : decide_job inputs graph j = Some DRun → needs_met graph j.
Proof.
  unfold decide_job, dependency_decision, needs_met. set (needs := declared_needs _). cbv zeta.
  destruct (Nat.eqb_spec (length needs) 0) as [Hl|_]; [by left; apply length_zero_iff_nil|].
  destruct ((length _ =? 0) || _) eqn:Hw; [done|]. apply orb_false_iff in Hw as [Hl Ht]. rewrite all_terminal in Ht.
  destruct (ancestor_statuses_cases graph needs) as (anc & -> & Hanc). cbn [mbind option_bind].
  intros Hd. right. split_and!; [by intros Hn; rewrite Hn in Hl|by apply Forall_forall|]. intros Hif.
  rewrite Hif, eval_success in Hd. cbn [success context_insert set_roots with_status] in Hd.
  destruct (bool_decide_reflect (default Skipped (aggregate_need_status anc) = Success)) as [Hs|]; [|done].
  apply aggregate_Success in Hs as [_ Hall]. apply Forall_forall. intros s Hs. apply Hall, Hanc.
  apply elem_of_direct_statuses in Hs as (id & Hid & Hjob). exists id. split; [|done]. exists id.
  split; [done|apply rtc_refl].
Qed.

Lemma needs_met_rel g g' j d : graph_rel (λ s t, is_terminal s = true → t = s) g g' → same_key j d →
  needs_met g j → needs_met g' d.
Proof.
  intros Hg Hk. unfold needs_met. rewrite (same_needs _ _ Hk), (same_if _ _ Hk). cbv zeta.
  intros [?|(Hne & Ht & Hs)]; [by left|right]. pose proof (rel_direct _ _ _ Hg (declared_needs (job_detail j))) as Hd.
  assert (direct_statuses g' (declared_needs (job_detail j)) = direct_statuses g (declared_needs (job_detail j))) as ->; [|done].
  clear Hne Hs. induction Hd as [|s t l k Hst _ IH]; [done|]. apply Forall_cons in Ht as [Ht Hl]. f_equal; auto.
Qed.

(** ** The sweep *)

Definition starting : list string := ["ready"; "claimed"; "pending_expansion"; "expanding"].

(** Whatever is on its way to a runner had its needs met. *)
Definition starts_ok db : Prop :=
  ∀ j, j ∈ live_rows db r → job_queue_state j ∈ starting → needs_met (run_graph db r) j.

Lemma elem_of_live_rows db j : j ∈ live_rows db r ↔ j ∈ rows_of db r ∧ replaced (rows_of db r) j = false.
Proof. unfold live_rows. by rewrite !list_elem_of_In, filter_In, negb_true_iff. Qed.

Lemma swept_run_wf graph db db' : run_wf r db → moves r (swept graph) db db' → counts r db' → run_wf r db'.
Proof.
  intros Hwf Hm Hc. split; [by rewrite (moves_names _ _ _ _ Hm); apply Hwf| | |exact Hc].
  - intros d Hd. destruct (moves_live_r _ _ _ _ Hm d Hd) as (j & Hj & _ & [Hs|(_ & Hok & _)]); [|done].
    eapply queue_ok_same; [exact Hs|]. by apply Hwf.
  - intros d Hd Hrep. destruct (moves_row_r _ _ _ _ Hm d Hd) as (j & Hj & Hk & Hsw).
    rewrite (moves_replaced _ _ _ _ Hm j d Hk) in Hrep. destruct (parents_ok _ _ Hwf j Hj Hrep) as [Hq Hs].
    destruct Hsw as [[-> ->]|(_ & _ & _ & [[Hcl Hqd]|[Hb _]])]; [done| |congruence].
    split; [done|]. by intros Hst; unfold open_row in Hcl; rewrite Hst in Hcl.
Qed.

Lemma swept_closed graph j d : swept graph j d → is_terminal (status_parse (job_status j)) = true →
  status_parse (job_status d) = status_parse (job_status j).
Proof.
  intros [[-> _]|(Ho & _)] Ht; [done|]. by rewrite open_row_parse, Ht in Ho.
Qed.

Lemma swept_starts db db' : run_wf r db → starts_ok db → moves r (swept (run_graph db r)) db db' → starts_ok db'.
Proof.
  intros Hwf Hst Hm d Hd Hq. pose proof (moves_graph _ (λ s t, is_terminal s = true → t = s) _ _ (swept_closed (run_graph db r)) Hm) as Hg.
  destruct (moves_live_r _ _ _ _ Hm d Hd) as (j & Hj & Hk & Hsw). eapply needs_met_rel; [exact Hg|exact Hk|].
  destruct Hsw as [[_ Hqd]|(_ & _ & _ & [[_ Hqd]|[_ Hdec]])].
  - apply Hst; [done|]. by rewrite <-Hqd.
  - rewrite Hqd in Hq. exfalso. repeat (apply elem_of_cons in Hq as [Hq|Hq]; [done|]). by apply not_elem_of_nil in Hq.
  - by apply decide_needs_met.
Qed.

Lemma sweep_candidates_ok db j : run_wf r db → groups_free r db → j ∈ candidates db r →
  pass_candidate db j ∧ queue_ok j ∧ (remaining_needs (job_detail j) = 0)%Z.
Proof.
  intros Hwf Hf Hj. unfold candidates, by_order in Hj. rewrite merge_sort_Permutation in Hj.
  apply list_elem_of_In, filter_In in Hj as [Hin Hc]. unfold candidate in Hc. rewrite !andb_true_iff in Hc.
  destruct Hc as ((Hr & Hq) & Hn). apply bool_decide_eq_true in Hr, Hq. apply Z.eqb_eq in Hn. apply list_elem_of_In in Hin.
  assert (j ∈ rows_of db r) as Hrow by by apply elem_of_rows_of.
  assert (job_free j) as Hfree by (pose proof (free_jobs _ _ Hf) as Hall; rewrite Forall_forall in Hall; by apply Hall).
  split_and!; [by split_and!| |done]. apply (queues_ok _ _ Hwf), elem_of_live_rows. split; [done|].
  apply not_true_iff_false. intros Hrep. destruct (parents_ok _ _ Hwf j Hrow Hrep). congruence.
Qed.

Lemma candidates_elem db j : j ∈ rows_of db r → job_queue_state j = "blocked" → (remaining_needs (job_detail j) = 0)%Z →
  j ∈ candidates db r.
Proof.
  intros [Hin Hr]%elem_of_rows_of Hq Hn. unfold candidates, by_order. rewrite merge_sort_Permutation.
  apply list_elem_of_In, filter_In. split; [by apply list_elem_of_In|]. unfold candidate, str_eqb.
  by rewrite Hr, Hq, Hn, !bool_decide_eq_true_2.
Qed.

Lemma candidates_names db : NoDup (job_name <$> rows_of db r) → NoDup (job_name <$> candidates db r).
Proof.
  unfold candidates, by_order. rewrite merge_sort_Permutation. unfold rows_of.
  induction (job_rows db) as [|j l IH]; [done|]. cbn [List.filter].
  unfold candidate. destruct (bool_decide (job_run j = r)); simpl; [|done]. intros [Hn Hnd]%NoDup_cons.
  destruct (_ && _); [|by apply IH]. rewrite fmap_cons. apply NoDup_cons. split; [|by apply IH].
  intros Hin. apply Hn. apply list_elem_of_fmap in Hin as (d & -> & Hd). apply list_elem_of_fmap. exists d. split; [done|].
  apply list_elem_of_In, filter_In in Hd as [Hd Hc]. apply list_elem_of_In, filter_In. split; [done|].
  by apply andb_true_iff in Hc as [[? _]%andb_true_iff _].
Qed.

Definition blocked_count db : nat := length (List.filter (blocked_in r) (job_rows db)).

Lemma swept_blocked graph j d : same_key j d → swept graph j d → blocked_in r d = true → blocked_in r j = true.
Proof.
  intros Hk. unfold blocked_in. rewrite (same_run _ _ Hk), !andb_true_iff. unfold str_eqb. rewrite !bool_decide_eq_true.
  intros [[_ ->]|(_ & _ & Hnb & _)]; [done|]. by intros [_ ?].
Qed.

Lemma filter_length_lt {A} (p q : A → bool) l k (x : A) :
  Forall2 (λ x y, q y = true → p x = true) l k → x ∈ l → p x = true →
  (∀ i y, l !! i = Some x → k !! i = Some y → q y = false) →
  length (List.filter q k) < length (List.filter p l).
Proof.
  intros Hlk Hx Hp Hq. induction Hlk as [|a b l k Hab Hlk IH]; [by apply not_elem_of_nil in Hx|]. cbn [List.filter].
  assert (length (List.filter q k) <= length (List.filter p l)) as Hle.
  { clear -Hlk. induction Hlk as [|a b l k Hab _ IH]; simpl; [done|].
    destruct (q b) eqn:Hb; [rewrite Hab by done; simpl; auto with arith|destruct (p a); simpl; auto with arith]. }
  apply elem_of_cons in Hx as [<-|Hx].
  - rewrite Hp, (Hq 0 b) by done. simpl. auto with arith.
  - specialize (IH Hx (λ i y, Hq (S i) y)). destruct (q b) eqn:Hb; [rewrite Hab by done; simpl; auto with arith|].
    destruct (p a); simpl; auto with arith.
Qed.

Lemma pass_shrinks graph db db' j : run_wf r db → moves r (swept graph) db db' → pass_candidate db j → out j db' →
  blocked_count db' < blocked_count db.
Proof.
  intros Hwf Hm (Hj & Hb & _) Hout. pose proof (proj1 (elem_of_rows_of db r j) Hj) as [Hin Hr].
  apply (filter_length_lt _ _ _ _ j); [|done| |].
  - eapply Forall2_impl; [exact (moved_rows _ _ _ _ Hm)|]. intros x y (Hk & Ho & Hs) Hby.
    destruct (decide (job_run x = r)) as [Hx|Hx]; [by eapply swept_blocked; [exact Hk|apply Hs|]|by rewrite (Ho Hx) in Hby].
  - unfold blocked_in, str_eqb. by rewrite Hr, Hb, !bool_decide_eq_true_2.
  - intros i y Hi Hy. destruct (Forall2_lookup_lr _ _ _ _ _ _ (moved_rows _ _ _ _ Hm) Hi Hy) as (Hk & _ & _).
    unfold blocked_in, str_eqb. apply andb_false_iff. right. apply bool_decide_eq_false. apply Hout.
    + apply elem_of_rows_of. split; [by eapply list_elem_of_lookup_2|]. by rewrite (same_run _ _ Hk).
    + apply (same_name _ _ Hk).
Qed.

(** What the sweep leaves in the tables. *)
Record sweep_post db db' : Prop := mk_sweep_post {
  post_wf : run_wf r db';
  post_free : groups_free r db';
  post_starts : starts_ok db → starts_ok db';
  post_closed : moves r (λ j d, open_row j = false → same_state j d) db db';
  post_stays : ∀ j, j ∈ rows_of db' r → job_queue_state j = "blocked" → remaining_needs (job_detail j) = 0%Z →
    stays inputs (run_graph db' r) db' j;
}.

Lemma swept_keeps_closed graph j d : swept graph j d → open_row j = false → same_state j d.
Proof. intros [Hs|(Ho & _)]; [done|]. congruence. Qed.

(** A pass that settles nothing has looked at every candidate there is. *)
Lemma quiet_pass_stays db db' : run_wf r db → moves r calm db db' →
  Forall (λ j, joined r j db' ∨ stays inputs (run_graph db r) db' j) (candidates db r) →
  ∀ d, d ∈ rows_of db' r → job_queue_state d = "blocked" → remaining_needs (job_detail d) = 0%Z →
    stays inputs (run_graph db' r) db' d.
Proof.
  intros Hwf Hm Hall d Hd Hb Hn. destruct (moves_row_r _ _ _ _ Hm d Hd) as (j & Hj & Hk & Hrem & Hc).
  assert (job_queue_state j = "blocked") as Hjb.
  { destruct Hc as [[_ <-]|(? & _)]; done. }
  rewrite Forall_forall in Hall. destruct (Hall j) as [Hjn|Hst].
  - apply candidates_elem; [done..|]. by rewrite <-Hrem.
  - exfalso. apply (in_queue_not_blocked (job_queue_state d)); [|done]. apply Hjn; [done|]. apply (same_name _ _ Hk).
  - assert (graph_rel same_verdict (run_graph db r) (run_graph db' r)) as Hg.
    { eapply moves_graph; [|exact Hm]. intros x y Hxy. pose proof (calm_open x y Hxy) as Ho.
      rewrite !open_row_parse in Ho. destruct Hxy as [_ [[-> _]|(_ & _ & Hox & Hoy & _)]]; [by left|right].
      rewrite open_row_parse in Hox, Hoy. by apply negb_true_iff in Hox, Hoy. }
    unfold stays. rewrite (decide_job_rel _ _ Hg), (decide_job_key _ _ j d Hk).
    rewrite (same_call _ _ Hk), (same_deferred _ _ Hk). unfold under_max_parallel.
    rewrite (same_max _ _ Hk), (same_run _ _ Hk), (same_base _ _ Hk). exact Hst.
Qed.

Lemma promote_passes_spec fuel : ∀ o db, run_wf r db → groups_free r db → blocked_count db < fuel →
  ∃ o' db', promote_passes inputs c fuel o db r = Ok (o', db') ∧ sweep_post db db'.
Proof.
  induction fuel as [|fuel IH]; intros o db Hwf Hf Hfuel; [by apply Nat.nlt_0_r in Hfuel|]. cbn [promote_passes].
  destruct (candidates db r) as [|j0 js0] eqn:Hcs.
  { exists o, db. split; [done|]. split; [done..|by apply moves_refl|]. intros j Hj Hb Hn.
    pose proof (candidates_elem db j Hj Hb Hn) as Hc. rewrite Hcs in Hc. by apply not_elem_of_nil in Hc. }
  rewrite <-Hcs.
  destruct (promote_pass_spec db (run_graph db r) (candidates db r) Hwf db false o)
    as (flag & o1 & db1 & Hs & Hm & Hc & Hf1 & _ & _ & Htrue & Hfalse).
  - by apply candidates_names, Hwf.
  - apply Forall_forall. intros j Hj. destruct (sweep_candidates_ok db j Hwf Hf Hj) as (? & ? & _). done.
  - apply moves_refl, swept_refl.
  - exact (counts_ok _ _ Hwf).
  - done.
  - intros _. apply Forall_forall. intros j Hj e He Hn. destruct (sweep_candidates_ok db j Hwf Hf Hj) as ((Hjr & _) & _ & _).
    assert (e = j) as ->; [|done]. by apply (name_unique r db); [apply Hwf|..].
  - rewrite Hs. cbn [mbind result_bind]. cbv beta iota.
    pose proof (swept_run_wf _ _ _ Hwf Hm Hc) as Hwf1.
    pose proof (moves_mono _ _ _ _ _ (swept_keeps_closed _) Hm) as Hcl. destruct flag.
    + destruct (Htrue eq_refl) as [?|(j & Hj & Hout)]; [done|].
      destruct (sweep_candidates_ok db j Hwf Hf Hj) as (Hcand & _ & _).
      destruct (IH o1 db1 Hwf1 Hf1) as (o' & db' & Hrun & Hpost).
      { eapply Nat.lt_le_trans; [exact (pass_shrinks _ _ _ _ Hwf Hm Hcand Hout)|]. by apply Nat.lt_succ_r. }
      exists o', db'. split; [exact Hrun|]. destruct Hpost as [Hw Hf' Hst Hcl' Hstay].
      split; [done..| | |done].
      * intros Hs0. apply Hst. exact (swept_starts _ _ Hwf Hs0 Hm).
      * eapply moves_trans; [|exact Hcl|exact Hcl']. intros j1 j2 j3 _ _ H12 H23 Ho.
        eapply same_state_trans; [by apply H12|]. apply H23. by rewrite (same_state_open j1 j2); [|apply H12].
    + destruct (Hfalse eq_refl) as [Hcalm Hall]. exists o1, db1. split; [done|]. split; [done..| |done|].
      * intros Hs0. exact (swept_starts _ _ Hwf Hs0 Hm).
      * exact (quiet_pass_stays db db1 Hwf Hcalm Hall).
Qed.

Lemma promote_run_spec o db : run_wf r db → groups_free r db →
  ∃ o' db', promote_run inputs c o db r = Ok (o', db') ∧ sweep_post db db'.
Proof. intros Hwf Hf. apply promote_passes_spec; [done..|]. unfold sweep_fuel, blocked_count. apply Nat.lt_succ_diag_r. Qed.

End sweep.
