(* ===== verification/LiteRuns.v ===== *)
(** * Runs in the embedded database: what the sweep and the commands guarantee

    The properties of settlement, cancellation and promotion, from the lemmas
    of [LiteProgress] and [LiteSweep]; and, on concrete runs, where the code
    strands or revives jobs. *)
From S2P Require Export LiteSweep.

#[local] Set Default Proof Using "Type".

Section runs.
Context {num Conc : Type} `{NumberOps num, JsonCodec num, UnicodeCase, UnicodeLower, LeaseCodec} {CK : Counted}.
Abbreviation JobRow := (JobRow string (JobDetail num Conc)).
Abbreviation Db := (Db string (JobDetail num Conc) Tables).
Abbreviation Cascade := (Cascade (num:=num) (Conc:=Conc)).
Implicit Types (inputs : SweepInputs num Conc) (c : Cascade) (db : Db) (j d : JobRow) (r job : string).

(** ** Statuses of the graph *)

Lemma live_names r db : NoDup (job_name <$> rows_of db r) → NoDup (job_name <$> live_rows db r).
Proof.
  intros Hnd. eapply sublist_NoDup; [exact Hnd|]. apply fmap_sublist, sublist_list_filter.
Qed.

Lemma graph_status r db id s : NoDup (job_name <$> rows_of db r) →
  jobs (run_graph db r) !! id = Some s ↔ ∃ d, d ∈ live_rows db r ∧ job_name d = id ∧ status_parse (job_status d) = s.
Proof.
  intros Hnd%live_names. simpl. unfold run_statuses. rewrite <-elem_of_list_to_map.
  - rewrite list_elem_of_fmap. naive_solver.
  - rewrite <-list_fmap_compose. exact Hnd.
Qed.

Lemma graph_base r db d b : NoDup (job_name <$> rows_of db r) → d ∈ live_rows db r →
  job_base_ids (run_graph db r) !! job_name d = Some b ↔ b = job_base_id d.
Proof.
  intros Hnd%live_names Hd. simpl.
  assert ((list_to_map ((λ j, (job_name j, job_base_id j)) <$> live_rows db r) : gmap string string) !! job_name d
    = Some (job_base_id d)) as ->; [|naive_solver].
  apply elem_of_list_to_map; [rewrite <-list_fmap_compose; exact Hnd|]. apply list_elem_of_fmap. by exists d.
Qed.

Lemma elem_of_direct r db (needs : list string) s : NoDup (job_name <$> rows_of db r) →
  s ∈ direct_statuses (run_graph db r) needs ↔
  ∃ need d, need ∈ needs ∧ d ∈ live_rows db r ∧ matches_need need d = true ∧ status_parse (job_status d) = s.
Proof.
  intros Hnd. unfold direct_statuses. rewrite elem_of_direct_statuses. unfold direct_needs.
  setoid_rewrite elem_of_flat_map. setoid_rewrite elem_of_matching_need_ids. unfold matches_need, str_eqb.
  split.
  - intros (id & (need & Hneed & _ & Hm) & Hs). apply graph_status in Hs as (d & Hd & <- & Hs); [|done].
    exists need, d. split_and!; [done..| |done]. apply orb_true_iff. rewrite !bool_decide_eq_true.
    destruct Hm as [->|Hb]; [by left|right]. by apply graph_base in Hb.
  - intros (need & d & Hneed & Hd & Hm & Hs). exists (job_name d). split.
    + exists need. split; [done|]. split; [eexists; by apply graph_status; [|exists d]|].
      apply orb_true_iff in Hm. rewrite !bool_decide_eq_true in Hm. destruct Hm as [->|Hb]; [by left|right].
      by apply graph_base.
    + apply graph_status; [done|]. by exists d.
Qed.

(** ** Nothing is stranded *)

Definition active_states : list string := ["held"; "ready"; "claimed"; "pending_expansion"; "expanding"].

(** Somebody will report on the job, or release it. *)
Definition active j : Prop :=
  open_row j = true ∧ (job_status j = "in_progress" ∨ job_queue_state j ∈ active_states).

#[local] Instance active_dec j : Decision (active j).
Proof. unfold active. apply _. Defined.

(** Every need stands for some job. *)
Definition needs_named r db : Prop :=
  ∀ j need, j ∈ live_rows db r → need ∈ declared_needs (job_detail j) → ∃ d, d ∈ live_rows db r ∧ matches_need need d = true.

(** The needs of a submitted workflow: each stands for some job, they form no
    cycle, and a base lets at least one leg run. *)
Record plan_ok r db : Prop := mk_plan_ok {
  needs_resolve : needs_named r db;
  needs_ranked : ∃ rank : string → nat, ∀ j d need, j ∈ live_rows db r → d ∈ live_rows db r →
    need ∈ declared_needs (job_detail j) → matches_need need d = true → rank (job_name d) < rank (job_name j);
  some_slot : ∀ j, j ∈ live_rows db r → job_max_parallel j ≠ Some 0%N;
}.

Lemma moves_needs_named r (P : JobRow → JobRow → Prop) db db' : moves r P db db' → needs_named r db → needs_named r db'.
Proof.
  intros Hm Hres j' need Hj' Hn. destruct (moves_live_r _ _ _ _ Hm j' Hj') as (j & Hj & Hk & _).
  rewrite (same_needs _ _ Hk) in Hn. destruct (Hres j need Hj Hn) as (d & Hd & Hmd).
  destruct (moves_live_l _ _ _ _ Hm d Hd) as (d' & Hd' & Hkd & _). exists d'.
  split; [done|]. revert Hmd. unfold matches_need. by rewrite (same_name _ _ Hkd), (same_base _ _ Hkd).
Qed.

Lemma plan_ok_moves r (P : JobRow → JobRow → Prop) db db' : moves r P db db' → plan_ok r db → plan_ok r db'.
Proof.
  intros Hm [Hres [rank Hrank] Hslot]. split; [by eapply moves_needs_named| |].
  - exists rank. intros j' d' need Hj' Hd' Hn Hmd. destruct (moves_live_r _ _ _ _ Hm j' Hj') as (j & Hj & Hk & _).
    destruct (moves_live_r _ _ _ _ Hm d' Hd') as (d & Hd & Hkd & _).
    rewrite (same_needs _ _ Hk) in Hn. unfold matches_need in Hmd. rewrite (same_name _ _ Hkd), (same_base _ _ Hkd) in Hmd.
    rewrite (same_name _ _ Hk), (same_name _ _ Hkd). by eapply Hrank.
  - intros j' Hj'. destruct (moves_live_r _ _ _ _ Hm j' Hj') as (j & Hj & Hk & _). rewrite (same_max _ _ Hk). auto.
Qed.

Lemma queue_ok_cases j : queue_ok j → open_row j = true → active j ∨ job_queue_state j = "blocked".
Proof.
  unfold queue_ok, active. intros Hq Ho. rewrite Ho in Hq. unfold str_eqb in Hq.
  destruct (bool_decide_reflect (job_status j = "in_progress")) as [Hs|Hs]; [by left; split; [|left]|].
  destruct Hq as [_ Hq]. apply elem_of_cons in Hq as [Hq|Hq]; [by right|left]. split; [done|by right].
Qed.

Lemma need_open_row r db need : need_open db r need = true ↔
  ∃ d, d ∈ live_rows db r ∧ matches_need need d = true ∧ open_row d = true.
Proof.
  unfold need_open. rewrite existsb_exists. setoid_rewrite elem_of_live_rows. setoid_rewrite <-list_elem_of_In.
  setoid_rewrite andb_true_iff. setoid_rewrite andb_true_iff. setoid_rewrite negb_true_iff. naive_solver.
Qed.

Lemma no_open_needs db j : open_needs db j = 0%Z ↔
  ∀ need, need ∈ declared_needs (job_detail j) → need_open db (job_run j) need = false.
Proof.
  unfold open_needs. split.
  - intros Hz need Hn. apply not_true_iff_false. intros Ho.
    assert (In need (List.filter (need_open db (job_run j)) (declared_needs (job_detail j)))) as Hin
      by (apply filter_In; split; [by apply list_elem_of_In|done]).
    destruct (List.filter _ _); [done|discriminate].
  - intros Hn. destruct (List.filter _ _) as [|need l] eqn:Hf; [done|]. exfalso.
    assert (In need (need :: l)) as Hin by by left. rewrite <-Hf in Hin. apply filter_In in Hin as [Hin Ho].
    apply list_elem_of_In in Hin. by rewrite Hn in Ho.
Qed.

(** An active leg is a live open row. *)
Lemma active_leg_active r base db d : run_wf r db → d ∈ job_rows db → active_leg r base d = true →
  d ∈ live_rows db r ∧ active d.
Proof.
  intros Hwf Hd Ha. unfold active_leg in Ha. rewrite !andb_true_iff, orb_true_iff in Ha.
  destruct Ha as [[Hr _] Hcase]. apply bool_decide_eq_true in Hr. unfold str_eqb in Hcase. rewrite !bool_decide_eq_true in Hcase.
  assert (d ∈ rows_of db r) as Hrow by by apply elem_of_rows_of.
  assert (d ∈ live_rows db r) as Hlive.
  { apply elem_of_live_rows. split; [done|]. apply not_true_iff_false. intros Hrep.
    destruct (parents_ok _ _ Hwf d Hrow Hrep) as [Hq Hs]. destruct Hcase as [?|Hq']; [done|]. rewrite Hq in Hq'.
    repeat (apply elem_of_cons in Hq' as [Hq'|Hq']; [done|]). by apply not_elem_of_nil in Hq'. }
  split; [done|]. pose proof (queues_ok _ _ Hwf d Hlive) as Hok. destruct Hcase as [Hs|Hq].
  - split; [|by left]. unfold open_row. by rewrite Hs.
  - unfold queue_ok in Hok. destruct (open_row d) eqn:Ho.
    + split; [done|right]. unfold active_states. set_unfold. naive_solver.
    + exfalso. apply elem_of_cons in Hq as [Hq|Hq]; [|apply elem_of_cons in Hq as [Hq|Hq]]; [..|by apply not_elem_of_nil in Hq];
        rewrite Hq in Hok; repeat (apply elem_of_cons in Hok as [Hok|Hok]; [done|]); by apply not_elem_of_nil in Hok.
Qed.

(** A blocked job whose needs are closed stays only behind active legs of its base. *)
Lemma stays_full inputs r db j : run_wf r db → plan_ok r db → j ∈ live_rows db r →
  open_needs db j = 0%Z → stays inputs (run_graph db r) db j →
  under_max_parallel db j = false ∧ ∃ d, d ∈ live_rows db r ∧ job_base_id d = job_base_id j ∧ active d.
Proof.
  intros Hwf Hp Hj Hz Hst. pose proof (proj1 (elem_of_live_rows r db j) Hj) as [Hjr _].
  pose proof (proj2 (proj1 (elem_of_rows_of db r j) Hjr)) as Hr. rewrite no_open_needs, Hr in Hz.
  destruct Hst as [Hw|(_ & _ & _ & Hmax)].
  - exfalso. unfold decide_job, dependency_decision in Hw. set (needs := declared_needs (job_detail j)) in *.
    destruct needs as [|need ns] eqn:Hneeds; [done|]. cbn [length Nat.eqb] in Hw. rewrite <-Hneeds in *. cbv zeta in Hw.
    destruct ((length _ =? 0) || _) eqn:Hwait.
    2:{ destruct (ancestor_statuses_cases (run_graph db r) needs) as (l & Hl & _). rewrite Hl in Hw.
        cbn [mbind option_bind] in Hw. by repeat case_match. }
    apply orb_true_iff in Hwait as [Hnil|Hex].
    + apply Nat.eqb_eq, length_zero_iff_nil in Hnil. destruct (needs_resolve _ _ Hp j need Hj) as (d & Hd & Hm).
      { fold needs. rewrite Hneeds. by left. }
      apply (not_elem_of_nil (status_parse (job_status d))). rewrite <-Hnil. apply elem_of_direct; [apply Hwf|].
      exists need, d. split_and!; [rewrite Hneeds; by left|done..].
    + apply existsb_exists in Hex as (s & Hs%list_elem_of_In & Ht). apply elem_of_direct in Hs; [|apply Hwf].
      destruct Hs as (n & d & Hn & Hd & Hm & <-). rewrite <-open_row_parse in Ht.
      assert (need_open db r n = true) as Ho by (apply need_open_row; by exists d). by rewrite Hz in Ho.
  - split; [done|]. unfold under_max_parallel in Hmax. pose proof (some_slot _ _ Hp j Hj) as Hslot.
    destruct (job_max_parallel j) as [limit|]; [|done]. rewrite Hr in Hmax. apply N.ltb_ge in Hmax.
    destruct (List.filter _ _) as [|d l] eqn:Hf.
    { exfalso. apply Hslot. f_equal. by apply N.le_0_r. }
    assert (In d (d :: l)) as Hin by by left. rewrite <-Hf in Hin. apply filter_In in Hin as [Hin Hact].
    exists d. destruct (active_leg_active r (job_base_id j) db d) as [? ?]; [done|by apply list_elem_of_In|done|].
    split_and!; [done| |done]. unfold active_leg in Hact. rewrite !andb_true_iff in Hact.
    destruct Hact as [[_ Hb] _]. by apply bool_decide_eq_true in Hb.
Qed.

Lemma closed_needs r db j : job_run j = r →
  (∀ need d, need ∈ declared_needs (job_detail j) → d ∈ live_rows db r → matches_need need d = true → open_row d = false) →
  open_needs db j = 0%Z.
Proof.
  intros Hr Hall. apply no_open_needs. intros need Hn. rewrite Hr. apply not_true_iff_false.
  intros (d & Hd & Hm & Ho)%need_open_row. by rewrite (Hall need d Hn Hd Hm) in Ho.
Qed.

(** A sweep of a run whose counts are kept. *)
Lemma sweep_strands_none inputs c r o db :
  counted = true → run_wf r db → groups_free r db → plan_ok r db →
  ∃ o' db', promote_run inputs c o db r = Ok (o', db') ∧
    (∀ j, j ∈ live_rows db' r → job_queue_state j = "blocked" → open_needs db' j = 0%Z →
       under_max_parallel db' j = false ∧ ∃ d, d ∈ live_rows db' r ∧ job_base_id d = job_base_id j ∧ active d) ∧
    ((∃ j, j ∈ live_rows db' r ∧ open_row j = true) → ∃ j, j ∈ live_rows db' r ∧ active j).
Proof.
  intros Hcnt Hwf Hf Hp. destruct (promote_run_spec inputs c r o db Hwf Hf) as (o' & db' & Hrun & [Hwf' _ _ Hm Hstays]).
  exists o', db'. split; [done|]. pose proof (plan_ok_moves _ _ _ _ Hm Hp) as Hp'.
  assert (∀ j, j ∈ live_rows db' r → job_queue_state j = "blocked" → open_needs db' j = 0%Z →
    under_max_parallel db' j = false ∧ ∃ d, d ∈ live_rows db' r ∧ job_base_id d = job_base_id j ∧ active d) as Hblk.
  { intros j Hj Hb Hz. pose proof (proj1 (elem_of_live_rows r db' j) Hj) as [Hjr _].
    destruct (counts_ok _ _ Hwf' Hcnt j Hjr Hb) as [Hge Hle].
    apply (stays_full inputs r db' j); [done..|]. apply Hstays; [done..|]. rewrite Hz in Hle. by apply Z.le_antisymm. }
  split; [exact Hblk|].
  destruct (needs_ranked _ _ Hp') as [rank Hrank]. intros (j & Hj & Ho). remember (rank (job_name j)) as n eqn:Hn.
  revert j Hj Ho Hn. induction (lt_wf n) as [n _ IH]. intros j Hj Ho ->.
  destruct (queue_ok_cases j (queues_ok _ _ Hwf' j Hj) Ho) as [Ha|Hb]; [by exists j|].
  pose proof (proj1 (elem_of_live_rows r db' j) Hj) as [Hjr _].
  pose proof (proj2 (proj1 (elem_of_rows_of db' r j) Hjr)) as Hr.
  destruct (decide (open_needs db' j = 0%Z)) as [Hz|Hz].
  - destruct (Hblk j Hj Hb Hz) as (_ & d & Hd & _ & Ha). by exists d.
  - destruct (existsb (need_open db' r) (declared_needs (job_detail j))) eqn:Hex.
    + apply existsb_exists in Hex as (need & Hneed%list_elem_of_In & (d & Hd & Hmd & Hod)%need_open_row).
      apply (IH (rank (job_name d)) (Hrank j d need Hj Hd Hneed Hmd) d); done.
    + exfalso. apply Hz, no_open_needs. intros need Hneed%list_elem_of_In. rewrite Hr. apply not_true_iff_false.
      intros Ho'. apply not_true_iff_false in Hex. apply Hex, existsb_exists. by exists need.
Qed.

(** ** Sequences of commands *)

(** Commands on one run: a sweep, a completion, the claims of a job and of an
    expansion, the end of the run, the cancellation of a job with its subtree,
    and its starvation. The completion of an expansion and a re-run, which
    change the set of jobs, are not among them. *)
Inductive RunCommand : Type :=
| Sweep
| Settle (job : string) (reported : ExecutionStatus)
| ClaimJob (job : string)
| LeaseExpansion (job : string)
| CancelRun
| ExpireRun
| CancelJob (job : string)
| StarveJob (job : string).

Definition run_command inputs c r (cmd : RunCommand) db : result ControlError Db :=
  match cmd with
  | Sweep => snd <$> promote_run inputs c no_outcome db r
  | Settle job reported => snd <$> settle_node c (in_now inputs) db r job reported
  | ClaimJob job => Ok (claim_job db r job)
  | LeaseExpansion job => Ok (lease_expansion db r job)
  | CancelRun => snd <$> cancel_run_inner c (in_now inputs) db r
  | ExpireRun => snd <$> expire_run c (in_now inputs) db r
  | CancelJob job => snd <$> cancel_job c (in_now inputs) db r job
  | StarveJob job => Ok (starve_job db r job)
  end.

Fixpoint run_commands inputs c r (cmds : list RunCommand) db : result ControlError Db :=
  match cmds with
  | [] => Ok db
  | cmd :: cmds => db ← run_command inputs c r cmd db; run_commands inputs c r cmds db
  end.

(** A completion reports a final status. *)
Definition command_ok (cmd : RunCommand) : Prop :=
  match cmd with Settle _ reported => is_terminal reported = true | _ => True end.

(** The command refreshes the counts of the jobs that wait for what it closes. *)
Definition refreshes (cmd : RunCommand) : Prop :=
  match cmd with CancelJob _ | StarveJob _ => False | _ => True end.

(** The first verdict on a job is final. *)
Definition verdict_kept j d : Prop := open_row j = false → job_status d = job_status j.

Record commanded r db db' : Prop := mk_commanded {
  cmd_wf : run_wf r db';
  cmd_starts : starts_ok r db → starts_ok r db';
  cmd_verdicts : moves r verdict_kept db db';
}.

Lemma commanded_trans r db1 db2 db3 : commanded r db1 db2 → commanded r db2 db3 → commanded r db1 db3.
Proof.
  intros [_ Hs Hv] [Hw' Hs' Hv']. split; [done|auto|]. eapply moves_trans; [|exact Hv|exact Hv'].
  intros j1 j2 j3 _ _ H12 H23 Ho. rewrite H23; [by apply H12|]. unfold open_row in *. by rewrite H12.
Qed.

(** A queued job is taken by a runner, or its expansion by a worker. *)
Definition taken j d : Prop :=
  job_queue_state j = "ready" ∧ job_queue_state d = "claimed" ∧ job_status d = "in_progress" ∨
  job_queue_state j = "pending_expansion" ∧ job_queue_state d = "expanding" ∧ job_status d = job_status j.

Lemma not_closed_state (q : string) : q ∈ ["ready"; "held"; "blocked"; "claimed"] → q ∉ closed_states.
Proof.
  intros Hq Hc. repeat (apply elem_of_cons in Hc as [->|Hc];
    [repeat (apply elem_of_cons in Hq as [Hq|Hq]; [done|]); by apply not_elem_of_nil in Hq|]).
  by apply not_elem_of_nil in Hc.
Qed.

Lemma taken_ok j d : queue_ok j → taken j d → queue_ok d ∧ open_row d = open_row j.
Proof.
  intros Hok [(Hq & Hqd & Hs)|(Hq & Hqd & Hs)].
  - assert (open_row j = true) as Ho.
    { apply not_false_iff_true. intros Ho. unfold queue_ok in Hok. rewrite Ho, Hq in Hok.
      revert Hok. apply not_closed_state. by left. }
    rewrite Ho. unfold queue_ok, open_row. by rewrite Hs, Hqd.
  - split; [|by unfold open_row; rewrite Hs]. revert Hok. apply expansion_queue_ok; [done|]. rewrite Hqd. by right; left.
Qed.

Lemma taken_live r db j d : run_wf r db → j ∈ rows_of db r → taken j d → j ∈ live_rows db r.
Proof.
  intros Hwf Hj Ht. apply elem_of_live_rows. split; [done|]. apply not_true_iff_false. intros Hrep.
  destruct (parents_ok _ _ Hwf j Hj Hrep) as [Hq _]. destruct Ht as [(? & _)|(? & _)]; congruence.
Qed.

Definition advances j d : Prop := closes j d ∨ taken j d.

Lemma advances_commanded r db db' : run_wf r db → moves r advances db db' → counts r db' → commanded r db db'.
Proof.
  intros Hwf Hm0 Hc.
  assert (moves r (λ j d, advances j d ∧ (open_row j = false → same_state j d ∨
      job_status d = job_status j)) db db') as Hm.
  { eapply moves_mono; [|apply (moves_elem _ _ _ _ Hm0)]. intros j d [Ha [Hj _]]. split; [done|]. intros Ho.
    destruct Ha as [[Hs|(? & _)]|Ht]; [by left|congruence|right].
    assert (queue_ok j) as Hok by by apply Hwf, (taken_live r db j d).
    destruct Ht as [(Hq & _)|(_ & _ & Hs)]; [|done]. unfold queue_ok in Hok. rewrite Ho, Hq in Hok.
    exfalso. revert Hok. apply not_closed_state. by left. }
  assert (moves r verdict_kept db db') as Hv.
  { eapply moves_mono; [|exact Hm]. intros j d [_ Ho] Hcl. by destruct (Ho Hcl) as [[? _]|?]. }
  split; [split; [by rewrite (moves_names _ _ _ _ Hm); apply Hwf| | |done]| |done].
  - intros d Hd. destruct (moves_live_r _ _ _ _ Hm d Hd) as (j & Hj & _ & [Ha|Ht] & _).
    + eapply closes_queue_ok; [exact Ha|by apply Hwf].
    + eapply taken_ok; [|exact Ht]. by apply Hwf.
  - intros d Hd Hrep. destruct (moves_row_r _ _ _ _ Hm d Hd) as (j & Hj & Hk & Ha & _).
    rewrite (moves_replaced _ _ _ _ Hm j d Hk) in Hrep. destruct (parents_ok _ _ Hwf j Hj Hrep) as [Hq Hs].
    destruct Ha as [[[-> ->]|(_ & Hcl & Hqd)]|[(? & _)|(? & _)]]; [done| |congruence..].
    split; [done|]. by intros Hst; unfold open_row in Hcl; rewrite Hst in Hcl.
  - intros Hst d Hd Hq. destruct (moves_live_r _ _ _ _ Hm d Hd) as (j & Hj & Hk & Ha & _).
    eapply (needs_met_rel (run_graph db r)); [|exact Hk|].
    + eapply moves_graph; [|exact Hv]. intros x y Hxy Ht. f_equal. apply Hxy. by rewrite open_row_parse, Ht.
    + apply Hst; [done|]. destruct Ha as [[[_ <-]|(_ & _ & Hqd)]|[(-> & _)|(-> & _)]];
        [done| |apply (bool_decide_unpack _); by vm_compute..].
      rewrite Hqd in Hq. exfalso. repeat (apply elem_of_cons in Hq as [Hq|Hq]; [done|]). by apply not_elem_of_nil in Hq.
Qed.

Lemma settled_commanded r db db' : run_wf r db → settled r db db' → commanded r db db'.
Proof.
  intros Hwf [Hm Hc]. apply advances_commanded; [done| |exact (Hc (counts_ok _ _ Hwf))]. eapply moves_mono; [|exact Hm]. by left.
Qed.

Lemma same_rows_commanded r db db' : run_wf r db → same_rows db db' → commanded r db db'.
Proof. intros Hwf Hs. apply settled_commanded; [done|by apply settled_same]. Qed.

Lemma sweep_commanded inputs r db db' : run_wf r db → sweep_post inputs r db db' → commanded r db db'.
Proof.
  intros Hwf [Hw _ Hs Hm _]. split; [done..|]. eapply moves_mono; [|exact Hm]. intros j d Hjd Ho. by apply Hjd.
Qed.

Lemma not_blocked_counts r db db' :
  moves r (λ j d, (open_row j = true → open_row d = true) ∧ (job_queue_state d = "blocked" → d = j)) db db' →
  counts r db → counts r db'.
Proof.
  intros Hm. eapply opening_counts; [|exact Hm]. intros j d [Ho Hb]. split; [done|].
  intros Hq. pose proof (Hb Hq) as ->. done.
Qed.

Lemma taken_commanded r db db' : run_wf r db → moves r (λ j d, taken j d ∨ d = j) db db' → commanded r db db'.
Proof.
  intros Hwf Hm. apply advances_commanded; [done| |apply (not_blocked_counts r db); [|exact (counts_ok _ _ Hwf)]].
  - eapply moves_mono; [|exact Hm]. intros j d [?| ->]; [by right|left; apply closes_refl].
  - eapply moves_mono; [|exact Hm]. intros j d [Ht| ->]; [|done]. split.
    + intros Ho. destruct Ht as [(_ & _ & Hs)|(_ & _ & Hs)]; unfold open_row in *; by rewrite Hs.
    + destruct Ht as [(_ & Hq & _)|(_ & Hq & _)]; by rewrite Hq.
Qed.

Lemma claim_commanded r job db : run_wf r db → commanded r db (claim_job db r job).
Proof.
  intros Hwf. unfold claim_job. cbv zeta. destruct (existsb _ _); [|by apply same_rows_commanded, same_rows_refl].
  assert (∀ p f, commanded r db (alter_jobs p f db) → commanded r db (update_runs r (λ x, str_eqb (row_status x) "queued")
            (set_run_status "in_progress") (alter_jobs p f db)).2) as Hup.
  { intros p f Hc. eapply commanded_trans; [exact Hc|]. apply same_rows_commanded; [apply Hc|by eexists]. }
  apply Hup, taken_commanded; [done|]. apply moves_alter; [|by right].
  intros j [[Hr _]%is_job_true Hq]%andb_true_iff. apply bool_decide_eq_true in Hq.
  split_and!; [apply with_state_key|done|]. left. by left.
Qed.

Lemma lease_commanded r job db : run_wf r db → commanded r db (lease_expansion db r job).
Proof.
  intros Hwf. apply taken_commanded; [done|]. apply moves_alter; [|by right].
  intros j [[Hr _]%is_job_true Hq]%andb_true_iff. apply bool_decide_eq_true in Hq.
  split_and!; [by split|done|]. left. by right.
Qed.

Definition close_all (p : JobRow → bool) (f : JobRow → JobRow) r db : Db :=
  alter_jobs (λ j, bool_decide (job_run j = r) && p j) f db.

(** Closing every row of the run that waits or runs leaves no row blocked. *)
Lemma close_all_commanded r p f s db : run_wf r db → is_terminal s = true →
  (∀ j, p j = true → open_row j = true) → (∀ j, job_status j ∈ waiting_status → p j = true) →
  (∀ j, same_key j (f j) ∧ job_status (f j) = status_str s ∧ job_queue_state (f j) = "none") →
  commanded r db (close_all p f r db).
Proof.
  intros Hwf Hs Hp Hw Hf.
  assert (∀ j, open_row (f j) = false) as Hcl.
  { intros j. destruct (Hf j) as (_ & Hj & _). unfold open_row. rewrite Hj.
    pose proof (open_status s) as Ht. rewrite Hs in Ht. exact Ht. }
  apply advances_commanded; [done|..].
  - apply moves_alter; [|intros; left; apply closes_refl]. intros j [Hr%bool_decide_eq_true Ho]%andb_true_iff.
    destruct (Hf j) as (Hk & _ & Hq). split_and!; [done..|]. left. right. split_and!; [by apply Hp|done..].
  - intros _ d Hd Hb. exfalso. unfold close_all in Hd. rewrite rows_of_alter in Hd by (intros; apply Hf).
    apply list_elem_of_fmap in Hd as (j & -> & Hj). pose proof (proj2 (proj1 (elem_of_rows_of db r j) Hj)) as Hr.
    rewrite bool_decide_eq_true_2 in Hb by done. cbn [andb] in Hb. destruct (p j) eqn:Hpj.
    { destruct (Hf j) as (_ & _ & Hq). congruence. }
    assert (j ∈ live_rows db r) as Hlive.
    { apply elem_of_live_rows. split; [done|]. apply not_true_iff_false. intros Hrep.
      destruct (parents_ok _ _ Hwf j Hj Hrep). congruence. }
    pose proof (queues_ok _ _ Hwf j Hlive) as Hok. destruct (blocked_open j Hok Hb) as [Ho Hn].
    unfold queue_ok, str_eqb in Hok. rewrite Ho, bool_decide_eq_false_2 in Hok by done.
    destruct Hok as [Hst _]. apply Hw in Hst. congruence.
Qed.

Lemma waiting_open j : job_status j ∈ waiting_status → open_row j = true ∧ unexpired_row j = true.
Proof.
  unfold open_row, unexpired_row. intros Hs.
  repeat (apply elem_of_cons in Hs as [->|Hs]; [by vm_compute|]). by apply not_elem_of_nil in Hs.
Qed.

Lemma unexpired_open j : unexpired_row j = true → open_row j = true.
Proof.
  unfold open_row, unexpired_row. rewrite !negb_true_iff, !bool_decide_eq_false. intros Hn Hs. apply Hn.
  repeat (apply elem_of_cons in Hs as [->|Hs]; [apply (bool_decide_unpack _); by vm_compute|]). by apply not_elem_of_nil in Hs.
Qed.

(** Only the attempts of [LiteRequests] differ. *)
Definition same_tables db db' : Prop := ∃ l, db' = with_lite db l.

Lemma same_tables_refl db : same_tables db db.
Proof. exists (lite (rest db)). unfold with_lite, with_rest. destruct db as [? ? ? ? ? ? []]. done. Qed.

Lemma same_tables_trans db1 db2 db3 : same_tables db1 db2 → same_tables db2 db3 → same_tables db1 db3.
Proof. intros [l ->] [l' ->]. by exists l'. Qed.

Lemma same_tables_rows db db' : same_tables db db' → same_rows db db'.
Proof. intros [l ->]. by eexists. Qed.

Lemma queue_cancellation_tables db id reason : same_tables db (queue_cancellation db id reason).
Proof. unfold queue_cancellation. cbv zeta. case_match; [apply same_tables_refl|by eexists]. Qed.

Lemma retire_expandable_Ok now r s l db : ∃ db', retire_expandable now db r s l = Ok db' ∧ same_tables db db'.
Proof.
  revert db. induction l as [|job l IH]; intros db; cbn [retire_expandable]; [by exists db; split; [|apply same_tables_refl]|].
  assert (∃ db1, (if is_expandable db r job then retire_node_requests now db r job s else Ok db) = Ok db1 ∧ same_tables db db1)
    as (db1 & -> & Hs).
  { case_match; [|by exists db; split; [|apply same_tables_refl]].
    destruct (retire_Ok now db r job s) as [l' ->]. eexists. split; [done|by eexists]. }
  cbn [mbind result_bind]. destruct (IH db1) as (db2 & -> & Hs2). exists db2. split; [done|by eapply same_tables_trans].
Qed.

Lemma cancel_attempts_spec l db :
  (cancel_attempts db l).1 = length (omap (λ q, q) l) ∧ same_tables db (cancel_attempts db l).2.
Proof.
  revert db. induction l as [|[q|] l IH]; intros db; cbn [cancel_attempts]; [split; [done|apply same_tables_refl]| |apply IH].
  pose proof (IH (queue_cancellation db q None)) as [Hn Hs]. destruct (cancel_attempts _ l). cbn in *.
  split; [by f_equal|]. eapply same_tables_trans; [apply queue_cancellation_tables|done].
Qed.

(** *** The cancellations an attempt has not been told *)

Definition told_in (id : Z) (l : Lite) : nat :=
  length (filter (λ x, cancelled_request x = id ∧ delivered_at x = None) (cancellations l)).
Definition told (id : Z) db : nat := told_in id (lite (rest db)).
Definition job_of (id : Z) (l : Lite) : option string := job_id <$> LiteRequests.job_requests l !! id.

Lemma told_queue_cancellation id id' reason db :
  told id (queue_cancellation db id' reason) = if decide (id = id') then Nat.max 1 (told id db) else told id db.
Proof.
  unfold queue_cancellation, told, told_in. cbv zeta. set (l := lite (rest db)).
  destruct (existsb _ _) eqn:He.
  - case_decide as Hid; [|done]. subst id'. apply existsb_exists in He as (x & Hx%list_elem_of_In & Hp%bool_decide_eq_true).
    fold l. destruct (filter _ (cancellations l)) as [|y ys] eqn:Hf; [|simpl; lia].
    assert (x ∈ filter (λ x, cancelled_request x = id ∧ delivered_at x = None) (cancellations l)) as Hin
      by by apply list_elem_of_filter. rewrite Hf in Hin. by apply not_elem_of_nil in Hin.
  - cbn. rewrite filter_app, length_app. fold l. case_decide as Hid.
    + subst id'. rewrite (filter_cons_True _ _ []) by done. simpl.
      assert (filter (λ x, cancelled_request x = id ∧ delivered_at x = None) (cancellations l) = []) as ->; [|done].
      destruct (filter _ (cancellations l)) as [|y ys] eqn:Hf; [done|]. exfalso.
      assert (y ∈ y :: ys) as Hy by by left. rewrite <-Hf in Hy. apply list_elem_of_filter in Hy as [Hp Hy].
      apply not_true_iff_false in He. apply He, existsb_exists.
      exists y. split; [by apply list_elem_of_In|by apply bool_decide_eq_true].
    + rewrite (filter_cons_False _ _ []) by (intros [He' _]; by apply Hid). simpl. by rewrite Nat.add_0_r.
Qed.

Lemma told_cancel_attempts id l db :
  told id (cancel_attempts db l).2 = if decide (id ∈ omap (λ q, q) l) then Nat.max 1 (told id db) else told id db.
Proof.
  revert db. induction l as [|[q|] l IH]; intros db; cbn [cancel_attempts].
  - by rewrite decide_False by apply not_elem_of_nil.
  - specialize (IH (queue_cancellation db q None)). destruct (cancel_attempts _ l) as [n db']. cbn [snd] in *.
    rewrite IH, told_queue_cancellation. cbn [omap list_omap]. repeat case_decide; set_unfold; try lia; naive_solver.
  - apply IH.
Qed.

(** What the settlement of an attempt leaves of the cancellations of others. *)
Definition told_kept (ids : list Z) (l l' : Lite) : Prop :=
  ∀ id, job_of id l' = job_of id l ∧ told_in id l' <= told_in id l ∧ (id ∉ ids → told_in id l' = told_in id l).

Lemma told_kept_refl ids l : told_kept ids l l.
Proof. by intros id. Qed.
Lemma told_kept_trans ids1 ids2 l1 l2 l3 : told_kept ids1 l1 l2 → told_kept ids2 l2 l3 → told_kept (ids1 ++ ids2) l1 l3.
Proof.
  intros H12 H23 id. destruct (H12 id) as (J1 & T1 & K1), (H23 id) as (J2 & T2 & K2). split_and!; [congruence|lia|].
  rewrite not_elem_of_app. intros [? ?]. rewrite K2 by done. by apply K1.
Qed.

Lemma stamp_kept id s lu now l b l' : stamp_result id s lu now l = Ok (b, l') → told_kept [] l l'.
Proof.
  unfold stamp_result. destruct (parse_lease lu) as [e|]; [|done]. cbn [mbind result_bind].
  assert (∀ l : Lite, told_kept [] l (set_lease id e now l)) as Hlease.
  { intros l0. unfold set_lease, upsert_lease. repeat case_match; by intros ?. }
  destruct (negb (is_terminal s)); [intros [= _ <-]; apply Hlease|].
  unfold update_request. destruct (LiteRequests.job_requests l !! id) as [q|] eqn:Hq; [destruct (LiteRequests.in_flight q)|];
    intros [= _ <-]; [|done..]. cbn [Nat.eqb].
  eapply (told_kept_trans [] []); [|apply Hlease]. intros id'. split_and!; [|done|done]. unfold job_of. cbn.
  destruct (decide (id = id')) as [<-|Hne]; [by rewrite lookup_insert_eq, Hq|by rewrite lookup_insert_ne].
Qed.

Lemma undo_kept id now l : told_kept [id] l (undo_pending_cancellation id now l).
Proof.
  intros id'. split_and!; [done|..]; unfold told_in, undo_pending_cancellation; cbn.
  - induction (cancellations l) as [|x xs IH]; [done|]. rewrite fmap_cons, !filter_cons.
    destruct (bool_decide_reflect (cancelled_request x = id ∧ delivered_at x = None)) as [[? ?]|?]; cbn;
      repeat case_decide; simpl; try lia; naive_solver.
  - intros Hne. induction (cancellations l) as [|x xs IH]; [done|]. rewrite fmap_cons, !filter_cons.
    destruct (bool_decide_reflect (cancelled_request x = id ∧ delivered_at x = None)) as [[? ?]|?]; cbn;
      repeat case_decide; simpl; try lia; set_unfold; naive_solver.
Qed.

Lemma settle_each_kept ids s now l l' : settle_each ids s now l = Ok ((), l') → told_kept ids l l'.
Proof.
  revert l. induction ids as [|id ids IH]; intros l; cbn [settle_each]; [intros [= <-]; apply told_kept_refl|].
  destruct (stamp_result _ _ _ _ _) as [[b l1]|] eqn:Hs; [|done]. cbn [mbind result_bind]. intros Hr.
  apply stamp_kept in Hs. eapply (told_kept_trans [] (id :: ids)); [exact Hs|].
  eapply (told_kept_trans [id] ids); [apply undo_kept|by apply IH].
Qed.

Lemma retire_expandable_kept now r s l db db' :
  retire_expandable now db r s l = Ok db' →
  ∀ id, job_of id (lite (rest db')) = job_of id (lite (rest db)) ∧ told id db' <= told id db ∧
    ((∀ job, job_of id (lite (rest db)) = Some job → is_expandable db r job = false) → told id db' = told id db).
Proof.
  revert db. induction l as [|job l IH]; intros db; cbn [retire_expandable]; [by intros [= <-]|].
  destruct (is_expandable db r job) eqn:He; cbn [mbind result_bind]; [|by apply IH].
  unfold retire_node_requests, settle_requests_for_job.
  destruct (settle_each _ _ _ _) as [[[] l1]|] eqn:Hs; [|done]. cbn [mbind result_bind]. intros Hr id.
  pose proof (settle_each_kept _ _ _ _ _ Hs id) as (Hj & Ht & Hk).
  destruct (IH _ Hr id) as (Hj' & Ht' & Hk'). unfold told in *. cbn [lite rest with_lite with_rest] in *.
  split_and!; [congruence|lia|]. intros Hx. rewrite Hk'; [|intros job'; rewrite Hj; by apply Hx].
  apply Hk. unfold ids_where. rewrite list_elem_of_fmap. intros ([id' q] & -> & [Hq Hp]%rows_where_elem). cbn in *.
  apply andb_true_iff in Hp as [[_ Hjob]%bool_decide_eq_true _]. rewrite <-Hjob, (Hx (job_id q)) in He; [done|].
  unfold job_of. by rewrite Hq.
Qed.

Lemma is_expandable_alter p f db r job : (∀ j, same_key j (f j)) → is_expandable (alter_jobs p f db) r job = is_expandable db r job.
Proof.
  intros Hf. unfold is_expandable. cbn. rewrite existsb_fmap. apply existsb_ext_elem. intros j _. destruct (p j); [|done].
  destruct (Hf j) as [Hr Hn _ _ _ _ _ _ _ Hd Hc]. unfold is_job. by rewrite Hr, Hn, Hd, Hc.
Qed.

Lemma live_request_job db r job id : live_request db r job = Some id → job_of id (lite (rest db)) = Some job.
Proof.
  unfold live_request. intros ([id' q] & (Hq & Hp & _)%newest_Some & ->)%fmap_Some. cbn.
  apply andb_true_iff in Hp as [[_ Hjob]%bool_decide_eq_true _]. unfold job_of. by rewrite Hq, <-Hjob.
Qed.

(** ** Cancelling a run *)

(** The run's row is still open. *)
Definition running db r : bool := existsb (λ x, bool_decide (row_run x = r) && not_completed x) (runs (rest db)).

Lemma update_runs_hits r p f db : (0 <? (update_runs r p f db).1) = existsb (λ x, bool_decide (row_run x = r) && p x) (runs (rest db)).
Proof.
  unfold update_runs. cbn [fst]. induction (runs (rest db)) as [|x l IH]; [done|]. cbn [List.filter existsb].
  by destruct (bool_decide (row_run x = r) && p x).
Qed.

Definition end_row (p : RunRow → bool) (f : RunRow → RunRow) r (x : RunRow) : RunRow :=
  if bool_decide (row_run x = r) && p x then f x else x.

Lemma job_of_attempts id l db : job_of id (lite (rest (cancel_attempts db l).2)) = job_of id (lite (rest db)).
Proof.
  revert db. induction l as [|[q|] l IH]; intros db; cbn [cancel_attempts]; [done| |apply IH].
  specialize (IH (queue_cancellation db q None)). destruct (cancel_attempts _ l). cbn [snd] in *. rewrite IH.
  unfold queue_cancellation. cbv zeta. by case_match.
Qed.

(** The cancellations queued: one for each attempt of a running job. *)
Definition in_flight db r : list Z :=
  omap (λ j, live_request db r (job_name j)) (List.filter (λ j, str_eqb (job_status j) "in_progress") (rows_of db r)).

(** Tables with the same jobs and groups. *)
Record like_rows db db' : Prop := mk_like_rows {
  like_holds : holds db' = holds db;
  like_waits : waits db' = waits db;
  like_labels : runner_labels db' = runner_labels db;
  like_jobs : job_rows db' = job_rows db;
}.

Lemma like_free r db db' : like_rows db db' → groups_free r db → groups_free r db'.
Proof. intros [Hh Hw _ Hj] [? ? ?]. split; [by rewrite Hh|by rewrite Hw|by rewrite Hj]. Qed.

Lemma like_commanded r db db1 db' : like_rows db1 db' → commanded r db db1 → commanded r db db'.
Proof.
  intros [Hh Hw Hl Hj] [Hwf Hst Hv].
  assert (rows_of db' r = rows_of db1 r) as Hrows by (unfold rows_of; by rewrite Hj).
  assert (live_rows db' r = live_rows db1 r) as Hlive by (unfold live_rows; by rewrite Hrows).
  assert (∀ need, need_open db' r need = need_open db1 r need) as Hneed by (intros; unfold need_open; by rewrite Hrows).
  split.
  - destruct Hwf as [Hn Hq Hp Hc]. split; rewrite ?Hrows, ?Hlive; [done..|].
    intros Hcnt j Hin Hb. rewrite Hrows in Hin. specialize (Hc Hcnt j Hin Hb). apply elem_of_rows_of in Hin as [_ Hr]. revert Hc. unfold open_needs.
    by rewrite Hr, (List.filter_ext _ _ Hneed).
  - assert (run_graph db' r = run_graph db1 r) as Hg by (unfold run_graph, run_statuses; by rewrite Hlive, Hrows).
    unfold starts_ok. rewrite Hlive, Hg. exact Hst.
  - destruct Hv as [? ? ? ?]. split; [by rewrite Hh|by rewrite Hw|by rewrite Hl|by rewrite Hj].
Qed.

Lemma close_all_free p f r db : (∀ j, same_key j (f j)) → groups_free r db → groups_free r (close_all p f r db).
Proof.
  intros Hf. apply (moves_free r (λ _ _, True)). apply moves_alter; [|done].
  intros j [Hr _]%andb_true_iff. apply bool_decide_eq_true in Hr. by split.
Qed.

Definition cancel_row j : JobRow := with_detail bump_generation (with_state "none" "cancelled" j).

Lemma cancel_run_free (c : Cascade) now db r :
  groups_free r db → run_exists db r = true →
  ∃ db', cancel_run_inner c now db r = Ok (length (in_flight db r), running db r, db') ∧
    like_rows (close_all open_row cancel_row r db) db' ∧
    runs (rest db') = end_row not_completed (conclude_run "cancelled") r <$> runs (rest db) ∧
    outbox (rest db') = outbox (rest db) ++ (if running db r then [RunCompleted r "cancelled"] else []) ∧
    ∀ id, (id ∉ in_flight db r → told id db' <= told id db) ∧
      (id ∈ in_flight db r → (∀ job, job_of id (lite (rest db)) = Some job → is_expandable db r job = false) →
         told id db' = Nat.max 1 (told id db)).
Proof.
  intros Hf Hex. unfold cancel_run_inner. rewrite Hex. cbn [negb]. cbv zeta.
  set (fl := _ <$> List.filter _ (rows_of db r)).
  assert (omap (λ q, q) fl = in_flight db r) as Hfl.
  { unfold fl, in_flight. induction (List.filter _ (rows_of db r)) as [|j l IH]; [done|]. cbn. rewrite <-IH.
    by destruct (live_request db r (job_name j)). }
  assert (∀ id, told id (cancel_attempts db fl).2 = if decide (id ∈ in_flight db r) then Nat.max 1 (told id db) else told id db)
    as Htold by (intros id; by rewrite told_cancel_attempts, Hfl).
  assert (∀ id, job_of id (lite (rest (cancel_attempts db fl).2)) = job_of id (lite (rest db))) as Hjobs
    by (intros; apply job_of_attempts).
  pose proof (cancel_attempts_spec fl db) as [Hn [l1 Hl1]]. destruct (cancel_attempts db fl) as [n db1].
  cbn [fst snd] in Hn, Hl1, Htold, Hjobs. rewrite Hfl in Hn. subst n db1.
  set (db2 := alter_jobs _ _ _).
  destruct (retire_expandable_Ok now r Cancelled (job_name <$> List.filter open_row (rows_of (with_lite db l1) r)) db2)
    as (db3 & Hret & [l3 ->]). rewrite Hret. cbn [mbind result_bind].
  assert (∀ id, (id ∉ in_flight db r → told_in id l3 <= told id db) ∧
      (id ∈ in_flight db r → (∀ job, job_of id (lite (rest db)) = Some job → is_expandable db r job = false) →
         told_in id l3 = Nat.max 1 (told id db))) as Hfinal.
  { intros id. destruct (retire_expandable_kept _ _ _ _ _ _ Hret id) as (_ & Hle & Heq).
    change (told id db2) with (told id (with_lite db l1)) in Hle, Heq. rewrite Htold in Hle, Heq.
    change (told id (with_lite db2 l3)) with (told_in id l3) in Hle, Heq. split.
    - intros Hid. by rewrite decide_False in Hle.
    - intros Hid Hx. rewrite decide_True in Heq by done. apply Heq. intros job Hjob. unfold db2.
      rewrite is_expandable_alter by by split. apply (Hx job). by rewrite <-Hjobs. }
  clear Hret Htold Hjobs.
  pose proof (update_runs_hits r not_completed (conclude_run "cancelled") (with_lite db2 l3)) as Hhit.
  destruct (update_runs r not_completed _ _) as [finalized db4] eqn:Hup. cbn [fst] in Hhit.
  change (existsb _ _) with (running db r) in Hhit. unfold update_runs in Hup. injection Hup as _ <-.
  rewrite release_run_free; cbn [mbind result_bind]; cycle 1.
  { destruct (close_all_free open_row cancel_row r (with_lite db l1)) as [? ? ?]; [by split|by destruct Hf|by split]. }
  rewrite Hhit. eexists. split; [done|].
  destruct (running db r); split_and!; (exact Hfinal || done || by rewrite app_nil_r || by split).
Qed.

Lemma end_row_idle db r f : running db r = false → end_row not_completed f r <$> runs (rest db) = runs (rest db).
Proof.
  unfold running. induction (runs (rest db)) as [|x l IH]; [done|]. cbn [existsb]. intros [Hx Hl]%orb_false_iff.
  rewrite fmap_cons, IH by done. unfold end_row. by rewrite Hx.
Qed.

Lemma expire_run_free (c : Cascade) now db r :
  groups_free r db →
  ∃ db', expire_run c now db r = Ok (running db r, db') ∧
    like_rows (close_all unexpired_row (with_state "none" "failure") r db) db' ∧
    runs (rest db') = (if running db r
                       then end_row not_completed (λ x, clear_fork_hold (conclude_run "failure" x)) r
                       else end_row (λ _, true) clear_fork_hold r) <$> runs (rest db) ∧
    outbox (rest db') = outbox (rest db) ++ (if running db r then [RunCompleted r "failure"] else []).
Proof.
  intros Hf. unfold expire_run. cbv zeta. set (db2 := alter_jobs _ _ _).
  destruct (retire_expandable_Ok now r Failure (job_name <$> List.filter unexpired_row (rows_of db r)) db2)
    as (db3 & -> & [l3 ->]). cbn [mbind result_bind].
  pose proof (update_runs_hits r not_completed (λ x, clear_fork_hold (conclude_run "failure" x)) (with_lite db2 l3)) as Hhit.
  destruct (update_runs r not_completed _ _) as [finalized db4] eqn:Hup. cbn [fst] in Hhit.
  change (existsb _ _) with (running db r) in Hhit. rewrite <-Hhit. unfold update_runs in Hup. injection Hup as Hfin <-.
  destruct (Nat.eqb_spec finalized 0) as [Hz|Hnz].
  - rewrite Hz in Hhit. assert (running db r = false) as Hidle by exact (eq_sym Hhit).
    rewrite Hz. eexists. split; [done|]. split_and!; [by split| |by rewrite app_nil_r].
    change (end_row (λ _, true) clear_fork_hold r <$> (end_row not_completed (λ x, clear_fork_hold (conclude_run "failure" x)) r
              <$> runs (rest db)) = end_row (λ _, true) clear_fork_hold r <$> runs (rest db)).
    by rewrite end_row_idle.
  - assert ((0 <? finalized) = true) as -> by by apply Nat.ltb_lt, Nat.neq_0_lt_0.
    rewrite release_run_free; cbn [mbind result_bind]; cycle 1.
    { destruct (close_all_free unexpired_row (with_state "none" "failure") r db) as [? ? ?]; [by split|by destruct Hf|by split]. }
    eexists. split; [done|]. split_and!; (done || by split).
Qed.

(** C33: cancelling a run that uses no concurrency group. Every job that was not
    final is cancelled and leaves its queue, the others keep their verdict. The
    attempt of a running job, unless the job stands for an expansion, has one
    cancellation it has not been told, whether or not one was waiting before
    (more only if there were more), and no other attempt gets one. The run is
    concluded if it was not, and the event that says so is written exactly when
    it was not. *)
Theorem cancel_run_spec (c : Cascade) now db r :
  groups_free r db → run_exists db r = true →
  ∃ db', cancel_run_inner c now db r = Ok (length (in_flight db r), running db r, db') ∧
    job_rows db' = (λ j, if bool_decide (job_run j = r) && open_row j
                         then with_detail bump_generation (with_state "none" "cancelled" j) else j) <$> job_rows db ∧
    (∀ j id, j ∈ rows_of db r → job_status j = "in_progress" → live_request db r (job_name j) = Some id →
       is_expandable db r (job_name j) = false → told id db' = Nat.max 1 (told id db)) ∧
    (∀ id, id ∉ in_flight db r → told id db' <= told id db) ∧
    runs (rest db') = end_row not_completed (conclude_run "cancelled") r <$> runs (rest db) ∧
    outbox (rest db') = outbox (rest db) ++ (if running db r then [RunCompleted r "cancelled"] else []).
Proof.
  intros Hf Hex. destruct (cancel_run_free c now db r Hf Hex) as (db' & Hc & [_ _ _ Hj] & Hr & Ho & Ht). exists db'.
  split_and!; [done|done| |intros id; apply Ht|done|done].
  intros j id Hin Hs Hl Hx. apply Ht.
  - unfold in_flight. apply list_elem_of_omap. exists j. split; [|done].
    apply list_elem_of_In, filter_In. split; [by apply list_elem_of_In|]. unfold str_eqb. by apply bool_decide_eq_true.
  - intros job Hjob. rewrite (live_request_job _ _ _ _ Hl) in Hjob. by injection Hjob as <-.
Qed.

(** ** Cancelling a job, and starving one *)

Lemma closes_commanded r db db' : counted = false → run_wf r db → moves r closes db db' → commanded r db db'.
Proof. intros Hcnt Hwf Hm. apply settled_commanded; [done|]. split; [done|]. intros _ Hc. congruence. Qed.

Definition open_count r db : nat := length (List.filter open_row (rows_of db r)).

Lemma open_count_le r db db' : moves r closes db db' → open_count r db' <= open_count r db.
Proof.
  intros Hm. unfold open_count. induction (moves_rows_of _ _ _ _ Hm) as [|j d l k [_ Hc] _ IH]; [done|]. cbn [List.filter].
  destruct (open_row d) eqn:Hd; [rewrite (closes_open j d Hc Hd)|destruct (open_row j)]; simpl; auto with arith.
Qed.

Lemma open_count_lt r db db' j d :
  NoDup (job_name <$> rows_of db r) → moves r closes db db' → j ∈ rows_of db r → open_row j = true →
  d ∈ rows_of db' r → job_name d = job_name j → open_row d = false → open_count r db' < open_count r db.
Proof.
  intros Hnd Hm Hj Ho Hd Hn Hcl. apply (filter_length_lt _ _ _ _ j); [|done|done|].
  - eapply Forall2_impl; [exact (moves_rows_of _ _ _ _ Hm)|]. intros x y [_ Hc]. by apply closes_open.
  - intros i y Hi Hy. destruct (Forall2_lookup_lr _ _ _ _ _ _ (moves_rows_of _ _ _ _ Hm) Hi Hy) as [Hk _].
    assert (y = d) as ->; [|done]. apply (name_unique r db'); [by rewrite (moves_names _ _ _ _ Hm)|..|done|].
    + by eapply list_elem_of_lookup_2.
    + by rewrite (same_name _ _ Hk), Hn.
Qed.

Lemma bump_finish_closes r job s db : is_terminal s = true → moves r closes db (finish_job_row (bump_job db r job) r job s).
Proof.
  intros Hs. eapply closes_moves_trans; [|by apply finish_moves]. apply moves_alter; [|intros; apply closes_refl].
  intros j [Hr _]%is_job_true. split_and!; [by apply with_detail_key|done|by left].
Qed.

Lemma bump_finish_closed r job s db d : is_terminal s = true →
  d ∈ rows_of (finish_job_row (bump_job db r job) r job s) r → job_name d = job → open_row d = false.
Proof.
  intros Hs Hd Hn. unfold finish_job_row in Hd. rewrite rows_of_alter in Hd by (intros; apply with_state_key).
  apply list_elem_of_fmap in Hd as (j & -> & Hj). apply elem_of_rows_of in Hj as [_ Hr].
  destruct (open_row j) eqn:Ho; [|rewrite andb_false_r; done]. rewrite andb_true_r in *.
  destruct (is_job r job j) eqn:Hjob.
  - unfold open_row. simpl. pose proof (open_status s) as Ht. rewrite Hs in Ht. exact Ht.
  - exfalso. apply not_true_iff_false in Hjob. by apply Hjob, is_job_true.
Qed.

Lemma find_job_rows db r job j : find_job db r job = Some j → j ∈ rows_of db r ∧ job_name j = job.
Proof.
  unfold find_job. intros [Hin [Hr Hn]%is_job_true]%List.find_some. split; [|done].
  apply elem_of_rows_of. split; [by apply list_elem_of_In|done].
Qed.

Lemma row_found db r j : j ∈ rows_of db r → is_Some (find_job db r (job_name j)).
Proof.
  intros [Hin Hr]%elem_of_rows_of. unfold find_job. destruct (List.find _ _) eqn:Hf; [done|].
  eapply List.find_none in Hf; [|by apply list_elem_of_In]. by rewrite (proj2 (is_job_true r (job_name j) j)) in Hf.
Qed.

Definition job_open db r job : bool := existsb (λ j, str_eqb (job_name j) job && open_row j) (rows_of db r).

Lemma cancel_job_inner_free (c : Cascade) now r fuel : ∀ db job,
  groups_free r db → NoDup (job_name <$> rows_of db r) →
  open_count r db + (if job_open db r job then 0 else 1) <= fuel → fuel ≠ 0 →
  ∃ n db', cancel_job_inner c now fuel db r job = Ok (n, db') ∧ moves r closes db db'.
Proof.
  induction fuel as [|fuel IH]; intros db job Hf Hnd Hfuel Hnz; [done|]. cbn [cancel_job_inner].
  destruct (find_job db r job) as [j|] eqn:Hj; [|by exists 0, db; split; [|apply moves_refl, closes_refl]].
  apply find_job_rows in Hj as [Hj Hn]. cbv zeta. set (db0 := match live_request db r job with Some _ => _ | None => (0, db) end).
  assert (same_rows db db0.2) as Hs0.
  { unfold db0. destruct (live_request db r job); [destruct (bool_decide _); [apply queue_cancellation_same|]|]; apply same_rows_refl. }
  destruct db0 as [count db1]. cbn [snd] in Hs0.
  pose proof (same_rows_moves r closes _ _ closes_refl Hs0) as Hm0.
  set (db2 := finish_job_row _ r job Cancelled). set (children := job_name <$> List.filter _ (rows_of db2 r)).
  assert (moves r closes db db2) as Hm2 by (eapply closes_moves_trans; [exact Hm0|by apply bump_finish_closes]).
  (* fewer rows are open than fuel is left *)
  assert (open_count r db2 <= fuel) as Hfuel2.
  { destruct (job_open db r job) eqn:Hopen.
    - unfold job_open in Hopen. apply existsb_exists in Hopen as (x & Hx%list_elem_of_In & [Hxn Hxo]%andb_true_iff).
      apply bool_decide_eq_true in Hxn. destruct (moves_row_l _ _ _ _ Hm2 x Hx) as (d & Hd & Hk & _).
      assert (open_count r db2 < open_count r db) as Hlt; [|lia].
      apply (open_count_lt r db db2 x d Hnd Hm2 Hx Hxo Hd (same_name _ _ Hk)).
      eapply (bump_finish_closed r job Cancelled db1); [done|exact Hd|]. by rewrite (same_name _ _ Hk).
    - pose proof (open_count_le _ _ _ Hm2). lia. }
  assert (∀ l db3 n, (∀ child, child ∈ l → child ∈ children) → moves r closes db2 db3 →
    ∃ n' db4, (fix each db count l : result ControlError (nat * Db) :=
            match l with
            | [] => Ok (count, db)
            | child :: l => '(n, db) ← cancel_job_inner c now fuel db r child; each db (count + n) l
            end) db3 n l = Ok (n', db4) ∧ moves r closes db2 db4) as Heach.
  { induction l as [|child l IHl]; intros db3 n Hch Hm3; [by exists n, db3|].
    assert (child ∈ children) as Hc by (apply Hch; by left). unfold children in Hc.
    apply list_elem_of_fmap in Hc as (x & -> & [Hx Hxo]%list_elem_of_In%filter_In). apply andb_true_iff in Hxo as [_ Hxo].
    apply list_elem_of_In in Hx. destruct (moves_row_l _ _ _ _ Hm3 x Hx) as (d & Hd & Hk & _).
    assert (NoDup (job_name <$> rows_of db2 r)) as Hnd2 by by rewrite (moves_names _ _ _ _ Hm2).
    destruct (IH db3 (job_name x)) as (n1 & db4 & -> & Hm4).
    - eapply moves_free; [exact Hm3|]. by eapply moves_free.
    - by rewrite (moves_names _ _ _ _ Hm3).
    - destruct (job_open db3 r (job_name x)) eqn:Hopen.
      + pose proof (open_count_le _ _ _ Hm3). lia.
      + assert (open_row d = false) as Hdo.
        { apply not_true_iff_false. intros Hdo. apply not_true_iff_false in Hopen. apply Hopen, existsb_exists.
          exists d. split; [by apply list_elem_of_In|]. unfold str_eqb. rewrite Hdo, andb_true_r. apply bool_decide_eq_true, (same_name _ _ Hk). }
        pose proof (open_count_lt r db2 db3 x d Hnd2 Hm3 Hx Hxo Hd (same_name _ _ Hk) Hdo). lia.
    - assert (x ∈ List.filter open_row (rows_of db2 r)) as Hin by (apply list_elem_of_In, filter_In; split; [by apply list_elem_of_In|done]).
      intros ->. unfold open_count in Hfuel2. apply Nat.le_0_r, length_zero_iff_nil in Hfuel2. rewrite Hfuel2 in Hin.
      by apply not_elem_of_nil in Hin.
    - cbn [mbind result_bind]. apply IHl; [intros ? ?; apply Hch; by right|by eapply closes_moves_trans]. }
  destruct (Heach children db2 count) as (n & db3 & -> & Hm3); [done|by apply moves_refl, closes_refl|]. cbn [mbind result_bind].
  assert (∃ db4, (if is_expandable db r job then retire_node_requests now db3 r job Cancelled else Ok db3) = Ok db4 ∧ same_rows db3 db4)
    as (db4 & -> & Hs4).
  { destruct (is_expandable db r job); [|by exists db3; split; [|apply same_rows_refl]].
    destruct (retire_Ok now db3 r job Cancelled) as [l' ->]. eexists. split; [done|by eexists]. }
  cbn [mbind result_bind]. pose proof (same_rows_moves r closes _ _ closes_refl Hs4) as Hm4.
  rewrite release_job_free; cycle 1.
  { eapply moves_free; [exact Hm4|]. eapply moves_free; [exact Hm3|]. by eapply moves_free. }
  cbn [mbind result_bind]. eexists _, _. split; [done|].
  eapply closes_moves_trans; [exact Hm2|]. eapply closes_moves_trans; [exact Hm3|]. eapply closes_moves_trans; [exact Hm4|].
  apply same_rows_moves; [apply closes_refl|apply summarize_same_rows].
Qed.

Lemma cancel_job_free (c : Cascade) now r job db : groups_free r db → NoDup (job_name <$> rows_of db r) →
  ∃ n db', cancel_job c now db r job = Ok (n, db') ∧ moves r closes db db'.
Proof.
  intros Hf Hnd. apply cancel_job_inner_free; [done..| |done]. unfold cancel_depth, open_count.
  assert (length (List.filter open_row (rows_of db r)) <= length (job_rows db)) as Hle.
  { unfold rows_of. etrans; apply List.filter_length_le. }
  case_match; lia.
Qed.

Lemma starve_job_closes r job db : run_wf r db → moves r closes db (starve_job db r job).
Proof.
  intros Hwf. unfold starve_job. eapply closes_moves_trans; [|apply same_rows_moves; [apply closes_refl|apply summarize_same_rows]].
  assert (moves r (λ j d, d = j ∨ job_queue_state j = "ready" ∧ open_row d = false ∧ job_queue_state d = "none") db
    (alter_jobs (λ j, is_job r job j && str_eqb (job_queue_state j) "ready") (with_state "none" "failure") db)) as Hm.
  { apply moves_alter; [|by left]. intros j [[Hr _]%is_job_true Hq]%andb_true_iff. apply bool_decide_eq_true in Hq.
    split_and!; [apply with_state_key|done|by right]. }
  eapply moves_mono; [|exact (moves_elem _ _ _ _ Hm)]. intros j d [[->|(Hq & Hd & Hqd)] [Hj _]]; [by left|right].
  split_and!; [|done|done]. apply not_false_iff_true. intros Ho.
  assert (j ∈ live_rows db r) as Hlive.
  { apply elem_of_live_rows. split; [done|]. apply not_true_iff_false. intros Hrep.
    destruct (parents_ok _ _ Hwf j Hj Hrep). congruence. }
  pose proof (queues_ok _ _ Hwf j Hlive) as Hok. unfold queue_ok in Hok. rewrite Ho, Hq in Hok.
  revert Hok. apply not_closed_state. by left.
Qed.

(** ** Any sequence of commands *)

Lemma commanded_refl r db : run_wf r db → commanded r db db.
Proof. intros Hwf. by apply same_rows_commanded, same_rows_refl. Qed.

Lemma commanded_free r db db' : commanded r db db' → groups_free r db → groups_free r db'.
Proof. intros Hc. exact (moves_free _ _ _ _ (cmd_verdicts _ _ _ Hc) r). Qed.

Lemma run_command_spec inputs c r cmd db : run_wf r db → groups_free r db → command_ok cmd →
  counted = false ∨ refreshes cmd →
  ∃ db', run_command inputs c r cmd db = Ok db' ∧ commanded r db db'.
Proof.
  intros Hwf Hf Hok Hcnt. destruct cmd as [|job reported|job|job| | |job|job]; cbn [run_command].
  - destruct (promote_run_spec inputs c r no_outcome db Hwf Hf) as (o & db' & -> & Hp). exists db'.
    split; [done|by eapply sweep_commanded].
  - destruct (settle_node_free c (in_now inputs) r job reported db Hf (names_unique _ _ Hwf) Hok) as (e & db' & -> & Hs & _).
    exists db'. split; [done|by apply settled_commanded].
  - eexists. split; [done|by apply claim_commanded].
  - eexists. split; [done|by apply lease_commanded].
  - destruct (run_exists db r) eqn:Hex.
    + destruct (cancel_run_free c (in_now inputs) db r Hf Hex) as (db' & -> & Hl & _). exists db'. split; [done|].
      eapply like_commanded; [exact Hl|]. apply (close_all_commanded r open_row cancel_row Cancelled db Hwf); [done..|by intros j []%waiting_open|intros j; split_and!; [by split|done..]].
    + unfold cancel_run_inner. rewrite Hex. exists db. split; [done|by apply commanded_refl].
  - destruct (expire_run_free c (in_now inputs) db r Hf) as (db' & -> & Hl & _). exists db'. split; [done|].
    eapply like_commanded; [exact Hl|]. apply (close_all_commanded r unexpired_row (with_state "none" "failure") Failure db Hwf);
      [done|apply unexpired_open|by intros j []%waiting_open|intros j; split_and!; [by split|done..]].
  - destruct Hcnt as [Hcnt|[]].
    destruct (cancel_job_free c (in_now inputs) r job db Hf (names_unique _ _ Hwf)) as (n & db' & -> & Hm).
    exists db'. split; [done|by apply closes_commanded].
  - destruct Hcnt as [Hcnt|[]]. eexists. split; [done|]. by apply closes_commanded, starve_job_closes.
Qed.

Lemma run_commands_spec inputs c r cmds db : run_wf r db → groups_free r db → Forall command_ok cmds →
  counted = false ∨ Forall refreshes cmds →
  ∃ db', run_commands inputs c r cmds db = Ok db' ∧ commanded r db db'.
Proof.
  revert db. induction cmds as [|cmd cmds IH]; intros db Hwf Hf Hall Hcnt.
  - exists db. split; [done|by apply commanded_refl].
  - apply Forall_cons in Hall as [Hok Hall]. cbn [run_commands].
    destruct (run_command_spec inputs c r cmd db Hwf Hf Hok) as (db1 & -> & Hc1).
    { destruct Hcnt as [?|Hcnt]; [by left|right]. by inversion Hcnt. }
    cbn [mbind result_bind].
    destruct (IH db1) as (db2 & -> & Hc2); [apply Hc1|by eapply commanded_free|done| |].
    { destruct Hcnt as [?|Hcnt]; [by left|right]. by inversion Hcnt. }
    exists db2. split; [done|by eapply commanded_trans].
Qed.

(** ** Fail-fast *)

(** The rows of [names] that were open are cancelled, the others keep their state. *)
Definition cancels (names : list string) j d : Prop :=
  if open_row j && bool_decide (job_name j ∈ names)
  then job_status d = "cancelled" ∧ job_queue_state d = "none" else same_state j d.

Lemma cancels_trans n names j1 j2 j3 : same_key j1 j2 → cancels [n] j1 j2 → cancels names j2 j3 → cancels (n :: names) j1 j3.
Proof.
  intros Hk. unfold cancels. rewrite (same_name _ _ Hk).
  destruct (open_row j1) eqn:Ho; cbn [andb].
  - destruct (decide (job_name j1 = n)) as [Hn|Hn].
    + rewrite (bool_decide_eq_true_2 (job_name j1 ∈ [n])), (bool_decide_eq_true_2 (job_name j1 ∈ n :: names))
        by (rewrite Hn; by left).
      intros [Hs Hq]. assert (open_row j2 = false) as -> by (unfold open_row; by rewrite Hs).
      intros [-> ->]. done.
    + rewrite (bool_decide_eq_false_2 (job_name j1 ∈ [n])) by by intros ?%list_elem_of_singleton.
      intros Hs. rewrite (same_state_open _ _ Hs), Ho. cbn [andb].
      rewrite (bool_decide_ext (job_name j1 ∈ n :: names) (job_name j1 ∈ names))
        by (rewrite elem_of_cons; split; [by intros [?|?]|by right]).
      case_bool_decide; [done|]. by apply same_state_trans.
  - intros Hs. rewrite (same_state_open _ _ Hs), Ho. by apply same_state_trans.
Qed.

Lemma cancel_sibling_exact (c : Cascade) r failed db j request : groups_free r db →
  ∃ db', cancel_sibling c r failed db (j, request) = Ok db' ∧ moves r (cancels [job_name j]) db db'.
Proof.
  intros Hf. unfold cancel_sibling. cbv zeta. set (db0 := match request with Some _ => _ | None => db end).
  assert (same_rows db db0) as [t Ht].
  { unfold db0. destruct request; [case_match; [apply queue_cancellation_same|]|]; apply same_rows_refl. }
  rewrite Ht. clear db0 Ht. rewrite release_job_free;
    [|eapply moves_free; [by apply (finish_moves _ _ Cancelled)|by destruct Hf]].
  eexists. split; [done|].
  apply (moves_trans r (cancels [job_name j]) same_state _ db (finish_job_row (with_rest db t) r (job_name j) Cancelled)).
  - intros j1 j2 j3 _ _. unfold cancels. case_match; [by intros [? ?] [-> ->]|apply same_state_trans].
  - apply (moves_trans r (λ j d, d = j) (cancels [job_name j]) _ db (with_rest db t)); [by intros j1 j2 j3 _ _ ->|by apply moves_rest|].
    apply moves_alter; unfold cancels.
    + intros d [[Hr Hn]%is_job_true Ho]%andb_true_iff. split_and!; [apply with_state_key|done|].
      rewrite Ho, Hn, bool_decide_eq_true_2 by by left. done.
    + intros d Hp Hr. destruct (open_row d) eqn:Ho; [|done]. cbn [andb].
      case_bool_decide as Hn; [|done]. apply list_elem_of_singleton in Hn. rewrite andb_true_r in Hp.
      apply not_true_iff_false in Hp. exfalso. by apply Hp, is_job_true.
  - apply refresh_moves. by intros d [[Hr _]%andb_true_iff _]%andb_true_iff; apply bool_decide_eq_true in Hr.
Qed.

Lemma cancel_siblings_exact (c : Cascade) r failed l db : groups_free r db →
  ∃ db', cancel_siblings c r failed db l = Ok db' ∧ moves r (cancels (job_name <$> l.*1)) db db'.
Proof.
  revert db. induction l as [|[j q] l IH]; intros db Hf.
  - exists db. split; [done|]. apply moves_refl. intros j. unfold cancels.
    rewrite bool_decide_eq_false_2 by apply not_elem_of_nil. by rewrite andb_false_r.
  - cbn [cancel_siblings]. destruct (cancel_sibling_exact c r failed db j q Hf) as (db1 & -> & Hm). cbn [mbind result_bind].
    destruct (IH db1) as (db2 & -> & Hm2); [exact (moves_free _ _ _ _ Hm r Hf)|]. exists db2. split; [done|].
    eapply moves_trans; [|exact Hm|exact Hm2]. intros j1 j2 j3 Hk _. by apply cancels_trans.
Qed.

(** Fail-fast: when a job whose base lets it fail fast has failed, exactly the
    other legs of its base that wait or run are cancelled, in the order of the
    jobs; every other job keeps its state. *)
Theorem fail_fast_spec (c : Cascade) r job failed db :
  groups_free r db → NoDup (job_name <$> rows_of db r) →
  find_job db r job = Some failed → fail_fast_for_base db r (job_base_id failed) = true →
  ∃ db', apply_fail_fast c db r job = Ok (job_name <$> by_order (List.filter (may_fail_fast r failed) (job_rows db)), db') ∧
    Forall2 (λ j d, same_key j d ∧ (job_run j ≠ r → d = j) ∧
      (job_run j = r → if may_fail_fast r failed j then job_status d = "cancelled" ∧ job_queue_state d = "none"
                       else same_state j d)) (job_rows db) (job_rows db').
Proof.
  intros Hf Hnd Hjob Hff. unfold apply_fail_fast. rewrite Hjob, Hff. cbn [negb]. cbv zeta.
  set (siblings := by_order _). set (l := (λ j, _) <$> siblings).
  assert (l.*1 = siblings) as Hl by (unfold l; rewrite <-list_fmap_compose; by apply list_fmap_id).
  destruct (cancel_siblings_exact c r failed l db Hf) as (db1 & -> & Hm). cbn [mbind result_bind].
  assert (∃ db', (if length (job_name <$> siblings) =? 0 then db1 else (summarize_run_row db1 r).2) = db' ∧ same_rows db1 db')
    as (db' & -> & Hs).
  { case_match; [by eexists; split; [|apply same_rows_refl]|]. eexists. split; [done|apply summarize_same_rows]. }
  exists db'. split; [done|]. destruct Hs as [t ->]. cbn [job_rows with_rest]. rewrite Hl in Hm.
  eapply Forall2_impl; [exact (moved_rows _ _ _ _ (moves_elem _ _ _ _ Hm))|].
  intros j d (Hk & Ho & Hc). split_and!; [done..|]. intros Hr. destruct (Hc Hr) as (Hjd & Hj & _). revert Hjd. unfold cancels.
  assert (open_row j && bool_decide (job_name j ∈ job_name <$> siblings) = may_fail_fast r failed j) as ->; [|done].
  apply eq_true_iff_eq. rewrite andb_true_iff, bool_decide_eq_true, list_elem_of_fmap. split.
  - intros (Hopen & x & Hn & Hx). unfold siblings, by_order in Hx. rewrite merge_sort_Permutation in Hx.
    apply list_elem_of_In, filter_In in Hx as [Hx Hmay]. assert (j = x) as ->; [|done].
    apply (name_unique r db); [done..| |done]. apply elem_of_rows_of. split; [by apply list_elem_of_In|].
    unfold may_fail_fast in Hmay. rewrite !andb_true_iff in Hmay. destruct Hmay as (((Hxr & _) & _) & _).
    by apply bool_decide_eq_true in Hxr.
  - intros Hmay. split.
    + unfold may_fail_fast in Hmay. rewrite !andb_true_iff in Hmay. destruct Hmay as (_ & Hst%bool_decide_eq_true).
      unfold open_row. apply negb_true_iff, bool_decide_eq_false.
      repeat (apply elem_of_cons in Hst as [->|Hst]; [by apply (bool_decide_unpack _); vm_compute|]). by apply not_elem_of_nil in Hst.
    + exists j. split; [done|]. unfold siblings, by_order. rewrite merge_sort_Permutation.
      apply list_elem_of_In, filter_In. split; [|done]. apply list_elem_of_In. by apply elem_of_rows_of in Hj as [? _].
Qed.

End runs.

(** ** What the commands guarantee *)
Section guarantees.
Context {num Conc : Type} `{NumberOps num, JsonCodec num, UnicodeCase, UnicodeLower, LeaseCodec}.
Abbreviation JobRow := (JobRow string (JobDetail num Conc)).
Abbreviation Db := (Db string (JobDetail num Conc) Tables).
Abbreviation Cascade := (Cascade (num:=num) (Conc:=Conc)).
Implicit Types (inputs : SweepInputs num Conc) (c : Cascade) (db : Db) (j d : JobRow) (r job : string).

(** C5: liveness of the scheduler. Take a run that uses no concurrency group,
    whose tables are well formed (counts of open needs included), whose needs
    name jobs and form no cycle, and whose bases let a leg run. The sweep ends;
    a job that is still blocked although all its needs are final waits only for
    [max-parallel], with an active leg of its base; and unless every job is
    final, some job is active: running, queued for a runner or an expansion, or
    held by a gate. *)
Theorem no_job_stranded inputs c r o db :
  run_wf (CK:=true) r db → groups_free r db → plan_ok r db →
  ∃ o' db', promote_run inputs c o db r = Ok (o', db') ∧
    (∀ j, j ∈ live_rows db' r → job_queue_state j = "blocked" →
       (∀ need d, need ∈ declared_needs (job_detail j) → d ∈ live_rows db' r → matches_need need d = true → open_row d = false) →
       under_max_parallel db' j = false ∧ ∃ d, d ∈ live_rows db' r ∧ job_base_id d = job_base_id j ∧ active d) ∧
    ((∃ j, j ∈ live_rows db' r ∧ open_row j = true) → ∃ j, j ∈ live_rows db' r ∧ active j).
Proof.
  intros Hwf Hf Hp. destruct (sweep_strands_none (CK:=true) inputs c r o db eq_refl Hwf Hf Hp) as (o' & db' & Hrun & Hblk & Hact).
  exists o', db'. split_and!; [done| |done]. intros j Hj Hb Hall. apply Hblk; [done..|]. apply (closed_needs r); [|done].
  by apply elem_of_live_rows in Hj as [[_ Hr]%elem_of_rows_of _].
Qed.

(** C6: take a run without concurrency groups whose tables are well formed (the
    counts of open needs aside), and any sequence of sweeps, completions
    (which report a final status), claims of jobs and expansions, cancellations
    of the run or of a job, expiries and starvations. None fails; and if it was so before, then a job is queued,
    claimed or expanded only when it has no needs, or some job stands for its
    needs and every such job is final, and succeeded unless the job has a
    condition of its own. If each need named a job before, each still does. *)
Theorem jobs_start_after_needs inputs c r cmds db :
  run_wf (CK:=false) r db → groups_free r db → starts_ok r db → Forall command_ok cmds →
  ∃ db', run_commands inputs c r cmds db = Ok db' ∧
    (∀ j, j ∈ live_rows db' r → job_queue_state j ∈ ["ready"; "claimed"; "pending_expansion"; "expanding"] →
      let statuses := direct_statuses (run_graph db' r) (declared_needs (job_detail j)) in
      declared_needs (job_detail j) = [] ∨
      statuses ≠ [] ∧ Forall (λ s, is_terminal s = true) statuses ∧
      (spec_if (job_detail j) = None → Forall (λ s, s = Success) statuses)) ∧
    (needs_named r db → needs_named r db').
Proof.
  intros Hwf Hf Hst Hok.
  destruct (run_commands_spec (CK:=false) inputs c r cmds db Hwf Hf Hok (or_introl eq_refl)) as (db' & Hrun & Hc).
  exists db'. split_and!; [exact Hrun|exact (cmd_starts _ _ _ Hc Hst)|].
  eapply moves_needs_named. exact (cmd_verdicts _ _ _ Hc).
Qed.


End guarantees.

(** ** A run *)

#[local] Instance case_codec : LeaseCodec := {|
  parse_lease_us s := if bool_decide (s = "") then None else Some (Z.of_nat (String.length s));
  agent_request_locked_until now := "t" +:+ pretty now; locked_until_parses now := ltac:(by eexists) |}.

Definition case_row (name base status queue_state : string) (runs_on needs : list string) (order remaining : Z) :
    JobRow string (JobDetail Z unit) :=
  mkJobRow "r" name "job" None base status queue_state runs_on None
    (mkDetail "default" order remaining 0 needs None None None context_default None None None None None).

Definition case_lite : Lite := mkLite ∅ 1 ∅ ∅ ∅ ∅ [] [] ∅ ∅.

Definition case_db (rows : list (JobRow string (JobDetail Z unit))) : Db string (JobDetail Z unit) Tables :=
  mkDb ∅ [] 0 [] rows [] (mkTables case_lite [mkRunRow "r" "o/p" "o/p" "refs/heads/main" "in_progress" None false None] [] []).

(** No concurrency blocks, no environments, a pool of Linux runners. *)
Definition case_inputs : SweepInputs Z unit :=
  mkInputs no_files (λ _ _ _, None) (λ _, Ok None) (λ _ _, Resolved None)
    (λ _ _, mkHydrated [] None None) ["self-hosted"; "linux"] 0.

(** [build] runs, [lint] is queued; [test] needs [build], [deploy] needs [lint]. *)
Definition case_run : Db string (JobDetail Z unit) Tables :=
  case_db [case_row "build" "build" "in_progress" "claimed" ["linux"] [] 0 0;
           case_row "lint" "lint" "queued" "ready" ["linux"] [] 1 0;
           case_row "test" "test" "pending" "blocked" ["linux"] ["build"] 2 1;
           case_row "deploy" "deploy" "pending" "blocked" ["linux"] ["lint"] 3 1].

(** Three legs of one matrix, the first about to fail. *)
Definition case_matrix : Db string (JobDetail Z unit) Tables :=
  case_db [case_row "leg (1)" "leg" "in_progress" "claimed" ["linux"] [] 0 0;
           case_row "leg (2)" "leg" "in_progress" "claimed" ["linux"] [] 1 0;
           case_row "leg (3)" "leg" "queued" "ready" ["linux"] [] 2 0;
           case_row "lint" "lint" "queued" "ready" ["linux"] [] 3 0].

Definition stateof (name : string) (db : Db string (JobDetail Z unit) Tables) : option (string * string) :=
  (λ j, (job_status j, job_queue_state j)) <$> find_job db "r" name.

Definition state_after (cmds : list RunCommand) (db : Db string (JobDetail Z unit) Tables) (name : string) :
    option (string * string) :=
  match run_commands case_inputs no_cascade "r" cmds db with Ok db => stateof name db | Err _ => None end.

Example case_sweep :
  state_after [Settle "build" Success; Sweep] case_run "test" = Some ("queued", "ready") ∧
  state_after [Settle "build" Failure; Sweep] case_run "test" = Some ("skipped", "none") ∧
  state_after [Settle "leg (1)" Failure] case_matrix "leg (3)" = Some ("cancelled", "none").
Proof. by vm_compute. Qed.

#[local] Instance queue_ok_dec (j : JobRow string (JobDetail Z unit)) : Decision (queue_ok j).
Proof. unfold queue_ok. repeat case_match; apply _. Defined.
#[local] Instance count_ok_dec db (j : JobRow string (JobDetail Z unit)) : Decision (count_ok db j).
Proof. unfold count_ok. apply _. Defined.

Lemma case_wf x (db : Db string (JobDetail Z unit) Tables) :
  bool_decide (NoDup (job_name <$> rows_of db "r") ∧ Forall queue_ok (live_rows db "r") ∧
    Forall (λ j, replaced (rows_of db "r") j = true → job_queue_state j = "none" ∧ job_status j ≠ "in_progress") (rows_of db "r") ∧
    Forall (count_ok db) (rows_of db "r")) = true →
  run_wf (CK:=x) "r" db.
Proof. rewrite bool_decide_eq_true. intros (? & Hq & Hp & Hc). rewrite Forall_forall in Hq, Hp, Hc. split; [done..|by intros _]. Qed.

Lemma case_run_wf x : run_wf (CK:=x) "r" case_run.
Proof. apply case_wf. by vm_compute. Qed.

Lemma case_free rows : Forall (λ j, spec_concurrency (job_detail j) = None ∧ spec_reusable_call (job_detail j) = None) rows →
  groups_free "r" (case_db rows).
Proof.
  intros Hj. split; [apply map_Forall_empty|constructor|]. eapply Forall_impl; [exact Hj|].
  intros j [? ?] _. split; [done|by left].
Qed.

Lemma case_run_free : groups_free "r" case_run.
Proof. apply case_free. by repeat constructor. Qed.

Lemma case_starts : starts_ok "r" case_run.
Proof.
  assert (Forall (λ j, job_queue_state j ∈ starting → declared_needs (job_detail j) = []) (live_rows case_run "r")) as Hall.
  { apply (bool_decide_unpack _). by vm_compute. }
  rewrite Forall_forall in Hall. intros j Hj Hq. left. by apply Hall.
Qed.

Definition case_rank (name : string) : nat := if bool_decide (name ∈ ["test"; "deploy"]) then 1 else 0.

Lemma case_plan : plan_ok "r" case_run.
Proof.
  split.
  - assert (Forall (λ j, Forall (λ n, Exists (λ d, matches_need n d = true) (live_rows case_run "r")) (declared_needs (job_detail j)))
      (live_rows case_run "r")) as Hall by (apply (bool_decide_unpack _); by vm_compute).
    rewrite Forall_forall in Hall. intros j need Hj Hn. specialize (Hall j Hj). rewrite Forall_forall in Hall.
    specialize (Hall need Hn). apply Exists_exists in Hall as (d & ? & ?). by exists d.
  - exists case_rank.
    assert (Forall (λ j, Forall (λ d, Forall (λ n, matches_need n d = true → case_rank (job_name d) < case_rank (job_name j))
      (declared_needs (job_detail j))) (live_rows case_run "r")) (live_rows case_run "r")) as Hall
      by (apply (bool_decide_unpack _); by vm_compute).
    rewrite Forall_forall in Hall. intros j d need Hj Hd Hn Hm. specialize (Hall j Hj). rewrite Forall_forall in Hall.
    specialize (Hall d Hd). rewrite Forall_forall in Hall. by apply (Hall need).
  - assert (Forall (λ j, job_max_parallel j ≠ Some 0%N) (live_rows case_run "r")) as Hall
      by (apply (bool_decide_unpack _); by vm_compute).
    by rewrite Forall_forall in Hall.
Qed.

Lemma no_job_stranded_witness :
  ∃ o' db', promote_run case_inputs no_cascade no_outcome case_run "r" = Ok (o', db') ∧
    ((∃ j, j ∈ live_rows db' "r" ∧ open_row j = true) → ∃ j, j ∈ live_rows db' "r" ∧ active j).
Proof.
  destruct (no_job_stranded case_inputs no_cascade "r" no_outcome case_run (case_run_wf true) case_run_free case_plan)
    as (o' & db' & Hrun & _ & Hact). exists o', db'. split; [exact Hrun|exact Hact].
Defined.

(** Settle, sweep, claim, cancel a job and the run. *)
Definition case_commands : list RunCommand :=
  [Settle "build" Success; Sweep; ClaimJob "test"; ClaimJob "lint"; CancelJob "lint"; CancelRun; Settle "test" Failure].

Lemma jobs_start_after_needs_witness :
  ∃ db', run_commands case_inputs no_cascade "r" case_commands case_run = Ok db' ∧
    stateof "test" db' = Some ("cancelled", "none").
Proof.
  destruct (jobs_start_after_needs case_inputs no_cascade "r" case_commands case_run (case_run_wf false) case_run_free case_starts)
    as (db' & Hrun & _); [by repeat constructor|].
  exists db'. split; [exact Hrun|]. assert (state_after case_commands case_run "test" = Some ("cancelled", "none")) as Hs by by vm_compute.
  unfold state_after in Hs. by rewrite Hrun in Hs.
Defined.


Lemma cancel_run_spec_witness :
  ∃ db', cancel_run_inner no_cascade 0 case_run "r" = Ok (0, true, db') ∧
    outbox (rest db') = [RunCompleted "r" "cancelled"].
Proof.
  destruct (cancel_run_spec no_cascade 0 case_run "r" case_run_free eq_refl) as (db' & Hc & _ & _ & _ & _ & Ho).
  exists db'. split; [exact Hc|exact Ho].
Defined.

Lemma fail_fast_spec_witness :
  ∃ db', apply_fail_fast no_cascade case_matrix "r" "leg (1)" = Ok (["leg (2)"; "leg (3)"], db').
Proof.
  destruct (fail_fast_spec no_cascade "r" "leg (1)" (case_row "leg (1)" "leg" "in_progress" "claimed" ["linux"] [] 0 0) case_matrix)
    as (db' & Hc & _).
  - apply case_free. by repeat constructor.
  - apply (bool_decide_unpack _). by vm_compute.
  - done.
  - done.
  - exists db'. exact Hc.
Defined.

(** ** Where the embedded database strands or revives jobs *)

(** [cancel_job] neither refreshes the counts of the dependents nor sweeps:
    after a queued job is cancelled, the job that needs it stays blocked, whatever
    else happens in the run, and the run never concludes. *)
Definition without_lint : result ControlError (Db string (JobDetail Z unit) Tables) :=
  snd <$> cancel_job no_cascade 0 case_run "r" "lint".

Lemma cancel_job_strands_dependents :
  (db ← without_lint; Ok (stateof "lint" db, open_needs db <$> find_job db "r" "deploy",
     state_after [Settle "build" Success; Sweep; ClaimJob "test"; Settle "test" Success; Sweep] db "deploy")) =
  Ok (Some ("cancelled", "none"), Some 0%Z, Some ("pending", "blocked")).
Proof. by vm_compute. Qed.

(** [starve_job] does the same, and keeps the job's concurrency hold. *)
Definition held_run : Db string (JobDetail Z unit) Tables :=
  mkDb {[("default", "o/p", "lint") := ("lint", HJob "r" "lint")]} [] 0 [] (job_rows case_run) [] (rest case_run).

Lemma starved_job_keeps_its_hold :
  let db := starve_job held_run "r" "lint" in
  (stateof "lint" db, holds db !! ("default", "o/p", "lint"), open_needs db <$> find_job db "r" "deploy",
   state_after [Sweep] db "deploy") =
  (Some ("failure", "none"), Some ("lint", HJob "r" "lint"), Some 0%Z, Some ("pending", "blocked")).
Proof. by vm_compute. Qed.

(** A sweep reads its candidates once and writes their rows unconditionally:
    a leg that fail-fast cancelled in the same pass is queued all the same. *)
Definition case_legs : Db string (JobDetail Z unit) Tables :=
  case_db [case_row "leg (windows)" "leg" "pending" "blocked" ["windows"] [] 0 0;
           case_row "leg (linux)" "leg" "pending" "blocked" ["linux"] [] 1 0].

Lemma sweep_revives_cancelled_leg :
  ('(o, db) ← promote_run case_inputs no_cascade no_outcome case_legs "r";
   Ok (failed o, stateof "leg (windows)" db, stateof "leg (linux)" db, outbox (rest db))) =
  Ok ([("r", "leg (windows)")], Some ("failure", "none"), Some ("queued", "ready"),
      [RunCompleted "r" "failure"; JobCompleted "r" "leg (windows)" "failure"; JobQueued "r" "leg (linux)"]).
Proof. by vm_compute. Qed.

(** A runner that reports on a job of a cancelled run concludes the run again:
    with another conclusion, and a second completion event. *)
Definition case_failed : Db string (JobDetail Z unit) Tables :=
  case_db [case_row "build" "build" "in_progress" "claimed" ["linux"] [] 0 0;
           case_row "lint" "lint" "failure" "none" ["linux"] [] 1 0].

Lemma late_report_concludes_again :
  (db ← run_commands case_inputs no_cascade "r" [CancelRun] case_failed;
   db' ← run_commands case_inputs no_cascade "r" [Settle "build" Success] db;
   Ok (row_conclusion <$> runs (rest db), row_conclusion <$> runs (rest db'), outbox (rest db'))) =
  Ok ([Some "cancelled"], [Some "failure"],
      [RunCompleted "r" "cancelled"; RunCompleted "r" "failure"; JobCompleted "r" "build" "cancelled"]).
Proof. by vm_compute. Qed.
