(* ===== verification/CacheStore.v ===== *)
(** * The cache store

    [crates/preloop-cache/src/lib.rs]: the file-backed store of immutable cache
    archives, restored by exact key, by key prefix and by restore keys, inside
    one namespace, and kept under a quota by evicting the entry used longest
    ago.

    The root directory is the list of its entry directories in the order
    [read_dir] yields them. The removal of an entry directory may fail, as
    [Removals] tells for each instant and directory, and then leaves the
    directory as it was; the other operations on the file system succeed. Times
    are nanoseconds. The SHA-256 of the crate [sha2] is behind the interface
    [Digest256], whose law idealises it: no two texts have the same digest. *)
From S2P Require Export Masking.

Class Digest256 := {
  sha256 : bytes → bytes;
  sha256_bytes x : Forall (λ b, (b < 256)%N) (sha256 x);
  sha256_inj x y : Forall (λ b, (b < 256)%N) x → Forall (λ b, (b < 256)%N) y → sha256 x = sha256 y → x = y;
}.

(** Whether [remove_dir_all] on a directory fails at an instant. *)
Class Removals := removal_fails : Z → string → bool.

Inductive CacheError : Type :=
| Io (message : string) | InvalidKey (message : string) | AlreadyExists (key version : string).

(** An archive is its bytes and the time it was last used. [newest] is the
    latest modification inside a directory that has no archive yet, [None] if
    the directory is empty. *)
Record Entry : Type := mkEntry {
  namespace : option string; key : option string; version : option string; created_at : option string;
  archive : option (bytes * Z); newest : option Z }.
Record CacheStore : Type := mkStore { root : imap Entry; quota_bytes : N }.

Record CacheEntry : Type := mkCacheEntry { entry_key : string; entry_version : string; entry_dir : string; entry_size : N }.

Definition with_root (r : imap Entry) (s : CacheStore) : CacheStore := mkStore r (quota_bytes s).
Definition archive_at (name : string) (r : imap Entry) : option (bytes * Z) := imap_get name r ≫= archive.

(** ** Keys and names *)

Definition utf16_length (s : string) : nat := sum_list_with len_utf16 (chars s).

Definition validate_key (k kind : string) : result CacheError () :=
  if bool_decide (k = "") || (512 <? utf16_length k) || str_contains "," k
  then Err (InvalidKey (kind +:+ " key must be non-empty, at most 512 UTF-16 code units, and contain no commas"))
  else Ok ().

Definition hex (b : bytes) : string := Utf8.of_bytes (flat_map (hex_byte false) b).

(** [u64::to_be_bytes]. *)
Definition be_bytes (n : N) : bytes := (λ i, (n / 256 ^ i) mod 256)%N <$> [7; 6; 5; 4; 3; 2; 1; 0]%N.

Section store.
Context {D : Digest256} {F : Removals}.

Definition entry_id (k v : string) : string := hex (sha256 (Utf8.bytes k ++ [0%N] ++ Utf8.bytes v)).

Definition component (c : string) : bytes := be_bytes (N.of_nat (String.length c)) ++ Utf8.bytes c.
Definition entry_id_scoped (ns k v : string) : string :=
  if bool_decide (ns = "") then entry_id k v
  else hex (sha256 (Utf8.bytes "preloop-cache-namespace-v1" ++ [0%N] ++ component ns ++ component k ++ component v)).

Definition MAX_NAME_BYTES : nat := 255.
Definition legacy_name_for (k v : string) : option string :=
  let version_hash := hex (sha256 (Utf8.bytes v)) in
  let name := hex (Utf8.bytes k) +:+ "-" +:+ Utf8.of_bytes (take 16 (Utf8.bytes version_hash))
              +:+ "-" +:+ entry_id k v in
  if MAX_NAME_BYTES <? String.length name then None else Some name.

(** ** Quota *)

Definition STALE_WRITE_MAX_AGE : Z := 3600 * 1000000000.

Definition stale (now : Z) (e : Entry) : bool :=
  match newest e with
  | None => true
  | Some t => bool_decide (STALE_WRITE_MAX_AGE < Z.max 0 (now - t))%Z
  end.
Definition incomplete (e : Entry) : bool := bool_decide (archive e = None).

(** The entries with an archive, as the name, size and last use of each. *)
Definition finalized (r : imap Entry) : list (string * N * Z) :=
  omap (λ '(n, e), (λ a, (n, N.of_nat (length a.1), a.2)) <$> archive e) r.
Definition total_size (es : list (string * N * Z)) : N := foldr (λ e n, (e.1.2 + n)%N) 0%N es.

Definition used_before (a b : string * N * Z) : Prop := (a.2 ≤ b.2)%Z.
#[export] Instance used_before_dec : RelDecision used_before.
Proof. intros a b. unfold used_before. apply _. Defined.

(** A removal that fails is not counted: best effort. *)
Fixpoint evict (now : Z) (quota : N) (protect : option string) (total : N) (es : list (string * N * Z)) (r : imap Entry) : imap Entry :=
  match es with
  | [] => r
  | (n, size, _) :: es =>
      if (total <=? quota)%N then r
      else if bool_decide (protect = Some n) then evict now quota protect total es r
      else if removal_fails now n then evict now quota protect total es r
      else evict now quota protect (total - size)%N es (imap_shift_remove n r)
  end.

(** [reap_stale_incomplete] removes this directory. *)
Definition reaped (now : Z) (e : string * Entry) : bool :=
  incomplete e.2 && stale now e.2 && negb (removal_fails now e.1).

Definition enforce_quota_except (now : Z) (protect : option string) (s : CacheStore) : CacheStore :=
  let r := filter (λ e, reaped now e = false) (root s) in
  let es := finalized r in
  let total := total_size es in
  if (total <=? quota_bytes s)%N then with_root r s
  else with_root (evict now (quota_bytes s) protect total (merge_sort used_before es) r) s.
Definition enforce_quota (now : Z) (s : CacheStore) : CacheStore := enforce_quota_except now None s.

(** ** Commits *)

Definition begin_commit (now : Z) (ns k v : string) (s : CacheStore) : result CacheError (string * CacheStore) :=
  _ ← validate_key k "Cache";
  let directory := entry_id_scoped ns k v in
  if imap_contains directory (root s) then Err (AlreadyExists k v)
  else Ok (directory, with_root (imap_insert directory
         (mkEntry (Some ns) (Some k) (Some v) (Some (pretty (Z.to_N now))) None (Some now)) (root s)) s).

(** Writing, or moving in, the archive. *)
Definition place_archive (now : Z) (directory : string) (b : bytes) (s : CacheStore) : CacheStore :=
  match imap_get directory (root s) with
  | Some e => with_root (imap_insert directory
      (mkEntry (namespace e) (key e) (version e) (created_at e) (Some (b, now)) (Some now)) (root s)) s
  | None => s
  end.

Definition touch_file (now : Z) (directory : string) (s : CacheStore) : CacheStore :=
  match imap_get directory (root s) with
  | Some e => with_root (imap_insert directory
      (mkEntry (namespace e) (key e) (version e) (created_at e) ((λ a, (a.1, now)) <$> archive e) (newest e)) (root s)) s
  | None => s
  end.

Definition finish_commit (now : Z) (directory k v : string) (protect : string) (s : CacheStore)
    : result CacheError (CacheEntry * CacheStore) :=
  match archive_at directory (root s) with
  | None => Err (Io "not found")
  | Some (b, _) =>
      let s := enforce_quota_except now (Some protect) (touch_file now directory s) in
      Ok (mkCacheEntry k v directory (N.of_nat (length b)), s)
  end.

Definition put_scoped (now : Z) (ns k v : string) (b : bytes) (s : CacheStore) : result CacheError (CacheEntry * CacheStore) :=
  '(directory, s) ← begin_commit now ns k v s;
  finish_commit now directory k v directory (place_archive now directory b s).

(** The staged file, if it exists, is moved into the entry. *)
Definition commit_file_scoped (now : Z) (ns k v : string) (src : option bytes) (s : CacheStore)
    : result CacheError (CacheEntry * CacheStore) :=
  match src with
  | None => Err (Io "staged cache file not found")
  | Some b => put_scoped now ns k v b s
  end.

(** ** Restores *)

(** [str::parse::<u128>]. *)
Fixpoint parse_digits (acc : N) (b : bytes) : option N :=
  match b with
  | [] => Some acc
  | c :: b => if is_ascii_digit c then parse_digits (10 * acc + (c - 48))%N b else None
  end.
Definition parse_u128 (s : string) : option N :=
  let digits := match Utf8.bytes s with c :: r => if (c =? ch "+")%N then r else c :: r | [] => [] end in
  match digits with
  | [] => None
  | _ => n ← parse_digits 0 digits; if (n <? 2 ^ 128)%N then Some n else None
  end.

(** What the scan reads of one directory: the entry and its age, if it matches. *)
Definition prefix_candidate (ns prefix v : string) (d : string * Entry) : option (CacheEntry * N) :=
  '(b, _) ← archive d.2;
  k ← key d.2; stored_version ← version d.2; created ← created_at d.2;
  if bool_decide (default "" (namespace d.2) = ns) && bool_decide (stored_version = v) && starts_with prefix k then
    created ← parse_u128 created;
    Some (mkCacheEntry k v d.1 (N.of_nat (length b)), created)
  else None.

Definition keep_newest (acc : option (CacheEntry * N)) (c : CacheEntry * N) : option (CacheEntry * N) :=
  match acc with
  | Some (_, current) => if (current <? c.2)%N then Some c else acc
  | None => Some c
  end.
Definition find_prefix_scoped (ns prefix v : string) (s : CacheStore) : option CacheEntry :=
  fst <$> foldl keep_newest None (omap (prefix_candidate ns prefix v) (root s)).

Fixpoint first_prefix (ns v : string) (prefixes : list string) (s : CacheStore) : option CacheEntry :=
  match prefixes with
  | [] => None
  | p :: prefixes => match find_prefix_scoped ns p v s with Some e => Some e | None => first_prefix ns v prefixes s end
  end.

Definition exact_dir (ns k v : string) (s : CacheStore) : option (string * bytes) :=
  match archive_at (entry_id_scoped ns k v) (root s) with
  | Some (b, _) => Some (entry_id_scoped ns k v, b)
  | None =>
      if bool_decide (ns = "") then
        legacy ← legacy_name_for k v;
        '(b, _) ← archive_at legacy (root s);
        Some (legacy, b)
      else None
  end.

Fixpoint validate_all (ks : list string) : result CacheError () :=
  match ks with
  | [] => Ok ()
  | k :: ks => _ ← validate_key k "Restore"; validate_all ks
  end.

Definition resolve_scoped (ns k v : string) (restore_keys : list string) (s : CacheStore)
    : result CacheError (option CacheEntry) :=
  _ ← validate_key k "Cache";
  if 10 <? length restore_keys
  then Err (InvalidKey ("at most 10 restore keys are supported, got " +:+ pretty (N.of_nat (length restore_keys))))
  else
    _ ← validate_all restore_keys;
    match exact_dir ns k v s with
    | Some (d, b) => Ok (Some (mkCacheEntry k v d (N.of_nat (length b))))
    | None => Ok (first_prefix ns v (k :: restore_keys) s)
    end.

Definition lookup_scoped (now : Z) (ns k v : string) (restore_keys : list string) (s : CacheStore)
    : result CacheError (option CacheEntry * CacheStore) :=
  entry ← resolve_scoped ns k v restore_keys s;
  Ok (entry, match entry with Some e => touch_file now (entry_dir e) s | None => s end).

Definition get_scoped (now : Z) (ns k v : string) (restore_keys : list string) (s : CacheStore)
    : result CacheError (option (CacheEntry * bytes) * CacheStore) :=
  '(entry, s) ← lookup_scoped now ns k v restore_keys s;
  match entry with
  | None => Ok (None, s)
  | Some e =>
      match archive_at (entry_dir e) (root s) with
      | Some (b, _) => Ok (Some (e, b), s)
      | None => Err (Io "not found")
      end
  end.

(** The default namespace. *)
Definition put now k v b s := put_scoped now "" k v b s.
Definition lookup now k v rks s := lookup_scoped now "" k v rks s.
Definition get now k v rks s := get_scoped now "" k v rks s.
Definition commit_file now k v src s := commit_file_scoped now "" k v src s.
End store.

(** ** Entry directories *)

Lemma shift_remove_filter {A} n (m : imap A) : NoDup m.*1 → imap_shift_remove n m = filter (λ e, e.1 ≠ n) m.
Proof.
  induction m as [|[n' a] m IH]; [done|]. intros [Hn Hnd]%NoDup_cons. rewrite filter_cons. cbn [imap_shift_remove fst].
  destruct (decide (n = n')) as [->|Hne].
  - rewrite decide_False by naive_solver. symmetry. clear -Hn. induction m as [|[n a'] m IH]; [done|].
    cbn in Hn. apply not_elem_of_cons in Hn as [H1 H2]. rewrite filter_cons, decide_True by done. by rewrite IH.
  - rewrite decide_True by done. by rewrite IH.
Qed.

Lemma NoDup_filter_fst {A} (P : string * A → Prop) `{∀ x, Decision (P x)} (m : imap A) : NoDup m.*1 → NoDup (filter P m).*1.
Proof. intros H'. eapply sublist_NoDup; [exact H'|]. apply fmap_sublist, sublist_filter. Qed.

Lemma imap_get_iff {A} (m : imap A) n a : NoDup m.*1 → imap_get n m = Some a ↔ (n, a) ∈ m.
Proof. intros H. split; [apply imap_get_elem_of|by apply elem_of_imap_get]. Qed.

Lemma imap_get_filter {A} (P : string * A → Prop) `{∀ x, Decision (P x)} (m : imap A) n a : NoDup m.*1 →
  imap_get n (filter P m) = Some a ↔ P (n, a) ∧ imap_get n m = Some a.
Proof.
  intros Hm. rewrite !imap_get_iff; [|done|by apply NoDup_filter_fst]. apply list_elem_of_filter.
Qed.

Lemma finalized_elem r n size t :
  (n, size, t) ∈ finalized r ↔ ∃ e b, (n, e) ∈ r ∧ archive e = Some (b, t) ∧ size = N.of_nat (length b).
Proof.
  unfold finalized. rewrite list_elem_of_omap. split.
  - intros ([n' e] & Hin & Ha). destruct (archive e) as [[b t']|] eqn:E; [|done]. injection Ha as -> <- ->. by exists e, b.
  - intros (e & b & Hin & Ha & ->). exists (n, e). split; [done|]. by rewrite Ha.
Qed.

Lemma finalized_cons n e r : finalized ((n, e) :: r) =
  match archive e with Some a => (n, N.of_nat (length a.1), a.2) :: finalized r | None => finalized r end.
Proof. unfold finalized. cbn. by destruct (archive e). Qed.

Lemma finalized_filter (P : string → Prop) `{∀ n, Decision (P n)} r :
  finalized (filter (λ e, P e.1) r) = filter (λ x, P x.1.1) (finalized r).
Proof.
  induction r as [|[n e] r IH]; [done|]. rewrite filter_cons, finalized_cons. cbn [fst].
  destruct (decide (P n)) as [Hp|Hp]; rewrite ?finalized_cons; destruct (archive e) as [a|];
    rewrite ?filter_cons; cbn [fst]; rewrite ?decide_True, ?decide_False by done; by rewrite <- ?IH.
Qed.

Lemma finalized_names r : (finalized r).*1.*1 `sublist_of` r.*1.
Proof.
  induction r as [|[n e] r IH]; [done|]. rewrite finalized_cons. destruct (archive e) as [a|];
    [by apply sublist_skip|by apply sublist_cons].
Qed.

(** ** Eviction *)

Lemma total_size_app a b : total_size (a ++ b) = (total_size a + total_size b)%N.
Proof. unfold total_size. induction a as [|x a IH]; cbn; [done|]. rewrite IH. lia. Qed.

Lemma total_size_perm a b : a ≡ₚ b → total_size a = total_size b.
Proof. unfold total_size. induction 1; cbn; lia. Qed.

Section eviction.
Context {F : Removals}.
Variable now : Z.

(** An entry the sweep may not, or cannot, drop. *)
Definition kept_anyway (protect : option string) (x : string * N * Z) : Prop :=
  protect = Some x.1.1 ∨ removal_fails now x.1.1 = true.
#[export] Instance kept_anyway_dec protect x : Decision (kept_anyway protect x).
Proof. unfold kept_anyway. apply _. Defined.

Definition unprotected (protect : option string) (es : list (string * N * Z)) : list (string * N * Z) :=
  filter (λ x, ¬ kept_anyway protect x) es.

(** The entries the loop drops. *)
Fixpoint victims (quota : N) (protect : option string) (total : N) (es : list (string * N * Z)) : list (string * N * Z) :=
  match es with
  | [] => []
  | (n, size, t) :: es =>
      if (total <=? quota)%N then []
      else if decide (kept_anyway protect (n, size, t)) then victims quota protect total es
      else (n, size, t) :: victims quota protect (total - size)%N es
  end.

Lemma evict_cons quota protect total n size t es r :
  evict now quota protect total ((n, size, t) :: es) r =
  if (total <=? quota)%N then r
  else if decide (kept_anyway protect (n, size, t)) then evict now quota protect total es r
  else evict now quota protect (total - size)%N es (imap_shift_remove n r).
Proof.
  cbn [evict]. destruct (_ <=? _)%N; [done|].
  destruct (decide (kept_anyway protect (n, size, t))) as [Hk|Hk]; unfold kept_anyway in Hk; cbn [fst] in Hk.
  - destruct Hk as [Hk|Hk]; [by rewrite bool_decide_true|]. rewrite Hk. by destruct (bool_decide _).
  - rewrite bool_decide_false by naive_solver. destruct (removal_fails now n); naive_solver.
Qed.

Lemma evict_victims quota protect es total r : NoDup r.*1 →
  evict now quota protect total es r = filter (λ e, e.1 ∉ (victims quota protect total es).*1.*1) r.
Proof.
  assert (∀ r : imap Entry, r = filter (λ e, e.1 ∉ ([] : list string)) r) as Hnil.
  { intros r0. induction r0 as [|e r0 IH]; [done|]. rewrite filter_cons, decide_True by apply not_elem_of_nil. by f_equal. }
  revert total r. induction es as [|[[n size] t] es IH]; intros total r Hr; [apply Hnil|].
  rewrite evict_cons. cbn [victims fmap list_fmap].
  destruct (total <=? quota)%N; [apply Hnil|]. destruct (decide (kept_anyway _ _)); [by apply IH|].
  rewrite IH, shift_remove_filter by (rewrite ?shift_remove_filter by done; by try apply NoDup_filter_fst).
  rewrite list_filter_filter. apply list_filter_iff. intros e. cbn. rewrite not_elem_of_cons. tauto.
Qed.

Lemma unprotected_cons protect x es :
  unprotected protect (x :: es) =
  if decide (kept_anyway protect x) then unprotected protect es else x :: unprotected protect es.
Proof.
  unfold unprotected. rewrite filter_cons. destruct (decide (kept_anyway protect x)).
  - by rewrite decide_False by naive_solver.
  - by rewrite decide_True.
Qed.

Lemma victims_prefix quota protect total es : victims quota protect total es `prefix_of` unprotected protect es.
Proof.
  revert total. induction es as [|[[n size] t] es IH]; intros total; cbn [victims]; [done|].
  rewrite unprotected_cons. destruct (total <=? quota)%N; [apply prefix_nil|].
  destruct (decide (kept_anyway _ _)); [done|]. by apply prefix_cons.
Qed.

Lemma victims_fit quota protect total es : (total_size (unprotected protect es) ≤ total)%N →
  (total - total_size (victims quota protect total es) ≤ quota)%N ∨ victims quota protect total es = unprotected protect es.
Proof.
  revert total. induction es as [|[[n size] t] es IH]; intros total; [by right|].
  cbn [victims]. rewrite unprotected_cons. destruct (N.leb_spec total quota) as [Hf|Hf]; [left; cbn; lia|].
  destruct (decide (kept_anyway _ _)); [apply IH|]. cbn [total_size foldr fst snd]. intros Ht.
  destruct (IH (total - size)%N) as [H|H]; [unfold total_size in *; lia| |right; by f_equal].
  left. unfold total_size in *. cbn. lia.
Qed.

Lemma victims_needed quota protect total es vs v rest :
  victims quota protect total es = vs ++ v :: rest → (quota < total - total_size vs)%N.
Proof.
  revert total vs. induction es as [|[[n size] t] es IH]; intros total vs; cbn [victims]; [by destruct vs|].
  destruct (N.leb_spec total quota) as [Hf|Hf]; [by destruct vs|].
  destruct (decide (kept_anyway _ _)); [apply IH|]. destruct vs as [|x vs]; [cbn; lia|].
  intros [= <- H]. apply IH in H. unfold total_size in *. cbn. lia.
Qed.

Lemma reaped_incomplete e : reaped now e = true → archive e.2 = None.
Proof. intros [[Hi _]%andb_true_iff _]%andb_true_iff. by apply bool_decide_eq_true in Hi. Qed.

Lemma finalized_complete r : finalized (filter (λ e, reaped now e = false) r) = finalized r.
Proof.
  induction r as [|[n e] r IH]; [done|]. rewrite filter_cons, finalized_cons.
  destruct (decide (reaped now (n, e) = false)) as [H|H]; [by rewrite finalized_cons, IH|].
  apply not_false_iff_true, reaped_incomplete in H. simpl in H. by rewrite H.
Qed.
End eviction.

Lemma finalized_NoDup r : NoDup r.*1 → NoDup (finalized r).*1.*1.
Proof. intros H. eapply sublist_NoDup; [exact H|apply finalized_names]. Qed.

Lemma NoDup_names_inj (es : list (string * N * Z)) x y : NoDup es.*1.*1 → x ∈ es → y ∈ es → x.1.1 = y.1.1 → x = y.
Proof.
  induction es as [|z es IH]; [by intros _ ?%not_elem_of_nil|]. intros [Hz Hnd]%NoDup_cons.
  rewrite !elem_of_cons. intros [->|Hx] [->|Hy] He; [done|..|by apply IH].
  - destruct Hz. rewrite He. by apply list_elem_of_fmap_2, list_elem_of_fmap_2.
  - destruct Hz. rewrite <- He. by apply list_elem_of_fmap_2, list_elem_of_fmap_2.
Qed.

Lemma split_victims (es vs : list (string * N * Z)) : NoDup es.*1.*1 → (∀ v, v ∈ vs → v ∈ es) → NoDup vs.*1.*1 →
  es ≡ₚ vs ++ filter (λ x, x.1.1 ∉ vs.*1.*1) es.
Proof.
  intros Hnd Hsub Hv.
  assert (∀ l : list (string * N * Z), NoDup l.*1.*1 → NoDup l) as Hn.
  { intros l H. apply (NoDup_fmap_1 fst). by apply (NoDup_fmap_1 fst). }
  apply NoDup_Permutation; [by apply Hn| |].
  - apply NoDup_app. split_and!; [by apply Hn| |apply NoDup_filter; by apply Hn].
    intros x Hx [H _]%list_elem_of_filter. apply H. by apply list_elem_of_fmap_2, list_elem_of_fmap_2.
  - intros x. rewrite elem_of_app, list_elem_of_filter. split.
    + intros Hx. destruct (decide (x.1.1 ∈ vs.*1.*1)) as [Hin|]; [left|by right].
      apply list_elem_of_fmap in Hin as (p & Hp & Hin). apply list_elem_of_fmap in Hin as (y & -> & Hy).
      assert (x = y) as -> by (apply (NoDup_names_inj es); auto). done.
    + intros [Hx|[_ Hx]]; [by apply Hsub|done].
Qed.

#[export] Instance used_before_total : Total used_before.
Proof. intros a b. unfold used_before. lia. Qed.
#[export] Instance used_before_trans : Transitive used_before.
Proof. intros a b c. unfold used_before. lia. Qed.

Lemma StronglySorted_filter {A} (R : relation A) (P : A → Prop) `{∀ x, Decision (P x)} l :
  StronglySorted R l → StronglySorted R (filter P l).
Proof.
  induction 1 as [|x l _ IH Hx]; [constructor|]. rewrite filter_cons. destruct (decide (P x)); [|done].
  constructor; [done|]. rewrite Forall_forall in Hx |- *. intros y [_ Hy]%list_elem_of_filter. by apply Hx.
Qed.

Section quota.

Context {F : Removals}.
Variables (now : Z) (protect : option string) (s : CacheStore).
Hypothesis (Hnd : NoDup (root s).*1).

Local Definition sorted_entries : list (string * N * Z) := merge_sort used_before (finalized (root s)).
Local Definition dropped : list (string * N * Z) :=
  if (total_size (finalized (root s)) <=? quota_bytes s)%N then []
  else victims now (quota_bytes s) protect (total_size (finalized (root s))) sorted_entries.

Lemma sorted_entries_perm : sorted_entries ≡ₚ finalized (root s).
Proof. apply merge_sort_Permutation. Qed.

Lemma sorted_entries_NoDup : NoDup sorted_entries.*1.*1.
Proof. rewrite sorted_entries_perm. by apply finalized_NoDup. Qed.

Lemma unprotected_sublist es : unprotected now protect es `sublist_of` es.
Proof. apply sublist_filter. Qed.

Lemma dropped_elem v : v ∈ dropped → v ∈ unprotected now protect sorted_entries.
Proof.
  unfold dropped. destruct (_ <=? _)%N; [by intros ?%not_elem_of_nil|]. intros Hv.
  destruct (victims_prefix now (quota_bytes s) protect (total_size (finalized (root s))) sorted_entries) as [rest ->].
  apply elem_of_app. by left.
Qed.

Lemma dropped_NoDup : NoDup dropped.*1.*1.
Proof.
  unfold dropped. destruct (_ <=? _)%N; [constructor|].
  eapply sublist_NoDup; [apply sorted_entries_NoDup|]. apply fmap_sublist, fmap_sublist.
  etransitivity; [|apply unprotected_sublist].
  edestruct victims_prefix as [rest ->]. by apply sublist_inserts_r.
Qed.

Lemma finalized_after :
  finalized (root (enforce_quota_except now protect s)) = filter (λ x, x.1.1 ∉ dropped.*1.*1) (finalized (root s)).
Proof.
  unfold enforce_quota_except. cbv zeta. rewrite finalized_complete. unfold dropped.
  destruct (total_size (finalized (root s)) <=? quota_bytes s)%N; cbn [root with_root].
  - rewrite finalized_complete. symmetry. generalize (finalized (root s)) as l.
    induction l as [|x l IH]; [done|]. rewrite filter_cons, decide_True by apply not_elem_of_nil. by rewrite IH.
  - rewrite evict_victims by (by apply NoDup_filter_fst).
    set (gone := (victims _ _ _ _ _).*1.*1).
    assert (E := finalized_filter (λ n, n ∉ gone)). etransitivity; [apply E|by rewrite finalized_complete].
Qed.

Lemma size_after : (total_size (finalized (root s)) =
  total_size dropped + total_size (finalized (root (enforce_quota_except now protect s))))%N.
Proof.
  rewrite finalized_after, <- total_size_app. apply total_size_perm, split_victims.
  - by apply finalized_NoDup.
  - intros v Hv%dropped_elem. unfold unprotected in Hv. apply list_elem_of_filter in Hv as [_ Hv].
    by rewrite sorted_entries_perm in Hv.
  - apply dropped_NoDup.
Qed.

Lemma dropped_iff x : x ∈ dropped ↔
  x ∈ finalized (root s) ∧ (x ∉ finalized (root (enforce_quota_except now protect s))).
Proof.
  rewrite finalized_after, list_elem_of_filter. split.
  - intros Hx. assert (Hu := dropped_elem _ Hx). unfold unprotected in Hu.
    apply list_elem_of_filter in Hu as [_ Hu]. rewrite sorted_entries_perm in Hu. split; [done|].
    intros [Hn _]. apply Hn. by apply list_elem_of_fmap_2, list_elem_of_fmap_2.
  - intros [Hx Hn]. destruct (decide (x.1.1 ∈ dropped.*1.*1)) as [Hin|]; [|naive_solver].
    apply list_elem_of_fmap in Hin as (p & Hp & Hin). apply list_elem_of_fmap in Hin as (v & -> & Hv).
    assert (x = v) as ->; [|done]. apply (NoDup_names_inj (finalized (root s))); [by apply finalized_NoDup|done| |done].
    apply dropped_elem in Hv. unfold unprotected in Hv. apply list_elem_of_filter in Hv as [_ Hv].
    by rewrite sorted_entries_perm in Hv.
Qed.

Lemma dropped_prefix : ∃ rest, unprotected now protect sorted_entries = dropped ++ rest.
Proof. unfold dropped. destruct (_ <=? _)%N; [by eexists|]. apply victims_prefix. Qed.

Lemma unprotected_size : (total_size (unprotected now protect sorted_entries) ≤ total_size (finalized (root s)))%N.
Proof.
  rewrite <- (total_size_perm _ _ sorted_entries_perm). unfold unprotected, total_size.
  induction sorted_entries as [|x l IH]; [done|]. rewrite filter_cons. destruct (decide _); cbn [foldr]; lia.
Qed.

Lemma unprotected_kept x : x ∈ finalized (root s) → ¬ kept_anyway now protect x → x ∈ unprotected now protect sorted_entries.
Proof. intros Hx Hp. apply list_elem_of_filter. split; [done|]. by rewrite sorted_entries_perm. Qed.

Lemma quota_reached : (total_size (finalized (root (enforce_quota_except now protect s))) ≤ quota_bytes s)%N
  ∨ dropped = unprotected now protect sorted_entries.
Proof.
  assert (H := size_after). unfold dropped in *. destruct (N.leb_spec (total_size (finalized (root s))) (quota_bytes s)).
  - left. cbn in H. lia.
  - destruct (victims_fit now (quota_bytes s) protect _ _ unprotected_size); [left; lia|by right].
Qed.

(** C35: what a quota sweep leaves.  The archives fit the quota, or every one
    that is left is the protected one or could not be removed; an archive is
    dropped only if it is neither and was last used no later than any such
    archive that is kept; nothing is dropped from a store that fits; and a
    sweep that drops something drops an archive without which the rest would
    be over the quota.  The names of the entries are distinct, and a removal
    that fails leaves its directory as it was. *)
Theorem quota_eviction :
  let after := finalized (root (enforce_quota_except now protect s)) in
  ((total_size after ≤ quota_bytes s)%N ∨ ∀ x, x ∈ after → kept_anyway now protect x)
  ∧ (∀ x y, x ∈ finalized (root s) → (x ∉ after) → ¬ kept_anyway now protect x ∧
       (y ∈ after → ¬ kept_anyway now protect y → (x.2 ≤ y.2)%Z))
  ∧ ((total_size (finalized (root s)) ≤ quota_bytes s)%N → after = finalized (root s))
  ∧ (∀ x, x ∈ finalized (root s) → (x ∉ after) →
       ∃ z, z ∈ finalized (root s) ∧ (z ∉ after) ∧ (quota_bytes s < total_size after + z.1.2)%N).
Proof.
  cbv zeta. assert (∀ y, y ∈ finalized (root (enforce_quota_except now protect s)) → y ∈ finalized (root s)) as Hsub.
  { intros y. rewrite finalized_after. by intros [_ ?]%list_elem_of_filter. }
  split_and!.
  - destruct quota_reached as [H|H]; [by left|right]. intros x Hx. destruct (decide (kept_anyway now protect x)) as [|Hp]; [done|].
    assert (x ∈ dropped) as Hd by (rewrite H; apply unprotected_kept; auto). by apply dropped_iff in Hd as [_ ?].
  - intros x y Hx Hn. assert (x ∈ dropped) as Hd by by apply dropped_iff. split.
    + apply dropped_elem in Hd. unfold unprotected in Hd. by apply list_elem_of_filter in Hd as [? _].
    + intros Hy Hp. destruct dropped_prefix as [rest He]. assert (y ∈ dropped ++ rest) as Hy'.
      { rewrite <- He. apply unprotected_kept; auto. }
      apply elem_of_app in Hy' as [Hy'|Hy']; [by apply dropped_iff in Hy' as [_ ?]|].
      assert (StronglySorted used_before (dropped ++ rest)) as Hss.
      { rewrite <- He. apply StronglySorted_filter, (StronglySorted_merge_sort used_before). }
      exact (StronglySorted_app_1_elem_of _ _ _ _ _ Hss Hd Hy').
  - intros Hfit. rewrite finalized_after. unfold dropped. rewrite (proj2 (N.leb_le _ _) Hfit).
    generalize (finalized (root s)) as l. induction l as [|x l IH]; [done|].
    by rewrite filter_cons, decide_True, IH by apply not_elem_of_nil.
  - intros x Hx Hn. assert (x ∈ dropped) as Hd by by apply dropped_iff.
    destruct dropped as [|z vs _] eqn:Ed using rev_ind; [by apply not_elem_of_nil in Hd|]. exists z.
    assert (z ∈ dropped) as Hz by (rewrite Ed; apply elem_of_app; right; by left).
    assert (Hs := size_after). rewrite Ed, total_size_app in Hs.
    apply dropped_iff in Hz as [Hz Hz']. split_and!; [done|done|].
    unfold dropped in Ed. destruct (_ <=? _)%N; [by destruct vs|]. apply victims_needed in Ed.
    unfold total_size in *. cbn [foldr] in Hs. lia.
Qed.
End quota.

(** ** Identities *)

Lemma bytes_256 s : Forall (λ b, (b < 256)%N) (Utf8.bytes s).
Proof. apply Forall_forall. intros b (a & -> & _)%list_elem_of_fmap. apply N_ascii_bounded. Qed.

Lemma hex_digit_inj a b : (a < 16)%N → (b < 16)%N → hex_digit false a = hex_digit false b → a = b.
Proof.
  unfold hex_digit. intros Ha Hb. destruct (N.ltb_spec a 10), (N.ltb_spec b 10); lia.
Qed.

Lemma hex_digit_range v : (v < 16)%N → (48 ≤ hex_digit false v < 256)%N.
Proof. unfold hex_digit. intros Hv. destruct (N.ltb_spec v 10); lia. Qed.

Lemma hex_bytes_range b : Forall (λ x, (x < 256)%N) b → Forall (λ x, (48 ≤ x < 256)%N) (flat_map (hex_byte false) b).
Proof.
  induction 1 as [|x b Hx _ IH]; [constructor|]. cbn [flat_map]. apply Forall_app. split; [|done].
  assert (x / 16 < 16)%N by div_mod_lia. assert (x mod 16 < 16)%N by div_mod_lia.
  repeat constructor; by apply hex_digit_range.
Qed.

Lemma hex_inj a b : Forall (λ x, (x < 256)%N) a → Forall (λ x, (x < 256)%N) b → hex a = hex b → a = b.
Proof.
  intros Ha Hb He. apply (f_equal Utf8.bytes) in He. unfold hex in He.
  rewrite !list_ascii_of_bytes in He by (eapply Forall_impl; [by apply hex_bytes_range|naive_solver]).
  revert b Hb He. induction Ha as [|x a Hx _ IH]; intros [|y b] Hb He; [done..|].
  apply Forall_cons in Hb as [Hy Hb]. cbn [flat_map] in He. unfold hex_byte in He. cbn [app] in He.
  injection He as H1 H2 H3. apply hex_digit_inj in H1; [|div_mod_lia..]. apply hex_digit_inj in H2; [|div_mod_lia..].
  f_equal; [div_mod_lia|by apply IH].
Qed.

Lemma be_bytes_inj n m : (n < 2 ^ 64)%N → (m < 2 ^ 64)%N → be_bytes n = be_bytes m → n = m.
Proof.
  assert (∀ k i, (k / 256 ^ i = 256 * (k / 256 ^ (i + 1)) + k / 256 ^ i mod 256)%N) as Hstep.
  { intros k i. rewrite N.pow_add_r, N.pow_1_r, <- N.Div0.div_div. apply N.Div0.div_mod. }
  unfold be_bytes. cbn [fmap list_fmap]. intros Hn Hm [= H7 H6 H5 H4 H3 H2 H1 H0].
  assert (∀ k, (k < 2 ^ 64)%N → (k / 256 ^ 8 = 0)%N) as Hs by (intros k Hk; apply N.div_small, Hk).
  assert (∀ i, (n / 256 ^ (i + 1) = m / 256 ^ (i + 1))%N → (n / 256 ^ i mod 256 = m / 256 ^ i mod 256)%N →
    (n / 256 ^ i = m / 256 ^ i)%N) as Hn' by (intros i E1 E2; rewrite (Hstep n), (Hstep m); congruence).
  assert (n / 256 ^ 0 = m / 256 ^ 0)%N as H by (do 8 (apply Hn'; [|assumption]); by rewrite !Hs).
  by rewrite !N.pow_0_r, !N.div_1_r in H.
Qed.

Lemma string_bytes_inj a b : Utf8.bytes a = Utf8.bytes b → a = b.
Proof. intros H. by rewrite <- (of_bytes_bytes a), <- (of_bytes_bytes b), H. Qed.

Definition short (s : string) : Prop := (N.of_nat (String.length s) < 2 ^ 64)%N.

Lemma length_bytes s : length (Utf8.bytes s) = String.length s.
Proof. unfold Utf8.bytes. rewrite length_fmap. induction s as [|c s IH]; [done|]. cbn. by rewrite IH. Qed.

Lemma component_inj a b x y : short a → short b → component a ++ x = component b ++ y → a = b ∧ x = y.
Proof.
  unfold component. intros Ha Hb H. rewrite <- !app_assoc in H.
  apply app_inj_1 in H as [H1 H2]; [|done]. apply be_bytes_inj in H1; [|done..]. apply Nat2N.inj in H1.
  apply app_inj_1 in H2 as [H2 H3]; [|by rewrite !length_bytes]. split; [by apply string_bytes_inj|done].
Qed.

Lemma split_at_zero (a b x y : bytes) : 0%N ∉ a → 0%N ∉ b → a ++ [0%N] ++ x = b ++ [0%N] ++ y → a = b ∧ x = y.
Proof.
  revert b. induction a as [|c a IH]; intros [|d b] Ha Hb H; injection H; intros; subst.
  - done.
  - set_solver.
  - set_solver.
  - destruct (IH b) as [-> ->]; [set_solver|set_solver|done|done].
Qed.

Lemma component_256 c : Forall (λ b, (b < 256)%N) (component c).
Proof.
  apply Forall_app. split; [|apply bytes_256]. unfold be_bytes. repeat constructor; apply N.mod_lt; lia.
Qed.

Definition NAMESPACE_TAG : string := "preloop-cache-namespace-v1".

(** A key the two shapes of identity keep apart: no zero byte, and not the tag
    of the scoped shape. *)
Definition plain_key (k : string) : Prop := (0%N ∉ Utf8.bytes k) ∧ k ≠ NAMESPACE_TAG.

Section identity.
Context {D : Digest256}.

Lemma entry_id_digest_inj x y :
  Forall (λ b, (b < 256)%N) x → Forall (λ b, (b < 256)%N) y → hex (sha256 x) = hex (sha256 y) → x = y.
Proof. intros Hx Hy H. apply hex_inj in H; [by apply sha256_inj|apply sha256_bytes..]. Qed.

Lemma identity_256 a b : Forall (λ b, (b < 256)%N) b → Forall (λ b, (b < 256)%N) (Utf8.bytes a ++ [0%N] ++ b).
Proof. intros Hb. apply Forall_app. split; [apply bytes_256|]. constructor; [lia|done]. Qed.

Lemma entry_id_scoped_inj ns k v ns' k' v' :
  short ns → short k → short v → short ns' → short k' → short v' → (ns = "" → plain_key k) → (ns' = "" → plain_key k') →
  entry_id_scoped ns k v = entry_id_scoped ns' k' v' → ns = ns' ∧ k = k' ∧ v = v'.
Proof.
  intros S1 S2 S3 S4 S5 S6 P P' H. unfold entry_id_scoped, entry_id in H.
  assert (∀ a b c, Forall (λ b, (b < 256)%N) (component a ++ component b ++ component c)) as F3
    by (intros; rewrite !Forall_app; split_and!; apply component_256).
  assert (0%N ∉ Utf8.bytes NAMESPACE_TAG) as Ht by (apply (bool_decide_unpack _); by vm_compute).
  destruct (bool_decide (ns = "")) eqn:E, (bool_decide (ns' = "")) eqn:E'; bool_to_prop;
    apply entry_id_digest_inj in H; try (apply identity_256; (apply F3 || apply bytes_256)).
  - subst. destruct (P eq_refl) as [Hz _], (P' eq_refl) as [Hz' _].
    apply split_at_zero in H as [H1 H2]; [|done..]. split_and!; [done|by apply string_bytes_inj..].
  - subst. destruct (P eq_refl) as [Hz Hk]. apply split_at_zero in H as [H1 _]; [|done..].
    by apply string_bytes_inj in H1.
  - subst. destruct (P' eq_refl) as [Hz Hk]. apply split_at_zero in H as [H1 _]; [|done..].
    by apply string_bytes_inj in H1.
  - apply split_at_zero in H as [_ H]; [|done..]. apply component_inj in H as [-> H]; [|done..].
    apply component_inj in H as [-> H]; [|done..].
    rewrite <- (app_nil_r (component v)), <- (app_nil_r (component v')) in H. by apply component_inj in H as [-> _].
Qed.

(** Without these conditions the identities of different entries agree: a key
    or a version with a zero byte is the same as another pair, and an entry of
    the default namespace can name one of any other. *)
Lemma identity_collision : entry_id ("a" +:+ String "000" "b") "c" = entry_id "a" ("b" +:+ String "000" "c").
Proof. done. Qed.

Lemma namespace_forged ns k v : ns ≠ "" →
  entry_id NAMESPACE_TAG (Utf8.of_bytes (component ns ++ component k ++ component v)) = entry_id_scoped ns k v.
Proof.
  intros Hn. unfold entry_id, entry_id_scoped. rewrite bool_decide_eq_false_2 by done.
  rewrite list_ascii_of_bytes; [done|]. rewrite !Forall_app. split_and!; apply component_256.
Qed.
End identity.

(** ** Stores *)

Section wellformed.
Context {D : Digest256} {F : Removals}.

Definition well_named (ns k v : string) : Prop := short ns ∧ short k ∧ short v ∧ (ns = "" → plain_key k).

(** Directories have distinct names, and each is named after the namespace,
    key and version written in it. *)
Definition store_wf (s : CacheStore) : Prop :=
  NoDup (root s).*1 ∧ ∀ d e, imap_get d (root s) = Some e →
    ∃ ns k v, namespace e = Some ns ∧ key e = Some k ∧ version e = Some v ∧ d = entry_id_scoped ns k v ∧ well_named ns k v.

(** What an operation may do to a directory: its metadata and the bytes of its
    archive stay. *)
Definition same_entry (e e' : Entry) : Prop :=
  namespace e' = namespace e ∧ key e' = key e ∧ version e' = version e ∧ created_at e' = created_at e
  ∧ ∀ b t, archive e = Some (b, t) → ∃ t', archive e' = Some (b, t').
Definition store_le (s s' : CacheStore) : Prop :=
  ∀ d e', imap_get d (root s') = Some e' → imap_get d (root s) = None ∨ ∃ e, imap_get d (root s) = Some e ∧ same_entry e e'.

Lemma same_entry_refl e : same_entry e e.
Proof. split_and!; try done. intros b t H. by exists t. Qed.

Lemma enforce_get now protect s d e : NoDup (root s).*1 →
  imap_get d (root (enforce_quota_except now protect s)) = Some e ↔
    imap_get d (root s) = Some e ∧ reaped now (d, e) = false ∧ (d ∉ (dropped now protect s).*1.*1).
Proof.
  intros Hnd. unfold enforce_quota_except, dropped, sorted_entries. rewrite finalized_complete. cbv zeta.
  destruct (_ <=? _)%N; cbn [root with_root].
  - rewrite imap_get_filter by done. cbn. split; [intros [??]|intros (?&?&_)]; split_and?; try done. apply not_elem_of_nil.
  - rewrite evict_victims by by apply NoDup_filter_fst. rewrite imap_get_filter by by apply NoDup_filter_fst.
    rewrite imap_get_filter by done. cbn. tauto.
Qed.

Lemma enforce_NoDup now protect s : NoDup (root s).*1 → NoDup (root (enforce_quota_except now protect s)).*1.
Proof.
  intros Hnd. unfold enforce_quota_except. destruct (_ <=? _)%N; cbn [root with_root]; [by apply NoDup_filter_fst|].
  rewrite evict_victims by by apply NoDup_filter_fst. by apply NoDup_filter_fst, NoDup_filter_fst.
Qed.

(** Everything a commit does before the quota is enforced. *)
Lemma committed now ns k v b s e s' : put_scoped now ns k v b s = Ok (e, s') →
  let d := entry_id_scoped ns k v in
  let entry := mkEntry (Some ns) (Some k) (Some v) (Some (pretty (Z.to_N now))) (Some (b, now)) (Some now) in
  imap_get d (root s) = None ∧ validate_key k "Cache" = Ok () ∧ e = mkCacheEntry k v d (N.of_nat (length b))
  ∧ ∃ s1, s' = enforce_quota_except now (Some d) s1 ∧ quota_bytes s1 = quota_bytes s
    ∧ (NoDup (root s).*1 → NoDup (root s1).*1)
    ∧ ∀ d', imap_get d' (root s1) = if decide (d' = d) then Some entry else imap_get d' (root s).
Proof.
  unfold put_scoped, begin_commit. destruct (validate_key k "Cache") as [[]|] eqn:Ev; [|done]. cbn [mbind result_bind].
  destruct (imap_contains (entry_id_scoped ns k v) (root s)) eqn:Ec; [done|]. cbn [mbind result_bind].
  assert (imap_get (entry_id_scoped ns k v) (root s) = None) as Hn.
  { unfold imap_contains in Ec. apply bool_decide_eq_false in Ec. destruct (imap_get _ _); [|done]. destruct Ec. by eexists. }
  unfold place_archive. cbn [root with_root]. rewrite imap_get_insert_eq. unfold finish_commit, archive_at, touch_file.
  cbn [root with_root namespace key version created_at]. rewrite !imap_get_insert_eq.
  cbn [mbind option_bind archive namespace key version created_at newest fmap option_fmap option_map fst].
  intros [= <- <-]. cbv zeta. split_and!; [done|done|done|]. eexists. split_and!; [done|done| |].
  - intros H. cbn. by repeat apply imap_insert_NoDup.
  - intros d'. cbn [root with_root]. destruct (decide (d' = _)) as [->|Hne]; [by rewrite imap_get_insert_eq|].
    by rewrite !imap_get_insert_ne.
Qed.

Lemma touched now d s : ∀ d', imap_get d' (root (touch_file now d s)) =
  if decide (d' = d) then (λ e, mkEntry (namespace e) (key e) (version e) (created_at e) ((λ a, (a.1, now)) <$> archive e) (newest e))
    <$> imap_get d (root s) else imap_get d' (root s).
Proof.
  intros d'. unfold touch_file. destruct (imap_get d (root s)) as [e|] eqn:E; cbn [root with_root].
  - destruct (decide (d' = d)) as [->|]; [by rewrite imap_get_insert_eq|by rewrite imap_get_insert_ne].
  - by destruct (decide (d' = d)) as [->|].
Qed.

Lemma touch_NoDup now d s : NoDup (root s).*1 → NoDup (root (touch_file now d s)).*1.
Proof. intros H. unfold touch_file. destruct (imap_get _ _); [|done]. by apply imap_insert_NoDup. Qed.

(** The operations of a store. *)
Inductive StoreOp : Type :=
| Put (ns k v : string) (b : bytes)
| CommitFile (ns k v : string) (src : option bytes)
| Lookup (ns k v : string) (restore_keys : list string)
| Get (ns k v : string) (restore_keys : list string)
| Enforce.

Definition after {A} (r : result CacheError (A * CacheStore)) (s : CacheStore) : CacheStore :=
  match r with Ok (_, s) => s | Err _ => s end.
Definition store_step (now : Z) (op : StoreOp) (s : CacheStore) : CacheStore :=
  match op with
  | Put ns k v b => after (put_scoped now ns k v b s) s
  | CommitFile ns k v src => after (commit_file_scoped now ns k v src s) s
  | Lookup ns k v rks => after (lookup_scoped now ns k v rks s) s
  | Get ns k v rks => after (get_scoped now ns k v rks s) s
  | Enforce => enforce_quota now s
  end.

(** Names an operation may write. *)
Definition op_named (op : StoreOp) : Prop :=
  match op with
  | Put ns k v _ | CommitFile ns k v _ => well_named ns k v
  | _ => True
  end.

(** An operation stores at most one new directory, touches others, or drops
    them. *)
Lemma store_step_cases now op s :
  store_step now op s = s
  ∨ (∃ d, store_step now op s = touch_file now d s)
  ∨ store_step now op s = enforce_quota now s
  ∨ ∃ ns k v b e, (op_named op → well_named ns k v) ∧ put_scoped now ns k v b s = Ok (e, store_step now op s).
Proof.
  assert (∀ ns k v rks, after (lookup_scoped now ns k v rks s) s = s
    ∨ ∃ d, after (lookup_scoped now ns k v rks s) s = touch_file now d s) as Hl.
  { intros ns k v rks. unfold lookup_scoped. destruct (resolve_scoped _ _ _ _ _) as [[e|]|]; cbn; auto. right. by eexists. }
  assert (∀ ns k v b, (after (put_scoped now ns k v b s) s = s
    ∨ ∃ e, put_scoped now ns k v b s = Ok (e, after (put_scoped now ns k v b s) s))) as Hp.
  { intros ns k v b. destruct (put_scoped _ _ _ _ _ _) as [[e s']|]; [right; by exists e|by left]. }
  destruct op as [ns k v b|ns k v [b|]|ns k v rks|ns k v rks|]; cbn [store_step commit_file_scoped op_named].
  - destruct (Hp ns k v b) as [|[e He]]; [by left|]. do 3 right. by exists ns, k, v, b, e.
  - destruct (Hp ns k v b) as [|[e He]]; [by left|]. do 3 right. by exists ns, k, v, b, e.
  - by left.
  - destruct (Hl ns k v rks) as [|]; [by left|right; by left].
  - assert (after (get_scoped now ns k v rks s) s = s
      ∨ after (get_scoped now ns k v rks s) s = after (lookup_scoped now ns k v rks s) s) as [H|H].
    { unfold get_scoped. destruct (lookup_scoped now ns k v rks s) as [[[e|] s']|]; cbn; auto.
      destruct (archive_at _ _) as [[b t]|]; cbn; auto. }
    + by left.
    + rewrite H. destruct (Hl ns k v rks) as [|]; [by left|right; by left].
  - right. right. by left.
Qed.

Lemma committed_cases now ns k v b s e s' : NoDup (root s).*1 → put_scoped now ns k v b s = Ok (e, s') →
  NoDup (root s').*1 ∧ ∀ d' e', imap_get d' (root s') = Some e' →
    (d' = entry_id_scoped ns k v ∧ imap_get d' (root s) = None
     ∧ e' = mkEntry (Some ns) (Some k) (Some v) (Some (pretty (Z.to_N now))) (Some (b, now)) (Some now))
    ∨ imap_get d' (root s) = Some e'.
Proof.
  intros Hnd H. apply committed in H as (Hn & _ & _ & s1 & -> & _ & Hnd1 & Hg). specialize (Hnd1 Hnd).
  split; [by apply enforce_NoDup|]. intros d' e' (He & _)%enforce_get; [|done]. rewrite Hg in He.
  destruct (decide (d' = _)) as [->|]; [left|by right]. split_and!; [done|done|by injection He].
Qed.

Lemma store_step_le now op s : NoDup (root s).*1 → store_le s (store_step now op s) ∧ NoDup (root (store_step now op s)).*1.
Proof.
  intros Hnd. assert (∀ s, store_le s s) as Hrefl by (intros s0 d e H; right; exists e; split; [done|apply same_entry_refl]).
  destruct (store_step_cases now op s) as [->|[[d ->]|[->|(ns & k & v & b & e & _ & H)]]].
  - done.
  - split; [|by apply touch_NoDup]. intros d' e'. rewrite touched. destruct (decide (d' = d)) as [->|].
    + intros (e & He & ->)%fmap_Some. right. exists e. split; [done|]. split_and!; try done. cbn.
      intros b t ->. by eexists.
    + intros He. right. exists e'. split; [done|apply same_entry_refl].
  - split; [|by apply enforce_NoDup]. intros d e' (He & _)%enforce_get; [|done]. right. exists e'. split; [done|apply same_entry_refl].
  - destruct (committed_cases _ _ _ _ _ _ _ _ Hnd H) as [H1 H2]. split; [|done]. intros d' e' He.
    destruct (H2 _ _ He) as [(_ & ? & _)|Hs]; [by left|right]. exists e'. split; [done|apply same_entry_refl].
Qed.

(** Archives are immutable: whatever the store does, an entry it still has keeps
    its key, version, namespace and bytes; and a second commit of an entry is
    refused and changes nothing. *)
Theorem archives_immutable now op s : NoDup (root s).*1 →
  store_le s (store_step now op s)
  ∧ ∀ ns k v b, is_Some (imap_get (entry_id_scoped ns k v) (root s)) → validate_key k "Cache" = Ok () →
      put_scoped now ns k v b s = Err (AlreadyExists k v).
Proof.
  intros Hnd. split; [by apply store_step_le|]. intros ns k v b Hs Hv.
  unfold put_scoped, begin_commit. rewrite Hv. cbn [mbind result_bind]. unfold imap_contains.
  by rewrite bool_decide_eq_true_2.
Qed.

Lemma store_step_wf now op s : store_wf s → op_named op → store_wf (store_step now op s).
Proof.
  intros [Hnd Hw] Hop. destruct (store_step_le now op s Hnd) as [Hle Hnd']. split; [done|].
  destruct (store_step_cases now op s) as [->|[[d ->]|[->|(ns & k & v & b & e & Hok & H)]]].
  - done.
  - intros d' e'. rewrite touched. destruct (decide (d' = d)) as [->|]; [|apply Hw].
    intros (e & He & ->)%fmap_Some. apply (Hw _ _ He).
  - intros d' e' (He & _)%enforce_get; [by apply Hw|done].
  - intros d' e' He. destruct (committed_cases _ _ _ _ _ _ _ _ Hnd H) as [_ H2].
    destruct (H2 _ _ He) as [(-> & _ & ->)|Hs]; [|by apply Hw]. exists ns, k, v.
    split_and!; [done..|by apply Hok].
Qed.

Definition store_run (ops : list (Z * StoreOp)) (s : CacheStore) : CacheStore :=
  foldl (λ s o, store_step o.1 o.2 s) s ops.

(** Every sequence of operations keeps the directories distinct and named after
    the namespace, key and version they hold. *)
Theorem store_well_formed ops s : store_wf s → Forall (λ o, op_named o.2) ops → store_wf (store_run ops s).
Proof.
  intros Hw Ho. unfold store_run. revert s Hw. induction Ho as [|o ops Ho _ IH]; intros s Hw; cbn [foldl]; [done|].
  by apply IH, store_step_wf.
Qed.

(** What is committed is restored: a lookup of the same namespace, key and
    version finds the entry and its bytes, whatever else the store holds and
    however small the quota. *)
Theorem put_then_get now now' ns k v b s e s' restore_keys : NoDup (root s).*1 →
  put_scoped now ns k v b s = Ok (e, s') →
  length restore_keys ≤ 10 → validate_all restore_keys = Ok () →
  ∃ s'', get_scoped now' ns k v restore_keys s' = Ok (Some (e, b), s'').
Proof.
  intros Hnd H Hlen Hrk. apply committed in H as (Hn & Hv & -> & s1 & -> & _ & Hnd1 & Hg). specialize (Hnd1 Hnd).
  set (d := entry_id_scoped ns k v) in *.
  set (en := mkEntry _ _ _ _ _ _) in Hg.
  assert (imap_get d (root (enforce_quota_except now (Some d) s1)) = Some en) as Hin.
  { apply enforce_get; [done|]. rewrite Hg, decide_True by done. split_and!; [done|done|].
    intros (p & Hp & Hin)%list_elem_of_fmap. apply list_elem_of_fmap in Hin as (x & -> & Hx).
    apply dropped_elem in Hx. unfold unprotected in Hx. apply list_elem_of_filter in Hx as [Hx _]. apply Hx. left. congruence. }
  set (s2 := enforce_quota_except now (Some d) s1) in *.
  assert (resolve_scoped ns k v restore_keys s2 = Ok (Some (mkCacheEntry k v d (N.of_nat (length b))))) as Hr.
  { unfold resolve_scoped. rewrite Hv. cbn [mbind result_bind]. destruct (Nat.ltb_spec 10 (length restore_keys)); [lia|].
    rewrite Hrk. cbn [mbind result_bind]. unfold exact_dir, archive_at. fold d. by rewrite Hin. }
  unfold get_scoped, lookup_scoped. rewrite Hr. cbn [mbind result_bind entry_dir].
  assert (imap_get d (root (touch_file now' d s2)) =
    Some (mkEntry (Some ns) (Some k) (Some v) (Some (pretty (Z.to_N now))) (Some (b, now')) (Some now))) as Ht
    by (rewrite touched, decide_True, Hin by done; done).
  unfold archive_at. rewrite Ht. by eexists.
Qed.

(** ** Which entry a restore finds *)

Definition candidates (ns prefix v : string) (s : CacheStore) : list (CacheEntry * N) :=
  omap (prefix_candidate ns prefix v) (root s).

Lemma keep_newest_spec l acc : ∃ r, foldl keep_newest acc l = r
  ∧ match r with
    | None => acc = None ∧ l = []
    | Some c => (acc = Some c ∨ c ∈ l) ∧ (∀ c', acc = Some c' ∨ c' ∈ l → (c'.2 ≤ c.2)%N)
    end.
Proof.
  revert acc. induction l as [|x l IH]; intros acc; cbn [foldl].
  - eexists. split; [done|]. destruct acc as [c|]; [|done]. split; [by left|]. by intros c' [[= ->]|?%not_elem_of_nil].
  - destruct (IH (keep_newest acc x)) as (r & -> & Hr). eexists. split; [done|].
    assert (∃ a, keep_newest acc x = Some a ∧ (acc = Some a ∨ a = x) ∧ (x.2 ≤ a.2)%N ∧ ∀ c, acc = Some c → (c.2 ≤ a.2)%N)
      as (a & Ha & Hax & Hxa & Hca).
    { unfold keep_newest. destruct acc as [[c n]|]; [|exists x; naive_solver].
      destruct (N.ltb_spec n x.2); eexists; split_and!; [done|by right|done| |done|by left|done|];
        intros c' [= <-]; cbn; lia. }
    rewrite Ha in Hr. destruct r as [c|]; [|by destruct Hr]. destruct Hr as [Hc Hmax]. split.
    + destruct Hc as [[= <-]|Hc]; [|right; by right]. destruct Hax as [?| ->]; [by left|right; by left].
    + assert (a.2 ≤ c.2)%N by (apply Hmax; by left). setoid_rewrite elem_of_cons.
      intros c' [Hc'|[->|Hc']]; [specialize (Hca _ Hc'); lia|lia|]. apply Hmax. by right.
Qed.

Lemma find_prefix_None ns p v s : find_prefix_scoped ns p v s = None ↔ candidates ns p v s = [].
Proof.
  unfold find_prefix_scoped. fold (candidates ns p v s). destruct (keep_newest_spec (candidates ns p v s) None) as (r & -> & H).
  destruct r as [c|]; cbn; split; try done; [|naive_solver]. intros E. rewrite E in H.
  destruct H as [[?|?%not_elem_of_nil] _]; done.
Qed.

Lemma find_prefix_Some ns p v s e : find_prefix_scoped ns p v s = Some e →
  ∃ n, (e, n) ∈ candidates ns p v s ∧ ∀ e' n', (e', n') ∈ candidates ns p v s → (n' ≤ n)%N.
Proof.
  unfold find_prefix_scoped. fold (candidates ns p v s). destruct (keep_newest_spec (candidates ns p v s) None) as (r & -> & H).
  destruct r as [[e0 n]|]; [|done]. intros [= ->]. destruct H as [[?|Hc] Hmax]; [done|].
  exists n. split; [done|]. intros e' n' H. apply (Hmax (e', n')). by right.
Qed.

(** What a restore returns: the entry of the exact key; else, for the first of
    the key and the restore keys that some entry of the namespace and version
    begins with, the newest such entry; else nothing. *)
Inductive restores (ns k v : string) (rks : list string) (s : CacheStore) : option CacheEntry → Prop :=
| restores_exact d b : exact_dir ns k v s = Some (d, b) → restores ns k v rks s (Some (mkCacheEntry k v d (N.of_nat (length b))))
| restores_prefix before p after e n : exact_dir ns k v s = None → k :: rks = before ++ p :: after →
    Forall (λ q, candidates ns q v s = []) before →
    (e, n) ∈ candidates ns p v s → (∀ e' n', (e', n') ∈ candidates ns p v s → (n' ≤ n)%N) →
    restores ns k v rks s (Some e)
| restores_none : exact_dir ns k v s = None → Forall (λ q, candidates ns q v s = []) (k :: rks) → restores ns k v rks s None.

Lemma first_prefix_spec ns v ps s :
  match first_prefix ns v ps s with
  | Some e => ∃ before p after n, ps = before ++ p :: after ∧ Forall (λ q, candidates ns q v s = []) before
      ∧ (e, n) ∈ candidates ns p v s ∧ ∀ e' n', (e', n') ∈ candidates ns p v s → (n' ≤ n)%N
  | None => Forall (λ q, candidates ns q v s = []) ps
  end.
Proof.
  induction ps as [|p ps IH]; [constructor|]. cbn [first_prefix].
  destruct (find_prefix_scoped ns p v s) as [e|] eqn:E.
  - apply find_prefix_Some in E as (n & Hn & Hmax). by exists [], p, ps, n.
  - apply find_prefix_None in E. destruct (first_prefix ns v ps s) as [e|]; [|by constructor].
    destruct IH as (before & q & rest & n & -> & Hb & H). exists (p :: before), q, rest, n. split_and!; [done|by constructor|apply H..].
Qed.

Lemma resolve_restores ns k v rks s r : resolve_scoped ns k v rks s = Ok r →
  validate_key k "Cache" = Ok () ∧ length rks ≤ 10 ∧ restores ns k v rks s r.
Proof.
  unfold resolve_scoped. destruct (validate_key k "Cache") as [[]|]; [|done]. cbn [mbind result_bind].
  destruct (Nat.ltb_spec 10 (length rks)) as [|Hlen]; [done|]. destruct (validate_all rks); [|done]. cbn [mbind result_bind].
  intros H. split_and!; [done|done|]. destruct (exact_dir ns k v s) as [[d b]|] eqn:E.
  - injection H as <-. by constructor.
  - injection H as <-. change (restores ns k v rks s (first_prefix ns v (k :: rks) s)).
    assert (Hf := first_prefix_spec ns v (k :: rks) s).
    destruct (first_prefix ns v (k :: rks) s) as [e|]; [|by apply restores_none].
    destruct Hf as (before & p & rest & n & ? & ? & ? & ?). by eapply restores_prefix.
Qed.

(** A restore looks up in the order GitHub documents: the exact key, then the
    key and each restore key in turn as a prefix, the newest entry winning. *)
Theorem restore_order ns k v rks s r : resolve_scoped ns k v rks s = Ok r → restores ns k v rks s r.
Proof. by intros (_ & _ & H)%resolve_restores. Qed.


(** ** Namespaces *)

Lemma prefix_candidate_spec ns p v d e c n : prefix_candidate ns p v (d, e) = Some (c, n) →
  default "" (namespace e) = ns ∧ version e = Some v ∧ key e = Some (entry_key c) ∧ starts_with p (entry_key c) = true
  ∧ entry_dir c = d ∧ is_Some (archive e).
Proof.
  unfold prefix_candidate. cbn [snd fst]. destruct (archive e) as [[b t]|]; [|done]. cbn [mbind option_bind].
  destruct (key e) as [k|]; [|done]. destruct (version e) as [v'|]; [|done]. destruct (created_at e) as [cr|]; [|done].
  cbn [mbind option_bind]. destruct (bool_decide (_ = ns)) eqn:E1; [|done]. destruct (bool_decide (v' = v)) eqn:E2; [|done].
  destruct (starts_with p k) eqn:E3; [|done]. cbn [andb]. destruct (parse_u128 cr); [|done]. cbn [mbind option_bind].
  intros [= <- <-]. bool_to_prop. subst. by split_and!.
Qed.

(** The names of the old layout are not those of a well-formed store. *)
Lemma legacy_absent s k v l : store_wf s → legacy_name_for k v = Some l → imap_get l (root s) = None.
Proof.
  intros [_ Hw] Hl. destruct (imap_get l (root s)) as [e|] eqn:E; [exfalso|done].
  destruct (Hw _ _ E) as (ns & k' & v' & _ & _ & _ & -> & _).
  assert (∀ ns k v, Forall (λ x, (48 ≤ x < 256)%N) (Utf8.bytes (entry_id_scoped ns k v))) as Hh.
  { intros. unfold entry_id_scoped, entry_id. destruct (bool_decide _); unfold hex;
      (rewrite list_ascii_of_bytes; [|eapply Forall_impl; [apply hex_bytes_range, sha256_bytes|naive_solver]]);
      apply hex_bytes_range, sha256_bytes. }
  specialize (Hh ns k' v'). unfold legacy_name_for in Hl. destruct (_ <? _); [done|]. injection Hl as Hl. rewrite <- Hl in Hh.
  rewrite !bytes_app, !Forall_app in Hh. destruct Hh as (_ & Hd & _).
  apply Forall_inv in Hd. vm_compute in Hd. by destruct Hd.
Qed.

Lemma exact_dir_wf ns k v s d b : store_wf s → well_named ns k v → exact_dir ns k v s = Some (d, b) →
  d = entry_id_scoped ns k v ∧ ∃ e t, imap_get d (root s) = Some e ∧ archive e = Some (b, t)
    ∧ namespace e = Some ns ∧ version e = Some v ∧ key e = Some k.
Proof.
  intros Hwf (S1 & S2 & S3 & P) H. unfold exact_dir, archive_at in H.
  destruct (imap_get (entry_id_scoped ns k v) (root s)) as [e|] eqn:E; cbn [mbind option_bind] in H.
  - destruct (archive e) as [[b' t]|] eqn:Ea.
    + injection H as <- <-. split; [done|]. exists e, t. destruct (proj2 Hwf _ _ E) as (ns' & k' & v' & H1 & H2 & H3 & H4 & S4 & S5 & S6 & P').
      apply entry_id_scoped_inj in H4 as (-> & -> & ->); try done.
    + exfalso. destruct (bool_decide (ns = "")); [|done].
      destruct (legacy_name_for k v) as [l|] eqn:El; [|done]. cbn [mbind option_bind] in H.
      by rewrite (legacy_absent _ _ _ _ Hwf El) in H.
  - exfalso. destruct (bool_decide (ns = "")); [|done].
    destruct (legacy_name_for k v) as [l|] eqn:El; [|done]. cbn [mbind option_bind] in H.
    by rewrite (legacy_absent _ _ _ _ Hwf El) in H.
Qed.

(** A restore never crosses a namespace: what it returns is stored in the
    namespace and under the version it was asked for, and its key is the key
    or begins with the key or one of the restore keys. *)
Theorem namespaces_isolated now ns k v rks s e b s' : store_wf s → well_named ns k v →
  get_scoped now ns k v rks s = Ok (Some (e, b), s') →
  ∃ entry t, imap_get (entry_dir e) (root s) = Some entry ∧ archive entry = Some (b, t)
    ∧ namespace entry = Some ns ∧ version entry = Some v ∧ key entry = Some (entry_key e)
    ∧ ∃ p, p ∈ k :: rks ∧ starts_with p (entry_key e) = true.
Proof.
  intros Hwf Hok H. unfold get_scoped, lookup_scoped in H.
  destruct (resolve_scoped ns k v rks s) as [[r|]|] eqn:Er; [|done..]. cbn [mbind result_bind] in H.
  assert (e = r ∧ ∃ entry t, imap_get (entry_dir r) (root s) = Some entry ∧ archive entry = Some (b, t)) as (-> & entry & t & Hg & Ha).
  { unfold archive_at in H. rewrite touched, decide_True in H by done.
    destruct (imap_get (entry_dir r) (root s)) as [en|]; [|done]. cbn in H.
    destruct (archive en) as [[b' t']|] eqn:Ea; [|done]. cbn in H. injection H as <- <- _. split; [done|]. by exists en, t'. }
  clear H. exists entry, t. apply resolve_restores in Er as (_ & _ & Hr).
  inversion Hr as [d b' He|before p after e' n _ Hks _ Hin _ |]; subst.
  - destruct (exact_dir_wf _ _ _ _ _ _ Hwf Hok He) as (_ & en & t' & Hg' & Ha' & Hns & Hv & Hk).
    cbn [entry_dir entry_key] in *. assert (en = entry) as -> by congruence. split_and!; [done..|].
    exists k. split; [by left|]. apply starts_with_true. exists "". by rewrite app_empty_r.
  - apply list_elem_of_omap in Hin as ([d en] & Hin & Hc). apply prefix_candidate_spec in Hc as (Hns & Hv & Hk & Hp & <- & _).
    apply elem_of_imap_get in Hin; [|apply Hwf]. assert (en = entry) as -> by congruence.
    destruct (proj2 Hwf _ _ Hg) as (ns' & _ & _ & Hns' & _). rewrite Hns' in Hns. cbn in Hns. subst ns'.
    split_and!; [done..|]. exists p. split; [|done]. rewrite Hks. apply elem_of_app. right. by left.
Qed.
End wellformed.

(** ** Instances *)

(** An identity that is not SHA-256 but keeps texts apart. *)
#[local] Instance identity_digest : Digest256.
Proof.
  refine {| sha256 := fmap (λ b, b mod 256)%N |}.
  - intros x. apply Forall_fmap, Forall_forall. intros b _. apply N.mod_lt. lia.
  - intros x y Hx Hy. assert (∀ z, Forall (λ b, (b < 256)%N) z → (λ b, b mod 256)%N <$> z = z) as Hid.
    { induction 1 as [|b z Hb _ IH]; [done|]. cbn. rewrite N.mod_small by done. by f_equal. }
    by rewrite !Hid.
Defined.

Section witnesses.
(** At the fourth instant [linux-a] is held by a reader. *)
#[local] Instance sample_removals : Removals :=
  λ now n, bool_decide (now = 4%Z) && str_eqb n (entry_id_scoped "repo" "linux-a" "v").
Local Definition empty : CacheStore := mkStore [] 5.
Local Definition first : StoreOp := Put "repo" "linux-a" "v" [1; 2; 3]%N.
Local Definition one : CacheStore := store_step 1 first empty.
Local Definition two : CacheStore := store_step 2 (Put "repo" "linux-b" "v" [4; 5]%N) one.

Lemma well_named_repo k v : bool_decide (String.length k < 100 ∧ String.length v < 100) = true → well_named "repo" k v.
Proof.
  intros [??]%bool_decide_eq_true. unfold well_named, short. change (2 ^ 64)%N with 18446744073709551616%N.
  split_and!; [by vm_compute|lia|lia|done].
Qed.
Lemma empty_store_wf : store_wf empty.
Proof. split; [constructor|]. intros d e. done. Qed.
Lemma one_wf : store_wf one.
Proof. apply store_step_wf; [apply empty_store_wf|apply well_named_repo; by vm_compute]. Qed.
Lemma two_wf : store_wf two.
Proof. apply store_step_wf; [apply one_wf|apply well_named_repo; by vm_compute]. Qed.

Lemma store_well_formed_witness : store_wf (store_run [(1%Z, first)] empty).
Proof.
  apply store_well_formed; [apply empty_store_wf|]. apply Forall_singleton. apply well_named_repo. by vm_compute.
Defined.

Lemma archives_immutable_witness : put_scoped 3 "repo" "linux-a" "v" [9]%N one = Err (AlreadyExists "linux-a" "v").
Proof.
  apply (archives_immutable 3 Enforce one (proj1 one_wf)); [|by vm_compute].
  apply (bool_decide_unpack _). by vm_compute.
Defined.

Lemma put_then_get_witness : ∃ s'', get_scoped 4 "repo" "linux-b" "v" ["linux-"] two =
  Ok (Some (mkCacheEntry "linux-b" "v" (entry_id_scoped "repo" "linux-b" "v") 2, [4; 5]%N), s'').
Proof.
  apply (put_then_get 2 4 "repo" "linux-b" "v" [4; 5]%N one _ two ["linux-"] (proj1 one_wf)).
  - by vm_compute.
  - cbn. lia.
  - by vm_compute.
Defined.

Lemma restore_order_witness :
  restores "repo" "linux" "v" ["x"] two (Some (mkCacheEntry "linux-b" "v" (entry_id_scoped "repo" "linux-b" "v") 2)).
Proof. apply restore_order. by vm_compute. Defined.

Lemma namespaces_isolated_witness : ∃ entry, imap_get (entry_id_scoped "repo" "linux-b" "v") (root two) = Some entry
  ∧ namespace entry = Some "repo".
Proof.
  destruct (namespaces_isolated 5 "repo" "linux" "v" ["x"] two
    (mkCacheEntry "linux-b" "v" (entry_id_scoped "repo" "linux-b" "v") 2) [4; 5]%N
    (touch_file 5 (entry_id_scoped "repo" "linux-b" "v") two)) as (entry & t & H1 & _ & H2 & _).
  - apply two_wf.
  - apply well_named_repo. by vm_compute.
  - by vm_compute.
  - exists entry. by split.
Defined.

Lemma quota_eviction_witness :
  let s := mkStore (root two) 4 in
  let after now := finalized (root (enforce_quota_except now None s)) in
  total_size (after 3%Z) = 2%N ∧ total_size (after 4%Z) = 3%N
  ∧ ∀ now, (total_size (after now) ≤ 4)%N ∨ ∀ x, x ∈ after now → kept_anyway now None x.
Proof.
  split; [by vm_compute|]. split; [by vm_compute|]. intros now.
  apply (quota_eviction now None (mkStore (root two) 4) (proj1 two_wf)).
Defined.
End witnesses.
