(* ===== verification/StepLog.v ===== *)
(** * The log of a step

    [StepContext] of [crates/preloop-runner/src/worker/execution_context.rs]
    with [handle_command] of [commands.rs] and the mask set of [contexts.rs]:
    the output of a step is cut into lines, each line is masked, read for
    workflow commands and problem matches, and written to the durable log.

    The problem matchers of [matchers.rs] are behind the interface [Matchers].
    Whether the write of a record succeeds is behind [LogFile]; one that fails
    leaves the file as it was. The rewriting of the file after [add-mask]
    succeeds; a live-log connection is not modelled. [None] stands for a panic. *)
From S2P Require Export WorkerCommands UrlMask ExprText.

Inductive AnnotationLevel : Type := Notice | Warning | Error.
#[export] Instance AnnotationLevel_eq_dec : EqDecision AnnotationLevel.
Proof. solve_decision. Defined.

Record Annotation : Type := mkAnnotation {
  level : AnnotationLevel; message : string; title : option string; file : option string;
  line : option N; end_line : option N; col : option N; end_column : option N }.

(** What a step asks of the registry of problem matchers. *)
Class Matchers := {
  registry : Type;
  add_from_file : string → registry → registry;
  remove_matcher : string → registry → registry;
  match_line : bool → string → registry → list Annotation * registry;
}.

(** Whether the log file, as it stands, takes a record. *)
Class LogFile := takes_record : string → string → bool.

Section step.
Context {UL : UnicodeLower} {B64 : Base64Engines} {MA : Matchers} {LG : LogFile}.

Record JobContext : Type := mkJob {
  masks : gset string; pattern_masks : list PatternMasker; dap_debugger : bool;
  extra_path : list string; job_state : gmap string (gmap string string); matchers : registry }.

Record StepContext : Type := mkStep {
  job : JobContext; step_id : string; env : gmap string string; annotations : list Annotation;
  debug : bool; echo : bool; log_file : string; log_line_count : N;
  stdout_prefix_override : option bool; stop_commands_token : option string;
  translate_container_path : bool; telemetry_errors : list string;
  line_buffer : bytes; line_buffer_truncated : bool; disable_prefixing : bool;
  partial_is_continuation : bool }.

Definition with_job (j : JobContext) (c : StepContext) : StepContext :=
  mkStep j (step_id c) (env c) (annotations c) (debug c) (echo c) (log_file c) (log_line_count c)
    (stdout_prefix_override c) (stop_commands_token c) (translate_container_path c) (telemetry_errors c)
    (line_buffer c) (line_buffer_truncated c) (disable_prefixing c) (partial_is_continuation c).
Definition with_env (e : gmap string string) (c : StepContext) : StepContext :=
  mkStep (job c) (step_id c) e (annotations c) (debug c) (echo c) (log_file c) (log_line_count c)
    (stdout_prefix_override c) (stop_commands_token c) (translate_container_path c) (telemetry_errors c)
    (line_buffer c) (line_buffer_truncated c) (disable_prefixing c) (partial_is_continuation c).
Definition with_annotations (a : list Annotation) (c : StepContext) : StepContext :=
  mkStep (job c) (step_id c) (env c) a (debug c) (echo c) (log_file c) (log_line_count c)
    (stdout_prefix_override c) (stop_commands_token c) (translate_container_path c) (telemetry_errors c)
    (line_buffer c) (line_buffer_truncated c) (disable_prefixing c) (partial_is_continuation c).
Definition with_echo (e : bool) (c : StepContext) : StepContext :=
  mkStep (job c) (step_id c) (env c) (annotations c) (debug c) e (log_file c) (log_line_count c)
    (stdout_prefix_override c) (stop_commands_token c) (translate_container_path c) (telemetry_errors c)
    (line_buffer c) (line_buffer_truncated c) (disable_prefixing c) (partial_is_continuation c).
Definition with_log (f : string) (n : N) (c : StepContext) : StepContext :=
  mkStep (job c) (step_id c) (env c) (annotations c) (debug c) (echo c) f n
    (stdout_prefix_override c) (stop_commands_token c) (translate_container_path c) (telemetry_errors c)
    (line_buffer c) (line_buffer_truncated c) (disable_prefixing c) (partial_is_continuation c).
Definition with_override (o : option bool) (c : StepContext) : StepContext :=
  mkStep (job c) (step_id c) (env c) (annotations c) (debug c) (echo c) (log_file c) (log_line_count c)
    o (stop_commands_token c) (translate_container_path c) (telemetry_errors c)
    (line_buffer c) (line_buffer_truncated c) (disable_prefixing c) (partial_is_continuation c).
Definition with_token (t : option string) (c : StepContext) : StepContext :=
  mkStep (job c) (step_id c) (env c) (annotations c) (debug c) (echo c) (log_file c) (log_line_count c)
    (stdout_prefix_override c) t (translate_container_path c) (telemetry_errors c)
    (line_buffer c) (line_buffer_truncated c) (disable_prefixing c) (partial_is_continuation c).
Definition with_telemetry (t : list string) (c : StepContext) : StepContext :=
  mkStep (job c) (step_id c) (env c) (annotations c) (debug c) (echo c) (log_file c) (log_line_count c)
    (stdout_prefix_override c) (stop_commands_token c) (translate_container_path c) t
    (line_buffer c) (line_buffer_truncated c) (disable_prefixing c) (partial_is_continuation c).
Definition with_buffer (b : bytes) (truncated continuation : bool) (c : StepContext) : StepContext :=
  mkStep (job c) (step_id c) (env c) (annotations c) (debug c) (echo c) (log_file c) (log_line_count c)
    (stdout_prefix_override c) (stop_commands_token c) (translate_container_path c) (telemetry_errors c)
    b truncated (disable_prefixing c) continuation.

Definition with_matchers (r : registry) (j : JobContext) : JobContext :=
  mkJob (masks j) (pattern_masks j) (dap_debugger j) (extra_path j) (job_state j) r.

(** ** Masks of the job *)

Definition DAP_PROTOCOL_KEYWORDS : list string := ["response"; "initialize"; "event"].
Definition mask_exclude (j : JobContext) : list bytes :=
  if dap_debugger j then Utf8.bytes <$> DAP_PROTOCOL_KEYWORDS else [].

Definition mask_secrets_job (j : JobContext) (input : string) : string :=
  Utf8.of_bytes (mask_secrets_transform_aware_with_patterns (Utf8.bytes input)
    (Utf8.bytes <$> elements (masks j)) (pattern_masks j) (mask_exclude j)).

Definition mask_secrets_preserving_lines_with (j : JobContext) (input : bytes) (secrets : list string) : string :=
  Utf8.of_bytes (mask_secrets_preserving_lines_transform_aware_with_patterns input
    (Utf8.bytes <$> secrets) (pattern_masks j) (mask_exclude j)).

(** [value.split(['\r', '\n'])]. *)
Fixpoint split_line_ends (s : string) : list string :=
  match s with
  | EmptyString => [EmptyString]
  | String a r =>
      if bool_decide (a = "013"%char) || bool_decide (a = "010"%char) then EmptyString :: split_line_ends r
      else match split_line_ends r with
           | part :: parts => String a part :: parts
           | [] => []
           end
  end.

Definition add_mask (value : string) (j : JobContext) : list string * JobContext :=
  if bool_decide (trim value = "") then ([], j)
  else
    let added := value :: filter (λ l, l ≠ "") (trim <$> split_line_ends value) in
    (added, mkJob (list_to_set added ∪ masks j) (pattern_masks j) (dap_debugger j) (extra_path j) (job_state j)
              (matchers j)).

(** ** Writing a line *)

Definition written_log_line_count (l : string) : N :=
  N.of_nat (length (filter (λ b, b = 10%N) (Utf8.bytes l))) + 1.

Definition write_line (fmt : string) (c : StepContext) : StepContext :=
  if takes_record (log_file c) fmt
  then with_log (log_file c +:+ fmt +:+ LF) (log_line_count c + written_log_line_count fmt) c
  else c.

Definition MAX_ANNOTATION_MESSAGE : nat := 4096.
Definition MAX_ANNOTATIONS : nat := 10.

(** [String::truncate] panics inside a character. *)
Definition truncate_message (m : string) : option string :=
  if String.length m <=? MAX_ANNOTATION_MESSAGE then Some m
  else if is_char_boundary (Utf8.bytes m) MAX_ANNOTATION_MESSAGE
  then Some (Utf8.of_bytes (take MAX_ANNOTATION_MESSAGE (Utf8.bytes m)))
  else None.

Definition annotate (a : Annotation) (c : StepContext) : option StepContext :=
  if length (annotations c) <? MAX_ANNOTATIONS then
    m ← truncate_message (message a);
    Some (with_annotations (annotations c ++
      [mkAnnotation (level a) m (title a) (file a) (line a) (end_line a) (col a) (end_column a)]) c)
  else Some c.

Fixpoint annotate_all (l : list Annotation) (c : StepContext) : option StepContext :=
  match l with [] => Some c | a :: l => c ← annotate a c; annotate_all l c end.

(** The loop that picks the prefix of a matched line. *)
Fixpoint severity_prefix (prefix : string) (l : list Annotation) : string :=
  match l with
  | [] => prefix
  | a :: l =>
      match level a with
      | Error => "##[error]"
      | Warning => severity_prefix "##[warning]" l
      | Notice =>
          severity_prefix
            (if negb (str_eqb prefix "##[error]") && negb (str_eqb prefix "##[warning]") then "##[notice]" else prefix) l
      end
  end.

Definition strip_markers (l : string) : string :=
  if str_contains "##[start-action" l || str_contains "##[end-action" l
  then replace "##[end-action" "##[\end-action" (replace "##[start-action" "##[\start-action" l)
  else l.

(** [now] is the time stamp [iso_now] gives. *)
Definition log_raw (now l : string) (c : StepContext) : option StepContext :=
  let l := strip_markers l in
  let c := if str_contains "fatal: unsafe repository" l
           then with_telemetry (telemetry_errors c ++ [l]) c else c in
  let masked := mask_secrets_job (job c) l in
  let '(matched, registry) := match_line (translate_container_path c) masked (matchers (job c)) in
  let c := with_job (with_matchers registry (job c)) c in
  match matched with
  | _ :: _ =>
      c ← annotate_all matched c;
      Some (write_line (now +:+ " " +:+ severity_prefix "##[error]" matched +:+ masked) c)
  | [] =>
      Some (write_line (if bool_decide (stdout_prefix_override c = Some false) then masked
                        else now +:+ " " +:+ masked) c)
  end.

Fixpoint log_raw_all (now : string) (ls : list string) (c : StepContext) : option StepContext :=
  match ls with [] => Some c | l :: ls => c ← log_raw now l c; log_raw_all now ls c end.

Definition log_debug (now m : string) (c : StepContext) : option StepContext :=
  if debug c then log_raw_all now ((λ l, "##[debug]" +:+ l) <$> split_char "010" m) c else Some c.

(** ** Commands *)

Definition build_annotation (lvl : AnnotationLevel) (cmd : WorkflowCommand) (masked : string) : Annotation :=
  let number key := properties cmd !! key ≫= parse_unsigned 32 in
  mkAnnotation lvl masked (properties cmd !! "title") (properties cmd !! "file")
    (number "line") (number "endline") (number "col") (number "endcolumn").

Definition retroactive_mask (secrets : list string) (c : StepContext) : StepContext :=
  match secrets with
  | [] => c
  | _ =>
      with_log (mask_secrets_preserving_lines_with (job c) (from_utf8_lossy (Utf8.bytes (log_file c))) secrets)
        (log_line_count c) c
  end.

Definition issue (now : string) (lvl : AnnotationLevel) (prefix : string) (cmd : WorkflowCommand) (c : StepContext) :
    option StepContext :=
  let masked := mask_secrets_job (job c) (data cmd) in
  c ← annotate (build_annotation lvl cmd masked) c;
  log_raw now (prefix +:+ masked) c.

Definition SET_OUTPUT_WARNING : string :=
  "##[warning]The `set-output` command is deprecated and will be disabled soon. Please upgrade to using Environment Files. For more information see: https://github.blog/changelog/2022-10-11-github-actions-deprecating-save-state-and-set-output-commands/".
Definition SAVE_STATE_WARNING : string :=
  "##[warning]The `save-state` command is deprecated and will be disabled soon. Please upgrade to using Environment Files.".

(** [log_warning] is [log], through which the deprecation notices go: each is
    itself a legacy [##[warning]] command. *)
Definition handle_command (log_warning : string → StepContext → option StepContext) (now : string)
    (cmd : WorkflowCommand) (c : StepContext) : option StepContext :=
  let j := job c in
  let named n := str_eqb (name cmd) n in
  if named "add-mask" then
    let '(added, j) := add_mask (data cmd) j in
    Some (retroactive_mask added (with_job j c))
  else if named "add-path" then
    Some (with_job (mkJob (masks j) (pattern_masks j) (dap_debugger j) (data cmd :: extra_path j) (job_state j)
                      (matchers j)) c)
  else if named "debug" then log_debug now (data cmd) c
  else if named "error" then issue now Error "##[error]" cmd c
  else if named "warning" then issue now Warning "##[warning]" cmd c
  else if named "notice" then issue now Notice "##[notice]" cmd c
  else if named "group" then log_raw now ("##[group]" +:+ data cmd) c
  else if named "endgroup" then log_raw now "##[endgroup]" c
  else if named "echo" then
    Some (if str_eqb (data cmd) "on" then with_echo true c
          else if str_eqb (data cmd) "off" then with_echo false c else c)
  else if named "set-output" then
    c ← log_warning SET_OUTPUT_WARNING c;
    Some (match properties cmd !! "name" with
          | Some n => with_env (<["OUTPUT_" +:+ n := data cmd]> (env c)) c
          | None => c
          end)
  else if named "save-state" then
    c ← log_warning SAVE_STATE_WARNING c;
    Some (match properties cmd !! "name" with
          | Some n =>
              let j := job c in
              let st := default ∅ (job_state j !! step_id c) in
              with_job (mkJob (masks j) (pattern_masks j) (dap_debugger j) (extra_path j)
                (<[step_id c := <[n := data cmd]> st]> (job_state j)) (matchers j)) c
          | None => c
          end)
  else if named "add-matcher" then Some (with_job (with_matchers (add_from_file (data cmd) (matchers j)) j) c)
  else if named "remove-matcher" then
    Some (with_job (with_matchers (remove_matcher (default (data cmd) (properties cmd !! "owner")) (matchers j)) j) c)
  else Some c.

Definition one_of (n : string) (l : list string) : bool := bool_decide (n ∈ l).

(** [log]; [fuel] bounds the nesting through the deprecation notices, which are
    [warning] commands and so nest once. *)
Fixpoint log_loop (fuel : nat) (now l : string) (c : StepContext) : option StepContext :=
  match stop_commands_token c with
  | Some token =>
      if str_eqb (trim l) ("::" +:+ token +:+ "::") then Some (with_token None c)
      else
        let masked := mask_secrets_job (job c) l in
        Some (write_line (if bool_decide (stdout_prefix_override c = Some false) then masked
                          else now +:+ " " +:+ masked) c)
  | None =>
      match parse_command l with
      | None => log_raw now l c
      | Some cmd =>
          if str_eqb (name cmd) "stop-commands" && negb (str_eqb (data cmd) "") then
            Some (with_token (Some (data cmd)) c)
          else
            let log_warning w c := match fuel with O => log_raw now w c | S fuel => log_loop fuel now w c end in
            c ← handle_command log_warning now cmd c;
            if one_of (name cmd) ["add-matcher"; "remove-matcher"; "add-mask"; "save-state"; "set-output"] then
              if echo c then log_raw now l c else Some c
            else if one_of (name cmd) ["group"; "endgroup"; "debug"; "error"; "warning"; "notice"] then Some c
            else log_raw now l c
      end
  end.
Definition log (now l : string) (c : StepContext) : option StepContext := log_loop 1 now l c.

(** ** Output chunks *)

Definition MAX_LINE_BUFFER_BYTES : N := 1024 * 1024.
Definition MAX_LOG_LINE_BYTES : N := 1024 * 1024.

(** The last character boundary at or before [hi]. *)
Fixpoint boundary_before (b : bytes) (hi : nat) : nat :=
  if is_char_boundary b hi then hi else match hi with O => O | S hi => boundary_before b hi end.

Definition truncate_log_line (l : string) : string :=
  if (N.of_nat (String.length l) <=? MAX_LOG_LINE_BYTES)%N then l
  else
    let b := Utf8.bytes l in
    Utf8.of_bytes (take (boundary_before b (N.to_nat MAX_LOG_LINE_BYTES)) b)
      +:+ "…[line truncated at 1048576 bytes]".

(** The records a buffer holds, and the unterminated rest. *)
Fixpoint split_records (open b : bytes) : list bytes * bytes :=
  match b with
  | [] => ([], open)
  | x :: r =>
      if (x =? 10)%N then (λ '(records, rest), (open :: records, rest)) (split_records [] r)
      else split_records (open ++ [x]) r
  end.

Definition OVERFLOW_WARNING : string :=
  "##[warning]Step output exceeded the 1 MiB partial-line buffer; output was truncated".

(** The lines of a chunk; only the first takes a time stamp when prefixing is disabled. *)
Fixpoint log_lines (now : string) (first : bool) (ls : list string) (c : StepContext) : option StepContext :=
  match ls with
  | [] => Some c
  | l :: ls =>
      c ← log now l (with_override (Some (first || negb (disable_prefixing c))) c);
      log_lines now false ls (with_override None c)
  end.

Definition masked_record (j : JobContext) (record : bytes) : string :=
  truncate_log_line (mask_secrets_job j (Utf8.of_bytes (from_utf8_lossy record))).

Definition write_chunk (now : string) (chunk : bytes) (c : StepContext) : option StepContext :=
  let '(records, rest) := split_records [] (line_buffer c ++ chunk) in
  let complete_lines := masked_record (job c) <$> records in
  let overflow := (MAX_LINE_BUFFER_BYTES <? N.of_nat (length rest))%N in
  let rest := if overflow then drop (N.to_nat (N.of_nat (length rest) - MAX_LINE_BUFFER_BYTES)) rest else rest in
  let truncated := overflow || line_buffer_truncated c in
  let continuation :=
    match complete_lines with
    | _ :: _ => disable_prefixing c && negb (bool_decide (rest = []))
    | [] => if bool_decide (rest = []) then false else partial_is_continuation c
    end in
  let c := with_buffer rest false continuation c in
  c ← (if truncated then log now OVERFLOW_WARNING c else Some c);
  log_lines now true complete_lines c.

Definition flush_line_buffer (now : string) (c : StepContext) : option StepContext :=
  if bool_decide (line_buffer c = []) then
    let truncated := line_buffer_truncated c in
    let c := with_buffer [] false (partial_is_continuation c) c in
    if truncated then log now OVERFLOW_WARNING c else Some c
  else
    let l := masked_record (job c) (line_buffer c) in
    let truncated := line_buffer_truncated c in
    let is_continuation := partial_is_continuation c in
    let c := with_buffer [] false false c in
    c ← (if truncated then log now OVERFLOW_WARNING c else Some c);
    c ← log now l (with_override (Some (negb (disable_prefixing c) || negb is_continuation)) c);
    Some (with_override None c).

(** [StepContext::new]: the environment decides [debug] and the prefixing, the
    job's container the path translation. *)
Definition new_step (j : JobContext) (step_id : string) (debug translate disable_prefixing : bool) : StepContext :=
  mkStep j step_id ∅ [] debug false "" 0 None None translate [] [] false disable_prefixing false.

(** What the runner does with a step's context while its process runs. *)
Inductive StepEvent : Type := Line (l : string) | Chunk (b : bytes) | Flush.

Definition step_event (now : string) (e : StepEvent) (c : StepContext) : option StepContext :=
  match e with
  | Line l => log now l c
  | Chunk b => write_chunk now b c
  | Flush => flush_line_buffer now c
  end.

(** Events with the time stamps at which they happen. *)
Fixpoint run_step (events : list (string * StepEvent)) (c : StepContext) : option StepContext :=
  match events with
  | [] => Some c
  | (now, e) :: events => c ← step_event now e c; run_step events c
  end.

End step.

(** ** Lemmas *)

Definition line_ends (b : bytes) : N := N.of_nat (length (filter (λ x, x = 10%N) b)).

Lemma line_ends_app a b : line_ends (a ++ b) = (line_ends a + line_ends b)%N.
Proof. unfold line_ends. rewrite filter_app, length_app. lia. Qed.

Lemma line_ends_newlines a b : filter is_newline a = filter is_newline b → line_ends a = line_ends b.
Proof.
  assert (∀ l : bytes, filter (λ x, x = 10%N) l = filter (λ x, x = 10%N) (filter is_newline l)) as Hf.
  { intros l. induction l as [|x l IH]; [done|]. rewrite !filter_cons. unfold is_newline at 1.
    repeat case_decide; subst; rewrite ?filter_cons; repeat case_decide; try lia; by rewrite ?IH. }
  intros He. unfold line_ends. by rewrite Hf, He, <-Hf.
Qed.

Lemma utf8_bytes_256 b : utf8 b → Forall (λ x, (x < 256)%N) b.
Proof.
  induction 1 as [|c b Hc _ IH]; [constructor|]. apply Forall_app; split; [|done].
  by apply encode_char_bytes, is_scalar_lt.
Qed.

Lemma bytes_of_utf8 b : utf8 b → Utf8.bytes (Utf8.of_bytes b) = b.
Proof. intros Hb. by apply list_ascii_of_bytes, utf8_bytes_256. Qed.

Section invariant.
Context {UL : UnicodeLower} {B64 : Base64Engines} {MA : Matchers} {LG : LogFile}.

(** The log of a step is well formed: the line counter that checkpoints are
    taken from counts the line ends of the durable log, and annotations are
    within their caps. *)
Definition step_ok (c : StepContext) : Prop :=
  log_line_count c = line_ends (Utf8.bytes (log_file c))
  ∧ length (annotations c) ≤ MAX_ANNOTATIONS
  ∧ Forall (λ a, String.length (message a) ≤ MAX_ANNOTATION_MESSAGE) (annotations c).

(** The invariant reads three fields. *)
Lemma step_ok_same c c' :
  log_line_count c' = log_line_count c → log_file c' = log_file c → annotations c' = annotations c →
  step_ok c → step_ok c'.
Proof. unfold step_ok. by intros -> -> ->. Qed.

Lemma write_line_ok fmt c : step_ok c → step_ok (write_line fmt c).
Proof.
  intros (Hn & Ha). unfold write_line. destruct (takes_record _ _); [|by split].
  split; [|done]. cbn [log_line_count log_file with_log]. rewrite Hn.
  unfold written_log_line_count. rewrite !bytes_app, !line_ends_app. unfold line_ends at 3. fold (line_ends (Utf8.bytes fmt)).
  change (line_ends (Utf8.bytes LF)) with 1%N. unfold line_ends. lia.
Qed.

Lemma length_of_bytes b : String.length (Utf8.of_bytes b) = length b.
Proof. unfold Utf8.of_bytes. induction b as [|x b IH]; [done|]. csimpl. by rewrite IH. Qed.

Lemma truncate_message_length m m' : truncate_message m = Some m' → String.length m' ≤ MAX_ANNOTATION_MESSAGE.
Proof.
  unfold truncate_message. destruct (Nat.leb_spec (String.length m) MAX_ANNOTATION_MESSAGE); [by intros [= <-]|].
  case_match; [|done]. intros [= <-]. rewrite length_of_bytes, length_take. lia.
Qed.

Lemma annotate_ok a c c' : step_ok c → annotate a c = Some c' → step_ok c'.
Proof.
  intros (Hn & Ha & Hm). unfold annotate. destruct (Nat.ltb_spec (length (annotations c)) MAX_ANNOTATIONS); [|by intros [= <-]].
  rewrite bind_Some. intros (m & Ht & [= <-]). split_and!; [done| |].
  - cbn [annotations with_annotations]. rewrite length_app. simpl. lia.
  - cbn [annotations with_annotations]. apply Forall_app; split; [done|]. constructor; [|constructor].
    by eapply truncate_message_length.
Qed.

Lemma annotate_all_ok l c c' : step_ok c → annotate_all l c = Some c' → step_ok c'.
Proof.
  revert c. induction l as [|a l IH]; intros c Hc; simpl; [by intros [= <-]|].
  rewrite bind_Some. intros (c1 & Ha & Hl). eapply IH; [|done]. by eapply annotate_ok.
Qed.

Lemma log_raw_ok now l c c' : step_ok c → log_raw now l c = Some c' → step_ok c'.
Proof.
  intros Hc. unfold log_raw. set (c1 := if str_contains _ _ then _ else _).
  assert (step_ok c1) as Hc1 by (unfold c1; case_match; by apply (step_ok_same c)).
  destruct (match_line _ _ _) as [matched r].
  assert (step_ok (with_job (with_matchers r (job c1)) c1)) as Hc2 by by apply (step_ok_same c1).
  destruct matched as [|a matched]; [intros [= <-]; by apply write_line_ok|].
  rewrite bind_Some. intros (c3 & Ha & [= <-]). apply write_line_ok. by eapply annotate_all_ok.
Qed.

Lemma log_raw_all_ok now ls c c' : step_ok c → log_raw_all now ls c = Some c' → step_ok c'.
Proof.
  revert c. induction ls as [|l ls IH]; intros c Hc; simpl; [by intros [= <-]|].
  rewrite bind_Some. intros (c1 & Ha & Hl). eapply IH; [|done]. by eapply log_raw_ok.
Qed.

Lemma issue_ok now lvl prefix cmd c c' : step_ok c → issue now lvl prefix cmd c = Some c' → step_ok c'.
Proof.
  intros Hc. unfold issue. rewrite bind_Some. intros (c1 & Ha & Hl). eapply log_raw_ok; [|done]. by eapply annotate_ok.
Qed.

Lemma retroactive_mask_ok secrets c : step_ok c → step_ok (retroactive_mask secrets c).
Proof.
  intros (Hn & Ha). unfold retroactive_mask. destruct secrets as [|s secrets]; [done|].
  split; [|done]. cbn [log_line_count log_file with_log]. rewrite Hn.
  destruct (from_utf8_lossy_spec (Utf8.bytes (log_file c))) as [Hu Hf].
  unfold mask_secrets_preserving_lines_with, mask_secrets_preserving_lines_transform_aware_with_patterns.
  rewrite bytes_of_utf8 by by eapply masked_utf8, mask_secrets_inner_masked.
  erewrite (line_ends_newlines (mask_secrets_inner _ _ _ _ true true)) by by eapply masked_newlines, mask_secrets_inner_masked.
  assert (∀ l : bytes, line_ends l = line_ends (filter (λ x, x < 128)%N l)) as Hl; [|by rewrite Hl, <-Hf, <-Hl].
  intros l. unfold line_ends. f_equal. f_equal. induction l as [|x l IH]; [done|]. rewrite !filter_cons.
  repeat case_decide; subst; rewrite ?filter_cons; repeat case_decide; try lia; by rewrite ?IH.
Qed.

Lemma handle_command_ok log_warning now cmd c c' :
  (∀ w c c', step_ok c → log_warning w c = Some c' → step_ok c') →
  step_ok c → handle_command log_warning now cmd c = Some c' → step_ok c'.
Proof.
  intros Hw Hc. unfold handle_command.
  repeat match goal with
  | |- (if str_eqb (name cmd) ?n then _ else _) = _ → _ => destruct (str_eqb (name cmd) n)
  end; try (by intros [= <-]; apply (step_ok_same c); done).
  - destruct (add_mask _ _) as [added j]. intros [= <-]. apply retroactive_mask_ok. by apply (step_ok_same c).
  - unfold log_debug. case_match; [by apply log_raw_all_ok|by intros [= <-]].
  - by apply issue_ok.
  - by apply issue_ok.
  - by apply issue_ok.
  - by apply log_raw_ok.
  - by apply log_raw_ok.
  - intros [= <-]. repeat case_match; by apply (step_ok_same c).
  - rewrite bind_Some. intros (c1 & Hc1 & [= <-]). assert (step_ok c1) by by eapply Hw.
    case_match; [by apply (step_ok_same c1)|done].
  - rewrite bind_Some. intros (c1 & Hc1 & [= <-]). assert (step_ok c1) by by eapply Hw.
    case_match; [by apply (step_ok_same c1)|done].
Qed.

Lemma log_loop_ok fuel now l c c' : step_ok c → log_loop fuel now l c = Some c' → step_ok c'.
Proof.
  revert l c c'. induction fuel as [|fuel IH]; intros l c c' Hc; cbn [log_loop];
    (destruct (stop_commands_token c) as [token|];
      [case_match; intros [= <-]; [by apply (step_ok_same c)|by apply write_line_ok]|]);
    (destruct (parse_command l) as [cmd|]; [|by apply log_raw_ok]);
    (case_match; [intros [= <-]; by apply (step_ok_same c)|]);
    rewrite bind_Some; intros (c1 & Hc1 & Hrest);
    (assert (step_ok c1) by (eapply handle_command_ok; [|done|exact Hc1]; simpl; intros; eauto using log_raw_ok));
    repeat case_match; try (by eapply log_raw_ok); by injection Hrest as <-.
Qed.

Lemma log_ok now l c c' : step_ok c → log now l c = Some c' → step_ok c'.
Proof. apply log_loop_ok. Qed.

Lemma log_lines_ok now first ls c c' : step_ok c → log_lines now first ls c = Some c' → step_ok c'.
Proof.
  revert first c. induction ls as [|l ls IH]; intros first c Hc; simpl; [by intros [= <-]|].
  rewrite bind_Some. intros (c1 & H1 & H2). eapply IH; [|exact H2]. apply (step_ok_same c1); [done..|].
  eapply log_ok; [|exact H1]. by apply (step_ok_same c).
Qed.

Lemma step_event_ok now e c c' : step_ok c → step_event now e c = Some c' → step_ok c'.
Proof.
  intros Hc. destruct e as [l|b|]; cbn [step_event]; [by apply log_ok| |].
  - unfold write_chunk. destruct (split_records _ _) as [records rest].
    set (c0 := with_buffer _ _ _ c). assert (step_ok c0) as Hc0 by by apply (step_ok_same c).
    rewrite bind_Some. intros (c1 & H1 & H2). eapply log_lines_ok; [|exact H2].
    destruct (_ || _) in H1; [by eapply log_ok|by injection H1 as <-].
  - unfold flush_line_buffer. case_bool_decide.
    + set (c0 := with_buffer _ _ _ c). assert (step_ok c0) as Hc0 by by apply (step_ok_same c).
      case_match; [by apply log_ok|by intros [= <-]].
    + set (c0 := with_buffer _ _ _ c). assert (step_ok c0) as Hc0 by by apply (step_ok_same c).
      rewrite bind_Some. intros (c1 & H1 & H2). rewrite bind_Some in H2. destruct H2 as (c2 & H2 & [= <-]).
      assert (step_ok c1) as Hc1 by (destruct (line_buffer_truncated c) in H1; [by eapply log_ok|by injection H1 as <-]).
      apply (step_ok_same c2); [done..|]. eapply log_ok; [|exact H2]. by apply (step_ok_same c1).
Qed.

(** *** Masked records *)

Lemma replace_from_high pat to b s :
  Forall (λ x, (128 ≤ x < 256)%N) b → is_ascii pat = true → pat ≠ "" →
  replace_from 0 pat to (Utf8.of_bytes b +:+ s) = Utf8.of_bytes b +:+ replace_from 0 pat to s.
Proof.
  intros Hb Hp Hne. induction Hb as [|x b [Hx Hx'] _ IH]; [done|].
  change (Utf8.of_bytes (x :: b) +:+ ?t) with (String (ascii_of_N x) (Utf8.of_bytes b +:+ t)). cbn [replace_from].
  assert (starts_with pat (String (ascii_of_N x) (Utf8.of_bytes b +:+ s)) = false) as ->; [|by rewrite IH].
  destruct pat as [|p pat]; [done|]. unfold starts_with. simpl. rewrite decide_False; [done|]. intros ->.
  apply is_ascii_bytes in Hp. unfold Utf8.bytes in Hp. csimpl in Hp. apply Forall_cons in Hp as [Hp _].
  rewrite N_ascii_embedding in Hp by done. lia.
Qed.

(** Replacing an ASCII text by another keeps a string valid. *)
Lemma replace_utf8 pat to b :
  is_ascii pat = true → pat ≠ "" → is_ascii to = true → utf8 b →
  utf8 (Utf8.bytes (replace pat to (Utf8.of_bytes b))).
Proof.
  intros Hp Hne Hto. unfold replace.
  remember (length b) as n eqn:Hn. revert b Hn. induction (Nat.lt_wf_0 n) as [n _ IH]. intros b -> Hb.
  destruct Hb as [|c b Hc Hb]; [constructor|].
  assert (length b < length (Utf8.encode_char c ++ b)) as Hlt.
  { rewrite length_app. pose proof (encode_char_ne c). destruct (Utf8.encode_char c); [done|simpl; lia]. }
  destruct (starts_with pat (Utf8.of_bytes (Utf8.encode_char c ++ b))) eqn:Hstart.
  - pose proof Hstart as [r Hr]%starts_with_true. rewrite Hr. destruct pat as [|p pat]; [done|].
    change (String p pat +:+ r) with (String p (pat +:+ r)) in Hr |- *. cbn [replace_from].
    rewrite <-Hr, Hstart. cbn [String.length pred]. rewrite <-(Nat.add_0_r (String.length pat)), replace_from_skip, bytes_app.
    apply utf8_app; [by apply utf8_ascii, is_ascii_bytes|].
    assert (Utf8.encode_char c ++ b = Utf8.bytes (String p pat) ++ Utf8.bytes r) as Hsplit.
    { rewrite <-bytes_app. change (String p pat +:+ r) with (String p (pat +:+ r)). rewrite <-Hr.
      symmetry. by apply bytes_of_utf8; constructor. }
    rewrite <-(of_bytes_bytes r). apply (IH (length (Utf8.bytes r))); [|done|].
    { rewrite Hsplit, length_app. unfold Utf8.bytes at 2. csimpl. lia. }
    apply (utf8_app_inv (Utf8.bytes (String p pat))); [by apply utf8_ascii, is_ascii_bytes|]. rewrite <-Hsplit. by constructor.
  - rewrite of_bytes_app. destruct (decide (c < 128)%N) as [Hsmall|Hbig].
    + assert (Utf8.encode_char c = [c]) as E by (unfold Utf8.encode_char; by rewrite (proj2 (N.ltb_lt _ _) Hsmall)).
      rewrite of_bytes_app, E in Hstart. rewrite E.
      change (Utf8.of_bytes [c] +:+ ?t) with (String (ascii_of_N c) t) in Hstart |- *. cbn [replace_from]. rewrite Hstart.
      change (String ?x ?t) with (lit x +:+ t). rewrite bytes_app. apply utf8_app; [|by eapply IH].
      apply utf8_ascii. unfold lit, Utf8.bytes. csimpl. constructor; [|constructor]. rewrite N_ascii_embedding; lia.
    + rewrite replace_from_high; [|..|done|done].
      * rewrite bytes_app, bytes_of_utf8; [|rewrite <-(app_nil_r (Utf8.encode_char c)); by repeat constructor].
        apply utf8_app; [rewrite <-(app_nil_r (Utf8.encode_char c)); by repeat constructor|]. by eapply IH.
      * apply Forall_and; split; [|by apply encode_char_bytes, is_scalar_lt]. unfold Utf8.encode_char.
        rewrite (proj2 (N.ltb_ge _ _)) by lia.
        repeat case_match; repeat apply Forall_cons_2; try apply Forall_nil_2;
          (eapply N.le_trans; [|apply N.le_add_r]); done.
Qed.

Lemma strip_markers_utf8 l : utf8 (Utf8.bytes l) → utf8 (Utf8.bytes (strip_markers l)).
Proof.
  intros Hu. unfold strip_markers. case_match; [|done].
  rewrite <-(of_bytes_bytes (replace "##[start-action" _ l)), <-(of_bytes_bytes l).
  apply replace_utf8; [done..|]. by apply replace_utf8.
Qed.

(** What the job looks for in its log. *)
Definition job_secret (j : JobContext) (v : bytes) : Prop :=
  looked_for (Utf8.bytes <$> elements (masks j)) (mask_exclude j) true v.

Definition shows (text : string) (v : bytes) : Prop :=
  ∃ x v' y, Utf8.bytes text = x ++ v' ++ y ∧ same true v' v.

Lemma mask_secrets_job_hides j input v :
  utf8 (Utf8.bytes input) → job_secret j v → maskable v → ¬ shows (mask_secrets_job j input) v.
Proof.
  intros Hu Hv (H1 & H2 & H3) (x & v' & y & He & Hsame). unfold mask_secrets_job in He.
  pose proof (mask_secrets_inner_masked (Utf8.bytes input) (Utf8.bytes <$> elements (masks j)) (pattern_masks j)
    (mask_exclude j) false true Hu) as Hm.
  unfold mask_secrets_transform_aware_with_patterns in He. rewrite bytes_of_utf8 in He by by eapply masked_utf8.
  refine (masked_no_secret _ _ _ _ _ _ true v x v' y Hm Hu H1 H2 H3 _ Hsame He). intros r Hr. by exists v.
Qed.

Lemma annotate_all_frame l c c' :
  annotate_all l c = Some c' → log_file c' = log_file c ∧ log_line_count c' = log_line_count c.
Proof.
  revert c. induction l as [|a l IH]; intros c; simpl; [by intros [= <-]|].
  rewrite bind_Some. intros (c1 & Ha & [-> ->]%IH). revert Ha. unfold annotate. case_match; [|by intros [= <-]].
  rewrite bind_Some. by intros (m & _ & [= <-]).
Qed.

(** *** The log does not read the line buffer *)

(** Any values of the fields of the line buffer. *)
Definition with_output (b : bytes) (t p d : bool) (c : StepContext) : StepContext :=
  mkStep (job c) (step_id c) (env c) (annotations c) (debug c) (echo c) (log_file c) (log_line_count c)
    (stdout_prefix_override c) (stop_commands_token c) (translate_container_path c) (telemetry_errors c) b t d p.

Section buffer.
Context (b : bytes) (t p d : bool).
Abbreviation wb := (with_output b t p d).

Lemma annotate_buffer a c : annotate a (wb c) = wb <$> annotate a c.
Proof. unfold annotate. cbn [annotations with_output]. case_match; [|done]. by destruct (truncate_message _). Qed.

Lemma annotate_all_buffer l c : annotate_all l (wb c) = wb <$> annotate_all l c.
Proof.
  revert c. induction l as [|a l IH]; intros c; simpl; [done|]. rewrite annotate_buffer.
  destruct (annotate a c); simpl; [apply IH|done].
Qed.

Lemma write_line_buffer fmt c : write_line fmt (wb c) = wb (write_line fmt c).
Proof. unfold write_line. cbn [log_file with_output]. by destruct (takes_record _ _). Qed.

Lemma log_raw_buffer now l c : log_raw now l (wb c) = wb <$> log_raw now l c.
Proof.
  unfold log_raw. cbv zeta. destruct (str_contains "fatal: unsafe repository" _);
    cbn [job with_output with_telemetry translate_container_path telemetry_errors];
    destruct (match_line _ _ _) as [[|a matched] r].
  1,3: cbn [fmap option_fmap option_map]; by rewrite <-write_line_buffer.
  all: match goal with |- annotate_all ?m (with_job ?j ?c') ≫= _ = _ <$> (annotate_all _ ?c2 ≫= _) =>
    change (with_job j c') with (wb c2) end; rewrite annotate_all_buffer; destruct (annotate_all _ _); [|done];
    simpl; by rewrite write_line_buffer.
Qed.

Lemma log_raw_all_buffer now ls c : log_raw_all now ls (wb c) = wb <$> log_raw_all now ls c.
Proof.
  revert c. induction ls as [|l ls IH]; intros c; simpl; [done|]. rewrite log_raw_buffer.
  destruct (log_raw now l c); simpl; [apply IH|done].
Qed.

Lemma issue_buffer now lvl prefix cmd c : issue now lvl prefix cmd (wb c) = wb <$> issue now lvl prefix cmd c.
Proof.
  unfold issue. cbn [job with_output]. rewrite annotate_buffer. destruct (annotate _ c); simpl; [|done].
  apply log_raw_buffer.
Qed.

Lemma handle_command_buffer log_warning now cmd c :
  (∀ w c, log_warning w (wb c) = wb <$> log_warning w c) →
  handle_command log_warning now cmd (wb c) = wb <$> handle_command log_warning now cmd c.
Proof.
  intros Hw. unfold handle_command. cbn [job with_output].
  repeat match goal with
  | |- (if str_eqb (name cmd) ?n then _ else _) = _ => destruct (str_eqb (name cmd) n)
  end; try done.
  - destruct (add_mask _ _) as [added j]. unfold retroactive_mask. by destruct added.
  - unfold log_debug. cbn [debug with_output]. case_match; [apply log_raw_all_buffer|done].
  - apply issue_buffer.
  - apply issue_buffer.
  - apply issue_buffer.
  - apply log_raw_buffer.
  - apply log_raw_buffer.
  - by repeat case_match.
  - rewrite Hw. destruct (log_warning _ c); simpl; [|done]. by case_match.
  - rewrite Hw. destruct (log_warning _ c); simpl; [|done]. by case_match.
Qed.

Lemma log_buffer now l c : log now l (wb c) = wb <$> log now l c.
Proof.
  unfold log. generalize 1. intros fuel. revert l c. induction fuel as [|fuel IH]; intros l c; cbn [log_loop];
    cbn [stop_commands_token with_output]; (destruct (stop_commands_token c) as [token|];
      [case_match; [done|]; simpl; by rewrite <-write_line_buffer|]);
    (destruct (parse_command l) as [cmd|]; [|by rewrite log_raw_buffer]); (case_match; [done|]);
    rewrite handle_command_buffer by (intros; first [apply IH|apply log_raw_buffer]);
    (destruct (handle_command _ now cmd c) as [c1|]; simpl; [|done]);
    repeat case_match; first [done|apply log_raw_buffer].
Qed.

End buffer.

Lemma log_frame now l c c' :
  log now l c = Some c' →
  line_buffer c' = line_buffer c ∧ line_buffer_truncated c' = line_buffer_truncated c
  ∧ partial_is_continuation c' = partial_is_continuation c ∧ disable_prefixing c' = disable_prefixing c.
Proof.
  intros Hl. pose proof (log_buffer (line_buffer c) (line_buffer_truncated c) (partial_is_continuation c)
    (disable_prefixing c) now l c) as Hb.
  replace (with_output _ _ _ _ c) with c in Hb by (by destruct c). rewrite Hl in Hb. simpl in Hb. by injection Hb as ->.
Qed.

Lemma log_lines_frame now first ls c c' :
  log_lines now first ls c = Some c' →
  line_buffer c' = line_buffer c ∧ line_buffer_truncated c' = line_buffer_truncated c
  ∧ partial_is_continuation c' = partial_is_continuation c ∧ disable_prefixing c' = disable_prefixing c.
Proof.
  revert first c. induction ls as [|l ls IH]; intros first c; simpl; [by intros [= <-]|].
  rewrite bind_Some. intros (c1 & (H1 & H2 & H3 & H4)%log_frame & (H5 & H6 & H7 & H8)%IH).
  cbn in *. split_and!; congruence.
Qed.

Lemma log_lines_buffer b t p now first ls c :
  log_lines now first ls (with_buffer b t p c) = with_buffer b t p <$> log_lines now first ls c.
Proof.
  revert first c. induction ls as [|l ls IH]; intros first c; simpl; [done|].
  change (with_override ?o (with_buffer b t p c)) with (with_output b t p (disable_prefixing c) (with_override o c)).
  rewrite log_buffer. destruct (log now l _) as [c1|] eqn:Hl; simpl; [|done].
  apply log_frame in Hl as (_ & _ & _ & Hd). cbn in Hd.
  replace (with_override None (with_output b t p (disable_prefixing c) c1)) with (with_buffer b t p (with_override None c1)).
  - apply IH.
  - rewrite <-Hd. by destruct c1.
Qed.

Lemma split_records_app op x y :
  split_records op (x ++ y) =
  ((split_records op x).1 ++ (split_records (split_records op x).2 y).1, (split_records (split_records op x).2 y).2).
Proof.
  revert op. induction x as [|c x IH]; intros op; simpl; [by destruct (split_records op y)|].
  case_match; [|apply IH]. rewrite IH. by destruct (split_records [] x).
Qed.

Lemma split_records_open op x y : Forall (λ c, c ≠ 10%N) x → split_records op (x ++ y) = split_records (op ++ x) y.
Proof.
  intros Hx. revert op. induction Hx as [|c x Hc _ IH]; intros op; simpl; [by rewrite app_nil_r|].
  rewrite (proj2 (N.eqb_neq _ _)) by done. rewrite IH. by rewrite <-app_assoc.
Qed.

Lemma split_records_rest op x :
  Forall (λ c, c ≠ 10%N) op → Forall (λ c, c ≠ 10%N) (split_records op x).2
  ∧ length (split_records op x).2 ≤ length op + length x.
Proof.
  revert op. induction x as [|c x IH]; intros op Ho; simpl; [split; [done|lia]|].
  destruct (N.eqb_spec c 10).
  - destruct (IH []) as [H1 H2]; [constructor|]. destruct (split_records [] x). simpl in *. split; [done|lia].
  - destruct (IH (op ++ [c])) as [H1 H2]; [apply Forall_app; split; [done|by repeat constructor]|].
    rewrite length_app in H2. simpl in H2. split; [done|lia].
Qed.

Lemma log_lines_first now f g ls c :
  disable_prefixing c = false → log_lines now f ls c = log_lines now g ls c.
Proof. intros Hd. destruct ls; [done|]. cbn [log_lines]. by rewrite Hd, !orb_true_r. Qed.

Lemma log_lines_app now f l1 l2 c c' :
  disable_prefixing c = false → log_lines now f l1 c = Some c' →
  log_lines now f (l1 ++ l2) c = log_lines now true l2 c'.
Proof.
  revert f c. induction l1 as [|l l1 IH]; intros f c Hd; simpl.
  - intros [= <-]. by apply log_lines_first.
  - destruct (log now l _) as [c1|] eqn:Hl; simpl; [|done]. intros H. apply IH; [|done].
    apply log_frame in Hl as (_ & _ & _ & Hd1). cbn in *. congruence.
Qed.

(** A chunk that fits, with prefixing on: its records are logged in order. *)
Lemma write_chunk_plain now chunk c records rest :
  disable_prefixing c = false → partial_is_continuation c = false → line_buffer_truncated c = false →
  split_records [] (line_buffer c ++ chunk) = (records, rest) →
  (N.of_nat (length rest) <= MAX_LINE_BUFFER_BYTES)%N →
  write_chunk now chunk c =
  log_lines now true (masked_record (job c) <$> records) (with_buffer rest false false c).
Proof.
  intros Hd Hp Ht Hs Hl. unfold write_chunk. rewrite Hs, (proj2 (N.ltb_ge _ _) Hl), Ht. cbn [orb mbind option_bind].
  do 2 f_equal. rewrite Hd, Hp. destruct (masked_record (job c) <$> records); [by case_match|done].
Qed.

(** ** Properties *)

(** C37: the log of a step stays well formed.  Whatever its output, if its
    events are processed without a panic, the line counter counts the line ends
    of the durable log, also after writes that failed and after a retroactive
    mask has rewritten it, so that checkpoints stay valid; and at most ten
    annotations are kept, the message of each at most 4096 bytes. *)
Theorem step_log_well_formed events j step_id debug translate disable c :
  run_step events (new_step j step_id debug translate disable) = Some c → step_ok c.
Proof.
  assert (step_ok (new_step j step_id debug translate disable)) as Hnew
    by (split_and!; [done|cbn; lia|constructor]).
  revert Hnew. generalize (new_step j step_id debug translate disable).
  induction events as [|[now e] events IH]; intros c0 Hc0; simpl; [by intros [= <-]|].
  rewrite bind_Some. intros (c1 & H1 & H2). eapply IH; [|exact H2]. by eapply step_event_ok.
Qed.

(** While commands are stopped, output is only logged: any number of
    lines other than the resume line change nothing but the log, whatever
    commands they spell, and no line panics. *)
Theorem stopped_commands_inert lines c token :
  stop_commands_token c = Some token →
  (∀ now l, (now, l) ∈ lines → trim l ≠ "::" +:+ token +:+ "::") →
  ∃ f n, run_step ((λ nl, (nl.1, Line nl.2)) <$> lines) c = Some (with_log f n c).
Proof.
  intros Htok.
  cut (∀ f0 n0, (∀ now l, (now, l) ∈ lines → trim l ≠ "::" +:+ token +:+ "::") →
    ∃ f n, run_step ((λ nl, (nl.1, Line nl.2)) <$> lines) (with_log f0 n0 c) = Some (with_log f n c)).
  { intros Hgen Hl. pose proof (Hgen (log_file c) (log_line_count c) Hl) as Hr. clear -Hr. destruct c. exact Hr. }
  induction lines as [|[now l] lines IH]; intros f0 n0 Hl; [by exists f0, n0|].
  cbn [fmap list_fmap run_step fst snd step_event]. unfold log. cbn [log_loop].
  cbn [stop_commands_token with_log]. rewrite Htok.
  unfold str_eqb. rewrite bool_decide_false by (apply (Hl now); constructor). cbn [mbind option_bind].
  unfold write_line. set (fmt := if bool_decide _ then _ else _).
  assert (∀ now' l', (now', l') ∈ lines → trim l' ≠ "::" +:+ token +:+ "::") as Hl'
    by (intros now' l' Hin; apply (Hl now'); by constructor).
  destruct (takes_record _ _); [|by apply IH].
  change (with_log ?f ?n (with_log f0 n0 c)) with (with_log f n c). by apply IH.
Qed.

(** The log grew by one record, unless its write failed: a prefix of the
    runner's and a payload that shows no maskable secret of the job. *)
Definition hides_record (now : string) (c c' : StepContext) : Prop :=
  log_file c' = log_file c ∨
  ∃ prefix payload,
    log_file c' = log_file c +:+ prefix +:+ payload +:+ LF
    ∧ prefix ∈ [""; now +:+ " "; now +:+ " ##[error]"; now +:+ " ##[warning]"; now +:+ " ##[notice]"]
    ∧ ∀ v, job_secret (job c) v → maskable v → ¬ shows payload v.

Lemma write_line_record now prefix payload c c0 :
  log_file c0 = log_file c →
  prefix ∈ [""; now +:+ " "; now +:+ " ##[error]"; now +:+ " ##[warning]"; now +:+ " ##[notice]"] →
  (∀ v, job_secret (job c) v → maskable v → ¬ shows payload v) →
  hides_record now c (write_line (prefix +:+ payload) c0).
Proof.
  intros Hf Hp Hv. unfold write_line. destruct (takes_record _ _); [right|by left].
  exists prefix, payload. split_and!; [|done|done]. cbn [log_file with_log]. by rewrite Hf, <-!app_assoc_string.
Qed.

Lemma stamped_record now payload (stamped : bool) c c0 :
  log_file c0 = log_file c → (∀ v, job_secret (job c) v → maskable v → ¬ shows payload v) →
  hides_record now c (write_line (if stamped then payload else now +:+ " " +:+ payload) c0).
Proof.
  intros Hf Hv. replace (if stamped then payload else _) with ((if stamped then "" else now +:+ " ") +:+ payload)
    by (destruct stamped; [done|by rewrite <-app_assoc_string]).
  apply write_line_record; [done| |done]. destruct stamped; set_solver.
Qed.

Lemma severity_prefix_elem l p :
  p ∈ ["##[error]"; "##[warning]"; "##[notice]"] → severity_prefix p l ∈ ["##[error]"; "##[warning]"; "##[notice]"].
Proof.
  revert p. induction l as [|a l IH]; intros p Hp; simpl; [done|]. destruct (level a); [|apply IH; set_solver|set_solver].
  apply IH. case_match; set_solver.
Qed.

Lemma stamped_severity now p :
  p ∈ ["##[error]"; "##[warning]"; "##[notice]"] →
  now +:+ " " +:+ p ∈ [""; now +:+ " "; now +:+ " ##[error]"; now +:+ " ##[warning]"; now +:+ " ##[notice]"].
Proof. rewrite !elem_of_cons. intros [->|[->|[->|[]%elem_of_nil]]]; auto 10. Qed.

(** C36: the records of the durable log are masked.  Take a line of valid
    UTF-8.  What [log_raw] makes of it, for output lines, echoed commands and
    the notices that commands log, is at most one record: a prefix of the
    runner's and a payload that shows none of the job's secrets that can be
    masked (valid UTF-8, without [*], not only line ends).  While commands are
    stopped, the line that resumes them writes nothing, and any other line is
    at most such a record and has no other effect. *)
Theorem record_is_masked now l c :
  utf8 (Utf8.bytes l) →
  (∀ c', log_raw now l c = Some c' → hides_record now c c') ∧
  (∀ c' token, stop_commands_token c = Some token → log now l c = Some c' →
     if decide (trim l = "::" +:+ token +:+ "::") then c' = with_token None c
     else hides_record now c c' ∧ ∃ f n, c' = with_log f n c).
Proof.
  intros Hu. split.
  - intros c' Hlog. unfold log_raw in Hlog. cbv zeta in Hlog.
    set (c1 := if str_contains "fatal: unsafe repository" (strip_markers l) then _ else c) in Hlog.
    assert (job c1 = job c ∧ log_file c1 = log_file c) as [Hj Hf] by (unfold c1; destruct (str_contains _ _); split; reflexivity).
    destruct (match_line _ _ _) as [matched r].
    assert (∀ v, job_secret (job c) v → maskable v → ¬ shows (mask_secrets_job (job c1) (strip_markers l)) v) as Hhide.
    { intros v. rewrite Hj. apply mask_secrets_job_hides. by apply strip_markers_utf8. }
    destruct matched as [|a matched]; [injection Hlog as <-; by apply stamped_record|].
    apply bind_Some in Hlog as (c3 & Ha & [= <-]). apply annotate_all_frame in Ha as [Ha _].
    rewrite !app_assoc_string. apply write_line_record; [by rewrite Ha| |done].
    rewrite <-app_assoc_string. apply stamped_severity, (severity_prefix_elem (a :: matched) "##[error]"). set_solver.
  - intros c' token Htok. unfold log. cbn [log_loop]. rewrite Htok. unfold str_eqb.
    destruct (decide (trim l = "::" +:+ token +:+ "::")) as [He|He];
      [rewrite bool_decide_true by done|rewrite bool_decide_false by done]; intros [= <-]; [done|].
    split; [apply stamped_record; [done|intros v; by apply mask_secrets_job_hides]|].
    unfold write_line. destruct (takes_record _ _); [by eexists _, _|]. exists (log_file c), (log_line_count c). by destruct c.
Qed.

(** Registering a mask redacts what was printed before: after
    [::add-mask::] no part of the durable log shows the new secret. *)
Theorem add_mask_is_retroactive log_warning now cmd c c' v :
  name cmd = "add-mask" → handle_command log_warning now cmd c = Some c' →
  looked_for (Utf8.bytes <$> (add_mask (data cmd) (job c)).1) (mask_exclude (job c)) true v → maskable v →
  ¬ shows (log_file c') v.
Proof.
  intros Hname Hcmd Hv (H1 & H2 & H3) (x & v' & y & He & Hsame). unfold handle_command in Hcmd. rewrite Hname in Hcmd.
  unfold str_eqb in Hcmd. rewrite bool_decide_true in Hcmd by done. unfold add_mask in Hcmd, Hv.
  case_bool_decide; [by destruct Hv as (s & ?%not_elem_of_nil & _)|]. injection Hcmd as <-.
  set (added := data cmd :: _) in *. unfold retroactive_mask in He. unfold added in He. fold added in He.
  cbn [log_file with_log with_job] in He. unfold mask_secrets_preserving_lines_with in He.
  destruct (from_utf8_lossy_spec (Utf8.bytes (log_file c))) as [Hu _].
  pose proof (mask_secrets_inner_masked _ (Utf8.bytes <$> added) (pattern_masks (job c)) (mask_exclude (job c)) true true Hu) as Hm.
  cbn [job with_job pattern_masks] in He. unfold mask_secrets_preserving_lines_transform_aware_with_patterns in He.
  change (mask_exclude _) with (mask_exclude (job c)) in He.
  rewrite bytes_of_utf8 in He by by eapply masked_utf8.
  refine (masked_no_secret _ _ _ _ _ _ true v x v' y Hm Hu H1 H2 H3 _ Hsame He). intros r Hr. by exists v.
Qed.

(** The log does not depend on how the output of a process is cut into
    chunks, as long as the first part registers no mask: two chunks and their
    concatenation have the same effect. *)
Theorem chunking_is_invisible now a b c c1 :
  disable_prefixing c = false → partial_is_continuation c = false → line_buffer_truncated c = false →
  (N.of_nat (length (line_buffer c ++ a ++ b)) <= MAX_LINE_BUFFER_BYTES)%N →
  Forall (λ x, x ≠ 10%N) (line_buffer c) →
  write_chunk now a c = Some c1 →
  masks (job c1) = masks (job c) → pattern_masks (job c1) = pattern_masks (job c) →
  dap_debugger (job c1) = dap_debugger (job c) →
  write_chunk now (a ++ b) c = write_chunk now b c1.
Proof.
  intros Hd Hp Ht Hmax Hbuf Ha Hm Hpm Hdap.
  pose proof (split_records_app [] (line_buffer c ++ a) b) as Happ. rewrite <-app_assoc in Happ.
  pose proof (split_records_rest [] (line_buffer c ++ a) (Forall_nil_2 _)) as [Hn1 Hl1].
  destruct (split_records [] (line_buffer c ++ a)) as [r1 o1] eqn:E1. cbn [fst snd] in *.
  pose proof (split_records_rest o1 b Hn1) as [Hn2 Hl2].
  pose proof (split_records_open [] o1 b Hn1) as Hopen. cbn [app] in Hopen.
  destruct (split_records o1 b) as [r2 o2] eqn:E2. cbn [fst snd] in *.
  rewrite !length_app in Hmax. rewrite length_app in Hl1. cbn [length] in Hl1.
  rewrite (write_chunk_plain now a c r1 o1) in Ha by (done || lia).
  pose proof Ha as (Hb1 & Ht1 & Hp1 & Hd1)%log_lines_frame.
  cbn [line_buffer line_buffer_truncated partial_is_continuation disable_prefixing with_buffer] in Hb1, Ht1, Hp1, Hd1.
  rewrite (write_chunk_plain now (a ++ b) c (r1 ++ r2) o2) by (done || lia).
  rewrite (write_chunk_plain now b c1 r2 o2) by (try congruence; lia).
  rewrite log_lines_buffer in Ha. apply fmap_Some in Ha as (c1' & Ha & ->).
  rewrite log_lines_buffer, fmap_app, (log_lines_app _ _ _ _ c c1') by done.
  change (with_buffer o2 false false (with_buffer o1 false false c1')) with (with_buffer o2 false false c1').
  rewrite log_lines_buffer. do 2 f_equal. apply list_fmap_ext. intros _ r _.
  unfold masked_record, mask_secrets_job, mask_exclude. cbn in Hm, Hpm, Hdap |- *. by rewrite Hm, Hpm, Hdap.
Qed.

End invariant.

(** ** Concrete steps *)
Section examples.

#[local] Instance writable : LogFile := λ _ _, true.
#[local] Instance no_matchers : Matchers :=
  {| registry := unit; add_from_file _ r := r; remove_matcher _ r := r; match_line _ _ r := ([], r) |}.

Definition example_job : JobContext := mkJob {[ "hunter2" ]} [] false [] ∅ tt.
Definition example_step : StepContext := new_step example_job "s1" false false false.

Lemma step_log_well_formed_witness :
  ∃ c, run_step [("T1", Line "a b"); ("T2", Line "::add-mask::b"); ("T3", Chunk (str "x" ++ [10%N] ++ str "y")); ("T4", Flush)]
    example_step = Some c ∧ step_ok c.
Proof.
  destruct (run_step [("T1", Line "a b"); ("T2", Line "::add-mask::b"); ("T3", Chunk (str "x" ++ [10%N] ++ str "y")); ("T4", Flush)]
    example_step) as [c|] eqn:E; [|by vm_compute in E].
  exists c. split; [done|]. by eapply (step_log_well_formed _ example_job "s1" false false false).
Defined.

Lemma stopped_commands_inert_witness :
  ∃ f n, run_step ((λ nl, (nl.1, Line nl.2)) <$> [("T1", "::error::x"); ("T2", "::add-path::/bin")])
    (with_token (Some "tok") example_step) = Some (with_log f n (with_token (Some "tok") example_step)).
Proof.
  apply (stopped_commands_inert _ _ "tok"); [done|].
  intros now l Hin. rewrite !elem_of_cons in Hin.
  destruct Hin as [[= -> ->]|[[= -> ->]|[]%elem_of_nil]]; by vm_compute.
Defined.

Lemma record_is_masked_witness :
  ∃ c', log_raw "T1" "pw=hunter2" example_step = Some c' ∧ log_file c' = "T1 pw=***" +:+ LF ∧
    hides_record "T1" example_step c'.
Proof.
  destruct (log_raw "T1" "pw=hunter2" example_step) as [c'|] eqn:E; [|by vm_compute in E].
  exists c'. split; [done|]. split; [by vm_compute in E; injection E as <-|].
  apply (record_is_masked "T1" "pw=hunter2" example_step); [by apply utf8_decide|exact E].
Defined.

Lemma add_mask_is_retroactive_witness :
  let c := write_line "T1 pw=tok123" example_step in
  let cmd := mkCommand "add-mask" ∅ "tok123" in
  ∃ c', handle_command (λ _ c, Some c) "T2" cmd c = Some c' ∧ ¬ shows (log_file c') (str "TOK123").
Proof.
  intros c cmd. destruct (handle_command (λ _ c, Some c) "T2" cmd c) as [c'|] eqn:E; [|by vm_compute in E].
  exists c'. split; [done|].
  assert (¬ shows (log_file c') (str "tok123")) as Hno.
  { apply (add_mask_is_retroactive (λ _ c, Some c) "T2" cmd c c' (str "tok123") eq_refl E); [|by apply maskable_decide].
    exists (str "tok123"). split_and!; [vm_compute; left|done|by intros ?%not_elem_of_nil|by left]. }
  intros (x & v & y & He & Hs). apply Hno. exists x, v, y. split; [done|]. exact Hs.
Defined.

Lemma chunking_is_invisible_witness :
  ∃ c1, write_chunk "T" (str "one" ++ [10%N] ++ str "tw") example_step = Some c1
    ∧ write_chunk "T" ((str "one" ++ [10%N] ++ str "tw") ++ (str "o" ++ [10%N])) example_step
      = write_chunk "T" (str "o" ++ [10%N]) c1.
Proof.
  destruct (write_chunk "T" (str "one" ++ [10%N] ++ str "tw") example_step) as [c1|] eqn:E; [|by vm_compute in E].
  exists c1. split; [done|].
  apply (chunking_is_invisible "T" _ _ example_step c1);
    [reflexivity|reflexivity|reflexivity|apply N.leb_le; by vm_compute|constructor|exact E|..];
    vm_compute in E; by injection E as <-.
Defined.

(** A mask registered by one line of a chunk does not apply to the commands of
    the later lines of the same chunk, but it does when they come in a later one. *)
Lemma chunk_boundary_changes_commands :
  let first := str "::add-mask::abc" ++ [10%N] in
  let second := str "::add-path::/abc/bin" ++ [10%N] in
  (extra_path ∘ job <$> write_chunk "T" (first ++ second) example_step) = Some ["/abc/bin"]
  ∧ (extra_path ∘ job <$> (c ← write_chunk "T" first example_step; write_chunk "T" second c)) = Some ["/***/bin"].
Proof. split; vm_compute; reflexivity. Qed.

(** An annotation whose 4096th byte is inside a character: [truncate] panics. *)
Lemma annotate_panics_inside_character :
  let m := Utf8.of_bytes (replicate 4095 97%N ++ [195; 169]%N) in
  log "T" ("::error::" +:+ m) (new_step (mkJob ∅ [] false [] ∅ tt) "s1" false false false) = None.
Proof. vm_compute. reflexivity. Qed.

(** The prefix of a line that only a notice matched is that of an error. *)
Lemma notice_logged_as_error m t f l el c ec :
  severity_prefix "##[error]" [mkAnnotation Notice m t f l el c ec] = "##[error]".
Proof. reflexivity. Qed.

End examples.
