(* ===== verification/DapFraming.v ===== *)
(** * Framing of debug adapter messages

    [crates/preloop-dap/src/framing.rs]: messages of the debug adapter protocol
    are JSON bodies behind a [Content-Length] header.  A stream is the list of
    its bytes; [read_message] and [write_message] work on it directly, and
    [FramedReader] keeps the bytes it was given until a message is complete.

    The body is read and written by [serde_json] through the message's type,
    whose codec is the parameters [encode] and [decode]. *)
From S2P Require Export ExprText.

Definition MAX_MESSAGE_SIZE : N := 10 * 1024 * 1024.
Definition MAX_HEADER_LINE_LENGTH : N := 8 * 1024.

Inductive FrameError : Type :=
| Io (message : string)
| HeaderTooLong
| BodyTooLarge (actual : N)
| MalformedHeaders (message : string)
| MissingContentLength
| InvalidContentLength (value : string)
| JsonError (message : string).

Definition CRLF_CRLF : bytes := [13; 10; 13; 10]%N.
Definition CRLF : string := String "013" (String "010" "").

Definition header_limit : N := MAX_HEADER_LINE_LENGTH * 4.

(** The header loop of [read_message]: the bytes read so far and those left. *)
Fixpoint read_header (header_buf input : bytes) : result FrameError (bytes * bytes) :=
  match input with
  | [] => Err (MalformedHeaders "stream closed before headers terminated")
  | byte :: input =>
      let header_buf := header_buf ++ [byte] in
      if (header_limit <? N.of_nat (length header_buf))%N then Err HeaderTooLong
      else if slice_ends_with CRLF_CRLF header_buf then Ok (header_buf, input)
      else read_header header_buf input
  end.

Definition header_text (header : bytes) : result FrameError string :=
  map_err (λ e, MalformedHeaders ("non-utf8 header: " +:+ utf8_error_string e)) (from_utf8 header).

(** The value of a [Content-Length] line, in the two spellings accepted. *)
Definition content_length_line (line : string) : option string :=
  match strip_prefix "Content-Length:" line with
  | Some rest => Some rest
  | None => strip_prefix "content-length:" line
  end.

Fixpoint parse_content_length_lines (lines : list string) : result FrameError N :=
  match lines with
  | [] => Err MissingContentLength
  | line :: lines =>
      match content_length_line line with
      | Some rest => let value := trim rest in ok_or (InvalidContentLength value) (parse_usize value)
      | None => parse_content_length_lines lines
      end
  end.

Definition parse_content_length (headers : string) : result FrameError N :=
  parse_content_length_lines (split CRLF headers).

Definition message_header (n : N) : string := "Content-Length: " +:+ pretty n.

Section framing.
Context {T : Type}.
Variables (encode : T → result string bytes) (decode : bytes → result string T).

(** [read_exact]. *)
Definition read_exact (n : N) (input : bytes) : result FrameError (bytes * bytes) :=
  if (N.of_nat (length input) <? n)%N then Err (Io "failed to fill whole buffer")
  else Ok (take (N.to_nat n) input, drop (N.to_nat n) input).

Definition read_message (input : bytes) : result FrameError (T * bytes) :=
  '(header_buf, input) ← read_header [] input;
  text ← header_text header_buf;
  content_length ← parse_content_length text;
  if (MAX_MESSAGE_SIZE <? content_length)%N then Err (BodyTooLarge content_length)
  else
    '(body, input) ← read_exact content_length input;
    v ← map_err JsonError (decode body);
    Ok (v, input).

(** The bytes [write_message] sends. *)
Definition write_message (v : T) : result FrameError bytes :=
  body ← map_err JsonError (encode v);
  let n := N.of_nat (length body) in
  if (MAX_MESSAGE_SIZE <? n)%N then Err (BodyTooLarge n)
  else Ok (Utf8.bytes (message_header n) ++ CRLF_CRLF ++ body).

(** ** [FramedReader] *)

Fixpoint find_crlf_crlf (buf : bytes) : option nat :=
  match buf with
  | [] => None
  | _ :: r => if slice_starts_with CRLF_CRLF buf then Some 0 else S <$> find_crlf_crlf r
  end.

Definition extend (buf more : bytes) : bytes := buf ++ more.

(** The result and the buffer afterwards; a body that does not parse has been
    consumed. *)
Definition try_read (buf : bytes) : result FrameError (option T) * bytes :=
  match find_crlf_crlf buf with
  | None =>
      if (header_limit <? N.of_nat (length buf))%N then (Err HeaderTooLong, buf) else (Ok None, buf)
  | Some terminator =>
      match (text ← header_text (take terminator buf); parse_content_length text) with
      | Err e => (Err e, buf)
      | Ok content_length =>
          if (MAX_MESSAGE_SIZE <? content_length)%N then (Err (BodyTooLarge content_length), buf)
          else
            let body_start := terminator + 4 in
            let body_end := body_start + N.to_nat content_length in
            if length buf <? body_end then (Ok None, buf)
            else
              let body := drop body_start (take body_end buf) in
              (v ← map_err JsonError (decode body); Ok (Some v), drop body_end buf)
      end
  end.

Definition push_all (vs : list T) (more : result FrameError (list T)) : result FrameError (list T) :=
  match more with Ok l => Ok (vs ++ l) | Err e => Err e end.

(** Messages read until none is complete; each reading takes bytes off. *)
Fixpoint drain (fuel : nat) (buf : bytes) : option (result FrameError (list T) * bytes) :=
  match fuel with
  | 0 => None
  | S fuel =>
      match try_read buf with
      | (Err e, buf) => Some (Err e, buf)
      | (Ok None, buf) => Some (Ok [], buf)
      | (Ok (Some v), buf) => '(vs, buf) ← drain fuel buf; Some (push_all [v] vs, buf)
      end
  end.

(** A reader given the chunks one after the other, drained after each. *)
Fixpoint feed (buf : bytes) (chunks : list bytes) : option (result FrameError (list T) * bytes) :=
  match chunks with
  | [] => Some (Ok [], buf)
  | chunk :: chunks =>
      let buf := extend buf chunk in
      '(vs, buf) ← drain (S (length buf)) buf;
      match vs with
      | Err e => Some (Err e, buf)
      | Ok vs => '(more, buf) ← feed buf chunks; Some (push_all vs more, buf)
      end
  end.

(** ** Properties *)

Fixpoint write_all (vs : list T) : result FrameError bytes :=
  match vs with
  | [] => Ok []
  | v :: vs => frame ← write_message v; rest ← write_all vs; Ok (frame ++ rest)
  end.

(** The codec reads back what it writes. *)
Definition codec_ok : Prop := ∀ v body, encode v = Ok body → decode body = Ok v.

Lemma no_cr_find h t :
  Forall (λ b, b ≠ 13%N) h → find_crlf_crlf (h ++ t) = Nat.add (length h) <$> find_crlf_crlf t.
Proof.
  induction 1 as [|b h Hb _ IH]; [simpl; by destruct (find_crlf_crlf t)|].
  cbn [app find_crlf_crlf length]. unfold slice_starts_with.
  rewrite bool_decide_false by (intros [r Hr]; injection Hr; congruence).
  rewrite IH. by destruct (find_crlf_crlf t).
Qed.

(** A header without carriage returns is not terminated before [CRLF_CRLF] is
    complete. *)
Lemma not_terminated buf p :
  Forall (λ b, b ≠ 13%N) buf → p ∈ [[]; [13]; [13; 10]; [13; 10; 13]]%N →
  slice_ends_with CRLF_CRLF (buf ++ p) = false.
Proof.
  intros Hbuf Hp. apply bool_decide_eq_false_2. rewrite suffix_prefix_reverse, reverse_app.
  rewrite <-Forall_reverse in Hbuf. revert Hbuf. generalize (reverse buf). intros rb Hbuf [t Ht].
  repeat (apply elem_of_cons in Hp as [->|Hp]); [..|by apply elem_of_nil in Hp]; cbv in Ht; try discriminate Ht.
  - subst. inversion_clear Hbuf as [|? ? _ Hr]. by inversion_clear Hr.
  - injection Ht as ->. inversion_clear Hbuf as [|? ? _ Hr]. by inversion_clear Hr.
Qed.

Lemma terminated buf : slice_ends_with CRLF_CRLF (buf ++ CRLF_CRLF) = true.
Proof. apply bool_decide_eq_true_2. by exists buf. Qed.

Lemma read_header_end buf t :
  Forall (λ b, b ≠ 13%N) buf → (N.of_nat (length buf) + 4 <= header_limit)%N →
  read_header buf (CRLF_CRLF ++ t) = Ok (buf ++ CRLF_CRLF, t).
Proof.
  intros Hbuf Hlen. unfold CRLF_CRLF. cbn [app read_header]. rewrite <-!app_assoc. cbn [app].
  rewrite !length_app. cbn [length].
  rewrite !not_terminated by (done || set_solver). fold CRLF_CRLF. rewrite terminated. by repeat cmp_false.
Qed.

Lemma no_cr_read_header buf h t :
  Forall (λ b, b ≠ 13%N) h → Forall (λ b, b ≠ 13%N) buf →
  (N.of_nat (length buf + length h) + 4 <= header_limit)%N →
  read_header buf (h ++ CRLF_CRLF ++ t) = Ok (buf ++ h ++ CRLF_CRLF, t).
Proof.
  intros Hh. revert buf. induction Hh as [|b h Hb Hh IH]; intros buf Hbuf Hlen; simpl in Hlen.
  { apply read_header_end; [done|lia]. }
  assert (Forall (λ b, b ≠ 13%N) (buf ++ [b])) as Hbuf' by (apply Forall_app; auto).
  cbn [app read_header]. rewrite length_app. cbn [length]. cmp_false.
  rewrite <-(app_nil_r (buf ++ [b])) at 1. rewrite not_terminated by (done || set_solver).
  rewrite IH by (done || rewrite length_app; simpl; lia). by rewrite <-app_assoc.
Qed.

(** ** The header [write_message] sends *)

Lemma of_chars_ascii cs : Forall (λ c, (c < 128)%N) cs → of_chars cs = Utf8.of_bytes cs.
Proof.
  intros Hcs. unfold of_chars. f_equal. induction Hcs as [|c cs Hc _ IH]; [done|]. simpl. rewrite IH.
  unfold Utf8.encode_char. by rewrite (proj2 (N.ltb_lt c 128)).
Qed.

Lemma digit_not_space c : is_ascii_digit c = true → is_whitespace c = false.
Proof. unfold is_ascii_digit, in_range, is_whitespace. eval_ch. lia. Qed.

Lemma trim_start_digits cs : Forall (λ c, is_ascii_digit c = true) cs → trim_start_chars cs = cs.
Proof. intros [|c cs' Hc _]; simpl; [done|]. by rewrite digit_not_space. Qed.

Lemma trim_digits s : is_digit_string s → trim (String " " s) = s.
Proof.
  intros Hs. pose proof (digit_string_ascii s Hs) as Ha. pose proof (is_ascii_bytes s Ha) as Hb.
  unfold trim. rewrite ascii_chars by (by unfold is_ascii in *; simpl).
  cbn [Utf8.bytes String.list_ascii_of_string fmap list_fmap trim_start_chars]. fold (Utf8.bytes s).
  rewrite trim_start_digits by done. unfold trim_end_chars. unfold is_digit_string in Hs.
  rewrite trim_start_digits by (by apply Forall_reverse). rewrite reverse_involutive, of_chars_ascii by done.
  apply of_bytes_bytes.
Qed.

Lemma message_header_small n : (n <= MAX_MESSAGE_SIZE)%N →
  is_digit_string (pretty n) ∧ String.length (pretty n) <= 20 ∧ parse_usize (pretty n) = Some n.
Proof.
  intros Hn. unfold MAX_MESSAGE_SIZE in Hn.
  destruct (pretty_N_digits 20 n) as (Hl & Hd & _ & _); [|done|].
  { apply (N.le_lt_trans _ _ _ Hn). apply N.ltb_lt. by vm_compute. }
  split_and!; [done..|]. apply parse_unsigned_pretty; [|done].
  apply (N.le_lt_trans _ _ _ Hn). apply N.ltb_lt. by vm_compute.
Qed.

Lemma split_from_none skip s t :
  Forall (λ b, b ≠ 13%N) (Utf8.bytes s) → skip = 0 →
  split_from skip CRLF (s +:+ CRLF +:+ t) = s :: split_from 0 CRLF t.
Proof.
  intros Hs ->. induction s as [|a s IH]; [done|]. inversion_clear Hs as [|? ? Ha Hs'].
  change (split_from 0 CRLF (String a (s +:+ CRLF +:+ t)) = String a s :: split_from 0 CRLF t).
  cbn [split_from]. assert (starts_with CRLF (String a (s +:+ CRLF +:+ t)) = false) as ->.
  { unfold starts_with. apply bool_decide_eq_false_2. unfold CRLF. cbn [strip_prefix].
    rewrite decide_False by (intros <-; by apply Ha). by intros []. }
  by rewrite IH.
Qed.

Lemma split_none s : Forall (λ b, b ≠ 13%N) (Utf8.bytes s) → split CRLF s = [s].
Proof.
  intros Hs. unfold split. induction s as [|a s IH]; [done|]. inversion_clear Hs as [|? ? Ha Hs'].
  cbn [split_from]. assert (starts_with CRLF (String a s) = false) as ->.
  { unfold starts_with. apply bool_decide_eq_false_2. unfold CRLF. cbn [strip_prefix].
    rewrite decide_False by (intros <-; by apply Ha). by intros []. }
  by rewrite IH.
Qed.

Lemma header_ascii n :
  (n <= MAX_MESSAGE_SIZE)%N → Forall (λ b, (b < 128)%N ∧ b ≠ 13%N) (Utf8.bytes (message_header n)).
Proof.
  intros Hn%message_header_small. destruct Hn as (Hd & _). unfold message_header. rewrite bytes_app.
  apply Forall_app. split; [by repeat (constructor; [split; [by vm_compute|done]|])|].
  eapply Forall_impl; [exact Hd|]. intros c. simpl. unfold is_ascii_digit, in_range. eval_ch. lia.
Qed.

Lemma header_length n :
  (n <= MAX_MESSAGE_SIZE)%N → (N.of_nat (length (Utf8.bytes (message_header n))) + 4 <= header_limit)%N.
Proof.
  intros Hn%message_header_small. destruct Hn as (_ & Hl & _). unfold message_header.
  assert (∀ s, length (Utf8.bytes s) = String.length s) as Hlen.
  { intros s. unfold Utf8.bytes. rewrite length_fmap. induction s; simpl; congruence. }
  rewrite Hlen, length_string_app. apply (N.le_trans _ 40); [simpl; lia|by vm_compute].
Qed.

Lemma header_line n :
  (n <= MAX_MESSAGE_SIZE)%N → ∀ lines, parse_content_length_lines (message_header n :: lines) = Ok n.
Proof.
  intros Hn%message_header_small lines. destruct Hn as (Hd & _ & Hp).
  cbn [parse_content_length_lines]. unfold content_length_line, message_header.
  change ("Content-Length: " +:+ pretty n) with ("Content-Length:" +:+ String " " (pretty n)).
  rewrite strip_prefix_app, trim_digits by done. simpl. by rewrite Hp.
Qed.

Lemma parse_header n :
  (n <= MAX_MESSAGE_SIZE)%N →
  (text ← header_text (Utf8.bytes (message_header n)); parse_content_length text) = Ok n ∧
  (text ← header_text (Utf8.bytes (message_header n) ++ CRLF_CRLF); parse_content_length text) = Ok n.
Proof.
  intros Hn. pose proof (header_ascii n Hn) as Ha. apply Forall_and in Ha as [Ha Hcr].
  unfold header_text. rewrite !from_utf8_ascii; [|apply Forall_app; split; [done|by repeat constructor]|done].
  cbn [map_err mbind result_bind]. rewrite of_bytes_app, of_bytes_bytes. unfold parse_content_length. split.
  - rewrite split_none by done. by apply header_line.
  - change (Utf8.of_bytes CRLF_CRLF) with (CRLF +:+ CRLF). unfold split.
    rewrite split_from_none by done. by apply header_line.
Qed.

(** ** Reading back what was written *)

Lemma write_message_frame v frame :
  write_message v = Ok frame →
  ∃ body, encode v = Ok body ∧ (N.of_nat (length body) <= MAX_MESSAGE_SIZE)%N ∧
    frame = Utf8.bytes (message_header (N.of_nat (length body))) ++ CRLF_CRLF ++ body.
Proof.
  unfold write_message. destruct (encode v) as [body|]; simpl; [|done]. case_match; [done|].
  intros [= <-]. bool_to_prop. by exists body.
Qed.

Lemma read_exact_app body rest : read_exact (N.of_nat (length body)) (body ++ rest) = Ok (body, rest).
Proof.
  unfold read_exact. rewrite length_app, Nat2N.id. cmp_false.
  by rewrite take_app_length, drop_app_length.
Qed.

Lemma read_message_frame v frame rest :
  codec_ok → write_message v = Ok frame → read_message (frame ++ rest) = Ok (v, rest).
Proof.
  intros Hc Hw. destruct (write_message_frame v frame Hw) as (body & Henc & Hlen & ->).
  pose proof (header_ascii _ Hlen) as [_ Hcr]%Forall_and. destruct (parse_header _ Hlen) as [_ Hp].
  unfold read_message. rewrite <-!app_assoc.
  rewrite no_cr_read_header; [|done|constructor|simpl; by apply header_length].
  cbn [app mbind result_bind]. apply bind_Ok in Hp as (text & Htext & Hp). rewrite Htext.
  cbn [mbind result_bind]. rewrite Hp. cbn [mbind result_bind]. cmp_false.
  rewrite read_exact_app. cbn [mbind result_bind]. by rewrite (Hc v body Henc).
Qed.

Lemma app_prefix_cases {A} (b l h r : list A) :
  b ++ l = h ++ r → (∃ b', b = h ++ b' ∧ b' ++ l = r) ∨ (∃ x h', b ++ x :: h' = h ∧ l = x :: h' ++ r).
Proof.
  revert h. induction b as [|x b IH]; intros [|y h] Heq; simpl in Heq.
  - left. by exists [].
  - right. by exists y, h.
  - left. by exists (x :: b).
  - injection Heq as -> Heq. apply IH in Heq as [(b' & -> & ?)|(z & h' & <- & ->)]; [left|right].
    + by exists b'.
    + by exists z, h'.
Qed.

Lemma find_terminated h b : Forall (λ x, x ≠ 13%N) h → find_crlf_crlf (h ++ CRLF_CRLF ++ b) = Some (length h).
Proof.
  intros Hh. rewrite no_cr_find by done. assert (find_crlf_crlf (CRLF_CRLF ++ b) = Some 0) as ->.
  { unfold CRLF_CRLF. cbn [app find_crlf_crlf]. unfold slice_starts_with. rewrite bool_decide_true; [done|].
    by exists b. }
  simpl. by rewrite Nat.add_0_r.
Qed.

Lemma find_partial h b x t : Forall (λ x, x ≠ 13%N) h → b ++ x :: t = h ++ CRLF_CRLF → find_crlf_crlf b = None.
Proof.
  intros Hh [(p & -> & Hp)|(y & h' & <- & _)]%app_prefix_cases.
  - rewrite no_cr_find by done. unfold CRLF_CRLF in Hp.
    do 4 (destruct p as [|? p]; [injection Hp as; subst; by vm_compute|]; injection Hp as -> Hp).
    by destruct p.
  - rewrite <-(app_nil_r b), no_cr_find by (by apply Forall_app in Hh as [? _]). done.
Qed.

Lemma try_read_frame v frame buf later rest :
  codec_ok → write_message v = Ok frame → buf ++ later = frame ++ rest →
  try_read buf = if length buf <? length frame then (Ok None, buf) else (Ok (Some v), drop (length frame) buf).
Proof.
  intros Hc Hw Hbuf. destruct (write_message_frame v frame Hw) as (body & Henc & Hlen & ->).
  pose proof (header_ascii _ Hlen) as [_ Hcr]%Forall_and. destruct (parse_header _ Hlen) as [Hp _].
  pose proof (header_length _ Hlen) as Hhl. revert Hbuf Hp Hhl Hcr.
  generalize (Utf8.bytes (message_header (N.of_nat (length body)))). intros h Hbuf Hp Hhl Hcr.
  rewrite !length_app. change (length CRLF_CRLF) with 4. unfold try_read.
  replace ((h ++ CRLF_CRLF ++ body) ++ rest) with ((h ++ CRLF_CRLF) ++ body ++ rest) in Hbuf
    by (by rewrite <-!app_assoc). apply app_prefix_cases in Hbuf as [(b & -> & Hb)|(x & t & Ht & _)].
  - rewrite <-app_assoc, find_terminated, take_app_length, Hp by done. cmp_false.
    rewrite Nat2N.id, !length_app. change (length CRLF_CRLF) with 4.
    replace (length h + 4 + length body) with (length h + (4 + length body)) by lia.
    destruct (Nat.ltb_spec (length h + (4 + length b)) (length h + (4 + length body))) as [|Hle]; [done|].
    apply app_prefix_cases in Hb as [(b' & -> & _)|(y & t & Ht & _)].
    + rewrite !app_assoc. replace (length h + (4 + length body)) with (length ((h ++ CRLF_CRLF) ++ body))
        by (rewrite !length_app; simpl; lia). rewrite take_app_length, drop_app_length.
      replace (length h + 4) with (length (h ++ CRLF_CRLF)) by (rewrite !length_app; simpl; lia).
      rewrite drop_app_length. by rewrite (Hc v body Henc).
    + apply (f_equal length) in Ht. rewrite length_app in Ht. simpl in Ht. lia.
  - rewrite (find_partial h buf x t) by done. apply (f_equal length) in Ht.
    rewrite !length_app in Ht. simpl in Ht. repeat cmp_false. by cmp_true.
Qed.

Lemma frame_nonempty v frame : write_message v = Ok frame → 0 < length frame.
Proof. intros (body & _ & _ & ->)%write_message_frame. rewrite !length_app. simpl. lia. Qed.

Lemma write_all_cons v vs stream :
  write_all (v :: vs) = Ok stream →
  ∃ frame rest, write_message v = Ok frame ∧ write_all vs = Ok rest ∧ stream = frame ++ rest.
Proof.
  cbn [write_all]. intros (frame & Hf & Hr)%bind_Ok. apply bind_Ok in Hr as (rest & Hr & [= <-]). eauto.
Qed.

(** What remains of a stream of messages: no buffered message is complete. *)
Definition pending (vs : list T) (buf later : bytes) : Prop :=
  write_all vs = Ok (buf ++ later) ∧
  ∀ v, head vs = Some v → ∃ frame, write_message v = Ok frame ∧ length buf < length frame.

Lemma drain_pending fuel vs buf later :
  codec_ok → write_all vs = Ok (buf ++ later) → length buf < fuel →
  ∃ vs1 vs2 buf', vs = vs1 ++ vs2 ∧ drain fuel buf = Some (Ok vs1, buf') ∧ pending vs2 buf' later.
Proof.
  intros Hc. revert vs buf. induction fuel as [|fuel IH]; intros vs buf Hvs Hfuel; [lia|].
  destruct vs as [|v vs].
  { exists [], [], buf. injection Hvs as Hnil. symmetry in Hnil. apply app_eq_nil in Hnil as [-> ->].
    by split_and!. }
  destruct (write_all_cons _ _ _ Hvs) as (frame & rest & Hf & Hr & Heq).
  cbn [drain]. rewrite (try_read_frame v frame buf later rest) by done.
  destruct (Nat.ltb_spec (length buf) (length frame)) as [Hlt|Hle].
  { exists [], (v :: vs), buf. split_and!; [done..|]. split; [done|]. intros ? [= <-]. eauto. }
  apply app_prefix_cases in Heq as [(b & -> & Hb)|(y & t & Ht & _)].
  2: { apply (f_equal length) in Ht. rewrite length_app in Ht. simpl in Ht. lia. }
  rewrite drop_app_length. pose proof (frame_nonempty v frame Hf). rewrite length_app in Hfuel.
  destruct (IH vs b) as (vs1 & vs2 & buf' & -> & -> & Hp); [congruence|lia|].
  by exists (v :: vs1), vs2, buf'.
Qed.

(** The reader is insensitive to how the stream arrives.  Given the bytes
    of any sequence of messages in chunks of any sizes, it yields, in order
    and without an error, exactly the messages whose last byte has arrived, and
    keeps the bytes of the first incomplete one. *)
Theorem framed_reader_stream vs chunks later :
  codec_ok → write_all vs = Ok (concat chunks ++ later) →
  chunks ≠ [] →
  ∃ vs1 vs2 buf, vs = vs1 ++ vs2 ∧ feed [] chunks = Some (Ok vs1, buf) ∧ pending vs2 buf later.
Proof.
  intros Hc. cut (∀ buf vs, write_all vs = Ok ((buf ++ concat chunks) ++ later) → chunks ≠ [] →
    ∃ vs1 vs2 buf', vs = vs1 ++ vs2 ∧ feed buf chunks = Some (Ok vs1, buf') ∧ pending vs2 buf' later);
    [by intros Hcut; apply (Hcut [])|].
  induction chunks as [|chunk chunks IH]; intros buf vs' Hvs Hne; [done|].
  cbn [concat] in Hvs. rewrite app_assoc, <-app_assoc in Hvs. cbn [feed].
  destruct (drain_pending (S (length (extend buf chunk))) vs' (extend buf chunk) (concat chunks ++ later))
    as (vs1 & vs2 & buf' & -> & -> & Hp); [done|done|lia|]. simpl.
  destruct chunks as [|chunk' chunks].
  { simpl. exists vs1, vs2, buf'. split_and!; [done| |done]. by rewrite app_nil_r. }
  destruct Hp as [Hvs2 _]. rewrite app_assoc in Hvs2.
  destruct (IH buf' vs2 Hvs2) as (vs3 & vs4 & buf'' & -> & -> & Hp'); [done|].
  exists (vs1 ++ vs3), vs4, buf''. split_and!; [by rewrite app_assoc|done|done].
Qed.

(** [read_message] reads back the first message of a stream. *)
Theorem message_roundtrip v frame rest :
  codec_ok → write_message v = Ok frame → read_message (frame ++ rest) = Ok (v, rest).
Proof. apply read_message_frame. Qed.

(** A message [write_message] refuses is one [read_message] would refuse. *)
Lemma write_read_limits v body :
  encode v = Ok body →
  (write_message v = Err (BodyTooLarge (N.of_nat (length body))) ↔
   (MAX_MESSAGE_SIZE < N.of_nat (length body))%N).
Proof.
  intros Henc. unfold write_message. rewrite Henc. cbn [map_err mbind result_bind]. case_match; bool_to_prop.
  - done.
  - split; [done|lia].
Qed.

End framing.

(** ** Concrete messages: strings, written as their bytes *)

Definition text_encode (s : string) : result string bytes := Ok (Utf8.bytes s).
Definition text_decode (b : bytes) : result string string := Ok (Utf8.of_bytes b).

Lemma text_codec_ok : codec_ok text_encode text_decode.
Proof. intros v body [= <-]. unfold text_decode. by rewrite of_bytes_bytes. Qed.

(** Two messages, cut inside the first header and inside the second body. *)
Definition sample_stream : bytes :=
  match write_all text_encode ["{}"; "[1]"] with Ok b => b | Err _ => [] end.

Lemma framed_reader_stream_witness :
  feed text_decode [] [take 5 sample_stream; take 40 (drop 5 sample_stream)] =
    Some (Ok ["{}"], take 22 (drop 23 sample_stream)) ∧
  ∃ vs1 vs2 buf, ["{}"; "[1]"] = vs1 ++ vs2 ∧
    feed text_decode [] [take 5 sample_stream; take 40 (drop 5 sample_stream)] = Some (Ok vs1, buf) ∧
    pending text_encode vs2 buf (drop 45 sample_stream).
Proof.
  split; [by vm_compute|]. apply framed_reader_stream; [exact text_codec_ok|by vm_compute|done].
Defined.

Lemma message_roundtrip_witness :
  read_message text_decode (sample_stream ++ [0%N]) =
  Ok ("{}", drop 23 sample_stream ++ [0%N]).
Proof.
  apply (message_roundtrip text_encode text_decode "{}" (take 23 sample_stream) (drop 23 sample_stream ++ [0%N]));
    [exact text_codec_ok|by vm_compute].
Defined.

(** Other spellings of the header name are not recognised. *)
Lemma header_case_sensitive :
  parse_content_length ("Content-length: 2" +:+ CRLF) = Err MissingContentLength.
Proof. by vm_compute. Qed.
