(* ===== verification/FileCommands.v ===== *)
(** * File commands of a step

    [crates/preloop-runner/src/worker/file_commands.rs]: the files [GITHUB_ENV],
    [GITHUB_PATH], [GITHUB_OUTPUT], [GITHUB_STATE] and [GITHUB_ARTIFACTS] that a
    step writes, read after the step and applied to the job.

    A file is what the reader finds at its path ([FileAt]); the SHA-256 of an
    artifact and the rest of the file system are behind the interface
    [ArtifactFiles]. The text of a file is a byte list, as the source slices it
    by byte index. *)
From S2P Require Export Bytes.

(** What is at a path: nothing, an entry that cannot be opened, an entry that
    is not a regular file (with the length of its metadata), or a file. *)
Inductive FileAt : Type := Absent | Unreadable (len : N) | NotRegular (len : N) | Regular (content : bytes).

Definition exists_at (f : FileAt) : bool := match f with Absent => false | _ => true end.

Inductive ArtifactError : Type :=
| ReservedEquals | EmptyFilePath | OciWithoutDigest | UnsupportedScheme | UnsupportedAlgorithm
| WrongHexLength (algo : string) (expected got : nat) | EmptyReference
| FileMissing (declared : string) (relative_to : option string) | CannotReadArtifact
| ArtifactNotRegular (declared : string)
| ConflictingDigest (name previous now : string) | TooManyArtifacts.

Inductive FileCommandError : Type :=
| CannotRead | NotARegularFile | InvalidUtf8 | SizeLimit (got_kib : N)
| EmptyName (line : string) | EmptyNameOrDelimiter (line : string) | DelimiterNotFound (delimiter : string)
| MissingNewLine | InvalidLine (line : string)
| ArtifactsSizeLimit (got_kib : N) | InvalidArtifact (line_number : nat) (e : ArtifactError).

(** ** Reading *)

Definition FILE_COMMAND_MAX_BYTES : N := 1048576.

(** At most one byte more than the limit is read. *)
Definition read_file_command (f : FileAt) : result FileCommandError bytes :=
  match f with
  | Absent | Unreadable _ => Err CannotRead
  | NotRegular _ => Err NotARegularFile
  | Regular content =>
      let text := take (N.to_nat (FILE_COMMAND_MAX_BYTES + 1)) content in
      match utf8_check 0 text with
      | Some _ => Err InvalidUtf8
      | None =>
          if (FILE_COMMAND_MAX_BYTES <? N.of_nat (length text))%N
          then Err (SizeLimit (N.of_nat (length text) / 1024)) else Ok text
      end
  end.

(** ** The parser of names and values *)

(** [str::find] on bytes. *)
Fixpoint find_bytes (pat b : bytes) : option nat :=
  if slice_starts_with pat b then Some 0
  else match b with [] => None | _ :: r => S <$> find_bytes pat r end.

Definition slice (text : bytes) (i j : nat) : bytes := take (j - i) (drop i text).

Definition read_line (text : bytes) (index : nat) : option bytes * option bytes * nat :=
  if length text <=? index then (None, None, index)
  else
    match find_bytes [10%N] (drop index text) with
    | Some lf_offset =>
        let lf_index := index + lf_offset in
        if (0 <? lf_offset) && bool_decide (text !! (lf_index - 1) = Some 13%N)
        then (Some (slice text index (lf_index - 1)), Some [13; 10]%N, lf_index + 1)
        else (Some (slice text index lf_index), Some [10]%N, lf_index + 1)
    | None => (Some (drop index text), None, length text)
    end.

(** The loop over the lines of a heredoc; [None] when the fuel is spent. *)
Fixpoint heredoc_loop (fuel : nat) (text delimiter : bytes) (index end_index : nat)
    : option (result FileCommandError (nat * nat)) :=
  match fuel with
  | 0 => None
  | S fuel =>
      let '(temp_line, newline, index) := read_line text index in
      match temp_line with
      | None => Some (Err (DelimiterNotFound (Utf8.of_bytes delimiter)))
      | Some t_line =>
          if bool_decide (t_line = delimiter) then Some (Ok (index, end_index))
          else match newline with
               | None => Some (Err MissingNewLine)
               | Some nl => heredoc_loop fuel text delimiter index (index - length nl)
               end
      end
  end.

Definition before (i : option nat) (j : option nat) : bool :=
  match i, j with
  | Some i, Some j => i <? j
  | Some _, None => true
  | None, _ => false
  end.

Fixpoint parse_loop (fuel : nat) (text : bytes) (index : nat) (acc : gmap string string)
    : option (result FileCommandError (gmap string string)) :=
  match fuel with
  | 0 => None
  | S fuel =>
      let '(temp_line, _, index) := read_line text index in
      match temp_line with
      | None => Some (Ok acc)
      | Some [] => parse_loop fuel text index acc
      | Some line =>
          let equals_index := find_bytes [61%N] line in
          let heredoc_index := find_bytes [60; 60]%N line in
          if before equals_index heredoc_index then
            let eq_pos := default 0 equals_index in
            let key := take eq_pos line in
            if bool_decide (key = []) then Some (Err (EmptyName (Utf8.of_bytes line)))
            else parse_loop fuel text index (<[Utf8.of_bytes key := Utf8.of_bytes (drop (eq_pos + 1) line)]> acc)
          else if before heredoc_index equals_index then
            let heredoc_pos := default 0 heredoc_index in
            let key := take heredoc_pos line in
            let delimiter := drop (heredoc_pos + 2) line in
            if bool_decide (key = []) || bool_decide (delimiter = [])
            then Some (Err (EmptyNameOrDelimiter (Utf8.of_bytes line)))
            else
              res ← heredoc_loop fuel text delimiter index index;
              match res with
              | Err e => Some (Err e)
              | Ok (index', end_index) =>
                  let output := if index <? end_index then slice text index end_index else [] in
                  parse_loop fuel text index' (<[Utf8.of_bytes key := Utf8.of_bytes output]> acc)
              end
          else Some (Err (InvalidLine (Utf8.of_bytes line)))
      end
  end.

Definition parse_kv_text (text : bytes) : option (result FileCommandError (gmap string string)) :=
  parse_loop (length text + 2) text 0 ∅.

Definition parse_kv_file (f : FileAt) : option (result FileCommandError (gmap string string)) :=
  if exists_at f then
    match read_file_command f with
    | Err e => Some (Err e)
    | Ok text => parse_kv_text text
    end
  else Some (Ok ∅).

(** [str::lines]. *)
Fixpoint lines_from (fuel : nat) (text : bytes) (index : nat) : list bytes :=
  match fuel with
  | 0 => []
  | S fuel =>
      match read_line text index with
      | (Some line, _, index) => line :: lines_from fuel text index
      | (None, _, _) => []
      end
  end.
Definition lines (text : bytes) : list string :=
  Utf8.of_bytes <$> lines_from (length text) text 0.

Definition parse_path_file (f : FileAt) : result FileCommandError (list string) :=
  if exists_at f then
    content ← read_file_command f;
    Ok (filter (λ l, l ≠ "") (trim <$> lines content))
  else Ok [].

(** ** Artifact subjects *)

Record ArtifactSubject : Type := mkSubject { name : string; digest : string; kind : string }.

(** The job, as far as file commands reach it. [artifact_subjects] is an
    [IndexMap] and its keys are the names of the subjects. *)
Record StepResult : Type := mkStepResult { outcome : string; conclusion : string; outputs : gmap string string }.
Record JobContext : Type := mkJob {
  env : gmap string string; extra_path : list string; steps : gmap string StepResult;
  state : gmap string (gmap string string); artifacts_variable : option string;
  artifact_subjects : imap ArtifactSubject; workspace : option string }.

(** The files an artifact entry can name. *)
Class ArtifactFiles := {
  current_dir : string;
  file_at : string → FileAt;
  sha256_hex : bytes → string;
}.

Definition matches_official_bool (v : string) : bool :=
  bool_decide (to_ascii_lowercase (trim v) ∈ ["1"; "true"; "t"; "y"; "yes"; "on"]).

Definition expected_hex_len (algo : string) : option nat :=
  let a := to_ascii_lowercase algo in
  if bool_decide (a = "sha256") then Some 64
  else if bool_decide (a = "sha384") then Some 96
  else if bool_decide (a = "sha512") then Some 128 else None.

(** [Path::is_absolute], [Path::join] and [Path::file_name] on Unix. *)
Definition is_absolute (p : string) : bool := starts_with "/" p.
Definition path_join (base p : string) : string :=
  if is_absolute p then p
  else if bool_decide (base = "") || bool_decide (is_Some (strip_suffix "/" base)) then base +:+ p
  else base +:+ "/" +:+ p.
Definition path_file_name (p : string) : option string :=
  match last (filter (λ c, c ≠ "" ∧ c ≠ ".") (split_char "/" p)) with
  | Some c => if bool_decide (c = "..") then None else Some c
  | None => None
  end.

(** [^[A-Za-z][A-Za-z0-9+.\-]*://]. *)
Definition is_scheme_char (c : char) : bool :=
  is_ascii_alphanumeric c || bool_decide (c ∈ ch <$> ["+"; "."; "-"]%char).
Definition scheme_re (s : string) : bool :=
  match split_once ":" s with
  | Some (scheme, rest) =>
      starts_with "//" rest && forallb is_scheme_char (Utf8.bytes scheme)
      && match Utf8.bytes scheme with c :: _ => is_ascii_alphabetic c | [] => false end
  | None => false
  end.

(** [^(?P<ref>.+)@(?P<algo>sha(?:256|384|512)):(?P<hex>[0-9a-fA-F]+)$]: the
    last [@] ends the reference, as neither the algorithm nor the digits hold
    one. *)
Definition is_ascii_hexdigit (c : char) : bool :=
  is_ascii_digit c || in_range "a" "f" c || in_range "A" "F" c.
Definition oci_re (s : string) : option (string * string * string) :=
  '(rev_tail, rev_ref) ← split_once "@" (str_rev s);
  '(algo, hex) ← split_once ":" (str_rev rev_tail);
  let ref := str_rev rev_ref in
  if bool_decide (algo ∈ ["sha256"; "sha384"; "sha512"]) && negb (bool_decide (hex = ""))
     && forallb is_ascii_hexdigit (Utf8.bytes hex)
     && negb (bool_decide (ref = "")) && forallb (λ b, negb (b =? 10)%N) (Utf8.bytes ref)
  then Some (ref, algo, hex) else None.

Definition make_oci_subject (caps : string * string * string) : result ArtifactError ArtifactSubject :=
  let '(ref_name, algo, hex) := caps in
  let algo := to_ascii_lowercase algo in
  let hex := to_ascii_lowercase hex in
  match expected_hex_len algo with
  | None => Err UnsupportedAlgorithm
  | Some expected =>
      if negb (String.length hex =? expected) then Err (WrongHexLength algo expected (String.length hex))
      else if bool_decide (ref_name = "") then Err EmptyReference
      else Ok (mkSubject ref_name (algo +:+ ":" +:+ hex) "oci")
  end.

Section artifacts.
Context {AF : ArtifactFiles}.

Definition make_file_subject (declared_path : string) (workspace : option string)
    : result ArtifactError ArtifactSubject :=
  let file_path :=
    if is_absolute declared_path then declared_path
    else path_join (default current_dir workspace) declared_path in
  match file_at file_path with
  | Absent =>
      if is_absolute declared_path then Err (FileMissing declared_path None)
      else Err (FileMissing declared_path (Some (default "." workspace)))
  | Unreadable _ => Err CannotReadArtifact
  | NotRegular _ => Err (ArtifactNotRegular declared_path)
  | Regular content =>
      Ok (mkSubject (default declared_path (path_file_name file_path)) ("sha256:" +:+ sha256_hex content) "file")
  end.

Definition parse_artifact_entry (line : string) (workspace : option string)
    : result ArtifactError ArtifactSubject :=
  let trimmed := trim line in
  if str_contains "=" trimmed then Err ReservedEquals
  else
    match strip_prefix "file://" trimmed, strip_prefix "FILE://" trimmed with
    | Some path, _ | None, Some path =>
        if bool_decide (trim path = "") then Err EmptyFilePath else make_file_subject path workspace
    | None, None =>
        match strip_prefix "oci://" trimmed, strip_prefix "OCI://" trimmed with
        | Some rest, _ | None, Some rest =>
            match oci_re rest with
            | Some caps => make_oci_subject caps
            | None => Err OciWithoutDigest
            end
        | None, None =>
            if scheme_re trimmed then Err UnsupportedScheme
            else match oci_re trimmed with
                 | Some (ref, algo, hex) =>
                     if bool_decide (expected_hex_len algo = Some (String.length hex))
                     then make_oci_subject (ref, algo, hex) else make_file_subject trimmed workspace
                 | None => make_file_subject trimmed workspace
                 end
        end
    end.

Definition ARTIFACTS_MAX_FILE_BYTES : N := 1024 * 1024.
Definition ARTIFACTS_MAX_AGGREGATE : nat := 500.

Definition with_subjects (m : imap ArtifactSubject) (j : JobContext) : JobContext :=
  mkJob (env j) (extra_path j) (steps j) (state j) (artifacts_variable j) m (workspace j).

(** The first loop of [process_artifacts_file]: all entries are parsed before
    the job changes. *)
Fixpoint parse_artifact_lines (line_number : nat) (ls : list string) (workspace : option string)
    : result FileCommandError (list (nat * ArtifactSubject)) :=
  match ls with
  | [] => Ok []
  | raw :: ls =>
      let trimmed := trim raw in
      if bool_decide (trimmed = "") || starts_with "#" trimmed
      then parse_artifact_lines (S line_number) ls workspace
      else
        subject ← map_err (InvalidArtifact line_number) (parse_artifact_entry trimmed workspace);
        parsed ← parse_artifact_lines (S line_number) ls workspace;
        Ok ((line_number, subject) :: parsed)
  end.

(** The second loop: the job keeps what was declared before an error. *)
Fixpoint declare_subjects (parsed : list (nat * ArtifactSubject)) (j : JobContext)
    : result FileCommandError () * JobContext :=
  match parsed with
  | [] => (Ok (), j)
  | (line_number, subject) :: parsed =>
      match imap_get (name subject) (artifact_subjects j) with
      | Some existing =>
          if bool_decide (digest existing = digest subject) then declare_subjects parsed j
          else (Err (InvalidArtifact line_number
                  (ConflictingDigest (name subject) (digest existing) (digest subject))), j)
      | None =>
          if ARTIFACTS_MAX_AGGREGATE <=? length (artifact_subjects j)
          then (Err (InvalidArtifact line_number TooManyArtifacts), j)
          else declare_subjects parsed
                 (with_subjects (imap_insert (name subject) subject (artifact_subjects j)) j)
      end
  end.

Definition meta_len (f : FileAt) : N :=
  match f with
  | Absent => 0
  | Unreadable n | NotRegular n => n
  | Regular content => N.of_nat (length content)
  end.

(** The list file is written after a success and not modelled. *)
Definition process_artifacts_file (f : FileAt) (j : JobContext) : result FileCommandError () * JobContext :=
  if (meta_len f =? 0)%N then (Ok (), j)
  else if (ARTIFACTS_MAX_FILE_BYTES <? meta_len f)%N then (Err (ArtifactsSizeLimit (meta_len f / 1024)), j)
  else
    match f with
    | Regular content =>
        match utf8_check 0 content with
        | Some _ => (Err InvalidUtf8, j)
        | None =>
            match parse_artifact_lines 1 (lines content) (workspace j) with
            | Err e => (Err e, j)
            | Ok parsed => declare_subjects parsed j
            end
        end
    | _ => (Err CannotRead, j)
    end.

(** ** Applying the files of a step *)

Record FileCommandPaths : Type := mkPaths {
  env_file : FileAt; path_file : FileAt; output_file : FileAt; state_file : FileAt; artifacts_file : FileAt }.

Definition with_job_env (e : gmap string string) (j : JobContext) : JobContext :=
  mkJob e (extra_path j) (steps j) (state j) (artifacts_variable j) (artifact_subjects j) (workspace j).
Definition with_extra_path (p : list string) (j : JobContext) : JobContext :=
  mkJob (env j) p (steps j) (state j) (artifacts_variable j) (artifact_subjects j) (workspace j).
Definition with_steps (s : gmap string StepResult) (j : JobContext) : JobContext :=
  mkJob (env j) (extra_path j) s (state j) (artifacts_variable j) (artifact_subjects j) (workspace j).
Definition with_state (s : gmap string (gmap string string)) (j : JobContext) : JobContext :=
  mkJob (env j) (extra_path j) (steps j) s (artifacts_variable j) (artifact_subjects j) (workspace j).

(** The variable of the job, or the environment of the runner. *)
Definition artifacts_feature_enabled (runner_env : option string) (j : JobContext) : bool :=
  match artifacts_variable j with Some v => matches_official_bool v | None => false end
  || match runner_env with Some v => matches_official_bool v | None => false end.

Definition apply_env (e : gmap string string) (k v : string) : gmap string string :=
  if eq_ignore_ascii_case k "NODE_OPTIONS" then e else <[k := v]> e.

(** The loop over the entries of a map, in the order the map yields them. *)
Definition apply_env_file (vars : gmap string string) (j : JobContext) : JobContext :=
  with_job_env (foldl (λ e '(k, v), apply_env e k v) (env j) (map_to_list vars)) j.

(** [job.extra_path.insert(0, p)] for the paths in reverse. *)
Definition apply_paths (paths : list string) (j : JobContext) : JobContext :=
  with_extra_path (foldl (λ acc p, p :: acc) (extra_path j) (reverse paths)) j.

Definition insert_all (vars m : gmap string string) : gmap string string :=
  foldl (λ m '(k, v), <[k := v]> m) m (map_to_list vars).

Definition apply_outputs (step_id : string) (vars : gmap string string) (j : JobContext) : JobContext :=
  match steps j !! step_id with
  | Some r => with_steps (<[step_id := mkStepResult (outcome r) (conclusion r) (insert_all vars (outputs r))]> (steps j)) j
  | None => j
  end.

Definition state_step_id (step_id : string) : string :=
  default (default step_id (strip_prefix "__post_" step_id)) (strip_prefix "__pre_" step_id).

Definition apply_state (step_id : string) (vars : gmap string string) (j : JobContext) : JobContext :=
  if bool_decide (vars = ∅) then j
  else
    let sid := state_step_id step_id in
    with_state (<[sid := insert_all vars (default ∅ (state j !! sid))]> (state j)) j.

(** [parse_kv_file]; the fuel of its loops suffices ([parse_kv_file_total]). *)
Definition kv_of (f : FileAt) : result FileCommandError (gmap string string) :=
  default (Err CannotRead) (parse_kv_file f).

(** The job keeps what was applied before an error. *)
Definition apply_file_commands_to_job (paths : FileCommandPaths) (j : JobContext)
    : result FileCommandError () * JobContext :=
  match kv_of (env_file paths) with
  | Err e => (Err e, j)
  | Ok env_vars =>
      let j := apply_env_file env_vars j in
      match parse_path_file (path_file paths) with
      | Err e => (Err e, j)
      | Ok extra_paths => (Ok (), apply_paths extra_paths j)
      end
  end.

Definition apply_file_commands (runner_env : option string) (paths : FileCommandPaths) (step_id : string)
    (j : JobContext) : result FileCommandError () * JobContext :=
  match kv_of (env_file paths) with
  | Err e => (Err e, j)
  | Ok env_vars =>
      let j := apply_env_file env_vars j in
      match parse_path_file (path_file paths) with
      | Err e => (Err e, j)
      | Ok extra_paths =>
          let j := apply_paths extra_paths j in
          match kv_of (output_file paths) with
          | Err e => (Err e, j)
          | Ok outputs =>
              let j := apply_outputs step_id outputs j in
              match kv_of (state_file paths) with
              | Err e => (Err e, j)
              | Ok state =>
                  let j := apply_state step_id state j in
                  if artifacts_feature_enabled runner_env j && exists_at (artifacts_file paths)
                  then process_artifacts_file (artifacts_file paths) j
                  else (Ok (), j)
              end
          end
      end
  end.

End artifacts.

Section examples.
Local Definition t (ls : list string) : bytes := Utf8.bytes (String.concat (String "010" EmptyString) ls).
Local Definition got (ls : list string) (k : string) : option string :=
  match parse_kv_text (t ls) with Some (Ok m) => m !! k | _ => None end.
Example kv_pairs : got ["FOO=bar"; "BAZ=qux"; ""] <$> ["FOO"; "BAZ"] = [Some "bar"; Some "qux"].
Proof. by vm_compute. Qed.
Example kv_heredoc : got ["CERT<<EOF"; "a"; "b=c"; "EOF"; ""] "CERT" = Some ("a" +:+ String "010" "b=c").
Proof. by vm_compute. Qed.
Example kv_unterminated : parse_kv_text (t ["B<<EOF"; "x"; ""]) = Some (Err (DelimiterNotFound "EOF")).
Proof. by vm_compute. Qed.
Example kv_invalid : parse_kv_text (t ["not a command"; ""]) = Some (Err (InvalidLine "not a command")).
Proof. by vm_compute. Qed.
Example kv_last_wins : got ["FOO=bar"; ""; "FOO=baz"; "EMPTY<<E"; "E"] <$> ["FOO"; "EMPTY"] = [Some "baz"; Some ""].
Proof. by vm_compute. Qed.
Example path_lines : lines (t ["/a b "; ""; "/c"]) = ["/a b "; ""; "/c"].
Proof. by vm_compute. Qed.
End examples.

(** ** The format of a file of names and values *)

(** No occurrence of [pat] in [line] starts before [n]. *)
Definition starts_after (pat : bytes) (n : nat) (line : bytes) : Prop :=
  ∀ a c, line = a ++ pat ++ c → n ≤ length a.
Definition occurs_not (pat line : bytes) : Prop := ∀ a c, line ≠ a ++ pat ++ c.

(** The first line of a text, its terminator and what follows. *)
Inductive line_of : bytes → bytes → bytes → bytes → Prop :=
| line_crlf line rest : 10%N ∉ line → line_of (line ++ [13; 10]%N ++ rest) line [13; 10]%N rest
| line_lf line rest : 10%N ∉ line → last line ≠ Some 13%N → line_of (line ++ [10]%N ++ rest) line [10]%N rest
| line_end line : 10%N ∉ line → line ≠ [] → line_of line line [] [].

(** The lines of a heredoc up to the line that is its delimiter. *)
Inductive heredoc_lines (delimiter : bytes) : bytes → list (bytes * bytes) → bytes → Prop :=
| heredoc_close r nl rest : line_of r delimiter nl rest → heredoc_lines delimiter r [] rest
| heredoc_more r line nl r' ls rest :
    line_of r line nl r' → line ≠ delimiter → nl ≠ [] →
    heredoc_lines delimiter r' ls rest → heredoc_lines delimiter r ((line, nl) :: ls) rest.

Inductive heredoc_fails (delimiter : bytes) : bytes → FileCommandError → Prop :=
| heredoc_eof : heredoc_fails delimiter [] (DelimiterNotFound (Utf8.of_bytes delimiter))
| heredoc_no_newline r line : line_of r line [] [] → line ≠ delimiter → heredoc_fails delimiter r MissingNewLine
| heredoc_fails_later r line nl r' e :
    line_of r line nl r' → line ≠ delimiter → nl ≠ [] →
    heredoc_fails delimiter r' e → heredoc_fails delimiter r e.

(** The lines with their terminators, less the last terminator. *)
Fixpoint heredoc_value (ls : list (bytes * bytes)) : bytes :=
  match ls with
  | [] => []
  | (line, nl) :: ls => match ls with [] => line | _ => line ++ nl ++ heredoc_value ls end
  end.

Definition pair_line (line k v : bytes) : Prop :=
  line = k ++ [61]%N ++ v ∧ starts_after [61]%N (length k) line ∧ starts_after [60; 60]%N (length k) line.
Definition heredoc_line (line k d : bytes) : Prop :=
  line = k ++ [60; 60]%N ++ d ∧ starts_after [60; 60]%N (length k) line ∧ starts_after [61]%N (length k) line.

(** What reading a text yields: the entries in file order, and the error that
    ends it, if any. *)
Inductive kv_run : bytes → list (bytes * bytes) → option FileCommandError → Prop :=
| kv_eof : kv_run [] [] None
| kv_blank r nl rest es o : line_of r [] nl rest → kv_run rest es o → kv_run r es o
| kv_pair r line nl rest k v es o :
    line_of r line nl rest → pair_line line k v → k ≠ [] → kv_run rest es o → kv_run r ((k, v) :: es) o
| kv_heredoc_entry r line nl rest k d ls rest' es o :
    line_of r line nl rest → heredoc_line line k d → k ≠ [] → d ≠ [] →
    heredoc_lines d rest ls rest' → kv_run rest' es o → kv_run r ((k, heredoc_value ls) :: es) o
| kv_empty_name r line nl rest v :
    line_of r line nl rest → pair_line line [] v → kv_run r [] (Some (EmptyName (Utf8.of_bytes line)))
| kv_empty_part r line nl rest k d :
    line_of r line nl rest → heredoc_line line k d → k = [] ∨ d = [] →
    kv_run r [] (Some (EmptyNameOrDelimiter (Utf8.of_bytes line)))
| kv_open_heredoc r line nl rest k d e :
    line_of r line nl rest → heredoc_line line k d → k ≠ [] → d ≠ [] →
    heredoc_fails d rest e → kv_run r [] (Some e)
| kv_bad_line r line nl rest :
    line_of r line nl rest → line ≠ [] → occurs_not [61]%N line → occurs_not [60; 60]%N line →
    kv_run r [] (Some (InvalidLine (Utf8.of_bytes line))).

Definition collect (acc : gmap string string) (es : list (bytes * bytes)) : gmap string string :=
  foldl (λ m '(k, v), <[Utf8.of_bytes k := Utf8.of_bytes v]> m) acc es.
Definition kv_outcome (acc : gmap string string) (es : list (bytes * bytes)) (o : option FileCommandError)
    : result FileCommandError (gmap string string) :=
  match o with None => Ok (collect acc es) | Some e => Err e end.

(** ** The loops read the format *)

Lemma find_bytes_None pat b : pat ≠ [] → find_bytes pat b = None ↔ occurs_not pat b.
Proof.
  intros Hp. unfold slice_starts_with, occurs_not. induction b as [|x b IH]; cbn [find_bytes]; unfold slice_starts_with.
  - destruct (bool_decide _) eqn:E.
    + apply bool_decide_eq_true in E as [c E]. split; [done|]. intros H. by destruct (H [] c).
    + split; [|done]. intros _ a c H. apply (f_equal length) in H. rewrite !length_app in H.
      destruct pat; cbn in *; [done|lia].
  - destruct (bool_decide _) eqn:E.
    + apply bool_decide_eq_true in E as [c E]. split; [done|]. intros H. by destruct (H [] c).
    + apply bool_decide_eq_false in E. rewrite fmap_None, IH. split.
      * intros H [|y a] c He; [apply E; by exists c|]. injection He as -> He. by apply (H a c).
      * intros H a c He. apply (H (x :: a) c). by rewrite He.
Qed.

Lemma find_bytes_Some pat b i : pat ≠ [] →
  find_bytes pat b = Some i ↔ ∃ k v, b = k ++ pat ++ v ∧ i = length k ∧ starts_after pat (length k) b.
Proof.
  intros Hp. unfold starts_after. revert i. induction b as [|x b IH]; intros i; cbn [find_bytes]; unfold slice_starts_with.
  - destruct (bool_decide _) eqn:E.
    + apply bool_decide_eq_true in E as [c E]. destruct pat; [done|]. done.
    + split; [done|]. intros (k & v & H & _). apply (f_equal length) in H. rewrite !length_app in H.
      destruct pat; cbn in *; [done|lia].
  - destruct (bool_decide _) eqn:E.
    + apply bool_decide_eq_true in E as [c E]. split.
      * intros [= <-]. exists [], c. split_and!; [done|done|]. cbn. lia.
      * intros (k & v & H & -> & Hf). specialize (Hf [] c E). cbn in Hf. f_equal. lia.
    + apply bool_decide_eq_false in E. rewrite fmap_Some. setoid_rewrite IH. split.
      * intros (j & (k & v & -> & -> & Hf) & ->). exists (x :: k), v. split_and!; [done|done|].
        intros [|y a] c He; [destruct E; by exists c|]. injection He as -> He. cbn. apply le_n_S. by apply (Hf a c).
      * intros ([|y k] & v & H & -> & Hf); [destruct E; by exists v|]. injection H as -> H.
        exists (length k). split; [|done]. exists k, v. split_and!; [done|done|].
        intros a c He. specialize (Hf (y :: a) c). cbn in Hf. apply le_S_n, Hf. by rewrite He.
Qed.

Lemma occurs_not_single x b : occurs_not [x] b ↔ x ∉ b.
Proof.
  unfold occurs_not. split.
  - intros H Hin. apply list_elem_of_split in Hin as (a & c & ->). by apply (H a c).
  - intros H a c ->. apply H. set_solver.
Qed.

Lemma starts_after_single x k v : starts_after [x] (length k) (k ++ [x] ++ v) ↔ x ∉ k.
Proof.
  unfold starts_after. split.
  - intros H Hin. apply list_elem_of_split in Hin as (a & c & ->).
    specialize (H a (c ++ [x] ++ v)). rewrite length_app in H. cbn in H.
    rewrite <- app_assoc in H. specialize (H eq_refl). lia.
  - intros H a c He. destruct (decide (length k ≤ length a)) as [|Hn]; [done|]. exfalso.
    apply app_eq_inv in He as [(l & -> & He) | (l & -> & He)].
    + destruct l as [|y l]; [rewrite app_nil_r in Hn; lia|]. injection He as -> He. set_solver.
    + rewrite length_app in Hn. lia.
Qed.

Lemma line_of_app r line nl rest : line_of r line nl rest → r = line ++ nl ++ rest.
Proof. intros []; [done|done|]. by rewrite app_nil_r. Qed.

Lemma line_of_shorter r line nl rest : line_of r line nl rest → length rest < length r.
Proof.
  intros H. assert (r = line ++ nl ++ rest) as -> by by apply line_of_app.
  rewrite !length_app. inversion H; subst; cbn; try lia. destruct line; [done|cbn; lia].
Qed.

Lemma line_of_exists r : r ≠ [] → ∃ line nl rest, line_of r line nl rest.
Proof.
  intros Hr. destruct (find_bytes [10%N] r) as [i|] eqn:E.
  - apply find_bytes_Some in E as (k & v & -> & _ & Hf); [|done].
    apply starts_after_single in Hf.
    destruct k as [|x k' _] using rev_ind; [by exists [], [10%N], v; constructor|].
    destruct (decide (x = 13%N)) as [->|Hx].
    + exists k', [13; 10]%N, v. rewrite <- app_assoc. apply (line_crlf k' v). set_solver.
    + exists (k' ++ [x]), [10]%N, v. constructor; [done|]. rewrite last_snoc. congruence.
  - apply find_bytes_None in E; [|done]. apply occurs_not_single in E. exists r, [], []. by constructor.
Qed.

Lemma find_lf line rest : 10%N ∉ line → find_bytes [10%N] (line ++ [10%N] ++ rest) = Some (length line).
Proof.
  intros H. apply find_bytes_Some; [done|]. exists line, rest. split_and!; [done|done|].
  by apply starts_after_single.
Qed.

Lemma slice_app pre mid post : slice (pre ++ mid ++ post) (length pre) (length pre + length mid) = mid.
Proof. unfold slice. rewrite drop_app_length. replace (_ - _) with (length mid) by lia. apply take_app_length. Qed.

Definition newline_of (nl : bytes) : option bytes := match nl with [] => None | _ => Some nl end.

Lemma read_line_at pre r line nl rest : line_of r line nl rest →
  read_line (pre ++ r) (length pre) = (Some line, newline_of nl, length pre + length line + length nl).
Proof.
  intros H. unfold read_line. destruct (Nat.leb_spec (length (pre ++ r)) (length pre)) as [Hl|_].
  { apply line_of_shorter in H. rewrite length_app in Hl. lia. }
  rewrite drop_app_length. destruct H as [line rest H|line rest H Hl|line H Hne].
  - change (line ++ [13; 10]%N ++ rest) with (line ++ [13%N] ++ [10%N] ++ rest). rewrite (app_assoc line).
    rewrite (find_lf (line ++ [13%N])) by set_solver. rewrite length_app. cbn [length].
    destruct (Nat.ltb_spec 0 (length line + 1)) as [_|]; [|lia].
    rewrite bool_decide_eq_true_2.
    + cbn [andb]. replace (length pre + (length line + 1) - 1) with (length pre + length line) by lia.
      rewrite <- app_assoc, slice_app. cbn [newline_of length].
      by replace (length pre + (length line + 1) + 1) with (length pre + length line + 2) by lia.
    + rewrite lookup_app_r by lia. replace (_ - length pre) with (length line) by lia.
      rewrite <- app_assoc. cbn [app]. by apply list_lookup_middle.
  - rewrite find_lf by done.
    destruct (Nat.ltb_spec 0 (length line)) as [Hp|Hp]; cbn [andb].
    + rewrite bool_decide_eq_false_2.
      * by rewrite slice_app.
      * rewrite lookup_app_r by lia. rewrite lookup_app_l by lia.
        rewrite last_lookup in Hl. by replace (_ - _ - length pre) with (pred (length line)) by lia.
    + rewrite slice_app. done.
  - assert (occurs_not [10%N] line) as E by by apply occurs_not_single.
    apply find_bytes_None in E; [|done]. rewrite E, length_app. cbn [newline_of length]. by rewrite Nat.add_0_r.
Qed.

Lemma read_line_end text : read_line text (length text) = (None, None, length text).
Proof. unfold read_line. by rewrite Nat.leb_refl. Qed.

(** The text read so far grows by a line. *)
Lemma read_line_next pre r line nl rest : line_of r line nl rest →
  pre ++ r = (pre ++ line ++ nl) ++ rest ∧ length pre + length line + length nl = length (pre ++ line ++ nl).
Proof. intros ->%line_of_app. by rewrite <- !app_assoc, !length_app, Nat.add_assoc. Qed.

Lemma heredoc_loop_fails d r e : heredoc_fails d r e → ∀ pre fuel end_index, length r < fuel →
  heredoc_loop fuel (pre ++ r) d (length pre) end_index = Some (Err e).
Proof.
  induction 1 as [|r line Hl Hd|r line nl r' e Hl Hd Hn H IH]; intros pre fuel ei Hf;
    (destruct fuel as [|fuel]; [lia|]); cbn [heredoc_loop].
  - by rewrite app_nil_r, read_line_end.
  - rewrite (read_line_at _ _ _ _ _ Hl). by rewrite bool_decide_eq_false_2.
  - rewrite (read_line_at _ _ _ _ _ Hl). rewrite bool_decide_eq_false_2 by done.
    destruct nl as [|x nl]; [done|]. cbn [newline_of].
    destruct (read_line_next pre _ _ _ _ Hl) as [-> ->]. apply IH. apply line_of_shorter in Hl. lia.
Qed.

Lemma heredoc_loop_closes d r ls rest : heredoc_lines d r ls rest → ∀ pre fuel end_index, length r < fuel →
  heredoc_loop fuel (pre ++ r) d (length pre) end_index =
    Some (Ok (length pre + length r - length rest,
              match ls with [] => end_index | _ => length pre + length (heredoc_value ls) end)).
Proof.
  induction 1 as [r nl rest Hl|r line nl r' ls rest Hl Hd Hn H IH]; intros pre fuel ei Hf;
    (destruct fuel as [|fuel]; [lia|]); cbn [heredoc_loop]; rewrite (read_line_at _ _ _ _ _ Hl).
  - rewrite bool_decide_eq_true_2 by done. apply line_of_app in Hl as ->. rewrite !length_app.
    do 3 f_equal. lia.
  - rewrite bool_decide_eq_false_2 by done.
    destruct nl as [|x nl]; [done|]. cbn [newline_of].
    assert (length r = length line + length (x :: nl) + length r') as Hr
      by (apply line_of_app in Hl as ->; rewrite !length_app; lia).
    destruct (read_line_next pre _ _ _ _ Hl) as [-> ->]. rewrite IH by (apply line_of_shorter in Hl; lia).
    rewrite !length_app. do 3 f_equal; [lia|].
    destruct ls as [|l ls]; [cbn; lia|].
    change (heredoc_value ((line, x :: nl) :: l :: ls)) with (line ++ (x :: nl) ++ heredoc_value (l :: ls)).
    rewrite !length_app. lia.
Qed.

Lemma before_iff i j : before i j = true ↔ ∃ n, i = Some n ∧ (∀ m, j = Some m → n < m).
Proof.
  destruct i as [n|], j as [m|]; unfold before; rewrite ?Nat.ltb_lt; naive_solver.
Qed.

Lemma starts_after_find pat n line : pat ≠ [] →
  starts_after pat n line ↔ (∀ m, find_bytes pat line = Some m → n ≤ m).
Proof.
  intros Hp. split.
  - intros H m (k & v & -> & -> & _)%find_bytes_Some; [|done]. by apply (H k v).
  - intros H a c He. destruct (find_bytes pat line) as [m|] eqn:E.
    + assert (E' := E). apply find_bytes_Some in E' as (k & v & _ & -> & Hf); [|done].
      specialize (H _ eq_refl). specialize (Hf a c He). lia.
    + apply find_bytes_None in E; [|done]. by destruct (E a c).
Qed.

Lemma find_pair line k v : pair_line line k v →
  find_bytes [61%N] line = Some (length k) ∧ before (Some (length k)) (find_bytes [60; 60]%N line) = true.
Proof.
  intros (-> & H1 & H2). split; [apply find_bytes_Some; [done|]; by exists k, v|].
  apply before_iff. exists (length k). split; [done|]. intros m Hm.
  assert (length k ≤ m) by (apply (starts_after_find [60; 60]%N _ (k ++ [61%N] ++ v)); done).
  destruct (decide (m = length k)) as [->|]; [exfalso|lia].
  apply find_bytes_Some in Hm as (k' & v' & He & Hk & _); [|done]. by apply app_inj_1 in He as [_ [=]].
Qed.

Lemma find_heredoc line k d : heredoc_line line k d →
  find_bytes [60; 60]%N line = Some (length k)
  ∧ before (find_bytes [61%N] line) (Some (length k)) = false
  ∧ before (Some (length k)) (find_bytes [61%N] line) = true.
Proof.
  intros (-> & H1 & H2). split; [apply find_bytes_Some; [done|]; by exists k, d|].
  destruct (find_bytes [61%N] _) as [m|] eqn:Hm; [|done]. unfold before. rewrite Nat.ltb_ge, Nat.ltb_lt.
  assert (length k ≤ m) by (apply (starts_after_find [61]%N _ (k ++ [60; 60]%N ++ d)); done).
  split; [done|]. destruct (decide (m = length k)) as [->|]; [exfalso|lia].
  apply find_bytes_Some in Hm as (k' & v' & He & Hk & _); [|done]. by apply app_inj_1 in He as [_ [=]].
Qed.

(** Every line is blank, a pair, the header of a heredoc or invalid. *)
Lemma line_cases line : line = [] ∨ (∃ k v, pair_line line k v) ∨ (∃ k d, heredoc_line line k d)
  ∨ (line ≠ [] ∧ occurs_not [61]%N line ∧ occurs_not [60; 60]%N line).
Proof.
  destruct line as [|x line]; [by left|right]. unfold pair_line, heredoc_line.
  destruct (find_bytes [61%N] (x :: line)) as [i|] eqn:Ei.
  - assert (E := Ei). apply find_bytes_Some in E as (k & v & E & -> & Hf); [|done].
    destruct (find_bytes [60; 60]%N (x :: line)) as [j|] eqn:Ej.
    + assert (E' := Ej). apply find_bytes_Some in E' as (k' & v' & E' & -> & Hf'); [|done].
      destruct (decide (length k ≤ length k')).
      * left. exists k, v. split_and!; [done|done|]. apply starts_after_find; [done|]. intros m. rewrite Ej. by intros [= <-].
      * right; left. exists k', v'. split_and!; [done|done|]. apply starts_after_find; [done|].
        intros m. rewrite Ei. intros [= <-]. lia.
    + left. exists k, v. split_and!; [done|done|]. apply starts_after_find; [done|]. intros m. by rewrite Ej.
  - destruct (find_bytes [60; 60]%N (x :: line)) as [j|] eqn:Ej.
    + assert (E' := Ej). apply find_bytes_Some in E' as (k' & v' & E' & -> & Hf'); [|done].
      right; left. exists k', v'. split_and!; [done|done|]. apply starts_after_find; [done|]. intros m. by rewrite Ei.
    + right; right. split; [done|]. split; by apply find_bytes_None.
Qed.

Lemma heredoc_exists d n r : length r < n →
  (∃ ls rest, heredoc_lines d r ls rest ∧ length rest < length r) ∨ (∃ e, heredoc_fails d r e).
Proof.
  revert r. induction n as [|n IH]; intros r Hr; [lia|].
  destruct (decide (r = [])) as [->|Hne]; [right; eexists; constructor|].
  apply line_of_exists in Hne as (line & nl & r' & Hl). assert (Hs := line_of_shorter _ _ _ _ Hl).
  destruct (decide (line = d)) as [->|Hd]; [left; exists [], r'; split; [by econstructor|done]|].
  destruct (decide (nl = [])) as [->|Hn].
  { inversion Hl; subst. right. eexists. by eapply heredoc_no_newline. }
  destruct (IH r') as [(ls & rest & H & ?)|(e & H)]; [lia| |].
  - left. exists ((line, nl) :: ls), rest. split; [by econstructor|lia].
  - right. exists e. by econstructor.
Qed.

Lemma kv_run_exists n r : length r < n → ∃ es o, kv_run r es o.
Proof.
  revert r. induction n as [|n IH]; intros r Hr; [lia|].
  destruct (decide (r = [])) as [->|Hne]; [eexists _, _; constructor|].
  apply line_of_exists in Hne as (line & nl & r' & Hl). assert (Hs := line_of_shorter _ _ _ _ Hl).
  destruct (line_cases line) as [->|[(k & v & Hp)|[(k & d & Hh)|(? & ? & ?)]]].
  - destruct (IH r') as (es & o & H); [lia|]. eexists _, _. by econstructor.
  - destruct (decide (k = [])) as [->|Hk]; [eexists _, _; by eapply kv_empty_name|].
    destruct (IH r') as (es & o & H); [lia|]. eexists _, _. by eapply kv_pair.
  - destruct (decide (k = [])) as [Hk|Hk]; [eexists _, _; eapply kv_empty_part; [done..|by left]|].
    destruct (decide (d = [])) as [Hd|Hd]; [eexists _, _; eapply kv_empty_part; [done..|by right]|].
    destruct (heredoc_exists d (S (length r')) r') as [(ls & rest & H & ?)|(e & H)]; [lia| |].
    + destruct (IH rest) as (es & o & H'); [lia|]. eexists _, _. by eapply kv_heredoc_entry.
    + eexists _, _. by eapply kv_open_heredoc.
  - eexists _, _. by eapply kv_bad_line.
Qed.

Lemma heredoc_lines_rest d r ls rest : heredoc_lines d r ls rest → ∃ mid, r = mid ++ rest.
Proof.
  induction 1 as [r nl rest H|r line nl r' ls rest H _ _ _ [mid IH]]; apply line_of_app in H as ->.
  - exists (d ++ nl). by rewrite <- app_assoc.
  - exists (line ++ nl ++ mid). by rewrite IH, <- !app_assoc.
Qed.

Lemma heredoc_value_prefix d r ls rest : heredoc_lines d r ls rest → ∃ s, r = heredoc_value ls ++ s.
Proof.
  induction 1 as [r nl rest H|r line nl r' ls rest H _ _ _ [s IH]]; [by exists r|]. apply line_of_app in H as ->.
  destruct ls as [|l ls]; [by eexists|]. exists s.
  change (heredoc_value ((line, nl) :: l :: ls)) with (line ++ nl ++ heredoc_value (l :: ls)).
  by rewrite IH, <- !app_assoc.
Qed.

(** The slice the loop takes for the value. *)
Lemma heredoc_output P d r ls rest : heredoc_lines d r ls rest →
  let e := match ls with [] => length P | _ => length P + length (heredoc_value ls) end in
  (if length P <? e then slice (P ++ r) (length P) e else []) = heredoc_value ls.
Proof.
  intros [s ->]%heredoc_value_prefix. cbv zeta. destruct ls as [|l ls]; [by rewrite Nat.ltb_irrefl|].
  rewrite slice_app. destruct (Nat.ltb_spec (length P) (length P + length (heredoc_value (l :: ls)))); [done|].
  symmetry. apply length_zero_iff_nil. lia.
Qed.

Lemma match_cons {A B} (l : list A) (a b : B) : l ≠ [] → match l with [] => a | _ :: _ => b end = b.
Proof. by destruct l. Qed.

Lemma app_mid_ne {A} (k m v : list A) : m ≠ [] → k ++ m ++ v ≠ [].
Proof. by destruct k, m. Qed.

Lemma drop_after {A} (k m v : list A) : drop (length k + length m) (k ++ m ++ v) = v.
Proof. rewrite app_assoc, <- length_app. apply drop_app_length. Qed.

Lemma parse_loop_run r es o : kv_run r es o → ∀ pre fuel acc, length r < fuel →
  parse_loop fuel (pre ++ r) (length pre) acc = Some (kv_outcome acc es o).
Proof.
  induction 1 as [|r nl rest es o Hl H IH|r line nl rest k v es o Hl Hp Hk H IH
    |r line nl rest k d ls rest' es o Hl Hh Hk Hd Hb H IH|r line nl rest v Hl Hp|r line nl rest k d Hl Hh He
    |r line nl rest k d e Hl Hh Hk Hd Hb|r line nl rest Hl Hne H1 H2]; intros pre fuel acc Hf;
    (destruct fuel as [|fuel]; [lia|]); cbn [parse_loop];
    [by rewrite app_nil_r, read_line_end|..]; rewrite (read_line_at _ _ _ _ _ Hl);
    assert (Hs := line_of_shorter _ _ _ _ Hl); destruct (read_line_next pre _ _ _ _ Hl) as [-> ->].
  - apply IH. lia.
  - destruct (find_pair _ _ _ Hp) as [-> ->]. destruct Hp as (-> & _). rewrite match_cons by by apply app_mid_ne.
    cbn [from_option id]. rewrite take_app_length, bool_decide_eq_false_2 by done.
    change 1 with (length [61%N]). rewrite drop_after. apply IH. lia.
  - destruct (find_heredoc _ _ _ Hh) as (-> & -> & ->). destruct Hh as (-> & _).
    rewrite match_cons by by apply app_mid_ne. cbn [from_option id].
    rewrite take_app_length. change 2 with (length [60; 60]%N). rewrite drop_after, !bool_decide_eq_false_2 by done.
    cbn [orb]. rewrite (heredoc_loop_closes _ _ _ _ Hb) by lia. cbn [mbind option_bind].
    rewrite (heredoc_output _ _ _ _ _ Hb).
    destruct (heredoc_lines_rest _ _ _ _ Hb) as [mid ->]. rewrite app_assoc, !length_app.
    replace (_ - length rest') with (length ((pre ++ (k ++ [60; 60]%N ++ d) ++ nl) ++ mid)) by (rewrite !length_app; lia).
    apply IH. rewrite length_app in Hs. lia.
  - destruct (find_pair _ _ _ Hp) as [-> ->]. destruct Hp as (-> & _). by rewrite match_cons by by apply app_mid_ne.
  - destruct (find_heredoc _ _ _ Hh) as (-> & -> & ->). destruct Hh as (-> & _).
    rewrite match_cons by by apply app_mid_ne. cbn [from_option id].
    rewrite take_app_length. change 2 with (length [60; 60]%N). rewrite drop_after.
    destruct He as [->| ->]; [done|]. by rewrite (bool_decide_eq_true_2 ([] = [])), orb_true_r.
  - destruct (find_heredoc _ _ _ Hh) as (-> & -> & ->). destruct Hh as (-> & _).
    rewrite match_cons by by apply app_mid_ne. cbn [from_option id].
    rewrite take_app_length. change 2 with (length [60; 60]%N). rewrite drop_after, !bool_decide_eq_false_2 by done.
    cbn [orb]. by rewrite (heredoc_loop_fails _ _ _ Hb) by lia.
  - apply find_bytes_None in H1, H2; [|done..]. rewrite H1, H2. by rewrite match_cons.
Qed.

Lemma parse_kv_iff text res :
  parse_kv_text text = Some res ↔ ∃ es o, kv_run text es o ∧ res = kv_outcome ∅ es o.
Proof.
  assert (∀ es o, kv_run text es o → parse_kv_text text = Some (kv_outcome ∅ es o)) as Hrun.
  { intros es o H. apply (parse_loop_run _ _ _ H []). lia. }
  split.
  - intros H. destruct (kv_run_exists (S (length text)) text) as (es & o & Hr); [lia|].
    exists es, o. split; [done|]. rewrite (Hrun _ _ Hr) in H. by injection H.
  - intros (es & o & H & ->). by apply Hrun.
Qed.

Lemma parse_kv_text_total text : ∃ res, parse_kv_text text = Some res.
Proof.
  destruct (kv_run_exists (S (length text)) text) as (es & o & Hr); [lia|].
  exists (kv_outcome ∅ es o). apply (parse_loop_run _ _ _ Hr []). lia.
Qed.

(** C38: the text of a file is read as the format says: every text has exactly one
    result, which the loops reach, and it is the map of the entries of the
    text's reading or the error that ends it. *)
Theorem parse_kv_spec text :
  (∃ res, parse_kv_text text = Some res)
  ∧ ∀ res, parse_kv_text text = Some res ↔ ∃ es o, kv_run text es o ∧ res = kv_outcome ∅ es o.
Proof. split; [apply parse_kv_text_total|]. intros res. apply parse_kv_iff. Qed.

Lemma parse_kv_file_total f : ∃ res, parse_kv_file f = Some res.
Proof.
  unfold parse_kv_file. destruct (exists_at f); [|by eexists]. destruct (read_file_command f); [|by eexists].
  apply parse_kv_text_total.
Qed.

(** ** Writing an entry

    What an action writes for a value: the name, a delimiter the value does not
    hold, the value and the delimiter. *)
Definition render_entry (e : bytes * bytes * bytes) : bytes :=
  let '(k, d, v) := e in k ++ [60; 60]%N ++ d ++ [10]%N ++ v ++ [10]%N ++ d ++ [10]%N.

Definition entry_ok (e : bytes * bytes * bytes) : Prop :=
  let '(k, d, v) := e in
  k ≠ [] ∧ (10%N ∉ k) ∧ (61%N ∉ k) ∧ starts_after [60; 60]%N (length k) (k ++ [60; 60]%N ++ d)
  ∧ d ≠ [] ∧ (10%N ∉ d) ∧ last d ≠ Some 13%N ∧ last v ≠ Some 13%N ∧ occurs_not d v.

Lemma heredoc_lines_render d rest n v : length v < n →
  10%N ∉ d → last d ≠ Some 13%N → last v ≠ Some 13%N → occurs_not d v →
  ∃ ls, heredoc_lines d (v ++ [10]%N ++ d ++ [10]%N ++ rest) ls rest ∧ heredoc_value ls = v ∧ ls ≠ [].
Proof.
  intros Hn Hd Hd13. revert v Hn. induction n as [|n IH]; intros v Hn Hv Ho; [lia|].
  assert (heredoc_lines d (d ++ [10]%N ++ rest) [] rest) as Hc by (eapply heredoc_close; by constructor).
  destruct (find_bytes [10%N] v) as [i|] eqn:E.
  - apply find_bytes_Some in E as (k & v' & -> & _ & Hf); [|done]. apply starts_after_single in Hf.
    rewrite !length_app in Hn. cbn [length] in Hn.
    assert (last v' ≠ Some 13%N) as Hv'.
    { intros H. apply Hv. rewrite !last_app, H. done. }
    destruct (IH v') as (ls & Hl & Hval & Hne); [lia|done| |].
    { intros a c ->. apply (Ho (k ++ [10%N] ++ a) c). by rewrite <- !app_assoc. }
    destruct (decide (last k = Some 13%N)) as [Hk|Hk].
    + apply last_Some in Hk as [k' ->]. exists ((k', [13; 10]%N) :: ls). split_and!; [|destruct ls; [done|]|done].
      * eapply heredoc_more; [..|exact Hl]; [|intros ->; by apply (Ho [] ([13%N] ++ [10%N] ++ v')); rewrite <- !app_assoc|done].
        rewrite <- !app_assoc. apply (line_crlf k'). set_solver.
      * cbn [heredoc_value] in *. rewrite Hval. by rewrite <- !app_assoc.
    + exists ((k, [10]%N) :: ls). split_and!; [|destruct ls; [done|]|done].
      * eapply heredoc_more; [..|exact Hl]; [|by intros ->; apply (Ho [] ([10%N] ++ v'))|done].
        rewrite <- !app_assoc. by apply (line_lf k).
      * cbn [heredoc_value] in *. by rewrite Hval.
  - apply find_bytes_None in E; [|done]. apply occurs_not_single in E. exists [(v, [10]%N)]. split_and!; [|done|done].
    eapply heredoc_more; [by constructor|by intros ->; apply (Ho [] []); rewrite app_nil_r|done|done].
Qed.

Lemma kv_run_render e rest es o : entry_ok e → kv_run rest es o →
  kv_run (render_entry e ++ rest) ((e.1.1, e.2) :: es) o.
Proof.
  destruct e as [[k d] v]. intros (Hk & Hk10 & Hk61 & Hkk & Hd & Hd10 & Hd13 & Hv13 & Ho) H. cbn [render_entry fst snd].
  destruct (heredoc_lines_render d rest (S (length v)) v) as (ls & Hl & Hval & _); [lia|done..|].
  rewrite <- Hval at 2. rewrite <- !app_assoc.
  eapply kv_heredoc_entry; [|split_and!; [done|exact Hkk|]|done|done|exact Hl|done].
  - replace (k ++ [60; 60]%N ++ d ++ _) with ((k ++ [60; 60]%N ++ d) ++ [10]%N ++ v ++ [10]%N ++ d ++ [10]%N ++ rest)
      by by rewrite <- !app_assoc.
    constructor; [set_solver|]. rewrite !last_app. by destruct (last d) eqn:Ed; [|apply last_None in Ed].
  - intros a c He. destruct (decide (length k ≤ length a)) as [|Hlt]; [done|]. exfalso. apply Hk61.
    apply app_eq_inv in He as [(l & -> & He)|(l & -> & He)].
    + destruct l as [|y l]; [rewrite app_nil_r in Hlt; lia|]. injection He as -> He. set_solver.
    + rewrite length_app in Hlt. lia.
Qed.

(** Values written in the heredoc format, with delimiters that do not occur in
    them, are read back as written, in order, whatever lines they hold. *)
Theorem kv_file_roundtrip es : Forall entry_ok es →
  parse_kv_text (concat (render_entry <$> es)) = Some (Ok (collect ∅ ((λ e, (e.1.1, e.2)) <$> es))).
Proof.
  intros H. apply parse_kv_iff. exists ((λ e, (e.1.1, e.2)) <$> es), None. split; [|done].
  induction H as [|e es He _ IH]; [constructor|]. by apply kv_run_render.
Qed.

Section roundtrip_witness.
Let entries : list (bytes * bytes * bytes) :=
  [(Utf8.bytes "NAME", Utf8.bytes "EOF", Utf8.bytes "a=b" ++ [13; 10]%N ++ Utf8.bytes "X<<Y")].
Lemma kv_file_roundtrip_witness :
  parse_kv_text (concat (render_entry <$> entries)) = Some (Ok (collect ∅ ((λ e, (e.1.1, e.2)) <$> entries))).
Proof.
  apply kv_file_roundtrip. apply Forall_singleton. unfold entry_ok.
  split_and!; try by vm_compute.
  - by apply (bool_decide_unpack _); vm_compute.
  - by apply (bool_decide_unpack _); vm_compute.
  - apply starts_after_find; [done|]. intros m. vm_compute. by intros [= <-].
  - by apply (bool_decide_unpack _); vm_compute.
  - apply find_bytes_None; [done|]. by vm_compute.
Defined.
End roundtrip_witness.

(** ** What a step's files do to the job *)

Lemma foldl_insert_all {A} (skip : string → bool) (l : list (string * A)) (m : gmap string A) k : NoDup l.*1 →
  foldl (λ m '(k, v), if skip k then m else <[k := v]> m) m l !! k =
    if skip k then m !! k else match (list_to_map l : gmap string A) !! k with Some v => Some v | None => m !! k end.
Proof.
  revert m. induction l as [|[k' v'] l IH]; intros m Hnd; cbn; [by rewrite lookup_empty; destruct (skip k)|].
  apply NoDup_cons in Hnd as [Hk' Hnd]. rewrite IH by done. destruct (skip k') eqn:E'.
  - destruct (skip k) eqn:E; [done|]. rewrite lookup_insert_ne; [done|]. intros ->. congruence.
  - destruct (skip k) eqn:E; [rewrite lookup_insert_ne; [done|]; intros ->; congruence|].
    destruct (decide (k' = k)) as [->|Hne].
    + rewrite !lookup_insert_eq. by rewrite not_elem_of_list_to_map_1.
    + by rewrite !lookup_insert_ne.
Qed.

Lemma lookup_insert_all vars m k : insert_all vars m !! k = match vars !! k with Some v => Some v | None => m !! k end.
Proof.
  unfold insert_all. etransitivity; [apply (foldl_insert_all (λ _, false))|].
  - apply NoDup_fst_map_to_list.
  - by rewrite list_to_map_to_list.
Qed.

Lemma insert_all_union vars m : insert_all vars m = vars ∪ m.
Proof. apply map_eq. intros k. rewrite lookup_insert_all, lookup_union. by destruct (vars !! k), (m !! k). Qed.

Definition blocked (k : string) : bool := eq_ignore_ascii_case k "NODE_OPTIONS".

Lemma apply_env_file_env vars j :
  env (apply_env_file vars j) = filter (λ kv, blocked kv.1 = false) vars ∪ env j.
Proof.
  apply map_eq. intros k. unfold apply_env_file, apply_env. cbn [env with_job_env].
  rewrite (foldl_insert_all blocked) by apply NoDup_fst_map_to_list.
  rewrite list_to_map_to_list, lookup_union. destruct (blocked k) eqn:E.
  - rewrite (proj2 (map_lookup_filter_None _ _ _)) by (right; intros v _; cbn; congruence).
    by destruct (env j !! k).
  - destruct (vars !! k) as [v|] eqn:Ev.
    + rewrite (proj2 (map_lookup_filter_Some _ _ _ _)) by done. by destruct (env j !! k).
    + rewrite (proj2 (map_lookup_filter_None _ _ _)) by by left. by destruct (env j !! k).
Qed.

Lemma apply_paths_spec paths j : extra_path (apply_paths paths j) = paths ++ extra_path j.
Proof.
  unfold apply_paths. cbn. generalize (extra_path j) as acc. induction paths as [|p paths IH] using rev_ind; intros acc; [done|].
  rewrite reverse_snoc. cbn. rewrite IH. by rewrite <- app_assoc.
Qed.

Section applied.
Context {AF : ArtifactFiles}.

Lemma declare_subjects_other parsed j j' r : declare_subjects parsed j = (r, j') →
  j' = with_subjects (artifact_subjects j') j.
Proof.
  revert j. induction parsed as [|[n s] parsed IH]; intros j; cbn [declare_subjects].
  { intros [= <- <-]. by destruct j. }
  destruct (imap_get _ _); [destruct (bool_decide _)|destruct (_ <=? _)].
  - apply IH.
  - intros [= <- <-]. by destruct j.
  - intros [= <- <-]. by destruct j.
  - intros H. rewrite (IH _ H) at 1. by destruct j.
Qed.

Lemma process_artifacts_other f j j' r : process_artifacts_file f j = (r, j') →
  j' = with_subjects (artifact_subjects j') j.
Proof.
  assert (j = with_subjects (artifact_subjects j) j) as Hj by by destruct j.
  unfold process_artifacts_file. destruct (_ =? _)%N; [by intros [= <- <-]|].
  destruct (_ <? _)%N; [by intros [= <- <-]|]. destruct f; try by intros [= <- <-].
  destruct (utf8_check _ _); [by intros [= <- <-]|].
  destruct (parse_artifact_lines _ _ _); [apply declare_subjects_other|by intros [= <- <-]].
Qed.

(** A step cannot set [NODE_OPTIONS], in any case of letters, whatever it
    writes and whether or not a file is refused. *)
Theorem node_options_blocked runner_env paths step_id j k :
  blocked k = true →
  env (apply_file_commands runner_env paths step_id j).2 !! k = env j !! k
  ∧ env (apply_file_commands_to_job paths j).2 !! k = env j !! k.
Proof.
  intros Hk. assert (∀ vars, env (apply_env_file vars j) !! k = env j !! k) as Henv.
  { intros vars. rewrite apply_env_file_env, lookup_union_r; [done|].
    apply map_lookup_filter_None. right. intros v _. cbn. congruence. }
  assert (∀ vars i, env (apply_outputs step_id vars i) = env i) as Hout.
  { intros vars i. unfold apply_outputs. by destruct (steps i !! step_id). }
  assert (∀ vars i, env (apply_state step_id vars i) = env i) as Hst.
  { intros vars i. unfold apply_state. by destruct (bool_decide _). }
  unfold apply_file_commands, apply_file_commands_to_job. split.
  - destruct (kv_of (env_file paths)); [|done]. destruct (parse_path_file _); [|cbn; apply Henv].
    destruct (kv_of (output_file paths)); [|cbn; apply Henv].
    destruct (kv_of (state_file paths)); [|cbn; rewrite Hout; apply Henv].
    destruct (_ && _); [|cbn; rewrite Hst, Hout; apply Henv].
    destruct (process_artifacts_file _ _) as [r j'] eqn:E. apply process_artifacts_other in E as ->.
    cbn. rewrite Hst, Hout. apply Henv.
  - destruct (kv_of (env_file paths)); [|done]. destruct (parse_path_file _); cbn; apply Henv.
Qed.

(** What is read from each file is applied as a whole: later values win over
    the job's, the paths go in front in file order, outputs only reach a step
    the job knows, and state goes to the action the hook belongs to. *)
Theorem apply_file_commands_spec runner_env paths step_id j vars ps outs st :
  kv_of (env_file paths) = Ok vars → parse_path_file (path_file paths) = Ok ps →
  kv_of (output_file paths) = Ok outs → kv_of (state_file paths) = Ok st →
  let j' := (apply_file_commands runner_env paths step_id j).2 in
  env j' = filter (λ kv, blocked kv.1 = false) vars ∪ env j
  ∧ extra_path j' = ps ++ extra_path j
  ∧ (∀ sid, outputs <$> steps j' !! sid =
       (λ r, if decide (sid = step_id) then outs ∪ outputs r else outputs r) <$> steps j !! sid)
  ∧ (∀ sid, default ∅ (state j' !! sid) =
       if decide (sid = state_step_id step_id) then st ∪ default ∅ (state j !! sid) else default ∅ (state j !! sid)).
Proof.
  intros He Hp Ho Hs. cbv zeta. unfold apply_file_commands. rewrite He, Hp, Ho, Hs.
  set (j1 := apply_state _ _ _).
  assert (∃ m, (if artifacts_feature_enabled runner_env j1 && exists_at (artifacts_file paths)
    then process_artifacts_file (artifacts_file paths) j1 else (Ok (), j1)).2 = with_subjects m j1) as [m ->].
  { destruct (_ && _); [|exists (artifact_subjects j1); by destruct j1].
    destruct (process_artifacts_file _ _) as [r j'] eqn:E. apply process_artifacts_other in E. by eexists. }
  assert (apply_state step_id st (apply_outputs step_id outs (apply_paths ps (apply_env_file vars j))) = j1) by done.
  subst j1. cbn. unfold apply_state, apply_outputs. change (steps (apply_paths ps (apply_env_file vars j))) with (steps j).
  split_and!.
  - rewrite <- apply_env_file_env. destruct (bool_decide _), (steps j !! step_id); done.
  - transitivity (extra_path (apply_paths ps (apply_env_file vars j)));
      [destruct (bool_decide _), (steps j !! step_id); done|by rewrite apply_paths_spec].
  - intros sid. transitivity (outputs <$> steps match steps j !! step_id with
      | Some r => with_steps (<[step_id:=mkStepResult (outcome r) (conclusion r) (insert_all outs (outputs r))]> (steps j))
          (apply_paths ps (apply_env_file vars j)) | None => apply_paths ps (apply_env_file vars j) end !! sid);
      [by destruct (bool_decide _)|].
    destruct (decide (sid = step_id)) as [->|Hne].
    + destruct (steps j !! step_id) as [r|] eqn:E; cbn.
      * by rewrite lookup_insert_eq, <- insert_all_union.
      * by rewrite E.
    + destruct (steps j !! step_id) as [r|] eqn:E; cbn; [rewrite lookup_insert_ne by done|]; by destruct (steps j !! sid).
  - intros sid. destruct (bool_decide (st = ∅)) eqn:Est.
    + apply bool_decide_eq_true in Est as ->. rewrite (left_id_L ∅ (∪)).
      destruct (decide _), (steps j !! step_id); done.
    + transitivity (default ∅ ((<[state_step_id step_id:=insert_all st (default ∅ (state j !! state_step_id step_id))]> (state j)) !! sid));
        [by destruct (steps j !! step_id)|].
      destruct (decide _) as [->|]; [by rewrite lookup_insert_eq, insert_all_union|by rewrite lookup_insert_ne].
Qed.

(** ** The declared artifacts *)

(** A subject is filed under its name, once, and there are at most 500. *)
Definition subjects_wf (m : imap ArtifactSubject) : Prop :=
  NoDup m.*1 ∧ Forall (λ '(k, s), k = name s) m ∧ length m ≤ ARTIFACTS_MAX_AGGREGATE.

Lemma declare_subjects_spec parsed j j' r : declare_subjects parsed j = (r, j') →
  subjects_wf (artifact_subjects j) →
  subjects_wf (artifact_subjects j')
  ∧ artifact_subjects j `prefix_of` artifact_subjects j'
  ∧ (r = Ok () → Forall (λ '(_, s), ∃ s', imap_get (name s) (artifact_subjects j') = Some s' ∧ digest s' = digest s) parsed).
Proof.
  revert j. induction parsed as [|[n s] parsed IH]; intros j; cbn [declare_subjects].
  { intros [= <- <-] H. split_and!; [done|done|by constructor]. }
  intros H Hwf. destruct (imap_get (name s) (artifact_subjects j)) as [s0|] eqn:E.
  - destruct (bool_decide (digest s0 = digest s)) eqn:Ed.
    + apply bool_decide_eq_true in Ed. destruct (IH _ H Hwf) as (Hwf' & [x Hx] & Hok). split_and!; [done|by exists x|].
      intros Hr. constructor; [|by apply Hok]. exists s0. split; [|done].
      apply elem_of_imap_get; [apply Hwf'|]. rewrite Hx. apply elem_of_app. left. by apply imap_get_elem_of.
    + injection H as <- <-. split_and!; [done|done|done].
  - destruct (Nat.leb_spec ARTIFACTS_MAX_AGGREGATE (length (artifact_subjects j))) as [Hl|Hl].
    { injection H as <- <-. split_and!; [done|done|done]. }
    destruct Hwf as (Hnd & Hn & Hlen). apply imap_get_None in E as Hf. cbn [with_subjects] in *.
    assert (imap_insert (name s) s (artifact_subjects j) = artifact_subjects j ++ [(name s, s)]) as Hi
      by by apply imap_insert_fresh.
    destruct (IH _ H) as (Hwf' & Hp & Hok).
    { cbn [artifact_subjects with_subjects]. split_and!; [by apply imap_insert_NoDup|..]; rewrite Hi.
      - apply Forall_app. split; [done|]. by apply Forall_singleton.
      - rewrite length_app. cbn [length]. lia. }
    cbn [artifact_subjects with_subjects] in *. rewrite Hi in Hp. destruct Hp as [x Hx].
    split_and!; [done|exists ((name s, s) :: x); by rewrite Hx, <- app_assoc|].
    intros Hr. constructor; [|by apply Hok]. exists s. split; [|done].
    apply elem_of_imap_get; [apply Hwf'|]. rewrite Hx. set_solver.
Qed.

(** The list of declared artifacts only grows at its end: an artifact keeps its
    digest for the whole job, there is one per name, never more than 500, and a
    file with a malformed entry adds none. *)
Theorem declared_artifacts_stable f j :
  subjects_wf (artifact_subjects j) →
  let '(r, j') := process_artifacts_file f j in
  subjects_wf (artifact_subjects j')
  ∧ artifact_subjects j `prefix_of` artifact_subjects j'
  ∧ ((∃ content e, f = Regular content ∧ parse_artifact_lines 1 (lines content) (workspace j) = Err e) → j' = j).
Proof.
  intros Hwf. destruct (process_artifacts_file f j) as [r j'] eqn:E. unfold process_artifacts_file in E.
  destruct (_ =? _)%N; [by injection E as <- <-|]. destruct (_ <? _)%N; [by injection E as <- <-|].
  destruct f as [| | |content]; try by injection E as <- <-.
  destruct (utf8_check _ _); [by injection E as <- <-|].
  destruct (parse_artifact_lines _ _ _) as [parsed|e] eqn:Ep; [|by injection E as <- <-].
  destruct (declare_subjects_spec _ _ _ _ E Hwf) as (H1 & H2 & _). split_and!; [done|done|].
  intros (c & e & [= <-] & He). congruence.
Qed.

End applied.

#[local] Instance one_file : ArtifactFiles := {|
  current_dir := "/w"; file_at := λ p, if bool_decide (p = "/w/a") then Regular [120%N] else Absent;
  sha256_hex := λ _, "00" |}.

Definition read_ok (f : FileAt) : gmap string string := match kv_of f with Ok m => m | Err _ => ∅ end.
Lemma read_ok_spec f : is_ok (kv_of f) = true → kv_of f = Ok (read_ok f).
Proof. unfold read_ok. by destruct (kv_of f). Qed.

Section witnesses.
Let job : JobContext :=
  mkJob {["NODE_OPTIONS" := "x"]} ["/bin"] {["s" := mkStepResult "success" "success" ∅]} ∅ (Some "true") [] (Some "/w").
Let text (s : string) : FileAt := Regular (Utf8.bytes s).
Let paths : FileCommandPaths :=
  mkPaths (text "Node_Options=y") (text "/opt") (text "o=1") (text "k=2") (text "a").

Lemma node_options_blocked_witness :
  env (apply_file_commands None paths "s" job).2 !! "NODE_OPTIONS" = env job !! "NODE_OPTIONS"
  ∧ env (apply_file_commands_to_job paths job).2 !! "NODE_OPTIONS" = env job !! "NODE_OPTIONS".
Proof. apply (@node_options_blocked one_file). by vm_compute. Defined.

Lemma apply_file_commands_spec_witness :
  extra_path (apply_file_commands None paths "__post_s" job).2 = ["/opt"; "/bin"].
Proof.
  refine (proj1 (proj2 (@apply_file_commands_spec one_file None paths "__post_s" job
    (read_ok (env_file paths)) ["/opt"] (read_ok (output_file paths)) (read_ok (state_file paths)) _ _ _ _)));
    [apply read_ok_spec|..|apply read_ok_spec|apply read_ok_spec]; by vm_compute.
Defined.

Lemma declared_artifacts_stable_witness :
  subjects_wf (artifact_subjects (process_artifacts_file (text "a") job).2)
  ∧ (process_artifacts_file (text "a") job).1 = Ok ().
Proof.
  assert (subjects_wf (artifact_subjects job)) as Hwf
    by (split_and!; [constructor|constructor|apply Nat.leb_le; by vm_compute]).
  assert (H := @declared_artifacts_stable one_file (text "a") job Hwf).
  split; [|by vm_compute]. destruct (process_artifacts_file (text "a") job) as [r j']. apply H.
Defined.

(** A conflict is found after entries before it were declared: the job keeps
    them although the file is refused. *)
Lemma conflict_keeps_earlier_entries :
  let refs := String.concat (String "010" EmptyString)
    ["a"; "r@sha256:" +:+ Utf8.of_bytes (repeat 48%N 64); "r@sha256:" +:+ Utf8.of_bytes (repeat 49%N 64)] in
  let '(r, j') := process_artifacts_file (text refs) job in
  is_ok r = false ∧ (artifact_subjects j').*1 = ["a"; "r"].
Proof. by vm_compute. Qed.
End witnesses.

(** The size a refused file is reported with is that of the bytes read, one
    more than the limit, whatever the size of the file. *)
Lemma size_limit_reports_1024 content kib :
  read_file_command (Regular content) = Err (SizeLimit kib) → kib = 1024%N.
Proof.
  unfold read_file_command. destruct (utf8_check _ _); [done|].
  destruct (N.ltb_spec FILE_COMMAND_MAX_BYTES (N.of_nat (length (take (N.to_nat (FILE_COMMAND_MAX_BYTES + 1)) content))))
    as [Hl|]; [|done].
  intros [= <-]. assert (length (take (N.to_nat (FILE_COMMAND_MAX_BYTES + 1)) content) ≤ N.to_nat (FILE_COMMAND_MAX_BYTES + 1))
    as Hle by (rewrite length_take; lia).
  generalize dependent (length (take (N.to_nat (FILE_COMMAND_MAX_BYTES + 1)) content)). intros n Hl Hle.
  assert (N.of_nat n = 1048577)%N as -> by (unfold FILE_COMMAND_MAX_BYTES in *; lia). done.
Qed.
