(* ===== verification/StepReports.v ===== *)
(** * Reports of the steps

    The queue through which the runner reports the state of its steps:
    [ServerQueue] of [crates/preloop-runner/src/worker/server_queue.rs] with the
    merge of [step_records.rs], and [flush_step_updates] of [reporting.rs] as a
    protocol between the queue and the server, in which updates arrive while a
    request is under way and requests fail.

    The temporary file of the job log is the text written to it; writing
    succeeds. *)
From S2P Require Import WorkerCommands.
From S2P Require Export Template.

(** ** Records *)

Definition IN_PROGRESS : N := 3.
Definition COMPLETED : N := 6.
Definition SUCCEEDED : N := 2.
Definition FAILED : N := 3.
Definition SKIPPED : N := 7.

Record StepUpdate : Type := mkUpdate {
  external_id : string;
  number : N;
  name : string;
  status : N;
  started_at : option string;
  completed_at : option string;
  conclusion : N;
}.

#[export] Instance StepUpdate_eq_dec : EqDecision StepUpdate.
Proof. solve_decision. Defined.

(** An omitted field keeps what is there. *)
Record PartialStepUpdate : Type := mkPartial {
  p_external_id : string;
  p_number : option N;
  p_name : option string;
  p_status : option N;
  p_started_at : option string;
  p_has_started_at : bool;
  p_completed_at : option string;
  p_has_completed_at : bool;
  p_conclusion : option N;
}.

Definition from_full (u : StepUpdate) : PartialStepUpdate :=
  mkPartial (external_id u) (Some (number u)) (Some (name u)) (Some (status u)) (started_at u) true
    (completed_at u) true (Some (conclusion u)).

Definition status_rank (s : N) : N :=
  if (s =? IN_PROGRESS)%N then 1 else if (s =? COMPLETED)%N then 2 else 0.

Definition merge_base (existing : option StepUpdate) (p : PartialStepUpdate) : StepUpdate :=
  match existing with
  | Some u => u
  | None => mkUpdate (p_external_id p) (default 0%N (p_number p)) (default "" (p_name p))
              (default 0%N (p_status p)) None None 0
  end.

Definition merge_status (old : N) (incoming : option N) : N :=
  match incoming with
  | Some s => if (status_rank old <=? status_rank s)%N then s else old
  | None => old
  end.

Definition merge_started (old : option string) (p : PartialStepUpdate) : option string :=
  if p_has_started_at p then match old with None => p_started_at p | Some _ => old end else old.

Definition merge_completed (old : option string) (p : PartialStepUpdate) : option string :=
  if p_has_completed_at p then match p_completed_at p with Some t => Some t | None => old end else old.

Definition merge_conclusion (old : N) (incoming : option N) : N :=
  match incoming with
  | Some c => if negb (c =? 0)%N || (old =? 0)%N then c else old
  | None => old
  end.

Definition merge_step_update (existing : option StepUpdate) (p : PartialStepUpdate) : StepUpdate :=
  let base := merge_base existing p in
  let s := merge_status (status base) (p_status p) in
  let c := merge_conclusion (conclusion base) (p_conclusion p) in
  let c :=
    match existing with
    | Some prev =>
        if (s =? COMPLETED)%N && (c =? 0)%N && negb (conclusion prev =? 0)%N then conclusion prev else c
    | None => c
    end in
  mkUpdate (p_external_id p) (default (number base) (p_number p)) (default (name base) (p_name p))
    s (merge_started (started_at base) p) (merge_completed (completed_at base) p) c.

Definition apply_step_update (store : gmap string StepUpdate) (p : PartialStepUpdate) :
    StepUpdate * gmap string StepUpdate :=
  let merged := merge_step_update (store !! p_external_id p) p in
  (merged, <[p_external_id p := merged]> store).

(** ** Reconciliation after a cancellation *)

Record DispatchedTask : Type := mkTask {
  t_external_id : string;
  t_number : N;
  t_name : string;
  synthetic : bool;
}.

Definition cancelled_record (t : DispatchedTask) (existing : option StepUpdate) (now : string) : StepUpdate :=
  match existing with
  | Some u =>
      mkUpdate (external_id u) (if (number u =? 0)%N then t_number t else number u)
        (if str_eqb (name u) "" then t_name t else name u) COMPLETED (started_at u)
        (Some (default now (completed_at u))) FAILED
  | None => mkUpdate (t_external_id t) (t_number t) (t_name t) COMPLETED None (Some now) FAILED
  end.

Definition reconciled (received : gmap string StepUpdate) (now : string) (t : DispatchedTask) : StepUpdate :=
  match received !! t_external_id t with
  | Some u => if (status u =? COMPLETED)%N then u else cancelled_record t (Some u) now
  | None => cancelled_record t None now
  end.

Definition number_le (u v : StepUpdate) : Prop := (number u <= number v)%N.
#[export] Instance number_le_dec u v : Decision (number_le u v) := N.le_dec _ _.
#[export] Instance number_le_total : Total number_le.
Proof. intros u v. unfold number_le. lia. Qed.
#[export] Instance number_le_trans : Transitive number_le.
Proof. intros u v w. unfold number_le. lia. Qed.

(** The records in key order, then sorted by number. *)
Definition reconcile_cancelled_steps (dispatched : list DispatchedTask) (received : gmap string StepUpdate)
    (now : string) : list StepUpdate :=
  let out := foldl (λ out t, <[t_external_id t := reconciled received now t]> out)
               (∅ : gmap string StepUpdate) dispatched in
  merge_sort number_le (omap (λ k, out !! k) (btree_keys out)).

Definition count_cancelled (records : list StepUpdate) : nat :=
  length (filter (λ u, status u = COMPLETED ∧ conclusion u = FAILED) records).

(** ** The queue *)

Record ServerQueue : Type := mkQueue {
  all_steps : gmap string StepUpdate;
  dirty_keys : gset string;
  pending_keys : list string;
  pending_logs : gmap string (list string);
  job_log : string;
  change_order : N;
  steps_generation : N;
  published_generation : N;
  job_id : string;
  plan_id : string;
}.

Record StepsBody : Type := mkBody {
  b_steps : list StepUpdate;
  b_change_order : N;
  b_job_id : string;
  b_plan_id : string;
}.

Definition new_queue (job plan : string) : ServerQueue := mkQueue ∅ ∅ [] ∅ "" 0 0 0 job plan.

(** [wrapping_add(1)] on a [u64]. *)
Definition wrap_succ (g : N) : N := ((g + 1) mod 2 ^ 64)%N.

Definition queue_update (q : ServerQueue) (u : StepUpdate) : ServerQueue :=
  let key := external_id u in
  let existing := all_steps q !! key in
  let pending := if bool_decide (is_Some existing) then pending_keys q else pending_keys q ++ [key] in
  let merged := merge_step_update existing (from_full u) in
  if bool_decide (existing = Some merged) then
    mkQueue (all_steps q) (dirty_keys q) pending (pending_logs q) (job_log q) (change_order q)
      (steps_generation q) (published_generation q) (job_id q) (plan_id q)
  else
    mkQueue (<[key := merged]> (all_steps q)) ({[key]} ∪ dirty_keys q) pending (pending_logs q) (job_log q)
      (change_order q) (wrap_succ (steps_generation q)) (published_generation q) (job_id q) (plan_id q).

Definition with_dirty (d : gset string) (order : N) (published : N) (q : ServerQueue) : ServerQueue :=
  mkQueue (all_steps q) d (pending_keys q) (pending_logs q) (job_log q) order (steps_generation q)
    published (job_id q) (plan_id q).
Definition with_logs (logs : gmap string (list string)) (log : string) (q : ServerQueue) : ServerQueue :=
  mkQueue (all_steps q) (dirty_keys q) (pending_keys q) logs log (change_order q) (steps_generation q)
    (published_generation q) (job_id q) (plan_id q).

Definition queue_log_lines (q : ServerQueue) (step : string) (lines : list string) : ServerQueue :=
  with_logs (<[step := default [] (pending_logs q !! step) ++ lines]> (pending_logs q)) (job_log q) q.
Definition take_logs (q : ServerQueue) : gmap string (list string) * ServerQueue :=
  (pending_logs q, with_logs ∅ (job_log q) q).

(** A line break ends what is recorded, unless nothing is. *)
Definition record_step_logs (q : ServerQueue) (content : string) : ServerQueue :=
  let log := job_log q +:+ content in
  with_logs (pending_logs q)
    (if str_eqb content "" || bool_decide (is_Some (strip_suffix LF content)) then log else log +:+ LF) q.
Definition all_step_log_content (q : ServerQueue) : string := job_log q.

Definition has_step_updates (q : ServerQueue) : bool :=
  negb (steps_generation q =? published_generation q)%N.
Definition has_pending (q : ServerQueue) : bool :=
  has_step_updates q || negb (bool_decide (pending_logs q = ∅)).

Definition conclusion_to_proto `{UnicodeLower} (c : string) : N :=
  let c := to_lowercase c in
  if str_eqb c "success" || str_eqb c "succeeded" then SUCCEEDED
  else if str_eqb c "failure" || str_eqb c "failed" then FAILED
  else if str_eqb c "skipped" then SKIPPED
  else if str_eqb c "cancelled" || str_eqb c "canceled" then FAILED
  else SUCCEEDED.

Section queue.
Context `{HashOrder}.

Definition take_steps_update_body (q : ServerQueue) : option (StepsBody * N) * ServerQueue :=
  if negb (has_step_updates q) then (None, q)
  else
    let order := (change_order q + 1)%N in
    let steps := merge_sort number_le (omap (λ k, all_steps q !! k) (hash_order (dirty_keys q))) in
    (Some (mkBody steps order (job_id q) (plan_id q), steps_generation q),
     with_dirty ∅ order (published_generation q) q).

Definition mark_steps_published (q : ServerQueue) (generation : N) : ServerQueue :=
  with_dirty (dirty_keys q) (change_order q) (N.max (published_generation q) generation) q.

Definition requeue_steps (q : ServerQueue) (steps : list StepUpdate) : ServerQueue :=
  with_dirty (list_to_set (map external_id steps) ∪ dirty_keys q) (change_order q) (published_generation q) q.

(** [flush_step_updates] between its two accesses to the queue waits for the
    server's answer; here it is given. *)
Definition flush_step_updates (published : bool) (q : ServerQueue) : option StepsBody * ServerQueue :=
  match take_steps_update_body q with
  | (None, q) => (None, q)
  | (Some (body, generation), q) =>
      (Some body, if published then mark_steps_published q generation else requeue_steps q (b_steps body))
  end.

End queue.

(** ** Laws of the merge *)

Lemma merge_conclusion_kept old p : old ≠ 0%N → merge_conclusion old p ≠ 0%N.
Proof.
  unfold merge_conclusion. destruct p as [c|]; [|done]. intros Ho.
  destruct (c =? 0)%N eqn:Hc; simpl; [|by intros ->]. destruct (old =? 0)%N eqn:He; [|done].
  by apply N.eqb_eq in He.
Qed.

(** The last correction of the merge never changes anything. *)
Lemma merge_step_update_eq existing p :
  let base := merge_base existing p in
  merge_step_update existing p =
    mkUpdate (p_external_id p) (default (number base) (p_number p)) (default (name base) (p_name p))
      (merge_status (status base) (p_status p)) (merge_started (started_at base) p)
      (merge_completed (completed_at base) p) (merge_conclusion (conclusion base) (p_conclusion p)).
Proof.
  unfold merge_step_update. f_equal. destruct existing as [u|]; [|done]. cbn [merge_base].
  destruct (conclusion u =? 0)%N eqn:Hu; [by rewrite !andb_false_r|].
  apply N.eqb_neq in Hu. pose proof (merge_conclusion_kept _ (p_conclusion p) Hu) as Hc.
  apply N.eqb_neq in Hc. by rewrite Hc, andb_false_r.
Qed.

Lemma merge_status_ge old s : (status_rank old <= status_rank (merge_status old s))%N.
Proof. unfold merge_status. destruct s as [s|]; [|lia]. destruct (_ <=? _)%N eqn:He; [by apply N.leb_le|lia]. Qed.

Lemma merge_status_in old s : (status_rank s <= status_rank (merge_status old (Some s)))%N.
Proof. unfold merge_status. destruct (_ <=? _)%N eqn:He; [lia|apply N.leb_gt in He; lia]. Qed.

Lemma status_rank_completed s : status_rank s = 2%N ↔ s = COMPLETED.
Proof.
  unfold status_rank. destruct (s =? IN_PROGRESS)%N eqn:Hi.
  - apply N.eqb_eq in Hi as ->. by split.
  - destruct (s =? COMPLETED)%N eqn:Hc; [by apply N.eqb_eq in Hc as ->|]. apply N.eqb_neq in Hc. by split.
Qed.
Lemma status_rank_le s : (status_rank s <= 2)%N.
Proof. unfold status_rank. repeat case_match; lia. Qed.

Lemma merge_idempotent existing p :
  merge_step_update (Some (merge_step_update existing p)) p = merge_step_update existing p.
Proof.
  rewrite (merge_step_update_eq (Some _)), (merge_step_update_eq existing). cbn. f_equal.
  - by destruct (p_number p).
  - by destruct (p_name p).
  - set (old := status (merge_base existing p)). unfold merge_status.
    destruct (p_status p) as [s|]; [|done].
    destruct (status_rank old <=? status_rank s)%N eqn:Ho; [by rewrite N.leb_refl|by rewrite Ho].
  - unfold merge_started. destruct (p_has_started_at p); [|done].
    destruct (started_at (merge_base existing p)); [done|]. by destruct (p_started_at p).
  - unfold merge_completed. destruct (p_has_completed_at p); [|done]. by destruct (p_completed_at p).
  - set (old := conclusion (merge_base existing p)). unfold merge_conclusion.
    destruct (p_conclusion p) as [c|]; [|done]. destruct (c =? 0)%N eqn:Hz; [|done]. simpl.
    destruct (old =? 0)%N eqn:Ho; [by rewrite Hz|by rewrite Ho].
Qed.

(** What the merge of a full update keeps: it never goes back. *)
Lemma merge_grows existing u :
  let m := merge_step_update existing (from_full u) in
  external_id m = external_id u ∧ (status_rank (status u) <= status_rank (status m))%N ∧
  (conclusion u ≠ 0%N → conclusion m = conclusion u) ∧
  ∀ v, existing = Some v →
    (status_rank (status v) <= status_rank (status m))%N ∧ (conclusion v ≠ 0%N → conclusion m ≠ 0%N).
Proof.
  cbv zeta. rewrite merge_step_update_eq. cbn [external_id status conclusion from_full p_external_id p_status p_conclusion].
  split; [done|]. split; [apply merge_status_in|]. split.
  - intros Hu. unfold merge_conclusion. apply N.eqb_neq in Hu. by rewrite Hu.
  - intros v ->. split; [apply merge_status_ge|apply merge_conclusion_kept].
Qed.

(** ** The queue and the server *)
Section protocol.
Context `{HashOrder}.
Implicit Types (q : ServerQueue) (u : StepUpdate).

(** The queue, the request under way, and what the server was told last about
    each step. *)
Record Link : Type := mkLink {
  queue : ServerQueue;
  in_flight : option (StepsBody * N);
  server : gmap string StepUpdate;
}.

Definition receive (b : StepsBody) (known : gmap string StepUpdate) : gmap string StepUpdate :=
  foldl (λ m u, <[external_id u := u]> m) known (b_steps b).

Inductive LinkEvent : Type :=
| Reported (u : StepUpdate)
| FlushStarted
| Delivered
| Refused (applied : bool)
| Aborted (applied : bool).

(** One event.  A flush takes the lock, lets it go while it waits, and takes it
    again; flushes do not overlap.  A refused request may still have been
    applied; the task of an aborted one does not come back to the queue. *)
Definition link_step (e : LinkEvent) (l : Link) : option Link :=
  match e, in_flight l with
  | Reported u, f => Some (mkLink (queue_update (queue l) u) f (server l))
  | FlushStarted, None =>
      let '(f, q) := take_steps_update_body (queue l) in Some (mkLink q f (server l))
  | Delivered, Some (b, g) =>
      Some (mkLink (mark_steps_published (queue l) g) None (receive b (server l)))
  | Refused applied, Some (b, g) =>
      Some (mkLink (requeue_steps (queue l) (b_steps b)) None
        (if applied then receive b (server l) else server l))
  | Aborted applied, Some (b, g) =>
      Some (mkLink (queue l) None (if applied then receive b (server l) else server l))
  | _, _ => None
  end.

Fixpoint link_run (es : list LinkEvent) (l : Link) : option Link :=
  match es with
  | [] => Some l
  | e :: es => l ← link_step e l; link_run es l
  end.

Definition fresh (job plan : string) : Link := mkLink (new_queue job plan) None ∅.

Definition is_report (e : LinkEvent) : bool := match e with Reported _ => true | _ => false end.
Definition is_abort (e : LinkEvent) : bool := match e with Aborted _ => true | _ => false end.

(** Where an up-to-date record is: at the server, or on its way. *)
Record link_ok (l : Link) : Prop := {
  ok_keyed : ∀ k u, all_steps (queue l) !! k = Some u → external_id u = k;
  ok_dirty : ∀ k, k ∈ dirty_keys (queue l) → is_Some (all_steps (queue l) !! k);
  ok_server : ∀ k, is_Some (server l !! k) → is_Some (all_steps (queue l) !! k);
  ok_body : ∀ b g u, in_flight l = Some (b, g) → u ∈ b_steps b →
    is_Some (all_steps (queue l) !! external_id u);
  ok_clean : ∀ k u, all_steps (queue l) !! k = Some u → k ∉ dirty_keys (queue l) →
    match in_flight l with
    | Some (b, _) => (∀ v, v ∈ b_steps b → external_id v = k → v = u) ∧
                     (u ∈ b_steps b ∨ server l !! k = Some u)
    | None => server l !! k = Some u
    end;
  ok_generation :
    match in_flight l with
    | Some (_, g) => (published_generation (queue l) < g <= steps_generation (queue l))%N ∧
                     (dirty_keys (queue l) ≠ ∅ → (g < steps_generation (queue l))%N)
    | None => (published_generation (queue l) <= steps_generation (queue l))%N ∧
              (dirty_keys (queue l) ≠ ∅ → (published_generation (queue l) < steps_generation (queue l))%N)
    end;
}.

Lemma queue_update_steps q u :
  all_steps (queue_update q u) =
    <[external_id u := merge_step_update (all_steps q !! external_id u) (from_full u)]> (all_steps q).
Proof.
  unfold queue_update. case_bool_decide as Hm; cbn [all_steps]; [|done]. by rewrite insert_id.
Qed.

Lemma receive_lookup b known k :
  receive b known !! k =
    match last (filter (λ u, external_id u = k) (b_steps b)) with Some u => Some u | None => known !! k end.
Proof.
  unfold receive. generalize (b_steps b). clear b. intros us. induction us as [|u us IH] using rev_ind; [done|].
  rewrite foldl_app. cbn [foldl]. rewrite filter_app, filter_cons, filter_nil. case_decide as Hu.
  - subst k. by rewrite lookup_insert_eq, last_snoc.
  - rewrite lookup_insert_ne by done. by rewrite app_nil_r.
Qed.

Lemma receive_spec b known k u :
  (∀ v, v ∈ b_steps b → external_id v = k → v = u) → external_id u = k →
  u ∈ b_steps b ∨ known !! k = Some u → receive b known !! k = Some u.
Proof.
  intros Hv Hk Hu. rewrite receive_lookup.
  destruct (last _) as [v|] eqn:Hl.
  - apply last_Some_elem_of in Hl. apply list_elem_of_filter in Hl as [Hvk Hvb]. by rewrite (Hv v).
  - destruct Hu as [Hu|Hu]; [|done]. apply last_None in Hl.
    assert (u ∈ filter (λ u, external_id u = k) (b_steps b)) as Hf by (by apply list_elem_of_filter).
    rewrite Hl in Hf. by apply elem_of_nil in Hf.
Qed.

Lemma receive_known b known k :
  is_Some (receive b known !! k) → is_Some (known !! k) ∨ ∃ u, u ∈ b_steps b ∧ external_id u = k.
Proof.
  rewrite receive_lookup. destruct (last _) as [v|] eqn:Hl; [|by left]. intros _. right.
  apply last_Some_elem_of, list_elem_of_filter in Hl as [? ?]. eauto.
Qed.

Lemma receive_other b known k :
  (∀ u, u ∈ b_steps b → external_id u ≠ k) → receive b known !! k = known !! k.
Proof.
  intros Hb. rewrite receive_lookup. destruct (last _) as [v|] eqn:Hl; [|done].
  apply last_Some_elem_of, list_elem_of_filter in Hl as [Hk Hv]. by destruct (Hb v Hv).
Qed.

Lemma wrap_succ_small g : (g + 1 < 2 ^ 64)%N → wrap_succ g = (g + 1)%N.
Proof. intros Hg. unfold wrap_succ. by apply N.mod_small. Qed.

Lemma report_ok l u :
  link_ok l → (steps_generation (queue l) + 1 < 2 ^ 64)%N →
  link_ok (mkLink (queue_update (queue l) u) (in_flight l) (server l)) ∧
  (steps_generation (queue_update (queue l) u) <= steps_generation (queue l) + 1)%N.
Proof.
  intros [Hk Hd Hs Hb Hc Hg] Hn. unfold queue_update. case_bool_decide as Hm; [split; [by split|cbn; lia]|].
  cbn [steps_generation]. rewrite wrap_succ_small by done. split; [|done].
  set (m := merge_step_update _ _) in *.
  assert (∀ k, is_Some (all_steps (queue l) !! k) → is_Some (<[external_id u := m]> (all_steps (queue l)) !! k)) as Hin.
  { intros k Hi. destruct (decide (external_id u = k)) as [<-|Hne];
      [rewrite lookup_insert_eq; eauto|by rewrite lookup_insert_ne]. }
  split; cbn [queue in_flight server all_steps dirty_keys published_generation steps_generation].
  - intros k v. destruct (decide (external_id u = k)) as [<-|Hne].
    + rewrite lookup_insert_eq. intros [= <-]. apply (merge_grows _ u).
    + rewrite lookup_insert_ne by done. apply Hk.
  - intros k [->%elem_of_singleton|Hk']%elem_of_union; [rewrite lookup_insert_eq; eauto|by apply Hin, Hd].
  - intros k Hi. by apply Hin, Hs.
  - intros b g v Hf Hv. by apply Hin, (Hb b g).
  - intros k v Hv [Hne Hnd]%not_elem_of_union. apply not_elem_of_singleton in Hne.
    rewrite lookup_insert_ne in Hv by done. by apply Hc.
  - destruct (in_flight l) as [[b g]|]; split_and!; lia.
Qed.

Lemma elem_of_sorted_records q (d : gset string) u :
  u ∈ merge_sort number_le (omap (λ k, all_steps q !! k) (hash_order d)) ↔
  ∃ k, k ∈ d ∧ all_steps q !! k = Some u.
Proof.
  rewrite (merge_sort_Permutation number_le), list_elem_of_omap. setoid_rewrite hash_order_perm.
  setoid_rewrite elem_of_elements. done.
Qed.

Lemma take_ok l :
  link_ok l → in_flight l = None →
  let '(f, q) := take_steps_update_body (queue l) in link_ok (mkLink q f (server l)) ∧
    steps_generation q = steps_generation (queue l) ∧ all_steps q = all_steps (queue l).
Proof.
  intros [Hk Hd Hs Hb Hc Hg] Hf. unfold take_steps_update_body, has_step_updates.
  destruct (negb (negb _)) eqn:Hu.
  - split; [|done]. rewrite Hf in Hg, Hc. split; cbn [queue in_flight server]; try done.
  - split; [|done]. rewrite Hf in Hg. destruct Hg as [Hle Hlt].
    rewrite negb_involutive in Hu. apply N.eqb_neq in Hu.
    split; cbn [queue in_flight server with_dirty all_steps dirty_keys published_generation steps_generation].
    + done.
    + intros k []%not_elem_of_empty.
    + done.
    + intros b g u [= <- <-]. cbn [b_steps]. intros (k & _ & Hu')%elem_of_sorted_records.
      rewrite (Hk _ _ Hu'). eauto.
    + intros k u Hku _. cbn [b_steps]. split.
      * intros v (k' & _ & Hv)%elem_of_sorted_records Hvk. rewrite (Hk _ _ Hv) in Hvk. subst k'. congruence.
      * destruct (decide (k ∈ dirty_keys (queue l))) as [Hin|Hout].
        -- left. apply elem_of_sorted_records. eauto.
        -- right. specialize (Hc k u Hku Hout). by rewrite Hf in Hc.
    + split; [lia|done].
Qed.

(** An answered flush leaves the records of the body at the server. *)
Lemma deliver_ok l b g :
  link_ok l → in_flight l = Some (b, g) →
  link_ok (mkLink (mark_steps_published (queue l) g) None (receive b (server l))).
Proof.
  intros [Hk Hd Hs Hb Hc Hg] Hf. rewrite Hf in Hg. destruct Hg as [Hlt Hdg].
  split; cbn [queue in_flight server mark_steps_published with_dirty all_steps dirty_keys published_generation steps_generation].
  - done.
  - done.
  - intros k [Hi|(u & Hu & <-)]%receive_known; [by apply Hs|by eapply Hb].
  - done.
  - intros k u Hku Hnd. specialize (Hc k u Hku Hnd). rewrite Hf in Hc. destruct Hc as [Hv Hu].
    apply receive_spec; [done|by apply Hk|done].
  - split; [lia|]. intros Hne. specialize (Hdg Hne). lia.
Qed.

Lemma requeue_ok l b g applied :
  link_ok l → in_flight l = Some (b, g) →
  link_ok (mkLink (requeue_steps (queue l) (b_steps b)) None
    (if (applied : bool) then receive b (server l) else server l)).
Proof.
  intros [Hk Hd Hs Hb Hc Hg] Hf. rewrite Hf in Hg. destruct Hg as [Hlt Hdg].
  split; cbn [queue in_flight server requeue_steps with_dirty all_steps dirty_keys published_generation steps_generation].
  - done.
  - intros k [Hl|Hk']%elem_of_union; [|by apply Hd]. apply elem_of_list_to_set in Hl.
    apply list_elem_of_fmap in Hl as (u & -> & Hu). by eapply Hb.
  - intros k. destruct applied; [|apply Hs].
    intros [Hi|(u & Hu & <-)]%receive_known; [by apply Hs|by eapply Hb].
  - done.
  - intros k u Hku [Hl Hnd]%not_elem_of_union. specialize (Hc k u Hku Hnd). rewrite Hf in Hc.
    assert (∀ v, v ∈ b_steps b → external_id v ≠ k) as Hne.
    { intros v Hv <-. apply Hl, elem_of_list_to_set, list_elem_of_fmap. eauto. }
    destruct Hc as [_ [Hu|Hu]]; [by destruct (Hne u Hu); apply Hk|].
    destruct applied; [by rewrite receive_other|done].
  - lia.
Qed.

Lemma link_step_ok e l l' :
  link_ok l → is_abort e = false → link_step e l = Some l' →
  (steps_generation (queue l) + (if is_report e then 1 else 0) < 2 ^ 64)%N →
  link_ok l' ∧ (steps_generation (queue l') <= steps_generation (queue l) + (if is_report e then 1 else 0))%N.
Proof.
  intros Hl Ha Hs Hn. unfold link_step in Hs.
  destruct e as [u| | |applied|]; [| | | |done]; destruct (in_flight l) as [[b g]|] eqn:Hf; try done; cbn in Hn |- *.
  - injection Hs as <-. rewrite <- Hf. by apply report_ok.
  - injection Hs as <-. rewrite <- Hf. by apply report_ok.
  - pose proof (take_ok l Hl Hf) as Ht. destruct (take_steps_update_body (queue l)) as [f q].
    injection Hs as <-. destruct Ht as (? & Hq & _). split; [done|cbn; lia].
  - injection Hs as <-. split; [by apply deliver_ok|cbn; lia].
  - injection Hs as <-. split; [by eapply requeue_ok|cbn; lia].
Qed.

Definition reports (es : list LinkEvent) : nat := length (filter (λ e, is_report e = true) es).

Lemma link_run_ok es l l' :
  link_ok l → Forall (λ e, is_abort e = false) es →
  (steps_generation (queue l) + N.of_nat (reports es) < 2 ^ 64)%N → link_run es l = Some l' → link_ok l'.
Proof.
  revert l. induction es as [|e es IH]; intros l Hl Ha Hn Hr; [by injection Hr as <-|].
  apply Forall_cons in Ha as [Hae Ha]. cbn [link_run] in Hr. apply bind_Some in Hr as (l1 & Hs & Hr).
  unfold reports in Hn. rewrite filter_cons in Hn.
  destruct (link_step_ok e l l1) as [H1 Hg]; [done..| |].
  - destruct (is_report e); [|lia]. rewrite decide_True in Hn by done. cbn [length] in Hn. lia.
  - eapply IH; [exact H1|done| |exact Hr]. unfold reports.
    destruct (is_report e); [rewrite decide_True in Hn by done; cbn [length] in Hn; lia|].
    rewrite decide_False in Hn by done. lia.
Qed.

Lemma fresh_ok job plan : link_ok (fresh job plan).
Proof.
  by split; cbn.
Qed.

(** What was reported stays: the record of a step only moves on. *)
Definition covers (known : gmap string StepUpdate) u : Prop :=
  ∃ v, known !! external_id u = Some v ∧ (status_rank (status u) <= status_rank (status v))%N ∧
    (conclusion u ≠ 0%N → conclusion v ≠ 0%N).

Lemma update_covers q u : covers (all_steps (queue_update q u)) u.
Proof.
  rewrite queue_update_steps. eexists. rewrite lookup_insert_eq. split; [done|].
  destruct (merge_grows (all_steps q !! external_id u) u) as (_ & Hs & Hc & _). split; [done|].
  intros Hu. by rewrite Hc.
Qed.

Lemma update_covers_more q u v : covers (all_steps q) v → covers (all_steps (queue_update q u)) v.
Proof.
  rewrite queue_update_steps. intros (w & Hw & Hs & Hc). destruct (decide (external_id u = external_id v)) as [He|Hne].
  - unfold covers. rewrite <- He in *. eexists. rewrite lookup_insert_eq. split; [done|].
    destruct (merge_grows (all_steps q !! external_id u) u) as (_ & _ & _ & Hm).
    destruct (Hm w Hw) as [Hms Hmc]. split; [lia|auto].
  - exists w. by rewrite lookup_insert_ne.
Qed.

Lemma link_step_covers e l l' v :
  link_step e l = Some l' → covers (all_steps (queue l)) v → covers (all_steps (queue l')) v.
Proof.
  unfold link_step. destruct e as [u| | |applied|applied], (in_flight l) as [[b g]|]; try done; try by intros [= <-].
  - intros [= <-]. apply update_covers_more.
  - intros [= <-]. apply update_covers_more.
  - unfold take_steps_update_body. by destruct (negb _); intros [= <-].
Qed.

Lemma link_run_covers es l l' v :
  link_run es l = Some l' → covers (all_steps (queue l)) v ∨ Reported v ∈ es → covers (all_steps (queue l')) v.
Proof.
  revert l. induction es as [|e es IH]; intros l; cbn [link_run].
  { intros [= <-] [Hc|[]%elem_of_nil]. done. }
  intros (l1 & Hs & Hr)%bind_Some Hv. apply (IH l1 Hr).
  destruct Hv as [Hc|[<-|Hin]%elem_of_cons]; [left; by eapply link_step_covers| |by right].
  left. unfold link_step in Hs. destruct (in_flight l) as [f|]; injection Hs as <-; apply update_covers.
Qed.

Lemma in_sync l : link_ok l → in_flight l = None → dirty_keys (queue l) = ∅ → server l = all_steps (queue l).
Proof.
  intros [Hk Hd Hs Hb Hc Hg] Hf He. apply map_eq. intros k. destruct (all_steps (queue l) !! k) as [u|] eqn:Hu.
  - specialize (Hc k u Hu). rewrite Hf in Hc. apply Hc. by rewrite He.
  - destruct (server l !! k) as [u|] eqn:Hsk; [|done]. destruct (Hs k) as [v Hv]; [by rewrite Hsk|congruence].
Qed.

(** C34: no transition of a step is lost.  Updates may arrive while a request
    is under way, and requests may fail, applied or not.  As long as every flush
    comes back to the queue, whenever none is under way either nothing is
    pending and the server has the record of every step, or one more delivered
    flush brings it there; and that record is at least as far as anything that
    was reported for the step.  (The generation counter wraps, so there must be
    fewer than 2^64 reports.) *)
Theorem no_transition_lost job plan es l :
  link_run es (fresh job plan) = Some l → Forall (λ e, is_abort e = false) es →
  (N.of_nat (reports es) < 2 ^ 64)%N → in_flight l = None →
  (∀ u, Reported u ∈ es → covers (all_steps (queue l)) u) ∧
  if has_step_updates (queue l) then
    ∃ l', link_run [FlushStarted; Delivered] l = Some l' ∧ server l' = all_steps (queue l) ∧
      all_steps (queue l') = all_steps (queue l) ∧ has_step_updates (queue l') = false
  else server l = all_steps (queue l).
Proof.
  intros Hr Ha Hn Hf. assert (link_ok l) as Hl by (eapply link_run_ok; [apply fresh_ok|done..]).
  split; [intros u Hu; eapply link_run_covers; [exact Hr|by right]|].
  destruct (has_step_updates (queue l)) eqn:Hu.
  - pose proof (take_ok l Hl Hf) as Ht. cbn [link_run link_step]. rewrite Hf.
    unfold take_steps_update_body in *. rewrite Hu in *. cbn [negb] in *.
    destruct Ht as (Ht & _ & _). eexists. split; [done|].
    pose proof (deliver_ok _ _ _ Ht eq_refl) as Hd. cbn [queue in_flight server] in Hd |- *.
    split; [by apply in_sync in Hd|]. split; [done|].
    unfold has_step_updates. cbn. apply negb_false_iff, N.eqb_eq.
    destruct Hl as [_ _ _ _ _ Hg]. rewrite Hf in Hg. lia.
  - apply in_sync; [done..|]. destruct Hl as [_ _ _ _ _ Hg]. rewrite Hf in Hg.
    unfold has_step_updates in Hu. apply negb_false_iff, N.eqb_eq in Hu.
    apply dec_stable. intros Hne. destruct Hg as [_ Hg]. specialize (Hg Hne). lia.
Qed.

End protocol.

Definition done_record (id : string) (n : N) : StepUpdate :=
  mkUpdate id n id COMPLETED (Some "t0") (Some "t1") SUCCEEDED.
Definition started_record (id : string) (n : N) : StepUpdate :=
  mkUpdate id n id IN_PROGRESS (Some "t0") None 0.

(** A step finishes while the request that says it runs is refused. *)
Definition refused_run : list LinkEvent :=
  [Reported (done_record "setup" 1); Reported (started_record "build" 2); FlushStarted;
   Reported (done_record "build" 2); Refused true].

Lemma no_transition_lost_witness :
  ∃ l l', link_run refused_run (fresh "job" "plan") = Some l ∧
    link_run [FlushStarted; Delivered] l = Some l' ∧
    covers (server l') (done_record "build" 2) ∧ has_step_updates (queue l') = false.
Proof.
  destruct (link_run refused_run (fresh "job" "plan")) as [l|] eqn:Hr; [|by vm_compute in Hr].
  destruct (no_transition_lost "job" "plan" refused_run l Hr) as [Hc Hs].
  - repeat constructor.
  - vm_compute. reflexivity.
  - vm_compute in Hr. injection Hr as <-. reflexivity.
  - assert (has_step_updates (queue l) = true) as Hu by (vm_compute in Hr; injection Hr as <-; reflexivity).
    rewrite Hu in Hs. destruct Hs as (l' & Hl' & Hsv & _ & Hn). exists l, l'. split_and!; [done..| |done].
    rewrite Hsv. apply Hc. unfold refused_run. set_solver.
Defined.

(** When the job ends, the task that flushes is aborted where it waits.  The
    transitions it had taken are neither published nor queued again: the last
    flush sends nothing, and nothing is pending any more. *)
Example aborted_flush_loses_transition :
  ∃ l, link_run [Reported (done_record "build" 2); FlushStarted; Aborted false; FlushStarted; Delivered]
         (fresh "job" "plan") = Some l ∧
    all_steps (queue l) !! "build" = Some (done_record "build" 2) ∧
    server l !! "build" = None ∧ has_step_updates (queue l) = false.
Proof. eexists. split; [vm_compute; reflexivity|]. by vm_compute. Qed.

(** ** Cancelled steps *)

Lemma insert_all_lookup (f : DispatchedTask → StepUpdate) ts (out : gmap string StepUpdate) k u :
  (∀ t t', t ∈ ts → t' ∈ ts → t_external_id t = t_external_id t' → t = t') →
  foldl (λ out t, <[t_external_id t := f t]> out) out ts !! k = Some u ↔
  (∃ t, t ∈ ts ∧ t_external_id t = k ∧ u = f t) ∨
  (out !! k = Some u ∧ ∀ t, t ∈ ts → t_external_id t ≠ k).
Proof.
  revert out. induction ts as [|t ts IH]; intros out Hinj; simpl.
  { split; [intros Hu; right; split; [done|]; intros t []%elem_of_nil|].
    intros [(t & []%elem_of_nil & _)|[Hu _]]. done. }
  rewrite IH by (intros; apply Hinj; [by right..|done]). split.
  - intros [(t' & Ht' & Hk & ->)|[Hu Hn]]; [left; exists t'; split; [by right|done]|].
    destruct (decide (t_external_id t = k)) as [He|Hne].
    + subst k. rewrite lookup_insert_eq in Hu. injection Hu as <-. left. exists t. split; [by left|done].
    + rewrite lookup_insert_ne in Hu by done. right. split; [done|].
      intros t' [->|Ht']%elem_of_cons; [done|by apply Hn].
  - intros [(t' & [->|Ht']%elem_of_cons & Hk & ->)|[Hu Hn]].
    + destruct (list_find (λ t', t_external_id t' = k) ts) as [[i t']|] eqn:Hf.
      * apply list_find_Some in Hf as (Hi & Hk' & _). apply list_elem_of_lookup_2 in Hi.
        left. exists t'. split; [done|]. split; [done|]. f_equal. apply Hinj; [by left|by right|congruence].
      * right. apply list_find_None in Hf. rewrite Forall_forall in Hf. subst k.
        split; [by rewrite lookup_insert_eq|done].
    + left. exists t'. done.
    + right. split; [rewrite lookup_insert_ne; [done|apply Hn; by left]|].
      intros t' Ht'. apply Hn. by right.
Qed.

(** After a cancellation every dispatched step has exactly one record, which is
    terminal: its own if it had completed, a failed one otherwise; they come in
    the order of their numbers. *)
Lemma reconcile_cancelled_steps_spec dispatched received now :
  (∀ t t', t ∈ dispatched → t' ∈ dispatched → t_external_id t = t_external_id t' → t = t') →
  let out := reconcile_cancelled_steps dispatched received now in
  StronglySorted number_le out ∧
  (∀ u, u ∈ out ↔ ∃ t, t ∈ dispatched ∧ u = reconciled received now t) ∧
  Forall (λ u, status u = COMPLETED) out.
Proof.
  intros Hinj out.
  assert (∀ u, u ∈ out ↔ ∃ t, t ∈ dispatched ∧ u = reconciled received now t) as Hout.
  { intros u. unfold out, reconcile_cancelled_steps. rewrite (merge_sort_Permutation number_le), list_elem_of_omap. split.
    - intros (k & _ & Hu). apply insert_all_lookup in Hu as [(t & Ht & _ & ->)|[[]%lookup_empty_Some _]]; eauto.
    - intros (t & Ht & ->). exists (t_external_id t).
      assert (foldl (λ out t, <[t_external_id t := reconciled received now t]> out) ∅ dispatched
                !! t_external_id t = Some (reconciled received now t)) as Hl
        by (apply insert_all_lookup; [done|left; eauto]).
      split; [|done]. apply elem_of_btree_keys. eauto. }
  split; [apply (StronglySorted_merge_sort number_le)|]. split; [done|].
  apply Forall_forall. intros u (t & _ & ->)%Hout. unfold reconciled, cancelled_record.
  destruct (received !! _) as [u|]; [|done]. destruct (_ =? _)%N eqn:Hs; [by apply N.eqb_eq|done].
Qed.
