(* ===== verification/StepRun.v ===== *)
(** * The steps of a job

    [run_steps] of [crates/preloop-runner/src/worker/steps_runner.rs] with the
    background steps, the list of steps that [build_step_list_with_lifecycle] of
    [job_extension.rs] makes, and what the conditions of steps see of
    [contexts.rs].

    What the processes of a step do is an input: a [Turn] says what one pass
    of the loop meets (the cancellation channel, the evaluated display name, the
    answers of the handler and of the file system), an [Attempt] what became of
    a step.  Handlers may change everything of the job but its status and the
    results of its steps, which only the functions below write.  Left out are the
    debugger ([debug_client] is [None]), annotations, summaries and the
    texts the runner writes into the logs. *)
From S2P Require Import FileCommands ConditionText.
From S2P Require Import WorkerCommands.
From S2P Require Export StepReports.

(** ** Steps *)

Section data.
Context {num : Type}.

Inductive StepType : Type :=
| Script (script : string) (shell working_directory : option string)
| Action (uses : string) (with_ : value num).

Record Step : Type := mkStep {
  step_id : string;
  context_name : string;
  display_name : string;
  step_type : StepType;
  condition : option string;
  continue_on_error : bool;
  timeout_minutes : option N;
  step_env : gmap string string;
  raw : value num;
  is_background : bool;
  post_of : list string;
}.

Definition is_action (s : Step) : bool := match step_type s with Action _ _ => true | Script _ _ _ => false end.

(** What the list of steps reads of [action.yml]. *)
Record ActionManifest : Type := mkManifest {
  runs_using : string;
  runs_pre : option string;
  runs_pre_if : option string;
  runs_post : option string;
  runs_post_if : option string;
}.

Definition action_supports_lifecycle (m : ActionManifest) : bool :=
  bool_decide (runs_using m ∈ ["node12"; "node16"; "node20"; "node24"; "docker"; "composite"]).

(** The runtimes [run_action_from_dir_nested] runs with node. *)
Definition runs_with_node (m : ActionManifest) : bool :=
  bool_decide (runs_using m ∈ ["node12"; "node16"; "node20"; "node22"; "node24"]).

Definition with_internal_entry (with_ : value num) (entry : string) : value num :=
  JObject (imap_insert "__preloop_entry" (JString entry) (default [] (as_object with_))).

Definition is_local_action (uses : string) : bool := starts_with "./" uses || starts_with "../" uses.

Definition action_dir (workspace : string) (action_paths : gmap string string) (uses : string) : option string :=
  match action_paths !! uses with
  | Some path => Some path
  | None => if is_local_action uses then Some (FileCommands.path_join workspace uses) else None
  end.

Definition pre_context (s : Step) : string := "__pre_" +:+ context_name s.
Definition post_context (s : Step) : string := "__post_" +:+ context_name s.

Definition pre_step (m : ActionManifest) (s : Step) (uses : string) (with_ : value num) (pre_main : string) : Step :=
  mkStep ("__pre_" +:+ step_id s) (pre_context s) ("Pre " +:+ display_name s)
    (Action uses (with_internal_entry with_ pre_main)) (Some (default "always()" (runs_pre_if m)))
    (continue_on_error s) (timeout_minutes s) (step_env s)
    (JObject [("__pre", JBool true); ("__pre_main", JString pre_main); ("uses", JString uses)]) false [].

Definition post_step (m : ActionManifest) (s : Step) (uses : string) (with_ : value num)
    (registrations : list string) (post_main : string) : Step :=
  mkStep ("__post_" +:+ step_id s) (post_context s) ("Post " +:+ display_name s)
    (Action uses (with_internal_entry with_ post_main)) (Some (default "always()" (runs_post_if m)))
    true (timeout_minutes s) (step_env s)
    (JObject [("__post", JBool true); ("__post_main", JString post_main); ("uses", JString uses)]) false registrations.

(** The hooks of one step: a local action has no pre step. *)
Definition step_hooks (load_action_manifest : string → option ActionManifest) (workspace : string)
    (action_paths : gmap string string) (s : Step) : list Step * list Step :=
  match step_type s with
  | Script _ _ _ => ([], [])
  | Action uses with_ =>
      match action_dir workspace action_paths uses ≫= load_action_manifest with
      | None => ([], [])
      | Some m =>
          if negb (action_supports_lifecycle m) then ([], [])
          else
            let pre := if is_local_action uses then None else runs_pre m in
            let registrations := context_name s :: match pre with Some _ => [pre_context s] | None => [] end in
            (match pre with Some p => [pre_step m s uses with_ p] | None => [] end,
             match runs_post m with Some p => [post_step m s uses with_ registrations p] | None => [] end)
      end
  end.

Definition build_step_list_with_lifecycle (load_action_manifest : string → option ActionManifest)
    (workspace : string) (action_paths : gmap string string) (main_steps : list Step) : list Step :=
  let hooks := map (step_hooks load_action_manifest workspace action_paths) main_steps in
  concat hooks.*1 ++ main_steps ++ reverse (concat hooks.*2).

(** ** The job *)

Inductive JobStatus : Type := StatusSuccess | StatusFailure | StatusCancelled.
#[global] Instance JobStatus_eq_dec : EqDecision JobStatus.
Proof. solve_decision. Defined.

(** [JobContext] as far as the loop and the conditions read it.  [steps] is an
    [IndexMap]: the results are in [files], their order is [step_order].  [roots]
    of contexts other than [steps], [job] and [env] come from the message and the
    runner. *)
Record RunnerJob : Type := mkRunnerJob {
  files : FileCommands.JobContext;
  step_order : list string;
  job_status : JobStatus;
  message : gmap string (value num);
  job_fields : list (string * value num);
}.

Definition with_job_status (s : JobStatus) (j : RunnerJob) : RunnerJob :=
  mkRunnerJob (files j) (step_order j) s (message j) (job_fields j).
Definition with_files (f : FileCommands.JobContext) (j : RunnerJob) : RunnerJob :=
  mkRunnerJob f (step_order j) (job_status j) (message j) (job_fields j).
Definition results (j : RunnerJob) : gmap string FileCommands.StepResult := FileCommands.steps (files j).

Definition insert_result (name : string) (r : FileCommands.StepResult) (j : RunnerJob) : RunnerJob :=
  mkRunnerJob (FileCommands.with_steps (<[name := r]> (results j)) (files j))
    (if bool_decide (is_Some (results j !! name)) then step_order j else step_order j ++ [name])
    (job_status j) (message j) (job_fields j).

(** [get_mut] of a result, to change its verdict. *)
Definition revise_result (name outcome conclusion : string) (j : RunnerJob) : RunnerJob :=
  with_files (FileCommands.with_steps
    (alter (λ r, FileCommands.mkStepResult outcome conclusion (FileCommands.outputs r)) name (results j)) (files j)) j.

(** What a handler leaves behind. *)
Record Left : Type := mkLeft {
  l_files : FileCommands.JobContext;
  l_message : gmap string (value num);
  l_fields : list (string * value num);
}.
Definition leave (l : Left) (j : RunnerJob) : RunnerJob :=
  mkRunnerJob (FileCommands.with_steps (results j) (l_files l)) (step_order j) (job_status j) (l_message l) (l_fields l).

End data.
Arguments StepType : clear implicits.
Arguments Step : clear implicits.
Arguments RunnerJob : clear implicits.
Arguments Left : clear implicits.

(** ** Readings *)

Section run.
Context {num : Type} `{NumberOps num, JsonCodec num, UnicodeCase, UnicodeLower, HashOrder, FileCommands.ArtifactFiles}.
Variable hash_files : list (value num) → option string → result ExpressionError string.
Variable runner_env : option string.
Implicit Types (s : Step num) (j : RunnerJob num).

(** One execution of a step.  Errors are their texts; [a_handler] is what the
    handler returns if it is reached, [a_registers] whether it loaded the
    action, [a_cancel] the channel afterwards. *)
Record Attempt : Type := mkAttempt {
  a_env_error : option string;
  a_setup_error : option string;
  a_registers : bool;
  a_handler : option string;
  a_left : Left num;
  a_timed_out : bool;
  a_cancel : bool;
  a_masking_error : bool;
  a_paths : FileCommands.FileCommandPaths;
  a_name : string;
  a_log : string;
  a_started : string;
  a_ended : string;
}.

(** What background steps did since the loop looked last: a handler registered
    a hook, a task returned.  A task that panics returns nothing. *)
Inductive TaskEvent : Type :=
| TaskRegisters (i : nat)
| TaskEnds (i : nat) (a : Attempt).

Record Turn : Type := mkTurn {
  t_events : list TaskEvent;
  t_cancel : bool;
  t_now : string;
  t_shown : string;
  t_attempt : Attempt;
}.

(** The readings around the loop. *)
Record Frame : Type := mkFrame {
  has_containers : bool;
  setup_id : string;
  init_id : string;
  stop_id : string;
  complete_id : string;
  f_now : string;
  f_setup_log : string;
  f_init_error : bool;
  f_init_left : Left num;
  f_init_start : string;
  f_init_end : string;
  f_init_log : string;
  f_events : list TaskEvent;
  f_cancel : nat → bool;
  f_stop_start : string;
  f_stop_end : string;
  f_stop_log : string;
  f_complete : string;
}.

(** ** Conditions *)

(** A [HashMap] of strings as an object, in the order it yields its keys. *)
Definition string_entries (m : gmap string string) : list (string * value num) :=
  omap (λ k, (λ v, (k, JString v)) <$> m !! k) (hash_order (dom m)).

Definition step_value (r : FileCommands.StepResult) : value num :=
  JObject
    [("outcome", JString (to_ascii_lowercase (FileCommands.outcome r)));
     ("conclusion", JString (to_ascii_lowercase (FileCommands.conclusion r)));
     ("outputs", JObject (string_entries (FileCommands.outputs r)))].

Definition status_text (s : JobStatus) : string :=
  match s with StatusSuccess => "success" | StatusFailure => "failure" | StatusCancelled => "cancelled" end.

Definition build_expression_context j : Context num :=
  let vars :=
    <["env" := JObject (string_entries (FileCommands.env (files j)))]>
    (<["job" := JObject (("status", JString (status_text (job_status j))) :: job_fields j)]>
    (<["steps" := JObject (omap (λ id, (λ r, (id, step_value r)) <$> results j !! id) (step_order j))]>
      (message j))) in
  mkContext vars (bool_decide (job_status j = StatusSuccess)) (bool_decide (job_status j = StatusFailure))
    (bool_decide (job_status j = StatusCancelled)) (FileCommands.workspace (files j)).

(** When the condition fails it is tried again as it is written, if it was
    trimmed. *)
Definition should_run_step s j : result ExpressionError bool :=
  let ctx := build_expression_context j in
  match eval_bool hash_files (effective_condition (condition s)) ctx with
  | Ok run => Ok run
  | Err effective_error =>
      match condition s with
      | None => Err effective_error
      | Some c =>
          if str_eqb c "" then Err effective_error
          else if str_eqb (trim_expression_markers c) c then Err effective_error
          else
            let fallback :=
              if contains_status_check_function c then c else "success() && (" +:+ c +:+ ")" in
            eval_bool hash_files fallback ctx
      end
  end.

Definition post_hook_orphaned s (hooks : gset string) : bool :=
  negb (bool_decide (post_of s = [])) && negb (existsb (λ r, bool_decide (r ∈ hooks)) (post_of s)).

(** ** State of the loop *)

Record BackgroundStepResult : Type := mkBackground {
  bg_context_name : string;
  bg_result : FileCommands.StepResult;
}.

(** A background step: its clone of the job and what it returned. *)
Record Task : Type := mkTask {
  k_step : Step num;
  k_number : N;
  k_shown : string;
  k_job : RunnerJob num;
  k_result : option BackgroundStepResult;
}.

Record Run : Type := mkRun {
  run_job : RunnerJob num;
  any_failed : bool;
  run_cancelled : bool;
  hooks : gset string;
  run_queue : ServerQueue;
  tasks : list Task;
}.

Definition with_run_job j (r : Run) : Run :=
  mkRun j (any_failed r) (run_cancelled r) (hooks r) (run_queue r) (tasks r).
Definition with_queue (q : ServerQueue) (r : Run) : Run :=
  mkRun (run_job r) (any_failed r) (run_cancelled r) (hooks r) q (tasks r).
Definition with_hooks (h : gset string) (r : Run) : Run :=
  mkRun (run_job r) (any_failed r) (run_cancelled r) h (run_queue r) (tasks r).
Definition with_tasks (ts : list Task) (r : Run) : Run :=
  mkRun (run_job r) (any_failed r) (run_cancelled r) (hooks r) (run_queue r) ts.

(** [any_failed = true; job_status = Failure], and the same for cancellation. *)
Definition fail_job (r : Run) : Run :=
  mkRun (with_job_status StatusFailure (run_job r)) true (run_cancelled r) (hooks r) (run_queue r) (tasks r).
Definition cancel_job (r : Run) : Run :=
  mkRun (with_job_status StatusCancelled (run_job r)) (any_failed r) true (hooks r) (run_queue r) (tasks r).

Definition report (u : StepUpdate) (r : Run) : Run := with_queue (queue_update (run_queue r) u) r.
Definition record_log (log : string) (r : Run) : Run :=
  if str_eqb log "" then r else with_queue (record_step_logs (run_queue r) log) r.

(** ** Steps in the foreground *)

Definition is_cancel_message (msg : string) : bool := str_contains "cancelled" msg || str_contains "canceled" msg.

(** Outcome and conclusion of an execution. *)
Definition step_verdict (error : option string) (is_cancel : string → bool) (cancel_signaled continue : bool) :
    string * string :=
  match error with
  | None => ("Success", "Success")
  | Some msg =>
      if is_cancel msg || cancel_signaled then ("Cancelled", "Cancelled")
      else if continue then ("Failure", "Success") else ("Failure", "Failure")
  end.

(** The handler is reached when the environment and the files are set up. *)
Definition entered (a : Attempt) : bool :=
  match a_env_error a, a_setup_error a with None, None => true | _, _ => false end.

Definition execution_error s (a : Attempt) : option string :=
  if a_timed_out a && bool_decide (is_Some (timeout_minutes s)) then Some "step timed out"
  else
    match a_env_error a, a_setup_error a with
    | Some error, _ => Some error
    | None, Some error => Some error
    | None, None => a_handler a
    end.

Definition registers s (a : Attempt) : bool := entered a && is_action s && a_registers a.

(** The result of the step is recorded before its file commands are applied,
    so that its outputs have a place. *)
Definition conclude_step s (a : Attempt) (verdict : string * string) j : string * RunnerJob num :=
  let '(outcome, conclusion) := if a_masking_error a then ("Failure", "Failure") else verdict in
  let j := insert_result (context_name s) (FileCommands.mkStepResult outcome conclusion ∅) j in
  let '(applied, f) := FileCommands.apply_file_commands runner_env (a_paths a) (context_name s) (files j) in
  let j := with_files f j in
  let '(conclusion, j) :=
    match applied with
    | Ok _ => (conclusion, j)
    | Err _ =>
        let conclusion := if continue_on_error s then "Success" else "Failure" in
        (conclusion, revise_result (context_name s) "Failure" conclusion j)
    end in
  if a_masking_error a then ("Failure", revise_result (context_name s) "Failure" "Failure" j)
  else (conclusion, j).

Definition run_foreground s (number : N) (shown : string) (a : Attempt) (r : Run) : Run :=
  let r := report (mkUpdate (step_id s) number shown IN_PROGRESS (Some (a_started a)) None 0) r in
  let r := if entered a then with_run_job (leave (a_left a) (run_job r)) r else r in
  let r := if registers s a then with_hooks ({[context_name s]} ∪ hooks r) r else r in
  let verdict := step_verdict (execution_error s a) is_cancel_message (a_cancel a) (continue_on_error s) in
  let r := if str_eqb verdict.1 "Cancelled" then cancel_job r else r in
  let '(conclusion, j) := conclude_step s a verdict (run_job r) in
  let r := with_run_job j r in
  let r :=
    if str_eqb conclusion "Failure" then fail_job r
    else if str_eqb conclusion "Cancelled" then cancel_job r else r in
  record_log (a_log a)
    (report (mkUpdate (step_id s) number (a_name a) COMPLETED (Some (a_started a)) (Some (a_ended a))
               (conclusion_to_proto conclusion)) r).

(** ** Steps in the background *)

Definition start_background s (number : N) (shown : string) (a : Attempt) (r : Run) : Run :=
  let r := report (mkUpdate (step_id s) number shown IN_PROGRESS (Some (a_started a)) None 0) r in
  with_tasks (tasks r ++ [mkTask s number shown (run_job r) None]) r.

Definition run_background_step (t : Task) (a : Attempt) : BackgroundStepResult :=
  let s := k_step t in
  let error := match a_setup_error a with Some _ => Some "file command setup failed" | None => a_handler a end in
  let j := match a_setup_error a with Some _ => k_job t | None => leave (a_left a) (k_job t) end in
  let '(outcome, conclusion) := step_verdict error (str_contains "cancel") (a_cancel a) (continue_on_error s) in
  let j := insert_result (context_name s) (FileCommands.mkStepResult outcome conclusion ∅) j in
  let '(outcome, conclusion, j) :=
    match a_setup_error a with
    | Some _ => (outcome, conclusion, j)
    | None =>
        let '(applied, f) := FileCommands.apply_file_commands runner_env (a_paths a) (context_name s) (files j) in
        match applied with
        | Ok _ => (outcome, conclusion, with_files f j)
        | Err _ => ("Failure", if continue_on_error s then "Success" else "Failure", with_files f j)
        end
    end in
  mkBackground (context_name s)
    (FileCommands.mkStepResult outcome conclusion
       (match results j !! context_name s with Some u => FileCommands.outputs u | None => ∅ end)).

Definition end_task (i : nat) (t : Task) (a : Attempt) (r : Run) : Run :=
  let s := k_step t in
  let result := run_background_step t a in
  let r := if is_action s && a_registers a && bool_decide (a_setup_error a = None)
           then with_hooks ({[context_name s]} ∪ hooks r) r else r in
  let r := record_log (a_log a)
    (report (mkUpdate (step_id s) (k_number t) (k_shown t) COMPLETED (Some (a_started a)) (Some (a_ended a))
               (conclusion_to_proto (FileCommands.conclusion (bg_result result)))) r) in
  with_tasks (<[i := mkTask s (k_number t) (k_shown t) (k_job t) (Some result)]> (tasks r)) r.

Definition task_event (r : Run) (e : TaskEvent) : Run :=
  match e with
  | TaskRegisters i =>
      match tasks r !! i with
      | Some t => if is_action (k_step t) && bool_decide (k_result t = None)
                  then with_hooks ({[context_name (k_step t)]} ∪ hooks r) r else r
      | None => r
      end
  | TaskEnds i a =>
      match tasks r !! i with
      | Some t => match k_result t with None => end_task i t a r | Some _ => r end
      | None => r
      end
  end.

(** ** The loop *)

Definition skip_step s (number : N) (shown now : string) (r : Run) : Run :=
  let r := with_run_job (insert_result (context_name s) (FileCommands.mkStepResult "Skipped" "Skipped" ∅) (run_job r)) r in
  report (mkUpdate (step_id s) number shown COMPLETED (Some now) (Some now) SKIPPED) r.

Definition fail_condition s (number : N) (shown now : string) (r : Run) : Run :=
  let r := fail_job r in
  let r := with_run_job (insert_result (context_name s) (FileCommands.mkStepResult "Failure" "Failure" ∅) (run_job r)) r in
  report (mkUpdate (step_id s) number shown COMPLETED (Some now) (Some now) FAILED) r.

Definition notice_cancel (signaled : bool) (r : Run) : Run :=
  if signaled && negb (run_cancelled r) then cancel_job r else r.

Definition run_turn (number : N) s (t : Turn) (r : Run) : Run :=
  let r := notice_cancel (t_cancel t) (foldl task_event r (t_events t)) in
  match (if post_hook_orphaned s (hooks r) then Ok false else should_run_step s (run_job r)) with
  | Ok false => skip_step s number (t_shown t) (t_now t) r
  | Err _ => fail_condition s number (t_shown t) (t_now t) r
  | Ok true =>
      (if is_background s then start_background else run_foreground) s number (t_shown t) (t_attempt t) r
  end.

Fixpoint run_loop (number : N) (steps : list (Step num)) (turn : nat → Turn) (r : Run) : Run :=
  match steps with
  | [] => r
  | s :: steps => run_loop (number + 1) steps (λ i, turn (S i)) (run_turn number s (turn 0) r)
  end.

(** [wait_all] and the loop over its results; tasks that never returned are
    only warned about. *)
Definition join_task (signaled : bool) (t : Task) (r : Run) : Run :=
  match k_result t with
  | None => r
  | Some result =>
      let conclusion := FileCommands.conclusion (bg_result result) in
      let r := if str_eqb conclusion "Failure" then fail_job r else r in
      let r := if str_eqb conclusion "Cancelled" && signaled then cancel_job r else r in
      with_run_job (insert_result (bg_context_name result) (bg_result result) (run_job r)) r
  end.

Fixpoint join_all (signaled : nat → bool) (ts : list Task) (r : Run) : Run :=
  match ts with
  | [] => r
  | t :: ts => join_all (λ i, signaled (S i)) ts (join_task (signaled 0) t r)
  end.

(** ** The whole job *)

Definition set_up (f : Frame) (r : Run) : Run :=
  record_log (f_setup_log f)
    (report (mkUpdate (setup_id f) 1 "Set up job" COMPLETED (Some (f_now f)) (Some (f_now f)) SUCCEEDED) r).

Definition initialize (f : Frame) (r : Run) : Run :=
  if has_containers f then
    let r := report (mkUpdate (init_id f) 2 "Initialize containers" IN_PROGRESS (Some (f_init_start f)) None 0) r in
    let r := with_run_job (leave (f_init_left f) (run_job r)) r in
    let r := if f_init_error f then fail_job r else r in
    record_log (f_init_log f)
      (report (mkUpdate (init_id f) 2 "Initialize containers" COMPLETED (Some (f_init_start f)) (Some (f_init_end f))
                 (if f_init_error f then FAILED else SUCCEEDED)) r)
  else r.

Definition step_offset (f : Frame) : N := if has_containers f then 3 else 2.

Definition stop_containers (f : Frame) (number : N) (r : Run) : Run :=
  if has_containers f then
    let r := report (mkUpdate (stop_id f) number "Stop containers" IN_PROGRESS (Some (f_stop_start f)) None 0) r in
    record_log (f_stop_log f)
      (report (mkUpdate (stop_id f) number "Stop containers" COMPLETED (Some (f_stop_start f)) (Some (f_stop_end f))
                 SUCCEEDED) r)
  else r.

Definition complete_job (f : Frame) (number : N) (r : Run) : Run :=
  record_log (f_complete f +:+ " Cleaning up orphan processes")
    (report (mkUpdate (complete_id f) number "Complete job" COMPLETED (Some (f_complete f)) (Some (f_complete f))
               SUCCEEDED) r).

Definition job_verdict (r : Run) : string :=
  if run_cancelled r then "Cancelled" else if any_failed r then "Failed" else "Succeeded".

Definition start_run j (q : ServerQueue) : Run := mkRun j false false ∅ q [].

(** The part of [run_steps] up to the join. *)
Definition run_all (f : Frame) (steps : list (Step num)) (turn : nat → Turn) j (q : ServerQueue) : Run :=
  let r := run_loop (step_offset f) steps turn (initialize f (set_up f (start_run j q))) in
  let r := foldl task_event r (f_events f) in
  join_all (f_cancel f) (tasks r) r.

Definition run_steps (f : Frame) (steps : list (Step num)) (turn : nat → Turn) j (q : ServerQueue) : string * Run :=
  let r := run_all f steps turn j q in
  let number := (step_offset f + N.of_nat (length steps))%N in
  let r := stop_containers f number r in
  let r := complete_job f (number + if has_containers f then 1 else 0)%N r in
  (job_verdict r, r).

End run.

(** ** Verdicts of the steps *)

Section laws.
Context {num : Type} `{NumberOps num, JsonCodec num, UnicodeCase, UnicodeLower, HashOrder, FileCommands.ArtifactFiles}.
Variable hash_files : list (value num) → option string → result ExpressionError string.
Variable runner_env : option string.
Implicit Types (s : Step num) (j : RunnerJob num) (r : Run (num:=num)) (a : Attempt (num:=num)) (n o c : string).

Definition verdict_of (u : FileCommands.StepResult) : string * string :=
  (FileCommands.outcome u, FileCommands.conclusion u).
Definition verdicts j : gmap string (string * string) := verdict_of <$> results j.

Lemma verdicts_leave (l : Left num) j : verdicts (leave l j) = verdicts j.
Proof. done. Qed.
Lemma verdicts_status st j : verdicts (with_job_status st j) = verdicts j.
Proof. done. Qed.
Lemma verdicts_insert n u j : verdicts (insert_result n u j) = <[n := verdict_of u]> (verdicts j).
Proof. unfold verdicts, results, insert_result. cbn. by rewrite fmap_insert. Qed.
Lemma verdicts_revise n o c j : verdicts (revise_result n o c j) = alter (λ _, (o, c)) n (verdicts j).
Proof.
  unfold verdicts, results, revise_result. cbn. apply map_eq. intros k.
  rewrite lookup_fmap, !lookup_alter, lookup_fmap. case_decide; subst; [by destruct (_ !! k)|by rewrite lookup_fmap].
Qed.

(** File commands only add outputs to the results. *)
Lemma apply_file_commands_verdicts paths n (f : FileCommands.JobContext) :
  verdict_of <$> FileCommands.steps (FileCommands.apply_file_commands runner_env paths n f).2 =
  verdict_of <$> FileCommands.steps f.
Proof.
  assert (∀ vars f, verdict_of <$> FileCommands.steps (FileCommands.apply_outputs n vars f) =
    verdict_of <$> FileCommands.steps f) as Ho.
  { intros vars f'. unfold FileCommands.apply_outputs. destruct (_ !! n) as [u|] eqn:Hu; [|done]. cbn.
    rewrite fmap_insert. apply insert_id. by rewrite lookup_fmap, Hu. }
  assert (∀ vars f, FileCommands.steps (FileCommands.apply_state n vars f) = FileCommands.steps f) as Hs.
  { intros vars f'. unfold FileCommands.apply_state. by destruct (bool_decide _). }
  unfold FileCommands.apply_file_commands.
  destruct (FileCommands.kv_of (FileCommands.env_file paths)); [|done].
  destruct (FileCommands.parse_path_file _); [|done].
  destruct (FileCommands.kv_of (FileCommands.output_file paths)); [|done].
  destruct (FileCommands.kv_of (FileCommands.state_file paths)); [|by etransitivity; [apply Ho|]].
  destruct (_ && _); [|cbn; rewrite Hs; by etransitivity; [apply Ho|]].
  destruct (FileCommands.process_artifacts_file _ _) as [res f'] eqn:Hp.
  apply FileCommands.process_artifacts_other in Hp as ->. cbn. rewrite Hs. by etransitivity; [apply Ho|].
Qed.

Lemma verdicts_files paths n j :
  verdicts (with_files (FileCommands.apply_file_commands runner_env paths n (files j)).2 j) = verdicts j.
Proof. apply apply_file_commands_verdicts. Qed.

(** The four verdicts of a step. *)
Definition verdict_ok (v : string * string) : Prop :=
  v ∈ [("Success", "Success"); ("Cancelled", "Cancelled"); ("Failure", "Success"); ("Failure", "Failure")].

Lemma verdict_ok_cases o c :
  verdict_ok (o, c) →
  (o, c) = ("Success", "Success") ∨ (o, c) = ("Cancelled", "Cancelled") ∨ (o, c) = ("Failure", "Success") ∨
  (o, c) = ("Failure", "Failure").
Proof. unfold verdict_ok. rewrite list_elem_of_In. cbn. intros [<-|[<-|[<-|[<-|[]]]]]; auto. Qed.
Lemma verdict_ok_failure (tolerated : bool) : verdict_ok ("Failure", if tolerated then "Success" else "Failure").
Proof. unfold verdict_ok. rewrite list_elem_of_In. destruct tolerated; cbn; auto. Qed.
Lemma verdict_ok_ran o c : verdict_ok (o, c) → o ≠ "Skipped" ∧ c ≠ "Skipped".
Proof. by intros [[= -> ->]|[[= -> ->]|[[= -> ->]|[= -> ->]]]]%verdict_ok_cases. Qed.

Lemma step_verdict_ok error is_cancel signaled continue : verdict_ok (step_verdict error is_cancel signaled continue).
Proof.
  unfold verdict_ok. rewrite list_elem_of_In. unfold step_verdict. destruct error; [|cbn; auto].
  destruct (_ || _), continue; cbn; auto.
Qed.

(** What a step concludes is what its result records. *)
Lemma conclude_step_spec s a v j :
  verdict_ok v →
  ∃ o, verdict_ok (o, (conclude_step runner_env s a v j).1) ∧
    verdicts (conclude_step runner_env s a v j).2 =
      <[context_name s := (o, (conclude_step runner_env s a v j).1)]> (verdicts j) ∧
    job_status (conclude_step runner_env s a v j).2 = job_status j ∧
    ((conclude_step runner_env s a v j).1 = "Cancelled" → v.1 = "Cancelled").
Proof.
  intros Hv. unfold conclude_step.
  assert (∃ o c, (if a_masking_error a then ("Failure", "Failure") else v) = (o, c) ∧ verdict_ok (o, c) ∧
    (c = "Cancelled" → v.1 = "Cancelled")) as (o & c & -> & Hok & Hcan).
  { destruct (a_masking_error a); [exists "Failure", "Failure"; split_and!; [done|apply (verdict_ok_failure false)|done]|].
    destruct v as [o c]. exists o, c. split_and!; [done..|].
    by apply verdict_ok_cases in Hv as [[= -> ->]|[[= -> ->]|[[= -> ->]|[= -> ->]]]]. }
  set (j1 := insert_result _ _ j).
  pose proof (verdicts_files (a_paths a) (context_name s) j1) as Hf.
  assert (job_status j1 = job_status j) as Hst by done.
  destruct (FileCommands.apply_file_commands _ _ _ _) as [applied f]. cbn in Hf.
  assert (verdicts (with_files f j1) = <[context_name s := (o, c)]> (verdicts j)) as Hj
    by (rewrite Hf; apply verdicts_insert).
  destruct applied as [?|?], (a_masking_error a); cbn [fst snd];
    rewrite ?verdicts_revise, ?Hj, ?alter_insert_eq; [exists "Failure"|exists o|exists "Failure"|exists "Failure"];
    (split_and!; [first [done|apply (verdict_ok_failure false)|apply verdict_ok_failure]|done..|try done]).
  by destruct (continue_on_error s).
Qed.

(** ** One turn *)

Definition started r : list (Step num) := map k_step (tasks r).
Definition hook_task r n : Prop := ∃ s, s ∈ started r ∧ context_name s = n ∧ is_action s = true.

(** What background steps change while the loop is elsewhere. *)
Record same_but_tasks r r' : Prop := {
  sb_job : run_job r' = run_job r;
  sb_failed : any_failed r' = any_failed r;
  sb_cancelled : run_cancelled r' = run_cancelled r;
  sb_started : started r' = started r;
  sb_hooks : ∀ n, n ∈ hooks r' → n ∈ hooks r ∨ hook_task r n;
}.

Lemma same_but_tasks_refl r : same_but_tasks r r.
Proof. split; auto. Qed.

Lemma same_but_tasks_trans r1 r2 r3 : same_but_tasks r1 r2 → same_but_tasks r2 r3 → same_but_tasks r1 r3.
Proof.
  intros [? ? ? Hs Hh] [? ? ? Hs' Hh']. split; try congruence. intros n [Hn|Hn]%Hh'; [auto|].
  right. unfold hook_task in *. by rewrite <- Hs.
Qed.

Lemma record_log_with log r : ∃ q, record_log log r = with_queue q r.
Proof. unfold record_log. destruct (str_eqb log ""); [exists (run_queue r); by destruct r|eauto]. Qed.
Lemma record_log_eq log r : record_log log r = with_queue (run_queue (record_log log r)) r.
Proof. unfold record_log. destruct (str_eqb log ""); [by destruct r|done]. Qed.

Lemma task_event_same r e : same_but_tasks r (task_event runner_env r e).
Proof.
  destruct e as [i|i a]; cbn [task_event]; (destruct (tasks r !! i) as [t|] eqn:Hi; [|apply same_but_tasks_refl]).
  - destruct (_ && _) eqn:Ha; [|apply same_but_tasks_refl]. apply andb_prop in Ha as [Ha _]. split; try done.
    cbn. intros n [Hn|Hn]%elem_of_union; [|by left]. apply elem_of_singleton in Hn as ->. right.
    exists (k_step t). split_and!; [|done..]. apply list_elem_of_fmap. eauto using list_elem_of_lookup_2.
  - destruct (k_result t); [apply same_but_tasks_refl|]. unfold end_task. rewrite record_log_eq. split; cbn.
    + by destruct (_ && _ && _).
    + by destruct (_ && _ && _).
    + by destruct (_ && _ && _).
    + unfold started. cbn. rewrite list_fmap_insert. cbn. destruct (_ && _ && _); cbn; apply list_insert_id;
        by rewrite list_lookup_fmap, Hi.
    + intros n. destruct (is_action (k_step t)) eqn:Ha; [|by left]. destruct (_ && _); [|by left].
      cbn. intros [->%elem_of_singleton|Hn]%elem_of_union; [|by left]. right.
      exists (k_step t). split_and!; [|done..]. apply list_elem_of_fmap. eauto using list_elem_of_lookup_2.
Qed.

Lemma task_events_same es r : same_but_tasks r (foldl (task_event runner_env) r es).
Proof.
  revert r. induction es as [|e es IH]; intros r; [apply same_but_tasks_refl|].
  eapply same_but_tasks_trans; [apply task_event_same|apply IH].
Qed.

(** The status of the job is [Success] exactly while nothing has failed and the
    job is not cancelled. *)
Definition status_ok r : Prop :=
  job_status (run_job r) = StatusSuccess ↔ any_failed r = false ∧ run_cancelled r = false.

Lemma status_ok_fail r : status_ok (fail_job r).
Proof. split; [done|by intros []]. Qed.
Lemma status_ok_cancel r : status_ok (cancel_job r).
Proof. split; [done|by intros []]. Qed.
Lemma status_ok_same r r' :
  job_status (run_job r') = job_status (run_job r) → any_failed r' = any_failed r → run_cancelled r' = run_cancelled r →
  status_ok r → status_ok r'.
Proof. unfold status_ok. by intros -> -> ->. Qed.

Lemma run_foreground_spec s number shown a r :
  let r' := run_foreground runner_env s number shown a r in
  ∃ o c, verdict_ok (o, c) ∧
    verdicts (run_job r') = <[context_name s := (o, c)]> (verdicts (run_job r)) ∧
    any_failed r' = any_failed r || str_eqb c "Failure" ∧
    (run_cancelled r = true ∨ c = "Cancelled" → run_cancelled r' = true) ∧
    tasks r' = tasks r ∧ (status_ok r → status_ok r') ∧
    (∀ n, n ∈ hooks r' → n ∈ hooks r ∨ n = context_name s ∧ is_action s = true).
Proof.
  cbv zeta. unfold run_foreground.
  set (r1 := if registers s a then _ else _).
  assert (verdicts (run_job r1) = verdicts (run_job r) ∧ job_status (run_job r1) = job_status (run_job r) ∧
    any_failed r1 = any_failed r ∧ run_cancelled r1 = run_cancelled r ∧ tasks r1 = tasks r ∧
    (∀ n, n ∈ hooks r1 → n ∈ hooks r ∨ n = context_name s ∧ is_action s = true)) as (Hv & Hst & Hf & Hc & Ht & Hh).
  { subst r1. unfold registers. destruct (entered a), (is_action s), (a_registers a); cbn; split_and!; try done; try set_solver. }
  clearbody r1. set (v := step_verdict _ _ _ _).
  assert (verdict_ok v) as Hok by apply step_verdict_ok. clearbody v.
  set (r2 := if str_eqb v.1 "Cancelled" then _ else _).
  assert (verdicts (run_job r2) = verdicts (run_job r1) ∧ any_failed r2 = any_failed r1 ∧ tasks r2 = tasks r1 ∧
    hooks r2 = hooks r1 ∧ (run_cancelled r1 = true ∨ v.1 = "Cancelled" → run_cancelled r2 = true) ∧
    (status_ok r1 → status_ok r2)) as (Hv2 & Hf2 & Ht2 & Hh2 & Hc2 & Hs2).
  { subst r2. unfold str_eqb. case_bool_decide; split_and!; try done; [by intros _; apply status_ok_cancel|].
    by intros [?|?]. }
  clearbody r2.
  destruct (conclude_step_spec s a v (run_job r2) Hok) as (o & Hoc & Hov & Hos & Hcan).
  destruct (conclude_step runner_env s a v (run_job r2)) as [c j]. cbn [fst snd] in *.
  exists o, c. rewrite record_log_eq. unfold str_eqb.
  repeat case_bool_decide; cbn; rewrite ?verdicts_status, ?Hov, ?Hv2, ?Hv, ?Hf2, ?Hf, ?orb_true_r, ?orb_false_r, ?Ht2, ?Hh2;
    split_and!; try done.
  all: try (intros [?|?]; [apply Hc2; left; congruence|first [congruence|by apply Hc2; right; apply Hcan]]).
  - intros _. exact (status_ok_fail (with_run_job j r2)).
  - intros _. exact (status_ok_cancel (with_run_job j r2)).
  - intros Hs. apply (status_ok_same r2); [done..|]. apply Hs2. by apply (status_ok_same r).
Qed.

(** One turn of the loop for the step [s]. *)
Inductive turn_end s r r' : Prop :=
| turn_in_background :
    is_background s = true → verdicts (run_job r') = verdicts (run_job r) → any_failed r' = any_failed r →
    started r' = started r ++ [s] → turn_end s r r'
| turn_recorded o c :
    verdict_ok (o, c) ∨ (o, c) = ("Skipped", "Skipped") →
    verdicts (run_job r') = <[context_name s := (o, c)]> (verdicts (run_job r)) →
    any_failed r' = any_failed r || str_eqb c "Failure" →
    (c = "Cancelled" → run_cancelled r' = true) → started r' = started r → turn_end s r r'.

Definition ran r n : Prop := ∃ o c, verdicts (run_job r) !! n = Some (o, c) ∧ o ≠ "Skipped".

Record turned s (signaled : bool) r r' : Prop := {
  tn_end : turn_end s r r';
  tn_cancelled : run_cancelled r = true ∨ signaled = true → run_cancelled r' = true;
  tn_status : status_ok r → status_ok r';
  tn_hooks : ∀ n, n ∈ hooks r' →
    n ∈ hooks r ∨ hook_task r n ∨ n = context_name s ∧ is_action s = true ∧ ran r' n;
  tn_orphan : post_of s ≠ [] → ran r' (context_name s) ∨ started r' ≠ started r →
    ∃ n, n ∈ post_of s ∧ (n ∈ hooks r ∨ hook_task r n);
}.

(** The state in which a turn decides. *)
Definition at_turn (t : Turn (num:=num)) r : Run :=
  notice_cancel (t_cancel t) (foldl (task_event runner_env) r (t_events t)).

Record noticed (signaled : bool) r r' : Prop := {
  no_verdicts : verdicts (run_job r') = verdicts (run_job r);
  no_failed : any_failed r' = any_failed r;
  no_started : started r' = started r;
  no_hooks : ∀ n, n ∈ hooks r' → n ∈ hooks r ∨ hook_task r n;
  no_cancelled : run_cancelled r = true ∨ signaled = true → run_cancelled r' = true;
  no_status : status_ok r → status_ok r';
}.

Lemma at_turn_noticed t r : noticed (t_cancel t) r (at_turn t r).
Proof.
  unfold at_turn. destruct (task_events_same (t_events t) r) as [Hj Hf Hc Ht Hh].
  set (r0 := foldl _ r _) in *. clearbody r0.
  assert (status_ok r → status_ok r0) as Hs by (intros; apply (status_ok_same r); [congruence..|done]).
  unfold notice_cancel. destruct (t_cancel t), (run_cancelled r0) eqn:He; cbn; split; try done; try congruence.
  all: try (intros [?|?]; congruence).
  - change (verdicts (run_job r0) = verdicts (run_job r)). congruence.
  - intros _. apply status_ok_cancel.
Qed.

Lemma turned_recorded signaled s r r1 r' o c :
  noticed signaled r r1 → verdict_ok (o, c) ∨ (o, c) = ("Skipped", "Skipped") →
  verdicts (run_job r') = <[context_name s := (o, c)]> (verdicts (run_job r1)) →
  any_failed r' = any_failed r1 || str_eqb c "Failure" →
  (run_cancelled r1 = true ∨ c = "Cancelled" → run_cancelled r' = true) → tasks r' = tasks r1 →
  (status_ok r1 → status_ok r') →
  (∀ n, n ∈ hooks r' → n ∈ hooks r1 ∨ n = context_name s ∧ is_action s = true ∧ o ≠ "Skipped") →
  (post_hook_orphaned s (hooks r1) = true → o = "Skipped") → turned s signaled r r'.
Proof.
  intros [] Ho Hv Hf Hc Ht Hst Hh Hor.
  assert (started r' = started r) as Hs by (unfold started in *; congruence).
  split.
  - apply (turn_recorded _ _ _ o c); [done|congruence|congruence|auto|done].
  - auto.
  - auto.
  - intros n [Hn|(-> & Ha & Hn)]%Hh; [by apply no_hooks0 in Hn as [?|?]; auto|]. right; right. split_and!; [done..|].
    exists o, c. rewrite Hv, lookup_insert_eq. done.
  - intros Hp [(o' & c' & Hl & Hne)|Hne]; [|done]. rewrite Hv, lookup_insert_eq in Hl. injection Hl as <- <-.
    destruct (post_hook_orphaned s (hooks r1)) eqn:Hp'; [by destruct Hne; apply Hor|].
    unfold post_hook_orphaned in Hp'. rewrite bool_decide_eq_false_2 in Hp' by done. cbn in Hp'.
    apply negb_false_iff, existsb_exists in Hp' as (n & Hn & Hb). apply bool_decide_eq_true in Hb.
    exists n. split; [by apply list_elem_of_In|auto].
Qed.

Lemma run_turn_spec number s t r : turned s (t_cancel t) r (run_turn hash_files runner_env number s t r).
Proof.
  unfold run_turn. fold (at_turn t r). pose proof (at_turn_noticed t r) as Hn. set (r1 := at_turn t r) in *. clearbody r1.
  assert (turned s (t_cancel t) r (skip_step s number (t_shown t) (t_now t) r1)) as Hskip.
  { apply (turned_recorded _ _ _ r1 _ "Skipped" "Skipped"); [done|by right|apply verdicts_insert|..]; cbn; auto.
    - by rewrite orb_false_r.
    - by intros [?|?]. }
  destruct (post_hook_orphaned s (hooks r1)) eqn:Ho; [done|].
  destruct (should_run_step hash_files s (run_job r1)) as [[|]|e]; [|done|].
  - destruct (is_background s) eqn:Hb.
    + destruct Hn. split.
      * apply turn_in_background; [done..|]. unfold started in *. cbn. by rewrite map_app, no_started0.
      * auto.
      * intros Hs. apply (status_ok_same r1); auto.
      * intros n Hn. apply no_hooks0 in Hn as [?|?]; auto.
      * intros Hp _. unfold post_hook_orphaned in Ho. rewrite bool_decide_eq_false_2 in Ho by done. cbn in Ho.
        apply negb_false_iff, existsb_exists in Ho as (n & Hn & Hx). apply bool_decide_eq_true in Hx.
        exists n. split; [by apply list_elem_of_In|auto].
    + destruct (run_foreground_spec s number (t_shown t) (t_attempt t) r1) as (o & c & Hoc & Hv & Hf & Hc & Ht & Hs & Hh).
      apply (turned_recorded _ _ _ r1 _ o c); try done; [by left| |by rewrite Ho].
      intros n [?|[-> ?]]%Hh; [by left|right]. split_and!; [done..|]. by apply verdict_ok_ran in Hoc as [].
  - apply (turned_recorded _ _ _ r1 _ "Failure" "Failure"); [done|left; apply (verdict_ok_failure false)| |..].
    + exact (verdicts_insert _ _ (with_job_status StatusFailure (run_job r1))).
    + cbn. by rewrite orb_true_r.
    + by intros [?|?].
    + done.
    + intros _. by apply (status_ok_same (fail_job r1)), status_ok_fail.
    + by left.
    + by rewrite Ho.
Qed.

(** ** The loop *)

(** What holds before each turn, when the steps [done] have had theirs. *)
Record loop_ok (failed0 : bool) (done : list (Step num)) r : Prop := {
  lo_names : ∀ n, is_Some (verdicts (run_job r) !! n) ∨ n ∈ map context_name (started r) ↔ n ∈ map context_name done;
  lo_started : ∀ s, s ∈ started r → s ∈ done ∧ is_background s = true ∧ verdicts (run_job r) !! context_name s = None;
  lo_nodup : NoDup (map context_name (started r));
  lo_failed : any_failed r = true ↔ failed0 = true ∨ ∃ n o, verdicts (run_job r) !! n = Some (o, "Failure");
  lo_values : ∀ n v, verdicts (run_job r) !! n = Some v → verdict_ok v ∨ v = ("Skipped", "Skipped");
  lo_cancelled : ∀ n o, verdicts (run_job r) !! n = Some (o, "Cancelled") → run_cancelled r = true;
  lo_hooks : ∀ n, n ∈ hooks r → hook_task r n ∨ ∃ s, s ∈ done ∧ context_name s = n ∧ is_action s = true ∧ ran r n;
  lo_status : status_ok r;
}.

Lemma turned_keeps s b r r' n :
  turned s b r r' → n ≠ context_name s → verdicts (run_job r') !! n = verdicts (run_job r) !! n.
Proof. intros [[_ -> _ _|o c _ -> _ _ _] _ _ _ _] Hn; [done|by rewrite lookup_insert_ne]. Qed.

Lemma turned_started s b r r' s' : turned s b r r' → s' ∈ started r → s' ∈ started r'.
Proof. intros [[_ _ _ Hs|o c _ _ _ _ Hs] _ _ _ _] Hin; rewrite Hs; [apply elem_of_app; by left|done]. Qed.

Lemma loop_ok_turn failed0 done s b r r' :
  loop_ok failed0 done r → context_name s ∉ map context_name done → turned s b r r' →
  loop_ok failed0 (done ++ [s]) r'.
Proof.
  intros [Hn Hs Hd Hf Hv Hc Hh Hst] Hnew Ht. pose proof (turned_keeps s b r r') as Hk.
  assert (verdicts (run_job r) !! context_name s = None) as Hnone.
  { apply eq_None_not_Some. intros Hi. apply Hnew, Hn. by left. }
  assert (∀ n, n ∈ hooks r' → hook_task r' n ∨ ∃ s', s' ∈ done ++ [s] ∧ context_name s' = n ∧ is_action s' = true ∧ ran r' n) as Hh'.
  { intros n Hin. destruct (tn_hooks _ _ _ _ Ht n Hin) as [[Hht|(s' & Hd' & He & Ha & o & c & Hl & Ho)]%Hh|[Hht|(-> & Ha & Hr)]].
    - left. destruct Hht as (s' & Hi & ?). exists s'. split; [by eapply turned_started|done].
    - right. exists s'. split; [apply elem_of_app; by left|]. split_and!; [done..|]. exists o, c. split; [|done].
      rewrite Hk; [done..|]. intros ->. congruence.
    - left. destruct Hht as (s' & Hi & ?). exists s'. split; [by eapply turned_started|done].
    - right. exists s. split; [apply elem_of_app; right; by left|done]. }
  destruct Ht as [[Hb Hve Hfe Hse|o c Hoc Hve Hfe Hce Hse] Hca Hst' _ _].
  - split; [| | | | | |done|by apply Hst'].
    + intros n. rewrite Hve, Hse, !map_app, !elem_of_app, <- Hn. cbn. tauto.
    + intros s'. rewrite Hse, Hve, !elem_of_app. intros [(? & ? & ?)%Hs| ->%list_elem_of_singleton]; [auto|].
      split; [right; by left|done].
    + rewrite Hse, map_app, NoDup_app. split; [done|]. split; [|apply NoDup_singleton].
      intros n Hin ->%list_elem_of_singleton. apply Hnew, Hn. by right.
    + by rewrite Hve, Hfe.
    + by rewrite Hve.
    + rewrite Hve. intros n o Hl. apply Hca. left. by eapply Hc.
  - split; [| | | | | |done|by apply Hst'].
    + intros n. rewrite Hve, Hse, map_app, elem_of_app, <- Hn. destruct (decide (n = context_name s)) as [->|Hne].
      * rewrite lookup_insert_eq. split; [intros _; right; by left|intros _; left; by eexists].
      * rewrite lookup_insert_ne by done. cbn. rewrite list_elem_of_singleton. tauto.
    + intros s'. rewrite Hse, Hve. intros Hin. destruct (Hs s' Hin) as (? & ? & Hl).
      split; [apply elem_of_app; by left|]. split; [done|]. rewrite lookup_insert_ne; [done|].
      intros He. apply Hnew, Hn. right. rewrite He. apply list_elem_of_fmap. eauto.
    + by rewrite Hse.
    + rewrite Hfe, Hve, orb_true_iff, Hf. unfold str_eqb. rewrite bool_decide_eq_true. split.
      * intros [[?|(n & o' & Hl)]| ->]; [by left| |right; exists (context_name s), o; apply lookup_insert_eq].
        right. exists n, o'. rewrite lookup_insert_ne; [done|]. intros <-. congruence.
      * intros [?|(n & o' & Hl)]; [auto|]. apply lookup_insert_Some in Hl as [[_ [= _ ->]]|[_ Hl]]; [by right|].
        left; right; eauto.
    + rewrite Hve. intros n v [[_ <-]|[_ Hl]]%lookup_insert_Some; [done|by eapply Hv].
    + rewrite Hve. intros n o' [[_ [= _ ->]]|[_ Hl]]%lookup_insert_Some; [by apply Hce|].
      apply Hca. left. by eapply Hc.
Qed.

(** The state before the turn of the step at [i]. *)
Definition reached (f : Frame (num:=num)) (steps : list (Step num)) (turn : nat → Turn (num:=num)) j q (i : nat) : Run :=
  run_loop hash_files runner_env (step_offset f) (take i steps) turn (initialize f (set_up f (start_run j q))).

Lemma run_loop_snoc number steps s turn r :
  run_loop hash_files runner_env number (steps ++ [s]) turn r =
    run_turn hash_files runner_env (number + N.of_nat (length steps)) s (turn (length steps))
      (run_loop hash_files runner_env number steps turn r).
Proof.
  revert number turn r. induction steps as [|s' steps IH]; intros number turn r; cbn [run_loop app length].
  - by rewrite N.add_0_r.
  - rewrite IH. f_equal. lia.
Qed.

Lemma reached_S f steps turn j q i s :
  steps !! i = Some s →
  reached f steps turn j q (S i) =
    run_turn hash_files runner_env (step_offset f + N.of_nat i) s (turn i) (reached f steps turn j q i).
Proof.
  intros Hi. unfold reached. rewrite (take_S_r _ _ _ Hi), run_loop_snoc.
  rewrite length_take_le by (apply lookup_lt_Some in Hi; lia). done.
Qed.

Lemma reached_turned f steps turn j q i s :
  steps !! i = Some s →
  turned s (t_cancel (turn i)) (reached f steps turn j q i) (reached f steps turn j q (S i)).
Proof. intros Hi. rewrite (reached_S _ _ _ _ _ _ _ Hi). apply run_turn_spec. Qed.

(** The job as it is handed to [run_steps]. *)
Definition fresh_job j : Prop := job_status j = StatusSuccess ∧ results j = ∅.
Definition init_failed (f : Frame (num:=num)) : bool := has_containers f && f_init_error f.

Lemma set_up_with f r : ∃ q, set_up f r = with_queue q r.
Proof. unfold set_up. destruct (record_log_with (f_setup_log f) (report (mkUpdate (setup_id f) 1 "Set up job" COMPLETED
  (Some (f_now f)) (Some (f_now f)) SUCCEEDED) r)) as [q ->]. by exists q. Qed.

Lemma initialize_spec f r :
  let r' := initialize f r in
  verdicts (run_job r') = verdicts (run_job r) ∧ any_failed r' = init_failed f || any_failed r ∧
  run_cancelled r' = run_cancelled r ∧ tasks r' = tasks r ∧ hooks r' = hooks r ∧ (status_ok r → status_ok r').
Proof.
  cbv zeta. unfold initialize, init_failed. destruct (has_containers f); [|done].
  match goal with |- context[record_log ?l ?r] => destruct (record_log_with l r) as [q' ->] end.
  destruct (f_init_error f); split_and!; try done. intros _. apply status_ok_fail.
Qed.

Lemma loop_ok_start f j q : fresh_job j → loop_ok (init_failed f) [] (initialize f (set_up f (start_run j q))).
Proof.
  intros [Hst Hr].
  destruct (initialize_spec f (set_up f (start_run j q))) as (Hv & Hf & Hc & Ht & Hh & Hs). set (r := initialize _ _) in *.
  destruct (set_up_with f (start_run j q)) as [q' Hq]. rewrite Hq in Hv, Hf, Hc, Ht, Hh, Hs.
  assert (verdicts (run_job r) = ∅) as Hv'
    by (rewrite Hv; unfold verdicts; change (verdict_of <$> results j = ∅); by rewrite Hr, fmap_empty).
  cbn in Hf, Hc, Ht, Hh. rewrite orb_false_r in Hf. clear Hv. rename Hv' into Hv.
  assert (status_ok r) as Hs' by (apply Hs; by split).
  clearbody r. clear Hs. split; unfold started; rewrite ?Hv, ?Ht, ?Hf, ?Hh; try done.
  - intros n. rewrite lookup_empty. split; [intros [[? ?]|?]|]; try done. set_solver.
  - intros s []%elem_of_nil.
  - apply NoDup_nil_2.
  - split; [by left|]. intros [?|(n & o & Hl)]; [done|]. by rewrite lookup_empty in Hl.
Qed.

Lemma reached_ok f steps turn j q i :
  fresh_job j → NoDup (map context_name steps) → loop_ok (init_failed f) (take i steps) (reached f steps turn j q i).
Proof.
  intros Hj Hnd. induction i as [|i IH]; [by apply loop_ok_start|].
  destruct (steps !! i) as [s|] eqn:Hi.
  - rewrite (take_S_r _ _ _ Hi). eapply loop_ok_turn; [exact IH| |by apply reached_turned].
    rewrite <- (take_drop_middle _ _ _ Hi), map_app in Hnd. apply NoDup_app in Hnd as (_ & Hd & _).
    intros Hin. apply (Hd _ Hin). left.
  - apply lookup_ge_None in Hi. unfold reached. rewrite !take_ge in * by lia. 
    unfold reached in IH. rewrite take_ge in IH by lia. exact IH.
Qed.


(** The verdict of a step, and that it was started, stay. *)
Lemma reached_keeps f steps turn j q i k s :
  NoDup (map context_name steps) → steps !! i = Some s → i < k → k ≤ length steps →
  verdicts (run_job (reached f steps turn j q k)) !! context_name s =
    verdicts (run_job (reached f steps turn j q (S i))) !! context_name s.
Proof.
  intros Hnd Hi Hlt Hk. induction Hlt as [|k Hle IH]; [done|].
  destruct (lookup_lt_is_Some_2 steps k) as [s' Hs']; [lia|].
  rewrite <- IH by lia. eapply turned_keeps; [by apply reached_turned|]. intros He.
  assert (i = k); [|lia]. eapply (NoDup_lookup (map context_name steps)); [done|..]; rewrite list_lookup_fmap.
  - by rewrite Hi.
  - by rewrite Hs', He.
Qed.

(** ** Background steps *)

Lemma run_background_step_ok (t : Task (num:=num)) a :
  bg_context_name (run_background_step runner_env t a) = context_name (k_step t) ∧
  verdict_ok (verdict_of (bg_result (run_background_step runner_env t a))).
Proof.
  unfold run_background_step.
  match goal with |- context[step_verdict ?e ?i ?c ?k] =>
    pose proof (step_verdict_ok e i c k) as Hok; destruct (step_verdict e i c k) as [o c'] end.
  destruct (a_setup_error a); [done|]. set (j := insert_result _ _ _).
  destruct (FileCommands.apply_file_commands _ _ _ _) as [[|] f']; [done|]. split; [done|].
  apply verdict_ok_failure.
Qed.

Definition tasks_ok r : Prop :=
  ∀ t res, t ∈ tasks r → k_result t = Some res →
    bg_context_name res = context_name (k_step t) ∧ verdict_ok (verdict_of (bg_result res)).

Lemma task_event_tasks_ok r e : tasks_ok r → tasks_ok (task_event runner_env r e).
Proof.
  intros Hok. destruct e as [i|i a]; cbn [task_event]; (destruct (tasks r !! i) as [t|] eqn:Hi; [|done]).
  { by destruct (_ && _). }
  destruct (k_result t) eqn:Hr; [done|]. unfold end_task.
  match goal with |- context[record_log ?l ?r] => destruct (record_log_with l r) as [q ->] end.
  intros t' res Ht' Hres. cbn in Ht'. assert (tasks (if is_action (k_step t) && a_registers a && bool_decide (a_setup_error a = None)
    then with_hooks ({[context_name (k_step t)]} ∪ hooks r) r else r) = tasks r) as Hts by by destruct (_ && _ && _).
  rewrite Hts in Ht'. apply list_elem_of_lookup in Ht' as [k Hk]. apply list_lookup_insert_Some in Hk as [(_ & He & _)|(_ & Hk)].
  - subst t'. cbn in Hres |- *. injection Hres as <-. apply run_background_step_ok.
  - eapply Hok; [by eapply list_elem_of_lookup_2|done].
Qed.

Lemma task_events_tasks_ok es r : tasks_ok r → tasks_ok (foldl (task_event runner_env) r es).
Proof. revert r. induction es as [|e es IH]; intros r Hr; [done|]. by apply IH, task_event_tasks_ok. Qed.

Lemma at_turn_tasks_ok t r : tasks_ok r → tasks_ok (at_turn t r).
Proof.
  intros Hr. apply (task_events_tasks_ok (t_events t)) in Hr. unfold at_turn, notice_cancel. by destruct (_ && _).
Qed.

Lemma run_turn_tasks_ok number s t r : tasks_ok r → tasks_ok (run_turn hash_files runner_env number s t r).
Proof.
  intros Hr. apply (at_turn_tasks_ok t) in Hr. unfold run_turn. fold (at_turn t r). set (r1 := at_turn t r) in *. clearbody r1.
  destruct (if post_hook_orphaned s (hooks r1) then _ else _) as [[|]|]; [|done|done].
  destruct (is_background s).
  - intros t' res [Ht| ->%list_elem_of_singleton]%elem_of_app; [by apply Hr|done].
  - destruct (run_foreground_spec s number (t_shown t) (t_attempt t) r1) as (? & ? & _ & _ & _ & _ & Ht & _).
    unfold tasks_ok. by rewrite Ht.
Qed.

Lemma reached_tasks_ok f steps turn j q i : tasks_ok (reached f steps turn j q i).
Proof.
  induction i as [|i IH].
  - unfold reached. destruct (initialize_spec f (set_up f (start_run j q))) as (_ & _ & _ & Ht & _).
    destruct (set_up_with f (start_run j q)) as [q' Hq]. rewrite Hq in Ht at 2.
    intros t res. rewrite take_0. cbn [run_loop]. rewrite Ht. intros []%elem_of_nil.
  - destruct (steps !! i) as [s|] eqn:Hi; [rewrite (reached_S _ _ _ _ _ _ _ Hi); by apply run_turn_tasks_ok|].
    apply lookup_ge_None in Hi. unfold reached in *. rewrite take_ge in IH by lia. by rewrite take_ge by lia.
Qed.

Definition task_name (t : Task (num:=num)) : string := context_name (k_step t).

Lemma join_task_spec signaled t r :
  (∀ res, k_result t = Some res → bg_context_name res = task_name t) →
  let r' := join_task signaled t r in
  verdicts (run_job r') = match k_result t with
    | Some res => <[task_name t := verdict_of (bg_result res)]> (verdicts (run_job r)) | None => verdicts (run_job r) end ∧
  (any_failed r' = true ↔ any_failed r = true ∨
    ∃ res, k_result t = Some res ∧ FileCommands.conclusion (bg_result res) = "Failure") ∧
  (run_cancelled r = true → run_cancelled r' = true) ∧ (status_ok r → status_ok r').
Proof.
  intros Hn. cbv zeta. unfold join_task. destruct (k_result t) as [res|] eqn:Hr.
  2: { split_and!; [done| |done..]. split; [by left|]. by intros [?|(? & [=] & _)]. }
  rewrite <- (Hn res) by done. set (c := FileCommands.conclusion (bg_result res)).
  set (r1 := if str_eqb c "Failure" then fail_job r else r).
  assert (verdicts (run_job r1) = verdicts (run_job r) ∧ (any_failed r1 = true ↔ any_failed r = true ∨ c = "Failure") ∧
    run_cancelled r1 = run_cancelled r ∧ (status_ok r → status_ok r1)) as (Hv & Hf & Hc & Hs).
  { unfold r1, str_eqb. case_bool_decide; [split_and!; [done|cbn; tauto|done|intros _; apply status_ok_fail]|].
    split_and!; [done|tauto|done..]. }
  clearbody r1. set (r2 := if str_eqb c "Cancelled" && signaled then cancel_job r1 else r1).
  assert (verdicts (run_job r2) = verdicts (run_job r1) ∧ any_failed r2 = any_failed r1 ∧
    (run_cancelled r1 = true → run_cancelled r2 = true) ∧ (status_ok r1 → status_ok r2)) as (Hv2 & Hf2 & Hc2 & Hs2).
  { unfold r2. destruct (_ && _); split_and!; try done. intros _. apply status_ok_cancel. }
  clearbody r2. split_and!.
  - etransitivity; [apply verdicts_insert|]. by rewrite Hv2, Hv.
  - change (any_failed r2 = true ↔ any_failed r = true ∨ ∃ res', Some res = Some res' ∧ FileCommands.conclusion (bg_result res') = "Failure").
    rewrite Hf2, Hf. split; (intros [?|Hx]; [by left|right]); [by exists res|by destruct Hx as (? & [= <-] & ?)].
  - intros ?. apply Hc2. congruence.
  - intros ?. apply (status_ok_same r2); [done..|auto].
Qed.

(** What the join makes of the results of the background steps [ts]. *)
Lemma join_all_spec signaled ts r :
  NoDup (map task_name ts) →
  (∀ t res, t ∈ ts → k_result t = Some res → bg_context_name res = task_name t) →
  let r' := join_all signaled ts r in
  (∀ n, (∀ t, t ∈ ts → task_name t = n → k_result t = None) →
    verdicts (run_job r') !! n = verdicts (run_job r) !! n) ∧
  (∀ t res, t ∈ ts → k_result t = Some res →
    verdicts (run_job r') !! task_name t = Some (verdict_of (bg_result res))) ∧
  (any_failed r' = true ↔ any_failed r = true ∨
    ∃ t res, t ∈ ts ∧ k_result t = Some res ∧ FileCommands.conclusion (bg_result res) = "Failure") ∧
  (run_cancelled r = true → run_cancelled r' = true) ∧ (status_ok r → status_ok r').
Proof.
  cbv zeta. revert signaled r. induction ts as [|t ts IH]; intros signaled r Hnd Hn; cbn [join_all].
  { split_and!; try done.
    - intros t res []%elem_of_nil.
    - split; [by left|]. intros [?|(t & res & []%elem_of_nil & _)]. done. }
  apply NoDup_cons in Hnd as [Hnt Hnd].
  destruct (join_task_spec (signaled 0) t r) as (Hv & Hf & Hc & Hs); [by intros; apply (Hn t res); [left|]|].
  set (r1 := join_task (signaled 0) t r) in *. clearbody r1.
  destruct (IH (λ i, signaled (S i)) r1 Hnd) as (Ha & Hb & Hf' & Hc' & Hs'); [by intros; apply (Hn t0 res); [right|]|].
  split_and!; [| | |auto..].
  - intros n Hnone. rewrite Ha by (intros; apply Hnone; [by right|done]). rewrite Hv.
    destruct (k_result t) as [res|] eqn:Hr; [|done]. rewrite lookup_insert_ne; [done|]. intros He.
    rewrite (Hnone t) in Hr; [done|by left|done].
  - intros t' res [->|Hin]%elem_of_cons Hr; [|by apply Hb]. rewrite Ha.
    + by rewrite Hv, Hr, lookup_insert_eq.
    + intros t'' Hin He. destruct Hnt. rewrite <- He. by apply list_elem_of_fmap_2.
  - rewrite Hf', Hf. split.
    + intros [[?|(res & ? & ?)]|(t' & res & ? & ?)]; [by left|right; exists t, res; split_and!; [by left|done..]|].
      right. exists t', res. split; [by right|done].
    + intros [?|(t' & res & [->|?]%elem_of_cons & ? & ?)]; [auto|eauto|]. right. eauto.
Qed.

(** ** The whole job *)

Definition final f steps turn j q : Run := (run_steps hash_files runner_env f steps turn j q).2.

Lemma final_same f steps turn j q :
  let r := run_all hash_files runner_env f steps turn j q in
  run_job (final f steps turn j q) = run_job r ∧ any_failed (final f steps turn j q) = any_failed r ∧
  run_cancelled (final f steps turn j q) = run_cancelled r.
Proof.
  cbv zeta. unfold final, run_steps, complete_job. cbn [snd]. set (r := run_all _ _ _ _ _ _ _). clearbody r.
  match goal with |- context[record_log ?l ?r] => destruct (record_log_with l r) as [q' ->] end.
  unfold stop_containers. destruct (has_containers f); [|done].
  match goal with |- context[record_log ?l ?r] => destruct (record_log_with l r) as [q'' ->] end. done.
Qed.

Lemma started_tasks r : map task_name (tasks r) = map context_name (started r).
Proof. unfold started. by rewrite map_map. Qed.

Section finished.
Context (f : Frame (num:=num)) (steps : list (Step num)) (turn : nat → Turn (num:=num)) (j : RunnerJob num) (q : ServerQueue).
Hypothesis Hfresh : fresh_job j.
Hypothesis Hnd : NoDup (map context_name steps).

Let last_turn := reached f steps turn j q (length steps).
Let r := run_all hash_files runner_env f steps turn j q.

Lemma same_step s s' : s ∈ steps → s' ∈ steps → context_name s = context_name s' → s = s'.
Proof using Hnd.
  intros [i Hi]%list_elem_of_lookup [k Hk]%list_elem_of_lookup He.
  assert (i = k) as ->; [|congruence].
  eapply (NoDup_lookup (map context_name steps)); [done|..]; rewrite list_lookup_fmap; [by rewrite Hi|by rewrite Hk, He].
Qed.

(** The final verdicts: those of the loop, and those of the background steps
    that returned. *)
Lemma final_spec :
  (∀ s, s ∈ steps → s ∉ started last_turn →
    verdicts (run_job r) !! context_name s = verdicts (run_job last_turn) !! context_name s) ∧
  (any_failed r = true ↔ init_failed f = true ∨ ∃ s o, s ∈ steps ∧ verdicts (run_job r) !! context_name s = Some (o, "Failure")) ∧
  (run_cancelled last_turn = true → run_cancelled r = true) ∧ status_ok r ∧
  (∀ t, t ∈ tasks (foldl (task_event runner_env) last_turn (f_events f)) →
    verdicts (run_job r) !! task_name t = (λ res, verdict_of (bg_result res)) <$> k_result t).
Proof using Hfresh Hnd.
  pose proof (reached_ok f steps turn j q (length steps) Hfresh Hnd) as Hlo. rewrite firstn_all in Hlo. fold last_turn in Hlo.
  pose proof (task_events_same (f_events f) last_turn) as [Hj2 Hf2 Hc2 Hs2 _].
  pose proof (task_events_tasks_ok (f_events f) last_turn (reached_tasks_ok _ _ _ _ _ _)) as Hto.
  assert (r =
    join_all (f_cancel f) (tasks (foldl (task_event runner_env) last_turn (f_events f)))
      (foldl (task_event runner_env) last_turn (f_events f))) as Hr
    by (unfold r, run_all, last_turn, reached; by rewrite firstn_all).
  set (r2 := foldl _ last_turn _) in *. destruct Hlo as [Hn Hs Hd Hfa Hv Hca Hh Hst].
  destruct (join_all_spec (f_cancel f) (tasks r2) r2) as (Ha & Hb & Hfj & Hcj & Hsj).
  { by rewrite started_tasks, Hs2. }
  { intros t res Ht Hres. by apply (Hto t res). }
  rewrite <- Hr in Ha, Hb, Hfj, Hcj, Hsj. rewrite Hj2 in Ha. clearbody r.
  assert (∀ t, t ∈ tasks r2 → k_step t ∈ started last_turn) as Hts.
  { intros t Ht. rewrite <- Hs2. apply list_elem_of_fmap. eauto. }
  assert (∀ s, s ∈ steps → s ∉ started last_turn →
    verdicts (run_job r) !! context_name s = verdicts (run_job last_turn) !! context_name s) as Hsame.
  { intros s Hin Hns. apply Ha. intros t Ht He. destruct Hns. apply Hts in Ht as Ht'.
    replace s with (k_step t); [done|]. apply same_step; [by apply Hs|done|done]. }
  split_and!; [done| | | |].
  - rewrite Hfj, Hf2, Hfa. split.
    + intros [[?|(n & o & Hl)]|(t & res & Ht & Hres & Hcl)]; [by left|right|right].
      * assert (n ∈ map context_name steps) as (s & -> & Hin)%list_elem_of_fmap by (apply Hn; left; eauto).
        exists s, o. split; [done|]. rewrite Hsame; [done..|]. intros (_ & _ & Hnone)%Hs. congruence.
      * exists (k_step t), (FileCommands.outcome (bg_result res)). split; [by apply Hs, Hts|].
        rewrite <- Hcl. by apply Hb.
    + intros [?|(s & o & Hin & Hl)]; [by left; left|].
      destruct (list_find (λ t, task_name t = context_name s ∧ is_Some (k_result t)) (tasks r2)) as [[i t]|] eqn:Hfi.
      * apply list_find_Some in Hfi as (Ht & [He [res Hres]] & _). apply list_elem_of_lookup_2 in Ht.
        right. exists t, res. split_and!; [done..|]. rewrite <- He, (Hb t res Ht Hres) in Hl. by injection Hl.
      * apply list_find_None in Hfi. rewrite Forall_forall in Hfi. left; right. exists (context_name s), o.
        rewrite <- Ha; [done|]. intros t Ht He. apply eq_None_not_Some. intros Hres. by apply (Hfi t Ht).
  - intros ?. apply Hcj. congruence.
  - apply Hsj. apply (status_ok_same last_turn); congruence.
  - intros t Ht. destruct (k_result t) as [res|] eqn:Hres; [by apply Hb|]. rewrite Ha; [by apply Hs, Hts|].
    intros t' Ht' He. apply list_elem_of_lookup in Ht as [i Hi], Ht' as [k Hk].
    assert (i = k) as ->; [|congruence].
    eapply (NoDup_lookup (map task_name (tasks r2))); [by rewrite started_tasks, Hs2|..]; rewrite list_lookup_fmap;
      [by rewrite Hi|by rewrite Hk, <- He].
Qed.
End finished.

Definition concluded r s : option string := FileCommands.conclusion <$> results (run_job r) !! context_name s.

Lemma concluded_verdict r s c :
  concluded r s = Some c ↔ ∃ o, verdicts (run_job r) !! context_name s = Some (o, c).
Proof.
  unfold concluded, verdicts. rewrite lookup_fmap. destruct (results (run_job r) !! context_name s) as [u|]; cbn.
  - split; [intros [= <-]; by eexists|]. by intros (o & [= _ ->]).
  - split; [done|]. by intros (o & [=]).
Qed.



(** A condition without status functions: none, a blank one, or one that
    parses alone and is not too deep behind the gate. *)
Definition plain_condition (raw : option string) : Prop :=
  match raw with
  | None => True
  | Some c =>
      trim c = "" ∨
      utf8_ok c ∧ contains_status_check_function (trim_expression_markers c) = false ∧
      (∃ e : Expr num, parse_input (trim_expression_markers c) = Ok e) ∧
      parse_input (num:=num) (gated (trim_expression_markers c)) ≠ too_deep
  end.

Lemma plain_unsuccessful condition (ctx : Context num) :
  plain_condition condition → success ctx = false → eval_bool hash_files (effective_condition condition) ctx = Ok false.
Proof.
  intros Hp Hs. assert (eval_bool hash_files "success()" ctx = Ok false) as Hsucc.
  { destruct ctx. cbn in Hs. subst. reflexivity. }
  destruct condition as [c|]; [|done]. destruct Hp as [He|(Hc & Hn & [e Hp] & Hd)].
  { unfold effective_condition. by rewrite He. }
  destruct (decide (trim c = "")) as [He|Hne]; [unfold effective_condition; by rewrite He|].
  rewrite effective_gated by done. unfold eval_bool, eval_expression.
  rewrite markers_gated by by apply trim_markers_ok.
  destruct (parse_gated (num:=num) _ e (trim_markers_ok c Hc) Hp) as [->|Hq]; [|by destruct Hd].
  cbn [mbind result_bind]. by rewrite eval_unsuccessful.
Qed.

Lemma plain_gate s j : plain_condition (condition s) → job_status j ≠ StatusSuccess → should_run_step hash_files s j = Ok false.
Proof.
  intros Hp Hst. unfold should_run_step. rewrite plain_unsuccessful; [done|done|]. by apply bool_decide_eq_false.
Qed.

(** C8: once a step has failed or the job was cancelled, plain steps are
    skipped. The job is handed over without results and with the status
    [Success], and its steps have distinct context names. A plain step has no
    condition, a blank one, or one that names no status function, is a valid
    expression by itself and is not too deep to be read behind the gate. When
    its turn comes after a step that concluded with [Failure] or [Cancelled],
    or after a failed set-up of the job, or when the channel says that the job
    is cancelled, the job is as before its turn but for the recorded result
    and the status, nothing is started, and in the end the step is still
    recorded as skipped. *)
Theorem failure_stops_plain_steps f steps turn j q i s :
  fresh_job j → NoDup (map context_name steps) → steps !! i = Some s → plain_condition (condition s) →
  let before := reached f steps turn j q i in
  let after := reached f steps turn j q (S i) in
  init_failed f = true ∨ t_cancel (turn i) = true ∨
    (∃ s' c, s' ∈ take i steps ∧ concluded before s' = Some c ∧ c ∈ ["Failure"; "Cancelled"]) →
  run_job after = insert_result (context_name s) (FileCommands.mkStepResult "Skipped" "Skipped" ∅)
                    (with_job_status (job_status (run_job after)) (run_job before)) ∧
  started after = started before ∧
  concluded (run_steps hash_files runner_env f steps turn j q).2 s = Some "Skipped".
Proof.
  intros Hj Hnd Hi Hp before after Hbad.
  pose proof (reached_ok f steps turn j q i Hj Hnd) as Hlo. fold before in Hlo.
  assert (any_failed before = true ∨ run_cancelled before = true ∨ t_cancel (turn i) = true) as Hflag.
  { destruct Hbad as [Hb|[Hb|(s' & c & _ & (o & Hl)%concluded_verdict & Hc)]]; [|by right; right|].
    - left. by apply (lo_failed _ _ _ Hlo); left.
    - apply list_elem_of_In in Hc. destruct Hc as [<-|[<-|[]]]; [left|right; left; by eapply lo_cancelled].
      apply (lo_failed _ _ _ Hlo). eauto. }
  destruct (at_turn_noticed (turn i) before) as [Hv Hf Hs Hh Hc Hst].
  assert (job_status (run_job (at_turn (turn i) before)) ≠ StatusSuccess) as Hno.
  { intros Hss. apply Hst in Hss as [Hf' Hc']; [|by apply lo_status in Hlo].
    rewrite Hf in Hf'. destruct Hflag as [?|Hx]; [congruence|]. rewrite Hc in Hc' by done. done. }
  assert (after = skip_step s (step_offset f + N.of_nat i) (t_shown (turn i)) (t_now (turn i)) (at_turn (turn i) before)) as Ha.
  { unfold after. rewrite (reached_S _ _ _ _ _ _ _ Hi). fold before. unfold run_turn. fold (at_turn (turn i) before).
    destruct (post_hook_orphaned _ _); [done|]. by rewrite plain_gate. }
  assert (run_job (at_turn (turn i) before) =
    with_job_status (job_status (run_job (at_turn (turn i) before))) (run_job before)) as Hjob.
  { unfold at_turn. destruct (task_events_same (t_events (turn i)) before) as [Hj' _ _ _ _]. revert Hj'.
    generalize (foldl (task_event runner_env) before (t_events (turn i))). intros r0 Hj'.
    unfold notice_cancel. destruct (_ && _); cbn; rewrite Hj'; by destruct (run_job before). }
  split_and!.
  - rewrite Ha. cbn [skip_step report run_job with_queue with_run_job job_status insert_result]. by rewrite Hjob at 1.
  - rewrite Ha. exact Hs.
  - apply concluded_verdict. exists "Skipped".
    pose proof (final_same f steps turn j q) as (Hfj & _ & _). unfold final in Hfj. rewrite Hfj.
    destruct (final_spec f steps turn j q Hj Hnd) as (Hsame & _).
    apply lookup_lt_Some in Hi as Hlt.
    assert (verdicts (run_job (reached f steps turn j q (length steps))) !! context_name s = Some ("Skipped", "Skipped")) as Hl.
    { rewrite (reached_keeps f steps turn j q i (length steps) s) by (done || lia). fold after. rewrite Ha.
      cbn [skip_step report run_job with_queue with_run_job]. by rewrite verdicts_insert, lookup_insert_eq. }
    rewrite Hsame; [done|by eapply list_elem_of_lookup_2|].
    pose proof (reached_ok f steps turn j q (length steps) Hj Hnd) as Hlo'. rewrite firstn_all in Hlo'.
    intros (_ & _ & Hn)%(lo_started _ _ _ Hlo'). congruence.
Qed.


Lemma ran_concluded r s : ran r (context_name s) → concluded r s ≠ None.
Proof.
  intros (o & c & Hl & _) Hn. assert (concluded r s = Some c) as Hc by (apply concluded_verdict; eauto). congruence.
Qed.


(** The post hooks run in the reverse order of their steps. *)
Lemma post_hooks_nested load ws paths (a b c : list (Step num)) m1 m2 p1 p2 :
  p1 ∈ (step_hooks load ws paths m1).2 → p2 ∈ (step_hooks load ws paths m2).2 →
  ∃ x y z, build_step_list_with_lifecycle load ws paths (a ++ m1 :: b ++ m2 :: c) = x ++ p2 :: y ++ p1 :: z.
Proof.
  intros (u1 & v1 & Hu1)%list_elem_of_split (u2 & v2 & Hu2)%list_elem_of_split. unfold build_step_list_with_lifecycle.
  set (main := a ++ m1 :: b ++ m2 :: c). set (hk := step_hooks load ws paths) in *.
  assert (concat (map hk main).*2 = (concat (map hk a).*2 ++ u1) ++ p1 :: (v1 ++ concat (map hk b).*2 ++ u2) ++ p2 ::
    (v2 ++ concat (map hk c).*2)) as Hc.
  { unfold main. rewrite map_app, fmap_app, concat_app. cbn. rewrite map_app, fmap_app, concat_app. cbn.
    rewrite Hu1, Hu2. by rewrite <- !app_assoc. }
  rewrite Hc. generalize (concat (map hk a).*2 ++ u1) (v1 ++ concat (map hk b).*2 ++ u2) (v2 ++ concat (map hk c).*2).
  intros before between after. exists (concat (map hk main).*1 ++ main ++ reverse after), (reverse between), (reverse before).
  rewrite reverse_app, reverse_cons, reverse_app, reverse_cons, <- !app_assoc. done.
Qed.


(** ** Reports *)

Definition records r : gmap string StepUpdate := all_steps (run_queue r).

Lemma merge_fresh u : merge_step_update None (from_full u) = u.
Proof.
  rewrite merge_step_update_eq. destruct u as [id n' nm st sa ca c]. cbn. f_equal.
  - unfold merge_status. by rewrite N.leb_refl.
  - unfold merge_completed. cbn. by destruct ca.
  - unfold merge_conclusion. by rewrite orb_true_r.
Qed.

Lemma merge_completes old u :
  conclusion u ≠ 0%N → status u = COMPLETED →
  let m := merge_step_update (Some old) (from_full u) in
  number m = number u ∧ status m = COMPLETED ∧ conclusion m = conclusion u.
Proof.
  intros Hc Hs. cbv zeta. rewrite merge_step_update_eq. cbn. split; [done|]. split.
  - unfold merge_status. rewrite Hs. destruct (_ <=? _)%N eqn:Hl; [done|]. apply N.leb_gt in Hl.
    pose proof (status_rank_le (status old)). change (status_rank COMPLETED) with 2%N in Hl. lia.
  - unfold merge_conclusion. apply N.eqb_neq in Hc. by rewrite Hc.
Qed.

Lemma records_report u r :
  records (report u r) = <[external_id u := merge_step_update (records r !! external_id u) (from_full u)]> (records r).
Proof. apply queue_update_steps. Qed.

Lemma records_log log r : records (record_log log r) = records r.
Proof. unfold record_log. by destruct (str_eqb log ""). Qed.

Lemma proto_nonzero c : conclusion_to_proto c ≠ 0%N.
Proof. unfold conclusion_to_proto. repeat case_match; done. Qed.

(** The record of the step [s] with the number [pos]: its verdict, or what is
    known of its task. *)
Definition recorded r (pos : N) s : Prop :=
  ∃ u, records r !! step_id s = Some u ∧ number u = pos ∧
    ((∃ c, concluded r s = Some c ∧ status u = COMPLETED ∧ conclusion u = conclusion_to_proto c) ∨
     ∃ t, t ∈ tasks r ∧ k_step t = s ∧ k_number t = pos ∧
       match k_result t with
       | None => status u = IN_PROGRESS
       | Some res => status u = COMPLETED ∧
           conclusion u = conclusion_to_proto (FileCommands.conclusion (bg_result res))
       end).

Lemma loop_ok_same failed0 done r r' : same_but_tasks r r' → loop_ok failed0 done r → loop_ok failed0 done r'.
Proof.
  intros [Hj Hf Hc Hs Hh] [Hn Hst Hd Hfa Hv Hca Hho Hok].
  split; unfold ran, hook_task, status_ok in *; rewrite ?Hj, ?Hf, ?Hc, ?Hs; try done.
  intros n Hin. apply Hh in Hin as [Hin|Hin]; [by apply Hho|by left].
Qed.

Lemma task_event_records failed0 done r e (pos : N) s :
  loop_ok failed0 done r → (∀ s1 s2, s1 ∈ done → s2 ∈ done → step_id s1 = step_id s2 → s1 = s2) → s ∈ done →
  recorded r pos s → recorded (task_event runner_env r e) pos s.
Proof.
  intros Hlo Hids Hin Hrec. destruct e as [i|i a]; cbn [task_event]; (destruct (tasks r !! i) as [t|] eqn:Hi; [|done]).
  { by destruct (_ && _). }
  destruct (k_result t) eqn:Hr; [done|]. unfold end_task.
  set (r1 := if is_action (k_step t) && _ && _ then _ else r).
  assert (records r1 = records r ∧ tasks r1 = tasks r ∧ run_job r1 = run_job r) as (Hr1 & Ht1 & Hj1)
    by (unfold r1; by destruct (_ && _ && _)).
  clearbody r1. set (res := run_background_step runner_env t a). set (u' := mkUpdate _ _ _ _ _ _ _).
  set (r2 := record_log (a_log a) (report u' r1)).
  assert (records r2 = <[step_id (k_step t) := merge_step_update (records r !! step_id (k_step t)) (from_full u')]> (records r) ∧
    tasks r2 = tasks r ∧ run_job r2 = run_job r) as (Hr2 & Ht2 & Hj2).
  { unfold r2. destruct (record_log_with (a_log a) (report u' r1)) as [q Hq]. split; [|rewrite Hq; by cbn].
    by rewrite records_log, records_report, Hr1. }
  clearbody r2. destruct (lo_started _ _ _ Hlo (k_step t)) as (Htd & _ & Hnone);
    [apply list_elem_of_fmap; eauto using list_elem_of_lookup_2|].
  destruct Hrec as (u & Hu & Hn & Hcase).
  destruct (decide (step_id (k_step t) = step_id s)) as [He|Hne]; [apply Hids in He; [|done..]|].
  - destruct Hcase as [(c & Hc & _)|(t0 & Ht0 & Hs0 & Hn0 & _)].
    { apply concluded_verdict in Hc as [o Hc]. rewrite He in Hnone. congruence. }
    apply list_elem_of_lookup in Ht0 as [k Hk].
    assert (k = i) as ->.
    { eapply (NoDup_lookup (map context_name (started r))); [by eapply lo_nodup|..]; unfold started;
        rewrite !list_lookup_fmap; [by rewrite Hk|]. rewrite Hi. cbn. by rewrite He, Hs0. }
    rewrite Hi in Hk. injection Hk as <-.
    destruct (merge_completes u u') as (Hm1 & Hm2 & Hm3); [apply proto_nonzero|done|].
    exists (merge_step_update (Some u) (from_full u')). split.
    { change (records r2 !! step_id s = Some (merge_step_update (Some u) (from_full u'))). by rewrite Hr2, He, lookup_insert_eq, Hu. }
    rewrite Hm1, Hm2, Hm3. split; [done|]. right.
    eexists (mkTask (k_step t) (k_number t) (k_shown t) (k_job t) (Some res)). split; [|done]. cbn. rewrite Ht2.
    apply list_elem_of_lookup. exists i. rewrite list_lookup_insert_eq; [done|by eapply lookup_lt_Some].
  - exists u. split.
    { change (records r2 !! step_id s = Some u). by rewrite Hr2, lookup_insert_ne. }
    split; [done|]. destruct Hcase as [(c & Hc & Hx)|(t0 & Ht0 & Hs0 & Hx)]; [left|right].
    + exists c. split; [|done]. unfold concluded in *. cbn [run_job with_tasks]. by rewrite Hj2.
    + exists t0. split; [|done]. cbn [tasks with_tasks]. rewrite Ht2. apply list_elem_of_lookup in Ht0 as [k Hk].
      apply list_elem_of_lookup. exists k. rewrite list_lookup_insert_ne; [done|]. intros ->. congruence.
Qed.

Lemma proto_known :
  conclusion_to_proto "Skipped" = SKIPPED ∧ conclusion_to_proto "Failure" = FAILED ∧
  conclusion_to_proto "Cancelled" = FAILED ∧ conclusion_to_proto "Success" = SUCCEEDED.
Proof. unfold conclusion_to_proto. rewrite !to_lowercase_ascii by done. done. Qed.

Lemma run_foreground_records s pos shown a r :
  let r' := run_foreground runner_env s pos shown a r in
  (∀ id, id ≠ step_id s → records r' !! id = records r !! id) ∧
  (records r !! step_id s = None → recorded r' pos s).
Proof.
  cbv zeta. destruct (run_foreground_spec s pos shown a r) as (o & c & _ & Hv & _).
  assert (concluded (run_foreground runner_env s pos shown a r) s = Some c) as Hc
    by (apply concluded_verdict; exists o; by rewrite Hv, lookup_insert_eq).
  revert Hc. clear Hv. unfold run_foreground. set (u0 := mkUpdate _ _ _ IN_PROGRESS _ _ _).
  set (r1 := if registers s a then _ else _).
  assert (records r1 = <[step_id s := merge_step_update (records r !! step_id s) (from_full u0)]> (records r)) as Hr1.
  { rewrite <- (records_report u0). unfold r1. by destruct (registers s a), (entered a). }
  clearbody r1. set (v := step_verdict _ _ _ _). set (r2 := if str_eqb v.1 "Cancelled" then _ else _).
  assert (records r2 = records r1) as Hr2 by (unfold r2; by destruct (str_eqb _ _)). clearbody r2.
  destruct (conclude_step runner_env s a v (run_job r2)) as [c' j'] eqn:Hcs.
  set (r3 := if str_eqb c' "Failure" then _ else _).
  assert (records r3 = records r1 ∧ run_job r3 = with_job_status (job_status (run_job r3)) j') as [Hr3 Hj3].
  { unfold r3. destruct (str_eqb c' "Failure"), (str_eqb c' "Cancelled"); (split; [exact Hr2|]); try done. by destruct j'. }
  clearbody r3. intros Hc.
  assert (c' = c) as ->.
  { destruct (conclude_step_spec s a v (run_job r2)) as (o' & _ & Hv' & _); [apply step_verdict_ok|].
    rewrite Hcs in Hv'. cbn in Hv'. apply concluded_verdict in Hc as [o'' Hc]. revert Hc.
    match goal with |- context[record_log ?l ?r] => destruct (record_log_with l r) as [q' ->] end.
    cbn [run_job with_queue report]. rewrite Hj3, verdicts_status, Hv', lookup_insert_eq. congruence. }
  set (u := mkUpdate _ _ _ COMPLETED _ _ _) in *. split.
  - intros id Hne. rewrite records_log, records_report, Hr3, Hr1. by rewrite !lookup_insert_ne.
  - intros Hnone. rewrite Hnone, merge_fresh in Hr1.
    destruct (merge_completes u0 u) as (Hm1 & Hm2 & Hm3); [apply proto_nonzero|done|].
    exists (merge_step_update (Some u0) (from_full u)). split.
    { rewrite records_log, records_report, Hr3, Hr1. cbn [external_id u]. by rewrite !lookup_insert_eq. }
    rewrite Hm1, Hm2, Hm3. split; [done|]. left. exists c. done.
Qed.

Lemma run_turn_records pos s t r :
  let r' := run_turn hash_files runner_env pos s t r in
  (∀ id, id ≠ step_id s → records r' !! id = records (at_turn t r) !! id) ∧
  (records (at_turn t r) !! step_id s = None → recorded r' pos s) ∧
  (∀ t', t' ∈ tasks (at_turn t r) → t' ∈ tasks r').
Proof.
  cbv zeta. unfold run_turn. fold (at_turn t r). set (r1 := at_turn t r). clearbody r1.
  destruct proto_known as (Hps & Hpf & _).
  assert (∀ c u r', records r' = <[step_id s := merge_step_update (records r1 !! step_id s) (from_full u)]> (records r1) →
    number u = pos → status u = COMPLETED → conclusion u = conclusion_to_proto c → concluded r' s = Some c →
    (∀ id, id ≠ step_id s → records r' !! id = records r1 !! id) ∧ (records r1 !! step_id s = None → recorded r' pos s)) as Hone.
  { intros c u r' Hr' Hn Hst Hc Hcc. split; [intros id Hne; by rewrite Hr', lookup_insert_ne|]. intros Hnone.
    rewrite Hnone, merge_fresh in Hr'. exists u. split; [by rewrite Hr', lookup_insert_eq|]. split; [done|]. left. eauto. }
  assert (∀ c j', concluded (with_run_job (insert_result (context_name s) (FileCommands.mkStepResult c c ∅) j') r1) s = Some c) as Hcc.
  { intros c j'. unfold concluded, results, insert_result. cbn. by rewrite lookup_insert_eq. }
  destruct (if post_hook_orphaned s (hooks r1) then _ else _) as [[|]|].
  - destruct (is_background s).
    + split_and!.
      * intros id Hne. change (records (report (mkUpdate (step_id s) pos (t_shown t) IN_PROGRESS (Some (a_started (t_attempt t))) None 0) r1) !! id = records r1 !! id).
        by rewrite records_report, lookup_insert_ne.
      * intros Hnone. set (u0 := mkUpdate (step_id s) pos (t_shown t) IN_PROGRESS (Some (a_started (t_attempt t))) None 0).
        exists u0. split; [change (records (report u0 r1) !! step_id s = Some u0);
          rewrite records_report, lookup_insert_eq; change (external_id u0) with (step_id s); by rewrite Hnone, merge_fresh|].
        split; [done|]. right.
        exists (mkTask s pos (t_shown t) (run_job r1) None). split; [apply elem_of_app; right; by left|done].
      * intros t' Ht'. apply elem_of_app. by left.
    + destruct (run_foreground_records s pos (t_shown t) (t_attempt t) r1) as [Ha Hb]. split_and!; [done..|].
      destruct (run_foreground_spec s pos (t_shown t) (t_attempt t) r1) as (? & ? & _ & _ & _ & _ & Ht & _). by rewrite Ht.
  - set (u := mkUpdate (step_id s) pos (t_shown t) COMPLETED (Some (t_now t)) (Some (t_now t)) SKIPPED).
    destruct (Hone "Skipped" u (skip_step s pos (t_shown t) (t_now t) r1)) as [Ha Hb]; [exact (records_report u _)|done..| |].
    + exact (Hcc "Skipped" (run_job r1)).
    + split_and!; [exact Ha|exact Hb|done].
  - set (u := mkUpdate (step_id s) pos (t_shown t) COMPLETED (Some (t_now t)) (Some (t_now t)) FAILED).
    destruct (Hone "Failure" u (fail_condition s pos (t_shown t) (t_now t) r1)) as [Ha Hb]; [exact (records_report u _)|done..| |].
    + exact (Hcc "Failure" (with_job_status StatusFailure (run_job r1))).
    + split_and!; [exact Ha|exact Hb|done].
Qed.

Lemma task_event_other r e id :
  (∀ s, s ∈ started r → step_id s ≠ id) → records (task_event runner_env r e) !! id = records r !! id.
Proof.
  intros Hne. destruct e as [i|i a]; cbn [task_event]; (destruct (tasks r !! i) as [t|] eqn:Hi; [|done]).
  { by destruct (_ && _). }
  destruct (k_result t); [done|]. unfold end_task. set (r1 := if is_action (k_step t) && _ && _ then _ else r).
  assert (records r1 = records r) as Hr1 by (unfold r1; by destruct (_ && _ && _)). clearbody r1.
  match goal with |- records (with_tasks _ ?x) !! _ = _ => change (records x !! id = records r !! id) end.
  rewrite records_log, records_report, Hr1, lookup_insert_ne; [done|]. apply Hne, list_elem_of_fmap. eauto using list_elem_of_lookup_2.
Qed.

Lemma task_events_records failed0 done es r :
  loop_ok failed0 done r → (∀ s1 s2, s1 ∈ done → s2 ∈ done → step_id s1 = step_id s2 → s1 = s2) →
  (∀ s pos, s ∈ done → recorded r pos s → recorded (foldl (task_event runner_env) r es) pos s) ∧
  (∀ id, (∀ s, s ∈ started r → step_id s ≠ id) → records (foldl (task_event runner_env) r es) !! id = records r !! id).
Proof.
  revert r. induction es as [|e es IH]; intros r Hlo Hids; [done|]. cbn [foldl].
  pose proof (task_event_same r e) as Hs. destruct (IH (task_event runner_env r e)) as [Ha Hb]; [by eapply loop_ok_same|done|].
  split; [intros s pos Hin Hrec; apply Ha; [done|]; by eapply task_event_records|].
  intros id Hne. rewrite Hb by (rewrite (sb_started _ _ Hs); done). by apply task_event_other.
Qed.

Lemma join_all_queue signaled ts r : run_queue (join_all signaled ts r) = run_queue r.
Proof.
  revert signaled r. induction ts as [|t ts IH]; intros signaled r; [done|]. cbn [join_all]. rewrite IH.
  unfold join_task. destruct (k_result t); [|done]. cbn. by destruct (str_eqb _ "Failure"), (str_eqb _ "Cancelled" && _).
Qed.

Definition frame_ids (f : Frame (num:=num)) : list string := [setup_id f; init_id f; stop_id f; complete_id f].

Lemma in_take {A} i (l : list A) x : x ∈ take i l → x ∈ l.
Proof. intros Hx. rewrite <- (take_drop i l). apply elem_of_app. by left. Qed.
Lemma in_drop {A} i (l : list A) x : x ∈ drop i l → x ∈ l.
Proof. intros Hx. rewrite <- (take_drop i l). apply elem_of_app. by right. Qed.

Section reports.
Context (f : Frame (num:=num)) (steps : list (Step num)) (turn : nat → Turn (num:=num)) (j : RunnerJob num) (q : ServerQueue).
Hypothesis Hfresh : fresh_job j.
Hypothesis Hnd : NoDup (map context_name steps).
Hypothesis Hids : NoDup (map step_id steps ++ frame_ids f).
Hypothesis Hq : all_steps q = ∅.

Lemma same_id s s' : s ∈ steps → s' ∈ steps → step_id s = step_id s' → s = s'.
Proof using Hids.
  intros [i Hi]%list_elem_of_lookup [k Hk]%list_elem_of_lookup He. apply NoDup_app in Hids as (Hids' & _).
  assert (i = k) as ->; [|congruence].
  eapply (NoDup_lookup (map step_id steps)); [done|..]; rewrite list_lookup_fmap; [by rewrite Hi|by rewrite Hk, He].
Qed.

Lemma same_index i k s s' : steps !! i = Some s → steps !! k = Some s' → context_name s = context_name s' → i = k.
Proof using Hnd.
  intros Hi Hk He. eapply (NoDup_lookup (map context_name steps)); [done|..]; rewrite list_lookup_fmap;
    [by rewrite Hi|by rewrite Hk, He].
Qed.

Lemma start_records s :
  s ∈ steps → records (initialize f (set_up f (start_run j q))) !! step_id s = None.
Proof using Hids Hq.
  intros Hs. assert (step_id s ∉ frame_ids f) as Hns.
  { apply NoDup_app in Hids as (_ & Hd & _). apply Hd. by apply list_elem_of_fmap_2. }
  unfold frame_ids in Hns. rewrite !not_elem_of_cons in Hns. destruct Hns as (Hn1 & Hn2 & _).
  assert (records (set_up f (start_run j q)) !! step_id s = None) as Hsu.
  { unfold set_up. rewrite records_log, records_report, lookup_insert_ne by done. unfold records, start_run. cbn. by rewrite Hq. }
  unfold initialize. destruct (has_containers f); [|done]. rewrite records_log, records_report, lookup_insert_ne by done.
  set (u0 := mkUpdate _ _ _ IN_PROGRESS _ _ _). match goal with |- records ?x !! _ = _ =>
    assert (records x = records (report u0 (set_up f (start_run j q)))) as -> by by destruct (f_init_error f) end.
  by rewrite records_report, lookup_insert_ne.
Qed.

Lemma reached_recorded i :
  (∀ k s, k < i → steps !! k = Some s → recorded (reached f steps turn j q i) (step_offset f + N.of_nat k) s) ∧
  (∀ s, s ∈ drop i steps → records (reached f steps turn j q i) !! step_id s = None) ∧
  (∀ id, id ∉ map step_id steps →
    records (reached f steps turn j q i) !! id = records (initialize f (set_up f (start_run j q))) !! id).
Proof using Hfresh Hnd Hids Hq.
  induction i as [|i (Ha & Hb & Hc)].
  - split_and!; [lia| |done]. intros s Hs. rewrite drop_0 in Hs. unfold reached. rewrite take_0. by apply start_records.
  - destruct (steps !! i) as [s|] eqn:Hi.
    2: { assert (reached f steps turn j q (S i) = reached f steps turn j q i) as ->.
         { apply lookup_ge_None in Hi. unfold reached. by rewrite !take_ge by lia. }
         split_and!; [|intros s' Hs'; apply Hb|done].
         - intros k s Hk Hs. apply Ha; [|done]. apply lookup_lt_Some in Hs. apply lookup_ge_None in Hi. lia.
         - apply lookup_ge_None in Hi. rewrite drop_ge in Hs' by lia. by apply elem_of_nil in Hs'. }
    set (r := reached f steps turn j q i) in *. rewrite (reached_S _ _ _ _ _ _ _ Hi). fold r.
    pose proof (reached_ok f steps turn j q i Hfresh Hnd) as Hlo. fold r in Hlo.
    destruct (task_events_records (init_failed f) (take i steps) (t_events (turn i)) r Hlo) as [Hra Hrb].
    { intros s1 s2 H1' H2'. apply same_id; by apply (in_take i). }
    set (r1 := foldl _ r _) in *.
    assert (records (at_turn (turn i) r) = records r1) as Hat by (unfold at_turn, notice_cancel; by destruct (_ && _)).
    destruct (run_turn_records (step_offset f + N.of_nat i) s (turn i) r) as (Hta & Htb & Htc). rewrite Hat in Hta, Htb.
    pose proof (run_turn_spec (step_offset f + N.of_nat i) s (turn i) r) as Hturned.
    set (r' := run_turn _ _ _ _ _ r) in *. clearbody r'.
    assert (∀ s', s' ∈ started r → s' ∈ steps) as Hst by (intros s' (Hs' & _)%(lo_started _ _ _ Hlo); by apply (in_take i)).
    assert (∀ s', s' ∈ drop i steps → ∀ s'', s'' ∈ started r → step_id s'' ≠ step_id s') as Hdrop.
    { intros s' Hs' s'' Hs'' He. apply same_id in He as ->; [|by apply Hst|by apply (in_drop i)].
      destruct (lo_started _ _ _ Hlo s' Hs'') as (Hin & _).
      apply list_elem_of_lookup in Hin as [k Hk], Hs' as [k' Hk']. apply lookup_take_Some in Hk as [Hk Hlt]. rewrite lookup_drop in Hk'.
      pose proof (same_index _ _ _ _ Hk Hk' eq_refl). lia. }
    split_and!.
    + intros k s' Hk Hs'. destruct (decide (k = i)) as [->|Hne].
      * assert (s' = s) as -> by congruence. apply Htb. rewrite Hrb, Hb; [done|..|apply Hdrop];
          rewrite (drop_S _ _ _ Hi); by left.
      * assert (k < i) as Hlt by lia. assert (s' ∈ take i steps) as Hin.
        { apply list_elem_of_lookup. exists k. by apply lookup_take_Some. }
        apply (Hra s' (step_offset f + N.of_nat k)%N Hin) in Ha as (u & Hu & Hn & Hcase); [|done..].
        exists u. assert (step_id s' ≠ step_id s) as Hid.
        { intros He. apply same_id in He as ->; [|by eapply list_elem_of_lookup_2..]. apply Hne.
          by apply (same_index _ _ s s). }
        rewrite Hta by done. split; [done|]. split; [done|]. destruct Hcase as [(c & Hcc & Hx)|(t & Ht & Hx)]; [left|right].
        -- exists c. split; [|done]. apply concluded_verdict in Hcc as [o Hcc]. apply concluded_verdict. exists o.
           rewrite <- Hcc. assert (run_job r1 = run_job r) as ->
             by apply (sb_job _ _ (task_events_same (t_events (turn i)) r)).
           eapply turned_keeps; [exact Hturned|]. intros He. by apply Hne, (same_index _ _ s' s).
        -- exists t. split; [|done]. apply Htc. unfold at_turn, notice_cancel. by destruct (_ && _).
    + intros s' Hs'. assert (s' ∈ drop i steps) as Hs'' by (rewrite (drop_S _ _ _ Hi); by right).
      rewrite Hta.
      * rewrite Hrb; [by apply Hb|by apply Hdrop].
      * intros He. apply same_id in He as ->; [|by apply (in_drop i)|by eapply list_elem_of_lookup_2].
        apply list_elem_of_lookup in Hs' as [k Hk]. rewrite lookup_drop in Hk.
        pose proof (same_index _ _ _ _ Hk Hi eq_refl). lia.
    + intros id Hid. rewrite Hta, Hrb.
      * by apply Hc.
      * intros s' Hs' <-. apply Hid. by apply list_elem_of_fmap_2, Hst.
      * intros ->. apply Hid. by eapply list_elem_of_fmap_2, list_elem_of_lookup_2.
Qed.

(** The queue after the join and the two closing reports. *)
Lemma final_records id :
  id ∉ frame_ids f →
  records (final f steps turn j q) !! id =
    records (foldl (task_event runner_env) (reached f steps turn j q (length steps)) (f_events f)) !! id.
Proof using.
  unfold frame_ids. rewrite !not_elem_of_cons. intros (_ & _ & Hstop & Hcomplete & _).
  unfold final, run_steps, complete_job. cbn [snd]. rewrite records_log, records_report, lookup_insert_ne by done.
  transitivity (records (run_all hash_files runner_env f steps turn j q) !! id).
  - unfold stop_containers. destruct (has_containers f); [|done].
    by rewrite records_log, records_report, lookup_insert_ne, records_report, lookup_insert_ne.
  - unfold run_all, records, reached. rewrite join_all_queue. by rewrite firstn_all.
Qed.

(** C9: every step gets a report. The job is handed over without results, its
    steps have distinct context names, the ids of the steps and of the four
    steps of the runner are distinct, and the queue of reports knows no step
    yet. Then in the end the runner's own record of the step at [i], from
    which the updates for the server are taken, has the number [i] counted
    from the first user step; it says that the step completed, with the
    conclusion the contexts of the job show for it; except for a background
    step that never returned, which is left in progress. (Whether the record
    is delivered is the matter of the flushes in [StepReports].) *)
Theorem every_step_reported i s :
  steps !! i = Some s →
  let r := (run_steps hash_files runner_env f steps turn j q).2 in
  ∃ u, records r !! step_id s = Some u ∧ number u = (step_offset f + N.of_nat i)%N ∧
    match concluded r s with
    | Some c => status u = COMPLETED ∧ conclusion u = conclusion_to_proto c
    | None => is_background s = true ∧ status u = IN_PROGRESS
    end.
Proof using Hfresh Hnd Hids Hq.
  intros Hi r. assert (s ∈ steps) as Hin by by eapply list_elem_of_lookup_2.
  apply lookup_lt_Some in Hi as Hlt. destruct (reached_recorded (length steps)) as (Hrec & _).
  pose proof (reached_ok f steps turn j q (length steps) Hfresh Hnd) as Hlo. rewrite firstn_all in Hlo.
  destruct (task_events_records _ _ (f_events f) _ Hlo same_id) as [Hr _].
  destruct (Hr s _ Hin (Hrec i s Hlt Hi)) as (u & Hu & Hn & Hcase). exists u.
  destruct (final_spec f steps turn j q Hfresh Hnd) as (Hsame & _ & _ & _ & Htasks).
  pose proof (final_same f steps turn j q) as (Hfj & _ & _). rewrite <- Hfj in Hsame, Htasks.
  pose proof (task_events_same (f_events f) (reached f steps turn j q (length steps))) as [Hj2 _ _ Hs2 _].
  split; [|split; [done|]].
  { rewrite <- Hu. apply final_records. apply NoDup_app in Hids as (_ & Hd & _). by apply Hd, list_elem_of_fmap_2. }
  destruct Hcase as [(c & (o & Hc)%concluded_verdict & Hx)|(t & Ht & <- & _ & Hx)].
  - rewrite Hj2 in Hc. enough (concluded r s = Some c) as -> by done. apply concluded_verdict. exists o.
    rewrite <- Hc. apply Hsame; [done|]. intros (_ & _ & Hno)%(lo_started _ _ _ Hlo). congruence.
  - apply Htasks in Ht as Hv. assert (is_background (k_step t) = true) as Hb.
    { apply (lo_started _ _ _ Hlo). rewrite <- Hs2. by apply list_elem_of_fmap_2. }
    unfold task_name in Hv. destruct (k_result t) as [res|]; cbn in Hv.
    + assert (concluded r (k_step t) = Some (FileCommands.conclusion (bg_result res))) as ->
        by (apply concluded_verdict; by eexists). done.
    + assert (concluded r (k_step t) = None) as ->; [|done].
      destruct (concluded r (k_step t)) as [c|] eqn:Hc; [|done]. apply concluded_verdict in Hc as [o Hc].
      discriminate (eq_trans (eq_sym Hv) Hc).
Qed.
End reports.
End laws.

(** ** Examples *)

#[local] Instance no_artifacts : FileCommands.ArtifactFiles :=
  {| FileCommands.current_dir := "/"; FileCommands.file_at _ := FileCommands.Absent; FileCommands.sha256_hex _ := "" |}.

Definition sample_left : Left Z := mkLeft (FileCommands.mkJob ∅ [] ∅ ∅ None [] (Some "/w")) ∅ [].
Definition sample_job : RunnerJob Z := mkRunnerJob (l_files sample_left) [] StatusSuccess ∅ [].
Definition nothing_written : FileCommands.FileCommandPaths :=
  let e := FileCommands.Regular [] in FileCommands.mkPaths e e e e FileCommands.Absent.

(** A step whose handler returns [error]. *)
Definition returns (error : option string) : Attempt (num:=Z) :=
  mkAttempt None None true error sample_left false false false nothing_written "step" "" "t1" "t2".
Definition unmasked (a : Attempt (num:=Z)) : Attempt (num:=Z) :=
  mkAttempt (a_env_error a) (a_setup_error a) (a_registers a) (a_handler a) (a_left a) (a_timed_out a) (a_cancel a) true
    (a_paths a) (a_name a) (a_log a) (a_started a) (a_ended a).
Definition turn_of (error : option string) : Turn (num:=Z) := mkTurn [] false "t0" "step" (returns error).
Definition turns (ts : list (Turn (num:=Z))) (i : nat) : Turn (num:=Z) := default (turn_of None) (ts !! i).

Definition script_step (name : string) (if_ : option string) : Step Z :=
  mkStep name name name (Script "make" None None) if_ false None ∅ JNull false [].
Definition action_step (name uses : string) (background : bool) : Step Z :=
  mkStep name name name (Action uses JNull) None false None ∅ JNull background [].
Definition tolerant (s : Step Z) : Step Z :=
  mkStep (step_id s) (context_name s) (display_name s) (step_type s) (condition s) true (timeout_minutes s) (step_env s)
    (raw s) (is_background s) (post_of s).

Definition bare_frame (events : list (TaskEvent (num:=Z))) : Frame (num:=Z) :=
  mkFrame false "setup-id" "init-id" "stop-id" "complete-id" "t0" "" false sample_left "" "" "" events (λ _, false) "" "" "" "t9".

Definition sample_run (events : list (TaskEvent (num:=Z))) (steps : list (Step Z)) (ts : list (Turn (num:=Z))) : string * Run (num:=Z) :=
  run_steps no_files None (bare_frame events) steps (turns ts) sample_job (new_queue "job" "plan").

(** A build that fails, a test that waits for it, a report that always runs. *)
Definition sample_steps : list (Step Z) :=
  [script_step "build" None; script_step "test" (Some "${{ github.ref != 'x' }}"); script_step "report" (Some "always()")].
Definition failing_turns : list (Turn (num:=Z)) := [turn_of (Some "process exit code 2"); turn_of None; turn_of None].

Lemma sample_fresh : fresh_job sample_job.
Proof. by split. Qed.
Lemma sample_names : NoDup (map context_name sample_steps).
Proof. apply (bool_decide_unpack _). by vm_compute. Qed.

Lemma sample_ids : NoDup (map step_id sample_steps ++ frame_ids (bare_frame [])).
Proof. apply (bool_decide_unpack _). by vm_compute. Qed.


Lemma failure_stops_plain_steps_witness :
  concluded (sample_run [] sample_steps failing_turns).2 (script_step "test" (Some "${{ github.ref != 'x' }}")) = Some "Skipped".
Proof.
  destruct (failure_stops_plain_steps no_files None (bare_frame []) sample_steps (turns failing_turns) sample_job
    (new_queue "job" "plan") 1 (script_step "test" (Some "${{ github.ref != 'x' }}")) sample_fresh sample_names eq_refl)
    as (_ & _ & Hs); [| |exact Hs].
  - right. split; [by apply ascii_utf8_ok|]. split; [reflexivity|].
    split; [eexists; vm_compute; reflexivity|by vm_compute].
  - right; right. exists (script_step "build" None), "Failure". split; [by left|]. split; [vm_compute; reflexivity|by left].
Defined.

Lemma every_step_reported_witness :
  ∃ u, records (sample_run [] sample_steps failing_turns).2 !! "report" = Some u ∧ number u = 4%N ∧
    status u = COMPLETED ∧ conclusion u = SUCCEEDED.
Proof.
  destruct (every_step_reported no_files None (bare_frame []) sample_steps (turns failing_turns) sample_job
    (new_queue "job" "plan") sample_fresh sample_names sample_ids eq_refl 2 (script_step "report" (Some "always()")) eq_refl)
    as (u & Hu & Hn & Hc).
  assert (concluded (sample_run [] sample_steps failing_turns).2 (script_step "report" (Some "always()")) = Some "Success") as He
    by (vm_compute; reflexivity).
  unfold sample_run in He. rewrite He in Hc. destruct Hc as [Hs Hc]. exists u. split_and!; [exact Hu|exact Hn|exact Hs|by rewrite Hc].
Defined.

(** An action with a post hook. *)
Definition node_action (post_if : string) : ActionManifest := mkManifest "node20" None None (Some "post.js") (Some post_if).
Definition with_hooks_of (m : ActionManifest) (main : list (Step Z)) : list (Step Z) :=
  build_step_list_with_lifecycle (λ _, Some m) "/w" {["acme/cache@v1" := "/actions/cache"]} main.
Definition cache_step : Step Z := action_step "cache" "acme/cache@v1" false.


(** The loop ends with the post hooks, and only then the background steps are
    joined: a hook that runs only on success runs although the job fails. *)
Example background_failure_after_post_hooks :
  let steps := with_hooks_of (node_action "success()") [action_step "server" "acme/other@v1" true; cache_step] in
  let '(verdict, r) := sample_run [TaskEnds 0 (returns (Some "process exit code 1"))] steps [] in
  verdict = "Failed" ∧ FileCommands.conclusion <$> results (run_job r) !! "__post_cache" = Some "Success".
Proof. by vm_compute. Qed.

(** A background step that panics is never reported as completed, and the job
    succeeds. *)
Example panicked_background_step_succeeds :
  let '(verdict, r) := sample_run [] [action_step "server" "acme/other@v1" true] [] in
  verdict = "Succeeded" ∧ status <$> records r !! "server" = Some IN_PROGRESS.
Proof. by vm_compute. Qed.

(** A log that could not be masked fails a step, unless it runs in the
    background. *)
Example background_masking_failure_succeeds :
  (sample_run [] [action_step "leak" "acme/other@v1" false]
     [mkTurn [] false "t0" "leak" (unmasked (returns None))]).1 = "Failed" ∧
  (sample_run [TaskEnds 0 (unmasked (returns None))] [action_step "leak" "acme/other@v1" true] []).1 = "Succeeded".
Proof. by vm_compute. Qed.

(** An error that mentions a cancellation cancels the job, whatever caused it,
    also where failures are tolerated. *)
Example error_text_cancels_job :
  (sample_run [] [tolerant (script_step "order" None)] [turn_of (Some "the order was canceled")]).1 = "Cancelled" ∧
  (sample_run [] [tolerant (script_step "order" None)] [turn_of (Some "the order was rejected")]).1 = "Succeeded".
Proof. by vm_compute. Qed.

(** After a cancellation, a condition that cannot be evaluated makes the status
    of the job a failure: [cancelled()] is false from there on. *)
Example condition_error_hides_cancellation :
  let '(verdict, r) := sample_run []
    [script_step "bad" (Some "always() && fromJSON('{')"); script_step "undo" (Some "cancelled()")]
    [mkTurn [] true "t0" "bad" (returns None)] in
  verdict = "Cancelled" ∧ concluded r (script_step "undo" None) = Some "Skipped".
Proof. by vm_compute. Qed.

(** Actions for node22 are run, but their hooks are dropped. *)
Example node22_hooks_dropped :
  let m := mkManifest "node22" (Some "pre.js") None (Some "post.js") None in
  runs_with_node m = true ∧ action_supports_lifecycle m = false ∧ with_hooks_of m [cache_step] = [cache_step].
Proof. by vm_compute. Qed.
