(* ===== verification/CompositeSteps.v ===== *)
(** * The steps of a composite action

    [run_composite_action_inner] of
    [crates/preloop-runner/src/worker/handlers/composite.rs]: the loop over the
    steps of a composite action with its gate, and the outputs of the action,
    which it appends to the file [GITHUB_OUTPUT] of its own step.

    As in [StepRun], what a process or a nested action does is an input
    ([InnerAttempt]); the steps are the JSON values of [action.yml]. *)
From S2P Require Import FileCommands.
From S2P Require Import WorkerCommands.
From S2P Require Export StepRun.

Section composite.
Context {num : Type} `{NumberOps num, JsonCodec num, UnicodeCase, UnicodeLower, HashOrder}.
Variable hash_files : list (value num) → option string → result ExpressionError string.
Implicit Types (j : RunnerJob num) (step : value num).

Definition MAX_COMPOSITE_DEPTH : nat := 10.

Definition member step (key : string) : option (value num) := as_object step ≫= imap_get key.
Definition text_member step (key : string) : option string := member step key ≫= as_str.

Definition inner_id (i : nat) step : string := default ("composite_step_" +:+ pretty i) (text_member step "id").
Definition inner_condition step : option string := text_member step "if".
Definition inner_continues step : bool :=
  match member step "continue-on-error" with Some (JBool b) => b | _ => false end.

(** What one step meets: the job and the environment when its condition is
    evaluated, the channel, and what the script or the nested action did. *)
Record InnerAttempt : Type := mkInner {
  n_before : Left num;
  n_env : gmap string string;
  n_cancel : bool;
  n_setup_error : option string;
  n_error : option string;
  n_left : Left num;
  n_paths : FileCommands.FileCommandPaths;
}.

Inductive InnerError : Type :=
| HandlerFailed (msg : string)
| CommandsFailed (e : FileCommands.FileCommandError)
| ConditionFailed (e : ExpressionError)
| SetupFailed (msg : string)
| OutputFailed (msg : string)
| NestingDepthExceeded
| MissingSteps.

Record Composite : Type := mkComposite {
  c_job : RunnerJob num;
  c_results : list (string * FileCommands.StepResult);
  c_failed : option InnerError;
}.

(** ** Contexts *)

(** [StepContext::build_expression_context]: the step's environment on top. *)
Definition step_context (env : gmap string string) j : Context num :=
  let c := build_expression_context j in
  if bool_decide (env = ∅) then c else merge_root c "env" (JObject (string_entries env)).

Definition composite_inputs (input_env : gmap string string) : list (string * value num) :=
  foldl (λ m k, match strip_prefix "INPUT_" k, input_env !! k with
                | Some name, Some v => imap_insert (to_lowercase name) (JString v) m
                | _, _ => m
                end) [] (hash_order (dom input_env)).

Definition results_value (results : list (string * FileCommands.StepResult)) : value num :=
  JObject ((λ '(id, r), (id, step_value r)) <$> results).

Definition composite_inner_context (env input_env : gmap string string)
    (results : list (string * FileCommands.StepResult)) j : Context num :=
  context_insert (context_insert (step_context env j) "inputs" (JObject (composite_inputs input_env)))
    "steps" (results_value results).

Definition gate_context (input_env : gmap string string) (a : InnerAttempt) (c : Composite) : Context num :=
  let failed := bool_decide (is_Some (c_failed c)) in
  with_status (composite_inner_context (n_env a) input_env (c_results c) (leave (n_before a) (c_job c)))
    (negb failed && negb (n_cancel a)) failed (n_cancel a).

(** ** The loop *)

Inductive Flow : Type := Next (c : Composite) | Stop (c : Composite) | Abandon (error : InnerError) (c : Composite).

Definition record_inner (id outcome : string) (outputs : gmap string string) (c : Composite) : Composite :=
  mkComposite (c_job c) (imap_insert id (FileCommands.mkStepResult outcome outcome outputs) (c_results c)) (c_failed c).

(** What became of a step: a step that neither runs nor uses anything is skipped. *)
Definition inner_outcome step (a : InnerAttempt) : option InnerError * string :=
  match text_member step "run", text_member step "uses" with
  | None, None => (None, "Skipped")
  | _, _ => (HandlerFailed <$> n_error a, "Success")
  end.

(** The file commands of the step: the environment and the path reach the job,
    the outputs only the results of the composite. *)
Definition inner_commands (a : InnerAttempt) j : result FileCommands.FileCommandError (gmap string string) * RunnerJob num :=
  let '(applied, f) := FileCommands.apply_file_commands_to_job (n_paths a) (files j) in
  (match applied with
   | Ok _ => FileCommands.kv_of (FileCommands.output_file (n_paths a))
   | Err e => Err e
   end, with_files f j).

Definition execute_inner (i : nat) step (a : InnerAttempt) (c : Composite) : Composite :=
  let id := inner_id i step in
  let '(error, verdict) := inner_outcome step a in
  let '(commands, j) := inner_commands a (leave (n_left a) (c_job c)) in
  let c := mkComposite j (c_results c) (c_failed c) in
  let '(error, outputs) :=
    match error, commands with
    | Some e, _ => (Some e, ∅)
    | None, Ok outputs => (None, outputs)
    | None, Err e => (Some (CommandsFailed e), ∅)
    end in
  match error with
  | None => record_inner id verdict outputs c
  | Some e =>
      if inner_continues step then record_inner id "Success" outputs c
      else
        let c := record_inner id "Failure" outputs c in
        mkComposite (c_job c) (c_results c) (Some (default e (c_failed c)))
  end.

Definition inner_turn (input_env : gmap string string) (i : nat) step (a : InnerAttempt) (c : Composite) : Flow :=
  let ctx := gate_context input_env a c in
  let c := mkComposite (leave (n_before a) (c_job c)) (c_results c) (c_failed c) in
  match eval_bool hash_files (effective_condition (inner_condition step)) ctx with
  | Ok false => Next (record_inner (inner_id i step) "Skipped" ∅ c)
  | Err e =>
      let c := record_inner (inner_id i step) "Failure" ∅ c in
      Stop (mkComposite (c_job c) (c_results c) (Some (ConditionFailed e)))
  | Ok true =>
      match n_setup_error a with
      | Some e => Abandon (SetupFailed e) c
      | None => Next (execute_inner i step a c)
      end
  end.

Fixpoint inner_loop (input_env : gmap string string) (i : nat) (steps : list (value num))
    (attempt : nat → InnerAttempt) (c : Composite) : Flow :=
  match steps with
  | [] => Next c
  | step :: steps =>
      match inner_turn input_env i step (attempt i) c with
      | Next c => inner_loop input_env (S i) steps attempt c
      | flow => flow
      end
  end.

(** ** Outputs *)

Definition output_text (v : value num) : string :=
  match v with
  | JNull => ""
  | JBool b => if b then "true" else "false"
  | JNumber n => num_to_string n
  | JString s => s
  | v => json_to_string v
  end.

Definition outputs_context (results : list (string * FileCommands.StepResult)) j : Context num :=
  context_insert (context_insert context_default "steps" (results_value results))
    "env" (JObject (string_entries (FileCommands.env (files j)))).

(** An output whose expression fails is left out. *)
Definition composite_outputs (defs : list (string * value num)) (c : Composite) : list (string * string) :=
  omap (λ '(name, def),
    text ← text_member def "value";
    match eval_expression hash_files (trim_expression_markers text) (outputs_context (c_results c) (c_job c)) with
    | Ok v => Some (name, output_text v)
    | Err _ => None
    end) defs.

(** [writeln!(file, "{output_name}={val_str}")]. *)
Definition output_line (o : string * string) : bytes :=
  Utf8.bytes o.1 ++ [61]%N ++ Utf8.bytes o.2 ++ [10]%N.
Definition write_outputs (os : list (string * string)) : bytes := concat (output_line <$> os).

(** The whole action: its result, the state it leaves and what it appends to
    [GITHUB_OUTPUT], which is set; [write_error] is that of the file. *)
Definition run_composite_action_inner (depth : nat) (runs_steps : option (list (value num)))
    (outputs : option (list (string * value num))) (input_env : gmap string string) (attempt : nat → InnerAttempt)
    (write_error : option string) j : result InnerError () * Composite * bytes :=
  let c := mkComposite j [] None in
  if MAX_COMPOSITE_DEPTH <=? depth then (Err NestingDepthExceeded, c, [])
  else
    match runs_steps with
    | None => (Err MissingSteps, c, [])
    | Some steps =>
        match inner_loop input_env 0 steps attempt c with
        | Abandon e c => (Err e, c, [])
        | Next c | Stop c =>
            let os := match outputs with Some defs => composite_outputs defs c | None => [] end in
            match write_error, os with
            | Some e, _ :: _ => (Err (OutputFailed e), c, [])
            | _, _ => (match c_failed c with Some e => Err e | None => Ok tt end, c, write_outputs os)
            end
        end
    end.

(** ** The loop, as the results it adds *)

Fixpoint inner_ids (i : nat) (steps : list (value num)) : list string :=
  match steps with [] => [] | step :: steps => inner_id i step :: inner_ids (S i) steps end.

Definition failing (x : string * FileCommands.StepResult) : Prop := FileCommands.conclusion x.2 = "Failure".
Definition skipped_result : FileCommands.StepResult := FileCommands.mkStepResult "Skipped" "Skipped" ∅.

(** [c_failed] tells whether a result is a failure. *)
Definition failed_ok (c : Composite) : Prop := c_failed c = None ↔ Forall (λ x, ¬ (failing x)) (c_results c).

(** The result that a turn adds. *)
Record turn_adds (i : nat) step (a : InnerAttempt) (c c' : Composite) (r : FileCommands.StepResult) : Prop := {
  ta_results : c_results c' = c_results c ++ [(inner_id i step, r)];
  ta_failed : c_failed c' = None ↔ c_failed c = None ∧ FileCommands.conclusion r ≠ "Failure";
  ta_gate : plain_condition (num:=num) (inner_condition step) → c_failed c ≠ None ∨ n_cancel a = true → r = skipped_result;
}.

Lemma turn_adds_ok i step a c c' r : turn_adds i step a c c' r → failed_ok c → failed_ok c'.
Proof.
  intros [Hr Hf _] Hc. unfold failed_ok in *. rewrite Hf, Hc, Hr, Forall_app, Forall_singleton. done.
Qed.

Lemma inner_outcome_ne step a e v : inner_outcome step a = (e, v) → v ≠ "Failure".
Proof. unfold inner_outcome. intros. by repeat case_match; simplify_eq. Qed.

Lemma execute_inner_adds i step a c :
  inner_id i step ∉ (c_results c).*1 →
  ∃ o outputs, c_results (execute_inner i step a c) = c_results c ++ [(inner_id i step, FileCommands.mkStepResult o o outputs)] ∧
    (c_failed (execute_inner i step a c) = None ↔ c_failed c = None ∧ o ≠ "Failure").
Proof.
  intros Hid. unfold execute_inner. destruct (inner_outcome step a) as [e v] eqn:Ho.
  apply inner_outcome_ne in Ho. destruct (inner_commands _ _) as [commands j'].
  destruct e as [e|], commands as [m|ce]; [| | |]; try destruct (inner_continues step);
    cbn; rewrite imap_insert_fresh by done; (eexists _, _; split; [reflexivity|]); naive_solver.
Qed.

Lemma gate_context_success input_env a c :
  c_failed c ≠ None ∨ n_cancel a = true → success (gate_context input_env a c) = false.
Proof.
  intros Hc. unfold gate_context. cbn. destruct (c_failed c) eqn:Hf.
  - by rewrite bool_decide_true by done.
  - destruct Hc as [?| ->]; [done|]. by rewrite andb_false_r.
Qed.

Lemma inner_turn_adds input_env i step a c :
  inner_id i step ∉ (c_results c).*1 →
  (∃ c' r, turn_adds i step a c c' r ∧
    (inner_turn input_env i step a c = Next c' ∨
     inner_turn input_env i step a c = Stop c' ∧ c_failed c' ≠ None)) ∨
  ∃ e c', inner_turn input_env i step a c = Abandon e c' ∧ c_results c' = c_results c ∧ c_failed c' = c_failed c.
Proof.
  intros Hid. unfold inner_turn.
  destruct (eval_bool _ _ _) as [[|]|e] eqn:He.
  - set (c0 := mkComposite _ _ _). destruct (n_setup_error a); [right; by eexists _, _|left].
    destruct (execute_inner_adds i step a c0 Hid) as (o & outputs & Hr & Hf).
    eexists _, _. split; [|by left]. split; [exact Hr|exact Hf|].
    intros Hp Hc. rewrite plain_unsuccessful in He; [done|done|by apply gate_context_success].
  - left. eexists _, _. split; [|by left]. split; [cbn; by rewrite imap_insert_fresh| |done]. cbn. naive_solver.
  - left. eexists _, _. split; [|by right]. split; [cbn; by rewrite imap_insert_fresh|cbn; naive_solver|].
    intros Hp Hc. rewrite plain_unsuccessful in He; [done|done|by apply gate_context_success].
Qed.

(** What the loop makes of the steps from the [i]th on. *)
Record loop_adds (attempt : nat → InnerAttempt) (i : nat) (steps : list (value num)) (c c' : Composite)
    (rs : list (string * FileCommands.StepResult)) : Prop := {
  la_failed : failed_ok c';
  la_results : c_results c' = c_results c ++ rs;
  la_ids : rs.*1 `prefix_of` inner_ids i steps;
  la_skips k step x :
    steps !! k = Some step → rs !! k = Some x → plain_condition (num:=num) (inner_condition step) →
    n_cancel (attempt (i + k)) = true ∨ Exists failing (c_results c ++ take k rs) → x.2 = skipped_result;
}.

Lemma failed_ok_exists c : failed_ok c → Exists failing (c_results c) → c_failed c ≠ None.
Proof.
  intros Hc He Hn. apply Hc in Hn. rewrite Exists_exists in He. destruct He as (x & Hx & Hf).
  rewrite Forall_forall in Hn. by apply (Hn x).
Qed.

Lemma inner_loop_adds input_env attempt steps i c :
  failed_ok c → NoDup ((c_results c).*1 ++ inner_ids i steps) →
  ∃ c' rs, loop_adds attempt i steps c c' rs ∧
    (inner_loop input_env i steps attempt c = Next c' ∧ rs.*1 = inner_ids i steps ∨
     inner_loop input_env i steps attempt c = Stop c' ∧ c_failed c' ≠ None ∨
     ∃ e, inner_loop input_env i steps attempt c = Abandon e c' ∧ length rs < length steps).
Proof.
  intros Hc Hnd. revert i c Hc Hnd. induction steps as [|step steps IH]; intros i c Hc Hnd.
  { exists c, []. split; [|by left]. split; [done|by rewrite app_nil_r|done|done]. }
  assert (inner_id i step ∉ (c_results c).*1) as Hid.
  { apply NoDup_app in Hnd as (_ & Hd & _). intros Hin. eapply Hd; [done|by left]. }
  destruct (inner_turn_adds input_env i step (attempt i) c Hid)
    as [(c1 & r & Hadd & Hflow)|(e & c1 & Hab & Hr & Hf)]; cycle 1.
  { exists c1, []. split; [|right; right; exists e; cbn; rewrite Hab; split; [done|lia]].
    split; [unfold failed_ok in *; by rewrite Hf, Hr|by rewrite app_nil_r|apply prefix_nil|done]. }
  pose proof (turn_adds_ok _ _ _ _ _ _ Hadd Hc) as Hc1. destruct Hadd as [Hr _ Hg].
  assert (∀ x, plain_condition (num:=num) (inner_condition step) →
    n_cancel (attempt (i + 0)) = true ∨ Exists failing (c_results c ++ []) → (inner_id i step, r) = x → x.2 = skipped_result) as Hhead.
  { intros x Hp Hbad <-. apply (Hg Hp). rewrite Nat.add_0_r, app_nil_r in Hbad.
    destruct Hbad as [?|?]; [by right|left; by apply failed_ok_exists]. }
  destruct Hflow as [Hn|[Hst Hf]]; cycle 1.
  { exists c1, [(inner_id i step, r)]. split; [|right; left; cbn; by rewrite Hst].
    split; [done|done|by apply prefix_cons, prefix_nil|].
    intros [|k] s x; [|done]. intros [= <-] [= Hx] Hp Hbad. by apply (Hhead x). }
  destruct (IH (S i) c1 Hc1) as (c' & rs & [Hc' Hr' Hp' Hk'] & Hflow).
  { rewrite Hr, fmap_app. cbn. by rewrite <-app_assoc. }
  exists c', ((inner_id i step, r) :: rs). split.
  - split; [done|by rewrite Hr', Hr, <-app_assoc|by apply prefix_cons|].
    intros [|k] s x; cbn [lookup list_lookup take].
    + intros [= <-] [= Hx] Hp Hbad. by apply (Hhead x).
    + intros Hl Hx Hp Hbad. apply (Hk' k s x Hl Hx Hp). rewrite Nat.add_succ_r in Hbad.
      by rewrite Hr, <-app_assoc.
  - cbn [inner_loop]. rewrite Hn. destruct Hflow as [[Ha Hb]|[?|(e & ? & ?)]]; [left|by right; left|right; right].
    + split; [done|]. cbn. by rewrite Hb.
    + exists e. split; [done|]. cbn. lia.
Qed.

(** The outputs the action would write. *)
Definition written_outputs (outputs : option (list (string * value num))) (c : Composite) : list (string * string) :=
  match outputs with Some defs => composite_outputs defs c | None => [] end.

Lemma length_inner_ids i steps : length (inner_ids i steps) = length steps.
Proof. revert i. induction steps as [|step steps IH]; intros i; cbn; [done|]. by rewrite IH. Qed.

(** C23: what a composite action returns, when the ids of its steps are
    distinct.  It succeeds exactly if it is nested less than ten deep, every
    step has a result and none of them is a failure, and the file for its
    outputs can be written or no output is; so not when the set-up of a step
    fails, which leaves the rest without results.  The results are always
    those of a prefix of the steps, in order.  Once one of them is a failure, or
    the job is cancelled, a step whose condition names no status function, is
    a valid expression by itself and is not too deep to be gated, is skipped if
    it has a result at all. *)
Theorem composite_result depth steps outputs input_env attempt write_error j :
  NoDup (inner_ids 0 steps) →
  let '(result, c, _) := run_composite_action_inner depth (Some steps) outputs input_env attempt write_error j in
  (result = Ok () ↔
     depth < MAX_COMPOSITE_DEPTH ∧ (c_results c).*1 = inner_ids 0 steps ∧ Forall (λ x, ¬ (failing x)) (c_results c) ∧
     (write_error = None ∨ written_outputs outputs c = [])) ∧
  (c_results c).*1 `prefix_of` inner_ids 0 steps ∧
  ∀ i step x, steps !! i = Some step → c_results c !! i = Some x → plain_condition (num:=num) (inner_condition step) →
    n_cancel (attempt i) = true ∨ Exists failing (take i (c_results c)) → x.2 = skipped_result.
Proof.
  intros Hnd. unfold run_composite_action_inner. destruct (Nat.leb_spec MAX_COMPOSITE_DEPTH depth) as [Hd|Hd].
  { split_and!; [split; [done|lia]|apply prefix_nil|done]. }
  destruct (inner_loop_adds input_env attempt steps 0 (mkComposite j [] None)) as (c & rs & [Hc Hr Hp Hk] & Hflow);
    [by split|done|]. cbn [c_results app] in Hr, Hk. unfold failed_ok in Hc. rewrite Hr in Hc.
  assert (∀ w, c_failed c ≠ None ∨ rs.*1 = inner_ids 0 steps →
    (let os := written_outputs outputs c in
     match w, os with
     | Some e, _ :: _ => Err (OutputFailed e)
     | _, _ => match c_failed c with Some e => Err e | None => Ok () end
     end) = Ok () ↔
    depth < MAX_COMPOSITE_DEPTH ∧ rs.*1 = inner_ids 0 steps ∧ Forall (λ x, ¬ (failing x)) rs ∧
    (w = None ∨ written_outputs outputs c = [])) as Hres.
  { intros w Hids. rewrite <-Hc. cbv zeta.
    destruct w, (written_outputs outputs c), (c_failed c); naive_solver. }
  specialize (Hres write_error). cbv zeta in Hres. fold (written_outputs outputs c).
  destruct Hflow as [[-> Hids]|[[-> Hf]|(e & -> & Hlen)]]; fold (written_outputs outputs c); cbv zeta.
  - revert Hres. destruct write_error, (written_outputs outputs c) eqn:Hw; intros Hres; cbv beta iota; rewrite ?Hw, Hr; (split_and!; [by apply Hres; right|done|exact Hk]).
  - revert Hres. destruct write_error, (written_outputs outputs c) eqn:Hw; intros Hres; cbv beta iota; rewrite ?Hw, Hr; (split_and!; [by apply Hres; left|done|exact Hk]).
  - rewrite Hr. split_and!; [|done|exact Hk]. split; [done|]. intros (_ & Hids & _).
    apply (f_equal length) in Hids. rewrite length_fmap, length_inner_ids in Hids. lia.
Qed.
End composite.

(** ** The outputs, as the step of the action reads them *)

(** An output that takes one line. *)
Definition single_line (o : string * string) : Prop :=
  Utf8.bytes o.1 ≠ [] ∧ (61%N ∉ Utf8.bytes o.1) ∧ FileCommands.occurs_not [60; 60]%N (Utf8.bytes o.1) ∧
  (10%N ∉ Utf8.bytes o.1) ∧ (10%N ∉ Utf8.bytes o.2) ∧ last (Utf8.bytes o.2) ≠ Some 13%N.

Lemma starts_after_name k v :
  FileCommands.occurs_not [60; 60]%N k → FileCommands.starts_after [60; 60]%N (length k) (k ++ [61]%N ++ v).
Proof.
  intros Hk a c He. destruct (le_lt_dec (length k) (length a)) as [?|Hlt]; [done|exfalso].
  apply app_eq_app in He as [l [[-> Hl]|[-> Hl]]].
  - destruct l as [|x [|y l]]; [rewrite app_nil_r in Hlt; lia|done|].
    injection Hl as <- <- _. by apply (Hk a l).
  - rewrite length_app in Hlt. lia.
Qed.

Lemma output_line_of o rest :
  single_line o → FileCommands.line_of (output_line o ++ rest) (Utf8.bytes o.1 ++ [61]%N ++ Utf8.bytes o.2) [10]%N rest.
Proof.
  intros (_ & _ & _ & Hk & Hv & Hl). unfold output_line. rewrite <-!app_assoc, !(app_assoc _ [61%N]), (app_assoc (_ ++ [61%N])).
  rewrite <-!app_assoc. rewrite !(app_assoc (Utf8.bytes o.1)), !(app_assoc (Utf8.bytes o.1 ++ [61%N])). constructor.
  - rewrite !elem_of_app, list_elem_of_singleton. intros [[?|?]|?]; done.
  - rewrite last_app. destruct (last (Utf8.bytes o.2)); [done|]. by rewrite last_app.
Qed.

Lemma write_outputs_run os :
  Forall single_line os →
  FileCommands.kv_run (write_outputs os) ((λ o, (Utf8.bytes o.1, Utf8.bytes o.2)) <$> os) None.
Proof.
  induction 1 as [|o os Ho _ IH]; [constructor|]. cbn. eapply FileCommands.kv_pair; [by apply output_line_of| | |exact IH].
  - destruct Ho as (_ & Hk & Hs & _). split; [done|]. split; [by apply FileCommands.starts_after_single|by apply starts_after_name].
  - apply Ho.
Qed.

Lemma collect_outputs os acc :
  NoDup os.*1 → FileCommands.collect acc ((λ o, (Utf8.bytes o.1, Utf8.bytes o.2)) <$> os) = list_to_map os ∪ acc.
Proof.
  unfold FileCommands.collect. revert acc. induction os as [|[k v] os IH]; intros acc Hnd; [cbn; by rewrite map_empty_union|].
  inversion Hnd as [|?? Hk Hnd']; subst. rewrite fmap_cons, list_to_map_cons. cbn [foldl fst snd].
  rewrite !of_bytes_bytes, IH by done.
  rewrite <-insert_union_r, insert_union_l; [done|]. by apply not_elem_of_list_to_map.
Qed.

(** Outputs of one line each that a composite action writes are what the
    reading of its step's [GITHUB_OUTPUT] gives, name by name. *)
Theorem composite_outputs_read_back os :
  Forall single_line os → NoDup os.*1 →
  FileCommands.parse_kv_text (write_outputs os) = Some (Ok (list_to_map os)).
Proof.
  intros Hos Hnd. apply FileCommands.parse_kv_iff. eexists _, None. split; [by apply write_outputs_run|].
  cbn [FileCommands.kv_outcome]. rewrite collect_outputs by done. by rewrite map_union_empty.
Qed.

(** ** Examples *)

Definition inner_script (id : string) (if_ : option string) (tolerated : bool) : value Z :=
  JObject ([("id", JString id); ("run", JString "make")]
    ++ (if if_ is Some c then [("if", JString c)] else [])
    ++ (if tolerated then [("continue-on-error", JBool true)] else [])).
Definition inner_attempt (error : option string) : InnerAttempt (num:=Z) :=
  mkInner sample_left ∅ false None error sample_left nothing_written.
Definition inner_attempts (errors : list (option string)) (i : nat) : InnerAttempt (num:=Z) :=
  inner_attempt (default None (errors !! i)).
Definition sample_composite (steps : list (value Z)) (errors : list (option string)) :=
  run_composite_action_inner no_files 0 (Some steps) None ∅ (inner_attempts errors) None sample_job.
Definition recorded_inner (r : result InnerError () * Composite (num:=Z) * bytes) : list (string * string * string) :=
  (λ x, (x.1, FileCommands.outcome x.2, FileCommands.conclusion x.2)) <$> c_results r.1.2.

Definition failing_composite : list (value Z) :=
  [inner_script "build" None false; inner_script "test" (Some "inputs.fast != 'true'") false;
   inner_script "clean" (Some "always()") false].

Example failing_composite_run : recorded_inner (sample_composite failing_composite [Some "exit code 1"]) =
  [("build", "Failure", "Failure"); ("test", "Skipped", "Skipped"); ("clean", "Success", "Success")].
Proof. by vm_compute. Qed.

Lemma failing_composite_ids : NoDup (inner_ids 0 failing_composite).
Proof. apply (bool_decide_unpack _). by vm_compute. Qed.

Lemma composite_result_witness :
  ∃ x, c_results (sample_composite failing_composite [Some "exit code 1"]).1.2 !! 1 = Some x ∧ x.2 = skipped_result.
Proof.
  pose proof (composite_result no_files 0 failing_composite None ∅ (inner_attempts [Some "exit code 1"]) None sample_job
    failing_composite_ids) as Hr.
  change (run_composite_action_inner _ _ _ _ _ _ _ _) with (sample_composite failing_composite [Some "exit code 1"]) in Hr.
  assert (∃ x, c_results (sample_composite failing_composite [Some "exit code 1"]).1.2 !! 1 = Some x) as [x Hx]
    by (eexists; vm_compute; reflexivity).
  assert (Exists failing (take 1 (c_results (sample_composite failing_composite [Some "exit code 1"]).1.2))) as Hf
    by (vm_compute; by left).
  exists x. split; [exact Hx|]. destruct (sample_composite _ _) as [[r c] b]. cbn [fst snd] in *.
  destruct Hr as (_ & _ & Hk). apply (Hk 1 (inner_script "test" (Some "inputs.fast != 'true'") false) x eq_refl Hx); [|by right].
  right. split; [by apply ascii_utf8_ok|]. split; [reflexivity|]. split; [eexists; vm_compute; reflexivity|by vm_compute].
Defined.

(** A tolerated failure: the outcome is [Success], where a step of the job has
    the outcome [Failure]. *)
Example tolerated_inner_outcome :
  recorded_inner (sample_composite [inner_script "lint" None true] [Some "exit code 1"]) = [("lint", "Success", "Success")].
Proof. by vm_compute. Qed.

Local Definition lf : string := String "010" "".
Lemma composite_outputs_read_back_witness :
  FileCommands.parse_kv_text (write_outputs [("version", "1.2"); ("url", "https://h/?a=b")])
    = Some (Ok (list_to_map [("version", "1.2"); ("url", "https://h/?a=b")])).
Proof.
  apply composite_outputs_read_back; [|by apply (bool_decide_unpack _); vm_compute].
  repeat apply Forall_cons_2; [| |apply Forall_nil_2]; unfold single_line; cbn [fst snd].
  all: split_and!; try by vm_compute.
  all: try by apply (bool_decide_unpack _); vm_compute.
  all: apply FileCommands.find_bytes_None; [done|]; by vm_compute.
Defined.

(** An output of two lines sets another output, or fails the step. *)
Example multiline_output_injects :
  FileCommands.parse_kv_text (write_outputs [("log", "done" +:+ lf +:+ "token=x")])
    = Some (Ok {["log" := "done"; "token" := "x"]}).
Proof. by vm_compute. Qed.
Example multiline_output_fails :
  FileCommands.parse_kv_text (write_outputs [("log", "done" +:+ lf +:+ "all good")])
    = Some (Err (FileCommands.InvalidLine "all good")).
Proof. by vm_compute. Qed.
